(* ===== verification/_CoqProject ===== *)
-Q . S2P
Prelude.v
RustStr.v
PatchTypes.v
StreamingPatch.v
PatchParser.v
PatchPreview.v
SeekSequence.v
TextFile.v
FileUpdate.v
FileSystem.v
ApplyPatch.v
StreamText.v
InlineHiddenTag.v
TaggedLine.v
ProposedPlan.v
Utf8Stream.v
HeadTailBuffer.v
Truncate.v
OutputTruncation.v
ResponseItem.v
ContextFragments.v
Normalize.v
TranscriptHistory.v
GuardianTranscript.v
TokenUsage.v
ContextManager.v
GuardianPrompt.v
GuardianBreaker.v
AgentPath.v
AgentRegistry.v
Template.v
NetworkPolicy.v
ShellCommand.v
AbsolutePath.v
PathUri.v
Permissions.v
WritableRoots.v
ExecPolicy.v
PolicyMatching.v
PolicyParser.v
ExecApproval.v
PolicyFile.v
Moa.v
ConfigToml.v
ConfigLayers.v
ConfigProject.v
ConfigEdits.v
Constrained.v
WorldState.v
EventMapping.v
Compaction.v
Rollout.v
RolloutReplay.v
RolloutTurns.v
BoundedScan.v
ThreadItems.v
ThreadHistory.v
ThreadTurns.v
ThreadChanges.v
HistoryProjection.v
ProjectionPasses.v
