(* ===== verification/Prelude.v ===== *)
(** * Verification of the deterministic core of codex-rs

    The program is a coding agent written in Rust (src/codex-rs).  A session
    streams text from a language model, runs tools for it (patches to files,
    commands in a terminal), keeps the conversation, has risky actions reviewed
    or approved, and feeds the results back.  This library models the
    deterministic code that decides what happens in between and proves what
    makes it correct.  All paths below are under src/codex-rs.

    ** Parts of the program and how they interact

    - apply-patch: the model sends an edit as a patch text.  While the text
      still streams, [StreamingPatchParser] (streaming_parser.rs) reads it
      character by character and reports the hunks so far; when it is complete,
      [parse_patch] (parser.rs) checks its boundaries, tolerates a heredoc
      wrapper and runs the same streaming parser.  [apply_hunks_to_files]
      (lib.rs) applies each hunk through the trait [ExecutorFileSystem]
      (file-system/src/lib.rs); an update hunk is located in the file by
      [seek_sequence] (seek_sequence.rs), turned into replacements by
      [compute_replacements] (file_update.rs) and spliced into the file either
      with its own line endings (text_file.rs) or on the normalised lines.
    - utils/stream-parser: the answer of the model arrives as bytes;
      [Utf8StreamParser] makes text of them, [InlineHiddenTagParser] hides
      citations and hands the visible text on to the line parser, which cuts
      out the proposed plan blocks; [AssistantTextStreamParser] composes them.
    - core/src/unified_exec, utils/string, utils/output-truncation: the output
      of a command is kept in a [HeadTailBuffer] of bounded size and cut to a
      byte or token budget before it goes back into the conversation.
    - core/src/context_manager: the conversation is a list of [ResponseItem]s
      (protocol/src/models.rs).  It is normalised before each request so that
      calls and outputs pair up, trimmed, rolled back and compacted; a bounded
      history of review evidence outlives the compactions.
    - core/src/compact.rs, core/src/context/world_state, history, rollout and
      core/src/session/rollout_reconstruction.rs: a compaction replaces the
      conversation by recent messages and a summary; the state that the model
      was told about is persisted as snapshots and merge patches; everything is
      appended to a rollout, from which a session is later reconstructed by a
      scan from the newest item back and a replay forward, on a part of the
      rollout that a bounded scan selects.
    - app-server-protocol: [ThreadHistoryBuilder] (thread_history.rs) turns the
      events of a rollout into the turns and items that clients see, keeps an
      index of the items of long turns, and reports what a batch of rollout
      items changed; a thread is forked at a turn by cutting its rollout there
      (core/src/thread_rollout_truncation.rs).
    - thread-store/src/local: the lines of a rollout are projected to changes
      (app-server-protocol, thread_history_projection.rs) and materialised in
      database rows, pass by pass, in a transaction that also moves the
      checkpoint.
    - core/src/guardian: an action that needs a review is shown to a reviewing
      model with a transcript of that evidence, bounded in size and, on a
      follow-up, only with what is new; a circuit breaker interrupts a turn in
      which the reviewer keeps denying.
    - core/src/agent, protocol/src/agent_path.rs: sub-agents have paths in a
      tree and are counted in a registry that threads share.
    - utils/template: the templates of prompts.
    - execpolicy, shell-command and core/src/exec_policy.rs: before a command
      runs, it is split into plain commands, a [Policy] of prefix rules decides
      on each, commands no rule mentions are judged by a fallback that looks for
      dangerous commands, and the decision becomes an approval requirement.
      Policies are read from Starlark files; a rule that the user accepts is
      added to the policy in memory and appended to a file.
    - protocol/src/permissions.rs and utils/path-uri: what a sandboxed command
      may read and write is a list of permission entries over paths, which are
      resolved for a working directory into an access for each path, into the
      writable roots given to the sandbox, and to and from the older sandbox
      policies.
    - network-proxy/src/policy.rs: which hosts a proxied command may reach.
    - config and app-server/src/config_manager_service.rs: the settings come
      from a stack of layers (system, user, project, session flags, managed
      files), each a TOML document; the documents are merged by precedence, the
      origin of every setting is recorded, documents of a project count only
      when the project is trusted and lose the keys a project may not set, and
      clients edit the user's document through a service that validates.
    - moa: a turn that asks several reference models first and gives the
      acting model a synthesis of their advice.

    ** Files, and what they model

    - Prelude: results and the question mark operator, [usize] arithmetic,
      list lemmas, [sort_by_key], [find_map], tactics and the hint database.  RustStr:
      strings, characters and the methods of the standard library that the
      crates call ([trim], [lines], [split], [strip_prefix], ...).
    - PatchTypes, StreamingPatch, PatchParser: the parsers.  The record
      [StreamingPatchParser] has the fields of the source; [push_delta],
      [push_char], [process_line] and [finish] return the new parser paired
      with a result, so the state an error leaves behind is kept.  PatchPreview:
      what is reported of a document whose text has arrived in part.
    - SeekSequence, TextFile, FileUpdate: locating lines and rewriting a file.
      FileSystem: the trait as the class [ExecutorFileSystem] over a store, the
      laws the applier relies on as the class [FileSystemLaws], and an
      in-memory instance [MemFs].  ApplyPatch: [ApplyState] is the function's
      mutable state (store, output buffers, delta, affected paths); one
      definition per kind of hunk.
    - StreamText: the trait [StreamTextParser] as a class and its laws
      [StreamTextLaws] (an empty push is neutral, pushes compose up to
      [chunk_equiv]); InlineHiddenTag, TaggedLine and ProposedPlan implement
      and instantiate it; Utf8Stream is proved against the laws only.
    - HeadTailBuffer, Truncate, OutputTruncation: bounded output.
    - ResponseItem: the items of a conversation and the payloads of outputs.
      ContextFragments: which texts are injected context rather than the user's.
      Normalize: context_manager/normalize.rs.  TranscriptHistory: the bounded
      review history.  TokenUsage: token estimates.  ContextManager: the record
      of that name and its operations (history.rs).
    - WorldState: context/world_state/mod.rs.  EventMapping: event_mapping.rs,
      which items are messages of the user.  Compaction: the pure part of
      compact.rs.  Rollout: the items of a rollout, truncation by message
      (thread_rollout_truncation.rs) and [ModelContextScan]
      (rollout/src/model_context.rs).  RolloutReplay: rollout_reconstruction.rs;
      [ReplayScan] has the mutable variables of the function.  RolloutTurns: the
      reading of a rollout as turns and rollbacks.  BoundedScan: the proof that
      what the scan selects is enough.
    - ThreadItems: the items of v2/item.rs and the conversions of
      item_builders.rs.  ThreadHistory: thread_history.rs, one definition per
      handler, and the truncations of a rollout by turn id.  ThreadTurns: every
      handler as a sequence of moves on the turns.  ThreadChanges: what a client
      does with reported changes ([apply_changes]), and the proofs about them.
    - HistoryProjection: thread_history_projection.rs, the reader of
      thread_history_materialization.rs and the writer of thread_history.rs, whose
      SQL statements are functions on the rows of a thread ([HistoryStore]).
      ProjectionPasses: the proofs about passes.
    - GuardianTranscript and GuardianPrompt: guardian/prompt.rs, the collection,
      truncation, selection and rendering of transcript entries and the parsing
      of an assessment.  GuardianBreaker: the circuit breaker of
      guardian/mod.rs.
    - AgentPath; AgentRegistry: agent/registry.rs, the operations under its lock
      as functions and the atomic counter as a step relation over threads.
    - Template: utils/template.  NetworkPolicy: hosts, addresses and domain
      patterns of the proxy.
    - ShellCommand: shell-command/src/bash.rs, shell_detect.rs and
      is_dangerous_command.rs on syntax trees.  AbsolutePath: utils/absolute-path.
      PathUri: the operations of utils/path-uri on file URIs.  Permissions: the
      entries and policies of protocol/src/permissions.rs and which access they
      give a path.  WritableRoots: the writable roots and protected names of a
      policy, and the legacy sandbox policies of protocol/src/protocol.rs.
    - ExecPolicy: rules and policies; PolicyMatching: lemmas on which rules
      decide.  PolicyParser: execpolicy/src/parser.rs and the loading of files.
      ExecApproval: core/src/exec_policy.rs, exec_policy/model_policy.rs and the
      choice of the first attempt of core/src/tools/sandboxing.rs.  PolicyFile:
      execpolicy/src/amend.rs and sandbox_migration.rs and the updates that
      save a rule.
    - ConfigToml: documents as association lists, and config/src/key_aliases.rs,
      merge.rs and overrides.rs.  ConfigLayers: config_layer_source.rs, state.rs
      (the stack and its operations) and fingerprint.rs.  ConfigProject: the part
      of loader/mod.rs about projects (discovery, trust, sanitising, loading).
      ConfigEdits: config_manager_service.rs, the whole handler of a write.
      Constrained: constraint.rs.
    - Moa: configuration, advisory view and turn.

    ** What the theorems show

    - C1-C3, the patch parsers: however the text of a patch document is cut into
      deltas, the hunks reported are those of the complete lines that have
      arrived, and at the end those of the document; every hunk of an accepted
      patch is well formed; the text of every well-formed patch document parses to
      exactly its hunks.
    - C4-C6, applying: [seek_sequence] returns the first index of the strictest
      of its four levels that matches at all, and a chunk marked as the end of
      the file only there (its doc comment promises a fallback); when the recorded delta is marked
      exact, the new file contents are the old ones with the delta replayed, also
      after a failure half way; applying never panics and a patch that does not parse leaves the store alone.
    - C7-C9, streaming text: the output on any cut of the text is a function of
      the whole text (the relation [Hidden], the line reading [read_lines]),
      composed for the assistant parser; bytes decode to the text they encode
      however they are cut.
    - C10, bounded output: the buffer is a summary of everything pushed.
    - C11-C13, the conversation: normalising pairs calls with outputs and replaces
      unsupported media (a debug build panics on irregular histories), a rollback
      drops exactly the last turns (a comment says otherwise for histories
      without user turns), and all operations together refine an append-only
      ledger of evidence.
    - C14-C15, world state and compaction: replaying the persisted snapshots and
      patches gives the last state; a compacted history holds the most recent
      messages within the budget, in order, and the summary.
    - C16-C19, rollouts: reconstruction never fails and gives the history of a
      full replay when no checkpoint was rolled back or one survives; it
      implements a reading of turns and rollbacks from the oldest item on; and a
      session resumed from what the bounded scan selects is the
      one resumed from the whole rollout, for rollouts of current sessions.  C19 is a defect: a checkpoint in a
      turn that was rolled back takes all earlier turns with it.
    - C20-C23, the turns of a thread: a client that applies the coalesced changes
      has the turns that rebuilding gives; any rollout can be rebuilt, and a
      rollback drops exactly the last turns; the index of a turn answers as a
      search does; a rollout is cut before a turn as if the turn was always
      looked up.
    - C24-C25, the materialised history: reading a growing rollout in passes, cut
      at any byte, is reading it at once; the row of a finished turn is final.
    - C26-C28, reviews: entries are truncated (both boundary walks end) and
      selected as documented and within budget (a marker that does not fit is
      returned alone), and a follow-up review never
      misses what it has not seen.
    - C29, agents: in every interleaving of threads the count stays within the
      limit and the reservations made without one.
    - C30-C31, permissions: the access of a path is that of the nearest entry, and
      what a writable root given to the sandbox admits is allowed by the entries,
      also when the root is reached through a link such as [/tmp].
    - C32-C36, policies and approval: the decision is the strictest of the
      matching rules and loaded files mean what their calls say; a command runs
      unapproved only when that is justified; an accepted amendment takes effect
      and is saved or leaves no trace.
    - C37-C39, configuration: for documents in normal form the merged
      configuration and the reported origins come from the deciding layer, a
      project's document cannot set what it may not and untrusted projects
      contribute nothing, and a write through the service only touches the user's
      file, and that only when every edit is valid, with exactly the paths whose
      value changed.
    - C40, mixing agents: a turn does not depend on the order in which the
      references answer.
    The files have further theorems of the same kind (heredocs, source file round
    trips, replacements, tagged lines, truncation, token estimates, reservations,
    collected evidence, agent paths, templates, address ranges, file URIs, full
    disk access, overlays, host lists, examples of rules, restarts, the one-shot
    migration, merging of documents, the order of layers, sanitised documents,
    command-line overrides, quoted key paths, constrained values, the place of
    the initial context, configuration of moa, the breaker of reviews, denials that
    only narrow, legacy policies, deltas undone, nested dangerous commands, cuts after a turn), and some that
    state defects: an update that moves a file onto itself deletes it, a denied
    directory called [~] below a linked root stays writable
    ([tilde_carveout_lost]),
    the blank line at the end of a file disappears with normalised line endings
    ([normalize_drops_final_blank_line]), a write that another layer shadows by a
    legacy key is reported as effective ([shadowed_write_not_reported]).

    ** Representation, bounds and fuel

    - A [str] is the list of its Unicode scalar values ([N]); byte lengths are
      those of UTF-8.  Offsets that only ever fall on boundaries are counted
      in characters; Truncate keeps byte offsets, with a slice off a boundary
      as the value [None].  [None] is a panic wherever a definition returns
      [option] in place of the source's plain value.
    - [usize] is 64 bits wide; saturating operations saturate at [usize_max].
      Lengths of vectors and strings in memory are exact.
    - [inline_loop] recurses on fuel; each turn removes at least one character,
      so the length of the pending text plus one is enough, and C7 proves that
      the run returns.  [from_utf8] decodes one character per unit of fuel,
      bounded by the number of bytes; the template parser has fuel for every
      character of the source; walks over syntax trees have the size of the tree;
      a walk to a character boundary takes at most four steps; the search for
      dangerous commands recurses on the nine levels the source allows.
      Everything else is structural.
    - A [HashMap] or [MultiMap] is a [gmap]; where the source depends on the
      iteration order (the first preset of moa) the order is a parameter.
    - Addresses are numbers of 32 and 128 bits; a budget scaled by an
      [f64] is computed with the standard library's floating-point specification.

    ** Parameters

    The file system operations ([ExecutorFileSystem], [PathOps]); the parser
    inside [Utf8StreamParser]; JSON values and their encodings ([SerdeJson],
    [ReviewEncoding], [ActionEncoding], the encoding of a string); the fragment
    parsers of other crates ([FragmentParsers]); sizes of items and turn types
    ([ItemMeasures], [TurnTypes]); payloads of rollout items that replay never
    reads ([RolloutTypes]); paths, JSON, renderings and payloads of thread items
    ([ThreadLib]); the decoding of rollout lines and timestamps ([ProjectionLib]);
    UUIDs; thread ids; address and host syntax
    and glob compilation ([HostParsers]); the [url] crate ([UrlLib] with
    [UrlLaws]); lower case outside ASCII ([UnicodeCase]); JSON encodings and
    digests of documents ([ConfigEncoding]); the typed form of environment
    filters ([FilterDecoding]); parsing and reading of project files
    ([ProjectLib] with [ProjectLaws]); the loader and writer behind the
    configuration service ([ConfigService]); tree-sitter ([BashParser]); Starlark
    and shlex ([StarlarkLib]); the home and current directory; the model calls
    ([MoaLlmCaller]) and the order in which they complete; debug renderings in
    messages.  What is assumed of them are the classes of laws and the named
    hypotheses of the theorems, each with an instance or a witness; on paths
    these are plain names, an existing /tmp when it is used and, for the writable
    roots, the behaviour of links ([HostLaws]: only links in the root directory
    are followed, as the code does), for patches that distinct paths of the file
    system are distinct files, on configuration well-formed documents and keys
    without dots.

    ** Not modelled

    Input and output (among it failures of writing to the output of apply_patch),
    debug assertions other than those of normalize.rs,
    the selection of the policy files of a layer, the requirements of the
    credential broker, the asynchronous session loop, user interfaces, serde
    types and network clients; code whose substance is an external library
    (Starlark, tree-sitter, unified diffs, SQLite); Windows variants of path
    handling and command safety; the text of URIs and of paths of another
    platform, read-denying globs, the serialised forms and the intersection of
    permission profiles; the discovery of the other configuration layers, the
    layers of requirements and the trust of git worktrees.  Candidates for
    extension, in order: the intersection of permission profiles, the layers of
    requirements, the bounding of executed tool calls, the frames of exec-server
    and app-server-transport, the read-only listings of execpolicy. *)

From stdpp Require Export strings pretty.
From stdpp Require Export base tactics list list_numbers numbers option gmap sorting.
From Stdlib Require Export ZArith NArith Lia.

#[export] Set Default Goal Selector "!".

#[global] Arguments N.eqb : simpl never.
#[global] Arguments N.leb : simpl never.
#[global] Arguments N.ltb : simpl never.

(** ** Results: Rust's [Result<T, E>] *)

Inductive result (A E : Type) : Type :=
| Ok (a : A)
| Err (e : E).
Arguments Ok {A E} a.
Arguments Err {A E} e.

Definition result_bind {A B E} (r : result A E) (k : A -> result B E) : result B E :=
  match r with
  | Ok a => k a
  | Err e => Err e
  end.

Definition is_ok {A E} (r : result A E) : bool :=
  match r with Ok _ => true | Err _ => false end.

Definition result_map {A B E} (f : A -> B) (r : result A E) : result B E :=
  result_bind r (fun a => Ok (f a)).

Definition result_map_err {A E F} (f : E -> F) (r : result A E) : result A F :=
  match r with Ok a => Ok a | Err e => Err (f e) end.

Declare Scope rust_scope.
Delimit Scope rust_scope with rust.
Open Scope rust_scope.
#[export] Set Warnings "-abstract-large-number".

(** The question mark operator: [let? x := e in k] returns early on [Err]. *)
Notation "'let?' x := e 'in' k" := (result_bind e (fun x => k))
  (at level 10, x pattern, e at level 200, k at level 200) : rust_scope.

(** ** Machine arithmetic on [usize] (64 bit targets) *)

Definition usize_max : N := 18446744073709551615%N.
Definition usize_sat (n : N) : N := N.min n usize_max.
Definition saturating_add (a b : N) : N := usize_sat (a + b)%N.
Definition saturating_mul (a b : N) : N := usize_sat (a * b)%N.
Definition saturating_sub (a b : N) : N := (a - b)%N.

Lemma usize_sat_le n : (usize_sat n <= usize_max)%N.
Proof. unfold usize_sat. lia. Qed.

Lemma usize_sat_small n : (n <= usize_max)%N -> usize_sat n = n.
Proof. unfold usize_sat. lia. Qed.

Lemma usize_sat_idemp n : usize_sat (usize_sat n) = usize_sat n.
Proof. unfold usize_sat. lia. Qed.

(** Saturation commutes with later saturating additions, so a chain of
    saturating additions is the saturation of the exact sum. *)
Lemma saturating_add_sat_l a b : saturating_add (usize_sat a) b = usize_sat (a + b)%N.
Proof. unfold saturating_add, usize_sat. lia. Qed.

(** ** Tactics *)

(** Split the innermost [match] or [if] of the goal or of a hypothesis. *)
Ltac split_match :=
  match goal with
  | |- context [match ?x with _ => _ end] =>
      lazymatch x with context [match _ with _ => _ end] => fail | _ => destruct x eqn:? end
  | H : context [match ?x with _ => _ end] |- _ =>
      lazymatch x with context [match _ with _ => _ end] => fail | _ => destruct x eqn:? end
  end.

Ltac split_matches := repeat (split_match; simplify_eq/=; try done).

(** Decide the comparisons of closed characters. *)
Ltac eval_eqb :=
  repeat match goal with
  | |- context [(?a =? ?b)%N] =>
      first [change (a =? b)%N with true | change (a =? b)%N with false]; cbv iota
  end.

(** ** Options *)

Definition is_some_and {A} (f : A -> bool) (o : option A) : bool :=
  match o with Some a => f a | None => false end.

(** ** Lists *)

Definition is_nil {A} (l : list A) : bool := match l with [] => true | _ => false end.

Lemma is_nil_true {A} (l : list A) : is_nil l = true <-> l = [].
Proof. by destruct l. Qed.

Lemma is_nil_false {A} (l : list A) : is_nil l = false <-> l <> [].
Proof. by destruct l. Qed.

Lemma is_nil_snoc {A} (l : list A) x : is_nil (l ++ [x]) = false.
Proof. by destruct l. Qed.

(** [Iterator::find_map] *)
Fixpoint find_map {A B} (f : A -> option B) (l : list A) : option B :=
  match l with
  | [] => None
  | x :: l' => match f x with Some y => Some y | None => find_map f l' end
  end.

Lemma find_map_none {A B} (f : A -> option B) l : find_map f l = None <-> forall x, x ∈ l -> f x = None.
Proof.
  induction l as [|x l IH]; simpl; [split; [set_solver|done]|]. destruct (f x) eqn:E.
  - split; [done|]. intros H. specialize (H x). set_solver.
  - rewrite IH. split; [intros H y [->|Hy]%elem_of_cons; eauto|]. intros H y Hy. apply H. by right.
Qed.

Lemma find_map_app_l {A B} (f : A -> option B) l l' : find_map f l <> None -> find_map f (l ++ l') = find_map f l.
Proof. induction l as [|x l IH]; [done|]. simpl. by destruct (f x). Qed.

Lemma find_map_exists {A B} (f : A -> option B) l : Exists (fun x => f x <> None) l -> find_map f l <> None.
Proof. induction 1 as [x l H|x l _ IH]; simpl; [by destruct (f x)|by destruct (f x)]. Qed.

Lemma find_map_some {A B} (f : A -> option B) l y : find_map f l = Some y -> exists x, x ∈ l /\ f x = Some y.
Proof.
  induction l as [|x l IH]; simpl; [done|]. destruct (f x) eqn:E.
  - intros [= ->]. exists x. split; [by left|done].
  - intros (z & Hz & Hf)%IH. exists z. split; [by right|done].
Qed.

Section lists.
Context {A : Type}.
Implicit Types (l : list A) (p : A -> bool).

(** Drop the longest prefix whose elements satisfy [p]. *)
Fixpoint drop_while p l : list A :=
  match l with
  | [] => []
  | x :: l' => if p x then drop_while p l' else l
  end.

(** Drop the longest suffix whose elements satisfy [p]. *)
Definition drop_while_end p l : list A := rev (drop_while p (rev l)).

(** Replace the last element ([last_mut] followed by an assignment). *)
Fixpoint update_last (f : A -> A) l : list A :=
  match l with
  | [] => []
  | [x] => [f x]
  | x :: l' => x :: update_last f l'
  end.

Lemma update_last_snoc f l x : update_last f (l ++ [x]) = l ++ [f x].
Proof.
  induction l as [|y l IH]; [done|]. cbn. destruct l; [done|]. f_equal. exact IH.
Qed.

Lemma last_snoc_inv l x : last l = Some x -> exists l', l = l' ++ [x].
Proof.
  intros H. destruct l as [|y l0] using rev_ind; [done|].
  rewrite last_snoc in H. simplify_eq. eauto.
Qed.

Lemma drop_while_idemp p l : drop_while p (drop_while p l) = drop_while p l.
Proof.
  induction l as [|x l IH]; simpl; [done|].
  destruct (p x) eqn:E; [done|]. simpl. by rewrite E.
Qed.

Lemma drop_while_suffix p l : exists l1, l = l1 ++ drop_while p l /\ Forall (fun x => p x = true) l1.
Proof.
  induction l as [|x l [l1 [H1 H2]]]; simpl; [exists []; auto|].
  destruct (p x) eqn:E; [exists (x :: l1); split; [simpl; by f_equal|by constructor]|].
  by exists [].
Qed.

Lemma drop_while_head p l x l' : drop_while p l = x :: l' -> p x = false.
Proof.
  induction l as [|y l IH]; simpl; [done|].
  destruct (p y) eqn:E; [done|]. intros; by simplify_eq.
Qed.

Lemma drop_while_id p l : (forall x l', l = x :: l' -> p x = false) -> drop_while p l = l.
Proof. destruct l as [|x l]; simpl; [done|]. intros H. by rewrite (H x l). Qed.

Lemma drop_while_app_all p l1 l2 :
  Forall (fun x => p x = true) l1 -> drop_while p (l1 ++ l2) = drop_while p l2.
Proof. induction 1 as [|x l1 Hx _ IH]; simpl; [done|]. by rewrite Hx. Qed.

Lemma drop_while_app_stop p l1 l2 :
  drop_while p l1 <> [] -> drop_while p (l1 ++ l2) = drop_while p l1 ++ l2.
Proof.
  induction l1 as [|x l1 IH]; simpl; [done|]. destruct (p x) eqn:E; auto.
Qed.

Lemma drop_while_nil p l : drop_while p l = [] <-> Forall (fun x => p x = true) l.
Proof.
  induction l as [|x l IH]; simpl; [done|].
  rewrite Forall_cons. destruct (p x); [|split; [done|by intros [? _]]].
  rewrite IH. tauto.
Qed.

Lemma drop_while_end_prefix p l :
  exists l2, l = drop_while_end p l ++ l2 /\ Forall (fun x => p x = true) l2.
Proof.
  destruct (drop_while_suffix p (rev l)) as (l1 & H1 & H2).
  exists (rev l1). unfold drop_while_end. split.
  - rewrite <- rev_app_distr, <- H1. by rewrite rev_involutive.
  - by apply List.Forall_rev.
Qed.

Lemma drop_while_end_id p l :
  (forall x, last l = Some x -> p x = false) -> drop_while_end p l = l.
Proof.
  intros H. unfold drop_while_end. rewrite drop_while_id; [by rewrite rev_involutive|].
  intros x l' E. apply H. rewrite <- (rev_involutive l), E. simpl. by rewrite last_snoc.
Qed.

Lemma drop_while_end_last p l x : last (drop_while_end p l) = Some x -> p x = false.
Proof.
  unfold drop_while_end. intros H. apply last_snoc_inv in H as [l' H].
  apply (f_equal (@rev A)) in H. rewrite rev_involutive, rev_app_distr in H.
  simpl in H. by eapply drop_while_head.
Qed.

Lemma take_all l n : length l <= n -> take n l = l.
Proof. apply take_ge. Qed.

End lists.

(** ** Sorting by a key (Rust's stable [sort_by_key]) *)

Section sort_by_key.
Context {A : Type} (key : A -> nat).

Fixpoint insert_by_key (x : A) (l : list A) : list A :=
  match l with
  | [] => [x]
  | y :: l' => if key y <=? key x then y :: insert_by_key x l' else x :: l
  end.

Fixpoint sort_acc (acc l : list A) : list A :=
  match l with
  | [] => acc
  | x :: l' => sort_acc (insert_by_key x acc) l'
  end.

(** Insert the elements from left to right, each one after the elements
    with an equal key: the result is the stable sort. *)
Definition sort_by_key (l : list A) : list A := sort_acc [] l.

Definition key_le (x y : A) : Prop := key x <= key y.

Lemma insert_by_key_perm x l : Permutation (insert_by_key x l) (x :: l).
Proof.
  induction l as [|y l IH]; simpl; [done|]. case_match; [|done].
  rewrite IH. apply perm_swap.
Qed.

Lemma insert_by_key_sorted x l :
  StronglySorted key_le l -> StronglySorted key_le (insert_by_key x l).
Proof.
  induction 1 as [|y l Hs IH Hy]; simpl; [repeat constructor|].
  destruct (Nat.leb_spec (key y) (key x)).
  - constructor; [done|]. rewrite insert_by_key_perm. by constructor.
  - constructor; [by constructor|]. constructor; [unfold key_le; lia|].
    eapply Forall_impl; [exact Hy|]. unfold key_le. simpl. lia.
Qed.

Lemma sort_acc_perm acc l : Permutation (sort_acc acc l) (acc ++ l).
Proof.
  revert acc; induction l as [|x l IH]; intros acc; simpl; [by rewrite app_nil_r|].
  rewrite IH, insert_by_key_perm. simpl. by rewrite Permutation_middle.
Qed.

Lemma sort_by_key_perm l : Permutation (sort_by_key l) l.
Proof. unfold sort_by_key. by rewrite sort_acc_perm. Qed.

Lemma sort_by_key_sorted l : StronglySorted key_le (sort_by_key l).
Proof.
  unfold sort_by_key. assert (H : StronglySorted key_le (@nil A)) by constructor.
  revert H. generalize (@nil A) as acc. induction l as [|x l IH]; intros acc H; simpl; [done|].
  apply IH. by apply insert_by_key_sorted.
Qed.

(** An element whose key is an upper bound goes to the end. *)
Lemma insert_by_key_last x l :
  Forall (fun y => key y <= key x) l -> insert_by_key x l = l ++ [x].
Proof.
  induction 1 as [|y l Hy _ IH]; simpl; [done|].
  destruct (Nat.leb_spec (key y) (key x)); [by rewrite IH|lia].
Qed.

(** Sorted lists with distinct keys are determined by their elements. *)
Lemma sorted_perm_unique l1 l2 :
  StronglySorted key_le l1 -> StronglySorted key_le l2 -> Permutation l1 l2 ->
  NoDup (map key l1) -> l1 = l2.
Proof.
  intros H1. revert l2. induction H1 as [|x l1 H1 IH Hx]; intros l2 H2 Hp Hnd.
  { by apply Permutation_nil_l in Hp. }
  destruct H2 as [|y l2 H2 Hy]; [by symmetry in Hp; apply Permutation_nil_l in Hp|].
  assert (x = y) as ->.
  { assert (Hyin : y ∈ x :: l1) by (rewrite Hp; by left).
    assert (Hxin : x ∈ y :: l2) by (rewrite <- Hp; by left).
    apply elem_of_cons in Hyin as [|Hyin]; [done|].
    apply elem_of_cons in Hxin as [|Hxin]; [done|exfalso].
    rewrite Forall_forall in Hx, Hy. apply Hx in Hyin as Hle1. apply Hy in Hxin as Hle2.
    unfold key_le in *. simpl in Hnd. apply NoDup_cons in Hnd as [Hnd _]. apply Hnd.
    replace (key x) with (key y) by lia. apply list_elem_of_In, in_map. by apply list_elem_of_In. }
  f_equal. apply IH; [done|by apply Permutation_cons_inv in Hp|].
  simpl in Hnd. by apply NoDup_cons in Hnd as [_ ?].
Qed.

Lemma sort_by_key_unique l l' :
  StronglySorted key_le l -> NoDup (map key l) -> Permutation l' l -> sort_by_key l' = l.
Proof.
  intros Hs Hnd Hp. symmetry. apply sorted_perm_unique; [done|apply sort_by_key_sorted| |done].
  by rewrite sort_by_key_perm.
Qed.

End sort_by_key.

Create HintDb rust.
#[export] Hint Resolve usize_sat_le : rust.
