(* ===== verification/RustStr.v ===== *)
(** * Rust strings

    A [str] is the list of its Unicode scalar values.  Byte lengths are those
    of the UTF-8 encoding ([len]); a byte offset of the source that always
    falls on a character boundary is represented by the number of characters
    before it, which orders the same way.  The operations are the ones of
    [core::str] and [alloc::string] that the modelled crates call. *)

From S2P Require Import Prelude.

Notation char := N (only parsing).
Notation str := (list N) (only parsing).

(** ASCII literals. *)
Fixpoint lit (s : String.string) : str :=
  match s with
  | String.EmptyString => []
  | String.String a s' => Ascii.N_of_ascii a :: lit s'
  end.

Arguments lit s%_string_scope : simpl never.

Definition ch_lf : char := 10%N.
Definition ch_cr : char := 13%N.
Definition ch_space : char := 32%N.
Definition ch_dquote : char := 34%N.
Definition ch_squote : char := 39%N.
Definition ch_plus : char := 43%N.
Definition ch_minus : char := 45%N.
(** U+2026 HORIZONTAL ELLIPSIS *)
Definition ch_ellipsis : char := 8230%N.

Definition str_eqb (a b : str) : bool := bool_decide (a = b).

(** ** Lengths *)

Definition len_utf8 (c : char) : N :=
  if (c <? 128)%N then 1%N
  else if (c <? 2048)%N then 2%N
  else if (c <? 65536)%N then 3%N
  else 4%N.

(** [str::len]: the number of bytes. *)
Fixpoint len (s : str) : N :=
  match s with
  | [] => 0%N
  | c :: s' => (len_utf8 c + len s')%N
  end.

(** [s.chars().count()] *)
Definition chars_count (s : str) : N := N.of_nat (length s).

(** ** Whitespace and trimming *)

(** [char::is_whitespace]: the Unicode White_Space property. *)
Definition is_whitespace (c : char) : bool :=
  ((9 <=? c) && (c <=? 13) || (c =? 32) || (c =? 133) || (c =? 160) || (c =? 5760)
   || (8192 <=? c) && (c <=? 8202) || (c =? 8232) || (c =? 8233) || (c =? 8239)
   || (c =? 8287) || (c =? 12288))%N.

Arguments is_whitespace : simpl never.

Definition trim_start (s : str) : str := drop_while is_whitespace s.
Definition trim_end (s : str) : str := drop_while_end is_whitespace s.
Definition trim (s : str) : str := trim_end (trim_start s).

(** ** Prefixes, suffixes, search *)

Fixpoint strip_prefix (p s : str) : option str :=
  match p, s with
  | [], _ => Some s
  | a :: p', b :: s' => if (a =? b)%N then strip_prefix p' s' else None
  | _ :: _, [] => None
  end.

Definition starts_with (p s : str) : bool :=
  match strip_prefix p s with Some _ => true | None => false end.

Definition strip_suffix (p s : str) : option str :=
  match strip_prefix (rev p) (rev s) with Some r => Some (rev r) | None => None end.

Definition ends_with (p s : str) : bool :=
  match strip_suffix p s with Some _ => true | None => false end.

(** [s.find(needle)]: the first occurrence. *)
Fixpoint find (needle s : str) : option nat :=
  if starts_with needle s then Some 0
  else match s with
       | [] => None
       | _ :: s' => match find needle s' with Some i => Some (S i) | None => None end
       end.

Definition contains (needle s : str) : bool :=
  match find needle s with Some _ => true | None => false end.

Definition contains_char (c : char) (s : str) : bool := existsb (N.eqb c) s.

(** ** Splitting and joining *)

(** [s.split(c)]: never empty. *)
Fixpoint split_on (c : char) (s : str) : list str :=
  match s with
  | [] => [[]]
  | a :: s' =>
      if (a =? c)%N then [] :: split_on c s'
      else match split_on c s' with
           | [] => [[a]]
           | w :: ws => (a :: w) :: ws
           end
  end.

(** [s.split_once(c)]: around the first occurrence. *)
Fixpoint split_once (c : char) (s : str) : option (str * str) :=
  match s with
  | [] => None
  | a :: s' =>
      if (a =? c)%N then Some ([], s')
      else match split_once c s' with Some (l, r) => Some (a :: l, r) | None => None end
  end.

(** [s.rsplit_once(c)]: around the last occurrence. *)
Definition rsplit_once (c : char) (s : str) : option (str * str) :=
  match split_once c (rev s) with Some (l, r) => Some (rev r, rev l) | None => None end.

Definition strip_cr (line : str) : str :=
  match strip_suffix [ch_cr] line with Some l => l | None => line end.

(** [s.split_inclusive(LF)]: the pieces keep their line feeds. *)
Fixpoint split_inclusive (s : str) : list str :=
  match s with
  | [] => []
  | c :: s' =>
      if (c =? ch_lf)%N then [c] :: split_inclusive s'
      else match split_inclusive s' with
           | [] => [[c]]
           | w :: ws => (c :: w) :: ws
           end
  end.

(** [s.lines()]: terminators are [\n] or [\r\n]; a final line without [\n]
    keeps a trailing [\r]; there is no final empty line. *)
Definition lines (s : str) : list str :=
  match rev (split_on ch_lf s) with
  | [] => []
  | last_piece :: rest =>
      map strip_cr (rev rest) ++ (if bool_decide (last_piece = []) then [] else [last_piece])
  end.

(** [parts.join(sep)] *)
Fixpoint join (sep : str) (parts : list str) : str :=
  match parts with
  | [] => []
  | [p] => p
  | p :: ps => p ++ sep ++ join sep ps
  end.

(** ** Characters and formatting *)

Definition is_ascii_digit (c : char) : bool := ((48 <=? c) && (c <=? 57))%N.
Definition is_ascii_uppercase (c : char) : bool := ((65 <=? c) && (c <=? 90))%N.
Definition is_ascii_lowercase (c : char) : bool := ((97 <=? c) && (c <=? 122))%N.
Definition is_ascii_alphanumeric (c : char) : bool :=
  is_ascii_digit c || is_ascii_uppercase c || is_ascii_lowercase c.
Definition to_ascii_lowercase (s : str) : str :=
  map (fun c => if is_ascii_uppercase c then (c + 32)%N else c) s.

(** [format!("{n}")] of an unsigned integer. *)
Definition fmt_N (n : N) : str := lit (pretty n).
Definition fmt_nat (n : nat) : str := fmt_N (N.of_nat n).

(** ** Lemmas *)

Lemma str_eqb_eq a b : str_eqb a b = true <-> a = b.
Proof. unfold str_eqb. apply bool_decide_eq_true. Qed.

Lemma str_eqb_neq a b : str_eqb a b = false <-> a <> b.
Proof. unfold str_eqb. apply bool_decide_eq_false. Qed.

Lemma str_eqb_refl a : str_eqb a a = true.
Proof. by apply str_eqb_eq. Qed.

Lemma len_app a b : len (a ++ b) = (len a + len b)%N.
Proof. induction a; simpl; lia. Qed.

Lemma len_utf8_bounds c : (1 <= len_utf8 c <= 4)%N.
Proof. unfold len_utf8. repeat case_match; lia. Qed.

Lemma len_bounds s : (N.of_nat (length s) <= len s <= 4 * N.of_nat (length s))%N.
Proof. induction s as [|c s IH]; simpl; [lia|]. pose proof (len_utf8_bounds c). lia. Qed.

Lemma len_rev s : len (rev s) = len s.
Proof. induction s; simpl; [done|]. rewrite len_app. simpl. lia. Qed.

Lemma len_zero s : len s = 0%N <-> s = [].
Proof. destruct s as [|c s]; simpl; [done|]. pose proof (len_utf8_bounds c). split; [lia|done]. Qed.

Lemma strip_prefix_Some p s r : strip_prefix p s = Some r <-> s = p ++ r.
Proof.
  revert s; induction p as [|a p IH]; intros s; simpl; [naive_solver|].
  destruct s as [|b s]; [done|]. destruct (N.eqb_spec a b) as [->|Hne].
  - rewrite IH. split; congruence.
  - split; congruence.
Qed.

Lemma strip_prefix_app p r : strip_prefix p (p ++ r) = Some r.
Proof. by apply strip_prefix_Some. Qed.

Lemma strip_prefix_None p s : strip_prefix p s = None <-> ~ p `prefix_of` s.
Proof.
  split.
  - intros H [r ->]. by rewrite strip_prefix_app in H.
  - intros H. destruct (strip_prefix p s) as [r|] eqn:E; [|done].
    apply strip_prefix_Some in E as ->. exfalso. apply H. by exists r.
Qed.

Lemma starts_with_spec p s : starts_with p s = true <-> p `prefix_of` s.
Proof.
  unfold starts_with. destruct (strip_prefix p s) as [r|] eqn:E.
  - apply strip_prefix_Some in E as ->. split; [by exists r|done].
  - apply strip_prefix_None in E. naive_solver.
Qed.

Lemma strip_suffix_Some p s r : strip_suffix p s = Some r <-> s = r ++ p.
Proof.
  unfold strip_suffix. split.
  - case_match eqn:E; [|done]. intros; simplify_eq. apply strip_prefix_Some in E.
    apply (f_equal (@rev _)) in E. by rewrite rev_app_distr, !rev_involutive in E.
  - intros ->. rewrite rev_app_distr, strip_prefix_app. by rewrite rev_involutive.
Qed.

Lemma ends_with_spec p s : ends_with p s = true <-> p `suffix_of` s.
Proof.
  unfold ends_with. destruct (strip_suffix p s) as [r|] eqn:E.
  - apply strip_suffix_Some in E as ->. split; [by exists r|done].
  - split; [done|]. intros [r ->]. assert (H : strip_suffix p (r ++ p) = Some r).
    { by apply strip_suffix_Some. } congruence.
Qed.

Lemma trim_start_suffix s : trim_start s `suffix_of` s.
Proof. destruct (drop_while_suffix is_whitespace s) as (l1 & H & _). by exists l1. Qed.

Lemma trim_end_prefix s : trim_end s `prefix_of` s.
Proof. destruct (drop_while_end_prefix is_whitespace s) as (l2 & H & _). by exists l2. Qed.

Lemma trim_end_idemp s : trim_end (trim_end s) = trim_end s.
Proof.
  unfold trim_end, drop_while_end. by rewrite rev_involutive, drop_while_idemp.
Qed.

Definition no_ws_head (s : str) : Prop := forall c r, s = c :: r -> is_whitespace c = false.
Definition no_ws_last (s : str) : Prop := forall c, last s = Some c -> is_whitespace c = false.

Lemma trim_start_id s : no_ws_head s -> trim_start s = s.
Proof. intros H. by apply drop_while_id. Qed.

Lemma trim_end_id s : no_ws_last s -> trim_end s = s.
Proof. intros H. by apply drop_while_end_id. Qed.

Lemma trim_id s : no_ws_head s -> no_ws_last s -> trim s = s.
Proof. intros H1 H2. unfold trim. by rewrite trim_start_id, trim_end_id. Qed.

Lemma trim_end_last s : no_ws_last (trim_end s).
Proof. intros c H. by eapply drop_while_end_last. Qed.

(** A string that starts with a visible character is only trimmed on the right. *)
Lemma trim_visible c s : is_whitespace c = false -> trim (c :: s) = trim_end (c :: s).
Proof. intros H. unfold trim, trim_start. simpl. by rewrite H. Qed.

Lemma trim_end_cons c s : is_whitespace c = false -> trim_end (c :: s) = c :: trim_end s.
Proof.
  intros H. unfold trim_end, drop_while_end. simpl.
  destruct (decide (drop_while is_whitespace (rev s) = [])) as [E|E].
  - rewrite E. apply drop_while_nil in E. rewrite drop_while_app_all by done. simpl. by rewrite H.
  - rewrite drop_while_app_stop by done. by rewrite rev_app_distr.
Qed.

Lemma trim_end_nil s : trim_end s = [] <-> Forall (fun c => is_whitespace c = true) s.
Proof.
  unfold trim_end, drop_while_end. rewrite <- (rev_involutive s) at 2. split.
  - intros H. apply (f_equal (@rev _)) in H. rewrite rev_involutive in H. simpl in H.
    apply drop_while_nil in H. by apply List.Forall_rev.
  - intros H. apply List.Forall_rev in H. rewrite rev_involutive in H.
    apply drop_while_nil in H. by rewrite H.
Qed.

(** A text is blank exactly when all its characters are white space. *)
Lemma trim_nil s : trim s = [] <-> Forall (fun c => is_whitespace c = true) s.
Proof.
  unfold trim. rewrite trim_end_nil. destruct (drop_while_suffix is_whitespace s) as (l1 & H1 & H2).
  fold (trim_start s) in H1. rewrite H1 at 2. rewrite Forall_app. tauto.
Qed.

Lemma split_on_nonempty c s : split_on c s <> [].
Proof. destruct s; simpl; [done|]. case_match; [done|]. by case_match. Qed.

Lemma split_on_no_sep c s : c ∉ s -> split_on c s = [s].
Proof.
  induction s as [|a s IH]; simpl; [done|]. intros H.
  apply not_elem_of_cons in H as [H1 H2]. destruct (N.eqb_spec a c); [congruence|].
  by rewrite IH.
Qed.

Lemma split_on_app c s t : c ∉ s -> split_on c (s ++ c :: t) = s :: split_on c t.
Proof.
  induction s as [|a s IH]; simpl; intros H; [by rewrite N.eqb_refl|].
  apply not_elem_of_cons in H as [H1 H2]. destruct (N.eqb_spec a c); [congruence|].
  by rewrite IH.
Qed.

Lemma split_on_pieces c s : Forall (fun w => c ∉ w) (split_on c s).
Proof.
  induction s as [|a s IH]; simpl; [repeat constructor; set_solver|].
  destruct (N.eqb_spec a c) as [->|Hne]; [constructor; [set_solver|done]|].
  destruct (split_on c s); [repeat constructor; set_solver|].
  inv IH. constructor; [set_solver|done].
Qed.

(** Splitting and joining are inverse, in both directions. *)
Lemma join_split_on c s : join [c] (split_on c s) = s.
Proof.
  induction s as [|a s IH]; simpl; [done|].
  destruct (N.eqb_spec a c) as [->|Hne].
  - pose proof (split_on_nonempty c s). destruct (split_on c s); [done|]. simpl in *. by rewrite IH.
  - pose proof (split_on_nonempty c s). destruct (split_on c s) as [|w ws]; [done|].
    rewrite <- IH. by destruct ws.
Qed.

Lemma split_on_join c ws : ws <> [] -> Forall (fun w => c ∉ w) ws -> split_on c (join [c] ws) = ws.
Proof.
  intros Hne H. induction H as [|w ws Hw Hws IH]; [done|].
  destruct ws as [|w' ws]; [by apply split_on_no_sep|].
  change (join [c] (w :: w' :: ws)) with (w ++ c :: join [c] (w' :: ws)).
  rewrite split_on_app by done. by rewrite IH.
Qed.

(** Lines that [str::lines] gives back unchanged. *)
Definition clean_line (l : str) : Prop := ch_lf ∉ l /\ last l <> Some ch_cr.

Lemma strip_cr_id l : last l <> Some ch_cr -> strip_cr l = l.
Proof.
  intros H. unfold strip_cr. destruct (strip_suffix [ch_cr] l) as [r|] eqn:E; [|done].
  apply strip_suffix_Some in E as ->. by rewrite last_snoc in H.
Qed.

Lemma lines_join ls l :
  Forall clean_line ls -> clean_line l -> l <> [] ->
  lines (join [ch_lf] (ls ++ [l])) = ls ++ [l].
Proof.
  intros Hls [Hl1 Hl2] Hne. unfold lines. rewrite split_on_join.
  - rewrite rev_app_distr. simpl. rewrite rev_involutive, bool_decide_false by done.
    f_equal. induction Hls as [|x ls [_ Hx] _ IH]; simpl; [done|].
    by rewrite strip_cr_id, IH.
  - by destruct ls.
  - apply Forall_app_2; [|by constructor]. eapply Forall_impl; [exact Hls|]. by intros x [? _].
Qed.

Lemma split_inclusive_line l s :
  ch_lf ∉ l -> split_inclusive (l ++ ch_lf :: s) = (l ++ [ch_lf]) :: split_inclusive s.
Proof.
  induction l as [|c l IH]; intros Hl; simpl; [done|].
  apply not_elem_of_cons in Hl as [Hc Hl]. destruct (N.eqb_spec c ch_lf); [congruence|].
  by rewrite IH.
Qed.

Lemma split_inclusive_last l :
  ch_lf ∉ l -> split_inclusive l = if bool_decide (l = []) then [] else [l].
Proof.
  induction l as [|c l IH]; intros Hl; simpl; [done|].
  apply not_elem_of_cons in Hl as [Hc Hl]. destruct (N.eqb_spec c ch_lf); [congruence|].
  rewrite IH by done. by destruct l.
Qed.

(** ** Occurrences *)

(** [n] occurs in [s] at position [i]. *)
Definition occurs_at (n s : str) (i : nat) : Prop :=
  i + length n <= length s /\ take (length n) (drop i s) = n.

Lemma occurs_at_app_l n p q i : occurs_at n p i -> occurs_at n (p ++ q) i.
Proof.
  intros [H1 H2]. split; [rewrite length_app; lia|].
  rewrite drop_app_le, take_app_le by (rewrite ?length_drop; lia). done.
Qed.

Lemma occurs_at_app_inv n p q i :
  i + length n <= length p -> occurs_at n (p ++ q) i -> occurs_at n p i.
Proof.
  intros H [_ H2]. split; [done|].
  by rewrite drop_app_le, take_app_le in H2 by (rewrite ?length_drop; lia).
Qed.

(** An occurrence that starts in [p] and ends after it overlaps [p] in a
    proper prefix of the needle. *)
Lemma occurs_at_straddle n p q i :
  i <= length p <= i + length n -> occurs_at n (p ++ q) i ->
  drop i p = take (length p - i) n.
Proof.
  intros H [_ H2]. rewrite <- H2, take_take, Nat.min_l by lia.
  rewrite drop_app_le by lia. rewrite take_app_length' by (rewrite length_drop; lia). done.
Qed.

Lemma occurs_at_drop n s k i :
  k <= length s -> occurs_at n (drop k s) i <-> occurs_at n s (k + i).
Proof.
  intros Hk. unfold occurs_at. rewrite drop_drop, length_drop.
  split; intros [? ?]; (split; [lia|done]).
Qed.

Lemma occurs_at_split n s i :
  occurs_at n s i -> s = take i s ++ n ++ drop (i + length n) s.
Proof.
  intros [_ H]. rewrite <- H at 1. rewrite <- drop_drop, take_drop. by rewrite take_drop.
Qed.

Lemma occurs_at_starts_with n s : starts_with n s = true <-> occurs_at n s 0.
Proof.
  rewrite starts_with_spec. split.
  - intros [r ->]. split; [rewrite length_app; lia|]. by rewrite drop_0, take_app_length.
  - intros H. apply occurs_at_split in H. simpl in H. eexists. exact H.
Qed.

(** [find] is the first occurrence. *)
Lemma find_Some n s i :
  find n s = Some i <-> occurs_at n s i /\ forall j, occurs_at n s j -> i <= j.
Proof.
  revert i; induction s as [|c s IH]; intros i; simpl.
  - destruct (starts_with n []) eqn:E.
    + apply occurs_at_starts_with in E. split.
      * intros; simplify_eq. split; [done|lia].
      * intros [_ H]. apply H in E. f_equal. lia.
    + split; [done|]. intros [[H1 H2] _]. simpl in H1. assert (i = 0) as -> by lia.
      exfalso. assert (starts_with n [] = true); [|congruence].
      by apply occurs_at_starts_with.
  - destruct (starts_with n (c :: s)) eqn:E.
    + apply occurs_at_starts_with in E. split.
      * intros; simplify_eq. split; [done|lia].
      * intros [_ H]. apply H in E. f_equal. lia.
    + assert (Hno : ~ occurs_at n (c :: s) 0) by (rewrite <- occurs_at_starts_with; congruence).
      assert (Hs : forall j, occurs_at n (c :: s) (S j) <-> occurs_at n s j).
      { intros j. unfold occurs_at. simpl. split; intros [? ?]; (split; [lia|done]). }
      split.
      * destruct (find n s) as [j|] eqn:F; [|done]. intros; simplify_eq.
        destruct (proj1 (IH _) eq_refl) as [F1 F2]. split; [by apply Hs|].
        intros [|j'] Hj; [done|]. apply Hs, F2 in Hj. lia.
      * intros [H1 H2]. destruct i as [|i]; [done|]. apply Hs in H1.
        assert (find n s = Some i) as ->; [|done]. apply IH. split; [done|].
        intros j Hj. apply Hs, H2 in Hj. lia.
Qed.

Lemma find_None n s : find n s = None <-> forall j, ~ occurs_at n s j.
Proof.
  split.
  - induction s as [|c s IH]; simpl; destruct (starts_with n _) eqn:E; try done.
    + intros _ j [H1 H2]. simpl in H1. assert (j = 0) as -> by lia.
      assert (starts_with n [] = true); [by apply occurs_at_starts_with|congruence].
    + destruct (find n s) eqn:F; [done|]. intros _ [|j] Hj.
      * apply occurs_at_starts_with in Hj. congruence.
      * apply (IH eq_refl j). destruct Hj as [H1 H2]. split; [simpl in H1; lia|done].
  - intros H. destruct (find n s) as [i|] eqn:E; [|done].
    apply find_Some in E as [E _]. by apply H in E.
Qed.

Lemma find_app_l n p q i : find n p = Some i -> find n (p ++ q) = Some i.
Proof.
  rewrite !find_Some. intros [H1 H2]. split; [by apply occurs_at_app_l|].
  intros j Hj. destruct (decide (j + length n <= length p)) as [Hle|Hgt].
  - apply H2. by eapply occurs_at_app_inv.
  - destruct H1 as [H1 _]. lia.
Qed.

#[export] Hint Rewrite strip_prefix_app str_eqb_refl : rust.
