(* ===== verification/PatchTypes.v ===== *)
(** * Patch data (apply-patch/src/parser.rs, lib.rs)

    Markers, hunks, chunks and parse errors shared by the streaming parser,
    the batch parser and the file updater.  A [PathBuf] is the text it was
    parsed from ([PathBuf::from] and [display] are inverse on valid UTF-8). *)

From S2P Require Import Prelude RustStr.

Definition BEGIN_PATCH_MARKER : str := Eval vm_compute in lit "*** Begin Patch".
Definition END_PATCH_MARKER : str := Eval vm_compute in lit "*** End Patch".
Definition ADD_FILE_MARKER : str := Eval vm_compute in lit "*** Add File: ".
Definition DELETE_FILE_MARKER : str := Eval vm_compute in lit "*** Delete File: ".
Definition UPDATE_FILE_MARKER : str := Eval vm_compute in lit "*** Update File: ".
Definition MOVE_TO_MARKER : str := Eval vm_compute in lit "*** Move to: ".
Definition EOF_MARKER : str := Eval vm_compute in lit "*** End of File".
Definition CHANGE_CONTEXT_MARKER : str := Eval vm_compute in lit "@@ ".
Definition EMPTY_CHANGE_CONTEXT_MARKER : str := Eval vm_compute in lit "@@".
Definition ENVIRONMENT_ID_MARKER : str := Eval vm_compute in lit "*** Environment ID:".

Inductive ParseError : Type :=
| InvalidPatchError (message : str)
| InvalidHunkError (message : str) (line_number : nat).

Notation PathBuf := (list N) (only parsing).

Record UpdateFileChunk : Type := {
  change_context : option str;
  old_lines : list str;
  new_lines : list str;
  context_line_indices : list (nat * nat);
  is_end_of_file : bool;
}.

(** [UpdateFileChunk::default()] *)
Definition default_chunk : UpdateFileChunk := {|
  change_context := None; old_lines := []; new_lines := [];
  context_line_indices := []; is_end_of_file := false |}.

Definition push_context_line (self : UpdateFileChunk) (line : str) : UpdateFileChunk := {|
  change_context := self.(change_context);
  old_lines := self.(old_lines) ++ [line];
  new_lines := self.(new_lines) ++ [line];
  context_line_indices :=
    self.(context_line_indices) ++ [(length self.(old_lines), length self.(new_lines))];
  is_end_of_file := self.(is_end_of_file) |}.

(** [chunk.new_lines.push(line)] *)
Definition push_new_line (self : UpdateFileChunk) (line : str) : UpdateFileChunk := {|
  change_context := self.(change_context);
  old_lines := self.(old_lines);
  new_lines := self.(new_lines) ++ [line];
  context_line_indices := self.(context_line_indices);
  is_end_of_file := self.(is_end_of_file) |}.

(** [chunk.old_lines.push(line)] *)
Definition push_old_line (self : UpdateFileChunk) (line : str) : UpdateFileChunk := {|
  change_context := self.(change_context);
  old_lines := self.(old_lines) ++ [line];
  new_lines := self.(new_lines);
  context_line_indices := self.(context_line_indices);
  is_end_of_file := self.(is_end_of_file) |}.

(** [chunk.is_end_of_file = true] *)
Definition mark_end_of_file (self : UpdateFileChunk) : UpdateFileChunk := {|
  change_context := self.(change_context);
  old_lines := self.(old_lines);
  new_lines := self.(new_lines);
  context_line_indices := self.(context_line_indices);
  is_end_of_file := true |}.

Inductive Hunk : Type :=
| AddFile (path : PathBuf) (contents : str)
| DeleteFile (path : PathBuf)
| UpdateFile (path : PathBuf) (move_path : option PathBuf) (chunks : list UpdateFileChunk).

(** [Hunk::path]: the affected path, the destination for a rename. *)
Definition hunk_path (self : Hunk) : PathBuf :=
  match self with
  | AddFile path _ => path
  | DeleteFile path => path
  | UpdateFile _ (Some path) _ => path
  | UpdateFile path None _ => path
  end.

(** The path [Hunk::resolve_path] joins to the working directory. *)
Definition hunk_source_path (self : Hunk) : PathBuf :=
  match self with
  | UpdateFile path _ _ => path
  | AddFile _ _ | DeleteFile _ => hunk_path self
  end.

Inductive ApplyPatchFileUpdateMode : Type :=
| NormalizeToLf
| PreserveLineEndings.

(** ** Well-formed chunks

    What the parser promises to the file updater: each context index pair
    names the same line on both sides, and the pairs are strictly increasing
    on both sides and within range. *)

Definition chunk_is_empty (c : UpdateFileChunk) : bool :=
  is_nil c.(old_lines) && is_nil c.(new_lines).

(** From position [(i, j)], the pairs [ps] increase and stay in range. *)
Inductive ctx_pairs (olds news : list str) : nat -> nat -> list (nat * nat) -> Prop :=
| ctx_nil i j : i <= length olds -> j <= length news -> ctx_pairs olds news i j []
| ctx_cons i j a b l ps :
    i <= a -> j <= b -> olds !! a = Some l -> news !! b = Some l ->
    ctx_pairs olds news (S a) (S b) ps -> ctx_pairs olds news i j ((a, b) :: ps).

Definition wf_chunk (c : UpdateFileChunk) : Prop :=
  ctx_pairs c.(old_lines) c.(new_lines) 0 0 c.(context_line_indices).

Definition wf_hunk (h : Hunk) : Prop :=
  match h with
  | UpdateFile _ _ chunks =>
      Forall (fun c => wf_chunk c /\ chunk_is_empty c = false) chunks /\ chunks <> []
  | _ => True
  end.

Lemma ctx_pairs_grow olds news olds' news' i j ps :
  ctx_pairs olds news i j ps -> ctx_pairs (olds ++ olds') (news ++ news') i j ps.
Proof.
  induction 1; econstructor; eauto using lookup_app_l_Some; rewrite length_app; lia.
Qed.

Lemma ctx_pairs_snoc olds news i j ps l :
  ctx_pairs olds news i j ps ->
  ctx_pairs (olds ++ [l]) (news ++ [l]) i j (ps ++ [(length olds, length news)]).
Proof.
  induction 1; simpl; econstructor; eauto using lookup_app_l_Some;
    try (by rewrite lookup_app_r, Nat.sub_diag by lia);
    try (constructor; rewrite length_app; simpl; lia).
Qed.

Lemma wf_default_chunk ctx eof : wf_chunk {|
  change_context := ctx; old_lines := []; new_lines := [];
  context_line_indices := []; is_end_of_file := eof |}.
Proof. constructor; simpl; lia. Qed.

Lemma wf_push_context_line c l : wf_chunk c -> wf_chunk (push_context_line c l).
Proof. unfold wf_chunk; simpl. apply ctx_pairs_snoc. Qed.

Lemma wf_push_new_line c l : wf_chunk c -> wf_chunk (push_new_line c l).
Proof.
  unfold wf_chunk; simpl. intros H. rewrite <- (app_nil_r (old_lines c)). by apply ctx_pairs_grow.
Qed.

Lemma wf_push_old_line c l : wf_chunk c -> wf_chunk (push_old_line c l).
Proof.
  unfold wf_chunk; simpl. intros H. rewrite <- (app_nil_r (new_lines c)). by apply ctx_pairs_grow.
Qed.

Lemma wf_mark_end_of_file c : wf_chunk c -> wf_chunk (mark_end_of_file c).
Proof. done. Qed.

#[export] Hint Resolve wf_default_chunk wf_push_context_line wf_push_new_line
  wf_push_old_line wf_mark_end_of_file : rust.
