(* ===== verification/StreamingPatch.v ===== *)
(** * The streaming patch parser (apply-patch/src/streaming_parser.rs)

    [StreamingPatchParser] consumes a patch in arbitrary text deltas, one
    character at a time, and keeps the hunks read so far.  Every method that
    takes [&mut self] and returns a [Result] is a function to the new parser
    paired with the result: an early return keeps the mutations made before it. *)

From S2P Require Import Prelude RustStr PatchTypes.

Inductive StreamingParserMode : Type :=
| NotStarted
| StartedPatch
| InAddFile
| InDeleteFile
| InUpdateFile (hunk_line_number : nat)
| EndedPatch.

Record StreamingParserState : Type := mkState {
  mode : StreamingParserMode;
  hunks : list Hunk;
  environment_id : option str;
}.

Record StreamingPatchParser : Type := mkParser {
  line_buffer : str;
  state : StreamingParserState;
  line_number : nat;
}.

(** [StreamingPatchParser::default()] *)
Definition default_parser : StreamingPatchParser :=
  mkParser [] (mkState NotStarted [] None) 0.

Definition with_state (f : StreamingParserState -> StreamingParserState)
    (self : StreamingPatchParser) : StreamingPatchParser :=
  mkParser self.(line_buffer) (f self.(state)) self.(line_number).

Definition set_mode (m : StreamingParserMode) (self : StreamingPatchParser) :=
  with_state (fun s => mkState m s.(hunks) s.(environment_id)) self.

Definition set_environment_id (e : option str) (self : StreamingPatchParser) :=
  with_state (fun s => mkState s.(mode) s.(hunks) e) self.

Definition set_hunks (hs : list Hunk) (self : StreamingPatchParser) :=
  with_state (fun s => mkState s.(mode) hs s.(environment_id)) self.

Definition push_hunk (h : Hunk) (self : StreamingPatchParser) :=
  set_hunks (self.(state).(hunks) ++ [h]) self.

(** Writes through the [last_mut()] reference to the last hunk. *)
Definition set_last_update (move_path : option PathBuf) (chunks : list UpdateFileChunk)
    (self : StreamingPatchParser) :=
  set_hunks (update_last (fun h => match h with
                                | UpdateFile path _ _ => UpdateFile path move_path chunks
                                | _ => h
                                end) self.(state).(hunks)) self.

Definition push_add_line (line : str) (self : StreamingPatchParser) :=
  set_hunks (update_last (fun h => match h with
                                | AddFile path contents => AddFile path (contents ++ line ++ [ch_lf])
                                | _ => h
                                end) self.(state).(hunks)) self.

Definition msg_unexpected_line (line : str) : str :=
  lit "Unexpected line found in update hunk: '" ++ line ++
  lit "'. Every line should start with ' ' (context line), '+' (added line), or '-' (removed line)".

Definition msg_expected_context (line : str) : str :=
  lit "Expected update hunk to start with a @@ context marker, got: '" ++ line ++ lit "'".

Definition msg_invalid_header (trimmed : str) : str :=
  lit "'" ++ trimmed ++
  lit "' is not a valid hunk header. Valid hunk headers: '*** Add File: {path}', '*** Delete File: {path}', '*** Update File: {path}'".

Definition msg_empty_update (path : PathBuf) : str :=
  lit "Update file hunk for path '" ++ path ++ lit "' is empty".

Definition msg_no_lines : str := lit "Update hunk does not contain any lines".
Definition msg_first_line : str := lit "The first line of the patch must be '*** Begin Patch'".
Definition msg_last_line : str := lit "The last line of the patch must be '*** End Patch'".
Definition msg_env_twice : str := lit "apply_patch environment_id cannot be specified more than once".
Definition msg_env_empty : str := lit "apply_patch environment_id cannot be empty".

Definition last_chunk_is_empty (chunks : list UpdateFileChunk) : bool :=
  is_some_and chunk_is_empty (last chunks).

Definition ensure_update_hunk_is_not_empty (self : StreamingPatchParser) (line : str)
    : result unit ParseError :=
  match last self.(state).(hunks) with
  | Some (UpdateFile path _ chunks) =>
      match is_nil chunks, self.(state).(mode) with
      | true, InUpdateFile hunk_line_number =>
          Err (InvalidHunkError (msg_empty_update path) hunk_line_number)
      | _, _ =>
          if last_chunk_is_empty chunks then
            if str_eqb line END_PATCH_MARKER
            then Err (InvalidHunkError msg_no_lines self.(line_number))
            else Err (InvalidHunkError (msg_unexpected_line line) self.(line_number))
          else Ok tt
      end
  | _ => Ok tt
  end.

(** The tail of [handle_hunk_headers_and_end_patch], after the environment id. *)
Definition handle_hunk_headers (self : StreamingPatchParser) (trimmed : str)
    : StreamingPatchParser * result bool ParseError :=
  if str_eqb trimmed END_PATCH_MARKER then
    match ensure_update_hunk_is_not_empty self trimmed with
    | Err e => (self, Err e)
    | Ok _ => (set_mode EndedPatch self, Ok true)
    end
  else match strip_prefix ADD_FILE_MARKER trimmed with
  | Some path =>
      match ensure_update_hunk_is_not_empty self trimmed with
      | Err e => (self, Err e)
      | Ok _ => (set_mode InAddFile (push_hunk (AddFile path []) self), Ok true)
      end
  | None => match strip_prefix DELETE_FILE_MARKER trimmed with
  | Some path =>
      match ensure_update_hunk_is_not_empty self trimmed with
      | Err e => (self, Err e)
      | Ok _ => (set_mode InDeleteFile (push_hunk (DeleteFile path) self), Ok true)
      end
  | None => match strip_prefix UPDATE_FILE_MARKER trimmed with
  | Some path =>
      match ensure_update_hunk_is_not_empty self trimmed with
      | Err e => (self, Err e)
      | Ok _ => (set_mode (InUpdateFile self.(line_number))
                   (push_hunk (UpdateFile path None []) self), Ok true)
      end
  | None => (self, Ok false)
  end end end.

Definition handle_hunk_headers_and_end_patch (self : StreamingPatchParser) (trimmed : str)
    : StreamingPatchParser * result bool ParseError :=
  match self.(state).(mode), strip_prefix ENVIRONMENT_ID_MARKER trimmed with
  | StartedPatch, Some rest =>
      if self.(state).(environment_id) then (self, Err (InvalidPatchError msg_env_twice))
      else let environment_id := trim rest in
           if is_nil environment_id then (self, Err (InvalidPatchError msg_env_empty))
           else (set_environment_id (Some environment_id) self, Ok true)
  | _, _ => handle_hunk_headers self trimmed
  end.

(** [if chunks.is_empty() { chunks.push(default) }; chunks.last_mut() ...] *)
Definition with_last_chunk (f : UpdateFileChunk -> UpdateFileChunk) (chunks : list UpdateFileChunk)
    : list UpdateFileChunk :=
  update_last f (if is_nil chunks then [default_chunk] else chunks).

Definition is_context_marker (update_line : str) : bool :=
  str_eqb update_line EMPTY_CHANGE_CONTEXT_MARKER || starts_with CHANGE_CONTEXT_MARKER update_line.

(** The last part of the [UpdateFile] arm of [process_line]: a change context,
    an end-of-file marker or a change line.  The result is the new [chunks]. *)
Definition update_chunk_line (line : str) (line_number : nat) (chunks : list UpdateFileChunk)
    : result (list UpdateFileChunk) ParseError :=
  let update_line := trim_end line in
  if is_context_marker update_line && last_chunk_is_empty chunks
  then Err (InvalidHunkError (msg_unexpected_line line) line_number)
  else if str_eqb update_line EMPTY_CHANGE_CONTEXT_MARKER
  then Ok (chunks ++ [default_chunk])
  else match strip_prefix CHANGE_CONTEXT_MARKER update_line with
  | Some ctx =>
      Ok (chunks ++ [{| change_context := Some ctx; old_lines := []; new_lines := [];
                        context_line_indices := []; is_end_of_file := false |}])
  | None =>
  if str_eqb update_line EOF_MARKER then
    if last_chunk_is_empty chunks then Err (InvalidHunkError msg_no_lines line_number)
    else Ok (update_last mark_end_of_file chunks)
  else match line with
  | [] => Ok (with_last_chunk (fun c => push_context_line c []) chunks)
  | c :: rest =>
      if (c =? ch_space)%N
      then Ok (with_last_chunk (fun k => push_context_line k rest) chunks)
      else if (c =? ch_plus)%N
      then Ok (with_last_chunk (fun k => push_new_line k rest) chunks)
      else if (c =? ch_minus)%N
      then Ok (with_last_chunk (fun k => push_old_line k rest) chunks)
      else if is_some_and (fun k => negb (chunk_is_empty k)) (last chunks)
      then Err (InvalidHunkError (msg_expected_context line) line_number)
      else Err (InvalidHunkError (msg_unexpected_line line) line_number)
  end end.

(** The body of the [UpdateFile] arm of [process_line] once the last hunk is
    an update.  [Ok (mv, cs)] are the new [move_path] and [chunks]. *)
Definition update_hunk_line (line : str) (line_number : nat)
    (move_path : option PathBuf) (chunks : list UpdateFileChunk)
    : result (option PathBuf * list UpdateFileChunk) ParseError :=
  let update_line := trim_end line in
  let eof := is_some_and is_end_of_file (last chunks) in
  if eof && is_nil update_line then Ok (move_path, chunks)
  else if eof && negb (is_context_marker update_line)
  then Err (InvalidHunkError (msg_expected_context line) line_number)
  else
  match is_nil chunks, move_path, strip_prefix MOVE_TO_MARKER update_line with
  | true, None, Some move_to_path => Ok (Some move_to_path, chunks)
  | _, _, _ =>
      match update_chunk_line line line_number chunks with
      | Err e => Err e
      | Ok cs => Ok (move_path, cs)
      end
  end.

Definition process_line (self : StreamingPatchParser) (line : str)
    : StreamingPatchParser * result unit ParseError :=
  let trimmed := trim line in
  let invalid_header := Err (InvalidHunkError (msg_invalid_header trimmed) self.(line_number)) in
  match self.(state).(mode) with
  | NotStarted =>
      if str_eqb trimmed BEGIN_PATCH_MARKER then (set_mode StartedPatch self, Ok tt)
      else (self, Err (InvalidPatchError msg_first_line))
  | StartedPatch | InDeleteFile =>
      match handle_hunk_headers_and_end_patch self trimmed with
      | (self', Err e) => (self', Err e)
      | (self', Ok true) => (self', Ok tt)
      | (self', Ok false) => (self', invalid_header)
      end
  | InAddFile =>
      match handle_hunk_headers_and_end_patch self trimmed with
      | (self', Err e) => (self', Err e)
      | (self', Ok true) => (self', Ok tt)
      | (self', Ok false) =>
          match strip_prefix [ch_plus] line, last self'.(state).(hunks) with
          | Some line_to_add, Some (AddFile _ _) => (push_add_line line_to_add self', Ok tt)
          | _, _ => (self', invalid_header)
          end
      end
  | InUpdateFile hunk_line_number =>
      let update_line := trim_end line in
      match handle_hunk_headers_and_end_patch self update_line with
      | (self', Err e) => (self', Err e)
      | (self', Ok true) => (self', Ok tt)
      | (self', Ok false) =>
          match last self'.(state).(hunks) with
          | Some (UpdateFile _ move_path chunks) =>
              match update_hunk_line line self'.(line_number) move_path chunks with
              | Err e => (self', Err e)
              | Ok (mv, cs) =>
                  (set_mode (InUpdateFile hunk_line_number) (set_last_update mv cs self'), Ok tt)
              end
          | _ => (self', Err (InvalidHunkError (msg_unexpected_line line) self'.(line_number)))
          end
      end
  | EndedPatch =>
      if is_nil trimmed then (self, Ok tt) else (self, Err (InvalidPatchError msg_last_line))
  end.

(** [std::mem::take(&mut self.line_buffer)] and [self.line_number += 1]. *)
Definition take_line (self : StreamingPatchParser) : StreamingPatchParser :=
  mkParser [] self.(state) (S self.(line_number)).

(** The body of the [push_delta] loop. *)
Definition push_char (self : StreamingPatchParser) (ch : char)
    : StreamingPatchParser * result unit ParseError :=
  if (ch =? ch_lf)%N
  then process_line (take_line self) (strip_cr self.(line_buffer))
  else (mkParser (self.(line_buffer) ++ [ch]) self.(state) self.(line_number), Ok tt).

Fixpoint push_chars (self : StreamingPatchParser) (delta : str)
    : StreamingPatchParser * result unit ParseError :=
  match delta with
  | [] => (self, Ok tt)
  | ch :: rest =>
      match push_char self ch with
      | (self', Err e) => (self', Err e)
      | (self', Ok _) => push_chars self' rest
      end
  end.

Definition push_delta (self : StreamingPatchParser) (delta : str)
    : StreamingPatchParser * result (list Hunk) ParseError :=
  match push_chars self delta with
  | (self', Err e) => (self', Err e)
  | (self', Ok _) => (self', Ok self'.(state).(hunks))
  end.

(** The trailing line of [finish], without a line terminator. *)
Definition finish_line (self : StreamingPatchParser) : StreamingPatchParser * result unit ParseError :=
  if is_nil self.(line_buffer) then (self, Ok tt)
  else
    let line := self.(line_buffer) in
    let self := take_line self in
    if str_eqb (trim line) END_PATCH_MARKER then
      match ensure_update_hunk_is_not_empty self (trim line) with
      | Err e => (self, Err e)
      | Ok _ => (set_mode EndedPatch self, Ok tt)
      end
    else process_line self line.

Definition finish (self : StreamingPatchParser)
    : StreamingPatchParser * result (list Hunk) ParseError :=
  match finish_line self with
  | (self', Err e) => (self', Err e)
  | (self', Ok _) =>
      match self'.(state).(mode) with
      | EndedPatch => (self', Ok self'.(state).(hunks))
      | _ => (self', Err (InvalidPatchError msg_last_line))
      end
  end.

(** ** Invariant

    Between two lines every closed hunk is well formed; the hunk under
    construction in update mode may have no chunk yet, and only its last
    chunk may still be without lines. *)

Definition open_chunks (chunks : list UpdateFileChunk) : Prop :=
  chunks = [] \/
  exists init c, chunks = init ++ [c] /\
    Forall (fun c => wf_chunk c /\ chunk_is_empty c = false) init /\ wf_chunk c.

Definition parser_inv (self : StreamingPatchParser) : Prop :=
  match self.(state).(mode) with
  | NotStarted | StartedPatch => self.(state).(hunks) = []
  | InAddFile =>
      Forall wf_hunk self.(state).(hunks) /\
      exists path contents, last self.(state).(hunks) = Some (AddFile path contents)
  | InDeleteFile | EndedPatch => Forall wf_hunk self.(state).(hunks)
  | InUpdateFile _ =>
      exists hs path mv chunks, self.(state).(hunks) = hs ++ [UpdateFile path mv chunks] /\
        Forall wf_hunk hs /\ open_chunks chunks
  end.

Lemma parser_inv_default : parser_inv default_parser.
Proof. done. Qed.

Lemma open_chunks_close chunks :
  open_chunks chunks -> chunks <> [] -> last_chunk_is_empty chunks = false ->
  Forall (fun c => wf_chunk c /\ chunk_is_empty c = false) chunks.
Proof.
  intros [->|(init & c & -> & Hi & Hc)] Hne Hl; [done|].
  unfold last_chunk_is_empty in Hl. rewrite last_snoc in Hl. simpl in Hl.
  apply Forall_app_2; [done|]. by apply Forall_singleton.
Qed.

(** A header may only follow an update hunk that is complete. *)
Lemma ensure_closes self line :
  parser_inv self -> ensure_update_hunk_is_not_empty self line = Ok tt ->
  Forall wf_hunk self.(state).(hunks).
Proof.
  unfold parser_inv, ensure_update_hunk_is_not_empty. destruct self as [lb [m hs env] n]; simpl.
  destruct m; try (by intros ->); try (by intros []); try done.
  intros (hs' & path & mv & chunks & -> & Hhs & Hopen). rewrite last_snoc.
  destruct chunks as [|k ks]; simpl; [done|].
  destruct (last_chunk_is_empty (k :: ks)) eqn:E; [by case_match|]. intros _.
  apply Forall_app_2; [done|]. apply Forall_singleton. split; [|done].
  by apply open_chunks_close.
Qed.

(** A header line starts a new, well-formed, hunk or ends the patch. *)
Lemma handle_hunk_headers_inv self trimmed self' r :
  parser_inv self -> handle_hunk_headers self trimmed = (self', r) -> parser_inv self'.
Proof.
  intros Hinv. unfold handle_hunk_headers.
  destruct (ensure_update_hunk_is_not_empty self trimmed) as [[]|e] eqn:E.
  2: { repeat case_match; intros; by simplify_eq. }
  apply ensure_closes in E; [|done].
  repeat case_match; intros; simplify_eq; unfold parser_inv; simpl; try done.
  - split; [apply Forall_app_2; [done|by constructor]|].
    rewrite last_snoc. eauto.
  - apply Forall_app_2; [done|by constructor].
  - do 4 eexists. split; [done|]. split; [done|]. by left.
Qed.

Lemma handle_inv self trimmed self' r :
  parser_inv self -> handle_hunk_headers_and_end_patch self trimmed = (self', r) -> parser_inv self'.
Proof.
  intros Hinv. unfold handle_hunk_headers_and_end_patch.
  destruct (mode (state self)) eqn:Em, (strip_prefix ENVIRONMENT_ID_MARKER trimmed);
    try (by apply handle_hunk_headers_inv).
  repeat case_match; intros; simplify_eq; try done.
Qed.

(** When no header was recognised the parser is unchanged. *)
Lemma handle_false_id self trimmed self' :
  handle_hunk_headers_and_end_patch self trimmed = (self', Ok false) -> self' = self.
Proof.
  unfold handle_hunk_headers_and_end_patch, handle_hunk_headers.
  repeat case_match; intros; by simplify_eq.
Qed.

Lemma open_chunks_update f chunks :
  (forall c, wf_chunk c -> wf_chunk (f c)) -> open_chunks chunks ->
  open_chunks (with_last_chunk f chunks).
Proof.
  intros Hf [->|(init & c & -> & Hi & Hc)]; right; unfold with_last_chunk; simpl.
  - exists [], (f default_chunk). repeat split; auto. apply Hf, wf_default_chunk.
  - exists init, (f c). rewrite is_nil_snoc, update_last_snoc. auto.
Qed.

Lemma open_chunks_push chunks ctx :
  open_chunks chunks -> last_chunk_is_empty chunks = false ->
  open_chunks (chunks ++ [{| change_context := ctx; old_lines := []; new_lines := [];
                             context_line_indices := []; is_end_of_file := false |}]).
Proof.
  intros H1 H2. right. exists chunks. eexists. split; [done|].
  split; [|apply wf_default_chunk].
  destruct (decide (chunks = [])) as [->|Hne]; [constructor|]. by apply open_chunks_close.
Qed.

Lemma not_context_marker l :
  is_context_marker l = false ->
  str_eqb l EMPTY_CHANGE_CONTEXT_MARKER = false /\ strip_prefix CHANGE_CONTEXT_MARKER l = None.
Proof.
  unfold is_context_marker, starts_with. intros [H1 H2]%orb_false_iff. split; [done|].
  by destruct (strip_prefix _ l).
Qed.

Lemma open_chunks_mark_eof chunks :
  open_chunks chunks -> open_chunks (update_last mark_end_of_file chunks).
Proof.
  intros [->|(init & c & -> & Hi & Hc)]; [by left|]. right.
  exists init, (mark_end_of_file c). by rewrite update_last_snoc.
Qed.

Lemma update_chunk_line_inv line n chunks chunks' :
  open_chunks chunks -> update_chunk_line line n chunks = Ok chunks' -> open_chunks chunks'.
Proof.
  intros Hopen. unfold update_chunk_line.
  destruct (is_context_marker (trim_end line) && last_chunk_is_empty chunks) eqn:Em; [done|].
  assert (Hpush : last_chunk_is_empty chunks = false \/ is_context_marker (trim_end line) = false).
  { destruct (last_chunk_is_empty chunks); [right|by left]. by rewrite andb_true_r in Em. }
  destruct (str_eqb (trim_end line) EMPTY_CHANGE_CONTEXT_MARKER) eqn:E1.
  { intros; simplify_eq. destruct Hpush as [?|[? _]%not_context_marker]; [|congruence].
    by apply open_chunks_push. }
  destruct (strip_prefix CHANGE_CONTEXT_MARKER (trim_end line)) eqn:E2.
  { intros; simplify_eq. destruct Hpush as [?|[_ ?]%not_context_marker]; [|congruence].
    by apply open_chunks_push. }
  destruct (str_eqb (trim_end line) EOF_MARKER).
  { case_match; intros; simplify_eq. by apply open_chunks_mark_eof. }
  destruct line as [|c rest]; [|repeat case_match]; intros; simplify_eq;
    apply open_chunks_update; auto with rust.
Qed.

Lemma update_hunk_line_inv line n mv chunks mv' chunks' :
  open_chunks chunks -> update_hunk_line line n mv chunks = Ok (mv', chunks') -> open_chunks chunks'.
Proof.
  intros Hopen. unfold update_hunk_line.
  destruct (_ && is_nil (trim_end line)); [intros; by simplify_eq|].
  destruct (_ && negb _); [done|].
  destruct (update_chunk_line line n chunks) eqn:E; [apply update_chunk_line_inv in E; [|done]|];
    repeat case_match; intros; by simplify_eq.
Qed.

Lemma process_line_inv self line self' r :
  parser_inv self -> process_line self line = (self', r) -> parser_inv self'.
Proof.
  intros Hinv. unfold process_line.
  destruct (mode (state self)) eqn:Em.
  - case_match; intros; simplify_eq; [|done]. unfold parser_inv in *. by rewrite Em in Hinv.
  - destruct (handle_hunk_headers_and_end_patch self (trim line)) as [s1 [[]|]] eqn:Eh;
      intros; simplify_eq; by eapply handle_inv.
  - destruct (handle_hunk_headers_and_end_patch self (trim line)) as [s1 [[]|]] eqn:Eh;
      pose proof (handle_inv _ _ _ _ Hinv Eh); [intros; by simplify_eq| |intros; by simplify_eq].
    apply handle_false_id in Eh as ->. unfold parser_inv in Hinv. rewrite Em in Hinv.
    destruct Hinv as (Hall & path & contents & Hl).
    case_match; [|intros; by simplify_eq]. rewrite Hl. intros; simplify_eq.
    apply last_snoc_inv in Hl as [hs Hl]. unfold parser_inv; simpl. rewrite Em, Hl in *.
    rewrite update_last_snoc, last_snoc. split; [|eauto].
    apply Forall_app in Hall as [? _]. apply Forall_app_2; [done|]. by apply Forall_singleton.
  - destruct (handle_hunk_headers_and_end_patch self (trim line)) as [s1 [[]|]] eqn:Eh;
      intros; simplify_eq; by eapply handle_inv.
  - destruct (handle_hunk_headers_and_end_patch self (trim_end line)) as [s1 [[]|]] eqn:Eh;
      pose proof (handle_inv _ _ _ _ Hinv Eh); [intros; by simplify_eq| |intros; by simplify_eq].
    apply handle_false_id in Eh as ->. unfold parser_inv in Hinv. rewrite Em in Hinv.
    destruct Hinv as (hs & path & mv & chunks & Hl & Hhs & Hopen). rewrite Hl, last_snoc.
    destruct (update_hunk_line _ _ _ _) as [[mv' cs']|] eqn:Eu; intros; simplify_eq; [|done].
    unfold parser_inv; simpl. rewrite Hl, update_last_snoc.
    do 4 eexists. split; [done|]. split; [done|]. by eapply update_hunk_line_inv.
  - case_match; intros; by simplify_eq.
Qed.

Lemma push_chars_inv delta self self' r :
  parser_inv self -> push_chars self delta = (self', r) -> parser_inv self'.
Proof.
  revert self; induction delta as [|ch delta IH]; intros self Hinv; simpl; [intros; by simplify_eq|].
  destruct (push_char self ch) as [s1 r1] eqn:E.
  assert (parser_inv s1).
  { unfold push_char in E. case_match; [|by simplify_eq]. eapply process_line_inv, E. done. }
  destruct r1; [by apply IH|]. intros; by simplify_eq.
Qed.

Lemma finish_line_inv self self' r :
  parser_inv self -> finish_line self = (self', r) -> parser_inv self'.
Proof.
  intros Hinv. unfold finish_line. case_match; [intros; by simplify_eq|].
  destruct (str_eqb _ _).
  - destruct (ensure_update_hunk_is_not_empty _ _) as [[]|] eqn:E; intros; simplify_eq; [|done].
    by apply ensure_closes in E.
  - by apply process_line_inv.
Qed.

Lemma finish_wf self self' hs :
  parser_inv self -> finish self = (self', Ok hs) -> Forall wf_hunk hs.
Proof.
  intros Hinv. unfold finish. destruct (finish_line self) as [s1 [[]|]] eqn:E; [|done].
  apply finish_line_inv in E; [|done]. unfold parser_inv in E.
  case_match; intros; by simplify_eq.
Qed.

(** ** Independence of the delta boundaries *)

Lemma push_chars_app self a b :
  push_chars self (a ++ b) =
  match push_chars self a with
  | (self', Err e) => (self', Err e)
  | (self', Ok _) => push_chars self' b
  end.
Proof.
  revert self; induction a as [|ch a IH]; intros self; simpl; [done|].
  destruct (push_char self ch) as [s1 [[]|e]]; [apply IH|done].
Qed.

(** Feeding a list of deltas, stopping at the first error. *)
Fixpoint push_deltas (self : StreamingPatchParser) (deltas : list str)
    : StreamingPatchParser * result (list Hunk) ParseError :=
  match deltas with
  | [] => (self, Ok self.(state).(hunks))
  | d :: ds =>
      match push_delta self d with
      | (self', Err e) => (self', Err e)
      | (self', Ok _) => push_deltas self' ds
      end
  end.

(** Feeding the deltas one by one is feeding their concatenation. *)
Lemma push_delta_concat self deltas :
  push_deltas self deltas = push_delta self (mjoin deltas).
Proof.
  revert self; induction deltas as [|d ds IH]; intros self; [done|].
  simpl push_deltas. change (mjoin (d :: ds)) with (d ++ mjoin ds).
  unfold push_delta at 1 2. rewrite push_chars_app.
  destruct (push_chars self d) as [s1 [[]|e]]; [|done]. apply IH.
Qed.

Lemma push_deltas_inv deltas self self' r :
  parser_inv self -> push_deltas self deltas = (self', r) -> parser_inv self'.
Proof.
  revert self; induction deltas as [|d ds IH]; intros self Hinv; simpl; [intros; by simplify_eq|].
  unfold push_delta. destruct (push_chars self d) as [s1 [[]|e]] eqn:E;
    apply push_chars_inv in E; try done; [by apply IH|]. intros; by simplify_eq.
Qed.

(** C2: whatever text is fed, in whatever deltas, the hunks [finish] accepts are
    well formed: every update hunk has at least one chunk, every chunk has
    lines, and the context index pairs are in range, strictly increasing on
    both sides and name equal lines. *)
Theorem finish_hunks_wf deltas self self' hs0 hs :
  push_deltas default_parser deltas = (self, Ok hs0) ->
  finish self = (self', Ok hs) ->
  Forall wf_hunk hs.
Proof.
  intros H1 H2. apply push_deltas_inv in H1; [|apply parser_inv_default].
  by eapply finish_wf.
Qed.

Definition sample_deltas : list str :=
  [lit "*** Begin Patch" ++ [ch_lf] ++ lit "*** Update Fi";
   lit "le: a" ++ [ch_lf] ++ lit " x" ++ [ch_lf] ++ lit "-y" ++ [ch_lf];
   lit "*** End Patch"].

Definition ok_or_nil {A E} (r : result (list A) E) : list A :=
  match r with Ok l => l | Err _ => [] end.

Definition sample_parser : StreamingPatchParser := fst (push_deltas default_parser sample_deltas).
Definition sample_pushed : list Hunk := ok_or_nil (snd (push_deltas default_parser sample_deltas)).
Definition sample_hunks : list Hunk := ok_or_nil (snd (finish sample_parser)).

Lemma finish_hunks_wf_witness : length sample_hunks = 1 /\ Forall wf_hunk sample_hunks.
Proof.
  split; [vm_compute; reflexivity|].
  apply (finish_hunks_wf sample_deltas sample_parser (fst (finish sample_parser)) sample_pushed);
    vm_compute; reflexivity.
Defined.
