(* ===== verification/PatchParser.v ===== *)
(** * The batch patch parser (apply-patch/src/parser.rs)

    [parse_patch] trims the text, checks the begin and end markers (leniently:
    a heredoc wrapper is stripped), and runs the streaming parser on the lines
    joined with [\n].  The main theorem is the round trip: the text of every
    well-formed patch document parses to exactly the hunks it denotes. *)

From S2P Require Import Prelude RustStr PatchTypes StreamingPatch.

Record ApplyPatchArgs : Type := {
  args_patch : str;
  args_hunks : list Hunk;
  args_workdir : option str;
  args_environment_id : option str;
}.

Inductive ParseMode : Type := Strict | Lenient.

Definition PARSE_IN_STRICT_MODE : bool := false.

Definition check_start_and_end_lines_strict (first_line last_line : option str)
    : result unit ParseError :=
  match option_map trim first_line, option_map trim last_line with
  | Some first, Some last_ =>
      if str_eqb first BEGIN_PATCH_MARKER && str_eqb last_ END_PATCH_MARKER then Ok tt
      else if negb (str_eqb first BEGIN_PATCH_MARKER)
      then Err (InvalidPatchError msg_first_line)
      else Err (InvalidPatchError msg_last_line)
  | Some first, None =>
      if negb (str_eqb first BEGIN_PATCH_MARKER)
      then Err (InvalidPatchError msg_first_line)
      else Err (InvalidPatchError msg_last_line)
  | None, _ => Err (InvalidPatchError msg_last_line)
  end.

Definition check_patch_boundaries_strict (lines : list str) : result (list str) ParseError :=
  let? _ := check_start_and_end_lines_strict (head lines) (last lines) in Ok lines.

Definition heredoc_starts : list str :=
  [lit "<<EOF"; lit "<<'EOF'";
   lit "<<" ++ [ch_dquote] ++ lit "EOF" ++ [ch_dquote]].

Definition check_patch_boundaries_lenient (original_lines : list str)
    : result (list str) ParseError :=
  match check_patch_boundaries_strict original_lines with
  | Ok lines => Ok lines
  | Err original_parse_error =>
      match original_lines with
      | first :: _ :: _ =>
          if existsb (str_eqb first) heredoc_starts
             && is_some_and (ends_with (lit "EOF")) (last original_lines)
             && (4 <=? length original_lines)
          then check_patch_boundaries_strict
                 (take (length original_lines - 2) (drop 1 original_lines))
          else Err original_parse_error
      | _ => Err original_parse_error
      end
  end.

Definition parse_patch_text (patch : str) (mode : ParseMode) : result ApplyPatchArgs ParseError :=
  let ls := lines (trim patch) in
  let? patch_lines := match mode with
                      | Strict => check_patch_boundaries_strict ls
                      | Lenient => check_patch_boundaries_lenient ls
                      end in
  let patch := join [ch_lf] patch_lines in
  let (parser, r) := push_delta default_parser patch in
  let? _ := r in
  let (parser, r) := finish parser in
  let? hunks := r in
  Ok {| args_patch := patch; args_hunks := hunks; args_workdir := None;
        args_environment_id := parser.(state).(environment_id) |}.

Definition parse_patch (patch : str) : result ApplyPatchArgs ParseError :=
  parse_patch_text patch (if PARSE_IN_STRICT_MODE then Strict else Lenient).

(** ** Patch documents

    The abstract syntax of the Lark grammar at the head of parser.rs, its
    concrete text and its meaning as hunks. *)

Inductive change : Type :=
| Ctx (l : str)
| Del (l : str)
| Add (l : str).

Record chunk_doc : Type := {
  cd_context : option str;
  cd_changes : list change;
  cd_eof : bool;
}.

Inductive hunk_doc : Type :=
| DAdd (path : PathBuf) (added : list str)
| DDelete (path : PathBuf)
| DUpdate (path : PathBuf) (move_to : option PathBuf) (chunks : list chunk_doc).

Record patch_doc : Type := { pd_env : option str; pd_hunks : list hunk_doc }.

Definition change_text (c : change) : str :=
  match c with
  | Ctx l => ch_space :: l
  | Del l => ch_minus :: l
  | Add l => ch_plus :: l
  end.

Definition chunk_text (c : chunk_doc) : list str :=
  match c.(cd_context) with
  | None => EMPTY_CHANGE_CONTEXT_MARKER
  | Some ctx => CHANGE_CONTEXT_MARKER ++ ctx
  end :: map change_text c.(cd_changes) ++ (if c.(cd_eof) then [EOF_MARKER] else []).

Definition hunk_text (h : hunk_doc) : list str :=
  match h with
  | DAdd path added => (ADD_FILE_MARKER ++ path) :: map (cons ch_plus) added
  | DDelete path => [DELETE_FILE_MARKER ++ path]
  | DUpdate path move_to chunks =>
      (UPDATE_FILE_MARKER ++ path) ::
      match move_to with None => [] | Some p => [MOVE_TO_MARKER ++ p] end ++
      mjoin (map chunk_text chunks)
  end.

Definition env_text (env : option str) : list str :=
  match env with None => [] | Some e => [ENVIRONMENT_ID_MARKER ++ ch_space :: e] end.

Definition body_text (d : patch_doc) : list str :=
  BEGIN_PATCH_MARKER :: env_text d.(pd_env) ++ mjoin (map hunk_text d.(pd_hunks)).

Definition patch_text (d : patch_doc) : str := join [ch_lf] (body_text d ++ [END_PATCH_MARKER]).

Definition apply_change (k : UpdateFileChunk) (c : change) : UpdateFileChunk :=
  match c with
  | Ctx l => push_context_line k l
  | Del l => push_old_line k l
  | Add l => push_new_line k l
  end.

Definition chunk_of (c : chunk_doc) : UpdateFileChunk :=
  let k := foldl apply_change
    {| change_context := c.(cd_context); old_lines := []; new_lines := [];
       context_line_indices := []; is_end_of_file := false |} c.(cd_changes) in
  if c.(cd_eof) then mark_end_of_file k else k.

Definition hunk_of (h : hunk_doc) : Hunk :=
  match h with
  | DAdd path added => AddFile path (mjoin (map (fun l => l ++ [ch_lf]) added))
  | DDelete path => DeleteFile path
  | DUpdate path move_to chunks => UpdateFile path move_to (map chunk_of chunks)
  end.

(** A name that survives the trimming of its header line. *)
Definition wf_name (p : str) : Prop := p <> [] /\ no_ws_last p /\ ch_lf ∉ p.

Definition change_line (c : change) : str := match c with Ctx l | Del l | Add l => l end.

Definition wf_chunk_doc (c : chunk_doc) : Prop :=
  match c.(cd_context) with None => True | Some ctx => wf_name ctx end /\
  c.(cd_changes) <> [] /\ Forall (fun c => clean_line (change_line c)) c.(cd_changes).

Definition wf_hunk_doc (h : hunk_doc) : Prop :=
  match h with
  | DAdd path added => wf_name path /\ Forall clean_line added
  | DDelete path => wf_name path
  | DUpdate path move_to chunks =>
      wf_name path /\ match move_to with None => True | Some p => wf_name p end /\
      chunks <> [] /\ Forall wf_chunk_doc chunks
  end.

Definition wf_patch_doc (d : patch_doc) : Prop :=
  match d.(pd_env) with None => True | Some e => wf_name e /\ no_ws_head e end /\
  Forall wf_hunk_doc d.(pd_hunks).

(** ** Running the streaming parser on whole lines *)

Fixpoint process_lines (self : StreamingPatchParser) (ls : list str)
    : StreamingPatchParser * result unit ParseError :=
  match ls with
  | [] => (self, Ok tt)
  | l :: ls =>
      match process_line (take_line self) l with
      | (self', Err e) => (self', Err e)
      | (self', Ok _) => process_lines self' ls
      end
  end.

Lemma process_lines_app self a b :
  process_lines self (a ++ b) =
  match process_lines self a with
  | (self', Err e) => (self', Err e)
  | (self', Ok _) => process_lines self' b
  end.
Proof.
  revert self; induction a as [|l a IH]; intros self; simpl; [done|].
  destruct (process_line (take_line self) l) as [s1 [[]|e]]; [apply IH|done].
Qed.

Lemma handle_buffer self l self' r :
  handle_hunk_headers_and_end_patch self l = (self', r) -> line_buffer self' = line_buffer self.
Proof.
  unfold handle_hunk_headers_and_end_patch, handle_hunk_headers.
  repeat case_match; intros; by simplify_eq.
Qed.

Lemma process_line_buffer self l self' r :
  process_line self l = (self', r) -> line_buffer self' = line_buffer self.
Proof.
  unfold process_line.
  destruct (mode (state self));
    try (destruct (handle_hunk_headers_and_end_patch self _) eqn:E; apply handle_buffer in E);
    repeat case_match; intros; by simplify_eq.
Qed.

Lemma process_lines_buffer self ls self' r :
  line_buffer self = [] -> process_lines self ls = (self', r) -> line_buffer self' = [].
Proof.
  revert self; induction ls as [|l ls IH]; intros self Hb; simpl; [intros; by simplify_eq|].
  destruct (process_line (take_line self) l) as [s1 [[]|e]] eqn:E;
    apply process_line_buffer in E; [by apply IH|]. intros; by simplify_eq.
Qed.

Lemma push_chars_no_lf self l :
  ch_lf ∉ l ->
  push_chars self l = (mkParser (line_buffer self ++ l) (state self) (line_number self), Ok tt).
Proof.
  revert self; induction l as [|c l IH]; intros self Hl; simpl.
  { rewrite app_nil_r. by destruct self. }
  apply not_elem_of_cons in Hl as [Hc Hl]. unfold push_char.
  destruct (N.eqb_spec c ch_lf); [congruence|]. rewrite IH by done. simpl.
  by rewrite <- app_assoc.
Qed.

Lemma push_chars_clean_line self l rest :
  clean_line l -> line_buffer self = [] ->
  push_chars self (l ++ ch_lf :: rest) =
  match process_line (take_line self) l with
  | (self', Err e) => (self', Err e)
  | (self', Ok _) => push_chars self' rest
  end.
Proof.
  intros [Hl Hcr] Hb. rewrite push_chars_app, push_chars_no_lf by done.
  simpl. unfold push_char at 1. simpl. rewrite Hb. simpl. by rewrite strip_cr_id.
Qed.

(** Pushing joined lines is processing the complete ones and buffering the last. *)
Lemma push_chars_join self ls l self' :
  Forall clean_line ls -> ch_lf ∉ l -> line_buffer self = [] ->
  process_lines self ls = (self', Ok tt) ->
  push_chars self (join [ch_lf] (ls ++ [l])) = (mkParser l (state self') (line_number self'), Ok tt).
Proof.
  intros Hls Hl. revert self; induction Hls as [|x ls Hx Hls IH]; intros self Hb; simpl.
  { intros; simplify_eq. rewrite push_chars_no_lf by done. by rewrite Hb. }
  intros H. destruct (process_line (take_line self) x) as [s1 [[]|e]] eqn:E; [|done].
  assert (Hj : join [ch_lf] (x :: ls ++ [l]) = x ++ ch_lf :: join [ch_lf] (ls ++ [l])).
  { by destruct ls. }
  simpl in Hj. rewrite Hj, push_chars_clean_line, E by done. apply IH; [|done].
  by apply process_line_buffer in E.
Qed.

(** ** Processing the lines of a document *)

Definition body_mode (m : StreamingParserMode) : Prop :=
  match m with NotStarted | EndedPatch => False | _ => True end.

(** Ready for a header: the last hunk is complete. *)
Definition ready (self : StreamingPatchParser) : Prop :=
  body_mode self.(state).(mode) /\
  match last self.(state).(hunks) with
  | Some (UpdateFile _ _ chunks) => chunks <> [] /\ last_chunk_is_empty chunks = false
  | _ => True
  end.

Lemma ready_ensure self line : ready self -> ensure_update_hunk_is_not_empty self line = Ok tt.
Proof.
  intros [_ H]. unfold ensure_update_hunk_is_not_empty.
  destruct (last _) as [[| |path mv chunks]|]; try done. destruct H as [Hne Hl].
  destruct chunks; [done|]. cbn [is_nil]. by rewrite Hl.
Qed.

(** A recognised header line is handled the same way in every body mode. *)
Lemma process_header self l self' :
  body_mode self.(state).(mode) -> no_ws_head l -> no_ws_last l ->
  handle_hunk_headers_and_end_patch self l = (self', Ok true) ->
  process_line self l = (self', Ok tt).
Proof.
  intros Hm H1 H2 Hh. unfold process_line. rewrite trim_id, trim_end_id, Hh by done.
  by destruct (mode (state self)).
Qed.

Lemma name_last (m p : str) : wf_name p -> no_ws_last (m ++ p).
Proof.
  intros (Hne & Hl & _) c. destruct p as [|a p] using rev_ind; [done|].
  rewrite app_assoc, last_snoc. intros; simplify_eq. apply Hl. by rewrite last_snoc.
Qed.

Lemma star_head s : no_ws_head (42%N :: s).
Proof. by intros c r [= <- _]. Qed.

Lemma process_add_header self path :
  ready self -> wf_name path ->
  process_line self (ADD_FILE_MARKER ++ path) =
  (set_mode InAddFile (push_hunk (AddFile path []) self), Ok tt).
Proof.
  intros Hr Hp. apply process_header; [apply Hr|apply star_head|by apply name_last|].
  unfold handle_hunk_headers_and_end_patch, handle_hunk_headers.
  rewrite ready_ensure, strip_prefix_app by done. by destruct (mode (state self)).
Qed.

Lemma process_delete_header self path :
  ready self -> wf_name path ->
  process_line self (DELETE_FILE_MARKER ++ path) =
  (set_mode InDeleteFile (push_hunk (DeleteFile path) self), Ok tt).
Proof.
  intros Hr Hp. apply process_header; [apply Hr|apply star_head|by apply name_last|].
  unfold handle_hunk_headers_and_end_patch, handle_hunk_headers.
  rewrite ready_ensure, strip_prefix_app by done. by destruct (mode (state self)).
Qed.

Lemma process_update_header self path :
  ready self -> wf_name path ->
  process_line self (UPDATE_FILE_MARKER ++ path) =
  (set_mode (InUpdateFile self.(line_number)) (push_hunk (UpdateFile path None []) self), Ok tt).
Proof.
  intros Hr Hp. apply process_header; [apply Hr|apply star_head|by apply name_last|].
  unfold handle_hunk_headers_and_end_patch, handle_hunk_headers.
  rewrite ready_ensure, strip_prefix_app by done. by destruct (mode (state self)).
Qed.

(** Inside an update hunk. *)
Definition upd (env : option str) (hs : list Hunk) (path : PathBuf) (n ln : nat)
    (mv : option PathBuf) (cs : list UpdateFileChunk) : StreamingPatchParser :=
  mkParser [] (mkState (InUpdateFile n) (hs ++ [UpdateFile path mv cs]) env) ln.

Definition not_starred (l : str) : Prop := forall r, l <> 42%N :: r.

Lemma handle_not_starred self l :
  not_starred l -> handle_hunk_headers_and_end_patch self l = (self, Ok false).
Proof.
  intros H. destruct l as [|c l].
  { unfold handle_hunk_headers_and_end_patch. by destruct (mode (state self)). }
  assert (Hc : (42 =? c)%N = false) by (apply N.eqb_neq; intros <-; by eapply H).
  assert (Hs : forall t, strip_prefix (42%N :: t) (c :: l) = None) by (intros; simpl; by rewrite Hc).
  assert (He : str_eqb (c :: l) END_PATCH_MARKER = false).
  { apply str_eqb_neq. intros [= -> _]. done. }
  unfold handle_hunk_headers_and_end_patch, handle_hunk_headers. rewrite He.
  rewrite (Hs _ : strip_prefix ADD_FILE_MARKER _ = None).
  rewrite (Hs _ : strip_prefix DELETE_FILE_MARKER _ = None).
  rewrite (Hs _ : strip_prefix UPDATE_FILE_MARKER _ = None).
  rewrite (Hs _ : strip_prefix ENVIRONMENT_ID_MARKER _ = None).
  by destruct (mode (state self)).
Qed.

Lemma trim_end_head c l : trim_end (c :: l) = [] \/ exists r, trim_end (c :: l) = c :: r.
Proof.
  destruct (trim_end_prefix (c :: l)) as [t Ht].
  destruct (trim_end (c :: l)) as [|d r]; [by left|]. simplify_eq/=. eauto.
Qed.

Lemma trim_end_not_starred c l : c <> 42%N -> not_starred (trim_end (c :: l)).
Proof. intros Hc r. destruct (trim_end_head c l) as [->|[r' ->]]; congruence. Qed.

Lemma process_update_step env hs path n ln mv cs mv' cs' l :
  handle_hunk_headers_and_end_patch (upd env hs path n ln mv cs) (trim_end l) =
    (upd env hs path n ln mv cs, Ok false) ->
  update_hunk_line l ln mv cs = Ok (mv', cs') ->
  process_line (upd env hs path n ln mv cs) l = (upd env hs path n ln mv' cs', Ok tt).
Proof.
  intros Hh Hu. unfold process_line. rewrite Hh. simpl. rewrite last_snoc, Hu.
  unfold set_mode, set_last_update, set_hunks, with_state, upd; simpl.
  by rewrite update_last_snoc.
Qed.

Lemma process_move env hs path n ln p :
  wf_name p ->
  process_line (upd env hs path n ln None []) (MOVE_TO_MARKER ++ p) =
  (upd env hs path n ln (Some p) [], Ok tt).
Proof.
  intros Hp. apply process_update_step; unfold update_hunk_line;
    rewrite (trim_end_id (MOVE_TO_MARKER ++ p)) by (by apply name_last).
  - reflexivity.
  - by rewrite strip_prefix_app.
Qed.

Definition context_line (ctx : option str) : str :=
  match ctx with
  | None => EMPTY_CHANGE_CONTEXT_MARKER
  | Some ctx => CHANGE_CONTEXT_MARKER ++ ctx
  end.

Definition wf_context (ctx : option str) : Prop :=
  match ctx with None => True | Some c => wf_name c end.

Definition new_chunk (ctx : option str) : UpdateFileChunk :=
  {| change_context := ctx; old_lines := []; new_lines := [];
     context_line_indices := []; is_end_of_file := false |}.

Lemma context_line_trim ctx : wf_context ctx -> trim_end (context_line ctx) = context_line ctx.
Proof. destruct ctx; [|done]. intros H. by apply trim_end_id, name_last. Qed.

Lemma context_line_marker ctx : is_context_marker (context_line ctx) = true.
Proof.
  unfold is_context_marker, starts_with. destruct ctx; cbn [context_line]; [|done].
  rewrite strip_prefix_app. by rewrite orb_true_r.
Qed.

Lemma process_context env hs path n ln mv cs ctx :
  wf_context ctx -> last_chunk_is_empty cs = false ->
  process_line (upd env hs path n ln mv cs) (context_line ctx) =
  (upd env hs path n ln mv (cs ++ [new_chunk ctx]), Ok tt).
Proof.
  intros Hc Hl. apply process_update_step; unfold update_hunk_line, update_chunk_line;
    rewrite context_line_trim by done.
  - apply handle_not_starred. by destruct ctx.
  - rewrite context_line_marker, Hl. simpl negb. rewrite !andb_false_r.
    replace (is_nil (context_line ctx)) with false by (by destruct ctx). rewrite andb_false_r.
    replace (strip_prefix MOVE_TO_MARKER (context_line ctx)) with (@None str) by (by destruct ctx).
    destruct ctx as [c|]; cbn [context_line].
    + rewrite strip_prefix_app.
      replace (str_eqb (CHANGE_CONTEXT_MARKER ++ c) _) with false.
      2: { symmetry. by apply str_eqb_neq. }
      by destruct (is_nil cs), mv.
    + rewrite str_eqb_refl. by destruct (is_nil cs), mv.
Qed.

(** A line that starts with a change character. *)
Lemma change_not_marker c l :
  c <> 42%N -> c <> 64%N ->
  is_context_marker (trim_end (c :: l)) = false /\
  str_eqb (trim_end (c :: l)) EOF_MARKER = false.
Proof.
  intros H42 H64. destruct (trim_end_head c l) as [->|[r ->]]; [done|].
  unfold is_context_marker, starts_with. split.
  - apply orb_false_iff. split; [apply str_eqb_neq; unfold EMPTY_CHANGE_CONTEXT_MARKER; congruence|].
    simpl. by rewrite (proj2 (N.eqb_neq 64 c)) by done.
  - apply str_eqb_neq. unfold EOF_MARKER. congruence.
Qed.

Lemma update_chunk_change ln init k c :
  update_chunk_line (change_text c) ln (init ++ [k]) = Ok (init ++ [apply_change k c]).
Proof.
  assert (Hm : is_context_marker (trim_end (change_text c)) = false /\
               str_eqb (trim_end (change_text c)) EOF_MARKER = false).
  { destruct c; by apply change_not_marker. }
  destruct Hm as [Hm He]. unfold update_chunk_line.
  destruct (not_context_marker _ Hm) as [-> ->]. rewrite Hm, He. cbn [andb].
  destruct c; cbn; eval_eqb; unfold with_last_chunk; by rewrite is_nil_snoc, update_last_snoc.
Qed.

Lemma process_change env hs path n ln mv init k c :
  is_end_of_file k = false ->
  process_line (upd env hs path n ln mv (init ++ [k])) (change_text c) =
  (upd env hs path n ln mv (init ++ [apply_change k c]), Ok tt).
Proof.
  intros Hk. apply process_update_step.
  - destruct c; by apply handle_not_starred, trim_end_not_starred.
  - unfold update_hunk_line. rewrite last_snoc, is_nil_snoc. cbn [is_some_and]. rewrite Hk.
    by rewrite update_chunk_change.
Qed.

Lemma process_eof env hs path n ln mv init k :
  is_end_of_file k = false -> chunk_is_empty k = false ->
  process_line (upd env hs path n ln mv (init ++ [k])) EOF_MARKER =
  (upd env hs path n ln mv (init ++ [mark_end_of_file k]), Ok tt).
Proof.
  intros Hk He. apply process_update_step; [reflexivity|].
  unfold update_hunk_line, update_chunk_line, last_chunk_is_empty.
  rewrite last_snoc, is_nil_snoc. cbn [is_some_and]. rewrite Hk, He.
  change (trim_end EOF_MARKER) with EOF_MARKER. rewrite str_eqb_refl. cbn.
  by rewrite update_last_snoc.
Qed.

Lemma apply_change_facts k c :
  is_end_of_file (apply_change k c) = is_end_of_file k /\ chunk_is_empty (apply_change k c) = false.
Proof.
  destruct c; unfold chunk_is_empty; simpl; rewrite is_nil_snoc; rewrite ?andb_false_r; done.
Qed.

(** Every step goes through [take_line], which only bumps the line number. *)
Lemma take_line_upd env hs path n ln mv cs :
  take_line (upd env hs path n ln mv cs) = upd env hs path n (S ln) mv cs.
Proof. done. Qed.

Lemma process_changes env hs path n mv init changes ln k :
  is_end_of_file k = false ->
  process_lines (upd env hs path n ln mv (init ++ [k])) (map change_text changes) =
  (upd env hs path n (length changes + ln) mv (init ++ [foldl apply_change k changes]), Ok tt) /\
  is_end_of_file (foldl apply_change k changes) = false /\
  (changes <> [] -> chunk_is_empty (foldl apply_change k changes) = false).
Proof.
  revert ln k; induction changes as [|c changes IH]; intros ln k Hk; [done|].
  cbn [map process_lines length foldl].
  rewrite take_line_upd, process_change by done.
  destruct (apply_change_facts k c) as [H1 H2]. rewrite Hk in H1.
  destruct (IH (S ln) _ H1) as (-> & He & Hn).
  split; [|split; [done|]].
  - do 2 f_equal. lia.
  - intros _. destruct changes; [done|]. by apply Hn.
Qed.

Lemma process_chunk env hs path n mv cs c ln :
  wf_chunk_doc c -> last_chunk_is_empty cs = false ->
  exists ln', process_lines (upd env hs path n ln mv cs) (chunk_text c) =
    (upd env hs path n ln' mv (cs ++ [chunk_of c]), Ok tt) /\
    chunk_is_empty (chunk_of c) = false.
Proof.
  intros (Hctx & Hne & Hall) Hl. unfold chunk_text, chunk_of.
  change (match cd_context c with None => _ | Some ctx => _ end) with (context_line (cd_context c)).
  cbn [process_lines]. rewrite take_line_upd, process_context by done. rewrite process_lines_app.
  destruct (process_changes env hs path n mv cs (cd_changes c) (S ln) (new_chunk (cd_context c)))
    as (-> & He & Hn); [done|].
  specialize (Hn Hne). fold (new_chunk (cd_context c)). destruct (cd_eof c).
  - cbn [process_lines]. rewrite take_line_upd, process_eof by done. by eexists.
  - by eexists.
Qed.

Lemma process_chunks env hs path n mv chunks cs ln :
  Forall wf_chunk_doc chunks -> last_chunk_is_empty cs = false ->
  exists ln', process_lines (upd env hs path n ln mv cs) (mjoin (map chunk_text chunks)) =
    (upd env hs path n ln' mv (cs ++ map chunk_of chunks), Ok tt) /\
    last_chunk_is_empty (cs ++ map chunk_of chunks) = false.
Proof.
  intros Hall. revert cs ln; induction Hall as [|c chunks Hc _ IH]; intros cs ln Hl.
  { exists ln. simpl. by rewrite app_nil_r. }
  cbn [map]. change (mjoin (chunk_text c :: ?x)) with (chunk_text c ++ mjoin x).
  rewrite process_lines_app.
  destruct (process_chunk env hs path n mv cs c ln Hc Hl) as (ln1 & -> & He).
  destruct (IH (cs ++ [chunk_of c]) ln1) as (ln2 & H2 & H3).
  { unfold last_chunk_is_empty. by rewrite last_snoc. }
  exists ln2. rewrite <- app_assoc in H2, H3. done.
Qed.

Definition adding (env : option str) (hs : list Hunk) (path : PathBuf) (ln : nat) (contents : str)
    : StreamingPatchParser :=
  mkParser [] (mkState InAddFile (hs ++ [AddFile path contents]) env) ln.

Lemma process_add_lines env hs path added ln contents :
  exists ln', process_lines (adding env hs path ln contents) (map (cons ch_plus) added) =
    (adding env hs path ln' (contents ++ mjoin (map (fun l => l ++ [ch_lf]) added)), Ok tt).
Proof.
  revert ln contents; induction added as [|l added IH]; intros ln contents.
  { exists ln. simpl. by rewrite app_nil_r. }
  destruct (IH (S ln) (contents ++ l ++ [ch_lf])) as [ln' H].
  exists ln'. cbn [map process_lines]. unfold process_line.
  rewrite trim_visible by done.
  rewrite handle_not_starred by (by apply trim_end_not_starred).
  change (strip_prefix [ch_plus] (ch_plus :: l)) with (Some l). cbn. rewrite last_snoc.
  unfold push_add_line, set_hunks, with_state; simpl. rewrite update_last_snoc.
  unfold adding in H. rewrite H. unfold adding. do 6 f_equal.
  by rewrite <- !app_assoc.
Qed.

Lemma ready_take_line self : ready self -> ready (take_line self).
Proof. done. Qed.

Lemma process_hunk self h :
  ready self -> line_buffer self = [] -> wf_hunk_doc h ->
  exists self', process_lines self (hunk_text h) = (self', Ok tt) /\ ready self' /\
    hunks (state self') = hunks (state self) ++ [hunk_of h] /\
    environment_id (state self') = environment_id (state self).
Proof.
  intros Hr Hb Hh. destruct h as [path added|path|path mv chunks]; unfold hunk_text, hunk_of;
    cbn [process_lines].
  - destruct Hh as [Hp _]. rewrite process_add_header by done.
    destruct (process_add_lines (environment_id (state self)) (hunks (state self)) path added
                (S (line_number self)) []) as [ln' H].
    eexists. split; [exact H|]. unfold ready, adding; simpl. by rewrite last_snoc.
  - rewrite process_delete_header by done. eexists. split; [done|].
    unfold ready; simpl. by rewrite last_snoc.
  - destruct Hh as (Hp & Hmv & Hne & Hall). rewrite process_update_header by done.
    set (n := line_number (take_line self)).
    change (set_mode (InUpdateFile n) (push_hunk (UpdateFile path None []) (take_line self)))
      with (upd (environment_id (state self)) (hunks (state self)) path n n None []).
    rewrite process_lines_app.
    assert (Hmove : exists ln, process_lines
        (upd (environment_id (state self)) (hunks (state self)) path n n None [])
        (match mv with None => [] | Some p => [MOVE_TO_MARKER ++ p] end) =
        (upd (environment_id (state self)) (hunks (state self)) path n ln mv [], Ok tt)).
    { destruct mv as [p|]; [|by eexists]. cbn [process_lines].
      rewrite take_line_upd, process_move by done. by eexists. }
    destruct Hmove as [ln ->].
    destruct (process_chunks (environment_id (state self)) (hunks (state self)) path n mv chunks [] ln)
      as (ln' & -> & Hl); [done|done|].
    eexists. split; [done|]. unfold ready, upd; simpl. rewrite last_snoc.
    repeat split; [|done]. by destruct chunks.
Qed.

Lemma process_hunks self ds :
  ready self -> line_buffer self = [] -> Forall wf_hunk_doc ds ->
  exists self', process_lines self (mjoin (map hunk_text ds)) = (self', Ok tt) /\ ready self' /\
    hunks (state self') = hunks (state self) ++ map hunk_of ds /\
    environment_id (state self') = environment_id (state self).
Proof.
  intros Hr Hb Hds. revert self Hr Hb; induction Hds as [|d ds Hd _ IH]; intros self Hr Hb.
  { exists self. simpl. by rewrite app_nil_r. }
  cbn [map]. change (mjoin (hunk_text d :: ?x)) with (hunk_text d ++ mjoin x).
  rewrite process_lines_app.
  destruct (process_hunk self d Hr Hb Hd) as (s1 & E1 & Hr1 & Hh1 & He1). rewrite E1.
  destruct (IH s1 Hr1) as (s2 & E2 & Hr2 & Hh2 & He2).
  { by eapply process_lines_buffer. }
  exists s2. split; [done|]. split; [done|]. rewrite Hh2, He2, Hh1, He1.
  by rewrite <- app_assoc.
Qed.

Lemma process_env self e :
  mode (state self) = StartedPatch -> environment_id (state self) = None ->
  wf_name e -> no_ws_head e ->
  process_line self (ENVIRONMENT_ID_MARKER ++ ch_space :: e) = (set_environment_id (Some e) self, Ok tt).
Proof.
  intros Hm He Hn Hh. apply process_header; [by rewrite Hm|apply star_head| |].
  - change (ENVIRONMENT_ID_MARKER ++ ch_space :: e)
      with ((ENVIRONMENT_ID_MARKER ++ [ch_space]) ++ e). by apply name_last.
  - unfold handle_hunk_headers_and_end_patch. rewrite Hm, strip_prefix_app, He.
    assert (Ht : trim (ch_space :: e) = e).
    { unfold trim. change (trim_start (ch_space :: e)) with (trim_start e).
      destruct Hn as (_ & Hl & _). by apply trim_id. }
    rewrite Ht. destruct Hn as [Hne _]. by destruct e.
Qed.

Lemma process_body d :
  wf_patch_doc d ->
  exists self, process_lines default_parser (body_text d) = (self, Ok tt) /\ ready self /\
    hunks (state self) = map hunk_of (pd_hunks d) /\ environment_id (state self) = pd_env d.
Proof.
  intros [Henv Hall]. unfold body_text. cbn [process_lines].
  change (process_line (take_line default_parser) BEGIN_PATCH_MARKER)
    with (set_mode StartedPatch (take_line default_parser), Ok (A := unit) (E := ParseError) tt).
  cbv beta iota. rewrite process_lines_app.
  assert (H : exists s1, process_lines (set_mode StartedPatch (take_line default_parser))
                (env_text (pd_env d)) = (s1, Ok tt) /\ ready s1 /\ line_buffer s1 = [] /\
              hunks (state s1) = [] /\ environment_id (state s1) = pd_env d).
  { destruct (pd_env d) as [e|]; cbn [env_text process_lines]; [|by eexists].
    destruct Henv. rewrite process_env by done. by eexists. }
  destruct H as (s1 & -> & Hr & Hb & Hh & He).
  destruct (process_hunks s1 (pd_hunks d) Hr Hb Hall) as (s2 & E2 & Hr2 & Hh2 & He2).
  exists s2. rewrite Hh2, He2, Hh, He. done.
Qed.

(** ** The lines of a document survive [trim], [lines] and [join] *)

Lemma clean_name m p : clean_line m -> wf_name p -> clean_line (m ++ p).
Proof.
  intros [Hm _] (Hne & Hl & Hlf). split; [set_solver|].
  destruct p as [|a p] using rev_ind; [done|]. rewrite app_assoc, last_snoc.
  intros [= ->]. specialize (Hl ch_cr). rewrite last_snoc in Hl. by specialize (Hl eq_refl).
Qed.

Lemma clean_cons c l : c <> ch_lf -> c <> ch_cr -> clean_line l -> clean_line (c :: l).
Proof.
  intros H1 H2 [Hl Hcr]. split; [set_solver|]. destruct l; simpl in *; [congruence|done].
Qed.

(** A line without control characters, by computation. *)
Definition printable (l : str) : bool := forallb (fun c => 32 <=? c)%N l.

Lemma printable_clean l : printable l = true -> clean_line l.
Proof.
  intros H. assert (Ha : Forall (fun c => 32 <= c)%N l).
  { apply Forall_forall. intros x Hx. unfold printable in H. rewrite forallb_forall in H.
    apply N.leb_le, H. by apply list_elem_of_In. }
  split.
  - intros Hx. rewrite Forall_forall in Ha. specialize (Ha _ Hx). unfold ch_lf in Ha. cbv beta in Ha. lia.
  - intros Hl. apply last_snoc_inv in Hl as [l' ->]. apply Forall_app in Ha as [_ Ha].
    inv Ha. unfold ch_cr in *. lia.
Qed.

#[local] Hint Resolve clean_name printable_clean clean_cons : rust.

Lemma chunk_text_clean c : wf_chunk_doc c -> Forall clean_line (chunk_text c).
Proof.
  intros (Hctx & _ & Hall). unfold chunk_text. constructor.
  - destruct (cd_context c); [|by apply printable_clean]. apply clean_name; [|done].
    by apply printable_clean.
  - apply Forall_app_2.
    + apply Forall_fmap. eapply Forall_impl; [exact Hall|]. intros []; simpl; by apply clean_cons.
    + destruct (cd_eof c); [|done]. apply Forall_singleton. by apply printable_clean.
Qed.

Lemma hunk_text_clean h : wf_hunk_doc h -> Forall clean_line (hunk_text h).
Proof.
  destruct h as [path added|path|path mv chunks]; simpl.
  - intros [Hp Hall]. constructor; [by apply (clean_name ADD_FILE_MARKER); [apply printable_clean|]|].
    apply Forall_fmap. eapply Forall_impl; [exact Hall|]. intros l; simpl. by apply clean_cons.
  - intros Hp. apply Forall_singleton. by apply (clean_name DELETE_FILE_MARKER); [apply printable_clean|].
  - intros (Hp & Hmv & _ & Hall).
    constructor; [by apply (clean_name UPDATE_FILE_MARKER); [apply printable_clean|]|].
    apply Forall_app_2.
    + destruct mv as [p|]; [|done]. apply Forall_singleton.
      by apply (clean_name MOVE_TO_MARKER); [apply printable_clean|].
    + apply Forall_join, Forall_fmap. eapply Forall_impl; [exact Hall|]. apply chunk_text_clean.
Qed.

Lemma body_text_clean d : wf_patch_doc d -> Forall clean_line (body_text d).
Proof.
  intros [Henv Hall]. unfold body_text. constructor; [by apply printable_clean|].
  apply Forall_app_2.
  - destruct (pd_env d) as [e|]; [|done]. apply Forall_singleton. destruct Henv as [He _].
    by apply (clean_name (ENVIRONMENT_ID_MARKER ++ [ch_space]) e); [apply printable_clean|].
  - apply Forall_join, Forall_fmap. eapply Forall_impl; [exact Hall|]. apply hunk_text_clean.
Qed.

Lemma last_join sep ls (l : str) x : last l = Some x -> last (join sep (ls ++ [l])) = Some x.
Proof.
  intros Hl. induction ls as [|y ls IH]; [done|].
  assert (Hj : join sep ((y :: ls) ++ [l]) = y ++ sep ++ join sep (ls ++ [l])) by (by destruct ls).
  rewrite Hj, !last_app, IH. done.
Qed.

Lemma patch_text_trim d : trim (patch_text d) = patch_text d.
Proof.
  unfold patch_text. apply trim_id.
  - intros c r. unfold body_text. simpl.
    destruct (env_text _ ++ _); simpl; by intros [= <- _].
  - intros c. rewrite (last_join _ _ _ 104%N) by done. by intros [= <-].
Qed.

Lemma patch_text_lines d :
  wf_patch_doc d -> lines (trim (patch_text d)) = body_text d ++ [END_PATCH_MARKER].
Proof.
  intros Hd. rewrite patch_text_trim. apply lines_join; [by apply body_text_clean| |done].
  by apply printable_clean.
Qed.

Lemma patch_boundaries d :
  check_patch_boundaries_lenient (body_text d ++ [END_PATCH_MARKER]) =
  Ok (body_text d ++ [END_PATCH_MARKER]).
Proof.
  unfold check_patch_boundaries_lenient, check_patch_boundaries_strict. by rewrite last_snoc.
Qed.

(** The streaming parser on the text of a document. *)
Lemma stream_doc d :
  wf_patch_doc d ->
  exists p1 hs p2, push_delta default_parser (patch_text d) = (p1, Ok hs) /\
    finish p1 = (p2, Ok (map hunk_of d.(pd_hunks))) /\ environment_id (state p2) = d.(pd_env).
Proof.
  intros Hd. destruct (process_body d Hd) as (s1 & E & Hr & Hh & He).
  unfold push_delta, patch_text.
  rewrite (push_chars_join _ _ _ s1); [|by apply body_text_clean| |done|done].
  2: { by apply printable_clean. }
  do 3 eexists. split; [done|]. unfold finish, finish_line. cbn [line_buffer].
  change (trim END_PATCH_MARKER) with END_PATCH_MARKER. rewrite str_eqb_refl.
  rewrite ready_ensure by done. simpl. rewrite Hh. split; [reflexivity|exact He].
Qed.

(** C3: round trip.  For every well-formed patch document (names without
    trailing whitespace or line breaks, lines without line terminators, no
    empty chunk) [parse_patch] accepts its text and returns exactly the hunks,
    chunks (with context indices and end-of-file flags) and environment id the
    document denotes, together with the text itself. *)
Theorem parse_patch_text_of_doc d :
  wf_patch_doc d ->
  parse_patch (patch_text d) =
  Ok {| args_patch := patch_text d; args_hunks := map hunk_of d.(pd_hunks);
        args_workdir := None; args_environment_id := d.(pd_env) |}.
Proof.
  intros Hd. unfold parse_patch, parse_patch_text. cbn [PARSE_IN_STRICT_MODE].
  rewrite patch_text_lines, patch_boundaries by done. cbn [result_bind].
  fold (patch_text d). destruct (stream_doc d Hd) as (p1 & hs & p2 & -> & Hf & He).
  cbn [result_bind]. rewrite Hf. cbn [result_bind]. by rewrite He.
Qed.

(** A document that exercises every construct. *)
Definition sample_doc : patch_doc := {|
  pd_env := Some (lit "env-1");
  pd_hunks :=
    [DAdd (lit "a.txt") [lit "hello"; []];
     DDelete (lit "dir/b.txt");
     DUpdate (lit "c.txt") (Some (lit "d.txt"))
       [{| cd_context := Some (lit "def f():");
           cd_changes := [Ctx (lit "x"); Del (lit "y"); Add (lit "z"); Ctx []];
           cd_eof := false |};
        {| cd_context := None; cd_changes := [Add (lit "tail")]; cd_eof := true |}]] |}.

Lemma wf_name_compute p :
  match last p with Some c => negb (is_whitespace c) | None => false end = true ->
  printable p = true -> wf_name p.
Proof.
  intros H1 H2. split; [by intros ->|]. split.
  - intros c Hc. rewrite Hc in H1. by apply negb_true_iff.
  - apply printable_clean, H2.
Qed.

Lemma sample_doc_wf : wf_patch_doc sample_doc.
Proof.
  split; [split; [by apply wf_name_compute|by intros c r [= <- _]]|].
  repeat constructor; simpl; try (by apply wf_name_compute); try (by apply printable_clean);
    try discriminate.
Qed.

Lemma parse_patch_text_of_doc_witness :
  wf_patch_doc sample_doc /\
  parse_patch (patch_text sample_doc) =
  Ok {| args_patch := patch_text sample_doc; args_hunks := map hunk_of sample_doc.(pd_hunks);
        args_workdir := None; args_environment_id := Some (lit "env-1") |}.
Proof.
  split; [apply sample_doc_wf|]. apply (parse_patch_text_of_doc sample_doc), sample_doc_wf.
Defined.

(** ** Heredoc wrappers *)

Definition heredoc_text (start : str) (d : patch_doc) : str :=
  join [ch_lf] ((start :: body_text d ++ [END_PATCH_MARKER]) ++ [lit "EOF"]).

Lemma heredoc_lines start d :
  start ∈ heredoc_starts -> wf_patch_doc d ->
  lines (trim (heredoc_text start d)) = (start :: body_text d ++ [END_PATCH_MARKER]) ++ [lit "EOF"].
Proof.
  intros Hs Hd. assert (Hc : clean_line start /\ no_ws_head start /\ start <> []).
  { unfold heredoc_starts in Hs. rewrite !elem_of_cons in Hs.
    destruct Hs as [->|[->|[->|Hs]]]; [..|by apply not_elem_of_nil in Hs];
      (split; [by apply printable_clean|split; [by intros c r [= <- _]|done]]). }
  destruct Hc as (Hc & Hh & Hne). rewrite trim_id.
  - apply lines_join; [|by apply printable_clean|done].
    constructor; [done|]. apply Forall_app_2; [by apply body_text_clean|].
    apply Forall_singleton. by apply printable_clean.
  - intros c r. destruct start as [|a start]; [done|]. unfold heredoc_text. simpl.
    destruct ((body_text d ++ [END_PATCH_MARKER]) ++ [lit "EOF"]); simpl;
      intros [= <- _]; by eapply Hh.
  - intros c. unfold heredoc_text. rewrite (last_join _ _ _ 70%N) by done. by intros [= <-].
Qed.

(** A heredoc wrapper around lines with good boundaries is stripped. *)
Lemma heredoc_boundaries start b :
  start ∈ heredoc_starts -> check_patch_boundaries_strict b = Ok b -> 2 <= length b ->
  check_patch_boundaries_lenient ((start :: b) ++ [lit "EOF"]) = Ok b.
Proof.
  intros Hs Hstrict Hlen.
  assert (Hfail : exists e, check_patch_boundaries_strict ((start :: b) ++ [lit "EOF"]) = Err e).
  { unfold check_patch_boundaries_strict. rewrite last_snoc. simpl.
    unfold check_start_and_end_lines_strict. simpl. rewrite andb_false_r. case_match; by eexists. }
  destruct Hfail as [e He]. unfold check_patch_boundaries_lenient. rewrite He, last_snoc.
  assert (Hb0 : existsb (str_eqb start) heredoc_starts = true).
  { apply existsb_exists. exists start. split; [by apply list_elem_of_In|apply str_eqb_refl]. }
  destruct b as [|x b]; [simpl in Hlen; lia|].
  assert (Hb2 : (4 <=? length (start :: x :: b ++ [lit "EOF"])) = true).
  { apply Nat.leb_le. simpl in *. rewrite length_app. simpl. lia. }
  cbn [app is_some_and]. rewrite Hb0, Hb2. cbn [andb]. replace (ends_with (lit "EOF") (lit "EOF")) with true by done.
  cbn [andb]. replace (length _ - 2) with (length (x :: b)) by (simpl; rewrite length_app; simpl; lia).
  change (drop 1 (start :: x :: b ++ [lit "EOF"])) with ((x :: b) ++ [lit "EOF"]).
  by rewrite take_app_length.
Qed.

(** Lenient mode.  A document wrapped in a heredoc ([<<EOF], [<<'EOF'] or
    the double-quoted form on the first line, [EOF] on the last) is accepted,
    and the result is the one of the unwrapped document. *)
Theorem parse_patch_heredoc start d :
  start ∈ heredoc_starts -> wf_patch_doc d ->
  parse_patch (heredoc_text start d) = parse_patch (patch_text d).
Proof.
  intros Hs Hd. unfold parse_patch, parse_patch_text. cbn [PARSE_IN_STRICT_MODE].
  rewrite heredoc_lines, patch_text_lines, patch_boundaries by done.
  assert (Hb : check_patch_boundaries_lenient
      ((start :: body_text d ++ [END_PATCH_MARKER]) ++ [lit "EOF"]) =
      Ok (body_text d ++ [END_PATCH_MARKER])).
  { apply heredoc_boundaries; [done| |unfold body_text; rewrite length_app; simpl; lia].
    unfold check_patch_boundaries_strict. by rewrite last_snoc. }
  by rewrite Hb.
Qed.

Lemma parse_patch_heredoc_witness :
  parse_patch (heredoc_text (lit "<<'EOF'") sample_doc) = parse_patch (patch_text sample_doc).
Proof.
  apply (parse_patch_heredoc (lit "<<'EOF'") sample_doc); [|apply sample_doc_wf].
  apply list_elem_of_further, list_elem_of_here.
Defined.

(** Whatever the text, accepted hunks are well formed. *)
Lemma parse_patch_wf patch args : parse_patch patch = Ok args -> Forall wf_hunk args.(args_hunks).
Proof.
  unfold parse_patch, parse_patch_text. generalize (if PARSE_IN_STRICT_MODE then Strict else Lenient).
  intros m. set (b := match m with Strict => _ | Lenient => _ end).
  destruct b as [ls|e]; cbn [result_bind]; [|done].
  unfold push_delta. destruct (push_chars default_parser _) as [p1 [[]|e]] eqn:E1; [|done].
  apply push_chars_inv in E1; [|apply parser_inv_default]. cbn [result_bind].
  destruct (finish p1) as [p2 [hs|e]] eqn:E2; cbn [result_bind]; [|done].
  intros [= <-]. simpl. by eapply finish_wf.
Qed.
