(* ===== verification/PatchPreview.v ===== *)
(** * Patches shown while they are streamed

    The text of a patch arrives in deltas, and [push_delta] of
    apply-patch/src/streaming_parser.rs reports after each of them the hunks read
    so far.  For the documents of PatchParser this file says what is reported: the
    hunks of the complete lines received, the last of them as far as it goes,
    however the text is cut. *)

From S2P Require Import Prelude RustStr PatchTypes StreamingPatch PatchParser.

(** ** The beginning of a document *)

(** A chunk cut inside its lines. *)
Definition cut_chunk (n : nat) (c : chunk_doc) : chunk_doc :=
  {| cd_context := c.(cd_context); cd_changes := take (n - 1) c.(cd_changes); cd_eof := false |}.

(** The chunks of the first [n] lines. *)
Fixpoint first_chunks (n : nat) (chunks : list chunk_doc) : list chunk_doc :=
  match chunks with
  | [] => []
  | c :: rest =>
      if length (chunk_text c) <=? n then c :: first_chunks (n - length (chunk_text c)) rest
      else if n =? 0 then [] else [cut_chunk n c]
  end.

(** A hunk cut after its header. *)
Definition cut_hunk (n : nat) (h : hunk_doc) : hunk_doc :=
  match h with
  | DAdd path added => DAdd path (take (n - 1) added)
  | DDelete path => DDelete path
  | DUpdate path None chunks => DUpdate path None (first_chunks (n - 1) chunks)
  | DUpdate path (Some p) chunks =>
      if n =? 1 then DUpdate path None [] else DUpdate path (Some p) (first_chunks (n - 2) chunks)
  end.

Fixpoint first_hunks (n : nat) (ds : list hunk_doc) : list hunk_doc :=
  match ds with
  | [] => []
  | h :: rest =>
      if length (hunk_text h) <=? n then h :: first_hunks (n - length (hunk_text h)) rest
      else if n =? 0 then [] else [cut_hunk n h]
  end.

(** What the first [n] lines of a document say. *)
Definition first_lines (n : nat) (d : patch_doc) : patch_doc :=
  {| pd_env := if 2 <=? n then d.(pd_env) else None;
     pd_hunks := first_hunks (n - 1 - length (env_text d.(pd_env))) d.(pd_hunks) |}.

(** ** Processing the beginning of a document *)

Lemma process_cut_chunk env hs path m mv cs c ln n : wf_chunk_doc c -> last_chunk_is_empty cs = false ->
  n <> 0 -> n < length (chunk_text c) ->
  exists ln', process_lines (upd env hs path m ln mv cs) (take n (chunk_text c)) =
    (upd env hs path m ln' mv (cs ++ [chunk_of (cut_chunk n c)]), Ok tt).
Proof.
  intros (Hctx & _ & _) Hl Hn Hlen. destruct n as [|n]; [done|]. unfold chunk_text in Hlen |- *.
  change (match cd_context c with None => _ | Some ctx => _ end) with (context_line (cd_context c)) in Hlen |- *.
  cbn [take process_lines]. rewrite take_line_upd, process_context by done.
  cbn [length] in Hlen. rewrite length_app, length_map in Hlen.
  assert (Hn' : n <= length (cd_changes c)) by (destruct (cd_eof c); cbn in Hlen; lia).
  rewrite take_app_le by (by rewrite length_map). rewrite firstn_map.
  destruct (process_changes env hs path m mv cs (take n (cd_changes c)) (S ln) (new_chunk (cd_context c)))
    as (E & _ & _); [done|].
  eexists. rewrite E. unfold chunk_of, cut_chunk. cbn [cd_context cd_changes cd_eof].
  by replace (S n - 1) with n by lia.
Qed.

Lemma process_first_chunks env hs path m mv chunks : forall cs ln n,
  Forall wf_chunk_doc chunks -> last_chunk_is_empty cs = false ->
  exists ln', process_lines (upd env hs path m ln mv cs) (take n (mjoin (map chunk_text chunks))) =
    (upd env hs path m ln' mv (cs ++ map chunk_of (first_chunks n chunks)), Ok tt).
Proof.
  induction chunks as [|c chunks IH]; intros cs ln n Hall Hl.
  { exists ln. change (mjoin (map chunk_text [])) with (@nil str). rewrite take_nil. cbn. by rewrite app_nil_r. }
  apply Forall_cons in Hall as [Hc Hall]. cbn [map first_chunks].
  change (mjoin (chunk_text c :: ?x)) with (chunk_text c ++ mjoin x).
  destruct (Nat.leb_spec (length (chunk_text c)) n) as [Hle|Hlt].
  - rewrite take_app_ge by done. rewrite process_lines_app.
    destruct (process_chunk env hs path m mv cs c ln Hc Hl) as (ln1 & -> & He).
    destruct (IH (cs ++ [chunk_of c]) ln1 (n - length (chunk_text c)) Hall) as (ln2 & H2).
    { unfold last_chunk_is_empty. by rewrite last_snoc. }
    exists ln2. cbn [map]. by rewrite <- app_assoc in H2.
  - rewrite take_app_le by lia. destruct (Nat.eqb_spec n 0) as [->|Hn].
    + exists ln. cbn. by rewrite app_nil_r.
    + by apply process_cut_chunk.
Qed.

Lemma take_map_cons {A} (x : A) n l : n <> 0 -> take n (x :: l) = x :: take (n - 1) l.
Proof. intros Hn. destruct n as [|n]; [done|]. cbn. by rewrite Nat.sub_0_r. Qed.

Lemma process_cut_hunk self h n : ready self -> line_buffer self = [] -> wf_hunk_doc h -> n <> 0 ->
  n < length (hunk_text h) ->
  exists self', process_lines self (take n (hunk_text h)) = (self', Ok tt) /\
    hunks (state self') = hunks (state self) ++ [hunk_of (cut_hunk n h)] /\
    environment_id (state self') = environment_id (state self).
Proof.
  intros Hr Hb Hh Hn Hlen. destruct h as [path added|path|path mv chunks]; unfold hunk_text in *;
    rewrite take_map_cons by done; cbn [process_lines].
  - destruct Hh as [Hp _]. rewrite process_add_header, firstn_map by done.
    destruct (process_add_lines (environment_id (state self)) (hunks (state self)) path (take (n - 1) added)
                (S (line_number self)) []) as [ln' H].
    eexists. split; [exact H|]. done.
  - cbn in Hlen. lia.
  - destruct Hh as (Hp & Hmv & _ & Hall). rewrite process_update_header by done.
    set (m := line_number (take_line self)).
    change (set_mode (InUpdateFile m) (push_hunk (UpdateFile path None []) (take_line self)))
      with (upd (environment_id (state self)) (hunks (state self)) path m m None []).
    destruct mv as [p|]; cbn [app cut_hunk].
    + destruct (Nat.eqb_spec n 1) as [->|Hn1]; [by eexists|].
      rewrite take_map_cons by lia. cbn [process_lines]. rewrite take_line_upd, process_move by done.
      destruct (process_first_chunks (environment_id (state self)) (hunks (state self)) path m (Some p) chunks [] (S m) (n - 1 - 1))
        as (ln' & E); [done|done|].
      eexists. split; [exact E|]. cbn [hunk_of]. by replace (n - 2) with (n - 1 - 1) by lia.
    + destruct (process_first_chunks (environment_id (state self)) (hunks (state self)) path m None chunks [] m (n - 1))
        as (ln' & E); [done|done|].
      by eexists.
Qed.

Lemma process_first_hunks ds : forall self n,
  ready self -> line_buffer self = [] -> Forall wf_hunk_doc ds ->
  exists self', process_lines self (take n (mjoin (map hunk_text ds))) = (self', Ok tt) /\
    hunks (state self') = hunks (state self) ++ map hunk_of (first_hunks n ds) /\
    environment_id (state self') = environment_id (state self).
Proof.
  induction ds as [|d ds IH]; intros self n Hr Hb Hds.
  { exists self. change (mjoin (map hunk_text [])) with (@nil str). rewrite take_nil. cbn. by rewrite app_nil_r. }
  apply Forall_cons in Hds as [Hd Hds]. cbn [map first_hunks].
  change (mjoin (hunk_text d :: ?x)) with (hunk_text d ++ mjoin x).
  destruct (Nat.leb_spec (length (hunk_text d)) n) as [Hle|Hlt].
  - rewrite take_app_ge by done. rewrite process_lines_app.
    destruct (process_hunk self d Hr Hb Hd) as (s1 & E1 & Hr1 & Hh1 & He1). rewrite E1.
    destruct (IH s1 (n - length (hunk_text d)) Hr1) as (s2 & E2 & Hh2 & He2); [by eapply process_lines_buffer|done|].
    exists s2. split; [done|]. rewrite Hh2, He2, Hh1, He1. by rewrite <- app_assoc.
  - rewrite take_app_le by lia. destruct (Nat.eqb_spec n 0) as [->|Hn].
    + exists self. cbn. by rewrite app_nil_r.
    + by apply process_cut_hunk.
Qed.

Lemma process_first_lines d n : wf_patch_doc d ->
  exists self, process_lines default_parser (take n (body_text d)) = (self, Ok tt) /\
    hunks (state self) = map hunk_of (pd_hunks (first_lines n d)) /\
    environment_id (state self) = pd_env (first_lines n d).
Proof.
  intros [Henv Hall]. unfold body_text. destruct (decide (n = 0)) as [->|Hn].
  { exists default_parser. split; [done|]. split; [|done]. cbn. by destruct (pd_hunks d) as [|[]]. }
  rewrite take_map_cons by done. cbn [process_lines].
  change (process_line (take_line default_parser) BEGIN_PATCH_MARKER)
    with (set_mode StartedPatch (take_line default_parser), Ok (A := unit) (E := ParseError) tt).
  cbv beta iota. unfold first_lines. cbn [pd_hunks pd_env].
  destruct (pd_env d) as [e|]; cbn [env_text app length].
  - destruct (Nat.leb_spec 2 n) as [H2|H2].
    + destruct Henv. rewrite take_map_cons by lia. cbn [process_lines]. rewrite process_env by done.
      destruct (process_first_hunks (pd_hunks d) (set_environment_id (Some e) (take_line (set_mode StartedPatch (take_line default_parser))))
                  (n - 1 - 1)) as (s & E & Hh & He); [done|done|done|]. by exists s.
    + replace n with 1 by lia. exists (set_mode StartedPatch (take_line default_parser)).
      split; [done|]. split; [|done]. cbn. by destruct (pd_hunks d) as [|[]].
  - destruct (process_first_hunks (pd_hunks d) (set_mode StartedPatch (take_line default_parser)) (n - 1))
      as (s & E & Hh & He); [done|done|done|].
    exists s. rewrite Nat.sub_0_r. split; [done|]. split; [done|]. rewrite He. by destruct (2 <=? n).
Qed.

(** All the lines say all of the document. *)
Lemma first_hunks_all ds : forall n, length (mjoin (map hunk_text ds)) <= n -> first_hunks n ds = ds.
Proof.
  induction ds as [|d ds IH]; intros n Hn; [done|]. cbn [map first_hunks] in *.
  change (mjoin (hunk_text d :: ?x)) with (hunk_text d ++ mjoin x) in Hn. rewrite length_app in Hn.
  rewrite (proj2 (Nat.leb_le _ _)) by lia. f_equal. apply IH. lia.
Qed.

Lemma first_lines_all d n : length (body_text d) < n -> first_lines n d = d.
Proof.
  intros Hn. unfold body_text in Hn. cbn [length] in Hn. rewrite length_app in Hn. unfold first_lines.
  rewrite first_hunks_all by lia. rewrite (proj2 (Nat.leb_le 2 n)) by lia. by destruct d.
Qed.

(** With the closing line the patch has ended. *)
Lemma process_text_lines d n : wf_patch_doc d -> n <= S (length (body_text d)) ->
  exists self, process_lines default_parser (take n (body_text d ++ [END_PATCH_MARKER])) = (self, Ok tt) /\
    hunks (state self) = map hunk_of (pd_hunks (first_lines n d)) /\
    environment_id (state self) = pd_env (first_lines n d) /\
    (n = S (length (body_text d)) -> mode (state self) = EndedPatch).
Proof.
  intros Hd Hn. destruct (decide (n <= length (body_text d))) as [Hle|Hgt].
  - rewrite take_app_le by done. destruct (process_first_lines d n Hd) as (s & E & Hh & He).
    exists s. split; [done|]. split; [done|]. split; [done|]. lia.
  - assert (n = S (length (body_text d))) as -> by lia.
    rewrite take_ge by (rewrite length_app; cbn; lia). rewrite process_lines_app.
    destruct (process_body d Hd) as (s & E & Hr & Hh & He). rewrite E. cbn [process_lines].
    assert (Hend : process_line (take_line s) END_PATCH_MARKER = (set_mode EndedPatch (take_line s), Ok tt)).
    { apply process_header; [apply Hr|apply star_head|by intros c [= <-]|].
      unfold handle_hunk_headers_and_end_patch, handle_hunk_headers. rewrite str_eqb_refl, ready_ensure by done.
      by destruct (mode (state (take_line s))). }
    rewrite Hend. eexists. split; [done|]. by rewrite first_lines_all by lia.
Qed.

(** ** Lines of a text that has not arrived completely *)

Definition line_feeds (s : str) : nat := length (List.filter (N.eqb ch_lf) s).

Lemma line_feeds_clean s : ch_lf ∉ s -> line_feeds s = 0.
Proof.
  unfold line_feeds. induction s as [|c s IH]; [done|]. intros [Hc Hs]%not_elem_of_cons. cbn [List.filter].
  rewrite (proj2 (N.eqb_neq ch_lf c)) by done. by apply IH.
Qed.

Lemma line_feeds_line x s : ch_lf ∉ x -> line_feeds (x ++ ch_lf :: s) = S (line_feeds s).
Proof.
  intros Hx. unfold line_feeds. rewrite List.filter_app, length_app. fold (line_feeds x).
  by rewrite (line_feeds_clean x) by done.
Qed.

(** A prefix of a text consists of complete lines and the beginning of another. *)
Lemma prefix_lines ls p : Forall (fun l => ch_lf ∉ l) ls -> p `prefix_of` join [ch_lf] (ls ++ [[]]) ->
  exists buf, p = join [ch_lf] (take (line_feeds p) ls ++ [buf]) /\ ch_lf ∉ buf /\ line_feeds p <= length ls
    /\ buf `prefix_of` default [] (ls !! line_feeds p).
Proof.
  intros Hls. revert p. induction Hls as [|x ls Hx _ IH]; intros p Hp.
  { apply prefix_nil_inv in Hp as ->. exists []. split; [done|]. split; [by apply not_elem_of_nil|]. split; [done|by apply prefix_nil]. }
  assert (Hj : forall (l : list str) b, join [ch_lf] ((x :: l) ++ [b]) = x ++ ch_lf :: join [ch_lf] (l ++ [b])) by (by intros []).
  rewrite Hj in Hp. destruct (decide (p `prefix_of` x)) as [Hpx|Hpx].
  - assert (Hlf : ch_lf ∉ p) by (destruct Hpx as [k ->]; set_solver). rewrite (line_feeds_clean p Hlf).
    exists p. split; [done|]. split; [done|]. split; [lia|done].
  - assert (Hx' : exists p', p = x ++ ch_lf :: p' /\ p' `prefix_of` join [ch_lf] (ls ++ [[]])).
    { destruct (prefix_weak_total p x (x ++ ch_lf :: join [ch_lf] (ls ++ [[]]))) as [?|[k ->]]; [done|by apply prefix_app_r|done|].
      apply prefix_app_inv in Hp. destruct k as [|c k]; [destruct Hpx; by rewrite app_nil_r|].
      apply prefix_cons_inv_1 in Hp as Hc. subst c. apply prefix_cons_inv_2 in Hp. eauto. }
    destruct Hx' as (p' & -> & Hp'). destruct (IH p' Hp') as (buf & E & Hb & Hn & Hpre).
    rewrite line_feeds_line by done. exists buf. cbn [take length]. rewrite Hj, <- E. split; [done|]. split; [done|].
    split; [lia|done].
Qed.

Lemma handle_number self l self' r :
  handle_hunk_headers_and_end_patch self l = (self', r) -> line_number self' = line_number self.
Proof.
  unfold handle_hunk_headers_and_end_patch, handle_hunk_headers.
  repeat case_match; intros; by simplify_eq.
Qed.

Lemma process_line_number self l self' r : process_line self l = (self', r) -> line_number self' = line_number self.
Proof.
  unfold process_line.
  destruct (mode (state self));
    try (destruct (handle_hunk_headers_and_end_patch self _) eqn:E; apply handle_number in E);
    repeat case_match; intros; by simplify_eq.
Qed.

Lemma process_lines_number ls : forall self self', process_lines self ls = (self', Ok tt) ->
  line_number self' = length ls + line_number self.
Proof.
  induction ls as [|l ls IH]; intros self self' H; cbn in H; [by simplify_eq|].
  destruct (process_line (take_line self) l) as [s1 [[]|e]] eqn:E; [|done].
  apply process_line_number in E. apply IH in H. cbn in *. lia.
Qed.

Lemma line_feeds_join ls b : Forall (fun l => ch_lf ∉ l) ls -> ch_lf ∉ b -> line_feeds (join [ch_lf] (ls ++ [b])) = length ls.
Proof.
  intros Hls Hb. induction Hls as [|x ls Hx _ IH]; [by apply line_feeds_clean|].
  assert (Hj : join [ch_lf] ((x :: ls) ++ [b]) = x ++ ch_lf :: join [ch_lf] (ls ++ [b])) by (by destruct ls).
  rewrite Hj, line_feeds_line by done. cbn [length]. by rewrite IH.
Qed.

(** ** Streaming a document *)

Definition text_lines (d : patch_doc) : list str := body_text d ++ [END_PATCH_MARKER].

Lemma text_lines_clean d : wf_patch_doc d -> Forall clean_line (text_lines d).
Proof. intros Hd. apply Forall_app_2; [by apply body_text_clean|]. apply Forall_singleton. by apply printable_clean. Qed.

Lemma join_last_empty ls : ls <> [] -> join [ch_lf] (ls ++ [[]]) = join [ch_lf] ls ++ [ch_lf].
Proof.
  induction ls as [|x ls IH]; [done|]. intros _. destruct ls as [|y ls]; [done|].
  change (join [ch_lf] ((x :: y :: ls) ++ [[]])) with (x ++ ch_lf :: join [ch_lf] ((y :: ls) ++ [[]])).
  change (join [ch_lf] (x :: y :: ls)) with (x ++ ch_lf :: join [ch_lf] (y :: ls)).
  rewrite IH by done. by rewrite <- app_assoc.
Qed.

Lemma text_lines_text d : join [ch_lf] (text_lines d ++ [[]]) = patch_text d ++ [ch_lf].
Proof. apply join_last_empty. unfold text_lines. by destruct (body_text d). Qed.

(** The parser after the beginning of the text. *)
Lemma push_text_prefix d p : wf_patch_doc d -> p `prefix_of` patch_text d ++ [ch_lf] ->
  exists self, push_delta default_parser p = (self, Ok (map hunk_of (pd_hunks (first_lines (line_feeds p) d))))
    /\ environment_id (state self) = pd_env (first_lines (line_feeds p) d)
    /\ line_number self = line_feeds p
    /\ p = join [ch_lf] (take (line_feeds p) (text_lines d) ++ [line_buffer self])
    /\ line_buffer self `prefix_of` default [] (text_lines d !! line_feeds p)
    /\ (line_feeds p = length (text_lines d) -> mode (state self) = EndedPatch).
Proof.
  intros Hd Hp. pose proof (text_lines_clean d Hd) as Hcl. rewrite <- text_lines_text in Hp.
  destruct (prefix_lines (text_lines d) p) as (buf & E & Hb & Hn & Hpre); [|done|].
  { eapply Forall_impl; [exact Hcl|]. by intros l []. }
  assert (Hlen : length (text_lines d) = S (length (body_text d))).
  { unfold text_lines. rewrite length_app. cbn. lia. }
  destruct (process_text_lines d (line_feeds p) Hd) as (s & Es & Hh & He & Hm); [lia|].
  fold (text_lines d) in Es. exists (mkParser buf (state s) (line_number s)). split.
  - unfold push_delta. rewrite E at 1. rewrite (push_chars_join default_parser _ buf s); [cbn [state]; by rewrite Hh| |done|done|done].
    by apply Forall_take.
  - cbn [state line_number line_buffer]. split; [done|]. split.
    + rewrite (process_lines_number _ _ _ Es), length_take. change (line_number default_parser) with 0. lia.
    + split; [done|]. split; [done|]. intros Hall. apply Hm. lia.
Qed.

(** C1: a patch can be shown while it arrives.  Let the text of a well-formed patch
    document, with or without the final line feed, arrive in any deltas, and
    stop anywhere.  No delta is refused; the hunks reported, and the environment
    id, are those of the complete lines received, the last hunk and its last
    chunk as far as these lines go; the parser has counted these lines and holds
    the beginning of the next one.  When all of the text has arrived, [finish]
    returns exactly the hunks of the document. *)
Theorem streamed_patch_preview d deltas rest :
  wf_patch_doc d -> mjoin deltas ++ rest = patch_text d ++ [ch_lf] ->
  let n := line_feeds (mjoin deltas) in
  exists self,
    push_deltas default_parser deltas = (self, Ok (map hunk_of (pd_hunks (first_lines n d))))
    /\ environment_id (state self) = pd_env (first_lines n d)
    /\ line_number self = n
    /\ mjoin deltas = join [ch_lf] (take n (body_text d ++ [END_PATCH_MARKER]) ++ [line_buffer self])
    /\ (rest = [] \/ rest = [ch_lf] ->
        exists self', finish self = (self', Ok (map hunk_of (pd_hunks d))) /\ environment_id (state self') = pd_env d).
Proof.
  intros Hd Htext n. destruct (push_text_prefix d (mjoin deltas) Hd) as (self & E & He & Hln & Hbuf & Hpre & Hm).
  { exists rest. by symmetry. }
  exists self. rewrite push_delta_concat. split; [done|]. split; [done|]. split; [done|]. split; [done|].
  intros [-> | ->].
  - rewrite app_nil_r in Htext. assert (Hall : n = length (text_lines d)).
    { unfold n. rewrite Htext, <- text_lines_text. apply line_feeds_join; [|by apply not_elem_of_nil].
      eapply Forall_impl; [by apply text_lines_clean|]. by intros l []. }
    fold n in Hpre. rewrite Hall, lookup_ge_None_2 in Hpre by lia. apply prefix_nil_inv in Hpre.
    exists self. unfold finish, finish_line. rewrite Hpre. cbn [is_nil]. rewrite Hm by done.
    assert (Hfl : first_lines n d = d).
    { apply first_lines_all. rewrite Hall. unfold text_lines. rewrite length_app. cbn. lia. }
    fold n in E, He. rewrite Hfl in E, He. unfold push_delta in E.
    destruct (push_chars default_parser (mjoin deltas)) as [s1 [[]|]]; [|done]. injection E as -> Eh. by rewrite Eh.
  - apply app_inv_tail in Htext. rewrite Htext in E. destruct (stream_doc d Hd) as (p1 & hs & p2 & E1 & Hfin & Henv).
    rewrite E1 in E. injection E as <- _. by exists p2.
Qed.

Definition preview_deltas : list str :=
  [take 20 (patch_text sample_doc); take 90 (drop 20 (patch_text sample_doc))].

Lemma streamed_patch_preview_witness :
  exists self,
    push_deltas default_parser preview_deltas
    = (self, Ok (map hunk_of
        [DAdd (lit "a.txt") [lit "hello"; []]; DDelete (lit "dir/b.txt")]))
    /\ line_number self = 6.
Proof.
  destruct (streamed_patch_preview sample_doc preview_deltas (drop 110 (patch_text sample_doc) ++ [ch_lf]))
    as (self & E & _ & Hn & _); [apply sample_doc_wf|vm_compute; reflexivity|].
  exists self. split; [rewrite E; vm_compute; reflexivity|rewrite Hn; vm_compute; reflexivity].
Defined.
