(* ===== verification/SeekSequence.v ===== *)
(** * Locating lines (apply-patch/src/seek_sequence.rs)

    [seek_sequence] looks for a run of lines with four decreasing levels of
    strictness.  Each loop [for i in search_start..=lines.len() - pattern.len()]
    is [first_match] at one level; the specification says which index the
    four loops together return. *)

From S2P Require Import Prelude RustStr PatchTypes.

(** [normalise]: trim, then map typographic punctuation to ASCII. *)
Definition normalise_char (c : char) : char :=
  (if (8208 <=? c) && (c <=? 8213) || (c =? 8722) then ch_minus
   else if (8216 <=? c) && (c <=? 8219) then ch_squote
   else if (8220 <=? c) && (c <=? 8223) then ch_dquote
   else if (c =? 160) || (8194 <=? c) && (c <=? 8202) || (c =? 8239) || (c =? 8287) || (c =? 12288)
   then ch_space
   else c)%N.

Definition normalise (s : str) : str := map normalise_char (trim s).

(** The inner loop over the pattern, on the lines from the current index. *)
Fixpoint lines_match (eqv : str -> str -> bool) (lines pattern : list str) : bool :=
  match pattern, lines with
  | [], _ => true
  | p :: ps, l :: ls => eqv l p && lines_match eqv ls ps
  | _ :: _, [] => false
  end.

(** [for i in from..=to { if the pattern matches at i { return Some(i) } }] *)
Definition first_match (eqv : str -> str -> bool) (lines pattern : list str) (from to : nat)
    : option nat :=
  List.find (fun i => lines_match eqv (drop i lines) pattern) (seq from (S to - from)).

Definition eq_exact (l p : str) : bool := str_eqb l p.
Definition eq_rstrip (l p : str) : bool := str_eqb (trim_end l) (trim_end p).
Definition eq_trim (l p : str) : bool := str_eqb (trim l) (trim p).
Definition eq_normalised (l p : str) : bool := str_eqb (normalise l) (normalise p).

Definition search_start (lines pattern : list str) (start : nat) (eof : bool)
    (update_file_mode : ApplyPatchFileUpdateMode) : nat :=
  if eof && (length pattern <=? length lines) then
    let eof_start := length lines - length pattern in
    match update_file_mode with
    | NormalizeToLf => eof_start
    | PreserveLineEndings => Nat.max eof_start start
    end
  else start.

Definition seek_sequence (lines pattern : list str) (start : nat) (eof : bool)
    (update_file_mode : ApplyPatchFileUpdateMode) : option nat :=
  if is_nil pattern then Some start
  else if length lines <? length pattern then None
  else
    let from := search_start lines pattern start eof update_file_mode in
    let to := length lines - length pattern in
    match first_match eq_exact lines pattern from to with
    | Some i => Some i
    | None => match first_match eq_rstrip lines pattern from to with
    | Some i => Some i
    | None => match first_match eq_trim lines pattern from to with
    | Some i => Some i
    | None => first_match eq_normalised lines pattern from to
    end end end.

(** ** Specification *)

(** The pattern occurs at [i], line by line up to [eqv]. *)
Definition occurs_at (eqv : str -> str -> bool) (lines pattern : list str) (i : nat) : Prop :=
  forall k p, pattern !! k = Some p -> exists l, lines !! (i + k) = Some l /\ eqv l p = true.

(** The levels, strictest first. *)
Definition levels : list (str -> str -> bool) := [eq_exact; eq_rstrip; eq_trim; eq_normalised].

Lemma lines_match_spec eqv lines pattern i :
  lines_match eqv (drop i lines) pattern = true <-> occurs_at eqv lines pattern i.
Proof.
  unfold occurs_at. revert i; induction pattern as [|p ps IH]; intros i.
  { simpl. split; [|by destruct (drop i lines)]. intros _ k p. by rewrite lookup_nil. }
  destruct (drop i lines) as [|l ls] eqn:E; simpl.
  - split; [done|]. intros H. destruct (H 0 p) as (l & Hl & _); [done|].
    rewrite Nat.add_0_r in Hl. rewrite <- (Nat.add_0_r i), <- lookup_drop, E in Hl. done.
  - assert (Hi : lines !! i = Some l) by (by rewrite <- (Nat.add_0_r i), <- lookup_drop, E).
    assert (Hd : drop (S i) lines = ls).
    { rewrite <- Nat.add_1_r, <- drop_drop, E. by simpl. }
    rewrite andb_true_iff, <- Hd, IH. split.
    + intros [H1 H2] [|k] q; simpl; [|rewrite <- Nat.add_succ_comm; apply H2].
      intros [= <-]. rewrite Nat.add_0_r. eauto.
    + intros H. split.
      * destruct (H 0 p) as (l' & Hl & He); [done|]. rewrite Nat.add_0_r in Hl. congruence.
      * intros k q Hk. rewrite Nat.add_succ_comm. by apply H.
Qed.

Lemma find_seq_Some (f : nat -> bool) from n i :
  List.find f (seq from n) = Some i <->
  from <= i < from + n /\ f i = true /\ (forall j, from <= j < i -> f j = false).
Proof.
  revert from; induction n as [|n IH]; intros from; simpl; [split; [done|lia]|].
  destruct (f from) eqn:E.
  - split.
    + intros [= <-]. repeat split; [lia|lia|done|lia].
    + intros (H1 & H2 & H3). destruct (decide (i = from)) as [->|]; [done|].
      rewrite (H3 from) in E; [done|lia].
  - rewrite IH. split; intros (H1 & H2 & H3); split_and!; try done; try lia.
    + intros j Hj. destruct (decide (j = from)) as [->|]; [done|]. apply H3; lia.
    + destruct (decide (i = from)) as [->|]; [congruence|lia].
    + intros j Hj. apply H3; lia.
Qed.

Lemma find_seq_None (f : nat -> bool) from n :
  List.find f (seq from n) = None <-> forall j, from <= j < from + n -> f j = false.
Proof.
  split.
  - intros H j Hj. eapply find_none; [exact H|]. apply in_seq. lia.
  - intros H. destruct (List.find f (seq from n)) as [i|] eqn:E; [|done].
    apply find_seq_Some in E as (Hi & Hf & _). by rewrite H in Hf.
Qed.

(** Where a level reports its first match, and when it reports none. *)
Lemma first_match_Some eqv lines pattern from to i :
  first_match eqv lines pattern from to = Some i <->
  from <= i <= to /\ occurs_at eqv lines pattern i /\
  (forall j, from <= j < i -> ~ occurs_at eqv lines pattern j).
Proof.
  unfold first_match. rewrite find_seq_Some, lines_match_spec.
  split; intros (H1 & H2 & H3); split_and!; try done; try lia.
  - intros j Hj Ho. apply lines_match_spec in Ho. rewrite H3 in Ho; [done|lia].
  - intros j Hj. destruct (lines_match eqv _ _) eqn:E; [|done].
    apply lines_match_spec in E. by apply H3 in E.
Qed.

Lemma first_match_None eqv lines pattern from to :
  first_match eqv lines pattern from to = None <->
  forall j, from <= j <= to -> ~ occurs_at eqv lines pattern j.
Proof.
  unfold first_match. rewrite find_seq_None. split; intros H j Hj.
  - intros Ho. apply lines_match_spec in Ho. rewrite H in Ho; [done|lia].
  - destruct (lines_match eqv _ _) eqn:E; [|done].
    apply lines_match_spec in E. exfalso. eapply H; [|exact E]. lia.
Qed.

(** ** The levels are increasingly permissive *)

Lemma trim_swap s : trim s = trim_start (trim_end s).
Proof.
  unfold trim, trim_start, trim_end.
  destruct (drop_while_end_prefix is_whitespace s) as (t & Hs & Ht).
  set (u := drop_while_end is_whitespace s) in *. rewrite Hs.
  destruct (decide (drop_while is_whitespace u = [])) as [E|E].
  - rewrite E. apply drop_while_nil in E. rewrite drop_while_app_all by done.
    by rewrite (proj2 (drop_while_nil is_whitespace t)).
  - rewrite drop_while_app_stop by done. unfold drop_while_end.
    rewrite rev_app_distr, drop_while_app_all by (by apply List.Forall_rev).
    fold (drop_while_end is_whitespace (drop_while is_whitespace u)).
    apply drop_while_end_id. intros x Hx.
    destruct (drop_while_suffix is_whitespace u) as (h & Hu & _).
    apply (drop_while_end_last is_whitespace s). fold u. rewrite Hu, last_app, Hx. done.
Qed.

Lemma level_exact_rstrip l p : eq_exact l p = true -> eq_rstrip l p = true.
Proof. unfold eq_exact, eq_rstrip. rewrite !str_eqb_eq. by intros ->. Qed.

Lemma level_rstrip_trim l p : eq_rstrip l p = true -> eq_trim l p = true.
Proof. unfold eq_rstrip, eq_trim. rewrite !str_eqb_eq, !trim_swap. by intros ->. Qed.

Lemma level_trim_normalised l p : eq_trim l p = true -> eq_normalised l p = true.
Proof. unfold eq_trim, eq_normalised, normalise. rewrite !str_eqb_eq. by intros ->. Qed.

Lemma occurs_at_weaken (e1 e2 : str -> str -> bool) lines pattern i :
  (forall l p, e1 l p = true -> e2 l p = true) ->
  occurs_at e1 lines pattern i -> occurs_at e2 lines pattern i.
Proof. intros H Ho k p Hp. destruct (Ho k p Hp) as (l & ? & ?). eauto. Qed.

(** An occurrence lies inside the file. *)
Lemma occurs_at_bound eqv lines pattern i :
  pattern <> [] -> occurs_at eqv lines pattern i -> i + length pattern <= length lines.
Proof.
  intros Hne Ho. destruct pattern as [|p ps] using rev_ind; [done|]. clear IHps.
  destruct (Ho (length ps) p) as (l & Hl & _).
  { by rewrite lookup_app_r, Nat.sub_diag by lia. }
  apply lookup_lt_Some in Hl. rewrite length_app. simpl. lia.
Qed.

Lemma first_match_None_ge eqv lines pattern from :
  pattern <> [] ->
  first_match eqv lines pattern from (length lines - length pattern) = None ->
  forall j, from <= j -> ~ occurs_at eqv lines pattern j.
Proof.
  intros Hne H j Hj Ho. pose proof (occurs_at_bound _ _ _ _ Hne Ho).
  rewrite first_match_None in H. apply (H j); [lia|done].
Qed.

(** The file updater's view of a successful search. *)
Lemma seek_sequence_bounds lines pattern start eof m i :
  start <= length lines ->
  seek_sequence lines pattern start eof m = Some i ->
  i + length pattern <= length lines /\
  (eof = false \/ m = PreserveLineEndings -> start <= i).
Proof.
  intros Hs. unfold seek_sequence.
  destruct (is_nil pattern) eqn:En; [apply is_nil_true in En as ->; intros; simplify_eq/=; lia|].
  apply is_nil_false in En. case_match; [done|]. cbv zeta. intros Hres.
  assert (Hf : exists eqv, first_match eqv lines pattern (search_start lines pattern start eof m)
             (length lines - length pattern) = Some i) by (repeat case_match; simplify_eq; eauto).
  destruct Hf as [eqv Hf]. apply first_match_Some in Hf as (Hi & Ho & _).
  split; [by eapply occurs_at_bound|]. intros Hm. etrans; [|apply Hi]. unfold search_start.
  destruct Hm as [->| ->]; simpl; [done|]. destruct (eof && _); lia.
Qed.

(** One search: the first occurrence at the strictest level that has one. *)
Lemma seek_sequence_strictest lines pattern start eof m :
  pattern <> [] ->
  let from := search_start lines pattern start eof m in
  match seek_sequence lines pattern start eof m with
  | Some i =>
      from <= i /\ i + length pattern <= length lines /\
      exists n eqv, levels !! n = Some eqv /\ occurs_at eqv lines pattern i /\
        (forall j, from <= j < i -> ~ occurs_at eqv lines pattern j) /\
        (forall k eqv' j, k < n -> levels !! k = Some eqv' -> from <= j ->
           ~ occurs_at eqv' lines pattern j)
  | None => forall eqv j, eqv ∈ levels -> from <= j -> ~ occurs_at eqv lines pattern j
  end.
Proof.
  intros Hne from. unfold seek_sequence. rewrite (proj2 (is_nil_false pattern) Hne).
  destruct (Nat.ltb_spec (length lines) (length pattern)) as [Hlt|Hge].
  { intros eqv j _ _ Ho. pose proof (occurs_at_bound _ _ _ _ Hne Ho). lia. }
  assert (Hfound : forall n eqv i,
    levels !! n = Some eqv ->
    (forall k eqv', k < n -> levels !! k = Some eqv' ->
       first_match eqv' lines pattern from (length lines - length pattern) = None) ->
    first_match eqv lines pattern from (length lines - length pattern) = Some i ->
    from <= i /\ i + length pattern <= length lines /\
    exists n eqv, levels !! n = Some eqv /\ occurs_at eqv lines pattern i /\
      (forall j, from <= j < i -> ~ occurs_at eqv lines pattern j) /\
      (forall k eqv' j, k < n -> levels !! k = Some eqv' -> from <= j ->
         ~ occurs_at eqv' lines pattern j)).
  { intros n eqv i Hn Hnone Hf. apply first_match_Some in Hf as (Hi & Ho & Hmin).
    split_and!; [lia|by eapply occurs_at_bound|]. exists n, eqv. split_and!; try done.
    intros k eqv' j Hk Hl Hj. eapply first_match_None_ge; eauto. }
  fold from. cbv zeta.
  destruct (first_match eq_exact _ _ _ _) as [i|] eqn:E0.
  { eapply (Hfound 0); [done|lia|exact E0]. }
  destruct (first_match eq_rstrip _ _ _ _) as [i|] eqn:E1.
  { eapply (Hfound 1); [done| |exact E1]. intros [|k] e Hk He; simplify_eq/=; [done|lia]. }
  destruct (first_match eq_trim _ _ _ _) as [i|] eqn:E2.
  { eapply (Hfound 2); [done| |exact E2].
    intros [|[|k]] e Hk He; simplify_eq/=; [done|done|lia]. }
  destruct (first_match eq_normalised _ _ _ _) as [i|] eqn:E3.
  { eapply (Hfound 3); [done| |exact E3].
    intros [|[|[|k]]] e Hk He; simplify_eq/=; [done|done|done|lia]. }
  intros eqv j He Hj. unfold levels in He. rewrite !elem_of_cons in He.
  destruct He as [->|[->|[->|[->|He]]]]; [..|by apply not_elem_of_nil in He];
    by eapply first_match_None_ge.
Qed.



(** Contrary to the doc comment of the function, a pattern marked as the end of the file
    that occurs at [start] but not at the end is not found. *)
Theorem eof_has_no_fallback :
  let lines := [lit "a"; lit "b"] in
  occurs_at eq_exact lines [lit "a"] 0
  /\ seek_sequence lines [lit "a"] 0 false NormalizeToLf = Some 0
  /\ seek_sequence lines [lit "a"] 0 true NormalizeToLf = None
  /\ seek_sequence lines [lit "a"] 0 true PreserveLineEndings = None.
Proof.
  split; [|repeat split; vm_compute; reflexivity]. intros [|k] p Hp; [|done]. injection Hp as <-. by exists (lit "a").
Qed.
