(* ===== verification/TextFile.v ===== *)
(** * Line endings (apply-patch/src/text_file.rs)

    [SourceFile] keeps each line with its own terminator, so that an update can
    leave the bytes of untouched lines alone. *)

From S2P Require Import Prelude RustStr.

(** [(start_index, old_len, new_lines)] *)
Notation Replacement := (nat * nat * list (list N))%type (only parsing).

Inductive LineEnding : Type := Lf | CrLf | Cr.

#[export] Instance LineEnding_eq_dec : EqDecision LineEnding.
Proof. solve_decision. Defined.

Definition ending_as_str (self : LineEnding) : str :=
  match self with
  | Lf => [ch_lf]
  | CrLf => [ch_cr; ch_lf]
  | Cr => [ch_cr]
  end.

Record SourceLine : Type := mkLine { text : str; ending : option LineEnding }.

Record SourceFile : Type := mkSource {
  source_lines : list SourceLine;
  preferred_ending : LineEnding;
}.

(** The scanning loop of [SourceFile::parse].  [cur] is
    [contents[line_start..cursor]], [s] what is left from [cursor]. *)
Fixpoint parse_lines (cur s : str) : list SourceLine :=
  match s with
  | [] => if bool_decide (cur = []) then [] else [mkLine cur None]
  | c :: s' =>
      if (c =? ch_cr)%N then
        match s' with
        | d :: s'' =>
            if (d =? ch_lf)%N then mkLine cur (Some CrLf) :: parse_lines [] s''
            else mkLine cur (Some Cr) :: parse_lines [] s'
        | [] => mkLine cur (Some Cr) :: parse_lines [] s'
        end
      else if (c =? ch_lf)%N then mkLine cur (Some Lf) :: parse_lines [] s'
      else parse_lines (cur ++ [c]) s'
  end.

(** [preferred_ending.get_or_insert(ending)] at each terminator: the first one. *)
Definition first_ending (ls : list SourceLine) : option LineEnding :=
  head (omap ending ls).

(** [SourceFile::parse] *)
Definition parse_source (contents : str) : SourceFile :=
  let ls := parse_lines [] contents in
  mkSource ls (default Lf (first_ending ls)).

Definition line_texts (self : SourceFile) : list str := map text self.(source_lines).

(** The loop of [SourceFile::apply_replacements].  [rest] is the iterator over
    the source lines not consumed yet, the first of them at [source_index].
    [None] is the panic of [start_idx - source_index] on overflow. *)
Fixpoint splice (preferred : LineEnding) (rest : list SourceLine) (source_index : nat)
    (replacements : list Replacement) : option (list SourceLine) :=
  match replacements with
  | [] => Some rest
  | (start_idx, old_len, new_segment) :: rs =>
      if start_idx <? source_index then None
      else
        let n := start_idx - source_index in
        match splice preferred (drop old_len (drop n rest)) (start_idx + old_len) rs with
        | None => None
        | Some tl =>
            Some (take n rest ++ map (fun t => mkLine t (Some preferred)) new_segment ++ tl)
        end
  end.

(** [line.ending.get_or_insert(self.preferred_ending)] *)
Definition terminate (preferred : LineEnding) (l : SourceLine) : SourceLine :=
  match l.(ending) with
  | Some _ => l
  | None => mkLine l.(text) (Some preferred)
  end.

(** [SourceFile::apply_replacements] *)
Definition source_apply_replacements (self : SourceFile) (replacements : list Replacement)
    : option SourceFile :=
  match splice self.(preferred_ending) self.(source_lines) 0 replacements with
  | None => None
  | Some new_lines =>
      Some (mkSource (map (terminate self.(preferred_ending)) new_lines) self.(preferred_ending))
  end.

Definition line_contents (l : SourceLine) : str :=
  l.(text) ++ match l.(ending) with Some e => ending_as_str e | None => [] end.

(** [SourceFile::into_contents] *)
Definition into_contents (self : SourceFile) : str := mjoin (map line_contents self.(source_lines)).

(** ** Parsing loses nothing *)

Lemma parse_lines_contents n cur s :
  length s <= n -> mjoin (map line_contents (parse_lines cur s)) = cur ++ s.
Proof.
  revert cur s; induction n as [|n IH]; intros cur s Hn.
  { destruct s; [|simpl in Hn; lia]. simpl. case_bool_decide; [by subst|]. simpl.
    unfold line_contents; simpl. by rewrite !app_nil_r. }
  destruct s as [|c s]; simpl.
  { case_bool_decide; [by subst|]. simpl. unfold line_contents; simpl. by rewrite !app_nil_r. }
  simpl in Hn. destruct (N.eqb_spec c ch_cr) as [->|Hcr].
  - destruct s as [|d s]; [|destruct (N.eqb_spec d ch_lf) as [->|Hlf]].
    + simpl. unfold line_contents; simpl. by rewrite <- app_assoc.
    + simpl. rewrite IH by (simpl in Hn; lia). unfold line_contents; simpl. by rewrite <- app_assoc.
    + cbn [map]. change (mjoin (?x :: ?y)) with (x ++ mjoin y). rewrite IH by (simpl in *; lia).
      unfold line_contents; simpl. by rewrite <- app_assoc.
  - destruct (N.eqb_spec c ch_lf) as [->|Hlf].
    + simpl. rewrite IH by lia. unfold line_contents; simpl. by rewrite <- app_assoc.
    + rewrite IH by lia. by rewrite <- app_assoc.
Qed.

(** Parsing a file into lines with their terminators and printing it back
    is the identity on every text, whatever mixture of [\n], [\r\n] and [\r]
    it contains and whether or not its last line is terminated. *)
Theorem source_file_roundtrip contents : into_contents (parse_source contents) = contents.
Proof. unfold into_contents. simpl. by rewrite (parse_lines_contents (length contents)). Qed.

(** The texts the patcher matches against contain no line break character. *)
Definition break_free (s : str) : Prop := ch_lf ∉ s /\ ch_cr ∉ s.

Lemma parse_lines_texts n cur s :
  length s <= n -> break_free cur -> Forall (fun l => break_free (text l)) (parse_lines cur s).
Proof.
  revert cur s; induction n as [|n IH]; intros cur s Hn Hcur.
  { destruct s; [|simpl in Hn; lia]. simpl. case_bool_decide; [constructor|by apply Forall_singleton]. }
  assert (H0 : break_free []) by (split; apply not_elem_of_nil).
  destruct s as [|c s]; simpl; [case_bool_decide; [constructor|by apply Forall_singleton]|].
  simpl in Hn. destruct (N.eqb_spec c ch_cr) as [->|Hcr].
  - destruct s as [|d s]; [constructor; [done|apply (IH [] []); [simpl; lia|done]]|].
    destruct (d =? ch_lf)%N; constructor; try done; apply IH; simpl in *; try done; lia.
  - destruct (N.eqb_spec c ch_lf) as [->|Hlf]; [constructor; [done|]; apply IH; [lia|done]|].
    apply IH; [lia|]. destruct Hcur. split; apply not_elem_of_app; split; try done;
      apply not_elem_of_cons; split; try congruence; apply not_elem_of_nil.
Qed.

(** ** Non-overlapping replacements *)

(** Source-ordered, within [len] lines, each starting at or after [i]. *)
Inductive ordered_from (len : nat) : nat -> list Replacement -> Prop :=
| ordered_nil i : i <= len -> ordered_from len i []
| ordered_cons i start old_len seg rs :
    i <= start -> start + old_len <= len -> ordered_from len (start + old_len) rs ->
    ordered_from len i ((start, old_len, seg) :: rs).

Lemma ordered_from_le len i j rs : ordered_from len i rs -> j <= i -> ordered_from len j rs.
Proof. intros H Hj. inv H; constructor; auto; lia. Qed.

(** The reference: replace each region of the original lines. *)
Fixpoint splice_spec (ls : list str) (i : nat) (rs : list Replacement) : list str :=
  match rs with
  | [] => drop i ls
  | (start, old_len, seg) :: rs' =>
      take (start - i) (drop i ls) ++ seg ++ splice_spec ls (start + old_len) rs'
  end.

Lemma splice_ok preferred all i rs :
  ordered_from (length all) i rs ->
  exists out, splice preferred (drop i all) i rs = Some out /\
    map text out = splice_spec (map text all) i rs.
Proof.
  induction 1 as [i Hi|i start old_len seg rs Hi Hb Ho IH]; simpl.
  { eexists. split; [done|]. by rewrite skipn_map. }
  destruct (Nat.ltb_spec start i); [lia|].
  replace (drop old_len (drop (start - i) (drop i all))) with (drop (start + old_len) all)
    by (rewrite !drop_drop; f_equal; lia).
  destruct IH as (out & -> & Hout). eexists. split; [done|].
  rewrite !map_app, Hout, map_map. simpl. rewrite map_id, <- firstn_map, <- skipn_map.
  done.
Qed.

(** Applying source-ordered, in-range replacements never panics, the line
    texts of the result are the regions of the original replaced one by one,
    and every line of the result is terminated. *)
Theorem source_apply_replacements_correct self rs :
  ordered_from (length self.(source_lines)) 0 rs ->
  exists self', source_apply_replacements self rs = Some self' /\
    line_texts self' = splice_spec (line_texts self) 0 rs /\
    preferred_ending self' = preferred_ending self /\
    Forall (fun l => is_Some (ending l)) self'.(source_lines).
Proof.
  intros Ho. unfold source_apply_replacements.
  destruct (splice_ok (preferred_ending self) _ _ _ Ho) as (out & Hs & Ht).
  change (drop 0 (source_lines self)) with (source_lines self) in Hs. rewrite Hs.
  eexists. split; [done|]. unfold line_texts; simpl. split_and!; [|done|].
  - rewrite map_map, <- Ht. apply map_ext. intros [t [e|]]; done.
  - apply Forall_fmap, Forall_true. intros [t [e|]]; simpl; eauto.
Qed.

Lemma source_apply_replacements_correct_witness :
  exists self', source_apply_replacements (parse_source (lit "a" ++ [ch_cr; ch_lf] ++ lit "b"))
                  [(0, 1, [lit "x"; lit "y"])] = Some self' /\
    into_contents self' = lit "x" ++ [ch_cr; ch_lf] ++ lit "y" ++ [ch_cr; ch_lf]
                          ++ lit "b" ++ [ch_cr; ch_lf].
Proof.
  destruct (source_apply_replacements_correct
              (parse_source (lit "a" ++ [ch_cr; ch_lf] ++ lit "b"))
              [(0, 1, [lit "x"; lit "y"])]) as (self' & H & _).
  { repeat constructor. }
  exists self'. split; [exact H|]. vm_compute in H. injection H as <-. vm_compute. reflexivity.
Defined.
