(* ===== verification/FileUpdate.v ===== *)
(** * Updating a file (apply-patch/src/file_update.rs)

    [compute_replacements] locates every chunk in the original lines,
    [apply_replacements] edits a vector of lines in place, and
    [new_contents_from_chunks] is the pure part of
    [derive_new_contents_from_chunks], from the text read to the text to write.
    A Rust panic (index out of range, [usize] underflow) is [None]. *)

From S2P Require Import Prelude RustStr PatchTypes SeekSequence TextFile.

Definition is_empty_str (s : str) : bool := is_nil s.

(** The errors of this stage: [ApplyPatchError::ComputeReplacements]. *)
Definition msg_missing_context (ctx_line path : str) : str :=
  lit "Failed to find context '" ++ ctx_line ++ lit "' in " ++ path.

Definition msg_missing_lines (path : str) (old_lines : list str) : str :=
  lit "Failed to find expected lines in " ++ path ++ lit ":" ++ [ch_lf] ++ join [ch_lf] old_lines.

Definition insertion_idx (original_lines : list str) (update_file_mode : ApplyPatchFileUpdateMode)
    : nat :=
  match update_file_mode with
  | NormalizeToLf =>
      if is_some_and is_empty_str (last original_lines)
      then length original_lines - 1
      else length original_lines
  | PreserveLineEndings => length original_lines
  end.

(** Search for [pattern]; when it is not found and ends with an empty line,
    retry without that line, on both sides.  Returns what was matched. *)
Definition locate_old_lines (original_lines : list str) (chunk : UpdateFileChunk) (line_index : nat)
    (update_file_mode : ApplyPatchFileUpdateMode) : option nat * list str * list str :=
  let pattern := chunk.(old_lines) in
  let new_slice := chunk.(new_lines) in
  match seek_sequence original_lines pattern line_index chunk.(is_end_of_file) update_file_mode with
  | Some start_idx => (Some start_idx, pattern, new_slice)
  | None =>
      if is_some_and is_empty_str (last pattern) then
        let pattern := take (length pattern - 1) pattern in
        let new_slice := if is_some_and is_empty_str (last new_slice)
                         then take (length new_slice - 1) new_slice else new_slice in
        (seek_sequence original_lines pattern line_index chunk.(is_end_of_file) update_file_mode,
         pattern, new_slice)
      else (None, pattern, new_slice)
  end.

(** The loop over [context_line_indices] of the [PreserveLineEndings] branch:
    replacements for the runs between context lines. *)
Fixpoint context_runs (pattern new_slice : list str) (start_idx old_start new_start : nat)
    (pairs : list (nat * nat)) : option (list Replacement) :=
  let tail :=
    if (old_start =? length pattern) && (new_start =? length new_slice) then []
    else [(start_idx + old_start, length pattern - old_start, drop new_start new_slice)] in
  match pairs with
  | [] => Some tail
  | (old_context, new_context) :: ps =>
      if (length pattern <=? old_context) || (length new_slice <=? new_context) then Some tail
      else if (old_start =? old_context) && (new_start =? new_context) then
        context_runs pattern new_slice start_idx (S old_context) (S new_context) ps
      else if (old_context <? old_start) || (new_context <? new_start) then None
      else
        match context_runs pattern new_slice start_idx (S old_context) (S new_context) ps with
        | None => None
        | Some rs =>
            Some ((start_idx + old_start, old_context - old_start,
                   take (new_context - new_start) (drop new_start new_slice)) :: rs)
        end
  end.

(** One iteration of the loop over the chunks: the replacements it pushes and
    the new [line_index]. *)
Definition chunk_replacements (original_lines : list str) (path : str)
    (update_file_mode : ApplyPatchFileUpdateMode) (line_index : nat) (chunk : UpdateFileChunk)
    : option (result (list Replacement * nat) str) :=
  let located_context :=
    match chunk.(change_context) with
    | None => Ok line_index
    | Some ctx_line =>
        match seek_sequence original_lines [ctx_line] line_index false update_file_mode with
        | Some idx => Ok (idx + 1)
        | None => Err (msg_missing_context ctx_line path)
        end
    end in
  match located_context with
  | Err e => Some (Err e)
  | Ok line_index =>
      if is_nil chunk.(old_lines) then
        Some (Ok ([(insertion_idx original_lines update_file_mode, 0, chunk.(new_lines))], line_index))
      else
        match locate_old_lines original_lines chunk line_index update_file_mode with
        | (None, _, _) => Some (Err (msg_missing_lines path chunk.(old_lines)))
        | (Some start_idx, pattern, new_slice) =>
            match update_file_mode with
            | NormalizeToLf =>
                Some (Ok ([(start_idx, length pattern, new_slice)], start_idx + length pattern))
            | PreserveLineEndings =>
                match context_runs pattern new_slice start_idx 0 0 chunk.(context_line_indices) with
                | None => None
                | Some rs => Some (Ok (rs, start_idx + length pattern))
                end
            end
        end
  end.

Fixpoint collect_replacements (original_lines : list str) (path : str)
    (update_file_mode : ApplyPatchFileUpdateMode) (line_index : nat)
    (chunks : list UpdateFileChunk) : option (result (list Replacement) str) :=
  match chunks with
  | [] => Some (Ok [])
  | chunk :: chunks =>
      match chunk_replacements original_lines path update_file_mode line_index chunk with
      | None => None
      | Some (Err e) => Some (Err e)
      | Some (Ok (rs, line_index)) =>
          match collect_replacements original_lines path update_file_mode line_index chunks with
          | Some (Ok rs') => Some (Ok (rs ++ rs'))
          | other => other
          end
      end
  end.

Definition start_index (r : Replacement) : nat := let '(i, _, _) := r in i.

Definition compute_replacements (original_lines : list str) (path : str)
    (chunks : list UpdateFileChunk) (update_file_mode : ApplyPatchFileUpdateMode)
    : option (result (list Replacement) str) :=
  match collect_replacements original_lines path update_file_mode 0 chunks with
  | Some (Ok rs) => Some (Ok (sort_by_key start_index rs))
  | other => other
  end.

(** [for _ in 0..old_len { if start_idx < lines.len() { lines.remove(start_idx) } }] *)
Fixpoint remove_lines (n start_idx : nat) (lines : list str) : list str :=
  match n with
  | 0 => lines
  | S n => remove_lines n start_idx
             (if start_idx <? length lines then take start_idx lines ++ drop (S start_idx) lines
              else lines)
  end.

(** [lines.insert(start_idx + offset, new_line)] for each new line in order;
    [Vec::insert] panics past the end. *)
Fixpoint insert_lines (idx : nat) (segment lines : list str) : option (list str) :=
  match segment with
  | [] => Some lines
  | x :: segment =>
      if length lines <? idx then None
      else insert_lines (S idx) segment (take idx lines ++ x :: drop idx lines)
  end.

Definition apply_one (r : Replacement) (lines : option (list str)) : option (list str) :=
  let '(start_idx, old_len, new_segment) := r in
  match lines with
  | None => None
  | Some lines => insert_lines start_idx new_segment (remove_lines old_len start_idx lines)
  end.

(** [for ... in replacements.iter().rev()] *)
Definition apply_replacements (lines : list str) (replacements : list Replacement)
    : option (list str) :=
  foldr apply_one (Some lines) replacements.

(** The lines of the [NormalizeToLf] branch: split at [\n], drop the final
    empty piece. *)
Definition split_source (contents : str) : list str :=
  let original_lines := split_on ch_lf contents in
  if is_some_and is_empty_str (last original_lines)
  then take (length original_lines - 1) original_lines else original_lines.

Definition join_normalized (new_lines : list str) : str :=
  join [ch_lf] (if is_some_and is_empty_str (last new_lines) then new_lines else new_lines ++ [[]]).

Definition new_contents_from_chunks (original_contents path_text : str)
    (chunks : list UpdateFileChunk) (update_file_mode : ApplyPatchFileUpdateMode)
    : option (result str str) :=
  match update_file_mode with
  | NormalizeToLf =>
      let original_lines := split_source original_contents in
      match compute_replacements original_lines path_text chunks update_file_mode with
      | None => None
      | Some (Err e) => Some (Err e)
      | Some (Ok replacements) =>
          match apply_replacements original_lines replacements with
          | None => None
          | Some new_lines => Some (Ok (join_normalized new_lines))
          end
      end
  | PreserveLineEndings =>
      let source_file := parse_source original_contents in
      match compute_replacements (line_texts source_file) path_text chunks update_file_mode with
      | None => None
      | Some (Err e) => Some (Err e)
      | Some (Ok replacements) =>
          match source_apply_replacements source_file replacements with
          | None => None
          | Some source_file => Some (Ok (into_contents source_file))
          end
      end
  end.

(** ** In-place edits *)

Lemma remove_lines_spec n i lines :
  remove_lines n i lines = take i lines ++ drop (i + n) lines.
Proof.
  revert lines; induction n as [|n IH]; intros lines; simpl.
  { by rewrite Nat.add_0_r, take_drop. }
  rewrite IH. destruct (Nat.ltb_spec i (length lines)) as [H|H].
  - rewrite take_app_le, take_take, Nat.min_id by (rewrite length_take; lia). f_equal.
    rewrite drop_app_ge by (rewrite length_take; lia). rewrite length_take, drop_drop. f_equal. lia.
  - rewrite !drop_ge by lia. done.
Qed.

Lemma insert_lines_spec i segment lines :
  i <= length lines ->
  insert_lines i segment lines = Some (take i lines ++ segment ++ drop i lines).
Proof.
  revert i lines; induction segment as [|x segment IH]; intros i lines Hi; simpl.
  { by rewrite take_drop. }
  destruct (Nat.ltb_spec (length lines) i); [lia|].
  assert (Hl : length (take i lines) = i) by (rewrite length_take; lia).
  rewrite IH by (rewrite length_app, Hl; simpl; rewrite length_drop; lia). f_equal.
  replace (take i lines ++ x :: drop i lines) with ((take i lines ++ [x]) ++ drop i lines)
    by (by rewrite <- app_assoc).
  assert (Hs : S i = length (take i lines ++ [x])) by (rewrite length_app, Hl; simpl; lia).
  rewrite take_app_length', drop_app_length' by done. by rewrite <- !app_assoc.
Qed.

Lemma apply_one_spec i n seg lines :
  i <= length lines ->
  apply_one (i, n, seg) (Some lines) = Some (take i lines ++ seg ++ drop (i + n) lines).
Proof.
  intros Hi. simpl. rewrite remove_lines_spec.
  assert (Hl : length (take i lines) = i) by (rewrite length_take; lia).
  rewrite insert_lines_spec by (rewrite length_app, Hl; lia).
  by rewrite take_app_length', drop_app_length' by lia.
Qed.

(** Applying ordered replacements from the last to the first leaves the
    lines before the first one alone. *)
Lemma apply_replacements_ordered lines i rs :
  ordered_from (length lines) i rs ->
  apply_replacements lines rs = Some (take i lines ++ splice_spec lines i rs).
Proof.
  induction 1 as [i Hi|i start n seg rs Hi Hb Ho IH]; simpl; [by rewrite take_drop|].
  fold (apply_replacements lines rs). rewrite IH.
  assert (Hs : start <= length (take (start + n) lines ++ splice_spec lines (start + n) rs)).
  { rewrite length_app, length_take. lia. }
  pose proof (apply_one_spec start n seg _ Hs) as H1. simpl in H1. rewrite H1. f_equal.
  rewrite take_app_le by (rewrite length_take; lia). rewrite take_take, Nat.min_l by lia.
  rewrite (drop_app_length' (take (start + n) lines)) by (rewrite length_take; lia).
  rewrite (app_assoc (take i lines)), take_take_drop. do 2 f_equal. lia.
Qed.

(** ** Replacements are ordered when line endings are preserved *)

(** The replacements in the order the chunks push them: regions from [i] on,
    with insertions at the end of the file anywhere between them. *)
Inductive collected (len : nat) : nat -> list Replacement -> Prop :=
| collected_nil i : i <= len -> collected len i []
| collected_region i start n seg rs :
    i <= start -> start + n <= len -> collected len (start + n) rs ->
    collected len i ((start, n, seg) :: rs)
| collected_insertion i seg rs :
    i <= len -> collected len i rs -> collected len i ((len, 0, seg) :: rs).

Lemma collected_weaken len i j rs : collected len i rs -> j <= i -> collected len j rs.
Proof.
  induction 1; intros Hj; [constructor|constructor 2|constructor 3]; auto; lia.
Qed.

Lemma collected_app len lo hi rs1 rs2 :
  ordered_from hi lo rs1 -> hi <= len -> collected len hi rs2 -> collected len lo (rs1 ++ rs2).
Proof.
  induction 1 as [i Hi|i start n seg rs Hi Hb Ho IH]; intros Hl H2; simpl.
  - by eapply collected_weaken.
  - constructor 2; auto; lia.
Qed.

Lemma ordered_app len lo hi rs1 rs2 :
  ordered_from hi lo rs1 -> hi <= len -> ordered_from len hi rs2 -> ordered_from len lo (rs1 ++ rs2).
Proof.
  induction 1 as [i Hi|i start n seg rs Hi Hb Ho IH]; intros Hl H2; simpl.
  - by eapply ordered_from_le.
  - constructor; auto; lia.
Qed.

Lemma ordered_grow len len' i rs : ordered_from len i rs -> len <= len' -> ordered_from len' i rs.
Proof. induction 1; intros; constructor; auto; lia. Qed.

Lemma ordered_keys len i rs : ordered_from len i rs -> Forall (fun r => start_index r <= len) rs.
Proof. induction 1; constructor; auto; simpl; lia. Qed.

Definition is_insertion (len : nat) (r : Replacement) : Prop := exists seg, r = (len, 0, seg).

Lemma insertions_ordered len i rs :
  i <= len -> Forall (is_insertion len) rs -> ordered_from len i rs.
Proof.
  intros Hi H. revert i Hi. induction H as [|r rs [seg ->] _ IH]; intros i Hi; constructor; auto; [lia|].
  apply IH. lia.
Qed.

Lemma insert_by_key_skip {A} (key : A -> nat) x l1 l2 :
  Forall (fun y => key y <= key x) l1 ->
  insert_by_key key x (l1 ++ l2) = l1 ++ insert_by_key key x l2.
Proof.
  induction 1 as [|y l1 Hy _ IH]; simpl; [done|].
  destruct (Nat.leb_spec (key y) (key x)); [by rewrite IH|lia].
Qed.

Lemma insert_by_key_front {A} (key : A -> nat) x l :
  Forall (fun y => key x < key y) l -> insert_by_key key x l = x :: l.
Proof. destruct 1 as [|y l Hy _]; simpl; [done|]. destruct (Nat.leb_spec (key y) (key x)); [lia|done]. Qed.

(** The stable sort only moves the insertions behind the regions. *)
Lemma sort_collected len i rs reg ins :
  collected len i rs -> i <= len -> ordered_from i 0 reg -> Forall (is_insertion len) ins ->
  ordered_from len 0 (sort_acc start_index (reg ++ ins) rs).
Proof.
  intros H. revert reg ins. induction H as [i Hi|i start n seg rs Hi Hb _ IH|i seg rs Hi _ IH];
    intros reg ins Hle Hreg Hins; simpl.
  - eapply ordered_app; [exact Hreg|done|]. by apply insertions_ordered.
  - assert (Hk : Forall (fun r => start_index r <= start_index (start, n, seg)) reg).
    { eapply Forall_impl; [by eapply ordered_keys|]. simpl. lia. }
    rewrite insert_by_key_skip by done. destruct (decide (start = len)) as [->|Hne].
    + assert (n = 0) as -> by lia. rewrite insert_by_key_last.
      * apply IH; [lia| |apply Forall_app_2; [done|]].
        { eapply ordered_grow; [exact Hreg|lia]. }
        apply Forall_singleton. by eexists.
      * eapply Forall_impl; [exact Hins|]. by intros r [s ->].
    + rewrite insert_by_key_front.
      * change (reg ++ (start, n, seg) :: ins) with (reg ++ [(start, n, seg)] ++ ins).
        rewrite app_assoc. apply IH; [lia| |done].
        eapply ordered_app; [exact Hreg|lia|]. constructor; [lia|lia|constructor; lia].
      * eapply Forall_impl; [exact Hins|]. intros r [s ->]. simpl. lia.
  - rewrite insert_by_key_last.
    + rewrite <- app_assoc. apply IH; [done|done|]. apply Forall_app_2; [done|].
      apply Forall_singleton. by eexists.
    + apply Forall_app_2.
      * eapply Forall_impl; [by eapply ordered_keys|]. simpl. lia.
      * eapply Forall_impl; [exact Hins|]. by intros r [s ->].
Qed.

Lemma context_runs_ok olds news pattern new_slice start_idx i j pairs :
  ctx_pairs olds news i j pairs -> i <= length pattern -> j <= length new_slice ->
  exists rs, context_runs pattern new_slice start_idx i j pairs = Some rs /\
    ordered_from (start_idx + length pattern) (start_idx + i) rs.
Proof.
  assert (Htail : forall i j, i <= length pattern ->
    ordered_from (start_idx + length pattern) (start_idx + i)
      (if (i =? length pattern) && (j =? length new_slice) then []
       else [(start_idx + i, length pattern - i, drop j new_slice)])).
  { intros i0 j0 Hi. case_match; constructor; try lia. constructor. lia. }
  induction 1 as [i j Hi Hj|i j a b l ps Hia Hjb Ha Hb _ IH]; intros Hip Hjn; simpl.
  - eexists. split; [done|]. by apply Htail.
  - destruct ((length pattern <=? a) || (length new_slice <=? b)) eqn:E.
    { eexists. split; [done|]. by apply Htail. }
    apply orb_false_iff in E as [E1%Nat.leb_gt E2%Nat.leb_gt].
    destruct IH as (rs & -> & Ho); [lia|lia|].
    destruct ((i =? a) && (j =? b)) eqn:E3.
    { eexists. split; [done|]. eapply ordered_from_le; [exact Ho|lia]. }
    destruct (Nat.ltb_spec a i); [lia|]. destruct (Nat.ltb_spec b j); [lia|]. simpl.
    eexists. split; [done|]. constructor; [lia|lia|].
    eapply ordered_from_le; [exact Ho|lia].
Qed.

Lemma locate_old_lines_bounds lines chunk line_index m start pattern new_slice :
  line_index <= length lines ->
  locate_old_lines lines chunk line_index m = (Some start, pattern, new_slice) ->
  start + length pattern <= length lines /\
  (chunk.(is_end_of_file) = false \/ m = PreserveLineEndings -> line_index <= start).
Proof.
  intros Hl. unfold locate_old_lines. destruct (seek_sequence _ _ _ _ _) as [i|] eqn:E.
  { intros; simplify_eq. by eapply seek_sequence_bounds. }
  case_match; intros; simplify_eq. by eapply seek_sequence_bounds.
Qed.

(** One chunk in [PreserveLineEndings] mode: no panic, and its replacements
    extend an ordered collection. *)
Lemma chunk_replacements_ok lines path line_index chunk :
  wf_chunk chunk -> line_index <= length lines ->
  match chunk_replacements lines path PreserveLineEndings line_index chunk with
  | None => False
  | Some (Err _) => True
  | Some (Ok (rs, li')) =>
      line_index <= li' <= length lines /\
      forall rs', collected (length lines) li' rs' -> collected (length lines) line_index (rs ++ rs')
  end.
Proof.
  intros Hwf Hli. unfold chunk_replacements.
  destruct (match change_context chunk with None => _ | Some _ => _ end) as [li|e] eqn:Ec; [|done].
  assert (Hlib : line_index <= li <= length lines).
  { destruct (change_context chunk) as [ctx|]; [|by simplify_eq].
    destruct (seek_sequence _ _ _ _ _) as [idx|] eqn:Es; simplify_eq.
    apply seek_sequence_bounds in Es as [Hb Hs]; [|done]. simpl in Hb.
    specialize (Hs (or_introl eq_refl)). lia. }
  destruct (is_nil (old_lines chunk)).
  { split; [done|]. intros rs' Hrs. simpl. apply collected_insertion; [lia|].
    eapply collected_weaken; [exact Hrs|lia]. }
  destruct (locate_old_lines lines chunk li PreserveLineEndings) as [[[start|] pattern] ns] eqn:El;
    [|done].
  apply locate_old_lines_bounds in El as [Hb Hs]; [|lia]. specialize (Hs (or_intror eq_refl)).
  destruct (context_runs_ok (old_lines chunk) (new_lines chunk) pattern ns start 0 0
              (context_line_indices chunk)) as (rs & -> & Ho); [exact Hwf|lia|lia|].
  split; [lia|]. intros rs' Hrs. eapply collected_app; [|exact Hb|exact Hrs].
  eapply ordered_from_le; [exact Ho|lia].
Qed.

Lemma collect_replacements_ok lines path chunks line_index :
  Forall wf_chunk chunks -> line_index <= length lines ->
  match collect_replacements lines path PreserveLineEndings line_index chunks with
  | None => False
  | Some (Err _) => True
  | Some (Ok rs) => collected (length lines) line_index rs
  end.
Proof.
  intros Hall. revert line_index; induction Hall as [|c chunks Hc _ IH]; intros li Hli; simpl.
  { by constructor. }
  pose proof (chunk_replacements_ok lines path li c Hc Hli) as Hk.
  destruct (chunk_replacements _ _ _ _ _) as [[[rs li']|e]|]; [|done|done].
  destruct Hk as [Hb Hext]. specialize (IH li' ltac:(lia)).
  destruct (collect_replacements _ _ _ _ _) as [[rs'|e]|]; [|done|done]. by apply Hext.
Qed.

(** What the parser's chunks give the updater: source-ordered replacements. *)
Lemma compute_replacements_preserve lines path chunks :
  Forall wf_chunk chunks ->
  match compute_replacements lines path chunks PreserveLineEndings with
  | None => False
  | Some (Err _) => True
  | Some (Ok rs) => ordered_from (length lines) 0 rs
  end.
Proof.
  intros Hall. unfold compute_replacements.
  pose proof (collect_replacements_ok lines path chunks 0 Hall ltac:(lia)) as H.
  destruct (collect_replacements _ _ _ _ _) as [[rs|e]|]; [|done|done].
  apply (sort_collected _ 0 rs [] []); auto; [lia|constructor; lia].
Qed.

(** With chunks as the parser builds them, computing the replacements in
    [PreserveLineEndings] mode never panics, and the replacements it returns are
    source-ordered, pairwise disjoint and inside the file, which is what
    [SourceFile::apply_replacements] relies on. *)
Theorem compute_replacements_ordered lines path chunks :
  Forall wf_chunk chunks ->
  exists r, compute_replacements lines path chunks PreserveLineEndings = Some r /\
    forall rs, r = Ok rs -> ordered_from (length lines) 0 rs.
Proof.
  intros H. pose proof (compute_replacements_preserve lines path chunks H) as Hc.
  destruct (compute_replacements _ _ _ _) as [[rs|e]|]; [| |done].
  - eexists. split; [done|]. by intros ? [= <-].
  - eexists. by split.
Qed.

(** Two chunks, the first one inserting at the end of the file. *)
Definition sample_chunks : list UpdateFileChunk :=
  [push_new_line default_chunk (lit "z");
   push_new_line (push_old_line (push_context_line default_chunk (lit "a")) (lit "b")) (lit "c")].

Lemma compute_replacements_ordered_witness :
  compute_replacements [lit "a"; lit "b"] (lit "f") sample_chunks PreserveLineEndings =
    Some (Ok [(1, 1, [lit "c"]); (2, 0, [lit "z"])]) /\
  ordered_from 2 0 [(1, 1, [lit "c"]); (2, 0, [lit "z"])].
Proof.
  destruct (compute_replacements_ordered [lit "a"; lit "b"] (lit "f") sample_chunks)
    as (r & Hr & Ho).
  { repeat (apply Forall_cons; split); [..|apply Forall_nil, I];
      repeat first [apply wf_push_new_line | apply wf_push_old_line | apply wf_push_context_line];
      apply wf_default_chunk. }
  split; [vm_compute; reflexivity|]. apply Ho. vm_compute in Hr. injection Hr as <-.
  vm_compute. reflexivity.
Defined.

(** On source-ordered replacements the legacy in-place algorithm
    ([lines.remove]/[lines.insert] from the last replacement to the first) and
    the rebuilding one of [SourceFile] produce the same lines. *)
Theorem in_place_equals_rebuild self rs :
  ordered_from (length self.(source_lines)) 0 rs ->
  exists self', source_apply_replacements self rs = Some self' /\
    apply_replacements (line_texts self) rs = Some (line_texts self').
Proof.
  intros Ho. unfold source_apply_replacements.
  destruct (splice_ok (preferred_ending self) _ _ _ Ho) as (out & Hs & Ht).
  change (drop 0 (source_lines self)) with (source_lines self) in Hs. rewrite Hs.
  eexists. split; [done|]. rewrite (apply_replacements_ordered _ 0).
  - unfold line_texts; simpl. f_equal. rewrite <- Ht, map_map. apply map_ext. by intros [t [e|]].
  - unfold line_texts. by rewrite length_map.
Qed.

Lemma in_place_equals_rebuild_witness :
  apply_replacements [lit "a"; lit "b"] [(1, 1, [lit "c"]); (2, 0, [lit "z"])] =
  Some [lit "a"; lit "c"; lit "z"].
Proof.
  destruct (in_place_equals_rebuild (parse_source (lit "a" ++ [ch_lf] ++ lit "b"))
              [(1, 1, [lit "c"]); (2, 0, [lit "z"])]) as (self' & H1 & H2).
  { repeat constructor. }
  vm_compute in H1. injection H1 as <-. exact H2.
Defined.

(** ** No panic in either mode *)

Lemma apply_replacements_sorted lines rs :
  StronglySorted (key_le start_index) rs -> Forall (fun r => start_index r <= length lines) rs ->
  exists out, apply_replacements lines rs = Some out /\
    forall k, k <= length lines -> Forall (fun r => k <= start_index r) rs -> k <= length out.
Proof.
  induction 1 as [|[[i n] seg] rs _ IH Hall]; intros Hb; simpl; [eauto|].
  inv Hb. destruct IH as (out & He & Hlen); [done|].
  fold (apply_replacements lines rs). rewrite He.
  assert (Hi : i <= length out) by (apply Hlen; [done|exact Hall]).
  pose proof (apply_one_spec i n seg out Hi) as H0. simpl in H0. rewrite H0.
  eexists. split; [done|]. intros k Hk Hf. inv Hf. simpl in *.
  rewrite length_app, length_take. lia.
Qed.

Lemma insertion_idx_bound lines m : insertion_idx lines m <= length lines.
Proof. unfold insertion_idx. repeat case_match; lia. Qed.

Lemma collect_normalize_bounds lines path chunks line_index :
  line_index <= length lines ->
  match collect_replacements lines path NormalizeToLf line_index chunks with
  | None => False
  | Some (Err _) => True
  | Some (Ok rs) => Forall (fun r => start_index r <= length lines) rs
  end.
Proof.
  revert line_index; induction chunks as [|c chunks IH]; intros li Hli; simpl; [done|].
  unfold chunk_replacements.
  destruct (match change_context c with None => _ | Some _ => _ end) as [li1|e] eqn:Ec; [|done].
  assert (Hli1 : li1 <= length lines).
  { destruct (change_context c) as [ctx|]; [|by simplify_eq].
    destruct (seek_sequence _ _ _ _ _) as [idx|] eqn:Es; simplify_eq.
    apply seek_sequence_bounds in Es as [Hb _]; [|done]. simpl in Hb. lia. }
  destruct (is_nil (old_lines c)).
  { specialize (IH li1 Hli1). destruct (collect_replacements _ _ _ _ _) as [[rs|e]|]; try done.
    constructor; [apply insertion_idx_bound|done]. }
  destruct (locate_old_lines lines c li1 NormalizeToLf) as [[[start|] pattern] ns] eqn:El; [|done].
  apply locate_old_lines_bounds in El as [Hb _]; [|done]. specialize (IH _ Hb).
  destruct (collect_replacements _ _ _ _ _) as [[rs|e]|]; try done.
  constructor; [simpl; lia|done].
Qed.

Lemma new_contents_defined contents path chunks m :
  Forall wf_chunk chunks ->
  exists r, new_contents_from_chunks contents path chunks m = Some r.
Proof.
  intros Hwf. unfold new_contents_from_chunks. destruct m.
  - unfold compute_replacements. set (ls := split_source contents).
    pose proof (collect_normalize_bounds ls path chunks 0 ltac:(lia)) as H.
    destruct (collect_replacements _ _ _ _ _) as [[rs|e]|]; [|eauto|done].
    destruct (apply_replacements_sorted ls (sort_by_key start_index rs)) as (out & -> & _).
    + apply sort_by_key_sorted.
    + by rewrite sort_by_key_perm.
    + eauto.
  - pose proof (compute_replacements_preserve (line_texts (parse_source contents)) path chunks Hwf) as H.
    destruct (compute_replacements _ _ _ _) as [[rs|e]|]; [|eauto|done].
    unfold line_texts in H. rewrite length_map in H. unfold source_apply_replacements.
    destruct (splice_ok (preferred_ending (parse_source contents)) _ _ _ H) as (out & Hs & _).
    change (drop 0 ?x) with x in Hs. rewrite Hs. eauto.
Qed.

(** Deriving the new contents never panics.  For every file, every list of
    chunks the parser can produce and both update modes, the result is the new
    text or a [ComputeReplacements] error: no index is out of range and no
    [usize] subtraction underflows, even when chunks overlap in
    [NormalizeToLf] mode. *)
Theorem new_contents_total contents path chunks m :
  Forall wf_chunk chunks ->
  exists r, new_contents_from_chunks contents path chunks m = Some r.
Proof. apply new_contents_defined. Qed.

Lemma new_contents_total_witness :
  exists r, new_contents_from_chunks (lit "a" ++ [ch_lf] ++ lit "b") (lit "f") sample_chunks
              PreserveLineEndings = Some r /\
    r = Ok (lit "a" ++ [ch_lf] ++ lit "c" ++ [ch_lf] ++ lit "z" ++ [ch_lf]).
Proof.
  destruct (new_contents_total (lit "a" ++ [ch_lf] ++ lit "b") (lit "f") sample_chunks
              PreserveLineEndings) as [r Hr].
  { repeat (apply Forall_cons; split); [..|apply Forall_nil, I];
      repeat first [apply wf_push_new_line | apply wf_push_old_line | apply wf_push_context_line];
      apply wf_default_chunk. }
  exists r. split; [exact Hr|]. vm_compute in Hr. injection Hr as <-. vm_compute. reflexivity.
Defined.

(** ** A final blank line in [NormalizeToLf] mode *)

Definition replace_line (t t' : str) : UpdateFileChunk :=
  push_new_line (push_old_line default_chunk t) t'.

(** In [NormalizeToLf] mode (the default) an update of a file that ends
    with a blank line loses that blank line, although no chunk mentions it:
    replacing the only text line [t] of [t\n\n] by [t'] gives [t'\n]. *)
Theorem normalize_drops_final_blank_line t t' path :
  ch_lf ∉ t ->
  new_contents_from_chunks (t ++ [ch_lf; ch_lf]) path [replace_line t t'] NormalizeToLf =
  Some (Ok (t' ++ [ch_lf])).
Proof.
  intros Ht. unfold new_contents_from_chunks.
  assert (Hs : split_source (t ++ [ch_lf; ch_lf]) = [t; []]).
  { unfold split_source. change [ch_lf; ch_lf] with (ch_lf :: [ch_lf]).
    rewrite split_on_app by done. reflexivity. }
  rewrite Hs. unfold compute_replacements, collect_replacements, chunk_replacements, locate_old_lines.
  cbn [change_context replace_line push_new_line push_old_line default_chunk old_lines new_lines
       is_end_of_file is_nil app].
  assert (Hq : seek_sequence [t; []] [t] 0 false NormalizeToLf = Some 0).
  { unfold seek_sequence, first_match, search_start. simpl. unfold eq_exact.
    by rewrite str_eqb_refl. }
  rewrite Hq. simpl. unfold join_normalized. reflexivity.
Qed.

Lemma normalize_drops_final_blank_line_witness :
  new_contents_from_chunks (lit "a" ++ [ch_lf; ch_lf]) (lit "f")
    [replace_line (lit "a") (lit "b")] NormalizeToLf = Some (Ok (lit "b" ++ [ch_lf])) /\
  new_contents_from_chunks (lit "a" ++ [ch_lf; ch_lf]) (lit "f")
    [replace_line (lit "a") (lit "b")] PreserveLineEndings = Some (Ok (lit "b" ++ [ch_lf; ch_lf])).
Proof.
  split; [|vm_compute; reflexivity].
  apply (normalize_drops_final_blank_line (lit "a") (lit "b") (lit "f")).
  apply (bool_decide_unpack _). vm_compute. exact I.
Defined.
