(* ===== verification/FileSystem.v ===== *)
(** * The file system interface (file-system/src/lib.rs, [ExecutorFileSystem])

    The patch applier only sees the file system through the trait
    [ExecutorFileSystem]; its implementations (local, sandboxed, remote) do I/O.
    The trait is a class over a store [S] and resolved paths [P]; what the
    applier relies on is the class [FileSystemLaws], stated on what can be read
    back.  [MemFs] is an instance, so the laws can hold. *)

From S2P Require Import Prelude RustStr.

Inductive ErrorKind : Type := NotFound | AlreadyExists | InvalidInput | InvalidData | OtherKind.

#[export] Instance ErrorKind_eq_dec : EqDecision ErrorKind.
Proof. solve_decision. Defined.

(** [std::io::Error]: its kind and its rendering. *)
Record io_error : Type := mkIoError { kind : ErrorKind; message : str }.

Record FileMetadata : Type := {
  is_directory : bool;
  is_file : bool;
  is_symlink : bool;
}.

(** The operations of the trait that apply-patch calls.  The [bool] is
    [follow_symlinks].  A failed mutation may still have changed the store. *)
Class ExecutorFileSystem (S P : Type) : Type := {
  get_metadata : S -> P -> bool -> result FileMetadata io_error;
  read_file_text : S -> P -> bool -> result str io_error;
  write_file : S -> P -> str -> bool -> S * result unit io_error;
  create_directory_recursive : S -> P -> bool -> S * result unit io_error;
  remove : S -> P -> bool -> S * result unit io_error;
}.

(** The operations of [PathUri] (utils/path-uri). *)
Class PathOps (P : Type) : Type := {
  path_join : P -> str -> result P str;
  path_parent : P -> option P;
  native_path_string : P -> str;
}.

(** The text that can be read at a path. *)
Definition readable {S P} `{ExecutorFileSystem S P} (follow : bool) (s : S) (p : P) : option str :=
  match read_file_text s p follow with Ok c => Some c | Err _ => None end.

(** Paths name distinct files; a successful write or removal acts on its path
    alone; a write that reports a missing parent wrote nothing; creating
    directories touches no file; a failed removal leaves the file as it was or
    unreadable. *)
Class FileSystemLaws (S P : Type) `{ExecutorFileSystem S P} (follow : bool) : Prop := {
  write_ok : forall s p c s', write_file s p c follow = (s', Ok tt) ->
    readable follow s' p = Some c /\ forall q, q <> p -> readable follow s' q = readable follow s q;
  write_not_found : forall s p c s' e, write_file s p c follow = (s', Err e) -> kind e = NotFound ->
    forall q, readable follow s' q = readable follow s q;
  create_directory_frame : forall s p s' r, create_directory_recursive s p follow = (s', r) ->
    forall q, readable follow s' q = readable follow s q;
  remove_ok : forall s p s', remove s p follow = (s', Ok tt) ->
    readable follow s' p = None /\ forall q, q <> p -> readable follow s' q = readable follow s q;
  remove_err : forall s p s' e, remove s p follow = (s', Err e) ->
    (readable follow s' p = readable follow s p \/ readable follow s' p = None) /\
    forall q, q <> p -> readable follow s' q = readable follow s q;
}.

(** ** An in-memory file system *)

Module MemFs.

Definition ch_slash : char := 47%N.

Record mem_store : Type := mkStore { files : gmap (list N) (list N); dirs : gset (list N) }.

Definition parent (p : str) : option str := fst <$> rsplit_once ch_slash p.

Definition err (k : ErrorKind) (m : str) : io_error := mkIoError k m.

Definition metadata (s : mem_store) (p : str) : result FileMetadata io_error :=
  match files s !! p with
  | Some _ => Ok {| is_directory := false; is_file := true; is_symlink := false |}
  | None => if bool_decide (p ∈ dirs s)
            then Ok {| is_directory := true; is_file := false; is_symlink := false |}
            else Err (err NotFound (lit "not found"))
  end.

Definition read (s : mem_store) (p : str) : result str io_error :=
  match files s !! p with
  | Some c => Ok c
  | None => if bool_decide (p ∈ dirs s) then Err (err OtherKind (lit "is a directory"))
            else Err (err NotFound (lit "not found"))
  end.

Definition parent_exists (s : mem_store) (p : str) : bool :=
  match parent p with None => true | Some d => bool_decide (d ∈ dirs s) end.

Definition write (s : mem_store) (p c : str) : mem_store * result unit io_error :=
  if bool_decide (p ∈ dirs s) then (s, Err (err OtherKind (lit "is a directory")))
  else if parent_exists s p then (mkStore (<[p := c]> (files s)) (dirs s), Ok tt)
  else (s, Err (err NotFound (lit "no parent"))).

Definition create_dir (s : mem_store) (p : str) : mem_store * result unit io_error :=
  match files s !! p with
  | Some _ => (s, Err (err OtherKind (lit "is a file")))
  | None => (mkStore (files s) ({[p]} ∪ dirs s), Ok tt)
  end.

Definition unlink (s : mem_store) (p : str) : mem_store * result unit io_error :=
  match files s !! p with
  | Some _ => (mkStore (delete p (files s)) (dirs s), Ok tt)
  | None => (s, Err (err NotFound (lit "not found")))
  end.

#[export] Instance mem_fs : ExecutorFileSystem mem_store (list N) := {
  get_metadata s p _ := metadata s p;
  read_file_text s p _ := read s p;
  write_file s p c _ := write s p c;
  create_directory_recursive s p _ := create_dir s p;
  remove s p _ := unlink s p;
}.

#[export] Instance mem_paths : PathOps (list N) := {
  path_join cwd p := Ok (cwd ++ ch_slash :: p);
  path_parent := parent;
  native_path_string p := p;
}.

Lemma readable_files follow s p : readable follow s p = files s !! p.
Proof. unfold readable. simpl. unfold read. repeat case_match; congruence. Qed.

#[export] Instance mem_laws follow : FileSystemLaws mem_store (list N) follow.
Proof.
  split; intros *; rewrite ?readable_files; simpl.
  - unfold write. repeat case_match; intros; simplify_eq/=.
    split; [apply lookup_insert_eq|]. intros q Hq. rewrite !readable_files. simpl.
    by rewrite lookup_insert_ne.
  - unfold write. repeat case_match; intros; by simplify_eq/=.
  - unfold create_dir. case_match; intros; simplify_eq/=; by rewrite !readable_files.
  - unfold unlink. case_match; intros; simplify_eq/=.
    split; [apply lookup_delete_eq|]. intros q Hq. rewrite !readable_files. simpl.
    by rewrite lookup_delete_ne.
  - unfold unlink. case_match; intros; simplify_eq/=. split; [by left|done].
Qed.

End MemFs.
