(* ===== verification/ApplyPatch.v ===== *)
(** * Applying a patch to a file system (apply-patch/src/lib.rs)

    [apply_hunks_to_files] applies the hunks in order and records every
    committed change in an [AppliedPatchDelta]; its [exact] flag says whether
    the recorded changes are all that happened.  The mutable variables of the
    function are the fields of [ApplyState]; the output streams are in-memory
    buffers, which never fail to be written. *)

From S2P Require Import Prelude RustStr PatchTypes StreamingPatch PatchParser FileUpdate FileSystem.

Record ApplyPatchOptions : Type := {
  update_file_mode : ApplyPatchFileUpdateMode;
  follow_symlinks : bool;
}.

(** [ApplyPatchOptions::default()] *)
Definition default_options : ApplyPatchOptions :=
  {| update_file_mode := NormalizeToLf; follow_symlinks := true |}.

Inductive ApplyPatchError : Type :=
| PatchParseError (e : ParseError)
| IoError (context : str) (source : io_error)
| ComputeReplacements (m : str)
| PathUriError (m : str)
| ImplicitInvocation.

(** The [Display] texts of [thiserror]. *)
Definition show_parse_error (e : ParseError) : str :=
  match e with
  | InvalidPatchError m => lit "invalid patch: " ++ m
  | InvalidHunkError m line =>
      lit "invalid hunk at line " ++ fmt_nat line ++ lit ", " ++ m
  end.

Definition show_error (e : ApplyPatchError) : str :=
  match e with
  | PatchParseError e => show_parse_error e
  | IoError context source => context ++ lit ": " ++ source.(message)
  | ComputeReplacements m => m
  | PathUriError m => m
  | ImplicitInvocation =>
      lit "patch detected without explicit call to apply_patch. Rerun as [" ++ [ch_dquote] ++
      lit "apply_patch" ++ [ch_dquote] ++ lit ", " ++ [ch_dquote] ++ lit "<patch>" ++ [ch_dquote] ++
      lit "]"
  end.

(** An [anyhow::Error]: its outermost message and the [std::io::Error] that
    [downcast_ref] finds, also under a context. *)
Record anyhow_error : Type := mkAnyhow { display : str; downcast_io : option io_error }.

(** How an application stops early; [Panicked] is a Rust panic. *)
Inductive failure : Type :=
| Failed (e : anyhow_error)
| Panicked.

Definition with_context (context : str) (e : io_error) : failure := Failed (mkAnyhow context (Some e)).

Section apply.
Context {S P : Type} {fsI : ExecutorFileSystem S P} {pathI : PathOps P}.

Inductive AppliedPatchFileChange : Type :=
| ChangeAdd (content : str) (overwritten_content : option str)
| ChangeDelete (content : str)
| ChangeUpdate (move_path : option P) (old_content : str)
    (overwritten_move_content : option str) (new_content : str).

Record AppliedPatchChange : Type := mkChange {
  change_path : P;
  file_change : AppliedPatchFileChange;
}.

Record AppliedPatchDelta : Type := mkDelta {
  changes : list AppliedPatchChange;
  exact : bool;
}.

(** [AppliedPatchDelta::empty()] *)
Definition empty_delta : AppliedPatchDelta := mkDelta [] true.

(** [AppliedPatchDelta::append] *)
Definition append_delta (self other : AppliedPatchDelta) : AppliedPatchDelta :=
  mkDelta (self.(changes) ++ other.(changes)) (self.(exact) && other.(exact)).

Record AffectedPaths : Type := mkAffected {
  added : list PathBuf;
  modified : list PathBuf;
  deleted : list PathBuf;
}.

Record ApplyState : Type := mkApply {
  store : S;
  delta : AppliedPatchDelta;
  affected : AffectedPaths;
}.

Definition set_store (s : S) (st : ApplyState) : ApplyState := mkApply s st.(delta) st.(affected).

(** [delta.exact &= b] *)
Definition keep_exact (b : bool) (st : ApplyState) : ApplyState :=
  mkApply st.(store) (mkDelta st.(delta).(changes) (st.(delta).(exact) && b)) st.(affected).

(** [delta.changes.push(c)] *)
Definition push_change (c : AppliedPatchChange) (st : ApplyState) : ApplyState :=
  mkApply st.(store) (mkDelta (st.(delta).(changes) ++ [c]) st.(delta).(exact)) st.(affected).

(** [delta.changes[dest_write_change_index] = c], the index of the last change. *)
Definition replace_last_change (c : AppliedPatchChange) (st : ApplyState) : ApplyState :=
  mkApply st.(store) (mkDelta (update_last (fun _ => c) st.(delta).(changes)) st.(delta).(exact))
    st.(affected).

Definition push_added (p : PathBuf) (st : ApplyState) : ApplyState :=
  mkApply st.(store) st.(delta)
    (mkAffected (st.(affected).(added) ++ [p]) st.(affected).(modified) st.(affected).(deleted)).

Definition push_modified (p : PathBuf) (st : ApplyState) : ApplyState :=
  mkApply st.(store) st.(delta)
    (mkAffected st.(affected).(added) (st.(affected).(modified) ++ [p]) st.(affected).(deleted)).

Definition push_deleted (p : PathBuf) (st : ApplyState) : ApplyState :=
  mkApply st.(store) st.(delta)
    (mkAffected st.(affected).(added) st.(affected).(modified) (st.(affected).(deleted) ++ [p])).

Variable options : ApplyPatchOptions.
Let follow : bool := options.(follow_symlinks).

(** The flag [note_existing_path_delta_support] leaves set. *)
Definition note_existing_path_delta_support (s : S) (path : P) : bool :=
  match get_metadata s path follow with
  | Ok metadata => metadata.(is_file) && negb metadata.(is_symlink)
  | Err source => bool_decide (source.(kind) = NotFound)
  end.

(** The text read, and whether the delta stays exact. *)
Definition read_optional_file_text_for_delta (s : S) (path : P) : option str * bool :=
  let noted := note_existing_path_delta_support s path in
  match read_file_text s path follow with
  | Ok content => (Some content, noted)
  | Err source => if bool_decide (source.(kind) = NotFound) then (None, noted) else (None, false)
  end.

Definition ensure_not_directory (s : S) (path : P) : result unit io_error :=
  match get_metadata s path follow with
  | Err e => Err e
  | Ok metadata =>
      if metadata.(is_directory) then Err (mkIoError InvalidInput (lit "path is a directory"))
      else Ok tt
  end.

Definition remove_failure_was_side_effect_free (s : S) (path : P) (expected_content : option str)
    : bool :=
  match expected_content with
  | Some expected_content =>
      match read_file_text s path follow with
      | Ok content => str_eqb content expected_content
      | Err _ => false
      end
  | None => false
  end.

Definition write_file_with_missing_parent_retry (s : S) (path : P) (contents : str)
    : S * result unit failure :=
  match write_file s path contents follow with
  | (s, Ok _) => (s, Ok tt)
  | (s, Err err) =>
      if bool_decide (err.(kind) = NotFound) then
        let '(s, made) :=
          match path_parent path with
          | None => (s, Ok tt)
          | Some parent => create_directory_recursive s parent follow
          end in
        match made with
        | Err e =>
            (s, Err (with_context (lit "Failed to create parent directories for " ++
                                   native_path_string path) e))
        | Ok _ =>
            match write_file s path contents follow with
            | (s, Ok _) => (s, Ok tt)
            | (s, Err e) => (s, Err (with_context (lit "Failed to write file " ++
                                                   native_path_string path) e))
            end
        end
      else (s, Err (with_context (lit "Failed to write file " ++ native_path_string path) err))
  end.

(** [derive_new_contents_from_chunks]: the original and the new contents. *)
Definition derive_new_contents_from_chunks (s : S) (path : P) (chunks : list UpdateFileChunk)
    : result (str * str) failure :=
  match read_file_text s path follow with
  | Err err =>
      Err (Failed (mkAnyhow (show_error (IoError (lit "Failed to read file to update " ++
                                                  native_path_string path) err)) None))
  | Ok original_contents =>
      match new_contents_from_chunks original_contents (native_path_string path) chunks
              options.(update_file_mode) with
      | None => Err Panicked
      | Some (Err m) => Err (Failed (mkAnyhow (show_error (ComputeReplacements m)) None))
      | Some (Ok new_contents) => Ok (original_contents, new_contents)
      end
  end.

(** The [AddFile] arm of [apply_hunks_to_files]. *)
Definition apply_add (path_uri : P) (affected_path contents : str) (st : ApplyState)
    : ApplyState * result unit failure :=
  let '(overwritten_content, noted) := read_optional_file_text_for_delta st.(store) path_uri in
  let st := keep_exact noted st in
  match write_file_with_missing_parent_retry st.(store) path_uri contents with
  | (s, Err e) => (keep_exact false (set_store s st), Err e)
  | (s, Ok _) =>
      (push_added affected_path
         (push_change (mkChange path_uri (ChangeAdd contents overwritten_content)) (set_store s st)),
       Ok tt)
  end.

(** Removing [path_uri], shared by the [DeleteFile] arm and the end of a move. *)
Definition remove_with_check (path_uri : P) (what : str) (expected : option str) (st : ApplyState)
    : ApplyState * result unit failure :=
  match ensure_not_directory st.(store) path_uri with
  | Err e => (st, Err (with_context (what ++ native_path_string path_uri) e))
  | Ok _ =>
      match remove st.(store) path_uri follow with
      | (s, Err e) =>
          (keep_exact (remove_failure_was_side_effect_free s path_uri expected) (set_store s st),
           Err (with_context (what ++ native_path_string path_uri) e))
      | (s, Ok _) => (set_store s st, Ok tt)
      end
  end.

(** The [DeleteFile] arm. *)
Definition apply_delete (path_uri : P) (affected_path : str) (st : ApplyState)
    : ApplyState * result unit failure :=
  let st := keep_exact (note_existing_path_delta_support st.(store) path_uri) st in
  let deleted_content := readable follow st.(store) path_uri in
  let st := keep_exact (if deleted_content then true else false) st in
  match remove_with_check path_uri (lit "Failed to delete file ") deleted_content st with
  | (st, Err e) => (st, Err e)
  | (st, Ok _) =>
      let st := match deleted_content with
                | Some content => push_change (mkChange path_uri (ChangeDelete content)) st
                | None => st
                end in
      (push_deleted affected_path st, Ok tt)
  end.

(** The [UpdateFile] arm, with a destination. *)
Definition apply_move (path_uri dest_uri : P) (affected_path original_contents new_contents : str)
    (st : ApplyState) : ApplyState * result unit failure :=
  let '(overwritten_move_content, noted) :=
    read_optional_file_text_for_delta st.(store) dest_uri in
  let st := keep_exact noted st in
  match write_file_with_missing_parent_retry st.(store) dest_uri new_contents with
  | (s, Err e) => (keep_exact false (set_store s st), Err e)
  | (s, Ok _) =>
      let st := push_change (mkChange dest_uri (ChangeAdd new_contents overwritten_move_content))
                  (set_store s st) in
      match remove_with_check path_uri (lit "Failed to remove original ")
              (Some original_contents) st with
      | (st, Err e) => (st, Err e)
      | (st, Ok _) =>
          (push_modified affected_path
             (replace_last_change
                (mkChange path_uri (ChangeUpdate (Some dest_uri) original_contents
                                      overwritten_move_content new_contents)) st), Ok tt)
      end
  end.

(** The [UpdateFile] arm, in place. *)
Definition apply_in_place (path_uri : P) (affected_path original_contents new_contents : str)
    (st : ApplyState) : ApplyState * result unit failure :=
  match write_file st.(store) path_uri new_contents follow with
  | (s, Err e) =>
      (keep_exact false (set_store s st),
       Err (with_context (lit "Failed to write file " ++ native_path_string path_uri) e))
  | (s, Ok _) =>
      (push_modified affected_path
         (push_change (mkChange path_uri (ChangeUpdate None original_contents None new_contents))
            (set_store s st)), Ok tt)
  end.

Definition apply_update (cwd path_uri : P) (affected_path : str) (move_path : option PathBuf)
    (chunks : list UpdateFileChunk) (st : ApplyState) : ApplyState * result unit failure :=
  let st := keep_exact (note_existing_path_delta_support st.(store) path_uri) st in
  match derive_new_contents_from_chunks st.(store) path_uri chunks with
  | Err e => (st, Err e)
  | Ok (original_contents, new_contents) =>
      match move_path with
      | Some dest =>
          match path_join cwd dest with
          | Err m => (st, Err (Failed (mkAnyhow m None)))
          | Ok dest_uri =>
              apply_move path_uri dest_uri affected_path original_contents new_contents st
          end
      | None => apply_in_place path_uri affected_path original_contents new_contents st
      end
  end.

(** One iteration of the loop over the hunks. *)
Definition apply_hunk (cwd : P) (hunk : Hunk) (st : ApplyState) : ApplyState * result unit failure :=
  match path_join cwd (hunk_source_path hunk) with
  | Err m => (st, Err (Failed (mkAnyhow m None)))
  | Ok path_uri =>
      let affected_path := hunk_path hunk in
      match hunk with
      | AddFile _ contents => apply_add path_uri affected_path contents st
      | DeleteFile _ => apply_delete path_uri affected_path st
      | UpdateFile _ move_path chunks => apply_update cwd path_uri affected_path move_path chunks st
      end
  end.

Fixpoint apply_hunk_list (cwd : P) (hunks : list Hunk) (st : ApplyState)
    : ApplyState * result unit failure :=
  match hunks with
  | [] => (st, Ok tt)
  | h :: hunks =>
      match apply_hunk cwd h st with
      | (st, Err e) => (st, Err e)
      | (st, Ok _) => apply_hunk_list cwd hunks st
      end
  end.

Definition initial_state (s : S) : ApplyState := mkApply s empty_delta (mkAffected [] [] []).

Definition apply_hunks_to_files (hunks : list Hunk) (cwd : P) (s : S)
    : ApplyState * result unit failure :=
  if is_nil hunks then
    (initial_state s, Err (Failed (mkAnyhow (lit "No files were modified.") None)))
  else apply_hunk_list cwd hunks (initial_state s).

Definition print_summary (a : AffectedPaths) : str :=
  let row (tag : str) (p : PathBuf) := tag ++ p ++ [ch_lf] in
  lit "Success. Updated the following files:" ++ [ch_lf] ++
  mjoin (map (row (lit "A ")) a.(added)) ++
  mjoin (map (row (lit "M ")) a.(modified)) ++
  mjoin (map (row (lit "D ")) a.(deleted)).

Record outcome : Type := mkOutcome {
  out_store : S;
  out_stdout : str;
  out_stderr : str;
  out_result : result AppliedPatchDelta (ApplyPatchError * AppliedPatchDelta);
}.

(** [apply_hunks_with_options]; [None] is a panic. *)
Definition apply_hunks_with_options (hunks : list Hunk) (cwd : P) (s : S) : option outcome :=
  match apply_hunks_to_files hunks cwd s with
  | (st, Ok _) => Some (mkOutcome st.(store) (print_summary st.(affected)) [] (Ok st.(delta)))
  | (st, Err Panicked) => None
  | (st, Err (Failed error)) =>
      let msg := error.(display) in
      let e := match error.(downcast_io) with
               | Some io => IoError (lit "I/O error") io
               | None => IoError msg (mkIoError OtherKind msg)
               end in
      Some (mkOutcome st.(store) [] (msg ++ [ch_lf]) (Err (e, st.(delta))))
  end.

(** [apply_patch_with_options] *)
Definition apply_patch_with_options (patch : str) (cwd : P) (s : S) : option outcome :=
  match parse_patch patch with
  | Ok source => apply_hunks_with_options source.(args_hunks) cwd s
  | Err e =>
      let report := match e with
                    | InvalidPatchError m => lit "Invalid patch: " ++ m ++ [ch_lf]
                    | InvalidHunkError m line =>
                        lit "Invalid patch hunk on line " ++ fmt_nat line ++ lit ": " ++ m ++ [ch_lf]
                    end in
      Some (mkOutcome s [] report (Err (PatchParseError e, empty_delta)))
  end.

End apply.

Arguments AppliedPatchFileChange : clear implicits.
Arguments AppliedPatchChange : clear implicits.
Arguments AppliedPatchDelta : clear implicits.
Arguments ApplyState : clear implicits.

(** ** Views of the file system

    What the delta is about: the text readable at each path, up to pointwise
    equality. *)

Section views.
Context {P : Type} {eqP : EqDecision P}.

Definition view : Type := P -> option str.

#[global] Instance view_equiv : Equiv view := fun v w => forall q, v q = w q.

#[global] Instance view_equivalence : Equivalence (≡@{view}).
Proof.
  split; [by intros v q|by intros v w H q|]. intros u v w H1 H2 q. by rewrite H1, H2.
Qed.

Definition set_view (v : view) (p : P) (o : option str) : view :=
  fun q => if decide (q = p) then o else v q.

#[global] Instance set_view_proper : Proper ((≡) ==> (=) ==> (=) ==> (≡)) set_view.
Proof. intros v w H p _ <- o _ <- q. unfold set_view. case_decide; [done|apply H]. Qed.

(** Redoing and undoing one recorded change. *)
Definition replay_change (c : AppliedPatchChange P) (v : view) : view :=
  match c.(file_change) with
  | ChangeAdd content _ => set_view v c.(change_path) (Some content)
  | ChangeDelete _ => set_view v c.(change_path) None
  | ChangeUpdate None _ _ new_content => set_view v c.(change_path) (Some new_content)
  | ChangeUpdate (Some dest) _ _ new_content =>
      set_view (set_view v dest (Some new_content)) c.(change_path) None
  end.

Definition revert_change (c : AppliedPatchChange P) (v : view) : view :=
  match c.(file_change) with
  | ChangeAdd _ overwritten_content => set_view v c.(change_path) overwritten_content
  | ChangeDelete content => set_view v c.(change_path) (Some content)
  | ChangeUpdate None old_content _ _ => set_view v c.(change_path) (Some old_content)
  | ChangeUpdate (Some dest) old_content overwritten _ =>
      set_view (set_view v dest overwritten) c.(change_path) (Some old_content)
  end.

#[global] Instance replay_change_proper c : Proper ((≡) ==> (≡)) (replay_change c).
Proof. intros v w H. unfold replay_change. repeat case_match; by rewrite H. Qed.

#[global] Instance revert_change_proper c : Proper ((≡) ==> (≡)) (revert_change c).
Proof. intros v w H. unfold revert_change. repeat case_match; by rewrite H. Qed.

(** First to last. *)
Definition replay (cs : list (AppliedPatchChange P)) (v : view) : view :=
  foldl (fun v c => replay_change c v) v cs.

(** Last to first. *)
Definition revert (cs : list (AppliedPatchChange P)) (v : view) : view :=
  foldr revert_change v cs.

#[global] Instance revert_proper cs : Proper ((≡) ==> (≡)) (revert cs).
Proof. intros v w H. induction cs as [|c cs IH]; simpl; [done|]. by rewrite IH. Qed.

(** The changes explain the step from one view to the other in both directions. *)
Definition explains (v : view) (cs : list (AppliedPatchChange P)) (w : view) : Prop :=
  w ≡ replay cs v /\ v ≡ revert cs w.

Lemma explains_nil v w : v ≡ w -> explains v [] w.
Proof. intros H. by split. Qed.

Lemma explains_view v cs w w' : explains v cs w -> w ≡ w' -> explains v cs w'.
Proof. intros [H1 H2] Hw. split; by rewrite <- Hw. Qed.

Lemma explains_snoc v cs w c w' :
  explains v cs w -> w' ≡ replay_change c w -> w ≡ revert_change c w' ->
  explains v (cs ++ [c]) w'.
Proof.
  intros [H1 H2] Hr Hv. split.
  - unfold replay in *. rewrite foldl_snoc, Hr, H1. done.
  - unfold revert in *. rewrite foldr_snoc. fold (revert cs (revert_change c w')).
    by rewrite <- Hv.
Qed.

Lemma set_view_eq v p o : set_view v p o p = o.
Proof. unfold set_view. by rewrite decide_True. Qed.

(** Undoing a write with what was there before. *)
Lemma set_view_restore v w p o : w ≡ set_view v p o -> v ≡ set_view w p (v p).
Proof.
  intros H q. unfold set_view. case_decide; [congruence|]. rewrite (H q).
  unfold set_view. by rewrite decide_False.
Qed.

End views.

Arguments view : clear implicits.

(** ** Exact deltas *)

Section exactness.
Context {S P : Type} {eqP : EqDecision P} {fsI : ExecutorFileSystem S P} {pathI : PathOps P}.
Variable options : ApplyPatchOptions.
Context {laws : FileSystemLaws S P options.(follow_symlinks)}.

Abbreviation seen := (readable options.(follow_symlinks)).

Lemma view_of_laws (s s' : S) (p : P) (o : option str) :
  seen s' p = o -> (forall q, q <> p -> seen s' q = seen s q) -> seen s' ≡ set_view (seen s) p o.
Proof. intros Hp Hq q. unfold set_view. case_decide; [by subst|by apply Hq]. Qed.

Lemma write_view s p c s' :
  write_file s p c options.(follow_symlinks) = (s', Ok tt) ->
  seen s' ≡ set_view (seen s) p (Some c).
Proof. intros [? ?]%write_ok. by apply view_of_laws. Qed.

Lemma write_retry_view s p c s' :
  write_file_with_missing_parent_retry options s p c = (s', Ok tt) ->
  seen s' ≡ set_view (seen s) p (Some c).
Proof.
  unfold write_file_with_missing_parent_retry.
  destruct (write_file s p c _) as [s1 [[]|e]] eqn:E1.
  { intros; simplify_eq. by apply write_view. }
  case_bool_decide as Hk; [|done].
  assert (H1 : seen s1 ≡ seen s) by (intros q; by eapply write_not_found).
  destruct (match path_parent p with None => _ | Some _ => _ end) as [s2 made] eqn:E2.
  assert (H2 : seen s2 ≡ seen s1).
  { destruct (path_parent p); simplify_eq; [|done]. intros q. by eapply create_directory_frame. }
  destruct made; [|done]. destruct (write_file s2 p c _) as [s3 [[]|e']] eqn:E3; [|done].
  intros; simplify_eq. apply write_view in E3. by rewrite E3, H2, H1.
Qed.

Lemma remove_ok_view p what expected st st' :
  remove_with_check options p what expected st = (st', Ok tt) ->
  st'.(delta) = st.(delta) /\ seen st'.(store) ≡ set_view (seen st.(store)) p None.
Proof.
  unfold remove_with_check. case_match; [|done].
  destruct (remove _ _ _) as [s [[]|e]] eqn:E; [|done]. intros; simplify_eq/=.
  split; [done|]. apply remove_ok in E as [? ?]. by apply view_of_laws.
Qed.

(** A failed removal that keeps the delta exact changed nothing. *)
Lemma remove_err_view p what expected st st' e :
  remove_with_check options p what expected st = (st', Err e) ->
  st'.(delta).(changes) = st.(delta).(changes) /\
  (st'.(delta).(exact) = true -> st.(delta).(exact) = true /\ seen st'.(store) ≡ seen st.(store)).
Proof.
  unfold remove_with_check. case_match; [|intros; by simplify_eq].
  destruct (remove _ _ _) as [s [[]|e']] eqn:E; [done|]. intros; simplify_eq/=.
  split; [done|]. intros [? Hc]%andb_true_iff. split; [done|].
  apply remove_err in E as [Hp Hq]. intros q. destruct (decide (q = p)) as [->|]; [|by apply Hq].
  destruct Hp as [Hp|Hp]; [done|]. unfold remove_failure_was_side_effect_free in Hc.
  unfold readable in Hp. destruct expected; [|done]. by destruct (read_file_text _ _ _).
Qed.

Lemma read_optional_seen s p o noted :
  read_optional_file_text_for_delta options s p = (o, noted) -> noted = true -> o = seen s p.
Proof.
  unfold read_optional_file_text_for_delta, readable. repeat case_match; intros; by simplify_eq.
Qed.

Definition explained (v0 : view P) (st : ApplyState S P) : Prop :=
  st.(delta).(exact) = true -> explains v0 st.(delta).(changes) (seen st.(store)).

Lemma explained_keep v0 b st : explained v0 st -> explained v0 (keep_exact b st).
Proof. intros H0 [? _]%andb_true_iff. by apply H0. Qed.

Lemma explained_false v0 s st : explained v0 (keep_exact false (set_store s st)).
Proof. intros [_ ?]%andb_true_iff. done. Qed.

Lemma apply_add_explained v0 p a contents st st' r :
  explained v0 st -> apply_add options p a contents st = (st', r) -> explained v0 st'.
Proof.
  intros Hst. unfold apply_add.
  destruct (read_optional_file_text_for_delta _ _ _) as [over noted] eqn:Er.
  destruct (write_file_with_missing_parent_retry _ _ _ _) as [s [[]|e]] eqn:Ew;
    intros; simplify_eq; [|apply explained_false].
  intros [Hx Hn]%andb_true_iff. simpl. apply read_optional_seen in Er as ->; [|done].
  apply write_retry_view in Ew. simpl in Ew.
  eapply explains_snoc; [by apply Hst|done|]. by eapply set_view_restore.
Qed.

Lemma apply_delete_explained v0 p a st st' r :
  explained v0 st -> apply_delete options p a st = (st', r) -> explained v0 st'.
Proof.
  intros Hst. unfold apply_delete. set (st1 := keep_exact _ (keep_exact _ st)).
  assert (H1 : explained v0 st1) by (by do 2 apply explained_keep).
  destruct (remove_with_check _ _ _ _ _) as [st2 [[]|e]] eqn:Er; intros; simplify_eq.
  - apply remove_ok_view in Er as [Hd Hv].
    destruct (readable _ (store (keep_exact _ st)) p) as [c|] eqn:Ec; simpl in Ec.
    + intros Hx. simpl in *. rewrite Hd in *.
      assert (Hcur : seen (store st1) p = Some c) by done.
      eapply explains_snoc; [by apply H1|done|]. unfold revert_change; simpl. rewrite <- Hcur.
      by eapply set_view_restore.
    + intros Hx. simpl in Hx. rewrite Hd in Hx. unfold st1 in Hx. simpl in Hx. rewrite ?Ec in Hx.
      by rewrite andb_false_r in Hx.
  - apply remove_err_view in Er as [Hc He]. intros Hx. apply He in Hx as [Hx Hv]. rewrite Hc.
    eapply explains_view; [by apply H1|done].
Qed.

Lemma apply_in_place_explained v0 p a old new st st' r :
  explained v0 st -> seen st.(store) p = Some old ->
  apply_in_place options p a old new st = (st', r) -> explained v0 st'.
Proof.
  intros Hst Hold. unfold apply_in_place.
  destruct (write_file _ _ _ _) as [s [[]|e]] eqn:Ew; intros; simplify_eq; [|apply explained_false].
  intros Hx. simpl in *. apply write_view in Ew.
  eapply explains_snoc; [by apply Hst|done|]. unfold revert_change; simpl. rewrite <- Hold.
  by eapply set_view_restore.
Qed.

(** The two writes of a move are one recorded change. *)
Lemma move_views (v v1 v2 : view P) (p dest : P) (old new : str) :
  v p = Some old -> v1 ≡ set_view v dest (Some new) -> v2 ≡ set_view v1 p None ->
  let c := mkChange p (ChangeUpdate (Some dest) old (v dest) new) in
  v2 ≡ replay_change c v /\ v ≡ revert_change c v2.
Proof.
  intros Hold H1 H2 c. split; [by rewrite H2, H1|].
  unfold c, revert_change; simpl. rewrite H2, H1. intros q. unfold set_view.
  repeat case_decide; congruence.
Qed.

Lemma apply_move_explained v0 p dest a old new st st' r :
  explained v0 st -> seen st.(store) p = Some old ->
  apply_move options p dest a old new st = (st', r) -> explained v0 st'.
Proof.
  intros Hst Hold. unfold apply_move.
  destruct (read_optional_file_text_for_delta _ _ _) as [over noted] eqn:Er.
  destruct (write_file_with_missing_parent_retry _ _ _ _) as [s [[]|e]] eqn:Ew;
    [|intros; simplify_eq; apply explained_false].
  apply write_retry_view in Ew. simpl in Ew.
  set (st1 := push_change _ (set_store s (keep_exact noted st))).
  destruct (remove_with_check _ _ _ _ _) as [st2 [[]|e]] eqn:Erm; intros; simplify_eq.
  - apply remove_ok_view in Erm as [Hd Hv]. intros Hx. simpl in *. rewrite Hd in *.
    unfold st1 in *. simpl in *. rewrite update_last_snoc.
    apply andb_true_iff in Hx as [Hx Hn]. apply read_optional_seen in Er as ->; [|done].
    destruct (move_views _ _ _ _ _ _ _ Hold Ew Hv) as [? ?].
    eapply explains_snoc; [by apply Hst|done|done].
  - apply remove_err_view in Erm as [Hc He]. intros Hx. apply He in Hx as [Hx Hv]. rewrite Hc.
    eapply explains_view; [|by symmetry]. unfold st1 in *. simpl in *.
    apply andb_true_iff in Hx as [Hx Hn]. apply read_optional_seen in Er as ->; [|done].
    eapply explains_snoc; [by apply Hst|done|]. by eapply set_view_restore.
Qed.

Lemma apply_hunk_explained v0 cwd h st st' r :
  explained v0 st -> apply_hunk options cwd h st = (st', r) -> explained v0 st'.
Proof.
  intros Hst. unfold apply_hunk. case_match; [|intros; by simplify_eq].
  destruct h as [path contents|path|path mv chunks].
  - by apply apply_add_explained.
  - by apply apply_delete_explained.
  - unfold apply_update. set (st1 := keep_exact _ st).
    assert (H1' : explained v0 st1) by (by apply explained_keep).
    destruct (derive_new_contents_from_chunks _ _ _ _) as [[old new]|e] eqn:Ed;
      [|intros; by simplify_eq].
    assert (Hold : seen (store st1) a = Some old).
    { unfold derive_new_contents_from_chunks in Ed. unfold readable.
      repeat case_match; by simplify_eq. }
    destruct mv as [dest|]; [case_match; [|intros; by simplify_eq]|].
    + by apply apply_move_explained.
    + by apply apply_in_place_explained.
Qed.

Lemma apply_hunk_list_explained v0 cwd hunks st st' r :
  explained v0 st -> apply_hunk_list options cwd hunks st = (st', r) -> explained v0 st'.
Proof.
  revert st; induction hunks as [|h hunks IH]; intros st Hst; simpl; [intros; by simplify_eq|].
  destruct (apply_hunk options cwd h st) as [st1 [[]|e]] eqn:E;
    apply (apply_hunk_explained v0) in E; try done; [by apply IH|]. intros; by simplify_eq.
Qed.

Lemma apply_hunks_explained hunks cwd s st r :
  apply_hunks_to_files options hunks cwd s = (st, r) -> explained (seen s) st.
Proof.
  unfold apply_hunks_to_files.
  assert (H0 : explained (seen s) (initial_state s)) by (intros _; by apply explains_nil).
  case_match; [intros; by simplify_eq|]. by apply apply_hunk_list_explained.
Qed.

(** C5: the delta is a redo log.  Whether the application succeeds or fails
    half way, when its delta is still marked exact, replaying the recorded
    changes on the initial texts gives exactly the texts now readable. *)
Theorem exact_delta_replays hunks cwd s st r :
  apply_hunks_to_files options hunks cwd s = (st, r) ->
  st.(delta).(exact) = true ->
  forall q, seen st.(store) q = replay st.(delta).(changes) (seen s) q.
Proof. intros H He. exact (proj1 (apply_hunks_explained _ _ _ _ _ H He)). Qed.

(** The delta is an undo log.  When it is marked exact, reverting the
    recorded changes from the last to the first, using the recorded old and
    overwritten contents, restores the text at every path. *)
Theorem exact_delta_reverts hunks cwd s st r :
  apply_hunks_to_files options hunks cwd s = (st, r) ->
  st.(delta).(exact) = true ->
  forall q, seen s q = revert st.(delta).(changes) (seen st.(store)) q.
Proof. intros H He. exact (proj2 (apply_hunks_explained _ _ _ _ _ H He)). Qed.

(** An update hunk whose destination is the path it updates reports
    success and leaves no file: the new contents are written and the same path
    is then removed. *)
Theorem move_to_itself_deletes cwd p path dest chunks st st' :
  path_join cwd path = Ok p -> path_join cwd dest = Ok p ->
  apply_hunk options cwd (UpdateFile path (Some dest) chunks) st = (st', Ok tt) ->
  seen st'.(store) p = None.
Proof.
  intros Hp Hd. unfold apply_hunk. simpl. rewrite Hp. unfold apply_update.
  case_match; [|done]. case_match. rewrite Hd. unfold apply_move.
  destruct (read_optional_file_text_for_delta _ _ _) as [over noted].
  destruct (write_file_with_missing_parent_retry _ _ _ _) as [s [[]|e]]; [|done].
  destruct (remove_with_check _ _ _ _ _) as [st2 [[]|e]] eqn:Er; [|done].
  intros; simplify_eq/=. apply remove_ok_view in Er as [_ Hv]. rewrite (Hv p). apply set_view_eq.
Qed.

End exactness.

(** ** No panic *)

Section totality.
Context {S P : Type} {fsI : ExecutorFileSystem S P} {pathI : PathOps P}.
Variable options : ApplyPatchOptions.

Lemma write_retry_no_panic s p c s' :
  write_file_with_missing_parent_retry options s p c <> (s', Err Panicked).
Proof. unfold write_file_with_missing_parent_retry, with_context. repeat case_match; congruence. Qed.

Lemma remove_no_panic p what expected st st' :
  remove_with_check options p what expected st <> (st', Err Panicked).
Proof. unfold remove_with_check, with_context. repeat case_match; congruence. Qed.

Lemma derive_no_panic s p chunks :
  Forall wf_chunk chunks -> derive_new_contents_from_chunks options s p chunks <> Err Panicked.
Proof.
  intros Hwf. unfold derive_new_contents_from_chunks. case_match; [|congruence].
  destruct (new_contents_defined a (native_path_string p) chunks (update_file_mode options) Hwf)
    as [r ->]. by destruct r.
Qed.

Lemma apply_hunk_no_panic cwd h st st' :
  wf_hunk h -> apply_hunk options cwd h st <> (st', Err Panicked).
Proof.
  intros Hwf. unfold apply_hunk. case_match; [|congruence].
  destruct h as [path contents|path|path mv chunks].
  - unfold apply_add. case_match. case_match eqn:E. case_match; [congruence|].
    intros [= _ ->]. by eapply write_retry_no_panic.
  - unfold apply_delete. destruct (remove_with_check _ _ _ _ _) as [st2 [[]|e]] eqn:E; [congruence|].
    intros [= _ ->]. by eapply remove_no_panic.
  - unfold apply_update. case_match eqn:Ed.
    2: { intros [= _ ->]. eapply derive_no_panic, Ed. destruct Hwf as [Hwf _].
         eapply Forall_impl; [exact Hwf|]. by intros ? []. }
    case_match. destruct mv as [dest|].
    + case_match; [|congruence]. unfold apply_move. case_match. case_match eqn:Ew.
      case_match; [|intros [= _ ->]; by eapply write_retry_no_panic].
      case_match eqn:Er. case_match; [congruence|]. intros [= _ ->]. by eapply remove_no_panic.
    + unfold apply_in_place, with_context. repeat case_match; congruence.
Qed.

Lemma apply_hunk_list_no_panic cwd hunks st st' :
  Forall wf_hunk hunks -> apply_hunk_list options cwd hunks st <> (st', Err Panicked).
Proof.
  intros Hwf. revert st; induction Hwf as [|h hunks Hh _ IH]; intros st; simpl; [congruence|].
  destruct (apply_hunk options cwd h st) as [st1 [[]|e]] eqn:E; [apply IH|].
  intros [= _ ->]. by eapply apply_hunk_no_panic.
Qed.

(** C6: [apply_patch] always returns.  For every patch text, whatever the file
    system answers, it ends with a delta or with an error and the delta of what
    was committed, and never by a panic; a text that does not parse leaves the
    store and the delta untouched. *)
Theorem apply_patch_total patch cwd s :
  exists o, apply_patch_with_options options patch cwd s = Some o /\
    forall e, parse_patch patch = Err e ->
      out_store o = s /\ out_result o = Err (PatchParseError e, empty_delta).
Proof.
  unfold apply_patch_with_options. destruct (parse_patch patch) as [args|e] eqn:Ep.
  - apply parse_patch_wf in Ep. unfold apply_hunks_with_options, apply_hunks_to_files.
    destruct (is_nil (args_hunks args)); [by eexists|].
    destruct (apply_hunk_list options cwd _ _) as [st [[]|[e|]]] eqn:E; try by eexists.
    exfalso. by eapply apply_hunk_list_no_panic.
  - eexists. split; [done|]. by intros ? [= <-].
Qed.

End totality.

(** ** A run on the in-memory file system *)

Import MemFs.

Definition text_of_lines (ls : list str) : str := mjoin (map (fun l => l ++ [ch_lf]) ls).

Definition demo_store : MemFs.mem_store :=
  MemFs.mkStore {[ lit "w/a.txt" := text_of_lines [lit "one"; lit "two"] ]} {[ lit "w" ]}.

Definition demo_hunks : list Hunk :=
  [AddFile (lit "d/new.txt") (lit "hi" ++ [ch_lf]);
   UpdateFile (lit "a.txt") (Some (lit "b.txt"))
     [push_new_line (push_old_line (push_context_line default_chunk (lit "one")) (lit "two"))
        (lit "2")]].

Definition demo_run : ApplyState MemFs.mem_store (list N) * result unit failure :=
  apply_hunks_to_files default_options demo_hunks (lit "w") demo_store.

Lemma exact_delta_replays_witness :
  exact (delta (fst demo_run)) = true /\
  files (store (fst demo_run)) !! lit "w/b.txt" = Some (text_of_lines [lit "one"; lit "2"]) /\
  readable true (store (fst demo_run)) (lit "w/b.txt") =
    replay (changes (delta (fst demo_run))) (readable true demo_store) (lit "w/b.txt").
Proof.
  split; [vm_compute; reflexivity|]. split; [vm_compute; reflexivity|].
  apply (exact_delta_replays default_options demo_hunks (lit "w") demo_store
           (fst demo_run) (snd demo_run)); vm_compute; reflexivity.
Defined.

Lemma exact_delta_reverts_witness :
  readable true demo_store (lit "w/a.txt") =
  revert (changes (delta (fst demo_run))) (readable true (store (fst demo_run))) (lit "w/a.txt").
Proof.
  apply (exact_delta_reverts default_options demo_hunks (lit "w") demo_store
           (fst demo_run) (snd demo_run)); vm_compute; reflexivity.
Defined.

Definition self_move : Hunk :=
  UpdateFile (lit "a.txt") (Some (lit "a.txt")) [replace_line (lit "one") (lit "1")].

Definition self_move_run : ApplyState MemFs.mem_store (list N) * result unit failure :=
  apply_hunk default_options (lit "w") self_move (initial_state demo_store).

Lemma move_to_itself_deletes_witness :
  readable true demo_store (lit "w/a.txt") = Some (text_of_lines [lit "one"; lit "two"]) /\
  readable true (store (fst self_move_run)) (lit "w/a.txt") = None.
Proof.
  split; [vm_compute; reflexivity|].
  apply (move_to_itself_deletes default_options (lit "w") (lit "w/a.txt") (lit "a.txt") (lit "a.txt")
           [replace_line (lit "one") (lit "1")] (initial_state demo_store) (fst self_move_run));
    vm_compute; reflexivity.
Defined.
