(* ===== verification/StreamText.v ===== *)
(** * utils/stream-parser: the streaming text parser interface

    [stream_text.rs]: the chunk type, the trait [StreamTextParser] as a class,
    and the laws its implementations promise to the parsers built on top of
    them (the UTF-8 wrapper of Utf8Stream.v and the assistant parser of
    ProposedPlan.v).  A method returns [None] where the Rust code panics or
    does not return. *)

From S2P Require Import Prelude RustStr.

Record StreamTextChunk (T : Type) := mkChunk {
  visible_text : str;
  extracted : list T;
}.
Arguments mkChunk {T} visible_text extracted.
Arguments visible_text {T} _.
Arguments extracted {T} _.

Definition empty_chunk {T} : StreamTextChunk T := mkChunk [] [].

Definition chunk_is_empty {T} (c : StreamTextChunk T) : bool :=
  bool_decide (visible_text c = []) && match extracted c with [] => true | _ => false end.

(** Two outputs in sequence ([push_str] of the texts, [append] of the payloads). *)
Definition chunk_app {T} (a b : StreamTextChunk T) : StreamTextChunk T :=
  mkChunk (visible_text a ++ visible_text b) (extracted a ++ extracted b).
Infix "⊕" := chunk_app (at level 50, left associativity) : rust_scope.

Lemma chunk_app_assoc {T} (a b c : StreamTextChunk T) : a ⊕ b ⊕ c = a ⊕ (b ⊕ c).
Proof. unfold chunk_app. simpl. by rewrite <- !app_assoc. Qed.

Lemma chunk_app_nil_l {T} (a : StreamTextChunk T) : empty_chunk ⊕ a = a.
Proof. by destruct a. Qed.

Lemma chunk_app_nil_r {T} (a : StreamTextChunk T) : a ⊕ empty_chunk = a.
Proof. destruct a. unfold chunk_app. simpl. by rewrite !app_nil_r. Qed.

(** The trait: [push_str] and [finish], with the mutated parser returned. *)
Class StreamTextParser (P T : Type) := {
  parser_push_str : P -> str -> option (P * StreamTextChunk T);
  parser_finish : P -> option (P * StreamTextChunk T);
}.

(** Feed a list of chunks, collecting the outputs. *)
Fixpoint push_all {P T} `{StreamTextParser P T} (p : P) (cs : list str)
    : option (P * StreamTextChunk T) :=
  match cs with
  | [] => Some (p, empty_chunk)
  | c :: cs' =>
      '(p1, o1) ← parser_push_str p c;
      '(p2, o2) ← push_all p1 cs';
      Some (p2, o1 ⊕ o2)
  end.

(** What an implementation promises: a state invariant under which the parser
    never panics, and independence of how the text is cut, up to an
    equivalence of payload lists that is a congruence for append. *)
Class StreamTextLaws (P T : Type) `{StreamTextParser P T} := {
  parser_ok : P -> Prop;
  payload_equiv : relation (list T);
  payload_equivalence :: Equivalence payload_equiv;
  payload_app_proper :: Proper (payload_equiv ==> payload_equiv ==> payload_equiv) (++);
  law_push_total p s : parser_ok p ->
    exists p' o, parser_push_str p s = Some (p', o) /\ parser_ok p';
  law_finish_total p : parser_ok p ->
    exists p' o, parser_finish p = Some (p', o) /\ parser_ok p';
  law_push_nil p : parser_ok p -> parser_push_str p [] = Some (p, empty_chunk);
  law_push_app p a b p1 o1 p2 o2 : parser_ok p ->
    parser_push_str p a = Some (p1, o1) -> parser_push_str p1 b = Some (p2, o2) ->
    exists o, parser_push_str p (a ++ b) = Some (p2, o)
      /\ visible_text o = visible_text (o1 ⊕ o2)
      /\ payload_equiv (extracted o) (extracted (o1 ⊕ o2));
}.

(** Outputs that agree up to the payload equivalence. *)
Definition chunk_equiv {P T} `{StreamTextLaws P T} (a b : StreamTextChunk T) : Prop :=
  visible_text a = visible_text b /\ payload_equiv (extracted a) (extracted b).

Section laws.
Context {P T : Type} `{StreamTextLaws P T}.

#[export] Instance chunk_equiv_equivalence : Equivalence chunk_equiv.
Proof.
  split.
  - intros a. by split.
  - intros a b [H1 H2]. by split.
  - intros a b c [H1 H2] [H3 H4]. split; [congruence|by etrans].
Qed.

#[export] Instance chunk_app_proper :
  Proper (chunk_equiv ==> chunk_equiv ==> chunk_equiv) (@chunk_app T).
Proof.
  intros a a' [H1 H2] b b' [H3 H4]. split; simpl; [congruence|by rewrite H2, H4].
Qed.

Lemma law_push_app' p a b p1 o1 p2 o2 : parser_ok p ->
  parser_push_str p a = Some (p1, o1) -> parser_push_str p1 b = Some (p2, o2) ->
  exists o, parser_push_str p (a ++ b) = Some (p2, o) /\ chunk_equiv o (o1 ⊕ o2).
Proof. intros. by eapply law_push_app. Qed.

(** Feeding the pieces is feeding the whole. *)
Lemma push_all_concat cs p : parser_ok p ->
  exists p' o o', push_all p cs = Some (p', o)
    /\ parser_push_str p (concat cs) = Some (p', o')
    /\ chunk_equiv o' o /\ parser_ok p'.
Proof.
  revert p; induction cs as [|c cs IH]; intros p Hp; simpl.
  - exists p, empty_chunk, empty_chunk. rewrite law_push_nil by done. split_and!; [done|done|reflexivity|done].
  - destruct (law_push_total p c Hp) as (p1 & o1 & E1 & Hp1). rewrite E1. simpl.
    destruct (IH p1 Hp1) as (p2 & o2 & o2' & E2 & E2' & Heq & Hp2). rewrite E2. simpl.
    destruct (law_push_app' _ _ _ _ _ _ _ Hp E1 E2') as (o & E & Ho).
    exists p2, (o1 ⊕ o2), o. split_and!; try done. by rewrite Ho, Heq.
Qed.

End laws.
