(* ===== verification/InlineHiddenTag.v ===== *)
(** * utils/stream-parser: inline hidden tags

    [inline_hidden_tag.rs] and [citation.rs]: the generic parser that hides
    literal inline tags while text streams in, and its citation instance.
    The main results: the output does not depend on how the text is cut into
    chunks when no opener occurs inside another one, and then feeding any
    chunks and finishing gives the leftmost, non-nested reading of the whole
    text ([Hidden]). *)

From S2P Require Import Prelude RustStr StreamText.

Record ExtractedInlineTag (T : Type) := mkExtracted {
  extracted_tag : T;
  extracted_content : str;
}.
Arguments mkExtracted {T} _ _.
Arguments extracted_tag {T} _.
Arguments extracted_content {T} _.

Record InlineTagSpec (T : Type) := mkSpec {
  spec_tag : T;
  spec_open : str;
  spec_close : str;
}.
Arguments mkSpec {T} _ _ _.
Arguments spec_tag {T} _.
Arguments spec_open {T} _.
Arguments spec_close {T} _.

Record ActiveTag (T : Type) := mkActive {
  active_tag : T;
  active_close : str;
  active_content : str;
}.
Arguments mkActive {T} _ _ _.
Arguments active_tag {T} _.
Arguments active_close {T} _.
Arguments active_content {T} _.

Record InlineHiddenTagParser (T : Type) := mkInline {
  specs : list (InlineTagSpec T);
  pending : str;
  active : option (ActiveTag T);
}.
Arguments mkInline {T} _ _ _.
Arguments specs {T} _.
Arguments pending {T} _.
Arguments active {T} _.

(** The longest proper prefix of [needle] that is a suffix of [s]: the loop
    over [(1..=max).rev()]. *)
Fixpoint longest_from (k : nat) (s needle : str) : nat :=
  match k with
  | 0 => 0
  | S k' => if ends_with (take k needle) s then k else longest_from k' s needle
  end.

Definition longest_suffix_prefix_len (s needle : str) : nat :=
  longest_from (Nat.min (length s) (length needle - 1)) s needle.

(** Candidates [(pos, open.len(), idx)] and their order: leftmost, then
    longest, then first. *)
Definition open_cmp (a b : nat * N * nat) : comparison :=
  let '(pos_a, len_a, idx_a) := a in
  let '(pos_b, len_b, idx_b) := b in
  match Nat.compare pos_a pos_b with
  | Eq => match N.compare len_b len_a with
          | Eq => Nat.compare idx_a idx_b
          | c => c
          end
  | c => c
  end.

(** [Iterator::min_by]: the first of the least elements. *)
Definition min_by {A} (cmp : A -> A -> comparison) (l : list A) : option A :=
  match l with
  | [] => None
  | x :: l' => Some (fold_left (fun x y => match cmp x y with Gt => y | _ => x end) l' x)
  end.

(** ** The longest suffix that may start a delimiter *)

Lemma ends_with_take k n s :
  k <= length n -> k <= length s ->
  ends_with (take k n) s = true <-> drop (length s - k) s = take k n.
Proof.
  intros Hn Hs. rewrite ends_with_spec. split.
  - intros [r Hr]. rewrite Hr, length_app, length_take, Nat.min_l by lia.
    replace (length r + k - k) with (length r) by lia. by rewrite drop_app_length.
  - intros <-. exists (take (length s - k) s). by rewrite take_drop.
Qed.

Definition is_border (s n : str) (k : nat) : Prop :=
  k <= length s /\ k <= length n - 1 /\ drop (length s - k) s = take k n.

Lemma longest_from_spec m s n :
  m <= length s -> m <= length n - 1 ->
  is_border s n (longest_from m s n)
  /\ forall k, k <= m -> is_border s n k -> k <= longest_from m s n.
Proof.
  intros Hs Hn. induction m as [|m IH].
  - simpl. split; [|lia]. split_and!; [lia|lia|]. rewrite Nat.sub_0_r, drop_all. by rewrite take_0.
  - simpl longest_from. destruct (ends_with (take (S m) n) s) eqn:E.
    + apply ends_with_take in E; [|lia|lia]. split; [by split_and!|auto with lia].
    + destruct IH as [IH1 IH2]; [lia|lia|]. split; [done|].
      intros k Hk Hb. destruct (decide (k = S m)) as [->|Hne]; [|apply IH2; [lia|done]].
      destruct Hb as (? & ? & Hb). apply ends_with_take in Hb; [congruence|lia|lia].
Qed.

Lemma lsp_spec s n :
  is_border s n (longest_suffix_prefix_len s n)
  /\ forall k, is_border s n k -> k <= longest_suffix_prefix_len s n.
Proof.
  destruct (longest_from_spec (Nat.min (length s) (length n - 1)) s n) as [H1 H2]; [lia|lia|].
  split; [done|]. intros k Hk. apply H2; [|done]. destruct Hk as (? & ? & _). lia.
Qed.

Lemma lsp_le s n : longest_suffix_prefix_len s n <= length s.
Proof. by destruct (lsp_spec s n) as [(? & _) _]. Qed.

Lemma lsp_unique s n k :
  is_border s n k -> (forall k', is_border s n k' -> k' <= k) -> longest_suffix_prefix_len s n = k.
Proof.
  intros H1 H2. destruct (lsp_spec s n) as [H3 H4].
  apply H4 in H1. apply H2 in H3. lia.
Qed.

(** Cutting off what cannot start a delimiter moves no later occurrence. *)
Lemma find_shift n p q k :
  n <> [] -> find n p = None -> longest_suffix_prefix_len p n <= k <= length p ->
  find n (p ++ q) = Nat.add (length p - k) <$> find n (drop (length p - k) p ++ q).
Proof.
  intros Hn Hnone Hk. set (d := length p - k).
  assert (Hd : d <= length (p ++ q)) by (rewrite length_app; lia).
  rewrite <- drop_app_le by lia.
  assert (Hge : forall j, occurs_at n (p ++ q) j -> d <= j).
  { intros j Hj. destruct (decide (d <= j)) as [|Hlt]; [done|exfalso].
    assert (Hgt : length p < j + length n).
    { apply not_le. intros Hle. apply (proj1 (find_None _ _) Hnone j).
      by eapply occurs_at_app_inv. }
    assert (is_border p n (length p - j)) as Hb.
    { split_and!; [lia|lia|]. replace (length p - (length p - j)) with j by lia.
      eapply occurs_at_straddle; [lia|done]. }
    apply lsp_spec in Hb. lia. }
  destruct (find n (drop d (p ++ q))) as [i|] eqn:E; simpl.
  - apply find_Some in E as [E1 E2]. apply find_Some. rewrite occurs_at_drop in E1 by done.
    split; [done|]. intros j Hj. pose proof (Hge j Hj).
    assert (i <= j - d); [|lia]. apply E2. rewrite occurs_at_drop by done.
    by replace (d + (j - d)) with j by lia.
  - rewrite find_None in E |- *. intros j Hj. pose proof (Hge j Hj).
    apply (E (j - d)). rewrite occurs_at_drop by done. by replace (d + (j - d)) with j by lia.
Qed.

Lemma lsp_shift n p q k :
  longest_suffix_prefix_len p n <= k <= length p ->
  longest_suffix_prefix_len (p ++ q) n
  = longest_suffix_prefix_len (drop (length p - k) p ++ q) n.
Proof.
  intros Hk. rewrite <- drop_app_le by lia. set (d := length p - k). set (X := p ++ q).
  assert (HX : length X = length p + length q) by apply length_app.
  assert (HY : length (drop d X) = k + length q) by (rewrite length_drop; lia).
  assert (Hsub : forall j, j <= k + length q ->
    drop (length (drop d X) - j) (drop d X) = drop (length X - j) X).
  { intros j Hj. rewrite drop_drop, HY, HX. f_equal. lia. }
  destruct (lsp_spec X n) as [(H1 & H2 & H3) Hmax].
  set (m := longest_suffix_prefix_len X n) in *.
  assert (Hm : m <= k + length q).
  { destruct (decide (m <= k + length q)) as [|Hgt]; [done|exfalso].
    assert (is_border p n (m - length q)) as Hb.
    { split_and!; [lia|lia|]. unfold X in H3. rewrite length_app, drop_app_le in H3 by lia.
      apply (f_equal (take (m - length q))) in H3.
      rewrite take_take, Nat.min_l in H3 by lia. rewrite <- H3.
      replace (length p - (m - length q)) with (length p + length q - m) by lia.
      symmetry. apply take_app_length'. rewrite length_drop. lia. }
    apply lsp_spec in Hb. lia. }
  symmetry. apply lsp_unique.
  - split_and!; [lia|lia|]. by rewrite Hsub.
  - intros k' (K1 & K2 & K3). apply Hmax. rewrite HY in K1. split_and!; [lia|lia|].
    by rewrite <- Hsub by lia.
Qed.

(** ** The least candidate *)

Definition open_le (a b : nat * N * nat) : Prop :=
  a.1.1 < b.1.1 \/ a.1.1 = b.1.1 /\ ((b.1.2 < a.1.2)%N \/ a.1.2 = b.1.2 /\ a.2 <= b.2).

Lemma open_cmp_spec a b : if open_cmp a b is Gt then open_le b a else open_le a b.
Proof.
  destruct a as [[pa la] ia], b as [[pb lb] ib]. unfold open_cmp, open_le. simpl.
  destruct (Nat.compare_spec pa pb), (N.compare_spec lb la), (Nat.compare_spec ia ib); lia.
Qed.

Lemma open_fold_spec l x :
  let m := fold_left (fun x y => match open_cmp x y with Gt => y | _ => x end) l x in
  m ∈ x :: l /\ Forall (open_le m) (x :: l).
Proof.
  revert x; induction l as [|y l IH]; intros x; simpl.
  - split; [set_solver|]. apply Forall_singleton. unfold open_le. lia.
  - pose proof (open_cmp_spec x y) as Hxy. set (z := match open_cmp x y with Gt => y | _ => x end).
    destruct (IH z) as [H1 H2]. apply Forall_cons in H2 as [H2 H3].
    assert (Hz : (z = x \/ z = y) /\ open_le z x /\ open_le z y).
    { unfold z, open_le in *. destruct (open_cmp x y); cbv iota in *; (split; [auto|lia]). }
    clearbody z. destruct Hz as (Hz & Hx & Hy). split.
    { rewrite !elem_of_cons in *. naive_solver. }
    apply Forall_cons; split; [|apply Forall_cons; split; [|done]];
      unfold open_le in H2, Hx, Hy |- *; lia.
Qed.

Lemma min_by_open_spec l : match min_by open_cmp l with
  | Some m => m ∈ l /\ Forall (open_le m) l
  | None => l = []
  end.
Proof. destruct l as [|x l]; [done|]. apply open_fold_spec. Qed.

Section inline.
Context {T : Type}.
Implicit Types (p : InlineHiddenTagParser T) (sp : InlineTagSpec T)
  (act : ActiveTag T) (out : StreamTextChunk (ExtractedInlineTag T)).

(** [InlineHiddenTagParser::new]: the assertions panic. *)
Definition spec_ok sp : bool :=
  bool_decide (spec_open sp <> []) && bool_decide (spec_close sp <> []).

Definition inline_new (sps : list (InlineTagSpec T)) : option (InlineHiddenTagParser T) :=
  match sps with
  | [] => None
  | _ => if forallb spec_ok sps then Some (mkInline sps [] None) else None
  end.

Definition open_candidates p : list (nat * N * nat) :=
  omap (fun '(idx, sp) =>
          match find (spec_open sp) (pending p) with
          | Some pos => Some (pos, len (spec_open sp), idx)
          | None => None
          end)
       (imap (fun idx sp => (idx, sp)) (specs p)).

Definition find_next_open p : option (nat * nat) :=
  match min_by open_cmp (open_candidates p) with
  | Some (pos, _, idx) => Some (pos, idx)
  | None => None
  end.

Definition max_open_prefix_suffix_len p : nat :=
  list_max (map (fun sp => longest_suffix_prefix_len (pending p) (spec_open sp)) (specs p)).

Definition push_visible_prefix out (text : str) : StreamTextChunk (ExtractedInlineTag T) :=
  if bool_decide (text = []) then out else mkChunk (visible_text out ++ text) (extracted out).

Definition drain_visible_to_suffix_match p out (keep_suffix_len : nat)
    : InlineHiddenTagParser T * StreamTextChunk (ExtractedInlineTag T) :=
  let n := length (pending p) - keep_suffix_len in
  if n =? 0 then (p, out)
  else (mkInline (specs p) (drop n (pending p)) (active p),
        push_visible_prefix out (take n (pending p))).

(** The [loop] of [push_str]; [None] when the fuel runs out or an index
    panics. *)
Fixpoint inline_loop (fuel : nat) p out
    : option (InlineHiddenTagParser T * StreamTextChunk (ExtractedInlineTag T)) :=
  match fuel with
  | 0 => None
  | S fuel' =>
      match active p with
      | Some act =>
          let close := active_close act in
          match find close (pending p) with
          | Some close_idx =>
              inline_loop fuel'
                (mkInline (specs p) (drop (close_idx + length close) (pending p)) None)
                (mkChunk (visible_text out)
                   (extracted out ++
                    [mkExtracted (active_tag act)
                       (active_content act ++ take close_idx (pending p))]))
          | None =>
              let keep := longest_suffix_prefix_len (pending p) close in
              let n := length (pending p) - keep in
              if 0 <? n then
                Some (mkInline (specs p) (drop n (pending p))
                        (Some (mkActive (active_tag act) close
                                 (active_content act ++ take n (pending p)))),
                      out)
              else Some (p, out)
          end
      | None =>
          match find_next_open p with
          | Some (open_idx, spec_idx) =>
              match specs p !! spec_idx with
              | Some sp =>
                  inline_loop fuel'
                    (mkInline (specs p) (drop (open_idx + length (spec_open sp)) (pending p))
                       (Some (mkActive (spec_tag sp) (spec_close sp) [])))
                    (push_visible_prefix out (take open_idx (pending p)))
              | None => None
              end
          | None =>
              Some (drain_visible_to_suffix_match p out (max_open_prefix_suffix_len p))
          end
      end
  end.

(** Every [continue] drains a non-empty delimiter, so one iteration per
    character and a last one are enough. *)
Definition inline_push_str p (chunk : str)
    : option (InlineHiddenTagParser T * StreamTextChunk (ExtractedInlineTag T)) :=
  let p' := mkInline (specs p) (pending p ++ chunk) (active p) in
  inline_loop (S (length (pending p'))) p' empty_chunk.

Definition inline_finish p
    : InlineHiddenTagParser T * StreamTextChunk (ExtractedInlineTag T) :=
  match active p with
  | Some act =>
      (mkInline (specs p) [] None,
       mkChunk [] [mkExtracted (active_tag act) (active_content act ++ pending p)])
  | None => (mkInline (specs p) [] None, mkChunk (pending p) [])
  end.

#[export] Instance inline_stream_parser :
    StreamTextParser (InlineHiddenTagParser T) (ExtractedInlineTag T) := {
  parser_push_str := inline_push_str;
  parser_finish := fun p => Some (inline_finish p);
}.

(** No opener occurs strictly before the last character of another one. *)
Definition openers_ok (sps : list (InlineTagSpec T)) : bool :=
  forallb (fun a =>
    forallb (fun b => negb (contains (spec_open a) (removelast (spec_open b)))) sps) sps.

(** ** The next opener *)

Lemma open_candidates_spec p pos l idx :
  (pos, l, idx) ∈ open_candidates p <->
  exists sp, specs p !! idx = Some sp /\ find (spec_open sp) (pending p) = Some pos
    /\ l = len (spec_open sp).
Proof.
  unfold open_candidates. rewrite list_elem_of_omap. split.
  - intros ([i sp] & H1 & H2). apply elem_of_lookup_imap in H1 as (j & y & Hj & Hl).
    simplify_eq. case_match eqn:E; simplify_eq. eauto.
  - intros (sp & H1 & H2 & ->). exists (idx, sp). split.
    + apply elem_of_lookup_imap. eauto.
    + by rewrite H2.
Qed.

Lemma find_next_open_Some p pos idx :
  find_next_open p = Some (pos, idx) <->
  exists sp, specs p !! idx = Some sp /\ find (spec_open sp) (pending p) = Some pos
    /\ forall idx' sp' pos', specs p !! idx' = Some sp' ->
         find (spec_open sp') (pending p) = Some pos' ->
         open_le (pos, len (spec_open sp), idx) (pos', len (spec_open sp'), idx').
Proof.
  unfold find_next_open. pose proof (min_by_open_spec (open_candidates p)) as Hm.
  destruct (min_by open_cmp (open_candidates p)) as [[[pos0 l0] idx0]|].
  - destruct Hm as [Hin Hall]. rewrite Forall_forall in Hall. split.
    + intros; simplify_eq. apply open_candidates_spec in Hin as (sp & H1 & H2 & ->).
      exists sp. split_and!; try done. intros idx' sp' pos' H3 H4. apply Hall.
      apply open_candidates_spec. eauto.
    + intros (sp & H1 & H2 & H3).
      assert (Hc : (pos, len (spec_open sp), idx) ∈ open_candidates p)
        by (apply open_candidates_spec; eauto).
      apply Hall in Hc. apply open_candidates_spec in Hin as (sp0 & K1 & K2 & ->).
      pose proof (H3 _ _ _ K1 K2) as Hc'. unfold open_le in Hc, Hc'. simpl in *.
      f_equal. f_equal; lia.
  - split; [done|]. intros (sp & H1 & H2 & _).
    assert (Hc : (pos, len (spec_open sp), idx) ∈ open_candidates p)
      by (apply open_candidates_spec; eauto). rewrite Hm in Hc. set_solver.
Qed.

Lemma find_next_open_None p :
  find_next_open p = None <-> Forall (fun sp => find (spec_open sp) (pending p) = None) (specs p).
Proof.
  unfold find_next_open. pose proof (min_by_open_spec (open_candidates p)) as Hm.
  rewrite Forall_forall. destruct (min_by open_cmp (open_candidates p)) as [[[pos l] idx]|].
  - destruct Hm as [Hin _]. apply open_candidates_spec in Hin as (sp & H1 & H2 & ->).
    split; [done|]. intros H. apply list_elem_of_lookup_2 in H1. apply H in H1. congruence.
  - split; [|done]. intros _ sp Hsp. apply list_elem_of_lookup_1 in Hsp as [idx Hidx].
    destruct (find (spec_open sp) (pending p)) as [pos|] eqn:E; [|done].
    assert (Hc : (pos, len (spec_open sp), idx) ∈ open_candidates p)
      by (apply open_candidates_spec; eauto). rewrite Hm in Hc. set_solver.
Qed.

(** Later text does not change the next opener once one is complete. *)
Lemma find_next_open_app sps s q oact r :
  openers_ok sps = true ->
  find_next_open (mkInline sps s oact) = Some r ->
  find_next_open (mkInline sps (s ++ q) oact) = Some r.
Proof.
  intros Hok. destruct r as [pos idx]. rewrite !find_next_open_Some. simpl.
  intros (sp & H1 & H2 & H3). exists sp. split_and!; [done|by apply find_app_l|].
  intros idx' sp' pos' K1 K2. destruct (find (spec_open sp') s) as [pos0|] eqn:F.
  { apply (find_app_l _ _ q) in F as F'. simplify_eq. by eapply H3. }
  left. simpl. apply find_Some in H2 as [[A1 A2] _].
  apply find_Some in K2 as [K2 _]. apply not_ge. intros Hle.
  assert (Hgt : length s < pos' + length (spec_open sp')).
  { apply not_le. intros C. apply (proj1 (find_None _ _) F pos'). by eapply occurs_at_app_inv. }
  unfold openers_ok in Hok. rewrite forallb_forall in Hok.
  pose proof (Hok sp (proj1 (list_elem_of_In _ _) (list_elem_of_lookup_2 _ _ _ H1))) as Hb.
  rewrite forallb_forall in Hb.
  specialize (Hb sp' (proj1 (list_elem_of_In _ _) (list_elem_of_lookup_2 _ _ _ K1))).
  apply negb_true_iff in Hb. unfold contains in Hb. case_match eqn:E; [done|].
  rewrite find_None in E. apply (E (pos - pos')). clear E Hb.
  destruct K2 as [K2 K3]. rewrite removelast_firstn_len. split.
  - rewrite length_take. lia.
  - rewrite skipn_firstn_comm.
    rewrite take_take, Nat.min_l by lia.
    rewrite <- K3, skipn_firstn_comm, drop_drop, take_take, Nat.min_l by lia.
    replace (pos' + (pos - pos')) with pos by lia.
    rewrite drop_app_le, take_app_le by (rewrite ?length_drop; lia). done.
Qed.

(** ** The loop *)

Definition inline_wf p : Prop :=
  forallb spec_ok (specs p) = true
  /\ forall act, active p = Some act -> active_close act <> [].

Lemma spec_ok_lookup sps idx sp :
  forallb spec_ok sps = true -> sps !! idx = Some sp -> spec_open sp <> [] /\ spec_close sp <> [].
Proof.
  rewrite forallb_forall. intros H Hl. apply list_elem_of_lookup_2, list_elem_of_In in Hl.
  apply H, andb_true_iff in Hl as [H1 H2]. by rewrite !bool_decide_eq_true in *.
Qed.

Lemma inline_wf_open sps sp s idx :
  forallb spec_ok sps = true -> sps !! idx = Some sp ->
  inline_wf (mkInline sps s (Some (mkActive (spec_tag sp) (spec_close sp) []))).
Proof.
  intros H Hl. split; [done|]. simpl. intros act ?; simplify_eq. simpl. by eapply spec_ok_lookup.
Qed.

Lemma length_nonempty (s : str) : s <> [] -> 0 < length s.
Proof. destruct s; simpl; [done|lia]. Qed.

Lemma find_bound n s i : find n s = Some i -> i + length n <= length s.
Proof. rewrite find_Some. by intros [[? _] _]. Qed.

Lemma find_next_open_bound p i idx sp :
  inline_wf p -> find_next_open p = Some (i, idx) -> specs p !! idx = Some sp ->
  find (spec_open sp) (pending p) = Some i /\ spec_open sp <> [].
Proof.
  intros [Hw _] H Hl. apply find_next_open_Some in H as (sp' & H1 & H2 & _). simplify_eq.
  split; [done|]. by eapply spec_ok_lookup.
Qed.

Lemma push_visible_prefix_eq out t :
  push_visible_prefix out t = mkChunk (visible_text out ++ t) (extracted out).
Proof.
  unfold push_visible_prefix. case_bool_decide; [subst|done]. destruct out. simpl.
  by rewrite app_nil_r.
Qed.

Lemma drain_eq p out k :
  drain_visible_to_suffix_match p out k
  = let n := length (pending p) - k in
    (mkInline (specs p) (drop n (pending p)) (active p),
     mkChunk (visible_text out ++ take n (pending p)) (extracted out)).
Proof.
  unfold drain_visible_to_suffix_match. case_match eqn:E.
  - apply Nat.eqb_eq in E. destruct p, out. simpl in *. by rewrite E, drop_0, take_0, app_nil_r.
  - by rewrite push_visible_prefix_eq.
Qed.

(** With enough fuel the amount does not matter. *)
Lemma inline_loop_fuel n m p out :
  inline_wf p -> length (pending p) < n -> length (pending p) < m ->
  inline_loop n p out = inline_loop m p out.
Proof.
  revert m p out; induction n as [|n IH]; intros m p out Hwf Hn Hm; [lia|].
  destruct m as [|m]; [lia|]. simpl. destruct (active p) as [act|] eqn:Ha.
  - destruct (find _ _) as [i|] eqn:F; [|done]. apply find_bound in F.
    apply Hwf in Ha. apply length_nonempty in Ha.
    apply IH; [split; [apply Hwf|done]|..]; simpl; rewrite length_drop; lia.
  - destruct (find_next_open p) as [[i idx]|] eqn:F; [|done].
    destruct (specs p !! idx) as [sp|] eqn:El; [|done].
    destruct (find_next_open_bound _ _ _ _ Hwf F El) as [B1 B2]. apply find_bound in B1.
    apply length_nonempty in B2.
    apply IH; [eapply inline_wf_open; [apply Hwf|done]|..]; simpl; rewrite length_drop; lia.
Qed.

Definition inline_run p out := inline_loop (S (length (pending p))) p out.

(** The loop body as an equation. *)
Lemma inline_run_eq p out : inline_wf p ->
  inline_run p out =
  match active p with
  | Some act =>
      match find (active_close act) (pending p) with
      | Some i =>
          inline_run (mkInline (specs p) (drop (i + length (active_close act)) (pending p)) None)
            (mkChunk (visible_text out)
               (extracted out ++ [mkExtracted (active_tag act)
                                    (active_content act ++ take i (pending p))]))
      | None =>
          let n := length (pending p)
                   - longest_suffix_prefix_len (pending p) (active_close act) in
          Some (mkInline (specs p) (drop n (pending p))
                  (Some (mkActive (active_tag act) (active_close act)
                           (active_content act ++ take n (pending p)))), out)
      end
  | None =>
      match find_next_open p with
      | Some (i, idx) =>
          match specs p !! idx with
          | Some sp =>
              inline_run (mkInline (specs p) (drop (i + length (spec_open sp)) (pending p))
                            (Some (mkActive (spec_tag sp) (spec_close sp) [])))
                (mkChunk (visible_text out ++ take i (pending p)) (extracted out))
          | None => None
          end
      | None =>
          let n := length (pending p) - max_open_prefix_suffix_len p in
          Some (mkInline (specs p) (drop n (pending p)) None,
                mkChunk (visible_text out ++ take n (pending p)) (extracted out))
      end
  end.
Proof.
  intros Hwf. unfold inline_run at 1. cbn [inline_loop].
  destruct (active p) as [act|] eqn:Ha.
  - destruct (find _ _) as [i|] eqn:F.
    + apply find_bound in F. apply Hwf, length_nonempty in Ha.
      apply inline_loop_fuel; [split; [apply Hwf|done]|..]; simpl; rewrite length_drop; lia.
    + simpl. case_match eqn:E; [done|]. apply Nat.ltb_ge in E.
      assert (E' : length (pending p) - longest_suffix_prefix_len (pending p) (active_close act) = 0)
        by lia.
      rewrite E', drop_0, take_0, app_nil_r. destruct p, act. simpl in *. by subst.
  - destruct (find_next_open p) as [[i idx]|] eqn:F.
    + destruct (specs p !! idx) as [sp|] eqn:El; [|done].
      destruct (find_next_open_bound _ _ _ _ Hwf F El) as [B1 B2]. apply find_bound in B1.
      apply length_nonempty in B2. rewrite push_visible_prefix_eq.
      apply inline_loop_fuel; [eapply inline_wf_open; [apply Hwf|done]|..]; simpl;
        rewrite length_drop; lia.
    + by rewrite drain_eq, Ha.
Qed.

(** Induction along the iterations. *)
Lemma inline_run_ind (Q : InlineHiddenTagParser T -> Prop) :
  (forall p, inline_wf p ->
    (forall act i, active p = Some act -> find (active_close act) (pending p) = Some i ->
       Q (mkInline (specs p) (drop (i + length (active_close act)) (pending p)) None)) ->
    (forall i idx sp, active p = None -> find_next_open p = Some (i, idx) ->
       specs p !! idx = Some sp ->
       Q (mkInline (specs p) (drop (i + length (spec_open sp)) (pending p))
            (Some (mkActive (spec_tag sp) (spec_close sp) [])))) ->
    Q p) ->
  forall p, inline_wf p -> Q p.
Proof.
  intros HQ p. induction p as [p IH] using (well_founded_induction (well_founded_ltof _ (fun p => length (pending p)))).
  intros Hwf. apply HQ; [done|..].
  - intros act i Ha F. apply IH; [|split; [apply Hwf|done]]. unfold ltof. simpl.
    apply find_bound in F. apply Hwf, length_nonempty in Ha. rewrite length_drop. lia.
  - intros i idx sp Ha F El. destruct (find_next_open_bound _ _ _ _ Hwf F El) as [B1 B2].
    apply find_bound in B1. apply length_nonempty in B2.
    apply IH; [|eapply inline_wf_open; [apply Hwf|done]]. unfold ltof. simpl.
    rewrite length_drop. lia.
Qed.

Lemma find_next_open_lookup p i idx :
  find_next_open p = Some (i, idx) -> is_Some (specs p !! idx).
Proof. intros H. apply find_next_open_Some in H as (sp & H & _). eauto. Qed.

(** The loop returns, keeps the tags and only appends to its output. *)
Lemma inline_run_total p : inline_wf p ->
  exists p' o, inline_wf p' /\ specs p' = specs p
    /\ forall out, inline_run p out = Some (p', out ⊕ o).
Proof.
  revert p. apply inline_run_ind. intros p Hwf IH1 IH2.
  setoid_rewrite inline_run_eq; [|done].
  destruct (active p) as [act|] eqn:Ha.
  - destruct (find _ _) as [i|] eqn:F.
    + destruct (IH1 _ _ eq_refl F) as (p' & o & H1 & H2 & H3).
      exists p', (mkChunk [] [mkExtracted (active_tag act)
                                (active_content act ++ take i (pending p))] ⊕ o).
      split_and!; [done|done|]. intros out. rewrite H3, <- chunk_app_assoc.
      unfold chunk_app at 3. simpl. by rewrite app_nil_r.
    + eexists _, empty_chunk. split_and!; [| |intros out; by rewrite chunk_app_nil_r]; [|done].
      split; [apply Hwf|]. simpl. intros ? [= <-]. simpl. by apply Hwf.
  - destruct (find_next_open p) as [[i idx]|] eqn:F.
    + destruct (find_next_open_lookup _ _ _ F) as [sp El]. rewrite El.
      destruct (IH2 _ _ _ eq_refl eq_refl El) as (p' & o & H1 & H2 & H3).
      exists p', (mkChunk (take i (pending p)) [] ⊕ o).
      split_and!; [done|done|]. intros out. rewrite H3, <- chunk_app_assoc.
      unfold chunk_app at 3. simpl. by rewrite app_nil_r.
    + eexists _, (mkChunk (take (length (pending p) - max_open_prefix_suffix_len p) (pending p)) []).
      split_and!; [| |intros out; unfold chunk_app; simpl; by rewrite app_nil_r]; [|done].
      split; [apply Hwf|done].
Qed.

Definition add_pending p (q : str) := mkInline (specs p) (pending p ++ q) (active p).

Lemma add_pending_wf p q : inline_wf p -> inline_wf (add_pending p q).
Proof. done. Qed.

(** Breaking out inside a tag keeps what a later closer needs. *)
Lemma inline_break_active p act q out :
  inline_wf p -> active p = Some act -> find (active_close act) (pending p) = None ->
  let n := length (pending p) - longest_suffix_prefix_len (pending p) (active_close act) in
  inline_run (add_pending p q) out
  = inline_run (mkInline (specs p) (drop n (pending p) ++ q)
      (Some (mkActive (active_tag act) (active_close act)
               (active_content act ++ take n (pending p))))) out.
Proof.
  intros Hwf Ha F n. set (c := active_close act) in *.
  assert (Hc : c <> []) by by apply Hwf.
  rewrite (inline_run_eq (add_pending p q)) by done. cbn [add_pending active pending specs].
  rewrite Ha. rewrite inline_run_eq.
  2:{ split; [apply Hwf|]. simpl. by intros ? [= <-]. }
  cbn [active active_close active_tag active_content pending specs].
  pose proof (lsp_le (pending p) c). fold c.
  rewrite (find_shift c (pending p) q (longest_suffix_prefix_len (pending p) c)) by (done || lia).
  rewrite (lsp_shift c (pending p) q (longest_suffix_prefix_len (pending p) c)) by lia.
  fold n. assert (Hn : n <= length (pending p)) by lia.
  rewrite <- (drop_app_le _ q n) by done. set (X := pending p ++ q).
  assert (Ht : take n (pending p) = take n X) by (unfold X; by rewrite take_app_le).
  rewrite Ht. destruct (find c (drop n X)) as [i|] eqn:E; simpl.
  - rewrite drop_drop, <- app_assoc, take_take_drop. by rewrite Nat.add_assoc.
  - rewrite <- app_assoc, drop_drop, take_take_drop, length_drop.
    pose proof (lsp_le (drop n X) c). rewrite length_drop in *.
    assert (n <= length X) by (unfold X; rewrite length_app; lia).
    by replace (n + (length X - n - longest_suffix_prefix_len (drop n X) c))
      with (length X - longest_suffix_prefix_len (drop n X) c) by lia.
Qed.

Lemma max_open_le p : max_open_prefix_suffix_len p <= length (pending p).
Proof.
  unfold max_open_prefix_suffix_len. apply list_max_le, List.Forall_map, List.Forall_forall.
  intros sp _. apply lsp_le.
Qed.

Lemma max_open_ge p sp : sp ∈ specs p ->
  longest_suffix_prefix_len (pending p) (spec_open sp) <= max_open_prefix_suffix_len p.
Proof.
  intros H. pose proof (proj1 (list_max_le _ (max_open_prefix_suffix_len p)) (le_n _)) as Hall.
  rewrite List.Forall_map, List.Forall_forall in Hall. apply Hall. by apply list_elem_of_In.
Qed.

(** Breaking out of a tag, per opener and together. *)
Lemma open_shift p q sp :
  inline_wf p -> find_next_open p = None -> sp ∈ specs p ->
  let n := length (pending p) - max_open_prefix_suffix_len p in
  find (spec_open sp) (pending p ++ q)
  = Nat.add n <$> find (spec_open sp) (drop n (pending p) ++ q)
  /\ longest_suffix_prefix_len (pending p ++ q) (spec_open sp)
     = longest_suffix_prefix_len (drop n (pending p) ++ q) (spec_open sp).
Proof.
  intros [Hwf _] F Hin n. apply find_next_open_None in F. rewrite Forall_forall in F.
  pose proof (max_open_ge p sp Hin). pose proof (max_open_le p). split.
  - apply find_shift; [|by apply F|lia].
    apply list_elem_of_lookup_1 in Hin as [idx Hin]. by eapply spec_ok_lookup.
  - apply lsp_shift. lia.
Qed.

Lemma find_next_open_shift p q :
  inline_wf p -> active p = None -> find_next_open p = None ->
  let n := length (pending p) - max_open_prefix_suffix_len p in
  find_next_open (add_pending p q)
  = prod_map (Nat.add n) id <$> find_next_open (mkInline (specs p) (drop n (pending p) ++ q) None).
Proof.
  intros Hwf Ha F n.
  destruct (find_next_open (mkInline (specs p) (drop n (pending p) ++ q) None))
    as [[i idx]|] eqn:E; simpl.
  - apply find_next_open_Some in E as (sp & H1 & H2 & H3). simpl in *.
    apply find_next_open_Some. exists sp. simpl. split; [done|].
    destruct (open_shift p q sp Hwf F) as [S1 _]; [by eapply list_elem_of_lookup_2|].
    rewrite S1. fold n. rewrite H2. split; [done|]. intros idx' sp' i' K1 K2.
    destruct (open_shift p q sp' Hwf F) as [S2 _]; [by eapply list_elem_of_lookup_2|].
    rewrite S2 in K2. fold n in K2.
    destruct (find (spec_open sp') (drop n (pending p) ++ q)) as [j|] eqn:Ej; simplify_eq/=.
    specialize (H3 _ _ _ K1 Ej). unfold open_le in *. simpl in *. lia.
  - rewrite find_next_open_None in E |- *. simpl in *. rewrite Forall_forall in E |- *.
    intros sp Hsp. destruct (open_shift p q sp Hwf F Hsp) as [S1 _]. rewrite S1. fold n.
    by rewrite E.
Qed.

Lemma inline_break_open p q out :
  inline_wf p -> active p = None -> find_next_open p = None ->
  let n := length (pending p) - max_open_prefix_suffix_len p in
  inline_run (add_pending p q) out
  = inline_run (mkInline (specs p) (drop n (pending p) ++ q) None)
      (mkChunk (visible_text out ++ take n (pending p)) (extracted out)).
Proof.
  intros Hwf Ha F n. rewrite (inline_run_eq (add_pending p q)) by done.
  rewrite inline_run_eq by (split; [apply Hwf|done]).
  rewrite find_next_open_shift by done. fold n. cbn [add_pending active pending specs].
  rewrite Ha. assert (Hn : n <= length (pending p)) by lia.
  assert (Hm : max_open_prefix_suffix_len (add_pending p q)
    = max_open_prefix_suffix_len (mkInline (specs p) (drop n (pending p) ++ q) None)).
  { unfold max_open_prefix_suffix_len. simpl. f_equal. apply map_ext_in. intros sp Hsp.
    apply list_elem_of_In in Hsp. by apply (open_shift p q sp). }
  pose proof (max_open_le (mkInline (specs p) (drop n (pending p) ++ q) None)) as Hle.
  simpl pending in Hle.
  rewrite Hm. rewrite <- (drop_app_le _ q n) in * by done. set (X := pending p ++ q) in *.
  assert (Ht : take n (pending p) = take n X) by (unfold X; by rewrite take_app_le).
  rewrite Ht.
  destruct (find_next_open (mkInline (specs p) (drop n X) None)) as [[i idx]|] eqn:E; simpl.
  - destruct (specs p !! idx) as [sp|]; [|done].
    by rewrite drop_drop, <- app_assoc, take_take_drop, Nat.add_assoc.
  - rewrite <- app_assoc, drop_drop, take_take_drop. rewrite length_drop in *.
    assert (n <= length X) by (unfold X; rewrite length_app; lia).
    set (k := max_open_prefix_suffix_len (mkInline (specs p) (drop n X) None)) in *.
    clearbody k n.
    by replace (n + (length X - n - k)) with (length X - k) by lia.
Qed.

(** Text that arrives later continues from where the loop stopped. *)
Lemma inline_run_app p : inline_wf p -> openers_ok (specs p) = true ->
  forall q out p' out', inline_run p out = Some (p', out') ->
  inline_run (add_pending p q) out = inline_run (add_pending p' q) out'.
Proof.
  intros Hp. pattern p. revert p Hp. apply inline_run_ind.
  intros p Hwf IH1 IH2 Hok q out p' out' H. rewrite inline_run_eq in H by done.
  destruct (active p) as [act|] eqn:Ha.
  - destruct (find (active_close act) (pending p)) as [i|] eqn:F.
    + specialize (IH1 _ _ eq_refl F Hok q _ _ _ H). rewrite <- IH1.
      rewrite (inline_run_eq (add_pending p q)) by done. cbn [add_pending active pending specs].
      rewrite Ha, (find_app_l _ _ q _ F). apply find_bound in F.
      by rewrite drop_app_le, take_app_le by lia.
    + simplify_eq/=. by rewrite (inline_break_active p act).
  - destruct (find_next_open p) as [[i idx]|] eqn:F.
    + destruct (specs p !! idx) as [sp|] eqn:El; [|done].
      specialize (IH2 _ _ _ eq_refl eq_refl El Hok q _ _ _ H). rewrite <- IH2.
      destruct (find_next_open_bound _ _ _ _ Hwf F El) as [B1 _]. apply find_bound in B1.
      rewrite (inline_run_eq (add_pending p q)) by done.
      destruct p as [sps pend oact]. simpl in *. subst oact.
      unfold add_pending. cbn [active pending specs].
      rewrite (find_next_open_app _ _ q _ _ Hok F).
      rewrite El, drop_app_le, take_app_le by lia. done.
    + simplify_eq/=. by rewrite (inline_break_open p q).
Qed.

(** ** The interface *)

(** A parser between two calls: nothing more can be decided. *)
Definition inline_ok p : Prop :=
  inline_wf p /\ openers_ok (specs p) = true /\ inline_run p empty_chunk = Some (p, empty_chunk).

Lemma add_pending_nil p : add_pending p [] = p.
Proof. destruct p. unfold add_pending. simpl. by rewrite app_nil_r. Qed.

Lemma inline_push_run p s : inline_push_str p s = inline_run (add_pending p s) empty_chunk.
Proof. done. Qed.

Lemma inline_run_split p p' o out :
  inline_wf p -> inline_run p empty_chunk = Some (p', o) ->
  inline_run p out = Some (p', out ⊕ o).
Proof.
  intros Hwf H. destruct (inline_run_total p Hwf) as (p1 & o1 & _ & _ & E).
  rewrite E in H |- *. simplify_eq. by rewrite chunk_app_nil_l.
Qed.

Lemma inline_run_settles p p' o :
  inline_wf p -> openers_ok (specs p) = true -> inline_run p empty_chunk = Some (p', o) ->
  inline_ok p'.
Proof.
  intros Hwf Hok H. destruct (inline_run_total p Hwf) as (p1 & o1 & Hwf1 & Hs & E).
  pose proof (inline_run_app p Hwf Hok [] _ _ _ H) as Happ.
  rewrite !add_pending_nil in Happ. rewrite E in H. simplify_eq.
  split_and!; [done|by rewrite Hs|].
  destruct (inline_run_total p' Hwf1) as (p2 & o2 & _ & _ & E2).
  rewrite E, E2, chunk_app_nil_l in Happ. rewrite E2, chunk_app_nil_l. simplify_eq.
  destruct o1 as [v e], o2 as [v2 e2]. unfold chunk_app in *. simplify_eq/=.
  repeat match goal with H : ?a = ?a ++ ?b |- _ =>
    rewrite <- (app_nil_r a) in H at 1; apply app_inv_head in H end. by subst.
Qed.

Lemma inline_start_ok sps :
  forallb spec_ok sps = true -> openers_ok sps = true -> inline_ok (mkInline sps [] None).
Proof.
  intros Hw Hok. split_and!; [by split|done|].
  rewrite inline_run_eq by by split. simpl.
  assert (find_next_open (mkInline sps [] None) = None) as ->; [|done].
  apply find_next_open_None, Forall_forall. cbn [specs pending]. intros sp Hsp. apply find_None.
  intros j [H _]. apply list_elem_of_lookup_1 in Hsp as [idx Hsp].
  destruct (spec_ok_lookup _ _ _ Hw Hsp) as [Hne _]. apply length_nonempty in Hne. simpl in H. lia.
Qed.

#[export] Program Instance inline_stream_laws :
    StreamTextLaws (InlineHiddenTagParser T) (ExtractedInlineTag T) := {
  parser_ok := inline_ok;
  payload_equiv := eq;
}.
Next Obligation.
  simpl. intros p s (Hwf & Hok & _). rewrite inline_push_run.
  destruct (inline_run_total (add_pending p s) Hwf) as (p' & o & _ & _ & E).
  exists p', (empty_chunk ⊕ o). split; [done|].
  exact (inline_run_settles (add_pending p s) _ _ Hwf Hok (E _)).
Qed.
Next Obligation.
  simpl. intros p ([Hw _] & Hok & _). destruct (inline_finish p) as [p' o] eqn:E.
  exists p', o. split; [done|]. unfold inline_finish in E.
  case_match; simplify_eq; by apply inline_start_ok.
Qed.
Next Obligation.
  simpl. intros p (_ & _ & H). by rewrite inline_push_run, add_pending_nil.
Qed.
Next Obligation.
  simpl. intros p a b p1 o1 p2 o2 (Hwf & Hok & _). rewrite !inline_push_run. intros H1 H2.
  exists (o1 ⊕ o2). split; [|done].
  assert (add_pending p (a ++ b) = add_pending (add_pending p a) b) as ->.
  { unfold add_pending. simpl. by rewrite app_assoc. }
  rewrite (inline_run_app (add_pending p a) Hwf Hok b _ _ _ H1).
  apply inline_run_split; [|done].
  by destruct (inline_run_settles _ _ _ (add_pending_wf p a Hwf) Hok H1) as [? _].
Qed.

(** ** The specification: the leftmost, non-nested reading of a whole text *)

(** [s] is [v], the chosen opener of [sp] and [rest]: no opener starts
    earlier, none that starts there is longer, and [sp] is the first one
    with that opener. *)
Definition first_opener (sps : list (InlineTagSpec T)) (s v : str) sp (rest : str) : Prop :=
  s = v ++ spec_open sp ++ rest
  /\ (forall sp' j, sp' ∈ sps -> occurs_at (spec_open sp') s j ->
       length v < j \/ length v = j /\ (len (spec_open sp') <= len (spec_open sp))%N)
  /\ exists l1 l2, sps = l1 ++ sp :: l2 /\ Forall (fun sp' => spec_open sp' <> spec_open sp) l1.

Definition absent (n s : str) : Prop := forall j, ~ occurs_at n s j.

(** [body] ends at the first closer. *)
Definition first_close (c s body rest : str) : Prop :=
  s = body ++ c ++ rest /\ forall j, occurs_at c s j -> length body <= j.

Inductive Hidden (sps : list (InlineTagSpec T))
    : str -> str -> list (ExtractedInlineTag T) -> Prop :=
| Hidden_none s :
    (forall sp, sp ∈ sps -> absent (spec_open sp) s) -> Hidden sps s s []
| Hidden_tag s v sp s' body rest vis ext :
    first_opener sps s v sp s' -> first_close (spec_close sp) s' body rest ->
    Hidden sps rest vis ext ->
    Hidden sps s (v ++ vis) (mkExtracted (spec_tag sp) body :: ext)
| Hidden_unclosed s v sp body :
    first_opener sps s v sp body -> absent (spec_close sp) body ->
    Hidden sps s v [mkExtracted (spec_tag sp) body].

Lemma find_next_open_first p i idx sp :
  find_next_open p = Some (i, idx) -> specs p !! idx = Some sp ->
  first_opener (specs p) (pending p) (take i (pending p)) sp
    (drop (i + length (spec_open sp)) (pending p)).
Proof.
  intros F El. apply find_next_open_Some in F as (sp0 & H1 & H2 & H3). simplify_eq.
  apply find_Some in H2 as [H2 H2']. pose proof H2 as [Hb _].
  assert (Hi : length (take i (pending p)) = i) by (rewrite length_take; lia).
  split_and!; [by apply occurs_at_split|..].
  - rewrite Hi. intros sp' j Hsp Hj. apply list_elem_of_lookup_1 in Hsp as [idx' Hl].
    destruct (find (spec_open sp') (pending p)) as [j'|] eqn:E.
    + specialize (H3 _ _ _ Hl E). apply find_Some in E as [_ E]. apply E in Hj.
      unfold open_le in H3. simpl in H3. lia.
    + rewrite find_None in E. by apply E in Hj.
  - exists (take idx (specs p)), (drop (S idx) (specs p)). split; [by rewrite take_drop_middle|].
    apply Forall_lookup. intros idx' sp' Hl Heq. apply lookup_take_Some in Hl as [Hl Hlt].
    assert (find (spec_open sp') (pending p) = Some i) as E by (rewrite Heq; by apply find_Some).
    specialize (H3 _ _ _ Hl E). unfold open_le in H3. simpl in H3. rewrite Heq in H3. lia.
Qed.

Lemma find_first_close c s i :
  find c s = Some i -> first_close c s (take i s) (drop (i + length c) s).
Proof.
  intros F. apply find_Some in F as [H1 H2]. split; [by apply occurs_at_split|].
  rewrite length_take. intros j Hj. apply H2 in Hj. lia.
Qed.

(** What is produced from [p] when no more text comes. *)
Definition closing_output p o : StreamTextChunk (ExtractedInlineTag T) := o ⊕ (inline_finish p).2.

(** Output of a parser inside a tag: the tag is closed somewhere in the
    pending text, or it is closed by the end of the stream. *)
Definition reads_inside p act (r : StreamTextChunk (ExtractedInlineTag T)) : Prop :=
  (exists body rest vis ext, first_close (active_close act) (pending p) body rest
     /\ Hidden (specs p) rest vis ext
     /\ r = mkChunk vis (mkExtracted (active_tag act) (active_content act ++ body) :: ext))
  \/ absent (active_close act) (pending p)
     /\ r = mkChunk [] [mkExtracted (active_tag act) (active_content act ++ pending p)].

Lemma inline_run_hidden p : inline_wf p -> forall p' o,
  inline_run p empty_chunk = Some (p', o) ->
  match active p with
  | None => Hidden (specs p) (pending p)
              (visible_text (closing_output p' o)) (extracted (closing_output p' o))
  | Some act => reads_inside p act (closing_output p' o)
  end.
Proof.
  intros Hp. pattern p. revert p Hp. apply inline_run_ind.
  intros p Hwf IH1 IH2 p' o H. rewrite inline_run_eq in H by done.
  destruct (active p) as [act|] eqn:Ha.
  - destruct (find (active_close act) (pending p)) as [i|] eqn:F.
    + match type of H with inline_run ?x _ = _ =>
        destruct (inline_run_total x) as (p1 & o1 & _ & _ & E); [split; [apply Hwf|done]|] end.
      specialize (IH1 _ _ eq_refl F _ _ (E _)). rewrite E in H. simplify_eq.
      rewrite chunk_app_nil_l in IH1. cbn [active specs pending] in IH1. left. eexists _, _, _, _.
      split_and!; [by apply find_first_close|exact IH1|]. unfold closing_output.
      rewrite chunk_app_assoc. by unfold chunk_app at 1.
    + simplify_eq/=. right. split; [exact (proj1 (find_None _ _) F)|]. unfold closing_output. simpl.
      rewrite chunk_app_nil_l, <- app_assoc. by rewrite take_drop.
  - destruct (find_next_open p) as [[i idx]|] eqn:F.
    + destruct (specs p !! idx) as [sp|] eqn:El; [|done].
      match type of H with inline_run ?x _ = _ =>
        destruct (inline_run_total x) as (p1 & o1 & _ & _ & E);
        [eapply inline_wf_open; [apply Hwf|done]|] end.
      specialize (IH2 _ _ _ eq_refl eq_refl El _ _ (E _)). rewrite E in H. simplify_eq.
      rewrite chunk_app_nil_l in IH2. cbn [active specs pending] in IH2. unfold closing_output. rewrite chunk_app_assoc.
      fold (closing_output p' o1). pose proof (find_next_open_first _ _ _ _ F El) as Hfirst.
      destruct IH2 as [(body & rest & vis & ext & H1 & H2 & H3)|[H1 H2]].
      * rewrite H3. simpl. eapply Hidden_tag; [exact Hfirst|exact H1|exact H2].
      * rewrite H2. simpl. rewrite app_nil_r. by eapply Hidden_unclosed.
    + simplify_eq/=. unfold closing_output. simpl. rewrite take_drop. apply Hidden_none.
      rewrite find_next_open_None, Forall_forall in F. intros sp Hsp. exact (proj1 (find_None _ _) (F sp Hsp)).
Qed.

Lemma inline_new_Some sps p0 : inline_new sps = Some p0 ->
  p0 = mkInline sps [] None /\ forallb spec_ok sps = true.
Proof. unfold inline_new. destruct sps; [done|]. case_match; naive_solver. Qed.

(** C7: when no opener occurs inside another one, streaming any chunks into
    a fresh hidden-tag parser and finishing never panics, gives exactly the
    leftmost non-nested reading of the concatenated text, whatever the
    chunking, and leaves the parser as new. *)
Theorem inline_stream_correct sps p0 cs :
  inline_new sps = Some p0 -> openers_ok sps = true ->
  exists p1 o1 o2, push_all p0 cs = Some (p1, o1)
    /\ inline_push_str p0 (concat cs) = Some (p1, o1)
    /\ parser_finish p1 = Some (p0, o2)
    /\ Hidden sps (concat cs) (visible_text (o1 ⊕ o2)) (extracted (o1 ⊕ o2)).
Proof.
  intros Hnew Hok. apply inline_new_Some in Hnew as [-> Hw].
  destruct (push_all_concat cs (mkInline sps [] None)) as (p1 & o & o' & E1 & E2 & [Hv He] & _);
    [by apply inline_start_ok|].
  simpl in Hv, He. assert (o' = o) as -> by (destruct o, o'; simpl in *; by subst). clear Hv He.
  pose proof E2 as E3. simpl in E2. rewrite inline_push_run in E2.
  destruct (inline_run_total (add_pending (mkInline sps [] None) (concat cs)))
    as (p2 & o2 & _ & Hs & Er); [by split|].
  pose proof (inline_run_hidden (add_pending (mkInline sps [] None) (concat cs))) as Hh.
  specialize (Hh ltac:(by split) _ _ E2). rewrite Er in E2. simplify_eq.
  eexists p1, _, (inline_finish p1).2. split_and!; [exact E1|exact E3|..].
  - simpl. unfold inline_finish. simpl in Hs. rewrite Hs. by destruct (active p1).
  - exact Hh.
Qed.

End inline.

(** A tag whose closer is never completed, cut inside both delimiters. *)
Lemma inline_stream_correct_witness :
  let sps := [mkSpec 1%N (lit "<a>") (lit "</a>"); mkSpec 2%N (lit "[b") (lit "]")] in
  let cs := [lit "x<"; lit "a>y</"; lit "a>z[b"; lit "w"] in
  exists p1 o1 o2, push_all (mkInline sps [] None) cs = Some (p1, o1)
    /\ inline_push_str (mkInline sps [] None) (concat cs) = Some (p1, o1)
    /\ parser_finish p1 = Some (mkInline sps [] None, o2)
    /\ Hidden sps (concat cs) (visible_text (o1 ⊕ o2)) (extracted (o1 ⊕ o2)).
Proof.
  intros sps cs. apply (inline_stream_correct sps (mkInline sps [] None) cs).
  - vm_compute. reflexivity.
  - vm_compute. reflexivity.
Defined.

(** The condition on openers is needed: with openers [<a] and [<ab>] the
    longest one is chosen only when it arrives in one piece. *)
Lemma overlapping_openers_depend_on_chunks :
  let sps := [mkSpec 1%N (lit "<a") (lit ">"); mkSpec 2%N (lit "<ab>") (lit ">")] in
  let whole := push_all (mkInline sps [] None) [lit "<ab>x>y"] in
  let cut := push_all (mkInline sps [] None) [lit "<a"; lit "b>x>y"] in
  option_map (fun r => extracted r.2) whole = Some [mkExtracted 2%N (lit "x")]
  /\ option_map (fun r => extracted r.2) cut = Some [mkExtracted 1%N (lit "b")].
Proof. vm_compute. done. Qed.

(** ** [citation.rs] *)

Inductive CitationTag := Citation.

Definition CITATION_OPEN : str := Eval vm_compute in lit "<oai-mem-citation>".
Definition CITATION_CLOSE : str := Eval vm_compute in lit "</oai-mem-citation>".

Definition citation_specs : list (InlineTagSpec CitationTag) :=
  [mkSpec Citation CITATION_OPEN CITATION_CLOSE].

Record CitationStreamParser := mkCitation { inner : InlineHiddenTagParser CitationTag }.

Definition citation_new : option CitationStreamParser :=
  match inline_new citation_specs with Some p => Some (mkCitation p) | None => None end.

(** The tags of the inner parser's output are dropped, their contents kept. *)
Definition citation_chunk (c : StreamTextChunk (ExtractedInlineTag CitationTag))
    : StreamTextChunk str :=
  mkChunk (visible_text c) (map extracted_content (extracted c)).

Definition citation_push_str (p : CitationStreamParser) (chunk : str)
    : option (CitationStreamParser * StreamTextChunk str) :=
  '(i, c) ← inline_push_str (inner p) chunk;
  Some (mkCitation i, citation_chunk c).

Definition citation_finish (p : CitationStreamParser)
    : CitationStreamParser * StreamTextChunk str :=
  let '(i, c) := inline_finish (inner p) in (mkCitation i, citation_chunk c).

Definition strip_citations (text : str) : option (str * list str) :=
  parser ← citation_new;
  '(parser, out) ← citation_push_str parser text;
  let '(_, tail) := citation_finish parser in
  Some (visible_text out ++ visible_text tail, extracted out ++ extracted tail).

#[export] Instance citation_stream_parser : StreamTextParser CitationStreamParser str := {
  parser_push_str := citation_push_str;
  parser_finish := fun p => Some (citation_finish p);
}.

Definition citation_ok (p : CitationStreamParser) : Prop :=
  parser_ok (T:=ExtractedInlineTag CitationTag) (inner p).

Lemma citation_push_Some p s p' o :
  citation_push_str p s = Some (p', o) <->
  exists c, inline_push_str (inner p) s = Some (inner p', c) /\ o = citation_chunk c.
Proof.
  unfold citation_push_str. destruct (inline_push_str (inner p) s) as [[i c]|]; simpl.
  - destruct p' as [i']. simpl. split; [intros; simplify_eq; eauto|].
    intros (c' & ? & ->). by simplify_eq.
  - split; [done|]. by intros (? & ? & _).
Qed.

#[export] Program Instance citation_stream_laws : StreamTextLaws CitationStreamParser str := {
  parser_ok := citation_ok;
  payload_equiv := eq;
}.
Next Obligation.
  simpl. intros p s Hp. destruct (law_push_total (inner p) s Hp) as (i & c & E & Hi).
  exists (mkCitation i), (citation_chunk c). split; [|done]. apply citation_push_Some. eauto.
Qed.
Next Obligation.
  simpl. intros p Hp. destruct (law_finish_total (inner p) Hp) as (i & c & E & Hi).
  exists (mkCitation i), (citation_chunk c). split; [|done].
  simpl in E. unfold citation_finish. injection E as ->. done.
Qed.
Next Obligation.
  simpl. intros p Hp. pose proof (law_push_nil (inner p) Hp) as E.
  apply citation_push_Some. eauto.
Qed.
Next Obligation.
  simpl. intros p a b p1 o1 p2 o2 Hp H1 H2.
  apply citation_push_Some in H1 as (c1 & E1 & ->). apply citation_push_Some in H2 as (c2 & E2 & ->).
  destruct (law_push_app (inner p) a b _ _ _ _ Hp E1 E2) as (o & E & Hv & He).
  exists (citation_chunk o). split; [apply citation_push_Some; eauto|].
  simpl in *. by rewrite Hv, He, map_app.
Qed.

Lemma citation_new_ok : exists p0, citation_new = Some p0 /\ parser_ok (T:=str) p0.
Proof.
  eexists. split; [reflexivity|]. apply inline_start_ok; vm_compute; reflexivity.
Qed.

(** Streaming assistant text through the citation parser in any chunks
    and finishing gives the visible text and the citations that
    [strip_citations] gives for the whole text, without panicking. *)
Theorem citation_stream_is_strip cs :
  exists p0 p1 o1 p2 o2, citation_new = Some p0
    /\ push_all p0 cs = Some (p1, o1) /\ citation_finish p1 = (p2, o2)
    /\ strip_citations (concat cs) = Some (visible_text (o1 ⊕ o2), extracted (o1 ⊕ o2)).
Proof.
  destruct citation_new_ok as (p0 & E0 & Hp0).
  destruct (push_all_concat cs p0 Hp0) as (p1 & o & o' & E1 & E2 & [Hv He] & _).
  destruct (citation_finish p1) as [p2 o2] eqn:Ef.
  exists p0, p1, o, p2, o2. split_and!; try done.
  unfold strip_citations. rewrite E0. simpl in *. rewrite E2. simpl. rewrite Ef. simpl.
  by rewrite Hv, He.
Qed.
