(* ===== verification/TaggedLine.v ===== *)
(** * utils/stream-parser: line-based tag blocks

    [tagged_line_parser.rs]: a parser that reads streamed text character by
    character, holds back a line only while it may still be a tag, and emits
    normal text and tag blocks.  The main results: the segments do not depend
    on the chunking (up to merging adjacent text), and a whole run equals the
    line-by-line reading [read_lines] that looks at complete lines. *)

From S2P Require Import Prelude RustStr.

Record TagSpec (T : Type) := mkTagSpec {
  tl_open : str;
  tl_close : str;
  tl_tag : T;
}.
Arguments mkTagSpec {T} _ _ _.
Arguments tl_open {T} _.
Arguments tl_close {T} _.
Arguments tl_tag {T} _.

Inductive TaggedLineSegment (T : Type) :=
| Normal (text : str)
| TagStart (tag : T)
| TagDelta (tag : T) (text : str)
| TagEnd (tag : T).
Arguments Normal {T} text.
Arguments TagStart {T} tag.
Arguments TagDelta {T} tag text.
Arguments TagEnd {T} tag.

Record TaggedLineParser (T : Type) := mkTaggedLine {
  tl_specs : list (TagSpec T);
  tl_active : option T;
  tl_detect : bool;
  tl_buffer : str;
}.
Arguments mkTaggedLine {T} _ _ _ _.
Arguments tl_specs {T} _.
Arguments tl_active {T} _.
Arguments tl_detect {T} _.
Arguments tl_buffer {T} _.

Definition tagged_new {T} (sps : list (TagSpec T)) : TaggedLineParser T :=
  mkTaggedLine sps None true [].

Section tagged.
Context {T : Type} `{EqDecision T}.
Implicit Types (p : TaggedLineParser T) (segs : list (TaggedLineSegment T)).

Definition push_segment segs (segment : TaggedLineSegment T) : list (TaggedLineSegment T) :=
  match segment with
  | Normal delta =>
      if bool_decide (delta = []) then segs
      else match last segs with
           | Some (Normal _) =>
               update_last (fun s => match s with Normal e => Normal (e ++ delta) | _ => s end) segs
           | _ => segs ++ [Normal delta]
           end
  | TagDelta tag delta =>
      if bool_decide (delta = []) then segs
      else match last segs with
           | Some (TagDelta existing_tag _) =>
               if decide (existing_tag = tag) then
                 update_last (fun s => match s with
                                       | TagDelta t e => TagDelta t (e ++ delta)
                                       | _ => s end) segs
               else segs ++ [TagDelta tag delta]
           | _ => segs ++ [TagDelta tag delta]
           end
  | TagStart tag => segs ++ [TagStart tag]
  | TagEnd tag => segs ++ [TagEnd tag]
  end.

Definition push_text p (text : str) segs : list (TaggedLineSegment T) :=
  match tl_active p with
  | Some tag => push_segment segs (TagDelta tag text)
  | None => push_segment segs (Normal text)
  end.

Definition is_tag_prefix p (slug : str) : bool :=
  let slug := trim_end slug in
  existsb (fun sp => starts_with slug (tl_open sp) || starts_with slug (tl_close sp)) (tl_specs p).

Definition match_open p (slug : str) : option T :=
  option_map tl_tag (List.find (fun sp => str_eqb (tl_open sp) slug) (tl_specs p)).

Definition match_close p (slug : str) : option T :=
  option_map tl_tag (List.find (fun sp => str_eqb (tl_close sp) slug) (tl_specs p)).

Definition set_active p (a : option T) : TaggedLineParser T :=
  mkTaggedLine (tl_specs p) a (tl_detect p) (tl_buffer p).
Definition set_detect p (d : bool) : TaggedLineParser T :=
  mkTaggedLine (tl_specs p) (tl_active p) d (tl_buffer p).
Definition set_buffer p (b : str) : TaggedLineParser T :=
  mkTaggedLine (tl_specs p) (tl_active p) (tl_detect p) b.

Definition without_newline (line : str) : str :=
  match strip_suffix [ch_lf] line with Some l => l | None => line end.

Definition tagged_finish_line p segs : TaggedLineParser T * list (TaggedLineSegment T) :=
  let line := tl_buffer p in
  let p := set_buffer p [] in
  let slug := trim_end (trim_start (without_newline line)) in
  match match_open p slug, tl_active p with
  | Some tag, None =>
      (set_detect (set_active p (Some tag)) true, push_segment segs (TagStart tag))
  | _, _ =>
      match match_close p slug with
      | Some tag =>
          if decide (tl_active p = Some tag)
          then (set_detect (set_active p None) true, push_segment segs (TagEnd tag))
          else let p := set_detect p true in (p, push_text p line segs)
      | None => let p := set_detect p true in (p, push_text p line segs)
      end
  end.

(** The body of the loop of [parse], on the parser, the current run and the
    segments so far. *)
Definition parse_char (st : TaggedLineParser T * str * list (TaggedLineSegment T)) (ch : char)
    : TaggedLineParser T * str * list (TaggedLineSegment T) :=
  let '(p, run, segs) := st in
  if tl_detect p then
    let segs := if bool_decide (run = []) then segs else push_text p run segs in
    let p := set_buffer p (tl_buffer p ++ [ch]) in
    if (ch =? ch_lf)%N then
      let '(p, segs) := tagged_finish_line p segs in (p, [], segs)
    else
      let slug := trim_start (tl_buffer p) in
      if bool_decide (slug = []) || is_tag_prefix p slug then (p, [], segs)
      else
        let buffered := tl_buffer p in
        let p := set_detect (set_buffer p []) false in
        (p, [], push_text p buffered segs)
  else
    let run := run ++ [ch] in
    if (ch =? ch_lf)%N then (set_detect p true, [], push_text p run segs)
    else (p, run, segs).

Definition tagged_parse p (delta : str) : TaggedLineParser T * list (TaggedLineSegment T) :=
  let '(p, run, segs) := fold_left parse_char delta (p, [], []) in
  (p, if bool_decide (run = []) then segs else push_text p run segs).

Definition tagged_finish p : TaggedLineParser T * list (TaggedLineSegment T) :=
  let '(p, segs) :=
    if bool_decide (tl_buffer p = []) then (p, [])
    else
      let buffered := tl_buffer p in
      let p := set_buffer p [] in
      let slug := trim_end (trim_start (without_newline buffered)) in
      match match_open p slug, tl_active p with
      | Some tag, None => (set_active p (Some tag), push_segment [] (TagStart tag))
      | _, _ =>
          match match_close p slug with
          | Some tag =>
              if decide (tl_active p = Some tag)
              then (set_active p None, push_segment [] (TagEnd tag))
              else (p, push_text p buffered [])
          | None => (p, push_text p buffered [])
          end
      end in
  let segs := match tl_active p with Some tag => push_segment segs (TagEnd tag) | None => segs end in
  (set_detect (set_active p None) true, segs).

(** ** Segments as sequences of events *)

(** One event per character or tag boundary; adjacent text segments of the
    same block merge. *)
Inductive event :=
| EText (block : option T) (c : char)
| EStart (tag : T)
| EEnd (tag : T).

Definition seg_events (s : TaggedLineSegment T) : list event :=
  match s with
  | Normal t => map (EText None) t
  | TagStart t => [EStart t]
  | TagDelta t d => map (EText (Some t)) d
  | TagEnd t => [EEnd t]
  end.

Definition events segs : list event := concat (map seg_events segs).

Lemma events_app a b : events (a ++ b) = events a ++ events b.
Proof. unfold events. by rewrite map_app, concat_app. Qed.

Lemma events_snoc a x : events (a ++ [x]) = events a ++ seg_events x.
Proof. rewrite events_app. unfold events at 2. simpl. by rewrite app_nil_r. Qed.

Lemma push_segment_events segs s : events (push_segment segs s) = events segs ++ seg_events s.
Proof.
  destruct s as [d|t|t d|t]; simpl; [|by rewrite events_snoc| |by rewrite events_snoc].
  - case_bool_decide; [subst; by rewrite app_nil_r|].
    destruct (last segs) as [x|] eqn:E; [|by rewrite events_snoc].
    destruct x as [e|t|t e|t]; try by rewrite events_snoc.
    apply last_snoc_inv in E as [l ->].
    rewrite update_last_snoc, !events_snoc, <- app_assoc. simpl. by rewrite map_app.
  - case_bool_decide; [subst; by rewrite app_nil_r|].
    destruct (last segs) as [x|] eqn:E; [|by rewrite events_snoc].
    destruct x as [e|u|u e|u]; try by rewrite events_snoc.
    case_decide; [subst|by rewrite events_snoc].
    apply last_snoc_inv in E as [l ->].
    rewrite update_last_snoc, !events_snoc, <- app_assoc. simpl. by rewrite map_app.
Qed.

Lemma push_text_events p text segs :
  events (push_text p text segs) = events segs ++ map (EText (tl_active p)) text.
Proof. unfold push_text. destruct (tl_active p); by rewrite push_segment_events. Qed.

(** ** Reading complete lines *)

(** What a complete line does in a block: the next block and the events. *)
Definition classify (sps : list (TagSpec T)) (a : option T) (line : str)
    : option T * list event :=
  let p := mkTaggedLine sps a true [] in
  let slug := trim (without_newline line) in
  let text := (a, map (EText a) line) in
  match match_open p slug, a with
  | Some tag, None => (Some tag, [EStart tag])
  | _, _ => match match_close p slug with
            | Some tag => if decide (a = Some tag) then (None, [EEnd tag]) else text
            | None => text
            end
  end.

(** The reading of a list of lines; an open block ends with the text. *)
Fixpoint read_lines (sps : list (TagSpec T)) (a : option T) (ls : list str) : list event :=
  match ls with
  | [] => match a with Some tag => [EEnd tag] | None => [] end
  | l :: ls' => let '(a', ev) := classify sps a l in ev ++ read_lines sps a' ls'
  end.

Lemma finish_line_classify sps a d b segs :
  let '(p, segs') := tagged_finish_line (mkTaggedLine sps a d b) segs in
  let '(a', ev) := classify sps a b in
  p = mkTaggedLine sps a' true [] /\ events segs' = events segs ++ ev.
Proof.
  unfold tagged_finish_line, classify, match_open, match_close, trim. simpl.
  repeat (case_match || case_decide); simplify_eq; simpl in *; try done; (split; [done|]);
    by rewrite ?events_snoc, ?push_text_events.
Qed.

(** ** One character *)

(** The parser after a character and the events it emits; [run] and [segs]
    only delay them. *)
Definition char_step p (ch : char) : TaggedLineParser T * list event :=
  if tl_detect p then
    let b := tl_buffer p ++ [ch] in
    if (ch =? ch_lf)%N then
      let '(a', ev) := classify (tl_specs p) (tl_active p) b in
      (mkTaggedLine (tl_specs p) a' true [], ev)
    else if bool_decide (trim_start b = []) || is_tag_prefix p (trim_start b) then
      (set_buffer p b, [])
    else (set_detect (set_buffer p []) false, map (EText (tl_active p)) b)
  else if (ch =? ch_lf)%N then (set_detect p true, [EText (tl_active p) ch])
  else (p, [EText (tl_active p) ch]).

Fixpoint char_steps p (s : str) : TaggedLineParser T * list event :=
  match s with
  | [] => (p, [])
  | c :: s' =>
      let '(p1, e1) := char_step p c in
      let '(p2, e2) := char_steps p1 s' in
      (p2, e1 ++ e2)
  end.

Definition run_events (st : TaggedLineParser T * str * list (TaggedLineSegment T)) : list event :=
  let '(p, run, segs) := st in events segs ++ map (EText (tl_active p)) run.

Lemma parse_char_step p run segs ch :
  let '(p', run', segs') := parse_char (p, run, segs) ch in
  p' = (char_step p ch).1
  /\ run_events (p', run', segs') = run_events (p, run, segs) ++ (char_step p ch).2.
Proof.
  destruct p as [sps a d b]. unfold parse_char, char_step, run_events. simpl.
  assert (Hrun : forall segs, events (if bool_decide (run = []) then segs
      else push_text (mkTaggedLine sps a d b) run segs) = events segs ++ map (EText a) run).
  { intros segs0. case_bool_decide; [subst; by rewrite app_nil_r|by rewrite push_text_events]. }
  destruct d.
  - destruct (ch =? ch_lf)%N.
    + match goal with |- context [tagged_finish_line ?q ?g] =>
        pose proof (finish_line_classify sps a true (b ++ [ch]) g) as H end.
      unfold set_buffer. simpl in *. destruct (tagged_finish_line _ _) as [p' segs'].
      destruct (classify sps a (b ++ [ch])) as [a' ev]. destruct H as [-> H].
      split; [done|]. simpl. by rewrite H, Hrun, app_nil_r.
    + change (is_tag_prefix (set_buffer (mkTaggedLine sps a true b) (b ++ [ch])) ?x)
        with (is_tag_prefix (mkTaggedLine sps a true b) x).
      destruct (_ || _); simpl; (split; [done|]).
      * by rewrite Hrun, !app_nil_r.
      * by rewrite push_text_events, Hrun, app_nil_r.
  - destruct (ch =? ch_lf)%N; simpl; (split; [done|]).
    + by rewrite push_text_events, app_nil_r, map_app, app_assoc.
    + by rewrite map_app, app_assoc.
Qed.

Lemma parse_chars_steps s p run segs :
  let '(p', run', segs') := fold_left parse_char s (p, run, segs) in
  p' = (char_steps p s).1
  /\ run_events (p', run', segs') = run_events (p, run, segs) ++ (char_steps p s).2.
Proof.
  revert p run segs; induction s as [|c s IH]; intros p run segs; cbn [fold_left char_steps].
  - by rewrite app_nil_r.
  - pose proof (parse_char_step p run segs c) as H.
    destruct (parse_char (p, run, segs) c) as [[p1 run1] segs1]. destruct H as [-> H].
    specialize (IH (char_step p c).1 run1 segs1).
    destruct (fold_left parse_char s _) as [[p2 run2] segs2]. destruct IH as [-> IH].
    destruct (char_step p c) as [q1 e1]. simpl in *.
    destruct (char_steps q1 s) as [q2 e2]. simpl in *. by rewrite IH, H, app_assoc.
Qed.

Lemma tagged_parse_steps p s :
  (tagged_parse p s).1 = (char_steps p s).1
  /\ events (tagged_parse p s).2 = (char_steps p s).2.
Proof.
  unfold tagged_parse. pose proof (parse_chars_steps s p [] []) as H.
  destruct (fold_left parse_char s (p, [], [])) as [[p' run] segs]. destruct H as [-> H].
  simpl in *. split; [done|]. rewrite <- H.
  case_bool_decide; [subst; simpl; by rewrite app_nil_r|by rewrite push_text_events].
Qed.

Lemma char_steps_app p a b :
  char_steps p (a ++ b)
  = let '(p1, e1) := char_steps p a in
    let '(p2, e2) := char_steps p1 b in (p2, e1 ++ e2).
Proof.
  revert p; induction a as [|c a IH]; intros p; simpl.
  - by destruct (char_steps p b).
  - destruct (char_step p c) as [p1 e1]. rewrite IH.
    destruct (char_steps p1 a) as [p2 e2]. destruct (char_steps p2 b) as [p3 e3].
    by rewrite app_assoc.
Qed.

(** ** Early release of a line *)

Lemma trim_end_common x r : trim_end x `prefix_of` trim_end (x ++ r).
Proof.
  destruct (drop_while_end_prefix is_whitespace (x ++ r)) as (ws & Hws & Hall).
  fold (trim_end (x ++ r)) in Hws. pose proof (trim_end_prefix x) as [y Hy].
  assert (Hx : trim_end x ++ (y ++ r) = trim_end (x ++ r) ++ ws).
  { rewrite <- Hws, app_assoc. by rewrite <- Hy. }
  apply app_eq_inv in Hx as [(z & Hz & Hpre)|(k & -> & _)]; [|by exists k].
  destruct z as [|c z _] using rev_ind; [by rewrite Hz, app_nil_r|exfalso].
  assert (Hc : is_whitespace c = false).
  { apply (trim_end_last x). rewrite Hz, app_assoc. by rewrite last_snoc. }
  subst ws. rewrite !Forall_app, Forall_singleton in Hall.
  destruct Hall as [[_ Hws'] _]. congruence.
Qed.

Lemma is_tag_prefix_false p slug sp :
  is_tag_prefix p slug = false -> In sp (tl_specs p) ->
  ~ trim_end slug `prefix_of` tl_open sp /\ ~ trim_end slug `prefix_of` tl_close sp.
Proof.
  unfold is_tag_prefix. intros H Hin. rewrite <- !starts_with_spec.
  apply not_true_iff_false in H. rewrite existsb_exists in H.
  split; intros C; apply H; exists sp; (split; [done|]); by rewrite C, ?orb_true_r.
Qed.

Lemma match_none_iff p slug :
  (forall sp, In sp (tl_specs p) -> tl_open sp <> slug /\ tl_close sp <> slug) ->
  match_open p slug = None /\ match_close p slug = None.
Proof.
  intros H. unfold match_open, match_close. split.
  - destruct (List.find _ _) eqn:E; [|done]. apply find_some in E as [Hin E].
    apply str_eqb_eq in E. by apply H in Hin as [? _].
  - destruct (List.find _ _) eqn:E; [|done]. apply find_some in E as [Hin E].
    apply str_eqb_eq in E. by apply H in Hin as [_ ?].
Qed.

(** However the line continues, it is text. *)
Definition settled_text (sps : list (TagSpec T)) (l : str) : Prop :=
  forall a r, classify sps a (l ++ r) = (a, map (EText a) (l ++ r)).

Lemma without_newline_app l r : ch_lf ∉ l -> exists r', without_newline (l ++ r) = l ++ r'.
Proof.
  intros Hl. unfold without_newline. destruct (strip_suffix [ch_lf] (l ++ r)) as [x|] eqn:E; [|eauto].
  apply strip_suffix_Some in E. destruct r as [|c r _] using rev_ind.
  - rewrite app_nil_r in E. subst l. set_solver.
  - rewrite app_assoc in E. apply app_inj_tail in E as [<- _]. eauto.
Qed.

Lemma not_tag_settles sps a d b l :
  ch_lf ∉ l -> trim_start l <> [] ->
  is_tag_prefix (mkTaggedLine sps a d b) (trim_start l) = false -> settled_text sps l.
Proof.
  intros Hl Hne Hpre a' r. unfold classify.
  destruct (without_newline_app l r Hl) as [r' ->].
  assert (Hslug : trim_end (trim_start l) `prefix_of` trim (l ++ r')).
  { unfold trim. unfold trim_start at 2. rewrite drop_while_app_stop by done.
    apply trim_end_common. }
  destruct (match_none_iff (mkTaggedLine sps a' true []) (trim (l ++ r'))) as [-> ->]; [|done].
  intros sp Hin. destruct (is_tag_prefix_false _ _ _ Hpre Hin) as [H1 H2].
  split; intros E; rewrite <- E in Hslug; auto.
Qed.

(** ** Inside a line *)

(** The parser after the characters [l] of the current line: it holds all of
    them back, or it has released them as text. *)
Definition in_line (sps : list (TagSpec T)) (a : option T) (l : str) p (ev : list event) : Prop :=
  (p = mkTaggedLine sps a true l /\ ev = [])
  \/ (p = mkTaggedLine sps a false [] /\ ev = map (EText a) l /\ l <> [] /\ settled_text sps l).

Lemma in_line_step sps a l p ev c :
  ch_lf ∉ l -> c <> ch_lf -> in_line sps a l p ev ->
  in_line sps a (l ++ [c]) (char_step p c).1 (ev ++ (char_step p c).2).
Proof.
  intros Hl Hc [[-> ->]|(-> & -> & Hne & Hs)]; unfold char_step; simpl;
    destruct (N.eqb_spec c ch_lf); try done.
  - destruct (bool_decide _ || _) eqn:E; simpl; [by left|right].
    apply orb_false_iff in E as [E1 E2]. apply bool_decide_eq_false in E1.
    split_and!; [done|done|by destruct l|]. eapply not_tag_settles; [|done|exact E2].
    rewrite elem_of_app, list_elem_of_singleton. naive_solver.
  - right. split_and!; [done|by rewrite map_app|by destruct l|].
    intros a' r. rewrite <- app_assoc. apply Hs.
Qed.

Lemma in_line_steps sps a r l p ev :
  ch_lf ∉ l -> ch_lf ∉ r -> in_line sps a l p ev ->
  in_line sps a (l ++ r) (char_steps p r).1 (ev ++ (char_steps p r).2).
Proof.
  revert l p ev; induction r as [|c r IH]; intros l p ev Hl Hr H; simpl.
  - by rewrite !app_nil_r.
  - apply not_elem_of_cons in Hr as [Hc Hr].
    pose proof (in_line_step _ _ _ _ _ c Hl (not_eq_sym Hc) H) as H1.
    destruct (char_step p c) as [p1 e1]. simpl in H1.
    apply IH in H1; [|set_solver|done]. destruct (char_steps p1 r) as [p2 e2]. simpl in *.
    by rewrite <- app_assoc, <- app_assoc in H1.
Qed.

Lemma in_line_newline sps a l p ev :
  in_line sps a l p ev ->
  char_step p ch_lf
  = (mkTaggedLine sps (classify sps a (l ++ [ch_lf])).1 true [], (char_step p ch_lf).2)
  /\ ev ++ (char_step p ch_lf).2 = (classify sps a (l ++ [ch_lf])).2.
Proof.
  intros [[-> ->]|(-> & -> & Hne & Hs)]; unfold char_step; simpl.
  - by destruct (classify sps a (l ++ [ch_lf])).
  - by rewrite Hs, map_app.
Qed.

Lemma in_line_finish sps a l p ev :
  in_line sps a l p ev ->
  (tagged_finish p).1 = tagged_new sps
  /\ ev ++ events (tagged_finish p).2 = read_lines sps a (if bool_decide (l = []) then [] else [l]).
Proof.
  intros [[-> ->]|(-> & -> & Hne & Hs)].
  - unfold tagged_finish, classify, tagged_new. simpl. case_bool_decide; simpl.
    { subst l. by destruct a. }
    unfold classify, match_open, match_close, trim. simpl.
    repeat (case_match || case_decide); simplify_eq; simpl in *; simplify_eq; try done;
      (split; [done|]); by rewrite ?events_snoc, ?push_text_events, ?app_nil_r.
  - rewrite bool_decide_false by done. simpl.
    pose proof (Hs a []) as Hc. rewrite app_nil_r in Hc. rewrite Hc. by destruct a.
Qed.

(** ** A whole text *)

Lemma char_steps_read sps s a :
  let '(p, ev) := char_steps (mkTaggedLine sps a true []) s in
  (tagged_finish p).1 = tagged_new sps
  /\ ev ++ events (tagged_finish p).2 = read_lines sps a (split_inclusive s).
Proof.
  revert a. induction s as [s IH] using (well_founded_induction (well_founded_ltof _ (@length char))).
  intros a. assert (Hstart : in_line sps a [] (mkTaggedLine sps a true []) []) by by left.
  destruct (decide (ch_lf ∈ s)) as [Hin|Hno].
  - apply list_elem_of_split_l in Hin as (l & s' & -> & Hl).
    rewrite char_steps_app, split_inclusive_line by done.
    apply (in_line_steps _ _ l) in Hstart; [|set_solver|done]. simpl in Hstart.
    destruct (char_steps (mkTaggedLine sps a true []) l) as [p1 e1]. simpl in *.
    apply in_line_newline in Hstart as [H1 H2].
    destruct (char_step p1 ch_lf) as [p2 e2]. simplify_eq/=.
    destruct (classify sps a (l ++ [ch_lf])) as [a' ev]. simpl in *. subst ev.
    specialize (IH s' ltac:(unfold ltof; rewrite length_app; simpl; lia) a').
    destruct (char_steps (mkTaggedLine sps a' true []) s') as [p3 e3]. destruct IH as [IH1 IH2].
    split; [done|]. rewrite <- IH2. by rewrite <- !app_assoc.
  - rewrite split_inclusive_last by done.
    apply (in_line_steps _ _ s) in Hstart; [|set_solver|done]. simpl in Hstart.
    destruct (char_steps _ s) as [p1 e1]. simpl in *. by apply in_line_finish.
Qed.

(** Feed a list of chunks. *)
Fixpoint tagged_parse_all p (cs : list str) : TaggedLineParser T * list (TaggedLineSegment T) :=
  match cs with
  | [] => (p, [])
  | c :: cs' =>
      let '(p1, s1) := tagged_parse p c in
      let '(p2, s2) := tagged_parse_all p1 cs' in
      (p2, s1 ++ s2)
  end.

Lemma tagged_parse_all_steps cs p :
  (tagged_parse_all p cs).1 = (char_steps p (concat cs)).1
  /\ events (tagged_parse_all p cs).2 = (char_steps p (concat cs)).2.
Proof.
  revert p; induction cs as [|c cs IH]; intros p; simpl; [done|].
  rewrite char_steps_app. destruct (tagged_parse_steps p c) as [H1 H2].
  destruct (tagged_parse p c) as [p1 s1], (char_steps p c) as [q1 e1]. simpl in *. subst q1 e1.
  specialize (IH p1). destruct (tagged_parse_all p1 cs) as [p2 s2].
  destruct (char_steps p1 (concat cs)) as [q2 e2]. simpl in *. destruct IH as [-> <-].
  by rewrite events_app.
Qed.

(** Streaming a text in any chunks through the line parser and finishing
    emits, up to merging adjacent text, what reading its complete lines one
    by one gives (a line is a tag line when, trimmed, it equals the opener
    outside blocks or the closer of the open block), and leaves the parser as
    new: releasing a line early never changes what it is. *)
Theorem tagged_stream_reads_lines sps cs :
  let '(p1, segs1) := tagged_parse_all (tagged_new sps) cs in
  let '(p2, segs2) := tagged_finish p1 in
  p2 = tagged_new sps
  /\ events (segs1 ++ segs2) = read_lines sps None (split_inclusive (concat cs)).
Proof.
  destruct (tagged_parse_all_steps cs (tagged_new sps)) as [H1 H2].
  pose proof (char_steps_read sps (concat cs) None) as H.
  destruct (tagged_parse_all (tagged_new sps) cs) as [p1 segs1].
  fold (tagged_new sps) in H. destruct (char_steps (tagged_new sps) (concat cs)) as [q ev].
  simpl in *. subst. rewrite (surjective_pairing (tagged_finish q)). by rewrite events_app.
Qed.

End tagged.
