(* ===== verification/ProposedPlan.v ===== *)
(** * utils/stream-parser: proposed plan blocks and assistant text

    [proposed_plan.rs] (the [<proposed_plan>] instance of the line parser)
    and [assistant_text.rs] (citations first, then plan blocks in plan mode). *)

From S2P Require Import Prelude RustStr StreamText InlineHiddenTag TaggedLine.

Definition OPEN_TAG : str := Eval vm_compute in lit "<proposed_plan>".
Definition CLOSE_TAG : str := Eval vm_compute in lit "</proposed_plan>".

Inductive PlanTag := ProposedPlan.

#[export] Instance PlanTag_eq_dec : EqDecision PlanTag.
Proof. solve_decision. Defined.

Inductive ProposedPlanSegment :=
| PlanNormal (text : str)
| ProposedPlanStart
| ProposedPlanDelta (text : str)
| ProposedPlanEnd.

Record ProposedPlanParser := mkPlan { plan_parser : TaggedLineParser PlanTag }.

Definition plan_specs : list (TagSpec PlanTag) := [mkTagSpec OPEN_TAG CLOSE_TAG ProposedPlan].

Definition plan_new : ProposedPlanParser := mkPlan (tagged_new plan_specs).

Definition map_segment (s : TaggedLineSegment PlanTag) : ProposedPlanSegment :=
  match s with
  | Normal text => PlanNormal text
  | TagStart ProposedPlan => ProposedPlanStart
  | TagDelta ProposedPlan text => ProposedPlanDelta text
  | TagEnd ProposedPlan => ProposedPlanEnd
  end.

Definition map_segments (segments : list (TaggedLineSegment PlanTag))
    : StreamTextChunk ProposedPlanSegment :=
  fold_left (fun out segment =>
    let mapped := map_segment segment in
    let vis := match mapped with
               | PlanNormal text => visible_text out ++ text
               | _ => visible_text out
               end in
    mkChunk vis (extracted out ++ [mapped])) segments empty_chunk.

Definition plan_push_str (p : ProposedPlanParser) (chunk : str)
    : ProposedPlanParser * StreamTextChunk ProposedPlanSegment :=
  let '(q, segs) := tagged_parse (plan_parser p) chunk in (mkPlan q, map_segments segs).

Definition plan_finish (p : ProposedPlanParser)
    : ProposedPlanParser * StreamTextChunk ProposedPlanSegment :=
  let '(q, segs) := tagged_finish (plan_parser p) in (mkPlan q, map_segments segs).

#[export] Instance plan_stream_parser : StreamTextParser ProposedPlanParser ProposedPlanSegment := {
  parser_push_str := fun p s => Some (plan_push_str p s);
  parser_finish := fun p => Some (plan_finish p);
}.

Definition strip_proposed_plan_blocks (text : str) : str :=
  let '(parser, out) := plan_push_str plan_new text in
  let '(_, tail) := plan_finish parser in
  visible_text out ++ visible_text tail.

(** The loop of [extract_proposed_plan_text]: the flag and the text. *)
Definition extract_segment (st : bool * str) (segment : ProposedPlanSegment) : bool * str :=
  let '(saw_plan_block, plan_text) := st in
  match segment with
  | ProposedPlanStart => (true, [])
  | ProposedPlanDelta delta => (saw_plan_block, plan_text ++ delta)
  | ProposedPlanEnd | PlanNormal _ => (saw_plan_block, plan_text)
  end.

Definition extract_proposed_plan_text (text : str) : option str :=
  let '(parser, out) := plan_push_str plan_new text in
  let '(_, tail) := plan_finish parser in
  let '(saw_plan_block, plan_text) :=
    fold_left extract_segment (extracted out ++ extracted tail) (false, []) in
  if saw_plan_block then Some plan_text else None.

(** ** [assistant_text.rs] *)

Record AssistantTextChunk := mkAssistantChunk {
  at_visible_text : str;
  at_citations : list str;
  at_plan_segments : list ProposedPlanSegment;
}.

Record AssistantTextStreamParser := mkAssistant {
  at_plan_mode : bool;
  at_citation_parser : CitationStreamParser;
  at_plan : ProposedPlanParser;
}.

Definition assistant_new (plan_mode : bool) : option AssistantTextStreamParser :=
  c ← citation_new; Some (mkAssistant plan_mode c plan_new).

Definition parse_visible_text (p : AssistantTextStreamParser) (text : str)
    : AssistantTextStreamParser * AssistantTextChunk :=
  if at_plan_mode p then
    let '(plan, plan_chunk) := plan_push_str (at_plan p) text in
    (mkAssistant (at_plan_mode p) (at_citation_parser p) plan,
     mkAssistantChunk (visible_text plan_chunk) [] (extracted plan_chunk))
  else (p, mkAssistantChunk text [] []).

Definition set_citations (out : AssistantTextChunk) (c : list str) : AssistantTextChunk :=
  mkAssistantChunk (at_visible_text out) c (at_plan_segments out).

Definition assistant_push_str (p : AssistantTextStreamParser) (chunk : str)
    : option (AssistantTextStreamParser * AssistantTextChunk) :=
  '(c, citation_chunk) ← citation_push_str (at_citation_parser p) chunk;
  let p := mkAssistant (at_plan_mode p) c (at_plan p) in
  let '(p, out) := parse_visible_text p (visible_text citation_chunk) in
  Some (p, set_citations out (extracted citation_chunk)).

Definition assistant_finish (p : AssistantTextStreamParser)
    : AssistantTextStreamParser * AssistantTextChunk :=
  let '(c, citation_chunk) := citation_finish (at_citation_parser p) in
  let p := mkAssistant (at_plan_mode p) c (at_plan p) in
  let '(p, out) := parse_visible_text p (visible_text citation_chunk) in
  let '(p, out) :=
    if at_plan_mode p then
      let '(plan, tail) := plan_finish (at_plan p) in
      let p := mkAssistant (at_plan_mode p) (at_citation_parser p) plan in
      if chunk_is_empty tail then (p, out)
      else (p, mkAssistantChunk (at_visible_text out ++ visible_text tail) (at_citations out)
                 (at_plan_segments out ++ extracted tail))
    else (p, out) in
  (p, set_citations out (extracted citation_chunk)).

(** ** Plan segments as events *)

Definition to_tagged (s : ProposedPlanSegment) : TaggedLineSegment PlanTag :=
  match s with
  | PlanNormal text => Normal text
  | ProposedPlanStart => TagStart ProposedPlan
  | ProposedPlanDelta text => TagDelta ProposedPlan text
  | ProposedPlanEnd => TagEnd ProposedPlan
  end.

Definition plan_events (segs : list ProposedPlanSegment) : list (event (T:=PlanTag)) :=
  events (map to_tagged segs).

Definition event_visible (e : event (T:=PlanTag)) : str :=
  match e with EText None c => [c] | _ => [] end.

Definition events_visible (evs : list (event (T:=PlanTag))) : str := concat (map event_visible evs).

Lemma plan_events_app a b : plan_events (a ++ b) = plan_events a ++ plan_events b.
Proof. unfold plan_events. by rewrite map_app, events_app. Qed.

Lemma events_visible_app a b : events_visible (a ++ b) = events_visible a ++ events_visible b.
Proof. unfold events_visible. by rewrite map_app, concat_app. Qed.

Lemma events_visible_text b t :
  events_visible (map (EText b) t) = match b with None => t | Some _ => [] end.
Proof.
  induction t as [|c t IH]; [by destruct b|]. simpl map.
  change (events_visible (EText b c :: map (EText b) t))
    with (event_visible (EText b c) ++ events_visible (map (EText b) t)).
  rewrite IH. by destruct b.
Qed.

Lemma map_segments_acc segs out :
  fold_left (fun out segment =>
    let mapped := map_segment segment in
    let vis := match mapped with
               | PlanNormal text => visible_text out ++ text
               | _ => visible_text out
               end in
    mkChunk vis (extracted out ++ [mapped])) segs out
  = out ⊕ mkChunk (events_visible (events segs)) (map map_segment segs).
Proof.
  revert out; induction segs as [|s segs IH]; intros out; simpl.
  - symmetry. apply chunk_app_nil_r.
  - rewrite IH. unfold chunk_app. simpl. unfold events. simpl. fold (events segs).
    rewrite events_visible_app, <- app_assoc. f_equal.
    destruct s as [t|[]|[] t|[]]; simpl; rewrite ?events_visible_text, <- ?app_assoc; done.
Qed.

(** Mapping keeps the segments and shows the text outside blocks. *)
Lemma map_segments_spec segs :
  extracted (map_segments segs) = map map_segment segs
  /\ plan_events (extracted (map_segments segs)) = events segs
  /\ visible_text (map_segments segs) = events_visible (events segs).
Proof.
  unfold map_segments. rewrite map_segments_acc, chunk_app_nil_l. simpl. split_and!; [done| |done].
  unfold plan_events. f_equal. rewrite map_map. rewrite <- (map_id segs) at 2.
  apply map_ext. by intros [t|[]|[] t|[]].
Qed.

Lemma plan_push_steps p s :
  let '(p', out) := plan_push_str p s in
  plan_parser p' = (char_steps (plan_parser p) s).1
  /\ plan_events (extracted out) = (char_steps (plan_parser p) s).2
  /\ visible_text out = events_visible (char_steps (plan_parser p) s).2.
Proof.
  unfold plan_push_str. destruct (tagged_parse_steps (plan_parser p) s) as [H1 H2].
  destruct (tagged_parse (plan_parser p) s) as [q segs]. simpl in *.
  destruct (map_segments_spec segs) as (_ & M2 & M3). by rewrite M2, M3, H2.
Qed.

(** ** The interface *)

#[export] Program Instance plan_stream_laws :
    StreamTextLaws ProposedPlanParser ProposedPlanSegment := {
  parser_ok := fun _ => True;
  payload_equiv := fun a b => plan_events a = plan_events b;
}.
Next Obligation.
  split; [intros a; reflexivity|intros a b H; by symmetry|]. intros a b c H1 H2. by rewrite H1.
Qed.
Next Obligation. simpl. intros a a' H1 b b' H2. by rewrite !plan_events_app, H1, H2. Qed.
Next Obligation. simpl. intros p s _. destruct (plan_push_str p s). eauto. Qed.
Next Obligation. simpl. intros p _. destruct (plan_finish p). eauto. Qed.
Next Obligation. simpl. intros [p] _. reflexivity. Qed.
Next Obligation.
  simpl. intros p a b p1 o1 p2 o2 _ H1 H2. exists (plan_push_str p (a ++ b)).2.
  pose proof (plan_push_steps p a) as S1. pose proof (plan_push_steps p1 b) as S2.
  pose proof (plan_push_steps p (a ++ b)) as S3. simplify_eq. rewrite H1 in S1. rewrite H2 in S2.
  destruct (plan_push_str p (a ++ b)) as [p3 o3]. rewrite char_steps_app in S3.
  destruct S1 as (A1 & A2 & A3), S2 as (B1 & B2 & B3), S3 as (C1 & C2 & C3).
  destruct (char_steps (plan_parser p) a) as [q1 e1]. simpl in *. subst q1.
  destruct (char_steps (plan_parser p1) b) as [q2 e2]. simpl in *. subst.
  split_and!.
  - f_equal. f_equal. destruct p3, p2. by f_equal.
  - by rewrite A3, B3, C3, events_visible_app.
  - by rewrite plan_events_app, C2.
Qed.

(** ** Whole texts *)

(** Everything a plan parser produces for a text that comes in chunks. *)
Lemma plan_stream_events cs :
  exists p o, push_all plan_new cs = Some (p, o)
    /\ let '(p', tail) := plan_finish p in
       p' = plan_new
       /\ plan_events (extracted (o ⊕ tail)) = read_lines plan_specs None (split_inclusive (concat cs))
       /\ visible_text (o ⊕ tail)
          = events_visible (read_lines plan_specs None (split_inclusive (concat cs))).
Proof.
  destruct (push_all_concat cs plan_new) as (p & o & o' & E1 & E2 & [Hv He] & _); [exact I|].
  exists p, o. split; [done|]. simpl in E2, He. injection E2 as E2.
  pose proof (plan_push_steps plan_new (concat cs)) as S. rewrite E2 in S. destruct S as (S1 & S2 & S3).
  pose proof (char_steps_read plan_specs (concat cs) None) as R.
  fold (tagged_new plan_specs) in R. change (plan_parser plan_new) with (tagged_new plan_specs) in *.
  destruct (char_steps (tagged_new plan_specs) (concat cs)) as [q ev]. simpl in *. subst.
  unfold plan_finish. destruct (tagged_finish (plan_parser p)) as [q' segs]. simpl in R.
  destruct R as [-> R]. destruct (map_segments_spec segs) as (_ & M2 & M3).
  split_and!; [done|..].
  - by rewrite plan_events_app, <- He, M2.
  - by rewrite <- R, events_visible_app, <- Hv, S3, M3.
Qed.

Lemma plan_push_all_one text :
  push_all plan_new [text] = Some (plan_push_str plan_new text).
Proof. simpl. destruct (plan_push_str plan_new text) as [p o]. simpl. by rewrite chunk_app_nil_r. Qed.

Lemma strip_proposed_plan_blocks_events text :
  strip_proposed_plan_blocks text
  = events_visible (read_lines plan_specs None (split_inclusive text)).
Proof.
  destruct (plan_stream_events [text]) as (p & o & E & H). rewrite plan_push_all_one in E.
  simpl in H. rewrite app_nil_r in H. unfold strip_proposed_plan_blocks. simplify_eq.
  rewrite E. destruct (plan_finish p) as [p' tail]. by destruct H as (_ & _ & H).
Qed.

(** The text of the last block, from events. *)
Definition event_extract (st : bool * str) (e : event (T:=PlanTag)) : bool * str :=
  match e with
  | EStart _ => (true, [])
  | EText (Some _) c => (st.1, st.2 ++ [c])
  | _ => st
  end.

Lemma extract_events_text b t st :
  fold_left event_extract (map (EText b) t) st
  = match b with None => st | Some _ => (st.1, st.2 ++ t) end.
Proof.
  revert st; induction t as [|c t IH]; intros [f x]; simpl.
  - destruct b; [by rewrite app_nil_r|done].
  - rewrite IH. destruct b; [|done]. simpl. by rewrite <- app_assoc.
Qed.

Lemma extract_segments_events segs st :
  fold_left extract_segment segs st = fold_left event_extract (plan_events segs) st.
Proof.
  revert st; induction segs as [|s segs IH]; intros st; [done|].
  change (plan_events (s :: segs)) with (seg_events (to_tagged s) ++ plan_events segs).
  rewrite fold_left_app. simpl. rewrite IH. f_equal. destruct st as [f x].
  destruct s; simpl; by rewrite ?extract_events_text.
Qed.

Lemma extract_proposed_plan_text_events text :
  extract_proposed_plan_text text
  = let '(saw, t) := fold_left event_extract
                       (read_lines plan_specs None (split_inclusive text)) (false, []) in
    if saw then Some t else None.
Proof.
  destruct (plan_stream_events [text]) as (p & o & E & H). rewrite plan_push_all_one in E.
  simpl in H. rewrite app_nil_r in H. unfold extract_proposed_plan_text. simplify_eq.
  rewrite E. destruct (plan_finish p) as [p' tail]. destruct H as (_ & H & _).
  rewrite extract_segments_events. simpl in H. by rewrite H.
Qed.

(** ** A text with a plan block *)

Definition terminated (l : str) : Prop := exists l', l = l' ++ [ch_lf] /\ ch_lf ∉ l'.
Definition slug (l : str) : str := trim (without_newline l).

Lemma split_inclusive_concat ls : Forall terminated ls -> split_inclusive (concat ls) = ls.
Proof.
  induction 1 as [|l ls (l' & -> & Hl) _ IH]; [done|]. simpl.
  rewrite <- app_assoc. simpl. by rewrite split_inclusive_line, IH.
Qed.

Lemma classify_outside l :
  slug l <> OPEN_TAG -> classify plan_specs None l = (None, map (EText None) l).
Proof.
  unfold slug, classify, match_open, match_close. simpl. intros H.
  rewrite (proj2 (str_eqb_neq OPEN_TAG _)) by congruence.
  by destruct (str_eqb CLOSE_TAG _).
Qed.

Lemma classify_inside l :
  slug l <> CLOSE_TAG ->
  classify plan_specs (Some ProposedPlan) l = (Some ProposedPlan, map (EText (Some ProposedPlan)) l).
Proof.
  unfold slug, classify, match_open, match_close. simpl. intros H.
  rewrite (proj2 (str_eqb_neq CLOSE_TAG _)) by congruence.
  by destruct (str_eqb OPEN_TAG _).
Qed.

Lemma read_lines_text a ls rest :
  Forall (fun l => classify plan_specs a l = (a, map (EText a) l)) ls ->
  read_lines plan_specs a (ls ++ rest)
  = map (EText a) (concat ls) ++ read_lines plan_specs a rest.
Proof.
  induction 1 as [|l ls Hl _ IH]; [done|]. simpl.
  by rewrite Hl, IH, map_app, app_assoc.
Qed.

Lemma read_lines_block pre o body c post :
  Forall (fun l => slug l <> OPEN_TAG) pre -> slug o = OPEN_TAG ->
  Forall (fun l => slug l <> CLOSE_TAG) body -> slug c = CLOSE_TAG ->
  Forall (fun l => slug l <> OPEN_TAG) post ->
  read_lines plan_specs None (pre ++ o :: body ++ c :: post)
  = map (EText None) (concat pre) ++ [EStart ProposedPlan]
    ++ map (EText (Some ProposedPlan)) (concat body) ++ [EEnd ProposedPlan]
    ++ map (EText None) (concat post).
Proof.
  intros Hpre Ho Hbody Hc Hpost. rewrite read_lines_text.
  2:{ eapply Forall_impl; [exact Hpre|]. intros l. apply classify_outside. }
  f_equal. cbn [read_lines]. assert (classify plan_specs None o = (Some ProposedPlan, [EStart ProposedPlan])) as ->.
  { unfold slug in Ho. unfold classify. by rewrite Ho. }
  simpl. f_equal. rewrite read_lines_text.
  2:{ eapply Forall_impl; [exact Hbody|]. intros l. apply classify_inside. }
  f_equal. cbn [read_lines].
  assert (classify plan_specs (Some ProposedPlan) c = (None, [EEnd ProposedPlan])) as ->.
  { unfold slug in Hc. unfold classify. by rewrite Hc. }
  simpl. f_equal. rewrite <- (app_nil_r post) at 1. rewrite read_lines_text; [by rewrite app_nil_r|].
  eapply Forall_impl; [exact Hpost|]. intros l. apply classify_outside.
Qed.

(** In a text of complete lines with one plan block (an opening tag line,
    a body without closing tag line, a closing tag line, and no other opening
    tag line), [strip_proposed_plan_blocks] gives exactly the lines outside
    the block and [extract_proposed_plan_text] exactly the body. *)
Theorem plan_block_stripped_and_extracted pre o body c post :
  Forall terminated (pre ++ o :: body ++ c :: post) ->
  Forall (fun l => slug l <> OPEN_TAG) (pre ++ post) -> slug o = OPEN_TAG ->
  Forall (fun l => slug l <> CLOSE_TAG) body -> slug c = CLOSE_TAG ->
  let text := concat (pre ++ o :: body ++ c :: post) in
  strip_proposed_plan_blocks text = concat pre ++ concat post
  /\ extract_proposed_plan_text text = Some (concat body).
Proof.
  intros Hterm [Hpre Hpost]%Forall_app Ho Hbody Hc text.
  rewrite strip_proposed_plan_blocks_events, extract_proposed_plan_text_events. unfold text.
  rewrite split_inclusive_concat, read_lines_block by done. split.
  - rewrite !events_visible_app, !events_visible_text. done.
  - rewrite !fold_left_app, !extract_events_text. done.
Qed.

Lemma plan_block_stripped_and_extracted_witness :
  let nl := [ch_lf] in
  strip_proposed_plan_blocks
    (concat ([lit "Hi" ++ nl] ++ (lit "  <proposed_plan> " ++ nl) :: [lit "- a" ++ nl; lit "<proposed_plan>" ++ nl]
             ++ (lit "</proposed_plan>" ++ nl) :: [lit "</proposed_plan>" ++ nl]))
  = (lit "Hi" ++ nl) ++ (lit "</proposed_plan>" ++ nl).
Proof.
  intros nl.
  refine (proj1 (plan_block_stripped_and_extracted [lit "Hi" ++ nl] (lit "  <proposed_plan> " ++ nl)
    [lit "- a" ++ nl; lit "<proposed_plan>" ++ nl] (lit "</proposed_plan>" ++ nl)
    [lit "</proposed_plan>" ++ nl] _ _ _ _ _)).
  - cbn [app]. repeat (apply Forall_cons_2; [eexists; split; [reflexivity|];
      apply (bool_decide_eq_true_1 _); vm_compute; reflexivity|]). apply Forall_nil_2.
  - cbn [app]. repeat (apply Forall_cons_2; [apply (bool_decide_eq_true_1 _); vm_compute; reflexivity|]).
    apply Forall_nil_2.
  - vm_compute. reflexivity.
  - repeat (apply Forall_cons_2; [apply (bool_decide_eq_true_1 _); vm_compute; reflexivity|]).
    apply Forall_nil_2.
  - vm_compute. reflexivity.
Defined.

(** ** The assistant parser *)

Definition assistant_app (a b : AssistantTextChunk) : AssistantTextChunk :=
  mkAssistantChunk (at_visible_text a ++ at_visible_text b) (at_citations a ++ at_citations b)
    (at_plan_segments a ++ at_plan_segments b).

(** Feed a list of chunks, then finish. *)
Fixpoint assistant_run (p : AssistantTextStreamParser) (cs : list str)
    : option AssistantTextChunk :=
  match cs with
  | [] => Some (assistant_finish p).2
  | c :: cs' =>
      '(p1, o1) ← assistant_push_str p c;
      o2 ← assistant_run p1 cs';
      Some (assistant_app o1 o2)
  end.

(** The same, with the two parsers run one after the other: the visible texts
    of the citation parser, chunk by chunk, are the chunks of the plan parser. *)
Fixpoint citation_pieces (c : CitationStreamParser) (cs : list str)
    : option (CitationStreamParser * list (StreamTextChunk str)) :=
  match cs with
  | [] => Some (c, [])
  | s :: cs' =>
      '(c1, o1) ← citation_push_str c s;
      '(c2, os) ← citation_pieces c1 cs';
      Some (c2, o1 :: os)
  end.

Lemma citation_pieces_push_all c cs c' o :
  push_all c cs = Some (c', o) ->
  exists os, citation_pieces c cs = Some (c', os)
    /\ concat (map visible_text os) = visible_text o
    /\ concat (map extracted os) = extracted o.
Proof.
  revert c o; induction cs as [|s cs IH]; intros c o H; simpl in *.
  - simplify_eq. by exists [].
  - destruct (citation_push_str c s) as [[c1 o1]|]; simpl in *; [|done].
    destruct (push_all c1 cs) as [[c2 o2]|] eqn:E; simpl in *; [|done]. simplify_eq.
    destruct (IH _ _ E) as (os & -> & H1 & H2). exists (o1 :: os). simpl. by rewrite H1, H2.
Qed.

Lemma assistant_finish_plain c plan :
  (assistant_finish (mkAssistant false c plan)).2
  = mkAssistantChunk (visible_text (citation_finish c).2) (extracted (citation_finish c).2) [].
Proof. unfold assistant_finish. simpl. by destruct (citation_finish c). Qed.

Lemma assistant_run_plain cs c plan c' os :
  citation_pieces c cs = Some (c', os) ->
  assistant_run (mkAssistant false c plan) cs
  = Some (mkAssistantChunk (concat (map visible_text os) ++ visible_text (citation_finish c').2)
            (concat (map extracted os) ++ extracted (citation_finish c').2) []).
Proof.
  revert c os; induction cs as [|s cs IH]; intros c os H; simpl in *.
  - simplify_eq. by rewrite assistant_finish_plain.
  - unfold assistant_push_str. simpl.
    destruct (citation_push_str c s) as [[c1 o1]|]; simpl in *; [|done].
    destruct (citation_pieces c1 cs) as [[c2 os2]|] eqn:E; simplify_eq/=.
    rewrite (IH _ _ E). simpl. unfold assistant_app, set_citations. simpl. by rewrite <- !app_assoc.
Qed.

Lemma chunk_empty_app {T} (o tail : StreamTextChunk T) :
  chunk_is_empty tail = true -> o ⊕ tail = o.
Proof.
  unfold chunk_is_empty. intros H. apply andb_true_iff in H as [H1 H2].
  apply bool_decide_eq_true in H1. destruct tail as [v e]. simpl in *. subst.
  destruct e; [|done]. apply chunk_app_nil_r.
Qed.

Lemma assistant_run_plan cs c plan c' os plan' po :
  citation_pieces c cs = Some (c', os) ->
  push_all plan (map visible_text os ++ [visible_text (citation_finish c').2]) = Some (plan', po) ->
  assistant_run (mkAssistant true c plan) cs
  = Some (mkAssistantChunk (visible_text (po ⊕ (plan_finish plan').2))
            (concat (map extracted os) ++ extracted (citation_finish c').2)
            (extracted (po ⊕ (plan_finish plan').2))).
Proof.
  revert c plan os po; induction cs as [|s cs IH]; intros c plan os po H1 H2; simpl in H1.
  - simplify_eq. simpl in *. unfold assistant_finish. simpl.
    destruct (citation_finish c') as [c2 tail]. simpl in *. unfold parse_visible_text. simpl.
    destruct (plan_push_str plan (visible_text tail)) as [plan1 o1]. simplify_eq/=.
    destruct (plan_finish plan') as [plan2 o2]. simpl. rewrite !app_nil_r.
    destruct (chunk_is_empty o2) eqn:E; [|done].
    apply (chunk_empty_app o1) in E. unfold chunk_app in E. destruct o1 as [v1 e1]. simpl in *.
    injection E as -> ->. done.
  - simpl. unfold assistant_push_str. simpl.
    destruct (citation_push_str c s) as [[c1 o1]|]; simpl in *; [|done].
    destruct (citation_pieces c1 cs) as [[c2 os2]|] eqn:E; simplify_eq/=.
    unfold parse_visible_text. simpl.
    destruct (plan_push_str plan (visible_text o1)) as [plan1 po1]. simpl in *.
    destruct (push_all plan1 _) as [[plan2 po2]|] eqn:E2; simplify_eq/=.
    rewrite (IH _ _ _ _ E E2). simpl. unfold assistant_app, set_citations. simpl.
    by rewrite <- !app_assoc.
Qed.

(** C8: streaming assistant text in any chunks never panics and gives what
    the whole text gives: the citations of [strip_citations]; outside plan
    mode its visible text; in plan mode that text without its plan blocks and
    plan segments that are, up to merging adjacent text, the line by line
    reading of it. *)
Theorem assistant_stream_correct plan_mode cs :
  exists p0 out v cits, assistant_new plan_mode = Some p0
    /\ assistant_run p0 cs = Some out
    /\ strip_citations (concat cs) = Some (v, cits)
    /\ at_citations out = cits
    /\ at_visible_text out = (if plan_mode then strip_proposed_plan_blocks v else v)
    /\ plan_events (at_plan_segments out)
       = (if plan_mode then read_lines plan_specs None (split_inclusive v) else []).
Proof.
  destruct citation_new_ok as (c0 & E0 & Hc0).
  destruct (push_all_concat cs c0 Hc0) as (c1 & o & o' & E1 & E2 & [Hv He] & _).
  simpl in E2, He. destruct (citation_pieces_push_all _ _ _ _ E1) as (os & Ep & Hov & Hoe).
  destruct (citation_finish c1) as [c2 tail] eqn:Ef.
  assert (Hstrip : strip_citations (concat cs)
    = Some (visible_text o ++ visible_text tail, extracted o ++ extracted tail)).
  { unfold strip_citations. rewrite E0. simpl. rewrite E2. simpl. rewrite Ef. simpl.
    by rewrite Hv, He. }
  exists (mkAssistant plan_mode c0 plan_new). rewrite Hstrip.
  unfold assistant_new. rewrite E0. destruct plan_mode.
  - destruct (plan_stream_events (map visible_text os ++ [visible_text tail]))
      as (plan' & po & Epl & Hpl).
    assert (Hcat : concat (map visible_text os ++ [visible_text tail])
      = visible_text o ++ visible_text tail).
    { rewrite concat_app. simpl. by rewrite Hov, app_nil_r. }
    rewrite Hcat in Hpl. rewrite (assistant_run_plan _ _ _ _ _ plan' po Ep) by by rewrite Ef.
    destruct (plan_finish plan') as [plan2 ptail]. destruct Hpl as (_ & H1 & H2).
    eexists _, _, _. split_and!; [done|done|done|..]; simpl.
    + by rewrite Ef, Hoe.
    + by rewrite strip_proposed_plan_blocks_events, <- H2.
    + done.
  - rewrite (assistant_run_plain _ _ _ _ _ Ep). eexists _, _, _.
    split_and!; [done|done|done|..]; simpl; [by rewrite Ef, Hoe|by rewrite Ef, Hov|done].
Qed.
