(* ===== verification/Utf8Stream.v ===== *)
(** * utils/stream-parser: UTF-8 over chunked bytes

    [utf8_stream.rs]: a wrapper that feeds raw bytes to any [StreamTextParser],
    holding back a partial code point.  The standard library's
    [std::str::from_utf8] is modelled with its [valid_up_to] and [error_len].
    The wrapper's theorems are proved against the laws of StreamText.v, so
    they hold for every lawful parser. *)

From S2P Require Import Prelude RustStr StreamText InlineHiddenTag.

Notation byte := N (only parsing).

(** ** UTF-8 *)

(** Unicode scalar values. *)
Definition is_scalar (c : char) : bool := ((c <? 55296) || ((57344 <=? c) && (c <? 1114112)))%N.

Definition encode_char (c : char) : list byte :=
  (if c <? 128 then [c]
   else if c <? 2048 then [192 + c / 64; 128 + c mod 64]
   else if c <? 65536 then [224 + c / 4096; 128 + (c / 64) mod 64; 128 + c mod 64]
   else [240 + c / 262144; 128 + (c / 4096) mod 64; 128 + (c / 64) mod 64; 128 + c mod 64])%N.

Definition encode (s : str) : list byte := concat (map encode_char s).

Definition in_range (lo hi b : byte) : bool := ((lo <=? b) && (b <=? hi))%N.
Definition is_cont (b : byte) : bool := in_range 128 191 b.

(** The second byte allowed after a three or four byte lead. *)
Definition second_ok (b0 b1 : byte) : bool :=
  (if b0 =? 224 then in_range 160 191 b1
   else if b0 =? 237 then in_range 128 159 b1
   else if b0 =? 240 then in_range 144 191 b1
   else if b0 =? 244 then in_range 128 143 b1
   else is_cont b1)%N.

Inductive decoded :=
| Dec (c : char) (rest : list byte)
| Bad (error_len : nat)
| Short.

(** One step of the validation loop on a non-empty input. *)
Definition decode_char (bs : list byte) : decoded :=
  match bs with
  | [] => Short
  | b0 :: r0 =>
      if (b0 <? 128)%N then Dec b0 r0
      else if in_range 194 223 b0 then
        match r0 with
        | [] => Short
        | b1 :: r1 =>
            if is_cont b1 then Dec ((b0 - 192) * 64 + (b1 - 128))%N r1 else Bad 1
        end
      else if in_range 224 239 b0 then
        match r0 with
        | [] => Short
        | b1 :: r1 =>
            if second_ok b0 b1 then
              match r1 with
              | [] => Short
              | b2 :: r2 =>
                  if is_cont b2
                  then Dec ((b0 - 224) * 4096 + (b1 - 128) * 64 + (b2 - 128))%N r2
                  else Bad 2
              end
            else Bad 1
        end
      else if in_range 240 244 b0 then
        match r0 with
        | [] => Short
        | b1 :: r1 =>
            if second_ok b0 b1 then
              match r1 with
              | [] => Short
              | b2 :: r2 =>
                  if is_cont b2 then
                    match r2 with
                    | [] => Short
                    | b3 :: r3 =>
                        if is_cont b3
                        then Dec ((b0 - 240) * 262144 + (b1 - 128) * 4096
                                  + (b2 - 128) * 64 + (b3 - 128))%N r3
                        else Bad 3
                    end
                  else Bad 2
              end
            else Bad 1
        end
      else Bad 1
  end.

Record Utf8Error := mkUtf8Error { valid_up_to : nat; error_len : option nat }.

Fixpoint from_utf8_go (fuel : nat) (bs : list byte) : result str Utf8Error :=
  match fuel, bs with
  | _, [] => Ok []
  | 0, _ :: _ => Err (mkUtf8Error 0 None)
  | S fuel', _ :: _ =>
      match decode_char bs with
      | Dec c rest =>
          match from_utf8_go fuel' rest with
          | Ok s => Ok (c :: s)
          | Err e =>
              Err (mkUtf8Error (length bs - length rest + valid_up_to e) (error_len e))
          end
      | Bad n => Err (mkUtf8Error 0 (Some n))
      | Short => Err (mkUtf8Error 0 None)
      end
  end.

(** Each step consumes a byte. *)
Definition from_utf8 (bs : list byte) : result str Utf8Error := from_utf8_go (length bs) bs.

(** ** UTF-8 lemmas *)

(** Decide the byte range tests of the goal by arithmetic, splitting on
    equality tests that are open. *)
Ltac decide_test :=
  match goal with
  | |- context [(?a <? ?b)%N] =>
      first [ rewrite (proj2 (N.ltb_lt a b)) by lia | rewrite (proj2 (N.ltb_ge a b)) by lia ]
  | |- context [(?a <=? ?b)%N] =>
      first [ rewrite (proj2 (N.leb_le a b)) by lia | rewrite (proj2 (N.leb_gt a b)) by lia ]
  | |- context [(?a =? ?b)%N] =>
      first [ rewrite (proj2 (N.eqb_eq a b)) by lia | rewrite (proj2 (N.eqb_neq a b)) by lia
            | destruct (N.eqb_spec a b) ]
  end; cbn [andb orb].
Ltac decide_tests := unfold second_ok, is_cont, in_range; repeat decide_test.

Ltac div_lia := zify; Z.to_euclidean_division_equations; lia.

Lemma is_scalar_spec c :
  is_scalar c = true <-> (c < 55296 \/ 57344 <= c < 1114112)%N.
Proof. unfold is_scalar. by rewrite orb_true_iff, andb_true_iff, !N.ltb_lt, N.leb_le. Qed.

Lemma decode_encode_char c r :
  is_scalar c = true -> decode_char (encode_char c ++ r) = Dec c r.
Proof.
  intros Hs. apply is_scalar_spec in Hs. unfold encode_char.
  destruct (N.ltb_spec c 128); [|destruct (N.ltb_spec c 2048); [|destruct (N.ltb_spec c 65536)]];
    unfold decode_char; cbn [app].
  - by rewrite (proj2 (N.ltb_lt c 128)).
  - set (q := (c / 64)%N). set (m := (c mod 64)%N).
    assert (Hq : (c = q * 64 + m /\ m < 64 /\ 2 <= q < 32)%N) by (subst q m; div_lia).
    clearbody q m. decide_tests. f_equal; lia.
  - set (q := (c / 4096)%N). set (m := ((c / 64) mod 64)%N). set (k := (c mod 64)%N).
    assert (Hq : (c = q * 4096 + m * 64 + k /\ m < 64 /\ k < 64 /\ q < 16)%N)
      by (subst q m k; div_lia).
    clearbody q m k. decide_tests; f_equal; lia.
  - set (q := (c / 262144)%N). set (m := ((c / 4096) mod 64)%N). set (k := ((c / 64) mod 64)%N).
    set (j := (c mod 64)%N).
    assert (Hq : (c = q * 262144 + m * 4096 + k * 64 + j /\ m < 64 /\ k < 64 /\ j < 64 /\ q < 5)%N)
      by (subst q m k j; div_lia).
    clearbody q m k j. decide_tests; f_equal; lia.
Qed.

Lemma in_range_spec lo hi b : in_range lo hi b = true <-> (lo <= b <= hi)%N.
Proof. unfold in_range. by rewrite andb_true_iff, !N.leb_le. Qed.

Lemma second_ok_spec b0 b1 : second_ok b0 b1 = true ->
  (128 <= b1 <= 191 /\ (b0 = 224 -> 160 <= b1) /\ (b0 = 237 -> b1 <= 159)
   /\ (b0 = 240 -> 144 <= b1) /\ (b0 = 244 -> b1 <= 143))%N.
Proof.
  unfold second_ok, is_cont. repeat case_match; rewrite in_range_spec;
    rewrite ?N.eqb_eq, ?N.eqb_neq in *; lia.
Qed.

Lemma decode_char_sound bs c r :
  decode_char bs = Dec c r -> is_scalar c = true /\ bs = encode_char c ++ r.
Proof.
  rewrite is_scalar_spec. unfold decode_char. destruct bs as [|b0 r0]; [done|].
  destruct (N.ltb_spec b0 128).
  { intros; simplify_eq. split; [lia|]. unfold encode_char. by decide_tests. }
  destruct (in_range 194 223 b0) eqn:E2.
  { destruct r0 as [|b1 r1]; [done|]. destruct (is_cont b1) eqn:C1; [|done].
    apply in_range_spec in E2, C1. intros; simplify_eq. split; [lia|].
    unfold encode_char. decide_tests. simpl. repeat f_equal; div_lia. }
  destruct (in_range 224 239 b0) eqn:E3.
  { destruct r0 as [|b1 r1]; [done|]. destruct (second_ok b0 b1) eqn:C1; [|done].
    destruct r1 as [|b2 r2]; [done|]. destruct (is_cont b2) eqn:C2; [|done].
    apply in_range_spec in E3, C2. apply second_ok_spec in C1. intros; simplify_eq.
    split; [lia|]. unfold encode_char. decide_tests. simpl. repeat f_equal; div_lia. }
  destruct (in_range 240 244 b0) eqn:E4; [|done].
  destruct r0 as [|b1 r1]; [done|]. destruct (second_ok b0 b1) eqn:C1; [|done].
  destruct r1 as [|b2 r2]; [done|]. destruct (is_cont b2) eqn:C2; [|done].
  destruct r2 as [|b3 r3]; [done|]. destruct (is_cont b3) eqn:C3; [|done].
  apply in_range_spec in E4, C2, C3. apply second_ok_spec in C1. intros; simplify_eq.
  split; [lia|]. unfold encode_char. decide_tests. simpl. repeat f_equal; div_lia.
Qed.

(** More bytes change a decision only when input ran out. *)
Lemma decode_char_app bs m :
  match decode_char bs with
  | Dec c r => decode_char (bs ++ m) = Dec c (r ++ m)
  | Bad n => decode_char (bs ++ m) = Bad n
  | Short => True
  end.
Proof.
  unfold decode_char. destruct bs as [|b0 [|b1 [|b2 [|b3 r]]]]; cbn [app];
    repeat case_match; simplify_eq; try done.
Qed.

Lemma encode_char_cons c : exists b bs, encode_char c = b :: bs.
Proof. unfold encode_char. repeat case_match; eauto. Qed.

Lemma decode_char_shorter bs c r : decode_char bs = Dec c r -> length r < length bs.
Proof.
  intros H. apply decode_char_sound in H as [_ ->].
  destruct (encode_char_cons c) as (b & bs' & ->). rewrite length_app. simpl. lia.
Qed.

(** The validation loop as an equation. *)
Lemma from_utf8_go_enough n m bs :
  length bs <= n -> length bs <= m -> from_utf8_go n bs = from_utf8_go m bs.
Proof.
  revert m bs; induction n as [|n IH]; intros m bs Hn Hm.
  - destruct bs; [|simpl in Hn; lia]. by destruct m.
  - destruct bs as [|b bs]; [by destruct m|]. destruct m as [|m]; [simpl in Hm; lia|].
    cbn [from_utf8_go]. destruct (decode_char (b :: bs)) as [c r| |] eqn:E; [|done|done].
    apply decode_char_shorter in E. simpl in *. rewrite (IH m r) by lia. done.
Qed.

Lemma from_utf8_cons bs : bs <> [] ->
  from_utf8 bs =
  match decode_char bs with
  | Dec c rest =>
      match from_utf8 rest with
      | Ok s => Ok (c :: s)
      | Err e => Err (mkUtf8Error (length bs - length rest + valid_up_to e) (error_len e))
      end
  | Bad n => Err (mkUtf8Error 0 (Some n))
  | Short => Err (mkUtf8Error 0 None)
  end.
Proof.
  intros Hne. unfold from_utf8 at 1. destruct bs as [|b bs]; [done|]. simpl length.
  cbn [from_utf8_go]. destruct (decode_char (b :: bs)) as [c r| |] eqn:E; [|done|done].
  apply decode_char_shorter in E. unfold from_utf8.
  by rewrite (from_utf8_go_enough (length bs) (length r)) by (simpl in E; lia).
Qed.

Definition valid_str (s : str) : Prop := Forall (fun c => is_scalar c = true) s.

Lemma encode_cons c s : encode (c :: s) = encode_char c ++ encode s.
Proof. done. Qed.

(** Round trip: every text decodes from its encoding, with any tail pending. *)
Lemma from_utf8_encode s tail : valid_str s ->
  from_utf8 (encode s ++ tail)
  = match from_utf8 tail with
    | Ok t => Ok (s ++ t)
    | Err e => Err (mkUtf8Error (length (encode s) + valid_up_to e) (error_len e))
    end.
Proof.
  induction 1 as [|c s Hc _ IH]; simpl.
  - by destruct (from_utf8 tail) as [t|[v e]].
  - rewrite encode_cons, <- app_assoc, from_utf8_cons.
    2:{ by destruct (encode_char_cons c) as (b & bs & ->). }
    rewrite decode_encode_char, IH by done. destruct (from_utf8 tail) as [t|e]; [done|].
    simpl. f_equal. f_equal. rewrite !length_app. lia.
Qed.

(** What the validation says of its input: a text, a text and a partial code
    point, or bytes that no text starts with. *)
Definition partial (bs : list byte) : Prop := bs <> [] /\ decode_char bs = Short.

Lemma from_utf8_spec bs :
  match from_utf8 bs with
  | Ok s => valid_str s /\ bs = encode s
  | Err (mkUtf8Error v None) =>
      exists s tail, valid_str s /\ bs = encode s ++ tail /\ v = length (encode s) /\ partial tail
  | Err (mkUtf8Error v (Some n)) =>
      forall m, from_utf8 (bs ++ m) = Err (mkUtf8Error v (Some n))
  end.
Proof.
  induction bs as [bs IH] using (well_founded_induction (well_founded_ltof _ (@length byte))).
  destruct (decide (bs = [])) as [->|Hne]; [by split; [constructor|]|].
  assert (Hm : forall m, bs ++ m <> []) by (intros m; by destruct bs).
  rewrite from_utf8_cons by done. pose proof (decode_char_app bs) as Happ.
  destruct (decode_char bs) as [c r|n|] eqn:E.
  - pose proof (decode_char_shorter _ _ _ E) as Hlt. specialize (IH r Hlt).
    apply decode_char_sound in E as [Hc Hbs]. destruct (from_utf8 r) as [s|[v [n|]]].
    + destruct IH as [H1 H2]. split; [by constructor|]. by rewrite Hbs, H2.
    + intros m. rewrite from_utf8_cons, Happ, IH by done. simpl. do 2 f_equal.
      rewrite !length_app. lia.
    + destruct IH as (s & tail & H1 & H2 & H3 & H4). exists (c :: s), tail.
      split_and!; [by constructor|by rewrite Hbs, H2, encode_cons, app_assoc| |done].
      simpl. rewrite encode_cons, Hbs, !length_app. lia.
  - intros m. rewrite from_utf8_cons by done. by rewrite Happ.
  - exists [], bs. split_and!; [constructor|done|done|done].
Qed.

Lemma from_utf8_text s : valid_str s -> from_utf8 (encode s) = Ok s.
Proof.
  intros Hs. pose proof (from_utf8_encode s [] Hs) as E.
  rewrite app_nil_r in E. rewrite E. simpl. by rewrite app_nil_r.
Qed.

Lemma from_utf8_partial s tail : valid_str s -> partial tail ->
  from_utf8 (encode s ++ tail) = Err (mkUtf8Error (length (encode s)) None).
Proof.
  intros Hs [Hne Ht]. rewrite from_utf8_encode by done.
  rewrite (from_utf8_cons tail), Ht by done. simpl. by rewrite Nat.add_0_r.
Qed.

Lemma encode_app a b : encode (a ++ b) = encode a ++ encode b.
Proof. unfold encode. by rewrite map_app, concat_app. Qed.

(** A text that starts a longer encoded text is a prefix of it. *)
Lemma encode_split t s x : valid_str t -> valid_str s -> encode t ++ x = encode s ->
  exists s', s = t ++ s' /\ valid_str s' /\ x = encode s'.
Proof.
  intros Ht Hs Heq. apply (f_equal from_utf8) in Heq.
  rewrite from_utf8_encode, from_utf8_text in Heq by done.
  pose proof (from_utf8_spec x) as Hx. destruct (from_utf8 x) as [u|e]; simplify_eq.
  destruct Hx as [H1 H2]. eauto.
Qed.

(** ** The wrapper *)

Inductive Utf8StreamParserError :=
| InvalidUtf8 (valid_up_to error_len : nat)
| IncompleteUtf8AtEof.

Record Utf8StreamParser (P : Type) := mkUtf8 {
  u_inner : P;
  pending_utf8 : list byte;
}.
Arguments mkUtf8 {P} _ _.
Arguments u_inner {P} _.
Arguments pending_utf8 {P} _.

Section wrapper.
Context {P T : Type} `{StreamTextParser P T}.
Implicit Type p : Utf8StreamParser P.

Definition utf8_new (inner : P) : Utf8StreamParser P := mkUtf8 inner [].

Definition push_bytes p (chunk : list byte)
    : option (Utf8StreamParser P * result (StreamTextChunk T) Utf8StreamParserError) :=
  let old_len := length (pending_utf8 p) in
  let buf := pending_utf8 p ++ chunk in
  match from_utf8 buf with
  | Ok text =>
      '(inner, out) ← parser_push_str (u_inner p) text;
      Some (mkUtf8 inner [], Ok out)
  | Err err =>
      match error_len err with
      | Some n => Some (mkUtf8 (u_inner p) (take old_len buf), Err (InvalidUtf8 (valid_up_to err) n))
      | None =>
          if valid_up_to err =? 0 then Some (mkUtf8 (u_inner p) buf, Ok empty_chunk)
          else
            match from_utf8 (take (valid_up_to err) buf) with
            | Ok text =>
                '(inner, out) ← parser_push_str (u_inner p) text;
                Some (mkUtf8 inner (drop (valid_up_to err) buf), Ok out)
            | Err prefix_err =>
                Some (mkUtf8 (u_inner p) (take old_len buf),
                      Err (InvalidUtf8 (valid_up_to prefix_err)
                             (default 0 (error_len prefix_err))))
            end
      end
  end.

(** The error that pending bytes cause at the end, if any. *)
Definition pending_error (bs : list byte) : option Utf8StreamParserError :=
  match bs with
  | [] => None
  | _ => match from_utf8 bs with
         | Ok _ => None
         | Err err =>
             match error_len err with
             | Some n => Some (InvalidUtf8 (valid_up_to err) n)
             | None => Some IncompleteUtf8AtEof
             end
         end
  end.

Definition utf8_finish p
    : option (Utf8StreamParser P * result (StreamTextChunk T) Utf8StreamParserError) :=
  match pending_error (pending_utf8 p) with
  | Some e => Some (p, Err e)
  | None =>
      let flushed :=
        match pending_utf8 p with
        | [] => Some (p, Ok empty_chunk)
        | bs => match from_utf8 bs with
                | Ok text =>
                    '(inner, out) ← parser_push_str (u_inner p) text;
                    Some (mkUtf8 inner [], Ok out)
                | Err err =>
                    Some (p, Err (InvalidUtf8 (valid_up_to err) (default 0 (error_len err))))
                end
        end in
      match flushed with
      | Some (p, Ok out) =>
          '(inner, tail) ← parser_finish (u_inner p);
          Some (mkUtf8 inner (pending_utf8 p), Ok (out ⊕ tail))
      | r => r
      end
  end.

Definition into_inner p : result P Utf8StreamParserError :=
  match pending_error (pending_utf8 p) with
  | Some e => Err e
  | None => Ok (u_inner p)
  end.

Definition into_inner_lossy p : P := u_inner p.

(** Feed a list of byte chunks up to the first error. *)
Fixpoint push_bytes_all p (cs : list (list byte))
    : option (Utf8StreamParser P * result (StreamTextChunk T) Utf8StreamParserError) :=
  match cs with
  | [] => Some (p, Ok empty_chunk)
  | c :: cs' =>
      match push_bytes p c with
      | Some (p1, Ok o1) =>
          match push_bytes_all p1 cs' with
          | Some (p2, Ok o2) => Some (p2, Ok (o1 ⊕ o2))
          | r => r
          end
      | r => r
      end
  end.

Context `{!StreamTextLaws P T}.

(** A wrapper between two calls. *)
Definition utf8_ok p : Prop :=
  parser_ok (u_inner p) /\ (pending_utf8 p = [] \/ partial (pending_utf8 p)).

(** A chunk is accepted with the text it completes given to the inner parser
    and a partial code point kept, or rejected with the wrapper unchanged. *)
Lemma push_bytes_spec p chunk : utf8_ok p ->
  (exists t inner o tail, valid_str t /\ pending_utf8 p ++ chunk = encode t ++ tail
     /\ (tail = [] \/ partial tail)
     /\ parser_push_str (u_inner p) t = Some (inner, o)
     /\ push_bytes p chunk = Some (mkUtf8 inner tail, Ok o) /\ utf8_ok (mkUtf8 inner tail))
  \/ (exists v n, push_bytes p chunk = Some (p, Err (InvalidUtf8 v n))
     /\ forall more s, valid_str s -> pending_utf8 p ++ chunk ++ more <> encode s).
Proof.
  intros [Hin Hp]. pose proof (from_utf8_spec (pending_utf8 p ++ chunk)) as Hspec.
  unfold push_bytes. destruct (from_utf8 (pending_utf8 p ++ chunk)) as [t|[v [n|]]].
  - left. destruct Hspec as [Ht Hbs]. destruct (law_push_total _ t Hin) as (i & o & E & Hi).
    rewrite E. exists t, i, o, []. rewrite app_nil_r. split_and!; auto. split; auto.
  - right. exists v, n. simpl. rewrite take_app_length. split; [by destruct p|].
    intros more s Hs Heq. specialize (Hspec more). rewrite <- app_assoc, Heq in Hspec.
    by rewrite from_utf8_text in Hspec.
  - left. destruct Hspec as (t & tail & Ht & Hbs & -> & Htail). rewrite Hbs. simpl.
    destruct (law_push_total _ t Hin) as (i & o & E & Hi).
    destruct (Nat.eqb_spec (length (encode t)) 0) as [H0|_].
    + destruct t as [|c t].
      2:{ rewrite encode_cons in H0. destruct (encode_char_cons c) as (b & bs & Hb).
          by rewrite Hb in H0. }
      exists [], (u_inner p), empty_chunk, tail.
      split_and!; [done|done|by right|by apply law_push_nil|done|split; auto].
    + rewrite take_app_length, from_utf8_text, E, drop_app_length by done.
      exists t, i, o, tail. split_and!; [done|done|by right|done|done|split; auto].
Qed.

(** The texts given so far and the pending bytes are the bytes received. *)
Lemma push_bytes_all_text cs p s :
  utf8_ok p -> valid_str s -> pending_utf8 p ++ concat cs = encode s ->
  exists inner o o', push_bytes_all p cs = Some (mkUtf8 inner [], Ok o)
    /\ parser_push_str (u_inner p) s = Some (inner, o') /\ chunk_equiv o' o /\ parser_ok inner.
Proof.
  revert p s; induction cs as [|c cs IH]; intros p s Hok Hs Heq; simpl in *.
  - rewrite app_nil_r in Heq. destruct Hok as [Hin [Hnil|[Hne Hsh]]].
    + rewrite Hnil in Heq. assert (s = []) as ->.
      { destruct s as [|c s]; [done|]. rewrite encode_cons in Heq.
        by destruct (encode_char_cons c) as (b & bs & Hb); rewrite Hb in Heq. }
      exists (u_inner p), empty_chunk, empty_chunk. rewrite law_push_nil by done.
      split_and!; [by destruct p; simpl in *; subst|done|reflexivity|done].
    + exfalso. rewrite Heq in Hsh. destruct s as [|c s].
      * by apply Hne.
      * inv Hs. rewrite encode_cons, decode_encode_char in Hsh by done. done.
  - destruct (push_bytes_spec p c Hok)
      as [(t & i & o & tail & Ht & Hbs & Htail & Epush & -> & Hok')|(v & n & _ & Hbad)].
    2:{ exfalso. by apply (Hbad (concat cs) s). }
    destruct (encode_split t s (tail ++ concat cs)) as (s' & -> & Hs' & Heq'); [done|done|..].
    { by rewrite app_assoc, <- Hbs, <- app_assoc. }
    destruct (IH (mkUtf8 i tail) s' Hok' Hs' Heq') as (i2 & o2 & o2' & -> & E2 & Heqv & Hi2).
    destruct (law_push_app' _ _ _ _ _ _ _ (proj1 Hok) Epush E2) as (o3 & E3 & Heqv3).
    exists i2, (o ⊕ o2), o3. split_and!; [done|done| |done]. by rewrite Heqv3, Heqv.
Qed.

(** C9: for every lawful inner parser and every text, feeding the UTF-8 bytes
    of the text in any chunks, even cut inside code points, never fails and
    never panics; it drives the inner parser to the state that pushing the
    whole text gives, with the same output up to payload equivalence, leaves
    no pending bytes, and finishing is then the inner parser's finish. *)
Theorem utf8_stream_is_text (inner : P) (s : str) (cs : list (list byte)) :
  parser_ok inner -> valid_str s -> concat cs = encode s ->
  exists inner1 o o' inner2 tail,
    push_bytes_all (utf8_new inner) cs = Some (mkUtf8 inner1 [], Ok o)
    /\ parser_push_str inner s = Some (inner1, o') /\ chunk_equiv o' o
    /\ parser_finish inner1 = Some (inner2, tail)
    /\ utf8_finish (mkUtf8 inner1 []) = Some (mkUtf8 inner2 [], Ok tail)
    /\ into_inner (mkUtf8 inner1 []) = Ok inner1.
Proof.
  intros Hin Hs Hcs.
  destruct (push_bytes_all_text cs (utf8_new inner) s) as (i & o & o' & H1 & H2 & H3 & H4);
    [split; auto|done|done|].
  destruct (law_finish_total i H4) as (i2 & tail & Hf & _).
  exists i, o, o', i2, tail. split_and!; try done.
  unfold utf8_finish. simpl. rewrite Hf. simpl. by rewrite chunk_app_nil_l.
Qed.

(** A rejected byte chunk leaves the wrapper exactly as it was, the inner
    parser included, and is only rejected when no continuation makes the
    pending bytes and the chunk the start of a UTF-8 text. *)
Theorem utf8_reject_rolls_back p p' chunk e :
  utf8_ok p -> push_bytes p chunk = Some (p', Err e) ->
  p' = p /\ (exists v n, e = InvalidUtf8 v n)
  /\ forall more s, valid_str s -> pending_utf8 p ++ chunk ++ more <> encode s.
Proof.
  intros Hok HH. destruct (push_bytes_spec p chunk Hok)
    as [(t & i & o & tail & _ & _ & _ & _ & E & _)|(v & n & E & Hbad)]; simplify_eq.
  split_and!; eauto.
Qed.

End wrapper.

(** The bytes of [e acute] split over two chunks, through the citation parser. *)
Lemma utf8_stream_is_text_witness :
  let inner := mkCitation (mkInline citation_specs [] None) in
  exists inner1 o o' inner2 tail,
    push_bytes_all (utf8_new inner) [[97; 195]; [169]]%N = Some (mkUtf8 inner1 [], Ok o)
    /\ parser_push_str inner [97; 233]%N = Some (inner1, o') /\ chunk_equiv o' o
    /\ parser_finish inner1 = Some (inner2, tail)
    /\ utf8_finish (mkUtf8 inner1 []) = Some (mkUtf8 inner2 [], Ok tail)
    /\ into_inner (mkUtf8 inner1 []) = Ok inner1.
Proof.
  apply (utf8_stream_is_text (mkCitation (mkInline citation_specs [] None)) [97; 233]%N
           [[97; 195]; [169]]%N).
  - apply inline_start_ok; vm_compute; reflexivity.
  - repeat (apply Forall_cons_2; [vm_compute; reflexivity|]). apply Forall_nil_2.
  - vm_compute. reflexivity.
Defined.

Lemma utf8_reject_rolls_back_witness :
  let p := mkUtf8 (mkCitation (mkInline citation_specs [] None)) [195]%N in
  p = p /\ (exists v n, InvalidUtf8 0 1 = InvalidUtf8 v n)
  /\ forall more s, valid_str s -> pending_utf8 p ++ [40]%N ++ more <> encode s.
Proof.
  apply (utf8_reject_rolls_back (mkUtf8 (mkCitation (mkInline citation_specs [] None)) [195]%N)
           (mkUtf8 (mkCitation (mkInline citation_specs [] None)) [195]%N) [40]%N (InvalidUtf8 0 1)).
  - split; [apply inline_start_ok; vm_compute; reflexivity|]. right.
    split; [discriminate|vm_compute; reflexivity].
  - vm_compute. reflexivity.
Defined.
