(* ===== verification/HeadTailBuffer.v ===== *)
(** * core/unified_exec: the head/tail output buffer

    [head_tail_buffer.rs]: a capped buffer that keeps a prefix and a suffix of
    the output of a process.  Specification: the buffer is [summary] of all
    the bytes pushed so far; pushing chunks and merging buffers refine
    concatenation.  Lengths of byte vectors are exact; the omission counter
    saturates at [usize::MAX] as in the source. *)

From S2P Require Import Prelude RustStr Utf8Stream.

Definition UNIFIED_EXEC_OUTPUT_MAX_BYTES : N := (1024 * 1024)%N.

Record HeadTailBuffer := mkHTB {
  htb_head : list byte;
  htb_tail : list byte;
  htb_omitted : N;
}.

Definition htb_default : HeadTailBuffer := mkHTB [] [] 0%N.

Definition nlen {A} (l : list A) : N := N.of_nat (length l).

Definition format_output_omission_marker (omitted_bytes : N) : str :=
  lit "... " ++ fmt_N omitted_bytes ++ lit " bytes omitted ...".

Section buffer.
(** The const generic parameter [MAX_BYTES]. *)
Context (MAX_BYTES : nat).

Definition HEAD_BUDGET : nat := MAX_BYTES / 2.
Definition TAIL_BUDGET : nat := MAX_BYTES - HEAD_BUDGET.

Definition retained_bytes (b : HeadTailBuffer) : N :=
  saturating_add (nlen (htb_head b)) (nlen (htb_tail b)).

Definition total_bytes (b : HeadTailBuffer) : N :=
  saturating_add (retained_bytes b) (htb_omitted b).

(** The buffer and the bytes that did not fit. *)
Definition fill_head (b : HeadTailBuffer) (chunk : list byte) : HeadTailBuffer * list byte :=
  let remaining_head := HEAD_BUDGET - length (htb_head b) in
  let '(chunk_head, chunk_tail) :=
    if remaining_head <=? length chunk then (take remaining_head chunk, drop remaining_head chunk)
    else (chunk, []) in
  (mkHTB (htb_head b ++ chunk_head) (htb_tail b) (htb_omitted b), chunk_tail).

Definition push_tail (b : HeadTailBuffer) (chunk : list byte) : HeadTailBuffer :=
  let remaining_tail := TAIL_BUDGET - length (htb_tail b) in
  let excess_tail := length chunk - remaining_tail in
  let omitted := saturating_add (htb_omitted b) (N.of_nat excess_tail) in
  let '(tail, chunk) :=
    if excess_tail <? length (htb_tail b) then (drop excess_tail (htb_tail b), chunk)
    else ([], drop (excess_tail - length (htb_tail b)) chunk) in
  mkHTB (htb_head b) (tail ++ chunk) omitted.

Definition push_chunk (b : HeadTailBuffer) (chunk : list byte) : HeadTailBuffer :=
  let '(b, chunk) := fill_head b chunk in push_tail b chunk.

Definition to_bytes (b : HeadTailBuffer) : list byte := htb_head b ++ htb_tail b.

Definition to_bytes_with_omission_marker (b : HeadTailBuffer) : list byte :=
  if (htb_omitted b =? 0)%N then to_bytes b
  else
    htb_head b ++ [ch_lf] ++ encode (format_output_omission_marker (htb_omitted b))
      ++ [ch_lf] ++ htb_tail b.

(** [wrap] is where the ring buffer of the source tail wraps around: its two
    slices are pushed in order. *)
Definition push_buffer (wrap : nat) (b buffer : HeadTailBuffer) : HeadTailBuffer :=
  let b := mkHTB (htb_head b) (htb_tail b) (saturating_add (htb_omitted b) (htb_omitted buffer)) in
  let '(b, overflow) :=
    match htb_head b with
    | [] => (mkHTB (htb_head buffer) (htb_tail b) (htb_omitted b), [])
    | _ => fill_head b (htb_head buffer)
    end in
  if length (htb_tail buffer) =? TAIL_BUDGET then
    mkHTB (htb_head b) (htb_tail buffer)
      (saturating_add (saturating_add (htb_omitted b) (nlen (htb_tail b))) (nlen overflow))
  else
    let b := push_tail b overflow in
    match htb_tail b with
    | [] => mkHTB (htb_head b) (htb_tail buffer) (htb_omitted b)
    | _ => push_tail (push_tail b (take wrap (htb_tail buffer))) (drop wrap (htb_tail buffer))
    end.

(** ** Specification *)

(** What is kept of a whole output. *)
Definition summary (bs : list byte) : HeadTailBuffer :=
  let rest := drop HEAD_BUDGET bs in
  let excess := length rest - TAIL_BUDGET in
  mkHTB (take HEAD_BUDGET bs) (drop excess rest) (usize_sat (N.of_nat excess)).

(** The last [n] bytes. *)
Definition keep_last (n : nat) (bs : list byte) : list byte := drop (length bs - n) bs.

Lemma length_keep_last n bs : length (keep_last n bs) = Nat.min n (length bs).
Proof. unfold keep_last. rewrite length_drop. lia. Qed.

Lemma keep_last_app n a b : keep_last n (keep_last n a ++ b) = keep_last n (a ++ b).
Proof.
  unfold keep_last. rewrite !length_app, length_drop.
  destruct (decide (n <= length b)) as [Hle|Hgt].
  - rewrite !drop_app_ge by (rewrite ?length_drop; lia). rewrite length_drop. f_equal. lia.
  - rewrite !drop_app_le by (rewrite ?length_drop; lia). rewrite drop_drop. f_equal. f_equal. lia.
Qed.

Lemma keep_last_short n a : length a <= n -> keep_last n a = a.
Proof. intros H. unfold keep_last. by replace (length a - n) with 0 by lia. Qed.

Lemma summary_eq bs :
  summary bs = mkHTB (take HEAD_BUDGET bs) (keep_last TAIL_BUDGET (drop HEAD_BUDGET bs))
                 (usize_sat (N.of_nat (length bs - HEAD_BUDGET - TAIL_BUDGET))).
Proof. unfold summary, keep_last. by rewrite length_drop. Qed.

Lemma fill_head_spec b chunk :
  fill_head b chunk =
  let k := HEAD_BUDGET - length (htb_head b) in
  (mkHTB (htb_head b ++ take k chunk) (htb_tail b) (htb_omitted b), drop k chunk).
Proof.
  unfold fill_head. destruct (Nat.leb_spec (HEAD_BUDGET - length (htb_head b)) (length chunk)); [done|].
  simpl. by rewrite take_ge, drop_ge by lia.
Qed.

Lemma push_tail_spec h t o chunk :
  length t <= TAIL_BUDGET ->
  push_tail (mkHTB h t (usize_sat o)) chunk
  = mkHTB h (keep_last TAIL_BUDGET (t ++ chunk))
      (usize_sat (o + N.of_nat (length t + length chunk - TAIL_BUDGET))).
Proof.
  intros Ht. unfold push_tail. simpl. rewrite saturating_add_sat_l.
  assert (He : length chunk - (TAIL_BUDGET - length t) = length t + length chunk - TAIL_BUDGET) by lia.
  rewrite He. unfold keep_last. rewrite length_app.
  destruct (Nat.ltb_spec (length t + length chunk - TAIL_BUDGET) (length t)) as [Hlt|Hge].
  - by rewrite drop_app_le by lia.
  - by rewrite drop_app_ge by lia.
Qed.

Lemma push_chunk_summary bs c : push_chunk (summary bs) c = summary (bs ++ c).
Proof.
  rewrite !summary_eq. unfold push_chunk. rewrite fill_head_spec. simpl.
  rewrite push_tail_spec by (rewrite length_keep_last; lia).
  rewrite length_keep_last, length_take, !length_drop, length_app.
  set (k := HEAD_BUDGET - Nat.min HEAD_BUDGET (length bs)). f_equal.
  - rewrite take_app. f_equal. f_equal. lia.
  - rewrite keep_last_app. f_equal. rewrite drop_app. do 2 f_equal. lia.
  - f_equal. lia.
Qed.

(** A tail that is pushed in two slices is pushed whole. *)
Lemma push_tail_split h t o a b :
  length t <= TAIL_BUDGET -> length a + length b < TAIL_BUDGET ->
  push_tail (push_tail (mkHTB h t (usize_sat o)) a) b = push_tail (mkHTB h t (usize_sat o)) (a ++ b).
Proof.
  intros Ht Hab. rewrite (push_tail_spec h t o a), (push_tail_spec h t o (a ++ b)) by done.
  rewrite push_tail_spec by (rewrite length_keep_last; lia).
  rewrite keep_last_app, app_assoc, length_keep_last, !length_app. f_equal. f_equal. lia.
Qed.

Lemma budgets : HEAD_BUDGET <= TAIL_BUDGET.
Proof. unfold TAIL_BUDGET, HEAD_BUDGET. pose proof (Nat.div_mod MAX_BYTES 2). lia. Qed.

Lemma keep_last_ge n a b : n <= length b -> keep_last n (a ++ b) = keep_last n b.
Proof. intros H. unfold keep_last. rewrite length_app, drop_app_ge by lia. f_equal. lia. Qed.

Lemma keep_last_nil n a : 0 < n -> keep_last n a = [] -> a = [].
Proof.
  intros Hn E. apply (f_equal length) in E. rewrite length_keep_last in E. simpl in E.
  destruct a; [done|]. simpl in E. lia.
Qed.

(** The head that a merge starts from, and the rest of the source head. *)
Lemma merge_head (a b : list byte) t o :
  let k := HEAD_BUDGET - length (take HEAD_BUDGET a) in
  match take HEAD_BUDGET a with
  | [] => (mkHTB (take HEAD_BUDGET b) t o, [])
  | _ => fill_head (mkHTB (take HEAD_BUDGET a) t o) (take HEAD_BUDGET b)
  end = (mkHTB (take HEAD_BUDGET (a ++ b)) t o, drop k (take HEAD_BUDGET b)).
Proof.
  intros k. assert (E : fill_head (mkHTB (take HEAD_BUDGET a) t o) (take HEAD_BUDGET b)
    = (mkHTB (take HEAD_BUDGET (a ++ b)) t o, drop k (take HEAD_BUDGET b))).
  { rewrite fill_head_spec. simpl. fold k. rewrite take_app, take_take.
    by replace (Nat.min k HEAD_BUDGET) with (HEAD_BUDGET - length a)
      by (unfold k; rewrite length_take; lia). }
  rewrite <- E. destruct (take HEAD_BUDGET a) as [|x l] eqn:Hh; [|done].
  rewrite fill_head_spec. simpl. rewrite Nat.sub_0_r, take_take.
  rewrite Nat.min_id, drop_ge; [done|]. rewrite length_take. lia.
Qed.

(** The bytes after the head of a concatenation. *)
Lemma merge_rest (a b : list byte) :
  let k := HEAD_BUDGET - length (take HEAD_BUDGET a) in
  drop HEAD_BUDGET (a ++ b)
  = (drop HEAD_BUDGET a ++ drop k (take HEAD_BUDGET b)) ++ drop HEAD_BUDGET b.
Proof.
  intros k. rewrite drop_app, <- app_assoc. f_equal.
  rewrite <- (take_drop HEAD_BUDGET b) at 1. rewrite drop_app. f_equal.
  - f_equal. unfold k. rewrite length_take. lia.
  - rewrite length_take. destruct (decide (HEAD_BUDGET <= length b)).
    + replace (HEAD_BUDGET - length a - Nat.min HEAD_BUDGET (length b)) with 0 by lia. done.
    + rewrite (drop_ge b HEAD_BUDGET) by lia. by rewrite drop_nil.
Qed.

Lemma usize_sat_add a b : saturating_add (usize_sat a) (usize_sat b) = usize_sat (a + b)%N.
Proof. unfold saturating_add, usize_sat. lia. Qed.

Lemma push_buffer_summary wrap a b : push_buffer wrap (summary a) (summary b) = summary (a ++ b).
Proof.
  pose proof budgets as HT. rewrite !summary_eq. unfold push_buffer. cbn [htb_head htb_tail htb_omitted].
  rewrite usize_sat_add, merge_head. cbn [htb_head htb_tail htb_omitted].
  rewrite merge_rest. set (ov := drop _ (take HEAD_BUDGET b)).
  assert (Hov : length ov = Nat.min HEAD_BUDGET (length b)
                            - (HEAD_BUDGET - Nat.min HEAD_BUDGET (length a)))
    by (unfold ov; by rewrite length_drop, !length_take).
  set (ra := drop HEAD_BUDGET a). set (rb := drop HEAD_BUDGET b).
  assert (Hra : length ra = length a - HEAD_BUDGET) by apply length_drop.
  assert (Hrb : length rb = length b - HEAD_BUDGET) by apply length_drop.
  rewrite length_app. clearbody ov ra rb. rewrite length_keep_last.
  destruct (Nat.eqb_spec (Nat.min TAIL_BUDGET (length rb)) TAIL_BUDGET) as [Hfull|Hpart].
  - rewrite keep_last_ge by lia. f_equal. rewrite !saturating_add_sat_l. unfold nlen.
    rewrite length_keep_last. f_equal. lia.
  - rewrite push_tail_spec by (rewrite length_keep_last; lia). rewrite keep_last_app.
    cbn [htb_head htb_tail htb_omitted]. rewrite (keep_last_short TAIL_BUDGET rb) by lia.
    destruct (keep_last TAIL_BUDGET (ra ++ ov)) as [|x l] eqn:Ek.
    + apply keep_last_nil in Ek as [-> ->]%app_eq_nil; [|lia].
      cbn [app]. rewrite (keep_last_short TAIL_BUDGET rb) by lia. rewrite length_keep_last.
      cbn [length] in *. f_equal. f_equal. lia.
    + rewrite <- Ek. rewrite push_tail_split, take_drop, push_tail_spec.
      2,3,4: rewrite ?length_keep_last, ?length_take, ?length_drop; lia.
      rewrite keep_last_app, !length_keep_last, length_app. clear Ek.
      assert (Hlen : length a + length b - HEAD_BUDGET = length ra + length ov + length rb) by lia.
      rewrite Hlen, <- Hra, <- Hrb. f_equal. apply f_equal.
      clear - Hpart. rewrite <- !Nat2N.inj_add. f_equal. lia.
Qed.

Lemma push_chunks_eq cs : fold_left push_chunk cs htb_default = summary (concat cs).
Proof.
  assert (Hgen : forall bs, fold_left push_chunk cs (summary bs) = summary (bs ++ concat cs)).
  { induction cs as [|c cs IH]; intros bs; simpl; [by rewrite app_nil_r|].
    by rewrite push_chunk_summary, IH, app_assoc. }
  specialize (Hgen []). by rewrite summary_eq, drop_nil, take_nil in Hgen.
Qed.

(** C10: whatever chunks are pushed, the buffer is the summary of all the bytes:
    the first [HEAD_BUDGET], the last [TAIL_BUDGET] of the rest, and the
    number of bytes between them, saturated; it never holds more than
    [MAX_BYTES], and an output that fits is given back unchanged, also by the
    version with a marker. *)
Theorem push_chunks_summarize cs :
  let b := fold_left push_chunk cs htb_default in
  b = summary (concat cs)
  /\ length (htb_head b) + length (htb_tail b) <= MAX_BYTES
  /\ total_bytes b = usize_sat (nlen (concat cs))
  /\ (length (concat cs) <= MAX_BYTES ->
      to_bytes b = concat cs /\ to_bytes_with_omission_marker b = concat cs).
Proof.
  intros b. assert (Hb : b = summary (concat cs)) by apply push_chunks_eq.
  rewrite Hb, summary_eq. set (bs := concat cs).
  assert (Hmax : HEAD_BUDGET + TAIL_BUDGET = MAX_BYTES).
  { unfold TAIL_BUDGET, HEAD_BUDGET. pose proof (Nat.div_mod MAX_BYTES 2). lia. }
  cbn [htb_head htb_tail]. split_and!; [done|..].
  - rewrite length_keep_last, length_take, length_drop. lia.
  - unfold total_bytes, retained_bytes. simpl. unfold nlen, saturating_add.
    rewrite length_keep_last, length_take, length_drop. unfold usize_sat. lia.
  - intros Hle. rewrite keep_last_short by (rewrite length_drop; lia).
    unfold to_bytes_with_omission_marker, to_bytes. simpl. rewrite take_drop.
    by replace (length bs - HEAD_BUDGET - TAIL_BUDGET) with 0 by lia.
Qed.

(** Merging the buffer of a later output into the buffer of an earlier one
    gives the buffer of the concatenated output, its omission count included,
    wherever the ring buffer of the source tail wraps. *)
Theorem push_buffer_concatenates wrap cs ds :
  push_buffer wrap (fold_left push_chunk cs htb_default) (fold_left push_chunk ds htb_default)
  = fold_left push_chunk (cs ++ ds) htb_default.
Proof. rewrite !push_chunks_eq, concat_app. apply push_buffer_summary. Qed.

End buffer.

(** An output of three bytes in a buffer of four. *)
Lemma push_chunks_summarize_witness :
  to_bytes (fold_left (push_chunk 4) [[1]; [2; 3]]%N htb_default) = [1; 2; 3]%N.
Proof.
  refine (proj1 (proj2 (proj2 (proj2 (push_chunks_summarize 4 [[1]; [2; 3]]%N))) _)).
  apply Nat.leb_le. vm_compute. reflexivity.
Defined.
