(* ===== verification/Truncate.v ===== *)
(** * utils/string: truncation and sanitising

    [truncate.rs] and [lib.rs] of utils/string: middle truncation on UTF-8
    boundaries with a byte or token budget, prefix truncation, metric tags,
    markdown locations.  Byte offsets are kept as offsets: a slice at an offset that is
    not a character boundary is [None] (the Rust panic). *)

From S2P Require Import Prelude RustStr.

(** ** Byte slices *)

(** [&s[..n]] *)
Fixpoint slice_to (n : N) (s : str) : option str :=
  if (n =? 0)%N then Some []
  else match s with
       | [] => None
       | c :: s' =>
           if (n <? len_utf8 c)%N then None
           else match slice_to (n - len_utf8 c)%N s' with
                | Some p => Some (c :: p)
                | None => None
                end
       end.

(** [&s[n..]] *)
Fixpoint slice_from (n : N) (s : str) : option str :=
  if (n =? 0)%N then Some s
  else match s with
       | [] => None
       | c :: s' => if (n <? len_utf8 c)%N then None else slice_from (n - len_utf8 c)%N s'
       end.

(** [s.char_indices()], from offset [i]. *)
Fixpoint char_indices_from (i : N) (s : str) : list (N * char) :=
  match s with
  | [] => []
  | c :: s' => (i, c) :: char_indices_from (i + len_utf8 c)%N s'
  end.
Definition char_indices (s : str) : list (N * char) := char_indices_from 0%N s.

(** ** truncate.rs *)

Definition APPROX_BYTES_PER_TOKEN : N := 4%N.

Definition approx_token_count (text : str) : N :=
  (saturating_add (len text) (saturating_sub APPROX_BYTES_PER_TOKEN 1) / APPROX_BYTES_PER_TOKEN)%N.

Definition approx_bytes_for_tokens (tokens : N) : N := saturating_mul tokens APPROX_BYTES_PER_TOKEN.

(** [u64] has the width of [usize]. *)
Definition approx_tokens_from_byte_count (bytes : N) : N :=
  (saturating_add bytes (saturating_sub APPROX_BYTES_PER_TOKEN 1) / APPROX_BYTES_PER_TOKEN)%N.

Record split_state := mkSplit {
  prefix_end : N;
  suffix_start : N;
  removed_chars : N;
  suffix_started : bool;
}.

(** The body of the loop of [split_string]. *)
Definition split_step (beginning_bytes tail_start_target : N) (st : split_state) (ic : N * char)
    : split_state :=
  let '(idx, ch) := ic in
  let char_end := (idx + len_utf8 ch)%N in
  if (char_end <=? beginning_bytes)%N then
    mkSplit char_end (suffix_start st) (removed_chars st) (suffix_started st)
  else if (tail_start_target <=? idx)%N then
    if suffix_started st then st
    else mkSplit (prefix_end st) idx (removed_chars st) true
  else mkSplit (prefix_end st) (suffix_start st) (saturating_add (removed_chars st) 1)
         (suffix_started st).

Definition split_string (s : str) (beginning_bytes end_bytes : N) : option (N * str * str) :=
  match s with
  | [] => Some (0%N, [], [])
  | _ =>
      let st := fold_left (split_step beginning_bytes (saturating_sub (len s) end_bytes))
                  (char_indices s) (mkSplit 0 (len s) 0 false) in
      let suffix_start := if (suffix_start st <? prefix_end st)%N then prefix_end st
                          else suffix_start st in
      before ← slice_to (prefix_end st) s;
      after ← slice_from suffix_start s;
      Some (removed_chars st, before, after)
  end.

Definition split_budget (budget : N) : N * N :=
  let left_part := (budget / 2)%N in (left_part, (budget - left_part)%N).

Definition format_truncation_marker (use_tokens : bool) (removed_count : N) : str :=
  [ch_ellipsis] ++ fmt_N removed_count
    ++ (if use_tokens then lit " tokens truncated" else lit " chars truncated") ++ [ch_ellipsis].

Definition removed_units (use_tokens : bool) (removed_bytes removed_chars : N) : N :=
  if use_tokens then approx_tokens_from_byte_count removed_bytes else removed_chars.

Definition assemble_truncated_output (prefix suffix marker : str) : str :=
  prefix ++ marker ++ suffix.

Definition truncate_with_byte_estimate (s : str) (max_bytes : N) (use_tokens : bool) : option str :=
  match s with
  | [] => Some []
  | _ =>
      let total_chars := chars_count s in
      if (max_bytes =? 0)%N then
        Some (format_truncation_marker use_tokens (removed_units use_tokens (len s) total_chars))
      else if (len s <=? max_bytes)%N then Some s
      else
        let total_bytes := len s in
        let '(left_budget, right_budget) := split_budget max_bytes in
        '(removed, left_part, right_part) ← split_string s left_budget right_budget;
        let marker := format_truncation_marker use_tokens
                        (removed_units use_tokens (saturating_sub total_bytes max_bytes) removed) in
        Some (assemble_truncated_output left_part right_part marker)
  end.

Definition truncate_middle_chars (s : str) (max_bytes : N) : option str :=
  truncate_with_byte_estimate s max_bytes false.

Definition truncate_middle_with_token_budget (s : str) (max_tokens : N)
    : option (str * option N) :=
  match s with
  | [] => Some ([], None)
  | _ =>
      if (0 <? max_tokens)%N && (len s <=? approx_bytes_for_tokens max_tokens)%N
      then Some (s, None)
      else
        truncated ← truncate_with_byte_estimate s (approx_bytes_for_tokens max_tokens) true;
        let total_tokens := approx_token_count s in
        Some (if str_eqb truncated s then (truncated, None) else (truncated, Some total_tokens))
  end.

(** ** utils/string/src/lib.rs *)

(** The loop of [take_bytes_at_char_boundary]; it breaks at the first
    character that does not fit. *)
Fixpoint last_boundary (maxb last_ok : N) (ics : list (N * char)) : N :=
  match ics with
  | [] => last_ok
  | (i, ch) :: ics' =>
      let nb := (i + len_utf8 ch)%N in
      if (maxb <? nb)%N then last_ok else last_boundary maxb nb ics'
  end.

Definition take_bytes_at_char_boundary (s : str) (maxb : N) : option str :=
  if (len s <=? maxb)%N then Some s
  else slice_to (last_boundary maxb 0%N (char_indices s)) s.

Definition metric_char_allowed (ch : char) : bool :=
  is_ascii_alphanumeric ch || existsb (N.eqb ch) (lit "._-/").

Definition trim_matches (c : char) (s : str) : str :=
  drop_while_end (N.eqb c) (drop_while (N.eqb c) s).

Definition ch_underscore : char := 95%N.

Definition sanitize_metric_tag_value (value : str) : option str :=
  let MAX_LEN := 256%N in
  let sanitized := map (fun ch => if metric_char_allowed ch then ch else ch_underscore) value in
  let trimmed := trim_matches ch_underscore sanitized in
  if bool_decide (trimmed = []) || forallb (fun ch => negb (is_ascii_alphanumeric ch)) trimmed
  then Some (lit "unspecified")
  else if (len trimmed <=? MAX_LEN)%N then Some trimmed
  else slice_to MAX_LEN trimmed.

Definition parse_markdown_hash_location_point (point : str) : option (str * option str) :=
  point ← strip_prefix (lit "L") point;
  match split_once 67%N point with
  | Some (line, column) => Some (line, Some column)
  | None => Some (point, None)
  end.

Definition location_point (p : str * option str) : str :=
  p.1 ++ match p.2 with Some column => lit ":" ++ column | None => [] end.

Definition normalize_markdown_hash_location_suffix (suffix : str) : option str :=
  fragment ← strip_prefix (lit "#") suffix;
  let '(start, end_) := match split_once ch_minus fragment with
                        | Some (start, end_) => (start, Some end_)
                        | None => (fragment, None)
                        end in
  sp ← parse_markdown_hash_location_point start;
  let normalized := lit ":" ++ location_point sp in
  match end_ with
  | Some end_ =>
      ep ← parse_markdown_hash_location_point end_;
      Some (normalized ++ lit "-" ++ location_point ep)
  | None => Some normalized
  end.

(** ** Slices at boundaries *)

Lemma slice_to_0 s : slice_to 0%N s = Some [].
Proof. by destruct s. Qed.

Lemma slice_from_0 s : slice_from 0%N s = Some s.
Proof. by destruct s. Qed.

Lemma slice_to_app p r : slice_to (len p) (p ++ r) = Some p.
Proof.
  induction p as [|c p IH]; [apply slice_to_0|]. simpl. pose proof (len_utf8_bounds c).
  destruct (N.eqb_spec (len_utf8 c + len p) 0); [lia|].
  destruct (N.ltb_spec (len_utf8 c + len p) (len_utf8 c)); [lia|].
  replace (len_utf8 c + len p - len_utf8 c)%N with (len p) by lia. by rewrite IH.
Qed.

Lemma slice_from_app p r : slice_from (len p) (p ++ r) = Some r.
Proof.
  induction p as [|c p IH]; [apply slice_from_0|]. simpl. pose proof (len_utf8_bounds c).
  destruct (N.eqb_spec (len_utf8 c + len p) 0); [lia|].
  destruct (N.ltb_spec (len_utf8 c + len p) (len_utf8 c)); [lia|].
  replace (len_utf8 c + len p - len_utf8 c)%N with (len p) by lia. by rewrite IH.
Qed.

Lemma char_indices_app i a b :
  char_indices_from i (a ++ b) = char_indices_from i a ++ char_indices_from (i + len a)%N b.
Proof.
  revert i; induction a as [|c a IH]; intros i; simpl; [by rewrite N.add_0_r|].
  by rewrite IH, N.add_assoc.
Qed.

(** ** The three parts of [split_string] *)

(** The longest prefix that ends within [beg]. *)
Lemma prefix_part beg i s : exists p r, s = p ++ r
  /\ (p <> [] -> (i + len p <= beg)%N)
  /\ (forall c r', r = c :: r' -> (beg < i + len p + len_utf8 c)%N).
Proof.
  revert i; induction s as [|c s IH]; intros i; [by exists [], []|].
  destruct (N.leb_spec (i + len_utf8 c) beg) as [Hle|Hgt].
  - destruct (IH (i + len_utf8 c)%N) as (p & r & -> & H1 & H2). exists (c :: p), r.
    split_and!; [done|..].
    + intros _. simpl. destruct p; [simpl; lia|]. specialize (H1 ltac:(done)). simpl in *. lia.
    + intros c' r' ->. specialize (H2 _ _ eq_refl). simpl. lia.
  - exists [], (c :: s). split_and!; [done|done|]. intros c' r' ?; simplify_eq. simpl. lia.
Qed.

(** The characters that start before [target]. *)
Lemma middle_part target i s : exists m a, s = m ++ a
  /\ (m <> [] -> (i + len (removelast m) < target)%N)
  /\ (a <> [] -> (target <= i + len m)%N).
Proof.
  revert i; induction s as [|c s IH]; intros i; [by exists [], []|].
  destruct (N.ltb_spec i target) as [Hlt|Hge].
  - destruct (IH (i + len_utf8 c)%N) as (m & a & -> & H1 & H2). exists (c :: m), a.
    split_and!; [done|..].
    + intros _. destruct m as [|d m]; [simpl; lia|]. specialize (H1 ltac:(done)).
      change (removelast (c :: d :: m)) with (c :: removelast (d :: m)). cbn [len]. lia.
    + intros Ha. specialize (H2 Ha). simpl. lia.
  - exists [], (c :: s). split_and!; [done|done|]. intros _. simpl. lia.
Qed.

Section fold_parts.
Context (beg target : N).
Notation step := (split_step beg target).

Lemma fold_prefix p i pe ss rm b :
  (p <> [] -> (i + len p <= beg)%N) ->
  fold_left step (char_indices_from i p) (mkSplit pe ss rm b)
  = mkSplit (match p with [] => pe | _ => (i + len p)%N end) ss rm b.
Proof.
  revert i pe; induction p as [|c p IH]; intros i pe H; [done|]. simpl.
  specialize (H ltac:(done)). simpl in H.
  destruct (N.leb_spec (i + len_utf8 c) beg); [|lia]. rewrite IH by (intros; lia).
  f_equal. destruct p; simpl; lia.
Qed.

Lemma fold_middle m i pe ss k b :
  (forall c m', m = c :: m' -> (beg < i + len_utf8 c)%N) ->
  (m <> [] -> (i + len (removelast m) < target)%N) ->
  fold_left step (char_indices_from i m) (mkSplit pe ss (usize_sat k) b)
  = mkSplit pe ss (usize_sat (k + N.of_nat (length m))) b.
Proof.
  revert i k; induction m as [|c m IH]; intros i k H1 H2; simpl; [by rewrite N.add_0_r|].
  specialize (H1 _ _ eq_refl). specialize (H2 ltac:(done)).
  destruct (N.leb_spec (i + len_utf8 c) beg); [lia|].
  destruct (N.leb_spec target i); [destruct m; simpl in H2; lia|].
  simpl. rewrite saturating_add_sat_l, IH.
  - f_equal. f_equal. lia.
  - intros c' m' ->. pose proof (len_utf8_bounds c'). lia.
  - intros Hm. destruct m as [|d m]; [done|].
    change (removelast (c :: d :: m)) with (c :: removelast (d :: m)) in H2. cbn [len] in H2. lia.
Qed.

Lemma fold_suffix a i pe ss rm b :
  (forall c a', a = c :: a' -> (beg < i + len_utf8 c)%N) ->
  (a <> [] -> (target <= i)%N) ->
  fold_left step (char_indices_from i a) (mkSplit pe ss rm b)
  = match a with
    | [] => mkSplit pe ss rm b
    | _ => mkSplit pe (if b then ss else i) rm true
    end.
Proof.
  revert i ss b; induction a as [|c a IH]; intros i ss b H1 H2; [done|]. simpl.
  specialize (H1 _ _ eq_refl). specialize (H2 ltac:(done)).
  destruct (N.leb_spec (i + len_utf8 c) beg); [lia|].
  destruct (N.leb_spec target i); [|lia].
  pose proof (len_utf8_bounds c).
  assert (Hnext : forall c' a', a = c' :: a' -> (beg < i + len_utf8 c + len_utf8 c')%N) by lia.
  destruct b; simpl; rewrite IH by (done || lia); by destruct a.
Qed.
End fold_parts.

Lemma split_string_spec s beg end_bytes : exists b m a,
  s = b ++ m ++ a
  /\ split_string s beg end_bytes = Some (usize_sat (chars_count m), b, a)
  /\ (len b <= beg)%N /\ (len a <= end_bytes)%N
  /\ (forall c m', m = c :: m' -> (beg < len b + len_utf8 c)%N)
  /\ (forall c m', m = m' ++ [c] -> (end_bytes < len_utf8 c + len a)%N).
Proof.
  set (target := saturating_sub (len s) end_bytes).
  destruct (prefix_part beg 0 s) as (b & r & Hs & Hb & Hr).
  destruct (middle_part target (len b) r) as (m & a & Hr' & Hm & Ha). exists b, m, a.
  assert (Hlen : len s = (len b + (len m + len a))%N) by (rewrite Hs, Hr', !len_app; lia).
  assert (Hbb : (len b <= beg)%N).
  { destruct b; [simpl; lia|]. specialize (Hb ltac:(done)). lia. }
  assert (Haa : (len a <= end_bytes)%N).
  { destruct a as [|c a]; [simpl; lia|]. specialize (Ha ltac:(done)).
    unfold target, saturating_sub in Ha. lia. }
  split_and!; [by rewrite Hs, Hr'| |done|done|..].
  2:{ intros c m' ->. rewrite Hr' in Hr. specialize (Hr _ _ eq_refl). lia. }
  2:{ intros c m' ->. specialize (Hm ltac:(by destruct m')).
      rewrite removelast_last in Hm. rewrite len_app in Hlen. simpl in Hlen.
      unfold target, saturating_sub in Hm. lia. }
  assert (Hfold : exists started,
    fold_left (split_step beg target) (char_indices s) (mkSplit 0 (len s) 0 false)
    = mkSplit (len b) (len b + len m) (usize_sat (chars_count m)) started).
  { rewrite Hlen. unfold char_indices. rewrite Hs, Hr', !char_indices_app, !fold_left_app.
    rewrite fold_prefix by done. rewrite (fold_middle _ _ m _ _ _ 0).
    2:{ intros c m' ->. rewrite Hr' in Hr. specialize (Hr _ _ eq_refl). lia. }
    2:{ intros Hne. specialize (Hm Hne). lia. }
    rewrite fold_suffix.
    2:{ intros c a' ->. pose proof (len_utf8_bounds c). rewrite Hr' in Hr.
        destruct m as [|d m]; specialize (Hr _ _ eq_refl); simpl; lia. }
    2:{ intros Hne. specialize (Ha Hne). lia. }
    destruct b, a; simpl; eexists; f_equal; lia. }
  destruct Hfold as [started Hfold]. unfold split_string. fold target. rewrite Hfold.
  cbn [prefix_end suffix_start removed_chars].
  destruct (N.ltb_spec (len b + len m) (len b)); [lia|].
  assert (H1 : slice_to (len b) s = Some b) by (rewrite Hs; apply slice_to_app).
  assert (H2 : slice_from (len b + len m) s = Some a).
  { rewrite Hs, Hr', app_assoc, <- len_app. apply slice_from_app. }
  rewrite H1, H2. destruct s; [|done]. symmetry in Hs. apply app_eq_nil in Hs as [-> ->].
  symmetry in Hr'. by apply app_eq_nil in Hr' as [-> ->].
Qed.

Lemma len_pos (s : str) : s <> [] -> (0 < len s)%N.
Proof. intros H. destruct (N.eq_dec (len s) 0) as [E|]; [by apply len_zero in E|lia]. Qed.

Lemma truncate_with_byte_estimate_total s max_bytes use_tokens :
  is_Some (truncate_with_byte_estimate s max_bytes use_tokens).
Proof.
  unfold truncate_with_byte_estimate. destruct s as [|c s]; [eauto|].
  case_match; [eauto|]. case_match; [eauto|]. unfold split_budget.
  destruct (split_string_spec (c :: s) (max_bytes / 2) (max_bytes - max_bytes / 2))
    as (b & m & a & _ & -> & _). simpl. eauto.
Qed.

(** Middle truncation never panics; a text within the budget is returned
    as it is; otherwise the result is a prefix within half of the budget, the
    marker and a suffix within the other half, both cut at character
    boundaries and both as long as those budgets allow, and the character
    marker counts exactly the characters that are missing; with an empty
    budget only the marker remains. *)
Theorem truncate_middle_correct s max_bytes use_tokens :
  exists out, truncate_with_byte_estimate s max_bytes use_tokens = Some out
  /\ ((len s <= max_bytes)%N -> out = s)
  /\ ((0 < max_bytes < len s)%N ->
      exists b m a, s = b ++ m ++ a /\ m <> []
        /\ out = b ++ format_truncation_marker use_tokens
                        (removed_units use_tokens (len s - max_bytes) (usize_sat (chars_count m))) ++ a
        /\ (len b <= max_bytes / 2)%N /\ (len a <= max_bytes - max_bytes / 2)%N
        /\ (forall c m', m = c :: m' -> (max_bytes / 2 < len b + len_utf8 c)%N)
        /\ (forall c m', m = m' ++ [c] -> (max_bytes - max_bytes / 2 < len_utf8 c + len a)%N))
  /\ (max_bytes = 0%N -> s <> [] ->
      out = format_truncation_marker use_tokens
              (removed_units use_tokens (len s) (chars_count s))).
Proof.
  destruct (truncate_with_byte_estimate_total s max_bytes use_tokens) as [out E].
  exists out. split; [done|]. unfold truncate_with_byte_estimate in E.
  destruct s as [|c s]; [simplify_eq; split_and!; [done|simpl; lia|done]|].
  assert (Hpos : (0 < len (c :: s))%N) by by apply len_pos.
  remember (c :: s) as t eqn:Ht. clear Ht.
  destruct (N.eqb_spec max_bytes 0) as [->|Hne]; [simplify_eq; split_and!; [lia|lia|done]|].
  destruct (N.leb_spec (len t) max_bytes) as [Hle|Hgt]; [simplify_eq; split_and!; [done|lia|lia]|].
  split_and!; [lia| |lia]. intros _. unfold split_budget in E.
  destruct (split_string_spec t (max_bytes / 2) (max_bytes - max_bytes / 2))
    as (b & m & a & Hs & Es & Hb & Ha & Hm1 & Hm2).
  rewrite Es in E. simplify_eq/=. exists b, m, a. split_and!; try done.
  intros ->. rewrite !len_app in Hgt. simpl in Hgt.
  assert (max_bytes / 2 <= max_bytes)%N by (apply N.Div0.div_le_upper_bound; lia). lia.
Qed.

(** A budget of three bytes on five characters of one byte. *)
Lemma truncate_middle_correct_witness :
  exists b m a, lit "abcde" = b ++ m ++ a /\ m <> []
    /\ lit "a" ++ format_truncation_marker false 2 ++ lit "de"
       = b ++ format_truncation_marker false (usize_sat (chars_count m)) ++ a.
Proof.
  destruct (truncate_middle_correct (lit "abcde") 3%N false) as (out & H0 & _ & H2 & _).
  vm_compute in H0. destruct H2 as (b & m & a & H3 & H4 & H5 & _).
  - vm_compute. split; reflexivity.
  - exists b, m, a. split; [exact H3|]. split; [exact H4|].
    transitivity out; [injection H0 as <-; vm_compute; reflexivity|exact H5].
Defined.

(** ** Prefix truncation and metric tags *)

Lemma last_boundary_spec maxb i s :
  (i <= maxb)%N -> exists p r, s = p ++ r
    /\ last_boundary maxb i (char_indices_from i s) = (i + len p)%N
    /\ (i + len p <= maxb)%N
    /\ (forall c r', r = c :: r' -> (maxb < i + len p + len_utf8 c)%N).
Proof.
  revert i; induction s as [|c s IH]; intros i Hi; simpl.
  - exists [], []. split_and!; [done|simpl; lia|simpl; lia|done].
  - destruct (N.ltb_spec maxb (i + len_utf8 c)) as [Hlt|Hge].
    + exists [], (c :: s). split_and!; [done|simpl; lia|simpl; lia|].
      intros c' r' ?; simplify_eq. simpl. lia.
    + destruct (IH (i + len_utf8 c)%N Hge) as (p & r & -> & H1 & H2 & H3).
      exists (c :: p), r. split_and!; [done|simpl; lia|simpl; lia|].
      intros c' r' ->. specialize (H3 _ _ eq_refl). simpl. lia.
Qed.

(** [take_bytes_at_char_boundary] is the longest prefix within the budget. *)
Lemma take_bytes_at_char_boundary_spec s maxb : exists p r,
  take_bytes_at_char_boundary s maxb = Some p /\ s = p ++ r /\ (len p <= maxb)%N
  /\ (forall c r', r = c :: r' -> (maxb < len p + len_utf8 c)%N).
Proof.
  unfold take_bytes_at_char_boundary. destruct (N.leb_spec (len s) maxb) as [Hle|Hgt].
  - exists s, []. rewrite app_nil_r. split_and!; done.
  - destruct (last_boundary_spec maxb 0 s) as (p & r & -> & H1 & H2 & H3); [lia|].
    exists p, r. unfold char_indices. rewrite H1, N.add_0_l, slice_to_app.
    split_and!; [done|done|lia|]. intros c r' Hr. specialize (H3 _ _ Hr). lia.
Qed.

Lemma metric_char_ascii c : metric_char_allowed c = true -> len_utf8 c = 1%N.
Proof.
  unfold metric_char_allowed, is_ascii_alphanumeric, is_ascii_digit, is_ascii_uppercase,
    is_ascii_lowercase. intros H. unfold len_utf8.
  assert (c < 128)%N; [|by rewrite (proj2 (N.ltb_lt c 128))].
  rewrite !orb_true_iff, !andb_true_iff, !N.leb_le, existsb_exists in H.
  destruct H as [H|(x & Hx & Hc)]; [lia|]. apply N.eqb_eq in Hc as ->.
  vm_compute in Hx. intuition (subst; lia).
Qed.

Lemma ascii_len s : Forall (fun c => metric_char_allowed c = true) s -> len s = chars_count s.
Proof.
  induction 1 as [|c s Hc _ IH]; [done|]. simpl. rewrite (metric_char_ascii c Hc), IH.
  unfold chars_count. simpl. lia.
Qed.

Lemma drop_while_forall {A} (P : A -> Prop) f (l : list A) : Forall P l -> Forall P (drop_while f l).
Proof.
  intros H. destruct (drop_while_suffix f l) as (l1 & E & _). rewrite E in H.
  by apply Forall_app in H as [_ ?].
Qed.

Lemma drop_while_end_forall {A} (P : A -> Prop) f (l : list A) :
  Forall P l -> Forall P (drop_while_end f l).
Proof.
  intros H. destruct (drop_while_end_prefix f l) as (l1 & E & _). rewrite E in H.
  by apply Forall_app in H as [? _].
Qed.

(** A sanitized metric tag value is never empty, has at most 256 bytes and
    only ASCII letters, digits and the characters [._-/]; cutting it never
    splits a character. *)
Theorem sanitize_metric_tag_value_valid value :
  exists out, sanitize_metric_tag_value value = Some out /\ out <> [] /\ (len out <= 256)%N
    /\ Forall (fun c => metric_char_allowed c = true) out.
Proof.
  unfold sanitize_metric_tag_value. set (san := map _ value).
  assert (Hsan : Forall (fun c => metric_char_allowed c = true) (trim_matches ch_underscore san)).
  { apply drop_while_end_forall, drop_while_forall, List.Forall_map, List.Forall_forall.
    intros c _. simpl. destruct (metric_char_allowed c) eqn:E; [done|reflexivity]. }
  set (t := trim_matches ch_underscore san) in *.
  destruct (bool_decide (t = []) || _) eqn:E.
  { eexists. split_and!; [done|vm_compute; discriminate|vm_compute; discriminate|].
    repeat constructor. }
  apply orb_false_iff in E as [E _]. apply bool_decide_eq_false in E.
  destruct (N.leb_spec (len t) 256) as [Hle|Hgt]; [by exists t|].
  exists (take 256 t). assert (Hp : Forall (fun c => metric_char_allowed c = true) (take 256 t))
    by by apply Forall_take.
  rewrite (ascii_len t Hsan) in Hgt. unfold chars_count in Hgt.
  assert (Hlen : len (take 256 t) = 256%N).
  { rewrite ascii_len by done. unfold chars_count. rewrite length_take. lia. }
  split_and!; [|by destruct t|lia|done].
  rewrite <- (take_drop 256 t) at 1. rewrite <- Hlen. apply slice_to_app.
Qed.
