(* ===== verification/OutputTruncation.v ===== *)
(** * utils/output-truncation: tool output

    [output-truncation/src/lib.rs] with the payload types of
    [protocol/src/models.rs] and the policy of [protocol/src/protocol.rs].
    The estimate of audio tokens is a caller's function, a parameter here. *)

From S2P Require Import Prelude RustStr Truncate.
From Stdlib Require Import SpecFloat.

Inductive ImageDetail := Auto | Low | High | Original.

Inductive FunctionCallOutputContentItem :=
| InputText (text : str)
| InputImage (image_url : str) (detail : option ImageDetail)
| InputAudio (audio_url : str)
| EncryptedContent (encrypted_content : str).

Inductive FunctionCallOutputBody :=
| BodyText (text : str)
| ContentItems (items : list FunctionCallOutputContentItem).

Record FunctionCallOutputPayload := mkPayload {
  body : FunctionCallOutputBody;
  success : option bool;
}.

Inductive TruncationPolicy :=
| Bytes (bytes : N)
| Tokens (tokens : N).

Definition token_budget (p : TruncationPolicy) : N :=
  match p with
  | Bytes bytes => approx_tokens_from_byte_count bytes
  | Tokens tokens => tokens
  end.

Definition byte_budget (p : TruncationPolicy) : N :=
  match p with
  | Bytes bytes => bytes
  | Tokens tokens => approx_bytes_for_tokens tokens
  end.

(** *** [impl Mul<f64>]: a budget scaled in double precision *)

(** [n as f64], round to nearest even. *)
Definition f64_of_usize (n : N) : spec_float := binary_normalize 53 1024 (Z.of_N n) 0 false.
Definition f64_mul (a b : spec_float) : spec_float := SFmul 53 1024 a b.

(** [x.ceil() as usize]: the cast saturates, a NaN is 0. *)
Definition f64_ceil_as_usize (x : spec_float) : N :=
  match x with
  | S754_finite false m (Zneg e) => usize_sat ((Npos m + 2 ^ Npos e - 1) / 2 ^ Npos e)
  | S754_finite false m e => usize_sat (Npos m * 2 ^ Z.to_N e)
  | S754_infinity false => usize_max
  | _ => 0
  end%N.

Definition policy_mul (p : TruncationPolicy) (multiplier : spec_float) : TruncationPolicy :=
  match p with
  | Bytes bytes => Bytes (f64_ceil_as_usize (f64_mul (f64_of_usize bytes) multiplier))
  | Tokens tokens => Tokens (f64_ceil_as_usize (f64_mul (f64_of_usize tokens) multiplier))
  end.

(** The literal [1.2]. *)
Definition f64_1_2 : spec_float := S754_finite false 5404319552844595 (-52).

Definition truncate_text (content : str) (policy : TruncationPolicy) : option str :=
  match policy with
  | Bytes bytes => truncate_middle_chars content bytes
  | Tokens tokens => '(t, _) ← truncate_middle_with_token_budget content tokens; Some t
  end.

Definition formatted_truncate_text (content : str) (policy : TruncationPolicy) : option str :=
  if (len content <=? byte_budget policy)%N then Some content
  else
    let original_token_count := approx_token_count content in
    let total_lines := length (lines content) in
    result ← truncate_text content policy;
    Some (lit "Warning: truncated output (original token count: "
            ++ fmt_N original_token_count ++ lit ")" ++ [ch_lf]
            ++ lit "Total output lines: " ++ fmt_nat total_lines ++ [ch_lf; ch_lf] ++ result).

Definition item_text (i : FunctionCallOutputContentItem) : option str :=
  match i with InputText text => Some text | _ => None end.

(** The segments joined by a newline, no newline before the first non-empty
    content. *)
Definition combine_segments (segs : list str) : str :=
  fold_left (fun combined text =>
    (if bool_decide (combined = []) then combined else combined ++ [ch_lf]) ++ text) segs [].

Definition formatted_truncate_text_content_items_with_policy
    (items : list FunctionCallOutputContentItem) (policy : TruncationPolicy)
    : option (list FunctionCallOutputContentItem * option N) :=
  let text_segments := omap item_text items in
  match text_segments with
  | [] => Some (items, None)
  | _ =>
      let combined := combine_segments text_segments in
      if (len combined <=? byte_budget policy)%N then Some (items, None)
      else
        let original_token_count := approx_token_count combined in
        text ← formatted_truncate_text combined policy;
        Some (InputText text :: List.filter (fun i => match item_text i with
                                                       | Some _ => false
                                                       | None => true
                                                       end) items,
              Some original_token_count)
  end.

Section items.
(** [estimate_audio_token_count] *)
Context (estimate_audio : str -> N).

Definition text_cost (policy : TruncationPolicy) (text : str) : N :=
  match policy with Bytes _ => len text | Tokens _ => approx_token_count text end.

Definition audio_cost (policy : TruncationPolicy) (url : str) : N :=
  match policy with
  | Bytes _ => approx_bytes_for_tokens (estimate_audio url)
  | Tokens _ => estimate_audio url
  end.

Definition snippet_policy (policy : TruncationPolicy) (remaining_budget : N) : TruncationPolicy :=
  match policy with Bytes _ => Bytes remaining_budget | Tokens _ => Tokens remaining_budget end.

Record items_state := mkItems {
  it_out : list FunctionCallOutputContentItem;
  it_remaining : N;
  omitted_text_items : N;
  omitted_audio_items : N;
}.

(** The body of the loop over the items. *)
Definition truncate_item (policy : TruncationPolicy) (st : items_state)
    (item : FunctionCallOutputContentItem) : option items_state :=
  let '(mkItems out remaining ot oa) := st in
  match item with
  | InputText text =>
      if bool_decide (text = []) then Some st
      else if (remaining =? 0)%N then Some (mkItems out remaining (ot + 1) oa)
      else
        let cost := text_cost policy text in
        if (cost <=? remaining)%N
        then Some (mkItems (out ++ [InputText text]) (saturating_sub remaining cost) ot oa)
        else
          snippet ← truncate_text text (snippet_policy policy remaining);
          Some (if bool_decide (snippet = []) then mkItems out 0 (ot + 1) oa
                else mkItems (out ++ [InputText snippet]) 0 ot oa)
  | InputImage url detail => Some (mkItems (out ++ [InputImage url detail]) remaining ot oa)
  | InputAudio url =>
      let cost := audio_cost policy url in
      if (cost <=? remaining)%N
      then Some (mkItems (out ++ [InputAudio url]) (saturating_sub remaining cost) ot oa)
      else Some (mkItems out remaining ot (oa + 1))
  | EncryptedContent c => Some (mkItems (out ++ [EncryptedContent c]) remaining ot oa)
  end.

Fixpoint truncate_items_loop (policy : TruncationPolicy) (st : items_state)
    (items : list FunctionCallOutputContentItem) : option items_state :=
  match items with
  | [] => Some st
  | i :: items' => st' ← truncate_item policy st i; truncate_items_loop policy st' items'
  end.

Definition item_budget (policy : TruncationPolicy) : N :=
  match policy with Bytes _ => byte_budget policy | Tokens _ => token_budget policy end.

Definition omitted_note (n : N) (what : str) : list FunctionCallOutputContentItem :=
  if (0 <? n)%N then [InputText (lit "[omitted " ++ fmt_N n ++ lit " " ++ what ++ lit " items ...]")]
  else [].

Definition truncate_function_output_items_with_policy
    (items : list FunctionCallOutputContentItem) (policy : TruncationPolicy)
    : option (list FunctionCallOutputContentItem) :=
  st ← truncate_items_loop policy (mkItems [] (item_budget policy) 0 0) items;
  Some (it_out st ++ omitted_note (omitted_text_items st) (lit "text")
          ++ omitted_note (omitted_audio_items st) (lit "audio")).

Definition truncate_function_output_payload (output : FunctionCallOutputPayload)
    (policy : TruncationPolicy) : option FunctionCallOutputPayload :=
  match body output with
  | BodyText text => t ← truncate_text text policy; Some (mkPayload (BodyText t) (success output))
  | ContentItems items =>
      items' ← truncate_function_output_items_with_policy items policy;
      Some (mkPayload (ContentItems items') (success output))
  end.

(** ** Specification *)

Definition is_media (i : FunctionCallOutputContentItem) : bool :=
  match i with InputImage _ _ | EncryptedContent _ => true | _ => false end.
Definition is_empty_text (i : FunctionCallOutputContentItem) : bool :=
  match i with InputText t => bool_decide (t = []) | _ => false end.
Definition item_audio (i : FunctionCallOutputContentItem) : option str :=
  match i with InputAudio u => Some u | _ => None end.
Definition texts (l : list FunctionCallOutputContentItem) : list str :=
  List.filter (fun t => negb (bool_decide (t = []))) (omap item_text l).

Definition item_cost (policy : TruncationPolicy) (i : FunctionCallOutputContentItem) : N :=
  match i with
  | InputText t => if bool_decide (t = []) then 0 else text_cost policy t
  | InputAudio u => audio_cost policy u
  | _ => 0
  end%N.

Fixpoint sum_cost {A} (f : A -> N) (l : list A) : N :=
  match l with [] => 0 | x :: l' => f x + sum_cost f l' end%N.

(** What a budget [r] leaves of the items: every image and encrypted item, in
    order; the audio items that fit; the texts up to the first that does not
    fit, perhaps a snippet of that one, and none after it. *)
Record kept_spec (policy : TruncationPolicy) (items : list FunctionCallOutputContentItem) (r : N)
    (kept : list FunctionCallOutputContentItem) (nt na : N) : Prop := {
  ks_media : List.filter is_media kept = List.filter is_media items;
  ks_fits : (sum_cost (item_cost policy) items <= r)%N ->
    kept = List.filter (fun i => negb (is_empty_text i)) items /\ nt = 0%N /\ na = 0%N;
  ks_audio : sublist (omap item_audio kept) (omap item_audio items)
    /\ (sum_cost (audio_cost policy) (omap item_audio kept) <= r)%N
    /\ (na + N.of_nat (length (omap item_audio kept)) = N.of_nat (length (omap item_audio items)))%N;
  ks_text : exists k snip, omap item_text kept = take k (texts items) ++ snip
    /\ k <= length (texts items)
    /\ (snip = [] \/ exists t s rem, snip = [s] /\ texts items !! k = Some t
                       /\ (0 < rem <= r)%N /\ truncate_text t (snippet_policy policy rem) = Some s)
    /\ (nt + N.of_nat (k + length snip) = N.of_nat (length (texts items)))%N
    /\ (r = 0%N -> omap item_text kept = []);
}.

(** ** Proof *)

Lemma text_cost_pos policy t : t <> [] -> (0 < text_cost policy t)%N.
Proof.
  intros Ht. apply len_pos in Ht. destruct policy; simpl; [done|].
  unfold approx_token_count, saturating_add, saturating_sub, usize_sat, usize_max,
    APPROX_BYTES_PER_TOKEN.
  apply N.div_str_pos. lia.
Qed.

Lemma texts_cons_nonempty t l : t <> [] -> texts (InputText t :: l) = t :: texts l.
Proof. intros H. unfold texts. simpl. by rewrite bool_decide_false. Qed.

Lemma texts_cons_empty l : texts (InputText [] :: l) = texts l.
Proof. done. Qed.

(** With no budget left no text is kept, so all are counted. *)
Lemma kept_spec_zero policy items kept nt na :
  kept_spec policy items 0 kept nt na ->
  omap item_text kept = [] /\ nt = N.of_nat (length (texts items)).
Proof.
  intros [_ _ _ (k & snip & H1 & H2 & H3 & H4 & H5)]. specialize (H5 eq_refl).
  split; [done|]. rewrite H5 in H1. symmetry in H1. apply app_eq_nil in H1 as [H1 ->].
  apply (f_equal length) in H1. rewrite length_take in H1. simpl in *. lia.
Qed.

Lemma kept_spec_nil policy r : kept_spec policy [] r [] 0 0.
Proof.
  split; simpl; [done|done|split_and!; [done|lia|done]|].
  exists 0, []. split_and!; auto.
Qed.

Lemma kept_spec_empty_text policy items r kept nt na :
  kept_spec policy items r kept nt na -> kept_spec policy (InputText [] :: items) r kept nt na.
Proof. intros [H1 H2 H3 H4]. split; done. Qed.

Lemma kept_spec_text policy t items r kept nt na :
  t <> [] -> (text_cost policy t <= r)%N ->
  kept_spec policy items (r - text_cost policy t) kept nt na ->
  kept_spec policy (InputText t :: items) r (InputText t :: kept) nt na.
Proof.
  intros Ht Hc [H1 H2 H3 (k & snip & K1 & K2 & K3 & K4 & K5)].
  pose proof (text_cost_pos policy t Ht). split; [done|..].
  - simpl. rewrite bool_decide_false by done. intros Hle. destruct H2 as (-> & -> & ->); [lia|done].
  - destruct H3 as (A1 & A2 & A3). split_and!; [done|etrans; [exact A2|lia]|done].
  - exists (S k), snip. rewrite texts_cons_nonempty by done.
    change (omap item_text (InputText t :: kept)) with (t :: omap item_text kept). rewrite K1.
    split_and!; [done|simpl; lia| |simpl; lia|lia].
    destruct K3 as [->|(u & s & rem & -> & E1 & E2 & E3)]; [by left|right].
    exists u, s, rem. split_and!; [done|done|lia|lia|done].
Qed.

(** A text that does not fit, replaced by a snippet or counted; nothing is
    left for the items after it. *)
Lemma kept_spec_cut policy t items r kept nt na (snippet : option str) :
  t <> [] -> (r < text_cost policy t)%N ->
  (r = 0%N -> snippet = None) ->
  (forall s, snippet = Some s -> truncate_text t (snippet_policy policy r) = Some s) ->
  kept_spec policy items 0 kept nt na ->
  kept_spec policy (InputText t :: items) r
    (match snippet with Some s => InputText s :: kept | None => kept end)
    (match snippet with Some s => nt | None => (nt + 1)%N end) na.
Proof.
  intros Ht Hc Hr Hsn Hk. destruct (kept_spec_zero _ _ _ _ _ Hk) as [K1 K2].
  destruct Hk as [H1 H2 H3 _]. split.
  - by destruct snippet.
  - simpl. rewrite bool_decide_false by done. intros Hle. lia.
  - destruct H3 as (A1 & A2 & A3). destruct snippet; (split_and!; [done|etrans; [exact A2|lia]|done]).
  - rewrite texts_cons_nonempty by done.
    exists 0, (match snippet with Some s => [s] | None => [] end).
    destruct snippet as [s|];
      [change (omap item_text (InputText s :: kept)) with (s :: omap item_text kept)|];
      rewrite K1; (split_and!; [done|lia| |simpl; lia|]).
    + right. exists t, s, r. assert (r <> 0%N) by (intros ->; by discriminate Hr).
      split_and!; [done|done|lia|lia|by apply Hsn].
    + intros ->. by discriminate Hr.
    + by left.
    + done.
Qed.

Lemma kept_spec_media policy i items r kept nt na :
  is_media i = true -> kept_spec policy items r kept nt na ->
  kept_spec policy (i :: items) r (i :: kept) nt na.
Proof.
  intros Hi [H1 H2 H3 H4]. assert (Hm : is_empty_text i = false) by by destruct i.
  split; simpl; rewrite ?Hi, ?Hm.
  - by rewrite H1.
  - intros Hle. destruct i; try done; simpl in *; destruct H2 as (-> & -> & ->); done || lia.
  - by destruct i.
  - by destruct i.
Qed.

Lemma kept_spec_audio policy u items r kept nt na :
  (audio_cost policy u <= r)%N ->
  kept_spec policy items (r - audio_cost policy u) kept nt na ->
  kept_spec policy (InputAudio u :: items) r (InputAudio u :: kept) nt na.
Proof.
  intros Hc [H1 H2 H3 (k & snip & K1 & K2 & K3 & K4 & K5)]. split; [done|..].
  - simpl. intros Hle. destruct H2 as (-> & -> & ->); [lia|done].
  - change (omap item_audio (InputAudio u :: kept)) with (u :: omap item_audio kept).
    change (omap item_audio (InputAudio u :: items)) with (u :: omap item_audio items).
    destruct H3 as (A1 & A2 & A3). cbn [sum_cost length].
    split_and!; [by apply sublist_skip|lia|lia].
  - exists k, snip. split_and!; [done|done| |done|intros ->; apply K5; lia].
    destruct K3 as [->|(t & s & rem & -> & E1 & E2 & E3)]; [by left|right].
    exists t, s, rem. split_and!; [done|done|lia|lia|done].
Qed.

Lemma kept_spec_no_audio policy u items r kept nt na :
  (r < audio_cost policy u)%N ->
  kept_spec policy items r kept nt na ->
  kept_spec policy (InputAudio u :: items) r kept nt (na + 1)%N.
Proof.
  intros Hc [H1 H2 H3 H4]. split; [done|..].
  - simpl. lia.
  - change (omap item_audio (InputAudio u :: items)) with (u :: omap item_audio items).
    destruct H3 as (A1 & A2 & A3). cbn [length]. split_and!; [by apply sublist_cons|done|lia].
  - done.
Qed.

Lemma truncate_text_total t policy : is_Some (truncate_text t policy).
Proof.
  destruct policy as [n|n]; simpl; [apply truncate_with_byte_estimate_total|].
  unfold truncate_middle_with_token_budget. destruct t as [|c t]; [simpl; eauto|].
  case_match; [simpl; eauto|].
  destruct (truncate_with_byte_estimate_total (c :: t) (approx_bytes_for_tokens n) true) as [o ->].
  simpl. destruct (str_eqb o (c :: t)); eauto.
Qed.

(** One step of the loop: what it adds, and the state it leaves. *)
Lemma truncate_item_step policy i out r ot oa : exists add nt1 na1 r1,
  truncate_item policy (mkItems out r ot oa) i
  = Some (mkItems (out ++ add) r1 (ot + nt1) (oa + na1))
  /\ forall items kept nt na, kept_spec policy items r1 kept nt na ->
     kept_spec policy (i :: items) r (add ++ kept) (nt + nt1) (na + na1).
Proof.
  destruct i as [t|url d|u|c]; simpl.
  - case_bool_decide as Ht.
    { exists [], 0%N, 0%N, r. rewrite app_nil_r, !N.add_0_r. split; [done|].
      intros items kept nt na K. rewrite !N.add_0_r, Ht. by apply kept_spec_empty_text. }
    pose proof (text_cost_pos policy t Ht) as Hpos.
    destruct (N.eqb_spec r 0) as [->|Hr].
    { exists [], 1%N, 0%N, 0%N. rewrite app_nil_r, N.add_0_r. split; [done|].
      intros items kept nt na K. rewrite N.add_0_r.
      by apply (kept_spec_cut policy t items 0 kept nt na None). }
    destruct (N.leb_spec (text_cost policy t) r) as [Hle|Hgt].
    { exists [InputText t], 0%N, 0%N, (saturating_sub r (text_cost policy t)).
      rewrite !N.add_0_r. split; [done|]. intros items kept nt na K. rewrite !N.add_0_r.
      by apply kept_spec_text. }
    destruct (truncate_text_total t (snippet_policy policy r)) as [s Es]. rewrite Es. simpl.
    case_bool_decide.
    + exists [], 1%N, 0%N, 0%N. rewrite app_nil_r, N.add_0_r. split; [done|].
      intros items kept nt na K. rewrite N.add_0_r.
      by apply (kept_spec_cut policy t items r kept nt na None).
    + exists [InputText s], 0%N, 0%N, 0%N. rewrite !N.add_0_r. split; [done|].
      intros items kept nt na K. rewrite !N.add_0_r.
      apply (kept_spec_cut policy t items r kept nt na (Some s)); [done|done|done| |done].
      intros s' ?; by simplify_eq.
  - exists [InputImage url d], 0%N, 0%N, r. rewrite !N.add_0_r. split; [done|].
    intros items kept nt na K. rewrite !N.add_0_r. by apply kept_spec_media.
  - destruct (N.leb_spec (audio_cost policy u) r) as [Hle|Hgt].
    + exists [InputAudio u], 0%N, 0%N, (saturating_sub r (audio_cost policy u)).
      rewrite !N.add_0_r. split; [done|]. intros items kept nt na K. rewrite !N.add_0_r.
      by apply kept_spec_audio.
    + exists [], 0%N, 1%N, r. rewrite app_nil_r, N.add_0_r. split; [done|].
      intros items kept nt na K. rewrite N.add_0_r. by apply kept_spec_no_audio.
  - exists [EncryptedContent c], 0%N, 0%N, r. rewrite !N.add_0_r. split; [done|].
    intros items kept nt na K. rewrite !N.add_0_r. by apply kept_spec_media.
Qed.

Lemma truncate_items_kept policy items : forall out r ot oa,
  exists kept nt na r',
    truncate_items_loop policy (mkItems out r ot oa) items
    = Some (mkItems (out ++ kept) r' (ot + nt) (oa + na))
    /\ kept_spec policy items r kept nt na.
Proof.
  induction items as [|i items IH]; intros out r ot oa; cbn [truncate_items_loop].
  { exists [], 0%N, 0%N, r. rewrite app_nil_r, !N.add_0_r. split; [done|apply kept_spec_nil]. }
  destruct (truncate_item_step policy i out r ot oa) as (add & nt1 & na1 & r1 & E & Hk).
  rewrite E. cbn [mbind option_bind].
  destruct (IH (out ++ add) r1 (ot + nt1)%N (oa + na1)%N) as (kept & nt & na & r' & E2 & K).
  exists (add ++ kept), (nt + nt1)%N, (na + na1)%N, r'. rewrite E2.
  split; [|by apply Hk]. do 2 f_equal; [by rewrite app_assoc|lia|lia].
Qed.

(** Truncating the content items of a tool output never panics and keeps
    the success flag; the result is the kept items followed by notes that
    count exactly the omitted texts and audio items; every image and
    encrypted item is kept, in order; the audio items kept fit the budget; the
    texts are cut at one place only (the first one that does not fit may
    leave a snippet); and when everything fits, nothing but empty texts is
    dropped and there is no note. *)
Theorem truncate_items_correct items policy ok :
  exists kept nt na,
    truncate_function_output_payload (mkPayload (ContentItems items) ok) policy
    = Some (mkPayload (ContentItems (kept ++ omitted_note nt (lit "text")
                                       ++ omitted_note na (lit "audio"))) ok)
    /\ kept_spec policy items (item_budget policy) kept nt na.
Proof.
  destruct (truncate_items_kept policy items [] (item_budget policy) 0 0)
    as (kept & nt & na & r' & E & K).
  exists kept, nt, na. split; [|done]. unfold truncate_function_output_payload. simpl.
  unfold truncate_function_output_items_with_policy. by rewrite E.
Qed.

End items.
