(* ===== verification/ResponseItem.v ===== *)
(** * protocol: conversation items

    The items of a conversation ([protocol/src/models.rs]) with their ids
    ([response_item_id.rs]), the history envelope of [history/src/lib.rs] and
    the input modalities ([openai_models.rs]).  The JSON values and numbers of
    the serde_json crate are opaque: the types of the class [SerdeJson]. *)

From S2P Require Import Prelude RustStr Truncate OutputTruncation.

Class SerdeJson := {
  Value : Type;
  Number : Type;
}.

Module Content.
Inductive ContentItem :=
| InputText (text : str)
| InputImage (image_url : str) (detail : option ImageDetail)
| InputAudio (audio_url : str)
| OutputText (text : str).
End Content.
Notation ContentItem := Content.ContentItem.

Inductive AgentMessageInputContent :=
| AgentInputText (text : str)
| AgentEncryptedContent (encrypted_content : str).

Inductive MessagePhase := Commentary | FinalAnswer.

Inductive LocalShellStatus := Completed | InProgress | Incomplete.

Record LocalShellExecAction := mkExecAction {
  ex_command : list str;
  ex_timeout_ms : option N;
  ex_working_directory : option str;
  ex_env : option (gmap str str);
  ex_user : option str;
}.

Inductive LocalShellAction := Exec (action : LocalShellExecAction).

Inductive WebSearchAction :=
| Search (query : option str) (queries : option (list str))
| OpenPage (url : option str)
| FindInPage (url pattern : option str)
| OtherAction.

Inductive ReasoningItemReasoningSummary := SummaryText (text : str).

Inductive ReasoningItemContent :=
| ReasoningText (text : str)
| ReasoningPlainText (text : str).

Section items.
Context {json : SerdeJson}.

Record ExecutedToolCallTruncation := mkCallTruncation {
  original_bytes : N;
  max_bytes : N;
  omitted_calls : option N;
  original_name_bytes : option N;
}.

Inductive ExecutedToolCallArguments :=
| Raw (v : Value)
| Truncated (truncation : ExecutedToolCallTruncation).

Record ExecutedToolCall := mkExecutedToolCall {
  call_name : str;
  call_arguments : ExecutedToolCallArguments;
}.

Record InternalChatMessageMetadataPassthrough := mkMetadata {
  md_turn_id : option str;
  md_create_time : option Number;
  md_content_item_kinds : option (list str);
  md_cell_id : option str;
  md_executed_tool_calls : option (list ExecutedToolCall);
  md_tool_calls_complete : option bool;
}.
Notation passthrough := (option InternalChatMessageMetadataPassthrough).

Definition default_metadata : InternalChatMessageMetadataPassthrough :=
  mkMetadata None None None None None None.

Definition with_kinds (m : InternalChatMessageMetadataPassthrough) (k : option (list str))
    : InternalChatMessageMetadataPassthrough :=
  mkMetadata (md_turn_id m) (md_create_time m) k (md_cell_id m) (md_executed_tool_calls m)
    (md_tool_calls_complete m).

(** [ResponseItemId] is the string it wraps. *)
Inductive ResponseItem :=
| AdditionalTools (id : option str) (role : str) (tools : list Value)
| Message (id : option str) (role : str) (content : list ContentItem)
    (phase : option MessagePhase) (md : passthrough)
| AgentMessage (id : option str) (author recipient : str) (content : list AgentMessageInputContent)
    (md : passthrough)
| Reasoning (id : option str) (summary : list ReasoningItemReasoningSummary)
    (content : option (list ReasoningItemContent)) (encrypted_content : option str)
    (md : passthrough)
| LocalShellCall (id call_id : option str) (status : LocalShellStatus) (action : LocalShellAction)
    (md : passthrough)
| FunctionCall (id : option str) (name : str) (namespace : option str) (arguments : str)
    (encrypted_function_args : option (list str)) (call_id : str) (md : passthrough)
| ToolSearchCall (id call_id status : option str) (execution : str) (arguments : Value)
    (md : passthrough)
| FunctionCallOutput (id call_id name namespace : option str) (output : FunctionCallOutputPayload)
    (md : passthrough)
| CustomToolCall (id status : option str) (call_id name : str) (namespace : option str)
    (input : str) (md : passthrough)
| CustomToolCallOutput (id : option str) (call_id : str) (name : option str)
    (output : FunctionCallOutputPayload) (md : passthrough)
| ToolSearchOutput (id call_id : option str) (status execution : str) (tools : list Value)
    (md : passthrough)
| WebSearchCall (id status : option str) (action : option WebSearchAction) (md : passthrough)
| ImageGenerationCall (id : option str) (status : str) (revised_prompt : option str)
    (result : str) (md : passthrough)
| Compaction (id : option str) (encrypted_content : str) (md : passthrough)
| CompactionTrigger
| ContextCompaction (id encrypted_content : option str) (md : passthrough)
| Other.

Definition is_user_message (i : ResponseItem) : bool :=
  match i with Message _ role _ _ _ => str_eqb role (lit "user") | _ => false end.

(** [internal_chat_message_metadata_passthrough()] *)
Definition item_metadata (i : ResponseItem) : passthrough :=
  match i with
  | Message _ _ _ _ md | AgentMessage _ _ _ _ md | Reasoning _ _ _ _ md
  | LocalShellCall _ _ _ _ md | FunctionCall _ _ _ _ _ _ md | ToolSearchCall _ _ _ _ _ md
  | FunctionCallOutput _ _ _ _ _ md | CustomToolCall _ _ _ _ _ _ md
  | CustomToolCallOutput _ _ _ _ md | ToolSearchOutput _ _ _ _ _ md | WebSearchCall _ _ _ md
  | ImageGenerationCall _ _ _ _ md | Compaction _ _ md | ContextCompaction _ _ md => md
  | AdditionalTools _ _ _ | CompactionTrigger | Other => None
  end.

Definition non_empty (s : str) : bool := negb (bool_decide (s = [])).

Definition turn_id (i : ResponseItem) : option str :=
  match item_metadata i with
  | Some m => match md_turn_id m with
              | Some t => if non_empty t then Some t else None
              | None => None
              end
  | None => None
  end.

Record CodexHarnessMetadata := mkHarness {
  client_authored : bool;
  fallback_token_limit_override : option N;
}.

Record ResponseItemEnvelope := mkEnvelope {
  item : ResponseItem;
  metadata : option CodexHarnessMetadata;
}.

Definition envelope_new (i : ResponseItem) : ResponseItemEnvelope := mkEnvelope i None.

End items.

Definition with_suffix (prefix suffix : str) : str := prefix ++ lit "_" ++ suffix.

Definition from_text (content : str) : FunctionCallOutputPayload := mkPayload (BodyText content) None.

Inductive InputModality := TextModality | ImageModality | AudioModality.

#[export] Instance InputModality_eq_dec : EqDecision InputModality.
Proof. solve_decision. Defined.

(** [FunctionCallOutputBody::to_text]: the non-blank texts of the content,
    joined by newlines. *)
Definition function_call_output_content_items_to_text (items : list FunctionCallOutputContentItem)
    : option str :=
  let text_segments :=
    omap (fun i => match i with
                   | InputText text => if bool_decide (trim text = []) then None else Some text
                   | _ => None
                   end) items in
  match text_segments with [] => None | _ => Some (join [ch_lf] text_segments) end.

Definition to_text (b : FunctionCallOutputBody) : option str :=
  match b with
  | BodyText content => Some content
  | ContentItems items => function_call_output_content_items_to_text items
  end.

(** [plaintext_agent_message_content] *)
Fixpoint agent_text_parts (content : list AgentMessageInputContent) : option (list str) :=
  match content with
  | [] => Some []
  | AgentInputText text :: rest => parts ← agent_text_parts rest; Some (text :: parts)
  | AgentEncryptedContent _ :: _ => None
  end.

Definition plaintext_agent_message_content (content : list AgentMessageInputContent) : option str :=
  parts ← agent_text_parts content;
  let text := join [ch_lf] parts in
  if bool_decide (trim text = []) then None else Some text.

(** Concrete instances for the witnesses. *)
Definition sample_json : SerdeJson := {| Value := unit; Number := unit |}.

Definition sample_message (role text : str) : @ResponseItem sample_json :=
  Message None role [Content.InputText text] None None.
