(* ===== verification/ContextFragments.v ===== *)
(** * Contextual fragments of messages

    context-fragments ([annotated_content.rs], the marker matching of
    [fragment.rs] and [additional_context.rs]), core/src/event_mapping.rs and
    core/src/context (the fragment markers): which messages of a conversation
    were injected by the program and which come from the user.  Two parsers of
    external crates are the class [FragmentParsers]: the XML form of a hook
    prompt (quick-xml) and the JSON form of an inter-agent message. *)

From S2P Require Import Prelude RustStr Truncate OutputTruncation ResponseItem.

(** ** Markers *)

Definition eq_ignore_ascii_case (a b : str) : bool :=
  str_eqb (to_ascii_lowercase a) (to_ascii_lowercase b).

(** [str::split_once] with a string delimiter. *)
Definition split_once_str (delimiter s : str) : option (str * str) :=
  match find delimiter s with
  | Some i => Some (take i s, drop (i + length delimiter) s)
  | None => None
  end.

(** [s.get(..prefix.len())] compared with the prefix. *)
Definition has_prefix_ignore_case (prefix s : str) : bool :=
  is_some_and (fun candidate => eq_ignore_ascii_case candidate prefix) (slice_to (len prefix) s).

Definition has_suffix_ignore_case (suffix s : str) : bool :=
  is_some_and (fun candidate => eq_ignore_ascii_case candidate suffix)
    (slice_from (saturating_sub (len s) (len suffix)) s).

Definition matches_marked_text (start_marker end_marker text : str) : bool :=
  if bool_decide (start_marker = []) || bool_decide (end_marker = []) then false
  else
    let trimmed := trim_start text in
    has_prefix_ignore_case start_marker trimmed
    && has_suffix_ignore_case end_marker (trim_end trimmed).

(** ** Fragments injected with the user role *)

Definition additional_context_matches_text (text : str) : bool :=
  match strip_prefix (lit "<external_") (trim text) with
  | None => false
  | Some rest =>
      match split_once_str (lit ">") rest with
      | None => false
      | Some (key, value_and_close) =>
          ends_with (lit "</external_" ++ key ++ lit ">") value_and_close
      end
  end.

Definition is_valid_source (source : str) : bool :=
  match source with
  | [] => false
  | first :: chars =>
      is_ascii_lowercase first
      && forallb (fun ch => is_ascii_lowercase ch || is_ascii_digit ch || (ch =? ch_underscore)%N) chars
  end.

Definition matches_legacy_goal_context (text : str) : bool :=
  starts_with (lit "<goal_context>") text && ends_with (lit "</goal_context>") text.

Definition internal_context_matches_text (text : str) : bool :=
  let trimmed := trim text in
  if matches_legacy_goal_context trimmed then true
  else
    match strip_prefix (lit "<codex_internal_context") trimmed with
    | None => false
    | Some rest =>
        match strip_prefix (lit " source=" ++ [ch_dquote]) rest with
        | None => false
        | Some rest =>
            match split_once_str ([ch_dquote] ++ lit ">") rest with
            | None => false
            | Some (source, body_and_close) =>
                is_valid_source source && ends_with (lit "</codex_internal_context>") body_and_close
            end
        end
    end.

Definition unified_exec_warning_matches_text (text : str) : bool :=
  starts_with (lit "Warning: The maximum number of unified exec processes you can keep open is")
    (trim text).

Definition apply_patch_warning_matches_text (text : str) : bool :=
  starts_with (lit "Warning: apply_patch was requested via ") (trim text)
  && ends_with (lit "Use the apply_patch tool instead of exec_command.") (trim text).

Definition model_mismatch_warning_matches_text (text : str) : bool :=
  starts_with (lit "Warning: Your account was flagged for potentially high-risk cyber activity")
    (trim text).

Definition CONTEXTUAL_USER_FRAGMENT_MATCHERS : list (str -> bool) :=
  [matches_marked_text (lit "# AGENTS.md instructions") (lit "</INSTRUCTIONS>");
   matches_marked_text (lit "<environment_context>") (lit "</environment_context>");
   additional_context_matches_text;
   matches_marked_text (lit "<skill>") (lit "</skill>");
   matches_marked_text (lit "<user_shell_command>") (lit "</user_shell_command>");
   matches_marked_text (lit "<turn_aborted>") (lit "</turn_aborted>");
   matches_marked_text (lit "<subagent_notification>") (lit "</subagent_notification>");
   internal_context_matches_text;
   matches_marked_text (lit "<recommended_plugins>") (lit "</recommended_plugins>");
   unified_exec_warning_matches_text;
   apply_patch_warning_matches_text;
   model_mismatch_warning_matches_text].

Definition is_standard_contextual_user_text (text : str) : bool :=
  existsb (fun matches_text => matches_text text) CONTEXTUAL_USER_FRAGMENT_MATCHERS.

(** [parse_hook_prompt_xml] is [from_xml_str::<HookPromptXml>]: the text and
    the run id; [is_inter_agent_json] says that a text is the JSON of an
    [InterAgentCommunication]. *)
Class FragmentParsers := {
  parse_hook_prompt_xml : str -> option (str * str);
  is_inter_agent_json : str -> bool;
}.

Section fragments.
Context {parsers : FragmentParsers}.

Definition parse_hook_prompt_fragment (text : str) : option (str * str) :=
  '(text, hook_run_id) ← parse_hook_prompt_xml (trim text);
  if bool_decide (trim hook_run_id = []) then None else Some (text, hook_run_id).

Definition is_contextual_user_fragment (c : ContentItem) : bool :=
  match c with
  | Content.InputText text =>
      match parse_hook_prompt_fragment text with
      | Some _ => true
      | None => is_standard_contextual_user_text text
      end
  | _ => false
  end.

Definition is_contextual_user_message_content (message : list ContentItem) : bool :=
  existsb is_contextual_user_fragment message.

(** [InterAgentCommunication::is_message_content] *)
Definition is_inter_agent_instruction_content (content : list ContentItem) : bool :=
  match content with
  | [Content.InputText text] | [Content.OutputText text] => is_inter_agent_json text
  | _ => false
  end.

End fragments.

(** ** Fragments injected with the developer role *)

Definition CONTEXTUAL_DEVELOPER_PREFIXES : list str :=
  [lit "<permissions instructions>"; lit "Approved command prefix saved:"; lit "<model_switch>";
   lit "<managed_developer_instructions>"; lit "<persistent_mode>"; lit "<apps_instructions>";
   lit "<collaboration_mode>"; lit "<multi_agent_role>"; lit "<multi_agent_mode>";
   lit "<environments_instructions>"; lit "<git_attribution>"; lit "<plugins_instructions>";
   lit "<realtime_conversation>"; lit "<skills_instructions>"; lit "<tools>";
   lit "<personality_spec>"; lit "<token_budget>"; lit "<context_window>";
   lit "<context_window_guidance>"; lit "<rollout_budget>"].

Definition is_contextual_dev_fragment (c : ContentItem) : bool :=
  match c with
  | Content.InputText text =>
      let trimmed := trim_start text in
      existsb (fun prefix => has_prefix_ignore_case prefix trimmed) CONTEXTUAL_DEVELOPER_PREFIXES
  | _ => false
  end.

Definition is_contextual_dev_message_content (message : list ContentItem) : bool :=
  existsb is_contextual_dev_fragment message.

Definition has_non_contextual_dev_message_content (message : list ContentItem) : bool :=
  existsb (fun c => negb (is_contextual_dev_fragment c)) message.

Definition model_switch_matches_text : str -> bool :=
  matches_marked_text (lit "<model_switch>") (lit "</model_switch>").
Definition persistent_mode_matches_text : str -> bool :=
  matches_marked_text (lit "<persistent_mode>") (lit "</persistent_mode>").

(** ** Annotated content *)

Record AnnotatedContent := mkAnnotated { ac_content : ContentItem; ac_kind : str }.

(** [zip] of the content with the kinds, continued by "unknown". *)
Fixpoint annotate (content : list ContentItem) (kinds : list str) : list AnnotatedContent :=
  match content with
  | [] => []
  | c :: content' =>
      match kinds with
      | [] => mkAnnotated c (lit "unknown") :: annotate content' []
      | k :: kinds' => mkAnnotated c k :: annotate content' kinds'
      end
  end.

Section annotated.
Context {json : SerdeJson}.

(** The item after [std::mem::take] of the content and [take] of the kinds,
    and the annotated content. *)
Definition to_annotated_content (i : ResponseItem) : option (ResponseItem * list AnnotatedContent) :=
  match i with
  | Message id role content phase md =>
      let kinds := match md with
                   | Some m => default [] (md_content_item_kinds m)
                   | None => []
                   end in
      Some (Message id role [] phase (option_map (fun m => with_kinds m None) md),
            annotate content kinds)
  | _ => None
  end.

Definition set_annotated_content (i : ResponseItem) (annotated : list AnnotatedContent)
    : option ResponseItem :=
  match i with
  | Message id role _ phase md =>
      Some (Message id role (map ac_content annotated) phase
              (Some (with_kinds (default default_metadata md) (Some (map ac_kind annotated)))))
  | _ => None
  end.

(** [is_user_authorization_message] *)
Definition is_authorization_kind (kind : str) : bool :=
  starts_with (lit "user.") kind
  || existsb (str_eqb kind)
       [[]; lit "unknown"; lit "images.preparation_error"; lit "images.unsupported";
        lit "audio.unsupported"].

Definition is_user_authorization_message (i : ResponseItem) : bool :=
  match i with
  | Message _ role content _ md =>
      str_eqb role (lit "user")
      && match md with
         | Some m => match md_content_item_kinds m with
                     | Some kinds =>
                         is_nil kinds || negb (length kinds =? length content)
                         || existsb is_authorization_kind kinds
                     | None => true
                     end
         | None => true
         end
  | _ => false
  end.

End annotated.

(** ** unsupported_media.rs *)

Record UnsupportedMedia := mkUnsupported { um_text : str; um_content_kind : str }.

Definition UNSUPPORTED_IMAGE : UnsupportedMedia :=
  mkUnsupported (lit "image content omitted because you do not support image input")
    (lit "images.unsupported").
Definition UNSUPPORTED_AUDIO : UnsupportedMedia :=
  mkUnsupported (lit "audio content omitted because you do not support audio input")
    (lit "audio.unsupported").

(** [render_fragment().into_parts().1]: both markers are empty. *)
Definition render_annotated (u : UnsupportedMedia) : AnnotatedContent :=
  mkAnnotated (Content.InputText (um_text u)) (um_content_kind u).
