(* ===== verification/Normalize.v ===== *)
(** * core/context_manager: normalising a history

    [normalize.rs]: before a history goes to the model every tool call gets an
    output, outputs without a call are dropped and unsupported media are
    replaced.  The main results: the normal form is the history itself with
    synthetic outputs right after their calls and without orphans, it is
    paired, and normalising twice changes nothing.

    [error_or_panic] panics in a debug build and logs otherwise: the build is
    the parameter [debug], a panic is [None].  The version 5 UUID of a name in
    the fixed namespace (uuid crate) is the parameter [new_v5]. *)

From S2P Require Import Prelude RustStr Truncate OutputTruncation ResponseItem ContextFragments.

(** [Vec::insert]: panics past the end. *)
Definition vec_insert {A} (index : nat) (x : A) (l : list A) : option (list A) :=
  if index <=? length l then Some (take index l ++ x :: drop index l) else None.

(** [Iterator::position] *)
Fixpoint position {A} (f : A -> bool) (l : list A) : option nat :=
  match l with
  | [] => None
  | x :: l' => if f x then Some 0 else option_map S (position f l')
  end.

(** [Vec::retain] with the counter of [remove_orphan_outputs]. *)
Fixpoint retain_except {A} (positions : list nat) (position : nat) (l : list A) : list A :=
  match l with
  | [] => []
  | x :: l' =>
      match positions with
      | p :: ps =>
          if p =? position then retain_except ps (S position) l'
          else x :: retain_except positions (S position) l'
      | [] => x :: retain_except [] (S position) l'
      end
  end.

Section normalize.
Context {json : SerdeJson} (debug : bool) (new_v5 : str -> str).

Definition error_or_panic : option unit := if debug then None else Some tt.

(** ** The ids of calls and outputs *)

Definition function_output_id (i : ResponseItem) : option str :=
  match i with FunctionCallOutput _ (Some call_id) _ _ _ _ => Some call_id | _ => None end.
Definition tool_search_output_id (i : ResponseItem) : option str :=
  match i with ToolSearchOutput _ (Some call_id) _ _ _ _ => Some call_id | _ => None end.
Definition custom_tool_output_id (i : ResponseItem) : option str :=
  match i with CustomToolCallOutput _ call_id _ _ _ => Some call_id | _ => None end.
Definition function_call_id (i : ResponseItem) : option str :=
  match i with
  | FunctionCall _ _ _ _ _ call_id _ => Some call_id
  | LocalShellCall _ (Some call_id) _ _ _ => Some call_id
  | _ => None
  end.
Definition tool_search_call_id (i : ResponseItem) : option str :=
  match i with ToolSearchCall _ (Some call_id) _ _ _ _ => Some call_id | _ => None end.
Definition custom_tool_call_id (i : ResponseItem) : option str :=
  match i with CustomToolCall _ _ call_id _ _ _ _ => Some call_id | _ => None end.

Definition collect_ids (f : ResponseItem -> option str) (items : list ResponseItemEnvelope)
    : gset str :=
  list_to_set (omap (fun e => f (item e)) items).

(** ** ensure_call_outputs_present *)

Definition synthetic_output_id (prefix : str) (item_id : option str) : option str :=
  match item_id with
  | Some source_id =>
      if non_empty source_id
      then Some (with_suffix prefix (new_v5 (prefix ++ lit ":" ++ source_id)))
      else None
  | None => None
  end.

Definition aborted_function_output (id : option str) (call_id : str) : ResponseItemEnvelope :=
  envelope_new (FunctionCallOutput (synthetic_output_id (lit "fco") id) (Some call_id) None None
                  (from_text (lit "aborted")) None).

(** The synthetic output of one item, if it is a call without one. *)
Definition missing_output (function_ids search_ids custom_ids : gset str) (i : ResponseItem)
    : option (option ResponseItemEnvelope) :=
  match i with
  | FunctionCall id _ _ _ _ call_id _ =>
      if bool_decide (call_id ∈ function_ids) then Some None
      else Some (Some (aborted_function_output id call_id))
  | ToolSearchCall id (Some call_id) _ _ _ _ =>
      if bool_decide (call_id ∈ search_ids) then Some None
      else Some (Some (envelope_new (ToolSearchOutput (synthetic_output_id (lit "tso") id)
                                       (Some call_id) (lit "completed") (lit "client") [] None)))
  | CustomToolCall id _ call_id _ _ _ _ =>
      if bool_decide (call_id ∈ custom_ids) then Some None
      else
        _ ← error_or_panic;
        Some (Some (envelope_new (CustomToolCallOutput (synthetic_output_id (lit "ctco") id)
                                    call_id None (from_text (lit "aborted")) None)))
  | LocalShellCall id (Some call_id) _ _ _ =>
      if bool_decide (call_id ∈ function_ids) then Some None
      else _ ← error_or_panic; Some (Some (aborted_function_output id call_id))
  | _ => Some None
  end.

(** The loop that fills [missing_outputs_to_insert]. *)
Fixpoint missing_outputs (function_ids search_ids custom_ids : gset str) (idx : nat)
    (items : list ResponseItemEnvelope) : option (list (nat * ResponseItemEnvelope)) :=
  match items with
  | [] => Some []
  | e :: items' =>
      o ← missing_output function_ids search_ids custom_ids (item e);
      rest ← missing_outputs function_ids search_ids custom_ids (S idx) items';
      Some (match o with Some output => (idx, output) :: rest | None => rest end)
  end.

(** The insertions, last index first. *)
Definition insert_outputs (missing : list (nat * ResponseItemEnvelope))
    (items : list ResponseItemEnvelope) : option (list ResponseItemEnvelope) :=
  fold_right (fun '(idx, output) acc => items ← acc; vec_insert (idx + 1) output items)
    (Some items) missing.

Definition ensure_call_outputs_present (items : list ResponseItemEnvelope)
    : option (list ResponseItemEnvelope) :=
  missing ← missing_outputs (collect_ids function_output_id items)
              (collect_ids tool_search_output_id items) (collect_ids custom_tool_output_id items)
              0 items;
  insert_outputs missing items.

(** ** remove_orphan_outputs *)

Definition is_orphan (function_ids search_ids custom_ids : gset str) (i : ResponseItem) : bool :=
  match i with
  | FunctionCallOutput _ (Some call_id) _ _ _ _ => negb (bool_decide (call_id ∈ function_ids))
  | CustomToolCallOutput _ call_id _ _ _ => negb (bool_decide (call_id ∈ custom_ids))
  | ToolSearchOutput _ (Some call_id) _ execution _ _ =>
      negb (str_eqb execution (lit "server")) && negb (bool_decide (call_id ∈ search_ids))
  | _ => false
  end.

Fixpoint orphan_positions (function_ids search_ids custom_ids : gset str) (position : nat)
    (items : list ResponseItemEnvelope) : option (list nat) :=
  match items with
  | [] => Some []
  | e :: items' =>
      if is_orphan function_ids search_ids custom_ids (item e) then
        _ ← error_or_panic;
        rest ← orphan_positions function_ids search_ids custom_ids (S position) items';
        Some (position :: rest)
      else orphan_positions function_ids search_ids custom_ids (S position) items'
  end.

Definition remove_orphan_outputs (items : list ResponseItemEnvelope)
    : option (list ResponseItemEnvelope) :=
  positions ← orphan_positions (collect_ids function_call_id items)
                (collect_ids tool_search_call_id items) (collect_ids custom_tool_call_id items)
                0 items;
  Some (match positions with [] => items | _ => retain_except positions 0 items end).

(** ** remove_corresponding_for *)

Definition remove_first_matching (items : list ResponseItemEnvelope) (predicate : ResponseItem -> bool)
    : list ResponseItemEnvelope :=
  match position (fun e => predicate (item e)) items with
  | Some pos => delete pos items
  | None => items
  end.

Definition has_id (f : ResponseItem -> option str) (call_id : str) (i : ResponseItem) : bool :=
  is_some_and (fun existing => str_eqb existing call_id) (f i).

Definition is_function_call (call_id : str) (i : ResponseItem) : bool :=
  match i with FunctionCall _ _ _ _ _ existing _ => str_eqb existing call_id | _ => false end.
Definition is_local_shell_call (call_id : str) (i : ResponseItem) : bool :=
  match i with
  | LocalShellCall _ (Some existing) _ _ _ => str_eqb existing call_id
  | _ => false
  end.

Definition remove_corresponding_for (items : list ResponseItemEnvelope) (i : ResponseItem)
    : list ResponseItemEnvelope :=
  match i with
  | FunctionCall _ _ _ _ _ call_id _ => remove_first_matching items (has_id function_output_id call_id)
  | FunctionCallOutput _ (Some call_id) _ _ _ _ =>
      match position (fun e => is_function_call call_id (item e)) items with
      | Some pos => delete pos items
      | None =>
          match position (fun e => is_local_shell_call call_id (item e)) items with
          | Some pos => delete pos items
          | None => items
          end
      end
  | ToolSearchCall _ (Some call_id) _ _ _ _ =>
      remove_first_matching items (has_id tool_search_output_id call_id)
  | ToolSearchOutput _ (Some call_id) _ _ _ _ =>
      remove_first_matching items (has_id tool_search_call_id call_id)
  | CustomToolCall _ _ call_id _ _ _ _ =>
      remove_first_matching items (has_id custom_tool_output_id call_id)
  | CustomToolCallOutput _ call_id _ _ _ =>
      remove_first_matching items (has_id custom_tool_call_id call_id)
  | LocalShellCall _ (Some call_id) _ _ _ =>
      remove_first_matching items (has_id function_output_id call_id)
  | _ => items
  end.

(** ** Unsupported media *)

Definition replace_content (p : ContentItem -> bool) (u : UnsupportedMedia) (a : AnnotatedContent)
    : AnnotatedContent :=
  if p (ac_content a) then render_annotated u else a.

(** The [Message] arm of both functions. *)
Definition strip_message (p : ContentItem -> bool) (u : UnsupportedMedia) (i : ResponseItem)
    : ResponseItem :=
  match to_annotated_content i with
  | None => i
  | Some (taken, content) =>
      default taken (set_annotated_content taken (map (replace_content p u) content))
  end.

Definition strip_payload (p : FunctionCallOutputContentItem -> bool) (u : UnsupportedMedia)
    (output : FunctionCallOutputPayload) : FunctionCallOutputPayload :=
  match body output with
  | BodyText _ => output
  | ContentItems items =>
      mkPayload (ContentItems (map (fun c => if p c then InputText (um_text u) else c) items))
        (success output)
  end.

Definition is_image (c : ContentItem) : bool :=
  match c with Content.InputImage _ _ => true | _ => false end.
Definition is_output_image (c : FunctionCallOutputContentItem) : bool :=
  match c with InputImage _ _ => true | _ => false end.
Definition is_audio (c : ContentItem) : bool :=
  match c with Content.InputAudio _ => true | _ => false end.
Definition is_output_audio (c : FunctionCallOutputContentItem) : bool :=
  match c with InputAudio _ => true | _ => false end.

Definition strip_item_images (i : ResponseItem) : ResponseItem :=
  match i with
  | Message _ _ _ _ _ => strip_message is_image UNSUPPORTED_IMAGE i
  | FunctionCallOutput id call_id name namespace output md =>
      FunctionCallOutput id call_id name namespace
        (strip_payload is_output_image UNSUPPORTED_IMAGE output) md
  | CustomToolCallOutput id call_id name output md =>
      CustomToolCallOutput id call_id name
        (strip_payload is_output_image UNSUPPORTED_IMAGE output) md
  | ImageGenerationCall id status revised_prompt _ md =>
      ImageGenerationCall id status revised_prompt [] md
  | _ => i
  end.

Definition strip_item_audio (i : ResponseItem) : ResponseItem :=
  match i with
  | Message _ _ _ _ _ => strip_message is_audio UNSUPPORTED_AUDIO i
  | FunctionCallOutput id call_id name namespace output md =>
      FunctionCallOutput id call_id name namespace
        (strip_payload is_output_audio UNSUPPORTED_AUDIO output) md
  | CustomToolCallOutput id call_id name output md =>
      CustomToolCallOutput id call_id name
        (strip_payload is_output_audio UNSUPPORTED_AUDIO output) md
  | _ => i
  end.

Definition map_item (f : ResponseItem -> ResponseItem) (e : ResponseItemEnvelope)
    : ResponseItemEnvelope :=
  mkEnvelope (f (item e)) (metadata e).

Definition strip_images_when_unsupported (input_modalities : list InputModality)
    (items : list ResponseItemEnvelope) : list ResponseItemEnvelope :=
  if bool_decide (ImageModality ∈ input_modalities) then items
  else map (map_item strip_item_images) items.

Definition strip_audio_when_unsupported (input_modalities : list InputModality)
    (items : list ResponseItemEnvelope) : list ResponseItemEnvelope :=
  if bool_decide (AudioModality ∈ input_modalities) then items
  else map (map_item strip_item_audio) items.

(** [ContextManager::normalize_history] *)
Definition normalize_items (input_modalities : list InputModality)
    (items : list ResponseItemEnvelope) : option (list ResponseItemEnvelope) :=
  items ← ensure_call_outputs_present items;
  items ← remove_orphan_outputs items;
  Some (strip_audio_when_unsupported input_modalities
          (strip_images_when_unsupported input_modalities items)).

End normalize.

(** ** Calls and outputs by key *)

Inductive call_kind := KFunction | KToolSearch | KCustom.

#[export] Instance call_kind_eq_dec : EqDecision call_kind.
Proof. solve_decision. Defined.

Section keys.
Context {json : SerdeJson}.

Definition call_key (i : ResponseItem) : option (call_kind * str) :=
  match i with
  | FunctionCall _ _ _ _ _ c _ | LocalShellCall _ (Some c) _ _ _ => Some (KFunction, c)
  | ToolSearchCall _ (Some c) _ _ _ _ => Some (KToolSearch, c)
  | CustomToolCall _ _ c _ _ _ _ => Some (KCustom, c)
  | _ => None
  end.

Definition output_key (i : ResponseItem) : option (call_kind * str) :=
  match i with
  | FunctionCallOutput _ (Some c) _ _ _ _ => Some (KFunction, c)
  | ToolSearchOutput _ (Some c) _ _ _ _ => Some (KToolSearch, c)
  | CustomToolCallOutput _ c _ _ _ => Some (KCustom, c)
  | _ => None
  end.

(** The outputs of server-side searches need no call. *)
Definition external_output (i : ResponseItem) : bool :=
  match i with
  | ToolSearchOutput _ _ _ execution _ _ => str_eqb execution (lit "server")
  | _ => false
  end.

Definition calls (items : list ResponseItemEnvelope) : list (call_kind * str) :=
  omap (fun e => call_key (item e)) items.
Definition outputs (items : list ResponseItemEnvelope) : list (call_kind * str) :=
  omap (fun e => output_key (item e)) items.

(** Every call has an output, every output that is not external has a call. *)
Definition paired (items : list ResponseItemEnvelope) : Prop :=
  (forall k, k ∈ calls items -> k ∈ outputs items)
  /\ (forall e k, e ∈ items -> output_key (item e) = Some k -> external_output (item e) = false ->
        k ∈ calls items).

(** At most one call and one output per key. *)
Definition one_to_one (items : list ResponseItemEnvelope) : Prop :=
  NoDup (calls items) /\ NoDup (outputs items).

(** The output that [missing_output] adds after an item (release build). *)
Definition synthetic (new_v5 : str -> str) (items : list ResponseItemEnvelope)
    (e : ResponseItemEnvelope) : list ResponseItemEnvelope :=
  match missing_output false new_v5 (collect_ids function_output_id items)
          (collect_ids tool_search_output_id items) (collect_ids custom_tool_output_id items)
          (item e) with
  | Some (Some o) => [o]
  | _ => []
  end.

Definition orphan (items : list ResponseItemEnvelope) (e : ResponseItemEnvelope) : bool :=
  is_orphan (collect_ids function_call_id items) (collect_ids tool_search_call_id items)
    (collect_ids custom_tool_call_id items) (item e).

(** The irregular items a debug build panics on: shell and custom tool calls
    without an output, and orphans. *)
Definition is_loud_call (i : ResponseItem) : bool :=
  match i with
  | LocalShellCall _ (Some _) _ _ _ | CustomToolCall _ _ _ _ _ _ _ => true
  | _ => false
  end.

Lemma elem_of_collect_ids f items c :
  c ∈ collect_ids f items <-> exists e, e ∈ items /\ f (item e) = Some c.
Proof. unfold collect_ids. by rewrite elem_of_list_to_set, list_elem_of_omap. Qed.

Lemma elem_of_calls items k : k ∈ calls items <-> exists e, e ∈ items /\ call_key (item e) = Some k.
Proof. unfold calls. by rewrite list_elem_of_omap. Qed.

Lemma elem_of_outputs items k :
  k ∈ outputs items <-> exists e, e ∈ items /\ output_key (item e) = Some k.
Proof. unfold outputs. by rewrite list_elem_of_omap. Qed.

Ltac solve_ids :=
  rewrite elem_of_collect_ids, ?elem_of_calls, ?elem_of_outputs;
  split; intros (e & He & Hk); exists e; split; try done;
  destruct (item e); simpl in *; repeat case_match; naive_solver.

(** The id sets of the source are the keys of one kind. *)
Lemma function_output_ids_spec items c :
  c ∈ collect_ids function_output_id items <-> (KFunction, c) ∈ outputs items.
Proof. solve_ids. Qed.

Lemma tool_search_output_ids_spec items c :
  c ∈ collect_ids tool_search_output_id items <-> (KToolSearch, c) ∈ outputs items.
Proof. solve_ids. Qed.

Lemma custom_output_ids_spec items c :
  c ∈ collect_ids custom_tool_output_id items <-> (KCustom, c) ∈ outputs items.
Proof. solve_ids. Qed.

Lemma function_call_ids_spec items c :
  c ∈ collect_ids function_call_id items <-> (KFunction, c) ∈ calls items.
Proof. solve_ids. Qed.

Lemma tool_search_call_ids_spec items c :
  c ∈ collect_ids tool_search_call_id items <-> (KToolSearch, c) ∈ calls items.
Proof. solve_ids. Qed.

Lemma custom_call_ids_spec items c :
  c ∈ collect_ids custom_tool_call_id items <-> (KCustom, c) ∈ calls items.
Proof. solve_ids. Qed.

(** A synthetic output answers a call whose key has no output. *)
Lemma synthetic_spec v5 items e o :
  o ∈ synthetic v5 items e -> exists k, call_key (item e) = Some k /\ k ∉ outputs items
    /\ output_key (item o) = Some k /\ external_output (item o) = false /\ call_key (item o) = None.
Proof.
  unfold synthetic, missing_output.
  destruct (item e) eqn:E; simpl; repeat case_match; simplify_eq; try set_solver;
    intros ->%list_elem_of_singleton; simpl; eexists; split_and!; try done;
    case_bool_decide; simplify_eq;
    by rewrite <- ?function_output_ids_spec, <- ?tool_search_output_ids_spec, <- ?custom_output_ids_spec.
Qed.

Lemma synthetic_missing v5 items e k :
  call_key (item e) = Some k -> k ∉ outputs items ->
  exists o, synthetic v5 items e = [o] /\ output_key (item o) = Some k /\ call_key (item o) = None.
Proof.
  intros Hk Ho. unfold synthetic, missing_output.
  destruct (item e); simpl in *; repeat case_match; simplify_eq; case_bool_decide as Hin;
    rewrite ?function_output_ids_spec, ?tool_search_output_ids_spec, ?custom_output_ids_spec in Hin;
    naive_solver.
Qed.

Lemma synthetic_present v5 items e :
  (forall k, call_key (item e) = Some k -> k ∈ outputs items) -> synthetic v5 items e = [].
Proof.
  intros Hk. destruct (synthetic v5 items e) as [|o os] eqn:E; [done|exfalso].
  assert (Ho : o ∈ synthetic v5 items e) by (rewrite E; set_solver).
  apply synthetic_spec in Ho as (k & ? & ? & _). naive_solver.
Qed.

(** ** The two passes as list functions *)

Definition add_outputs (v5 : str -> str) (items : list ResponseItemEnvelope)
    : list ResponseItemEnvelope :=
  flat_map (fun e => e :: synthetic v5 items e) items.

Definition drop_orphans (items : list ResponseItemEnvelope) : list ResponseItemEnvelope :=
  List.filter (fun e => negb (orphan items e)) items.

Lemma vec_insert_app {A} (pre post : list A) x i :
  i = length pre -> vec_insert i x (pre ++ post) = Some (pre ++ x :: post).
Proof.
  intros ->. unfold vec_insert. rewrite length_app. case_match eqn:E; [|apply Nat.leb_gt in E; lia].
  by rewrite take_app_length, drop_app_length.
Qed.

Lemma insert_missing v5 all pre items :
  exists missing,
    missing_outputs false v5 (collect_ids function_output_id all)
      (collect_ids tool_search_output_id all) (collect_ids custom_tool_output_id all)
      (length pre) items = Some missing
    /\ insert_outputs missing (pre ++ items)
       = Some (pre ++ flat_map (fun e => e :: synthetic v5 all e) items).
Proof.
  revert pre; induction items as [|e items IH]; intros pre; simpl; [by eexists|].
  destruct (IH (pre ++ [e])) as (rest & Hm & Hi).
  rewrite length_app, Nat.add_1_r in Hm. rewrite <- (assoc_L (++)) in Hi. simpl in Hi.
  unfold synthetic at 1.
  destruct (missing_output false v5 _ _ _ (item e)) as [o|] eqn:E.
  2:{ exfalso. revert E. unfold missing_output. simpl. by repeat case_match. }
  simpl. rewrite Hm. simpl. destruct o as [o|]; simpl; eexists; (split; [done|]).
  - simpl. fold (insert_outputs rest (pre ++ e :: items)). rewrite Hi. simpl.
    rewrite vec_insert_app by (rewrite length_app; simpl; lia).
    by rewrite <- (assoc_L (++)).
  - rewrite Hi. by rewrite <- (assoc_L (++)).
Qed.

Lemma ensure_call_outputs_present_spec v5 items :
  ensure_call_outputs_present false v5 items = Some (add_outputs v5 items).
Proof.
  unfold ensure_call_outputs_present. destruct (insert_missing v5 items [] items) as (m & Hm & Hi).
  simpl in *. by rewrite Hm.
Qed.

Lemma retain_orphans fi si ci pos (items : list ResponseItemEnvelope) :
  exists ps, orphan_positions false fi si ci pos items = Some ps
    /\ Forall (fun p => pos <= p) ps
    /\ retain_except ps pos items = List.filter (fun e => negb (is_orphan fi si ci (item e))) items.
Proof.
  revert pos; induction items as [|e items IH]; intros pos; simpl; [by eexists|].
  destruct (IH (S pos)) as (ps & H1 & H2 & H3). destruct (is_orphan fi si ci (item e)); simpl.
  - rewrite H1. simpl. eexists; split_and!; [done| |].
    + constructor; [lia|]. eapply Forall_impl; [done|]. simpl. lia.
    + simpl. by rewrite Nat.eqb_refl.
  - exists ps. split_and!; [done| |].
    + eapply Forall_impl; [done|]. simpl. lia.
    + destruct ps as [|p ps]; simpl; [by rewrite H3|]. apply Forall_cons in H2 as [H2 _].
      destruct (Nat.eqb_spec p pos); [lia|]. by rewrite H3.
Qed.

Lemma retain_except_nil {A} pos (l : list A) : retain_except [] pos l = l.
Proof. revert pos; induction l; intros; simpl; [done|by f_equal]. Qed.

Lemma remove_orphan_outputs_spec items :
  remove_orphan_outputs false items = Some (drop_orphans items).
Proof.
  unfold remove_orphan_outputs.
  destruct (retain_orphans (collect_ids function_call_id items) (collect_ids tool_search_call_id items)
              (collect_ids custom_tool_call_id items) 0 items) as (ps & H1 & _ & H3).
  rewrite H1. simpl. f_equal. unfold drop_orphans, orphan. rewrite <- H3.
  destruct ps; [by rewrite retain_except_nil|done].
Qed.

(** ** Pairing *)

Lemma calls_app l1 l2 : calls (l1 ++ l2) = calls l1 ++ calls l2.
Proof. apply omap_app. Qed.

Lemma calls_synthetic v5 items e : calls (synthetic v5 items e) = [].
Proof.
  destruct (calls (synthetic v5 items e)) as [|k ks] eqn:E; [done|exfalso].
  assert (Hk : k ∈ calls (synthetic v5 items e)) by (rewrite E; set_solver).
  apply elem_of_calls in Hk as (o & Ho & Hk). apply synthetic_spec in Ho. naive_solver.
Qed.

Lemma calls_cons e l : calls (e :: l) = option_list (call_key (item e)) ++ calls l.
Proof. unfold calls. simpl. by destruct (call_key (item e)). Qed.

Lemma outputs_cons e l : outputs (e :: l) = option_list (output_key (item e)) ++ outputs l.
Proof. unfold outputs. simpl. by destruct (output_key (item e)). Qed.

Lemma calls_add_outputs v5 items : calls (add_outputs v5 items) = calls items.
Proof.
  unfold add_outputs. generalize items at 1 as all. intros all.
  induction items as [|e items IH]; [done|]. cbn [flat_map].
  rewrite <- app_comm_cons, calls_cons, calls_app, calls_synthetic, IH. by rewrite calls_cons.
Qed.

Lemma elem_of_add_outputs v5 items e :
  e ∈ add_outputs v5 items <-> e ∈ items \/ exists c, c ∈ items /\ e ∈ synthetic v5 items c.
Proof.
  unfold add_outputs. rewrite list_elem_of_In, in_flat_map. setoid_rewrite <- list_elem_of_In.
  setoid_rewrite elem_of_cons. naive_solver.
Qed.

Lemma outputs_add_outputs v5 items k :
  k ∈ outputs (add_outputs v5 items) <-> k ∈ outputs items \/ k ∈ calls items.
Proof.
  rewrite elem_of_outputs. setoid_rewrite elem_of_add_outputs. split.
  - intros (e & [He|(c & Hc & He)] & Hk).
    + left. apply elem_of_outputs. eauto.
    + right. apply synthetic_spec in He as (k' & ? & _ & ? & _). simplify_eq.
      apply elem_of_calls. eauto.
  - intros Hk. destruct (decide (k ∈ outputs items)) as [Ho|Ho].
    + apply elem_of_outputs in Ho as (e & ? & ?). eauto.
    + destruct Hk as [|Hk]; [done|]. apply elem_of_calls in Hk as (c & Hc & Hk).
      destruct (synthetic_missing v5 items c k Hk Ho) as (o & Hs & Hok & _).
      exists o. split; [|done]. right. exists c. split; [done|]. rewrite Hs. set_solver.
Qed.

Lemma orphan_spec items e :
  orphan items e = true <->
  exists k, output_key (item e) = Some k /\ external_output (item e) = false /\ k ∉ calls items.
Proof.
  unfold orphan, is_orphan.
  destruct (item e); simpl; try (by split; [|intros (? & ? & _)]); repeat case_match;
    try (by split; [|intros (? & ? & _)]);
    rewrite ?andb_true_iff, ?negb_true_iff, ?bool_decide_eq_false, ?function_call_ids_spec,
      ?tool_search_call_ids_spec, ?custom_call_ids_spec;
    (split; [intros; eexists; by destruct_and?|intros (? & ? & ? & ?); by simplify_eq]).
Qed.

Lemma orphan_calls items items' e :
  calls items = calls items' -> orphan items e = orphan items' e.
Proof. intros Hc. apply eq_true_iff_eq. by rewrite !orphan_spec, Hc. Qed.

Lemma orphan_no_call items e : orphan items e = true -> call_key (item e) = None.
Proof. rewrite orphan_spec. destruct (item e); simpl; repeat case_match; naive_solver. Qed.

Lemma calls_drop_orphans items : calls (drop_orphans items) = calls items.
Proof.
  unfold drop_orphans. generalize items at 1 as all. intros all.
  induction items as [|e items IH]; [done|]. cbn [List.filter].
  destruct (orphan all e) eqn:E; simpl; rewrite ?calls_cons, IH, ?calls_cons; [|done].
  by rewrite (orphan_no_call _ _ E).
Qed.

Lemma elem_of_drop_orphans items e : e ∈ drop_orphans items <-> e ∈ items /\ orphan items e = false.
Proof.
  unfold drop_orphans. rewrite list_elem_of_In, filter_In, <- list_elem_of_In.
  by rewrite negb_true_iff.
Qed.

Lemma passes_paired v5 items : paired (drop_orphans (add_outputs v5 items)).
Proof.
  split.
  - intros k. rewrite calls_drop_orphans, elem_of_outputs. setoid_rewrite elem_of_drop_orphans.
    intros Hk. assert (Ho : k ∈ outputs (add_outputs v5 items)).
    { apply outputs_add_outputs. right. by rewrite <- (calls_add_outputs v5). }
    apply elem_of_outputs in Ho as (e & He & Hek). exists e. split_and!; [done| |done].
    apply not_true_iff_false. rewrite orphan_spec. naive_solver.
  - intros e k [He Horph]%elem_of_drop_orphans Hk Hext. rewrite calls_drop_orphans.
    apply not_true_iff_false in Horph. rewrite orphan_spec in Horph.
    destruct (decide (k ∈ calls (add_outputs v5 items))); [done|]. exfalso. apply Horph. eauto.
Qed.

Lemma flat_map_unchanged {A} (f : A -> list A) (l : list A) :
  (forall x, x ∈ l -> f x = []) -> flat_map (fun x => x :: f x) l = l.
Proof.
  induction l as [|x l IH]; intros Hf; [done|]. simpl. rewrite Hf by set_solver. simpl. f_equal.
  apply IH. set_solver.
Qed.

Lemma filter_unchanged {A} (f : A -> bool) (l : list A) :
  (forall x, x ∈ l -> f x = true) -> List.filter f l = l.
Proof.
  induction l as [|x l IH]; intros Hf; [done|]. simpl. rewrite Hf by set_solver. f_equal.
  apply IH. set_solver.
Qed.

Lemma add_outputs_paired v5 items : paired items -> add_outputs v5 items = items.
Proof.
  intros [H1 _]. apply flat_map_unchanged. intros e He. apply synthetic_present. intros k Hk.
  apply H1, elem_of_calls. eauto.
Qed.

Lemma drop_orphans_paired items : paired items -> drop_orphans items = items.
Proof.
  intros [_ H2]. apply filter_unchanged. intros e He. apply negb_true_iff, not_true_iff_false.
  rewrite orphan_spec. naive_solver.
Qed.

Lemma filter_flat_synthetic v5 items l : l ⊆ items ->
  List.filter (fun e => negb (orphan items e)) (flat_map (fun e => e :: synthetic v5 items e) l)
  = flat_map (fun e => e :: synthetic v5 items e) (List.filter (fun e => negb (orphan items e)) l).
Proof.
  induction l as [|e l IH]; intros Hsub; [done|]. cbn [flat_map].
  rewrite <- app_comm_cons. cbn [List.filter].
  assert (Hs : List.filter (fun e => negb (orphan items e)) (synthetic v5 items e)
               = synthetic v5 items e).
  { apply filter_unchanged. intros o Ho. apply negb_true_iff, not_true_iff_false.
    rewrite orphan_spec. apply synthetic_spec in Ho as (k & Hk & _ & Hok & _).
    intros (k' & ? & _ & Hn). simplify_eq. apply Hn, elem_of_calls. set_solver. }
  rewrite List.filter_app, Hs, IH by set_solver. destruct (orphan items e) eqn:E; simpl; [|done].
  rewrite synthetic_present; [done|]. apply orphan_no_call in E. rewrite E. done.
Qed.

(** The passes commute: an orphan has no output added and an added output is
    never an orphan. *)
Lemma passes_normal_form v5 items :
  drop_orphans (add_outputs v5 items)
  = flat_map (fun e => e :: synthetic v5 items e) (drop_orphans items).
Proof.
  unfold drop_orphans at 2. rewrite <- filter_flat_synthetic by done.
  apply List.filter_ext. intros e. f_equal. apply orphan_calls, calls_add_outputs.
Qed.

(** ** Media *)

Definition strip_item (input_modalities : list InputModality) (i : ResponseItem) : ResponseItem :=
  let i := if bool_decide (ImageModality ∈ input_modalities) then i else strip_item_images i in
  if bool_decide (AudioModality ∈ input_modalities) then i else strip_item_audio i.

Definition message_contents (i : ResponseItem) : list ContentItem :=
  match i with Message _ _ content _ _ => content | _ => [] end.
Definition payload_contents (i : ResponseItem) : list FunctionCallOutputContentItem :=
  match i with
  | FunctionCallOutput _ _ _ _ output _ | CustomToolCallOutput _ _ _ output _ =>
      match body output with ContentItems items => items | BodyText _ => [] end
  | _ => []
  end.

(** An item without content that a predicate forbids. *)
Definition free_of (p : ContentItem -> bool) (q : FunctionCallOutputContentItem -> bool)
    (i : ResponseItem) : Prop :=
  Forall (fun c => p c = false) (message_contents i) /\ Forall (fun c => q c = false) (payload_contents i).

Lemma annotate_unzip (a : list AnnotatedContent) : annotate (map ac_content a) (map ac_kind a) = a.
Proof. induction a as [|[c k] a IH]; [done|]. simpl. by rewrite IH. Qed.

Lemma strip_message_eq p u id role content phase md :
  strip_message p u (Message id role content phase md) =
  let cs := map (replace_content p u) (annotate content (match md with
                                          | Some m => default [] (md_content_item_kinds m)
                                          | None => [] end)) in
  Message id role (map ac_content cs) phase
    (Some (with_kinds (default default_metadata md) (Some (map ac_kind cs)))).
Proof. unfold strip_message, to_annotated_content, set_annotated_content. by destruct md. Qed.

(** Two strips of a message replace in turn. *)
Lemma strip_message_twice p u q v id role content phase md :
  strip_message q v (strip_message p u (Message id role content phase md)) =
  let cs := map (fun a => replace_content q v (replace_content p u a))
              (annotate content (match md with
                                 | Some m => default [] (md_content_item_kinds m)
                                 | None => [] end)) in
  Message id role (map ac_content cs) phase
    (Some (with_kinds (default default_metadata md) (Some (map ac_kind cs)))).
Proof.
  rewrite strip_message_eq. cbv zeta. rewrite strip_message_eq. simpl.
  rewrite annotate_unzip. by destruct md; unfold with_kinds; simpl; rewrite !map_map.
Qed.

Lemma strip_payload_twice p u q v o :
  strip_payload q v (strip_payload p u o) =
  match body o with
  | BodyText _ => o
  | ContentItems items =>
      mkPayload (ContentItems (map (fun c => let c := if p c then InputText (um_text u) else c in
                                             if q c then InputText (um_text v) else c) items))
        (success o)
  end.
Proof. unfold strip_payload. destruct o as [[]]; simpl; [done|]. by rewrite map_map. Qed.

(** Both sides replace the same contents. *)
Ltac solve_replace :=
  let c := fresh in intros c; destruct c as [c ?] || idtac; unfold replace_content; simpl;
  destruct c; reflexivity.

Ltac solve_strip :=
  intros; simpl; rewrite ?strip_message_twice, ?strip_message_eq, ?strip_payload_twice; cbv zeta;
  unfold strip_payload; try done; repeat case_match; try done; simpl;
  lazymatch goal with
  | |- Message _ _ (map _ (map ?F ?l)) _ _ = Message _ _ (map _ (map ?G ?l)) _ _ =>
      rewrite (map_ext F G) by solve_replace; reflexivity
  | |- _ (mkPayload (ContentItems (map ?F ?l)) _) _ = _ (mkPayload (ContentItems (map ?G ?l)) _) _ =>
      rewrite (map_ext F G) by solve_replace; reflexivity
  end.

Lemma strip_item_images_idemp i : strip_item_images (strip_item_images i) = strip_item_images i.
Proof. destruct i; solve_strip. Qed.

Lemma strip_item_audio_idemp i : strip_item_audio (strip_item_audio i) = strip_item_audio i.
Proof. destruct i; solve_strip. Qed.

Lemma strip_item_commute i :
  strip_item_images (strip_item_audio i) = strip_item_audio (strip_item_images i).
Proof. destruct i; solve_strip. Qed.

Lemma strip_item_idemp mods i : strip_item mods (strip_item mods i) = strip_item mods i.
Proof.
  unfold strip_item. repeat case_bool_decide;
    by rewrite ?strip_item_commute, ?strip_item_images_idemp, ?strip_item_audio_idemp.
Qed.

Lemma strip_item_keys mods i :
  call_key (strip_item mods i) = call_key i /\ output_key (strip_item mods i) = output_key i
  /\ external_output (strip_item mods i) = external_output i.
Proof. unfold strip_item. destruct i; repeat case_bool_decide; done. Qed.

Lemma paired_map_strip mods items :
  paired items -> paired (map (map_item (strip_item mods)) items).
Proof.
  assert (Hc : calls (map (map_item (strip_item mods)) items) = calls items).
  { induction items as [|e l IH]; [done|]. cbn [map]. rewrite !calls_cons, IH. simpl.
    by destruct (strip_item_keys mods (item e)) as (-> & _ & _). }
  assert (Ho : outputs (map (map_item (strip_item mods)) items) = outputs items).
  { clear Hc. induction items as [|e l IH]; [done|]. cbn [map]. rewrite !outputs_cons, IH. simpl.
    by destruct (strip_item_keys mods (item e)) as (_ & -> & _). }
  intros [H1 H2]. split; [by rewrite Hc, Ho|]. rewrite Hc.
  intros e k He Hk Hx. apply list_elem_of_In, in_map_iff in He as (e' & <- & He). simpl in *.
  destruct (strip_item_keys mods (item e')) as (_ & Hok & Hex). rewrite Hok in Hk. rewrite Hex in Hx.
  eapply H2; [by apply list_elem_of_In|done|done].
Qed.

Lemma normalize_items_eq v5 mods items :
  normalize_items false v5 mods items
  = Some (map (map_item (strip_item mods)) (drop_orphans (add_outputs v5 items))).
Proof.
  unfold normalize_items. rewrite ensure_call_outputs_present_spec. simpl.
  rewrite remove_orphan_outputs_spec. simpl. f_equal.
  unfold strip_audio_when_unsupported, strip_images_when_unsupported, strip_item.
  generalize (drop_orphans (add_outputs v5 items)). intros l.
  repeat case_bool_decide; rewrite ?map_map; try done.
  rewrite <- (map_id l) at 1. apply map_ext. by intros [].
Qed.

Lemma replace_free (p : ContentItem -> bool) u content kinds :
  p (Content.InputText (um_text u)) = false ->
  Forall (fun c => p c = false) (map ac_content (map (replace_content p u) (annotate content kinds))).
Proof.
  intros Hu. revert kinds; induction content as [|c l IH]; intros kinds; [constructor|].
  simpl. destruct kinds as [|k kinds]; simpl; (constructor; [|apply IH]);
    unfold replace_content; simpl; by destruct (p c) eqn:E.
Qed.

Lemma strip_payload_free (p : FunctionCallOutputContentItem -> bool) u o :
  p (InputText (um_text u)) = false ->
  match body (strip_payload p u o) with
  | ContentItems items => Forall (fun c => p c = false) items
  | BodyText _ => True
  end.
Proof.
  intros Hu. unfold strip_payload. destruct o as [[t|items] ok]; [done|]. simpl.
  induction items as [|c l IH]; [done|]. simpl. constructor; [|done]. by destruct (p c) eqn:E.
Qed.

Ltac solve_free lem :=
  split; simpl; rewrite ?strip_message_eq; try (by apply replace_free); try constructor;
  match goal with
  | |- Forall _ match body (strip_payload ?p ?u ?o) with _ => _ end =>
      pose proof (lem p u o eq_refl); by destruct (body (strip_payload p u o))
  end.

Lemma strip_item_images_free i : free_of is_image is_output_image (strip_item_images i).
Proof. destruct i; solve_free strip_payload_free. Qed.

Lemma strip_item_audio_free i : free_of is_audio is_output_audio (strip_item_audio i).
Proof. destruct i; solve_free strip_payload_free. Qed.

Lemma strip_item_free mods i :
  (ImageModality ∉ mods -> free_of is_image is_output_image (strip_item mods i))
  /\ (AudioModality ∉ mods -> free_of is_audio is_output_audio (strip_item mods i)).
Proof.
  unfold strip_item. split; intros H; rewrite (bool_decide_eq_false_2 _ H).
  - case_bool_decide; rewrite <- ?strip_item_commute; apply strip_item_images_free.
  - apply strip_item_audio_free.
Qed.

(** ** Results *)

(** Normalising is idempotent: the prompt of a history that was normalised
    before, with the same modalities, is that history. *)
Theorem normalize_idempotent v5 mods items :
  normalize_items false v5 mods items ≫= normalize_items false v5 mods
  = normalize_items false v5 mods items.
Proof.
  rewrite !normalize_items_eq. simpl. rewrite normalize_items_eq. f_equal.
  pose proof (paired_map_strip mods _ (passes_paired v5 items)) as Hp.
  rewrite add_outputs_paired, drop_orphans_paired by done.
  rewrite map_map. apply map_ext. intros [i md]. unfold map_item. simpl.
  by rewrite strip_item_idemp.
Qed.

(** What a debug build panics on. *)
Definition irregular (items : list ResponseItemEnvelope) (e : ResponseItemEnvelope) : bool :=
  orphan items e
  || is_loud_call (item e)
     && is_some_and (fun k => negb (bool_decide (k ∈ outputs items))) (call_key (item e)).

Lemma missing_output_debug v5 items i :
  let ids f := collect_ids f items in
  missing_output true v5 (ids function_output_id) (ids tool_search_output_id)
    (ids custom_tool_output_id) i
  = if is_loud_call i && is_some_and (fun k => negb (bool_decide (k ∈ outputs items))) (call_key i)
    then None
    else missing_output false v5 (ids function_output_id) (ids tool_search_output_id)
           (ids custom_tool_output_id) i.
Proof.
  simpl. unfold missing_output.
  destruct i; simpl; try done; try (destruct call_id; [|done]); simpl;
    rewrite ?(bool_decide_ext _ _ (function_output_ids_spec items _)),
      ?(bool_decide_ext _ _ (custom_output_ids_spec items _)); by case_bool_decide.
Qed.

Lemma missing_outputs_debug v5 items idx l :
  let ids f := collect_ids f items in
  let loud e := is_loud_call (item e)
                && is_some_and (fun k => negb (bool_decide (k ∈ outputs items))) (call_key (item e)) in
  missing_outputs true v5 (ids function_output_id) (ids tool_search_output_id)
    (ids custom_tool_output_id) idx l
  = if existsb loud l then None
    else missing_outputs false v5 (ids function_output_id) (ids tool_search_output_id)
           (ids custom_tool_output_id) idx l.
Proof.
  simpl. revert idx; induction l as [|e l IH]; intros idx; [done|]. cbn [missing_outputs existsb].
  rewrite missing_output_debug, IH. destruct (is_loud_call _ && _); [done|]. simpl.
  destruct (existsb _ l); [|done]. by destruct (missing_output false _ _ _ _ _).
Qed.

Lemma orphan_positions_debug fi si ci pos (l : list ResponseItemEnvelope) :
  orphan_positions true fi si ci pos l
  = if existsb (fun e => is_orphan fi si ci (item e)) l then None else Some [].
Proof.
  revert pos; induction l as [|e l IH]; intros pos; [done|]. simpl. by destruct (is_orphan _ _ _ _).
Qed.

Lemma remove_orphan_outputs_debug items :
  remove_orphan_outputs true items
  = if existsb (orphan items) items then None else remove_orphan_outputs false items.
Proof.
  unfold remove_orphan_outputs at 1. rewrite orphan_positions_debug.
  change (existsb (fun e => is_orphan _ _ _ (item e)) items) with (existsb (orphan items) items).
  destruct (existsb (orphan items) items) eqn:E; [done|]. simpl.
  rewrite remove_orphan_outputs_spec. f_equal. symmetry. apply filter_unchanged. intros e He.
  apply negb_true_iff, not_true_iff_false. intros Ho. apply not_true_iff_false in E. apply E.
  apply existsb_exists. exists e. by rewrite <- list_elem_of_In.
Qed.

Lemma orphans_add_outputs v5 items :
  existsb (orphan (add_outputs v5 items)) (add_outputs v5 items) = existsb (orphan items) items.
Proof.
  assert (Ho : forall e, orphan (add_outputs v5 items) e = orphan items e).
  { intros e. apply orphan_calls, calls_add_outputs. }
  apply eq_true_iff_eq. rewrite !existsb_exists. setoid_rewrite <- list_elem_of_In.
  setoid_rewrite Ho. setoid_rewrite elem_of_add_outputs. split; [|naive_solver].
  intros (e & [Hin|(c & Hc & Hs)] & He); [eauto|exfalso].
  apply orphan_spec in He as (k & Hk & _ & Hn).
  apply synthetic_spec in Hs as (k' & ? & _ & ? & _). simplify_eq. apply Hn, elem_of_calls. eauto.
Qed.

Lemma existsb_orb {A} (f g : A -> bool) l :
  existsb (fun x => f x || g x) l = existsb g l || existsb f l.
Proof.
  induction l as [|x l IH]; [done|]. simpl. rewrite IH.
  by destruct (f x), (g x), (existsb f l), (existsb g l).
Qed.

(** A debug build panics on exactly the irregular histories (an orphaned
    output, or a shell or custom tool call without an output) and agrees with
    the release build on all others. *)
Theorem normalize_debug_panics v5 mods items :
  normalize_items true v5 mods items
  = if existsb (irregular items) items then None else normalize_items false v5 mods items.
Proof.
  unfold normalize_items, irregular. rewrite existsb_orb.
  rewrite ensure_call_outputs_present_spec. simpl.
  unfold ensure_call_outputs_present. rewrite missing_outputs_debug. cbv zeta.
  destruct (existsb _ items); [done|].
  pose proof (ensure_call_outputs_present_spec v5 items) as He.
  unfold ensure_call_outputs_present in He. rewrite He. simpl.
  rewrite remove_orphan_outputs_debug, orphans_add_outputs. by destruct (existsb _ items).
Qed.

(** What stands for a content item in a prompt. *)
Definition replace_media (mods : list InputModality) (c : ContentItem) : ContentItem :=
  if is_image c && negb (bool_decide (ImageModality ∈ mods)) then Content.InputText (um_text UNSUPPORTED_IMAGE)
  else if is_audio c && negb (bool_decide (AudioModality ∈ mods)) then Content.InputText (um_text UNSUPPORTED_AUDIO)
  else c.

Definition replace_output_media (mods : list InputModality) (c : FunctionCallOutputContentItem) : FunctionCallOutputContentItem :=
  if is_output_image c && negb (bool_decide (ImageModality ∈ mods)) then InputText (um_text UNSUPPORTED_IMAGE)
  else if is_output_audio c && negb (bool_decide (AudioModality ∈ mods)) then InputText (um_text UNSUPPORTED_AUDIO)
  else c.

Lemma replaced_contents (f : AnnotatedContent -> AnnotatedContent) (g : ContentItem -> ContentItem) content kinds :
  (forall a, ac_content (f a) = g (ac_content a)) -> map ac_content (map f (annotate content kinds)) = map g content.
Proof.
  intros Hf. revert kinds. induction content as [|c content IH]; intros kinds; [done|].
  destruct kinds as [|k kinds]; simpl; by rewrite Hf, IH.
Qed.

Lemma strip_message_contents p u i :
  message_contents (strip_message p u i)
  = map (fun c => if p c then Content.InputText (um_text u) else c) (message_contents i).
Proof.
  destruct i; try done. rewrite strip_message_eq. cbn [message_contents]. cbv zeta. apply replaced_contents.
  intros [c k]. unfold replace_content. simpl. by destruct (p c).
Qed.

Definition body_contents (o : FunctionCallOutputPayload) : list FunctionCallOutputContentItem :=
  match body o with ContentItems items => items | BodyText _ => [] end.

Lemma strip_payload_contents p u o :
  body_contents (strip_payload p u o) = map (fun c => if p c then InputText (um_text u) else c) (body_contents o).
Proof. by destruct o as [[]]. Qed.

Lemma strip_images_contents i :
  message_contents (strip_item_images i) = map (fun c => if is_image c then Content.InputText (um_text UNSUPPORTED_IMAGE) else c) (message_contents i)
  /\ payload_contents (strip_item_images i) = map (fun c => if is_output_image c then InputText (um_text UNSUPPORTED_IMAGE) else c) (payload_contents i).
Proof. destruct i; split; try done; [apply strip_message_contents|apply strip_payload_contents..]. Qed.

Lemma strip_audio_contents i :
  message_contents (strip_item_audio i) = map (fun c => if is_audio c then Content.InputText (um_text UNSUPPORTED_AUDIO) else c) (message_contents i)
  /\ payload_contents (strip_item_audio i) = map (fun c => if is_output_audio c then InputText (um_text UNSUPPORTED_AUDIO) else c) (payload_contents i).
Proof. destruct i; split; try done; [apply strip_message_contents|apply strip_payload_contents..]. Qed.

(** Media is replaced item by item. *)
Lemma strip_item_contents mods i :
  message_contents (strip_item mods i) = map (replace_media mods) (message_contents i)
  /\ payload_contents (strip_item mods i) = map (replace_output_media mods) (payload_contents i).
Proof.
  unfold strip_item, replace_media, replace_output_media.
  destruct (bool_decide (ImageModality ∈ mods)), (bool_decide (AudioModality ∈ mods)); cbn [negb].
  - split; symmetry; rewrite <- map_id; apply map_ext; intros c; by rewrite !andb_false_r.
  - destruct (strip_audio_contents i) as [-> ->]. split; apply map_ext; intros c; by rewrite andb_false_r, andb_true_r.
  - destruct (strip_images_contents i) as [-> ->]. split; apply map_ext; intros c; by rewrite andb_false_r, andb_true_r.
  - destruct (strip_audio_contents (strip_item_images i)) as [-> ->]. destruct (strip_images_contents i) as [-> ->].
    rewrite !map_map. split; apply map_ext; intros c; by destruct c.
Qed.

(** C11: the history of a prompt.  A release build normalises any history; a debug build
    panics on exactly the irregular ones (an orphaned output, or a shell or custom
    tool call without an output) and agrees on all others.  The result is the
    history in its order without the orphaned outputs, each call that had no
    output followed by a synthetic one, and media stripped item by item.  It is
    paired: every call has an output, every output that is not from a server
    has a call; a history that was paired only has its media stripped.
    Stripping puts a text in the place of each content item of an unsupported
    modality and keeps the others, so that none of that modality is left, and
    empties the result of an image generation when images are not supported;
    with both modalities supported it changes nothing. *)
Theorem normalize_history_paired debug v5 mods items :
  let out := map (map_item (strip_item mods)) (flat_map (fun e => e :: synthetic v5 items e) (drop_orphans items)) in
  normalize_items debug v5 mods items = (if debug && existsb (irregular items) items then None else Some out)
  /\ paired out
  /\ (paired items -> out = map (map_item (strip_item mods)) items)
  /\ (forall i, message_contents (strip_item mods i) = map (replace_media mods) (message_contents i)
              /\ payload_contents (strip_item mods i) = map (replace_output_media mods) (payload_contents i))
  /\ (ImageModality ∉ mods -> Forall (fun e => free_of is_image is_output_image (item e)) out)
  /\ (AudioModality ∉ mods -> Forall (fun e => free_of is_audio is_output_audio (item e)) out)
  /\ (ImageModality ∉ mods -> forall id status prompt result md,
       strip_item mods (ImageGenerationCall id status prompt result md) = ImageGenerationCall id status prompt [] md)
  /\ (ImageModality ∈ mods -> AudioModality ∈ mods -> forall i, strip_item mods i = i).
Proof.
  intros out. assert (Hout : out = map (map_item (strip_item mods)) (drop_orphans (add_outputs v5 items))).
  { unfold out. by rewrite passes_normal_form. }
  split_and!.
  - assert (Hr : normalize_items false v5 mods items = Some out) by (by rewrite normalize_items_eq, Hout).
    destruct debug; [|done]. rewrite normalize_debug_panics, Hr. done.
  - rewrite Hout. apply paired_map_strip, passes_paired.
  - intros Hp. by rewrite Hout, add_outputs_paired, drop_orphans_paired.
  - apply strip_item_contents.
  - intros Hm. rewrite Hout. apply Forall_forall. intros e He.
    apply list_elem_of_In, in_map_iff in He as (x & <- & _). by apply strip_item_free.
  - intros Hm. rewrite Hout. apply Forall_forall. intros e He.
    apply list_elem_of_In, in_map_iff in He as (x & <- & _). by apply strip_item_free.
  - intros Hm id status prompt result md. unfold strip_item. rewrite (bool_decide_false (ImageModality ∈ mods)) by done. by destruct (bool_decide (AudioModality ∈ mods)).
  - intros H1 H2 i. unfold strip_item. by rewrite !bool_decide_true.
Qed.

(** ** Removing a pair *)

Lemma position_spec {A} (f : A -> bool) l :
  match position f l with
  | Some n => exists l1 x l2, l = l1 ++ x :: l2 /\ length l1 = n /\ f x = true
  | None => forall x, x ∈ l -> f x = false
  end.
Proof.
  induction l as [|x l IH]; simpl; [set_solver|]. destruct (f x) eqn:E; [by exists [], x, l|].
  destruct (position f l); simpl.
  - destruct IH as (l1 & y & l2 & -> & <- & Hy). by exists (x :: l1), y, l2.
  - intros y [->|]%elem_of_cons; eauto.
Qed.

(** [l'] is [l] without one item of a key, or [l] when there is none. *)
Definition removes_one (key : ResponseItem -> option (call_kind * str)) (k : call_kind * str)
    (l l' : list ResponseItemEnvelope) : Prop :=
  (l' = l /\ forall e, e ∈ l -> key (item e) <> Some k)
  \/ exists l1 e l2, l = l1 ++ e :: l2 /\ l' = l1 ++ l2 /\ key (item e) = Some k.

Lemma remove_at_position key k f l :
  (forall e, f e = true <-> key (item e) = Some k) ->
  removes_one key k l (match position f l with Some pos => delete pos l | None => l end).
Proof.
  intros Hf. pose proof (position_spec f l) as Hp. destruct (position f l) as [n|].
  - destruct Hp as (l1 & e & l2 & -> & <- & He). right. exists l1, e, l2.
    split_and!; [done| |by apply Hf]. rewrite delete_middle. done.
  - left. split; [done|]. intros e He Hk. apply Hf in Hk. by rewrite Hp in Hk.
Qed.

Lemma keys_exclusive i k : call_key i = Some k -> output_key i = None.
Proof. by destruct i. Qed.

Ltac solve_removes :=
  apply remove_at_position; intros x; unfold has_id; destruct (item x); simpl;
  repeat case_match; simpl; rewrite ?str_eqb_eq; naive_solver.

Lemma remove_corresponding_for_spec l i :
  match call_key i, output_key i with
  | Some k, _ => removes_one output_key k l (remove_corresponding_for l i)
  | None, Some k => removes_one call_key k l (remove_corresponding_for l i)
  | None, None => remove_corresponding_for l i = l
  end.
Proof.
  destruct i; simpl; try done; try (destruct call_id; [|done]); try solve_removes.
  pose proof (position_spec (fun x => is_function_call l0 (item x)) l) as H1.
  pose proof (position_spec (fun x => is_local_shell_call l0 (item x)) l) as H2.
  destruct (position (fun x => is_function_call _ _) l);
    [|destruct (position (fun x => is_local_shell_call _ _) l)].
  - destruct H1 as (l1 & x & l2 & -> & <- & Hx). right. exists l1, x, l2. rewrite delete_middle.
    split_and!; [done..|]. revert Hx. destruct (item x); simpl; try done. by intros ->%str_eqb_eq.
  - destruct H2 as (l1 & x & l2 & -> & <- & Hx). right. exists l1, x, l2. rewrite delete_middle.
    split_and!; [done..|]. revert Hx. destruct (item x); simpl; try done.
    destruct call_id; [|done]. by intros ->%str_eqb_eq.
  - left. split; [done|]. intros x Hx. specialize (H1 x Hx). specialize (H2 x Hx). simpl in *.
    destruct (item x); simpl in *; repeat case_match; intros [=]; subst; by rewrite str_eqb_refl in *.
Qed.

Lemma removes_one_sublist key k l l' :
  removes_one key k l l' -> l' `sublist_of` l /\ length l <= length l' + 1.
Proof.
  intros [[-> _]|(l1 & e & l2 & -> & -> & _)]; [split; [done|lia]|].
  split; [apply sublist_app; [done|by apply sublist_cons]|]. rewrite !length_app. simpl. lia.
Qed.

Lemma remove_corresponding_for_sublist l i :
  remove_corresponding_for l i `sublist_of` l
  /\ length l <= length (remove_corresponding_for l i) + 1.
Proof.
  pose proof (remove_corresponding_for_spec l i) as H.
  destruct (call_key i); [by eapply removes_one_sublist|].
  destruct (output_key i); [by eapply removes_one_sublist|]. rewrite H. split; [done|lia].
Qed.

Lemma outputs_app l1 l2 : outputs (l1 ++ l2) = outputs l1 ++ outputs l2.
Proof. apply omap_app. Qed.

Definition well_paired (items : list ResponseItemEnvelope) : Prop := paired items /\ one_to_one items.

(** Removing a call at the front with its output. *)
Lemma remove_call_pair e l l' k :
  call_key (item e) = Some k -> well_paired (e :: l) -> removes_one output_key k l l' ->
  well_paired l'.
Proof.
  intros Hk [[H1 H2] [N1 N2]] Hrem. pose proof (keys_exclusive _ _ Hk) as Hno.
  rewrite calls_cons, Hk in *. rewrite outputs_cons, Hno in *. simpl in *.
  apply NoDup_cons in N1 as [Hkc N1].
  destruct Hrem as [[-> Hnone]|(l1 & o & l2 & -> & -> & Ho)].
  { exfalso. destruct (proj1 (elem_of_outputs l k)) as (x & ? & ?); [apply H1; set_solver|].
    by eapply Hnone. }
  assert (Hoc : call_key (item o) = None).
  { destruct (call_key (item o)) eqn:E; [|done]. apply keys_exclusive in E. congruence. }
  rewrite calls_app, calls_cons, Hoc in *. rewrite outputs_app, outputs_cons, Ho in *. simpl in *.
  apply NoDup_app in N2 as (N2 & Hd & [Hkl2 N3]%NoDup_cons).
  repeat split; rewrite ?calls_app, ?outputs_app; [| |done|].
  - intros k' Hk'. assert (Hne : k' <> k) by (intros ->; done).
    specialize (H1 k'). set_solver.
  - intros x k' Hx Hxk Hxe.
    assert (Hne : k' <> k).
    { intros ->. assert (k ∈ outputs (l1 ++ l2)) as Hin by (apply elem_of_outputs; eauto).
      rewrite outputs_app in Hin. set_solver. }
    specialize (H2 x k' ltac:(set_solver) Hxk Hxe). set_solver.
  - apply NoDup_app. split_and!; [done| |done]. set_solver.
Qed.

(** Removing an output at the front with its call. *)
Lemma remove_output_pair e l l' k :
  output_key (item e) = Some k -> well_paired (e :: l) -> removes_one call_key k l l' ->
  well_paired l'.
Proof.
  intros Hk [[H1 H2] [N1 N2]] Hrem.
  assert (Hno : call_key (item e) = None).
  { destruct (call_key (item e)) eqn:E; [|done]. apply keys_exclusive in E. congruence. }
  rewrite calls_cons, Hno in *. rewrite outputs_cons, Hk in *. simpl in *.
  apply NoDup_cons in N2 as [Hko N2].
  destruct Hrem as [[-> Hnone]|(l1 & o & l2 & -> & -> & Ho)].
  { assert (Hkc : k ∉ calls l) by (intros (x & ? & ?)%elem_of_calls; by eapply Hnone).
    repeat split; [| |done|done].
    - intros k' Hk'. assert (k' <> k) by (intros ->; done). specialize (H1 k'). set_solver.
    - intros x k' Hx. apply H2. set_solver. }
  pose proof (keys_exclusive _ _ Ho) as Hoo.
  rewrite calls_app, calls_cons, Ho in *. rewrite outputs_app, outputs_cons, Hoo in *. simpl in *.
  apply NoDup_app in N1 as (N1 & Hd & [Hkl2 N3]%NoDup_cons).
  repeat split; rewrite ?calls_app, ?outputs_app; [| | |done].
  - intros k' Hk'. assert (Hne : k' <> k) by set_solver. specialize (H1 k'). set_solver.
  - intros x k' Hx Hxk Hxe.
    assert (Hne : k' <> k).
    { intros ->. assert (k ∈ outputs (l1 ++ l2)) as Hin by (apply elem_of_outputs; eauto).
      rewrite outputs_app in Hin. set_solver. }
    specialize (H2 x k' ltac:(set_solver) Hxk Hxe). set_solver.
  - apply NoDup_app. split_and!; [done| |done]. set_solver.
Qed.

Lemma remove_other e l :
  call_key (item e) = None -> output_key (item e) = None -> well_paired (e :: l) -> well_paired l.
Proof.
  unfold well_paired, one_to_one, paired. rewrite calls_cons, outputs_cons. intros -> ->. simpl.
  intros ((H1 & H2) & N). split; [split|]; [done| |done]. intros x k Hx. apply H2. set_solver.
Qed.

Lemma remove_front_well_paired e l :
  well_paired (e :: l) -> well_paired (remove_corresponding_for l (item e)).
Proof.
  intros Hw. pose proof (remove_corresponding_for_spec l (item e)) as Hs.
  destruct (call_key (item e)) as [k|] eqn:Ec; [by eapply remove_call_pair|].
  destruct (output_key (item e)) as [k|] eqn:Eo; [by eapply remove_output_pair|].
  rewrite Hs. by eapply remove_other.
Qed.

End keys.
