(* ===== verification/TranscriptHistory.v ===== *)
(** * guardian-context: bounded review history

    [history.rs]: the original items kept for approval review, independent of
    compaction.  User messages and other items have separate limits; recording
    an item evicts only the oldest entries of its own kind.  The main result:
    after any sequence of items each kind holds its most recent entries within
    the limits, in chronological order.

    How serde_json splits an encoded value into writes is the class
    [ReviewEncoding] (the lengths of the pieces, [None] for an encoding error),
    with the fixed size charged per item.  A [usize] underflow is [None]. *)

From S2P Require Import Prelude RustStr Truncate OutputTruncation ResponseItem.

Definition MAX_ITEMS_PER_KIND : nat := 128.
Definition MAX_BYTES_PER_KIND : N := (4 * 1024 * 1024)%N.

Class ReviewEncoding {json : SerdeJson} := {
  size_of_item : N;
  encode_item : ResponseItem -> option (list N);
  encode_reasoning : option (list ReasoningItemContent) -> option (list N);
  encode_header : option str -> str -> option MessagePhase ->
    option InternalChatMessageMetadataPassthrough -> option (list N);
  encode_content : ContentItem -> option (list N);
}.

(** ** BoundedSize *)

(** [Write::write]: the new size, or an error past the budget. *)
Definition bounded_write (bytes chunk : N) : option N :=
  if (saturating_sub MAX_BYTES_PER_KIND bytes <? chunk)%N then None else Some (bytes + chunk)%N.

Fixpoint write_chunks (bytes : N) (chunks : list N) : option N :=
  match chunks with
  | [] => Some bytes
  | c :: chunks' => bytes' ← bounded_write bytes c; write_chunks bytes' chunks'
  end.

(** [serde_json::to_writer(&mut size, value)] *)
Definition to_writer (bytes : N) (encoded : option (list N)) : option N :=
  chunks ← encoded; write_chunks bytes chunks.

(** [a - b] on [usize]. *)
Definition checked_sub (a b : N) : option N := if (b <=? a)%N then Some (a - b)%N else None.

Section history.
Context {json : SerdeJson} {enc : ReviewEncoding}.

Record TranscriptHistory := mkTranscript {
  th_items : list (ResponseItem * N);
  th_generation : N;
}.

Definition transcript_new (generation : N) : TranscriptHistory := mkTranscript [] generation.

(** ** record *)

Definition measure_item (i : ResponseItem) : option N :=
  bytes ← to_writer size_of_item (encode_item i);
  match i with
  | Reasoning _ _ content _ _ => to_writer bytes (encode_reasoning content)
  | _ => Some bytes
  end.

Definition same_kind (is_user : bool) (entry : ResponseItem * N) : bool :=
  Bool.eqb (is_user_message (fst entry)) is_user.

(** The count and bytes of a kind, the new item's bytes included. *)
Definition kind_usage (is_user : bool) (size : N) (items : list (ResponseItem * N)) : nat * N :=
  fold_left (fun '(count, bytes) '(_, size) => (count + 1, (bytes + size)%N))
    (List.filter (same_kind is_user) items) (0, size).

Definition over_limit (count : nat) (bytes : N) : bool :=
  (MAX_ITEMS_PER_KIND <=? count) || (MAX_BYTES_PER_KIND <? bytes)%N.

(** The closure of [retain], with its two counters. *)
Fixpoint evict (is_user : bool) (count : nat) (bytes : N) (items : list (ResponseItem * N))
    : option (list (ResponseItem * N)) :=
  match items with
  | [] => Some []
  | (i, size) :: items' =>
      if same_kind is_user (i, size) && over_limit count bytes then
        count' ← (match count with 0 => None | S c => Some c end);
        bytes' ← checked_sub bytes size;
        evict is_user count' bytes' items'
      else
        kept ← evict is_user count bytes items';
        Some ((i, size) :: kept)
  end.

(** The part of [record] after the measurement. *)
Definition push_entry (h : TranscriptHistory) (i : ResponseItem) (size : N)
    : option TranscriptHistory :=
  let is_user := is_user_message i in
  let '(count, bytes) := kind_usage is_user size (th_items h) in
  if over_limit count bytes then
    kept ← evict is_user count bytes (th_items h);
    Some (mkTranscript (kept ++ [(i, size)]) (saturating_add (th_generation h) 1))
  else Some (mkTranscript (th_items h ++ [(i, size)]) (th_generation h)).

Definition is_image_content (c : ContentItem) : bool :=
  match c with Content.InputImage _ _ => true | _ => false end.
Definition is_text_content (c : ContentItem) : bool :=
  match c with Content.InputText _ | Content.OutputText _ => true | _ => false end.

(** The loop over the text contents: measured one by one, [None] on overflow. *)
Fixpoint measure_contents (bytes : N) (content : list ContentItem) : option N :=
  match content with
  | [] => Some bytes
  | c :: content' => bytes' ← to_writer bytes (encode_content c); measure_contents bytes' content'
  end.

(** The bounded text of an oversized user message with images. *)
Definition text_fallback (i : ResponseItem) : option ResponseItem :=
  match i with
  | Message id role content phase md =>
      if str_eqb role (lit "user") && existsb is_image_content content then
        bytes ← to_writer size_of_item (encode_header id role phase md);
        let text := List.filter is_text_content content in
        _ ← measure_contents bytes text;
        if is_nil text then None else Some (Message id role text phase md)
      else None
  | _ => None
  end.

(** The body of [record]; [rec] is the recursive call. *)
Definition record_body (rec : TranscriptHistory -> ResponseItem -> option TranscriptHistory)
    (h : TranscriptHistory) (i : ResponseItem) : option TranscriptHistory :=
  match measure_item i with
  | Some size => push_entry h i size
  | None =>
      match text_fallback i with
      | Some text => rec h text
      | None => Some h
      end
  end.

(** The recursion is at most one deep: the fallback has no images. *)
Definition record (h : TranscriptHistory) (i : ResponseItem) : option TranscriptHistory :=
  record_body (record_body (fun h _ => Some h)) h i.

Fixpoint record_all (h : TranscriptHistory) (items : list ResponseItem) : option TranscriptHistory :=
  match items with
  | [] => Some h
  | i :: items' => h' ← record h i; record_all h' items'
  end.

Definition reset (h : TranscriptHistory) (items : list ResponseItem) : option TranscriptHistory :=
  record_all (mkTranscript [] (saturating_add (th_generation h) 1)) items.

(** ** The recursion equation *)

Lemma text_fallback_plain i text : text_fallback i = Some text -> text_fallback text = None.
Proof.
  destruct i; simpl; try done. case_match; [|done].
  destruct (to_writer _ _); simpl; [|done]. destruct (measure_contents _ _); simpl; [|done].
  case_match; [done|]. intros [= <-]. simpl.
  destruct (existsb is_image_content (List.filter is_text_content content)) eqn:E;
    [|by rewrite andb_false_r].
  apply existsb_exists in E as (c & [_ Hc]%filter_In & Hi). by destruct c.
Qed.

(** The recursion of [record] ends after one call: the definition
    satisfies the source's recursive equation. *)
Theorem record_equation h i : record h i = record_body record h i.
Proof.
  unfold record at 1, record_body at 1 3. destruct (measure_item i); [done|].
  destruct (text_fallback i) as [text|] eqn:E; [|done].
  apply text_fallback_plain in E. unfold record, record_body.
  destruct (measure_item text); [done|]. by rewrite E.
Qed.

(** What an item is stored as, if at all. *)
Definition stored (i : ResponseItem) : option (ResponseItem * N) :=
  match measure_item i with
  | Some size => Some (i, size)
  | None => text ← text_fallback i; size ← measure_item text; Some (text, size)
  end.

Lemma record_stored h i :
  record h i = match stored i with Some (s, size) => push_entry h s size | None => Some h end.
Proof.
  unfold record, record_body, stored. destruct (measure_item i); [done|].
  destruct (text_fallback i) as [text|] eqn:E; [|done]. simpl.
  destruct (measure_item text); [done|]. simpl. apply text_fallback_plain in E. by rewrite E.
Qed.

(** ** Limits *)

Definition of_kind (b : bool) (entries : list (ResponseItem * N)) : list (ResponseItem * N) :=
  List.filter (same_kind b) entries.

Fixpoint total_size (entries : list (ResponseItem * N)) : N :=
  match entries with [] => 0%N | (_, size) :: l => (size + total_size l)%N end.

Definition within_limits (entries : list (ResponseItem * N)) : Prop :=
  length entries <= MAX_ITEMS_PER_KIND /\ (total_size entries <= MAX_BYTES_PER_KIND)%N.

Definition transcript_ok (h : TranscriptHistory) : Prop :=
  forall b, within_limits (of_kind b (th_items h)).

Lemma total_size_app l1 l2 : total_size (l1 ++ l2) = (total_size l1 + total_size l2)%N.
Proof. induction l1 as [|[] l1 IH]; simpl; lia. Qed.

Lemma kind_usage_eq b size entries :
  kind_usage b size entries = (length (of_kind b entries), (size + total_size (of_kind b entries))%N).
Proof.
  unfold kind_usage. fold (of_kind b entries). generalize (of_kind b entries). intros l.
  assert (H : forall c n, fold_left (fun '(count, bytes) '(_, size) => (count + 1, (bytes + size)%N)) l (c, n)
            = (c + length l, (n + total_size l)%N)).
  { induction l as [|[i s] l IH]; intros c n; simpl; [f_equal; lia|]. rewrite IH. f_equal; lia. }
  apply H.
Qed.

Lemma of_kind_cons b e l :
  of_kind b (e :: l) = if same_kind b e then e :: of_kind b l else of_kind b l.
Proof. done. Qed.

Lemma same_kind_negb b e : same_kind (negb b) e = negb (same_kind b e).
Proof. unfold same_kind. by destruct (is_user_message _), b. Qed.

Lemma evict_none b count bytes l : over_limit count bytes = false -> evict b count bytes l = Some l.
Proof.
  intros Ho. induction l as [|[i s] l IH]; [done|]. simpl. rewrite Ho, andb_false_r. by rewrite IH.
Qed.

Definition over_with (size : N) (l : list (ResponseItem * N)) : bool :=
  over_limit (length l) (size + total_size l)%N.

(** Eviction drops the oldest entries of the kind, as few as needed. *)
Lemma evict_spec b size l : (size <= MAX_BYTES_PER_KIND)%N ->
  exists kept k, evict b (length (of_kind b l)) (size + total_size (of_kind b l))%N l = Some kept
    /\ of_kind b kept = drop k (of_kind b l) /\ of_kind (negb b) kept = of_kind (negb b) l
    /\ kept `sublist_of` l /\ k <= length (of_kind b l)
    /\ over_with size (drop k (of_kind b l)) = false
    /\ (k = 0 \/ over_with size (drop (k - 1) (of_kind b l)) = true).
Proof.
  intros Hsize. induction l as [|[i s] l IH].
  { exists [], 0. split_and!; try done; [|by left]. unfold over_with, over_limit. simpl.
    rewrite N.add_0_r. apply N.ltb_ge. lia. }
  rewrite !of_kind_cons, same_kind_negb. cbn [evict].
  destruct (same_kind b (i, s)) eqn:Ek; simpl.
  2:{ destruct IH as (kept & k & -> & H1 & H2 & H3 & H4 & H5 & H6). simpl.
      exists ((i, s) :: kept), k. rewrite !of_kind_cons, same_kind_negb, Ek. simpl.
      split_and!; try done; [by rewrite H2|by apply sublist_skip]. }
  destruct (over_limit _ _) eqn:Eo.
  - destruct IH as (kept & k & He & H1 & H2 & H3 & H4 & H5 & H6).
    unfold checked_sub. destruct (N.leb_spec s (size + (s + total_size (of_kind b l)))%N); [|lia]. simpl.
    replace (size + (s + total_size (of_kind b l)) - s)%N with (size + total_size (of_kind b l))%N by lia.
    exists kept, (S k). split_and!; try done; [by apply sublist_cons|simpl; lia|].
    right. rewrite Nat.sub_succ, Nat.sub_0_r. destruct H6 as [->|H6]; [done|].
    destruct k; [done|]. simpl in *. by rewrite Nat.sub_0_r in H6.
  - rewrite (evict_none b _ _ l Eo). simpl. exists ((i, s) :: l), 0.
    rewrite !of_kind_cons, same_kind_negb, Ek. simpl. split_and!; try done; [lia|by left].
Qed.

Lemma over_with_false size l :
  over_with size l = false <->
  length l < MAX_ITEMS_PER_KIND /\ (size + total_size l <= MAX_BYTES_PER_KIND)%N.
Proof. unfold over_with, over_limit. rewrite orb_false_iff, Nat.leb_gt, N.ltb_ge. done. Qed.

Lemma of_kind_app b l1 l2 : of_kind b (l1 ++ l2) = of_kind b l1 ++ of_kind b l2.
Proof. apply List.filter_app. Qed.

(** [push_entry] keeps the other kind, evicts a prefix of its own kind, as
    short as possible, and marks an eviction in the generation. *)
Lemma push_entry_spec h i size : (size <= MAX_BYTES_PER_KIND)%N ->
  let b := is_user_message i in
  exists h' k kept, push_entry h i size = Some h'
    /\ th_items h' = kept ++ [(i, size)] /\ kept `sublist_of` th_items h
    /\ of_kind b kept = drop k (of_kind b (th_items h))
    /\ of_kind (negb b) kept = of_kind (negb b) (th_items h)
    /\ over_with size (drop k (of_kind b (th_items h))) = false
    /\ (k = 0 \/ over_with size (drop (k - 1) (of_kind b (th_items h))) = true)
    /\ th_generation h' = (if k =? 0 then th_generation h else saturating_add (th_generation h) 1).
Proof.
  intros Hsize b. unfold push_entry. fold b. rewrite kind_usage_eq.
  change (over_limit _ _) with (over_with size (of_kind b (th_items h))).
  destruct (over_with size (of_kind b (th_items h))) eqn:Eo.
  - destruct (evict_spec b size (th_items h) Hsize) as (kept & k & -> & H1 & H2 & H3 & _ & H4 & H5).
    simpl. eexists _, k, kept. split_and!; try done. simpl.
    destruct k; [|done]. simpl in H4. rewrite drop_0 in H4. congruence.
  - eexists _, 0, (th_items h). split_and!; try done. by left.
Qed.

(** ** Sequences of records *)

Lemma write_chunks_bounded bytes chunks bytes' :
  (bytes <= MAX_BYTES_PER_KIND)%N -> write_chunks bytes chunks = Some bytes' ->
  (bytes' <= MAX_BYTES_PER_KIND)%N.
Proof.
  revert bytes; induction chunks as [|c l IH]; simpl; intros bytes Hb Hw; [by simplify_eq|].
  unfold bounded_write, saturating_sub in Hw.
  destruct (N.ltb_spec (MAX_BYTES_PER_KIND - bytes) c); simpl in Hw; [done|].
  eapply IH; [|done]. lia.
Qed.

Lemma to_writer_bounded bytes enc' bytes' :
  (bytes <= MAX_BYTES_PER_KIND)%N -> to_writer bytes enc' = Some bytes' ->
  (bytes' <= MAX_BYTES_PER_KIND)%N.
Proof. unfold to_writer. destruct enc'; simpl; [apply write_chunks_bounded|done]. Qed.

Lemma measure_item_bounded i size :
  (size_of_item <= MAX_BYTES_PER_KIND)%N -> measure_item i = Some size ->
  (size <= MAX_BYTES_PER_KIND)%N.
Proof.
  unfold measure_item. intros Hs. destruct (to_writer size_of_item _) as [b|] eqn:E; simpl; [|done].
  apply to_writer_bounded in E; [|done]. destruct i; try (intros; by simplify_eq).
  by apply to_writer_bounded.
Qed.

Lemma stored_bounded i s size :
  (size_of_item <= MAX_BYTES_PER_KIND)%N -> stored i = Some (s, size) ->
  (size <= MAX_BYTES_PER_KIND)%N.
Proof.
  unfold stored. intros Hs. destruct (measure_item i) eqn:E.
  - intros; simplify_eq. by eapply measure_item_bounded.
  - destruct (text_fallback i); simpl; [|done]. destruct (measure_item r) eqn:E2; simpl; [|done].
    intros; simplify_eq. by eapply measure_item_bounded.
Qed.

Lemma total_size_drop k l : (total_size (drop k l) <= total_size l)%N.
Proof. rewrite <- (take_drop k l) at 2. rewrite total_size_app. lia. Qed.

Lemma over_with_drop size j k l :
  j <= k -> over_with size (drop k l) = true -> over_with size (drop j l) = true.
Proof.
  intros Hjk. rewrite <- !not_false_iff_true, !over_with_false.
  replace k with (j + (k - j)) by lia. rewrite <- drop_drop.
  pose proof (total_size_drop (k - j) (drop j l)). rewrite !length_drop. lia.
Qed.

(** [h] holds the longest suffix within the limits of the entries of each
    kind, in their order. *)
Definition tracks (past : list (ResponseItem * N)) (h : TranscriptHistory) : Prop :=
  th_items h `sublist_of` past
  /\ forall b, within_limits (of_kind b (th_items h))
      /\ of_kind b (th_items h) `suffix_of` of_kind b past
      /\ forall l, l `suffix_of` of_kind b past -> within_limits l ->
          length l <= length (of_kind b (th_items h)).

Lemma suffix_shorter {A} (l1 l2 l : list A) :
  l1 `suffix_of` l -> l2 `suffix_of` l -> length l1 <= length l2 -> exists j, l1 = drop j l2.
Proof.
  intros [p1 H1] [p2 H2] Hlen. rewrite H1 in H2.
  assert (Hl : length p1 + length l1 = length p2 + length l2) by (by rewrite <- !length_app, H2).
  exists (length p1 - length p2). apply (f_equal (drop (length p1))) in H2.
  rewrite drop_app_length in H2. rewrite H2. apply drop_app_ge. lia.
Qed.

Lemma tracks_push past h i size :
  (size <= MAX_BYTES_PER_KIND)%N -> tracks past h ->
  exists h', push_entry h i size = Some h' /\ tracks (past ++ [(i, size)]) h'.
Proof.
  intros Hsize [Hsub Ht].
  destruct (push_entry_spec h i size Hsize) as (h' & k & kept & -> & Hi & Hks & Hk & Hn & Ho & Hmin & _).
  exists h'. split; [done|]. split; [rewrite Hi; apply sublist_app; [by etrans|done]|].
  intros b. rewrite Hi, !of_kind_app. destruct (Ht b) as (Hlim & Hsuf & Hlong).
  destruct (decide (b = is_user_message i)) as [->|Hb].
  2:{ assert (b = negb (is_user_message i)) as -> by (by destruct b, (is_user_message i)).
      assert (Hz : of_kind (negb (is_user_message i)) [(i, size)] = []).
      { unfold of_kind, same_kind. simpl. by destruct (is_user_message i). }
      rewrite Hz, !app_nil_r, Hn. done. }
  assert (Hz : of_kind (is_user_message i) [(i, size)] = [(i, size)]).
  { unfold of_kind, same_kind. simpl. by destruct (is_user_message i). }
  rewrite Hz, Hk. apply over_with_false in Ho as Ho'. split_and!.
  - unfold within_limits. rewrite length_app, total_size_app. simpl. lia.
  - destruct Hsuf as [p Hp]. exists (p ++ take k (of_kind (is_user_message i) (th_items h))).
    rewrite Hp, <- (take_drop k (of_kind _ (th_items h))) at 1. by rewrite !(assoc_L (++)).
  - intros l Hl Hlw. destruct l as [|x l0 _] using rev_ind; [simpl; lia|].
    apply suffix_snoc_inv_1 in Hl as Hx. apply suffix_snoc_inv_2 in Hl. subst x. rewrite !length_app. simpl.
    unfold within_limits in Hlw. rewrite length_app, total_size_app in Hlw. simpl in Hlw.
    assert (Hl0 : over_with size l0 = false) by (apply over_with_false; lia).
    destruct (suffix_shorter l0 _ _ Hl Hsuf) as [j ->].
    { apply Hlong; [done|]. unfold within_limits. lia. }
    destruct Hmin as [->|Hmin]; [rewrite drop_0, length_drop; lia|].
    destruct (decide (j <= k - 1)) as [Hj|Hj].
    + by rewrite (over_with_drop _ _ _ _ Hj Hmin) in Hl0.
    + rewrite !length_drop. lia.
Qed.

Lemma tracks_record_all past h items :
  (size_of_item <= MAX_BYTES_PER_KIND)%N -> tracks past h ->
  exists h', record_all h items = Some h' /\ tracks (past ++ omap stored items) h'.
Proof.
  intros Hs. revert past h; induction items as [|i items IH]; intros past h Ht; simpl.
  { exists h. by rewrite app_nil_r. }
  rewrite record_stored. destruct (stored i) as [[s size]|] eqn:E; simpl.
  - destruct (tracks_push past h s size) as (h1 & -> & H1); [by eapply stored_bounded|done|].
    simpl. destruct (IH _ _ H1) as (h2 & -> & H2). exists h2. split; [done|].
    by rewrite <- (assoc_L (++)) in H2.
  - apply IH. done.
Qed.

Lemma tracks_new g : tracks [] (transcript_new g).
Proof.
  split; [done|]. intros b. split_and!; [split; simpl; [unfold MAX_ITEMS_PER_KIND|]; lia|done|].
  intros l ->%suffix_nil_inv. done.
Qed.

Lemma sublist_same_length {A} (l1 l2 : list A) :
  l1 `sublist_of` l2 -> length l2 <= length l1 -> l1 = l2.
Proof.
  induction 1 as [|x l1 l2 _ IH|x l1 l2 Hs IH]; simpl; intros Hl; [done|by rewrite IH by lia|].
  apply sublist_length in Hs. lia.
Qed.

Lemma filter_length_split {A} (f : A -> bool) l :
  length l = length (List.filter f l) + length (List.filter (fun x => negb (f x)) l).
Proof. induction l as [|x l IH]; simpl; [done|]. destruct (f x); simpl; lia. Qed.

Lemma of_kind_length l : length l = length (of_kind true l) + length (of_kind false l).
Proof.
  rewrite (filter_length_split (same_kind true) l). unfold of_kind. f_equal. f_equal.
  apply filter_ext. intros e. by rewrite <- (same_kind_negb true).
Qed.

Lemma tracks_all_fit past h :
  tracks past h -> (forall b, within_limits (of_kind b past)) -> th_items h = past.
Proof.
  intros [Hsub Ht] Hfit.
  assert (Hk : forall b, length (of_kind b past) <= length (of_kind b (th_items h))).
  { intros b. destruct (Ht b) as (_ & _ & Hl). by apply Hl. }
  pose proof (Hk true). pose proof (Hk false).
  apply (sublist_same_length _ _ Hsub). rewrite (of_kind_length past), (of_kind_length (th_items h)). lia.
Qed.

(** After recording any items the review history holds, for user messages
    and for other items separately, the longest run of the most recent entries
    that fits in 128 entries and 4 MiB; so one kind never evicts the other and
    nothing is lost while everything fits.  The entries are in chronological
    order.  Recording never underflows a counter. *)
Theorem transcript_keeps_most_recent g items :
  (size_of_item <= MAX_BYTES_PER_KIND)%N ->
  exists h, record_all (transcript_new g) items = Some h
  /\ th_items h `sublist_of` omap stored items
  /\ forall b, within_limits (of_kind b (th_items h))
      /\ of_kind b (th_items h) `suffix_of` of_kind b (omap stored items)
      /\ forall l, l `suffix_of` of_kind b (omap stored items) -> within_limits l ->
          length l <= length (of_kind b (th_items h)).
Proof.
  intros Hs. destruct (tracks_record_all [] _ items Hs (tracks_new g)) as (h & Hr & Ht & Hk).
  by exists h.
Qed.

End history.

(** Concrete instances for the witnesses: an item is encoded in one piece. *)
Definition sample_encoding : @ReviewEncoding sample_json := {|
  size_of_item := 352;
  encode_item := fun i => match i with
                          | Message _ role content _ _ => Some [len role; N.of_nat (length content)]
                          | _ => Some [64%N]
                          end;
  encode_reasoning := fun _ => Some [16%N];
  encode_header := fun _ role _ _ => Some [len role];
  encode_content := fun _ => Some [32%N];
|}.

Lemma transcript_keeps_most_recent_witness :
  exists h, record_all (enc := sample_encoding) (transcript_new 7)
              (repeat (sample_message (lit "user") (lit "go")) 3
               ++ [sample_message (lit "assistant") (lit "done")]) = Some h
  /\ length (of_kind true (th_items h)) <= 128.
Proof.
  destruct (transcript_keeps_most_recent (enc := sample_encoding) 7
              (repeat (sample_message (lit "user") (lit "go")) 3
               ++ [sample_message (lit "assistant") (lit "done")])) as (h & Hr & _ & Hk).
  { vm_compute. discriminate. }
  exists h. split; [exact Hr|]. exact (proj1 (proj1 (Hk true))).
Defined.
