(* ===== verification/GuardianTranscript.v ===== *)
(** * guardian-context: the review transcript

    [truncation.rs] (both ends of a text within a token budget), [entry.rs] and
    [transcript.rs] (one bounded entry per item of a history), with the tool
    name test of [protocol/src/mcp.rs].  The JSON text of a shell or web search
    action is the class [ActionEncoding]. *)

From S2P Require Import Prelude RustStr Truncate OutputTruncation ResponseItem ContextFragments.

(** ** truncation.rs *)

Definition is_char_boundary (s : str) (n : N) : bool :=
  match slice_to n s with Some _ => true | None => false end.

(** The two loops; a character has at most four bytes, so four steps are
    enough. *)
Fixpoint floor_boundary (fuel : nat) (s : str) (n : N) : option N :=
  if is_char_boundary s n then Some n
  else match fuel with
       | 0 => None
       | S fuel' => if (n =? 0)%N then None else floor_boundary fuel' s (n - 1)%N
       end.

Fixpoint ceil_boundary (fuel : nat) (s : str) (n : N) : option N :=
  if is_char_boundary s n then Some n
  else match fuel with 0 => None | S fuel' => ceil_boundary fuel' s (n + 1)%N end.

Definition omission_marker (omitted_tokens : N) : str :=
  lit "<truncated omitted_approx_tokens=" ++ [ch_dquote] ++ fmt_N omitted_tokens ++ [ch_dquote]
    ++ lit " />".

(** The end of the function: both ends of the text around the marker. *)
Definition keep_ends (text marker : str) (available_bytes : N) : option str :=
  let prefix_bytes := (available_bytes / 2)%N in
  let suffix_bytes := (available_bytes - prefix_bytes)%N in
  prefix_end ← floor_boundary 4 text prefix_bytes;
  suffix_start ← ceil_boundary 4 text (len text - suffix_bytes)%N;
  prefix ← slice_to prefix_end text;
  suffix ← slice_from suffix_start text;
  Some (prefix ++ marker ++ suffix).

Definition guardian_truncate_text (text : str) (max_tokens : N) : option str :=
  let max_bytes := byte_budget (Tokens max_tokens) in
  if (len text <=? max_bytes)%N then Some text
  else
    let omitted_tokens := token_budget (Bytes (saturating_sub (len text) max_bytes)) in
    let marker := omission_marker omitted_tokens in
    if (max_bytes <=? len marker)%N then Some marker
    else
      keep_ends text marker (max_bytes - len marker)%N.

(** ** entry.rs *)

Inductive ConversationTranscriptEntryKind :=
| User
| Developer
| Assistant
| ProtectedAssistant
| ToolCall (role : str)
| ToolOutput (role : str)
| NodeReplToolOutput (role : str)
| ReasoningEntry.

Definition entry_role (k : ConversationTranscriptEntryKind) : str :=
  match k with
  | User => lit "user"
  | Developer => lit "developer"
  | Assistant | ProtectedAssistant => lit "assistant"
  | ToolCall role | ToolOutput role | NodeReplToolOutput role => role
  | ReasoningEntry => lit "reasoning"
  end.

Record ConversationTranscriptEntry := mkEntry {
  entry_kind : ConversationTranscriptEntryKind;
  entry_text : str;
  entry_original_bytes : N;
}.

(** ** transcript.rs *)

Record ConversationTranscriptOptions := mkTranscriptOptions {
  include_tool_calls : bool;
  include_tool_outputs : bool;
  include_reasoning : bool;
}.

Record TranscriptEntryLimits := mkLimits {
  message_tokens : N;
  tool_tokens : N;
  node_repl_output_tokens : N;
}.

Record ConversationTranscriptConfig := mkTranscriptConfig {
  tc_options : ConversationTranscriptOptions;
  entry_limits : TranscriptEntryLimits;
}.

Definition MANUAL_APPROVAL_DEVELOPER_PREFIX : str :=
  lit "The user has manually approved a specific action that was previously `Rejected`.".

Definition is_node_repl_backed_server (server : str) : bool :=
  str_eqb server (lit "node_repl") || str_eqb server (lit "cua_repl").

Definition strip_prefix_or (p s : str) : str := default s (strip_prefix p s).

Definition is_node_repl_backed_tool (name : str) (namespace : option str) : bool :=
  match namespace with
  | Some namespace =>
      let namespace := strip_prefix_or (lit "mcp__") namespace in
      is_node_repl_backed_server (default namespace (strip_suffix (lit "__") namespace))
  | None =>
      is_some_and (fun '(server, _) => is_node_repl_backed_server server)
        (split_once_str (lit "__") (strip_prefix_or (lit "mcp__") name))
  end.

Class ActionEncoding := {
  encode_shell_action : LocalShellAction -> option str;
  encode_web_search_action : WebSearchAction -> option str;
}.

Section transcript.
Context {json : SerdeJson} {parsers : FragmentParsers} {actions : ActionEncoding}.

Definition message_text (content : list ContentItem) : str :=
  join [ch_lf]
    (omap (fun c => match c with
                    | Content.InputText text | Content.OutputText text =>
                        if bool_decide (text = []) then None else Some text
                    | _ => None
                    end) content).

Definition message_kind (role : str) (content : list ContentItem) (phase : option MessagePhase)
    (text : str) : option ConversationTranscriptEntryKind :=
  if str_eqb role (lit "user") then Some User
  else if str_eqb role (lit "developer") && starts_with MANUAL_APPROVAL_DEVELOPER_PREFIX text
  then Some Developer
  else if str_eqb role (lit "assistant")
          && match phase with None | Some FinalAnswer => true | Some Commentary => false end
          && negb (is_inter_agent_instruction_content content)
  then Some ProtectedAssistant
  else if str_eqb role (lit "assistant") then Some Assistant
  else None.

Definition reasoning_text (summary : list ReasoningItemReasoningSummary)
    (content : option (list ReasoningItemContent)) : str :=
  join [ch_lf]
    (List.filter (fun text => negb (bool_decide (trim text = [])))
       (map (fun '(SummaryText text) => text) summary
          ++ map (fun c => match c with ReasoningText text | ReasoningPlainText text => text end)
               (default [] content))).

Notation tool_names := (gmap str (str * option str)).

Definition output_kind (names : tool_names) (call_id : str) : ConversationTranscriptEntryKind :=
  match names !! call_id with
  | Some (name, namespace) =>
      let role := lit "tool " ++ name ++ lit " result" in
      if is_node_repl_backed_tool name namespace then NodeReplToolOutput role else ToolOutput role
  | None => ToolOutput (lit "tool result")
  end.

(** The names after an item. *)
Definition record_name (names : tool_names) (i : ResponseItem) : tool_names :=
  match i with
  | FunctionCall _ name namespace _ _ call_id _ | CustomToolCall _ _ call_id name namespace _ _ =>
      <[call_id := (name, namespace)]> names
  | _ => names
  end.

(** The [match] of the loop: the kind and text of an item, [None] for
    [continue]. *)
Definition item_entry (options : ConversationTranscriptOptions) (names : tool_names)
    (i : ResponseItem) : option (ConversationTranscriptEntryKind * str) :=
  match i with
  | Message _ role content phase _ =>
      let text := message_text content in
      kind ← message_kind role content phase text;
      Some (kind, text)
  | AgentMessage _ author _ content _ =>
      text ← plaintext_agent_message_content content;
      Some (Assistant, lit "Agent message from " ++ author ++ lit ":" ++ [ch_lf] ++ text)
  | FunctionCall _ name _ arguments _ _ _ | CustomToolCall _ _ _ name _ arguments _ =>
      if include_tool_calls options
      then Some (ToolCall (lit "tool " ++ name ++ lit " call"), arguments) else None
  | FunctionCallOutput _ (Some call_id) _ _ output _ | CustomToolCallOutput _ call_id _ output _ =>
      if include_tool_outputs options then
        text ← to_text (body output);
        Some (output_kind names call_id, text)
      else None
  | FunctionCallOutput _ None (Some name) namespace output _ =>
      if include_tool_outputs options then
        let role := match namespace with
                    | Some namespace =>
                        lit "tool " ++ namespace ++ lit "." ++ name ++ lit " result"
                    | None => lit "tool " ++ name ++ lit " result"
                    end in
        Some (ToolOutput role, default (lit "[non-text output]") (to_text (body output)))
      else None
  | Reasoning _ summary content _ _ =>
      if include_reasoning options then Some (ReasoningEntry, reasoning_text summary content) else None
  | LocalShellCall _ _ _ action _ =>
      if include_tool_calls options then
        text ← encode_shell_action action;
        Some (ToolCall (lit "tool shell call"), text)
      else None
  | WebSearchCall _ _ action _ =>
      if include_tool_calls options then
        action ← action;
        text ← encode_web_search_action action;
        Some (ToolCall (lit "tool web_search call"), text)
      else None
  | FunctionCallOutput _ None None _ _ _ | AdditionalTools _ _ _ | ImageGenerationCall _ _ _ _ _
  | ToolSearchCall _ _ _ _ _ _ | ToolSearchOutput _ _ _ _ _ _ | Compaction _ _ _
  | CompactionTrigger | ContextCompaction _ _ _ | Other => None
  end.

Definition token_cap (limits : TranscriptEntryLimits) (k : ConversationTranscriptEntryKind) : N :=
  match k with
  | User | Developer | Assistant | ProtectedAssistant | ReasoningEntry => message_tokens limits
  | ToolCall _ | ToolOutput _ => tool_tokens limits
  | NodeReplToolOutput _ => node_repl_output_tokens limits
  end.

Fixpoint collect_loop (config : ConversationTranscriptConfig) (names : tool_names)
    (items : list ResponseItem) : option (list ConversationTranscriptEntry) :=
  match items with
  | [] => Some []
  | i :: items' =>
      let rest := collect_loop config (record_name names i) items' in
      match item_entry (tc_options config) names i with
      | None => rest
      | Some (kind, text) =>
          if bool_decide (trim text = []) then rest
          else
            bounded ← guardian_truncate_text text (token_cap (entry_limits config) kind);
            entries ← rest;
            Some (mkEntry kind bounded (len text) :: entries)
      end
  end.

Definition collect_transcript (items : list ResponseItem) (config : ConversationTranscriptConfig)
    : option (list ConversationTranscriptEntry) :=
  collect_loop config ∅ items.

End transcript.

(** ** Character boundaries *)

Lemma is_char_boundary_len p r : is_char_boundary (p ++ r) (len p) = true.
Proof. unfold is_char_boundary. by rewrite slice_to_app. Qed.

Lemma slice_to_inside p c r n :
  (len p < n < len p + len_utf8 c)%N -> slice_to n (p ++ c :: r) = None.
Proof.
  revert n; induction p as [|d p IH]; intros n; cbn [len app slice_to]; intros Hn.
  - destruct (N.eqb_spec n 0); [lia|]. destruct (N.ltb_spec n (len_utf8 c)); [done|lia].
  - pose proof (len_utf8_bounds d). destruct (N.eqb_spec n 0); [lia|].
    destruct (N.ltb_spec n (len_utf8 d)); [lia|]. rewrite IH; [done|]. lia.
Qed.

Lemma is_char_boundary_inside p c r n :
  (len p < n < len p + len_utf8 c)%N -> is_char_boundary (p ++ c :: r) n = false.
Proof. intros Hn. unfold is_char_boundary. by rewrite slice_to_inside. Qed.

Lemma floor_boundary_inside fuel p c r n :
  (len p <= n < len p + len_utf8 c)%N -> (n - len p <= N.of_nat fuel)%N ->
  floor_boundary fuel (p ++ c :: r) n = Some (len p).
Proof.
  revert n; induction fuel as [|fuel IH]; intros n Hn Hf; cbn [floor_boundary];
    (destruct (N.eq_dec n (len p)) as [->|Hne]; [by rewrite is_char_boundary_len|]); [lia|].
  rewrite is_char_boundary_inside by lia. destruct (N.eqb_spec n 0); [lia|]. apply IH; lia.
Qed.

Lemma ceil_boundary_inside fuel p c r n :
  (len p < n <= len p + len_utf8 c)%N -> (len p + len_utf8 c - n <= N.of_nat fuel)%N ->
  ceil_boundary fuel (p ++ c :: r) n = Some (len (p ++ [c])).
Proof.
  assert (Hl : len (p ++ [c]) = (len p + len_utf8 c)%N) by (rewrite len_app; simpl; lia).
  revert n; induction fuel as [|fuel IH]; intros n Hn Hf; cbn [ceil_boundary];
    (destruct (N.eq_dec n (len p + len_utf8 c)) as [->|Hne];
     [rewrite <- Hl; replace (p ++ c :: r) with ((p ++ [c]) ++ r) by (by rewrite <- (assoc_L (++)));
      by rewrite is_char_boundary_len|]); [lia|].
  rewrite is_char_boundary_inside by lia. apply IH; lia.
Qed.

(** Every offset is in a character or on the boundary at its end. *)
Lemma split_at_offset s n : (n <= len s)%N ->
  (exists p r, s = p ++ r /\ n = len p)
  \/ exists p c r, s = p ++ c :: r /\ (len p < n < len p + len_utf8 c)%N.
Proof.
  revert n; induction s as [|c s IH]; intros n Hn; simpl in Hn.
  - left. exists [], []. simpl. split; [done|lia].
  - destruct (N.ltb_spec n (len_utf8 c)) as [Hlt|Hge].
    + destruct (N.eq_dec n 0) as [->|]; [left; by exists [], (c :: s)|].
      right. exists [], c, s. simpl. split; [done|lia].
    + destruct (IH (n - len_utf8 c)%N) as [(p & r & -> & Hp)|(p & d & r & -> & Hp)]; [lia|..].
      * left. exists (c :: p), r. simpl. split; [done|lia].
      * right. exists (c :: p), d, r. simpl. split; [done|lia].
Qed.

Lemma floor_boundary_spec s n : (n <= len s)%N ->
  exists p r, s = p ++ r /\ floor_boundary 4 s n = Some (len p) /\ (len p <= n)%N
    /\ (forall c r', r = c :: r' -> (n < len p + len_utf8 c)%N).
Proof.
  intros Hn. destruct (split_at_offset s n Hn) as [(p & r & -> & ->)|(p & c & r & -> & Hp)].
  - exists p, r. simpl. rewrite is_char_boundary_len. split_and!; try done.
    intros c r' _. pose proof (len_utf8_bounds c). lia.
  - exists p, (c :: r). pose proof (len_utf8_bounds c).
    rewrite floor_boundary_inside by lia. split_and!; try done; [lia|]. intros; simplify_eq. lia.
Qed.

Lemma ceil_boundary_spec s n : (n <= len s)%N ->
  exists p r, s = p ++ r /\ ceil_boundary 4 s n = Some (len p) /\ (n <= len p)%N
    /\ (forall c p', p = p' ++ [c] -> (len p' < n)%N).
Proof.
  intros Hn. destruct (split_at_offset s n Hn) as [(p & r & -> & ->)|(p & c & r & -> & Hp)].
  - exists p, r. simpl. rewrite is_char_boundary_len. split_and!; try done.
    intros c p' ->. rewrite len_app. simpl. pose proof (len_utf8_bounds c). lia.
  - exists (p ++ [c]), r. pose proof (len_utf8_bounds c). rewrite ceil_boundary_inside by lia.
    rewrite <- (assoc_L (++)). split_and!; try done; [rewrite len_app; simpl; lia|].
    intros d p' [-> ->]%app_inj_tail. lia.
Qed.

Lemma keep_ends_spec text marker avail : (avail < len text)%N ->
  exists pre mid suf, text = pre ++ mid ++ suf /\ mid <> []
    /\ keep_ends text marker avail = Some (pre ++ marker ++ suf)
    /\ (len pre + len suf <= avail)%N
    /\ (forall c m, mid = c :: m -> (avail / 2 < len pre + len_utf8 c)%N)
    /\ (forall c m, mid = m ++ [c] -> (avail - avail / 2 < len suf + len_utf8 c)%N).
Proof.
  intros Hav. unfold keep_ends. set (half := (avail / 2)%N).
  assert (Hh : (half <= avail)%N) by (apply N.Div0.div_le_upper_bound; lia).
  destruct (floor_boundary_spec text half) as (pre & r1 & Hpre & Hfl & Hple & Hpmax); [lia|].
  destruct (ceil_boundary_spec text (len text - (avail - half))%N)
    as (p2 & suf & Hsuf & Hce & Hsle & Hsmax); [lia|].
  rewrite Hfl. cbn [mbind option_bind]. rewrite Hce. cbn [mbind option_bind].
  assert (slice_to (len pre) text = Some pre) as -> by (rewrite Hpre; apply slice_to_app).
  assert (slice_from (len p2) text = Some suf) as -> by (rewrite Hsuf; apply slice_from_app).
  cbn [mbind option_bind].
  assert (Hl1 : len text = (len pre + len r1)%N) by (by rewrite Hpre, len_app).
  assert (Hl2 : len text = (len p2 + len suf)%N) by (by rewrite Hsuf, len_app).
  assert (Hmid : exists mid, p2 = pre ++ mid /\ mid <> []).
  { rewrite Hpre in Hsuf. apply app_eq_app in Hsuf as [l [[Hp Hr]|[Hp Hr]]].
    - exfalso. rewrite Hp, len_app in *. lia.
    - exists l. split; [done|]. intros ->. rewrite app_nil_r in Hp. subst p2. lia. }
  destruct Hmid as (mid & -> & Hne). exists pre, mid, suf.
  rewrite <- (assoc_L (++)) in Hsuf. rewrite len_app in *. split_and!; try done.
  - lia.
  - intros c m ->. apply (Hpmax c (m ++ suf)).
    rewrite Hpre in Hsuf. by apply app_inv_head in Hsuf.
  - intros c m ->. specialize (Hsmax c (pre ++ m)). rewrite (assoc_L (++)) in Hsmax.
    specialize (Hsmax eq_refl). rewrite !len_app in *. simpl in *. lia.
Qed.

Lemma guardian_truncate_total text max_tokens :
  exists out, guardian_truncate_text text max_tokens = Some out.
Proof.
  unfold guardian_truncate_text. cbv zeta. destruct (N.leb_spec (len text) (byte_budget (Tokens max_tokens))); [eauto|].
  case_match; [eauto|]. edestruct keep_ends_spec as (? & ? & ? & _ & _ & -> & _); [|eauto]. lia.
Qed.

(** C26: guardian's truncation never slices inside a character and terminates.
    A text within the budget is returned as it is; otherwise the marker alone
    when it does not fit, else the marker between the longest prefix and
    suffix that fit in half of the rest each, the whole within the budget. *)
Theorem guardian_truncate_correct text max_tokens :
  let max_bytes := byte_budget (Tokens max_tokens) in
  let marker := omission_marker (approx_tokens_from_byte_count (len text - max_bytes)) in
  let half := ((max_bytes - len marker) / 2)%N in
  exists out, guardian_truncate_text text max_tokens = Some out
  /\ ((len text <= max_bytes)%N -> out = text)
  /\ ((max_bytes < len text)%N -> (max_bytes <= len marker)%N -> out = marker)
  /\ ((len marker < max_bytes < len text)%N ->
      exists pre mid suf, text = pre ++ mid ++ suf /\ mid <> [] /\ out = pre ++ marker ++ suf
        /\ (len out <= max_bytes)%N
        /\ (forall c m, mid = c :: m -> (half < len pre + len_utf8 c)%N)
        /\ (forall c m, mid = m ++ [c] ->
              (max_bytes - len marker - half < len suf + len_utf8 c)%N)).
Proof.
  cbv zeta. unfold guardian_truncate_text. set (mb := byte_budget (Tokens max_tokens)).
  unfold token_budget, saturating_sub.
  set (marker := omission_marker (approx_tokens_from_byte_count (len text - mb))).
  destruct (N.leb_spec (len text) mb); [eexists; split_and!; [done|done|lia|lia]|].
  destruct (N.leb_spec mb (len marker)); [eexists; split_and!; [done|lia|done|lia]|].
  destruct (keep_ends_spec text marker (mb - len marker)%N)
    as (pre & mid & suf & Ht & Hne & -> & Hlen & H1 & H2); [lia|].
  eexists; split_and!; [done|lia|lia|]. intros _. exists pre, mid, suf.
  split_and!; try done. rewrite !len_app. lia.
Qed.

(** ** Collection *)

Section collection.
Context {json : SerdeJson} {parsers : FragmentParsers} {actions : ActionEncoding}.
Variable config : ConversationTranscriptConfig.

(** The kind and text of the [n]-th item, attributed by the calls before it. *)
Definition evidence_at (items : list ResponseItem) (n : nat)
    : option (ConversationTranscriptEntryKind * str) :=
  i ← items !! n;
  '(kind, text) ← item_entry (tc_options config) (fold_left record_name (take n items) ∅) i;
  if bool_decide (trim text = []) then None else Some (kind, text).

Definition renders (source : ConversationTranscriptEntryKind * str)
    (e : ConversationTranscriptEntry) : Prop :=
  let '(kind, text) := source in
  entry_kind e = kind /\ entry_original_bytes e = len text
  /\ guardian_truncate_text text (token_cap (entry_limits config) kind) = Some (entry_text e).

Lemma collect_loop_spec pre items :
  exists entries, collect_loop config (fold_left record_name pre ∅) items = Some entries
  /\ Forall2 renders (omap (evidence_at (pre ++ items)) (seq (length pre) (length items))) entries.
Proof.
  revert pre; induction items as [|i items IH]; intros pre; [by eexists|].
  destruct (IH (pre ++ [i])) as (entries & Hc & Hf).
  rewrite fold_left_app, length_app, Nat.add_1_r in *. rewrite <- (assoc_L (++)) in Hf. simpl in *.
  assert (He : evidence_at (pre ++ i :: items) (length pre)
    = '(kind, text) ← item_entry (tc_options config) (fold_left record_name pre ∅) i;
      if bool_decide (trim text = []) then None else Some (kind, text)).
  { unfold evidence_at. rewrite list_lookup_middle by done. simpl. by rewrite take_app_length. }
  rewrite He. destruct (item_entry _ _ i) as [[kind text]|]; simpl; [|eauto].
  case_bool_decide; simpl; [eauto|].
  destruct (guardian_truncate_total text (token_cap (entry_limits config) kind)) as (out & Ht).
  rewrite Ht. simpl. rewrite Hc. simpl. eexists; split; [done|]. constructor; [|done]. done.
Qed.

(** The transcript has one entry per item that carries non-blank evidence
    the options include, in order, with the item's full size recorded and its
    text truncated to the cap of its kind; a tool output is attributed to the
    latest earlier call with its id. *)
Theorem collect_transcript_correct items :
  exists entries, collect_transcript items config = Some entries
  /\ Forall2 renders (omap (evidence_at items) (seq 0 (length items))) entries.
Proof. apply (collect_loop_spec [] items). Qed.

End collection.
