(* ===== verification/TokenUsage.v ===== *)
(** * Token accounting

    The usage counters of [protocol/src/protocol.rs] and the token estimates of
    core/src/context_manager/history.rs.  An [i64] is a [Z] in range;
    [i64_arith] is the arithmetic of the plain operators, which panics on
    overflow in a debug build and wraps around otherwise.  Encoding an item to
    JSON, decoding an image and the length of an audio clip are the class
    [ItemMeasures]; the cache of image estimates is transparent. *)

From S2P Require Import Prelude RustStr Truncate OutputTruncation ResponseItem ContextFragments.
Local Open Scope Z_scope.

Definition i64_max : Z := 9223372036854775807.
Definition i64_min : Z := -9223372036854775808.
Definition i64_sat (z : Z) : Z := Z.max i64_min (Z.min z i64_max).
Definition i64_add (a b : Z) : Z := i64_sat (a + b).
Definition i64_sub (a b : Z) : Z := i64_sat (a - b).
Definition in_i64 (z : Z) : Prop := i64_min <= z <= i64_max.

Definition i64_wrap (z : Z) : Z := (z - i64_min) mod (i64_max - i64_min + 1) + i64_min.

Definition i64_arith (debug : bool) (z : Z) : option Z :=
  if (i64_min <=? z) && (z <=? i64_max) then Some z
  else if debug then None else Some (i64_wrap z).

(** [i64::try_from(n).unwrap_or(i64::MAX)] for a [usize]. *)
Definition i64_of_usize (n : N) : Z := Z.min (Z.of_N n) i64_max.

(** [approx_tokens_from_byte_count_i64] *)
Definition approx_tokens_from_byte_count_i64 (bytes : Z) : Z :=
  if bytes <=? 0 then 0 else i64_of_usize (approx_tokens_from_byte_count (Z.to_N bytes)).

(** ** Usage counters *)

Section usage.
Context {json : SerdeJson} (debug : bool).

Record TokenUsage := mkUsage {
  input_tokens : Z;
  cached_input_tokens : Z;
  cache_write_input_tokens : Z;
  output_tokens : Z;
  reasoning_output_tokens : Z;
  total_tokens : Z;
  codex_rollout_budget_units : option Number;
}.

Definition default_usage : TokenUsage := mkUsage 0 0 0 0 0 0 None.

Definition usage_add_assign (a b : TokenUsage) : option TokenUsage :=
  i ← i64_arith debug (input_tokens a + input_tokens b);
  c ← i64_arith debug (cached_input_tokens a + cached_input_tokens b);
  w ← i64_arith debug (cache_write_input_tokens a + cache_write_input_tokens b);
  o ← i64_arith debug (output_tokens a + output_tokens b);
  r ← i64_arith debug (reasoning_output_tokens a + reasoning_output_tokens b);
  t ← i64_arith debug (total_tokens a + total_tokens b);
  Some (mkUsage i c w o r t (codex_rollout_budget_units a)).

Record TokenUsageInfo := mkUsageInfo {
  total_token_usage : TokenUsage;
  last_token_usage : TokenUsage;
  model_context_window : option Z;
}.

Definition append_last_usage (info : TokenUsageInfo) (last : TokenUsage) : option TokenUsageInfo :=
  total ← usage_add_assign (total_token_usage info) last;
  Some (mkUsageInfo total last (model_context_window info)).

Definition new_or_append (info : option TokenUsageInfo) (last : option TokenUsage)
    (window : option Z) : option (option TokenUsageInfo) :=
  match info, last with
  | None, None => Some None
  | _, _ =>
      let info := default (mkUsageInfo default_usage default_usage window) info in
      info ← (match last with Some last => append_last_usage info last | None => Some info end);
      Some (Some (match window with
                  | Some w => mkUsageInfo (total_token_usage info) (last_token_usage info) (Some w)
                  | None => info
                  end))
  end.

Definition only_total (t : Z) : TokenUsage := mkUsage 0 0 0 0 0 t None.

Definition fill_to_context_window (info : TokenUsageInfo) (context_window : Z)
    : option TokenUsageInfo :=
  delta ← i64_arith debug (context_window - total_tokens (total_token_usage info));
  Some (mkUsageInfo (only_total context_window) (only_total (Z.max delta 0)) (Some context_window)).

Definition full_context_window (context_window : Z) : option TokenUsageInfo :=
  fill_to_context_window (mkUsageInfo default_usage default_usage (Some context_window))
    context_window.

End usage.

(** ** Estimates *)

Definition RESIZED_IMAGE_BYTES_ESTIMATE : Z := 7373.
Definition ORIGINAL_IMAGE_PATCH_SIZE : Z := 32.
Definition ORIGINAL_IMAGE_MAX_PATCHES : N := 10000%N.

(** The length of the JSON of an item; the decoded width and height of a
    base64 image; the tokens of an audio clip. *)
Class ItemMeasures {json : SerdeJson} := {
  serialized_json_bytes : ResponseItem -> option N;
  image_dimensions : str -> option (N * N);
  estimate_audio_token_count : str -> N;
}.

Definition estimate_reasoning_length (encoded_len : N) : N :=
  saturating_sub (saturating_mul encoded_len 3 / 4) 650.

Definition div_ceil (a b : N) : N := ((a + b - 1) / b)%N.

Definition estimate_encrypted_function_output_length (encoded_len : N) : N :=
  div_ceil (saturating_mul encoded_len 9) 16.

Definition ch_comma : char := 44%N.
Definition ch_semicolon : char := 59%N.

Definition parse_base64_data_url (url media_type_prefix : str) : option str :=
  if has_prefix_ignore_case (lit "data:") url then
    match split_once ch_comma url with
    | None => None
    | Some (metadata, payload) =>
        let metadata_without_scheme := drop (length (lit "data:")) metadata in
        let parts := split_on ch_semicolon metadata_without_scheme in
        let mime_type := default [] (head parts) in
        let has_base64_marker :=
          existsb (fun part => eq_ignore_ascii_case part (lit "base64")) (tail parts) in
        if has_prefix_ignore_case media_type_prefix mime_type && has_base64_marker
        then Some payload else None
    end
  else None.

Section estimates.
Context {json : SerdeJson} {measures : ItemMeasures}.

Definition patches (extent : N) : Z :=
  i64_add (Z.of_N extent) (i64_sub ORIGINAL_IMAGE_PATCH_SIZE 1) / ORIGINAL_IMAGE_PATCH_SIZE.

(** [usize::try_from(z).unwrap_or(usize::MAX)] *)
Definition usize_of_i64 (z : Z) : N := if z <? 0 then usize_max else Z.to_N z.

Definition estimate_original_image_bytes (image_url : str) : option Z :=
  payload ← parse_base64_data_url image_url (lit "image/");
  '(width, height) ← image_dimensions payload;
  let patch_count := i64_sat (patches width * patches height) in
  let patch_count := N.min (usize_of_i64 patch_count) ORIGINAL_IMAGE_MAX_PATCHES in
  Some (i64_of_usize (approx_bytes_for_tokens patch_count)).

Definition estimate_image_bytes (image_url : str) (detail : option ImageDetail) : Z :=
  match detail with
  | Some Original => default RESIZED_IMAGE_BYTES_ESTIMATE (estimate_original_image_bytes image_url)
  | _ => RESIZED_IMAGE_BYTES_ESTIMATE
  end.

(** The accumulators: payload bytes and replacement bytes. *)
Definition accumulate_image (acc : Z * Z) (image : str * option ImageDetail) : Z * Z :=
  let '(payload_bytes, replacement_bytes) := acc in
  let '(image_url, detail) := image in
  match parse_base64_data_url image_url (lit "image/") with
  | Some payload =>
      (i64_add payload_bytes (i64_of_usize (len payload)),
       i64_add replacement_bytes (estimate_image_bytes image_url detail))
  | None => acc
  end.

Definition accumulate_audio (acc : Z * Z) (audio_url : str) : Z * Z :=
  let '(payload_bytes, replacement_bytes) := acc in
  match parse_base64_data_url audio_url (lit "audio/") with
  | Some payload =>
      (i64_add payload_bytes (i64_of_usize (len payload)),
       i64_add replacement_bytes
         (i64_of_usize (approx_bytes_for_tokens (estimate_audio_token_count audio_url))))
  | None => acc
  end.

Definition accumulate_encrypted (acc : Z * Z) (encrypted_content : str) : Z * Z :=
  let '(payload_bytes, replacement_bytes) := acc in
  (i64_add payload_bytes (i64_of_usize (len encrypted_content)),
   i64_add replacement_bytes
     (i64_of_usize (estimate_encrypted_function_output_length (len encrypted_content)))).

Definition output_contents (output : FunctionCallOutputPayload) : list FunctionCallOutputContentItem :=
  match body output with ContentItems items => items | BodyText _ => [] end.

Definition image_data_url_estimate_adjustment (i : ResponseItem) : Z * Z :=
  fold_left accumulate_image
    (match i with
     | Message _ _ content _ _ =>
         omap (fun c => match c with Content.InputImage u d => Some (u, d) | _ => None end) content
     | FunctionCallOutput _ _ _ _ output _ | CustomToolCallOutput _ _ _ output _ =>
         omap (fun c => match c with InputImage u d => Some (u, d) | _ => None end)
           (output_contents output)
     | _ => []
     end) (0, 0).

Definition audio_data_url_estimate_adjustment (i : ResponseItem) : Z * Z :=
  fold_left accumulate_audio
    (match i with
     | Message _ _ content _ _ =>
         omap (fun c => match c with Content.InputAudio u => Some u | _ => None end) content
     | FunctionCallOutput _ _ _ _ output _ | CustomToolCallOutput _ _ _ output _ =>
         omap (fun c => match c with InputAudio u => Some u | _ => None end) (output_contents output)
     | _ => []
     end) (0, 0).

Definition encrypted_function_output_estimate_adjustment (i : ResponseItem) : Z * Z :=
  fold_left accumulate_encrypted
    (match i with
     | FunctionCallOutput _ _ _ _ output _ =>
         omap (fun c => match c with EncryptedContent e => Some e | _ => None end)
           (output_contents output)
     | AgentMessage _ _ _ content _ =>
         omap (fun c => match c with AgentEncryptedContent e => Some e | _ => None end) content
     | _ => []
     end) (0, 0).

Definition estimate_response_item_model_visible_bytes (i : ResponseItem) : Z :=
  match i with
  | Reasoning _ _ _ (Some content) _ | Compaction _ content _ | ContextCompaction _ (Some content) _ =>
      i64_of_usize (estimate_reasoning_length (len content))
  | _ =>
      let raw := match serialized_json_bytes i with Some n => i64_of_usize n | None => 0 end in
      let '(image_payload_bytes, image_replacement_bytes) := image_data_url_estimate_adjustment i in
      let '(audio_payload_bytes, audio_replacement_bytes) := audio_data_url_estimate_adjustment i in
      let '(encrypted_payload_bytes, encrypted_replacement_bytes) :=
        encrypted_function_output_estimate_adjustment i in
      let raw := i64_add (i64_sub (i64_add (i64_sub raw image_payload_bytes) image_replacement_bytes)
                            audio_payload_bytes) audio_replacement_bytes in
      i64_add (i64_sub raw encrypted_payload_bytes) encrypted_replacement_bytes
  end.

Definition estimate_item_token_count (i : ResponseItem) : Z :=
  approx_tokens_from_byte_count_i64 (estimate_response_item_model_visible_bytes i).

(** [.map(estimate_item_token_count).fold(0i64, i64::saturating_add)] *)
Definition estimate_items (items : list ResponseItem) : Z :=
  fold_left (fun acc i => i64_add acc (estimate_item_token_count i)) items 0.

End estimates.

(** ** Bounds *)

Lemma i64_of_usize_bounds n : 0 <= i64_of_usize n <= i64_max.
Proof. unfold i64_of_usize, i64_max. lia. Qed.

Lemma approx_tokens_i64_bounds z : 0 <= approx_tokens_from_byte_count_i64 z <= i64_max.
Proof.
  unfold approx_tokens_from_byte_count_i64. case_match; [unfold i64_max; lia|].
  apply i64_of_usize_bounds.
Qed.

(** The exact sum of non-negative terms, saturated once. *)
Lemma fold_i64_add {A} (f : A -> Z) l acc :
  (forall x, 0 <= f x) -> 0 <= acc <= i64_max ->
  fold_left (fun acc x => i64_add acc (f x)) l acc
  = Z.min i64_max (acc + foldr (fun x s => f x + s) 0 l).
Proof.
  intros Hf. revert acc; induction l as [|x l IH]; intros acc Ha; simpl; [lia|].
  assert (Hs : 0 <= foldr (fun x s => f x + s) 0 l).
  { clear - Hf. induction l; simpl; [lia|]. specialize (Hf a). lia. }
  specialize (Hf x). rewrite IH; unfold i64_add, i64_sat, i64_min, i64_max in *; lia.
Qed.

Lemma i64_add_sat a b : in_i64 (i64_add a b).
Proof. unfold i64_add, i64_sat, in_i64, i64_min, i64_max. lia. Qed.
