(* ===== verification/ContextManager.v ===== *)
(** * core/context_manager: the conversation history

    [history.rs]: the items of a thread with their version counters, the review
    history kept across compactions, token accounting and the prompt.  The
    turn context and the world state are stored and compared by other code:
    the class [TurnTypes].  The flag [debug] is the build, as in Normalize. *)

From S2P Require Import Prelude RustStr Truncate OutputTruncation ResponseItem ContextFragments.
From S2P Require Import Normalize TranscriptHistory TokenUsage.

Class TurnTypes {json : SerdeJson} := {
  TurnContextItem : Type;
  WorldState : Type;
  WorldStateSnapshot : Type;
  WorldStateItem : Type;
  ContextFragment : Type;
  ws_snapshot : WorldState -> WorldStateSnapshot;
  render_history_diff : WorldState -> option WorldStateSnapshot -> list ResponseItem ->
    list ContextFragment;
  world_state_full : WorldStateSnapshot -> WorldStateItem;
  world_state_patch : WorldStateSnapshot -> WorldStateSnapshot -> option WorldStateItem;
}.

Section manager.
Context {json : SerdeJson} {parsers : FragmentParsers} {enc : ReviewEncoding}
        {measures : ItemMeasures} {turn : TurnTypes}.
Variables (debug : bool) (new_v5 : str -> str).

Record ContextManager := mkContextManager {
  cm_items : list ResponseItemEnvelope;
  cm_review_history : option TranscriptHistory;
  cm_history_version : N;
  cm_user_message_revision : N;
  cm_token_info : option TokenUsageInfo;
  cm_reference_context_item : option TurnContextItem;
  cm_world_state_baseline : option WorldStateSnapshot;
}.

Definition manager_new : ContextManager := mkContextManager [] None 0 0 None None None.

Definition raw_items (m : ContextManager) : list ResponseItem := map item (cm_items m).

(** ** Setters *)

Definition set_token_info (info : option TokenUsageInfo) (m : ContextManager) : ContextManager :=
  mkContextManager (cm_items m) (cm_review_history m) (cm_history_version m)
    (cm_user_message_revision m) info (cm_reference_context_item m) (cm_world_state_baseline m).

Definition set_reference_context_item (r : option TurnContextItem) (m : ContextManager)
    : ContextManager :=
  mkContextManager (cm_items m) (cm_review_history m) (cm_history_version m)
    (cm_user_message_revision m) (cm_token_info m) r (cm_world_state_baseline m).

Definition with_baseline (w : option WorldStateSnapshot) (m : ContextManager) : ContextManager :=
  mkContextManager (cm_items m) (cm_review_history m) (cm_history_version m)
    (cm_user_message_revision m) (cm_token_info m) (cm_reference_context_item m) w.

Definition set_world_state_baseline (w : WorldStateSnapshot) (m : ContextManager) : ContextManager :=
  with_baseline (Some w) m.

Definition update_world_state (world_state : WorldState) (m : ContextManager)
    : ContextManager * (list ContextFragment * option WorldStateItem) :=
  let snapshot := ws_snapshot world_state in
  let fragments := render_history_diff world_state (cm_world_state_baseline m) (raw_items m) in
  let rollout_item :=
    match cm_world_state_baseline m with
    | None => Some (world_state_full snapshot)
    | Some previous => world_state_patch snapshot previous
    end in
  (with_baseline (Some snapshot) m, (fragments, rollout_item)).

Definition set_token_usage_full (context_window : Z) (m : ContextManager) : option ContextManager :=
  info ← (match cm_token_info m with
          | Some info => fill_to_context_window debug info context_window
          | None => full_context_window debug context_window
          end);
  Some (set_token_info (Some info) m).

Definition update_token_info (usage : TokenUsage) (window : option Z) (m : ContextManager)
    : option ContextManager :=
  info ← new_or_append debug (cm_token_info m) (Some usage) window;
  Some (set_token_info info m).

(** ** Recording *)

Definition is_api_message (i : ResponseItem) : bool :=
  match i with
  | Message _ role _ _ _ => negb (str_eqb role (lit "system"))
  | CompactionTrigger | Other => false
  | _ => true
  end.

(** A user message injected by the program is not evidence for review. *)
Definition is_contextual_user_message (i : ResponseItem) : bool :=
  match i with
  | Message _ role content _ _ =>
      str_eqb role (lit "user") && is_contextual_user_message_content content
  | _ => false
  end.

(** The budget of a tool output: the override, or 1.2 times the policy. *)
Definition output_limit (md : option CodexHarnessMetadata) (policy : TruncationPolicy)
    : TruncationPolicy :=
  match md with
  | Some m => match fallback_token_limit_override m with
              | Some tokens => Tokens tokens
              | None => policy_mul policy f64_1_2
              end
  | None => policy_mul policy f64_1_2
  end.

(** The stored form of an item: the output of a tool is truncated. *)
Definition process_item (i : ResponseItem) (md : option CodexHarnessMetadata)
    (policy : TruncationPolicy) : option ResponseItem :=
  let limit := output_limit md policy in
  match i with
  | FunctionCallOutput id call_id name namespace output md =>
      output ← truncate_function_output_payload estimate_audio_token_count output limit;
      Some (FunctionCallOutput id call_id name namespace output md)
  | CustomToolCallOutput id call_id name output md =>
      output ← truncate_function_output_payload estimate_audio_token_count output limit;
      Some (CustomToolCallOutput id call_id name output md)
  | _ => Some i
  end.

(** The body of the loop. *)
Definition record_item (policy : TruncationPolicy) (m : ContextManager)
    (entry : ResponseItem * option CodexHarnessMetadata) : option ContextManager :=
  let '(i, md) := entry in
  if negb (is_api_message i) then Some m
  else
    processed ← process_item i md policy;
    review ← (match cm_review_history m with
              | Some h => if is_contextual_user_message i then Some (Some h)
                          else h' ← record h processed; Some (Some h')
              | None => Some None
              end);
    Some (mkContextManager (cm_items m ++ [mkEnvelope processed md]) review (cm_history_version m)
            (if is_user_authorization_message i
             then saturating_add (cm_user_message_revision m) 1 else cm_user_message_revision m)
            (cm_token_info m) (cm_reference_context_item m) (cm_world_state_baseline m)).

Fixpoint record_items_with_metadata (entries : list (ResponseItem * option CodexHarnessMetadata))
    (policy : TruncationPolicy) (m : ContextManager) : option ContextManager :=
  match entries with
  | [] => Some m
  | e :: entries' => m' ← record_item policy m e; record_items_with_metadata entries' policy m'
  end.

Definition record_items (items : list ResponseItem) (policy : TruncationPolicy) (m : ContextManager)
    : option ContextManager :=
  record_items_with_metadata (map (fun i => (i, None)) items) policy m.

Definition record_annotated_items (items : list ResponseItemEnvelope) (policy : TruncationPolicy)
    (m : ContextManager) : option ContextManager :=
  record_items_with_metadata (map (fun e => (item e, metadata e)) items) policy m.

(** ** The prompt *)

Definition normalize_history (input_modalities : list InputModality) (m : ContextManager)
    : option ContextManager :=
  items ← normalize_items debug new_v5 input_modalities (cm_items m);
  Some (mkContextManager items (cm_review_history m) (cm_history_version m)
          (cm_user_message_revision m) (cm_token_info m) (cm_reference_context_item m)
          (cm_world_state_baseline m)).

Definition for_prompt_annotated (m : ContextManager) (input_modalities : list InputModality)
    : option (list ResponseItemEnvelope) :=
  m' ← normalize_history input_modalities m; Some (cm_items m').

Definition for_prompt (m : ContextManager) (input_modalities : list InputModality)
    : option (list ResponseItem) :=
  items ← for_prompt_annotated m input_modalities; Some (map item items).

(** ** Rewriting the history *)

Definition remove_first_item (m : ContextManager) : ContextManager :=
  match cm_items m with
  | [] => m
  | removed :: items =>
      mkContextManager (remove_corresponding_for items (item removed)) (cm_review_history m)
        (cm_history_version m) (cm_user_message_revision m) (cm_token_info m)
        (cm_reference_context_item m) None
  end.

Definition review_candidates (items : list ResponseItemEnvelope) : list ResponseItem :=
  List.filter (fun i => negb (is_contextual_user_message i)) (map item items).

Definition replace_annotated (items : list ResponseItemEnvelope) (m : ContextManager)
    : option ContextManager :=
  review ← (match cm_review_history m with
            | Some h => h' ← reset h (review_candidates items); Some (Some h')
            | None => Some None
            end);
  Some (mkContextManager items review (saturating_add (cm_history_version m) 1)
          (saturating_add (cm_user_message_revision m) 1) (cm_token_info m)
          (cm_reference_context_item m) None).

Definition replace_compacted (items : list ResponseItemEnvelope) (m : ContextManager)
    : option ContextManager :=
  review ← (match cm_review_history m with
            | Some h => Some h
            | None => record_all (transcript_new (saturating_add (cm_history_version m) 1))
                        (review_candidates (cm_items m))
            end);
  Some (mkContextManager items (Some review) (saturating_add (cm_history_version m) 1)
          (cm_user_message_revision m) (cm_token_info m) (cm_reference_context_item m) None).

(** ** Rollback *)

Definition is_user_turn_boundary (i : ResponseItem) : bool :=
  match i with
  | AgentMessage _ _ _ _ _ => true
  | Message _ role content _ _ =>
      (str_eqb role (lit "user") && negb (is_contextual_user_message_content content))
      || (str_eqb role (lit "assistant") && is_inter_agent_instruction_content content)
  | _ => false
  end.

Fixpoint positions_from (idx : nat) (items : list ResponseItemEnvelope) : list nat :=
  match items with
  | [] => []
  | e :: items' =>
      if is_user_turn_boundary (item e) then idx :: positions_from (S idx) items'
      else positions_from (S idx) items'
  end.

Definition user_message_positions (items : list ResponseItemEnvelope) : list nat :=
  positions_from 0 items.

(** A developer message of context updates, and whether it also has other
    content. *)
Definition is_context_update (i : ResponseItem) : bool :=
  match i with
  | Message _ role content _ _ =>
      (str_eqb role (lit "developer") && is_contextual_dev_message_content content)
      || (str_eqb role (lit "user") && is_contextual_user_message_content content)
  | _ => false
  end.

Definition is_mixed_update (i : ResponseItem) : bool :=
  match i with
  | Message _ role content _ _ =>
      str_eqb role (lit "developer") && is_contextual_dev_message_content content
      && has_non_contextual_dev_message_content content
  | _ => false
  end.

(** The loop: the reference item and the cut; an index past the end panics. *)
Fixpoint trim_pre_turn_context_updates (snapshot : list ResponseItemEnvelope)
    (first_instruction_turn_idx cut_idx : nat) (reference : option TurnContextItem)
    : option (option TurnContextItem * nat) :=
  if cut_idx <=? first_instruction_turn_idx then Some (reference, cut_idx)
  else
    match cut_idx with
    | 0 => Some (reference, cut_idx)
    | S previous =>
        e ← snapshot !! previous;
        if is_context_update (item e) then
          trim_pre_turn_context_updates snapshot first_instruction_turn_idx previous
            (if is_mixed_update (item e) then None else reference)
        else Some (reference, cut_idx)
    end.

(** The closure of [retain_mut]: the item kept, perhaps with less content. *)
Definition without_step_fragments (first_turn_id : str) (e : ResponseItemEnvelope)
    : option ResponseItemEnvelope :=
  match item e with
  | Message _ role _ _ _ =>
      if bool_decide (turn_id (item e) = Some first_turn_id) && str_eqb role (lit "developer") then
        '(taken, content) ← to_annotated_content (item e);
        let content :=
          List.filter (fun a => match ac_content a with
                                | Content.InputText text =>
                                    negb (model_switch_matches_text text
                                          || persistent_mode_matches_text text)
                                | _ => true
                                end) content in
        if is_nil content then None
        else i ← set_annotated_content taken content; Some (mkEnvelope i (metadata e))
      else Some e
  | _ => Some e
  end.

(** The items kept by a cut: all before it, and when no turn is left the step
    fragments of the first turn are removed too. *)
Definition retained_items (snapshot : list ResponseItemEnvelope)
    (first_instruction_turn_idx cut_idx : nat) : option (list ResponseItemEnvelope) :=
  let retained := take cut_idx snapshot in
  if cut_idx =? first_instruction_turn_idx then
    first ← snapshot !! first_instruction_turn_idx;
    match turn_id (item first) with
    | Some first_turn_id => Some (omap (without_step_fragments first_turn_id) retained)
    | None => Some retained
    end
  else Some retained.

Definition drop_last_n_user_turns (num_turns : N) (m : ContextManager) : option ContextManager :=
  if (num_turns =? 0)%N then Some m
  else
    let snapshot := cm_items m in
    let user_positions := user_message_positions snapshot in
    match user_positions with
    | [] => replace_annotated snapshot m
    | first_instruction_turn_idx :: _ =>
        let n_from_end := N.to_nat num_turns in
        cut_idx ← (if length user_positions <=? n_from_end then Some first_instruction_turn_idx
                   else user_positions !! (length user_positions - n_from_end));
        '(reference, cut_idx) ←
          trim_pre_turn_context_updates snapshot first_instruction_turn_idx cut_idx
            (cm_reference_context_item m);
        retained ← retained_items snapshot first_instruction_turn_idx cut_idx;
        replace_annotated retained (set_reference_context_item reference m)
    end.

(** ** Token counts *)

Definition is_model_generated_item (i : ResponseItem) : bool :=
  match i with
  | Message _ role _ _ _ => str_eqb role (lit "assistant")
  | Reasoning _ _ _ _ _ | FunctionCall _ _ _ _ _ _ _ | ToolSearchCall _ _ _ _ _ _
  | WebSearchCall _ _ _ _ | ImageGenerationCall _ _ _ _ _ | CustomToolCall _ _ _ _ _ _ _
  | LocalShellCall _ _ _ _ _ | Compaction _ _ _ | ContextCompaction _ _ _ => true
  | _ => false
  end.

(** [rposition] *)
Fixpoint rposition {A} (f : A -> bool) (l : list A) : option nat :=
  match l with
  | [] => None
  | x :: l' =>
      match rposition f l' with
      | Some n => Some (S n)
      | None => if f x then Some 0 else None
      end
  end.

Definition estimate_token_count_with_base_instructions (base_instructions : str) (m : ContextManager)
    : option Z :=
  Some (i64_add (i64_of_usize (approx_token_count base_instructions)) (estimate_items (raw_items m))).

Definition get_non_last_reasoning_items_tokens (m : ContextManager) : Z :=
  match rposition is_user_turn_boundary (raw_items m) with
  | None => 0
  | Some last_user_index =>
      estimate_items
        (List.filter (fun i => match i with Reasoning _ _ _ (Some _) _ => true | _ => false end)
           (take last_user_index (raw_items m)))
  end%Z.

Definition items_after_last_model_generated_item (m : ContextManager) : list ResponseItem :=
  let start := match rposition is_model_generated_item (raw_items m) with
               | Some index => index + 1
               | None => length (cm_items m)
               end in
  drop start (raw_items m).

Definition get_total_token_usage (server_reasoning_included : bool) (m : ContextManager) : Z :=
  let last_tokens := match cm_token_info m with
                     | Some info => total_tokens (last_token_usage info)
                     | None => 0
                     end%Z in
  let after := estimate_items (items_after_last_model_generated_item m) in
  if server_reasoning_included then i64_add last_tokens after
  else i64_add (i64_add last_tokens (get_non_last_reasoning_items_tokens m)) after.

Definition estimated_tokens_after_last_model_generated_item (m : ContextManager) : Z :=
  estimate_items (items_after_last_model_generated_item m).

(** ** Snapshots for review *)

Definition review_items (m : ContextManager) : list ResponseItem :=
  match cm_review_history m with
  | Some h => map fst (th_items h)
  | None => review_candidates (cm_items m)
  end.

Definition review_history_version (m : ContextManager) : N :=
  match cm_review_history m with Some h => th_generation h | None => cm_history_version m end.

(** ** Recording never panics *)

Lemma truncate_payload_total output policy :
  is_Some (truncate_function_output_payload estimate_audio_token_count output policy).
Proof.
  unfold truncate_function_output_payload. destruct (body output) as [text|items].
  - destruct (truncate_text_total text policy) as [t ->]. by eexists.
  - unfold truncate_function_output_items_with_policy.
    destruct (truncate_items_kept estimate_audio_token_count policy items [] (item_budget policy) 0 0)
      as (kept & nt & na & r' & E & _).
    rewrite E. by eexists.
Qed.

Lemma process_item_total i md policy : exists i', process_item i md policy = Some i'
  /\ is_contextual_user_message i' = is_contextual_user_message i.
Proof.
  unfold process_item. generalize (output_limit md policy). intros limit.
  destruct i; try (by eexists);
    destruct (truncate_payload_total output limit) as [o ->]; by eexists.
Qed.

Lemma record_total h i :
  (size_of_item <= MAX_BYTES_PER_KIND)%N -> is_Some (record h i).
Proof.
  intros Hs. rewrite record_stored. destruct (stored i) as [[s size]|] eqn:E; [|by eexists].
  destruct (push_entry_spec h s size (stored_bounded _ _ _ Hs E)) as (h' & _ & _ & -> & _).
  by eexists.
Qed.

(** ** Rollback *)

Lemma boundary_not_update i : is_user_turn_boundary i = true -> is_context_update i = false.
Proof.
  destruct i; try done. unfold is_user_turn_boundary, is_context_update.
  destruct (str_eqb role (lit "user")) eqn:Eu; simpl.
  - apply str_eqb_eq in Eu as ->. simpl. rewrite orb_false_r. apply negb_true_iff.
  - destruct (str_eqb role (lit "assistant")) eqn:Ea; [|done].
    by apply str_eqb_eq in Ea as ->.
Qed.

Lemma positions_from_app idx l1 l2 :
  positions_from idx (l1 ++ l2) = positions_from idx l1 ++ positions_from (idx + length l1) l2.
Proof.
  revert idx; induction l1 as [|e l1 IH]; intros idx; simpl; [by rewrite Nat.add_0_r|].
  rewrite IH, Nat.add_succ_r. by case_match.
Qed.

Lemma positions_from_none idx l :
  positions_from idx l = [] <-> Forall (fun e => is_user_turn_boundary (item e) = false) l.
Proof.
  revert idx; induction l as [|e l IH]; intros idx; simpl; [done|].
  rewrite Forall_cons, <- (IH (S idx)). case_match; naive_solver.
Qed.

(** The items before the [j]-th boundary have the first [j] boundaries. *)
Lemma positions_from_lookup idx l j p : positions_from idx l !! j = Some p ->
  idx <= p /\ positions_from idx (take (p - idx) l) = take j (positions_from idx l)
  /\ exists e, l !! (p - idx) = Some e /\ is_user_turn_boundary (item e) = true.
Proof.
  revert idx j; induction l as [|e l IH]; intros idx j; simpl; [done|].
  destruct (is_user_turn_boundary (item e)) eqn:E.
  - destruct j as [|j]; simpl; [intros [= <-]; rewrite Nat.sub_diag; naive_solver|].
    intros (Hle & Ht & e' & He & Hb)%IH. replace (p - idx) with (S (p - S idx)) by lia. simpl.
    rewrite E, Ht. split_and!; [lia|done|by eexists].
  - intros (Hle & Ht & e' & He & Hb)%IH. replace (p - idx) with (S (p - S idx)) by lia. simpl.
    rewrite E, Ht. split_and!; [lia|done|by eexists].
Qed.

(** The cut moves up over context updates, as far as the first boundary. *)
Lemma trim_spec snapshot first cut reference : first <= cut <= length snapshot ->
  exists cut', trim_pre_turn_context_updates snapshot first cut reference
    = Some (if existsb (fun e => is_mixed_update (item e)) (drop cut' (take cut snapshot))
            then None else reference, cut')
  /\ first <= cut' <= cut
  /\ Forall (fun e => is_context_update (item e) = true) (drop cut' (take cut snapshot))
  /\ (cut' = first \/ exists e, snapshot !! (cut' - 1) = Some e /\ is_context_update (item e) = false).
Proof.
  revert reference; induction cut as [|cut IH]; intros reference Hc.
  { exists 0. simpl. split_and!; try lia; done. }
  cbn [trim_pre_turn_context_updates]. destruct (Nat.leb_spec (S cut) first).
  { exists (S cut). rewrite drop_ge by (rewrite length_take; lia). simpl.
    split_and!; [done|lia|lia|done|left; lia]. }
  destruct (lookup_lt_is_Some_2 snapshot cut) as [e He]; [lia|]. rewrite He. simpl.
  destruct (is_context_update (item e)) eqn:E.
  - destruct (IH (if is_mixed_update (item e) then None else reference)) as (c & -> & H1 & H2 & H3);
      [lia|].
    exists c. rewrite (take_S_r _ _ _ He), drop_app_le by (rewrite length_take; lia).
    rewrite existsb_app. simpl. rewrite orb_false_r. split_and!; try lia; [|apply Forall_app; split; [done|by constructor]|done].
    f_equal. f_equal. by destruct (existsb _ _), (is_mixed_update (item e)).
  - exists (S cut). rewrite drop_ge by (rewrite length_take; lia). simpl.
    split_and!; [done|lia|lia|done|]. right. exists e. by rewrite Nat.sub_0_r.
Qed.

Lemma without_step_fragments_boundary t e e' :
  without_step_fragments t e = Some e' ->
  is_user_turn_boundary (item e) = false -> is_user_turn_boundary (item e') = false.
Proof.
  unfold without_step_fragments. destruct e as [i md]. simpl.
  destruct i; try (by intros [= <-]).
  destruct (bool_decide _ && str_eqb role (lit "developer")) eqn:E; [|by intros [= <-]].
  apply andb_true_iff in E as [_ ->%str_eqb_eq].
  unfold to_annotated_content. simpl. destruct (is_nil _); [done|]. simpl. by intros [= <-].
Qed.

Lemma retained_items_positions snapshot first cut retained :
  (cut = first -> positions_from 0 (take cut snapshot) = []) ->
  retained_items snapshot first cut = Some retained ->
  user_message_positions retained = user_message_positions (take cut snapshot).
Proof.
  unfold retained_items, user_message_positions. intros Hcut.
  destruct (Nat.eqb_spec cut first) as [->|]; [|by intros [= <-]].
  destruct (snapshot !! first) as [e|]; simpl; [|done].
  destruct (turn_id (item e)) as [t|]; [|by intros [= <-]]. intros [= <-].
  rewrite (Hcut eq_refl). specialize (Hcut eq_refl). apply positions_from_none in Hcut.
  apply positions_from_none. apply Forall_forall. intros e' (e0 & Hin & Hw)%list_elem_of_omap.
  eapply without_step_fragments_boundary; [done|]. by eapply (proj1 (Forall_forall _ _) Hcut).
Qed.

Lemma replace_annotated_total items m : (size_of_item <= MAX_BYTES_PER_KIND)%N ->
  exists review, replace_annotated items m
    = Some (mkContextManager items review (saturating_add (cm_history_version m) 1)
              (saturating_add (cm_user_message_revision m) 1) (cm_token_info m)
              (cm_reference_context_item m) None)
  /\ match cm_review_history m, review with
     | None, None => True
     | Some h, Some h' => reset h (review_candidates items) = Some h'
     | _, _ => False
     end.
Proof.
  intros Hs. unfold replace_annotated. destruct (cm_review_history m) as [h|]; [|by eexists].
  destruct (tracks_record_all [] (mkTranscript [] (saturating_add (th_generation h) 1))
              (review_candidates items) Hs (tracks_new _)) as (h' & E & _).
  unfold reset. rewrite E. by exists (Some h').
Qed.

Lemma rollback_cut items first ps n : user_message_positions items = first :: ps -> n <> 0 ->
  exists cut, (if S (length ps) <=? n then Some first else (first :: ps) !! (S (length ps) - n))
              = Some cut
  /\ cut = default first ((first :: ps) !! (S (length ps) - n))
  /\ first <= cut <= length items
  /\ positions_from 0 (take cut items) = take (S (length ps) - n) (first :: ps).
Proof.
  unfold user_message_positions. intros Hps Hn.
  assert (Hfirst : forall j p, (first :: ps) !! j = Some p -> first <= p <= length items
            /\ positions_from 0 (take p items) = take j (first :: ps)).
  { intros j p Hj. rewrite <- Hps in Hj |- *.
    destruct (positions_from_lookup _ _ _ _ Hj) as (_ & Ht & e & He & _). rewrite Nat.sub_0_r in *.
    split; [|done]. apply lookup_lt_Some in He. split; [|lia].
    destruct j as [|j]; [rewrite Hps in Hj; by injection Hj as ->|].
    assert (Hin : first ∈ positions_from 0 (take p items)) by (rewrite Ht, Hps; left).
    apply list_elem_of_lookup in Hin as (k & Hk).
    destruct (positions_from_lookup _ _ _ _ Hk) as (_ & _ & e' & He' & _).
    apply lookup_lt_Some in He'. rewrite length_take in He'. lia. }
  destruct (Nat.leb_spec (S (length ps)) n).
  - destruct (Hfirst 0 first eq_refl) as [? Ht]. exists first.
    replace (S (length ps) - n) with 0 by lia. by split_and!; [| |lia|lia|].
  - destruct (lookup_lt_is_Some_2 (first :: ps) (S (length ps) - n)) as [p Hp]; [simpl; lia|].
    exists p. destruct (Hfirst _ _ Hp). by split_and!; [|rewrite Hp|lia|lia|].
Qed.

(** What a rollback keeps, and the reference context after it. *)
Lemma rollback_retains n m : n <> 0%N ->
  let ps := user_message_positions (cm_items m) in
  exists retained reference,
  drop_last_n_user_turns n m = replace_annotated retained (set_reference_context_item reference m)
  /\ user_message_positions retained = take (length ps - N.to_nat n) ps
  /\ (ps = [] -> retained = cm_items m /\ reference = cm_reference_context_item m)
  /\ forall first, head ps = Some first ->
       exists target cut,
         target = default first (ps !! (length ps - N.to_nat n)) /\ first <= cut <= target
         /\ retained_items (cm_items m) first cut = Some retained
         /\ let trimmed := drop cut (take target (cm_items m)) in
            Forall (fun e => is_context_update (item e) = true) trimmed
            /\ (cut = first \/ exists e, cm_items m !! (cut - 1) = Some e
                                          /\ is_context_update (item e) = false)
            /\ reference = (if existsb (fun e => is_mixed_update (item e)) trimmed then None
                            else cm_reference_context_item m).
Proof.
  intros Hn ps. unfold drop_last_n_user_turns. destruct (N.eqb_spec n 0) as [|_]; [done|].
  fold ps. destruct ps as [|first ps'] eqn:Eps.
  { exists (cm_items m), (cm_reference_context_item m). by split_and!. }
  cbn [length]. destruct (rollback_cut _ _ _ (N.to_nat n) Eps)
    as (target & -> & Hdef & Hle & Htp); [lia|].
  simpl. destruct (trim_spec (cm_items m) first target (cm_reference_context_item m) Hle)
    as (cut & -> & Hcut & Htrim & Hstop).
  simpl. assert (Htake : positions_from 0 (take cut (cm_items m))
                        = take (S (length ps') - N.to_nat n) (first :: ps')).
  { rewrite <- Htp, <- (take_drop cut (take target (cm_items m))), take_take, Nat.min_l by lia.
    rewrite positions_from_app. replace (positions_from _ (drop _ _)) with (@nil nat);
      [by rewrite app_nil_r|].
    symmetry. apply positions_from_none. eapply Forall_impl; [done|]. simpl. intros e He.
    destruct (is_user_turn_boundary (item e)) eqn:E; [|done]. apply boundary_not_update in E. congruence. }
  destruct (positions_from_lookup 0 (cm_items m) 0 first) as (_ & Hz & e & He & _);
    [by unfold ps, user_message_positions in Eps; rewrite Eps|]. rewrite Nat.sub_0_r in *.
  assert (exists retained, retained_items (cm_items m) first cut = Some retained) as [retained Hr].
  { unfold retained_items. destruct (Nat.eqb_spec cut first); [|by eexists].
    rewrite He. simpl. destruct (turn_id (item e)); by eexists. }
  rewrite Hr. simpl. eexists retained, _. split; [done|]. split_and!; try done.
  - erewrite retained_items_positions; [exact Htake|by intros ->|exact Hr].
  - intros f [= <-]. exists target, cut. split_and!; try done; try lia.
Qed.

(** C12: rolling back [n > 0] turns never panics and removes exactly the last
    [n] turn boundaries (all of them when there are fewer).  What is kept is a
    prefix of the history that reaches to the first dropped turn less the
    context updates just before it, never less than what precedes the first
    turn; when no turn is left, the step fragments of the first turn go as
    well.  The reference context is cleared exactly when a removed update also
    carried other developer text.  The history and the revision are marked as
    rewritten and the world state baseline is dropped, also when there was no
    turn to remove. *)
Theorem rollback_drops_last_turns n m :
  (size_of_item <= MAX_BYTES_PER_KIND)%N -> n <> 0%N ->
  let ps := user_message_positions (cm_items m) in
  exists m', drop_last_n_user_turns n m = Some m'
  /\ user_message_positions (cm_items m') = take (length ps - N.to_nat n) ps
  /\ (ps = [] -> cm_items m' = cm_items m
                 /\ cm_reference_context_item m' = cm_reference_context_item m)
  /\ (forall first, head ps = Some first ->
       exists target cut,
         target = default first (ps !! (length ps - N.to_nat n)) /\ first <= cut <= target
         /\ retained_items (cm_items m) first cut = Some (cm_items m')
         /\ let trimmed := drop cut (take target (cm_items m)) in
            Forall (fun e => is_context_update (item e) = true) trimmed
            /\ (cut = first \/ exists e, cm_items m !! (cut - 1) = Some e
                                          /\ is_context_update (item e) = false)
            /\ cm_reference_context_item m'
               = (if existsb (fun e => is_mixed_update (item e)) trimmed then None
                  else cm_reference_context_item m))
  /\ cm_history_version m' = saturating_add (cm_history_version m) 1
  /\ cm_user_message_revision m' = saturating_add (cm_user_message_revision m) 1
  /\ cm_world_state_baseline m' = None /\ cm_token_info m' = cm_token_info m.
Proof.
  intros Hs Hn ps.
  destruct (rollback_retains n m Hn) as (retained & reference & -> & Hps & Hnone & Hsome).
  destruct (replace_annotated_total retained (set_reference_context_item reference m) Hs)
    as (review & -> & _).
  eexists. split; [done|]. by split_and!.
Qed.

(** ** The history of a live thread

    The rewriting operations a session applies to its history ([remove_first_item]
    is only used on the copy that a compaction request is built from). *)

Inductive HistoryOp :=
| OpRecord (entries : list (ResponseItem * option CodexHarnessMetadata)) (policy : TruncationPolicy)
| OpReplace (items : list ResponseItemEnvelope)
| OpCompact (items : list ResponseItemEnvelope)
| OpRollback (num_turns : N).

Definition apply_op (op : HistoryOp) (m : ContextManager) : option ContextManager :=
  match op with
  | OpRecord entries policy => record_items_with_metadata entries policy m
  | OpReplace items => replace_annotated items m
  | OpCompact items => replace_compacted items m
  | OpRollback n => drop_last_n_user_turns n m
  end.

Fixpoint run_ops (ops : list HistoryOp) (m : ContextManager) : option ContextManager :=
  match ops with
  | [] => Some m
  | op :: ops' => m' ← apply_op op m; run_ops ops' m'
  end.

(** What review promises, whatever the compactions: all evidence since the last
    reset, and the revision of the user's instructions. *)
Record Ledger := mkLedger {
  evidence : list ResponseItem;
  revision : N;
}.

Definition ledger_record (policy : TruncationPolicy) (L : Ledger)
    (entry : ResponseItem * option CodexHarnessMetadata) : Ledger :=
  let '(i, md) := entry in
  if is_api_message i then
    mkLedger (evidence L ++ (if is_contextual_user_message i then []
                             else option_list (process_item i md policy)))
      (if is_user_authorization_message i then saturating_add (revision L) 1 else revision L)
  else L.

(** [items'] is the history after the operation. *)
Definition ledger_op (op : HistoryOp) (items' : list ResponseItemEnvelope) (L : Ledger) : Ledger :=
  match op with
  | OpRecord entries policy => fold_left (ledger_record policy) entries L
  | OpCompact _ => L
  | OpRollback 0%N => L
  | OpReplace _ | OpRollback _ =>
      mkLedger (review_candidates items') (saturating_add (revision L) 1)
  end.

Fixpoint run_ledger (ops : list HistoryOp) (m : ContextManager) (L : Ledger) : Ledger :=
  match ops with
  | [] => L
  | op :: ops' =>
      match apply_op op m with
      | Some m' => run_ledger ops' m' (ledger_op op (cm_items m') L)
      | None => L
      end
  end.

(** Until the first compaction the evidence is the history itself; then it is
    the bounded transcript. *)
Definition represents (L : Ledger) (m : ContextManager) : Prop :=
  cm_user_message_revision m = revision L
  /\ match cm_review_history m with
     | None => review_candidates (cm_items m) = evidence L
     | Some h => tracks (omap stored (evidence L)) h
     end.

Lemma review_candidates_snoc items i md :
  review_candidates (items ++ [mkEnvelope i md])
  = review_candidates items ++ (if is_contextual_user_message i then [] else [i]).
Proof.
  unfold review_candidates. rewrite map_app, List.filter_app. simpl.
  by destruct (is_contextual_user_message i).
Qed.

(** ** The review version *)

(** [m'] has at least the review version of [m], and the same version only if
    the evidence of [m] is still there, followed by newer items. *)
Definition review_extends (m m' : ContextManager) : Prop :=
  (review_history_version m <= review_history_version m')%N
  /\ ((review_history_version m' < usize_max)%N ->
      review_history_version m = review_history_version m' ->
      review_items m `prefix_of` review_items m').

#[local] Instance review_extends_preorder : PreOrder review_extends.
Proof.
  split; [intros m; split; [lia|done]|].
  intros m1 m2 m3 [Hv1 Hp1] [Hv2 Hp2]. split; [lia|]. intros Hm He.
  etrans; [apply Hp1; lia|apply Hp2; lia].
Qed.

Definition counters_ok (m : ContextManager) : Prop :=
  (cm_history_version m <= usize_max)%N
  /\ match cm_review_history m with Some h => (th_generation h <= usize_max)%N | None => True end.

Lemma record_extends h i h' : record h i = Some h' ->
  (th_generation h <= usize_max)%N ->
  (th_generation h <= th_generation h' <= usize_max)%N
  /\ ((th_generation h' < usize_max)%N -> th_generation h = th_generation h' ->
      th_items h `prefix_of` th_items h').
Proof.
  rewrite record_stored. destruct (stored i) as [[s size]|]; [|intros [= ->]; split; [lia|done]].
  unfold push_entry. destruct (kind_usage _ _ _) as [count bytes].
  unfold saturating_add, usize_sat. destruct (over_limit count bytes).
  - destruct (evict _ _ _ _); simpl; [|done]. intros [= <-] Hg; simpl. split; [lia|]. lia.
  - intros [= <-] Hg. simpl. split; [lia|]. intros _ _. by apply prefix_app_r.
Qed.

Lemma record_all_extends items h h' : record_all h items = Some h' ->
  (th_generation h <= usize_max)%N -> (th_generation h <= th_generation h' <= usize_max)%N.
Proof.
  revert h; induction items as [|i items IH]; intros h; simpl; [intros [= ->]; lia|].
  destruct (record h i) as [h1|] eqn:E; simpl; [|done]. intros Hr Hg.
  destruct (record_extends _ _ _ E Hg) as [? _]. apply IH in Hr; lia.
Qed.

Lemma record_item_extends policy m entry m' :
  counters_ok m -> record_item policy m entry = Some m' -> counters_ok m' /\ review_extends m m'.
Proof.
  destruct entry as [i md]. intros [Hc Hg]. unfold record_item.
  destruct (is_api_message i); simpl; [|by intros [= <-]].
  destruct (process_item_total i md policy) as (i' & -> & Hctx). simpl.
  unfold counters_ok, review_extends, review_history_version, review_items.
  destruct (cm_review_history m) as [h|]; simpl.
  - destruct (is_contextual_user_message i); simpl.
    { intros [= <-]. simpl. split; [done|]. split; [lia|done]. }
    destruct (record h i') as [h'|] eqn:E; simpl; [|done]. intros [= <-]. simpl.
    destruct (record_extends _ _ _ E Hg) as [? Hp]. split_and!; try done; try lia.
    intros ? ?. destruct (Hp ltac:(done) ltac:(done)) as [k ->]. rewrite map_app. by apply prefix_app_r.
  - intros [= <-]. simpl. split; [done|]. split; [lia|]. intros _ _.
    rewrite review_candidates_snoc. by apply prefix_app_r.
Qed.

Lemma record_items_extends policy entries m m' :
  counters_ok m -> record_items_with_metadata entries policy m = Some m' ->
  counters_ok m' /\ review_extends m m'.
Proof.
  revert m; induction entries as [|e entries IH]; intros m Hc; simpl; [by intros [= <-]|].
  destruct (record_item policy m e) as [m1|] eqn:E; simpl; [|done]. intros Hr.
  destruct (record_item_extends _ _ _ _ Hc E) as [Hc1 H1]. destruct (IH _ Hc1 Hr) as [Hc2 H2].
  split; [done|]. by etrans.
Qed.

Lemma replace_extends items m m' :
  counters_ok m -> replace_annotated items m = Some m' -> counters_ok m' /\ review_extends m m'.
Proof.
  intros [Hc Hg]. unfold replace_annotated, counters_ok, review_extends, review_history_version.
  unfold saturating_add, usize_sat.
  destruct (cm_review_history m) as [h|]; simpl; [|intros [= <-]; simpl; lia].
  destruct (reset h _) as [h'|] eqn:E; simpl; [|done]. intros [= <-]. simpl.
  apply record_all_extends in E; unfold saturating_add, usize_sat in *; simpl in *; lia.
Qed.

Lemma apply_op_extends op m m' :
  counters_ok m -> apply_op op m = Some m' -> counters_ok m' /\ review_extends m m'.
Proof.
  intros Hm. destruct op as [entries policy|items|items|n]; simpl.
  - by apply record_items_extends.
  - by apply replace_extends.
  - unfold replace_compacted, counters_ok, review_extends, review_history_version, review_items.
    destruct Hm as [Hc Hg]. destruct (cm_review_history m) as [h|]; simpl.
    + intros [= <-]. simpl. unfold saturating_add, usize_sat. split_and!; try lia. done.
    + destruct (record_all _ _) as [h|] eqn:E; simpl; [|done]. intros [= <-]. simpl.
      apply record_all_extends in E; unfold saturating_add, usize_sat in *; simpl in *; lia.
  - destruct n as [|n]; [by intros [= <-]|].
    destruct (rollback_retains (Npos n) m) as (retained & reference & -> & _); [done|].
    exact (replace_extends retained (set_reference_context_item reference m) m' Hm).
Qed.

Lemma run_ops_extends ops m m' :
  counters_ok m -> run_ops ops m = Some m' -> counters_ok m' /\ review_extends m m'.
Proof.
  revert m; induction ops as [|op ops IH]; intros m Hc; simpl; [by intros [= <-]|].
  destruct (apply_op op m) as [m1|] eqn:E; simpl; [|done]. intros Hr.
  destruct (apply_op_extends _ _ _ Hc E) as [Hc1 H1]. destruct (IH _ Hc1 Hr) as [Hc2 H2].
  split; [done|]. by etrans.
Qed.

(** ** Totality and refinement *)

Section live.
Hypothesis item_fits : (size_of_item <= MAX_BYTES_PER_KIND)%N.

Lemma tracks_record past h i : tracks past h ->
  exists h', record h i = Some h' /\ tracks (past ++ option_list (stored i)) h'.
Proof.
  intros Ht. destruct (tracks_record_all past h [i] item_fits Ht) as (h' & Hr & Ht').
  cbn [record_all] in Hr. destruct (record h i) as [h1|]; [|done]. injection Hr as ->.
  exists h'. split; [done|]. revert Ht'. cbn. by destruct (stored i).
Qed.

Lemma record_item_represents policy L m entry : represents L m ->
  exists m', record_item policy m entry = Some m' /\ represents (ledger_record policy L entry) m'
    /\ cm_history_version m' = cm_history_version m.
Proof.
  destruct entry as [i md]. intros [Hrev Hev]. unfold record_item, ledger_record.
  destruct (is_api_message i); simpl; [|by exists m].
  destruct (process_item_total i md policy) as (i' & -> & Hc). simpl.
  destruct (cm_review_history m) as [h|].
  - destruct (is_contextual_user_message i); simpl.
    + eexists. split; [done|]. split; [|done]. split; [simpl; by rewrite Hrev|]. simpl. by rewrite app_nil_r.
    + destruct (tracks_record _ _ i' Hev) as (h' & -> & Ht). simpl.
      eexists. split; [done|]. split; [|done]. split; [simpl; by rewrite Hrev|]. simpl.
      rewrite omap_app. simpl. by destruct (stored i').
  - simpl. eexists. split; [done|]. split; [|done]. split; [simpl; by rewrite Hrev|]. simpl.
    rewrite review_candidates_snoc, Hc, Hev. by case_match.
Qed.

Lemma record_items_represents policy entries L m : represents L m ->
  exists m', record_items_with_metadata entries policy m = Some m'
    /\ represents (fold_left (ledger_record policy) entries L) m'
    /\ cm_history_version m' = cm_history_version m.
Proof.
  revert L m; induction entries as [|e entries IH]; intros L m Hm; simpl; [by exists m|].
  destruct (record_item_represents policy L m e Hm) as (m1 & -> & H1 & Hv). simpl.
  destruct (IH _ _ H1) as (m' & -> & H2 & Hv'). exists m'. split_and!; [done|done|congruence].
Qed.

Lemma replace_represents items L m : represents L m ->
  exists m', replace_annotated items m = Some m' /\ cm_items m' = items
    /\ represents (mkLedger (review_candidates items) (saturating_add (revision L) 1)) m'.
Proof.
  intros [Hrev Hev]. destruct (replace_annotated_total items m item_fits) as (review & -> & Hreview).
  eexists. split; [done|]. split; [done|]. split; [simpl; by rewrite Hrev|]. simpl.
  destruct (cm_review_history m) as [h|], review as [h'|]; try done.
  destruct (tracks_record_all [] (mkTranscript [] (saturating_add (th_generation h) 1))
              (review_candidates items) item_fits (tracks_new _)) as (h2 & E & Ht).
  unfold reset in Hreview. rewrite E in Hreview. by injection Hreview as ->.
Qed.

Lemma apply_op_represents op L m : represents L m ->
  exists m', apply_op op m = Some m' /\ represents (ledger_op op (cm_items m') L) m'.
Proof.
  intros Hm. destruct op as [entries policy|items|items|n]; simpl.
  - destruct (record_items_represents policy entries L m Hm) as (m' & ? & ? & _). eauto.
  - destruct (replace_represents items L m Hm) as (m' & ? & Hi & ?). exists m'. by rewrite Hi.
  - unfold replace_compacted. destruct Hm as [Hrev Hev]. destruct (cm_review_history m) as [h|]; simpl.
    + eexists. split; [done|]. done.
    + destruct (tracks_record_all [] _ (review_candidates (cm_items m)) item_fits
                  (tracks_new (saturating_add (cm_history_version m) 1))) as (h & -> & Ht).
      simpl. eexists. split; [done|]. split; [done|]. simpl. by rewrite <- Hev.
  - destruct n as [|n]; [by exists m|].
    destruct (rollback_retains (Npos n) m) as (retained & reference & -> & _); [done|].
    destruct (replace_represents retained L (set_reference_context_item reference m) Hm)
      as (m' & ? & Hi & ?). exists m'. by rewrite Hi.
Qed.

Lemma represents_new : represents (mkLedger [] 0) manager_new.
Proof. done. Qed.

Lemma run_ops_represents ops L m : represents L m ->
  exists m', run_ops ops m = Some m' /\ represents (run_ledger ops m L) m'.
Proof.
  revert L m; induction ops as [|op ops IH]; intros L m Hm; simpl; [eauto|].
  destruct (apply_op_represents op L m Hm) as (m1 & -> & H1). simpl. eauto.
Qed.


End live.

(** ** Trimming the front *)

(** Removing the oldest item of a history in which calls and outputs are
    paired one to one keeps it so: the counterpart of a removed call or output
    goes with it.  Nothing is added or reordered, one or two items go, and
    only the world state baseline changes otherwise. *)
Theorem remove_first_item_keeps_pairs m :
  well_paired (cm_items m) ->
  let m' := remove_first_item m in
  well_paired (cm_items m')
  /\ cm_items m' `sublist_of` tail (cm_items m)
  /\ length (cm_items m) <= length (cm_items m') + 2
  /\ m' = (if is_nil (cm_items m) then m
           else mkContextManager (cm_items m') (cm_review_history m) (cm_history_version m)
                  (cm_user_message_revision m) (cm_token_info m) (cm_reference_context_item m) None).
Proof.
  unfold remove_first_item. destruct m as [items review v r info ctx base]. simpl.
  destruct items as [|e items]; simpl; [intros H; split_and!; [done|done|lia|done]|].
  intros H. split; [by apply remove_front_well_paired|].
  destruct (remove_corresponding_for_sublist items (item e)) as [Hs Hl]. split_and!; [done|lia|done].
Qed.

(** ** Token counts *)

(** The token estimate of a history is the exact sum of the estimates of
    the instructions and the items, capped at the largest [i64]; it never
    wraps around and is never negative. *)
Theorem estimate_token_count_saturates text m :
  estimate_token_count_with_base_instructions text m
  = Some (Z.min i64_max (i64_of_usize (approx_token_count text)
                         + foldr (fun i s => estimate_item_token_count i + s) 0 (raw_items m)))%Z
  /\ Forall (fun i => 0 <= estimate_item_token_count i <= i64_max)%Z (raw_items m).
Proof.
  assert (Hb : forall i, (0 <= estimate_item_token_count i <= i64_max)%Z)
    by (intros; apply approx_tokens_i64_bounds).
  split; [|by apply Forall_forall].
  unfold estimate_token_count_with_base_instructions, estimate_items. f_equal.
  rewrite fold_i64_add; [|intros; apply Hb|unfold i64_max; lia]. simpl.
  assert (H0 : (0 <= foldr (fun i s => estimate_item_token_count i + s) 0 (raw_items m))%Z).
  { induction (raw_items m) as [|i l IH]; simpl; [lia|]. specialize (Hb i). lia. }
  pose proof (i64_of_usize_bounds (approx_token_count text)).
  unfold i64_add, i64_sat, i64_min, i64_max in *. lia.
Qed.

End manager.

(** Concrete instances for the witnesses. *)
Definition sample_parsers : FragmentParsers :=
  {| parse_hook_prompt_xml := fun _ => None; is_inter_agent_json := fun _ => false |}.

Definition sample_measures : @ItemMeasures sample_json :=
  {| serialized_json_bytes := fun _ => Some 120%N; image_dimensions := fun _ => None;
     estimate_audio_token_count := fun _ => 10%N |}.

Definition sample_turn : @TurnTypes sample_json :=
  {| TurnContextItem := unit; WorldState := unit; WorldStateSnapshot := unit;
     WorldStateItem := unit; ContextFragment := unit; ws_snapshot := fun _ => tt;
     render_history_diff := fun _ _ _ => []; world_state_full := fun _ => tt;
     world_state_patch := fun _ _ => None |}.

#[local] Existing Instances sample_json sample_encoding sample_parsers sample_measures sample_turn.

(** Two turns, with an injected context update before the second. *)
Definition sample_items : list ResponseItemEnvelope :=
  map envelope_new
    [sample_message (lit "developer") (lit "rules"); sample_message (lit "user") (lit "first");
     sample_message (lit "assistant") (lit "ok");
     sample_message (lit "user")
       (lit "<environment_context>" ++ lit "cwd" ++ lit "</environment_context>");
     sample_message (lit "user") (lit "second"); sample_message (lit "assistant") (lit "ok")].

Definition sample_manager : ContextManager := mkContextManager sample_items None 3 2 None None (Some tt).

Lemma rollback_drops_last_turns_witness :
  user_message_positions sample_items = [1; 4]
  /\ exists m', drop_last_n_user_turns 1 sample_manager = Some m'
     /\ user_message_positions (cm_items m') = [1] /\ cm_history_version m' = 4%N.
Proof.
  split; [reflexivity|].
  destruct (rollback_drops_last_turns 1 sample_manager) as (m' & Hd & Hp & _ & _ & Hv & _);
    [vm_compute; discriminate|discriminate|].
  exists m'. split; [exact Hd|]. split; [exact Hp|exact Hv].
Defined.

Definition sample_ops : list HistoryOp :=
  [OpRecord [(sample_message (lit "user") (lit "go"), None)] (Bytes 100); OpCompact [];
   OpRecord [(sample_message (lit "assistant") (lit "done"), None)] (Bytes 100)].


Definition sample_call : list ResponseItemEnvelope :=
  map envelope_new
    [FunctionCall None (lit "shell") None [] None (lit "c1") None;
     sample_message (lit "assistant") (lit "ok");
     FunctionCallOutput None (Some (lit "c1")) None None (from_text (lit "out")) None].

Lemma remove_first_item_keeps_pairs_witness :
  well_paired sample_call
  /\ cm_items (remove_first_item (mkContextManager sample_call None 0 0 None None None))
     = [envelope_new (sample_message (lit "assistant") (lit "ok"))]
  /\ well_paired (cm_items (remove_first_item (mkContextManager sample_call None 0 0 None None None))).
Proof.
  assert (H : well_paired sample_call).
  { split; [split|].
    - cbn. intros k Hk. exact Hk.
    - intros e k He Hk _. apply list_elem_of_In in He.
      repeat destruct He as [<-|He]; try discriminate Hk; [|destruct He].
      injection Hk as <-. left.
    - split; apply NoDup_singleton. }
  split; [exact H|]. split; [reflexivity|].
  exact (proj1 (remove_first_item_keeps_pairs
                  (mkContextManager sample_call None 0 0 None None None) H)).
Defined.
