(* ===== verification/GuardianPrompt.v ===== *)
(** * core/guardian: the transcript of a review request

    [guardian/prompt.rs]: which entries of the review history a request shows,
    whether it shows all of them or only those since the last review, and how
    the reviewer's answer is read.  The JSON decoder of the answer is a
    parameter.  Counters are unbounded: the theorem bounds them by the budgets
    and one entry. *)

From S2P Require Import Prelude RustStr Truncate OutputTruncation ResponseItem ContextFragments.
From S2P Require Import Normalize TranscriptHistory GuardianTranscript TokenUsage ContextManager.

(** ** Limits *)

Definition GUARDIAN_MAX_MESSAGE_TRANSCRIPT_TOKENS : N := 20000%N.
Definition GUARDIAN_MAX_TOOL_TRANSCRIPT_TOKENS : N := 10000%N.
Definition GUARDIAN_MAX_MESSAGE_ENTRY_TOKENS : N := 5000%N.
Definition GUARDIAN_MAX_TOOL_ENTRY_TOKENS : N := 1000%N.
Definition GUARDIAN_MAX_NODE_REPL_TOOL_RESULT_TOKENS : N := 6000%N.
Definition GUARDIAN_RECENT_ENTRY_LIMIT : N := 40%N.

Record TranscriptRetentionConfig := mkRetention {
  max_message_transcript_tokens : N;
  max_tool_transcript_tokens : N;
  max_recent_non_user_entries : N;
}.

Definition GUARDIAN_TRANSCRIPT_RETENTION : TranscriptRetentionConfig :=
  mkRetention GUARDIAN_MAX_MESSAGE_TRANSCRIPT_TOKENS GUARDIAN_MAX_TOOL_TRANSCRIPT_TOKENS
    GUARDIAN_RECENT_ENTRY_LIMIT.

(** ** Rendering *)

Definition is_user_entry (e : ConversationTranscriptEntry) : bool :=
  match entry_kind e with User => true | _ => false end.

Definition is_tool_entry (e : ConversationTranscriptEntry) : bool :=
  match entry_kind e with ToolCall _ | ToolOutput _ | NodeReplToolOutput _ => true | _ => false end.

Definition is_reasoning_entry (e : ConversationTranscriptEntry) : bool :=
  match entry_kind e with ReasoningEntry => true | _ => false end.

Definition render_entry (entry_number_offset index : nat) (e : ConversationTranscriptEntry) : str :=
  lit "[" ++ fmt_N (N.of_nat (index + entry_number_offset + 1)) ++ lit "] "
    ++ entry_role (entry_kind e) ++ lit ": " ++ entry_text e.

(** The entries with their rendering and its token count. *)
Definition rendered_entries (entry_number_offset : nat) (entries : list ConversationTranscriptEntry)
    : list (str * N) :=
  imap (fun index e => let rendered := render_entry entry_number_offset index e in
                       (rendered, approx_token_count rendered)) entries.

Definition user_indices (entries : list ConversationTranscriptEntry) : list nat :=
  omap (fun '(index, e) => if is_user_entry e then Some index else None)
    (zip (seq 0 (length entries)) entries).

Record Selection := mkSelection {
  included : list bool;
  sel_message_tokens : N;
  sel_tool_tokens : N;
  retained_non_user : N;
}.

Definition include_message (index : nat) (tokens : N) (s : Selection) : Selection :=
  mkSelection (<[index := true]> (included s)) (sel_message_tokens s + tokens)%N (sel_tool_tokens s)
    (retained_non_user s).

Definition fits_message (tokens : N) (s : Selection) : bool :=
  (sel_message_tokens s + tokens <=? max_message_transcript_tokens GUARDIAN_TRANSCRIPT_RETENTION)%N.

(** An index out of range panics. *)
Definition select_first_user (rendered : list (str * N)) (users : list nat) (s : Selection)
    : option Selection :=
  match head users with
  | Some first_user_index =>
      '(_, tokens) ← rendered !! first_user_index;
      Some (include_message first_user_index tokens s)
  | None => Some s
  end.

(** A user entry is added if it is not there yet and fits. *)
Definition select_user (rendered : list (str * N)) (index : nat) (s : Selection) : option Selection :=
  inc ← included s !! index;
  if (inc : bool) then Some s
  else
    '(_, tokens) ← rendered !! index;
    Some (if fits_message tokens s then include_message index tokens s else s).

Definition select_last_user (rendered : list (str * N)) (users : list nat) (s : Selection)
    : option Selection :=
  match last users with
  | Some last_user_index => select_user rendered last_user_index s
  | None => Some s
  end.

Fixpoint select_users (rendered : list (str * N)) (indices : list nat) (s : Selection)
    : option Selection :=
  match indices with
  | [] => Some s
  | index :: indices' => s' ← select_user rendered index s; select_users rendered indices' s'
  end.

Definition select_non_user (entries : list ConversationTranscriptEntry) (rendered : list (str * N))
    (index : nat) (s : Selection) : option Selection :=
  e ← entries !! index;
  if is_user_entry e
     || (max_recent_non_user_entries GUARDIAN_TRANSCRIPT_RETENTION <=? retained_non_user s)%N
  then Some s
  else
    '(_, tokens) ← rendered !! index;
    let within_budget :=
      if is_tool_entry e
      then (sel_tool_tokens s + tokens
            <=? max_tool_transcript_tokens GUARDIAN_TRANSCRIPT_RETENTION)%N
      else fits_message tokens s in
    if negb within_budget then Some s
    else
      Some (mkSelection (<[index := true]> (included s))
              (if is_tool_entry e then sel_message_tokens s else sel_message_tokens s + tokens)%N
              (if is_tool_entry e then sel_tool_tokens s + tokens else sel_tool_tokens s)%N
              (retained_non_user s + 1)%N).

Fixpoint select_non_users (entries : list ConversationTranscriptEntry) (rendered : list (str * N))
    (indices : list nat) (s : Selection) : option Selection :=
  match indices with
  | [] => Some s
  | index :: indices' =>
      s' ← select_non_user entries rendered index s; select_non_users entries rendered indices' s'
  end.

Definition select_entries (entries : list ConversationTranscriptEntry) (rendered : list (str * N))
    : option Selection :=
  let users := user_indices entries in
  let s := mkSelection (replicate (length entries) false) 0 0 0 in
  s ← select_first_user rendered users s;
  s ← select_last_user rendered users s;
  s ← select_users rendered (rev users) s;
  select_non_users entries rendered (rev (seq 0 (length entries))) s.

Definition omission_note : str := lit "Some conversation entries were omitted.".

(** [filter(|(index, _)| included[*index])] *)
Definition included_text (inc : list bool) (rendered : list (str * N)) : list str :=
  omap (fun '(b, (text, _)) => if (b : bool) then Some text else None) (zip inc rendered).

Definition render_guardian_transcript_entries_with_offset
    (entries : list ConversationTranscriptEntry) (entry_number_offset : nat) (empty_placeholder : str)
    : option (list str * option str) :=
  if is_nil entries then Some ([empty_placeholder], None)
  else
    let rendered := rendered_entries entry_number_offset entries in
    s ← select_entries entries rendered;
    Some (included_text (included s) rendered,
          if existsb negb (included s) then Some omission_note else None).

(** ** The request *)

Record GuardianTranscriptCursor := mkCursor {
  parent_history_version : N;
  transcript_entry_count : nat;
}.

Inductive GuardianPromptMode := ModeFull | ModeDelta (cursor : GuardianTranscriptCursor).
Inductive GuardianPromptShape := ShapeFull | ShapeDelta (already_seen_entry_count : nat).

Definition prompt_shape (mode : GuardianPromptMode) (transcript_cursor : GuardianTranscriptCursor)
    : GuardianPromptShape :=
  match mode with
  | ModeFull => ShapeFull
  | ModeDelta cursor =>
      if (parent_history_version cursor =? parent_history_version transcript_cursor)%N
         && (transcript_entry_count cursor <=? transcript_entry_count transcript_cursor)
      then ShapeDelta (transcript_entry_count cursor)
      else ShapeFull
  end.

Definition render_shape (shape : GuardianPromptShape)
    (transcript_entries : list ConversationTranscriptEntry) : option (list str * option str) :=
  match shape with
  | ShapeFull =>
      render_guardian_transcript_entries_with_offset transcript_entries 0
        (lit "<no retained transcript entries>")
  | ShapeDelta already_seen_entry_count =>
      if already_seen_entry_count <=? length transcript_entries then
        render_guardian_transcript_entries_with_offset
          (drop already_seen_entry_count transcript_entries) already_seen_entry_count
          (lit "<no retained transcript delta entries>")
      else None
  end.

(** [guardian_truncate_text] of this file: the text and whether it was cut. *)
Definition guardian_truncate_text_flag (content : str) (token_cap : N) : option (str * bool) :=
  text ← guardian_truncate_text content token_cap;
  Some (text, (approx_bytes_for_tokens token_cap <? len content)%N).

Section prompt.
Context {json : SerdeJson} {parsers : FragmentParsers} {actions : ActionEncoding}.

Definition default_transcript_options : ConversationTranscriptOptions :=
  mkTranscriptOptions true true false.

Definition guardian_transcript_config (node_repl_result_token_limit : N)
    : ConversationTranscriptConfig :=
  mkTranscriptConfig default_transcript_options
    (mkLimits GUARDIAN_MAX_MESSAGE_ENTRY_TOKENS GUARDIAN_MAX_TOOL_ENTRY_TOKENS
       node_repl_result_token_limit).

(** [FilteredGuardianHistory::items] *)
Definition filtered_items (items : list ResponseItem) : list ResponseItem :=
  List.filter (fun i => negb (is_contextual_user_message i)) items.

Definition collect_guardian_transcript_entries (history : list ResponseItem)
    (node_repl_result_token_limit : N) : option (list ConversationTranscriptEntry) :=
  entries ← collect_transcript (filtered_items history)
              (guardian_transcript_config node_repl_result_token_limit);
  Some (List.filter (fun e => negb (is_reasoning_entry e)) entries).

Context {enc : ReviewEncoding} {measures : ItemMeasures} {turn : TurnTypes}.

(** The transcript of a request on a history: its text, its omission note, and
    the cursor for the next request. *)
Definition guardian_transcript (m : ContextManager) (node_repl_result_token_limit : N)
    (mode : GuardianPromptMode) : option (list str * option str * GuardianTranscriptCursor) :=
  entries ← collect_guardian_transcript_entries (review_items m) node_repl_result_token_limit;
  let cursor := mkCursor (review_history_version m) (length entries) in
  '(text, note) ← render_shape (prompt_shape mode cursor) entries;
  Some (text, note, cursor).

End prompt.

(** ** The answer *)

Inductive GuardianRiskLevel := RiskLow | RiskMedium | RiskHigh | RiskCritical.
Inductive GuardianUserAuthorization := AuthUnknown | AuthLow | AuthMedium | AuthHigh.
Inductive GuardianAssessmentOutcome := OutcomeAllow | OutcomeDeny.

Record GuardianAssessmentPayload := mkAssessmentPayload {
  pl_risk_level : option GuardianRiskLevel;
  pl_user_authorization : option GuardianUserAuthorization;
  pl_outcome : GuardianAssessmentOutcome;
  pl_rationale : option str;
}.

Record GuardianAssessment := mkAssessment {
  risk_level : GuardianRiskLevel;
  user_authorization : GuardianUserAuthorization;
  outcome : GuardianAssessmentOutcome;
  rationale : str;
}.

Definition ch_lbrace : char := 123%N.
Definition ch_rbrace : char := 125%N.

Definition default_rationale (o : GuardianAssessmentOutcome) : str :=
  match o with
  | OutcomeAllow => lit "Auto-review returned a low-risk allow decision."
  | OutcomeDeny => lit "Auto-review returned a deny decision without a rationale."
  end.

Definition assessment_of_payload (p : GuardianAssessmentPayload) : GuardianAssessment :=
  mkAssessment
    (default (match pl_outcome p with OutcomeAllow => RiskLow | OutcomeDeny => RiskHigh end)
       (pl_risk_level p))
    (default AuthUnknown (pl_user_authorization p))
    (pl_outcome p)
    (match pl_rationale p with
     | Some r => if bool_decide (trim r = []) then default_rationale (pl_outcome p) else r
     | None => default_rationale (pl_outcome p)
     end).

(** [None] for an error: no text, no payload, or a payload that does not
    decode.  [from_str] is the JSON decoder. *)
Definition parse_guardian_assessment (from_str : str -> option GuardianAssessmentPayload)
    (text : option str) : option GuardianAssessment :=
  text ← text;
  payload ← (match from_str text with
             | Some payload => Some payload
             | None =>
                 start ← position (N.eqb ch_lbrace) text;
                 last ← rposition (N.eqb ch_rbrace) text;
                 if start <? last then from_str (take (last + 1 - start) (drop start text)) else None
             end);
  Some (assessment_of_payload payload).

(** ** Sums over the included entries *)

Fixpoint incl_sum (ws : list N) (inc : list bool) : N :=
  match ws, inc with
  | w :: ws', b :: inc' => ((if b then w else 0) + incl_sum ws' inc')%N
  | _, _ => 0%N
  end.

Fixpoint sum_all (ws : list N) : N := match ws with [] => 0 | w :: ws' => w + sum_all ws' end%N.

Lemma incl_sum_insert ws inc i w : inc !! i = Some false -> ws !! i = Some w ->
  incl_sum ws (<[i := true]> inc) = (incl_sum ws inc + w)%N.
Proof.
  revert inc i; induction ws as [|x ws IH]; intros [|b inc] [|i]; simpl; try done.
  - intros [= ->] [= ->]. lia.
  - intros H1 H2. rewrite (IH _ _ H1 H2). lia.
Qed.

Lemma incl_sum_missing ws inc i w : inc !! i = Some false -> ws !! i = Some w ->
  (incl_sum ws inc + w <= sum_all ws)%N.
Proof.
  assert (Hle : forall ws inc, (incl_sum ws inc <= sum_all ws)%N).
  { clear. induction ws as [|x ws IH]; intros [|b inc]; simpl; try lia.
    specialize (IH inc). destruct b; lia. }
  revert inc i; induction ws as [|x ws IH]; intros [|b inc] [|i]; simpl; try done.
  - intros [= ->] [= ->]. specialize (Hle ws inc). lia.
  - intros H1 H2. specialize (IH _ _ H1 H2). destruct b; lia.
Qed.

Lemma incl_sum_none ws n : incl_sum ws (replicate n false) = 0%N.
Proof. revert n; induction ws as [|w ws IH]; intros [|n]; simpl; try done. apply IH. Qed.

Lemma elem_of_rev {A} (x : A) l : x ∈ rev l <-> x ∈ l.
Proof. by rewrite <- (Permutation_rev l). Qed.

#[local] Arguments max_message_transcript_tokens : simpl never.
#[local] Arguments max_tool_transcript_tokens : simpl never.
#[local] Arguments max_recent_non_user_entries : simpl never.

Section selection.
Variables (entries : list ConversationTranscriptEntry) (rendered : list (str * N)).
Hypothesis rendered_length : length rendered = length entries.

Definition weights (p : ConversationTranscriptEntry -> bool) : list N :=
  zip_with (fun e '(_, tokens) => if p e then tokens else 0%N) entries rendered.

Definition unit_weights (p : ConversationTranscriptEntry -> bool) : list N :=
  map (fun e => if p e then 1%N else 0%N) entries.

Notation is_message := (fun e => negb (is_tool_entry e)).
Notation is_other := (fun e => negb (is_user_entry e)).

(** The counters are the totals of the included entries. *)
Record selection_ok (s : Selection) : Prop := {
  ok_length : length (included s) = length entries;
  ok_message : sel_message_tokens s = incl_sum (weights is_message) (included s);
  ok_tool : sel_tool_tokens s = incl_sum (weights is_tool_entry) (included s);
  ok_retained : retained_non_user s = incl_sum (unit_weights is_other) (included s);
}.

Lemma weights_lookup p i e text tokens :
  entries !! i = Some e -> rendered !! i = Some (text, tokens) ->
  weights p !! i = Some (if p e then tokens else 0%N).
Proof. intros He Hr. unfold weights. by rewrite lookup_zip_with, He, Hr. Qed.

Lemma unit_weights_lookup p i e : entries !! i = Some e ->
  unit_weights p !! i = Some (if p e then 1%N else 0%N).
Proof. intros He. unfold unit_weights. by rewrite list_lookup_fmap, He. Qed.

(** Including an entry adds its tokens to the counter of its kind. *)
Lemma selection_ok_include s i e text tokens :
  selection_ok s -> entries !! i = Some e -> rendered !! i = Some (text, tokens) ->
  included s !! i = Some false ->
  selection_ok
    (mkSelection (<[i := true]> (included s))
       (if is_tool_entry e then sel_message_tokens s else sel_message_tokens s + tokens)%N
       (if is_tool_entry e then sel_tool_tokens s + tokens else sel_tool_tokens s)%N
       (if is_user_entry e then retained_non_user s else retained_non_user s + 1)%N).
Proof.
  intros [Hl Hm Ht Hn] He Hr Hi. split; simpl.
  - by rewrite length_insert.
  - rewrite (incl_sum_insert _ _ _ _ Hi (weights_lookup _ _ _ _ _ He Hr)), Hm.
    destruct (is_tool_entry e); simpl; lia.
  - rewrite (incl_sum_insert _ _ _ _ Hi (weights_lookup _ _ _ _ _ He Hr)), Ht.
    destruct (is_tool_entry e); simpl; lia.
  - rewrite (incl_sum_insert _ _ _ _ Hi (unit_weights_lookup _ _ _ He)), Hn.
    destruct (is_user_entry e); simpl; lia.
Qed.

Lemma user_not_tool e : is_user_entry e = true -> is_tool_entry e = false.
Proof. unfold is_user_entry, is_tool_entry. by destruct (entry_kind e). Qed.

Lemma entry_lookup i : i < length entries ->
  exists e text tokens, entries !! i = Some e /\ rendered !! i = Some (text, tokens).
Proof.
  intros Hi. destruct (lookup_lt_is_Some_2 entries i Hi) as [e He].
  destruct (lookup_lt_is_Some_2 rendered i) as [[text tokens] Hr]; [lia|]. eauto.
Qed.

Lemma user_indices_spec i :
  i ∈ user_indices entries <-> exists e, entries !! i = Some e /\ is_user_entry e = true.
Proof.
  unfold user_indices. rewrite list_elem_of_omap. split.
  - intros ([j e] & Hin & Hu). destruct (is_user_entry e) eqn:E; [|done]. injection Hu as ->.
    apply list_elem_of_lookup in Hin as (k & Hk). rewrite lookup_zip_with in Hk.
    destruct (seq 0 (length entries) !! k) as [j|] eqn:Es; [|done]. simpl in Hk.
    destruct (entries !! k) as [e'|] eqn:Ee; [|done]. injection Hk as -> ->.
    apply lookup_seq in Es as [-> _]. eauto.
  - intros (e & He & Hu). exists (i, e). rewrite Hu. split; [|done].
    apply list_elem_of_lookup. exists i. rewrite lookup_zip_with.
    rewrite lookup_seq_lt by (by eapply lookup_lt_Some). simpl. by rewrite He.
Qed.

(** One step of the selection: a state that stays correct, keeps what is
    included, and stays within the bounds [mb] for messages. *)
Definition grows (s s' : Selection) : Prop :=
  forall i, included s !! i = Some true -> included s' !! i = Some true.

Lemma grows_insert s i a b c : grows s (mkSelection (<[i := true]> (included s)) a b c).
Proof.
  intros j Hj. simpl. destruct (decide (i = j)) as [->|]; [|by rewrite list_lookup_insert_ne].
  apply list_lookup_insert_eq. by eapply lookup_lt_Some.
Qed.

Instance grows_preorder : PreOrder grows.
Proof. split; [by intros s i|]. intros s1 s2 s3 H1 H2 i Hi. by apply H2, H1. Qed.

(** While only user entries are selected. *)
Record user_phase (s : Selection) : Prop := {
  up_ok : selection_ok s;
  up_users : sel_message_tokens s = incl_sum (weights is_user_entry) (included s);
  up_tool : sel_tool_tokens s = 0%N;
  up_retained : retained_non_user s = 0%N;
  up_only : forall i, included s !! i = Some true -> i ∈ user_indices entries;
}.

Notation message_max := (max_message_transcript_tokens GUARDIAN_TRANSCRIPT_RETENTION).

Lemma user_phase_include s i text tokens :
  user_phase s -> i ∈ user_indices entries -> rendered !! i = Some (text, tokens) ->
  included s !! i = Some false -> user_phase (include_message i tokens s).
Proof.
  intros [Hok Hu Ht Hn Ho] Hi Hr Hf. apply user_indices_spec in Hi as He. destruct He as (e & He & Hue).
  pose proof (selection_ok_include s i e text tokens Hok He Hr Hf) as Hok'.
  rewrite Hue, (user_not_tool e Hue) in Hok'. split; try done.
  - unfold include_message. simpl.
    by rewrite (incl_sum_insert _ _ _ _ Hf (weights_lookup _ _ _ _ _ He Hr)), Hue, Hu.
  - intros j. simpl. destruct (decide (i = j)) as [->|]; [done|].
    rewrite list_lookup_insert_ne by done. apply Ho.
Qed.

Lemma user_index_lookup s i : user_phase s -> i ∈ user_indices entries ->
  exists b text tokens, included s !! i = Some b /\ rendered !! i = Some (text, tokens)
    /\ weights is_user_entry !! i = Some tokens.
Proof.
  intros Hs Hi. apply user_indices_spec in Hi as (e & He & Hu).
  pose proof (lookup_lt_Some _ _ _ He) as Hlt.
  destruct (entry_lookup i Hlt) as (e' & text & tokens & He' & Hr).
  destruct (lookup_lt_is_Some_2 (included s) i) as [b Hb].
  { by rewrite (ok_length _ (up_ok _ Hs)). }
  exists b, text, tokens. split_and!; [done|done|].
  by rewrite (weights_lookup _ _ _ _ _ He Hr), Hu.
Qed.

Lemma select_user_spec s i : user_phase s -> i ∈ user_indices entries ->
  exists s', select_user rendered i s = Some s' /\ user_phase s' /\ grows s s'
  /\ (sel_message_tokens s' <= N.max (sel_message_tokens s) message_max)%N
  /\ ((sum_all (weights is_user_entry) <= message_max)%N -> included s' !! i = Some true).
Proof.
  intros Hs Hi. destruct (user_index_lookup s i Hs Hi) as (b & text & tokens & Hb & Hr & Hw).
  unfold select_user. rewrite Hb. simpl. destruct b.
  { exists s. split_and!; try done. lia. }
  rewrite Hr. simpl. unfold fits_message. destruct (N.leb_spec (sel_message_tokens s + tokens) message_max).
  - eexists. split; [done|]. split; [by eapply user_phase_include|].
    split; [apply grows_insert|]. split; [simpl in *; lia|]. intros _. simpl.
    apply list_lookup_insert_eq. by eapply lookup_lt_Some.
  - exists s. split_and!; try done; [lia|]. intros Hfit.
    pose proof (incl_sum_missing _ _ _ _ Hb Hw). pose proof (up_users _ Hs). simpl in *. lia.
Qed.

Lemma select_users_spec js s : user_phase s -> js ⊆ user_indices entries ->
  exists s', select_users rendered js s = Some s' /\ user_phase s' /\ grows s s'
  /\ (sel_message_tokens s' <= N.max (sel_message_tokens s) message_max)%N
  /\ ((sum_all (weights is_user_entry) <= message_max)%N ->
      forall i, i ∈ js -> included s' !! i = Some true).
Proof.
  revert s; induction js as [|i js IH]; intros s Hs Hin; simpl.
  { exists s. split_and!; try done; [lia|]. set_solver. }
  destruct (select_user_spec s i Hs) as (s1 & -> & H1 & Hg1 & Hm1 & Hi1); [set_solver|]. simpl.
  destruct (IH s1 H1) as (s2 & -> & H2 & Hg2 & Hm2 & Hi2); [set_solver|].
  exists s2. split_and!; try done; [by etrans|lia|].
  intros Hfit j [->|Hj]%elem_of_cons; [by apply Hg2, Hi1|by apply Hi2].
Qed.

(** ** The other entries *)

Record bounded (mb : N) (s : Selection) : Prop := {
  bd_ok : selection_ok s;
  bd_message : (sel_message_tokens s <= mb)%N;
  bd_tool : (sel_tool_tokens s <= max_tool_transcript_tokens GUARDIAN_TRANSCRIPT_RETENTION)%N;
  bd_retained : (retained_non_user s <= max_recent_non_user_entries GUARDIAN_TRANSCRIPT_RETENTION)%N;
}.

Lemma select_non_user_spec mb s i e :
  bounded mb s -> (message_max <= mb)%N -> entries !! i = Some e ->
  (is_user_entry e = false -> included s !! i = Some false) ->
  exists s', select_non_user entries rendered i s = Some s' /\ bounded mb s' /\ grows s s'
  /\ forall j, j <> i -> included s' !! j = included s !! j.
Proof.
  intros Hs Hmb He Hf. unfold select_non_user. rewrite He. simpl.
  destruct (is_user_entry e) eqn:Eu; simpl; [by exists s|].
  destruct (N.leb_spec (max_recent_non_user_entries GUARDIAN_TRANSCRIPT_RETENTION)
              (retained_non_user s)) as [|Hret]; [by exists s|].
  destruct (entry_lookup i) as (e' & text & tokens & _ & Hr); [by eapply lookup_lt_Some|].
  rewrite Hr. simpl. destruct (if is_tool_entry e then _ else _) eqn:Ew; simpl; [|by exists s].
  eexists. split; [done|]. split_and!.
  - pose proof (selection_ok_include s i e text tokens (bd_ok _ _ Hs) He Hr (Hf eq_refl)) as Hok.
    rewrite Eu in Hok. destruct Hs as [_ H1 H2 H3]. revert Hok Ew. unfold fits_message.
    destruct (is_tool_entry e); intros Hok Ew%N.leb_le; split; simpl in *; try done; lia.
  - apply grows_insert.
  - intros j Hj. simpl. by rewrite list_lookup_insert_ne.
Qed.

Lemma select_non_users_spec mb js s :
  bounded mb s -> (message_max <= mb)%N -> NoDup js ->
  (forall i, i ∈ js -> exists e, entries !! i = Some e
     /\ (is_user_entry e = false -> included s !! i = Some false)) ->
  exists s', select_non_users entries rendered js s = Some s' /\ bounded mb s' /\ grows s s'.
Proof.
  intros Hs Hmb Hnd. revert s Hs; induction Hnd as [|i js Hi Hnd IH]; intros s Hs Hf; simpl.
  { by exists s. }
  destruct (Hf i) as (e & He & Hfe); [left|].
  destruct (select_non_user_spec mb s i e Hs Hmb He Hfe) as (s1 & -> & H1 & Hg1 & Hj). simpl.
  destruct (IH s1 H1) as (s2 & -> & H2 & Hg2).
  { intros j Hjin. destruct (Hf j) as (e' & He' & Hfe'); [by right|]. exists e'. split; [done|].
    rewrite Hj by (by intros ->). done. }
  exists s2. split_and!; try done. by etrans.
Qed.

Lemma select_first_spec :
  let s0 := mkSelection (replicate (length entries) false) 0 0 0 in
  exists s, select_first_user rendered (user_indices entries) s0 = Some s /\ user_phase s
  /\ (forall i, head (user_indices entries) = Some i ->
        included s !! i = Some true
        /\ exists text, rendered !! i = Some (text, sel_message_tokens s))
  /\ (user_indices entries = [] -> sel_message_tokens s = 0%N).
Proof.
  intros s0. assert (H0 : user_phase s0).
  { split; simpl; try done; [split; simpl; try done|..]; rewrite ?length_replicate, ?incl_sum_none; try done.
    intros i Hi. apply lookup_replicate in Hi as [? _]. done. }
  unfold select_first_user. destruct (user_indices entries) as [|i js] eqn:E; simpl; [by exists s0|].
  assert (Hi : i ∈ user_indices entries) by (rewrite E; left).
  destruct (user_index_lookup s0 i H0 Hi) as (b & text & tokens & Hb & Hr & _).
  simpl in Hb. apply lookup_replicate in Hb as [-> Hlt]. rewrite Hr. simpl.
  eexists. split; [done|]. split_and!; [|intros ? [= <-]|done].
  - eapply user_phase_include; try done. by apply lookup_replicate.
  - simpl. split; [apply list_lookup_insert_eq; by rewrite length_replicate|]. by exists text.
Qed.

(** What the selection guarantees. *)
Lemma select_entries_spec :
  exists s, select_entries entries rendered = Some s
  /\ bounded (N.max message_max
                (match head (user_indices entries) with
                 | Some i => default 0%N (snd <$> rendered !! i)
                 | None => 0%N
                 end)) s
  /\ (forall i, head (user_indices entries) = Some i -> included s !! i = Some true)
  /\ ((sum_all (weights is_user_entry) <= message_max)%N ->
      forall i, i ∈ user_indices entries -> included s !! i = Some true).
Proof.
  unfold select_entries. destruct select_first_spec as (s1 & -> & H1 & Hfirst & Hnone). simpl.
  assert (exists s2, select_last_user rendered (user_indices entries) s1 = Some s2 /\ user_phase s2
    /\ grows s1 s2 /\ (sel_message_tokens s2 <= N.max (sel_message_tokens s1) message_max)%N)
    as (s2 & -> & H2 & Hg2 & Hm2).
  { unfold select_last_user. destruct (last (user_indices entries)) as [i|] eqn:E.
    - destruct (select_user_spec s1 i H1) as (s2 & ? & ? & ? & ? & _); [|by exists s2].
      apply last_Some in E as (l & ->). set_solver.
    - exists s1. split_and!; try done. lia. }
  simpl. destruct (select_users_spec (rev (user_indices entries)) s2 H2) as (s3 & -> & H3 & Hg3 & Hm3 & Hi3).
  { intros i Hi. by rewrite elem_of_rev in Hi. }
  simpl. destruct (select_non_users_spec
    (N.max message_max (match head (user_indices entries) with
                        | Some i => default 0%N (snd <$> rendered !! i)
                        | None => 0%N
                        end)) (rev (seq 0 (length entries))) s3) as (s4 & -> & H4 & Hg4).
  - destruct H3 as [Hok _ Ht Hn _]. split; [done| |rewrite Ht; lia|rewrite Hn; lia].
    destruct (user_indices entries) as [|i js]; simpl.
    + rewrite Hnone in * by done. lia.
    + destruct (Hfirst i eq_refl) as (_ & text & ->). simpl. lia.
  - lia.
  - rewrite <- (Permutation_rev (seq 0 (length entries))). apply NoDup_seq.
  - intros i Hi. rewrite elem_of_rev, elem_of_seq in Hi.
    destruct (entry_lookup i) as (e & text & tokens & He & _); [lia|]. exists e. split; [done|].
    intros Hu. destruct (lookup_lt_is_Some_2 (included s3) i) as [[|] Hb]; try done.
    { rewrite (ok_length _ (up_ok _ H3)). lia. }
    apply (up_only _ H3), user_indices_spec in Hb as (e' & He' & Hu'). congruence.
  - exists s4. split_and!; try done.
    + intros i Hi. apply Hg4, Hg3, Hg2. by apply Hfirst.
    + intros Hfit i Hi. apply Hg4. apply Hi3; [done|]. by rewrite elem_of_rev.
Qed.

End selection.

Lemma transcript_retention_total entries offset placeholder :
  exists text note,
  render_guardian_transcript_entries_with_offset entries offset placeholder = Some (text, note).
Proof.
  unfold render_guardian_transcript_entries_with_offset. destruct (is_nil entries); [eauto|].
  destruct (select_entries_spec entries (rendered_entries offset entries)) as (s & -> & _).
  { apply length_imap. }
  simpl. eauto.
Qed.

(** C27: a rendered transcript keeps the entries in order, each with its number
    in the whole transcript.  The first user entry is always kept, and every
    user entry when together they fit; the tool entries stay within their own
    budget, at most forty entries are not the user's, and the messages exceed
    their budget only when the first user entry does alone.  The omission note
    is there exactly when an entry is missing. *)
Theorem transcript_retention entries offset placeholder :
  exists text note,
  render_guardian_transcript_entries_with_offset entries offset placeholder = Some (text, note)
  /\ (entries = [] -> text = [placeholder] /\ note = None)
  /\ (entries <> [] ->
      let rendered := rendered_entries offset entries in
      let tokens := weights entries rendered in
      let first_user := head (user_indices entries) in
      exists keep, length keep = length entries /\ text = included_text keep rendered
      /\ (note = None <-> Forall (fun b => b = true) keep)
      /\ (forall i, first_user = Some i -> keep !! i = Some true)
      /\ ((sum_all (tokens is_user_entry) <= 20000)%N ->
          forall i, i ∈ user_indices entries -> keep !! i = Some true)
      /\ (incl_sum (tokens (fun e => negb (is_tool_entry e))) keep
          <= N.max 20000 (match first_user with
                          | Some i => default 0%N (snd <$> rendered !! i)
                          | None => 0%N
                          end))%N
      /\ (incl_sum (tokens is_tool_entry) keep <= 10000)%N
      /\ (incl_sum (unit_weights entries (fun e => negb (is_user_entry e))) keep <= 40)%N).
Proof.
  unfold render_guardian_transcript_entries_with_offset.
  destruct entries as [|e0 l] eqn:El; [by exists [placeholder], None|]. rewrite <- El.
  replace (is_nil entries) with false by (by subst).
  destruct (select_entries_spec entries (rendered_entries offset entries)) as (s & -> & Hb & Hf & Hu).
  { apply length_imap. }
  simpl. eexists _, _. split; [done|]. split; [by subst|]. intros _.
  exists (included s). destruct Hb as [[Hl Hm Ht Hn] Hbm Hbt Hbr].
  split_and!; try done; try (by rewrite <- ?Hm, <- ?Ht, <- ?Hn).
  destruct (existsb negb (included s)) eqn:E.
  - split; [done|]. intros Hall. apply existsb_exists in E as (b & Hin & Hbn).
    apply list_elem_of_In in Hin. apply (proj1 (Forall_forall _ _) Hall) in Hin. by subst.
  - split; [|done]. intros _. apply Forall_forall. intros b Hb. destruct b; [done|].
    assert (existsb negb (included s) = true); [|congruence].
    apply existsb_exists. exists false. split; [by apply list_elem_of_In|done].
Qed.

(** ** Requests on a growing history *)

Section delta.
Context {json : SerdeJson} {parsers : FragmentParsers} {actions : ActionEncoding}.

Lemma collect_loop_app config names l1 l2 :
  exists e1 e2, collect_loop config names l1 = Some e1
  /\ collect_loop config names (l1 ++ l2) = Some (e1 ++ e2).
Proof.
  revert names; induction l1 as [|i l1 IH]; intros names; simpl.
  - destruct (collect_loop config names l2) as [e2|] eqn:E; [by exists [], e2|].
    exfalso. revert names E. induction l2 as [|i l2 IH]; intros names; simpl; [done|].
    destruct (item_entry _ _ _) as [[kind text]|]; [|apply IH]. case_bool_decide; [apply IH|].
    destruct (guardian_truncate_total text (token_cap (entry_limits config) kind)) as (out & ->). simpl.
    destruct (collect_loop config _ l2) eqn:E; [done|]. by apply IH in E.
  - destruct (IH (record_name names i)) as (e1 & e2 & H1 & H2). rewrite H1, H2.
    destruct (item_entry _ _ _) as [[kind text]|]; [|by exists e1, e2]. case_bool_decide; [by exists e1, e2|].
    destruct (guardian_truncate_total text (token_cap (entry_limits config) kind)) as (out & ->). simpl.
    by eexists (_ :: e1), e2.
Qed.

(** The caps do not change which entries there are. *)
Lemma collect_loop_kinds options limits limits' names l e e' :
  collect_loop (mkTranscriptConfig options limits) names l = Some e ->
  collect_loop (mkTranscriptConfig options limits') names l = Some e' ->
  map entry_kind e = map entry_kind e'.
Proof.
  revert names e e'; induction l as [|i l IH]; intros names e e'; simpl; [by intros [= <-] [= <-]|].
  destruct (item_entry _ _ _) as [[kind text]|]; [|apply IH]. case_bool_decide; [apply IH|].
  destruct (guardian_truncate_text text (token_cap limits kind)); simpl; [|done].
  destruct (guardian_truncate_text text (token_cap limits' kind)); simpl; [|done].
  destruct (collect_loop (mkTranscriptConfig options limits) _ l) eqn:E1; simpl; [|done].
  destruct (collect_loop (mkTranscriptConfig options limits') _ l) eqn:E2; simpl; [|done].
  intros [= <-] [= <-]. simpl. f_equal. by eapply IH.
Qed.

Lemma filter_reasoning_kinds e e' : map entry_kind e = map entry_kind e' ->
  map entry_kind (List.filter (fun e => negb (is_reasoning_entry e)) e)
  = map entry_kind (List.filter (fun e => negb (is_reasoning_entry e)) e').
Proof.
  revert e'; induction e as [|x e IH]; intros [|y e']; simpl; try done. intros [= Hk He].
  assert (is_reasoning_entry x = is_reasoning_entry y) as -> by (unfold is_reasoning_entry; by rewrite Hk).
  specialize (IH _ He). destruct (is_reasoning_entry y); simpl; congruence.
Qed.

Lemma collect_entries_prefix items items' limit : items `prefix_of` items' ->
  exists e delta, collect_guardian_transcript_entries items limit = Some e
  /\ collect_guardian_transcript_entries items' limit = Some (e ++ delta).
Proof.
  intros [more ->]. unfold collect_guardian_transcript_entries, collect_transcript, filtered_items.
  rewrite List.filter_app.
  destruct (collect_loop_app (guardian_transcript_config limit) ∅
              (List.filter (fun i => negb (is_contextual_user_message i)) items)
              (List.filter (fun i => negb (is_contextual_user_message i)) more)) as (e1 & e2 & -> & ->).
  simpl. rewrite List.filter_app. eauto.
Qed.

Lemma collect_entries_kinds items limit limit' e e' :
  collect_guardian_transcript_entries items limit = Some e ->
  collect_guardian_transcript_entries items limit' = Some e' ->
  map entry_kind e = map entry_kind e'.
Proof.
  unfold collect_guardian_transcript_entries, collect_transcript, guardian_transcript_config.
  destruct (collect_loop _ _ _) eqn:E1; simpl; [|done]. intros [= <-].
  destruct (collect_loop (mkTranscriptConfig _ (mkLimits _ _ limit')) _ _) eqn:E2; simpl; [|done].
  intros [= <-]. apply filter_reasoning_kinds. by eapply collect_loop_kinds.
Qed.

Context {enc : ReviewEncoding} {measures : ItemMeasures} {turn : TurnTypes}.

(** C28: a follow-up review is complete.  Let a history reach [m], be reviewed,
    and later reach [m'] by any records, replacements, compactions and
    rollbacks.  Asked for the changes since that review, the request shows
    either the whole transcript or exactly the entries after those the reviewer
    has seen, which are still the first entries of the transcript, with the
    same kinds (only a tool result may be cut at another length); and it shows
    the changes whenever the review version is the same.  [m'] is assumed not
    to have exhausted the 64-bit version. *)
Theorem delta_review_is_complete ops ops' m m' limit limit' text note cursor :
  run_ops ops manager_new = Some m -> run_ops ops' m = Some m' ->
  (review_history_version m' < usize_max)%N ->
  guardian_transcript m limit ModeFull = Some (text, note, cursor) ->
  exists seen delta cursor',
    collect_guardian_transcript_entries (review_items m') limit' = Some (seen ++ delta)
    /\ transcript_entry_count cursor' = length (seen ++ delta)
    /\ parent_history_version cursor' = review_history_version m'
    /\ (if (review_history_version m =? review_history_version m')%N
        then prompt_shape (ModeDelta cursor) cursor' = ShapeDelta (length seen)
             /\ (exists e, collect_guardian_transcript_entries (review_items m) limit = Some e
                  /\ map entry_kind seen = map entry_kind e)
             /\ exists text' note', guardian_transcript m' limit' (ModeDelta cursor)
                  = Some (text', note', cursor')
                /\ render_guardian_transcript_entries_with_offset delta (length seen)
                     (lit "<no retained transcript delta entries>") = Some (text', note')
        else seen = []
             /\ guardian_transcript m' limit' (ModeDelta cursor)
                = guardian_transcript m' limit' ModeFull).
Proof.
  intros Hm Hm' Hv Hg. unfold guardian_transcript in Hg.
  destruct (collect_guardian_transcript_entries (review_items m) limit) as [e|] eqn:Ee; simpl in Hg; [|done].
  destruct (render_guardian_transcript_entries_with_offset e 0 _) as [[t n]|] in Hg; simpl in Hg; [|done].
  injection Hg as <- <- <-. simpl.
  assert (Hc0 : counters_ok manager_new) by (split; [vm_compute|]; done).
  destruct (run_ops_extends _ _ _ Hc0 Hm) as [Hc _].
  destruct (run_ops_extends _ _ _ Hc Hm') as [_ [_ Hext]].
  destruct (N.eqb_spec (review_history_version m) (review_history_version m')) as [Heq|Hne].
  - destruct (collect_entries_prefix _ _ limit' (Hext Hv Heq)) as (seen & delta & Hs & Hd).
    pose proof (collect_entries_kinds _ _ _ _ _ Hs Ee) as Hk.
    assert (Hlen : length seen = length e) by (by rewrite <- (length_map entry_kind), Hk, length_map).
    exists seen, delta, (mkCursor (review_history_version m') (length (seen ++ delta))).
    assert (Hshape : prompt_shape (ModeDelta (mkCursor (review_history_version m) (length e)))
        (mkCursor (review_history_version m') (length (seen ++ delta))) = ShapeDelta (length seen)).
    { simpl. rewrite Heq, N.eqb_refl, length_app, <- Hlen.
      by rewrite (proj2 (Nat.leb_le _ _)) by lia. }
    split_and!; try done; [by exists e|].
    destruct (transcript_retention_total delta (length seen) (lit "<no retained transcript delta entries>"))
      as (text & note & Hr).
    exists text, note. split; [|done]. unfold guardian_transcript. rewrite Hd.
    cbn [mbind option_bind]. rewrite Hshape. unfold render_shape.
    rewrite (proj2 (Nat.leb_le _ _)) by (rewrite length_app; lia).
    rewrite drop_app_length. by rewrite Hr.
  - destruct (collect_entries_prefix (review_items m') _ limit' (reflexivity _)) as (all & delta & Hs & _).
    exists [], all, (mkCursor (review_history_version m') (length all)). split_and!; try done.
    unfold guardian_transcript. rewrite Hs. simpl.
    by rewrite (proj2 (N.eqb_neq _ _) Hne).
Qed.

End delta.

(** ** Reading the answer *)

Lemma position_app_first {A} (f : A -> bool) pre x l :
  (forall y, y ∈ pre -> f y = false) -> f x = true -> position f (pre ++ x :: l) = Some (length pre).
Proof.
  intros Hp Hx. induction pre as [|y pre IH]; simpl; [by rewrite Hx|].
  rewrite Hp by (by left). rewrite IH; [done|]. intros z Hz. apply Hp. by right.
Qed.

Lemma rposition_app_last {A} (f : A -> bool) pre x l :
  (forall y, y ∈ l -> f y = false) -> f x = true -> rposition f (pre ++ x :: l) = Some (length pre).
Proof.
  intros Hl Hx. induction pre as [|y pre IH]; simpl; [|by rewrite IH].
  assert (rposition f l = None) as ->; [|by rewrite Hx].
  induction l as [|z l IH]; simpl; [done|]. rewrite IH, Hl; [done|by left|].
  intros w Hw. apply Hl. by right.
Qed.

Lemma not_elem_eqb (c : char) (l : str) : c ∉ l -> forall y, y ∈ l -> N.eqb c y = false.
Proof. intros Hc y Hy. apply N.eqb_neq. by intros ->. Qed.

(** An answer wrapped in prose is read as the JSON object inside it: text
    before it without an opening brace and after it without a closing brace is
    ignored.  The outcome is the object's; a missing risk level is low for an
    allow and high for a deny, a missing authorization is unknown, and the
    rationale is never blank. *)
Theorem assessment_ignores_prose from_str (pre body post : str) :
  ch_lbrace ∉ pre -> ch_rbrace ∉ post ->
  let json := [ch_lbrace] ++ body ++ [ch_rbrace] in
  from_str (pre ++ json ++ post) = None ->
  parse_guardian_assessment from_str (Some (pre ++ json ++ post))
  = (assessment_of_payload <$> from_str json)
  /\ forall p, let a := assessment_of_payload p in
       outcome a = pl_outcome p
       /\ (pl_risk_level p = None ->
           risk_level a = match pl_outcome p with OutcomeAllow => RiskLow | OutcomeDeny => RiskHigh end)
       /\ (pl_user_authorization p = None -> user_authorization a = AuthUnknown)
       /\ trim (rationale a) <> [].
Proof.
  intros Hpre Hpost json Hnone. split.
  - assert (Hs : position (N.eqb ch_lbrace) (pre ++ json ++ post) = Some (length pre)).
    { apply position_app_first; [by apply not_elem_eqb|done]. }
    assert (He : rposition (N.eqb ch_rbrace) (pre ++ json ++ post) = Some (length pre + S (length body))).
    { unfold json. replace (pre ++ ([ch_lbrace] ++ body ++ [ch_rbrace]) ++ post)
        with ((pre ++ ch_lbrace :: body) ++ ch_rbrace :: post) by (by simplify_list_eq).
      rewrite rposition_app_last; [|by apply not_elem_eqb|done]. by rewrite length_app. }
    assert (Hl : length json = length pre + S (length body) + 1 - length pre).
    { unfold json. rewrite !length_app. simpl. lia. }
    clearbody json. unfold parse_guardian_assessment. cbn [mbind option_bind].
    rewrite Hnone, Hs, He. cbn [mbind option_bind]. rewrite (proj2 (Nat.ltb_lt _ _)) by lia.
    rewrite drop_app_length, <- Hl, take_app_length. by destruct (from_str json).
  - intros [r u o t] a. split_and!; simpl; try done; try (by intros ->).
    destruct t as [t|]; [case_bool_decide; [|done]|]; by destruct o.
Qed.

(** ** Witnesses *)

Definition sample_actions : ActionEncoding :=
  {| encode_shell_action := fun _ => Some (lit "shell"); encode_web_search_action := fun _ => None |}.

#[local] Existing Instances sample_json sample_encoding sample_parsers sample_measures sample_turn
  sample_actions.

(** A review, then a compaction and another answer, then the next review. *)
Lemma delta_review_is_complete_witness :
  exists m m' text note cursor seen delta,
    run_ops [OpRecord [(sample_message (lit "user") (lit "go"), None)] (Bytes 100); OpCompact []]
      manager_new = Some m
    /\ run_ops [OpCompact []; OpRecord [(sample_message (lit "assistant") (lit "done"), None)] (Bytes 100)] m
       = Some m'
    /\ guardian_transcript m 1000 ModeFull = Some (text, note, cursor)
    /\ collect_guardian_transcript_entries (review_items m') 6000 = Some (seen ++ delta)
    /\ length seen + length delta = 2.
Proof.
  do 5 eexists.
  edestruct (delta_review_is_complete
    [OpRecord [(sample_message (lit "user") (lit "go"), None)] (Bytes 100); OpCompact []]
    [OpCompact []; OpRecord [(sample_message (lit "assistant") (lit "done"), None)] (Bytes 100)])
    with (limit := 1000%N) (limit' := 6000%N)
    as (seen & delta & cursor' & He & Hc & _);
    [vm_compute; reflexivity|vm_compute; reflexivity|vm_compute; reflexivity|vm_compute; reflexivity|].
  exists seen, delta. split; [vm_compute; reflexivity|]. split; [vm_compute; reflexivity|].
  split; [vm_compute; reflexivity|]. split; [exact He|].
  rewrite <- length_app. revert He. vm_compute. intros [= <-]. reflexivity.
Defined.

Lemma assessment_ignores_prose_witness :
  let from_str s := if bool_decide (s = lit "{x}") then
                      Some (mkAssessmentPayload None None OutcomeDeny None) else None in
  parse_guardian_assessment from_str (Some (lit "Answer: " ++ lit "{x}" ++ lit " ok"))
  = Some (mkAssessment RiskHigh AuthUnknown OutcomeDeny
            (lit "Auto-review returned a deny decision without a rationale.")).
Proof.
  intros from_str.
  destruct (assessment_ignores_prose from_str (lit "Answer: ") (lit "x") (lit " ok")) as [H _].
  - apply (bool_decide_unpack _). vm_compute. exact I.
  - apply (bool_decide_unpack _). vm_compute. exact I.
  - reflexivity.
  - exact H.
Defined.
