(* ===== verification/GuardianBreaker.v ===== *)
(** * core/guardian: the rejection circuit breaker

    [guardian/mod.rs]: denials of the reviewer are counted per turn, in a row
    and within a window; the turn is interrupted once.  The specification reads
    the log of a turn's reviews since the turn was last cleared. *)

From S2P Require Import Prelude RustStr.

Definition u32_max : N := 4294967295%N.

Definition MAX_CONSECUTIVE_CYBER_GUARDIAN_DENIALS_PER_TURN : N := 1%N.
Definition MAX_CONSECUTIVE_GUARDIAN_DENIALS_PER_TURN : N := 3%N.
Definition MAX_RECENT_CYBER_AUTO_REVIEW_DENIALS_PER_TURN : N := 1%N.
Definition MAX_RECENT_AUTO_REVIEW_DENIALS_PER_TURN : N := 10%N.
Definition AUTO_REVIEW_DENIAL_WINDOW_SIZE : nat := 50.

Record BreakerTurn := mkTurn {
  consecutive_denials : N;
  recent_denials : list bool;
  interrupt_triggered : bool;
}.

Definition default_turn : BreakerTurn := mkTurn 0 [] false.

(** [GuardianRejectionCircuitBreaker] *)
Notation CircuitBreaker := (gmap str BreakerTurn).

Inductive CircuitBreakerPolicy := Standard | CyberModel.

Inductive CircuitBreakerAction :=
| Continue
| InterruptTurn (consecutive recent : N).

Definition clear_turn (turn_id : str) (b : CircuitBreaker) : CircuitBreaker := delete turn_id b.

Definition record_recent_review (denied : bool) (turn : BreakerTurn) : BreakerTurn :=
  let recent := recent_denials turn ++ [denied] in
  mkTurn (consecutive_denials turn)
    (if AUTO_REVIEW_DENIAL_WINDOW_SIZE <? length recent then tail recent else recent)
    (interrupt_triggered turn).

Definition max_denials (policy : CircuitBreakerPolicy) : N * N :=
  match policy with
  | Standard => (MAX_CONSECUTIVE_GUARDIAN_DENIALS_PER_TURN, MAX_RECENT_AUTO_REVIEW_DENIALS_PER_TURN)
  | CyberModel =>
      (MAX_CONSECUTIVE_CYBER_GUARDIAN_DENIALS_PER_TURN, MAX_RECENT_CYBER_AUTO_REVIEW_DENIALS_PER_TURN)
  end.

(** [.filter(|denied| **denied).count() as u32] *)
Definition count_denied (l : list bool) : N := N.of_nat (length (List.filter (fun d => d) l)) `mod` 2 ^ 32.

Definition record_denial (turn_id : str) (policy : CircuitBreakerPolicy) (b : CircuitBreaker)
    : CircuitBreaker * CircuitBreakerAction :=
  let turn := default default_turn (b !! turn_id) in
  let turn := mkTurn (N.min (consecutive_denials turn + 1) u32_max) (recent_denials turn)
                (interrupt_triggered turn) in
  let turn := record_recent_review true turn in
  let recent := count_denied (recent_denials turn) in
  let '(max_consecutive, max_recent) := max_denials policy in
  if negb (interrupt_triggered turn)
     && ((max_consecutive <=? consecutive_denials turn)%N || (max_recent <=? recent)%N)
  then (<[turn_id := mkTurn (consecutive_denials turn) (recent_denials turn) true]> b,
        InterruptTurn (consecutive_denials turn) recent)
  else (<[turn_id := turn]> b, Continue).

Definition record_non_denial (turn_id : str) (b : CircuitBreaker) : CircuitBreaker :=
  let turn := default default_turn (b !! turn_id) in
  <[turn_id := record_recent_review false
                 (mkTurn 0 (recent_denials turn) (interrupt_triggered turn))]> b.

(** ** Events *)

Inductive BreakerEvent :=
| Denied (turn_id : str) (policy : CircuitBreakerPolicy)
| NotDenied (turn_id : str)
| Cleared (turn_id : str).

Definition breaker_step (b : CircuitBreaker) (e : BreakerEvent) : CircuitBreaker :=
  match e with
  | Denied t p => fst (record_denial t p b)
  | NotDenied t => record_non_denial t b
  | Cleared t => clear_turn t b
  end.

Definition breaker_run (events : list BreakerEvent) : CircuitBreaker := fold_left breaker_step events ∅.

(** ** Specification *)

(** The reviews of a turn since it was last cleared: [Some p] is a denial under
    policy [p]. *)
Definition log_step (t : str) (log : list (option CircuitBreakerPolicy)) (e : BreakerEvent)
    : list (option CircuitBreakerPolicy) :=
  match e with
  | Denied t' p => if bool_decide (t' = t) then log ++ [Some p] else log
  | NotDenied t' => if bool_decide (t' = t) then log ++ [None] else log
  | Cleared t' => if bool_decide (t' = t) then [] else log
  end.

Definition review_log (t : str) (events : list BreakerEvent) : list (option CircuitBreakerPolicy) :=
  fold_left (log_step t) events [].

Definition is_denial (r : option CircuitBreakerPolicy) : bool :=
  match r with Some _ => true | None => false end.

(** The denials in a row at the end of a log. *)
Fixpoint run_length (rlog : list (option CircuitBreakerPolicy)) : nat :=
  match rlog with Some _ :: l => S (run_length l) | _ => 0 end.
Definition trailing_denials (log : list (option CircuitBreakerPolicy)) : nat := run_length (rev log).

Definition window (log : list (option CircuitBreakerPolicy)) : list bool :=
  map is_denial (drop (length log - AUTO_REVIEW_DENIAL_WINDOW_SIZE) log).

Definition denials_in_window (log : list (option CircuitBreakerPolicy)) : nat :=
  length (List.filter (fun d => d) (window log)).

(** A limit is reached at the end of the log, under a policy. *)
Definition limit_reached (p : CircuitBreakerPolicy) (log : list (option CircuitBreakerPolicy)) : bool :=
  match p with
  | Standard => (3 <=? trailing_denials log) || (10 <=? denials_in_window log)
  | CyberModel => (1 <=? trailing_denials log) || (1 <=? denials_in_window log)
  end.

Definition fired (log : list (option CircuitBreakerPolicy)) : Prop :=
  exists l1 p l2, log = l1 ++ Some p :: l2 /\ limit_reached p (l1 ++ [Some p]) = true.

Lemma trailing_snoc log r :
  trailing_denials (log ++ [r]) = match r with Some _ => S (trailing_denials log) | None => 0 end.
Proof. unfold trailing_denials. rewrite rev_app_distr. by destruct r. Qed.

Lemma window_snoc log r :
  window (log ++ [r])
  = (if AUTO_REVIEW_DENIAL_WINDOW_SIZE <? length (window log ++ [is_denial r])
     then tail (window log ++ [is_denial r]) else window log ++ [is_denial r]).
Proof.
  assert (Ht : forall {A} (l : list A), tail l = drop 1 l) by (by intros ? []).
  unfold window. rewrite !length_app, length_map, length_drop. cbn [length].
  assert (Hw : 0 < AUTO_REVIEW_DENIAL_WINDOW_SIZE) by (unfold AUTO_REVIEW_DENIAL_WINDOW_SIZE; lia).
  revert Hw. generalize AUTO_REVIEW_DENIAL_WINDOW_SIZE. intros w Hw.
  destruct (Nat.ltb_spec w (length log - (length log - w) + 1)).
  - rewrite Ht, (drop_app_le _ [r]) by lia. rewrite drop_app_le by (rewrite length_map, length_drop; lia).
    rewrite map_app. f_equal. change (map is_denial) with (fmap (M := list) is_denial). rewrite <- fmap_drop, drop_drop. f_equal. f_equal. lia.
  - replace (length log + 1 - w) with 0 by lia. replace (length log - w) with 0 by lia.
    by rewrite !drop_0, map_app.
Qed.

Lemma fired_snoc log r :
  fired (log ++ [r]) <-> fired log \/ exists p, r = Some p /\ limit_reached p (log ++ [r]) = true.
Proof.
  split.
  - intros (l1 & p & l2 & Hl & Hr). destruct l2 as [|x l2 _] using rev_ind.
    + apply app_inj_tail in Hl as [-> ->]. right. eauto.
    + rewrite app_comm_cons, (assoc_L (++)) in Hl. apply app_inj_tail in Hl as [-> ->].
      left. by exists l1, p, l2.
  - intros [(l1 & p & l2 & -> & Hr)|(p & -> & Hr)].
    + exists l1, p, (l2 ++ [r]). by rewrite <- (assoc_L (++)).
    + by exists log, p, [].
Qed.

(** ** The state of a turn *)

Record describes (log : list (option CircuitBreakerPolicy)) (turn : BreakerTurn) : Prop := {
  ds_consecutive : consecutive_denials turn = N.min (N.of_nat (trailing_denials log)) u32_max;
  ds_recent : recent_denials turn = window log;
  ds_fired : interrupt_triggered turn = true <-> fired log;
}.

(** A turn without an entry has no reviews. *)
Definition turn_describes (b : CircuitBreaker) (t : str) (log : list (option CircuitBreakerPolicy))
    : Prop :=
  describes log (default default_turn (b !! t)) /\ (b !! t = None <-> log = []).

Lemma window_length log : length (window log) <= AUTO_REVIEW_DENIAL_WINDOW_SIZE.
Proof. unfold window. rewrite length_map, length_drop. lia. Qed.

Lemma count_denied_window log : count_denied (window log) = N.of_nat (denials_in_window log).
Proof.
  unfold count_denied, denials_in_window. apply N.mod_small.
  pose proof (window_length log) as H. unfold AUTO_REVIEW_DENIAL_WINDOW_SIZE in H.
  pose proof (filter_length_le (fun d : bool => d) (window log)). change (2 ^ 32)%N with 4294967296%N. lia.
Qed.

Lemma recent_snoc log turn r : recent_denials turn = window log ->
  recent_denials (record_recent_review (is_denial r) turn) = window (log ++ [r]).
Proof. intros H. rewrite window_snoc. unfold record_recent_review. simpl. by rewrite H. Qed.

Lemma limit_reached_counts p log c :
  c = N.min (N.of_nat (trailing_denials log)) u32_max ->
  ((fst (max_denials p) <=? c)%N
   || (snd (max_denials p) <=? count_denied (window log))%N) = limit_reached p log.
Proof.
  intros ->. rewrite count_denied_window. unfold limit_reached, max_denials, u32_max.
  destruct p; cbn [fst snd]; f_equal; apply Bool.eq_iff_eq_true; rewrite N.leb_le, Nat.leb_le;
    unfold MAX_CONSECUTIVE_GUARDIAN_DENIALS_PER_TURN, MAX_RECENT_AUTO_REVIEW_DENIALS_PER_TURN,
      MAX_CONSECUTIVE_CYBER_GUARDIAN_DENIALS_PER_TURN, MAX_RECENT_CYBER_AUTO_REVIEW_DENIALS_PER_TURN; lia.
Qed.

Lemma describes_default : describes [] default_turn.
Proof. split; try done. simpl. split; [done|]. intros (l1 & p & l2 & Hl & _). by destruct l1. Qed.

(** What a denial does to a turn that the log describes. *)
Lemma record_denial_spec b t p log : turn_describes b t log ->
  let log' := log ++ [Some p] in
  exists turn act, record_denial t p b = (<[t := turn]> b, act) /\ describes log' turn
  /\ ((~ fired log /\ limit_reached p log' = true
       /\ act = InterruptTurn (N.min (N.of_nat (trailing_denials log')) u32_max)
                  (N.of_nat (denials_in_window log')))
      \/ ((fired log \/ limit_reached p log' = false) /\ act = Continue)).
Proof.
  intros [[Hc Hr Hf] _] log'. unfold record_denial.
  set (turn := mkTurn _ _ _). pose proof (recent_snoc log turn (Some p) Hr) as Hw.
  cbn [is_denial] in Hw. rewrite Hw. fold log'. rewrite count_denied_window.
  assert (Hcons : N.min (consecutive_denials (default default_turn (b !! t)) + 1) u32_max
                  = N.min (N.of_nat (trailing_denials log')) u32_max).
  { unfold log'. rewrite trailing_snoc, Hc. unfold u32_max. lia. }
  pose proof (limit_reached_counts p log' _ eq_refl) as Hlim.
  rewrite count_denied_window in Hlim. simpl. rewrite Hcons.
  destruct (max_denials p) as [mc mr]. simpl in *. rewrite Hlim.
  pose proof (fired_snoc log (Some p)) as Hfs. fold log' in Hfs.
  destruct (interrupt_triggered (default default_turn (b !! t))) eqn:Ei; simpl.
  - eexists _, _. split; [done|]. split; [split; simpl; try done|right; naive_solver].
    naive_solver.
  - destruct (limit_reached p log') eqn:El; simpl.
    + eexists _, _. split; [done|]. split; [split; simpl; try done; naive_solver|left].
      split_and!; try done. naive_solver.
    + eexists _, _. split; [done|]. split; [split; simpl; try done|right; naive_solver].
      naive_solver.
Qed.

Lemma record_non_denial_spec b t log : turn_describes b t log ->
  exists turn, record_non_denial t b = <[t := turn]> b /\ describes (log ++ [None]) turn.
Proof.
  intros [[Hc Hr Hf] _]. eexists. split; [done|]. split.
  - by rewrite trailing_snoc.
  - by apply (recent_snoc log _ None).
  - simpl. rewrite fired_snoc, Hf. naive_solver.
Qed.

Lemma breaker_step_describes b e t log :
  turn_describes b t log -> turn_describes (breaker_step b e) t (log_step t log e).
Proof.
  intros Hb. destruct e as [t' p|t'|t']; simpl; case_bool_decide as Et; subst.
  - destruct (record_denial_spec b t p log Hb) as (turn & act & -> & Hd & _). simpl.
    split; rewrite lookup_insert_eq; [done|]. split; [done|]. by destruct log.
  - unfold record_denial. destruct (max_denials p). case_match; simpl;
      (unfold turn_describes; rewrite lookup_insert_ne by done; done).
  - destruct (record_non_denial_spec b t log Hb) as (turn & -> & Hd).
    split; rewrite lookup_insert_eq; [done|]. split; [done|]. by destruct log.
  - unfold record_non_denial, turn_describes. rewrite lookup_insert_ne by done. done.
  - unfold clear_turn, turn_describes. rewrite lookup_delete_eq. split; [apply describes_default|done].
  - unfold clear_turn, turn_describes. rewrite lookup_delete_ne by done. done.
Qed.

Lemma breaker_run_describes events t : turn_describes (breaker_run events) t (review_log t events).
Proof.
  induction events as [|e events IH] using rev_ind.
  - unfold breaker_run, turn_describes. simpl. rewrite lookup_empty. split; [apply describes_default|done].
  - unfold breaker_run, review_log in *. rewrite !fold_left_app. by apply breaker_step_describes.
Qed.

(** After any reviews and clears of any turns, a denial interrupts its turn
    exactly when the turn was not interrupted before and a limit is reached:
    three denials in a row or ten among the last fifty reviews, or any denial
    under the stricter policy.  Other turns do not matter, an approval restarts
    the count in a row, and a cleared turn starts afresh; so a turn is
    interrupted at most once until it is cleared. *)
Theorem breaker_interrupts_once events t p :
  let log := review_log t events in
  let '(b, act) := record_denial t p (breaker_run events) in
  (match act with
   | InterruptTurn consecutive recent =>
       ~ fired log /\ limit_reached p (log ++ [Some p]) = true
       /\ consecutive = N.min (N.of_nat (trailing_denials (log ++ [Some p]))) u32_max
       /\ recent = N.of_nat (denials_in_window (log ++ [Some p]))
   | Continue => fired log \/ limit_reached p (log ++ [Some p]) = false
   end)
  /\ (forall t', t' <> t -> b !! t' = breaker_run events !! t')
  /\ (interrupt_triggered (default default_turn (b !! t)) = true <-> fired (log ++ [Some p])).
Proof.
  intros log. destruct (record_denial_spec _ t p log (breaker_run_describes events t))
    as (turn & act & -> & Hd & Hact).
  split_and!.
  - destruct Hact as [(H1 & H2 & ->)|[H1 ->]]; done.
  - intros t' Ht. by rewrite lookup_insert_ne.
  - rewrite lookup_insert_eq. apply (ds_fired _ _ Hd).
Qed.

(** The counters stay in range: the window holds at most fifty reviews. *)
Lemma breaker_window_bounded events t turn :
  breaker_run events !! t = Some turn ->
  length (recent_denials turn) <= AUTO_REVIEW_DENIAL_WINDOW_SIZE /\ (consecutive_denials turn <= u32_max)%N.
Proof.
  intros Ht. destruct (breaker_run_describes events t) as [[Hc Hr _] _]. rewrite Ht in *. simpl in *.
  rewrite Hc, Hr. split; [apply window_length|lia].
Qed.
