(* ===== verification/AgentPath.v ===== *)
(** * protocol: agent paths

    [agent_path.rs]: the place of an agent in the tree of agents, [/root]
    followed by the names of its ancestors and its own, or [/morpheus].  An
    [AgentPath] is the string it wraps; the theorems show which strings the
    operations produce. *)

From S2P Require Import Prelude RustStr.

Notation AgentPath := str (only parsing).

Definition ch_slash : char := 47%N.
Definition ch_underscore : char := 95%N.

Definition ROOT : AgentPath := lit "/root".
Definition MORPHEUS : AgentPath := lit "/morpheus".
Definition ROOT_SEGMENT : str := lit "root".

Definition is_name_char (ch : char) : bool :=
  is_ascii_lowercase ch || is_ascii_digit ch || (ch =? ch_underscore)%N.

Definition validate_agent_name (agent_name : str) : result unit str :=
  if is_nil agent_name then Err (lit "agent_name must not be empty")
  else if str_eqb agent_name ROOT_SEGMENT then Err (lit "agent_name `root` is reserved")
  else if str_eqb agent_name (lit ".") || str_eqb agent_name (lit "..")
  then Err (lit "agent_name `" ++ agent_name ++ lit "` is reserved")
  else if contains_char ch_slash agent_name then Err (lit "agent_name must not contain `/`")
  else if negb (forallb is_name_char agent_name)
  then Err (lit "agent_name must use only lowercase letters, digits, and underscores")
  else Ok tt.

(** [for segment in segments { validate_agent_name(segment)?; }] *)
Fixpoint validate_names (segments : list str) : result unit str :=
  match segments with
  | [] => Ok tt
  | segment :: segments' => let? _ := validate_agent_name segment in validate_names segments'
  end.

Definition validate_absolute_path (path : str) : result unit str :=
  if str_eqb path MORPHEUS then Ok tt
  else
    match strip_prefix [ch_slash] path with
    | None => Err (lit "absolute agent paths must start with `/root` or be `/morpheus`")
    | Some stripped =>
        match split_on ch_slash stripped with
        | [] => Err (lit "absolute agent path must not be empty")
        | root :: segments =>
            if negb (str_eqb root ROOT_SEGMENT)
            then Err (lit "absolute agent paths must start with `/root` or be `/morpheus`")
            else if ends_with [ch_slash] stripped
            then Err (lit "absolute agent path must not end with `/`")
            else validate_names segments
        end
    end.

Definition validate_relative_reference (reference : str) : result unit str :=
  if ends_with [ch_slash] reference then Err (lit "relative agent path must not end with `/`")
  else validate_names (split_on ch_slash reference).

Definition from_string (path : str) : result AgentPath str :=
  let? _ := validate_absolute_path path in Ok path.

Definition is_root (p : AgentPath) : bool := str_eqb p ROOT.

Definition agent_name (p : AgentPath) : str :=
  if is_root p then ROOT_SEGMENT
  else match last (split_on ch_slash p) with
       | Some segment => if is_nil segment then ROOT_SEGMENT else segment
       | None => ROOT_SEGMENT
       end.

Definition path_join (p : AgentPath) (name : str) : result AgentPath str :=
  let? _ := validate_agent_name name in from_string (p ++ [ch_slash] ++ name).

Definition resolve (p : AgentPath) (reference : str) : result AgentPath str :=
  if is_nil reference then Err (lit "agent path must not be empty")
  else if str_eqb reference ROOT then Ok ROOT
  else if starts_with [ch_slash] reference then from_string reference
  else let? _ := validate_relative_reference reference in from_string (p ++ [ch_slash] ++ reference).

(** ** Specification *)

Definition valid_name (n : str) : Prop := validate_agent_name n = Ok tt.

(** The path of an agent below the root. *)
Definition path_of (names : list str) : AgentPath := ch_slash :: join [ch_slash] (ROOT_SEGMENT :: names).

Definition well_formed (p : AgentPath) : Prop :=
  p = MORPHEUS \/ exists names, Forall valid_name names /\ p = path_of names.

Lemma name_char_plain c : is_name_char c = true -> c <> 46%N /\ c <> ch_slash.
Proof. intros Hc. split; intros ->; done. Qed.

Lemma valid_name_spec n : valid_name n <->
  n <> [] /\ n <> ROOT_SEGMENT /\ forallb is_name_char n = true.
Proof.
  unfold valid_name, validate_agent_name. destruct n as [|c n]; [simpl; naive_solver|].
  change (is_nil (c :: n)) with false. cbv iota.
  destruct (str_eqb (c :: n) ROOT_SEGMENT) eqn:Er.
  { apply str_eqb_eq in Er. naive_solver. }
  apply str_eqb_neq in Er. destruct (forallb is_name_char (c :: n)) eqn:Ef.
  - assert (Hno : forall x, x ∈ c :: n -> x <> 46%N /\ x <> ch_slash).
    { intros x Hx. apply name_char_plain. apply list_elem_of_In in Hx.
      by apply (proj1 (forallb_forall _ _) Ef). }
    replace (str_eqb (c :: n) (lit ".") || str_eqb (c :: n) (lit "..")) with false.
    2:{ symmetry. apply orb_false_iff. split; apply str_eqb_neq; intros [= -> _];
          (destruct (Hno 46%N); [by left|done]). }
    replace (contains_char ch_slash (c :: n)) with false; [simpl; naive_solver|].
    symmetry. unfold contains_char. apply not_true_iff_false. rewrite existsb_exists.
    intros (x & Hx & He%N.eqb_eq). destruct (Hno x); [by apply list_elem_of_In|congruence].
  - split; [|naive_solver]. repeat case_match; done.
Qed.

Lemma valid_name_no_slash n : valid_name n -> ch_slash ∉ n.
Proof.
  intros (_ & _ & Hf)%valid_name_spec Hin. apply list_elem_of_In in Hin.
  by apply (proj1 (forallb_forall _ _) Hf) in Hin.
Qed.

Lemma validate_names_spec l : validate_names l = Ok tt <-> Forall valid_name l.
Proof.
  induction l as [|n l IH]; simpl; [done|]. rewrite Forall_cons, <- IH. unfold valid_name.
  destruct (validate_agent_name n) as [[]|]; simpl; naive_solver.
Qed.

Lemma join_last sep l w : exists q, join sep (l ++ [w]) = q ++ w.
Proof.
  induction l as [|a l IH]; [by exists []|]. destruct IH as [q IH].
  exists (a ++ sep ++ q).
  assert (join sep ((a :: l) ++ [w]) = a ++ sep ++ join sep (l ++ [w])) as -> by (by destruct l).
  by rewrite IH, <- !(assoc_L (++)).
Qed.

Lemma no_trailing_slash l w : w <> [] -> ch_slash ∉ w ->
  ends_with [ch_slash] (join [ch_slash] (l ++ [w])) = false.
Proof.
  intros Hw Hs. destruct (join_last [ch_slash] l w) as [q ->].
  apply not_true_iff_false. rewrite ends_with_spec. intros Hsuf.
  destruct w as [|x w _] using rev_ind; [done|]. rewrite (assoc_L (++)) in Hsuf.
  apply (suffix_snoc_inv_1 _ _ []) in Hsuf. set_solver.
Qed.

Lemma root_segment_no_slash : ch_slash ∉ ROOT_SEGMENT.
Proof. apply (bool_decide_unpack _). by vm_compute. Qed.

Lemma join_cons_app sep w ws ws' : ws' <> [] ->
  join sep ((w :: ws) ++ ws') = join sep (w :: ws) ++ sep ++ join sep ws'.
Proof.
  intros Hn. revert w; induction ws as [|x ws IH]; intros w.
  - simpl. by destruct ws'.
  - change ((w :: x :: ws) ++ ws') with (w :: (x :: ws) ++ ws').
    change (join sep (w :: x :: ws)) with (w ++ sep ++ join sep (x :: ws)).
    rewrite <- !(assoc_L (++)), <- IH. done.
Qed.

Lemma segments_last names : Forall valid_name names ->
  exists l w, ROOT_SEGMENT :: names = l ++ [w] /\ w <> [] /\ ch_slash ∉ w.
Proof.
  intros Hn. destruct names as [|w l _] using rev_ind.
  - exists [], ROOT_SEGMENT. split_and!; [done|done|apply root_segment_no_slash].
  - apply Forall_app in Hn as [_ Hw]. rewrite Forall_singleton in Hw.
    exists (ROOT_SEGMENT :: l), w. apply valid_name_no_slash in Hw as Hs.
    apply valid_name_spec in Hw as [? _]. done.
Qed.

Lemma segments_no_slash names : Forall valid_name names ->
  Forall (fun w => ch_slash ∉ w) (ROOT_SEGMENT :: names).
Proof.
  intros Hn. constructor; [apply root_segment_no_slash|].
  eapply Forall_impl; [done|]. apply valid_name_no_slash.
Qed.

Lemma split_path names : Forall valid_name names ->
  split_on ch_slash (join [ch_slash] (ROOT_SEGMENT :: names)) = ROOT_SEGMENT :: names.
Proof. intros Hn. apply split_on_join; [done|by apply segments_no_slash]. Qed.

Lemma path_of_not_morpheus names : Forall valid_name names -> path_of names <> MORPHEUS.
Proof. destruct names as [|n names]; [done|]. intros _. unfold path_of. by destruct names. Qed.

Lemma validate_absolute_path_spec p : validate_absolute_path p = Ok tt <-> well_formed p.
Proof.
  unfold validate_absolute_path, well_formed.
  destruct (str_eqb p MORPHEUS) eqn:Em; [apply str_eqb_eq in Em; naive_solver|].
  apply str_eqb_neq in Em. split.
  - intros H. right. destruct (strip_prefix [ch_slash] p) as [stripped|] eqn:Es; [|done].
    apply strip_prefix_Some in Es as ->. destruct (split_on ch_slash stripped) as [|root names] eqn:Ep; [done|].
    destruct (str_eqb root ROOT_SEGMENT) eqn:Er; [|done]. apply str_eqb_eq in Er as ->. simpl in H.
    destruct (ends_with [ch_slash] stripped); [done|]. apply validate_names_spec in H.
    exists names. split; [done|]. unfold path_of. by rewrite <- Ep, join_split_on.
  - intros [->|(names & Hn & ->)]; [done|]. unfold path_of at 1.
    change (ch_slash :: ?x) with ([ch_slash] ++ x). rewrite strip_prefix_app, split_path by done.
    rewrite str_eqb_refl. simpl negb. cbv iota.
    destruct (segments_last names Hn) as (l & w & E & Hw & Hs). rewrite E.
    rewrite no_trailing_slash by done. by apply validate_names_spec.
Qed.

Lemma from_string_spec p : from_string p = Ok p <-> well_formed p.
Proof.
  unfold from_string. rewrite <- validate_absolute_path_spec.
  destruct (validate_absolute_path p) as [[]|]; simpl; naive_solver.
Qed.

Lemma from_string_ok p q : from_string p = Ok q -> q = p /\ well_formed p.
Proof.
  unfold from_string. rewrite <- validate_absolute_path_spec.
  destruct (validate_absolute_path p) as [[]|]; simpl; naive_solver.
Qed.

Lemma path_of_app names more : more <> [] ->
  path_of names ++ [ch_slash] ++ join [ch_slash] more = path_of (names ++ more).
Proof.
  intros Hm. unfold path_of. rewrite app_comm_cons. rewrite join_cons_app by done.
  by rewrite <- app_comm_cons.
Qed.

Lemma path_of_inj names names' : Forall valid_name names -> Forall valid_name names' ->
  path_of names = path_of names' -> names = names'.
Proof.
  intros Hn Hn' H. apply (f_equal tail) in H. unfold path_of in H. cbn [tail] in H.
  apply (f_equal (split_on ch_slash)) in H. rewrite !split_path in H by done.
  by injection H.
Qed.

(** The strings accepted as agent paths are [/morpheus] and [/root] followed
    by names of lowercase letters, digits and underscores other than [root];
    every path an operation returns is one of these, so the type's invariant
    holds of all its values. *)
Theorem agent_paths_well_formed :
  (forall s, from_string s = Ok s <-> well_formed s)
  /\ (forall s p, from_string s = Ok p -> p = s)
  /\ well_formed ROOT /\ well_formed MORPHEUS
  /\ (forall p n q, path_join p n = Ok q -> well_formed q)
  /\ (forall p r q, resolve p r = Ok q -> well_formed q).
Proof.
  assert (Hroot : well_formed ROOT) by (right; by exists []).
  split_and!; [apply from_string_spec|by intros s p [-> _]%from_string_ok|done|by left|..].
  - intros p n q. unfold path_join. destruct (validate_agent_name n); simpl; [|done].
    by intros [-> ?]%from_string_ok.
  - intros p r q. unfold resolve. destruct (is_nil r); [done|].
    destruct (str_eqb r ROOT); [by intros [= <-]|].
    destruct (starts_with _ _); [by intros [-> ?]%from_string_ok|].
    destruct (validate_relative_reference r); simpl; [|done]. by intros [-> ?]%from_string_ok.
Qed.

Lemma relative_reference_spec r :
  validate_relative_reference r = Ok tt <->
  exists names, names <> [] /\ Forall valid_name names /\ r = join [ch_slash] names.
Proof.
  unfold validate_relative_reference. split.
  - destruct (ends_with _ r); [done|]. intros H%validate_names_spec.
    exists (split_on ch_slash r). by rewrite join_split_on; split_and!; [apply split_on_nonempty|..].
  - intros (names & Hne & Hn & ->). destruct names as [|w l _] using rev_ind; [done|].
    apply Forall_app in Hn as Hw. destruct Hw as [_ Hw]. rewrite Forall_singleton in Hw.
    rewrite no_trailing_slash; [|by apply valid_name_spec in Hw as [? _]|by apply valid_name_no_slash].
    rewrite split_on_join; [by apply validate_names_spec|by destruct l|].
    eapply Forall_impl; [done|]. apply valid_name_no_slash.
Qed.

Lemma morpheus_no_children s : ~ well_formed (MORPHEUS ++ [ch_slash] ++ s).
Proof.
  intros [H|(names & Hn & H)].
  - apply (f_equal length) in H. rewrite !length_app in H. simpl in H. lia.
  - unfold path_of in H. by destruct names.
Qed.

Lemma from_string_path_of l : Forall valid_name l -> from_string (path_of l) = Ok (path_of l).
Proof. intros Hl. apply from_string_spec. right. by exists l. Qed.

Lemma path_join_valid names n : Forall valid_name (names ++ [n]) ->
  path_join (path_of names) n = Ok (path_of (names ++ [n])).
Proof.
  intros Hl. apply Forall_app in Hl as Hv. destruct Hv as [_ Hv]. rewrite Forall_singleton in Hv.
  unfold path_join. rewrite Hv. cbn [result_bind].
  assert (path_of names ++ [ch_slash] ++ n = path_of (names ++ [n])) as -> by
    exact (path_of_app names [n] ltac:(done)).
  by apply from_string_path_of.
Qed.

Lemma agent_name_snoc names n : Forall valid_name (names ++ [n]) ->
  agent_name (path_of (names ++ [n])) = n.
Proof.
  intros Hl. unfold agent_name, is_root. destruct (str_eqb _ ROOT) eqn:E.
  { apply str_eqb_eq in E. apply (path_of_inj _ []) in E; [|done|done]. by destruct names. }
  assert (split_on ch_slash (path_of (names ++ [n])) = ([] :: ROOT_SEGMENT :: names) ++ [n]) as ->.
  { rewrite <- app_comm_cons, <- app_comm_cons, <- split_path by done. done. }
  rewrite last_snoc. apply Forall_app in Hl as [_ Hv]. rewrite Forall_singleton in Hv.
  apply valid_name_spec in Hv as [Hne _]. by destruct n.
Qed.

(** A relative reference does not start with a slash. *)
Lemma relative_reference_head more : Forall valid_name more -> more <> [] ->
  exists c t, join [ch_slash] more = c :: t /\ c <> ch_slash.
Proof.
  intros Hm Hne. destruct more as [|w ws]; [done|]. assert (Hw : valid_name w) by (by inversion Hm).
  apply valid_name_spec in Hw as (Hwne & _ & Hchars). destruct w as [|c w]; [done|].
  simpl in Hchars. apply andb_true_iff in Hchars as [Hc _]. apply name_char_plain in Hc as [_ Hc].
  destruct ws; simpl; eauto.
Qed.

Lemma resolve_relative names more :
  Forall valid_name names -> Forall valid_name more -> more <> [] ->
  resolve (path_of names) (join [ch_slash] more) = Ok (path_of (names ++ more)).
Proof.
  intros Hn Hm Hne. unfold resolve. destruct (relative_reference_head more Hm Hne) as (c & t & Ht & Hc).
  rewrite Ht. change (is_nil (c :: t)) with false. cbv iota.
  assert (str_eqb (c :: t) ROOT = false) as -> by (apply str_eqb_neq; by intros [= -> _]).
  assert (starts_with [ch_slash] (c :: t) = false) as ->.
  { apply not_true_iff_false. rewrite starts_with_spec. intros [k Hk]. by injection Hk as ->. }
  rewrite <- Ht. assert (validate_relative_reference (join [ch_slash] more) = Ok tt) as ->.
  { apply relative_reference_spec. by exists more. }
  cbn [result_bind]. rewrite path_of_app by done. apply from_string_path_of. by apply Forall_app.
Qed.

Lemma resolve_absolute p other :
  Forall valid_name other -> resolve p (path_of other) = Ok (path_of other).
Proof.
  intros Ho. unfold resolve. change (is_nil (path_of other)) with false. cbv iota.
  destruct (str_eqb _ ROOT) eqn:E; [apply str_eqb_eq in E; by rewrite E|].
  replace (starts_with [ch_slash] (path_of other)) with true by done. by apply from_string_path_of.
Qed.

Lemma resolve_inv names r q : resolve (path_of names) r = Ok q ->
  q = r \/ exists more, Forall valid_name more /\ r = join [ch_slash] more /\ q = path_of (names ++ more).
Proof.
  unfold resolve. destruct (is_nil r); [done|].
  destruct (str_eqb r ROOT) eqn:E; [apply str_eqb_eq in E as ->; intros [= <-]; by left|].
  destruct (starts_with _ _); [intros [-> ?]%from_string_ok; by left|].
  destruct (validate_relative_reference r) as [[]|] eqn:Er; cbn [result_bind]; [|done].
  apply relative_reference_spec in Er as (more & Hne & Hm & ->).
  rewrite path_of_app by done. intros [-> _]%from_string_ok. right. by exists more.
Qed.

(** Below the root, joining a valid name and resolving a relative reference
    append to the names of the path and resolving an absolute reference
    replaces it; the last name reads back, different names give different
    paths, and anything else is refused.  [/morpheus] has no children. *)
Theorem agent_path_operations names : Forall valid_name names ->
  let p := path_of names in
  (forall n, valid_name n -> path_join p n = Ok (path_of (names ++ [n]))
                             /\ agent_name (path_of (names ++ [n])) = n)
  /\ (forall n, ~ valid_name n -> is_ok (path_join p n) = false)
  /\ (forall more, Forall valid_name more -> more <> [] ->
        resolve p (join [ch_slash] more) = Ok (path_of (names ++ more)))
  /\ (forall other, Forall valid_name other -> resolve p (path_of other) = Ok (path_of other))
  /\ (forall r q, resolve p r = Ok q -> q = r \/ exists more, Forall valid_name more
        /\ r = join [ch_slash] more /\ q = path_of (names ++ more))
  /\ (forall names', Forall valid_name names' -> path_of names' = p -> names' = names)
  /\ (forall n, is_ok (path_join MORPHEUS n) = false).
Proof.
  intros Hn p. assert (Hsnoc : forall n, valid_name n -> Forall valid_name (names ++ [n])).
  { intros n Hv. apply Forall_app. by split; [|constructor]. }
  split_and!.
  - intros n Hv%Hsnoc. split; [by apply path_join_valid|by apply agent_name_snoc].
  - intros n Hv. unfold path_join, valid_name in *. by destruct (validate_agent_name n) as [[]|].
  - intros more Hm Hne. by apply resolve_relative.
  - intros other Ho. by apply resolve_absolute.
  - intros r q. apply resolve_inv.
  - intros names' Hn' H. by apply path_of_inj.
  - intros n. unfold path_join. destruct (validate_agent_name n) as [[]|]; [|done]. cbn [result_bind].
    destruct (from_string _) as [q|] eqn:E; [|done].
    apply from_string_ok in E as [_ E]. by apply morpheus_no_children in E.
Qed.

Lemma agent_path_operations_witness :
  let names := [lit "researcher"] in
  Forall valid_name names
  /\ path_join (path_of names) (lit "worker_1") = Ok (lit "/root/researcher/worker_1").
Proof.
  assert (H : Forall valid_name [lit "researcher"]) by (constructor; [reflexivity|constructor]).
  split; [exact H|].
  exact (proj1 (proj1 (agent_path_operations [lit "researcher"] H) (lit "worker_1") eq_refl)).
Defined.
