(* ===== verification/AgentRegistry.v ===== *)
(** * core/agent: the registry of agents

    [registry.rs]: how many agents a session may run, under which paths and
    nicknames.  The maps are behind a lock and the count is an atomic, so an
    operation is a sequence of atomic steps; [registry_step] makes each one a
    step of a system of tasks that interleave freely, and [reachable] is any
    interleaving from the empty registry.  Thread ids and the environments
    saved with a thread are opaque types; the random choice of a nickname is an
    argument. *)

From S2P Require Import Prelude RustStr AgentPath.

Section registry.
Context {ThreadId Env : Type} `{!EqDecision ThreadId, !Countable ThreadId}.
(** [Display] of a thread id. *)
Variable show_thread : ThreadId -> str.

Record AgentMetadata := mkAgent {
  agent_id : option ThreadId;
  agent_path : option AgentPath;
  agent_nickname : option str;
  agent_role : option str;
}.

Record RegisteredAgent := mkRegistered {
  ra_path : str;
  ra_evicted_environments : option (list Env);
}.

Record ActiveAgents := mkActive {
  agent_tree : gmap str AgentMetadata;
  thread_paths : gmap ThreadId RegisteredAgent;
  used_agent_nicknames : gset str;
  nickname_reset_count : N;
}.

Definition no_agents : ActiveAgents := mkActive ∅ ∅ ∅ 0.

Definition with_tree (t : gmap str AgentMetadata) (a : ActiveAgents) : ActiveAgents :=
  mkActive t (thread_paths a) (used_agent_nicknames a) (nickname_reset_count a).
Definition with_threads (t : gmap ThreadId RegisteredAgent) (a : ActiveAgents) : ActiveAgents :=
  mkActive (agent_tree a) t (used_agent_nicknames a) (nickname_reset_count a).
Definition with_nicknames (u : gset str) (n : N) (a : ActiveAgents) : ActiveAgents :=
  mkActive (agent_tree a) (thread_paths a) u n.

(** ** Nicknames *)

Definition ordinal_suffix (value : N) : str :=
  let hundred := (value mod 100)%N in
  if ((11 <=? hundred) && (hundred <=? 13))%N then lit "th"
  else if (value mod 10 =? 1)%N then lit "st"
  else if (value mod 10 =? 2)%N then lit "nd"
  else if (value mod 10 =? 3)%N then lit "rd"
  else lit "th".

Definition format_agent_nickname (name : str) (reset_count : N) : str :=
  if (reset_count =? 0)%N then name
  else let value := (reset_count + 1)%N in
       name ++ lit " the " ++ fmt_N value ++ ordinal_suffix value.

(** [slice.choose(&mut rng)]; [r] is the random number. *)
Definition choose {A} (r : nat) (l : list A) : option A := l !! (r mod length l).

Definition use_nickname (n : str) (a : ActiveAgents) : ActiveAgents :=
  with_nicknames ({[n]} ∪ used_agent_nicknames a) (nickname_reset_count a) a.

Definition reserve_agent_nickname (r : nat) (names : list str) (preferred : option str)
    (a : ActiveAgents) : ActiveAgents * option str :=
  match preferred with
  | Some preferred => (use_nickname preferred a, Some preferred)
  | None =>
      if is_nil names then (a, None)
      else
        let available_names :=
          List.filter (fun name => negb (bool_decide (name ∈ used_agent_nicknames a)))
            (map (fun name => format_agent_nickname name (nickname_reset_count a)) names) in
        match choose r available_names with
        | Some name => (use_nickname name a, Some name)
        | None =>
            let a := with_nicknames ∅ (nickname_reset_count a + 1) a in
            match choose r names with
            | Some name =>
                let nickname := format_agent_nickname name (nickname_reset_count a) in
                (use_nickname nickname a, Some nickname)
            | None => (a, None)
            end
        end
  end.

(** ** Sections under the lock *)

Definition is_root_path (m : AgentMetadata) : bool :=
  match agent_path m with Some p => is_root p | None => false end.

(** The locked part of [release_spawned_thread]: whether a counted agent went. *)
Definition remove_thread (thread_id : ThreadId) (a : ActiveAgents) : ActiveAgents * bool :=
  match thread_paths a !! thread_id with
  | None => (with_threads (delete thread_id (thread_paths a)) a, false)
  | Some agent =>
      let a := with_threads (delete thread_id (thread_paths a)) a in
      let removed := agent_tree a !! ra_path agent in
      (with_tree (delete (ra_path agent) (agent_tree a)) a,
       match removed with Some metadata => negb (is_root_path metadata) | None => false end)
  end.

Definition register_root_thread (thread_id : ThreadId) (a : ActiveAgents) : ActiveAgents :=
  let metadata := default (mkAgent (Some thread_id) (Some ROOT) None None) (agent_tree a !! ROOT) in
  let a := with_tree (<[ROOT := metadata]> (agent_tree a)) a in
  match agent_id metadata with
  | Some root_thread_id =>
      with_threads (<[root_thread_id := mkRegistered ROOT None]> (thread_paths a)) a
  | None => a
  end.

Definition agent_id_for_path (p : AgentPath) (a : ActiveAgents) : option ThreadId :=
  metadata ← agent_tree a !! p; agent_id metadata.

Definition agent_metadata_for_thread (thread_id : ThreadId) (a : ActiveAgents) : option AgentMetadata :=
  agent ← thread_paths a !! thread_id; agent_tree a !! ra_path agent.

Definition set_evicted_environments (thread_id : ThreadId) (environments : option (list Env))
    (a : ActiveAgents) : ActiveAgents :=
  match thread_paths a !! thread_id with
  | Some agent =>
      with_threads (<[thread_id := mkRegistered (ra_path agent) environments]> (thread_paths a)) a
  | None => a
  end.

Definition evicted_environments (thread_id : ThreadId) (a : ActiveAgents) : option (list Env) :=
  agent ← thread_paths a !! thread_id; ra_evicted_environments agent.

(** An agent that [live_agents] lists. *)
Definition is_live (m : AgentMetadata) : bool :=
  match agent_id m with Some _ => negb (is_root_path m) | None => false end.

Definition live_agents (a : ActiveAgents) : list AgentMetadata :=
  List.filter is_live (map snd (map_to_list (agent_tree a))).

Definition agent_key (m : AgentMetadata) (thread_id : ThreadId) : str :=
  match agent_path m with Some p => p | None => lit "thread:" ++ show_thread thread_id end.

(** The two updates of [register_spawned_thread]: the thread takes its key and
    leaves its previous path; the agent takes the key from its previous owner. *)
Definition index_thread (thread_id : ThreadId) (key : str) (a : ActiveAgents) : ActiveAgents :=
  let previous_agent := thread_paths a !! thread_id in
  let a := with_threads (<[thread_id := mkRegistered key None]> (thread_paths a)) a in
  match previous_agent with
  | Some previous =>
      if negb (str_eqb (ra_path previous) key)
      then with_tree (delete (ra_path previous) (agent_tree a)) a else a
  | None => a
  end.

Definition insert_agent (thread_id : ThreadId) (key : str) (m : AgentMetadata) (a : ActiveAgents)
    : ActiveAgents :=
  let previous_metadata := agent_tree a !! key in
  let a := with_tree (<[key := m]> (agent_tree a)) a in
  match previous_metadata with
  | Some previous =>
      match agent_id previous with
      | Some previous_thread_id =>
          if bool_decide (previous_thread_id <> thread_id)
          then with_threads (delete previous_thread_id (thread_paths a)) a else a
      | None => a
      end
  | None => a
  end.

Definition register_spawned_thread (m : AgentMetadata) (a : ActiveAgents) : ActiveAgents :=
  match agent_id m with
  | None => a
  | Some thread_id =>
      let key := agent_key m thread_id in
      let a := match agent_nickname m with Some n => use_nickname n a | None => a end in
      insert_agent thread_id key m (index_thread thread_id key a)
  end.

Definition reserve_agent_path (p : AgentPath) (a : ActiveAgents) : result ActiveAgents str :=
  match agent_tree a !! p with
  | Some _ => Err (lit "agent path `" ++ p ++ lit "` already exists")
  | None => Ok (with_tree (<[p := mkAgent None (Some p) None None]> (agent_tree a)) a)
  end.

Definition release_reserved_agent_path (p : AgentPath) (a : ActiveAgents) : ActiveAgents :=
  match agent_tree a !! p with
  | Some m => match agent_id m with
              | None => with_tree (delete p (agent_tree a)) a
              | Some _ => a
              end
  | None => a
  end.

(** ** The system *)

(** What a task is doing: in the loop of [try_increment_spawned] with the value
    it last loaded, holding a reservation, or about to decrement the count. *)
Inductive task :=
| Trying (max_threads current : N)
| Reserved (reserved_path : option AgentPath)
| Dropping
| Releasing
| Finished.

Record Registry := mkRegistry {
  active_agents : ActiveAgents;
  total_count : N;
  tasks : list task;
}.

Definition registry_new : Registry := mkRegistry no_agents 0 [].

(** [fetch_add] and [fetch_sub] wrap around. *)
Definition fetch_add_1 (n : N) : N := if (n =? usize_max)%N then 0%N else (n + 1)%N.
Definition fetch_sub_1 (n : N) : N := if (n =? 0)%N then usize_max else (n - 1)%N.

Inductive registry_label :=
| ReserveLimited (max_threads : N)
| ReserveUnlimited
| CasSucceeds (i : nat)
| CasFails (i : nat)
| LimitReached (i : nat)
| ReserveNickname (i r : nat) (names : list str) (preferred : option str)
| ReservePath (i : nat) (p : AgentPath)
| Commit (i : nat) (m : AgentMetadata)
| DropReservation (i : nat)
| Decrement (i : nat)
| ReleaseThread (thread_id : ThreadId)
| RegisterRoot (thread_id : ThreadId)
| SetEvicted (thread_id : ThreadId) (environments : option (list Env)).

Definition set_task (i : nat) (t : task) (s : Registry) : Registry :=
  mkRegistry (active_agents s) (total_count s) (<[i := t]> (tasks s)).
Definition with_agents (a : ActiveAgents) (s : Registry) : Registry :=
  mkRegistry a (total_count s) (tasks s).

(** One atomic step; [None] when the task is not at that point. *)
Definition registry_step (l : registry_label) (s : Registry) : option Registry :=
  match l with
  | ReserveLimited max_threads =>
      Some (mkRegistry (active_agents s) (total_count s)
              (tasks s ++ [Trying max_threads (total_count s)]))
  | ReserveUnlimited =>
      Some (mkRegistry (active_agents s) (fetch_add_1 (total_count s)) (tasks s ++ [Reserved None]))
  | CasSucceeds i =>
      match tasks s !! i with
      | Some (Trying max_threads current) =>
          if ((current <? max_threads) && (total_count s =? current))%N
          then Some (mkRegistry (active_agents s) (current + 1) (<[i := Reserved None]> (tasks s)))
          else None
      | _ => None
      end
  | CasFails i =>
      match tasks s !! i with
      | Some (Trying max_threads current) =>
          if (current <? max_threads)%N
          then Some (set_task i (Trying max_threads (total_count s)) s) else None
      | _ => None
      end
  | LimitReached i =>
      match tasks s !! i with
      | Some (Trying max_threads current) =>
          if (max_threads <=? current)%N then Some (set_task i Finished s) else None
      | _ => None
      end
  | ReserveNickname i r names preferred =>
      match tasks s !! i with
      | Some (Reserved _) =>
          Some (with_agents (fst (reserve_agent_nickname r names preferred (active_agents s))) s)
      | _ => None
      end
  | ReservePath i p =>
      match tasks s !! i with
      | Some (Reserved _) =>
          match reserve_agent_path p (active_agents s) with
          | Ok a => Some (set_task i (Reserved (Some p)) (with_agents a s))
          | Err _ => Some s
          end
      | _ => None
      end
  | Commit i m =>
      match tasks s !! i with
      | Some (Reserved _) =>
          Some (set_task i Finished (with_agents (register_spawned_thread m (active_agents s)) s))
      | _ => None
      end
  | DropReservation i =>
      match tasks s !! i with
      | Some (Reserved p) =>
          let a := match p with
                   | Some p => release_reserved_agent_path p (active_agents s)
                   | None => active_agents s
                   end in
          Some (set_task i Dropping (with_agents a s))
      | _ => None
      end
  | Decrement i =>
      match tasks s !! i with
      | Some Dropping | Some Releasing =>
          Some (mkRegistry (active_agents s) (fetch_sub_1 (total_count s)) (<[i := Finished]> (tasks s)))
      | _ => None
      end
  | ReleaseThread thread_id =>
      let '(a, counted) := remove_thread thread_id (active_agents s) in
      Some (mkRegistry a (total_count s) (if counted then tasks s ++ [Releasing] else tasks s))
  | RegisterRoot thread_id => Some (with_agents (register_root_thread thread_id (active_agents s)) s)
  | SetEvicted thread_id environments =>
      Some (with_agents (set_evicted_environments thread_id environments (active_agents s)) s)
  end.

(** Any interleaving in which limited reservations use at most [limit], with
    the number of unlimited ones. *)
Inductive reachable (limit : N) : N -> Registry -> Prop :=
| reach_new : reachable limit 0 registry_new
| reach_step unlimited s l s' :
    reachable limit unlimited s ->
    (forall max_threads, l = ReserveLimited max_threads -> (max_threads <= limit)%N) ->
    registry_step l s = Some s' ->
    reachable limit (match l with ReserveUnlimited => unlimited + 1 | _ => unlimited end)%N s'.

(** ** Counting live agents *)

Definition b2n (b : bool) : nat := if b then 1 else 0.

Definition tree_live (t : gmap str AgentMetadata) : nat :=
  length (List.filter is_live (map snd (map_to_list t))).

Definition live_at (t : gmap str AgentMetadata) (k : str) : nat :=
  match t !! k with Some m => b2n (is_live m) | None => 0 end.

Lemma filter_length_perm {A} (f : A -> bool) l1 l2 :
  l1 ≡ₚ l2 -> length (List.filter f l1) = length (List.filter f l2).
Proof. induction 1; simpl; repeat case_match; simpl; congruence. Qed.

Lemma tree_live_fresh t k m : t !! k = None -> tree_live (<[k := m]> t) = tree_live t + b2n (is_live m).
Proof.
  intros Hk. unfold tree_live. rewrite (filter_length_perm _ _ (map snd ((k, m) :: map_to_list t))).
  - simpl. destruct (is_live m); simpl; lia.
  - apply Permutation_map. by apply map_to_list_insert.
Qed.

Lemma tree_live_delete t k : tree_live (delete k t) + live_at t k = tree_live t.
Proof.
  unfold live_at. destruct (t !! k) as [m|] eqn:E.
  - rewrite <- (insert_delete_id t k m E) at 2. rewrite tree_live_fresh; [done|apply lookup_delete_eq].
  - rewrite delete_id by done. lia.
Qed.

Lemma tree_live_insert t k m :
  tree_live (<[k := m]> t) + live_at t k = tree_live t + b2n (is_live m).
Proof.
  rewrite <- (tree_live_delete t k), <- insert_delete_eq, tree_live_fresh by apply lookup_delete_eq. lia.
Qed.

(** ** The index of threads *)

(** A registered thread leads to the entry of its own agent. *)
Definition coherent (a : ActiveAgents) : Prop :=
  forall t agent, thread_paths a !! t = Some agent ->
    exists m, agent_tree a !! ra_path agent = Some m /\ agent_id m = Some t.

(** [a'] is coherent and its live agents number at most [n] more. *)
Definition grows_by (n : nat) (a a' : ActiveAgents) : Prop :=
  coherent a' /\ tree_live (agent_tree a') <= tree_live (agent_tree a) + n.

Lemma nickname_same r names preferred (a : ActiveAgents) :
  let a' := fst (reserve_agent_nickname r names preferred a) in
  agent_tree a' = agent_tree a /\ thread_paths a' = thread_paths a.
Proof. unfold reserve_agent_nickname. repeat case_match; done. Qed.

Lemma remove_thread_grows t a : coherent a ->
  let '(a', counted) := remove_thread t a in
  coherent a' /\ tree_live (agent_tree a') + b2n counted = tree_live (agent_tree a).
Proof.
  intros Ha. unfold remove_thread. destruct (thread_paths a !! t) as [agent|] eqn:Et.
  - destruct (Ha _ _ Et) as (m & Hm & Hid). simpl. rewrite Hm. split.
    + intros t2 ag Ht2. simpl in *. apply lookup_delete_Some in Ht2 as [Hne Ht2].
      destruct (Ha _ _ Ht2) as (m2 & Hm2 & Hid2). exists m2. split; [|done].
      rewrite lookup_delete_ne; [done|]. intros He. rewrite He in Hm. congruence.
    + pose proof (tree_live_delete (agent_tree a) (ra_path agent)) as Hl. unfold live_at in Hl.
      rewrite Hm in Hl. unfold is_live in Hl. rewrite Hid in Hl. done.
  - simpl. split; [|lia]. intros t2 ag Ht2. simpl in Ht2. apply lookup_delete_Some in Ht2 as [_ Ht2].
    by apply Ha.
Qed.

Lemma register_root_grows t a : coherent a -> grows_by 0 a (register_root_thread t a).
Proof.
  intros Ha. unfold register_root_thread.
  set (m := default _ _). assert (Htree : tree_live (<[ROOT := m]> (agent_tree a)) = tree_live (agent_tree a)).
  { pose proof (tree_live_insert (agent_tree a) ROOT m) as Hl. unfold live_at, m in *.
    destruct (agent_tree a !! ROOT); simpl in *; lia. }
  assert (Hkeep : forall k m2, agent_tree a !! k = Some m2 -> <[ROOT := m]> (agent_tree a) !! k = Some m2).
  { intros k m2 Hk. destruct (decide (k = ROOT)) as [->|]; [|by rewrite lookup_insert_ne].
    rewrite lookup_insert_eq. unfold m. by rewrite Hk. }
  split; [|destruct (agent_id m); simpl; lia].
  intros t2 ag. destruct (agent_id m) as [rt|] eqn:Em; simpl.
  - rewrite lookup_insert_Some. intros [[<- <-]|[_ Ht2]].
    + exists m. by rewrite lookup_insert_eq.
    + destruct (Ha _ _ Ht2) as (m2 & Hm2 & Hid2). eauto.
  - intros Ht2. destruct (Ha _ _ Ht2) as (m2 & Hm2 & Hid2). eauto.
Qed.

Lemma set_evicted_grows t e a : coherent a -> grows_by 0 a (set_evicted_environments t e a).
Proof.
  intros Ha. unfold set_evicted_environments. destruct (thread_paths a !! t) as [agent|] eqn:E.
  - split; [|simpl; lia]. intros t2 ag. simpl. rewrite lookup_insert_Some.
    intros [[<- <-]|[_ Ht2]]; [by apply (Ha _ _ E)|by apply Ha].
  - split; [done|lia].
Qed.

Lemma reserve_path_grows p a a' : coherent a -> reserve_agent_path p a = Ok a' -> grows_by 0 a a'.
Proof.
  intros Ha. unfold reserve_agent_path. destruct (agent_tree a !! p) eqn:E; [done|]. intros [= <-]. split.
  - intros t2 ag Ht2. simpl in *. destruct (Ha _ _ Ht2) as (m & Hm & Hid). exists m.
    split; [|done]. rewrite lookup_insert_ne; [done|]. intros He. rewrite <- He in Hm. congruence.
  - simpl. rewrite tree_live_fresh by done. simpl. lia.
Qed.

Lemma release_path_grows p a : coherent a -> grows_by 0 a (release_reserved_agent_path p a).
Proof.
  intros Ha. unfold release_reserved_agent_path. destruct (agent_tree a !! p) as [m|] eqn:E; [|split; [done|lia]].
  destruct (agent_id m) eqn:Ei; [split; [done|lia]|]. split.
  - intros t2 ag Ht2. simpl in *. destruct (Ha _ _ Ht2) as (m2 & Hm & Hid). exists m2.
    split; [|done]. rewrite lookup_delete_ne; [done|]. intros He. rewrite <- He in Hm. congruence.
  - simpl. pose proof (tree_live_delete (agent_tree a) p). lia.
Qed.

(** Coherent for every other thread, while [t] takes [key]. *)
Definition coherent_but (t : ThreadId) (key : str) (a : ActiveAgents) : Prop :=
  (forall t2 agent, t2 <> t -> thread_paths a !! t2 = Some agent ->
     exists m, agent_tree a !! ra_path agent = Some m /\ agent_id m = Some t2)
  /\ thread_paths a !! t = Some (mkRegistered key None).

Lemma index_thread_grows t key a : coherent a ->
  let a' := index_thread t key a in
  coherent_but t key a' /\ tree_live (agent_tree a') <= tree_live (agent_tree a).
Proof.
  intros Ha. unfold index_thread. destruct (thread_paths a !! t) as [previous|] eqn:Et;
    [destruct (negb _)|]; simpl; (split; [split; simpl; [|apply lookup_insert_eq]|]); try lia.
  1, 3, 4: intros t2 ag Hne Ht2; rewrite lookup_insert_ne in Ht2 by done;
    destruct (Ha _ _ Ht2) as (m2 & Hm2 & Hid2); exists m2; split; try done.
  - destruct (Ha _ _ Et) as (m & Hm & Hid). rewrite lookup_delete_ne; [done|].
    intros He. rewrite He in Hm. congruence.
  - pose proof (tree_live_delete (agent_tree a) (ra_path previous)). lia.
Qed.

Lemma insert_agent_grows t key m a : agent_id m = Some t -> coherent_but t key a ->
  grows_by (b2n (is_live m)) a (insert_agent t key m a).
Proof.
  intros Hid [Ha Ht]. pose proof (tree_live_insert (agent_tree a) key m) as Hlive.
  unfold insert_agent. split.
  - assert (Hstep : forall t2 ag, thread_paths a !! t2 = Some ag ->
      (forall m2, agent_tree a !! key = Some m2 -> agent_id m2 = Some t2 -> t2 = t) ->
      exists m2, <[key := m]> (agent_tree a) !! ra_path ag = Some m2 /\ agent_id m2 = Some t2).
    { intros t2 ag Ht2 Hk. destruct (decide (t2 = t)) as [->|Hne].
      - rewrite Ht in Ht2. injection Ht2 as <-. exists m. simpl. by rewrite lookup_insert_eq.
      - destruct (Ha _ _ Hne Ht2) as (m2 & Hm2 & Hid2). exists m2. split; [|done].
        rewrite lookup_insert_ne; [done|]. intros He. rewrite <- He in Hm2. eauto. }
    intros t2 ag. destruct (agent_tree a !! key) as [m'|] eqn:Ek; simpl; [|intros; apply Hstep; naive_solver].
    destruct (agent_id m') as [t'|] eqn:Ei; simpl; [|intros; apply Hstep; naive_solver].
    case_bool_decide as Hd; simpl; [|intros; apply Hstep; naive_solver].
    rewrite lookup_delete_Some. intros [Hne Ht2]. apply Hstep; naive_solver.
  - repeat case_match; simpl; lia.
Qed.

Lemma register_spawned_grows m a : coherent a -> grows_by (b2n (is_live m)) a (register_spawned_thread m a).
Proof.
  intros Ha. unfold register_spawned_thread. destruct (agent_id m) as [t|] eqn:Hid.
  - set (a0 := match agent_nickname m with Some n => use_nickname n a | None => a end).
    assert (Ha0 : coherent a0 /\ agent_tree a0 = agent_tree a)
      by (unfold a0; by destruct (agent_nickname m)). destruct Ha0 as [Ha0 Htree].
    destruct (index_thread_grows t (agent_key m t) a0 Ha0) as [H1 Hl1].
    destruct (insert_agent_grows t (agent_key m t) m _ Hid H1) as [H2 Hl2].
    split; [done|]. rewrite Htree in Hl1. lia.
  - split; [done|lia].
Qed.

(** ** The count *)

(** A task holds a unit of the count from its reservation to its commit, or
    until it has decremented it. *)
Definition task_weight (t : task) : nat :=
  match t with Reserved _ | Dropping | Releasing => 1 | Trying _ _ | Finished => 0 end.

Definition pending (ts : list task) : nat := foldr (fun t n => task_weight t + n) 0 ts.

Lemma pending_app l1 l2 : pending (l1 ++ l2) = pending l1 + pending l2.
Proof. unfold pending. induction l1; simpl; lia. Qed.

Lemma pending_insert ts i t t' : ts !! i = Some t ->
  pending (<[i := t']> ts) + task_weight t = pending ts + task_weight t'.
Proof.
  revert i; induction ts as [|x ts IH]; intros [|i]; simpl; try done; [intros [= ->]; lia|].
  intros Hi. specialize (IH _ Hi). lia.
Qed.

Lemma elem_of_insert_inv {A} (x y : A) i (l : list A) : x ∈ <[i := y]> l -> x = y \/ x ∈ l.
Proof.
  intros [j Hj]%list_elem_of_lookup. apply list_lookup_insert_Some in Hj as [(_ & -> & _)|[_ Hj]];
    [by left|right]. apply list_elem_of_lookup. eauto.
Qed.

Record registry_ok (limit unlimited : N) (s : Registry) : Prop := {
  rok_coherent : coherent (active_agents s);
  rok_count : (N.of_nat (tree_live (agent_tree (active_agents s)) + pending (tasks s)) <= total_count s)%N;
  rok_limit : (total_count s <= limit + unlimited)%N;
  rok_trying : forall max current, Trying max current ∈ tasks s -> (max <= limit)%N;
}.

Definition live (a : ActiveAgents) : N := N.of_nat (tree_live (agent_tree a)).

Definition weight (t : task) : N := N.of_nat (task_weight t).

(** A step of the task [i] that keeps the count above the agents and units. *)
Lemma registry_ok_set limit u u' s i t t' total a :
  registry_ok limit u s -> tasks s !! i = Some t ->
  (forall max current, t' = Trying max current -> (max <= limit)%N) -> coherent a ->
  (live a + weight t' + total_count s <= live (active_agents s) + weight t + total)%N ->
  (total <= limit + u')%N ->
  registry_ok limit u' (mkRegistry a total (<[i := t']> (tasks s))).
Proof.
  intros [Hc Hn Hl Ht] Hi Ht' Ha Hlive Htot. unfold live, weight in *. split; simpl; try done.
  - pose proof (pending_insert (tasks s) i t t' Hi). lia.
  - intros max current Hin. apply elem_of_insert_inv in Hin as [He|Hin]; eauto.
Qed.

(** A step that adds a task. *)
Lemma registry_ok_push limit u u' s t' total a :
  registry_ok limit u s ->
  (forall max current, t' = Trying max current -> (max <= limit)%N) -> coherent a ->
  (live a + weight t' + total_count s <= live (active_agents s) + total)%N ->
  (total <= limit + u')%N ->
  registry_ok limit u' (mkRegistry a total (tasks s ++ [t'])).
Proof.
  intros [Hc Hn Hl Ht] Ht' Ha Hlive Htot. unfold live, weight in *. split; simpl; try done.
  - rewrite pending_app. simpl. lia.
  - intros max current [Hin|Hin]%elem_of_app; [eauto|]. apply list_elem_of_singleton in Hin. eauto.
Qed.

(** A step that only touches the agents. *)
Lemma registry_ok_agents limit u s a :
  registry_ok limit u s -> grows_by 0 (active_agents s) a -> registry_ok limit u (with_agents a s).
Proof. intros [Hc Hn Hl Ht] [Ha Hlive]. split; simpl; try done. lia. Qed.

Lemma trying_limit limit u s i max current :
  registry_ok limit u s -> tasks s !! i = Some (Trying max current) -> (max <= limit)%N.
Proof. intros Hs Hi. eapply (rok_trying _ _ _ Hs), list_elem_of_lookup; eauto. Qed.

(** There is a unit to give back, so the count does not wrap around. *)
Lemma unit_counted limit u s i t :
  registry_ok limit u s -> tasks s !! i = Some t -> (weight t <= total_count s)%N.
Proof.
  intros Hs Hi. pose proof (rok_count _ _ _ Hs).
  pose proof (pending_insert (tasks s) i t Finished Hi) as Hp. unfold weight. simpl in *. lia.
Qed.

Ltac close_count := first [unfold weight, live; simpl in *; lia | naive_solver].
Ltac open_task i Ei := destruct (tasks _ !! i) as [[| | | |]|] eqn:Ei; try done.

Lemma registry_step_ok limit u s l s' :
  registry_ok limit u s ->
  (forall max_threads, l = ReserveLimited max_threads -> (max_threads <= limit)%N) ->
  registry_step l s = Some s' ->
  (limit + match l with ReserveUnlimited => u + 1 | _ => u end <= usize_max)%N ->
  registry_ok limit (match l with ReserveUnlimited => u + 1 | _ => u end)%N s'.
Proof.
  intros Hs Hlim Hstep Hmax. pose proof (rok_coherent _ _ _ Hs) as Hc.
  pose proof (rok_limit _ _ _ Hs) as Hl.
  destruct l as [max| |i|i|i|i r names preferred|i p|i m|i|i|t|t|t e]; simpl in Hstep.
  - injection Hstep as <-. eapply (registry_ok_push _ _ _ s); eauto; close_count.
  - injection Hstep as <-. unfold fetch_add_1. destruct (N.eqb_spec (total_count s) usize_max); [lia|].
    eapply (registry_ok_push _ _ _ s); eauto; close_count.
  - open_task i Ei. pose proof (trying_limit _ _ _ _ _ _ Hs Ei).
    destruct (N.ltb_spec current max_threads); simpl in Hstep; [|done].
    destruct (N.eqb_spec (total_count s) current); [|done]. injection Hstep as <-.
    eapply (registry_ok_set _ _ _ s); eauto; close_count.
  - open_task i Ei. pose proof (trying_limit _ _ _ _ _ _ Hs Ei).
    destruct (current <? max_threads)%N; [|done]. injection Hstep as <-.
    eapply (registry_ok_set _ _ _ s); eauto; close_count.
  - open_task i Ei. destruct (max_threads <=? current)%N; [|done]. injection Hstep as <-.
    eapply (registry_ok_set _ _ _ s); eauto; close_count.
  - open_task i Ei. injection Hstep as <-. apply registry_ok_agents; [done|].
    destruct (nickname_same r names preferred (active_agents s)) as [Htr Hth].
    split; [|rewrite Htr; lia]. intros t2 ag. rewrite Htr, Hth. apply Hc.
  - open_task i Ei. destruct (reserve_agent_path p _) as [a|] eqn:Er; injection Hstep as <-; [|done].
    destruct (reserve_path_grows _ _ _ Hc Er).
    eapply (registry_ok_set _ _ _ s); eauto; close_count.
  - open_task i Ei. injection Hstep as <-. destruct (register_spawned_grows m _ Hc).
    destruct (is_live m); eapply (registry_ok_set _ _ _ s); eauto; close_count.
  - open_task i Ei. injection Hstep as <-.
    assert (grows_by 0 (active_agents s) (match reserved_path with
      | Some p => release_reserved_agent_path p (active_agents s) | None => active_agents s end)) as [? ?]
      by (destruct reserved_path; [by apply release_path_grows|split; [done|lia]]).
    eapply (registry_ok_set _ _ _ s); eauto; close_count.
  - open_task i Ei; pose proof (unit_counted _ _ _ _ _ Hs Ei) as Hu; unfold weight in Hu; simpl in Hu;
      injection Hstep as <-; unfold fetch_sub_1;
      (destruct (N.eqb_spec (total_count s) 0); [lia|]);
      (eapply (registry_ok_set _ _ _ s); eauto; close_count).
  - pose proof (remove_thread_grows t _ Hc) as Hr. destruct (remove_thread t _) as [a counted].
    injection Hstep as <-. destruct Hr as [Ha Hlive]. destruct counted; simpl in Hlive.
    + eapply (registry_ok_push _ _ _ s); eauto; close_count.
    + apply (registry_ok_agents _ _ s a Hs). split; [done|lia].
  - injection Hstep as <-. by apply registry_ok_agents, register_root_grows.
  - injection Hstep as <-. by apply registry_ok_agents, set_evicted_grows.
Qed.

Lemma reachable_ok limit u s : reachable limit u s -> (limit + u <= usize_max)%N -> registry_ok limit u s.
Proof.
  induction 1 as [|u s l s' Hr IH Hlim Hstep]; intros Hmax.
  - split; simpl; [done| |lia|].
    + unfold tree_live. rewrite map_to_list_empty. simpl. lia.
    + intros ? ? Hin. by apply elem_of_nil in Hin.
  - eapply registry_step_ok; eauto. apply IH. destruct l; lia.
Qed.

(** C29: in every interleaving of reservations, registrations, drops and
    releases, the live agents and the reservations not yet given back are
    covered by the count, and the count stays within the limit plus the
    unlimited reservations: with a limit, a session never runs more agents than
    it.  So giving back a reservation never wraps the count around, and a
    registered thread always leads to its own agent. *)
Theorem registry_never_exceeds_limit limit unlimited s :
  reachable limit unlimited s -> (limit + unlimited <= usize_max)%N ->
  (N.of_nat (length (live_agents (active_agents s)) + pending (tasks s)) <= total_count s)%N
  /\ (total_count s <= limit + unlimited)%N
  /\ (forall t agent, thread_paths (active_agents s) !! t = Some agent ->
       exists m, agent_metadata_for_thread t (active_agents s) = Some m /\ agent_id m = Some t).
Proof.
  intros Hr Hmax. destruct (reachable_ok _ _ _ Hr Hmax) as [Hc Hn Hl _]. split_and!; [done|done|].
  intros t agent Ht. unfold agent_metadata_for_thread. rewrite Ht. apply (Hc _ _ Ht).
Qed.

(** ** Reservations *)

Lemma register_spawned_lookup m a t : agent_id m = Some t ->
  let a' := register_spawned_thread m a in
  agent_metadata_for_thread t a' = Some m /\ agent_tree a' !! agent_key m t = Some m
  /\ thread_paths a' !! t = Some (mkRegistered (agent_key m t) None).
Proof.
  intros Hid. unfold register_spawned_thread. rewrite Hid.
  set (a0 := match agent_nickname m with Some n => use_nickname n a | None => a end).
  assert (Ht : thread_paths (index_thread t (agent_key m t) a0) !! t
               = Some (mkRegistered (agent_key m t) None)).
  { unfold index_thread. repeat case_match; apply lookup_insert_eq. }
  revert Ht. generalize (index_thread t (agent_key m t) a0). intros a1 Ht.
  assert (thread_paths (insert_agent t (agent_key m t) m a1) !! t = Some (mkRegistered (agent_key m t) None)
          /\ agent_tree (insert_agent t (agent_key m t) m a1) = <[agent_key m t := m]> (agent_tree a1))
    as [H1 H2].
  { unfold insert_agent. repeat case_match; simpl; try done. split; [|done].
    rewrite lookup_delete_ne; [done|]. by apply bool_decide_eq_true in H1. }
  unfold agent_metadata_for_thread. rewrite H1, H2. simpl. by rewrite lookup_insert_eq.
Qed.

Lemma remove_thread_registered t a agent m :
  thread_paths a !! t = Some agent -> agent_tree a !! ra_path agent = Some m ->
  remove_thread t a
  = (mkActive (delete (ra_path agent) (agent_tree a)) (delete t (thread_paths a))
       (used_agent_nicknames a) (nickname_reset_count a), negb (is_root_path m)).
Proof. intros Ht Hm. unfold remove_thread. rewrite Ht. simpl. by rewrite Hm. Qed.

(** A path is given to one reservation at a time and given back: reserving
    fails exactly when the path is taken, dropping the reservation restores the
    registry, and a committed agent is found by its thread and by its path
    until it is released, which also frees the path; releasing it again
    changes nothing. *)
Theorem reservation_lifecycle p m t a :
  agent_id m = Some t -> agent_path m = Some p ->
  (is_ok (reserve_agent_path p a) = bool_decide (agent_tree a !! p = None))
  /\ (forall a1, reserve_agent_path p a = Ok a1 ->
       release_reserved_agent_path p a1 = a /\ is_ok (reserve_agent_path p a1) = false)
  /\ let a2 := register_spawned_thread m a in
     agent_metadata_for_thread t a2 = Some m /\ agent_id_for_path p a2 = Some t
     /\ let a3 := fst (remove_thread t a2) in
        snd (remove_thread t a2) = negb (is_root p)
        /\ agent_metadata_for_thread t a3 = None /\ agent_tree a3 !! p = None
        /\ remove_thread t a3 = (a3, false).
Proof.
  intros Hid Hp. assert (Hk : agent_key m t = p) by (unfold agent_key; by rewrite Hp).
  split_and!.
  - unfold reserve_agent_path. destruct (agent_tree a !! p); by case_bool_decide.
  - intros a1. unfold reserve_agent_path. destruct (agent_tree a !! p) eqn:E; [done|]. intros [= <-].
    unfold release_reserved_agent_path. simpl. rewrite lookup_insert_eq. simpl. split; [|done].
    unfold with_tree. simpl. rewrite delete_insert_id by done. by destruct a.
  - destruct (register_spawned_lookup m a t Hid) as (Hmd & Htree & Hpath). rewrite Hk in Htree, Hpath.
    intros a2. fold a2 in Hmd, Htree, Hpath. split; [done|]. unfold agent_id_for_path. rewrite Htree.
    split; [done|]. rewrite (remove_thread_registered _ _ _ m Hpath Htree). simpl.
    unfold is_root_path, agent_metadata_for_thread, remove_thread. rewrite Hp. simpl.
    rewrite !lookup_delete_eq. split_and!; try done. f_equal. unfold with_threads. simpl.
    rewrite (delete_id (delete t _)); [done|apply lookup_delete_eq].
Qed.

(** ** Runs *)

Fixpoint run_labels (ls : list registry_label) (s : Registry) : option Registry :=
  match ls with
  | [] => Some s
  | l :: ls' => s' ← registry_step l s; run_labels ls' s'
  end.

Definition within_limit (limit : N) (l : registry_label) : bool :=
  match l with
  | ReserveLimited max_threads => (max_threads <=? limit)%N
  | ReserveUnlimited => false
  | _ => true
  end.

Lemma run_labels_reachable limit ls s s' :
  reachable limit 0 s -> forallb (within_limit limit) ls = true -> run_labels ls s = Some s' ->
  reachable limit 0 s'.
Proof.
  revert s; induction ls as [|l ls IH]; intros s Hs; simpl; [by intros _ [= <-]|].
  intros [Hl Hls]%andb_true_iff. destruct (registry_step l s) as [s1|] eqn:E; simpl; [|done].
  apply IH; [|done]. assert (Hok : forall m, l = ReserveLimited m -> (m <= limit)%N).
  { intros m ->. by apply N.leb_le. }
  pose proof (reach_step limit 0 s l s1 Hs Hok E) as Hr. by destruct l.
Qed.

End registry.

(** ** Witnesses *)

Definition sample_agent : AgentMetadata (ThreadId := N) :=
  mkAgent (Some 7%N) (Some (lit "/root/worker")) (Some (lit "Ada")) None.

(** Two tasks race for one slot: the second sees the limit. *)
Definition sample_labels : list (registry_label (ThreadId := N) (Env := unit)) :=
  [ReserveLimited 1; ReserveLimited 1; CasSucceeds 0; CasFails 1; LimitReached 1;
   ReservePath 0 (lit "/root/worker"); Commit 0 sample_agent].

Definition sample_registry : Registry (ThreadId := N) (Env := unit) :=
  default registry_new (run_labels fmt_N sample_labels registry_new).

Lemma registry_never_exceeds_limit_witness :
  length (live_agents (active_agents sample_registry)) = 1 /\ (total_count sample_registry <= 1)%N.
Proof.
  split; [vm_compute; reflexivity|].
  apply (registry_never_exceeds_limit fmt_N 1 0 sample_registry); [|vm_compute; discriminate].
  apply (run_labels_reachable fmt_N 1 sample_labels registry_new); [constructor| |];
    vm_compute; reflexivity.
Defined.

Lemma reservation_lifecycle_witness :
  agent_id_for_path (lit "/root/worker")
    (register_spawned_thread (Env := unit) fmt_N sample_agent no_agents) = Some 7%N.
Proof.
  exact (proj1 (proj2 (proj2 (proj2
    (reservation_lifecycle (Env := unit) fmt_N (lit "/root/worker") sample_agent 7%N no_agents
       eq_refl eq_refl))))).
Defined.
