(* ===== verification/Template.v ===== *)
(** * utils/template: strict templates

    [lib.rs]: placeholders in double braces, doubled braces for literal ones.
    A template is parsed into segments and rendered with a value for each
    placeholder, no more and no less.  A position in the source is the rest of
    the text with its byte offset; an ordered set or map is the list of its
    elements in order.  A step of the parser consumes a character, so the
    length of the source bounds the steps. *)

From S2P Require Import Prelude RustStr.

Definition open2 : str := lit "{{".
Definition close2 : str := lit "}}".
Definition open4 : str := lit "{{{{".
Definition close4 : str := lit "}}}}".

Inductive TemplateParseError :=
| EmptyPlaceholder (start : N)
| NestedPlaceholder (start : N)
| UnmatchedClosingDelimiter (start : N)
| UnterminatedPlaceholder (start : N).

Inductive TemplateRenderError :=
| DuplicateValue (name : str)
| ExtraValue (name : str)
| MissingValue (name : str).

Inductive TemplateError :=
| ParseError (e : TemplateParseError)
| RenderError (e : TemplateRenderError).

Inductive Segment :=
| Literal (text : str)
| Placeholder (name : str).

(** ** Ordered sets and maps *)

(** [Ord for str]: the order of the bytes is the order of the characters. *)
Fixpoint str_ltb (a b : str) : bool :=
  match a, b with
  | _, [] => false
  | [], _ :: _ => true
  | x :: a', y :: b' => (x <? y)%N || ((x =? y)%N && str_ltb a' b')
  end.

(** [BTreeSet::insert] *)
Fixpoint set_insert (x : str) (l : list str) : list str :=
  match l with
  | [] => [x]
  | y :: l' => if str_eqb x y then l
               else if str_ltb x y then x :: l
               else y :: set_insert x l'
  end.

(** [BTreeMap::insert]: the map, and whether the key was there. *)
Fixpoint map_insert (k v : str) (m : list (str * str)) : list (str * str) * bool :=
  match m with
  | [] => ([(k, v)], false)
  | (k', v') :: m' =>
      if str_eqb k k' then ((k, v) :: m', true)
      else if str_ltb k k' then ((k, v) :: m, false)
      else let '(m'', found) := map_insert k v m' in ((k', v') :: m'', found)
  end.

Fixpoint map_get (k : str) (m : list (str * str)) : option str :=
  match m with
  | [] => None
  | (k', v) :: m' => if str_eqb k k' then Some v else map_get k m'
  end.

(** ** Parsing *)

Record Template := mkTemplate {
  placeholders : list str;
  segments : list Segment;
}.

Definition push_literal (segs : list Segment) (literal : str) : list Segment :=
  if is_nil literal then segs
  else match last segs with
       | Some (Literal existing) => take (length segs - 1) segs ++ [Literal (existing ++ literal)]
       | _ => segs ++ [Literal literal]
       end.

(** The loop of [parse_placeholder]: the text since the opening braces, the
    rest and its offset; the name with the position after the closing braces. *)
Fixpoint placeholder_loop (start : N) (seen : str) (rest : str) (cursor : N)
    : result (str * str * N) TemplateParseError :=
  if starts_with open2 rest then Err (NestedPlaceholder start)
  else if starts_with close2 rest then
    let placeholder := trim seen in
    if is_nil placeholder then Err (EmptyPlaceholder start)
    else Ok (placeholder, drop 2 rest, cursor + len close2)%N
  else match rest with
       | [] => Err (UnterminatedPlaceholder start)
       | ch :: rest' => placeholder_loop start (seen ++ [ch]) rest' (cursor + len_utf8 ch)
       end.

Definition parse_placeholder (rest : str) (start : N) : result (str * str * N) TemplateParseError :=
  placeholder_loop start [] (drop 2 rest) (start + len open2).

(** The loop of [Template::parse]; [literal] is the text since [literal_start]. *)
Fixpoint parse_loop (fuel : nat) (rest : str) (cursor : N) (literal : str) (names : list str)
    (segs : list Segment) : option (result Template TemplateParseError) :=
  match fuel with
  | 0 => None
  | S fuel' =>
      match rest with
      | [] => Some (Ok (mkTemplate names (push_literal segs literal)))
      | ch :: rest' =>
          if starts_with open4 rest then
            parse_loop fuel' (drop 4 rest) (cursor + len open4) [] names
              (push_literal (push_literal segs literal) open2)
          else if starts_with close4 rest then
            parse_loop fuel' (drop 4 rest) (cursor + len close4) [] names
              (push_literal (push_literal segs literal) close2)
          else if starts_with open2 rest then
            match parse_placeholder rest cursor with
            | Err e => Some (Err e)
            | Ok (name, next_rest, next_cursor) =>
                parse_loop fuel' next_rest next_cursor [] (set_insert name names)
                  (push_literal segs literal ++ [Placeholder name])
            end
          else if starts_with close2 rest then Some (Err (UnmatchedClosingDelimiter cursor))
          else parse_loop fuel' rest' (cursor + len_utf8 ch) (literal ++ [ch]) names segs
      end
  end.

Definition template_parse (source : str) : option (result Template TemplateParseError) :=
  parse_loop (S (length source)) source 0 [] [] [].

(** ** Rendering *)

Fixpoint build_variable_map (variables : list (str * str)) (m : list (str * str))
    : result (list (str * str)) TemplateRenderError :=
  match variables with
  | [] => Ok m
  | (name, value) :: variables' =>
      let '(m', found) := map_insert name value m in
      if (found : bool) then Err (DuplicateValue name) else build_variable_map variables' m'
  end.

Fixpoint check_missing (names : list str) (m : list (str * str)) : result unit TemplateRenderError :=
  match names with
  | [] => Ok tt
  | name :: names' =>
      match map_get name m with
      | Some _ => check_missing names' m
      | None => Err (MissingValue name)
      end
  end.

Fixpoint check_extra (names : list str) (keys : list str) : result unit TemplateRenderError :=
  match keys with
  | [] => Ok tt
  | key :: keys' =>
      if existsb (str_eqb key) names then check_extra names keys' else Err (ExtraValue key)
  end.

Fixpoint render_segments (segs : list Segment) (m : list (str * str)) (rendered : str)
    : result str TemplateRenderError :=
  match segs with
  | [] => Ok rendered
  | Literal literal :: segs' => render_segments segs' m (rendered ++ literal)
  | Placeholder name :: segs' =>
      match map_get name m with
      | Some value => render_segments segs' m (rendered ++ value)
      | None => Err (MissingValue name)
      end
  end.

Definition template_render (t : Template) (variables : list (str * str))
    : result str TemplateRenderError :=
  let? m := build_variable_map variables [] in
  let? _ := check_missing (placeholders t) m in
  let? _ := check_extra (placeholders t) (map fst m) in
  render_segments (segments t) m [].

Definition render (template : str) (variables : list (str * str)) : option (result str TemplateError) :=
  parsed ← template_parse template;
  Some (let? t := result_map_err ParseError parsed in
        result_map_err RenderError (template_render t variables)).

(** ** Parsing always ends *)

Lemma placeholder_loop_rest start seen rest cursor name next c :
  placeholder_loop start seen rest cursor = Ok (name, next, c) -> length next <= length rest.
Proof.
  revert seen cursor; induction rest as [|ch rest IH]; intros seen cursor; cbn [placeholder_loop].
  - simpl. done.
  - destruct (starts_with open2 _); [done|]. destruct (starts_with close2 _).
    + destruct (is_nil _); [done|]. intros [= <- <- <-]. rewrite length_drop. simpl. lia.
    + intros Hl%IH. simpl. lia.
Qed.

Lemma parse_loop_total fuel rest cursor literal names segs :
  length rest < fuel -> exists r, parse_loop fuel rest cursor literal names segs = Some r.
Proof.
  revert rest cursor literal names segs; induction fuel as [|fuel IH]; intros rest cursor literal names segs Hf; [lia|].
  cbn [parse_loop]. destruct rest as [|ch rest]; [eauto|]. simpl length in Hf.
  destruct (starts_with open4 _); [apply IH; rewrite length_drop; simpl; lia|].
  destruct (starts_with close4 _); [apply IH; rewrite length_drop; simpl; lia|].
  destruct (starts_with open2 _).
  - destruct (parse_placeholder _ _) as [[[name next] c]|e] eqn:E; [|eauto]. unfold parse_placeholder in E.
    apply placeholder_loop_rest in E. rewrite length_drop in E. cbn [length] in E. apply IH. lia.
  - destruct (starts_with close2 _); [eauto|]. apply IH. lia.
Qed.

(** ** Literals *)

Lemma push_literal_nil segs : push_literal segs [] = segs.
Proof. done. Qed.

Lemma push_literal_snoc segs a : a <> [] ->
  push_literal segs a = match last segs with
                        | Some (Literal e) => take (length segs - 1) segs ++ [Literal (e ++ a)]
                        | _ => segs ++ [Literal a]
                        end.
Proof. by destruct a. Qed.

Lemma push_literal_app segs a b :
  push_literal (push_literal segs a) b = push_literal segs (a ++ b).
Proof.
  destruct a as [|x a]; [done|]. destruct b as [|y b]; [by rewrite push_literal_nil, app_nil_r|].
  assert (Ht : forall (l : list Segment) x, take (length (l ++ [x]) - 1) (l ++ [x]) = l).
  { intros l z. rewrite length_app. simpl. by rewrite Nat.add_sub, take_app_length. }
  rewrite !(push_literal_snoc segs) by done.
  destruct segs as [|s segs _] using rev_ind; [done|]. rewrite !last_snoc, !Ht.
  destruct s as [e|n]; rewrite push_literal_snoc, last_snoc, Ht by done; [|done].
  by rewrite <- (assoc_L (++)).
Qed.

(** Pushing the pending literal early changes nothing. *)
Lemma parse_loop_flush fuel rest cursor literal names segs :
  parse_loop fuel rest cursor literal names segs
  = parse_loop fuel rest cursor [] names (push_literal segs literal).
Proof.
  revert rest cursor literal names segs; induction fuel as [|fuel IH];
    intros rest cursor literal names segs; [done|].
  cbn [parse_loop]. rewrite !push_literal_nil. destruct rest as [|ch rest]; [done|].
  repeat (case_match; try done). rewrite IH, (IH _ _ ([] ++ [ch])). by rewrite push_literal_app.
Qed.

(** ** Escaping *)

Definition ch_open : char := 123%N.
Definition ch_close : char := 125%N.
Definition is_brace (c : char) : bool := (c =? ch_open)%N || (c =? ch_close)%N.

(** A text with its doubled braces doubled again. *)
Fixpoint escape (t : str) : str :=
  match t with
  | a :: (b :: t'') as t' =>
      if (a =? ch_open)%N && (b =? ch_open)%N then open4 ++ escape t''
      else if (a =? ch_close)%N && (b =? ch_close)%N then close4 ++ escape t''
      else a :: escape t'
  | _ => t
  end.

Definition print_segment (s : Segment) : str :=
  match s with
  | Literal t => escape t
  | Placeholder n => open2 ++ [ch_space] ++ n ++ [ch_space] ++ close2
  end.

(** The canonical source of a template. *)
Definition print_template (segs : list Segment) : str := concat (map print_segment segs).

Lemma starts_with_pair x a r :
  starts_with [x; x] (a :: r) = (x =? a)%N && match head r with Some b => (x =? b)%N | None => false end.
Proof.
  unfold starts_with. simpl. destruct (x =? a)%N; [|done]. simpl. destruct r as [|b r]; [done|].
  simpl. by destruct (x =? b)%N.
Qed.

Lemma starts_with_quad x s : starts_with [x; x] s = false -> starts_with [x; x; x; x] s = false.
Proof.
  unfold starts_with. destruct s as [|a [|b s]]; simpl; try done; repeat (case_match; try done).
Qed.

Lemma escape_cons2 a b t :
  escape (a :: b :: t)
  = if (a =? ch_open)%N && (b =? ch_open)%N then open4 ++ escape t
    else if (a =? ch_close)%N && (b =? ch_close)%N then close4 ++ escape t
    else a :: escape (b :: t).
Proof. done. Qed.

Lemma escape_head t : head (escape t) = head t.
Proof.
  destruct t as [|a [|b t]]; try done. rewrite escape_cons2.
  destruct ((a =? ch_open)%N && (b =? ch_open)%N) eqn:E1.
  { apply andb_true_iff in E1 as [->%N.eqb_eq _]. done. }
  destruct ((a =? ch_close)%N && (b =? ch_close)%N) eqn:E2; [|done].
  apply andb_true_iff in E2 as [->%N.eqb_eq _]. done.
Qed.

Lemma head_app {A} (l k : list A) : head (l ++ k) = match l with [] => head k | x :: _ => Some x end.
Proof. by destruct l. Qed.

Lemma escape_head_app b t k : head (escape (b :: t) ++ k) = Some b.
Proof.
  pose proof (escape_head (b :: t)) as Hh. rewrite head_app.
  by destruct (escape (b :: t)).
Qed.

(** A brace at the end of [t] is not followed by the same brace. *)
Definition separate (t k : str) : Prop :=
  forall c, last t = Some c -> head k = Some c -> is_brace c = false.

(** A character that starts no delimiter is literal. *)
Lemma parse_loop_char fuel c rest cursor names segs :
  (head rest = Some c -> is_brace c = false) ->
  parse_loop (S fuel) (c :: rest) cursor [] names segs
  = parse_loop fuel rest (cursor + len_utf8 c) [] names (push_literal segs [c]).
Proof.
  intros Hh. assert (Hp : forall x, is_brace x = true -> starts_with [x; x] (c :: rest) = false).
  { intros x Hx. rewrite starts_with_pair. destruct (N.eqb_spec x c) as [->|]; [|done]. simpl.
    destruct (head rest) as [b|]; [|done]. destruct (N.eqb_spec c b) as [<-|]; [|done].
    rewrite Hh in Hx; done. }
  pose proof (Hp ch_open eq_refl) as Ho. pose proof (Hp ch_close eq_refl) as Hc.
  cbn [parse_loop]. change open2 with [ch_open; ch_open]. change close2 with [ch_close; ch_close].
  change open4 with [ch_open; ch_open; ch_open; ch_open].
  change close4 with [ch_close; ch_close; ch_close; ch_close].
  rewrite (starts_with_quad _ _ Ho), (starts_with_quad _ _ Hc), Ho, Hc. apply parse_loop_flush.
Qed.

Lemma parse_loop_open4 fuel rest cursor names segs :
  parse_loop (S fuel) (open4 ++ rest) cursor [] names segs
  = parse_loop fuel rest (cursor + len open4) [] names (push_literal segs open2).
Proof. done. Qed.

Lemma parse_loop_close4 fuel rest cursor names segs :
  parse_loop (S fuel) (close4 ++ rest) cursor [] names segs
  = parse_loop fuel rest (cursor + len close4) [] names (push_literal segs close2).
Proof. done. Qed.

(** The parser reads an escaped text as one literal. *)
Lemma parse_escape n : forall t k fuel cursor names segs,
  length t <= n -> separate t k -> length (escape t ++ k) < fuel ->
  exists fuel' cursor', length k < fuel'
  /\ parse_loop fuel (escape t ++ k) cursor [] names segs
     = parse_loop fuel' k cursor' [] names (push_literal segs t).
Proof.
  induction n as [|n IH]; intros t k fuel cursor names segs Hn Hsep Hf.
  { destruct t; [|simpl in Hn; lia]. exists fuel, cursor. done. }
  destruct t as [|a [|b t]]; [by exists fuel, cursor|..].
  - destruct fuel as [|fuel]; [simpl in Hf; lia|]. exists fuel, (cursor + len_utf8 a)%N.
    split; [simpl in Hf; lia|]. simpl escape. apply parse_loop_char. intros Hk. by apply (Hsep a).
  - destruct fuel as [|fuel]; [lia|]. revert Hf. rewrite escape_cons2.
    assert (Hsep2 : separate t k).
    { intros c Hc. apply Hsep. by destruct t. }
    destruct ((a =? ch_open)%N && (b =? ch_open)%N) eqn:E1.
    { apply andb_true_iff in E1 as [->%N.eqb_eq ->%N.eqb_eq]. intros Hf. rewrite <- (assoc_L (++)).
      rewrite parse_loop_open4. destruct (IH t k fuel (cursor + len open4)%N names (push_literal segs open2))
        as (f' & c' & Hf' & ->); [simpl in Hn; lia|done|rewrite !length_app in *; simpl in *; lia|].
      exists f', c'. split; [done|]. by rewrite push_literal_app. }
    destruct ((a =? ch_close)%N && (b =? ch_close)%N) eqn:E2.
    { apply andb_true_iff in E2 as [->%N.eqb_eq ->%N.eqb_eq]. intros Hf. rewrite <- (assoc_L (++)).
      rewrite parse_loop_close4. destruct (IH t k fuel (cursor + len close4)%N names (push_literal segs close2))
        as (f' & c' & Hf' & ->); [simpl in Hn; lia|done|rewrite !length_app in *; simpl in *; lia|].
      exists f', c'. split; [done|]. by rewrite push_literal_app. }
    intros Hf. rewrite <- app_comm_cons, parse_loop_char.
    2:{ rewrite escape_head_app. intros [= ->]. unfold is_brace. rewrite !andb_diag in *. by rewrite E1, E2. }
    destruct (IH (b :: t) k fuel (cursor + len_utf8 a)%N names (push_literal segs [a]))
      as (f' & c' & Hf' & ->); [simpl in *; lia| |rewrite <- app_comm_cons in Hf; cbn [length] in Hf; lia|].
    { intros c Hc. by apply Hsep. }
    exists f', c'. split; [done|]. by rewrite push_literal_app.
Qed.

(** ** Round trip *)

Definition plain_name (n : str) : Prop :=
  n <> [] /\ no_ws_head n /\ no_ws_last n /\ Forall (fun c => is_brace c = false) n.

Lemma placeholder_loop_plain start seen w k cursor :
  Forall (fun c => is_brace c = false) w -> trim (seen ++ w) <> [] ->
  exists cursor', placeholder_loop start seen (w ++ close2 ++ k) cursor
                  = Ok (trim (seen ++ w), k, cursor').
Proof.
  intros Hw. revert seen cursor; induction Hw as [|c w Hc _ IH]; intros seen cursor Hne.
  - rewrite app_nil_r in *. cbn [app]. exists (cursor + len close2)%N.
    change (placeholder_loop start seen (close2 ++ k) cursor)
      with (if is_nil (trim seen) then Err (EmptyPlaceholder start)
            else Ok (trim seen, k, cursor + len close2)%N : result (str * str * N) TemplateParseError).
    by destruct (trim seen).
  - rewrite <- app_comm_cons. cbn [placeholder_loop].
    assert (Hp : forall x, is_brace x = true -> starts_with [x; x] (c :: w ++ close2 ++ k) = false).
    { intros x Hx. rewrite starts_with_pair. destruct (N.eqb_spec x c) as [->|]; [congruence|done]. }
    pose proof (Hp ch_open eq_refl : starts_with open2 _ = false) as Ho.
    pose proof (Hp ch_close eq_refl : starts_with close2 _ = false) as Hcl. rewrite Ho, Hcl.
    destruct (IH (seen ++ [c]) (cursor + len_utf8 c)%N) as [c' Hc'].
    + by rewrite <- (assoc_L (++)).
    + exists c'. rewrite Hc'. by rewrite <- (assoc_L (++)).
Qed.

Lemma trim_spaced n : n <> [] -> no_ws_head n -> no_ws_last n ->
  trim ([ch_space] ++ n ++ [ch_space]) = n.
Proof.
  intros Hne Hh Hl. destruct n as [|c n]; [done|]. pose proof (Hh c n eq_refl) as Hc.
  assert (trim ([ch_space] ++ (c :: n) ++ [ch_space]) = trim_end ((c :: n) ++ [ch_space])) as ->.
  { unfold trim. f_equal. unfold trim_start. simpl. by rewrite Hc. }
  transitivity (trim_end (c :: n)); [|by apply trim_end_id].
  unfold trim_end, drop_while_end. by rewrite rev_app_distr.
Qed.

Lemma parse_loop_placeholder fuel n k cursor names segs : plain_name n ->
  exists cursor',
    parse_loop (S fuel) (print_segment (Placeholder n) ++ k) cursor [] names segs
    = parse_loop fuel k cursor' [] (set_insert n names) (segs ++ [Placeholder n]).
Proof.
  intros (Hne & Hh & Hl & Hb).
  destruct (placeholder_loop_plain cursor [] ([ch_space] ++ n ++ [ch_space]) k (cursor + len open2))
    as [c' Hc'].
  { apply Forall_app. split; [by constructor|]. apply Forall_app. split; [done|by constructor]. }
  { by rewrite app_nil_l, trim_spaced. }
  rewrite app_nil_l, trim_spaced in Hc' by done. exists c'.
  assert (Hs : print_segment (Placeholder n) ++ k = open2 ++ ([ch_space] ++ n ++ [ch_space]) ++ close2 ++ k)
    by (unfold print_segment; by simplify_list_eq).
  rewrite Hs. change (parse_loop (S fuel) (open2 ++ ?r) cursor [] names segs) with
    (match parse_placeholder (open2 ++ r) cursor with
     | Err e => Some (Err e)
     | Ok (name, next_rest, next_cursor) =>
         parse_loop fuel next_rest next_cursor [] (set_insert name names)
           (push_literal segs [] ++ [Placeholder name])
     end).
  unfold parse_placeholder. change (drop 2 (open2 ++ ?r)) with r. by rewrite Hc'.
Qed.

(** Literals are not empty and not adjacent, and one before a placeholder does
    not end in an opening brace. *)
Fixpoint canonical (segs : list Segment) : Prop :=
  match segs with
  | [] => True
  | Placeholder n :: segs' => plain_name n /\ canonical segs'
  | Literal t :: segs' =>
      t <> [] /\ canonical segs'
      /\ match segs' with
         | [] => True
         | Literal _ :: _ => False
         | Placeholder _ :: _ => last t <> Some ch_open
         end
  end.

Definition names_of (segs : list Segment) : list str :=
  omap (fun s => match s with Placeholder n => Some n | Literal _ => None end) segs.

Lemma parse_print segs : forall done_segs names fuel cursor,
  canonical segs -> length (print_template segs) < fuel ->
  match last done_segs, segs with Some (Literal _), Literal _ :: _ => False | _, _ => True end ->
  parse_loop fuel (print_template segs) cursor [] names done_segs
  = Some (Ok (mkTemplate (fold_left (fun l n => set_insert n l) (names_of segs) names)
                (done_segs ++ segs))).
Proof.
  induction segs as [|s segs IH]; intros done_segs names fuel cursor Hc Hf Hd.
  { destruct fuel; [simpl in Hf; lia|]. simpl. by rewrite app_nil_r. }
  change (print_template (s :: segs)) with (print_segment s ++ print_template segs) in *.
  destruct s as [t|n].
  - destruct Hc as (Ht & Hc & Hnext). simpl print_segment in *.
    destruct (parse_escape (length t) t (print_template segs) fuel cursor names done_segs)
      as (f' & c' & Hf' & ->); [done| |done|].
    { intros c Hlast Hhead. destruct segs as [|[t'|n'] segs]; try done.
      change (head (print_template (Placeholder n' :: segs))) with (Some ch_open) in Hhead.
      injection Hhead as <-. congruence. }
    rewrite IH; [|done|done|].
    + rewrite push_literal_snoc by done. replace (names_of (Literal t :: segs)) with (names_of segs) by done.
      destruct (last done_segs) as [[]|]; [done|..]; by rewrite <- (assoc_L (++)).
    + generalize (push_literal done_segs t). intros l.
      destruct segs as [|[t'|n'] segs]; [|done|]; by destruct (last l) as [[]|].
  - destruct Hc as [Hn Hc]. destruct fuel as [|fuel]; [lia|].
    destruct (parse_loop_placeholder fuel n (print_template segs) cursor names done_segs Hn) as [c' ->].
    rewrite IH; [|done| |by rewrite last_snoc].
    + by rewrite <- (assoc_L (++)).
    + rewrite length_app in Hf. simpl in Hf. lia.
Qed.

(** Parsing inverts printing: the source made of the escaped literals and
    the placeholders of a canonical list of segments parses to these segments
    and their names.  In particular the escaped form of any text is a template
    that renders to the text. *)
Theorem template_roundtrip segs : canonical segs ->
  template_parse (print_template segs)
  = Some (Ok (mkTemplate (fold_left (fun l n => set_insert n l) (names_of segs) []) segs))
  /\ forall text, render (escape text) [] = Some (Ok text).
Proof.
  intros Hc. split; [apply (parse_print segs [] []); [done|lia|by destruct segs]|].
  intros text. unfold render, template_parse.
  destruct (parse_escape (length text) text [] (S (length (escape text))) 0 [] [])
    as (f' & c' & Hf' & Hp); [done|done|rewrite app_nil_r; lia|].
  rewrite app_nil_r in Hp. rewrite Hp. destruct f' as [|f']; [simpl in Hf'; lia|].
  by destruct text.
Qed.

Lemma template_roundtrip_witness :
  let segs := [Literal (lit "Hello, "); Placeholder (lit "name"); Literal (lit "{{!}}")] in
  canonical segs
  /\ print_template segs = lit "Hello, {{ name }}{{{{!}}}}"
  /\ template_parse (lit "Hello, {{ name }}{{{{!}}}}") = Some (Ok (mkTemplate [lit "name"] segs)).
Proof.
  assert (H : canonical [Literal (lit "Hello, "); Placeholder (lit "name"); Literal (lit "{{!}}")]).
  { repeat split; try discriminate.
    - intros c r [= <- _]. reflexivity.
    - intros c [= <-]. reflexivity.
    - repeat constructor. }
  split; [exact H|]. split; [reflexivity|]. exact (proj1 (template_roundtrip _ H)).
Defined.

(** ** Ordered maps *)

Lemma str_ltb_irrefl a : str_ltb a a = false.
Proof. induction a as [|x a IH]; simpl; [done|]. by rewrite N.ltb_irrefl, N.eqb_refl, IH. Qed.

Lemma str_ltb_trans a b c : str_ltb a b = true -> str_ltb b c = true -> str_ltb a c = true.
Proof.
  revert b c; induction a as [|x a IH]; intros [|y b] [|z c]; simpl; try done.
  rewrite !orb_true_iff, !andb_true_iff, !N.ltb_lt, !N.eqb_eq.
  intros [H1|[-> H1]] [H2|[-> H2]]; [left; lia..|]. right. eauto.
Qed.

Lemma str_ltb_total a b : a <> b -> str_ltb a b = false -> str_ltb b a = true.
Proof.
  revert b; induction a as [|x a IH]; intros [|y b]; simpl; try done.
  rewrite orb_false_iff, orb_true_iff, andb_true_iff, N.ltb_ge, N.ltb_lt, N.eqb_eq.
  destruct (N.eqb_spec x y) as [->|]; [|left; lia]. simpl. intros Hne [_ Hl]. right.
  split; [done|]. apply IH; [congruence|done].
Qed.

Definition sorted_keys (l : list str) : Prop := StronglySorted (fun a b => str_ltb a b = true) l.

Lemma sorted_head_notin k l : Forall (fun b => str_ltb k b = true) l -> k ∉ l.
Proof. intros Hf Hin. apply (proj1 (Forall_forall _ _) Hf) in Hin. by rewrite str_ltb_irrefl in Hin. Qed.

Lemma map_insert_keys k v m x :
  x ∈ map fst (fst (map_insert k v m)) <-> x = k \/ x ∈ map fst m.
Proof.
  induction m as [|[k' v'] m IH]; simpl; [set_solver|].
  destruct (str_eqb k k') eqn:E; [apply str_eqb_eq in E as ->; set_solver|].
  destruct (str_ltb k k'); [set_solver|]. destruct (map_insert k v m) as [m' f]. simpl in *. set_solver.
Qed.

Lemma map_insert_sorted k v m :
  sorted_keys (map fst m) -> sorted_keys (map fst (fst (map_insert k v m))).
Proof.
  induction m as [|[k' v'] m IH]; simpl; intros Hs; [repeat constructor|].
  inversion Hs as [|? ? Hs' Hf]; subst.
  destruct (str_eqb k k') eqn:E; [apply str_eqb_eq in E as ->; by constructor|]. apply str_eqb_neq in E.
  destruct (str_ltb k k') eqn:El.
  - constructor; [done|]. constructor; [done|]. eapply Forall_impl; [done|]. intros b. by apply str_ltb_trans.
  - pose proof (map_insert_keys k v m) as Hk. specialize (IH Hs').
    destruct (map_insert k v m) as [m' f]. simpl in *. constructor; [done|].
    apply Forall_forall. intros x [->|Hx]%Hk; [by apply str_ltb_total|].
    by apply (proj1 (Forall_forall _ _) Hf).
Qed.

Lemma map_insert_found k v m :
  sorted_keys (map fst m) -> snd (map_insert k v m) = bool_decide (k ∈ map fst m).
Proof.
  induction m as [|[k' v'] m IH]; simpl; intros Hs; [done|].
  inversion Hs as [|? ? Hs' Hf]; subst.
  destruct (str_eqb k k') eqn:E.
  { apply str_eqb_eq in E as ->. by rewrite bool_decide_eq_true_2 by (by left). }
  apply str_eqb_neq in E. destruct (str_ltb k k') eqn:El.
  - rewrite bool_decide_eq_false_2; [done|]. intros [|Hin]%elem_of_cons; [done|].
    eapply sorted_head_notin; [|exact Hin]. eapply Forall_impl; [done|]. intros b. by apply str_ltb_trans.
  - specialize (IH Hs'). destruct (map_insert k v m) as [m' f]. simpl in *. rewrite IH.
    apply bool_decide_ext. set_solver.
Qed.

Lemma map_insert_get k v m x :
  map_get x (fst (map_insert k v m)) = if str_eqb x k then Some v else map_get x m.
Proof.
  induction m as [|[k' v'] m IH]; simpl; [done|].
  destruct (str_eqb k k') eqn:E.
  { apply str_eqb_eq in E as ->. simpl. by destruct (str_eqb x k'). }
  apply str_eqb_neq in E. destruct (str_ltb k k'); [done|].
  destruct (map_insert k v m) as [m' f]. simpl in *. rewrite IH.
  destruct (str_eqb x k') eqn:E1, (str_eqb x k) eqn:E2; try done.
  apply str_eqb_eq in E1, E2. congruence.
Qed.

Lemma map_get_in x m : is_Some (map_get x m) <-> x ∈ map fst m.
Proof.
  induction m as [|[k v] m IH]; simpl; [split; [by intros []|set_solver]|].
  destruct (str_eqb x k) eqn:E; [apply str_eqb_eq in E as ->; split; [by left|by eexists]|].
  apply str_eqb_neq in E. rewrite IH. set_solver.
Qed.

(** ** Variables *)

Definition keys (vars : list (str * str)) : list str := map fst vars.

Lemma build_variable_map_spec vars m : sorted_keys (map fst m) ->
  match build_variable_map vars m with
  | Ok m' => NoDup (keys vars) /\ (forall k, k ∈ keys vars -> k ∉ map fst m)
      /\ (forall k, k ∈ map fst m' <-> k ∈ keys vars \/ k ∈ map fst m)
      /\ forall k, map_get k m' = match map_get k vars with Some v => Some v | None => map_get k m end
  | Err e => exists l1 n v l2, e = DuplicateValue n /\ vars = l1 ++ (n, v) :: l2
      /\ NoDup (keys l1) /\ (forall k, k ∈ keys l1 -> k ∉ map fst m)
      /\ (n ∈ keys l1 \/ n ∈ map fst m)
  end.
Proof.
  revert m; induction vars as [|[k v] vars IH]; intros m Hs; simpl.
  { split_and!; [constructor|set_solver|set_solver|done]. }
  pose proof (map_insert_sorted k v m Hs) as Hs'. pose proof (map_insert_found k v m Hs) as Hf.
  pose proof (map_insert_keys k v m) as Hk. pose proof (map_insert_get k v m) as Hg.
  destruct (map_insert k v m) as [m1 found]. simpl in *. subst found. case_bool_decide as Hin.
  { exists [], k, v, vars. split_and!; [done|done|constructor|set_solver|by right]. }
  specialize (IH m1 Hs'). destruct (build_variable_map vars m1) as [m'|e].
  - destruct IH as (Hnd & Hdis & Hkeys & Hget). split_and!.
    + constructor; [|done]. intros Hkin. apply (Hdis k Hkin). set_solver.
    + intros x [->|Hx]%elem_of_cons; [done|]. specialize (Hdis x Hx). set_solver.
    + intros x. rewrite Hkeys, Hk. set_solver.
    + intros x. rewrite Hget, Hg. destruct (str_eqb x k) eqn:E; [|done].
      apply str_eqb_eq in E as ->. destruct (map_get k vars) eqn:Ev; [|done].
      exfalso. apply (Hdis k); [by apply map_get_in; rewrite Ev|]. apply Hk. by left.
  - destruct IH as (l1 & n & v' & l2 & -> & -> & Hnd & Hdis & Hn).
    exists ((k, v) :: l1), n, v', l2. split_and!; try done.
    + simpl. constructor; [|done]. intros Hkin. apply (Hdis k Hkin). apply Hk. by left.
    + intros x [->|Hx]%elem_of_cons; [done|]. specialize (Hdis x Hx). rewrite Hk in Hdis. tauto.
    + destruct Hn as [Hn|[->|Hn]%Hk]; [left; by right|left; by left|by right].
Qed.

Lemma check_missing_spec names m :
  match check_missing names m with
  | Ok _ => forall n, n ∈ names -> n ∈ map fst m
  | Err e => exists n, e = MissingValue n /\ n ∈ names /\ n ∉ map fst m
  end.
Proof.
  induction names as [|n names IH]; simpl; [set_solver|].
  destruct (map_get n m) eqn:E.
  - assert (n ∈ map fst m) by (apply map_get_in; by rewrite E).
    destruct (check_missing names m); [set_solver|]. destruct IH as (x & ? & ? & ?). exists x. set_solver.
  - exists n. split_and!; [done|by left|]. rewrite <- map_get_in, E. by intros [].
Qed.

Lemma check_extra_spec names ks :
  match check_extra names ks with
  | Ok _ => forall k, k ∈ ks -> k ∈ names
  | Err e => exists k, e = ExtraValue k /\ k ∈ ks /\ k ∉ names
  end.
Proof.
  assert (He : forall k, existsb (str_eqb k) names = true <-> k ∈ names).
  { intros k. rewrite existsb_exists. split.
    - intros (x & Hx & ->%str_eqb_eq). by apply list_elem_of_In.
    - intros Hk. exists k. split; [by apply list_elem_of_In|apply str_eqb_refl]. }
  induction ks as [|k ks IH]; simpl; [set_solver|]. specialize (He k).
  destruct (existsb (str_eqb k) names).
  - assert (k ∈ names) by (by apply He). destruct (check_extra names ks); [set_solver|].
    destruct IH as (x & ? & ? & ?). exists x. set_solver.
  - exists k. split_and!; [done|by left|]. rewrite <- He. done.
Qed.

(** The text of a segment under an assignment. *)
Definition segment_text (value : str -> option str) (s : Segment) : str :=
  match s with Literal t => t | Placeholder n => default [] (value n) end.

Lemma render_segments_ok segs m rendered :
  (forall n, n ∈ names_of segs -> n ∈ map fst m) ->
  render_segments segs m rendered
  = Ok (rendered ++ concat (map (segment_text (fun n => map_get n m)) segs)).
Proof.
  revert rendered; induction segs as [|[t|n] segs IH]; intros rendered Hn; simpl.
  - by rewrite app_nil_r.
  - rewrite IH by (intros; by apply Hn). by rewrite <- (assoc_L (++)).
  - assert (is_Some (map_get n m)) as [v Hv] by (apply map_get_in, Hn; by left). rewrite Hv.
    rewrite IH by (intros; apply Hn; by right). simpl. by rewrite <- (assoc_L (++)).
Qed.

Lemma set_insert_in x y l : x ∈ set_insert y l <-> x = y \/ x ∈ l.
Proof.
  induction l as [|z l IH]; simpl; [set_solver|].
  destruct (str_eqb y z) eqn:E; [apply str_eqb_eq in E as ->; set_solver|].
  destruct (str_ltb y z); set_solver.
Qed.

Lemma names_of_push segs t : names_of (push_literal segs t) = names_of segs.
Proof.
  unfold push_literal. destruct (is_nil t); [done|]. unfold names_of.
  destruct segs as [|s segs _] using rev_ind; [done|]. rewrite last_snoc.
  destruct s; [|by rewrite omap_app, app_nil_r].
  rewrite !omap_app, length_app. simpl. rewrite Nat.add_sub, take_app_length. done.
Qed.

(** The names of a parsed template are those of its placeholders. *)
Lemma parse_loop_names fuel rest cursor literal names segs t :
  (forall n, n ∈ names <-> n ∈ names_of segs) ->
  parse_loop fuel rest cursor literal names segs = Some (Ok t) ->
  forall n, n ∈ placeholders t <-> n ∈ names_of (segments t).
Proof.
  revert rest cursor literal names segs; induction fuel as [|fuel IH];
    intros rest cursor literal names segs Hn; [done|]. cbn [parse_loop].
  destruct rest as [|ch rest]; [intros [= <-]; simpl; by rewrite names_of_push|].
  destruct (starts_with open4 _); [apply IH; by rewrite !names_of_push|].
  destruct (starts_with close4 _); [apply IH; by rewrite !names_of_push|].
  destruct (starts_with open2 _).
  - destruct (parse_placeholder _ _) as [[[name next] c]|e]; [|done]. apply IH. intros n.
    rewrite set_insert_in, Hn. unfold names_of at 2. rewrite omap_app.
    fold (names_of (push_literal segs literal)). rewrite names_of_push. simpl. set_solver.
  - destruct (starts_with close2 _); [done|]. by apply IH.
Qed.

(** Rendering succeeds exactly when the template parses and the variables
    are given once each and are the placeholders, and then substitutes every
    placeholder by its value; otherwise the error names a variable given twice,
    or failing that a placeholder without a value, or failing that a variable
    without a placeholder.  Parsing always ends. *)
Theorem render_correct source vars :
  exists parsed, template_parse source = Some parsed
  /\ match parsed with
     | Err e => render source vars = Some (Err (ParseError e))
     | Ok t =>
         let used := names_of (segments t) in
         match render source vars with
         | Some (Ok out) =>
             NoDup (keys vars) /\ (forall n, n ∈ used <-> n ∈ keys vars)
             /\ out = concat (map (segment_text (fun n => map_get n vars)) (segments t))
         | Some (Err (RenderError (DuplicateValue n))) =>
             exists l1 v l2, vars = l1 ++ (n, v) :: l2 /\ NoDup (keys l1) /\ n ∈ keys l1
         | Some (Err (RenderError (MissingValue n))) =>
             NoDup (keys vars) /\ n ∈ used /\ n ∉ keys vars
         | Some (Err (RenderError (ExtraValue n))) =>
             NoDup (keys vars) /\ (forall k, k ∈ used -> k ∈ keys vars) /\ n ∈ keys vars /\ n ∉ used
         | _ => False
         end
     end.
Proof.
  destruct (parse_loop_total (S (length source)) source 0 [] [] []) as [parsed Hp]; [lia|].
  exists parsed. split; [done|]. unfold render. fold (template_parse source) in Hp. rewrite Hp. simpl.
  destruct parsed as [t|e]; [|done].
  assert (Hnames : forall n, n ∈ placeholders t <-> n ∈ names_of (segments t))
    by (by eapply parse_loop_names, Hp).
  simpl. unfold template_render.
  pose proof (build_variable_map_spec vars []) as Hb. destruct (build_variable_map vars []) as [m|e]; simpl.
  2:{ destruct Hb as (l1 & n & v & l2 & -> & -> & Hnd & _ & Hn); [constructor|].
      exists l1, v, l2. split_and!; [done|done|]. destruct Hn as [|Hn]; [done|set_solver]. }
  destruct Hb as (Hnd & _ & Hkeys & Hget); [constructor|].
  assert (Hk : forall k, k ∈ map fst m <-> k ∈ keys vars) by (intros k; rewrite Hkeys; set_solver).
  pose proof (check_missing_spec (placeholders t) m) as Hm.
  destruct (check_missing (placeholders t) m) as [[]|e]; simpl.
  2:{ destruct Hm as (n & -> & Hin & Hout). rewrite Hk in Hout. rewrite Hnames in Hin. done. }
  pose proof (check_extra_spec (placeholders t) (map fst m)) as He.
  destruct (check_extra _ _) as [[]|e]; simpl.
  - rewrite render_segments_ok by (intros n Hn; by apply Hm, Hnames). simpl. split_and!; [done| |].
    + intros n. rewrite <- Hnames, <- Hk. split; [apply Hm|apply He].
    + f_equal. apply map_ext. intros [s|n]; simpl; [done|]. rewrite Hget. by destruct (map_get n vars).
  - destruct He as (n & -> & Hin & Hout). rewrite Hk in Hin. rewrite Hnames in Hout. split_and!; try done.
    intros k Hkin. apply Hk, Hm. by apply Hnames.
Qed.
