(* ===== verification/NetworkPolicy.v ===== *)
(** * network-proxy: host policy

    [policy.rs]: which addresses count as non-public, how hosts are normalized,
    and which domain patterns a constraint contains.  An address is its number;
    the classification helpers of the standard library are written out.
    Parsing an address and parsing a host as a URL does are the class
    [HostParsers]; compiling a glob is a parameter. *)

From Stdlib Require Import Btauto.
From S2P Require Import Prelude RustStr ContextFragments.

(** ** Addresses *)

(** An [Ipv4Addr] is a 32-bit number, an [Ipv6Addr] a 128-bit one. *)
Definition octet (n : N) (ip : N) : N := N.land (N.shiftr ip (8 * (3 - n))) 255.

Definition ipv4 (a b c d : N) : N :=
  (N.shiftl a 24 + N.shiftl b 16 + N.shiftl c 8 + d)%N.

Definition v4_is_loopback (ip : N) : bool := (octet 0 ip =? 127)%N.
Definition v4_is_private (ip : N) : bool :=
  ((octet 0 ip =? 10)
   || (octet 0 ip =? 172) && (16 <=? octet 1 ip) && (octet 1 ip <=? 31)
   || (octet 0 ip =? 192) && (octet 1 ip =? 168))%N.
Definition v4_is_link_local (ip : N) : bool := ((octet 0 ip =? 169) && (octet 1 ip =? 254))%N.
Definition v4_is_unspecified (ip : N) : bool := (ip =? 0)%N.
Definition v4_is_multicast (ip : N) : bool := ((224 <=? octet 0 ip) && (octet 0 ip <=? 239))%N.
Definition v4_is_broadcast (ip : N) : bool := (ip =? 4294967295)%N.

Definition u32_ones : N := 4294967295%N.

Definition ipv4_in_cidr (ip base prefix : N) : bool :=
  let mask := if (prefix =? 0)%N then 0%N
              else N.land (N.shiftl u32_ones (32 - prefix)) u32_ones in
  (N.land ip mask =? N.land base mask)%N.

Definition is_non_public_ipv4 (ip : N) : bool :=
  v4_is_loopback ip
  || v4_is_private ip
  || v4_is_link_local ip
  || v4_is_unspecified ip
  || v4_is_multicast ip
  || v4_is_broadcast ip
  || ipv4_in_cidr ip (ipv4 0 0 0 0) 8
  || ipv4_in_cidr ip (ipv4 100 64 0 0) 10
  || ipv4_in_cidr ip (ipv4 192 0 0 0) 24
  || ipv4_in_cidr ip (ipv4 192 0 2 0) 24
  || ipv4_in_cidr ip (ipv4 198 18 0 0) 15
  || ipv4_in_cidr ip (ipv4 198 51 100 0) 24
  || ipv4_in_cidr ip (ipv4 203 0 113 0) 24
  || ipv4_in_cidr ip (ipv4 240 0 0 0) 4.

(** The first 16-bit segment, and the bits above the embedded IPv4 address. *)
Definition segment0 (ip : N) : N := N.shiftr ip 112.

Definition v6_is_loopback (ip : N) : bool := (ip =? 1)%N.
Definition v6_is_unspecified (ip : N) : bool := (ip =? 0)%N.
Definition v6_is_multicast (ip : N) : bool := (N.land (segment0 ip) 65280 =? 65280)%N.
Definition v6_is_unique_local (ip : N) : bool := (N.land (segment0 ip) 65024 =? 64512)%N.
Definition v6_is_unicast_link_local (ip : N) : bool := (N.land (segment0 ip) 65472 =? 65152)%N.

(** [Ipv6Addr::to_ipv4]: an IPv4-compatible or IPv4-mapped address. *)
Definition to_ipv4 (ip : N) : option N :=
  if ((N.shiftr ip 32 =? 0) || (N.shiftr ip 32 =? 65535))%N then Some (N.land ip u32_ones) else None.

Definition is_non_public_ipv6 (ip : N) : bool :=
  match to_ipv4 ip with
  | Some v4 => is_non_public_ipv4 v4 || v6_is_loopback ip
  | None =>
      v6_is_loopback ip
      || v6_is_unspecified ip
      || v6_is_multicast ip
      || v6_is_unique_local ip
      || v6_is_unicast_link_local ip
  end.

Inductive IpAddr := V4 (ip : N) | V6 (ip : N).

Definition is_non_public_ip (ip : IpAddr) : bool :=
  match ip with V4 ip => is_non_public_ipv4 ip | V6 ip => is_non_public_ipv6 ip end.

Definition ip_is_loopback (ip : IpAddr) : bool :=
  match ip with V4 ip => v4_is_loopback ip | V6 ip => v6_is_loopback ip end.

(** ** Hosts *)

Definition ch_dot : char := 46%N.
Definition ch_colon : char := 58%N.
Definition ch_lbracket : char := 91%N.
Definition ch_rbracket : char := 93%N.
Definition ch_percent : char := 37%N.
Definition ch_star : char := 42%N.
Definition ch_question : char := 63%N.

Definition trim_end_matches (c : char) (s : str) : str := drop_while_end (N.eqb c) s.

(** [parse::<IpAddr>()]; [url::Host::parse] printed back. *)
Class HostParsers := {
  parse_ip : str -> option IpAddr;
  parse_url_host : str -> option str;
}.

Section hosts.
Context {parsers : HostParsers}.

Definition is_ip (s : str) : bool := match parse_ip s with Some _ => true | None => false end.

Definition unscoped_ip_literal (host : str) : option str :=
  '(ip, _) ← split_once ch_percent host;
  if is_ip ip then Some ip else None.

Definition scoped_ip (delimiter : str) (host : str) : option str :=
  '(ip, scope) ← split_once_str delimiter host;
  if is_ip ip then Some (ip ++ lit "%" ++ scope) else None.

Definition normalize_ip_literal (host : str) : option str :=
  if is_ip host then Some host
  else match scoped_ip (lit "%25") host with
       | Some r => Some r
       | None => scoped_ip (lit "%") host
       end.

Definition normalize_dns_host_or_ip_literal (host : str) : str :=
  let host := trim_end_matches ch_dot (to_ascii_lowercase host) in
  default host (normalize_ip_literal host).

Definition count_char (c : char) (s : str) : nat := length (List.filter (N.eqb c) s).

Definition policy_normalize_host (host : str) : str :=
  let host := trim host in
  let unbracketed :=
    if count_char ch_colon host =? 1
    then normalize_dns_host_or_ip_literal (default [] (head (split_on ch_colon host)))
    else normalize_dns_host_or_ip_literal host in
  if starts_with [ch_lbracket] host then
    match split_once ch_rbracket host with
    | Some (before, _) => normalize_dns_host_or_ip_literal (drop 1 before)
    | None => unbracketed
    end
  else unbracketed.

(** [Host::parse] *)
Definition host_parse (input : str) : result str str :=
  let normalized := policy_normalize_host input in
  if is_nil normalized then Err (lit "host is empty") else Ok normalized.

Definition is_loopback_host (host : str) : bool :=
  let host := default host (unscoped_ip_literal host) in
  if str_eqb host (lit "localhost") then true
  else match parse_ip host with Some ip => ip_is_loopback ip | None => false end.

(** ** Domain patterns *)

Definition normalize_pattern (pattern : str) : str :=
  let pattern := trim pattern in
  if str_eqb pattern (lit "*") then lit "*"
  else match strip_prefix (lit "**.") pattern with
       | Some domain => lit "**." ++ policy_normalize_host domain
       | None =>
           match strip_prefix (lit "*.") pattern with
           | Some domain => lit "*." ++ policy_normalize_host domain
           | None => policy_normalize_host pattern
           end
       end.

Inductive DomainPattern :=
| ApexAndSubdomains (domain : str)
| SubdomainsOnly (domain : str)
| Exact (domain : str).

Definition parse_domain (domain : str) (build : str -> DomainPattern) : DomainPattern :=
  let domain := trim domain in
  if is_nil domain then Exact [] else build domain.

Definition domain_pattern_parse (input : str) : DomainPattern :=
  let input := trim input in
  if is_nil input then Exact []
  else match strip_prefix (lit "**.") input with
       | Some domain => parse_domain domain ApexAndSubdomains
       | None =>
           match strip_prefix (lit "*.") input with
           | Some domain => parse_domain domain SubdomainsOnly
           | None => Exact input
           end
       end.

Definition parse_domain_for_constraints (domain : str) : str :=
  let domain := trim_end_matches ch_dot (trim domain) in
  if is_nil domain then []
  else
    let host := if starts_with [ch_lbracket] domain && ends_with [ch_rbracket] domain
                then take (length domain - 2) (drop 1 domain) else domain in
    if contains_char ch_star host || contains_char ch_question host || contains_char ch_percent host
    then domain
    else default [] (parse_url_host host).

Definition parse_for_constraints (input : str) : DomainPattern :=
  let input := trim input in
  if is_nil input then Exact []
  else match strip_prefix (lit "**.") input with
       | Some domain => ApexAndSubdomains (parse_domain_for_constraints domain)
       | None =>
           match strip_prefix (lit "*.") input with
           | Some domain => SubdomainsOnly (parse_domain_for_constraints domain)
           | None => Exact (parse_domain_for_constraints input)
           end
       end.

Definition normalize_domain (domain : str) : str := to_ascii_lowercase (trim_end_matches ch_dot domain).

Definition domain_eq (left right : str) : bool := str_eqb (normalize_domain left) (normalize_domain right).

Definition is_subdomain_or_equal (child parent : str) : bool :=
  let child := normalize_domain child in
  let parent := normalize_domain parent in
  if str_eqb child parent then true else ends_with (lit "." ++ parent) child.

Definition is_strict_subdomain (child parent : str) : bool :=
  let child := normalize_domain child in
  let parent := normalize_domain parent in
  negb (str_eqb child parent) && ends_with (lit "." ++ parent) child.

Definition pattern_allows (self candidate : DomainPattern) : bool :=
  match self with
  | Exact domain =>
      match candidate with Exact candidate => domain_eq candidate domain | _ => false end
  | SubdomainsOnly domain =>
      match candidate with
      | Exact candidate => is_strict_subdomain candidate domain
      | SubdomainsOnly candidate => is_subdomain_or_equal candidate domain
      | ApexAndSubdomains candidate => is_strict_subdomain candidate domain
      end
  | ApexAndSubdomains domain =>
      match candidate with
      | Exact candidate | SubdomainsOnly candidate | ApexAndSubdomains candidate =>
          is_subdomain_or_equal candidate domain
      end
  end.

Definition expand_domain_pattern (pattern : str) : list str :=
  match domain_pattern_parse pattern with
  | Exact domain => [domain]
  | SubdomainsOnly domain => [lit "?*." ++ domain]
  | ApexAndSubdomains domain => [domain; lit "?*." ++ domain]
  end.

Definition is_global_wildcard_domain_pattern (pattern : str) : bool :=
  existsb (str_eqb (lit "*")) (expand_domain_pattern (normalize_pattern pattern)).

Inductive GlobalWildcard := AllowGlobal | RejectGlobal.

Section globs.
(** [GlobBuilder::new(..).case_insensitive(true).build()] *)
Context {Glob : Type} (build_glob : str -> option Glob).

Inductive GlobError := GlobalWildcardError | InvalidGlob (candidate : str).

(** The inner loop: the candidates seen so far and the globs. *)
Fixpoint add_candidates (candidates : list str) (seen : gset str) (globs : list Glob)
    : result (gset str * list Glob) GlobError :=
  match candidates with
  | [] => Ok (seen, globs)
  | candidate :: candidates' =>
      if bool_decide (candidate ∈ seen) then add_candidates candidates' seen globs
      else match build_glob candidate with
           | Some glob => add_candidates candidates' ({[candidate]} ∪ seen) (globs ++ [glob])
           | None => Err (InvalidGlob candidate)
           end
  end.

Fixpoint compile_loop (patterns : list str) (policy : GlobalWildcard) (seen : gset str)
    (globs : list Glob) : result (list Glob) GlobError :=
  match patterns with
  | [] => Ok globs
  | pattern :: patterns' =>
      if match policy with RejectGlobal => is_global_wildcard_domain_pattern pattern
                         | AllowGlobal => false end
      then Err GlobalWildcardError
      else
        let? r := add_candidates (expand_domain_pattern (normalize_pattern pattern)) seen globs in
        compile_loop patterns' policy (fst r) (snd r)
  end.

Definition compile_globset_with_policy (patterns : list str) (policy : GlobalWildcard)
    : result (list Glob) GlobError := compile_loop patterns policy ∅ [].
Definition compile_allowlist_globset (patterns : list str) : result (list Glob) GlobError :=
  compile_globset_with_policy patterns AllowGlobal.
Definition compile_denylist_globset (patterns : list str) : result (list Glob) GlobError :=
  compile_globset_with_policy patterns RejectGlobal.

End globs.
End hosts.

(** ** Address ranges *)

Lemma land_high_mask w x k : (x < 2 ^ w)%N -> (k <= w)%N ->
  N.land x (N.land (N.shiftl (N.ones w) k) (N.ones w)) = N.shiftl (N.shiftr x k) k.
Proof.
  intros Hx Hk. apply N.bits_inj. intros i. rewrite !N.land_spec.
  destruct (N.lt_ge_cases i k) as [Hi|Hi].
  - rewrite !N.shiftl_spec_low by done. by rewrite andb_false_r.
  - rewrite !N.shiftl_spec_high' by done. rewrite N.shiftr_spec', N.sub_add by done.
    destruct (N.lt_ge_cases i w) as [Hw|Hw].
    + rewrite (N.ones_spec_low w i), N.ones_spec_low by lia. by rewrite !andb_true_r.
    + rewrite (N.ones_spec_high w i) by done. rewrite !andb_false_r. symmetry.
      destruct (N.eq_dec x 0) as [->|Hz]; [apply N.bits_0|]. apply N.bits_above_log2.
      apply N.log2_lt_pow2; [lia|]. eapply N.lt_le_trans; [exact Hx|]. by apply N.pow_le_mono_r.
Qed.

(** Comparing under a mask of the bits from [k] up compares the quotients. *)
Lemma masked_eq w x y k : (x < 2 ^ w)%N -> (y < 2 ^ w)%N -> (k <= w)%N ->
  (N.land x (N.land (N.shiftl (N.ones w) k) (N.ones w))
   =? N.land y (N.land (N.shiftl (N.ones w) k) (N.ones w)))%N = (x / 2 ^ k =? y / 2 ^ k)%N.
Proof.
  intros Hx Hy Hk. rewrite !land_high_mask, <- !N.shiftr_div_pow2 by done.
  apply Bool.eq_iff_eq_true. rewrite !N.eqb_eq. split; [|congruence].
  intros H. apply (f_equal (fun x => N.shiftr x k)) in H.
  by rewrite !N.shiftr_shiftl_l, !N.sub_diag, !N.shiftl_0_r in H by lia.
Qed.

(** An address is in a block exactly when it agrees with the base above the
    host bits. *)
Lemma ipv4_in_cidr_spec ip base prefix :
  (ip < 2 ^ 32)%N -> (base < 2 ^ 32)%N -> (0 < prefix <= 32)%N ->
  ipv4_in_cidr ip base prefix = (ip / 2 ^ (32 - prefix) =? base / 2 ^ (32 - prefix))%N.
Proof.
  intros Hip Hbase Hp. unfold ipv4_in_cidr. destruct (N.eqb_spec prefix 0); [lia|].
  change u32_ones with (N.ones 32). apply masked_eq; [done|done|lia].
Qed.

Definition in_range (ip : N) (r : N * N) : bool := ((fst r <=? ip) && (ip <=? snd r))%N.

(** The reserved IPv4 blocks, as first and last address. *)
Definition non_public_ranges : list (N * N) :=
  [(ipv4 0 0 0 0, ipv4 0 255 255 255);
   (ipv4 10 0 0 0, ipv4 10 255 255 255);
   (ipv4 100 64 0 0, ipv4 100 127 255 255);
   (ipv4 127 0 0 0, ipv4 127 255 255 255);
   (ipv4 169 254 0 0, ipv4 169 254 255 255);
   (ipv4 172 16 0 0, ipv4 172 31 255 255);
   (ipv4 192 0 0 0, ipv4 192 0 0 255);
   (ipv4 192 0 2 0, ipv4 192 0 2 255);
   (ipv4 192 168 0 0, ipv4 192 168 255 255);
   (ipv4 198 18 0 0, ipv4 198 19 255 255);
   (ipv4 198 51 100 0, ipv4 198 51 100 255);
   (ipv4 203 0 113 0, ipv4 203 0 113 255);
   (ipv4 224 0 0 0, ipv4 255 255 255 255)]%N.

Lemma octet0_eq ip : (ip < 2 ^ 32)%N -> octet 0 ip = (ip / 16777216)%N.
Proof.
  intros Hip. unfold octet. change 255%N with (N.ones 8). rewrite N.land_ones, N.shiftr_div_pow2.
  apply N.mod_small. change (2 ^ (8 * (3 - 0)))%N with 16777216%N. change (2 ^ 8)%N with 256%N.
  apply N.Div0.div_lt_upper_bound. lia.
Qed.

Lemma octet1_eq ip : octet 1 ip = ((ip / 65536) mod 256)%N.
Proof. unfold octet. change 255%N with (N.ones 8). by rewrite N.land_ones, N.shiftr_div_pow2. Qed.

(** A block of [size] addresses from an aligned base. *)
Lemma block_range ip q size : size <> 0%N ->
  (ip / size =? q)%N = in_range ip (q * size, q * size + size - 1)%N.
Proof.
  intros Hs. unfold in_range. cbn [fst snd]. apply Bool.eq_iff_eq_true.
  rewrite andb_true_iff, N.eqb_eq, !N.leb_le.
  pose proof (N.div_mod ip size Hs) as Hd. pose proof (N.mod_lt ip size Hs) as Hm.
  rewrite (N.mul_comm size) in Hd. revert Hd Hm. generalize (ip / size)%N (ip mod size)%N. intros d m Hd Hm.
  split; [intros <-; lia|]. intros [H1 H2]. destruct (N.lt_trichotomy d q) as [H|[H|H]]; [|done|]; exfalso.
  - assert (d * size + size <= q * size)%N by (replace (d * size + size)%N with ((d + 1) * size)%N by lia;
      apply N.mul_le_mono_r; lia). lia.
  - assert (q * size + size <= d * size)%N by (replace (q * size + size)%N with ((q + 1) * size)%N by lia;
      apply N.mul_le_mono_r; lia). lia.
Qed.

Lemma cidr_range ip q prefix : (ip < 2 ^ 32)%N -> (0 < prefix <= 32)%N ->
  (q * 2 ^ (32 - prefix) < 2 ^ 32)%N ->
  ipv4_in_cidr ip (q * 2 ^ (32 - prefix)) prefix
  = in_range ip (q * 2 ^ (32 - prefix), q * 2 ^ (32 - prefix) + 2 ^ (32 - prefix) - 1)%N.
Proof.
  intros Hip Hp Hq. assert (Hz : (2 ^ (32 - prefix) <> 0)%N) by (apply N.pow_nonzero; lia).
  rewrite ipv4_in_cidr_spec, N.div_mul by done. by apply block_range.
Qed.

Lemma octet0_range ip q : (ip < 2 ^ 32)%N ->
  (octet 0 ip =? q)%N = in_range ip (q * 16777216, q * 16777216 + 16777216 - 1)%N.
Proof. intros Hip. rewrite octet0_eq by done. by apply block_range. Qed.

Ltac Zify.zify_post_hook ::= Z.to_euclidean_division_equations.

Lemma octets_range ip a b : (ip < 2 ^ 32)%N -> (b < 256)%N ->
  ((octet 0 ip =? a) && (octet 1 ip =? b))%N
  = in_range ip ((a * 256 + b) * 65536, (a * 256 + b) * 65536 + 65536 - 1)%N.
Proof.
  intros Hip Hb. rewrite <- block_range, octet0_eq, octet1_eq by done.
  apply Bool.eq_iff_eq_true. rewrite andb_true_iff, !N.eqb_eq. lia.
Qed.

Lemma private_172_range ip : (ip < 2 ^ 32)%N ->
  ((octet 0 ip =? 172) && (16 <=? octet 1 ip) && (octet 1 ip <=? 31))%N
  = in_range ip (ipv4 172 16 0 0, ipv4 172 31 255 255).
Proof.
  intros Hip. rewrite octet0_eq, octet1_eq by done. unfold in_range. apply Bool.eq_iff_eq_true.
  rewrite !andb_true_iff, N.eqb_eq, !N.leb_le.
  change (fst (ipv4 172 16 0 0, ipv4 172 31 255 255)) with 2886729728%N.
  change (snd (ipv4 172 16 0 0, ipv4 172 31 255 255)) with 2887778303%N. lia.
Qed.

Lemma multicast_range ip : (ip < 2 ^ 32)%N ->
  v4_is_multicast ip = in_range ip (ipv4 224 0 0 0, ipv4 239 255 255 255).
Proof.
  intros Hip. unfold v4_is_multicast. rewrite octet0_eq by done. unfold in_range. apply Bool.eq_iff_eq_true.
  rewrite !andb_true_iff, !N.leb_le.
  change (fst (ipv4 224 0 0 0, ipv4 239 255 255 255)) with 3758096384%N.
  change (snd (ipv4 224 0 0 0, ipv4 239 255 255 255)) with 4026531839%N. lia.
Qed.

Ltac Zify.zify_post_hook ::= idtac.

Lemma cidr_ranges ip : (ip < 2 ^ 32)%N ->
  ipv4_in_cidr ip (ipv4 0 0 0 0) 8 = in_range ip (ipv4 0 0 0 0, ipv4 0 255 255 255)
  /\ ipv4_in_cidr ip (ipv4 100 64 0 0) 10 = in_range ip (ipv4 100 64 0 0, ipv4 100 127 255 255)
  /\ ipv4_in_cidr ip (ipv4 192 0 0 0) 24 = in_range ip (ipv4 192 0 0 0, ipv4 192 0 0 255)
  /\ ipv4_in_cidr ip (ipv4 192 0 2 0) 24 = in_range ip (ipv4 192 0 2 0, ipv4 192 0 2 255)
  /\ ipv4_in_cidr ip (ipv4 198 18 0 0) 15 = in_range ip (ipv4 198 18 0 0, ipv4 198 19 255 255)
  /\ ipv4_in_cidr ip (ipv4 198 51 100 0) 24 = in_range ip (ipv4 198 51 100 0, ipv4 198 51 100 255)
  /\ ipv4_in_cidr ip (ipv4 203 0 113 0) 24 = in_range ip (ipv4 203 0 113 0, ipv4 203 0 113 255)
  /\ ipv4_in_cidr ip (ipv4 240 0 0 0) 4 = in_range ip (ipv4 240 0 0 0, ipv4 255 255 255 255).
Proof.
  intros Hip. split_and!.
  - exact (cidr_range ip 0 8 Hip ltac:(lia) eq_refl).
  - exact (cidr_range ip 401 10 Hip ltac:(lia) eq_refl).
  - exact (cidr_range ip 12582912 24 Hip ltac:(lia) eq_refl).
  - exact (cidr_range ip 12582914 24 Hip ltac:(lia) eq_refl).
  - exact (cidr_range ip 25353 15 Hip ltac:(lia) eq_refl).
  - exact (cidr_range ip 12989284 24 Hip ltac:(lia) eq_refl).
  - exact (cidr_range ip 13303921 24 Hip ltac:(lia) eq_refl).
  - exact (cidr_range ip 15 4 Hip ltac:(lia) eq_refl).
Qed.

Lemma in_range_top ip : (ip < 2 ^ 32)%N ->
  v4_is_multicast ip || (v4_is_broadcast ip || in_range ip (ipv4 240 0 0 0, ipv4 255 255 255 255))
  = in_range ip (ipv4 224 0 0 0, ipv4 255 255 255 255).
Proof.
  intros Hip. rewrite multicast_range by done. unfold v4_is_broadcast, in_range. cbn [fst snd].
  change (ipv4 224 0 0 0) with 3758096384%N. change (ipv4 239 255 255 255) with 4026531839%N.
  change (ipv4 240 0 0 0) with 4026531840%N. change (ipv4 255 255 255 255) with 4294967295%N.
  change (2 ^ 32)%N with 4294967296%N in Hip. apply Bool.eq_iff_eq_true.
  rewrite !orb_true_iff, !andb_true_iff, N.eqb_eq, !N.leb_le. lia.
Qed.

Lemma in_range_zero ip :
  v4_is_unspecified ip || in_range ip (ipv4 0 0 0 0, ipv4 0 255 255 255)
  = in_range ip (ipv4 0 0 0 0, ipv4 0 255 255 255).
Proof. unfold v4_is_unspecified. by destruct (N.eqb_spec ip 0) as [->|]. Qed.

Lemma non_public_ipv4_ranges ip : (ip < 2 ^ 32)%N ->
  is_non_public_ipv4 ip = existsb (in_range ip) non_public_ranges.
Proof.
  intros Hip. destruct (cidr_ranges ip Hip) as (E1 & E2 & E3 & E4 & E5 & E6 & E7 & E8).
  pose proof (in_range_top ip Hip) as Etop. pose proof (in_range_zero ip) as Ezero.
  unfold is_non_public_ipv4, v4_is_loopback, v4_is_private, v4_is_link_local.
  rewrite E1, E2, E3, E4, E5, E6, E7, E8, private_172_range, !octets_range, !octet0_range by done.
  change (in_range ip (127 * 16777216, _)%N) with (in_range ip (ipv4 127 0 0 0, ipv4 127 255 255 255)).
  change (in_range ip (10 * 16777216, _)%N) with (in_range ip (ipv4 10 0 0 0, ipv4 10 255 255 255)).
  change (in_range ip ((192 * 256 + 168) * 65536, _)%N)
    with (in_range ip (ipv4 192 168 0 0, ipv4 192 168 255 255)).
  change (in_range ip ((169 * 256 + 254) * 65536, _)%N)
    with (in_range ip (ipv4 169 254 0 0, ipv4 169 254 255 255)).
  unfold non_public_ranges. cbn [existsb]. rewrite <- Etop, <- Ezero. btauto.
Qed.

(** ** IPv6 *)

Definition offset_range (base : N) (r : N * N) : N * N := (base + fst r, base + snd r)%N.

(** The IPv4-compatible and IPv4-mapped forms of the reserved IPv4 blocks, and
    the unique local, link-local and multicast blocks. *)
Definition non_public_v6_ranges : list (N * N) :=
  map (offset_range 0) non_public_ranges
  ++ map (offset_range (65535 * 2 ^ 32)) non_public_ranges
  ++ [(64512 * 2 ^ 112, 65024 * 2 ^ 112 - 1); (65152 * 2 ^ 112, 65216 * 2 ^ 112 - 1);
      (65280 * 2 ^ 112, 65536 * 2 ^ 112 - 1)]%N.

Lemma offset_ranges_shift base r l :
  existsb (in_range (base + r)) (map (offset_range base) l) = existsb (in_range r) l.
Proof.
  induction l as [|[lo hi] l IH]; simpl; [done|]. rewrite IH. f_equal. unfold in_range, offset_range.
  cbn [fst snd]. apply Bool.eq_iff_eq_true. rewrite !andb_true_iff, !N.leb_le. lia.
Qed.

Lemma offset_ranges_outside base ip l :
  Forall (fun r => (snd r < 2 ^ 32)%N) l -> (ip < base \/ base + 2 ^ 32 <= ip)%N ->
  existsb (in_range ip) (map (offset_range base) l) = false.
Proof.
  intros Hl Hip. induction Hl as [|[lo hi] l Hr _ IH]; simpl; [done|]. rewrite IH, orb_false_r.
  unfold in_range, offset_range. cbn [fst snd] in *. apply andb_false_iff. rewrite !N.leb_gt. lia.
Qed.

Lemma ranges_bounded : Forall (fun r => (snd r < 2 ^ 32)%N) non_public_ranges.
Proof. repeat constructor. Qed.

Lemma segment0_block ip q k : (ip < 2 ^ 128)%N ->
  (segment0 ip / 2 ^ k =? q)%N = in_range ip (q * 2 ^ (112 + k), q * 2 ^ (112 + k) + 2 ^ (112 + k) - 1)%N.
Proof.
  intros Hip. unfold segment0. rewrite N.shiftr_div_pow2, N.Div0.div_div, <- N.pow_add_r.
  apply block_range, N.pow_nonzero. lia.
Qed.

Lemma v6_blocks ip : (ip < 2 ^ 128)%N ->
  v6_is_unique_local ip = in_range ip (64512 * 2 ^ 112, 65024 * 2 ^ 112 - 1)%N
  /\ v6_is_unicast_link_local ip = in_range ip (65152 * 2 ^ 112, 65216 * 2 ^ 112 - 1)%N
  /\ v6_is_multicast ip = in_range ip (65280 * 2 ^ 112, 65536 * 2 ^ 112 - 1)%N.
Proof.
  intros Hip. assert (Hs : (segment0 ip < 2 ^ 16)%N).
  { unfold segment0. rewrite N.shiftr_div_pow2. apply N.Div0.div_lt_upper_bound.
    by rewrite <- N.pow_add_r. }
  split_and!.
  - etransitivity; [exact (masked_eq 16 (segment0 ip) 64512 9 Hs eq_refl ltac:(lia))|].
    exact (segment0_block ip 126 9 Hip).
  - etransitivity; [exact (masked_eq 16 (segment0 ip) 65152 6 Hs eq_refl ltac:(lia))|].
    exact (segment0_block ip 1018 6 Hip).
  - etransitivity; [exact (masked_eq 16 (segment0 ip) 65280 8 Hs eq_refl ltac:(lia))|].
    exact (segment0_block ip 255 8 Hip).
Qed.

Lemma small_not_in_blocks ip : (ip < 2 ^ 48)%N ->
  existsb (in_range ip) [(64512 * 2 ^ 112, 65024 * 2 ^ 112 - 1); (65152 * 2 ^ 112, 65216 * 2 ^ 112 - 1);
      (65280 * 2 ^ 112, 65536 * 2 ^ 112 - 1)]%N = false.
Proof.
  intros Hip. assert (Hlt : (ip < 64512 * 2 ^ 112)%N) by (etrans; [exact Hip|done]).
  assert (Hr : forall lo hi, (64512 * 2 ^ 112 <= lo)%N -> in_range ip (lo, hi) = false).
  { intros lo hi Hlo. unfold in_range. cbn [fst snd]. rewrite (proj2 (N.leb_gt _ _)); [done|].
    by eapply N.lt_le_trans. }
  unfold existsb. rewrite !Hr by done. done.
Qed.

Lemma non_public_ipv6_ranges ip : (ip < 2 ^ 128)%N ->
  is_non_public_ipv6 ip = existsb (in_range ip) non_public_v6_ranges.
Proof.
  intros Hip. destruct (v6_blocks ip Hip) as (E1 & E2 & E3).
  assert (H32 : (2 ^ 32 = 4294967296)%N) by reflexivity.
  assert (H48 : (2 ^ 48 = 281474976710656)%N) by reflexivity.
  unfold is_non_public_ipv6, to_ipv4, non_public_v6_ranges. rewrite !existsb_app.
  change u32_ones with (N.ones 32). rewrite N.land_ones, N.shiftr_div_pow2.
  assert (Hz : (2 ^ 32 <> 0)%N) by (apply N.pow_nonzero; lia).
  pose proof (N.div_mod ip (2 ^ 32) Hz) as Hd. pose proof (N.mod_lt ip (2 ^ 32) Hz) as Hm. clear Hz.
  rewrite H32 in Hd at 1.
  destruct (N.eqb_spec (ip / 2 ^ 32) 0) as [Hq|Hq]; [rewrite orb_true_l|rewrite orb_false_l].
  - rewrite Hq, N.mul_0_r, N.add_0_l in Hd. rename Hd into Hr. rewrite <- Hr in Hm.
    rewrite small_not_in_blocks by lia.
    rewrite (offset_ranges_outside (65535 * 2 ^ 32)) by (apply ranges_bounded || lia).
    rewrite !orb_false_r, <- Hr. replace (existsb _ (map _ _)) with (existsb (in_range ip) non_public_ranges).
    2:{ rewrite <- (offset_ranges_shift 0 ip). by rewrite N.add_0_l. }
    rewrite non_public_ipv4_ranges by lia.
    unfold v6_is_loopback. destruct (N.eqb_spec ip 1) as [->|]; [done|by rewrite orb_false_r].
  - destruct (N.eqb_spec (ip / 2 ^ 32) 65535) as [Hq2|Hq2].
    + rewrite Hq2 in Hd. set (r := (ip mod 2 ^ 32)%N) in *. clearbody r.
      rewrite small_not_in_blocks by lia.
      rewrite (offset_ranges_outside 0) by (apply ranges_bounded || lia).
      rewrite orb_false_l, orb_false_r. replace ip with (65535 * 2 ^ 32 + r)%N by lia.
      rewrite offset_ranges_shift. rewrite non_public_ipv4_ranges by lia.
      unfold v6_is_loopback. destruct (N.eqb_spec (65535 * 2 ^ 32 + r) 1); [lia|by rewrite orb_false_r].
    + assert (Hout : (2 ^ 32 <= ip /\ (ip < 65535 * 2 ^ 32 \/ 65536 * 2 ^ 32 <= ip))%N).
      { revert Hd Hm Hq Hq2. generalize (ip / 2 ^ 32)%N (ip mod 2 ^ 32)%N. intros; lia. }
      rewrite !offset_ranges_outside by (apply ranges_bounded || lia).
      rewrite E1, E2, E3. unfold v6_is_loopback, v6_is_unspecified.
      destruct (N.eqb_spec ip 1) as [->|]; [done|]. destruct (N.eqb_spec ip 0) as [->|]; [done|].
      cbn [existsb]. btauto.
Qed.

(** An address is treated as non-public exactly when it is in one of the
    listed reserved ranges: for IPv4 the ranges by their first and last
    address, for IPv6 the unique local, link-local and multicast blocks and
    both embeddings of the IPv4 ranges, so that an IPv4-mapped address is
    judged as the address it carries. *)
Theorem non_public_addresses :
  (forall ip, (ip < 2 ^ 32)%N -> is_non_public_ip (V4 ip) = existsb (in_range ip) non_public_ranges)
  /\ (forall ip, (ip < 2 ^ 128)%N ->
      is_non_public_ip (V6 ip) = existsb (in_range ip) non_public_v6_ranges)
  /\ (forall ip, (ip < 2 ^ 32)%N ->
      is_non_public_ip (V6 (65535 * 2 ^ 32 + ip)) = is_non_public_ip (V4 ip)).
Proof.
  split_and!; [apply non_public_ipv4_ranges|apply non_public_ipv6_ranges|].
  intros ip Hip. unfold is_non_public_ip, is_non_public_ipv6, to_ipv4.
  rewrite N.shiftr_div_pow2, N.div_add_l, N.div_small, N.add_0_r by (done || (apply N.pow_nonzero; lia)).
  change ((65535 =? 0) || (65535 =? 65535))%N with true. cbv iota.
  change u32_ones with (N.ones 32).
  rewrite N.land_ones, N.add_comm, N.Div0.mod_add, N.mod_small by exact Hip.
  unfold v6_is_loopback. assert (H32 : (2 ^ 32 = 4294967296)%N) by reflexivity.
  destruct (N.eqb_spec (ip + 65535 * 2 ^ 32) 1); [lia|apply orb_false_r].
Qed.

(** ** Domain patterns *)

(** The hosts of a pattern, in normal form. *)
Definition covers (p : DomainPattern) (h : str) : Prop :=
  match p with
  | Exact d => h = normalize_domain d
  | SubdomainsOnly d => ([ch_dot] ++ normalize_domain d) `suffix_of` h
  | ApexAndSubdomains d => h = normalize_domain d \/ ([ch_dot] ++ normalize_domain d) `suffix_of` h
  end.

Lemma strict_subdomain_spec c d : is_strict_subdomain c d = true <->
  ([ch_dot] ++ normalize_domain d) `suffix_of` normalize_domain c.
Proof.
  unfold is_strict_subdomain. change (lit ".") with [ch_dot].
  rewrite andb_true_iff, ends_with_spec, negb_true_iff. split; [by intros [_ ?]|].
  intros Hs. split; [|done]. apply str_eqb_neq. intros He. rewrite He in Hs.
  apply suffix_length in Hs. rewrite length_app in Hs. simpl in Hs. lia.
Qed.

Lemma subdomain_or_equal_spec c d : is_subdomain_or_equal c d = true <->
  normalize_domain c = normalize_domain d
  \/ ([ch_dot] ++ normalize_domain d) `suffix_of` normalize_domain c.
Proof.
  unfold is_subdomain_or_equal. change (lit ".") with [ch_dot].
  destruct (str_eqb _ _) eqn:E; [apply str_eqb_eq in E; naive_solver|].
  apply str_eqb_neq in E. rewrite ends_with_spec. naive_solver.
Qed.

(** A label without dots in front of [c] leaves no other way to end in [.d]. *)
Lemma suffix_past_label (w c d : str) : ch_dot ∉ w ->
  ([ch_dot] ++ d) `suffix_of` (w ++ [ch_dot] ++ c) -> c = d \/ ([ch_dot] ++ d) `suffix_of` c.
Proof.
  intros Hw [q Hq]. apply app_eq_inv in Hq as [(k & -> & Hk)|(k & -> & Hk)].
  - destruct k as [|x k]; [injection Hk as ->; by left|]. injection Hk as <- _. set_solver.
  - destruct k as [|x k]; [injection Hk as ->; by left|]. injection Hk as _ ->. right. by exists k.
Qed.

Definition long_label (d : str) : str := replicate (S (length d)) 97%N.

Lemma long_label_no_dot d : ch_dot ∉ long_label d.
Proof. unfold long_label. intros Hin. apply elem_of_replicate in Hin as [? _]. done. Qed.

Lemma long_label_host d c : long_label d ++ [ch_dot] ++ c <> d.
Proof.
  intros He. apply (f_equal length) in He. unfold long_label in He.
  rewrite length_app, length_replicate in He. lia.
Qed.

Lemma subdomain_covered (c d h : str) :
  c = d \/ ([ch_dot] ++ d) `suffix_of` c -> ([ch_dot] ++ c) `suffix_of` h -> ([ch_dot] ++ d) `suffix_of` h.
Proof.
  intros [->|Hs] Hh; [done|]. etrans; [exact Hs|]. etrans; [|exact Hh]. by apply suffix_app_r.
Qed.

(** A constraint allows a candidate pattern exactly when every host the
    candidate covers is covered by the constraint, for exact hosts, strict
    subdomains and apex with subdomains alike; case and trailing dots do not
    matter. *)
Theorem pattern_allows_is_containment p c :
  pattern_allows p c = true <-> forall h, covers c h -> covers p h.
Proof.
  destruct p as [d|d|d], c as [c|c|c]; cbn [pattern_allows covers];
    rewrite ?strict_subdomain_spec, ?subdomain_or_equal_spec;
    set (C := normalize_domain c); set (D := normalize_domain d).
  - split; [|intros H; by apply H; left].
    intros Hs h [->|Hh]; [done|]. right. by eapply subdomain_covered.
  - split; [intros Hs h Hh; right; by eapply subdomain_covered|]. intros H.
    destruct (H (long_label D ++ [ch_dot] ++ C)) as [He|Hs]; [by apply suffix_app_r| |].
    + by apply long_label_host in He.
    + eapply suffix_past_label; [apply (long_label_no_dot D)|exact Hs].
  - split; [by intros Hs h ->|]. intros H. by apply H.
  - split; [|intros H; apply H; by left].
    intros Hs h [->|Hh]; [done|]. eapply subdomain_covered; [by right|done].
  - split; [intros Hs h Hh; by eapply subdomain_covered|]. intros H.
    eapply suffix_past_label; [apply (long_label_no_dot D)|]. apply H. by apply suffix_app_r.
  - split; [by intros Hs h ->|]. intros H. by apply H.
  - split; [done|]. intros H. pose proof (H C (or_introl eq_refl)) as H1.
    pose proof (H ([ch_dot] ++ C) (or_intror (reflexivity _))) as H2.
    rewrite H1 in H2. apply (f_equal length) in H2. rewrite length_app in H2. simpl in H2. lia.
  - split; [done|]. intros H. pose proof (H (long_label D ++ [ch_dot] ++ C)) as H1.
    exfalso. apply (long_label_host D C). apply H1. by apply suffix_app_r.
  - unfold domain_eq. fold C D. rewrite str_eqb_eq. split; [by intros -> h ->|]. intros H. by apply H.
Qed.
