(* ===== verification/ShellCommand.v ===== *)
(** * shell-command: reading shell scripts

    [bash.rs], [detect_shell_type] of [shell_detect.rs] and
    [command_safety/is_dangerous_command.rs], on a Unix build.  The syntax tree
    of a script comes from the tree-sitter parser: a tree of [Node]s is data
    here, and the parser is the class [BashParser].  A node carries its text,
    [None] when it is not UTF-8. *)

From Stdlib Require Import Btauto.
From S2P Require Import Prelude RustStr.

(** ** Syntax trees *)

Inductive Node := mkNode {
  kind : str;
  is_named : bool;
  utf8_text : option str;
  start_byte : nat;
  children : list Node;
}.

Record Tree := mkTree {
  root_node : Node;
  has_error : bool;
}.

Class BashParser := {
  try_parse_shell : str -> option Tree;
}.

Definition named_children (n : Node) : list Node := List.filter is_named (children n).

Definition kind_is (k : str) (n : Node) : bool := str_eqb (kind n) k.

Fixpoint tree_size (n : Node) : nat :=
  match n with
  | mkNode _ _ _ _ cs => S (fold_right (fun c s => tree_size c + s) 0 cs)
  end.

(** ** Words *)

Definition ch_bslash : char := 92%N.
Definition ch_dollar : char := 36%N.
Definition ch_backtick : char := 96%N.
Definition ch_equals : char := 61%N.

(** [{ } * ? [ ] \ ~ ^ # $ `] *)
Definition is_expansion_char (c : char) : bool :=
  existsb (N.eqb c) [123; 125; 42; 63; 91; 93; 92; 126; 94; 35; 36; 96]%N.

Definition is_literal_text (word : str) : bool :=
  negb (starts_with [ch_equals] word) && negb (existsb is_expansion_char word).

Definition is_literal_word_or_number (n : Node) : bool :=
  (kind_is (lit "word") n || kind_is (lit "number") n)
  && is_nil (named_children n)
  && match utf8_text n with Some word => is_literal_text word | None => false end.

(** [windows(2)]: a backslash before a character it escapes in double quotes. *)
Fixpoint has_escape (s : str) : bool :=
  match s with
  | a :: (b :: _) as s' =>
      ((a =? ch_bslash)%N
       && existsb (N.eqb b) [ch_dollar; ch_backtick; ch_dquote; ch_bslash; ch_lf])
      || has_escape s'
  | _ => false
  end.

Definition unquote (q : char) (raw : str) : option str :=
  text ← strip_prefix [q] raw; strip_suffix [q] text.

Definition parse_double_quoted_string (n : Node) : option str :=
  if negb (kind_is (lit "string") n) then None
  else if existsb (fun part => negb (kind_is (lit "string_content") part)) (named_children n) then None
  else
    raw ← utf8_text n;
    stripped ← unquote ch_dquote raw;
    if has_escape stripped then None else Some stripped.

Definition parse_raw_string (n : Node) : option str :=
  if negb (kind_is (lit "raw_string") n) then None
  else raw_string ← utf8_text n; unquote ch_squote raw_string.

(** ** Plain commands *)

Definition parse_plain_part (n : Node) : option str :=
  if kind_is (lit "word") n || kind_is (lit "number") n then utf8_text n
  else if kind_is (lit "string") n then parse_double_quoted_string n
  else if kind_is (lit "raw_string") n then parse_raw_string n
  else None.

Fixpoint concat_parts (parts : list Node) : option str :=
  match parts with
  | [] => Some []
  | part :: parts' => a ← parse_plain_part part; b ← concat_parts parts'; Some (a ++ b)
  end.

Definition parse_plain_child (child : Node) : option str :=
  if kind_is (lit "command_name") child then
    word_node ← head (named_children child);
    if kind_is (lit "word") word_node then utf8_text word_node else None
  else if kind_is (lit "concatenation") child then
    concatenated ← concat_parts (named_children child);
    if is_nil concatenated then None else Some concatenated
  else parse_plain_part child.

Fixpoint all_words (f : Node -> option str) (l : list Node) : option (list str) :=
  match l with
  | [] => Some []
  | n :: l' => w ← f n; ws ← all_words f l'; Some (w :: ws)
  end.

Definition parse_plain_command_from_node (cmd : Node) : option (list str) :=
  if negb (kind_is (lit "command") cmd) then None
  else all_words parse_plain_child (named_children cmd).

(** ** Word-only command sequences *)

Definition ALLOWED_KINDS : list str :=
  [lit "program"; lit "list"; lit "pipeline"; lit "command"; lit "command_name"; lit "word";
   lit "string"; lit "string_content"; lit "raw_string"; lit "number"; lit "concatenation"].

Definition ALLOWED_PUNCT_TOKENS : list str :=
  [lit "&&"; lit "||"; lit ";"; lit "|"; [ch_dquote]; [ch_squote]].

Definition mem (x : str) (l : list str) : bool := existsb (str_eqb x) l.

(** The checks of the loop on one node. *)
Definition node_allowed (n : Node) : bool :=
  if is_named n then
    mem (kind n) ALLOWED_KINDS
    && negb ((kind_is (lit "word") n || kind_is (lit "number") n) && negb (is_literal_word_or_number n))
  else
    negb (existsb (fun c => existsb (N.eqb c) [38; 59; 124]%N) (kind n)
          && negb (mem (kind n) ALLOWED_PUNCT_TOKENS))
    && (mem (kind n) ALLOWED_PUNCT_TOKENS || is_nil (trim (kind n))).

(** The loop: the stack with its top first, the command nodes so far. *)
Fixpoint collect_commands (fuel : nat) (stack : list Node) (command_nodes : list Node)
    : option (list Node) :=
  match fuel with
  | 0 => None
  | S fuel' =>
      match stack with
      | [] => Some command_nodes
      | node :: stack' =>
          if node_allowed node then
            collect_commands fuel' (rev (children node) ++ stack')
              (if is_named node && kind_is (lit "command") node
               then command_nodes ++ [node] else command_nodes)
          else None
      end
  end.

Fixpoint parse_all (nodes : list Node) : option (list (list str)) :=
  match nodes with
  | [] => Some []
  | n :: nodes' => words ← parse_plain_command_from_node n; rest ← parse_all nodes'; Some (words :: rest)
  end.

Definition try_parse_word_only_commands_sequence (tree : Tree) : option (list (list str)) :=
  if has_error tree then None
  else
    command_nodes ← collect_commands (S (tree_size (root_node tree))) [root_node tree] [];
    parse_all (sort_by_key start_byte command_nodes).

(** ** Literal commands *)

Fixpoint parse_literal_shell_word (n : Node) : option str :=
  match n with
  | mkNode k _ text _ cs =>
      if str_eqb k (lit "word") || str_eqb k (lit "number") then
        if is_literal_word_or_number n then text else None
      else if str_eqb k (lit "string") then parse_double_quoted_string n
      else if str_eqb k (lit "raw_string") then parse_raw_string n
      else if str_eqb k (lit "concatenation") then
        concatenated ←
          (fix parts (l : list Node) : option str :=
             match l with
             | [] => Some []
             | c :: l' => if is_named c
                          then a ← parse_literal_shell_word c; b ← parts l'; Some (a ++ b)
                          else parts l'
             end) cs;
        if is_nil concatenated then None else Some concatenated
      else None
  end.

(** The loop over the children, with [found_command_name] and the words. *)
Fixpoint literal_words (l : list Node) (found : bool) (words : list str) : option (bool * list str) :=
  match l with
  | [] => Some (found, words)
  | child :: l' =>
      if kind_is (lit "command_name") child then
        first ← head (named_children child);
        command_name ← parse_literal_shell_word first;
        literal_words l' true (words ++ [command_name])
      else if found then
        literal_words l' found
          (match parse_literal_shell_word child with Some word => words ++ [word] | None => words end)
      else literal_words l' found words
  end.

Definition parse_literal_command_from_node (cmd : Node) : option (list str) :=
  if negb (kind_is (lit "command") cmd) then None
  else
    '(found, words) ← literal_words (named_children cmd) false [];
    if (found : bool) then Some words else None.

(** The loop of [parse_shell_lc_literal_commands]. *)
Fixpoint collect_literal (fuel : nat) (stack : list Node) (commands : list (list str))
    : option (list (list str)) :=
  match fuel with
  | 0 => None
  | S fuel' =>
      match stack with
      | [] => Some commands
      | node :: stack' =>
          collect_literal fuel' (rev (named_children node) ++ stack')
            (match parse_literal_command_from_node node with
             | Some command => if kind_is (lit "command") node then commands ++ [command] else commands
             | None => commands
             end)
      end
  end.

(** ** Shells and executables *)

Inductive ShellType := Zsh | Bash | PowerShell | Sh | Cmd.

Definition path_sep : char := 47%N.

(** [Path::components]: the root, a leading [.], and the other parts. *)
Definition components (p : str) : list str :=
  let significant := List.filter (fun c => negb (is_nil c) && negb (str_eqb c (lit "."))) in
  match split_on path_sep p with
  | [] => []
  | first :: rest =>
      if starts_with [path_sep] p then lit "/" :: significant rest
      else (if str_eqb first (lit ".") then [first] else significant [first]) ++ significant rest
  end.

Definition file_name (p : str) : option str :=
  name ← last (components p);
  if mem name [lit "/"; lit "."; lit ".."] then None else Some name.

Definition file_stem (p : str) : option str :=
  name ← file_name p;
  Some (match rsplit_once 46%N name with
        | Some (before, _) => if is_nil before then name else before
        | None => name
        end).

(** A step of the recursion shortens the path, so its length bounds the depth. *)
Fixpoint detect_shell_type_loop (fuel : nat) (shell_path : str) : option ShellType :=
  match fuel with
  | 0 => None
  | S fuel' =>
      if str_eqb shell_path (lit "zsh") then Some Zsh
      else if str_eqb shell_path (lit "sh") then Some Sh
      else if str_eqb shell_path (lit "cmd") then Some Cmd
      else if str_eqb shell_path (lit "bash") then Some Bash
      else if str_eqb shell_path (lit "pwsh") then Some PowerShell
      else if str_eqb shell_path (lit "powershell") then Some PowerShell
      else match file_stem shell_path with
           | Some shell_name =>
               if negb (bool_decide (components shell_name = components shell_path))
               then detect_shell_type_loop fuel' shell_name else None
           | None => None
           end
  end.

Definition detect_shell_type (shell_path : str) : option ShellType :=
  detect_shell_type_loop (S (length shell_path)) shell_path.

Definition extract_bash_command (command : list str) : option (str * str) :=
  match command with
  | [shell; flag; script] =>
      if (str_eqb flag (lit "-lc") || str_eqb flag (lit "-c"))
         && match detect_shell_type shell with Some Zsh | Some Bash | Some Sh => true | _ => false end
      then Some (shell, script) else None
  | _ => None
  end.

Section scripts.
Context {parser : BashParser}.

Definition parse_shell_script_into_commands (script : str) : option (list (list str)) :=
  tree ← try_parse_shell script; try_parse_word_only_commands_sequence tree.

Definition parse_shell_lc_plain_commands (command : list str) : option (list (list str)) :=
  '(_, script) ← extract_bash_command command; parse_shell_script_into_commands script.

Definition parse_shell_lc_literal_commands (command : list str) : option (list (list str)) :=
  '(_, script) ← extract_bash_command command;
  tree ← try_parse_shell script;
  if has_error tree then None
  else collect_literal (S (tree_size (root_node tree))) [root_node tree] [].

(** ** Dangerous commands *)

Inductive DangerousCommandMatch := ForcedRm | OtherMatch.

Definition MAX_DANGEROUS_COMMAND_WRAPPER_DEPTH : nat := 8.

Fixpoint take_while_not_dashdash (args : list str) : list str :=
  match args with
  | [] => []
  | a :: args' => if str_eqb a (lit "--") then [] else a :: take_while_not_dashdash args'
  end.

Definition rm_args_include_force_option (args : list str) : bool :=
  existsb (fun arg =>
      str_eqb arg (lit "--force")
      || match strip_prefix (lit "-") arg with
         | Some flags => negb (starts_with (lit "-") flags) && contains_char 102%N flags
         | None => false
         end)
    (take_while_not_dashdash args).

(** The arguments after the options and assignments of [env]. *)
Fixpoint skip_env_arguments (args : list str) : list str :=
  match args with
  | [] => []
  | argument :: args' =>
      if str_eqb argument (lit "--") then args'
      else if str_eqb argument (lit "-i") || str_eqb argument (lit "--ignore-environment")
              || match split_once ch_equals argument with
                 | Some (name, _) => negb (is_nil name) && negb (starts_with (lit "-") name)
                 | None => false
                 end
      then skip_env_arguments args'
      else args
  end.

(** The shell command of a [trap] action. *)
Definition trap_action (args : list str) : option (list str) :=
  let args := match args with
              | first :: rest => if str_eqb first (lit "--") then rest else args
              | [] => args
              end in
  action ← head args;
  if starts_with (lit "-") action then None else Some [lit "sh"; lit "-c"; action].

(** [dangerous_command_match_with_depth] when [levels] more wrappers may be
    opened: [levels = MAX + 1 - wrapper_depth], so that no level is left exactly
    when the depth exceeds the maximum. *)
Fixpoint dangerous_command_match_with_depth (levels : nat) (command : list str)
    : option DangerousCommandMatch :=
  match levels with
  | 0 => Some OtherMatch
  | S levels' =>
      let for_exec :=
        match command with
        | [] => None
        | cmd0 :: args =>
            match file_name cmd0 with
            | Some name =>
                if str_eqb name (lit "rm") then
                  if rm_args_include_force_option args then Some ForcedRm else None
                else if str_eqb name (lit "sudo") then dangerous_command_match_with_depth levels' args
                else if str_eqb name (lit "env") then
                  dangerous_command_match_with_depth levels' (skip_env_arguments args)
                else if str_eqb name (lit "trap") then
                  action ← trap_action args; dangerous_command_match_with_depth levels' action
                else None
            | None => None
            end
        end in
      match for_exec with
      | Some dangerous_match => Some dangerous_match
      | None =>
          commands ← parse_shell_lc_literal_commands command;
          find_map (dangerous_command_match_with_depth levels') commands
      end
  end.

Definition dangerous_command_match (command : list str) : option DangerousCommandMatch :=
  dangerous_command_match_with_depth (MAX_DANGEROUS_COMMAND_WRAPPER_DEPTH + 1) command.

End scripts.

Example detect_examples :
  detect_shell_type (lit "/bin/bash") = Some Bash /\ detect_shell_type (lit "./zsh.real") = Some Zsh
  /\ detect_shell_type (lit "/usr/bin/fish") = None /\ detect_shell_type (lit "bash/") = None
  /\ file_name (lit "/usr/bin/rm/.") = Some (lit "rm") /\ file_name (lit "a/..") = None.
Proof. by vm_compute. Qed.

(** ** Walks *)

(** The nodes below [n], children kept by [keep], last child first: the order
    of a walk with a stack. *)
Fixpoint visit (keep : Node -> bool) (n : Node) : list Node :=
  match n with
  | mkNode _ _ _ _ cs =>
      n :: (fix go (l : list Node) : list Node :=
              match l with
              | [] => []
              | c :: l' => go l' ++ (if keep c then visit keep c else [])
              end) cs
  end.

(** Source order. *)
Fixpoint preorder (n : Node) : list Node :=
  match n with mkNode _ _ _ _ cs => n :: flat_map preorder cs end.

Definition stack_size (stack : list Node) : nat := fold_right (fun c s => tree_size c + s) 0 stack.

Lemma tree_size_eq n : tree_size n = S (stack_size (children n)).
Proof. by destruct n. Qed.

Lemma stack_size_app l1 l2 : stack_size (l1 ++ l2) = stack_size l1 + stack_size l2.
Proof. unfold stack_size. induction l1; simpl; lia. Qed.

Lemma stack_size_rev l : stack_size (rev l) = stack_size l.
Proof. induction l; simpl; [done|]. rewrite stack_size_app. simpl. lia. Qed.

Lemma stack_size_filter f l : stack_size (List.filter f l) <= stack_size l.
Proof. induction l as [|n l IH]; simpl; [lia|]. destruct (f n); simpl; lia. Qed.

Definition visits (keep : Node -> bool) (stack : list Node) : list Node := flat_map (visit keep) stack.

Lemma visit_eq keep n :
  visit keep n = n :: visits keep (rev (List.filter keep (children n))).
Proof.
  destruct n as [k nm t s cs]. cbn [visit children]. f_equal. unfold visits.
  induction cs as [|c cs IH]; [done|]. simpl. rewrite IH. destruct (keep c); simpl.
  - rewrite flat_map_app. simpl. by rewrite app_nil_r.
  - by rewrite app_nil_r.
Qed.

Lemma visits_cons keep n stack :
  visits keep (n :: stack) = n :: visits keep (rev (List.filter keep (children n)) ++ stack).
Proof. unfold visits. rewrite flat_map_app. simpl. by rewrite visit_eq. Qed.

Lemma filter_all {A} (l : list A) : List.filter (fun _ => true) l = l.
Proof. induction l; simpl; congruence. Qed.

Definition is_command (n : Node) : bool := is_named n && kind_is (lit "command") n.

Lemma collect_commands_spec fuel stack acc : stack_size stack < fuel ->
  let nodes := visits (fun _ => true) stack in
  collect_commands fuel stack acc
  = if forallb node_allowed nodes then Some (acc ++ List.filter is_command nodes) else None.
Proof.
  revert stack acc; induction fuel as [|fuel IH]; intros stack acc Hf; [lia|]. cbn [collect_commands].
  destruct stack as [|n stack]; [simpl; by rewrite app_nil_r|]. rewrite visits_cons, filter_all.
  cbn [forallb List.filter]. destruct (node_allowed n); [|done]. simpl andb. rewrite IH.
  - case_match; [|done]. unfold is_command at 2. destruct (is_named n && _); [|done].
    by rewrite <- (assoc_L (++)).
  - rewrite stack_size_app, stack_size_rev. pose proof (tree_size_eq n). simpl in Hf. lia.
Qed.

Lemma collect_literal_spec fuel stack acc : stack_size stack < fuel ->
  collect_literal fuel stack acc
  = Some (acc ++ omap parse_literal_command_from_node (visits is_named stack)).
Proof.
  revert stack acc; induction fuel as [|fuel IH]; intros stack acc Hf; [lia|]. cbn [collect_literal].
  destruct stack as [|n stack]; [simpl; by rewrite app_nil_r|]. rewrite visits_cons.
  fold (named_children n). rewrite IH.
  - cbn [omap list_omap]. unfold parse_literal_command_from_node at 1 3.
    destruct (kind_is (lit "command") n); simpl; [|done].
    destruct (literal_words _ _ _) as [[found words]|]; simpl; [|done]. destruct found; [|done].
    by rewrite <- (assoc_L (++)).
  - rewrite stack_size_app, stack_size_rev. pose proof (tree_size_eq n).
    pose proof (stack_size_filter is_named (children n)). simpl in Hf. unfold named_children. lia.
Qed.

(** A walk visits the nodes of the tree, each once. *)
Lemma visit_preorder n : visit (fun _ => true) n ≡ₚ preorder n.
Proof.
  assert (Hk : forall k n, tree_size n <= k -> visit (fun _ => true) n ≡ₚ preorder n);
    [|by apply (Hk (tree_size n))].
  clear n. induction k as [|k IH]; intros n Hn; [rewrite tree_size_eq in Hn; lia|].
  rewrite visit_eq, filter_all. rewrite tree_size_eq in Hn. destruct n as [kd nm t s cs].
  cbn [preorder children] in *. apply perm_skip. unfold visits.
  assert (Hcs : Forall (fun c => tree_size c <= k) cs).
  { clear -Hn. induction cs as [|c cs IHc]; constructor; simpl in *; [lia|]. apply IHc. lia. }
  clear Hn. induction Hcs as [|c cs Hc Hcs IHc]; [done|]. simpl. rewrite flat_map_app. simpl.
  rewrite app_nil_r, IHc, IH by done. apply Permutation_app_comm.
Qed.

Lemma filter_perm {A} (f : A -> bool) l1 l2 : l1 ≡ₚ l2 -> List.filter f l1 ≡ₚ List.filter f l2.
Proof.
  induction 1; simpl; repeat case_match; try done; [by apply perm_skip|apply perm_swap|by etrans].
Qed.

Lemma forallb_perm {A} (f : A -> bool) l1 l2 : l1 ≡ₚ l2 -> forallb f l1 = forallb f l2.
Proof. induction 1; simpl; [done|congruence|btauto|congruence]. Qed.

(** A script is read as a sequence of plain commands exactly when its tree
    has no error and every node is allowed: an allowed kind, an operator or
    quote, and for a word or number a text that the shell takes as it is
    written.  The commands are then all the command nodes, in source order,
    and one that is not made of literal words refuses the whole script.  The
    hypotheses say that the parser's nodes carry their source positions. *)
Theorem word_only_sequence_correct tree :
  let commands := List.filter is_command (preorder (root_node tree)) in
  StronglySorted (key_le start_byte) commands -> NoDup (map start_byte commands) ->
  try_parse_word_only_commands_sequence tree
  = (if negb (has_error tree) && forallb node_allowed (preorder (root_node tree))
     then parse_all commands else None)
  /\ (forall n, n ∈ preorder (root_node tree) -> node_allowed n = true ->
      kind n = lit "word" \/ kind n = lit "number" -> is_named n = true ->
      exists text, utf8_text n = Some text /\ is_literal_text text = true).
Proof.
  intros commands Hsorted Hnd. split.
  - unfold try_parse_word_only_commands_sequence. destruct (has_error tree); [done|]. simpl negb.
    rewrite collect_commands_spec by (simpl; lia).
    assert (Hv : visits (fun _ => true) [root_node tree] ≡ₚ preorder (root_node tree)).
    { unfold visits. simpl. rewrite app_nil_r. apply visit_preorder. }
    rewrite (forallb_perm _ _ _ Hv). simpl andb. case_match; [|done]. simpl.
    rewrite (sort_by_key_unique start_byte commands); [done|done|done|].
    by apply filter_perm.
  - intros n _ Hn Hk Hnamed. unfold node_allowed in Hn. rewrite Hnamed in Hn.
    apply andb_true_iff in Hn as [_ Hn]. apply negb_true_iff, andb_false_iff in Hn as [Hn|Hn].
    + apply orb_false_iff in Hn as [H1 H2]. unfold kind_is in *. apply str_eqb_neq in H1, H2. tauto.
    + apply negb_false_iff in Hn. unfold is_literal_word_or_number in Hn.
      apply andb_true_iff in Hn as [_ Hn]. destruct (utf8_text n); [|done]. eauto.
Qed.

(** ** Wrappers *)

Section dangerous.
Context {parser : BashParser}.

Definition name_is (k : str) (command : list str) : bool :=
  match head command with Some cmd0 => bool_decide (file_name cmd0 = Some k) | None => false end.

Definition forced_rm (command : list str) : bool :=
  name_is (lit "rm") command && rm_args_include_force_option (tail command).

(** The command a wrapper runs. *)
Definition unwrap_exec (command : list str) : option (list str) :=
  if name_is (lit "sudo") command then Some (tail command)
  else if name_is (lit "env") command then Some (skip_env_arguments (tail command))
  else if name_is (lit "trap") command then trap_action (tail command)
  else None.

(** The commands run by a command: that of a wrapper, and the literal commands
    of every command node of a shell script. *)
Definition runs (outer inner : list str) : Prop :=
  unwrap_exec outer = Some inner
  \/ exists shell script tree, extract_bash_command outer = Some (shell, script)
     /\ try_parse_shell script = Some tree /\ has_error tree = false
     /\ exists n, n ∈ visit is_named (root_node tree)
                  /\ parse_literal_command_from_node n = Some inner.

(** [inner] is run by [command] through [n] wrappers or scripts. *)
Inductive runs_in : nat -> list str -> list str -> Prop :=
| runs_here command : runs_in 0 command command
| runs_deeper n outer middle inner :
    runs outer middle -> runs_in n middle inner -> runs_in (S n) outer inner.

Lemma literal_commands_spec command commands :
  parse_shell_lc_literal_commands command = Some commands ->
  forall inner, inner ∈ commands <->
    exists shell script tree, extract_bash_command command = Some (shell, script)
     /\ try_parse_shell script = Some tree /\ has_error tree = false
     /\ exists n, n ∈ visit is_named (root_node tree)
                  /\ parse_literal_command_from_node n = Some inner.
Proof.
  unfold parse_shell_lc_literal_commands.
  destruct (extract_bash_command command) as [[shell script]|]; cbn [mbind option_bind]; [|done].
  destruct (try_parse_shell script) as [tree|] eqn:Et; cbn [mbind option_bind]; [|done].
  destruct (has_error tree) eqn:Ee; [done|]. rewrite collect_literal_spec by (simpl; lia).
  intros [= <-] inner. rewrite list_elem_of_omap. unfold visits. cbn [flat_map]. rewrite app_nil_r.
  naive_solver.
Qed.

Lemma literal_commands_none command :
  parse_shell_lc_literal_commands command = None ->
  forall shell script tree, extract_bash_command command = Some (shell, script) ->
    try_parse_shell script = Some tree -> has_error tree = true.
Proof.
  unfold parse_shell_lc_literal_commands. intros H shell script tree Hx Ht. rewrite Hx in H.
  cbn [mbind option_bind] in H. rewrite Ht in H. cbn [mbind option_bind] in H. destruct (has_error tree); [done|].
  by rewrite collect_literal_spec in H by (simpl; lia).
Qed.

Lemma name_is_other a b command : a <> b -> name_is a command = true -> name_is b command = false.
Proof.
  unfold name_is. destruct (head command); [|done]. intros Hab H%bool_decide_eq_true.
  apply bool_decide_eq_false. congruence.
Qed.

(** The code's cases, by the wrapper the command is. *)
Lemma match_step levels command :
  dangerous_command_match_with_depth (S levels) command
  = match (if forced_rm command then Some ForcedRm
           else inner ← unwrap_exec command; dangerous_command_match_with_depth levels inner) with
    | Some m => Some m
    | None => commands ← parse_shell_lc_literal_commands command;
              find_map (dangerous_command_match_with_depth levels) commands
    end.
Proof.
  cbn [dangerous_command_match_with_depth]. unfold forced_rm, unwrap_exec, name_is.
  destruct command as [|cmd0 args]; [done|]. cbn [head tail].
  destruct (file_name cmd0) as [name|]; [|by rewrite !bool_decide_eq_false_2].
  unfold str_eqb. repeat (case_bool_decide; simplify_eq; simpl; try done).
Qed.

(** ** Soundness and completeness of the search *)

Lemma match_finds levels n command inner :
  runs_in n command inner -> forced_rm inner = true \/ levels <= n ->
  is_Some (dangerous_command_match_with_depth levels command).
Proof.
  intros Hr. revert levels; induction Hr as [command|n outer middle inner Hruns Hin IH]; intros levels Hd.
  - destruct levels as [|levels]; [by eexists|]. rewrite match_step.
    destruct Hd as [->|?]; [by eexists|simpl in *; lia].
  - destruct levels as [|levels]; [by eexists|]. rewrite match_step.
    destruct (forced_rm outer); [by eexists|].
    destruct (IH levels) as [m Hm]; [destruct Hd; [by left|right; lia]|].
    destruct Hruns as [Hw|Hs].
    + rewrite Hw. simpl. rewrite Hm. by eexists.
    + destruct (x ← unwrap_exec outer; _); [by eexists|].
      destruct (parse_shell_lc_literal_commands outer) as [commands|] eqn:Ec; simpl.
      * destruct (find_map _ commands) eqn:Ef; [by eexists|].
        rewrite find_map_none in Ef. rewrite Ef in Hm; [done|].
        by apply (literal_commands_spec _ _ Ec).
      * destruct Hs as (shell & script & tree & Hx & Ht & He & _).
        by rewrite (literal_commands_none _ Ec _ _ _ Hx Ht) in He.
Qed.

Lemma match_sound levels command m :
  dangerous_command_match_with_depth levels command = Some m ->
  match m with
  | ForcedRm => exists n inner, n < levels /\ runs_in n command inner /\ forced_rm inner = true
  | OtherMatch => exists inner, runs_in levels command inner
  end.
Proof.
  revert command; induction levels as [|levels IH]; intros command.
  { intros [= <-]. exists command. constructor. }
  rewrite match_step. destruct (forced_rm command) eqn:Ef.
  { intros [= <-]. exists 0, command. split_and!; [lia|constructor|done]. }
  intros H. assert (Hmid : exists middle, runs command middle
                  /\ dangerous_command_match_with_depth levels middle = Some m).
  { destruct (unwrap_exec command) as [middle|] eqn:Eu; simpl in H.
    - destruct (dangerous_command_match_with_depth levels middle) eqn:Em.
      + exists middle. split; [by left|congruence].
      + destruct (parse_shell_lc_literal_commands command) as [commands|] eqn:Ec; simpl in H; [|done].
        apply find_map_some in H as (x & Hx & Hm). exists x. split; [|done]. right.
        by apply (literal_commands_spec _ _ Ec).
    - destruct (parse_shell_lc_literal_commands command) as [commands|] eqn:Ec; simpl in H; [|done].
      apply find_map_some in H as (x & Hx & Hm). exists x. split; [|done]. right.
      by apply (literal_commands_spec _ _ Ec). }
  destruct Hmid as (middle & Hr & Hm). apply IH in Hm. destruct m.
  - destruct Hm as (n & inner & Hn & Hin & Hf). exists (S n), inner. split_and!; [lia| |done].
    by econstructor.
  - destruct Hm as [inner Hin]. exists inner. by econstructor.
Qed.

(** No wrapper hides a forced [rm].  Whatever nesting of [sudo], [env],
    [trap] and shell scripts runs it, the command is reported; a nesting of
    nine levels is reported on its own.  Conversely a report of a forced [rm]
    names one that is run within eight levels, and any other report a nesting
    of nine levels: nothing else is reported. *)
Theorem dangerous_commands_found command :
  match dangerous_command_match command with
  | Some ForcedRm => exists n inner, n <= 8 /\ runs_in n command inner /\ forced_rm inner = true
  | Some OtherMatch => exists inner, runs_in 9 command inner
  | None => forall n inner, runs_in n command inner -> forced_rm inner = false /\ n <> 9
  end.
Proof.
  unfold dangerous_command_match. change (MAX_DANGEROUS_COMMAND_WRAPPER_DEPTH + 1) with 9.
  destruct (dangerous_command_match_with_depth 9 command) as [m|] eqn:E.
  - apply match_sound in E. destruct m; [|done]. destruct E as (n & inner & Hn & ?).
    exists n, inner. split; [lia|done].
  - intros n inner Hr. split.
    + destruct (forced_rm inner) eqn:Ef; [|done].
      destruct (match_finds 9 n command inner Hr) as [m Hm]; [by left|congruence].
    + intros ->. destruct (match_finds 9 9 command inner Hr) as [m Hm]; [by right|congruence].
Qed.

End dangerous.

(** ** Witnesses *)

(** The tree of [ls -1 | wc]. *)
Definition sample_word (k text : str) (start : nat) : Node := mkNode k true (Some text) start [].
Definition sample_command (name : str) (args : list Node) (start : nat) : Node :=
  mkNode (lit "command") true None start
    (mkNode (lit "command_name") true None start [sample_word (lit "word") name start] :: args).
Definition sample_tree : Tree :=
  mkTree (mkNode (lit "program") true None 0
            [mkNode (lit "pipeline") true None 0
               [sample_command (lit "ls") [sample_word (lit "word") (lit "-1") 3] 0;
                mkNode (lit "|") false (Some (lit "|")) 6 [];
                sample_command (lit "wc") [] 8]]) false.

Lemma word_only_sequence_correct_witness :
  try_parse_word_only_commands_sequence sample_tree = Some [[lit "ls"; lit "-1"]; [lit "wc"]].
Proof.
  destruct (word_only_sequence_correct sample_tree) as [H _].
  - repeat constructor.
  - apply (bool_decide_unpack _). vm_compute. exact I.
  - exact H.
Defined.
