(* ===== verification/AbsolutePath.v ===== *)
(** * utils/absolute-path: making a path absolute (POSIX)

    The part of [utils/absolute-path] behind [AbsolutePathBuf::try_from]: home
    expansion, resolution against the current directory and lexical
    normalisation ([absolutize.rs]).  An absolute path is the list of its
    normal components.  The home directory and the current directory of the
    process are parameters ([None]: not available). *)

From S2P Require Import Prelude RustStr.

Definition ch_slash : char := 47%N.
Definition ch_dot : char := 46%N.

(** [AbsolutePathBuf] *)
Definition abs_path := list str.

Inductive component := CurDir | ParentDir | NormalComp (name : str).

(** [Path::components] without the root: empty components vanish. *)
Definition components (p : str) : list component :=
  omap (fun w => if bool_decide (w = []) then None
                 else if str_eqb w [ch_dot] then Some CurDir
                 else if str_eqb w [ch_dot; ch_dot] then Some ParentDir
                 else Some (NormalComp w))
       (split_on ch_slash p).

Definition is_absolute (p : str) : bool := starts_with [ch_slash] p.

(** [Path::join] *)
Definition path_join (base p : str) : str :=
  if is_absolute p then p
  else if bool_decide (base = []) then p
  else if ends_with [ch_slash] base then base ++ p
  else base ++ [ch_slash] ++ p.

(** The loop of [normalize_path] on a rooted path: [pop] keeps the root. *)
Definition normalize_component (acc : abs_path) (c : component) : abs_path :=
  match c with
  | CurDir => acc
  | ParentDir => removelast acc
  | NormalComp name => acc ++ [name]
  end.

Definition normalize_path (p : str) : abs_path := fold_left normalize_component (components p) [].

Section environment.
Context (home_dir current_dir : option str).

Definition maybe_expand_home_directory (path : str) : str :=
  match strip_prefix (lit "~") path, home_dir with
  | Some rest, Some home =>
      if bool_decide (rest = []) then home
      else match strip_prefix [ch_slash] rest with
           | Some rest => path_join home (drop_while (N.eqb ch_slash) rest)
           | None => path
           end
  | _, _ => path
  end.

(** [absolutize]: only the lookup of the current directory can fail; a
    current directory is absolute. *)
Definition absolutize (path : str) : option abs_path :=
  if is_absolute path then Some (normalize_path path)
  else match current_dir with
       | Some cwd => Some (normalize_path (path_join cwd path))
       | None => None
       end.

(** [AbsolutePathBuf::try_from] of a string *)
Definition from_absolute_path (path : str) : option abs_path :=
  absolutize (maybe_expand_home_directory path).

End environment.

(** [Path::file_name] of an absolute normalised path *)
Definition file_name (p : abs_path) : option str := last p.

(** ** Relative programs *)

Lemma split_on_sep c a b : split_on c (a ++ c :: b) = split_on c a ++ split_on c b.
Proof.
  induction a as [|x a IH]; simpl; [by rewrite N.eqb_refl|].
  destruct (N.eqb_spec x c); [by rewrite IH|]. rewrite IH.
  pose proof (split_on_nonempty c a). by destruct (split_on c a).
Qed.

Lemma components_sep a b : components (a ++ ch_slash :: b) = components a ++ components b.
Proof. unfold components. by rewrite split_on_sep, omap_app. Qed.

(** A name that is one normal component. *)
Definition is_name (n : str) : bool :=
  negb (bool_decide (n = [])) && negb (contains_char ch_slash n)
  && negb (str_eqb n [ch_dot]) && negb (str_eqb n [ch_dot; ch_dot]).

Lemma components_name n : is_name n = true -> components n = [NormalComp n].
Proof.
  unfold is_name. rewrite !andb_true_iff, !negb_true_iff. intros (((H1 & H2) & H3) & H4).
  apply bool_decide_eq_false in H1. unfold components. rewrite split_on_no_sep.
  - simpl. rewrite bool_decide_false by done. by rewrite H3, H4.
  - intros Hin. apply not_true_iff_false in H2. apply H2. unfold contains_char.
    apply existsb_exists. exists ch_slash. rewrite N.eqb_refl. split; [by apply list_elem_of_In|done].
Qed.

Lemma path_join_components base p : is_absolute p = false ->
  components (path_join base p) = components base ++ components p.
Proof.
  intros Hp. unfold path_join. rewrite Hp. case_bool_decide as E.
  { subst. done. }
  destruct (ends_with [ch_slash] base) eqn:Ee; [|apply components_sep].
  apply ends_with_spec in Ee as [x ->]. rewrite <- app_assoc. simpl.
  rewrite !components_sep. unfold components at 3. simpl. by rewrite app_nil_r.
Qed.

(** [./name] resolves to [name] in the current directory. *)
Lemma from_absolute_path_relative home cwd n :
  is_absolute cwd = true -> is_name n = true ->
  from_absolute_path home (Some cwd) (lit "./" ++ n) = Some (normalize_path cwd ++ [n]).
Proof.
  intros Hc Hn. unfold from_absolute_path, maybe_expand_home_directory, absolutize.
  replace (strip_prefix (lit "~") (lit "./" ++ n)) with (@None str) by done.
  replace (is_absolute (lit "./" ++ n)) with false by done.
  f_equal. unfold normalize_path. rewrite path_join_components by done.
  change (lit "./" ++ n) with ([ch_dot] ++ ch_slash :: n).
  rewrite components_sep, (components_name n Hn), fold_left_app. done.
Qed.

(** A plain program name resolves to itself in the current directory. *)

Lemma is_name_spec n : is_name n = true <->
  n <> [] /\ ch_slash ∉ n /\ n <> [ch_dot] /\ n <> [ch_dot; ch_dot].
Proof.
  unfold is_name. rewrite !andb_true_iff, !negb_true_iff, bool_decide_eq_false, !str_eqb_neq.
  assert (Hc : contains_char ch_slash n = false <-> ch_slash ∉ n).
  { unfold contains_char. rewrite <- not_true_iff_false, existsb_exists, list_elem_of_In. split.
    - intros H Hin. apply H. exists ch_slash. by rewrite N.eqb_refl.
    - intros H (x & Hx & E). apply N.eqb_eq in E as <-. done. }
  rewrite Hc. naive_solver.
Qed.

Lemma components_names p : Forall (fun c => match c with
                                            | NormalComp n => is_name n = true
                                            | _ => True
                                            end) (components p).
Proof.
  unfold components. pose proof (split_on_pieces ch_slash p) as H.
  induction H as [|w ws Hw _ IH]; simpl; [done|].
  case_bool_decide as E1; simpl; [done|].
  destruct (str_eqb w [ch_dot]) eqn:E2; simpl; [by constructor|].
  destruct (str_eqb w [ch_dot; ch_dot]) eqn:E3; constructor; try done.
  apply is_name_spec. apply str_eqb_neq in E2, E3. done.
Qed.

Lemma normalize_component_names acc c :
  Forall (fun n => is_name n = true) acc ->
  match c with NormalComp n => is_name n = true | _ => True end ->
  Forall (fun n => is_name n = true) (normalize_component acc c).
Proof.
  intros Ha Hc. destruct c as [| |n]; simpl; [done| |by apply Forall_app; auto].
  induction Ha as [|x acc Hx Ha IH]; simpl; [done|]. destruct acc; [done|]. by constructor.
Qed.

Lemma normalize_path_names p : Forall (fun n => is_name n = true) (normalize_path p).
Proof.
  unfold normalize_path. pose proof (components_names p) as H.
  assert (Hacc : Forall (fun n => is_name n = true) (@nil str)) by done. revert Hacc.
  generalize (@nil str). induction H as [|c cs Hc _ IH]; intros acc Hacc; simpl; [done|].
  apply IH. by apply normalize_component_names.
Qed.

Lemma from_absolute_path_names home cwd p prog :
  from_absolute_path home cwd p = Some prog -> Forall (fun n => is_name n = true) prog.
Proof.
  unfold from_absolute_path, absolutize. case_match; [intros [= <-]; apply normalize_path_names|].
  destruct cwd; [intros [= <-]; apply normalize_path_names|done].
Qed.

Lemma expand_name home n : is_name n = true -> n <> lit "~" -> maybe_expand_home_directory home n = n.
Proof.
  intros (_ & Hs & _)%is_name_spec Ht. unfold maybe_expand_home_directory.
  destruct (strip_prefix (lit "~") n) as [rest|] eqn:E; [|done]. destruct home as [h|]; [|done].
  apply strip_prefix_Some in E. case_bool_decide as Er; [subst; by rewrite app_nil_r in Ht|].
  destruct (strip_prefix [ch_slash] rest) as [rest'|] eqn:E'; [|done].
  apply strip_prefix_Some in E'. subst. destruct Hs. apply elem_of_app. right. by left.
Qed.

Lemma from_absolute_path_name home cwd n prog :
  is_name n = true -> n <> lit "~" -> from_absolute_path home cwd n = Some prog -> file_name prog = Some n.
Proof.
  intros Hn Ht. unfold from_absolute_path. rewrite expand_name by done. unfold absolutize.
  assert (Ha : is_absolute n = false).
  { apply is_name_spec in Hn as (_ & Hs & _). apply not_true_iff_false. unfold is_absolute.
    rewrite starts_with_spec. intros [x ->]. apply Hs. by left. }
  rewrite Ha. destruct cwd as [d|]; [|done]. intros [= <-]. unfold normalize_path.
  rewrite path_join_components, (components_name n Hn), fold_left_app by done.
  unfold file_name. simpl. apply last_snoc.
Qed.
