(* ===== verification/PathUri.v ===== *)
(** * File URIs

    utils/path-uri (lib.rs, absolute_path_normalization.rs) on a Unix host, and
    the Windows path syntax helpers of utils/absolute-path it uses.  A [PathUri]
    is a validated [file:] URL: either an opaque fallback that stores the bytes
    of a native path, or a host and the percent-encoded segments of the path (the
    text is the segments after slashes, so the root has one empty segment).

    The [url], [urlencoding] and [base64] libraries are the class [UrlLib]; what
    is used of them is the class [UrlLaws].  The documented list operations of
    [path_segments_mut] (pop, pop_if_empty, clear, push) are written out; the text
    a pushed segment gets is the library's.  Native paths are UTF-8 here, so
    [to_abs_path] is that of URIs whose decoded path is UTF-8. *)

From S2P Require Import Prelude RustStr Utf8Stream AbsolutePath.

Definition ch_backslash : char := 92%N.
Definition ch_percent : char := 37%N.
Definition ch_colon_uri : char := 58%N.

Inductive PathConvention := Posix | Windows.

#[export] Instance PathConvention_eq_dec : EqDecision PathConvention.
Proof. solve_decision. Defined.

Record FileUrl := mkUrl { url_host : option str; url_segments : list str }.

#[export] Instance FileUrl_eq_dec : EqDecision FileUrl.
Proof. solve_decision. Defined.

Inductive PathUri :=
| OpaqueUri (payload : list N)
| FileUri (url : FileUrl).

Class UrlLib := {
  (** [urlencoding::decode_binary] *)
  decode_binary : str -> list N;
  (** The text a segment gets when it is pushed after the given ones *)
  push_text : list str -> str -> str;
  (** The text [Url::from_file_path] gives a component *)
  file_path_segment : str -> str;
  (** [Url::to_file_path] *)
  to_file_path : FileUrl -> option str;
  (** [Url::set_host] *)
  parse_host : str -> option str;
  (** The unpadded URL-safe base64 text, and its decoding *)
  base64_url : list N -> str;
  base64_decode : str -> option (list N);
}.

Inductive PathUriParseError :=
| UnsupportedScheme (scheme : str)
| InvalidFileUriPath (path : str)
| CredentialsNotAllowed
| PortNotAllowed
| QueryNotAllowed
| FragmentNotAllowed
| JoinPathMustBeDescendant (path : str).

(** ** Percent decoding and segments *)

Section inspection.
Context {lib : UrlLib}.

(** [decode_uri_path]: the encoded spelling when the bytes are not UTF-8. *)
Definition decode_uri_path (path : str) : str :=
  match from_utf8 (decode_binary path) with Ok s => s | Err _ => path end.

Definition encoded_path (u : FileUrl) : str := [ch_slash] ++ join [ch_slash] (url_segments u).

Definition nonempty_segments (u : FileUrl) : list str :=
  List.filter (fun s => negb (is_nil s)) (url_segments u).

(** [path_segments_mut]: [pop_if_empty], [pop] and [push] *)
Definition pop_if_empty (segments : list str) : list str :=
  match rev segments with
  | [] :: _ :: _ => removelast segments
  | _ => segments
  end.

Definition pop_segment (segments : list str) : list str :=
  match segments with
  | [] | [_] => [[]]
  | _ => removelast segments
  end.

Definition is_ascii_alphabetic (c : char) : bool := is_ascii_uppercase c || is_ascii_lowercase c.

Definition is_windows_drive_uri_segment (segment : str) : bool :=
  match segment with
  | [drive; colon] => is_ascii_alphabetic drive && (colon =? ch_colon_uri)%N
  | [drive; percent; three; a] =>
      is_ascii_alphabetic drive && (percent =? ch_percent)%N && (three =? 51)%N
      && ((a =? 65)%N || (a =? 97)%N)
  | _ => false
  end.

(** ** The convention of a URI *)

Definition u16_le (lo hi : N) : N := (lo + 256 * hi)%N.

Definition infer_opaque_path_convention (path_bytes : list N) : option PathConvention :=
  match path_bytes with
  | b :: _ =>
      if (b =? ch_slash)%N then Some Posix
      else if negb (Nat.even (length path_bytes)) then None
      else match path_bytes with
           | a :: b :: c :: d :: _ =>
               let first := u16_le a b in
               let second := u16_le c d in
               let has_drive := (first <? 256)%N && is_ascii_alphabetic first && (second =? ch_colon_uri)%N in
               let has_unc_prefix := (first =? ch_backslash)%N && (second =? ch_backslash)%N in
               if has_drive || has_unc_prefix then Some Windows else None
           | _ => None
           end
  | [] => None
  end.

Definition infer_path_convention (uri : PathUri) : option PathConvention :=
  match uri with
  | OpaqueUri path_bytes => infer_opaque_path_convention path_bytes
  | FileUri u =>
      match url_host u with
      | Some _ => Some Windows
      | None =>
          match nonempty_segments u with
          | segment :: _ => if is_windows_drive_uri_segment segment then Some Windows else Some Posix
          | [] => Some Posix
          end
      end
  end.

Definition is_opaque (uri : PathUri) : bool := match uri with OpaqueUri _ => true | FileUri _ => false end.

(** ** Equality *)

Definition to_ascii_lowercase_bytes (bs : list N) : list N := to_ascii_lowercase bs.

Definition windows_identity_path_bytes (uri : PathUri) : option (list N) :=
  match uri with
  | OpaqueUri _ => None
  | FileUri u =>
      if negb (bool_decide (infer_path_convention uri = Some Windows))
         || existsb (fun segment => existsb (fun b => (b =? ch_slash)%N || (b =? ch_backslash)%N)
                                      (decode_binary segment)) (url_segments u)
      then None else Some (decode_binary (encoded_path u))
  end.

Definition uri_host (uri : PathUri) : option str :=
  match uri with OpaqueUri _ => None | FileUri u => url_host u end.

#[export] Instance PathUri_eq_dec : EqDecision PathUri.
Proof. solve_decision. Defined.

(** [PartialEq for PathUri] *)
Definition uri_eqb (a b : PathUri) : bool :=
  bool_decide (a = b)
  || match windows_identity_path_bytes a, windows_identity_path_bytes b with
     | Some path, Some other_path =>
         bool_decide (uri_host a = uri_host b)
         && bool_decide (to_ascii_lowercase_bytes path = to_ascii_lowercase_bytes other_path)
     | _, _ => false
     end.

(** ** Lexical containment *)

Definition is_separator_byte (convention : PathConvention) (b : N) : bool :=
  (b =? ch_slash)%N || (bool_decide (convention = Windows) && (b =? ch_backslash)%N).

Definition containment_path_segments (u : FileUrl) (convention : PathConvention) : option (list str) :=
  let segments := nonempty_segments u in
  if existsb (fun segment => existsb (is_separator_byte convention) (decode_binary segment)) segments
  then None else Some segments.

Definition segment_eqb (convention : PathConvention) (path base : str) : bool :=
  match convention with
  | Posix => bool_decide (decode_binary path = decode_binary base)
  | Windows =>
      str_eqb (to_ascii_lowercase path) (to_ascii_lowercase base)
      || str_eqb (to_ascii_lowercase (decode_uri_path path)) (to_ascii_lowercase (decode_uri_path base))
  end.

Definition native_path_segments_start_with (path_segments base_segments : list str)
    (convention : PathConvention) : bool :=
  (length base_segments <=? length path_segments)
  && forallb (fun '(path, base) => segment_eqb convention path base) (zip path_segments base_segments).

Definition uri_starts_with (self base : PathUri) : bool :=
  if uri_eqb self base then true
  else match self, base with
       | FileUri s, FileUri b =>
           if negb (bool_decide (url_host s = url_host b)) then false
           else if negb (bool_decide (infer_path_convention self = infer_path_convention base)) then false
           else
             let convention := default Posix (infer_path_convention self) in
             match containment_path_segments s convention, containment_path_segments b convention with
             | Some path_segments, Some base_segments =>
                 native_path_segments_start_with path_segments base_segments convention
             | _, _ => false
             end
       | _, _ => false
       end.

Definition lexical_depth (uri : PathUri) : option nat :=
  match uri with
  | OpaqueUri _ => None
  | FileUri u =>
      convention ← infer_path_convention uri;
      segments ← containment_path_segments u convention;
      Some (length segments)
  end.

Definition overlaps (self other : PathUri) : option bool :=
  if uri_eqb self other then Some true
  else
    _ ← lexical_depth self;
    _ ← lexical_depth other;
    Some (uri_starts_with self other || uri_starts_with other self).

Definition separator (convention : PathConvention) : str :=
  match convention with Posix => [ch_slash] | Windows => [ch_backslash] end.

Definition relative_path_from (self base : PathUri) : option str :=
  if uri_eqb self base then Some []
  else match self, base with
       | FileUri s, FileUri b =>
           if negb (bool_decide (url_host s = url_host b))
              || negb (bool_decide (infer_path_convention self = infer_path_convention base)) then None
           else
             convention ← infer_path_convention self;
             path_segments ← containment_path_segments s convention;
             base_segments ← containment_path_segments b convention;
             if negb (native_path_segments_start_with path_segments base_segments convention) then None
             else Some (join (separator convention)
                          (map decode_uri_path (drop (length base_segments) path_segments)))
       | _, _ => None
       end.

Definition anchor_depth (convention : PathConvention) : nat :=
  match convention with Posix => 0 | Windows => 1 end.

Definition basename (uri : PathUri) : option str :=
  match uri with
  | OpaqueUri _ => None
  | FileUri u => option_map decode_uri_path (last (nonempty_segments u))
  end.

Definition parent (uri : PathUri) : option PathUri :=
  match uri with
  | OpaqueUri _ => None
  | FileUri u =>
      convention ← infer_path_convention uri;
      if length (nonempty_segments u) <=? anchor_depth convention then None
      else Some (FileUri (mkUrl (url_host u) (pop_segment (pop_if_empty (url_segments u)))))
  end.

(** [ancestors]: the URI and its parents; each parent has one segment less. *)
Fixpoint ancestors_from (fuel : nat) (uri : PathUri) : list PathUri :=
  uri :: match fuel with
         | 0 => []
         | S fuel' => match parent uri with Some p => ancestors_from fuel' p | None => [] end
         end.

Definition segment_count (uri : PathUri) : nat :=
  match uri with OpaqueUri _ => 0 | FileUri u => length (url_segments u) end.

Definition ancestors (uri : PathUri) : list PathUri := ancestors_from (segment_count uri) uri.

(** ** Validation of URLs *)

Definition to_ascii_uppercase_char (c : char) : char := if is_ascii_lowercase c then (c - 32)%N else c.

(** [with_normalized_windows_drive_letter] on the first non-empty segment *)
Fixpoint normalize_drive (segments : list str) : list str :=
  match segments with
  | [] => []
  | [] :: rest => [] :: normalize_drive rest
  | segment :: rest =>
      if is_windows_drive_uri_segment segment
      then match segment with c :: s => (to_ascii_uppercase_char c :: s) :: rest | [] => segment :: rest end
      else segment :: rest
  end.

Definition with_normalized_windows_drive_letter (u : FileUrl) : FileUrl :=
  match url_host u with
  | Some _ => u
  | None => mkUrl None (normalize_drive (url_segments u))
  end.

Definition without_localhost_authority (u : FileUrl) : FileUrl :=
  if bool_decide (url_host u = Some (lit "localhost")) then mkUrl None (url_segments u) else u.

Definition push_segment (segments : list str) (segment : str) : list str :=
  if str_eqb segment (lit ".") || str_eqb segment (lit "..") then segments
  else if bool_decide (segments = [[]]) then [push_text segments segment]
  else segments ++ [push_text segments segment].

Definition url_text (u : FileUrl) : str := lit "file://" ++ default [] (url_host u) ++ encoded_path u.

Definition uri_to_string (uri : PathUri) : str :=
  match uri with
  | OpaqueUri payload => lit "file:///%00/bad/path/" ++ base64_url payload
  | FileUri u => url_text u
  end.

(** The bytes of a canonical bad-path URL *)
Definition decode_bad_path_uri (u : FileUrl) : option (list N) :=
  match url_host u, url_segments u with
  | None, [zero; bad; path; encoded_path] =>
      if str_eqb zero (lit "%00") && str_eqb bad (lit "bad") && str_eqb path (lit "path") && negb (is_nil encoded_path)
      then path_bytes ← base64_decode encoded_path;
           if str_eqb (base64_url path_bytes) encoded_path then Some path_bytes else None
      else None
  | _, _ => None
  end.

(** [TryFrom<Url>] for a file URL without credentials, port, query or
    fragment *)
Definition try_from_url (u : FileUrl) : result PathUri PathUriParseError :=
  match decode_bad_path_uri u with
  | Some path_bytes => Ok (OpaqueUri path_bytes)
  | None =>
      if existsb (N.eqb 0) (decode_binary (encoded_path u)) then Err (InvalidFileUriPath (url_text u))
      else Ok (FileUri (with_normalized_windows_drive_letter (without_localhost_authority u)))
  end.

(** A parsed URL *)
Record Url := mkParsedUrl {
  scheme : str;
  username : str;
  password : option str;
  port : option N;
  query : option str;
  fragment : option str;
  file_url : FileUrl;
}.

Definition validate_common_known_uri (url : Url) : result unit PathUriParseError :=
  if negb (is_nil (username url)) || negb (bool_decide (password url = None)) then Err CredentialsNotAllowed
  else if negb (bool_decide (port url = None)) then Err PortNotAllowed
  else if negb (bool_decide (query url = None)) then Err QueryNotAllowed
  else if negb (bool_decide (fragment url = None)) then Err FragmentNotAllowed
  else Ok tt.

Definition uri_try_from (url : Url) : result PathUri PathUriParseError :=
  if negb (str_eqb (scheme url) (lit "file")) then Err (UnsupportedScheme (scheme url))
  else let? _ := validate_common_known_uri url in try_from_url (file_url url).

(** ** Native paths *)

(** The loop of [path_uri_from_segments]: depth, segments and whether the last
    one was empty. *)
Definition normalize_step (convention : PathConvention) (acc : nat * list str * bool) (segment : str)
    : nat * list str * bool :=
  let '(depth, segments, trailing) := acc in
  if is_nil segment then (depth, segments, true)
  else if str_eqb segment (lit ".") then (depth, segments, false)
  else if str_eqb segment (lit "..") then
    if anchor_depth convention <? depth then (depth - 1, removelast segments, false)
    else (depth, segments, false)
  else (depth + 1, segments ++ [segment], false).

Definition path_uri_from_segments (convention : PathConvention) (host : option str) (segments : list str)
    : option PathUri :=
  host' ← match host with
          | Some h => option_map Some (parse_host h)
          | None => Some None
          end;
  let '(depth, normalized, trailing) := fold_left (normalize_step convention) segments (0, [], false) in
  let normalized :=
    if trailing || (bool_decide (convention = Windows) && bool_decide (host = None)
                    && (depth =? anchor_depth convention))
    then normalized ++ [[]] else normalized in
  match try_from_url (mkUrl host' (fold_left push_segment normalized [[]])) with
  | Ok uri => Some uri
  | Err _ => None
  end.

Definition parse_posix_path (path : str) : option PathUri :=
  rest ← strip_prefix [ch_slash] path;
  if contains_char 0%N rest then Some (OpaqueUri (encode ([ch_slash] ++ rest)))
  else path_uri_from_segments Posix None (split_on ch_slash rest).

Definition encode_utf16 (c : char) : list N :=
  (if c <? 65536 then [c]
   else [55296 + (c - 65536) / 1024; 56320 + (c - 65536) mod 1024])%N.

Definition le_bytes (w : N) : list N := [(w mod 256)%N; (w / 256)%N].

Definition windows_opaque_path_uri (path : str) : PathUri :=
  OpaqueUri (flat_map le_bytes (flat_map encode_utf16 path)).

Definition is_windows_separator_char (c : char) : bool := (c =? ch_backslash)%N || (c =? ch_slash)%N.

(** Splitting at both separators *)
Definition to_slashes (path : str) : str := map (fun c => if (c =? ch_backslash)%N then ch_slash else c) path.

Definition split_windows (path : str) : list str := split_on ch_slash (to_slashes path).

Definition parse_unnormalized_windows_path (path : str) : option PathUri :=
  let uses_namespace :=
    match path with
    | a :: b :: n :: s :: _ =>
        is_windows_separator_char a && is_windows_separator_char b && is_windows_separator_char s
        && ((n =? ch_dot)%N || (n =? 63)%N)
    | _ => false
    end in
  if uses_namespace || contains_char 0%N path then Some (windows_opaque_path_uri path)
  else match path with
       | drive :: colon :: sep :: rest =>
           if is_ascii_alphabetic drive && (colon =? ch_colon_uri)%N && is_windows_separator_char sep
           then path_uri_from_segments Windows None ([drive; colon] :: split_windows rest)
           else if is_windows_separator_char drive && is_windows_separator_char colon
           then match split_windows (sep :: rest) with
                | host :: share :: components =>
                    if is_nil host || is_nil share then None
                    else Some (default (windows_opaque_path_uri path)
                                 (path_uri_from_segments Windows (Some host) (share :: components)))
                | _ => None
                end
           else None
       | _ => None
       end.

(** utils/absolute-path, [normalize_windows_device_path] *)
Definition is_windows_drive_absolute_path (path : str) : bool :=
  match path with
  | drive :: colon :: sep :: _ =>
      is_ascii_alphabetic drive && (colon =? ch_colon_uri)%N && is_windows_separator_char sep
  | _ => false
  end.

Definition normalize_windows_device_path (path : str) : option str :=
  match strip_prefix (lit "\\?\UNC\") path, strip_prefix (lit "\\.\UNC\") path with
  | Some unc, _ | None, Some unc => Some (lit "\\" ++ unc)
  | None, None =>
      match strip_prefix (lit "\\?\") path, strip_prefix (lit "\\.\") path with
      | Some p, o =>
          if is_windows_drive_absolute_path p then Some p
          else match o with
               | Some q => if is_windows_drive_absolute_path q then Some q else None
               | None => None
               end
      | None, Some q => if is_windows_drive_absolute_path q then Some q else None
      | None, None => None
      end
  end.

Definition is_dots_or_empty (s : str) : bool := is_nil s || str_eqb s (lit ".") || str_eqb s (lit "..").

Definition parse_windows_path (path : str) : option PathUri :=
  match normalize_windows_device_path path with
  | Some normalized_path =>
      let bad_unc :=
        match strip_prefix (lit "\\") normalized_path with
        | Some unc_path =>
            match split_windows unc_path with
            | h :: share :: _ => is_dots_or_empty h || is_dots_or_empty share
            | _ => true
            end
        | None => false
        end in
      if bad_unc then Some (windows_opaque_path_uri path)
      else
        let keep uri :=
          bool_decide (infer_path_convention uri = Some Windows) && negb (is_opaque uri)
          && (negb (starts_with (lit "\\") normalized_path)
              || is_some_and (fun h => negb (is_nil h)) (uri_host uri)) in
        Some match parse_unnormalized_windows_path normalized_path with
             | Some uri => if keep uri then uri else windows_opaque_path_uri path
             | None => windows_opaque_path_uri path
             end
  | None => parse_unnormalized_windows_path path
  end.

Definition from_absolute_native_path (path : str) (convention : PathConvention) : option PathUri :=
  uri ← match convention with Posix => parse_posix_path path | Windows => parse_windows_path path end;
  if negb (bool_decide (uri_host uri = Some [])) && bool_decide (infer_path_convention uri = Some convention)
  then Some uri
  else Some match convention with
            | Posix => OpaqueUri (encode path)
            | Windows => windows_opaque_path_uri path
            end.

(** ** Joining *)

Definition join_component (convention : PathConvention) (acc : nat * list str) (component : str)
    : nat * list str :=
  let '(depth, segments) := acc in
  if is_nil component || str_eqb component (lit ".") then acc
  else if str_eqb component (lit "..") then
    if anchor_depth convention <? depth then (depth - 1, pop_segment segments) else acc
  else (depth + 1, push_segment segments component).

(** [while depth > anchor_depth { segments.pop() }] *)
Fixpoint pop_to_anchor (n : nat) (segments : list str) : list str :=
  match n with 0 => segments | S n' => pop_to_anchor n' (pop_segment segments) end.

Definition same_drive (u : FileUrl) (drive : char) : bool :=
  match nonempty_segments u with
  | segment :: _ =>
      is_windows_drive_uri_segment segment
      && (to_ascii_uppercase_char (hd 0%N segment) =? to_ascii_uppercase_char drive)%N
  | [] => false
  end.

(** The text of a drive-relative Windows path after its drive, which is the
    base's. *)
Definition without_same_drive (self : PathUri) (convention : PathConvention) (path : str)
    : result str PathUriParseError :=
  match convention, path with
  | Windows, drive :: colon :: rest =>
      if is_ascii_alphabetic drive && (colon =? ch_colon_uri)%N then
        match self with
        | FileUri u => if same_drive u drive then Ok rest else Err (InvalidFileUriPath path)
        | OpaqueUri _ => Err (InvalidFileUriPath path)
        end
      else Ok path
  | _, _ => Ok path
  end.

Definition windows_root_relative (convention : PathConvention) (path : str) : bool :=
  match convention, path with
  | Windows, [a] => is_windows_separator_char a
  | Windows, a :: b :: _ => is_windows_separator_char a && negb (is_windows_separator_char b)
  | _, _ => false
  end.

Definition join_segments (u : FileUrl) (convention : PathConvention) (path : str) : list str :=
  let depth := length (nonempty_segments u) in
  let anchor := anchor_depth convention in
  let segments := pop_if_empty (url_segments u) in
  let start :=
    if windows_root_relative convention path && (anchor <? depth)
    then (anchor, pop_to_anchor (depth - anchor) segments) else (depth, segments) in
  let path := match convention with Posix => path | Windows => to_slashes path end in
  (fold_left (join_component convention) (split_on ch_slash path) start).2.

Definition uri_join (self : PathUri) (path : str) : result PathUri PathUriParseError :=
  if contains_char 0%N path then Err (InvalidFileUriPath path)
  else if is_nil path then Ok self
  else match infer_path_convention self with
       | None => Err (InvalidFileUriPath (uri_to_string self))
       | Some convention =>
           match from_absolute_native_path path convention with
           | Some absolute => Ok absolute
           | None =>
               let? path := without_same_drive self convention path in
               match self with
               | OpaqueUri _ => Err (InvalidFileUriPath (uri_to_string self))
               | FileUri u => try_from_url (mkUrl (url_host u) (join_segments u convention path))
               end
           end
       end.

Definition join_descendant (self : PathUri) (path : str) : result PathUri PathUriParseError :=
  let? descendant := uri_join self path in
  let windows := bool_decide (infer_path_convention self = Some Windows) in
  if starts_with [ch_slash] path
     || (windows && (starts_with [ch_backslash] path
                     || existsb (contains_char ch_colon_uri) (split_windows path)))
     || negb (uri_starts_with descendant self)
  then Err (JoinPathMustBeDescendant path) else Ok descendant.

(** ** Host paths *)

(** The text of an absolute path *)
Definition abs_text (p : abs_path) : str := [ch_slash] ++ join [ch_slash] p.

Definition from_abs_path (p : abs_path) : PathUri :=
  let fallback := OpaqueUri (encode (abs_text p)) in
  let segments := match p with [] => [[]] | _ => map file_path_segment p end in
  match try_from_url (mkUrl None segments) with
  | Ok uri => if bool_decide (infer_path_convention uri = Some Posix) then uri else fallback
  | Err _ => fallback
  end.

(** [AbsolutePathBuf::from_absolute_path_checked] of a path that does not start
    with a tilde *)
Definition absolute_path_checked (path : str) : option abs_path :=
  if is_absolute path then Some (normalize_path path) else None.

Definition to_abs_path (uri : PathUri) : option abs_path :=
  if negb (bool_decide (infer_path_convention uri = Some Posix)) then None
  else match uri with
       | OpaqueUri path_bytes =>
           match from_utf8 path_bytes with
           | Ok decoded =>
               path ← absolute_path_checked decoded;
               if uri_eqb (from_abs_path path) uri then Some path else None
           | Err _ => None
           end
       | FileUri u => path ← to_file_path u; absolute_path_checked path
       end.

End inspection.

(** ** What is used of the libraries *)

(** Names of path components that keep their text through a URI: the [url]
    library drops tabs and line breaks of a pushed segment, and a drive-shaped
    first segment makes the URI a Windows one. *)
Definition is_drive_name (n : str) : bool :=
  match n with
  | [d; c] => is_ascii_alphabetic d && ((c =? ch_colon_uri)%N || (c =? 124)%N)
  | _ => false
  end.

Definition is_plain_char (c : char) : bool :=
  is_scalar c && negb ((c =? 0) || (c =? 9) || (c =? 10) || (c =? 13))%N.

Definition plain_name (n : str) : bool :=
  is_name n && forallb is_plain_char n && negb (is_drive_name n).

Definition plain_path (p : abs_path) : Prop := Forall (fun n => plain_name n = true) p.

Class UrlLaws `{UrlLib} := {
  decode_nil : decode_binary [] = [];
  decode_zero : decode_binary (lit "%00") = [0%N];
  (** A slash is not part of an escape. *)
  decode_sep a b : decode_binary (a ++ ch_slash :: b) = decode_binary a ++ ch_slash :: decode_binary b;
  decode_drive e : is_windows_drive_uri_segment e = true ->
    exists d, is_ascii_alphabetic d = true /\ decode_binary e = [d; ch_colon_uri];
  file_path_segment_decodes n : valid_str n -> decode_binary (file_path_segment n) = encode n;
  push_text_decodes segments n : plain_name n = true -> decode_binary (push_text segments n) = encode n;
  to_file_path_decodes segments names :
    Forall2 (fun e n => decode_binary e = encode n) segments names -> Forall valid_str names ->
    exists t, to_file_path (mkUrl None segments) = Some t /\ is_absolute t = true
              /\ normalize_path t = normalize_path ([ch_slash] ++ join [ch_slash] names);
}.

Section posix.
Context {lib : UrlLib} {laws : UrlLaws}.

(** ** Posix URIs as lists of names *)

(** The decoded segments of a lexical Posix URI *)
Definition posix_view (uri : PathUri) : option (list (list N)) :=
  match uri with
  | OpaqueUri _ => None
  | FileUri u =>
      if bool_decide (infer_path_convention uri = Some Posix)
      then option_map (map decode_binary) (containment_path_segments u Posix) else None
  end.

Lemma posix_view_inv uri v : posix_view uri = Some v ->
  exists u segments, uri = FileUri u /\ url_host u = None /\ infer_path_convention uri = Some Posix
    /\ containment_path_segments u Posix = Some segments /\ v = map decode_binary segments.
Proof.
  destruct uri as [|u]; simpl; [done|]. case_bool_decide as E; [|done].
  destruct (containment_path_segments u Posix) as [segs|] eqn:Es; [|done]. intros [= <-].
  exists u, segs. repeat split; try done. unfold infer_path_convention in E. by destruct (url_host u).
Qed.

Lemma posix_view_depth uri v : posix_view uri = Some v -> lexical_depth uri = Some (length v).
Proof.
  intros (u & segs & -> & Hh & Hc & Hs & ->)%posix_view_inv. unfold lexical_depth.
  rewrite Hc. simpl. rewrite Hs. simpl. by rewrite length_map.
Qed.

Lemma posix_view_convention uri v : posix_view uri = Some v -> infer_path_convention uri = Some Posix.
Proof. by intros (? & ? & ? & ? & ? & _)%posix_view_inv. Qed.

Lemma lexical_posix_view uri d :
  infer_path_convention uri = Some Posix -> lexical_depth uri = Some d -> exists v, posix_view uri = Some v.
Proof.
  destruct uri as [|u]; [done|]. intros Hc Hd. unfold posix_view. rewrite bool_decide_true by done.
  unfold lexical_depth in Hd. rewrite Hc in Hd. simpl in Hd.
  destruct (containment_path_segments u Posix); [eauto|done].
Qed.

Lemma posix_identity_None uri : infer_path_convention uri = Some Posix -> windows_identity_path_bytes uri = None.
Proof. intros Hc. destruct uri as [|u]; [done|]. unfold windows_identity_path_bytes. by rewrite Hc. Qed.

Lemma uri_eqb_posix a b : infer_path_convention a = Some Posix -> uri_eqb a b = bool_decide (a = b).
Proof. intros Hc. unfold uri_eqb. rewrite (posix_identity_None a Hc). by rewrite orb_false_r. Qed.

Lemma uri_eqb_refl a : uri_eqb a a = true.
Proof. unfold uri_eqb. by rewrite bool_decide_true. Qed.

Lemma starts_with_refl a : uri_starts_with a a = true.
Proof. unfold uri_starts_with. by rewrite uri_eqb_refl. Qed.

Lemma native_start_prefix xs ys :
  native_path_segments_start_with xs ys Posix = true <-> map decode_binary ys `prefix_of` map decode_binary xs.
Proof.
  unfold native_path_segments_start_with. rewrite andb_true_iff, Nat.leb_le.
  revert xs. induction ys as [|y ys IH]; intros [|x xs]; simpl.
  - split; [intros _; apply prefix_nil|done].
  - split; [intros _; apply prefix_nil|intros _; split; [lia|done]].
  - split; [lia|]. intros Hp. by apply prefix_nil_not in Hp.
  - rewrite andb_true_iff, bool_decide_eq_true. specialize (IH xs). split.
    + intros (Hl & -> & Ha). apply prefix_cons, IH. split; [lia|done].
    + intros Hp. pose proof (prefix_cons_inv_1 _ _ _ _ Hp) as ->.
      apply prefix_cons_inv_2 in Hp. apply IH in Hp as [? ?]. repeat split; [lia|done].
Qed.

(** Containment of Posix URIs is containment of their decoded names. *)
Lemma starts_with_view a b x y : posix_view a = Some x -> posix_view b = Some y ->
  uri_starts_with a b = true <-> y `prefix_of` x.
Proof.
  intros (u & xs & -> & Hu & Hcu & Hxs & ->)%posix_view_inv (v & ys & -> & Hv & Hcv & Hys & ->)%posix_view_inv.
  unfold uri_starts_with. rewrite uri_eqb_posix by done. case_bool_decide as E.
  { injection E as ->. rewrite Hxs in Hys. injection Hys as ->. done. }
  rewrite Hu, Hv, Hcu, Hcv. simpl. rewrite Hxs, Hys. apply native_start_prefix.
Qed.

(** A URI without lexical segments contains no Posix URI that has them. *)
Lemma starts_with_opaque a b x : posix_view a = Some x -> posix_view b = None -> uri_starts_with a b = false.
Proof.
  intros Ha Hb. pose proof Ha as (u & xs & -> & Hu & Hcu & Hxs & ->)%posix_view_inv.
  unfold uri_starts_with. rewrite uri_eqb_posix by done. rewrite bool_decide_false by congruence.
  destruct b as [|v]; [done|]. rewrite Hu, Hcu.
  destruct (negb (bool_decide (None = url_host v))); [done|].
  case_bool_decide as Ec; [|done]. simpl. rewrite Hxs. unfold posix_view in Hb.
  rewrite <- Ec in Hb. rewrite bool_decide_true in Hb by done.
  by destruct (containment_path_segments v Posix).
Qed.

(** ** Parents *)

Lemma prefix_segments_view host segs segs' v : posix_view (FileUri (mkUrl host segs)) = Some v ->
  List.filter (fun s => negb (is_nil s)) segs' `prefix_of` List.filter (fun s => negb (is_nil s)) segs ->
  posix_view (FileUri (mkUrl host segs')) = Some (map decode_binary (List.filter (fun s => negb (is_nil s)) segs')).
Proof.
  intros Hv [rest Hr]. apply posix_view_inv in Hv as (u & ss & E & Hh & Hc & Hs & ->).
  injection E as <-. simpl in Hh. subst host. unfold posix_view, infer_path_convention in *.
  unfold containment_path_segments, nonempty_segments in *. cbn [url_host url_segments] in *.
  rewrite Hr in *. rewrite existsb_app in Hs.
  destruct (existsb _ (List.filter _ segs')) eqn:Ee; simpl in Hs; [done|].
  rewrite bool_decide_true; [done|].
  destruct (List.filter _ segs'); [done|]. exact Hc.
Qed.

Lemma pop_segment_shape q : q <> [] -> (exists s, q = [s] /\ pop_segment q = [[]]) \/ (exists s, q = pop_segment q ++ [s] /\ pop_segment q <> []).
Proof.
  intros Hq. destruct q as [|a [|b q]]; [done|left; eauto|right].
  exists (List.last (a :: b :: q) []). split; [|done]. cbn [pop_segment].
  by apply app_removelast_last.
Qed.

Lemma pop_if_empty_shape q : q <> [] -> pop_if_empty q <> [] /\ exists t, q = pop_if_empty q ++ t.
Proof.
  intros Hq. unfold pop_if_empty. destruct (rev q) as [|[|c l] [|b r]] eqn:E; try (split; [done|exists []; by rewrite app_nil_r]).
  assert (Hq' : q = (rev r ++ [b]) ++ [[]]) by (rewrite <- (rev_involutive q), E; done).
  rewrite Hq', removelast_last. split; [by destruct (rev r)|eauto].
Qed.

Lemma parent_step host segs v : segs <> [] -> posix_view (FileUri (mkUrl host segs)) = Some v -> v <> [] ->
  exists segs' v', parent (FileUri (mkUrl host segs)) = Some (FileUri (mkUrl host segs')) /\ segs' <> []
    /\ posix_view (FileUri (mkUrl host segs')) = Some v' /\ (length segs' < length segs \/ v' = []).
Proof.
  intros Hne Hv Hn. pose proof Hv as (u & ss & E & Hh & Hc & Hs & Hss)%posix_view_inv. injection E as <-.
  assert (Hf : nonempty_segments (mkUrl host segs) = ss).
  { unfold containment_path_segments in Hs. by case_match; simplify_eq. }
  unfold parent. rewrite Hc. cbn [mbind option_bind anchor_depth]. rewrite Hf.
  destruct ss as [|s1 ss]; [by subst|]. cbn [length Nat.leb url_host url_segments].
  destruct (pop_if_empty_shape segs Hne) as [Hp [t Ht]].
  destruct (pop_segment_shape _ Hp) as [(s & Eq & Ep)|(s & Eq & Ep)].
  - exists [[]], []. rewrite Ep. repeat split; auto.
    apply (prefix_segments_view host segs [[]] v Hv). apply prefix_nil.
  - exists (pop_segment (pop_if_empty segs)). eexists. repeat split; [done| |left].
    + apply (prefix_segments_view host segs _ v Hv). exists (List.filter (fun s => negb (is_nil s)) ([s] ++ t)).
      rewrite Ht at 1. rewrite Eq at 1. by rewrite <- app_assoc, List.filter_app.
    + rewrite Ht at 2. rewrite Eq at 2. rewrite !length_app. simpl. lia.
Qed.

Lemma ancestors_last fuel host segs v : segs <> [] -> posix_view (FileUri (mkUrl host segs)) = Some v ->
  length segs <= fuel \/ v = [] ->
  exists r, last (ancestors_from fuel (FileUri (mkUrl host segs))) = Some r /\ posix_view r = Some [].
Proof.
  revert segs v. induction fuel as [|fuel IH]; intros segs v Hne Hv Hf.
  - destruct Hf as [Hf| ->]; [destruct segs; simpl in *; [done|lia]|]. simpl. eauto.
  - destruct (decide (v = [])) as [->|Hn].
    + assert (Hp : parent (FileUri (mkUrl host segs)) = None).
      { pose proof Hv as (u & ss & E & Hh & Hc & Hs & Hss)%posix_view_inv. injection E as <-.
        unfold parent. rewrite Hc. simpl. symmetry in Hss. apply map_eq_nil in Hss as ->.
        unfold containment_path_segments in Hs. case_match; [done|]. injection Hs as ->. done. }
      cbn [ancestors_from]. rewrite Hp. eauto.
    + destruct (parent_step host segs v Hne Hv Hn) as (segs' & v' & Hp & Hne' & Hv' & Hd).
      destruct (IH segs' v' Hne' Hv') as (r & Hr & Hvr). { destruct Hf as [Hf|]; [|done]. destruct Hd; [left; lia|by right]. }
      exists r. split; [|done]. cbn [ancestors_from]. rewrite Hp. rewrite last_cons, Hr. done.
Qed.

(** The path of a URL has a segment, which is empty at the root. *)
Definition has_segments (uri : PathUri) : bool := negb (segment_count uri =? 0).

(** The last ancestor of a Posix URI is the root. *)
Lemma ancestors_root uri v : posix_view uri = Some v -> has_segments uri = true ->
  exists r, last (ancestors uri) = Some r /\ posix_view r = Some [].
Proof.
  intros Hv Hs. destruct uri as [|[host segs]]; [done|].
  apply (ancestors_last (length segs) host segs v); [by intros ->|done|by left].
Qed.

(** ** URIs of host paths *)

Lemma encode_char_ascii c b : (b < 128)%N -> b ∈ encode_char c -> b = c.
Proof.
  intros Hb. unfold encode_char. destruct (c <? 128)%N; [by rewrite list_elem_of_singleton|].
  repeat case_match; rewrite ?elem_of_cons, ?elem_of_nil; intros Hin; exfalso;
    repeat match goal with H : _ \/ _ |- _ => destruct H as [H|H] end; try done;
    match goal with H : b = (?k + ?x)%N |- _ => pose proof (N.le_0_l x); lia end.
Qed.

Lemma encode_ascii s b : (b < 128)%N -> b ∈ encode s -> b ∈ s.
Proof.
  intros Hb. induction s as [|c s IH]; [done|]. rewrite encode_cons, elem_of_app.
  intros [Hc|Hs]; [apply encode_char_ascii in Hc as ->; [left|done]|right; auto].
Qed.

Lemma encode_inj s t : valid_str s -> valid_str t -> encode s = encode t -> s = t.
Proof.
  intros Hs Ht E. apply from_utf8_text in Hs, Ht. rewrite E in Hs. rewrite Hs in Ht. by injection Ht.
Qed.

Lemma encode_nonempty n : n <> [] -> encode n <> [].
Proof.
  destruct n as [|c n]; [done|]. rewrite encode_cons. by destruct (encode_char_cons c) as (b & bs & ->).
Qed.

Lemma plain_name_spec n : plain_name n = true ->
  is_name n = true /\ valid_str n /\ 0%N ∉ n /\ is_drive_name n = false.
Proof.
  unfold plain_name. rewrite !andb_true_iff, negb_true_iff. intros ((Hn & Hc) & Hd).
  rewrite forallb_forall in Hc. repeat split; try done.
  - apply Forall_forall. intros c Hin. apply list_elem_of_In, Hc in Hin. unfold is_plain_char in Hin.
    by apply andb_true_iff in Hin as [? _].
  - intros Hin%list_elem_of_In%Hc. by apply andb_true_iff in Hin as [_ ?].
Qed.

Lemma plain_segment e n : plain_name n = true -> decode_binary e = encode n ->
  e <> [] /\ is_windows_drive_uri_segment e = false
  /\ existsb (is_separator_byte Posix) (decode_binary e) = false
  /\ existsb (N.eqb 0) (decode_binary e) = false.
Proof.
  intros (Hn & Hv & H0 & Hd)%plain_name_spec E. apply is_name_spec in Hn as (Hne & Hs & _).
  repeat split.
  - intros ->. rewrite decode_nil in E. by apply (encode_nonempty n Hne).
  - apply not_true_iff_false. intros (d & Ha & Ed)%decode_drive. rewrite E in Ed.
    assert (Hlt : (d < 128)%N).
    { unfold is_ascii_alphabetic, is_ascii_uppercase, is_ascii_lowercase in Ha.
      apply orb_true_iff in Ha as [Ha|Ha]; apply andb_true_iff in Ha as [_ Ha]; apply N.leb_le in Ha; lia. }
    assert (En : n = [d; ch_colon_uri]).
    { apply encode_inj; [done| |].
      - repeat constructor; apply is_scalar_spec; unfold ch_colon_uri; lia.
      - rewrite Ed. unfold encode. simpl. unfold encode_char.
        apply N.ltb_lt in Hlt. by rewrite Hlt. }
    rewrite En in Hd. cbn in Hd. by rewrite Ha in Hd.
  - apply not_true_iff_false. rewrite E. intros (b & Hin & Hb)%existsb_exists.
    unfold is_separator_byte in Hb. simpl in Hb. rewrite orb_false_r in Hb. apply N.eqb_eq in Hb as ->.
    apply Hs, (encode_ascii n ch_slash); [done|by apply list_elem_of_In].
  - apply not_true_iff_false. rewrite E. intros (b & Hin & Hb)%existsb_exists.
    apply N.eqb_eq in Hb as <-. apply H0, (encode_ascii n 0%N); [done|by apply list_elem_of_In].
Qed.

(** The segments of a host path *)
Definition path_segments_of (p : abs_path) (segs : list str) : Prop :=
  match p with
  | [] => segs = [[]]
  | _ => Forall2 (fun e n => decode_binary e = encode n) segs p
  end.

Definition represents (uri : PathUri) (p : abs_path) : Prop :=
  plain_path p /\ exists segs, uri = FileUri (mkUrl None segs) /\ path_segments_of p segs.

Lemma path_segments_nonempty p segs : plain_path p -> path_segments_of p segs ->
  List.filter (fun s => negb (is_nil s)) segs = (if bool_decide (p = []) then [] else segs).
Proof.
  unfold path_segments_of. destruct p as [|n p]; [by intros _ ->|].
  rewrite bool_decide_false by done. intros Hp Hs. revert Hp. unfold plain_path.
  induction Hs as [|e m es ms He _ IH]; [done|]. intros [Hm Hms]%Forall_cons.
  pose proof (plain_segment e m Hm He) as (Hne & _). simpl. rewrite IH by done. by destruct e.
Qed.

Lemma path_segments_forall (P : str -> Prop) p segs : plain_path p -> p <> [] -> path_segments_of p segs ->
  (forall e n, plain_name n = true -> decode_binary e = encode n -> P e) -> Forall P segs.
Proof.
  intros Hp Hne Hs HP. destruct p as [|n p]; [done|]. unfold path_segments_of in Hs.
  unfold plain_path in Hp. clear Hne. induction Hs as [|e m es ms He _ IH]; [done|].
  apply Forall_cons in Hp as [Hm Hms]. constructor; eauto.
Qed.

Lemma existsb_Forall_false {A} (f : A -> bool) l : Forall (fun x => f x = false) l -> existsb f l = false.
Proof. induction 1 as [|x l Hx _ IH]; [done|]. simpl. by rewrite Hx. Qed.

Lemma represents_segments uri p segs : represents uri p -> uri = FileUri (mkUrl None segs) ->
  plain_path p /\ path_segments_of p segs.
Proof. intros (Hp & segs' & -> & Hs) [= ->]. done. Qed.

Lemma path_segments_decode p segs : p <> [] -> path_segments_of p segs -> map decode_binary segs = map encode p.
Proof.
  destruct p as [|n p]; [done|]. intros _ Hs. unfold path_segments_of in Hs.
  induction Hs as [|e m es ms He _ IH]; [done|]. simpl. by rewrite He, IH.
Qed.

Lemma represents_view uri p : represents uri p -> posix_view uri = Some (map encode p).
Proof.
  intros (Hp & segs & -> & Hs). unfold posix_view, infer_path_convention, containment_path_segments, nonempty_segments.
  cbn [url_host url_segments]. rewrite (path_segments_nonempty p segs Hp Hs).
  destruct (bool_decide_reflect (p = [])) as [->|Hne]; [done|].
  rewrite existsb_Forall_false.
  2:{ apply (path_segments_forall _ p); try done. intros e n Hn He.
      by apply (plain_segment e n Hn He). }
  pose proof (path_segments_forall (fun e => is_windows_drive_uri_segment e = false) p segs Hp Hne Hs) as Hd.
  destruct segs as [|e segs]; [destruct p; [done|inversion Hs]|]. rewrite bool_decide_true; [|simpl].
  - simpl. f_equal. by apply (path_segments_decode p (e :: segs)).
  - assert (Hf : Forall (fun e => is_windows_drive_uri_segment e = false) (e :: segs)).
    { apply Hd. intros e' n Hn He. by apply (plain_segment e' n Hn He). }
    apply Forall_cons in Hf as [-> _]. done.
Qed.

Lemma represents_depth uri p : represents uri p -> lexical_depth uri = Some (length p).
Proof. intros Hr%represents_view%posix_view_depth. by rewrite length_map in Hr. Qed.

Lemma represents_convention uri p : represents uri p -> infer_path_convention uri = Some Posix.
Proof. by intros Hr%represents_view%posix_view_convention. Qed.

Lemma plain_valid p : plain_path p -> Forall valid_str p.
Proof. intros Hp. eapply Forall_impl; [exact Hp|]. intros n Hn. by apply plain_name_spec. Qed.

Lemma encode_prefix p q : Forall valid_str p -> Forall valid_str q ->
  map encode p `prefix_of` map encode q <-> p `prefix_of` q.
Proof.
  intros Hp. revert q. induction Hp as [|n p Hn Hp IH]; intros q Hq.
  { split; intros _; apply prefix_nil. }
  destruct Hq as [|m q Hm Hq]; simpl.
  { split; intros Hx; by apply prefix_nil_not in Hx. }
  split; intros Hx.
  - pose proof (prefix_cons_inv_1 _ _ _ _ Hx) as E. apply encode_inj in E as ->; [|done..].
    apply prefix_cons, IH; [done|]. by apply prefix_cons_inv_2 in Hx.
  - pose proof (prefix_cons_inv_1 _ _ _ _ Hx) as ->. apply prefix_cons, IH; [done|].
    by apply prefix_cons_inv_2 in Hx.
Qed.

Lemma represents_starts_with a b p q : represents a p -> represents b q ->
  uri_starts_with a b = true <-> q `prefix_of` p.
Proof.
  intros Ha Hb. rewrite (starts_with_view a b _ _ (represents_view a p Ha) (represents_view b q Hb)).
  apply encode_prefix; apply plain_valid; [apply Hb|apply Ha].
Qed.

(** *** Validation *)

Lemma decode_join segs : decode_binary (join [ch_slash] segs) = join [ch_slash] (map decode_binary segs).
Proof.
  induction segs as [|s [|t segs] IH]; [apply decode_nil|done|].
  change (join [ch_slash] (s :: t :: segs)) with (s ++ ch_slash :: join [ch_slash] (t :: segs)).
  rewrite decode_sep, IH. done.
Qed.

Lemma existsb_join (f : N -> bool) parts : f ch_slash = false -> Forall (fun p => existsb f p = false) parts ->
  existsb f (join [ch_slash] parts) = false.
Proof.
  intros Hf. induction 1 as [|p parts Hp Hparts IH]; [done|]. destruct parts as [|q parts]; [done|].
  change (join [ch_slash] (p :: q :: parts)) with (p ++ [ch_slash] ++ join [ch_slash] (q :: parts)).
  rewrite !existsb_app, Hp, IH. simpl. by rewrite Hf.
Qed.

Lemma normalize_drive_id segs : Forall (fun e => is_windows_drive_uri_segment e = false) segs -> normalize_drive segs = segs.
Proof.
  induction 1 as [|e segs He _ IH]; [done|]. simpl. destruct e as [|c e]; [by rewrite IH|]. by rewrite He.
Qed.

Lemma represents_not_bad p segs : plain_path p -> path_segments_of p segs -> decode_bad_path_uri (mkUrl None segs) = None.
Proof.
  intros Hp Hs. unfold decode_bad_path_uri. cbn [url_host url_segments].
  destruct segs as [|z [|b [|pa [|enc [|]]]]]; try done.
  destruct (str_eqb z (lit "%00")) eqn:Ez; [exfalso|done]. apply str_eqb_eq in Ez as ->.
  destruct p as [|n p]; [done|]. apply Forall2_cons_1 in Hs as [He _]. apply Forall_cons in Hp as [Hn _].
  pose proof (plain_segment _ n Hn He) as (_ & _ & _ & H0). by rewrite decode_zero in H0.
Qed.

Lemma try_from_url_represents p segs : plain_path p -> path_segments_of p segs ->
  try_from_url (mkUrl None segs) = Ok (FileUri (mkUrl None segs)).
Proof.
  intros Hp Hs. unfold try_from_url, encoded_path. rewrite (represents_not_bad p) by done. cbn [url_segments].
  assert (Hall : Forall (fun e => is_windows_drive_uri_segment e = false) segs
                 /\ Forall (fun b => existsb (N.eqb 0) b = false) (map decode_binary segs)).
  { destruct (decide (p = [])) as [->|Hne].
    - simpl in Hs. subst. simpl. rewrite decode_nil. split; repeat constructor.
    - rewrite Forall_map. split; apply (path_segments_forall _ p segs Hp Hne Hs);
        intros e n Hn He; by apply (plain_segment e n Hn He). }
  destruct Hall as [Hd Hz].
  change ([ch_slash] ++ join [ch_slash] segs) with ([] ++ ch_slash :: join [ch_slash] segs).
  rewrite decode_sep, decode_nil, decode_join. cbn [app existsb].
  rewrite existsb_join by done. simpl. unfold with_normalized_windows_drive_letter, without_localhost_authority.
  simpl. by rewrite normalize_drive_id.
Qed.

(** *** Host paths there and back *)

Lemma from_abs_path_represents p : plain_path p -> represents (from_abs_path p) p.
Proof.
  intros Hp. set (segs := match p with [] => [[]] | _ => map file_path_segment p end).
  assert (Hs : path_segments_of p segs).
  { destruct p as [|n p]; [done|]. unfold path_segments_of, segs. apply Forall2_fmap_l, Forall_Forall2_diag.
    eapply Forall_impl; [apply (plain_valid _ Hp)|]. intros m Hm. by apply file_path_segment_decodes. }
  assert (Hr : represents (FileUri (mkUrl None segs)) p) by (split; eauto).
  unfold from_abs_path. fold segs. rewrite (try_from_url_represents p) by done.
  rewrite bool_decide_true; [done|by apply (represents_convention _ p)].
Qed.

Lemma components_join p : Forall (fun n => is_name n = true) p -> components (join [ch_slash] p) = map NormalComp p.
Proof.
  induction 1 as [|n p Hn Hp IH]; [done|]. destruct p as [|m p]; [by apply components_name|].
  change (join [ch_slash] (n :: m :: p)) with (n ++ ch_slash :: join [ch_slash] (m :: p)).
  rewrite components_sep, IH, components_name by done. done.
Qed.

Lemma normalize_names acc p : fold_left normalize_component (map NormalComp p) acc = acc ++ p.
Proof.
  revert acc. induction p as [|n p IH]; intros acc; simpl; [by rewrite app_nil_r|].
  by rewrite IH, <- app_assoc.
Qed.

Lemma normalize_abs_text p : Forall (fun n => is_name n = true) p -> normalize_path (abs_text p) = p.
Proof.
  intros Hp. unfold abs_text, normalize_path.
  change ([ch_slash] ++ join [ch_slash] p) with ([] ++ ch_slash :: join [ch_slash] p).
  rewrite components_sep, components_join by done. apply (normalize_names []).
Qed.

Lemma plain_names p : plain_path p -> Forall (fun n => is_name n = true) p.
Proof. intros Hp. eapply Forall_impl; [exact Hp|]. intros n Hn. by apply plain_name_spec. Qed.

Lemma to_abs_path_represents uri p : represents uri p -> to_abs_path uri = Some p.
Proof.
  intros Hr. pose proof Hr as (Hp & segs & -> & Hs). unfold to_abs_path.
  rewrite bool_decide_true by (by apply (represents_convention _ p)). cbn [negb].
  destruct (to_file_path_decodes segs (if bool_decide (p = []) then [[]] else p)) as (t & Ht & Ha & En).
  - destruct p as [|n p]; [simpl in *; subst; by repeat constructor; rewrite ?decode_nil|exact Hs].
  - case_bool_decide; [by repeat constructor|by apply plain_valid].
  - rewrite Ht. cbn [mbind option_bind]. unfold absolute_path_checked. rewrite Ha, En. f_equal.
    case_bool_decide as Ep; [by subst|]. apply (normalize_abs_text p), plain_names, Hp.
Qed.

(** *** Joining relative text *)

(** Text whose components keep their names through a URI *)
Definition plain_text (t : str) : Prop :=
  contains_char 0%N t = false
  /\ Forall (fun c => match c with NormalComp n => plain_name n = true | _ => True end) (components t).

Lemma normalize_plain acc cs : plain_path acc ->
  Forall (fun c => match c with NormalComp n => plain_name n = true | _ => True end) cs ->
  plain_path (fold_left normalize_component cs acc).
Proof.
  intros Ha Hc. revert acc Ha. induction Hc as [|c cs Hc _ IH]; intros acc Ha; [done|]. simpl. apply IH.
  destruct c as [| |n]; simpl; [done| |by apply Forall_app; auto].
  unfold plain_path in *. destruct (decide (acc = [])) as [->|Hne]; [done|].
  rewrite (app_removelast_last [] Hne) in Ha. by apply Forall_app in Ha as [? _].
Qed.

Lemma path_segments_length p segs : p <> [] -> path_segments_of p segs -> length segs = length p.
Proof. destruct p; [done|]. intros _ Hs. by apply Forall2_length in Hs. Qed.

Lemma pop_segment_path p segs : p <> [] -> path_segments_of p segs -> path_segments_of (removelast p) (pop_segment segs).
Proof.
  intros Hne Hs. destruct p as [|n p]; [done|]. unfold path_segments_of in Hs.
  destruct Hs as [|e m es ms He Hs]; [done|]. destruct Hs as [|e' m' es ms He' Hs]; [done|].
  cbn [pop_segment removelast]. unfold path_segments_of.
  assert (Hg : forall e m es ms, decode_binary e = encode m -> Forall2 (fun e n => decode_binary e = encode n) es ms ->
    Forall2 (fun e n => decode_binary e = encode n) (removelast (e :: es)) (removelast (m :: ms))).
  { clear. intros e m es ms He Hs. revert e m He. induction Hs as [|e' m' es ms He' Hs IH]; intros e m He; [constructor|].
    change (removelast (e :: e' :: es)) with (e :: removelast (e' :: es)).
    change (removelast (m :: m' :: ms)) with (m :: removelast (m' :: ms)). constructor; eauto. }
  constructor; [done|]. by apply Hg.
Qed.

Lemma push_segment_path p segs n : plain_path p -> plain_name n = true -> path_segments_of p segs ->
  path_segments_of (p ++ [n]) (push_segment segs n).
Proof.
  intros Hp Hn Hs. unfold push_segment. pose proof (plain_name_spec n Hn) as ((_ & _ & Hd1 & Hd2)%is_name_spec & _).
  change (lit ".") with [ch_dot]. change (lit "..") with [ch_dot; ch_dot].
  apply str_eqb_neq in Hd1, Hd2. rewrite Hd1, Hd2. cbn [orb].
  destruct p as [|m p].
  - simpl in Hs. subst. rewrite bool_decide_true by done. simpl. constructor; [|done]. by apply push_text_decodes.
  - rewrite bool_decide_false.
    + unfold path_segments_of in *. apply Forall2_app; [done|].
      constructor; [|done]. by apply push_text_decodes.
    + intros ->. assert (Hf : Forall (fun e : str => e <> []) [[]]); [|by inversion Hf].
      apply (path_segments_forall (fun e => e <> @nil N) (m :: p)); [done..|].
      intros e n' Hn' He. by apply (plain_segment e n' Hn' He).
Qed.

(** [components] of the words of a path *)
Definition word_components (ws : list str) : list component :=
  omap (fun w => if bool_decide (w = []) then None
                 else if str_eqb w [ch_dot] then Some CurDir
                 else if str_eqb w [ch_dot; ch_dot] then Some ParentDir
                 else Some (NormalComp w)) ws.

Lemma join_components_path ws p segs : plain_path p -> path_segments_of p segs ->
  Forall (fun w => is_nil w = false -> str_eqb w [ch_dot] = false -> str_eqb w [ch_dot; ch_dot] = false ->
                   plain_name w = true) ws ->
  exists segs', fold_left (join_component Posix) ws (length p, segs)
      = (length (fold_left normalize_component (word_components ws) p), segs')
    /\ path_segments_of (fold_left normalize_component (word_components ws) p) segs'.
Proof.
  intros Hp Hs Hw. revert p segs Hp Hs. induction Hw as [|w ws Hw _ IH]; intros p segs Hp Hs; [by exists segs|].
  unfold word_components in *. cbn [fold_left omap list_omap]. unfold join_component at 2. cbn [anchor_depth].
  change (lit ".") with [ch_dot]. change (lit "..") with [ch_dot; ch_dot].
  destruct w as [|c w]; [by apply IH|]. rewrite (bool_decide_false (c :: w = [])) by done.
  cbn [is_nil orb]. destruct (str_eqb (c :: w) [ch_dot]) eqn:E1; [by apply IH|].
  destruct (str_eqb (c :: w) [ch_dot; ch_dot]) eqn:E2; cbn [fold_left normalize_component].
  - destruct (decide (p = [])) as [->|Hne]; [by apply IH|].
    assert (Hl : (0 <? length p) = true) by (destruct p; [done|done]). rewrite Hl.
    replace (length p - 1) with (length (removelast p)) by (by rewrite removelast_firstn_len, length_take; lia).
    apply IH; [|by apply pop_segment_path].
    unfold plain_path in *. rewrite (app_removelast_last [] Hne) in Hp. by apply Forall_app in Hp as [? _].
  - assert (Hn : plain_name (c :: w) = true) by (by apply Hw).
    replace (length p + 1) with (length (p ++ [c :: w])) by (rewrite length_app; done).
    apply IH; [by apply Forall_app; auto|by apply push_segment_path].
Qed.

Lemma pop_if_empty_path p segs : plain_path p -> path_segments_of p segs -> pop_if_empty segs = segs.
Proof.
  intros Hp Hs. destruct (decide (p = [])) as [->|Hne]; [by simpl in Hs; subst|].
  assert (Hf : Forall (fun e : str => e <> []) segs).
  { apply (path_segments_forall _ p); [done..|]. intros e n Hn He. by apply (plain_segment e n Hn He). }
  unfold pop_if_empty. apply Forall_rev in Hf. destruct (rev segs) as [|[|c e] [|e' r]]; try done. by inversion Hf.
Qed.

Lemma plain_text_words t : plain_text t ->
  Forall (fun w => is_nil w = false -> str_eqb w [ch_dot] = false -> str_eqb w [ch_dot; ch_dot] = false ->
                   plain_name w = true) (split_on ch_slash t).
Proof.
  intros [_ Hc]. unfold components in Hc. induction (split_on ch_slash t) as [|w ws IH]; [done|].
  cbn [omap list_omap] in Hc. constructor.
  - intros Hn E1 E2. destruct w as [|c w]; [done|]. rewrite (bool_decide_false (c :: w = [])) in Hc by done.
    rewrite E1, E2 in Hc. by apply Forall_cons in Hc as [? _].
  - apply IH. repeat case_match; try done; by apply Forall_cons in Hc as [_ ?].
Qed.

(** Relative text joins to the path of its components. *)
Lemma join_represents uri p t : represents uri p -> plain_text t -> is_absolute t = false ->
  exists uri', uri_join uri t = Ok uri' /\ represents uri' (fold_left normalize_component (components t) p).
Proof.
  intros Hr Ht Ha. pose proof Hr as (Hp & segs & -> & Hs). unfold uri_join.
  pose proof Ht as [Hz Hc]. rewrite Hz. destruct (is_nil t) eqn:En; [destruct t; by eauto|].
  rewrite (represents_convention _ p Hr). unfold from_absolute_native_path, parse_posix_path.
  unfold is_absolute, starts_with in Ha. destruct (strip_prefix [ch_slash] t) eqn:Es; [done|].
  cbn [mbind option_bind without_same_drive].
  unfold join_segments. cbn [url_segments url_host windows_root_relative andb]. unfold nonempty_segments.
  cbn [url_segments]. rewrite (pop_if_empty_path p), (path_segments_nonempty p) by done.
  replace (length (if bool_decide (p = []) then [] else segs)) with (length p).
  2:{ case_bool_decide; [by subst|]. symmetry. by apply path_segments_length. }
  destruct (join_components_path (split_on ch_slash t) p segs Hp Hs (plain_text_words t Ht)) as (segs' & Ef & Hs').
  change (word_components (split_on ch_slash t)) with (components t) in *.
  cbv zeta. cbn [andb anchor_depth]. simpl result_bind. cbv beta. rewrite Ef. cbn [snd].
  assert (Hp' : plain_path (fold_left normalize_component (components t) p)) by (by apply normalize_plain).
  eexists. split; [by apply (try_from_url_represents _ segs' Hp')|]. split; eauto.
Qed.

Lemma join_name uri p n : represents uri p -> plain_name n = true ->
  exists uri', uri_join uri n = Ok uri' /\ represents uri' (p ++ [n]).
Proof.
  intros Hr Hn. pose proof (plain_name_spec n Hn) as (Hi & _ & Hz & _).
  pose proof (components_name n Hi) as Ec. pose proof Hi as (_ & Hs & _)%is_name_spec.
  destruct (join_represents uri p n Hr) as (uri' & Ej & Hr').
  - split; [|rewrite Ec; by repeat constructor]. apply not_true_iff_false. unfold contains_char.
    intros (x & Hx & E)%existsb_exists. apply N.eqb_eq in E as <-. by apply Hz, list_elem_of_In.
  - apply not_true_iff_false. unfold is_absolute. rewrite starts_with_spec. intros [x ->]. apply Hs. by left.
  - rewrite Ec in Hr'. eauto.
Qed.

Lemma join_descendant_name uri p n : represents uri p -> plain_name n = true ->
  exists uri', join_descendant uri n = Ok uri' /\ represents uri' (p ++ [n]).
Proof.
  intros Hr Hn. destruct (join_name uri p n Hr Hn) as (uri' & Ej & Hr'). exists uri'. split; [|done].
  unfold join_descendant. rewrite Ej. cbn. rewrite (represents_convention _ p Hr).
  rewrite (proj2 (represents_starts_with uri' uri _ _ Hr' Hr)) by (by apply prefix_app_r).
  pose proof (plain_name_spec n Hn) as ((_ & Hs & _)%is_name_spec & _).
  assert (Ha : starts_with [ch_slash] n = false).
  { apply not_true_iff_false. rewrite starts_with_spec. intros [x ->]. apply Hs. by left. }
  by rewrite Ha.
Qed.

(** The URI of [/tmp] *)
Lemma join_slash_tmp uri : infer_path_convention uri = Some Posix ->
  exists uri', uri_join uri (lit "/tmp") = Ok uri' /\ represents uri' [lit "tmp"].
Proof.
  intros Hr. unfold uri_join. rewrite Hr. cbn -[from_absolute_native_path].
  set (segs := push_segment [[]] (lit "tmp")).
  assert (Hp : plain_path [lit "tmp"]) by (by repeat constructor).
  assert (Hs : path_segments_of [lit "tmp"] segs) by (apply (push_segment_path [] [[]] (lit "tmp")); [constructor|done|done]).
  assert (Hr' : represents (FileUri (mkUrl None segs)) [lit "tmp"]) by (split; eauto).
  replace (from_absolute_native_path (lit "/tmp") Posix) with (Some (FileUri (mkUrl None segs))); [by eauto|].
  assert (Hpp : parse_posix_path (lit "/tmp") = Some (FileUri (mkUrl None segs))).
  { change (parse_posix_path (lit "/tmp")) with
      (match try_from_url (mkUrl None segs) with Ok uri => Some uri | Err _ => None end).
    by rewrite (try_from_url_represents [lit "tmp"]). }
  unfold from_absolute_native_path. rewrite Hpp. cbn [mbind option_bind].
  by rewrite (represents_convention _ _ Hr').
Qed.

Lemma parent_represents uri p : represents uri p -> p <> [] ->
  exists uri', parent uri = Some uri' /\ represents uri' (removelast p).
Proof.
  intros Hr Hne. pose proof Hr as (Hp & segs & -> & Hs). unfold parent. rewrite (represents_convention _ p Hr).
  cbn [mbind option_bind anchor_depth url_host url_segments]. unfold nonempty_segments. cbn [url_segments].
  rewrite (path_segments_nonempty p), bool_decide_false, (path_segments_length p) by done.
  destruct p as [|n p]; [done|]. cbn [length Nat.leb]. eexists. split; [done|]. split.
  - unfold plain_path in *. rewrite (app_removelast_last [] Hne) in Hp. by apply Forall_app in Hp as [? _].
  - eexists. split; [done|]. rewrite (pop_if_empty_path (n :: p)) by done. by apply pop_segment_path.
Qed.

Lemma parent_of_root uri : represents uri [] -> parent uri = None.
Proof. by intros (_ & segs & -> & ->). Qed.

Lemma represents_root uri p : represents uri p -> exists r, last (ancestors uri) = Some r /\ represents r [].
Proof.
  intros Hr. assert (Hf : length p <= segment_count uri).
  { destruct Hr as (_ & segs & -> & Hs). simpl. destruct p as [|n p]; [simpl; lia|].
    by rewrite (path_segments_length (n :: p) segs). }
  unfold ancestors. revert Hf. generalize (segment_count uri) as fuel. remember (length p) as n eqn:En.
  revert uri p Hr En. induction n as [|n IH]; intros uri p Hr En fuel Hf.
  - destruct p; [|done]. exists uri. destruct fuel; [done|]. cbn [ancestors_from].
    by rewrite (parent_of_root uri Hr).
  - destruct fuel as [|fuel]; [lia|]. cbn [ancestors_from].
    destruct (parent_represents uri p Hr) as (uri' & Hp & Hr'); [by intros ->|]. rewrite Hp.
    destruct (IH uri' (removelast p) Hr') with (fuel := fuel) as (r & Hl & Hrr);
      [rewrite removelast_firstn_len, length_take; lia|lia|].
    exists r. split; [|done]. by rewrite last_cons, Hl.
Qed.

Lemma represents_has_segments uri p : represents uri p -> has_segments uri = true.
Proof. intros (_ & segs & -> & Hs). destruct segs; [|done]. destruct p; [done|inversion Hs]. Qed.

End posix.

(** ** Equality is an equivalence *)

#[export] Instance uri_eqb_equivalence {lib : UrlLib} : Equivalence (fun a b => uri_eqb a b = true).
Proof.
  unfold uri_eqb. split.
  - intros a. by rewrite bool_decide_true.
  - intros a b. rewrite !orb_true_iff, !bool_decide_eq_true. intros [->|Hw]; [by left|right].
    destruct (windows_identity_path_bytes a), (windows_identity_path_bytes b); try done.
    rewrite andb_true_iff, !bool_decide_eq_true in *. naive_solver.
  - intros a b c. rewrite !orb_true_iff, !bool_decide_eq_true. intros [->|Hab] [->|Hbc]; [by left|by right..|right].
    destruct (windows_identity_path_bytes a), (windows_identity_path_bytes b), (windows_identity_path_bytes c); try done.
    rewrite andb_true_iff, !bool_decide_eq_true in *. destruct Hab, Hbc. split; congruence.
Qed.

(** ** URI operations are those of native paths *)

(** On host paths with ordinary names the operations on URIs are the operations on
    native paths: a path survives the round trip through its URI, containment of
    URIs is containment of paths component by component, joining relative text
    gives the URI of the lexically normalised joined path, and a URI has as many
    lexical segments as the path has components. *)
Theorem uri_operations_native {lib : UrlLib} {laws : UrlLaws} (p q : abs_path) (t : str) :
  plain_path p -> plain_path q -> plain_text t -> is_absolute t = false ->
  to_abs_path (from_abs_path p) = Some p
  /\ (uri_starts_with (from_abs_path p) (from_abs_path q) = true <-> q `prefix_of` p)
  /\ (exists joined, uri_join (from_abs_path p) t = Ok joined
        /\ to_abs_path joined = Some (normalize_path (path_join (abs_text p) t)))
  /\ lexical_depth (from_abs_path p) = Some (length p).
Proof.
  intros Hp Hq Ht Ha.
  pose proof (from_abs_path_represents p Hp) as Rp. pose proof (from_abs_path_represents q Hq) as Rq.
  repeat split.
  - by apply to_abs_path_represents.
  - by apply represents_starts_with.
  - by apply represents_starts_with.
  - destruct (join_represents _ p t Rp Ht Ha) as (joined & Ej & Rj). exists joined. split; [done|].
    rewrite (to_abs_path_represents _ _ Rj). f_equal. unfold normalize_path.
    rewrite path_join_components, fold_left_app by done. f_equal. symmetry.
    apply (normalize_abs_text p), plain_names, Hp.
  - by apply represents_depth.
Qed.

(** ** Percent encoding, as an instance *)

Module Percent.

Definition hex_value (c : char) : option N :=
  (if (48 <=? c) && (c <=? 57) then Some (c - 48)
   else if (65 <=? c) && (c <=? 70) then Some (c - 55)
   else if (97 <=? c) && (c <=? 102) then Some (c - 87)
   else None)%N.

Fixpoint decode (s : str) : list N :=
  match s with
  | [] => []
  | c :: rest =>
      if (c =? ch_percent)%N then
        match rest with
        | h :: l :: rest' =>
            match hex_value h, hex_value l with
            | Some a, Some b => (a * 16 + b)%N :: decode rest'
            | _, _ => c :: decode rest
            end
        | _ => c :: decode rest
        end
      else c :: decode rest
  end.

Definition hex_digit (n : N) : char := (if n <? 10 then 48 + n else 55 + n)%N.

Definition encode_byte (b : N) : str :=
  if is_ascii_alphanumeric b then [b] else [ch_percent; hex_digit (b / 16)%N; hex_digit (b mod 16)%N].

Definition encode_name (n : str) : str := flat_map encode_byte (encode n).

Definition file_path (u : FileUrl) : option str :=
  match url_host u, from_utf8 ([ch_slash] ++ join [ch_slash] (map decode (url_segments u))) with
  | None, Ok t => Some t
  | _, _ => None
  end.

#[export] Instance percent_lib : UrlLib := {|
  decode_binary := decode;
  push_text := fun _ => encode_name;
  file_path_segment := encode_name;
  to_file_path := file_path;
  parse_host := Some;
  base64_url := id;
  base64_decode := Some;
|}.

Lemma decode_step c rest : (c =? ch_percent)%N = false -> decode (c :: rest) = c :: decode rest.
Proof. intros E. simpl. by rewrite E. Qed.

Lemma sep_decode a b : decode (a ++ ch_slash :: b) = decode a ++ ch_slash :: decode b.
Proof.
  remember (length a) as n eqn:En. revert a En. induction (lt_wf n) as [n _ IH]. intros a ->.
  assert (IH' : forall a', length a' < length a -> decode (a' ++ ch_slash :: b) = decode a' ++ ch_slash :: decode b) by eauto.
  clear IH. destruct a as [|c a]; [done|]. destruct (c =? ch_percent)%N eqn:Ec.
  - apply N.eqb_eq in Ec as ->. destruct a as [|h a]; [by destruct b|]. destruct a as [|l a].
    + assert (Ed : decode (h :: ch_slash :: b) = decode [h] ++ ch_slash :: decode b) by (apply (IH' [h]); simpl; lia).
      change ((ch_percent :: [h]) ++ ch_slash :: b) with (ch_percent :: h :: ch_slash :: b).
      change (decode (ch_percent :: h :: ch_slash :: b)) with
        (match hex_value h with
         | Some _ | None => ch_percent :: decode (h :: ch_slash :: b)
         end).
      change (decode [ch_percent; h]) with (ch_percent :: decode [h]). rewrite Ed. by destruct (hex_value h).
    + pose proof (IH' (h :: l :: a) ltac:(simpl; lia)) as E1. pose proof (IH' a ltac:(simpl; lia)) as E2.
      change (decode ((ch_percent :: h :: l :: a) ++ ch_slash :: b)) with
        (match hex_value h, hex_value l with
         | Some x, Some y => (x * 16 + y)%N :: decode (a ++ ch_slash :: b)
         | _, _ => ch_percent :: decode ((h :: l :: a) ++ ch_slash :: b)
         end).
      change (decode (ch_percent :: h :: l :: a)) with
        (match hex_value h, hex_value l with
         | Some x, Some y => (x * 16 + y)%N :: decode a
         | _, _ => ch_percent :: decode (h :: l :: a)
         end).
      rewrite E1, E2. by destruct (hex_value h), (hex_value l).
  - rewrite <- app_comm_cons, !decode_step by done. rewrite IH' by (simpl; lia). done.
Qed.

Lemma hex_value_digit n : (n < 16)%N -> hex_value (hex_digit n) = Some n.
Proof.
  intros Hn. assert (Hin : n ∈ [0; 1; 2; 3; 4; 5; 6; 7; 8; 9; 10; 11; 12; 13; 14; 15]%N) by
    (rewrite !elem_of_cons; lia).
  clear Hn. repeat (apply elem_of_cons in Hin as [->|Hin]; [done|]). by apply elem_of_nil in Hin.
Qed.

Lemma encode_byte_decode b rest : (b < 256)%N -> decode (encode_byte b ++ rest) = b :: decode rest.
Proof.
  intros Hb. unfold encode_byte. destruct (is_ascii_alphanumeric b) eqn:Ea.
  - simpl. destruct (N.eqb_spec b ch_percent) as [->|]; [done|done].
  - cbn [app decode]. rewrite N.eqb_refl.
    assert (H1 : (b / 16 < 16)%N) by (apply N.Div0.div_lt_upper_bound; lia).
    assert (H2 : (b mod 16 < 16)%N) by (by apply N.mod_lt).
    rewrite !hex_value_digit by done. f_equal. pose proof (N.div_mod b 16). lia.
Qed.

Lemma encode_char_bytes c : is_scalar c = true -> Forall (fun b => (b < 256)%N) (encode_char c).
Proof.
  intros Hc%is_scalar_spec. unfold encode_char. repeat case_match;
    repeat match goal with H : (_ <? _)%N = true |- _ => apply N.ltb_lt in H
                         | H : (_ <? _)%N = false |- _ => apply N.ltb_ge in H end;
    repeat constructor; try lia;
    try (match goal with |- (_ + ?x mod 64 < _)%N => pose proof (N.mod_lt x 64); lia end);
    match goal with |- (?k + ?x / ?m < _)%N =>
      assert (x / m < 256 - k)%N by (apply N.Div0.div_lt_upper_bound; lia); lia end.
Qed.

Lemma decode_encode_name n : valid_str n -> decode (encode_name n) = encode n.
Proof.
  intros Hv. unfold encode_name.
  assert (Hb : Forall (fun b => (b < 256)%N) (encode n)).
  { unfold encode. induction Hv as [|c n Hc _ IH]; [done|]. simpl. apply Forall_app. split; [by apply encode_char_bytes|done]. }
  induction Hb as [|b bs Hb _ IH]; [done|]. simpl. by rewrite encode_byte_decode, IH.
Qed.

Lemma encode_join names : encode (join [ch_slash] names) = join [ch_slash] (map encode names).
Proof.
  induction names as [|n [|m names] IH]; [done|done|].
  change (join [ch_slash] (n :: m :: names)) with (n ++ [ch_slash] ++ join [ch_slash] (m :: names)).
  by rewrite !encode_app, IH.
Qed.

Lemma join_valid names : Forall valid_str names -> valid_str (join [ch_slash] names).
Proof.
  induction 1 as [|n names Hn Hs IH]; [constructor|]. destruct names as [|m names]; [done|].
  change (join [ch_slash] (n :: m :: names)) with (n ++ ch_slash :: join [ch_slash] (m :: names)).
  apply Forall_app. split; [done|]. by constructor.
Qed.

#[export] Instance percent_laws : UrlLaws.
Proof.
  split.
  - done.
  - done.
  - apply sep_decode.
  - intros e He. destruct e as [|d [|c [|t [|a [|]]]]]; try done; simpl in He.
    + apply andb_true_iff in He as [Hd Hc]. apply N.eqb_eq in Hc as ->. exists d. split; [done|].
      cbn. destruct (N.eqb_spec d ch_percent) as [->|]; [done|done].
    + rewrite !andb_true_iff in He. destruct He as (((Hd & Hp) & Ht) & Ha).
      apply N.eqb_eq in Hp as ->. apply N.eqb_eq in Ht as ->. exists d. split; [done|].
      cbn. destruct (N.eqb_spec d ch_percent) as [->|]; [done|].
      apply orb_true_iff in Ha as [->%N.eqb_eq| ->%N.eqb_eq]; done.
  - apply decode_encode_name.
  - intros segments n (_ & Hv & _)%plain_name_spec. by apply decode_encode_name.
  - intros segs names Hs Hv. exists ([ch_slash] ++ join [ch_slash] names). split; [|done].
    unfold to_file_path, percent_lib, file_path. cbn [url_host url_segments].
    replace (map decode segs) with (map encode names).
    + rewrite <- encode_join.
      change ([ch_slash] ++ encode (join [ch_slash] names)) with (encode ([ch_slash] ++ join [ch_slash] names)).
      rewrite from_utf8_text; [done|]. apply Forall_app. split; [by repeat constructor|by apply join_valid].
    + clear Hv. induction Hs as [|e n es ns He _ IH]; [done|]. simpl. change (decode e) with (decode_binary e). by rewrite IH, He.
Qed.

End Percent.

Lemma uri_operations_native_witness :
  @to_abs_path Percent.percent_lib (@from_abs_path Percent.percent_lib [lit "w"; lit "a b"]) = Some [lit "w"; lit "a b"]
  /\ (exists joined, @uri_join Percent.percent_lib (@from_abs_path Percent.percent_lib [lit "w"; lit "a b"])
                       (lit "../c%/./d") = Ok joined
        /\ @to_abs_path Percent.percent_lib joined = Some [lit "w"; lit "c%"; lit "d"]).
Proof.
  destruct (@uri_operations_native Percent.percent_lib Percent.percent_laws
              [lit "w"; lit "a b"] [lit "w"] (lit "../c%/./d")) as (H1 & _ & H3 & _);
    [by repeat constructor|by repeat constructor|split; [done|by repeat constructor]|done|].
  split; [exact H1|exact H3].
Defined.
