(* ===== verification/Permissions.v ===== *)
(** * File-system permissions

    protocol/src/permissions.rs on a Unix build: the entries of a sandbox policy,
    their resolution against a context of executor paths, the access of a path,
    the protection of workspace metadata and the edits of a policy that keep its
    denials or add roots.  Paths are the [PathUri]s of PathUri.  [AccessRules]
    is the abstract reading of a resolved policy: rules on paths, of which the
    deepest one decides. *)

From S2P Require Import Prelude RustStr Utf8Stream AbsolutePath PathUri.

(** ** Policies *)

Inductive FileSystemAccessMode := Read | Write | Deny.

#[export] Instance FileSystemAccessMode_eq_dec : EqDecision FileSystemAccessMode.
Proof. solve_decision. Defined.

Definition can_read (a : FileSystemAccessMode) : bool := match a with Deny => false | _ => true end.
Definition can_write (a : FileSystemAccessMode) : bool := match a with Write => true | _ => false end.

(** The derived order: a denial beats a write beats a read. *)
Definition access_rank (a : FileSystemAccessMode) : nat :=
  match a with Read => 0 | Write => 1 | Deny => 2 end.

Inductive FileSystemSpecialPath :=
| Root
| Minimal
| ProjectRoots (subpath : option str)
| Tmpdir
| SlashTmp
| UnknownPath (path : str) (subpath : option str).

#[export] Instance FileSystemSpecialPath_eq_dec : EqDecision FileSystemSpecialPath.
Proof. solve_decision. Defined.

Inductive FileSystemPath :=
| FsPath (path : PathUri)
| GlobPattern (glob : str)
| Special (value : FileSystemSpecialPath).

Inductive MissingPathBehavior := SkipMissing.

#[export] Instance MissingPathBehavior_eq_dec : EqDecision MissingPathBehavior.
Proof. solve_decision. Defined.

Record FileSystemSandboxEntry := mkFsEntry {
  entry_path : FileSystemPath;
  entry_access : FileSystemAccessMode;
  missing_path_behavior : option MissingPathBehavior;
}.

Definition new_entry (path : FileSystemPath) (access : FileSystemAccessMode) : FileSystemSandboxEntry :=
  mkFsEntry path access None.

Definition skip_missing_path (path : FileSystemPath) (access : FileSystemAccessMode) : FileSystemSandboxEntry :=
  mkFsEntry path access (Some SkipMissing).

Definition skips_missing_path (e : FileSystemSandboxEntry) : bool :=
  bool_decide (missing_path_behavior e = Some SkipMissing).

Inductive FileSystemSandboxKind := Restricted | Unrestricted | ExternalSandbox.

Record FileSystemSandboxPolicy := mkFsPolicy {
  fs_kind : FileSystemSandboxKind;
  glob_scan_max_depth : option N;
  fs_entries : list FileSystemSandboxEntry;
}.

Inductive NetworkSandboxPolicy := NetworkRestricted | NetworkEnabled.

Definition is_enabled (n : NetworkSandboxPolicy) : bool :=
  match n with NetworkEnabled => true | NetworkRestricted => false end.

Definition fs_unrestricted : FileSystemSandboxPolicy := mkFsPolicy Unrestricted None [].
Definition fs_external_sandbox : FileSystemSandboxPolicy := mkFsPolicy ExternalSandbox None [].
Definition restricted (entries : list FileSystemSandboxEntry) : FileSystemSandboxPolicy :=
  mkFsPolicy Restricted None entries.

Definition read_only : FileSystemSandboxPolicy := restricted [new_entry (Special Root) Read].

Definition with_entries (p : FileSystemSandboxPolicy) (entries : list FileSystemSandboxEntry) : FileSystemSandboxPolicy :=
  mkFsPolicy (fs_kind p) (glob_scan_max_depth p) entries.

Definition remove_skip_missing_path_entries (p : FileSystemSandboxPolicy) : FileSystemSandboxPolicy :=
  with_entries p (List.filter (fun e => negb (skips_missing_path e)) (fs_entries p)).

Definition PROTECTED_METADATA_PATH_NAMES : list str := [lit ".git"; lit ".agents"; lit ".codex"].

Definition is_protected_metadata_name (name : str) : bool :=
  existsb (str_eqb name) PROTECTED_METADATA_PATH_NAMES.

(** [has_denied_read_restrictions]: on Unix every [Deny] entry counts. *)
Definition is_deny (e : FileSystemSandboxEntry) : bool :=
  match entry_access e with Deny => true | _ => false end.

Definition has_denied_read_restrictions (p : FileSystemSandboxPolicy) : bool :=
  match fs_kind p with Restricted => existsb is_deny (fs_entries p) | _ => false end.

Definition is_root (path : FileSystemPath) : bool := match path with Special Root => true | _ => false end.

Definition has_root_access (p : FileSystemSandboxPolicy) (predicate : FileSystemAccessMode -> bool) : bool :=
  match fs_kind p with
  | Restricted => existsb (fun e => is_root (entry_path e) && predicate (entry_access e)) (fs_entries p)
  | _ => false
  end.

Record FileSystemSandboxPolicyContext := mkPolicyContext {
  ctx_cwd : PathUri;
  workspace_roots : list PathUri;
  user_home_dir : option PathUri;
  temporary_directories : option (list PathUri);
}.

Section policies.
Context {lib : UrlLib}.

(** Equality of entries, with the URIs' own equality *)
Definition fs_path_eqb (a b : FileSystemPath) : bool :=
  match a, b with
  | FsPath p, FsPath q => uri_eqb p q
  | GlobPattern p, GlobPattern q => str_eqb p q
  | Special p, Special q => bool_decide (p = q)
  | _, _ => false
  end.

Definition entry_eqb (a b : FileSystemSandboxEntry) : bool :=
  fs_path_eqb (entry_path a) (entry_path b)
  && bool_decide (entry_access a = entry_access b)
  && bool_decide (missing_path_behavior a = missing_path_behavior b).

(** ** Entries that target the same location *)

Definition special_paths_share_target (left right : FileSystemSpecialPath) : bool :=
  match left, right with
  | Root, Root | Minimal, Minimal | Tmpdir, Tmpdir | SlashTmp, SlashTmp => true
  | ProjectRoots l, ProjectRoots r => bool_decide (l = r)
  | UnknownPath l ls, UnknownPath r rs => str_eqb l r && bool_decide (ls = rs)
  | _, _ => false
  end.

Definition special_path_matches_absolute_path (value : FileSystemSpecialPath) (path : abs_path) : bool :=
  match value with
  | Root => is_nil path
  | SlashTmp => bool_decide (path = [lit "tmp"])
  | _ => false
  end.

Definition file_system_paths_share_target (left right : FileSystemPath) : bool :=
  match left, right with
  | FsPath l, FsPath r => uri_eqb l r
  | Special l, Special r => special_paths_share_target l r
  | FsPath path, Special value | Special value, FsPath path =>
      is_some_and (special_path_matches_absolute_path value) (to_abs_path path)
  | GlobPattern l, GlobPattern r => str_eqb l r
  | GlobPattern _, _ | _, GlobPattern _ => false
  end.

Definition has_same_target_write_override (p : FileSystemSandboxPolicy) (e : FileSystemSandboxEntry) : bool :=
  existsb (fun candidate =>
      can_write (entry_access candidate)
      && (access_rank (entry_access e) <? access_rank (entry_access candidate))
      && file_system_paths_share_target (entry_path candidate) (entry_path e)) (fs_entries p).

Definition narrows_write (p : FileSystemSandboxPolicy) (e : FileSystemSandboxEntry) : bool :=
  if can_write (entry_access e) then false
  else match entry_path e with
       | FsPath _ => negb (has_same_target_write_override p e)
       | GlobPattern _ => true
       | Special Root => is_deny e
       | Special (Minimal | UnknownPath _ _) => false
       | Special _ => negb (has_same_target_write_override p e)
       end.

Definition has_write_narrowing_entries (p : FileSystemSandboxPolicy) : bool :=
  match fs_kind p with Restricted => existsb (narrows_write p) (fs_entries p) | _ => false end.

Definition has_full_disk_read_access (p : FileSystemSandboxPolicy) : bool :=
  match fs_kind p with
  | Unrestricted | ExternalSandbox => true
  | Restricted => has_root_access p can_read && negb (has_denied_read_restrictions p)
  end.

Definition has_full_disk_write_access (p : FileSystemSandboxPolicy) : bool :=
  match fs_kind p with
  | Unrestricted | ExternalSandbox => true
  | Restricted => has_root_access p can_write && negb (has_write_narrowing_entries p)
  end.

Definition include_platform_defaults (p : FileSystemSandboxPolicy) : bool :=
  negb (has_full_disk_read_access p)
  && match fs_kind p with
     | Restricted => existsb (fun e => match entry_path e with
                                       | Special Minimal => can_read (entry_access e)
                                       | _ => false
                                       end) (fs_entries p)
     | _ => false
     end.

(** ** Resolution of entries *)

Definition file_system_root (context : FileSystemSandboxPolicyContext) : option PathUri :=
  _ ← lexical_depth (ctx_cwd context);
  last (ancestors (ctx_cwd context)).

Definition ok_list {A E} (r : result A E) : list A := match r with Ok a => [a] | Err _ => [] end.

Definition entry_paths (context : FileSystemSandboxPolicyContext) (path : FileSystemPath) : list PathUri :=
  match path with
  | FsPath path => [path]
  | GlobPattern _ => []
  | Special value =>
      match value with
      | Root => option_list (file_system_root context)
      | ProjectRoots (Some subpath) =>
          flat_map (fun root => ok_list (uri_join root subpath)) (workspace_roots context)
      | ProjectRoots None => workspace_roots context
      | Tmpdir => default [] (temporary_directories context)
      | SlashTmp =>
          if bool_decide (infer_path_convention (ctx_cwd context) = Some Posix)
          then ok_list (uri_join (ctx_cwd context) (lit "/tmp")) else []
      | Minimal | UnknownPath _ _ => []
      end
  end.

Definition resolved_entries (p : FileSystemSandboxPolicy) (context : FileSystemSandboxPolicyContext)
    : list (PathUri * FileSystemAccessMode) :=
  flat_map (fun e =>
      map (fun path => (path, entry_access e))
        (List.filter (fun path => bool_decide (infer_path_convention path = infer_path_convention (ctx_cwd context)))
           (entry_paths context (entry_path e))))
    (fs_entries p).

(** ** Access *)

(** The [try_fold]: opaque roots are skipped, an ambiguous one denies all. *)
Fixpoint with_depths (entries : list (PathUri * FileSystemAccessMode))
    : option (list (PathUri * FileSystemAccessMode * nat)) :=
  match entries with
  | [] => Some []
  | (root, access) :: rest =>
      match lexical_depth root with
      | Some depth => option_map (cons (root, access, depth)) (with_depths rest)
      | None => if is_opaque root then with_depths rest else None
      end
  end.

(** [max_by_key] of the depth and the access *)
Definition access_key_le (a b : nat * FileSystemAccessMode) : bool :=
  (a.1 <? b.1) || ((a.1 =? b.1) && (access_rank a.2 <=? access_rank b.2)).

Definition max_by_key (l : list (nat * FileSystemAccessMode)) : option (nat * FileSystemAccessMode) :=
  fold_left (fun best k => match best with
                           | None => Some k
                           | Some b => if access_key_le b k then Some k else Some b
                           end) l None.

Definition resolve_access (p : FileSystemSandboxPolicy) (path : PathUri) (context : FileSystemSandboxPolicyContext)
    : FileSystemAccessMode :=
  match fs_kind p with
  | Unrestricted | ExternalSandbox => Write
  | Restricted =>
      match infer_path_convention (ctx_cwd context) with
      | None => Deny
      | Some convention =>
          if negb (bool_decide (infer_path_convention path = Some convention))
             || bool_decide (lexical_depth path = None) || bool_decide (lexical_depth (ctx_cwd context) = None)
          then Deny
          else match with_depths (resolved_entries p context) with
               | None => Deny
               | Some entries =>
                   default Deny (option_map snd (max_by_key
                     (map (fun '(_, access, depth) => (depth, access))
                        (List.filter (fun '(root, _, _) => uri_starts_with path root) entries))))
               end
      end
  end.

(** ** Workspace metadata *)

Definition protected_match (path root : PathUri) : option (PathUri * str) :=
  find_map (fun metadata_name =>
      match join_descendant root metadata_name with
      | Ok protected => if uri_starts_with path protected then Some (protected, metadata_name) else None
      | Err _ => None
      end) PROTECTED_METADATA_PATH_NAMES.

Definition metadata_write_denial (p : FileSystemSandboxPolicy) (path : PathUri)
    (context : FileSystemSandboxPolicyContext) : option str :=
  match fs_kind p with
  | Restricted =>
      let entries := resolved_entries p context in
      '(protected, metadata_name) ←
        find_map (fun '(root, _) => protected_match path root)
          (List.filter (fun '(_, access) => can_write access) entries);
      if existsb (fun '(root, access) =>
             can_write access && uri_starts_with path root && uri_starts_with root protected) entries
      then None else Some metadata_name
  | _ => None
  end.

Definition can_write_path (p : FileSystemSandboxPolicy) (path : PathUri)
    (context : FileSystemSandboxPolicyContext) : bool :=
  if negb (can_write (resolve_access p path context)) then false
  else has_full_disk_write_access p || bool_decide (metadata_write_denial p path context = None).

(** ** Edits *)

(** Pushing the denials of another policy that are not there yet *)
Definition push_missing (entries : list FileSystemSandboxEntry) (e : FileSystemSandboxEntry)
    : list FileSystemSandboxEntry :=
  if existsb (fun entry => entry_eqb entry e) entries then entries else entries ++ [e].

Definition preserve_deny_read_restrictions_from (p existing : FileSystemSandboxPolicy) : FileSystemSandboxPolicy :=
  let denials := List.filter is_deny (fs_entries existing) in
  let p := match fs_kind p with
           | Unrestricted =>
               if existsb is_deny (fs_entries existing) then restricted [new_entry (Special Root) Write] else p
           | _ => p
           end in
  match fs_kind p with
  | Restricted =>
      mkFsPolicy Restricted
        (match glob_scan_max_depth p with Some d => Some d | None => glob_scan_max_depth existing end)
        (fold_left push_missing denials (fs_entries p))
  | _ => p
  end.

End policies.

(** ** Rules on paths

    A resolved policy is a list of rules on paths; the deepest rule at or above a
    path decides, and of the rules at the same path the strongest. *)

Section AccessRules.
Context {A : Type} `{EqDecision A}.
Implicit Types (rules : list (list A * FileSystemAccessMode)) (x y z : list A) (a b : FileSystemAccessMode).

Definition strongest (l : list FileSystemAccessMode) : option FileSystemAccessMode :=
  fold_right (fun a o => Some match o with
                              | Some b => if access_rank a <=? access_rank b then b else a
                              | None => a
                              end) None l.

Definition rules_at rules y : list FileSystemAccessMode :=
  map snd (List.filter (fun r => bool_decide (r.1 = y)) rules).

(** Walk from the path to the root; the first path with rules decides. *)
Fixpoint nearest rules x (n : nat) : FileSystemAccessMode :=
  match strongest (rules_at rules (take n x)) with
  | Some a => a
  | None => match n with 0 => Deny | S n' => nearest rules x n' end
  end.

Definition nearest_access rules x : FileSystemAccessMode := nearest rules x (length x).

(** The same as a relation *)
Definition rule_decides rules x y a : Prop :=
  (y, a) ∈ rules /\ y `prefix_of` x
  /\ forall z b, (z, b) ∈ rules -> z `prefix_of` x ->
       length z < length y \/ (z = y /\ access_rank b <= access_rank a).

Definition access_of rules x a : Prop :=
  (exists y, rule_decides rules x y a) \/ (a = Deny /\ forall z b, (z, b) ∈ rules -> ~ z `prefix_of` x).

Lemma access_rank_inj a b : access_rank a = access_rank b -> a = b.
Proof. by destruct a, b. Qed.

Lemma prefix_same_length x y z : y `prefix_of` x -> z `prefix_of` x -> length y = length z -> y = z.
Proof.
  intros [k1 H1] [k2 H2] Hl. rewrite H1 in H2. apply app_inj_1 in H2 as [? _]; done.
Qed.

Lemma access_of_unique rules x a b : access_of rules x a -> access_of rules x b -> a = b.
Proof.
  intros [(y & Hy & Hp & Hm)|[-> Hn]] [(y' & Hy' & Hp' & Hm')|[-> Hn']]; [|by destruct (Hn' y a)|by destruct (Hn y' b)|done].
  apply access_rank_inj. destruct (Hm _ _ Hy' Hp') as [?|[? ?]], (Hm' _ _ Hy Hp) as [?|[? ?]]; subst; lia.
Qed.

Lemma strongest_spec l : match strongest l with
                         | Some a => a ∈ l /\ forall b, b ∈ l -> access_rank b <= access_rank a
                         | None => l = []
                         end.
Proof.
  induction l as [|c l IH]; [done|]. simpl. destruct (strongest l) as [d|].
  - destruct IH as [Hd Hm]. destruct (Nat.leb_spec (access_rank c) (access_rank d)).
    + split; [by right|]. intros b [->|Hb]%elem_of_cons; auto.
    + split; [by left|]. intros b [->|Hb]%elem_of_cons; [done|]. apply Hm in Hb. lia.
  - subst. split; [by left|]. intros b [->|Hb]%elem_of_cons; [done|by apply elem_of_nil in Hb].
Qed.

Lemma elem_of_rules_at rules y a : a ∈ rules_at rules y <-> (y, a) ∈ rules.
Proof.
  unfold rules_at. rewrite list_elem_of_In, in_map_iff. split.
  - intros ([z b] & <- & Hin). apply filter_In in Hin as [Hin E]. apply bool_decide_eq_true in E. simpl in *. subst.
    by apply list_elem_of_In.
  - intros Hin. exists (y, a). split; [done|]. apply filter_In. split; [by apply list_elem_of_In|].
    by apply bool_decide_eq_true.
Qed.

Lemma nearest_access_of_le rules x n : n <= length x ->
  (forall z b, (z, b) ∈ rules -> z `prefix_of` x -> length z <= n) -> access_of rules x (nearest rules x n).
Proof.
  induction n as [|n IH]; intros Hn Hb; cbn [nearest]; pose proof (strongest_spec (rules_at rules (take 0 x)));
    [|pose proof (strongest_spec (rules_at rules (take (S n) x)))].
  - destruct (strongest _) as [a|].
    + destruct H as [Hin Hm]. left. exists (take 0 x). split; [by apply elem_of_rules_at|]. split; [apply prefix_nil|].
      intros z b Hz Hp. specialize (Hb z b Hz Hp). destruct z; [|simpl in *; lia]. right. split; [done|].
      by apply Hm, elem_of_rules_at.
    + right. split; [done|]. intros z b Hz Hp. specialize (Hb z b Hz Hp). destruct z; [|simpl in *; lia].
      apply elem_of_rules_at in Hz. change (take 0 x) with (@nil A) in H. rewrite H in Hz. by apply elem_of_nil in Hz.
  - assert (Hl : length (take (S n) x) = S n) by (rewrite length_take; lia).
    destruct (strongest (rules_at rules (take (S n) x))) as [a|].
    + destruct H0 as [Hin Hm]. left. exists (take (S n) x). split; [by apply elem_of_rules_at|]. split; [apply prefix_take|].
      intros z b Hz Hp. specialize (Hb z b Hz Hp). destruct (decide (length z = S n)); [|left; lia].
      right. assert (z = take (S n) x) as -> by (apply (prefix_same_length x); [done|apply prefix_take|lia]).
      split; [done|]. by apply Hm, elem_of_rules_at.
    + apply IH; [lia|]. intros z b Hz Hp. pose proof (Hb z b Hz Hp). destruct (decide (length z = S n)); [|lia].
      assert (z = take (S n) x) as -> by (apply (prefix_same_length x); [done|apply prefix_take|lia]).
      apply elem_of_rules_at in Hz. rewrite H0 in Hz. by apply elem_of_nil in Hz.
Qed.

Lemma nearest_access_of rules x : access_of rules x (nearest_access rules x).
Proof. apply nearest_access_of_le; [done|]. intros z b _ Hp. by apply prefix_length. Qed.

Lemma access_of_nearest rules x a : access_of rules x a -> nearest_access rules x = a.
Proof. intros Ha. apply (access_of_unique rules x); [apply nearest_access_of|done]. Qed.

Lemma rule_decides_access rules x y a : rule_decides rules x y a -> nearest_access rules x = a.
Proof. intros Hd. apply access_of_nearest. left. eauto. Qed.

(** A rule decides for its own path and for everything below it down to the next rule. *)
Lemma rule_decides_above rules x x' y a : rule_decides rules x y a -> y `prefix_of` x' -> x' `prefix_of` x ->
  rule_decides rules x' y a.
Proof.
  intros (Hy & Hp & Hm) Hy' Hx. split; [done|]. split; [done|]. intros z b Hz Hzp. apply Hm; [done|]. by etrans.
Qed.

(** Adding denials only narrows. *)
Lemma nearest_deny_narrows rules more x : Forall (fun r => r.2 = Deny) more ->
  nearest_access (rules ++ more) x = Deny \/ nearest_access (rules ++ more) x = nearest_access rules x.
Proof.
  intros Hd. rewrite Forall_forall in Hd.
  destruct (nearest_access_of (rules ++ more) x) as [(y & Hy & Hp & Hm)|[E _]]; [|by left].
  apply elem_of_app in Hy as [Hy|Hy]; [right|left; by apply Hd in Hy].
  symmetry. apply (rule_decides_access _ _ y). split; [done|]. split; [done|].
  intros z b Hz. apply Hm. apply elem_of_app. by left.
Qed.

(** A denial decides unless another rule below it does. *)
Lemma nearest_denied rules more x y : (y, Deny) ∈ rules ++ more -> y `prefix_of` x ->
  Forall (fun r => r.2 = Deny) more ->
  (forall z b, (z, b) ∈ rules -> z `prefix_of` x -> length z <= length y) -> nearest_access (rules ++ more) x = Deny.
Proof.
  intros Hy Hp Hd Hm. rewrite Forall_forall in Hd.
  destruct (nearest_access_of (rules ++ more) x) as [(z & Hz & Hzp & Hzm)|[E _]]; [|done].
  apply elem_of_app in Hz as [Hz|Hz]; [|by apply Hd in Hz].
  specialize (Hm z _ Hz Hzp). destruct (Hzm y Deny Hy Hp) as [?|[_ Hr]]; [lia|].
  destruct (nearest_access (rules ++ more) x); simpl in Hr; try lia. done.
Qed.

End AccessRules.

(** ** Policies as rules *)

Section access.
Context {lib : UrlLib}.

(** The rules of a policy on Posix paths *)
Definition rules_of (p : FileSystemSandboxPolicy) (context : FileSystemSandboxPolicyContext)
    : list (list (list N) * FileSystemAccessMode) :=
  omap (fun '(uri, access) => option_map (fun v => (v, access)) (posix_view uri)) (resolved_entries p context).

(** No root whose segments are ambiguous *)
Definition unambiguous (p : FileSystemSandboxPolicy) (context : FileSystemSandboxPolicyContext) : bool :=
  forallb (fun '(uri, _) => bool_decide (lexical_depth uri <> None) || is_opaque uri) (resolved_entries p context).

Lemma max_by_key_from l best : exists k,
  fold_left (fun best k => match best with None => Some k | Some b => if access_key_le b k then Some k else Some b end)
    l (Some best) = Some k /\ (k = best \/ k ∈ l) /\ access_key_le best k = true
  /\ forall k', k' ∈ l -> access_key_le k' k = true.
Proof.
  assert (Hr : forall k, access_key_le k k = true).
  { intros k. unfold access_key_le. rewrite Nat.eqb_refl, Nat.leb_refl. by rewrite orb_true_r. }
  assert (Ht : forall a b c, access_key_le a b = true -> access_key_le b c = true -> access_key_le a c = true).
  { intros a b c. unfold access_key_le.
    rewrite !orb_true_iff, !andb_true_iff, !Nat.ltb_lt, !Nat.eqb_eq, !Nat.leb_le. lia. }
  assert (Hto : forall a b, access_key_le a b = false -> access_key_le b a = true).
  { intros a b. unfold access_key_le.
    rewrite <- not_true_iff_false, !orb_true_iff, !andb_true_iff, !Nat.ltb_lt, !Nat.eqb_eq, !Nat.leb_le. lia. }
  revert best. induction l as [|c l IH]; intros best; cbn [fold_left].
  { exists best. split; [done|]. split; [by left|]. split; [done|]. intros k' Hk. by apply elem_of_nil in Hk. }
  destruct (access_key_le best c) eqn:E.
  - destruct (IH c) as (k & Hk & Hin & Hle & Hall). exists k. split; [done|].
    split; [right; destruct Hin as [->|]; [by left|by right]|]. split; [by eapply Ht|].
    intros k' [->|Hk']%elem_of_cons; auto.
  - destruct (IH best) as (k & Hk & Hin & Hle & Hall). exists k. split; [done|].
    split; [destruct Hin; [by left|by do 2 right]|]. split; [done|].
    intros k' [->|Hk']%elem_of_cons; [by eapply Ht; [apply Hto|]|auto].
Qed.

Lemma max_by_key_spec l : match max_by_key l with
                          | Some k => k ∈ l /\ forall k', k' ∈ l -> access_key_le k' k = true
                          | None => l = []
                          end.
Proof.
  unfold max_by_key. destruct l as [|c l]; [done|]. cbn [fold_left].
  destruct (max_by_key_from l c) as (k & -> & Hin & Hle & Hall). split.
  - destruct Hin as [->|]; [by left|by right].
  - intros k' [->|Hk']%elem_of_cons; auto.
Qed.

Lemma with_depths_spec entries :
  forallb (fun '(uri, _) => bool_decide (lexical_depth uri <> None) || is_opaque uri) entries = true ->
  exists l, with_depths entries = Some l
    /\ forall root access depth, (root, access, depth) ∈ l <-> (root, access) ∈ entries /\ lexical_depth root = Some depth.
Proof.
  induction entries as [|[root access] entries IH]; cbn [forallb with_depths].
  { exists []. split; [done|]. intros r a d. rewrite !elem_of_nil. tauto. }
  rewrite andb_true_iff, orb_true_iff, bool_decide_eq_true. intros [Hr (l & El & Hl)%IH].
  destruct (lexical_depth root) as [depth|] eqn:Ed.
  - rewrite El. eexists. split; [done|]. intros r a d. rewrite !elem_of_cons, Hl. naive_solver.
  - destruct Hr as [Hr|Hr]; [done|]. rewrite Hr. exists l. split; [done|].
    intros r a d. rewrite elem_of_cons, Hl. naive_solver.
Qed.

Lemma elem_of_rules p context v a : (v, a) ∈ rules_of p context <->
  exists uri, (uri, a) ∈ resolved_entries p context /\ posix_view uri = Some v.
Proof.
  unfold rules_of. rewrite list_elem_of_omap. split.
  - intros ([uri b] & Hin & E). destruct (posix_view uri) eqn:Ev; [|done]. injection E as -> ->. eauto.
  - intros (uri & Hin & Hv). exists (uri, a). by rewrite Hv.
Qed.

Lemma resolved_convention p context uri a : (uri, a) ∈ resolved_entries p context ->
  infer_path_convention uri = infer_path_convention (ctx_cwd context).
Proof.
  unfold resolved_entries. rewrite list_elem_of_In, in_flat_map. intros (e & _ & Hin).
  apply in_map_iff in Hin as (u & E & Hf). apply filter_In in Hf as [_ Hf]. apply bool_decide_eq_true in Hf. congruence.
Qed.

(** The access of a lexical Posix path under a restricted policy *)
Lemma resolve_access_rules p path context x w : fs_kind p = Restricted ->
  posix_view path = Some x -> posix_view (ctx_cwd context) = Some w -> unambiguous p context = true ->
  access_of (rules_of p context) x (resolve_access p path context).
Proof.
  intros Hk Hx Hw Hu. unfold resolve_access. rewrite Hk, (posix_view_convention _ _ Hw).
  rewrite (bool_decide_true (infer_path_convention path = Some Posix)) by (exact (posix_view_convention _ _ Hx)).
  rewrite (posix_view_depth _ _ Hx), (posix_view_depth _ _ Hw). cbn [negb orb bool_decide].
  rewrite !bool_decide_false by done. cbn [orb].
  destruct (with_depths_spec _ Hu) as (l & -> & Hl).
  assert (Hkeys : forall d a, (d, a) ∈ map (fun '(_, access, depth) => (depth, access))
             (List.filter (fun '(root, _, _) => uri_starts_with path root) l) <->
           exists y, (y, a) ∈ rules_of p context /\ y `prefix_of` x /\ length y = d).
  { intros d a. rewrite list_elem_of_In, in_map_iff. split.
    - intros ([[root access] depth] & E & Hin). injection E as -> ->. apply filter_In in Hin as [Hin Hs].
      apply list_elem_of_In, Hl in Hin as [Hin Hd].
      destruct (lexical_posix_view root d) as [y Hy];
        [by rewrite (resolved_convention p context root a Hin), (posix_view_convention _ _ Hw)|done|].
      exists y. split; [apply elem_of_rules; eauto|]. split; [by apply (starts_with_view path root)|].
      rewrite (posix_view_depth _ _ Hy) in Hd. by injection Hd.
    - intros (y & (root & Hin & Hy)%elem_of_rules & Hp & <-). exists (root, a, length y). split; [done|].
      apply filter_In. split; [|by apply (starts_with_view path root x y)].
      apply list_elem_of_In, Hl. split; [done|]. by apply posix_view_depth. }
  match goal with |- context [max_by_key ?ks] => pose proof (max_by_key_spec ks) as Hmax; destruct (max_by_key ks) as [[d a]|] eqn:Em end.
  - destruct Hmax as [Hin Hall]. apply Hkeys in Hin as (y & Hy & Hp & Hd). left. exists y. cbn [option_map default snd].
    split; [done|]. split; [done|]. intros z b Hz Hzp.
    assert (Hin' : access_key_le (length z, b) (d, a) = true) by (apply Hall, Hkeys; eauto).
    unfold access_key_le in Hin'. cbn [fst snd] in Hin'.
    rewrite orb_true_iff, andb_true_iff, Nat.ltb_lt, Nat.eqb_eq, Nat.leb_le in Hin'.
    destruct Hin' as [?|[? ?]]; [left; lia|right]. split; [|done]. apply (prefix_same_length x); [done..|lia].
  - right. split; [done|]. intros z b Hz Hzp.
    assert (Hin' : (length z, b) ∈ @nil (nat * FileSystemAccessMode)) by (rewrite <- Hmax; apply Hkeys; eauto).
    by apply elem_of_nil in Hin'.
Qed.

End access.

(** ** Full disk access *)

Section full_access.
Context {lib : UrlLib} {laws : UrlLaws}.

(** The literal paths of a policy are those of the host. *)
Definition host_paths (p : FileSystemSandboxPolicy) : Prop :=
  forall e uri, e ∈ fs_entries p -> entry_path e = FsPath uri -> exists q, represents uri q.

(** A context whose working directory is a lexical Posix URI *)
Definition posix_context (context : FileSystemSandboxPolicyContext) : Prop :=
  has_segments (ctx_cwd context) = true /\ exists w, posix_view (ctx_cwd context) = Some w.

Lemma elem_of_resolved p context uri a : (uri, a) ∈ resolved_entries p context <->
  exists e, e ∈ fs_entries p /\ entry_access e = a /\ uri ∈ entry_paths context (entry_path e)
    /\ infer_path_convention uri = infer_path_convention (ctx_cwd context).
Proof.
  unfold resolved_entries. rewrite list_elem_of_In, in_flat_map. split.
  - intros (e & He & Hin). apply in_map_iff in Hin as (u & E & Hf). injection E as -> <-.
    apply filter_In in Hf as [Hu Hc]. apply bool_decide_eq_true in Hc. exists e. rewrite !list_elem_of_In. eauto.
  - intros (e & He & <- & Hu & Hc). exists e. rewrite !list_elem_of_In in *. split; [done|].
    apply in_map_iff. exists uri. split; [done|]. apply filter_In. split; [done|]. by apply bool_decide_eq_true.
Qed.

Lemma entry_rule p context e uri v : e ∈ fs_entries p -> uri ∈ entry_paths context (entry_path e) ->
  posix_context context -> posix_view uri = Some v -> (v, entry_access e) ∈ rules_of p context.
Proof.
  intros He Hu (_ & w & Hw) Hv. apply elem_of_rules. exists uri. split; [|done]. apply elem_of_resolved. exists e.
  rewrite (posix_view_convention _ _ Hv), (posix_view_convention _ _ Hw). done.
Qed.

Lemma root_entry_path context : posix_context context ->
  exists r, entry_paths context (Special Root) = [r] /\ posix_view r = Some [].
Proof.
  intros (Hs & w & Hw). destruct (ancestors_root _ w Hw Hs) as (r & Hr & Hv). exists r. split; [|done].
  cbn. unfold file_system_root. rewrite (posix_view_depth _ _ Hw). cbn. by rewrite Hr.
Qed.

Lemma root_rule p context predicate : posix_context context -> has_root_access p predicate = true ->
  exists a, predicate a = true /\ ([], a) ∈ rules_of p context.
Proof.
  intros Hc Hr. unfold has_root_access in Hr. destruct (fs_kind p); [|done..].
  apply existsb_exists in Hr as (e & He & Hp). apply andb_true_iff in Hp as [Hroot Hp].
  exists (entry_access e). split; [done|]. destruct (root_entry_path context Hc) as (r & Er & Hv).
  apply (entry_rule p context e r); [by apply list_elem_of_In| |done|done].
  destruct (entry_path e) as [| |[]]; try done. rewrite Er. by left.
Qed.

Lemma slash_tmp_entry_path context : posix_context context ->
  exists r, entry_paths context (Special SlashTmp) = [r] /\ represents r [lit "tmp"].
Proof.
  intros (Hs & w & Hw). pose proof (posix_view_convention _ _ Hw) as Hp.
  destruct (join_slash_tmp _ Hp) as (r & Hj & Hr). exists r. split; [|done].
  cbn -[uri_join]. by rewrite Hp, Hj.
Qed.

Lemma special_share_eq l r : special_paths_share_target l r = true -> l = r.
Proof.
  destruct l, r; simpl; try done; [by rewrite bool_decide_eq_true; intros ->|].
  rewrite andb_true_iff, str_eqb_eq, bool_decide_eq_true. by intros [-> ->].
Qed.

(** A write entry that overrides another has a rule at the same place. *)
Lemma override_rule p context e uri v : posix_context context -> host_paths p ->
  e ∈ fs_entries p -> uri ∈ entry_paths context (entry_path e) -> posix_view uri = Some v ->
  has_same_target_write_override p e = true -> (v, Write) ∈ rules_of p context.
Proof.
  intros Hc Hh He Hu Hv Ho. apply existsb_exists in Ho as (c & Hcin & Ho).
  rewrite !andb_true_iff in Ho. destruct Ho as ((Hw & _) & Ho). apply list_elem_of_In in Hcin.
  assert (Ew : entry_access c = Write) by (by destruct (entry_access c)). rewrite <- Ew.
  assert (Hroot : forall q, represents uri q -> v = map encode q).
  { intros q Hq%represents_view. rewrite Hv in Hq. by injection Hq. }
  destruct (entry_path c) as [q|g|cv] eqn:Ec, (entry_path e) as [u|g'|ev] eqn:Ee; cbn in Ho; try done.
  - cbn in Hu. apply list_elem_of_singleton in Hu as ->. apply (entry_rule p context c u); [done| |done|done].
    rewrite Ec. cbn. apply list_elem_of_singleton. unfold uri_eqb in Ho.
    rewrite (posix_identity_None u) in Ho by (by eapply posix_view_convention).
    apply orb_true_iff in Ho as [Ho|Ho]; [by apply bool_decide_eq_true in Ho|].
    by destruct (windows_identity_path_bytes q).
  - destruct (Hh c q Hcin Ec) as [r Hr]. rewrite (to_abs_path_represents _ _ Hr) in Ho. cbn in Ho.
    apply (entry_rule p context c q); [done|rewrite Ec; by left|done|].
    rewrite (represents_view _ _ Hr). destruct ev; cbn in Ho; try done.
    + destruct r; [|done]. destruct (root_entry_path context Hc) as (r' & Er & Hv'). rewrite Er in Hu.
      apply list_elem_of_singleton in Hu as ->. by rewrite <- Hv, Hv'.
    + apply bool_decide_eq_true in Ho as ->. destruct (slash_tmp_entry_path context Hc) as (r' & Er & Hv').
      rewrite Er in Hu. apply list_elem_of_singleton in Hu as ->. by rewrite <- Hv, (represents_view _ _ Hv').
  - by apply elem_of_nil in Hu.
  - cbn in Hu. apply list_elem_of_singleton in Hu as ->. destruct (Hh e u He Ee) as [r Hr].
    rewrite (to_abs_path_represents _ _ Hr) in Ho. cbn in Ho. rewrite (Hroot r Hr). destruct cv; cbn in Ho; try done.
    + destruct r; [|done]. destruct (root_entry_path context Hc) as (r' & Er & Hv').
      apply (entry_rule p context c r'); [done|rewrite Ec, Er; by left|done|done].
    + apply bool_decide_eq_true in Ho as ->. destruct (slash_tmp_entry_path context Hc) as (r' & Er & Hv').
      apply (entry_rule p context c r'); [done|rewrite Ec, Er; by left|done|by apply represents_view].
  - apply special_share_eq in Ho as ->. apply (entry_rule p context c uri); [done|by rewrite Ec|done|done].
Qed.

Lemma full_write_rules p context x : posix_context context -> host_paths p -> fs_kind p = Restricted ->
  has_full_disk_write_access p = true -> nearest_access (rules_of p context) x = Write.
Proof.
  intros Hc Hh Hk Hf. unfold has_full_disk_write_access in Hf. rewrite Hk in Hf.
  apply andb_true_iff in Hf as [Hr Hn]. destruct (root_rule p context can_write Hc Hr) as (w & Hw & Hroot).
  destruct w; try done. unfold has_write_narrowing_entries in Hn. rewrite Hk in Hn. apply negb_true_iff in Hn.
  destruct (nearest_access_of (rules_of p context) x) as [(y & Hy & Hp & Hm)|[_ Hno]];
    [|by destruct (Hno [] Write Hroot); apply prefix_nil].
  set (a := nearest_access (rules_of p context) x) in *.
  destruct (decide (a = Write)) as [|Ha]; [done|exfalso].
  assert (Hnw : (y, Write) ∈ rules_of p context -> a <> Deny -> False).
  { intros Hyw Hd. destruct (Hm y Write Hyw Hp) as [?|[_ Hle]]; [lia|]. destruct a; try done; simpl in Hle; lia. }
  apply elem_of_rules in Hy as (uri & Hin & Hv). apply elem_of_resolved in Hin as (e & He & Ea & Hu & _).
  assert (Hne : narrows_write p e = false).
  { apply not_true_iff_false. intros Ht. apply not_true_iff_false in Hn. apply Hn, existsb_exists. exists e. split; [|done].
    by apply list_elem_of_In. }
  unfold narrows_write in Hne. rewrite Ea in Hne.
  assert (Hcw : can_write a = false) by (by destruct a). rewrite Hcw in Hne.
  assert (Hover : has_same_target_write_override p e = true -> False).
  { intros Ho. apply Hnw; [by eapply override_rule|]. intros Ed.
    apply existsb_exists in Ho as (c & _ & Ho). rewrite !andb_true_iff, Ea, Ed in Ho.
    destruct Ho as ((Hcw' & Hrank) & _). by destruct (entry_access c). }
  destruct (entry_path e) as [u|g|[]] eqn:Ep; try (apply negb_false_iff in Hne; by apply Hover);
    try (by apply elem_of_nil in Hu); try done.
  apply Hnw.
  - destruct (root_entry_path context Hc) as (r & Er & Hv'). rewrite Er in Hu. apply list_elem_of_singleton in Hu as ->.
    rewrite Hv in Hv'. by injection Hv' as ->.
  - intros Ed. unfold is_deny in Hne. by rewrite Ea, Ed in Hne.
Qed.

Lemma full_read_rules p context x : posix_context context -> fs_kind p = Restricted ->
  has_full_disk_read_access p = true -> can_read (nearest_access (rules_of p context) x) = true.
Proof.
  intros Hc Hk Hf. unfold has_full_disk_read_access in Hf. rewrite Hk in Hf.
  apply andb_true_iff in Hf as [Hr Hn]. destruct (root_rule p context can_read Hc Hr) as (w & Hw & Hroot).
  destruct (nearest_access_of (rules_of p context) x) as [(y & Hy & Hp & Hm)|[_ Hno]];
    [|by destruct (Hno [] w Hroot); apply prefix_nil].
  set (a := nearest_access (rules_of p context) x) in *. destruct (decide (a = Deny)) as [Ed|]; [exfalso|by destruct a].
  apply elem_of_rules in Hy as (uri & Hin & _). apply elem_of_resolved in Hin as (e & He & Ea & _).
  unfold has_denied_read_restrictions in Hn. rewrite Hk in Hn. apply negb_true_iff, not_true_iff_false in Hn.
  apply Hn, existsb_exists. exists e. split; [by apply list_elem_of_In|]. unfold is_deny. by rewrite Ea, Ed.
Qed.

End full_access.

(** ** Preserved denials *)

Section denials.
Context {lib : UrlLib} {laws : UrlLaws}.

Lemma push_missing_all entries denials : exists more,
  fold_left push_missing denials entries = entries ++ more
  /\ (forall d, d ∈ more -> d ∈ denials)
  /\ forall d, d ∈ denials -> exists e, e ∈ entries ++ more /\ entry_eqb e d = true.
Proof.
  revert entries. induction denials as [|d ds IH]; intros entries; cbn [fold_left].
  { exists []. rewrite app_nil_r. split; [done|]. split; intros d Hd; by apply elem_of_nil in Hd. }
  unfold push_missing at 2. destruct (existsb (fun entry => entry_eqb entry d) entries) eqn:E.
  - destruct (IH entries) as (more & -> & Hin & Hall). exists more. split; [done|].
    split; [intros d' Hd'; right; auto|]. intros d' [->|Hd']%elem_of_cons; [|auto].
    apply existsb_exists in E as (e & He & Ee). exists e. split; [|done]. apply elem_of_app. left. by apply list_elem_of_In.
  - destruct (IH (entries ++ [d])) as (more & -> & Hin & Hall). exists (d :: more). rewrite <- app_assoc. split; [done|].
    split; [intros d' [->|Hd']%elem_of_cons; [by left|right; auto]|]. intros d' [->|Hd']%elem_of_cons.
    + exists d. split; [apply elem_of_app; right; by left|]. unfold entry_eqb. rewrite !bool_decide_true by done.
      destruct (entry_path d) as [u|g|v]; cbn; rewrite ?uri_eqb_refl, ?bool_decide_true; try done.
      by rewrite (proj2 (str_eqb_eq g g)).
    + destruct (Hall d' Hd') as (e & He & Ee). exists e. split; [|done]. by rewrite <- app_assoc in He.
Qed.

Lemma rules_of_app k d entries more context :
  rules_of (mkFsPolicy k d (entries ++ more)) context
  = rules_of (mkFsPolicy k d entries) context ++ rules_of (mkFsPolicy k d more) context.
Proof. unfold rules_of, resolved_entries. cbn [fs_entries]. by rewrite flat_map_app, omap_app. Qed.

(** Rules depend on the entries alone. *)
Lemma rules_of_entries p q context : fs_entries p = fs_entries q -> rules_of p context = rules_of q context.
Proof. intros E. unfold rules_of, resolved_entries. by rewrite E. Qed.

(** Equal entries have the same Posix rules. *)
Lemma entry_eqb_rule p q context e d v : entry_eqb e d = true -> e ∈ fs_entries p ->
  fs_entries q = [d] -> (v, entry_access d) ∈ rules_of q context -> (v, entry_access d) ∈ rules_of p context.
Proof.
  intros Ee He Eq (uri & Hin & Hv)%elem_of_rules. apply elem_of_rules. exists uri. split; [|done].
  apply elem_of_resolved in Hin as (d' & Hd & _ & Hu & Hc). rewrite Eq in Hd. apply list_elem_of_singleton in Hd as ->.
  apply elem_of_resolved. exists e. unfold entry_eqb in Ee. rewrite !andb_true_iff, !bool_decide_eq_true in Ee.
  destruct Ee as ((Ep & Ea) & _). split; [done|]. split; [done|]. split; [|done].
  destruct (entry_path e) as [p1|g1|v1], (entry_path d) as [p2|g2|v2]; cbn in Ep; try done.
  - cbn in Hu. apply list_elem_of_singleton in Hu as ->. cbn. apply list_elem_of_singleton.
    unfold uri_eqb in Ep. rewrite (posix_identity_None p2) in Ep by (by eapply posix_view_convention).
    apply orb_true_iff in Ep as [Ep|Ep]; [by apply bool_decide_eq_true in Ep|]. by destruct (windows_identity_path_bytes p1).
  - apply bool_decide_eq_true in Ep as ->. done.
Qed.

Lemma rules_deny entries k d context : Forall (fun e => is_deny e = true) entries ->
  Forall (fun r => r.2 = Deny) (rules_of (mkFsPolicy k d entries) context).
Proof.
  intros Hd. apply Forall_forall. intros [v a] (uri & Hin & _)%elem_of_rules.
  apply elem_of_resolved in Hin as (e & He & <- & _). rewrite Forall_forall in Hd. apply Hd in He. cbn.
  unfold is_deny in He. by destruct (entry_access e).
Qed.

(** The entries of a policy to which the denials of another were added *)
Lemma preserve_entries p existing : fs_kind p = Restricted ->
  exists more d, preserve_deny_read_restrictions_from p existing = mkFsPolicy Restricted d (fs_entries p ++ more)
    /\ Forall (fun e => is_deny e = true) more
    /\ forall e, e ∈ fs_entries existing -> is_deny e = true ->
         exists e', e' ∈ fs_entries p ++ more /\ entry_eqb e' e = true.
Proof.
  intros Hk. unfold preserve_deny_read_restrictions_from. rewrite Hk.
  destruct (push_missing_all (fs_entries p) (List.filter is_deny (fs_entries existing))) as (more & Em & Hin & Hall).
  exists more. eexists. rewrite Hk, Em. split; [done|]. split.
  - apply Forall_forall. intros e He%Hin. apply list_elem_of_In, filter_In in He. apply He.
  - intros e He Hd. apply Hall, list_elem_of_In, filter_In. split; [by apply list_elem_of_In|done].
Qed.

Lemma preserved_rule p existing context y : fs_kind p = Restricted -> (y, Deny) ∈ rules_of existing context ->
  (y, Deny) ∈ rules_of (preserve_deny_read_restrictions_from p existing) context.
Proof.
  intros Hk Hy. destruct (preserve_entries p existing Hk) as (more & d & Eq & _ & Hall). rewrite Eq.
  pose proof Hy as (uri & Hin & Hv)%elem_of_rules. apply elem_of_resolved in Hin as (e & He & Ea & Hu & Hc).
  destruct (Hall e He) as (e' & He' & Ee); [unfold is_deny; by rewrite Ea|]. rewrite <- Ea.
  apply (entry_eqb_rule (mkFsPolicy Restricted d (fs_entries p ++ more)) (mkFsPolicy Restricted None [e])
           context e' e y Ee He' eq_refl).
  apply elem_of_rules. exists uri. split; [|done]. apply elem_of_resolved. exists e. split; [by left|]. done.
Qed.

Lemma preserved_denied p existing context x y : fs_kind p = Restricted -> (y, Deny) ∈ rules_of existing context ->
  y `prefix_of` x -> (forall z a, (z, a) ∈ rules_of p context -> z `prefix_of` x -> length z <= length y) ->
  nearest_access (rules_of (preserve_deny_read_restrictions_from p existing) context) x = Deny.
Proof.
  intros Hk Hy Hp Hz. pose proof (preserved_rule p existing context y Hk Hy) as Hq.
  destruct (preserve_entries p existing Hk) as (more & d & Eq & Hd & _). rewrite Eq in *. rewrite rules_of_app in *.
  rewrite (rules_of_entries (mkFsPolicy Restricted d (fs_entries p)) p) in * by done.
  apply (nearest_denied _ _ x y); [done|done|by apply rules_deny|done].
Qed.

Lemma preserve_narrows p existing context x : fs_kind p = Restricted ->
  nearest_access (rules_of (preserve_deny_read_restrictions_from p existing) context) x = Deny
  \/ nearest_access (rules_of (preserve_deny_read_restrictions_from p existing) context) x
     = nearest_access (rules_of p context) x.
Proof.
  intros Hk. destruct (preserve_entries p existing Hk) as (more & d & -> & Hd & _). rewrite rules_of_app.
  rewrite (rules_of_entries (mkFsPolicy Restricted d (fs_entries p)) p) by done.
  by apply nearest_deny_narrows, rules_deny.
Qed.

(** An unrestricted policy becomes a restricted one that writes everywhere. *)
Lemma preserve_unrestricted p existing : fs_kind p = Unrestricted -> existsb is_deny (fs_entries existing) = true ->
  preserve_deny_read_restrictions_from p existing
  = preserve_deny_read_restrictions_from (restricted [new_entry (Special Root) Write]) existing.
Proof. intros Hk Hd. unfold preserve_deny_read_restrictions_from. by rewrite Hk, Hd. Qed.

Lemma root_write_rules d context x : posix_context context ->
  nearest_access (rules_of (mkFsPolicy Restricted d [new_entry (Special Root) Write]) context) x = Write.
Proof. intros Hc. apply full_write_rules; try done. intros e uri [->|He]%elem_of_cons; [done|by apply elem_of_nil in He]. Qed.

End denials.

(** ** Theorems *)

Section theorems.
Context {lib : UrlLib} {laws : UrlLaws}.

Lemma with_depths_ambiguous entries :
  forallb (fun '(uri, _) => bool_decide (lexical_depth uri <> None) || is_opaque uri) entries = false ->
  with_depths entries = None.
Proof.
  induction entries as [|[root access] entries IH]; cbn [forallb with_depths]; [done|].
  destruct (lexical_depth root) as [d|] eqn:Ed.
  - rewrite bool_decide_true by done. cbn. intros ->%IH. done.
  - rewrite bool_decide_false by (intros Hx; by apply Hx). cbn. destruct (is_opaque root); [apply IH|done].
Qed.

Lemma resolve_access_eq p path context x w :
  fs_kind p = Restricted -> posix_view path = Some x -> posix_view (ctx_cwd context) = Some w ->
  resolve_access p path context
  = if unambiguous p context then nearest_access (rules_of p context) x else Deny.
Proof.
  intros Hk Hx Hw. destruct (unambiguous p context) eqn:Hu.
  - symmetry. apply access_of_nearest. by eapply resolve_access_rules.
  - unfold resolve_access. rewrite Hk. destruct (infer_path_convention (ctx_cwd context)); [|done].
    destruct (_ || _); [done|]. by rewrite (with_depths_ambiguous _ Hu).
Qed.

(** C30: the access of a path is that of its nearest ancestor with rules: walking from the path
    to the root, the first path some entry resolves to decides, by the strongest of
    its entries (a denial over a write over a read), and a path without such an
    ancestor is denied.  When some root has ambiguous segments everything is
    denied. *)
Theorem resolve_access_nearest (p : FileSystemSandboxPolicy) (path : PathUri)
    (context : FileSystemSandboxPolicyContext) (x w : list (list N)) :
  fs_kind p = Restricted -> posix_view path = Some x -> posix_view (ctx_cwd context) = Some w ->
  resolve_access p path context
  = if unambiguous p context then nearest_access (rules_of p context) x else Deny.
Proof. apply resolve_access_eq. Qed.

(** The shortcuts for full disk access agree with the access of every path: a policy
    that reports full write access lets every path be written, workspace metadata
    included, and one that reports full read access lets every path be read. *)
Theorem full_disk_access_sound (p : FileSystemSandboxPolicy) (path : PathUri)
    (context : FileSystemSandboxPolicyContext) (x : list (list N)) :
  posix_context context -> posix_view path = Some x -> host_paths p -> unambiguous p context = true ->
  (has_full_disk_write_access p = true -> can_write_path p path context = true)
  /\ (has_full_disk_read_access p = true -> can_read (resolve_access p path context) = true).
Proof.
  intros Hc Hx Hh Hu. pose proof Hc as (_ & w & Hw).
  destruct (fs_kind p) eqn:Hk.
  2,3: split; intros Hf; unfold can_write_path, resolve_access; rewrite Hk; cbn; [by rewrite Hf|done].
  split; intros Hf.
  - unfold can_write_path. rewrite (resolve_access_eq p path context x w), Hu by done.
    by rewrite full_write_rules, Hf.
  - rewrite (resolve_access_eq p path context x w), Hu by done. by apply full_read_rules.
Qed.

(** Replacing the allow side of a policy keeps its denials: with the denials of [existing]
    preserved, no path gains access over the new policy alone, and a path under a
    denied root of [existing] is denied unless the new policy has a rule for it
    below that root.  A policy without restrictions becomes a restricted one. *)
Theorem preserved_denials_narrow (p existing : FileSystemSandboxPolicy) (path : PathUri)
    (context : FileSystemSandboxPolicyContext) (x : list (list N)) :
  posix_context context -> posix_view path = Some x -> fs_kind p <> ExternalSandbox ->
  let q := preserve_deny_read_restrictions_from p existing in
  unambiguous q context = true -> unambiguous p context = true ->
  (resolve_access q path context = Deny \/ resolve_access q path context = resolve_access p path context)
  /\ (forall y, (y, Deny) ∈ rules_of existing context -> y `prefix_of` x ->
        (fs_kind p = Restricted ->
         forall z a, (z, a) ∈ rules_of p context -> z `prefix_of` x -> length z <= length y) ->
        resolve_access q path context = Deny).
Proof.
  intros Hc Hx Hne q Hq Hp. pose proof Hc as (_ & w & Hw).
  assert (Hcase : forall r, fs_kind r = Restricted -> q = preserve_deny_read_restrictions_from r existing ->
    resolve_access q path context = nearest_access (rules_of (preserve_deny_read_restrictions_from r existing) context) x).
  { intros r Hr Eq. rewrite (resolve_access_eq q path context x w), Hq; [by rewrite Eq| |done|done].
    rewrite Eq. by destruct (preserve_entries r existing Hr) as (more & d & -> & _). }
  destruct (fs_kind p) eqn:Hk; [| |done].
  - rewrite (Hcase p Hk eq_refl), (resolve_access_eq p path context x w), Hp by done. split; [by apply preserve_narrows|].
    intros y Hy Hpx Hz. apply (preserved_denied p existing context x y); [done..|by apply Hz].
  - destruct (existsb is_deny (fs_entries existing)) eqn:Ed.
    + pose proof (preserve_unrestricted p existing Hk Ed) as Eq.
      rewrite (Hcase (restricted [new_entry (Special Root) Write]) eq_refl Eq). unfold resolve_access. rewrite Hk. split.
      * destruct (preserve_narrows (restricted [new_entry (Special Root) Write]) existing context x eq_refl) as [E|E];
          [by left|right]. rewrite E. by apply root_write_rules.
      * intros y Hy Hpx _. apply (preserved_denied _ existing context x y); [done..|].
        intros z a (uri & Hin & Hv)%elem_of_rules _. apply elem_of_resolved in Hin as (e & He & _ & Hu & _).
        apply list_elem_of_singleton in He as ->. destruct (root_entry_path context Hc) as (r & Er & Hvr).
        cbn [entry_path new_entry] in Hu. rewrite Er in Hu. apply list_elem_of_singleton in Hu as ->.
        rewrite Hv in Hvr. injection Hvr as ->. simpl. lia.
    + assert (Eq : q = p).
      { unfold q, preserve_deny_read_restrictions_from. by rewrite Hk, Ed, Hk. }
      rewrite Eq. split; [by right|]. intros y (uri & Hin & _)%elem_of_rules.
      apply elem_of_resolved in Hin as (e & He & Ea & _). apply not_true_iff_false in Ed. destruct Ed.
      apply existsb_exists. exists e. split; [by apply list_elem_of_In|]. unfold is_deny. by rewrite Ea.
Qed.

End theorems.

(** ** Example policies *)

Section examples.
Local Notation lib := Percent.percent_lib.

Definition ex_w : abs_path := [lit "w"].
Definition ex_sub : abs_path := [lit "w"; lit "sub"].

Definition ex_policy (roots : list abs_path) : FileSystemSandboxPolicy :=
  restricted (new_entry (Special Root) Read :: map (fun root => new_entry (FsPath (@from_abs_path lib root)) Write) roots).

Definition ex_context : FileSystemSandboxPolicyContext := mkPolicyContext (@from_abs_path lib ex_w) [@from_abs_path lib ex_w] None (Some []).

Lemma ex_context_posix : @posix_context lib ex_context.
Proof. split; [reflexivity|]. eexists. vm_compute. reflexivity. Qed.

Lemma resolve_access_nearest_witness :
  @resolve_access lib (ex_policy [ex_w]) (@from_abs_path lib ex_sub) ex_context = Write
  /\ @resolve_access lib (ex_policy [ex_w]) (@from_abs_path lib [lit "etc"]) ex_context = Read.
Proof.
  split.
  - rewrite (@resolve_access_nearest lib (ex_policy [ex_w]) (@from_abs_path lib ex_sub) ex_context
               (map encode ex_sub) (map encode ex_w)); [vm_compute; reflexivity|reflexivity|vm_compute; reflexivity..].
  - rewrite (@resolve_access_nearest lib (ex_policy [ex_w]) (@from_abs_path lib [lit "etc"]) ex_context
               (map encode [lit "etc"]) (map encode ex_w)); [vm_compute; reflexivity|reflexivity|vm_compute; reflexivity..].
Defined.

Definition ex_full : FileSystemSandboxPolicy :=
  restricted [new_entry (Special Root) Write; new_entry (Special SlashTmp) Read; new_entry (FsPath (@from_abs_path lib [lit "tmp"])) Write].

Lemma full_disk_access_sound_witness :
  @can_write_path lib ex_full (@from_abs_path lib (ex_w ++ [lit ".git"])) ex_context = true.
Proof.
  apply (@full_disk_access_sound lib Percent.percent_laws ex_full (@from_abs_path lib (ex_w ++ [lit ".git"])) ex_context
           (map encode (ex_w ++ [lit ".git"]))).
  - exact ex_context_posix.
  - vm_compute. reflexivity.
  - intros e uri He Ep. unfold ex_full in He. cbn [fs_entries restricted] in He.
    repeat (apply elem_of_cons in He as [->|He]; [try discriminate Ep|]); [|by apply elem_of_nil in He].
    injection Ep as <-. exists [lit "tmp"]. apply (@from_abs_path_represents lib Percent.percent_laws). by repeat constructor.
  - vm_compute. reflexivity.
  - vm_compute. reflexivity.
Defined.

Lemma preserved_denials_narrow_witness :
  @resolve_access lib (@preserve_deny_read_restrictions_from lib fs_unrestricted
      (restricted [new_entry (FsPath (@from_abs_path lib ex_sub)) Deny])) (@from_abs_path lib (ex_sub ++ [lit "a"])) ex_context = Deny.
Proof.
  apply (@preserved_denials_narrow lib Percent.percent_laws fs_unrestricted
           (restricted [new_entry (FsPath (@from_abs_path lib ex_sub)) Deny]) (@from_abs_path lib (ex_sub ++ [lit "a"])) ex_context
           (map encode (ex_sub ++ [lit "a"]))) with (y := map encode ex_sub).
  - exact ex_context_posix.
  - vm_compute. reflexivity.
  - discriminate.
  - vm_compute. reflexivity.
  - reflexivity.
  - vm_compute. left.
  - exists (map encode [lit "a"]). reflexivity.
  - discriminate.
Defined.

End examples.
