(* ===== verification/WritableRoots.v ===== *)
(** * Sandbox policies on the host

    The part of protocol/src/permissions.rs that reads a policy against the host's
    working directory, and the legacy [SandboxPolicy] of protocol/src/protocol.rs:
    resolution of entries to absolute paths, the readable, unreadable and writable
    roots handed to the platform sandboxes, the default protection of [.git],
    [.agents] and [.codex], the conversion from and to legacy policies, and the
    edits that add roots or replace symbolic ones.

    The process environment (home directory, current directory, [TMPDIR]) and the
    file system queries are the class [Host]; absolute paths are those of
    AbsolutePath. *)

From S2P Require Import Prelude RustStr Utf8Stream AbsolutePath PathUri Permissions.

Class Host := {
  home_dir : option str;
  current_dir : option str;
  tmpdir_var : option str;
  (** [Path::is_dir], [is_file], [exists] and [std::fs::read_to_string] *)
  path_is_dir : abs_path -> bool;
  path_is_file : abs_path -> bool;
  path_exists : abs_path -> bool;
  read_to_string : abs_path -> option str;
  (** [symlink_metadata]: whether the path is a symbolic link, when it exists *)
  symlink_metadata : abs_path -> option bool;
  (** [canonicalize] *)
  canonicalize : abs_path -> option abs_path;
}.

(** ** Legacy policies *)

Inductive NetworkAccess := NetworkAccessRestricted | NetworkAccessEnabled.

Definition network_access_is_enabled (n : NetworkAccess) : bool :=
  match n with NetworkAccessEnabled => true | NetworkAccessRestricted => false end.

Inductive SandboxPolicy :=
| DangerFullAccess
| ReadOnly (network_access : bool)
| ExternalSandboxPolicy (network_access : NetworkAccess)
| WorkspaceWrite (writable_roots : list abs_path) (network_access : bool)
    (exclude_tmpdir_env_var exclude_slash_tmp : bool).

Record WritableRoot := mkWritableRoot {
  wr_root : abs_path;
  read_only_subpaths : list abs_path;
  protected_metadata_names : list str;
}.

(** [Path::starts_with] and [strip_prefix] of absolute paths *)
Definition path_starts_with (path base : abs_path) : bool := bool_decide (base `prefix_of` path).

Definition path_strip_prefix (path base : abs_path) : option abs_path :=
  if path_starts_with path base then Some (drop (length base) path) else None.

Definition path_contains_protected_metadata_name (r : WritableRoot) (path : abs_path) : bool :=
  match path_strip_prefix path (wr_root r) with
  | Some (first_component :: _) => existsb (str_eqb first_component) (protected_metadata_names r)
  | _ => false
  end.

Definition is_path_writable (r : WritableRoot) (path : abs_path) : bool :=
  if negb (path_starts_with path (wr_root r)) then false
  else if existsb (path_starts_with path) (read_only_subpaths r) then false
  else negb (path_contains_protected_metadata_name r path).

Definition new_read_only_policy : SandboxPolicy := ReadOnly false.
Definition new_workspace_write_policy : SandboxPolicy := WorkspaceWrite [] false false false.

Definition legacy_has_full_disk_write_access (p : SandboxPolicy) : bool :=
  match p with
  | DangerFullAccess | ExternalSandboxPolicy _ => true
  | ReadOnly _ | WorkspaceWrite _ _ _ _ => false
  end.

Definition has_full_network_access (p : SandboxPolicy) : bool :=
  match p with
  | DangerFullAccess => true
  | ExternalSandboxPolicy network => network_access_is_enabled network
  | ReadOnly network | WorkspaceWrite _ network _ _ => network
  end.

Definition network_policy_of (p : SandboxPolicy) : NetworkSandboxPolicy :=
  if has_full_network_access p then NetworkEnabled else NetworkRestricted.

(** [dedup_absolute_paths], without and with effective paths *)
Fixpoint dedup_from (seen : list abs_path) (paths : list abs_path) : list abs_path :=
  match paths with
  | [] => []
  | path :: rest =>
      if bool_decide (path ∈ seen) then dedup_from seen rest else path :: dedup_from (path :: seen) rest
  end.

Definition dedup_paths (paths : list abs_path) : list abs_path := dedup_from [] paths.

(** [Path::ancestors] *)
Definition path_ancestors (p : abs_path) : list abs_path := map (fun n => take n p) (rev (seq 0 (S (length p)))).

Section host.
Context {lib : UrlLib} {host : Host}.

(** ** Absolute paths *)

Definition to_absolute (path : str) : option abs_path := from_absolute_path home_dir current_dir path.

Definition resolve_path_against_base (path : str) (base : abs_path) : abs_path :=
  normalize_path (path_join (abs_text base) (maybe_expand_home_directory home_dir path)).

(** [AbsolutePathBuf::join] *)
Definition abs_join (base : abs_path) (path : str) : abs_path := resolve_path_against_base path base.

(** ** Symbolic links (utils/absolute-path) *)

Definition should_preserve_logical_path (logical : abs_path) : bool :=
  existsb (fun ancestor => bool_decide (symlink_metadata ancestor = Some true) && (2 <=? length ancestor))
    (path_ancestors logical).

Definition canonicalize_preserving_symlinks (logical : abs_path) : abs_path :=
  match canonicalize logical with
  | Some canonical =>
      if should_preserve_logical_path logical && negb (bool_decide (canonical = logical)) then logical else canonical
  | None => logical
  end.

Definition normalize_effective_absolute_path (path : abs_path) : abs_path :=
  match List.find (fun ancestor => bool_decide (symlink_metadata ancestor <> None)) (path_ancestors path) with
  | Some ancestor => canonicalize_preserving_symlinks ancestor ++ drop (length ancestor) path
  | None => path
  end.

Definition normalize_trusted_top_level_alias (path : abs_path) : abs_path :=
  match path with
  | [] => path
  | top :: suffix =>
      match symlink_metadata [top] with
      | Some true => match canonicalize [top] with Some canonical => canonical ++ suffix | None => path end
      | _ => path
      end
  end.

Inductive WritableRootPathResolution := Effective | PreserveMutableComponents.

Definition resolve_root (r : WritableRootPathResolution) (path : abs_path) : abs_path :=
  match r with
  | Effective => normalize_effective_absolute_path path
  | PreserveMutableComponents => normalize_trusted_top_level_alias path
  end.

Definition dedup_effective_paths (paths : list abs_path) : list abs_path :=
  dedup_paths (map normalize_effective_absolute_path paths).

(** ** The local context *)

Definition local_temporary_directories : list PathUri :=
  match tmpdir_var with
  | Some tmpdir => if is_nil tmpdir then [] else map from_abs_path (option_list (to_absolute tmpdir))
  | None => []
  end.

Definition local_home : option PathUri :=
  home ← home_dir;
  if is_absolute home then Some (from_abs_path (normalize_path home)) else None.

Definition local_context (cwd : abs_path) : FileSystemSandboxPolicyContext :=
  mkPolicyContext (from_abs_path cwd) [from_abs_path cwd] local_home (Some local_temporary_directories).

Definition resolve_candidate_path (path cwd : str) : option abs_path :=
  if is_absolute path then to_absolute path
  else option_map (fun cwd => abs_join cwd path) (to_absolute cwd).

Definition with_local_policy_context {T} (path cwd : str)
    (evaluate : PathUri -> FileSystemSandboxPolicyContext -> T) : option T :=
  cwd ← to_absolute cwd;
  path ← resolve_candidate_path path (abs_text cwd);
  Some (evaluate (from_abs_path path) (local_context cwd)).

Definition resolve_access_with_cwd (p : FileSystemSandboxPolicy) (path cwd : str) : FileSystemAccessMode :=
  default Deny (with_local_policy_context path cwd (resolve_access p)).

Definition can_read_path_with_cwd (p : FileSystemSandboxPolicy) (path cwd : str) : bool :=
  can_read (resolve_access_with_cwd p path cwd).

Definition can_write_path_with_cwd (p : FileSystemSandboxPolicy) (path cwd : str) : bool :=
  default false (with_local_policy_context path cwd (can_write_path p)).

Definition forbidden_agent_metadata_write (path cwd : str) (p : FileSystemSandboxPolicy) : option str :=
  match fs_kind p with
  | Restricted =>
      default None (with_local_policy_context path cwd (fun path context =>
        name ← metadata_write_denial p path context;
        if can_write_path p path context then None else Some name))
  | _ => None
  end.

(** ** Entries as absolute paths *)

Definition resolve_file_system_special_path (value : FileSystemSpecialPath) (cwd : option abs_path)
    : option abs_path :=
  match value with
  | Root | Minimal | UnknownPath _ _ => None
  | ProjectRoots subpath =>
      cwd ← cwd;
      Some (match subpath with Some subpath => resolve_path_against_base subpath cwd | None => cwd end)
  | Tmpdir => tmpdir ← tmpdir_var; if is_nil tmpdir then None else to_absolute tmpdir
  | SlashTmp => if path_is_dir [lit "tmp"] then Some [lit "tmp"] else None
  end.

Definition resolve_file_system_path (path : FileSystemPath) (cwd : option abs_path) : option abs_path :=
  match path with
  | FsPath path => to_abs_path path
  | GlobPattern _ => None
  | Special value => resolve_file_system_special_path value cwd
  end.

Definition resolve_entry_path (path : FileSystemPath) (cwd : option abs_path) : option abs_path :=
  match path with
  | Special Root => option_map (fun _ => []) cwd
  | _ => resolve_file_system_path path cwd
  end.

Definition resolved_entries_with_cwd (p : FileSystemSandboxPolicy) (cwd : str)
    : list (abs_path * FileSystemAccessMode) :=
  let cwd_absolute := to_absolute cwd in
  omap (fun e => option_map (fun path => (path, entry_access e)) (resolve_entry_path (entry_path e) cwd_absolute))
    (fs_entries p).

Definition has_explicit_non_write_entry_for_path_with_cwd (p : FileSystemSandboxPolicy) (path cwd : str) : bool :=
  match resolve_candidate_path path cwd with
  | None => false
  | Some path =>
      let cwd := to_absolute cwd in
      existsb (fun e => negb (skips_missing_path e) && negb (can_write (entry_access e))
                        && bool_decide (resolve_entry_path (entry_path e) cwd = Some path)) (fs_entries p)
  end.

Definition has_explicit_resolved_path_entry (entries : list (abs_path * FileSystemAccessMode)) (path : abs_path)
    : bool :=
  existsb (fun e => bool_decide (e.1 = path)) entries.

(** ** Default protection of workspace metadata *)

Definition is_git_pointer_file (path : abs_path) : bool :=
  path_is_file path && bool_decide (file_name path = Some (lit ".git")).

Definition resolve_gitdir_from_file (dot_git : abs_path) : option abs_path :=
  contents ← read_to_string dot_git;
  '(prefix, gitdir_raw) ← split_once ch_colon_uri (trim contents);
  if negb (str_eqb (trim prefix) (lit "gitdir")) then None
  else
    let gitdir_raw := trim gitdir_raw in
    if is_nil gitdir_raw then None
    else match dot_git with
         | [] => None
         | _ =>
             let gitdir_path := resolve_path_against_base gitdir_raw (removelast dot_git) in
             if path_exists gitdir_path then Some gitdir_path else None
         end.

Definition default_read_only_subpaths_for_writable_root (writable_root : abs_path) (protect_missing_dot_codex : bool)
    : list abs_path :=
  let top_level_git := abs_join writable_root (lit ".git") in
  let top_level_agents := abs_join writable_root (lit ".agents") in
  let top_level_codex := abs_join writable_root (lit ".codex") in
  dedup_paths
    ((if path_is_dir top_level_git || path_is_file top_level_git then
        (if path_is_file top_level_git && is_git_pointer_file top_level_git
         then option_list (resolve_gitdir_from_file top_level_git) else [])
        ++ [top_level_git]
      else [])
     ++ (if path_is_dir top_level_agents then [top_level_agents] else [])
     ++ (if protect_missing_dot_codex || path_is_dir top_level_codex then [top_level_codex] else [])).

Definition append_default_read_only_entry_if_no_explicit_rule (entries : list FileSystemSandboxEntry)
    (path : FileSystemPath) : list FileSystemSandboxEntry :=
  if existsb (fun e => file_system_paths_share_target (entry_path e) path) entries then entries
  else entries ++ [skip_missing_path path Read].

Definition append_default_read_only_project_root_subpath_if_no_explicit_rule
    (entries : list FileSystemSandboxEntry) (subpath : str) : list FileSystemSandboxEntry :=
  append_default_read_only_entry_if_no_explicit_rule entries (Special (ProjectRoots (Some subpath))).

Definition append_default_read_only_path_if_no_explicit_rule (entries : list FileSystemSandboxEntry)
    (path : abs_path) : list FileSystemSandboxEntry :=
  append_default_read_only_entry_if_no_explicit_rule entries (FsPath (from_abs_path path)).

(** The loop over the protected paths of a root *)
Definition protect_root (protect_missing_dot_codex : bool) (entries : list FileSystemSandboxEntry)
    (root : abs_path) : list FileSystemSandboxEntry :=
  fold_left append_default_read_only_path_if_no_explicit_rule
    (default_read_only_subpaths_for_writable_root root protect_missing_dot_codex) entries.

Definition write_entry (path : abs_path) : FileSystemSandboxEntry := new_entry (FsPath (from_abs_path path)) Write.

(** The allow side of a workspace policy *)
Definition workspace_entries (writable_roots : list abs_path) (exclude_tmpdir_env_var exclude_slash_tmp : bool)
    : list FileSystemSandboxEntry :=
  [new_entry (Special Root) Read; new_entry (Special (ProjectRoots None)) Write]
  ++ (if exclude_slash_tmp then [] else [new_entry (Special SlashTmp) Write])
  ++ (if exclude_tmpdir_env_var then [] else [new_entry (Special Tmpdir) Write])
  ++ map write_entry writable_roots.

Definition workspace_write (writable_roots : list abs_path) (exclude_tmpdir_env_var exclude_slash_tmp : bool)
    : FileSystemSandboxPolicy :=
  let entries := workspace_entries writable_roots exclude_tmpdir_env_var exclude_slash_tmp in
  let entries := append_default_read_only_project_root_subpath_if_no_explicit_rule entries (lit ".git") in
  let entries := append_default_read_only_project_root_subpath_if_no_explicit_rule entries (lit ".agents") in
  let entries := append_default_read_only_project_root_subpath_if_no_explicit_rule entries (lit ".codex") in
  restricted (fold_left (protect_root false) writable_roots entries).

(** ** From and to legacy policies *)

Definition from_sandbox_policy (value : SandboxPolicy) : FileSystemSandboxPolicy :=
  match value with
  | DangerFullAccess => fs_unrestricted
  | ExternalSandboxPolicy _ => fs_external_sandbox
  | ReadOnly _ => restricted [new_entry (Special Root) Read]
  | WorkspaceWrite writable_roots _ exclude_tmpdir_env_var exclude_slash_tmp =>
      workspace_write writable_roots exclude_tmpdir_env_var exclude_slash_tmp
  end.

Definition from_legacy_sandbox_policy_for_cwd (value : SandboxPolicy) (cwd : str) : FileSystemSandboxPolicy :=
  let p := from_sandbox_policy value in
  match value with
  | WorkspaceWrite writable_roots _ _ _ =>
      let entries := match to_absolute cwd with
                     | Some cwd_root => protect_root true (fs_entries p) cwd_root
                     | None => fs_entries p
                     end in
      with_entries p (fold_left (protect_root false) writable_roots entries)
  | _ => p
  end.

Definition legacy_runtime_file_system_policy_for_cwd (value : SandboxPolicy) (cwd : str) : FileSystemSandboxPolicy :=
  match value with
  | WorkspaceWrite writable_roots _ exclude_tmpdir_env_var exclude_slash_tmp =>
      let entries := workspace_entries writable_roots exclude_tmpdir_env_var exclude_slash_tmp in
      let entries := match to_absolute cwd with
                     | Some cwd_root => protect_root true entries cwd_root
                     | None => entries
                     end in
      restricted (fold_left (protect_root false) writable_roots entries)
  | _ => from_sandbox_policy value
  end.

Definition from_legacy_sandbox_policy_preserving_deny_entries (value : SandboxPolicy) (cwd : str)
    (existing : FileSystemSandboxPolicy) : FileSystemSandboxPolicy :=
  let rebuilt := from_legacy_sandbox_policy_for_cwd value cwd in
  match fs_kind rebuilt with
  | Restricted =>
      mkFsPolicy Restricted (glob_scan_max_depth existing)
        (fold_left push_missing (List.filter is_deny (fs_entries existing)) (fs_entries rebuilt))
  | _ => rebuilt
  end.

(** The flags [to_legacy_sandbox_policy] collects; [None] is the error of a path
    that is not one of this host. *)
Record LegacyFlags := mkLegacyFlags {
  workspace_root_writable : bool;
  legacy_writable_roots : list abs_path;
  tmpdir_writable : bool;
  slash_tmp_writable : bool;
  unbridgeable_root_write : bool;
}.

Definition set_workspace (f : LegacyFlags) : LegacyFlags :=
  mkLegacyFlags true (legacy_writable_roots f) (tmpdir_writable f) (slash_tmp_writable f) (unbridgeable_root_write f).
Definition push_root (f : LegacyFlags) (path : abs_path) : LegacyFlags :=
  mkLegacyFlags (workspace_root_writable f) (legacy_writable_roots f ++ [path]) (tmpdir_writable f)
    (slash_tmp_writable f) (unbridgeable_root_write f).
Definition set_tmpdir (f : LegacyFlags) : LegacyFlags :=
  mkLegacyFlags (workspace_root_writable f) (legacy_writable_roots f) true (slash_tmp_writable f)
    (unbridgeable_root_write f).
Definition set_slash_tmp (f : LegacyFlags) : LegacyFlags :=
  mkLegacyFlags (workspace_root_writable f) (legacy_writable_roots f) (tmpdir_writable f) true
    (unbridgeable_root_write f).
Definition set_unbridgeable (f : LegacyFlags) : LegacyFlags :=
  mkLegacyFlags (workspace_root_writable f) (legacy_writable_roots f) (tmpdir_writable f) (slash_tmp_writable f) true.

Definition legacy_step (cwd : option abs_path) (f : LegacyFlags) (e : FileSystemSandboxEntry) : option LegacyFlags :=
  let writable := can_write (entry_access e) in
  match entry_path e with
  | GlobPattern _ => Some f
  | FsPath path =>
      if writable then
        path ← to_abs_path path;
        Some (if bool_decide (cwd = Some path) then set_workspace f else push_root f path)
      else Some f
  | Special Root => Some (if writable then set_unbridgeable f else f)
  | Special Minimal => Some f
  | Special (ProjectRoots subpath as value) =>
      Some (if bool_decide (subpath = None) && writable then set_workspace f
            else match resolve_file_system_special_path value cwd with
                 | Some path => if writable then push_root f path else f
                 | None => f
                 end)
  | Special Tmpdir => Some (if writable then set_tmpdir f else f)
  | Special SlashTmp => Some (if writable then set_slash_tmp f else f)
  | Special (UnknownPath _ _) => Some f
  end.

Fixpoint legacy_flags (cwd : option abs_path) (f : LegacyFlags) (entries : list FileSystemSandboxEntry)
    : option LegacyFlags :=
  match entries with
  | [] => Some f
  | e :: rest => f' ← legacy_step cwd f e; legacy_flags cwd f' rest
  end.

Inductive LegacyError := UnrepresentablePath | WritesOutsideWorkspace.

Definition full_access_policy (network_policy : NetworkSandboxPolicy) : SandboxPolicy :=
  if is_enabled network_policy then DangerFullAccess else ExternalSandboxPolicy NetworkAccessRestricted.

Definition to_legacy_sandbox_policy (p : FileSystemSandboxPolicy) (network_policy : NetworkSandboxPolicy) (cwd : str)
    : result SandboxPolicy LegacyError :=
  match fs_kind p with
  | ExternalSandbox =>
      Ok (ExternalSandboxPolicy (if is_enabled network_policy then NetworkAccessEnabled else NetworkAccessRestricted))
  | Unrestricted => Ok (full_access_policy network_policy)
  | Restricted =>
      match legacy_flags (to_absolute cwd) (mkLegacyFlags false [] false false false) (fs_entries p) with
      | None => Err UnrepresentablePath
      | Some f =>
          if has_full_disk_write_access p then Ok (full_access_policy network_policy)
          else if workspace_root_writable f then
            Ok (WorkspaceWrite (dedup_paths (legacy_writable_roots f)) (is_enabled network_policy)
                  (negb (tmpdir_writable f)) (negb (slash_tmp_writable f)))
          else if unbridgeable_root_write f || negb (is_nil (legacy_writable_roots f))
                  || tmpdir_writable f || slash_tmp_writable f
          then Err WritesOutsideWorkspace
          else Ok (ReadOnly (is_enabled network_policy))
      end
  end.

(** [SandboxPolicy::get_writable_roots_with_cwd] *)
Definition legacy_get_writable_roots_with_cwd (value : SandboxPolicy) (cwd : str) : list WritableRoot :=
  match value with
  | DangerFullAccess | ExternalSandboxPolicy _ | ReadOnly _ => []
  | WorkspaceWrite writable_roots _ exclude_tmpdir_env_var exclude_slash_tmp =>
      let roots :=
        writable_roots ++ option_list (to_absolute cwd)
        ++ (if negb exclude_slash_tmp && path_is_dir [lit "tmp"] then [[lit "tmp"]] else [])
        ++ (match tmpdir_var with
            | Some tmpdir =>
                if exclude_tmpdir_env_var || is_nil tmpdir then [] else option_list (to_absolute tmpdir)
            | None => []
            end) in
      map (fun root => mkWritableRoot root
             (default_read_only_subpaths_for_writable_root root (bool_decide (to_absolute cwd = Some root))) []) roots
  end.

(** ** Roots *)

Definition get_readable_roots_with_cwd (p : FileSystemSandboxPolicy) (cwd : str) : list abs_path :=
  if has_full_disk_read_access p then []
  else dedup_effective_paths
         (map fst (List.filter (fun e => can_read e.2 && can_read_path_with_cwd p (abs_text e.1) cwd)
                     (resolved_entries_with_cwd p cwd))).

Definition get_unreadable_roots_with_cwd (p : FileSystemSandboxPolicy) (cwd : str) : list abs_path :=
  match fs_kind p with
  | Restricted =>
      let root := option_map (fun _ => []) (to_absolute cwd) in
      dedup_effective_paths
        (map fst (List.filter (fun e => bool_decide (e.2 = Deny) && negb (can_read_path_with_cwd p (abs_text e.1) cwd)
                                        && negb (bool_decide (root = Some e.1)))
                    (resolved_entries_with_cwd p cwd)))
  | _ => []
  end.

Definition has_writable_roots_with_cwd (p : FileSystemSandboxPolicy) (cwd : str) : bool :=
  negb (has_full_disk_write_access p)
  && existsb (fun e => can_write e.2 && can_write_path_with_cwd p (abs_text e.1) cwd) (resolved_entries_with_cwd p cwd).

Definition has_configured_writable_roots_with_cwd (p : FileSystemSandboxPolicy) (cwd : str) : bool :=
  negb (has_full_disk_write_access p)
  && default false (with_local_policy_context cwd cwd (fun _ context =>
       existsb (fun '(path, access) => can_write access && can_write_path p path context) (resolved_entries p context))).

Definition protected_metadata_names_for_writable_root (p : FileSystemSandboxPolicy) (root : abs_path)
    (raw_writable_roots : list abs_path) (cwd : str) : list str :=
  List.filter (fun metadata_name =>
      forallb (fun base => negb (can_write_path_with_cwd p (abs_text (abs_join base metadata_name)) cwd))
        (root :: raw_writable_roots)) PROTECTED_METADATA_PATH_NAMES.

(** The carveout of a non-write entry under a writable root *)
Definition raw_carveout_path (root : abs_path) (raw_writable_roots : list abs_path) (path : abs_path) : option abs_path :=
  if bool_decide (path = root) then None
  else if path_starts_with path root then Some path
  else find_map (fun raw_root =>
         match path_strip_prefix path raw_root with
         | Some ((_ :: _) as suffix) => Some (abs_join root (join [ch_slash] suffix))
         | _ => None
         end) raw_writable_roots.

Definition carveout (resolution : WritableRootPathResolution) (root : abs_path) (raw_writable_roots : list abs_path)
    (path : abs_path) : option abs_path :=
  let effective_path := resolve_root resolution path in
  match (if is_nil root then None else raw_carveout_path root raw_writable_roots path) with
  | Some raw => Some raw
  | None =>
      if bool_decide (effective_path = root) || negb (path_starts_with effective_path root) then None
      else Some effective_path
  end.

Definition writable_entry_paths (p : FileSystemSandboxPolicy) (cwd : str) : list abs_path :=
  map fst (List.filter (fun e => can_write e.2 && can_write_path_with_cwd p (abs_text e.1) cwd)
             (resolved_entries_with_cwd p cwd)).

Definition writable_root (p : FileSystemSandboxPolicy) (cwd : str) (resolution : WritableRootPathResolution)
    (root : abs_path) : WritableRoot :=
  let resolved_entries := resolved_entries_with_cwd p cwd in
  let raw_writable_roots :=
    List.filter (fun path => bool_decide (resolve_root resolution path = root)) (writable_entry_paths p cwd) in
  let protect_missing_dot_codex :=
    is_some_and (fun cwd => bool_decide (resolve_root resolution cwd = root)) (to_absolute cwd) in
  let defaults :=
    List.filter (fun path => negb (has_explicit_resolved_path_entry resolved_entries path))
      (default_read_only_subpaths_for_writable_root root protect_missing_dot_codex) in
  let carveouts :=
    omap (fun e => if can_write e.2 || can_write_path_with_cwd p (abs_text e.1) cwd then None
                   else carveout resolution root raw_writable_roots e.1) resolved_entries in
  mkWritableRoot root (dedup_paths (defaults ++ carveouts))
    (protected_metadata_names_for_writable_root p root raw_writable_roots cwd).

Definition get_writable_roots_with_cwd_impl (p : FileSystemSandboxPolicy) (cwd : str)
    (resolution : WritableRootPathResolution) : list WritableRoot :=
  if has_full_disk_write_access p then []
  else map (writable_root p cwd resolution)
         (dedup_paths (map (resolve_root resolution) (writable_entry_paths p cwd))).

Definition get_writable_roots_with_cwd (p : FileSystemSandboxPolicy) (cwd : str) : list WritableRoot :=
  get_writable_roots_with_cwd_impl p cwd Effective.

Definition get_writable_roots_with_cwd_preserving_mutable_paths (p : FileSystemSandboxPolicy) (cwd : str)
    : list WritableRoot :=
  get_writable_roots_with_cwd_impl p cwd PreserveMutableComponents.

Definition protected_metadata_names_need_direct_runtime_enforcement (p : FileSystemSandboxPolicy)
    (legacy_policy : SandboxPolicy) (cwd : str) : bool :=
  let legacy_roots := legacy_get_writable_roots_with_cwd legacy_policy cwd in
  existsb (fun r =>
      match List.find (fun candidate => bool_decide (wr_root candidate = wr_root r)) legacy_roots with
      | None => negb (is_nil (protected_metadata_names r))
      | Some legacy_root =>
          existsb (fun metadata_name =>
              negb (bool_decide (abs_join (wr_root r) metadata_name ∈ read_only_subpaths legacy_root)))
            (protected_metadata_names r)
      end) (get_writable_roots_with_cwd p cwd).

(** ** Edits *)

Definition with_additional_readable_roots (p : FileSystemSandboxPolicy) (cwd : str) (roots : list abs_path)
    : FileSystemSandboxPolicy :=
  if has_full_disk_read_access p then p
  else fold_left (fun p path =>
         if can_read_path_with_cwd p (abs_text path) cwd then p
         else with_entries p (fs_entries p ++ [new_entry (FsPath (from_abs_path path)) Read])) roots p.

Definition with_additional_writable_roots (p : FileSystemSandboxPolicy) (cwd : str) (roots : list abs_path)
    : FileSystemSandboxPolicy :=
  fold_left (fun p path =>
      if can_write_path_with_cwd p (abs_text path) cwd then p
      else with_entries p (fs_entries p ++ [write_entry path])) roots p.

Definition add_legacy_root (entries : list FileSystemSandboxEntry) (path : abs_path) : list FileSystemSandboxEntry :=
  let entries :=
    if existsb (fun e => can_write (entry_access e)
                         && match entry_path e with
                            | FsPath existing => uri_eqb existing (from_abs_path path)
                            | _ => false
                            end) entries
    then entries else entries ++ [write_entry path] in
  protect_root false entries path.

Definition with_additional_legacy_workspace_writable_roots (p : FileSystemSandboxPolicy) (roots : list abs_path)
    : FileSystemSandboxPolicy :=
  match fs_kind p with
  | Restricted => with_entries p (fold_left add_legacy_root roots (fs_entries p))
  | _ => p
  end.

(** ** Symbolic workspace roots *)

Definition PROJECT_ROOTS_GLOB_PATTERN_PREFIX : str := lit "codex-project-roots://".

Definition project_roots_glob_pattern (subpath : str) : str := PROJECT_ROOTS_GLOB_PATTERN_PREFIX ++ subpath.

Definition parse_project_roots_glob_pattern (glob : str) : option str :=
  strip_prefix PROJECT_ROOTS_GLOB_PATTERN_PREFIX glob.

Definition resolve_project_roots_glob_pattern (subpath : str) (root : abs_path) : str :=
  abs_text (resolve_path_against_base subpath root).

Definition set_path (e : FileSystemSandboxEntry) (path : FileSystemPath) : FileSystemSandboxEntry :=
  mkFsEntry path (entry_access e) (missing_path_behavior e).

Definition materialize_entry_with_cwd (cwd : option abs_path) (e : FileSystemSandboxEntry) : FileSystemSandboxEntry :=
  match entry_path e with
  | Special (ProjectRoots _) =>
      match resolve_file_system_path (entry_path e) cwd with
      | Some path => set_path e (FsPath (from_abs_path path))
      | None => e
      end
  | GlobPattern glob =>
      match cwd, parse_project_roots_glob_pattern glob with
      | Some cwd, Some subpath => set_path e (GlobPattern (resolve_project_roots_glob_pattern subpath cwd))
      | _, _ => e
      end
  | _ => e
  end.

Definition materialize_project_roots_with_cwd (p : FileSystemSandboxPolicy) (cwd : str) : FileSystemSandboxPolicy :=
  with_entries p (map (materialize_entry_with_cwd (to_absolute cwd)) (fs_entries p)).

Definition materialize_entry_with_roots (roots : list abs_path) (e : FileSystemSandboxEntry)
    : list FileSystemSandboxEntry :=
  match entry_path e with
  | Special (ProjectRoots subpath) =>
      map (fun root => set_path e (FsPath (from_abs_path
             (match subpath with Some subpath => resolve_path_against_base subpath root | None => root end)))) roots
  | GlobPattern glob =>
      match parse_project_roots_glob_pattern glob with
      | Some subpath => map (fun root => set_path e (GlobPattern (resolve_project_roots_glob_pattern subpath root))) roots
      | None => [e]
      end
  | _ => [e]
  end.

Definition materialize_project_roots_with_workspace_roots (p : FileSystemSandboxPolicy) (roots : list abs_path)
    : FileSystemSandboxPolicy :=
  with_entries p (flat_map (materialize_entry_with_roots roots) (fs_entries p)).

Definition with_materialized_project_roots_for_workspace_roots (p : FileSystemSandboxPolicy) (roots : list abs_path)
    : FileSystemSandboxPolicy :=
  with_entries p
    (fold_left push_missing (fs_entries (materialize_project_roots_with_workspace_roots p roots)) (fs_entries p)).

End host.

(** ** Policies of the host as rules on absolute paths *)

Section host_rules.
Context {lib : UrlLib} {laws : UrlLaws} {host : Host}.

Lemma to_absolute_names x : Forall (fun n => is_name n = true) x -> to_absolute (abs_text x) = Some x.
Proof.
  intros Hx. unfold to_absolute, from_absolute_path, maybe_expand_home_directory, absolutize. cbn [abs_text app strip_prefix].
  replace (strip_prefix (lit "~") (ch_slash :: join [ch_slash] x)) with (@None str) by done.
  replace (is_absolute (ch_slash :: join [ch_slash] x)) with true by done. f_equal. by apply normalize_abs_text.
Qed.

(** Text a workspace entry may join to a root *)
Definition plain_subpath (t : str) : Prop :=
  plain_text t /\ is_absolute t = false /\ strip_prefix (lit "~") t = None.

(** Entries with ordinary names; [/tmp] exists when it is used. *)
Definition plain_entry (e : FileSystemSandboxEntry) : Prop :=
  match entry_path e with
  | FsPath uri => exists q, represents uri q
  | GlobPattern _ => True
  | Special (ProjectRoots (Some t)) => plain_subpath t
  | Special Tmpdir => forall t q, tmpdir_var = Some t -> to_absolute t = Some q -> plain_path q
  | Special SlashTmp => path_is_dir [lit "tmp"] = true
  | Special _ => True
  end.

Definition plain_policy (p : FileSystemSandboxPolicy) : Prop := Forall plain_entry (fs_entries p).

Lemma resolve_subpath t w : plain_path w -> plain_subpath t ->
  resolve_path_against_base t w = fold_left normalize_component (components t) w.
Proof.
  intros Hw (_ & Ha & Ht). unfold resolve_path_against_base, maybe_expand_home_directory. rewrite Ht.
  unfold normalize_path. rewrite path_join_components, fold_left_app by done. f_equal.
  by apply (normalize_abs_text w), plain_names.
Qed.

(** An entry resolves to the same paths in both readings. *)
Lemma entry_paths_agree e w : plain_path w -> plain_entry e ->
  Forall2 represents (entry_paths (local_context w) (entry_path e)) (option_list (resolve_entry_path (entry_path e) (Some w))).
Proof.
  intros Hw He. pose proof (from_abs_path_represents w Hw) as Rw. unfold plain_entry in He.
  destruct (entry_path e) as [uri|g|[| |[t|]| | |]]; cbn -[uri_join to_absolute].
  - destruct He as [q Hq]. rewrite (to_abs_path_represents _ _ Hq). constructor; [done|constructor].
  - constructor.
  - unfold file_system_root. cbn [ctx_cwd local_context]. rewrite (represents_depth _ _ Rw). cbn.
    destruct (represents_root _ _ Rw) as (r & -> & Hr). constructor; [done|constructor].
  - constructor.
  - pose proof He as (Ht & Ha & _). destruct (join_represents _ _ t Rw Ht Ha) as (u & -> & Hu). cbn.
    rewrite (resolve_subpath t w Hw He). constructor; [done|constructor].
  - constructor; [done|constructor].
  - unfold local_temporary_directories. destruct tmpdir_var as [t|] eqn:Et; [|constructor]. cbn -[to_absolute].
    destruct (is_nil t); [constructor|]. destruct (to_absolute t) as [q|] eqn:Eq; [|constructor].
    cbn. constructor; [|done]. by apply from_abs_path_represents, (He t).
  - rewrite He. rewrite (represents_convention _ _ Rw). rewrite bool_decide_true by done.
    destruct (join_slash_tmp _ (represents_convention _ _ Rw)) as (u & -> & Hu). cbn. constructor; [done|constructor].
  - constructor.
Qed.

Lemma filter_represents us qs (a : FileSystemAccessMode) (f : PathUri -> bool) : Forall2 represents us qs ->
  (forall u q, represents u q -> f u = true) ->
  Forall2 (fun ua qa => represents ua.1 qa.1 /\ ua.2 = qa.2)
    (map (fun path => (path, a)) (List.filter f us)) (map (fun path => (path, a)) qs).
Proof.
  intros Hq Hf. induction Hq as [|u q us qs Hu _ IH]; [constructor|]. simpl. rewrite (Hf u q Hu). simpl. by constructor.
Qed.

(** The rules of a policy on absolute paths *)
Definition host_rules (p : FileSystemSandboxPolicy) (w : abs_path) : list (abs_path * FileSystemAccessMode) :=
  omap (fun e => option_map (fun path => (path, entry_access e)) (resolve_entry_path (entry_path e) (Some w)))
    (fs_entries p).

Lemma resolved_agree p w : plain_path w -> plain_policy p ->
  Forall2 (fun ua qa => represents ua.1 qa.1 /\ ua.2 = qa.2)
    (resolved_entries p (local_context w)) (host_rules p w).
Proof.
  intros Hw Hp. unfold resolved_entries, host_rules.
  induction Hp as [|e es He _ IH]; [constructor|]. cbn [flat_map omap list_omap].
  pose proof (filter_represents _ _ (entry_access e)
    (fun path => bool_decide (infer_path_convention path = infer_path_convention (ctx_cwd (local_context w))))
    (entry_paths_agree e w Hw He)) as Hf.
  destruct (resolve_entry_path (entry_path e) (Some w)) as [q|]; cbn [option_map option_list map] in *.
  - match goal with |- Forall2 _ _ (?a :: ?b) => change (a :: b) with ([a] ++ b) end. apply Forall2_app; [|done]. apply Hf. intros u q' Hu. apply bool_decide_eq_true.
    unfold local_context. cbn [ctx_cwd].
    by rewrite (represents_convention _ _ Hu), (represents_convention _ _ (from_abs_path_represents w Hw)).
  - match goal with |- Forall2 _ _ ?b => change b with ([] ++ b) end. apply Forall2_app; [|done]. apply Hf. intros u q' Hu. apply bool_decide_eq_true.
    unfold local_context. cbn [ctx_cwd].
    by rewrite (represents_convention _ _ Hu), (represents_convention _ _ (from_abs_path_represents w Hw)).
Qed.

Lemma host_rules_plain p w : plain_path w -> plain_policy p -> Forall (fun r => plain_path r.1) (host_rules p w).
Proof.
  intros Hw Hp. pose proof (resolved_agree p w Hw Hp) as Ha.
  induction Ha as [|[u a] [q b] us qs [Hu _] _ IH]; [done|]. constructor; [apply Hu|done].
Qed.

Lemma rules_of_host p w : plain_path w -> plain_policy p ->
  rules_of p (local_context w) = map (fun r => (map encode r.1, r.2)) (host_rules p w).
Proof.
  intros Hw Hp. unfold rules_of. pose proof (resolved_agree p w Hw Hp) as Ha.
  induction Ha as [|[u a] [q b] us qs [Hu E] _ IH]; [done|]. cbn [omap list_omap map fst snd] in *. subst b.
  rewrite (represents_view _ _ Hu). cbn [option_map]. by rewrite IH.
Qed.

Lemma host_unambiguous p w : plain_path w -> plain_policy p -> unambiguous p (local_context w) = true.
Proof.
  intros Hw Hp. unfold unambiguous. pose proof (resolved_agree p w Hw Hp) as Ha.
  induction Ha as [|[u a] [q b] us qs [Hu E] _ IH]; [done|]. cbn [forallb fst snd] in *.
  rewrite (represents_depth _ _ Hu), bool_decide_true by done. done.
Qed.

Lemma access_of_encode rules x a : Forall (fun r => plain_path r.1) rules -> plain_path x ->
  access_of (map (fun r => (map encode r.1, r.2)) rules) (map encode x) a -> access_of rules x a.
Proof.
  intros Hr Hx. rewrite Forall_forall in Hr.
  assert (Hin : forall q b, (q, b) ∈ rules -> (map encode q, b) ∈ map (fun r => (map encode r.1, r.2)) rules).
  { intros q b Hq. apply list_elem_of_In, in_map_iff. exists (q, b). split; [done|]. by apply list_elem_of_In. }
  assert (Hpre : forall q b, (q, b) ∈ rules -> map encode q `prefix_of` map encode x <-> q `prefix_of` x).
  { intros q b Hq. apply encode_prefix; apply plain_valid; [apply (Hr _ Hq)|done]. }
  intros [(y & Hy & Hp & Hm)|[-> Hn]].
  - apply list_elem_of_In, in_map_iff in Hy as ([q b] & E & Hq). injection E as <- ->. apply list_elem_of_In in Hq.
    cbn [fst] in *. left. exists q. split; [done|]. split; [by apply (Hpre q a)|]. intros z b Hz Hzp.
    destruct (Hm (map encode z) b (Hin z b Hz)) as [Hl|[E Hl]]; [by apply (Hpre z b)| |right].
    + left. by rewrite !length_map in Hl.
    + split; [|done]. apply (prefix_same_length x); [done|by apply (Hpre q a)|].
      apply (f_equal length) in E. by rewrite !length_map in E.
  - right. split; [done|]. intros z b Hz Hzp. apply (Hn (map encode z) b (Hin z b Hz)). by apply (Hpre z b).
Qed.

Lemma resolve_access_host p w x : fs_kind p = Restricted -> plain_path w -> plain_policy p -> plain_path x ->
  resolve_access p (from_abs_path x) (local_context w) = nearest_access (host_rules p w) x.
Proof.
  intros Hk Hw Hp Hx. symmetry. apply access_of_nearest, access_of_encode; [by apply host_rules_plain|done|].
  rewrite <- rules_of_host by done.
  apply (resolve_access_rules p _ _ (map encode x) (map encode w)); [done| | |by apply host_unambiguous];
    apply represents_view; by apply from_abs_path_represents.
Qed.

(** The protection of metadata on absolute paths *)
Definition host_protected (x q : abs_path) : option (abs_path * str) :=
  find_map (fun n => if bool_decide (q ++ [n] `prefix_of` x) then Some (q ++ [n], n) else None)
    PROTECTED_METADATA_PATH_NAMES.

Definition write_roots (rules : list (abs_path * FileSystemAccessMode)) : list abs_path :=
  map fst (List.filter (fun r => can_write r.2) rules).

Definition host_denial (rules : list (abs_path * FileSystemAccessMode)) (x : abs_path) : option str :=
  '(protected, n) ← find_map (host_protected x) (write_roots rules);
  if existsb (fun r => bool_decide (r `prefix_of` x) && bool_decide (protected `prefix_of` r)) (write_roots rules)
  then None else Some n.

Lemma protected_names_plain n : n ∈ PROTECTED_METADATA_PATH_NAMES -> plain_name n = true.
Proof. intros Hn. unfold PROTECTED_METADATA_PATH_NAMES in Hn. repeat (apply elem_of_cons in Hn as [->|Hn]; [done|]). by apply elem_of_nil in Hn. Qed.

Lemma starts_with_bool a b p q : represents a p -> represents b q ->
  uri_starts_with a b = bool_decide (q `prefix_of` p).
Proof.
  intros Ha Hb. pose proof (represents_starts_with a b p q Ha Hb) as Hi. symmetry.
  destruct (uri_starts_with a b); [by apply bool_decide_eq_true, Hi|].
  apply bool_decide_eq_false. intros Hx%Hi. done.
Qed.

Lemma protected_match_host path root x q : represents path x -> represents root q ->
  match host_protected x q with
  | Some (P, n) => exists uri, protected_match path root = Some (uri, n) /\ represents uri P
  | None => protected_match path root = None
  end.
Proof.
  intros Hx Hq. unfold host_protected, protected_match.
  assert (Hin : forall n, n ∈ PROTECTED_METADATA_PATH_NAMES -> plain_name n = true) by apply protected_names_plain.
  induction PROTECTED_METADATA_PATH_NAMES as [|n ns IH]; [done|]. cbn [find_map].
  destruct (join_descendant_name root q n Hq) as (uri & -> & Hu); [by apply Hin; left|].
  rewrite (starts_with_bool path uri x (q ++ [n]) Hx Hu). case_bool_decide; [eauto|].
  apply IH. intros n' Hn'. apply Hin. by right.
Qed.

Lemma write_filter_agree us qs : Forall2 (fun ua qa => represents ua.1 qa.1 /\ ua.2 = qa.2) us qs ->
  Forall2 (fun ua q => represents ua.1 q) (List.filter (fun '(_, access) => can_write access) us) (write_roots qs).
Proof.
  unfold write_roots. induction 1 as [|[u a] [q b] us qs [Hu E] _ IH]; [constructor|]. cbn in *. subst b.
  destruct (can_write a); [by constructor|done].
Qed.

Lemma metadata_denial_host p w x : fs_kind p = Restricted -> plain_path w -> plain_policy p -> plain_path x ->
  metadata_write_denial p (from_abs_path x) (local_context w) = host_denial (host_rules p w) x.
Proof.
  intros Hk Hw Hp Hx. unfold metadata_write_denial, host_denial. rewrite Hk. cbv zeta.
  pose proof (from_abs_path_represents x Hx) as Rx. pose proof (resolved_agree p w Hw Hp) as Ha.
  pose proof (write_filter_agree _ _ Ha) as Hwr.
  assert (Hm : match find_map (host_protected x) (write_roots (host_rules p w)) with
               | Some (P, n) => exists uri, find_map (fun '(root, _) => protected_match (from_abs_path x) root)
                     (List.filter (fun '(_, access) => can_write access) (resolved_entries p (local_context w)))
                   = Some (uri, n) /\ represents uri P
               | None => find_map (fun '(root, _) => protected_match (from_abs_path x) root)
                     (List.filter (fun '(_, access) => can_write access) (resolved_entries p (local_context w))) = None
               end).
  { induction Hwr as [|[u a] q us qs Hu _ IH]; [done|]. cbn [find_map fst] in *.
    pose proof (protected_match_host _ _ _ _ Rx Hu) as Hpm. destruct (host_protected x q) as [[P n]|].
    - destruct Hpm as (uri & -> & Hr). eauto.
    - by rewrite Hpm. }
  destruct (find_map (host_protected x) (write_roots (host_rules p w))) as [[P n]|]; [|by rewrite Hm].
  destruct Hm as (uri & -> & HP). cbn [mbind option_bind].
  assert (He : existsb (fun '(root, access) => can_write access && uri_starts_with (from_abs_path x) root
                 && uri_starts_with root uri) (resolved_entries p (local_context w))
             = existsb (fun r => bool_decide (r `prefix_of` x) && bool_decide (P `prefix_of` r)) (write_roots (host_rules p w))).
  { clear Hwr. unfold write_roots. induction Ha as [|[u a] [q b] us qs [Hu E] _ IH]; [done|]. cbn in *. subst b. rewrite IH.
    rewrite (starts_with_bool _ _ _ _ Rx Hu), (starts_with_bool _ _ _ _ Hu HP). by destruct (can_write a). }
  by rewrite He.
Qed.

(** Writing an absolute path *)
Definition host_can_write (full : bool) (rules : list (abs_path * FileSystemAccessMode)) (x : abs_path) : bool :=
  can_write (nearest_access rules x) && (full || bool_decide (host_denial rules x = None)).

Lemma can_write_host p w x : fs_kind p = Restricted -> plain_path w -> plain_policy p -> plain_path x ->
  can_write_path p (from_abs_path x) (local_context w)
  = host_can_write (has_full_disk_write_access p) (host_rules p w) x.
Proof.
  intros Hk Hw Hp Hx. unfold can_write_path, host_can_write.
  rewrite (resolve_access_host p w x), (metadata_denial_host p w x) by done.
  by destruct (can_write (nearest_access (host_rules p w) x)).
Qed.

Lemma with_cwd_host {T} (f : PathUri -> FileSystemSandboxPolicyContext -> T) c w x :
  to_absolute c = Some w -> plain_path x ->
  with_local_policy_context (abs_text x) c f = Some (f (from_abs_path x) (local_context w)).
Proof.
  intros Hc Hx. unfold with_local_policy_context. rewrite Hc. cbn [mbind option_bind].
  unfold resolve_candidate_path. replace (is_absolute (abs_text x)) with true by done.
  by rewrite to_absolute_names by (by apply plain_names).
Qed.

Lemma can_write_with_cwd_host p c w x : to_absolute c = Some w -> fs_kind p = Restricted ->
  plain_path w -> plain_policy p -> plain_path x ->
  can_write_path_with_cwd p (abs_text x) c = host_can_write (has_full_disk_write_access p) (host_rules p w) x.
Proof.
  intros Hc Hk Hw Hp Hx. unfold can_write_path_with_cwd. rewrite (with_cwd_host _ c w x) by done. cbn.
  by apply can_write_host.
Qed.

Lemma can_read_with_cwd_host p c w x : to_absolute c = Some w -> fs_kind p = Restricted ->
  plain_path w -> plain_policy p -> plain_path x ->
  can_read_path_with_cwd p (abs_text x) c = can_read (nearest_access (host_rules p w) x).
Proof.
  intros Hc Hk Hw Hp Hx. unfold can_read_path_with_cwd, resolve_access_with_cwd. rewrite (with_cwd_host _ c w x) by done.
  cbn. by rewrite resolve_access_host.
Qed.

Lemma resolved_with_cwd_host p c w : to_absolute c = Some w -> resolved_entries_with_cwd p c = host_rules p w.
Proof. intros Hc. unfold resolved_entries_with_cwd. by rewrite Hc. Qed.

End host_rules.

(** ** Writable roots against the policy *)

Section soundness.
Context {lib : UrlLib} {laws : UrlLaws} {host : Host}.

(** *** Links *)

(** Where a link in the root directory leads. *)
Definition top_link (top : str) : option abs_path :=
  if bool_decide (symlink_metadata [top] = Some true) then canonicalize [top] else None.

(** A path with its link in the root directory followed. *)
Definition alias (q : abs_path) : abs_path :=
  match q with
  | top :: s => match top_link top with Some target => target ++ s | None => q end
  | [] => []
  end.

(** What the operating system documents: a path without links below the root
    directory is canonical once its top-level link is followed, an existing one
    can be made canonical, the metadata of a path does not depend on the name
    its top-level directory is reached by, and a canonical path has no link.
    Links in the root directory lead to paths of ordinary names, and none leads
    back to the root directory. *)
Record HostLaws : Prop := {
  canonicalize_alias q real :
    canonicalize q = Some real -> should_preserve_logical_path q = false -> real = alias q;
  canonicalize_exists q :
    symlink_metadata q <> None -> should_preserve_logical_path q = false ->
    canonicalize q <> None \/ exists top, top_link top = None /\ symlink_metadata [top] = Some true /\ head q = Some top;
  metadata_alias top target s :
    top_link top = Some target -> s <> [] -> symlink_metadata (top :: s) = symlink_metadata (target ++ s);
  target_real top target :
    top_link top = Some target ->
    target <> [] /\ plain_path target /\ forall y, y `prefix_of` target -> symlink_metadata y <> Some true;
}.

(** A path that goes through no link. *)
Definition real_path (x : abs_path) : Prop := forall y, y `prefix_of` x -> symlink_metadata y <> Some true.

Lemma elem_of_ancestors a p : a ∈ path_ancestors p -> a ++ drop (length a) p = p.
Proof.
  unfold path_ancestors. rewrite list_elem_of_In, in_map_iff. intros (n & <- & Hn%in_rev%in_seq).
  rewrite length_take. replace (n `min` length p) with n by lia. apply take_drop.
Qed.

Lemma ancestors_cons top s : path_ancestors (top :: s) = map (cons top) (path_ancestors s) ++ [[]].
Proof.
  unfold path_ancestors. change (seq 0 (S (length (top :: s)))) with (0 :: seq 1 (S (length s))).
  rewrite <- seq_shift. cbn [rev]. rewrite map_app, <- map_rev, !map_map. done.
Qed.

Lemma find_app {A} (f : A -> bool) l l' :
  List.find f (l ++ l') = match List.find f l with Some a => Some a | None => List.find f l' end.
Proof. induction l as [|a l IH]; cbn; [done|]. by destruct (f a). Qed.

Lemma top_link_metadata top target : top_link top = Some target -> symlink_metadata [top] = Some true.
Proof. unfold top_link. by case_bool_decide. Qed.

Lemma real_path_head top s : real_path (top :: s) -> top_link top = None.
Proof.
  intros Hr. destruct (top_link top) as [target|] eqn:E; [|done]. apply top_link_metadata in E.
  destruct (Hr [top]); [by apply prefix_cons, prefix_nil|done].
Qed.

Section links.
Context (HL : HostLaws).

(** Resolving a path follows its top-level link or nothing. *)
Lemma resolve_form resolution q :
  resolve_root resolution q = q
  \/ exists top s target, q = top :: s /\ top_link top = Some target /\ resolve_root resolution q = target ++ s.
Proof.
  destruct resolution; cbn [resolve_root].
  - unfold normalize_effective_absolute_path. destruct (List.find _ (path_ancestors q)) as [a|] eqn:Ef; [|by left].
    apply find_some in Ef as [Ha _]. apply list_elem_of_In, elem_of_ancestors in Ha.
    unfold canonicalize_preserving_symlinks. destruct (canonicalize a) as [real|] eqn:Ec; [|by left].
    destruct (should_preserve_logical_path a) eqn:Ep.
    { cbn [andb]. case_bool_decide; subst; by left. }
    cbn [andb]. apply (canonicalize_alias HL) in Ec as ->; [|done]. destruct a as [|top a]; [by left|].
    cbn [alias]. destruct (top_link top) as [target|] eqn:El; [|by left]. right.
    exists top, (a ++ drop (length (top :: a)) q), target. split; [by rewrite <- Ha at 1|]. split; [done|]. by rewrite app_assoc.
  - destruct q as [|top s]; [by left|]. cbn. destruct (symlink_metadata [top]) as [[]|] eqn:Em; try by left.
    destruct (canonicalize [top]) as [target|] eqn:Ec; [|by left]. right. exists top, s, target.
    split; [done|]. split; [|done]. unfold top_link. by rewrite bool_decide_true.
Qed.

(** A path whose real location goes through no further link resolves to it. *)
Lemma resolve_linked resolution top s target : top_link top = Some target -> real_path (target ++ s) ->
  resolve_root resolution (top :: s) = target ++ s.
Proof.
  intros Hl Hr. pose proof (top_link_metadata _ _ Hl) as Hm. destruct resolution; cbn [resolve_root].
  2: { cbn. rewrite Hm. unfold top_link in Hl. rewrite bool_decide_true in Hl by done. by rewrite Hl. }
  unfold normalize_effective_absolute_path. rewrite ancestors_cons, find_app.
  match goal with |- context [List.find ?f (map (cons top) ?l)] => destruct (List.find f (map (cons top) l)) as [a|] eqn:Ef end.
  2: { exfalso. assert (Hin : In [top] (map (cons top) (path_ancestors s))).
       { apply in_map_iff. exists []. split; [reflexivity|]. apply in_map_iff. exists 0. split; [reflexivity|].
         apply (proj1 (in_rev _ _)), in_seq. lia. }
       pose proof (find_none _ _ Ef _ Hin) as Hn.
       apply bool_decide_eq_false in Hn. apply Hn. by rewrite Hm. }
  apply find_some in Ef as [Ha He%bool_decide_eq_true]. apply in_map_iff in Ha as (a' & <- & Ha).
  apply list_elem_of_In, elem_of_ancestors in Ha. cbn [length]. rewrite skipn_cons.
  assert (Hp : should_preserve_logical_path (top :: a') = false).
  { apply not_true_iff_false. intros (b & Hb & Hc)%existsb_exists. apply andb_true_iff in Hc as [Hc1 Hc2].
    apply bool_decide_eq_true in Hc1. apply Nat.leb_le in Hc2. apply list_elem_of_In, elem_of_ancestors in Hb.
    destruct b as [|top' b]; [cbn in Hc2; lia|]. cbn [app] in Hb. injection Hb as -> Hb. cbn [length] in Hc2.
    rewrite (metadata_alias HL top target b Hl) in Hc1 by (by destruct b; [cbn in Hc2; lia|]).
    apply (Hr (target ++ b)); [|done]. apply prefix_app. etrans; [|exists (drop (length a') s); by symmetry].
    rewrite <- Hb. by apply prefix_app_r. }
  unfold canonicalize_preserving_symlinks. rewrite Hp. cbn [andb].
  destruct (canonicalize (top :: a')) as [real|] eqn:Ec.
  - apply (canonicalize_alias HL) in Ec as ->; [|done]. cbn [alias]. by rewrite Hl, <- app_assoc, Ha.
  - exfalso. destruct (canonicalize_exists HL (top :: a') He Hp) as [Hn|(top' & Hn & _ & [= <-])]; congruence.
Qed.

End links.

Lemma elem_of_dedup_from seen l x : x ∈ dedup_from seen l <-> x ∈ l /\ x ∉ seen.
Proof.
  revert seen. induction l as [|y l IH]; intros seen; cbn [dedup_from]; [rewrite elem_of_nil; tauto|].
  case_bool_decide as E; [|rewrite elem_of_cons]; rewrite IH, ?elem_of_cons; destruct (decide (x = y)) as [->|]; tauto.
Qed.

Lemma elem_of_dedup l x : x ∈ dedup_paths l <-> x ∈ l.
Proof. unfold dedup_paths. rewrite elem_of_dedup_from. rewrite elem_of_nil. tauto. Qed.

Lemma elem_of_write_roots rules q : q ∈ write_roots rules <-> (q, Write) ∈ rules.
Proof.
  unfold write_roots. rewrite list_elem_of_In, in_map_iff. split.
  - intros ([q' a] & <- & Hin). apply filter_In in Hin as [Hin Ha]. cbn in *. destruct a; try done. by apply list_elem_of_In.
  - intros Hin. exists (q, Write). split; [done|]. apply filter_In. split; [by apply list_elem_of_In|done].
Qed.

Lemma host_protected_spec x q P n : host_protected x q = Some (P, n) ->
  n ∈ PROTECTED_METADATA_PATH_NAMES /\ P = q ++ [n] /\ P `prefix_of` x.
Proof. intros (m & Hm & Hc)%find_map_some. case_bool_decide; [|done]. by injection Hc as <- <-. Qed.

Lemma host_protected_intro x q n : n ∈ PROTECTED_METADATA_PATH_NAMES -> q ++ [n] `prefix_of` x ->
  host_protected x q = Some (q ++ [n], n).
Proof.
  intros Hn Hp. destruct (host_protected x q) as [[P m]|] eqn:E.
  - apply host_protected_spec in E as (_ & -> & Hm).
    assert (E : q ++ [m] = q ++ [n]) by (apply (prefix_same_length x); [done|done|by rewrite !length_app]).
    apply app_inv_head in E. by injection E as ->.
  - unfold host_protected in E. rewrite find_map_none in E. specialize (E n Hn). by rewrite bool_decide_true in E.
Qed.

(** A denial protects a path that has no write rule inside it for [x]. *)
Lemma host_denial_some rules x n : host_denial rules x = Some n ->
  exists P, find_map (host_protected x) (write_roots rules) = Some (P, n)
    /\ forall r, (r, Write) ∈ rules -> r `prefix_of` x -> ~ P `prefix_of` r.
Proof.
  unfold host_denial. destruct (find_map _ _) as [[P m]|]; [|done]. cbn. destruct (existsb _ _) eqn:Ee; [done|].
  intros [= ->]. exists P. split; [done|]. intros r Hr Hx HP. apply not_true_iff_false in Ee. apply Ee, existsb_exists.
  exists r. split; [by apply list_elem_of_In, elem_of_write_roots|]. by rewrite !bool_decide_true.
Qed.

(** A write rule that decides for its own path makes it writable. *)
Lemma write_rule_not_denied rules q : (q, Write) ∈ rules -> host_denial rules q = None.
Proof.
  intros Hq. destruct (host_denial rules q) as [n|] eqn:E; [exfalso|done].
  apply host_denial_some in E as (P & Hf & Hn). apply find_map_some in Hf as (r & _ & Hf).
  apply host_protected_spec in Hf as (_ & _ & HP). by apply (Hn q Hq).
Qed.

Lemma find_map_weaken {A B} (f g : A -> option B) l y :
  find_map f l = Some y -> (forall x z, g x = Some z -> f x = Some z) ->
  (forall x, x ∈ l -> f x = Some y -> g x = Some y) -> find_map g l = Some y.
Proof.
  intros Hf Hgf Hfg. induction l as [|x l IH]; [done|]. cbn [find_map] in *. destruct (g x) as [z|] eqn:Eg.
  - by rewrite (Hgf x z Eg) in Hf.
  - destruct (f x) as [z|] eqn:Ef; [|apply IH; [done|]; intros x' Hx'; apply Hfg; by right].
    injection Hf as ->. by rewrite (Hfg x) in Eg by (done || by left).
Qed.

(** A denial of a path is a denial of what lies between it and the protected one. *)
Lemma host_denial_below rules x y P n : find_map (host_protected x) (write_roots rules) = Some (P, n) ->
  P `prefix_of` y -> y `prefix_of` x ->
  (forall r, (r, Write) ∈ rules -> r `prefix_of` x -> ~ P `prefix_of` r) ->
  host_denial rules y = Some n.
Proof.
  intros Hf HPy Hyx Hn. assert (Hf' : find_map (host_protected y) (write_roots rules) = Some (P, n)).
  { apply (find_map_weaken (host_protected x)); [done| |].
    - intros r' [P' m] (Hm & -> & Hp)%host_protected_spec. apply host_protected_intro; [done|]. by etrans.
    - intros r' _ (Hm & -> & _)%host_protected_spec. by apply host_protected_intro. }
  unfold host_denial. rewrite Hf'. cbn. destruct (existsb _ _) eqn:Ee; [exfalso|done].
  apply existsb_exists in Ee as (r' & Hr & Hb). apply andb_true_iff in Hb as [H1 H2].
  apply bool_decide_eq_true in H1, H2. apply (Hn r'); [by apply elem_of_write_roots, list_elem_of_In|by etrans|done].
Qed.

(** *** On rules *)

(** A shallower rule that decides a path decides what is above it, down to itself. *)
Lemma decides_between (rules : list (abs_path * FileSystemAccessMode)) x y z a :
  rule_decides rules x z a -> y `prefix_of` x -> length z <= length y -> nearest_access rules y = a.
Proof.
  intros Hd Hy Hl. pose proof Hd as (_ & Hz & _). apply (rule_decides_access _ _ z), (rule_decides_above _ x); [done| |done].
  rewrite (prefix_same_length x z (take (length z) y)); [apply prefix_take|done| |rewrite length_take; lia].
  etrans; [apply prefix_take|done].
Qed.

Lemma prefix_shorter {A} (a b x : list A) : a `prefix_of` x -> b `prefix_of` x -> length a <= length b -> a `prefix_of` b.
Proof.
  intros Ha Hb Hl. destruct (prefix_weak_total a b x Ha Hb) as [H|H]; [done|].
  apply prefix_length in H as Hl'. assert (length a = length b) as E by lia.
  destruct H as [k' ->]. rewrite length_app in E. destruct k'; [by rewrite app_nil_r|cbn in E; lia].
Qed.

Section admitted.
Context (rules : list (abs_path * FileSystemAccessMode)) (base start x : abs_path).
Context (Hbase : base `prefix_of` start) (Hstart : start `prefix_of` x).
Context (Hok : host_can_write false rules start = true).
Context (Hdeny : forall z a, (z, a) ∈ rules -> a <> Write -> nearest_access rules z <> Write ->
                   base `prefix_of` z -> z <> base -> z `prefix_of` x -> False).
Context (Hdeep : forall y, (y, Write) ∈ rules -> nearest_access rules y = Write ->
                   base `prefix_of` y -> y <> base -> y `prefix_of` x -> False).

Lemma start_access : nearest_access rules start = Write /\ host_denial rules start = None.
Proof.
  unfold host_can_write in Hok. apply andb_true_iff in Hok as [H1 H2]. cbn [orb] in H2.
  apply bool_decide_eq_true in H2. split; [by destruct (nearest_access rules start)|done].
Qed.

(** No rule lies between a writable path and what is below it. *)
Lemma below_start y a : rule_decides rules x y a -> length y <= length start.
Proof.
  intros Hd. destruct (decide (length y <= length start)) as [|Hl]; [done|exfalso].
  pose proof Hd as (Hy & Hyx & _). pose proof (prefix_length _ _ Hbase) as Hbl.
  assert (Hby : base `prefix_of` y) by (apply (prefix_shorter base y x); [by etrans|done|lia]).
  assert (Hne : y <> base) by (intros ->; lia).
  pose proof (decides_between rules x y y a Hd Hyx ltac:(lia)) as Hn.
  destruct (decide (a = Write)) as [->|Ha]; [by apply (Hdeep y)|]. apply (Hdeny y a); try done. congruence.
Qed.

Lemma admitted_access : nearest_access rules x = Write.
Proof.
  destruct start_access as [Hs _]. destruct (nearest_access_of rules x) as [(y & Hd)|[_ Hn]].
  - pose proof (below_start y _ Hd) as Hl. by rewrite (decides_between rules x start y _ Hd Hstart Hl) in Hs.
  - destruct (nearest_access_of rules start) as [(y & Hy & Hys & _)|[E _]]; [|congruence].
    exfalso. eapply Hn; [exact Hy|]. by etrans.
Qed.

(** A write rule below the base is the deepest one of its path, or denied there. *)
Lemma write_rule_between y : (y, Write) ∈ rules -> base `prefix_of` y -> y <> base -> y `prefix_of` x -> False.
Proof.
  intros Hy Hby Hne Hyx. destruct (nearest_access_of rules y) as [(z & Hz & Hzy & Hm)|[_ Hn]]; [|by destruct (Hn y Write)].
  destruct (decide (nearest_access rules y = Write)) as [E|E]; [by apply (Hdeep y)|].
  destruct (Hm y Write Hy) as [Hl|[<- _]]; [done|apply prefix_length in Hzy; lia|].
  by apply (Hdeny y (nearest_access rules y)).
Qed.

(** The protected names of the base are decided at [start]. *)
Context (Hmeta : forall n, n ∈ PROTECTED_METADATA_PATH_NAMES -> base ++ [n] `prefix_of` x -> base ++ [n] `prefix_of` start).

Lemma admitted_not_denied : host_denial rules x = None.
Proof.
  destruct (host_denial rules x) as [n|] eqn:E; [exfalso|done]. apply host_denial_some in E as (P & Hf & Hn).
  pose proof Hf as (y & Hy & (Hin & -> & HP)%host_protected_spec)%find_map_some. apply elem_of_write_roots in Hy.
  assert (Hyx : y `prefix_of` x) by (etrans; [by apply prefix_app_r|done]).
  pose proof (prefix_length _ _ Hbase) as Hbl.
  destruct (decide (y ++ [n] `prefix_of` start)) as [Hs|Hs].
  - pose proof (host_denial_below rules x start (y ++ [n]) n Hf Hs Hstart Hn) as Hd.
    destruct start_access as [_ Hs']. congruence.
  - assert (Hl : length start <= length y).
    { destruct (decide (length start <= length y)) as [|Hl]; [done|]. destruct Hs.
      apply (prefix_shorter _ _ x); [done|done|]. rewrite length_app. cbn. lia. }
    assert (Hby : base `prefix_of` y) by (apply (prefix_shorter base y x); [by etrans|done|lia]).
    destruct (decide (y = base)) as [->|Hne]; [|by apply (write_rule_between y)]. by apply Hs, Hmeta.
Qed.

Lemma admitted_can_write : host_can_write false rules x = true.
Proof. unfold host_can_write. rewrite admitted_access, admitted_not_denied. by rewrite bool_decide_true. Qed.

End admitted.

(** *** The roots handed to the sandbox *)

Context (p : FileSystemSandboxPolicy) (c : str) (w : abs_path) (resolution : WritableRootPathResolution).
Context (Hk : fs_kind p = Restricted) (Hc : to_absolute c = Some w) (Hw : plain_path w) (Hp : plain_policy p).
Context (Hf : has_full_disk_write_access p = false) (HL : HostLaws).

Local Notation rules := (host_rules p w).
Local Notation resolve := (resolve_root resolution).

Lemma rule_plain q a : (q, a) ∈ rules -> plain_path q.
Proof. intros Hq. pose proof (host_rules_plain p w Hw Hp) as Hpl. rewrite Forall_forall in Hpl. by apply (Hpl _ Hq). Qed.

Lemma elem_of_writable_entry_paths q : q ∈ writable_entry_paths p c <->
  (q, Write) ∈ rules /\ host_can_write false rules q = true.
Proof.
  unfold writable_entry_paths. rewrite (resolved_with_cwd_host p c w Hc), list_elem_of_In, in_map_iff. split.
  - intros ([q' a] & <- & Hin). apply filter_In in Hin as [Hin Ha]. apply list_elem_of_In in Hin. cbn [fst snd] in *.
    apply andb_true_iff in Ha as [Ha Hcw]. destruct a; try done. split; [done|].
    rewrite <- Hf. rewrite <- (can_write_with_cwd_host p c w q'); try done. by apply (rule_plain _ Write).
  - intros [Hin Hcw]. exists (q, Write). split; [done|]. apply filter_In. split; [by apply list_elem_of_In|].
    cbn [fst snd can_write andb]. rewrite (can_write_with_cwd_host p c w q), Hf; try done. by apply (rule_plain _ Write).
Qed.

(** The names of a root: itself and the writable entries it is the location of. *)
Definition root_name (root base : abs_path) : Prop :=
  base = root \/ (base ∈ writable_entry_paths p c /\ resolve base = root).

Lemma elem_of_writable_roots r : r ∈ get_writable_roots_with_cwd_impl p c resolution <->
  exists q, r = writable_root p c resolution (resolve q) /\ q ∈ writable_entry_paths p c.
Proof.
  unfold get_writable_roots_with_cwd_impl. rewrite Hf, list_elem_of_In, in_map_iff. split.
  - intros (q & <- & Hq). apply list_elem_of_In, elem_of_dedup, list_elem_of_In, in_map_iff in Hq as (q' & <- & Hq').
    exists q'. split; [done|]. by apply list_elem_of_In.
  - intros (q & -> & Hq). exists (resolve q). split; [done|]. apply list_elem_of_In, elem_of_dedup, list_elem_of_In, in_map_iff.
    exists q. split; [done|]. by apply list_elem_of_In.
Qed.

Lemma resolve_plain q : plain_path q -> plain_path (resolve q).
Proof.
  intros Hq. destruct (resolve_form HL resolution q) as [->|(top & s & target & -> & Hl & ->)]; [done|].
  apply Forall_app. split; [by apply (target_real HL top)|]. by apply Forall_cons in Hq as [_ Hq].
Qed.

Lemma root_name_plain root base : plain_path root -> root_name root base -> plain_path base.
Proof. intros Hr [->|[Hb _]]; [done|]. apply elem_of_writable_entry_paths in Hb as [Hb _]. by apply (rule_plain _ Write). Qed.

(** Another name of a root starts with a link, which the root does not. *)
Lemma root_name_link root base : root_name root base ->
  base = root \/ exists top s target, base = top :: s /\ top_link top = Some target /\ root = target ++ s.
Proof.
  intros [->|[_ Hr]]; [by left|]. destruct (resolve_form HL resolution base) as [E|(top & s & target & E & Hl & E')].
  - left. congruence.
  - right. exists top, s, target. split; [done|]. split; [done|]. congruence.
Qed.

Lemma link_not_target top s target t : top_link top = Some target -> ~ target ++ t `prefix_of` top :: s.
Proof.
  intros Hl Hpre. destruct (target_real HL top target Hl) as (Hne & _ & Hr). destruct target as [|h target]; [done|].
  apply prefix_cons_inv_1 in Hpre as ->. apply (Hr [top]); [by apply prefix_cons, prefix_nil|]. by eapply top_link_metadata.
Qed.

(** Below a root, the location of a path is found by its name in the root. *)
Lemma resolve_below root base u : root_name root base -> real_path (root ++ u) -> resolve (base ++ u) = root ++ u.
Proof.
  intros [->|(top & s & target & -> & Hl & ->)]%root_name_link Hr.
  - destruct (resolve_form HL resolution (root ++ u)) as [->|(top & s & target & E & Hl & _)]; [done|].
    rewrite E in Hr. apply real_path_head in Hr. congruence.
  - rewrite <- app_assoc in *. by apply (resolve_linked HL).
Qed.

(** Names that are not the home directory are joined as they are. *)
Lemma expand_names s : plain_path s -> head s <> Some (lit "~") ->
  maybe_expand_home_directory home_dir (join [ch_slash] s) = join [ch_slash] s.
Proof.
  intros Hs Hh. unfold maybe_expand_home_directory. destruct s as [|n s]; [by destruct home_dir|].
  apply Forall_cons in Hs as [Hn _]. apply plain_name_spec in Hn as (Hi & _). apply is_name_spec in Hi as (Hn0 & Hsl & _).
  assert (Hj : exists r, join [ch_slash] (n :: s) = n ++ r).
  { destruct s; [exists []; by rewrite app_nil_r|by eexists]. }
  destruct Hj as [r ->]. destruct (strip_prefix (lit "~") (n ++ r)) as [rest|] eqn:Es; [|done].
  apply strip_prefix_Some in Es. destruct home_dir as [h|]; [|done]. destruct n as [|t n]; [done|].
  injection Es as -> <-. destruct n as [|t n]; [by destruct Hh|]. rewrite bool_decide_false by done.
  destruct (strip_prefix [ch_slash] ((t :: n) ++ r)) as [rest|] eqn:Es; [|done].
  apply strip_prefix_Some in Es. injection Es as -> _. destruct Hsl. right. by left.
Qed.

Lemma abs_join_names root s : plain_path root -> plain_path s -> s <> [] -> head s <> Some (lit "~") ->
  abs_join root (join [ch_slash] s) = root ++ s.
Proof.
  intros Hr Hs Hne Hh. unfold abs_join, resolve_path_against_base. rewrite expand_names by done.
  unfold normalize_path. rewrite path_join_components.
  - rewrite components_join by (by apply plain_names). rewrite fold_left_app.
    change (fold_left normalize_component (components (abs_text root)) []) with (normalize_path (abs_text root)).
    rewrite normalize_abs_text by (by apply plain_names). apply normalize_names.
  - destruct s as [|n s]; [done|]. apply Forall_cons in Hs as [Hn _].
    apply plain_name_spec in Hn as (Hi & _). apply is_name_spec in Hi as (Hn0 & Hsl & _).
    apply not_true_iff_false. unfold is_absolute. rewrite starts_with_spec. intros [r Hj].
    destruct n as [|t n]; [done|]. assert (t = ch_slash) as ->; [|destruct Hsl; by left].
    destruct s; by injection Hj.
Qed.

Local Notation raws root := (List.filter (fun path => bool_decide (resolve path = root)) (writable_entry_paths p c)).

Lemma elem_of_raws root q : In q (raws root) <-> q ∈ writable_entry_paths p c /\ resolve q = root.
Proof. rewrite filter_In, bool_decide_eq_true, list_elem_of_In. done. Qed.

(** An entry below another name of the root is carved out under the root. *)
Lemma raw_carveout_linked top s target t : top_link top = Some target -> plain_path (target ++ s) -> plain_path t ->
  t <> [] -> head t <> Some (lit "~") -> In (top :: s) (raws (target ++ s)) ->
  raw_carveout_path (target ++ s) (raws (target ++ s)) (top :: s ++ t) = Some ((target ++ s) ++ t).
Proof.
  intros Hl Hpl Hplt Hne Hh Hin. unfold raw_carveout_path, path_starts_with.
  rewrite bool_decide_false by (intros E; apply (link_not_target top (s ++ t) target s Hl); by rewrite E).
  rewrite bool_decide_false by (by apply link_not_target).
  match goal with |- find_map ?f _ = _ => destruct (find_map f (raws (target ++ s))) as [y|] eqn:Ef end.
  - apply find_map_some in Ef as (raw & Hraw & Ef). apply list_elem_of_In, elem_of_raws in Hraw as [Hraw Er].
    unfold path_strip_prefix, path_starts_with in Ef. case_bool_decide as Ep; [|done].
    destruct (drop (length raw) (top :: s ++ t)) as [|n rest] eqn:Ed; [done|]. injection Ef as <-.
    assert (Hraw' : raw = top :: s).
    { destruct (root_name_link (target ++ s) raw) as [->|(top' & s' & target' & -> & Hl' & E)]; [by right| |].
      - by destruct (link_not_target top (s ++ t) target s Hl).
      - apply prefix_cons_inv_1 in Ep as ->. rewrite Hl in Hl'. injection Hl' as <-. by apply app_inv_head in E as ->. }
    subst raw. cbn [length] in Ed. rewrite skipn_cons, drop_app_length in Ed. subst t. f_equal. by apply (abs_join_names _ (n :: rest)).
  - exfalso. rewrite find_map_none in Ef. specialize (Ef (top :: s)). apply list_elem_of_In in Hin. specialize (Ef Hin).
    unfold path_strip_prefix, path_starts_with in Ef. rewrite bool_decide_true in Ef by (apply prefix_cons, prefix_app_r; done).
    cbn [length] in Ef. rewrite skipn_cons, drop_app_length in Ef. by destruct t.
Qed.

(** An entry without write access below a root is carved out of it. *)
Lemma carveout_below root base t : plain_path root -> root_name root base -> plain_path t -> t <> [] ->
  head t <> Some (lit "~") -> real_path (root ++ t) -> carveout resolution root (raws root) (base ++ t) = Some (root ++ t).
Proof.
  intros Hpr Hb Hpt Hne Hh Hr. pose proof (resolve_below root base t Hb Hr) as Heff.
  assert (Hno : root ++ t <> root) by (intros E; rewrite <- (app_nil_r root) in E at 2; by apply app_inv_head in E).
  unfold carveout. destruct root as [|k root]; cbn [is_nil].
  { rewrite Heff. rewrite bool_decide_false by done. unfold path_starts_with. by rewrite bool_decide_true by (by apply prefix_app_r). }
  destruct (root_name_link _ _ Hb) as [->|(top & s & target & -> & Hl & E)].
  - unfold raw_carveout_path. rewrite bool_decide_false by done. unfold path_starts_with.
    by rewrite bool_decide_true by (by apply prefix_app_r).
  - rewrite E in *. cbn [app]. rewrite (raw_carveout_linked top s target t); try done.
    destruct Hb as [Hb|Hb]; [|by apply elem_of_raws]. destruct (link_not_target top s target s Hl). by rewrite <- Hb.
Qed.

Lemma elem_of_carveouts root base t a : plain_path root -> root_name root base -> plain_path t -> t <> [] ->
  head t <> Some (lit "~") -> real_path (root ++ t) -> (base ++ t, a) ∈ rules -> can_write a = false ->
  host_can_write false rules (base ++ t) = false ->
  root ++ t ∈ read_only_subpaths (writable_root p c resolution root).
Proof.
  intros Hpr Hb Hpt Hne Hh Hr Hin Ha Hcw. cbn [writable_root read_only_subpaths]. apply elem_of_dedup, elem_of_app. right.
  rewrite (resolved_with_cwd_host p c w Hc). apply list_elem_of_omap. exists (base ++ t, a). split; [done|]. cbn [fst snd].
  rewrite (can_write_with_cwd_host p c w (base ++ t)), Hf, Hcw, Ha by (done || by apply (rule_plain _ a)). cbn [orb].
  by apply carveout_below.
Qed.

Lemma abs_join_protected q n : plain_path q -> n ∈ PROTECTED_METADATA_PATH_NAMES -> abs_join q n = q ++ [n].
Proof.
  intros Hq Hn. change n with (join [ch_slash] [n]) at 1. apply abs_join_names; [done| |done|].
  - repeat constructor. by apply protected_names_plain.
  - unfold PROTECTED_METADATA_PATH_NAMES in Hn. intros [= ->].
    repeat (apply elem_of_cons in Hn as [Hn|Hn]; [done|]). by apply elem_of_nil in Hn.
Qed.

Lemma forallb_false {A} (f : A -> bool) l : forallb f l = false -> exists a, In a l /\ f a = false.
Proof.
  induction l as [|a l IH]; cbn; [done|]. destruct (f a) eqn:E; [|intros _; exists a; auto].
  intros (b & Hb & Hf')%IH. exists b. auto.
Qed.

(** A metadata name a root admits can be written under one of the root's names. *)
Lemma admitted_name root n s : plain_path root -> n ∈ PROTECTED_METADATA_PATH_NAMES ->
  is_path_writable (writable_root p c resolution root) (root ++ n :: s) = true ->
  exists base, root_name root base /\ host_can_write false rules (base ++ [n]) = true.
Proof.
  intros Hpr Hn Hadm. unfold is_path_writable in Hadm.
  destruct (negb _); [done|]. destruct (existsb _ _); [done|]. apply negb_true_iff in Hadm.
  unfold path_contains_protected_metadata_name, path_strip_prefix, path_starts_with in Hadm.
  cbn [wr_root writable_root] in Hadm. rewrite bool_decide_true, drop_app_length in Hadm by (by apply prefix_app_r).
  destruct (forallb (fun base => negb (can_write_path_with_cwd p (abs_text (abs_join base n)) c)) (root :: raws root)) eqn:Ef.
  - exfalso. apply not_true_iff_false in Hadm. apply Hadm, existsb_exists. exists n. split; [|by apply str_eqb_eq].
    apply filter_In. split; [by apply list_elem_of_In|done].
  - apply forallb_false in Ef as (base & Hb & Hw').
    assert (Hname : root_name root base) by (destruct Hb as [<-|Hb]; [by left|right; by apply elem_of_raws]).
    exists base. split; [done|]. apply negb_false_iff in Hw'. pose proof (root_name_plain _ _ Hpr Hname) as Hpb.
    rewrite abs_join_protected in Hw' by done. rewrite (can_write_with_cwd_host p c w), Hf in Hw'; try done.
    apply Forall_app. split; [done|]. repeat constructor. by apply protected_names_plain.
Qed.

(** The paths of which the theorem speaks: ordinary names, no link on the way and no
    directory called [~]. *)
Definition located (x : abs_path) : Prop := plain_path x /\ real_path x /\ Forall (fun n => n <> lit "~") x.

Lemma located_below root t s x : located x -> x = root ++ s -> t `prefix_of` s -> t <> [] ->
  plain_path t /\ head t <> Some (lit "~") /\ real_path (root ++ t).
Proof.
  intros (Hpl & Hr & Ht) -> [k ->] Hne. unfold plain_path in *. rewrite !Forall_app in Hpl, Ht. split; [tauto|]. split.
  - destruct t as [|n t]; [done|]. intros [= ->]. destruct Ht as (_ & Ht & _). by apply Forall_cons in Ht as [].
  - intros y Hy. apply Hr. etrans; [done|]. rewrite app_assoc. by apply prefix_app_r.
Qed.

(** What a root admits lies below none of its carveouts. *)
Lemma admitted_not_carved root x e : is_path_writable (writable_root p c resolution root) x = true ->
  e ∈ read_only_subpaths (writable_root p c resolution root) -> ~ e `prefix_of` x.
Proof.
  unfold is_path_writable. destruct (negb _); [done|]. destruct (existsb _ _) eqn:Ee; [done|]. intros _ He Hex.
  apply not_true_iff_false in Ee. apply Ee, existsb_exists. exists e. split; [by apply list_elem_of_In|].
  by apply bool_decide_eq_true.
Qed.

(** An entry without write access, below a name of the root, is not above an admitted path. *)
Lemma admitted_no_entry root base t s a x : plain_path root -> located x -> x = root ++ s ->
  is_path_writable (writable_root p c resolution root) x = true ->
  root_name root base -> t <> [] -> (base ++ t, a) ∈ rules -> can_write a = false ->
  host_can_write false rules (base ++ t) = false -> ~ t `prefix_of` s.
Proof.
  intros Hpr Hx Es Hadm Hb Hne Hin Ha Hcw Ht. destruct (located_below root t s x Hx Es Ht Hne) as (H1 & H2 & H3).
  eapply (admitted_not_carved root x (root ++ t)); [done|by eapply elem_of_carveouts|]. subst x. by apply prefix_app.
Qed.

(** No deeper root is above a path that its deepest root admits. *)
Lemma admitted_no_deeper root base t s x : located x -> x = root ++ s ->
  (forall r', r' ∈ get_writable_roots_with_cwd_impl p c resolution -> wr_root r' `prefix_of` x -> length (wr_root r') <= length root) ->
  root_name root base -> t <> [] -> (base ++ t, Write) ∈ rules -> nearest_access rules (base ++ t) = Write -> ~ t `prefix_of` s.
Proof.
  intros Hx Es Hdeep Hb Hne Hin Hna Ht. destruct (located_below root t s x Hx Es Ht Hne) as (_ & _ & H3).
  assert (Hroot : writable_root p c resolution (root ++ t) ∈ get_writable_roots_with_cwd_impl p c resolution).
  { apply elem_of_writable_roots. exists (base ++ t). split; [by rewrite (resolve_below root base t)|].
    apply elem_of_writable_entry_paths. split; [done|]. unfold host_can_write. rewrite Hna, write_rule_not_denied by done.
    by rewrite bool_decide_true. }
  apply Hdeep in Hroot; cbn [wr_root writable_root] in Hroot |- *; [|subst x; by apply prefix_app].
  rewrite length_app in Hroot. destruct t; [done|]. cbn in Hroot. lia.
Qed.

(** Where the access of an admitted path is decided: at the root, or at the metadata
    name below it. *)
Lemma admitted_start root q s : plain_path root -> q ∈ writable_entry_paths p c -> resolve q = root ->
  is_path_writable (writable_root p c resolution root) (root ++ s) = true ->
  exists base start, root_name root base /\ base `prefix_of` start /\ start `prefix_of` base ++ s
    /\ host_can_write false rules start = true
    /\ forall n, n ∈ PROTECTED_METADATA_PATH_NAMES -> base ++ [n] `prefix_of` base ++ s -> base ++ [n] `prefix_of` start.
Proof.
  intros Hpr Hq Eq Hadm. pose proof Hq as [_ Hqw]%elem_of_writable_entry_paths.
  destruct (decide (Exists (fun n => head s = Some n) PROTECTED_METADATA_PATH_NAMES)) as [(n & Hn & Hh)%Exists_exists|Hno].
  - destruct s as [|m s']; [done|]. injection Hh as ->.
    destruct (admitted_name root n s' Hpr Hn Hadm) as (base & Hb & Hcw). exists base, (base ++ [n]).
    split; [done|]. split; [by apply prefix_app_r|]. split; [apply prefix_app, prefix_cons, prefix_nil|]. split; [done|].
    intros m _ Hm%prefix_app_inv. by apply prefix_cons_inv_1 in Hm as ->.
  - exists q, q. split; [by right|]. split; [done|]. split; [by apply prefix_app_r|]. split; [done|].
    intros n Hn Hm%prefix_app_inv. destruct s as [|m s]; [by apply prefix_nil_inv in Hm|].
    apply prefix_cons_inv_1 in Hm as ->. destruct Hno. apply Exists_exists. eauto.
Qed.

(** A path admitted by the deepest writable root above it is writable under a
    name of the root. *)
Lemma admitted_writable root q s : q ∈ writable_entry_paths p c -> resolve q = root -> located (root ++ s) ->
  (forall r', r' ∈ get_writable_roots_with_cwd_impl p c resolution -> wr_root r' `prefix_of` root ++ s ->
     length (wr_root r') <= length root) ->
  is_path_writable (writable_root p c resolution root) (root ++ s) = true ->
  exists base, root_name root base /\ host_can_write false rules (base ++ s) = true.
Proof.
  intros Hq Eq Hx Hdeep Hadm. pose proof Hq as [Hqr _]%elem_of_writable_entry_paths.
  assert (Hpr : plain_path root) by (subst root; apply resolve_plain; by apply (rule_plain _ Write)).
  destruct (admitted_start root q s Hpr Hq Eq Hadm) as (base & start & Hb & H1 & H2 & H3 & H4). exists base. split; [done|].
  apply (admitted_can_write rules base start (base ++ s)); [done|done|done| | |done].
  - intros z a Hz Ha Hna [t ->] Hne Ht%prefix_app_inv. revert Ht. eapply (admitted_no_entry root base); try done.
    + intros ->. by rewrite app_nil_r in Hne.
    + by destruct a.
    + unfold host_can_write. by destruct (nearest_access rules (base ++ t)).
  - intros y Hy Hna [t ->] Hne Ht%prefix_app_inv. revert Ht. eapply (admitted_no_deeper root base); try done.
    intros ->. by rewrite app_nil_r in Hne.
Qed.

End soundness.

(** ** Legacy policies there and back *)

Section legacy.
Context {lib : UrlLib} {laws : UrlLaws} {host : Host}.

(** Entries extended by default protections *)
Definition extends_reads (a b : list FileSystemSandboxEntry) : Prop :=
  exists more, b = a ++ more /\ Forall (fun e => entry_access e = Read) more.

#[local] Instance extends_reads_preorder : PreOrder extends_reads.
Proof.
  split.
  - intros a. exists []. by rewrite app_nil_r.
  - intros a b d (m & -> & Hm) (m' & -> & Hm'). exists (m ++ m'). rewrite app_assoc. split; [done|]. by apply Forall_app.
Qed.

Lemma append_extends entries path : extends_reads entries (append_default_read_only_entry_if_no_explicit_rule entries path).
Proof.
  unfold append_default_read_only_entry_if_no_explicit_rule. destruct (existsb _ _); [done|].
  exists [skip_missing_path path Read]. split; [done|]. by repeat constructor.
Qed.

Lemma fold_extends {B} (f : list FileSystemSandboxEntry -> B -> list FileSystemSandboxEntry) l entries :
  (forall es x, extends_reads es (f es x)) -> extends_reads entries (fold_left f l entries).
Proof.
  intros Hf. revert entries. induction l as [|x l IH]; intros entries; cbn [fold_left]; [done|].
  etrans; [apply Hf|apply IH].
Qed.

Lemma protect_root_extends b entries root : extends_reads entries (protect_root b entries root).
Proof. apply fold_extends. intros es path. apply append_extends. Qed.

(** The entries a legacy workspace policy becomes *)
Lemma workspace_write_extends roots et es :
  extends_reads (workspace_entries roots et es) (fs_entries (workspace_write roots et es)).
Proof.
  unfold workspace_write. cbn [fs_entries restricted].
  etrans; [|apply fold_extends; intros; apply protect_root_extends].
  etrans; [|apply append_extends]. etrans; [|apply append_extends]. apply append_extends.
Qed.

Lemma legacy_for_cwd_extends roots n et es cwd : extends_reads (workspace_entries roots et es)
  (fs_entries (from_legacy_sandbox_policy_for_cwd (WorkspaceWrite roots n et es) cwd)).
Proof.
  unfold from_legacy_sandbox_policy_for_cwd. cbn [fs_entries with_entries from_sandbox_policy].
  etrans; [apply workspace_write_extends|].
  etrans; [|apply fold_extends; intros; apply protect_root_extends].
  destruct (to_absolute cwd); [apply protect_root_extends|done].
Qed.

Lemma legacy_flags_app cwd f a b : legacy_flags cwd f (a ++ b) = (f' ← legacy_flags cwd f a; legacy_flags cwd f' b).
Proof. revert f. induction a as [|e a IH]; intros f; cbn; [done|]. destruct (legacy_step cwd f e); [apply IH|done]. Qed.

Lemma legacy_flags_reads cwd f entries : Forall (fun e => entry_access e = Read) entries -> legacy_flags cwd f entries = Some f.
Proof.
  induction 1 as [|e es He _ IH]; cbn [legacy_flags]; [done|]. unfold legacy_step. rewrite He. cbn [can_write].
  destruct (entry_path e) as [|g|[| |sp| | |]]; cbn [mbind option_bind]; try done.
  rewrite andb_false_r. by destruct (resolve_file_system_special_path _ _).
Qed.

Lemma legacy_flags_roots w f roots : Forall plain_path roots ->
  legacy_flags (Some w) f (map write_entry roots)
  = Some (mkLegacyFlags (workspace_root_writable f || bool_decide (w ∈ roots))
            (legacy_writable_roots f ++ List.filter (fun r => negb (bool_decide (r = w))) roots)
            (tmpdir_writable f) (slash_tmp_writable f) (unbridgeable_root_write f)).
Proof.
  intros Hr. revert f. induction Hr as [|r roots Hr _ IH]; intros f; cbn [map legacy_flags].
  { rewrite bool_decide_false by apply not_elem_of_nil. rewrite orb_false_r. cbn. rewrite app_nil_r. by destruct f. }
  unfold legacy_step. cbn [write_entry new_entry entry_access entry_path can_write].
  rewrite (to_abs_path_represents _ _ (from_abs_path_represents r Hr)). cbn [mbind option_bind].
  destruct (decide (r = w)) as [->|Hne].
  - rewrite bool_decide_true by done. rewrite IH. cbn -[bool_decide].
    rewrite (bool_decide_true (w = w)), (bool_decide_true (w ∈ w :: roots)) by (done || by left). by rewrite orb_true_r.
  - rewrite bool_decide_false by congruence. rewrite IH. cbn -[bool_decide]. rewrite (bool_decide_false (r = w)) by done. cbn -[bool_decide].
    rewrite <- app_assoc. do 2 f_equal. do 2 f_equal. apply bool_decide_ext. rewrite elem_of_cons. naive_solver.
Qed.

Lemma legacy_flags_workspace w roots et es : Forall plain_path roots ->
  legacy_flags (Some w) (mkLegacyFlags false [] false false false) (workspace_entries roots et es)
  = Some (mkLegacyFlags true (List.filter (fun r => negb (bool_decide (r = w))) roots) (negb et) (negb es) false).
Proof.
  intros Hr. unfold workspace_entries. rewrite !legacy_flags_app.
  destruct es, et; cbn -[map]; by rewrite legacy_flags_roots.
Qed.

Lemma workspace_no_full_write p roots et es : fs_kind p = Restricted ->
  extends_reads (workspace_entries roots et es) (fs_entries p) -> has_full_disk_write_access p = false.
Proof.
  intros Hk (more & E & Hm). unfold has_full_disk_write_access, has_root_access. rewrite Hk, E, existsb_app.
  assert (Hw : existsb (fun e => is_root (entry_path e) && can_write (entry_access e)) (workspace_entries roots et es) = false).
  { assert (Hroots : existsb (fun e => is_root (entry_path e) && can_write (entry_access e)) (map write_entry roots) = false)
      by (apply existsb_Forall_false, Forall_map, Forall_true; done).
    unfold workspace_entries. rewrite !existsb_app, Hroots. by destruct es, et. }
  rewrite Hw. cbn [orb andb].
  assert (Hmore : existsb (fun e => is_root (entry_path e) && can_write (entry_access e)) more = false).
  { clear E. induction Hm as [|e es' He _ IH]; [done|]. cbn. by rewrite He, andb_false_r. }
  by rewrite Hmore.
Qed.

End legacy.

(** ** Adding roots *)

Section adding.
Context {lib : UrlLib} {laws : UrlLaws} {host : Host}.
Implicit Types (rules : list (abs_path * FileSystemAccessMode)) (x y : abs_path).

Lemma nearest_add_read rules y x : nearest_access rules y = Deny ->
  (nearest_access rules x <> Deny -> nearest_access (rules ++ [(y, Read)]) x = nearest_access rules x)
  /\ (nearest_access (rules ++ [(y, Read)]) x = Write -> nearest_access rules x = Write).
Proof.
  intros Hy. split.
  - intros Hx. destruct (nearest_access_of rules x) as [(z & Hd)|[? _]]; [|done].
    apply (rule_decides_access _ _ z). pose proof Hd as (Hz & Hzx & Hm). split; [apply elem_of_app; by left|]. split; [done|].
    intros z' b [Hz'|Hz']%elem_of_app Hp; [by apply Hm|]. apply list_elem_of_singleton in Hz' as [= -> ->].
    destruct (decide (length y < length z)); [by left|]. exfalso. apply Hx.
    rewrite <- (decides_between rules x y z _ Hd Hp) by lia. done.
  - intros Hx. destruct (nearest_access_of (rules ++ [(y, Read)]) x) as [(z & Hz & Hzx & Hm)|[? _]]; [|congruence].
    rewrite Hx in *. apply elem_of_app in Hz as [Hz|Hz]; [|by apply list_elem_of_singleton in Hz].
    apply (rule_decides_access _ _ z). split; [done|]. split; [done|]. intros z' b Hz'. apply Hm. apply elem_of_app. by left.
Qed.

Lemma nearest_add_write rules y x :
  nearest_access (rules ++ [(y, Write)]) x = Write
  \/ nearest_access (rules ++ [(y, Write)]) x = nearest_access rules x.
Proof.
  destruct (nearest_access_of (rules ++ [(y, Write)]) x) as [(z & Hz & Hzx & Hm)|[E Hn]].
  - apply elem_of_app in Hz as [Hz|Hz]; [right|left; by apply list_elem_of_singleton in Hz as [= _ ?]].
    symmetry. apply (rule_decides_access _ _ z). split; [done|]. split; [done|].
    intros z' b Hz'. apply Hm. apply elem_of_app. by left.
  - right. rewrite E. symmetry. apply access_of_nearest. right. split; [done|]. intros z b Hz. apply (Hn z b).
    apply elem_of_app. by left.
Qed.

Lemma write_roots_app rules more : write_roots (rules ++ more) = write_roots rules ++ write_roots more.
Proof. unfold write_roots. by rewrite List.filter_app, map_app. Qed.

Lemma find_map_app {A B} (f : A -> option B) l l' :
  find_map f (l ++ l') = match find_map f l with Some y => Some y | None => find_map f l' end.
Proof. induction l as [|a l IH]; cbn; [done|]. by destruct (f a). Qed.

Lemma add_write_not_denied rules y x : host_can_write false rules y = false ->
  nearest_access rules x = Write -> host_denial rules x = None -> host_denial (rules ++ [(y, Write)]) x = None.
Proof.
  intros Hy Hx Hnone. destruct (host_denial (rules ++ [(y, Write)]) x) as [n|] eqn:E; [exfalso|done].
  apply host_denial_some in E as (P & Hf & Hn). rewrite write_roots_app, find_map_app in Hf.
  assert (Hold : forall r, (r, Write) ∈ rules -> r `prefix_of` x -> ~ P `prefix_of` r).
  { intros r Hr. apply Hn. apply elem_of_app. by left. }
  destruct (find_map (host_protected x) (write_roots rules)) as [[P' n']|] eqn:Eo.
  - injection Hf as -> ->. unfold host_denial in Hnone. rewrite Eo in Hnone. cbn in Hnone.
    destruct (existsb _ _) eqn:Ee; [|done]. apply existsb_exists in Ee as (r & Hr & Hb).
    apply andb_true_iff in Hb as [H1%bool_decide_eq_true H2%bool_decide_eq_true].
    apply (Hold r); [by apply elem_of_write_roots, list_elem_of_In|done|done].
  - change (write_roots [(y, Write)]) with [y] in Hf. cbn [find_map] in Hf. destruct (host_protected x y) as [[P' n']|] eqn:Ey; [|done]. injection Hf as -> ->.
    apply host_protected_spec in Ey as (Hn' & -> & HP).
    assert (Hyx : y `prefix_of` x) by (etrans; [by apply prefix_app_r|done]).
    destruct (nearest_access_of rules x) as [(z & Hd)|[E _]]; [|congruence]. rewrite Hx in Hd.
    pose proof Hd as (Hz & Hzx & _).
    assert (Hl : length z <= length y).
    { destruct (decide (length z <= length y)); [done|]. exfalso. apply (Hold z Hz Hzx).
      rewrite (prefix_same_length x (y ++ [n]) (take (length (y ++ [n])) z)); [apply prefix_take|done| |].
      - etrans; [apply prefix_take|done].
      - rewrite length_take, length_app. simpl. lia. }
    unfold host_can_write in Hy. rewrite (decides_between rules x y z Write Hd Hyx Hl) in Hy. cbn in Hy.
    apply bool_decide_eq_false in Hy. destruct (host_denial rules y) as [m|] eqn:Ed; [|done].
    apply host_denial_some in Ed as (P & Hf & _). apply find_map_some in Hf as (r & Hr & Hf).
    apply host_protected_spec in Hf as (Hm & -> & HP'). rewrite find_map_none in Eo. specialize (Eo r Hr).
    rewrite (host_protected_intro x r m Hm) in Eo by (by etrans). done.
Qed.

(** *** On policies *)

Context (c : str) (w : abs_path) (Hc : to_absolute c = Some w) (Hw : plain_path w).

(** The shape of a policy the edits keep *)
Definition host_policy (p : FileSystemSandboxPolicy) : Prop := fs_kind p = Restricted /\ plain_policy p.

Definition add_entry (p : FileSystemSandboxPolicy) (y : abs_path) (a : FileSystemAccessMode) : FileSystemSandboxPolicy :=
  with_entries p (fs_entries p ++ [new_entry (FsPath (from_abs_path y)) a]).

Lemma add_entry_host p y a : host_policy p -> plain_path y ->
  host_policy (add_entry p y a) /\ host_rules (add_entry p y a) w = host_rules p w ++ [(y, a)].
Proof.
  intros [Hk Hp] Hy. pose proof (from_abs_path_represents y Hy) as Ry. split.
  - split; [done|]. apply Forall_app. split; [done|]. constructor; [|constructor]. cbn. eauto.
  - unfold host_rules, add_entry. cbn [fs_entries with_entries]. rewrite omap_app. f_equal. cbn -[to_abs_path].
    by rewrite (to_abs_path_represents _ _ Ry).
Qed.

Lemma host_full_write p x : host_policy p -> plain_path x -> has_full_disk_write_access p = true ->
  nearest_access (host_rules p w) x = Write.
Proof.
  intros [Hk Hp] Hx Hf. rewrite <- (resolve_access_host p w x) by done.
  pose proof (from_abs_path_represents w Hw) as Rw.
  rewrite (resolve_access_eq p _ _ (map encode x) (map encode w)), (host_unambiguous p w) by
    (done || (apply represents_view; by apply from_abs_path_represents)).
  apply full_write_rules; [|intros e uri He Ee|done|done].
  - split; [by apply (represents_has_segments _ w)|]. eexists. by apply represents_view.
  - unfold plain_policy in Hp. rewrite Forall_forall in Hp. specialize (Hp e He). unfold plain_entry in Hp. by rewrite Ee in Hp.
Qed.

Lemma host_full_read p x : host_policy p -> plain_path x -> has_full_disk_read_access p = true ->
  can_read (nearest_access (host_rules p w) x) = true.
Proof.
  intros [Hk Hp] Hx Hf. rewrite <- (resolve_access_host p w x) by done.
  pose proof (from_abs_path_represents w Hw) as Rw.
  rewrite (resolve_access_eq p _ _ (map encode x) (map encode w)), (host_unambiguous p w) by
    (done || (apply represents_view; by apply from_abs_path_represents)).
  apply full_read_rules; [|done|done].
  split; [by apply (represents_has_segments _ w)|]. eexists. by apply represents_view.
Qed.

Definition may_write (p : FileSystemSandboxPolicy) x : bool := can_write_path_with_cwd p (abs_text x) c.
Definition may_read (p : FileSystemSandboxPolicy) x : bool := can_read_path_with_cwd p (abs_text x) c.

Lemma may_write_host p x : host_policy p -> plain_path x ->
  may_write p x = host_can_write (has_full_disk_write_access p) (host_rules p w) x.
Proof. intros [Hk Hp] Hx. by apply can_write_with_cwd_host. Qed.

Lemma may_read_host p x : host_policy p -> plain_path x -> may_read p x = can_read (nearest_access (host_rules p w) x).
Proof. intros [Hk Hp] Hx. by apply can_read_with_cwd_host. Qed.

(** One more writable root *)
Lemma add_write_widens p y x : host_policy p -> plain_path y -> plain_path x -> may_write p y = false ->
  (may_write p x = true -> may_write (add_entry p y Write) x = true)
  /\ (may_read p x = true -> may_read (add_entry p y Write) x = true)
  /\ ((y, Deny) ∉ host_rules p w -> may_write (add_entry p y Write) y = true).
Proof.
  intros Hp Hy Hx Hno. destruct (add_entry_host p y Write Hp Hy) as [Hq Hr].
  rewrite !may_write_host, !may_read_host by done. rewrite may_write_host in Hno by done. rewrite Hr.
  destruct (has_full_disk_write_access p) eqn:Hf.
  { unfold host_can_write in Hno. by rewrite (host_full_write p y) in Hno. }
  split; [|split].
  - unfold host_can_write. rewrite !andb_true_iff. cbn [orb]. rewrite bool_decide_eq_true. intros [Hw' Hd].
    assert (Hx' : nearest_access (host_rules p w) x = Write) by (by destruct (nearest_access (host_rules p w) x)).
    assert (Hn : nearest_access (host_rules p w ++ [(y, Write)]) x = Write).
    { destruct (nearest_add_write (host_rules p w) y x) as [->|E]; [done|by rewrite E]. }
    rewrite Hn. split; [done|]. apply orb_true_iff. right. apply bool_decide_eq_true. by apply add_write_not_denied.
  - destruct (nearest_add_write (host_rules p w) y x) as [->|E]; [done|by rewrite E].
  - intros Hnd. unfold host_can_write. rewrite write_rule_not_denied by (apply elem_of_app; right; by left).
    rewrite (bool_decide_true (@None str = None)), orb_true_r, andb_true_r by done.
    assert (Hd : rule_decides (host_rules p w ++ [(y, Write)]) y y Write).
    { split; [apply elem_of_app; right; by left|]. split; [done|]. intros z b Hz Hzp.
      apply prefix_length in Hzp as Hl. destruct (decide (length z = length y)); [right|left; lia].
      assert (z = y) as -> by (by apply (prefix_same_length y)). split; [done|].
      destruct b; simpl; [lia|lia|]. exfalso. apply elem_of_app in Hz as [Hz|Hz]; [done|]. by apply list_elem_of_singleton in Hz. }
    by rewrite (rule_decides_access _ _ _ _ Hd).
Qed.

Lemma existsb_pointwise {A} (f g : A -> bool) l : (forall a, f a = g a) -> existsb f l = existsb g l.
Proof. intros Hfg. induction l as [|a l IH]; cbn; [done|]. by rewrite Hfg, IH. Qed.

Lemma add_read_keeps_full p y : has_full_disk_write_access (add_entry p y Read) = true -> has_full_disk_write_access p = true.
Proof.
  unfold has_full_disk_write_access, has_root_access, has_write_narrowing_entries.
  cbn [fs_kind add_entry with_entries fs_entries]. destruct (fs_kind p); [|done..].
  rewrite !existsb_app. cbn [existsb new_entry entry_path entry_access is_root can_write andb]. rewrite !orb_false_r.
  rewrite !andb_true_iff, !negb_true_iff, orb_false_iff. intros [Hr [Hn _]]. split; [done|].
  rewrite <- Hn. apply existsb_pointwise. intros e. unfold narrows_write.
  assert (Ho : has_same_target_write_override p e = has_same_target_write_override (add_entry p y Read) e).
  { unfold has_same_target_write_override, add_entry. cbn [fs_entries with_entries]. rewrite existsb_app. cbn.
    by rewrite !orb_false_r. }
  unfold add_entry in Ho. by rewrite Ho.
Qed.

(** One more readable root *)
Lemma add_read_widens p y x : host_policy p -> plain_path y -> plain_path x -> may_read p y = false ->
  (may_read p x = true -> may_read (add_entry p y Read) x = true)
  /\ may_write (add_entry p y Read) x = may_write p x
  /\ ((y, Deny) ∉ host_rules p w -> may_read (add_entry p y Read) y = true).
Proof.
  intros Hp Hy Hx Hno. destruct (add_entry_host p y Read Hp Hy) as [Hq Hr].
  rewrite !may_write_host, !may_read_host by done. rewrite may_read_host in Hno by done. rewrite Hr.
  assert (Hyd : nearest_access (host_rules p w) y = Deny) by (by destruct (nearest_access (host_rules p w) y)).
  destruct (has_full_disk_write_access p) eqn:Hf; [by rewrite (host_full_write p y) in Hyd|].
  assert (Hf' : has_full_disk_write_access (add_entry p y Read) = false).
  { apply not_true_iff_false. intros Ht%add_read_keeps_full. congruence. }
  rewrite Hf'. destruct (nearest_add_read (host_rules p w) y x Hyd) as [H1 H2]. split; [|split].
  - intros Hrd. rewrite H1; [done|]. intros E. by rewrite E in Hrd.
  - unfold host_can_write. cbn [orb].
    assert (Hd : host_denial (host_rules p w ++ [(y, Read)]) x = host_denial (host_rules p w) x).
    { unfold host_denial. rewrite write_roots_app. cbn. by rewrite app_nil_r. }
    rewrite Hd. f_equal. destruct (nearest_access (host_rules p w) x) eqn:E.
    + by rewrite H1.
    + by rewrite H1.
    + destruct (nearest_access (host_rules p w ++ [(y, Read)]) x); try done. by specialize (H2 eq_refl).
  - intros Hnd. destruct (nearest_access_of (host_rules p w ++ [(y, Read)]) y) as [(z & Hz & Hzp & Hm)|[_ Hn]].
    + destruct (Hm y Read) as [Hl|[E _]]; [apply elem_of_app; right; by left|done| |].
      * apply prefix_length in Hzp. lia.
      * subst z. destruct (nearest_access (host_rules p w ++ [(y, Read)]) y) eqn:Ea; [done|done|]. exfalso.
        apply elem_of_app in Hz as [Hz|Hz]; [done|]. by apply list_elem_of_singleton in Hz.
    + destruct (Hn y Read); [apply elem_of_app; right; by left|done].
Qed.

End adding.

(** ** Theorems *)

Section theorems.
Context {lib : UrlLib} {laws : UrlLaws} {host : Host}.

(** C31: what the platform sandbox is told to allow is allowed by the policy, links
    included.  Let a path of ordinary names that goes through no link itself be
    admitted by the deepest writable root above it: it is under the root, outside
    its read-only subpaths and its protected metadata names.  The root is the
    location of a writable entry of the policy, possibly reached through a link
    in the root directory (as [/tmp -> /private/tmp]).  Then the policy lets the
    path be written under one of the names of the root (under its own name when
    no link is involved), and the path lies below no entry without write access
    that any name of the root leads to.  This holds for the effective roots and
    for those that preserve mutable components. *)
Theorem writable_roots_sound (p : FileSystemSandboxPolicy) (c : str) (w : abs_path)
    (resolution : WritableRootPathResolution) (x : abs_path) (r : WritableRoot) :
  to_absolute c = Some w -> plain_path w -> plain_policy p -> HostLaws -> located x ->
  r ∈ get_writable_roots_with_cwd_impl p c resolution ->
  (forall r', r' ∈ get_writable_roots_with_cwd_impl p c resolution -> wr_root r' `prefix_of` x ->
     length (wr_root r') <= length (wr_root r)) ->
  is_path_writable r x = true ->
  exists base s,
    x = wr_root r ++ s
    /\ root_name p c resolution (wr_root r) base /\ (real_path base -> base = wr_root r)
    /\ can_write_path_with_cwd p (abs_text (base ++ s)) c = true
    /\ forall name t access, root_name p c resolution (wr_root r) name ->
         (name ++ t, access) ∈ resolved_entries_with_cwd p c -> t <> [] -> can_write access = false ->
         can_write_path_with_cwd p (abs_text (name ++ t)) c = false -> ~ t `prefix_of` s.
Proof.
  intros Hc Hw Hp HL Hx Hr Hdeep Hadm.
  destruct (has_full_disk_write_access p) eqn:Hf.
  { exfalso. unfold get_writable_roots_with_cwd_impl in Hr. rewrite Hf in Hr. by apply elem_of_nil in Hr. }
  assert (Hk : fs_kind p = Restricted).
  { unfold has_full_disk_write_access in Hf. by destruct (fs_kind p). }
  apply (elem_of_writable_roots p c resolution Hf) in Hr as (q & -> & Hq). cbn [wr_root writable_root] in *.
  set (root := resolve_root resolution q) in *.
  assert (Hpr : plain_path root).
  { apply (resolve_plain resolution HL). apply (elem_of_writable_entry_paths p c w) in Hq as [Hq _]; try done.
    by apply (rule_plain p w Hw Hp q Write). }
  assert (Hpre : root `prefix_of` x).
  { unfold is_path_writable in Hadm. destruct (path_starts_with x _) eqn:E; [|done]. by apply bool_decide_eq_true in E. }
  destruct Hpre as [s ->].
  destruct (admitted_writable p c w resolution Hk Hc Hw Hp Hf HL root q s) as (base & Hb & Hcw); try done.
  exists base, s. split; [done|]. split; [done|]. split; [|split].
  - intros Hrb. destruct (root_name_link p c resolution HL root base Hb) as [?|(top & s' & target & -> & Hl & _)]; [done|].
    apply real_path_head in Hrb. congruence.
  - rewrite (can_write_with_cwd_host p c w), Hf; try done. apply Forall_app. split.
    + by apply (root_name_plain p c w resolution Hk Hc Hw Hp Hf root).
    + destruct Hx as [Hx _]. by apply Forall_app in Hx as [_ Hx].
  - intros name t access Hn Hin Hne Ha Hno. rewrite (resolved_with_cwd_host p c w Hc) in Hin.
    rewrite (can_write_with_cwd_host p c w), Hf in Hno; try done; [|by apply (rule_plain p w Hw Hp _ access)].
    by apply (admitted_no_entry p c w resolution Hk Hc Hw Hp Hf HL root name t s access (root ++ s)).
Qed.

(** A legacy policy survives the conversion to the split policy for a working directory and
    back: read-only, full-access and external policies exactly, a workspace policy
    with the working directory dropped from its writable roots and duplicates
    removed. *)
Theorem legacy_round_trip (value : SandboxPolicy) (c : str) (w : abs_path) :
  to_absolute c = Some w ->
  match value with WorkspaceWrite roots _ _ _ => Forall plain_path roots | _ => True end ->
  to_legacy_sandbox_policy (from_legacy_sandbox_policy_for_cwd value c) (network_policy_of value) c
  = Ok match value with
       | WorkspaceWrite roots network exclude_tmpdir exclude_slash_tmp =>
           WorkspaceWrite (dedup_paths (List.filter (fun r => negb (bool_decide (r = w))) roots))
             network exclude_tmpdir exclude_slash_tmp
       | _ => value
       end.
Proof.
  intros Hc Hr. destruct value as [|n|[]|roots n et es]; cbn [from_legacy_sandbox_policy_for_cwd]; [done|by destruct n|done|done|].
  pose proof (legacy_for_cwd_extends roots n et es c) as Hext.
  unfold to_legacy_sandbox_policy. cbn [fs_kind from_legacy_sandbox_policy_for_cwd from_sandbox_policy with_entries workspace_write restricted].
  rewrite Hc. pose proof Hext as (more & E & Hm).
  cbn [from_legacy_sandbox_policy_for_cwd from_sandbox_policy] in E. rewrite Hc in E. rewrite E.
  rewrite legacy_flags_app, legacy_flags_workspace by done. cbn [mbind option_bind].
  rewrite legacy_flags_reads by done.
  assert (Hfull : has_full_disk_write_access (from_legacy_sandbox_policy_for_cwd (WorkspaceWrite roots n et es) c) = false).
  { by apply (workspace_no_full_write _ roots et es). }
  cbn [from_legacy_sandbox_policy_for_cwd from_sandbox_policy] in Hfull. rewrite Hc in Hfull. rewrite Hfull.
  cbn. rewrite !negb_involutive. unfold network_policy_of. cbn. by destruct n.
Qed.

Lemma additional_writable p c w roots : to_absolute c = Some w -> plain_path w -> host_policy p -> Forall plain_path roots ->
  host_policy (with_additional_writable_roots p c roots)
  /\ (forall x, plain_path x -> may_write c p x = true -> may_write c (with_additional_writable_roots p c roots) x = true)
  /\ (forall x, plain_path x -> may_read c p x = true -> may_read c (with_additional_writable_roots p c roots) x = true)
  /\ (forall x, x ∈ roots -> (x, Deny) ∉ host_rules p w -> may_write c (with_additional_writable_roots p c roots) x = true).
Proof.
  intros Hc Hw Hp Hroots. revert p Hp. induction Hroots as [|y roots Hy Hroots IH]; intros p Hp.
  { split; [done|]. split; [done|]. split; [done|]. intros x Hx. by apply elem_of_nil in Hx. }
  unfold with_additional_writable_roots in *. cbn [fold_left]. destruct (can_write_path_with_cwd p (abs_text y) c) eqn:E.
  - destruct (IH p Hp) as (H1 & H2 & H3 & H4). split; [done|]. split; [done|]. split; [done|].
    intros x [->|Hx]%elem_of_cons Hd; [by apply H2|by apply H4].
  - change (with_entries p (fs_entries p ++ [write_entry y])) with (add_entry p y Write).
    destruct (add_entry_host w p y Write Hp Hy) as [Hq Hrules]. destruct (IH _ Hq) as (H1 & H2 & H3 & H4).
    pose proof (fun x Hx => add_write_widens c w Hc Hw p y x Hp Hy Hx E) as Hadd.
    split; [done|]. split; [|split].
    + intros x Hx Hm. apply H2; [done|]. by apply Hadd.
    + intros x Hx Hm. apply H3; [done|]. by apply Hadd.
    + intros x [->|Hx]%elem_of_cons Hd; [apply H2; [done|]; by apply (Hadd y)|]. apply H4; [done|].
      rewrite Hrules. rewrite elem_of_app, list_elem_of_singleton. by intros [?|?].
Qed.

Lemma additional_readable p c w roots : to_absolute c = Some w -> plain_path w -> host_policy p -> Forall plain_path roots ->
  let q := fold_left (fun p path => if can_read_path_with_cwd p (abs_text path) c then p
             else with_entries p (fs_entries p ++ [new_entry (FsPath (from_abs_path path)) Read])) roots p in
  host_policy q
  /\ (forall x, plain_path x -> may_read c p x = true -> may_read c q x = true)
  /\ (forall x, plain_path x -> may_write c q x = may_write c p x)
  /\ (forall x, x ∈ roots -> (x, Deny) ∉ host_rules p w -> may_read c q x = true).
Proof.
  intros Hc Hw Hp Hroots. revert p Hp. induction Hroots as [|y roots Hy Hroots IH]; intros p Hp.
  { split; [done|]. split; [done|]. split; [done|]. intros x Hx. by apply elem_of_nil in Hx. }
  cbn [fold_left]. destruct (can_read_path_with_cwd p (abs_text y) c) eqn:E.
  - destruct (IH p Hp) as (H1 & H2 & H3 & H4). split; [done|]. split; [done|]. split; [done|].
    intros x [->|Hx]%elem_of_cons Hd; [by apply H2|by apply H4].
  - fold (add_entry p y Read). destruct (add_entry_host w p y Read Hp Hy) as [Hq Hrules].
    destruct (IH _ Hq) as (H1 & H2 & H3 & H4).
    pose proof (fun x Hx => add_read_widens c w Hc Hw p y x Hp Hy Hx E) as Hadd.
    split; [done|]. split; [|split].
    + intros x Hx Hm. apply H2; [done|]. by apply Hadd.
    + intros x Hx. rewrite H3 by done. by apply Hadd.
    + intros x [->|Hx]%elem_of_cons Hd; [apply H2; [done|]; by apply (Hadd y)|]. apply H4; [done|].
      rewrite Hrules. rewrite elem_of_app, list_elem_of_singleton. by intros [?|?].
Qed.

(** Adding roots only widens.  With more writable roots every path keeps the access it had and
    each root can be written unless an entry denies exactly it; with more readable
    roots every path that could be read still can, each root can be read unless an
    entry denies exactly it, and no path gains or loses the permission to be
    written. *)
Theorem additional_roots_widen (p : FileSystemSandboxPolicy) (c : str) (w x : abs_path) (roots : list abs_path) :
  to_absolute c = Some w -> plain_path w -> fs_kind p = Restricted -> plain_policy p ->
  Forall plain_path roots -> plain_path x ->
  let writable := with_additional_writable_roots p c roots in
  let readable := with_additional_readable_roots p c roots in
  let not_denied := x ∈ roots /\ (x, Deny) ∉ resolved_entries_with_cwd p c in
  (can_write_path_with_cwd p (abs_text x) c = true -> can_write_path_with_cwd writable (abs_text x) c = true)
  /\ (can_read_path_with_cwd p (abs_text x) c = true -> can_read_path_with_cwd writable (abs_text x) c = true)
  /\ (not_denied -> can_write_path_with_cwd writable (abs_text x) c = true)
  /\ (can_read_path_with_cwd p (abs_text x) c = true -> can_read_path_with_cwd readable (abs_text x) c = true)
  /\ can_write_path_with_cwd readable (abs_text x) c = can_write_path_with_cwd p (abs_text x) c
  /\ (not_denied -> can_read_path_with_cwd readable (abs_text x) c = true).
Proof.
  intros Hc Hw Hk Hp Hroots Hx writable readable not_denied.
  assert (Hh : host_policy p) by done. unfold not_denied. rewrite (resolved_with_cwd_host p c w Hc).
  destruct (additional_writable p c w roots Hc Hw Hh Hroots) as (_ & W1 & W2 & W3).
  split; [by apply W1|]. split; [by apply W2|]. split; [intros [? ?]; by apply W3|].
  unfold readable, with_additional_readable_roots. destruct (has_full_disk_read_access p) eqn:Hf.
  - split; [done|]. split; [done|]. intros _. rewrite (can_read_with_cwd_host p c w x) by done. by apply host_full_read.
  - destruct (additional_readable p c w roots Hc Hw Hh Hroots) as (_ & R1 & R2 & R3).
    split; [by apply R1|]. split; [by apply R2|]. intros [? ?]; by apply R3.
Qed.

Lemma materialized_rules c w entries : to_absolute c = Some w -> plain_path w -> Forall plain_entry entries ->
  Forall plain_entry (map (materialize_entry_with_cwd (Some w)) entries)
  /\ omap (fun e => option_map (fun path => (path, entry_access e)) (resolve_entry_path (entry_path e) (Some w)))
       (map (materialize_entry_with_cwd (Some w)) entries)
     = omap (fun e => option_map (fun path => (path, entry_access e)) (resolve_entry_path (entry_path e) (Some w))) entries.
Proof.
  intros Hc Hw Hes. induction Hes as [|e es He _ [IH1 IH2]]; [done|]. cbn [map omap list_omap]. rewrite IH2.
  assert (Hone : plain_entry (materialize_entry_with_cwd (Some w) e)
    /\ resolve_entry_path (entry_path (materialize_entry_with_cwd (Some w) e)) (Some w) = resolve_entry_path (entry_path e) (Some w)
    /\ entry_access (materialize_entry_with_cwd (Some w) e) = entry_access e).
  { unfold materialize_entry_with_cwd, plain_entry in *. destruct (entry_path e) as [u|g|[| |sp| | |]] eqn:Ep;
      cbn [entry_path set_path entry_access resolve_file_system_path]; rewrite ?Ep; try done.
    - destruct (parse_project_roots_glob_pattern g); cbn [entry_path set_path entry_access]; by rewrite ?Ep.
    - cbn [resolve_file_system_special_path mbind option_bind entry_path set_path entry_access].
      assert (Hq : plain_path (match sp with Some t => resolve_path_against_base t w | None => w end)).
      { destruct sp as [t|]; [|done]. rewrite resolve_subpath by done. by apply normalize_plain; [|apply He]. }
      pose proof (from_abs_path_represents _ Hq) as Rq. split; [eauto|]. split; [|done].
      cbn -[to_abs_path from_abs_path]. by rewrite (to_abs_path_represents _ _ Rq). }
  destruct Hone as (H1 & H2 & H3). split; [by constructor|]. by rewrite H2, H3.
Qed.

(** Replacing the symbolic workspace entries of a policy by absolute paths for the current
    directory leaves the access of every path as it was. *)
Theorem materialize_keeps_access (p : FileSystemSandboxPolicy) (c : str) (w x : abs_path) :
  to_absolute c = Some w -> plain_path w -> plain_policy p -> plain_path x ->
  resolve_access_with_cwd (materialize_project_roots_with_cwd p c) (abs_text x) c = resolve_access_with_cwd p (abs_text x) c.
Proof.
  intros Hc Hw Hp Hx. unfold resolve_access_with_cwd. rewrite !(with_cwd_host _ c w x) by done. cbn.
  destruct (fs_kind p) eqn:Hk.
  2,3: unfold resolve_access, materialize_project_roots_with_cwd; cbn; by rewrite Hk.
  unfold materialize_project_roots_with_cwd. rewrite Hc.
  destruct (materialized_rules c w (fs_entries p) Hc Hw Hp) as [H1 H2].
  rewrite !resolve_access_host by done. unfold host_rules. cbn [fs_entries with_entries]. by rewrite H2.
Qed.

End theorems.

(** ** A host, and two policies on it *)

(** A host whose files are ordinary: [/tmp] is its only known directory. *)
Definition example_host : Host := {|
  home_dir := Some (lit "/home/u");
  current_dir := Some (lit "/w");
  tmpdir_var := None;
  path_is_dir := fun p => bool_decide (p = [lit "tmp"]);
  path_is_file := fun _ => false;
  path_exists := fun _ => false;
  read_to_string := fun _ => None;
  symlink_metadata := fun _ => Some false;
  canonicalize := fun p => Some p;
|}.

(** The same host with [/tmp] a link to [/private/tmp]. *)
Definition alias_host : Host := {|
  home_dir := Some (lit "/home/u");
  current_dir := Some (lit "/w");
  tmpdir_var := None;
  path_is_dir := fun _ => false;
  path_is_file := fun _ => false;
  path_exists := fun _ => false;
  read_to_string := fun _ => None;
  symlink_metadata := fun p => Some (bool_decide (p = [lit "tmp"]));
  canonicalize := fun p =>
    Some (match p with
          | top :: s => if bool_decide (top = lit "tmp") then [lit "private"; lit "tmp"] ++ s else p
          | [] => p
          end);
|}.

Lemma alias_top_link top : @top_link alias_host top = if bool_decide (top = lit "tmp") then Some [lit "private"; lit "tmp"] else None.
Proof.
  unfold top_link. cbn [symlink_metadata alias_host canonicalize]. case_bool_decide as E1.
  - injection E1 as E1. apply bool_decide_eq_true in E1. injection E1 as ->. by rewrite bool_decide_true.
  - rewrite bool_decide_false; [done|]. intros ->. by apply E1.
Qed.

Lemma alias_host_laws : @HostLaws alias_host.
Proof.
  split.
  - intros [|top s] real; cbn [canonicalize alias_host alias]; [by intros [= <-]|]. rewrite alias_top_link.
    case_bool_decide; by intros [= <-].
  - intros q _ _. by left.
  - intros top target s. rewrite alias_top_link. case_bool_decide as E; [|done]. intros [= <-] Hs. subst top.
    cbn [symlink_metadata alias_host]. rewrite !bool_decide_false; [done|done|]. by intros [= ->].
  - intros top target. rewrite alias_top_link. case_bool_decide as E; [|done]. intros [= <-]. split; [done|].
    split; [by repeat constructor|]. intros y Hy. cbn [symlink_metadata alias_host]. intros [= Ht].
    apply bool_decide_eq_true in Ht as ->. by apply prefix_cons_inv_1 in Hy.
Qed.

Section examples.
Local Notation lib := Percent.percent_lib.
Local Notation host := example_host.

Definition ex_worktree : abs_path := [lit "w"; lit ".codex"; lit "wt"].

(** Whether the metadata of a nested writable root is protected depends on the order of the
    entries: the protection looks at the first writable root with a protected
    name above the path, and gives up when another writable root lies inside
    that name. *)
Theorem metadata_protection_depends_on_order :
  let path := abs_text (ex_worktree ++ [lit ".git"; lit "config"]) in
  @can_write_path_with_cwd lib host (ex_policy [ex_worktree; ex_w]) path (lit "/w") = false
  /\ @can_write_path_with_cwd lib host (ex_policy [ex_w; ex_worktree]) path (lit "/w") = true.
Proof. split; vm_compute; reflexivity. Qed.

(** With nested writable roots the outer root admits the metadata of the inner one, which the
    policy does not let be written. *)
Theorem outer_root_admits_inner_metadata :
  let p := ex_policy [ex_w; ex_sub] in
  let path := ex_sub ++ [lit ".git"; lit "config"] in
  map (fun r => (wr_root r, is_path_writable r path)) (@get_writable_roots_with_cwd lib host p (lit "/w"))
  = [(ex_w, true); (ex_sub, false)]
  /\ @can_write_path_with_cwd lib host p (abs_text path) (lit "/w") = false.
Proof. split; vm_compute; reflexivity. Qed.

Lemma ex_policy_plain roots : Forall plain_path roots -> @plain_policy lib host (ex_policy roots).
Proof.
  intros Hr. constructor; [done|]. apply Forall_map. eapply Forall_impl; [exact Hr|]. intros r Hp. cbn.
  exists r. by apply (@from_abs_path_represents lib Percent.percent_laws).
Qed.

(** Writes below [/tmp/w], except for one directory. *)
Definition tmp_w : abs_path := [lit "tmp"; lit "w"].
Definition private_w : abs_path := [lit "private"; lit "tmp"; lit "w"].
Definition tmp_policy (denied : str) : FileSystemSandboxPolicy :=
  restricted [new_entry (FsPath (@from_abs_path lib tmp_w)) Write; new_entry (FsPath (@from_abs_path lib (tmp_w ++ [denied]))) Deny].
Definition tmp_root (denied : str) : WritableRoot := @writable_root lib alias_host (tmp_policy denied) (lit "/w") Effective private_w.

Lemma tmp_policy_plain denied : plain_name denied = true -> @plain_policy lib alias_host (tmp_policy denied).
Proof.
  intros Hd. repeat constructor; unfold plain_entry; cbn [entry_path new_entry].
  - exists tmp_w. apply (@from_abs_path_represents lib Percent.percent_laws). by repeat constructor.
  - exists (tmp_w ++ [denied]). apply (@from_abs_path_represents lib Percent.percent_laws). by repeat constructor.
Qed.

Lemma writable_roots_sound_witness :
  wr_root (tmp_root (lit "secret")) = private_w
  /\ is_path_writable (tmp_root (lit "secret")) (private_w ++ [lit "secret"; lit "key"]) = false
  /\ exists base s, private_w ++ [lit "a"] = private_w ++ s
     /\ @can_write_path_with_cwd lib alias_host (tmp_policy (lit "secret")) (abs_text (base ++ s)) (lit "/w") = true.
Proof.
  split; [reflexivity|]. split; [vm_compute; reflexivity|].
  assert (Hroots : @get_writable_roots_with_cwd_impl lib alias_host (tmp_policy (lit "secret")) (lit "/w") Effective = [tmp_root (lit "secret")])
    by (vm_compute; reflexivity).
  destruct (@writable_roots_sound lib Percent.percent_laws alias_host (tmp_policy (lit "secret")) (lit "/w") ex_w Effective
              (private_w ++ [lit "a"]) (tmp_root (lit "secret"))) as (base & s & Hs & _ & _ & Hcw & _).
  - reflexivity.
  - by repeat constructor.
  - by apply tmp_policy_plain.
  - exact alias_host_laws.
  - split; [by repeat constructor|]. split; [|by repeat constructor]. intros y Hy. cbn [symlink_metadata alias_host].
    intros [= Ht]. apply bool_decide_eq_true in Ht as ->. by apply prefix_cons_inv_1 in Hy.
  - rewrite Hroots. by left.
  - intros r'. rewrite Hroots. intros ->%list_elem_of_singleton _. done.
  - vm_compute. reflexivity.
  - exists base, s. exact (conj Hs Hcw).
Defined.

(** The carveout of an entry below another name of its root is joined with
    [AbsolutePathBuf::join], which expands [~]: a denied directory of that name is
    left writable, and the home directory is listed instead. *)
Theorem tilde_carveout_lost :
  @can_write_path_with_cwd lib alias_host (tmp_policy (lit "~")) (lit "/tmp/w/~/key") (lit "/w") = false
  /\ read_only_subpaths (tmp_root (lit "~")) = [[lit "home"; lit "u"]]
  /\ is_path_writable (tmp_root (lit "~")) (private_w ++ [lit "~"; lit "key"]) = true.
Proof. repeat split; vm_compute; reflexivity. Qed.

Lemma legacy_round_trip_witness :
  @to_legacy_sandbox_policy lib host
    (@from_legacy_sandbox_policy_for_cwd lib host (WorkspaceWrite [ex_sub; ex_w; ex_sub] true false true) (lit "/w"))
    NetworkEnabled (lit "/w")
  = Ok (WorkspaceWrite [ex_sub] true false true).
Proof.
  apply (@legacy_round_trip lib Percent.percent_laws host (WorkspaceWrite [ex_sub; ex_w; ex_sub] true false true) (lit "/w") ex_w);
    [reflexivity|by repeat constructor].
Defined.

Lemma additional_roots_widen_witness :
  @can_write_path_with_cwd lib host
    (@with_additional_writable_roots lib host (ex_policy []) (lit "/w") [ex_sub]) (abs_text ex_sub) (lit "/w") = true.
Proof.
  apply (@additional_roots_widen lib Percent.percent_laws host (ex_policy []) (lit "/w") ex_w ex_sub [ex_sub]);
    [reflexivity|by repeat constructor|reflexivity|apply ex_policy_plain; constructor|by repeat constructor|by repeat constructor|].
  split; [by left|]. vm_compute. intros H. inversion H as [? ? E|? ? ? Hin]. inversion Hin.
Defined.

Lemma materialize_keeps_access_witness :
  @resolve_access_with_cwd lib host
    (@materialize_project_roots_with_cwd lib host (restricted [new_entry (Special (ProjectRoots None)) Write]) (lit "/w"))
    (abs_text ex_sub) (lit "/w") = Write.
Proof.
  rewrite (@materialize_keeps_access lib Percent.percent_laws host (restricted [new_entry (Special (ProjectRoots None)) Write])
             (lit "/w") ex_w ex_sub); [vm_compute; reflexivity|reflexivity|by repeat constructor| |by repeat constructor].
  constructor; [done|constructor].
Defined.

End examples.
