(* ===== verification/ExecPolicy.v ===== *)
(** * execpolicy: command and network rules

    [decision.rs], [error.rs], [rule.rs], [executable_name.rs] (not Windows)
    and [policy.rs].  A [RuleRef] is a [PrefixRule], the only implementation
    of the trait [Rule].  A [MultiMap] is a finite map to non-empty rule lists
    in insertion order; the order in which its keys are visited never shows in
    a result.  The parser of policy files (Starlark) is not modelled. *)

From S2P Require Import Prelude RustStr AbsolutePath.

(** ** decision.rs and error.rs *)

Inductive Decision := Allow | Prompt | Forbidden.

#[export] Instance Decision_eq_dec : EqDecision Decision.
Proof. solve_decision. Defined.

(** The derived order. *)
Definition decision_rank (d : Decision) : nat :=
  match d with Allow => 0 | Prompt => 1 | Forbidden => 2 end.
Definition decision_max (a b : Decision) : Decision :=
  if decision_rank b <=? decision_rank a then a else b.

Record TextPosition := mkPos { pos_line : nat; pos_column : nat }.
Record TextRange := mkRange { range_start : TextPosition; range_end : TextPosition }.
Record ErrorLocation := mkLoc { loc_path : str; loc_range : TextRange }.

Inductive Error :=
| InvalidDecision (s : str)
| InvalidPattern (s : str)
| InvalidExample (s : str)
| InvalidRule (s : str)
| ExampleDidNotMatch (rules examples : list str) (location : option ErrorLocation)
| ExampleDidMatch (rule example : str) (location : option ErrorLocation)
| Starlark (location : option ErrorLocation).

Definition with_location (e : Error) (l : ErrorLocation) : Error :=
  match e with
  | ExampleDidNotMatch rules examples None => ExampleDidNotMatch rules examples (Some l)
  | ExampleDidMatch rule example None => ExampleDidMatch rule example (Some l)
  | other => other
  end.

Definition decision_parse (raw : str) : result Decision Error :=
  if str_eqb raw (lit "allow") then Ok Allow
  else if str_eqb raw (lit "prompt") then Ok Prompt
  else if str_eqb raw (lit "forbidden") then Ok Forbidden
  else Err (InvalidDecision raw).

(** ** rule.rs *)

Inductive PatternToken :=
| Single (expected : str)
| Alts (alternatives : list str).

Definition token_matches (t : PatternToken) (token : str) : bool :=
  match t with
  | Single expected => str_eqb expected token
  | Alts alternatives => existsb (fun alt => str_eqb alt token) alternatives
  end.

Record PrefixPattern := mkPattern { first : str; rest : list PatternToken }.

(** The loop over [self.rest.iter().zip(&cmd[1..pattern_length])]. *)
Fixpoint tokens_match (ts : list PatternToken) (cmd : list str) : bool :=
  match ts, cmd with
  | t :: ts', w :: cmd' => if token_matches t w then tokens_match ts' cmd' else false
  | _, _ => true
  end.

Definition matches_prefix (p : PrefixPattern) (cmd : list str) : option (list str) :=
  let pattern_length := length (rest p) + 1 in
  match cmd with
  | [] => None
  | c0 :: cmd' =>
      if (length cmd <? pattern_length) || negb (str_eqb c0 (first p)) then None
      else if tokens_match (rest p) (take (length (rest p)) cmd') then Some (take pattern_length cmd)
      else None
  end.

Inductive RuleMatch :=
| PrefixRuleMatch (matched_prefix : list str) (decision : Decision)
    (resolved_program : option abs_path) (justification : option str)
| HeuristicsRuleMatch (command : list str) (decision : Decision).

Definition rule_match_decision (m : RuleMatch) : Decision :=
  match m with
  | PrefixRuleMatch _ d _ _ => d
  | HeuristicsRuleMatch _ d => d
  end.

Definition with_resolved_program (m : RuleMatch) (program : abs_path) : RuleMatch :=
  match m with
  | PrefixRuleMatch p d _ j => PrefixRuleMatch p d (Some program) j
  | other => other
  end.

Record PrefixRule := mkRule {
  pattern : PrefixPattern;
  rule_decision : Decision;
  rule_justification : option str;
}.

Definition rule_matches (r : PrefixRule) (cmd : list str) : option RuleMatch :=
  match matches_prefix (pattern r) cmd with
  | Some matched_prefix =>
      Some (PrefixRuleMatch matched_prefix (rule_decision r) None (rule_justification r))
  | None => None
  end.

Inductive NetworkRuleProtocol := Http | Https | Socks5Tcp | Socks5Udp.

Definition protocol_parse (raw : str) : result NetworkRuleProtocol Error :=
  if str_eqb raw (lit "http") then Ok Http
  else if str_eqb raw (lit "https") || str_eqb raw (lit "https_connect")
          || str_eqb raw (lit "http-connect") then Ok Https
  else if str_eqb raw (lit "socks5_tcp") then Ok Socks5Tcp
  else if str_eqb raw (lit "socks5_udp") then Ok Socks5Udp
  else Err (InvalidRule
         (lit "network_rule protocol must be one of http, https, socks5_tcp, socks5_udp (got "
            ++ raw ++ lit ")")).

Definition as_policy_string (p : NetworkRuleProtocol) : str :=
  match p with
  | Http => lit "http"
  | Https => lit "https"
  | Socks5Tcp => lit "socks5_tcp"
  | Socks5Udp => lit "socks5_udp"
  end.

Record NetworkRule := mkNetworkRule {
  host : str;
  protocol : NetworkRuleProtocol;
  net_decision : Decision;
  net_justification : option str;
}.

Definition ch_colon : char := 58%N.
Definition ch_rbracket : char := 93%N.

Definition is_port (port : str) : bool :=
  negb (bool_decide (port = [])) && forallb is_ascii_digit port.

(** The host without brackets and port. *)
Definition strip_port (raw host : str) : result str Error :=
  match strip_prefix (lit "[") host with
  | Some stripped =>
      match split_once ch_rbracket stripped with
      | None => Err (InvalidRule (lit "network_rule host has an invalid bracketed IPv6 literal"))
      | Some (inside, rest) =>
          let port_ok := is_some_and is_port (strip_prefix [ch_colon] rest) in
          if negb (bool_decide (rest = [])) && negb port_ok
          then Err (InvalidRule (lit "network_rule host contains an unsupported suffix: " ++ raw))
          else Ok inside
      end
  | None =>
      if length (List.filter (N.eqb ch_colon) host) =? 1 then
        match rsplit_once ch_colon host with
        | Some (candidate, port) =>
            if negb (bool_decide (candidate = [])) && is_port port then Ok candidate else Ok host
        | None => Ok host
        end
      else Ok host
  end.

Definition normalize_network_rule_host (raw : str) : result str Error :=
  let host := trim raw in
  if bool_decide (host = []) then Err (InvalidRule (lit "network_rule host cannot be empty"))
  else if contains (lit "://") host || contains_char ch_slash host || contains_char 63%N host
          || contains_char 35%N host
  then Err (InvalidRule
         (lit "network_rule host must be a hostname or IP literal (without scheme or path)"))
  else
    let? host := strip_port raw host in
    let normalized := to_ascii_lowercase (trim (drop_while_end (N.eqb ch_dot) host)) in
    if bool_decide (normalized = [])
    then Err (InvalidRule (lit "network_rule host cannot be empty"))
    else if contains_char 42%N normalized
    then Err (InvalidRule
           (lit "network_rule host must be a specific host; wildcards are not allowed"))
    else if existsb is_whitespace normalized
    then Err (InvalidRule (lit "network_rule host cannot contain whitespace"))
    else Ok normalized.

(** ** policy.rs *)

Record MatchOptions := mkOptions { resolve_host_executables : bool }.
Definition default_match_options : MatchOptions := mkOptions false.

Record Policy := mkPolicy {
  rules_by_program : gmap str (list PrefixRule);
  network_rules : list NetworkRule;
  host_executables_by_name : gmap str (list abs_path);
}.

Definition policy_new (rules : gmap str (list PrefixRule)) : Policy := mkPolicy rules [] ∅.
Definition policy_empty : Policy := policy_new ∅.

(** [MultiMap::insert] *)
Definition multimap_insert (k : str) (r : PrefixRule) (m : gmap str (list PrefixRule))
    : gmap str (list PrefixRule) :=
  <[k := default [] (m !! k) ++ [r]]> m.

Definition add_prefix_rule (p : Policy) (prefix : list str) (decision : Decision)
    : result Policy Error :=
  match prefix with
  | [] => Err (InvalidPattern (lit "prefix cannot be empty"))
  | first_token :: rest =>
      let rule := mkRule (mkPattern first_token (map Single rest)) decision None in
      Ok (mkPolicy (multimap_insert first_token rule (rules_by_program p)) (network_rules p)
            (host_executables_by_name p))
  end.

Definition add_network_rule (p : Policy) (raw_host : str) (proto : NetworkRuleProtocol)
    (decision : Decision) (justification : option str) : result Policy Error :=
  let? h := normalize_network_rule_host raw_host in
  if is_some_and (fun raw => bool_decide (trim raw = [])) justification
  then Err (InvalidRule (lit "justification cannot be empty"))
  else Ok (mkPolicy (rules_by_program p)
             (network_rules p ++ [mkNetworkRule h proto decision justification])
             (host_executables_by_name p)).

Definition set_host_executable_paths (p : Policy) (name : str) (paths : list abs_path) : Policy :=
  mkPolicy (rules_by_program p) (network_rules p) (<[name := paths]> (host_executables_by_name p)).

(** Rules of the overlay are appended per program, its host entries win. *)
Definition merge_overlay (p overlay : Policy) : Policy :=
  mkPolicy (union_with (fun a b => Some (a ++ b)) (rules_by_program p) (rules_by_program overlay))
    (network_rules p ++ network_rules overlay)
    (host_executables_by_name overlay ∪ host_executables_by_name p).

Definition retain_ne (h : str) (entries : list str) : list str :=
  List.filter (fun entry => negb (str_eqb entry h)) entries.

Definition upsert_domain (entries : list str) (h : str) : list str := retain_ne h entries ++ [h].

(** The body of the loop of [compiled_network_domains]. *)
Definition compile_domain (acc : list str * list str) (r : NetworkRule) : list str * list str :=
  let '(allowed, denied) := acc in
  match net_decision r with
  | Allow => (upsert_domain allowed (host r), retain_ne (host r) denied)
  | Forbidden => (retain_ne (host r) allowed, upsert_domain denied (host r))
  | Prompt => (allowed, denied)
  end.

Definition compiled_network_domains (p : Policy) : list str * list str :=
  fold_left compile_domain (network_rules p) ([], []).

Definition executable_lookup_key (raw : str) : str := raw.

Definition executable_path_lookup_key (p : abs_path) : option str :=
  option_map executable_lookup_key (file_name p).

Record Evaluation := mkEvaluation {
  decision : Decision;
  matched_rules : list RuleMatch;
}.

Definition is_match (e : Evaluation) : bool :=
  existsb (fun m => match m with HeuristicsRuleMatch _ _ => false | _ => true end)
    (matched_rules e).

(** [Evaluation::from_matches]: panics on an empty list. *)
Definition from_matches (ms : list RuleMatch) : option Evaluation :=
  match map rule_match_decision ms with
  | [] => None
  | d :: ds => Some (mkEvaluation (fold_left decision_max ds d) ms)
  end.

Section matching.
(** The environment of [AbsolutePathBuf::try_from]. *)
Context (home_dir current_dir : option str).

Definition match_exact_rules (p : Policy) (cmd : list str) : option (list RuleMatch) :=
  match cmd with
  | [] => None
  | first :: _ =>
      Some (match rules_by_program p !! first with
            | Some rules => omap (fun r => rule_matches r cmd) rules
            | None => []
            end)
  end.

Definition match_host_executable_rules (p : Policy) (cmd : list str) : list RuleMatch :=
  match cmd with
  | [] => []
  | first :: args =>
      match from_absolute_path home_dir current_dir first with
      | None => []
      | Some program =>
          match executable_path_lookup_key program with
          | None => []
          | Some basename =>
              match rules_by_program p !! basename with
              | None => []
              | Some rules =>
                  if is_some_and (fun paths => negb (existsb (fun q => bool_decide (q = program)) paths))
                       (host_executables_by_name p !! basename)
                  then []
                  else map (fun m => with_resolved_program m program)
                         (omap (fun r => rule_matches r (basename :: args)) rules)
              end
          end
      end
  end.

Definition matches_for_command_with_options (p : Policy) (cmd : list str)
    (heuristics_fallback : option (list str -> Decision)) (options : MatchOptions)
    : list RuleMatch :=
  let matched :=
    match match_exact_rules p cmd with
    | Some (m :: ms) => m :: ms
    | _ => if resolve_host_executables options then match_host_executable_rules p cmd else []
    end in
  match matched, heuristics_fallback with
  | [], Some f => [HeuristicsRuleMatch cmd (f cmd)]
  | _, _ => matched
  end.

Definition matches_for_command (p : Policy) (cmd : list str)
    (heuristics_fallback : option (list str -> Decision)) : list RuleMatch :=
  matches_for_command_with_options p cmd heuristics_fallback default_match_options.

Definition check_with_options (p : Policy) (cmd : list str) (heuristics : list str -> Decision)
    (options : MatchOptions) : option Evaluation :=
  from_matches (matches_for_command_with_options p cmd (Some heuristics) options).

Definition check (p : Policy) (cmd : list str) (heuristics : list str -> Decision)
    : option Evaluation :=
  check_with_options p cmd heuristics default_match_options.

Definition check_multiple_with_options (p : Policy) (commands : list (list str))
    (heuristics : list str -> Decision) (options : MatchOptions) : option Evaluation :=
  from_matches (flat_map (fun c => matches_for_command_with_options p c (Some heuristics) options)
                  commands).

Definition check_multiple (p : Policy) (commands : list (list str))
    (heuristics : list str -> Decision) : option Evaluation :=
  check_multiple_with_options p commands heuristics default_match_options.

(** ** Examples of a policy (rule.rs) *)

(** Debug rendering of rules and matches and the [shlex] quoting of a command
    only appear in messages. *)
Context (render_rule : PrefixRule -> str) (render_match : RuleMatch -> str)
        (try_join : list str -> option str).

Definition render_example (example : list str) : str :=
  default (lit "unable to render example") (try_join example).

Definition validate_match_examples (p : Policy) (rules : list PrefixRule)
    (examples : list (list str)) : result unit Error :=
  let unmatched :=
    map render_example
      (List.filter (fun e => match matches_for_command_with_options p e None (mkOptions true) with
                             | [] => true
                             | _ => false
                             end) examples) in
  match unmatched with
  | [] => Ok tt
  | _ => Err (ExampleDidNotMatch (map render_rule rules) unmatched None)
  end.

Fixpoint validate_not_match_examples (p : Policy) (not_matches : list (list str))
    : result unit Error :=
  match not_matches with
  | [] => Ok tt
  | e :: es =>
      match matches_for_command_with_options p e None (mkOptions true) with
      | m :: _ => Err (ExampleDidMatch (render_match m) (render_example e) None)
      | [] => validate_not_match_examples p es
      end
  end.

End matching.

(** ** Prefix patterns *)

Definition alternatives (t : PatternToken) : list str :=
  match t with Single expected => [expected] | Alts alts => alts end.

(** A rule applies to the commands that start with its program and one
    alternative per token. *)
Definition applies (r : PrefixRule) (cmd : list str) : Prop :=
  exists ws tail, cmd = first (pattern r) :: ws ++ tail
    /\ Forall2 (fun t w => w ∈ alternatives t) (rest (pattern r)) ws.

Lemma token_matches_spec t w : token_matches t w = true <-> w ∈ alternatives t.
Proof.
  destruct t as [e|alts]; simpl.
  - rewrite str_eqb_eq, list_elem_of_singleton. naive_solver.
  - rewrite existsb_exists. setoid_rewrite str_eqb_eq. rewrite list_elem_of_In. naive_solver.
Qed.

Lemma tokens_match_spec ts ws : length ws = length ts ->
  tokens_match ts ws = true <-> Forall2 (fun t w => w ∈ alternatives t) ts ws.
Proof.
  revert ws; induction ts as [|t ts IH]; intros [|w ws] Hl; simplify_eq/=; [done|].
  rewrite Forall2_cons, <- token_matches_spec, <- IH by done.
  destruct (token_matches t w); naive_solver.
Qed.

Lemma matches_prefix_spec p cmd pre :
  matches_prefix p cmd = Some pre <->
  exists ws tail, cmd = first p :: ws ++ tail /\ pre = first p :: ws
    /\ Forall2 (fun t w => w ∈ alternatives t) (rest p) ws.
Proof.
  unfold matches_prefix. destruct cmd as [|c0 cmd]; [naive_solver|].
  rewrite Nat.add_1_r. cbn [length take].
  destruct (Nat.ltb_spec (S (length cmd)) (S (length (rest p)))) as [Hlt|Hge]; simpl.
  { split; [done|]. intros (ws & tail & ? & _ & H); simplify_eq.
    apply Forall2_length in H. rewrite length_app in Hlt. lia. }
  destruct (str_eqb c0 (first p)) eqn:E; simpl.
  2:{ split; [done|]. intros (ws & tail & ? & _ & _); simplify_eq. by rewrite str_eqb_refl in E. }
  apply str_eqb_eq in E as ->.
  assert (Hlen : length (take (length (rest p)) cmd) = length (rest p)) by (rewrite length_take; lia).
  destruct (tokens_match (rest p) (take (length (rest p)) cmd)) eqn:E.
  - apply tokens_match_spec in E; [|done]. split.
    + intros; simplify_eq. eexists _, (drop (length (rest p)) cmd). by rewrite take_drop.
    + intros (ws & tail & ? & -> & H); simplify_eq. apply Forall2_length in H.
      by rewrite H, take_app_length.
  - split; [done|]. intros (ws & tail & ? & _ & H); simplify_eq.
    pose proof (Forall2_length _ _ _ H) as Hl. rewrite Hl, take_app_length in E.
    apply not_true_iff_false in E. exfalso. apply E. by apply tokens_match_spec.
Qed.

Lemma rule_matches_applies r cmd : is_Some (rule_matches r cmd) <-> applies r cmd.
Proof.
  unfold rule_matches, applies. destruct (matches_prefix (pattern r) cmd) as [pre|] eqn:E.
  - apply matches_prefix_spec in E. naive_solver.
  - split; [by intros []|]. intros (ws & tail & H1 & H2).
    assert (matches_prefix (pattern r) cmd = Some (first (pattern r) :: ws)); [|congruence].
    apply matches_prefix_spec. eauto.
Qed.

Lemma rule_matches_decision r cmd m :
  rule_matches r cmd = Some m -> rule_match_decision m = rule_decision r.
Proof. unfold rule_matches. case_match; naive_solver. Qed.

(** ** Decisions *)

Lemma decision_max_rank a b :
  decision_rank (decision_max a b) = Nat.max (decision_rank a) (decision_rank b).
Proof. by destruct a, b. Qed.

Lemma decision_max_choice a b : decision_max a b = a \/ decision_max a b = b.
Proof. destruct a, b; auto. Qed.

Lemma fold_max_spec ds d :
  let m := fold_left decision_max ds d in
  m ∈ d :: ds /\ Forall (fun x => decision_rank x <= decision_rank m) (d :: ds).
Proof.
  revert d; induction ds as [|x ds IH]; intros d; cbn [fold_left].
  - split; [set_solver|]. by apply Forall_singleton.
  - destruct (IH (decision_max d x)) as [H1 H2]. apply Forall_cons in H2 as [H2 H3].
    rewrite decision_max_rank in H2. split.
    + rewrite !elem_of_cons in *. destruct (decision_max_choice d x) as [E|E]; rewrite E in *;
        naive_solver.
    + rewrite !Forall_cons. split_and!; [lia|lia|done].
Qed.

Lemma from_matches_spec ms : ms <> [] ->
  exists d, from_matches ms = Some (mkEvaluation d ms)
    /\ (exists m, m ∈ ms /\ rule_match_decision m = d)
    /\ forall m, m ∈ ms -> decision_rank (rule_match_decision m) <= decision_rank d.
Proof.
  intros Hne. unfold from_matches. destruct ms as [|m ms]; [done|]. simpl.
  destruct (fold_max_spec (map rule_match_decision ms) (rule_match_decision m)) as [H1 H2].
  eexists. split; [done|]. change (rule_match_decision m :: map rule_match_decision ms)
    with (map rule_match_decision (m :: ms)) in *. split.
  - apply list_elem_of_In, in_map_iff in H1 as (x & Hx & Hin). exists x.
    split; [by apply list_elem_of_In|done].
  - rewrite Forall_forall in H2. intros x Hx. apply H2. apply list_elem_of_In, in_map.
    by apply list_elem_of_In.
Qed.

(** The rules keyed by the program of a command. *)
Definition program_rules (p : Policy) (cmd : list str) : list PrefixRule :=
  match cmd with [] => [] | c :: _ => default [] (rules_by_program p !! c) end.

Definition exact_matches (p : Policy) (cmd : list str) : list RuleMatch :=
  omap (fun r => rule_matches r cmd) (program_rules p cmd).

Lemma match_exact_rules_eq p cmd : default [] (match_exact_rules p cmd) = exact_matches p cmd.
Proof.
  unfold match_exact_rules, exact_matches, program_rules. destruct cmd as [|c cmd]; [done|]. simpl.
  by destruct (rules_by_program p !! c).
Qed.

Lemma exact_matches_elem p cmd m :
  m ∈ exact_matches p cmd <-> exists r, r ∈ program_rules p cmd /\ rule_matches r cmd = Some m.
Proof. unfold exact_matches. by rewrite list_elem_of_omap. Qed.

Lemma exact_matches_applies p cmd r :
  r ∈ program_rules p cmd -> applies r cmd ->
  exists m, m ∈ exact_matches p cmd /\ rule_match_decision m = rule_decision r.
Proof.
  intros Hr Ha. apply rule_matches_applies in Ha as [m Hm]. exists m. split.
  - apply exact_matches_elem. eauto.
  - by eapply rule_matches_decision.
Qed.

Section properties.
Context (home_dir current_dir : option str).
Notation matches_with := (matches_for_command_with_options home_dir current_dir).
Notation host_matches := (match_host_executable_rules home_dir current_dir).
Notation check_with := (check_with_options home_dir current_dir).

(** Where the matches of a command come from. *)
Lemma matches_cases p cmd f opts :
  let ms := matches_with p cmd (Some f) opts in
  ms <> []
  /\ ((exact_matches p cmd <> [] /\ ms = exact_matches p cmd)
      \/ (exact_matches p cmd = [] /\ ms = host_matches p cmd)
      \/ (exact_matches p cmd = [] /\ ms = [HeuristicsRuleMatch cmd (f cmd)])).
Proof.
  rewrite <- match_exact_rules_eq. unfold matches_for_command_with_options.
  destruct (match_exact_rules p cmd) as [[|m ms]|]; simpl; [|auto|].
  all: destruct (resolve_host_executables opts); [destruct (host_matches p cmd)|]; auto.
Qed.

Lemma exact_not_heuristic p cmd m :
  m ∈ exact_matches p cmd -> match m with HeuristicsRuleMatch _ _ => false | _ => true end = true.
Proof.
  rewrite exact_matches_elem. intros (r & _ & H). unfold rule_matches in H.
  case_match; by simplify_eq.
Qed.

Lemma host_not_heuristic p cmd m :
  m ∈ host_matches p cmd -> match m with HeuristicsRuleMatch _ _ => false | _ => true end = true.
Proof.
  unfold match_host_executable_rules. intros H.
  destruct cmd as [|c args]; [by apply not_elem_of_nil in H|].
  destruct (from_absolute_path _ _ c) as [prog|]; [|by apply not_elem_of_nil in H].
  destruct (executable_path_lookup_key prog) as [b|]; [|by apply not_elem_of_nil in H].
  destruct (rules_by_program p !! b) as [rules|]; [|by apply not_elem_of_nil in H].
  destruct (is_some_and _ _); [by apply not_elem_of_nil in H|].
  apply list_elem_of_In, in_map_iff in H as (m' & <- & H).
  apply list_elem_of_In, list_elem_of_omap in H as (r & _ & H). unfold rule_matches in H.
  case_match; by simplify_eq.
Qed.

Lemma is_match_intro d ms :
  ms <> [] ->
  (forall m, m ∈ ms -> match m with HeuristicsRuleMatch _ _ => false | _ => true end = true) ->
  is_match (mkEvaluation d ms) = true.
Proof.
  intros Hne H. unfold is_match. apply existsb_exists. destruct ms as [|m ms]; [done|].
  exists m. split; [by left|]. apply H. by left.
Qed.


(** Checking several commands panics exactly on an empty list; otherwise
    the decision is the most severe of the commands' own decisions, so one
    forbidden command forbids the group. *)
Theorem check_multiple_is_worst p commands heuristics opts :
  match check_multiple_with_options home_dir current_dir p commands heuristics opts with
  | None => commands = []
  | Some e =>
      (exists c ec, c ∈ commands /\ check_with p c heuristics opts = Some ec /\ decision ec = decision e)
      /\ (forall c ec, c ∈ commands -> check_with p c heuristics opts = Some ec ->
            decision_rank (decision ec) <= decision_rank (decision e))
  end.
Proof.
  unfold check_multiple_with_options.
  set (all := flat_map (fun c => matches_with p c (Some heuristics) opts) commands).
  destruct (decide (commands = [])) as [->|Hne]; [done|].
  assert (Hall : all <> []).
  { destruct commands as [|c cs]; [done|]. unfold all. simpl.
    destruct (matches_cases p c heuristics opts) as [Hc _].
    destruct (matches_with p c (Some heuristics) opts); done. }
  assert (Hel : forall m, m ∈ all <-> exists c, c ∈ commands /\ m ∈ matches_with p c (Some heuristics) opts).
  { intros m. unfold all. rewrite list_elem_of_In, in_flat_map.
    setoid_rewrite <- list_elem_of_In. done. }
  destruct (from_matches_spec all Hall) as (d & -> & (m & Hm & Hd) & Hmax). simpl.
  assert (Hone : forall c ec, c ∈ commands -> check_with p c heuristics opts = Some ec ->
            decision_rank (decision ec) <= decision_rank d).
  { intros c ec Hc Hec. unfold check_with_options in Hec.
    destruct (matches_cases p c heuristics opts) as [Hcn _].
    destruct (from_matches_spec _ Hcn) as (dc & Ec & (mc & Hmc & <-) & _).
    rewrite Ec in Hec. injection Hec as <-. simpl. apply Hmax, Hel. eauto. }
  split; [|done]. apply Hel in Hm as (c & Hc & Hmc).
  destruct (matches_cases p c heuristics opts) as [Hcn _].
  destruct (from_matches_spec _ Hcn) as (dc & Ec & (mc & Hmc' & Hdc) & Hmaxc).
  exists c. eexists. split_and!; [done|exact Ec|]. simpl.
  pose proof (Hmaxc m Hmc) as H1. pose proof (Hone c _ Hc Ec) as H2. simpl in H2.
  rewrite Hd in H1. destruct dc, d; simpl in *; (done || lia).
Qed.

Lemma check_exact p cmd heuristics opts : exact_matches p cmd <> [] ->
  exists d, check_with p cmd heuristics opts = Some (mkEvaluation d (exact_matches p cmd))
    /\ (exists m, m ∈ exact_matches p cmd /\ rule_match_decision m = d)
    /\ (forall m, m ∈ exact_matches p cmd -> decision_rank (rule_match_decision m) <= decision_rank d).
Proof.
  intros Hne. unfold check_with_options.
  destruct (matches_cases p cmd heuristics opts) as [_ [[_ ->]|[[? _]|[? _]]]]; [|done|done].
  by apply from_matches_spec.
Qed.

Lemma exact_nonempty p cmd r : r ∈ program_rules p cmd -> applies r cmd -> exact_matches p cmd <> [].
Proof.
  intros Hr Ha Hnil. destruct (exact_matches_applies p cmd r Hr Ha) as (m & Hm & _).
  rewrite Hnil in Hm. set_solver.
Qed.

(** Once a prefix rule is added, every command that starts with the prefix
    is matched by a rule and gets a decision at least as severe, and commands
    of other programs keep their exact matches, as do network rules and host
    executables. *)
Theorem add_prefix_rule_enforced p p' prefix d heuristics opts :
  add_prefix_rule p prefix d = Ok p' ->
  (forall tail, exists e, check_with p' (prefix ++ tail) heuristics opts = Some e
     /\ is_match e = true /\ decision_rank d <= decision_rank (decision e))
  /\ (forall cmd, head cmd <> head prefix -> match_exact_rules p' cmd = match_exact_rules p cmd)
  /\ network_rules p' = network_rules p
  /\ host_executables_by_name p' = host_executables_by_name p.
Proof.
  unfold add_prefix_rule. destruct prefix as [|w ws]; [done|]. intros [= <-].
  set (r := mkRule (mkPattern w (map Single ws)) d None). split_and!; [|..|done|done].
  - intros tail. set (p' := mkPolicy _ _ _).
    assert (Hr : r ∈ program_rules p' ((w :: ws) ++ tail)).
    { unfold program_rules, p', multimap_insert. simpl. rewrite lookup_insert_eq. simpl. set_solver. }
    assert (Ha : applies r ((w :: ws) ++ tail)).
    { exists ws, tail. split; [done|]. simpl. apply Forall2_fmap_l. apply Forall_Forall2_diag.
      apply Forall_forall. intros x _. set_solver. }
    pose proof (exact_nonempty _ _ _ Hr Ha) as Hne.
    destruct (check_exact p' _ heuristics opts Hne) as (d' & E & _ & Hmax).
    destruct (exact_matches_applies _ _ _ Hr Ha) as (m & Hm & Hd).
    eexists. split_and!; [exact E| |].
    + apply is_match_intro; [done|]. intros m'. apply exact_not_heuristic.
    + simpl. change d with (rule_decision r). rewrite <- Hd. by apply Hmax.
  - intros [|c cmd] Hhd; [done|]. unfold match_exact_rules, multimap_insert. simpl in *.
    by rewrite lookup_insert_ne by congruence.
Qed.

Lemma program_rules_merge p o cmd :
  program_rules (merge_overlay p o) cmd = program_rules p cmd ++ program_rules o cmd.
Proof.
  unfold program_rules. destruct cmd as [|c cmd]; [done|]. simpl. rewrite lookup_union_with.
  destruct (rules_by_program p !! c), (rules_by_program o !! c); simpl; by rewrite ?app_nil_r.
Qed.

Lemma exact_matches_merge p o cmd :
  exact_matches (merge_overlay p o) cmd = exact_matches p cmd ++ exact_matches o cmd.
Proof. unfold exact_matches. by rewrite program_rules_merge, omap_app. Qed.

(** Merging an overlay only tightens what rules already decide: for a
    command that a rule of the base policy matches, the merged policy's
    matches are the base's followed by the overlay's, and the decision is at
    least as severe as before. *)
Theorem merge_overlay_tightens p o cmd heuristics opts e0 :
  check_with p cmd heuristics opts = Some e0 ->
  (exists r, r ∈ program_rules p cmd /\ applies r cmd) ->
  exists e, check_with (merge_overlay p o) cmd heuristics opts = Some e
    /\ matched_rules e = matched_rules e0 ++ exact_matches o cmd
    /\ decision_rank (decision e0) <= decision_rank (decision e)
    /\ (forall r, r ∈ program_rules o cmd -> applies r cmd ->
          decision_rank (rule_decision r) <= decision_rank (decision e)).
Proof.
  intros E0 (r & Hr & Ha). pose proof (exact_nonempty _ _ _ Hr Ha) as Hne.
  destruct (check_exact p cmd heuristics opts Hne) as (d0 & E & (m0 & Hm0 & Hd0) & _).
  rewrite E in E0. injection E0 as <-.
  assert (Hne' : exact_matches (merge_overlay p o) cmd <> []).
  { rewrite exact_matches_merge. by destruct (exact_matches p cmd). }
  destruct (check_exact (merge_overlay p o) cmd heuristics opts Hne') as (d & E' & _ & Hmax).
  rewrite exact_matches_merge in E', Hmax. eexists. split_and!; [exact E'|done|..]; simpl.
  - rewrite <- Hd0. apply Hmax. apply elem_of_app. by left.
  - intros r' Hr' Ha'. destruct (exact_matches_applies _ _ _ Hr' Ha') as (m & Hm & <-).
    apply Hmax. apply elem_of_app. by right.
Qed.

End properties.

(** ** Network domains *)

(** The verdict of the last rule that allows or forbids a host. *)
Definition last_verdict (rules : list NetworkRule) (h : str) : option Decision :=
  fold_left (fun acc r => if str_eqb (host r) h then
                            match net_decision r with Prompt => acc | d => Some d end
                          else acc) rules None.

Lemma last_verdict_snoc rules r h :
  last_verdict (rules ++ [r]) h
  = if str_eqb (host r) h then
      match net_decision r with Prompt => last_verdict rules h | d => Some d end
    else last_verdict rules h.
Proof. unfold last_verdict. by rewrite fold_left_app. Qed.

Lemma retain_ne_spec h l x : x ∈ retain_ne h l <-> x ∈ l /\ x <> h.
Proof.
  unfold retain_ne. rewrite !list_elem_of_In, filter_In, negb_true_iff, str_eqb_neq. done.
Qed.

Lemma retain_ne_nodup h l : NoDup l -> NoDup (retain_ne h l).
Proof. rewrite !NoDup_ListNoDup. apply List.NoDup_filter. Qed.

Lemma upsert_domain_spec h l x : x ∈ upsert_domain l h <-> x ∈ l \/ x = h.
Proof.
  unfold upsert_domain. rewrite elem_of_app, retain_ne_spec, list_elem_of_singleton.
  destruct (decide (x = h)); naive_solver.
Qed.

Lemma upsert_domain_nodup h l : NoDup l -> NoDup (upsert_domain l h).
Proof.
  intros H. apply NoDup_app. split_and!; [by apply retain_ne_nodup| |apply NoDup_singleton].
  intros x [_ Hx]%retain_ne_spec Hx'. by apply list_elem_of_singleton in Hx'.
Qed.

(** The compiled domain lists have no duplicates; a host is allowed exactly
    when the last rule that allows or forbids it allows it, and denied exactly
    when that rule forbids it, so no host is in both lists and prompts change
    nothing. *)
Theorem compiled_network_domains_correct p :
  let '(allowed, denied) := compiled_network_domains p in
  NoDup allowed /\ NoDup denied
  /\ (forall h, h ∈ allowed <-> last_verdict (network_rules p) h = Some Allow)
  /\ (forall h, h ∈ denied <-> last_verdict (network_rules p) h = Some Forbidden).
Proof.
  unfold compiled_network_domains. generalize (network_rules p) as rules.
  induction rules as [|r rules IH] using rev_ind; simpl.
  { split_and!; try apply NoDup_nil_2; intros h; (split; [by intros ?%not_elem_of_nil|done]). }
  rewrite fold_left_app. simpl. destruct (fold_left compile_domain rules ([], [])) as [al de].
  destruct IH as (H1 & H2 & H3 & H4). unfold compile_domain.
  destruct (net_decision r) eqn:Ed; split_and!;
    auto using retain_ne_nodup, upsert_domain_nodup; intros h;
    rewrite last_verdict_snoc, Ed, ?upsert_domain_spec, ?retain_ne_spec, ?H3, ?H4;
    destruct (str_eqb (host r) h) eqn:E; try done;
    rewrite ?str_eqb_eq, ?str_eqb_neq in E; naive_solver.
Qed.

(** ** Network hosts *)

Definition host_char (c : char) : bool :=
  negb (is_whitespace c) && negb (c =? 42)%N && negb (c =? ch_slash)%N && negb (c =? 63)%N
  && negb (c =? 35)%N && negb (is_ascii_uppercase c).

(** Hosts that need no normalisation: no port, no bracket, no final dot. *)
Definition plain_host (h : str) : Prop :=
  h <> [] /\ Forall (fun c => host_char c = true /\ c <> ch_colon) h
  /\ head h <> Some 91%N /\ last h <> Some ch_dot.

Lemma split_once_Some c s l r : split_once c s = Some (l, r) -> s = l ++ c :: r.
Proof.
  revert l; induction s as [|a s IH]; intros l; simpl; [done|].
  destruct (N.eqb_spec a c) as [->|]; [intros; by simplify_eq|].
  destruct (split_once c s) as [[l' r']|]; [|done]. intros; simplify_eq. simpl. by rewrite (IH _ eq_refl).
Qed.

Lemma rsplit_once_Some c s l r : rsplit_once c s = Some (l, r) -> s = l ++ c :: r.
Proof.
  unfold rsplit_once. destruct (split_once c (rev s)) as [[a b]|] eqn:E; [|done].
  intros; simplify_eq. apply split_once_Some in E. apply (f_equal (@rev _)) in E.
  rewrite rev_involutive, rev_app_distr in E. simpl in E. by rewrite <- app_assoc in E.
Qed.

Lemma strip_port_chars raw h h' : strip_port raw h = Ok h' -> forall c, c ∈ h' -> c ∈ h.
Proof.
  unfold strip_port. intros H c Hc.
  destruct (strip_prefix (lit "[") h) as [s|] eqn:E.
  - apply strip_prefix_Some in E as ->. destruct (split_once ch_rbracket s) as [[i r]|] eqn:E; [|done].
    case_match; [done|]. simplify_eq. apply split_once_Some in E as ->. set_solver.
  - case_match; [|by simplify_eq]. destruct (rsplit_once ch_colon h) as [[a b]|] eqn:E2; [|by simplify_eq].
    case_match; simplify_eq; [|done]. apply rsplit_once_Some in E2 as ->. set_solver.
Qed.

Lemma contains_char_spec c s : contains_char c s = true <-> c ∈ s.
Proof.
  unfold contains_char. rewrite existsb_exists, list_elem_of_In. setoid_rewrite N.eqb_eq. naive_solver.
Qed.

Lemma contains_char_false c s : contains_char c s = false <-> c ∉ s.
Proof. by rewrite <- not_true_iff_false, contains_char_spec. Qed.

Lemma trim_chars s c : c ∈ trim s -> c ∈ s.
Proof.
  intros H. destruct (trim_end_prefix (trim_start s)) as [k Hk].
  destruct (trim_start_suffix s) as [j Hj]. unfold trim in H. rewrite Hj, Hk. set_solver.
Qed.

Lemma lowercase_char (c : char) :
  let c' := (if is_ascii_uppercase c then c + 32 else c)%N in
  is_ascii_uppercase c' = false /\ (c' = c \/ (97 <= c' <= 122)%N).
Proof.
  unfold is_ascii_uppercase. simpl.
  destruct (N.leb_spec 65 c), (N.leb_spec c 90); simpl; (split; [|auto]);
    rewrite ?andb_false_iff, ?N.leb_gt; lia.
Qed.

Lemma normalize_host_sound raw h : normalize_network_rule_host raw = Ok h ->
  h <> [] /\ Forall (fun c => host_char c = true) h.
Proof.
  unfold normalize_network_rule_host. case_bool_decide; [done|].
  destruct (_ || _) eqn:E1; [done|]. rewrite !orb_false_iff in E1.
  destruct E1 as (((_ & F1) & F2) & F3). apply contains_char_false in F1, F2, F3.
  destruct (strip_port raw (trim raw)) as [h0|] eqn:Ep; [|done]. simpl.
  case_bool_decide as Hne; [done|]. destruct (contains_char 42 _) eqn:E2; [done|].
  destruct (existsb is_whitespace _) eqn:E3; [done|]. intros [= <-]. split; [done|].
  apply contains_char_false in E2. apply not_true_iff_false in E3. rewrite existsb_exists in E3.
  apply Forall_forall. intros c' Hc'. pose proof Hc' as Hin.
  unfold to_ascii_lowercase in Hc'. apply list_elem_of_In, in_map_iff in Hc' as (c & Hcc & Hc).
  apply list_elem_of_In, trim_chars in Hc.
  destruct (drop_while_end_prefix (N.eqb ch_dot) h0) as (l2 & Hl2 & _).
  assert (Hc0 : c ∈ trim raw).
  { eapply strip_port_chars; [exact Ep|]. rewrite Hl2. set_solver. }
  destruct (lowercase_char c) as [L1 L2]. rewrite Hcc in L1, L2.
  unfold host_char. rewrite !andb_true_iff, !negb_true_iff, !N.eqb_neq. split_and!; [| | | | |done].
  - apply not_true_iff_false. intros Hw. apply E3. exists c'. split; [by apply list_elem_of_In|done].
  - intros ->. done.
  - intros ->. destruct L2 as [<-|L2]; [done|unfold ch_slash in L2; lia].
  - intros ->. destruct L2 as [<-|L2]; [done|lia].
  - intros ->. destruct L2 as [<-|L2]; [done|lia].
Qed.

Lemma host_char_spec c : host_char c = true ->
  is_whitespace c = false /\ c <> 42%N /\ c <> ch_slash /\ c <> 63%N /\ c <> 35%N
  /\ is_ascii_uppercase c = false.
Proof.
  unfold host_char. rewrite !andb_true_iff, !negb_true_iff, !N.eqb_neq. naive_solver.
Qed.

Lemma normalize_host_plain h : plain_host h -> normalize_network_rule_host h = Ok h.
Proof.
  intros (Hne & Hall & Hhd & Hlast). rewrite Forall_forall in Hall.
  assert (Hc : forall c, c ∈ h -> is_whitespace c = false /\ c <> 42%N /\ c <> ch_slash /\ c <> 63%N
                  /\ c <> 35%N /\ is_ascii_uppercase c = false) by (intros c ?; by apply host_char_spec, Hall).
  assert (Htrim : trim h = h).
  { apply trim_id.
    - intros c r ->. apply Hc. by left.
    - intros c Hl. apply last_snoc_inv in Hl as [l ->]. apply Hc. set_solver. }
  assert (Hno : forall c, c = 42%N \/ c = ch_slash \/ c = 63%N \/ c = 35%N -> contains_char c h = false).
  { intros c Hcc. apply contains_char_false. intros Hin. apply Hc in Hin. naive_solver. }
  assert (Hurl : contains (lit "://") h = false).
  { unfold contains. destruct (find (lit "://") h) as [i|] eqn:E; [|done]. exfalso.
    apply find_Some in E as [E _]. apply occurs_at_split in E.
    assert (Hs : ch_slash ∈ h); [|by apply Hc in Hs as (_ & _ & ? & _)].
    rewrite E. apply elem_of_app. right. apply elem_of_app. left. unfold lit. simpl. set_solver. }
  assert (Hport : strip_port h h = Ok h).
  { unfold strip_port. destruct h as [|c h]; [done|]. simpl in Hhd.
    replace (strip_prefix (lit "[") (c :: h)) with (@None str).
    2:{ symmetry. apply strip_prefix_None. intros [k Hk]. unfold lit in Hk. simpl in Hk. naive_solver. }
    assert (List.filter (N.eqb ch_colon) (c :: h) = []) as ->; [|done].
    destruct (List.filter _ _) as [|x l] eqn:E; [done|exfalso].
    assert (Hx : In x (List.filter (N.eqb ch_colon) (c :: h))) by (rewrite E; by left).
    apply filter_In in Hx as [Hx Hxc]. apply N.eqb_eq in Hxc as <-.
    apply list_elem_of_In, Hall in Hx as [_ ?]. done. }
  assert (Hdot : drop_while_end (N.eqb ch_dot) h = h).
  { apply drop_while_end_id. intros x Hx. apply N.eqb_neq. intros <-. done. }
  assert (Hlow : to_ascii_lowercase h = h).
  { unfold to_ascii_lowercase. rewrite <- (map_id h) at 2. apply map_ext_in. intros c Hin.
    apply list_elem_of_In, Hc in Hin as (_ & _ & _ & _ & _ & ->). done. }
  unfold normalize_network_rule_host. rewrite Htrim, Hurl, !Hno, Hport by auto. simpl.
  rewrite Hdot, Htrim, Hlow, Hno, !bool_decide_false by auto. simpl.
  destruct (existsb is_whitespace h) eqn:E; [|done]. apply existsb_exists in E as (c & Hin & Hw).
  apply list_elem_of_In, Hc in Hin as [? _]. congruence.
Qed.

(** An accepted network host is never empty and has no white space,
    wildcard, path, query or fragment character and no ASCII upper case
    letter; and a host that is already in this form, without port, bracket or
    final dot, is accepted unchanged. *)
Theorem normalize_network_rule_host_correct :
  (forall raw h, normalize_network_rule_host raw = Ok h ->
     h <> [] /\ Forall (fun c => host_char c = true) h)
  /\ (forall h, plain_host h -> normalize_network_rule_host h = Ok h).
Proof. split; [apply normalize_host_sound|apply normalize_host_plain]. Qed.

(** ** Relative programs and examples *)

Lemma host_matches_relative home cwd p n args rules :
  is_absolute cwd = true -> is_name n = true ->
  rules_by_program p !! n = Some rules -> host_executables_by_name p !! n = None ->
  match_host_executable_rules home (Some cwd) p ((lit "./" ++ n) :: args)
  = map (fun m => with_resolved_program m (normalize_path cwd ++ [n]))
      (omap (fun r => rule_matches r (n :: args)) rules).
Proof.
  intros Hc Hn Hr Hh. unfold match_host_executable_rules.
  rewrite from_absolute_path_relative by done.
  unfold executable_path_lookup_key, file_name, executable_lookup_key. rewrite last_snoc. simpl.
  by rewrite Hr, Hh.
Qed.

(** With host executable resolution on, a relative program path also falls
    back to the basename rules: when no rule is keyed by [./name] itself and
    no host executables are listed for [name], a rule that applies to [name]
    decides [./name] too, reported with the program resolved in the current
    directory. *)
Theorem relative_program_uses_basename_rules home cwd p n args r heuristics :
  is_absolute cwd = true -> is_name n = true ->
  rules_by_program p !! (lit "./" ++ n) = None -> host_executables_by_name p !! n = None ->
  r ∈ program_rules p (n :: args) -> applies r (n :: args) ->
  exists e, check_with_options home (Some cwd) p ((lit "./" ++ n) :: args) heuristics (mkOptions true)
            = Some e
    /\ is_match e = true /\ decision_rank (rule_decision r) <= decision_rank (decision e)
    /\ forall m, m ∈ matched_rules e ->
         exists pre d j, m = PrefixRuleMatch pre d (Some (normalize_path cwd ++ [n])) j.
Proof.
  intros Hc Hn Hex Hh Hr Ha. set (cmd := (lit "./" ++ n) :: args).
  unfold program_rules in Hr. destruct (rules_by_program p !! n) as [rules|] eqn:El.
  2:{ by apply not_elem_of_nil in Hr. }
  simpl in Hr. pose proof (host_matches_relative home cwd p n args rules Hc Hn El Hh) as Hm.
  fold cmd in Hm. set (ms := map _ _) in Hm. apply rule_matches_applies in Ha as [m Hrm].
  assert (Hin : with_resolved_program m (normalize_path cwd ++ [n]) ∈ ms).
  { apply list_elem_of_In, in_map_iff. exists m. split; [done|].
    apply list_elem_of_In, list_elem_of_omap. eauto. }
  assert (Hne : ms <> []) by (intros E; rewrite E in Hin; by apply not_elem_of_nil in Hin).
  assert (Hall : matches_for_command_with_options home (Some cwd) p cmd (Some heuristics) (mkOptions true) = ms).
  { assert (Hx : match_exact_rules p cmd = Some []) by (unfold match_exact_rules, cmd; by rewrite Hex).
    unfold matches_for_command_with_options. rewrite Hx. cbn [resolve_host_executables].
    rewrite Hm. clear Hin Hm. clearbody ms. by destruct ms. }
  unfold check_with_options. rewrite Hall.
  destruct (from_matches_spec ms Hne) as (d & E & _ & Hmax). exists (mkEvaluation d ms).
  assert (Hshape : forall m', m' ∈ ms ->
    exists pre d j, m' = PrefixRuleMatch pre d (Some (normalize_path cwd ++ [n])) j).
  { intros m' Hm'. apply list_elem_of_In, in_map_iff in Hm' as (x & <- & Hx).
    apply list_elem_of_In, list_elem_of_omap in Hx as (r' & _ & Hx). unfold rule_matches in Hx.
    case_match; simplify_eq. simpl. eauto. }
  split_and!; [done| | |done].
  - apply is_match_intro; [done|]. intros m' Hm'. by destruct (Hshape m' Hm') as (? & ? & ? & ->).
  - simpl. specialize (Hmax _ Hin). apply rule_matches_decision in Hrm. rewrite <- Hrm.
    by destruct m.
Qed.

(** The examples of a rule are accepted exactly when every positive example
    is matched by a rule of the policy and no negative one is, heuristics
    aside. *)
Theorem examples_validated home cwd p rules examples not_matches render_rule render_match try_join :
  let ms e := matches_for_command_with_options home cwd p e None (mkOptions true) in
  (validate_match_examples home cwd render_rule try_join p rules examples = Ok tt
   <-> forall e, e ∈ examples -> ms e <> [])
  /\ (validate_not_match_examples home cwd render_match try_join p not_matches = Ok tt
      <-> forall e, e ∈ not_matches -> ms e = []).
Proof.
  intros ms. split.
  - unfold validate_match_examples. fold (ms).
    induction examples as [|e es IH]; simpl.
    { split; [|done]. by intros _ e ?%not_elem_of_nil. }
    change (matches_for_command_with_options home cwd p e None (mkOptions true)) with (ms e).
    setoid_rewrite elem_of_cons. destruct (ms e) as [|m l] eqn:E; simpl.
    + split; [done|]. intros H. exfalso. apply (H e); auto.
    + rewrite IH. split; [intros H e' [->|He]; [congruence|auto]|auto].
  - induction not_matches as [|e es IH]; simpl.
    { split; [|done]. by intros _ e ?%not_elem_of_nil. }
    change (matches_for_command_with_options home cwd p e None (mkOptions true)) with (ms e).
    setoid_rewrite elem_of_cons. destruct (ms e) as [|m l] eqn:E.
    + rewrite IH. split; [intros H e' [->|He]; [done|auto]|auto].
    + split; [done|]. intros H. specialize (H e (or_introl eq_refl)). congruence.
Qed.

(** A policy that allows [git status] and forbids [rm]. *)
Definition sample_policy : Policy :=
  policy_new (<[lit "git" := [mkRule (mkPattern (lit "git") [Alts [lit "status"; lit "diff"]]) Allow None]]>
             (<[lit "rm" := [mkRule (mkPattern (lit "rm") []) Forbidden None]]> ∅)).

Lemma add_prefix_rule_enforced_witness :
  (exists e,
     check_with_options None None
       (mkPolicy (multimap_insert (lit "git") (mkRule (mkPattern (lit "git") [Single (lit "push")]) Forbidden None)
          (rules_by_program sample_policy)) [] ∅)
       ([lit "git"; lit "push"] ++ [lit "--force"]) (fun _ => Allow) default_match_options = Some e
     /\ is_match e = true /\ decision_rank Forbidden <= decision_rank (decision e)).
Proof.
  exact (proj1 (add_prefix_rule_enforced None None sample_policy
    (mkPolicy (multimap_insert (lit "git") (mkRule (mkPattern (lit "git") [Single (lit "push")]) Forbidden None)
          (rules_by_program sample_policy)) [] ∅)
    [lit "git"; lit "push"] Forbidden (fun _ => Allow) default_match_options eq_refl) [lit "--force"]).
Defined.

Lemma merge_overlay_tightens_witness :
  let cmd := [lit "git"; lit "status"; lit "-s"] in
  let o := policy_new {[ lit "git" := [mkRule (mkPattern (lit "git") []) Prompt None] ]} in
  exists e, check_with_options None None (merge_overlay sample_policy o) cmd (fun _ => Forbidden)
              default_match_options = Some e
    /\ matched_rules e = [PrefixRuleMatch [lit "git"; lit "status"] Allow None None]
                         ++ exact_matches o cmd
    /\ decision_rank Allow <= decision_rank (decision e)
    /\ (forall r, r ∈ program_rules o cmd -> applies r cmd ->
          decision_rank (rule_decision r) <= decision_rank (decision e)).
Proof.
  intros cmd o.
  apply (merge_overlay_tightens None None sample_policy o cmd (fun _ => Forbidden) default_match_options
    (mkEvaluation Allow [PrefixRuleMatch [lit "git"; lit "status"] Allow None None])).
  - vm_compute. reflexivity.
  - exists (mkRule (mkPattern (lit "git") [Alts [lit "status"; lit "diff"]]) Allow None). split.
    + apply list_elem_of_In. vm_compute. left. reflexivity.
    + exists [lit "status"], [lit "-s"]. split; [reflexivity|].
      constructor; [|constructor]. apply list_elem_of_In. left. reflexivity.
Defined.

Lemma relative_program_uses_basename_rules_witness :
  exists e, check_with_options None (Some (lit "/work")) sample_policy [lit "./" ++ lit "git"; lit "status"]
              (fun _ => Prompt) (mkOptions true) = Some e
    /\ is_match e = true /\ decision_rank Allow <= decision_rank (decision e)
    /\ forall m, m ∈ matched_rules e ->
         exists pre d j, m = PrefixRuleMatch pre d (Some (normalize_path (lit "/work") ++ [lit "git"])) j.
Proof.
  apply (relative_program_uses_basename_rules None (lit "/work") sample_policy (lit "git") [lit "status"]
    (mkRule (mkPattern (lit "git") [Alts [lit "status"; lit "diff"]]) Allow None) (fun _ => Prompt)).
  - vm_compute. reflexivity.
  - vm_compute. reflexivity.
  - vm_compute. reflexivity.
  - vm_compute. reflexivity.
  - apply list_elem_of_In. vm_compute. left. reflexivity.
  - exists [lit "status"], []. split; [reflexivity|].
    constructor; [|constructor]. apply list_elem_of_In. left. reflexivity.
Defined.

(** A host with a port, a final dot and upper case letters. *)
Lemma normalize_network_rule_host_correct_witness :
  lit "example.com" <> [] /\ Forall (fun c => host_char c = true) (lit "example.com").
Proof.
  apply (proj1 normalize_network_rule_host_correct (lit " Example.COM.:443 ") (lit "example.com")).
  vm_compute. reflexivity.
Defined.
