(* ===== verification/PolicyMatching.v ===== *)
(** * The rules that decide a command

    What the matches of a policy mean (execpolicy/src/policy.rs, with host
    executables resolved): a command is decided by the rules about its program
    as it is written or, failing those, by the rules about the base name of the
    resolved program.  Shared by the policy parser and the approval of commands. *)

From S2P Require Import Prelude RustStr AbsolutePath ExecPolicy.

Section matching.
Context (home_dir current_dir : option str).
Notation matches_with := (matches_for_command_with_options home_dir current_dir).
Notation rules_for p c := (matches_with p c None (mkOptions true)).

Lemma matches_fallback p c f opts :
  matches_with p c (Some f) opts
  = match matches_with p c None opts with [] => [HeuristicsRuleMatch c (f c)] | ms => ms end.
Proof. unfold matches_for_command_with_options. by repeat case_match. Qed.

(** A rule decides [d] for the command. *)
Definition has_rule (p : Policy) (d : Decision) (c : list str) : Prop :=
  exists m, m ∈ rules_for p c /\ rule_match_decision m = d.

(** A rule matches the command by its program, or by the base name of its
    resolved program. *)
Definition exact_rule (p : Policy) (c : list str) : Prop :=
  exists r, r ∈ program_rules p c /\ applies r c.

Definition host_rule (p : Policy) (c : list str) (r : PrefixRule) : Prop :=
  exists program args path base, c = program :: args
  /\ from_absolute_path home_dir current_dir program = Some path
  /\ AbsolutePath.file_name path = Some base
  /\ (forall paths, host_executables_by_name p !! base = Some paths -> path ∈ paths)
  /\ r ∈ default [] (rules_by_program p !! base) /\ applies r (base :: args).

Lemma exact_matches_nonempty p c : exact_matches p c <> [] <-> exact_rule p c.
Proof.
  split.
  - intros H. destruct (exact_matches p c) as [|m ms] eqn:E; [done|].
    assert (Hm : m ∈ exact_matches p c) by (rewrite E; by left).
    apply exact_matches_elem in Hm as (r & Hr & Hm). exists r. split; [done|].
    by apply rule_matches_applies.
  - intros (r & Hr & Ha). by eapply exact_nonempty.
Qed.

Lemma host_matches_decides p c d :
  (exists m, m ∈ match_host_executable_rules home_dir current_dir p c /\ rule_match_decision m = d)
  <-> exists r, host_rule p c r /\ rule_decision r = d.
Proof.
  unfold match_host_executable_rules, host_rule, executable_path_lookup_key, executable_lookup_key.
  destruct c as [|program args]; [set_solver|].
  destruct (from_absolute_path home_dir current_dir program) as [path|] eqn:Ep; [|set_solver].
  destruct (AbsolutePath.file_name path) as [base|] eqn:Eb; simpl; [|set_solver].
  trans (exists r, (forall paths, host_executables_by_name p !! base = Some paths -> path ∈ paths)
         /\ r ∈ default [] (rules_by_program p !! base) /\ applies r (base :: args) /\ rule_decision r = d).
  2:{ split; [naive_solver|].
      intros (r & (pr & ar & pa & ba & E1 & E2 & E3 & Hl & Hr & Ha) & Hd). simplify_eq. eauto. }
  destruct (rules_by_program p !! base) as [rules|]; [|set_solver].
  destruct (is_some_and _ _) eqn:Eh; [|apply not_true_iff_false in Eh].
  - split; [set_solver|]. intros (r & Hl & _).
    destruct (host_executables_by_name p !! base) as [paths|]; simpl in Eh; [|done].
    apply negb_true_iff, not_true_iff_false in Eh. destruct Eh. apply existsb_exists.
    exists path. split; [by apply list_elem_of_In, Hl|by apply bool_decide_eq_true].
  - split.
    + intros (m & (m0 & -> & (r & Hr & Hm)%list_elem_of_omap)%list_elem_of_fmap & Hd). exists r. split_and!.
      * intros paths E. rewrite E in Eh. simpl in Eh.
        apply not_true_iff_false, negb_false_iff, existsb_exists in Eh as (q & Hq & Eq).
        apply bool_decide_eq_true in Eq as ->. by apply list_elem_of_In.
      * done.
      * apply rule_matches_applies. by exists m0.
      * apply rule_matches_decision in Hm. rewrite <- Hm, <- Hd. by destruct m0.
    + intros (r & _ & Hr & [m Hm]%rule_matches_applies & Hd).
      exists (with_resolved_program m path). split.
      * apply list_elem_of_fmap. exists m. split; [done|]. apply list_elem_of_omap. eauto.
      * apply rule_matches_decision in Hm. rewrite <- Hd, <- Hm. by destruct m.
Qed.

Lemma host_matches_nonempty p c :
  match_host_executable_rules home_dir current_dir p c <> [] <-> exists r, host_rule p c r.
Proof.
  split.
  - destruct (match_host_executable_rules _ _ p c) as [|m ms] eqn:E; [done|]. intros _.
    destruct (proj1 (host_matches_decides p c (rule_match_decision m))) as (r & Hr & _); [|by exists r].
    exists m. split; [rewrite E; by left|done].
  - intros (r & Hr). destruct (proj2 (host_matches_decides p c (rule_decision r))) as (m & Hm & _); [by exists r|].
    intros E. rewrite E in Hm. by apply not_elem_of_nil in Hm.
Qed.

Lemma rules_for_nonempty p c :
  rules_for p c <> [] <-> exact_rule p c \/ exists r, host_rule p c r.
Proof.
  rewrite <- exact_matches_nonempty, <- host_matches_nonempty, <- match_exact_rules_eq.
  unfold matches_for_command_with_options. cbn [resolve_host_executables].
  destruct (match_exact_rules p c) as [[|m ms]|]; simpl; [|naive_solver|].
  all: destruct (match_host_executable_rules home_dir current_dir p c); naive_solver.
Qed.

(** A rule decides [d] by the program as written or, when no rule is about
    that, by its base name. *)
Lemma has_rule_spec p d c :
  has_rule p d c <-> (exists r, r ∈ program_rules p c /\ applies r c /\ rule_decision r = d)
                     \/ (~ exact_rule p c /\ exists r, host_rule p c r /\ rule_decision r = d).
Proof.
  rewrite <- exact_matches_nonempty, <- host_matches_decides.
  trans ((exists m, m ∈ exact_matches p c /\ rule_match_decision m = d)
         \/ (exact_matches p c = []
             /\ exists m, m ∈ match_host_executable_rules home_dir current_dir p c /\ rule_match_decision m = d)).
  - rewrite <- match_exact_rules_eq. unfold has_rule, matches_for_command_with_options.
    cbn [resolve_host_executables].
    destruct (match_exact_rules p c) as [[|m ms]|]; simpl; [|set_solver|].
    all: destruct (match_host_executable_rules home_dir current_dir p c); set_solver.
  - setoid_rewrite exact_matches_elem. split; intros [H|[H1 H2]].
    + left. destruct H as (m & (r & Hr & Hm) & <-). exists r.
      split_and!; [done|apply rule_matches_applies; by exists m|].
      symmetry. by eapply rule_matches_decision.
    + right. naive_solver.
    + left. destruct H as (r & Hr & [m Hm]%rule_matches_applies & <-). exists m.
      split; [by exists r|by eapply rule_matches_decision].
    + right. split; [|done]. destruct (exact_matches p c); [done|]. by destruct H1.
Qed.

End matching.
