(* ===== verification/PolicyParser.v ===== *)
(** * Policy files

    execpolicy/src/parser.rs: the builtins of a policy file, the builder they
    fill and the check of the examples, and the part of core/src/exec_policy.rs
    that loads a list of files.  Policy files are Starlark programs: the
    Starlark library is the class [StarlarkLib], which gives for a file the
    builtin calls its evaluation makes, in order, and how the evaluation ends
    (the builtins return nothing, so the calls do not depend on the builder).
    [shlex] and the renderings used in messages are parameters. *)

From S2P Require Import Prelude RustStr FileSystem AbsolutePath ExecPolicy PolicyMatching.

(** ** What the library provides *)

(** Starlark values as the builtins look at them. *)
Inductive Value :=
| VStr (s : str)
| VList (items : list Value)
| VOther (type_name : str).

Definition unpack_str (v : Value) : option str := match v with VStr s => Some s | _ => None end.

Definition get_type (v : Value) : str :=
  match v with VStr _ => lit "string" | VList _ => lit "list" | VOther t => t end.

(** [FileSpan], resolved: positions count from zero. *)
Record FileSpan := mkSpan { span_file : str; span_begin : nat * nat; span_end : nat * nat }.

Inductive Builtin :=
| PrefixRuleCall (pattern : list Value) (decision : option str) (matches not_match : option (list Value))
    (justification : option str)
| NetworkRuleCall (host protocol decision : str) (justification : option str)
| HostExecutableCall (name : str) (paths : list Value).

(** A call, [call_stack_top_location] during it, and the span the library gives
    to an error it returns. *)
Record Call := mkCall { builtin : Builtin; call_site : option FileSpan; error_span : option FileSpan }.

(** The calls of an evaluation; [Some] span when it ends in an error of its own. *)
Record ModuleRun := mkRun { run_calls : list Call; run_error : option (option FileSpan) }.

Class StarlarkLib := {
  (** [AstModule::parse] and [eval_module]; [Err] for a syntax error. *)
  eval_module : str -> str -> result ModuleRun (option FileSpan);
  (** [shlex::split] and [shlex::try_join]. *)
  shlex_split : str -> option (list str);
  shlex_join : list str -> option str;
  (** Debug renderings and the error of a path without current directory. *)
  debug_rule : PrefixRule -> str;
  debug_match : RuleMatch -> str;
  path_error : str;
}.

(** [Iterator::collect] into a [Result]: the first error. *)
Fixpoint traverse {A B E} (f : A -> result B E) (l : list A) : result (list B) E :=
  match l with
  | [] => Ok []
  | x :: l => let? y := f x in let? ys := traverse f l in Ok (y :: ys)
  end.

(** [Option::map(f).transpose()?.unwrap_or_default()] *)
Definition transpose_default {A B E} (f : A -> result (list B) E) (o : option A) : result (list B) E :=
  match o with Some a => f a | None => Ok [] end.

(** ** Reading arguments *)

Definition pattern_alternative (v : Value) : result str Error :=
  match unpack_str v with
  | Some s => Ok s
  | None => Err (InvalidPattern (lit "pattern alternative must be a string (got " ++ get_type v ++ lit ")"))
  end.

Definition parse_pattern_token (v : Value) : result PatternToken Error :=
  match v with
  | VStr s => Ok (Single s)
  | VList items =>
      let? tokens := traverse pattern_alternative items in
      match tokens with
      | [] => Err (InvalidPattern (lit "pattern alternatives cannot be empty"))
      | [single] => Ok (Single single)
      | _ => Ok (Alts tokens)
      end
  | VOther t =>
      Err (InvalidPattern (lit "pattern element must be a string or list of strings (got " ++ t ++ lit ")"))
  end.

Definition parse_pattern (pattern : list Value) : result (list PatternToken) Error :=
  let? tokens := traverse parse_pattern_token pattern in
  if is_nil tokens then Err (InvalidPattern (lit "pattern cannot be empty")) else Ok tokens.

Definition example_token (v : Value) : result str Error :=
  match unpack_str v with
  | Some s => Ok s
  | None => Err (InvalidExample (lit "example tokens must be strings (got " ++ get_type v ++ lit ")"))
  end.

Definition parse_list_example (items : list Value) : result (list str) Error :=
  let? tokens := traverse example_token items in
  if is_nil tokens then Err (InvalidExample (lit "example cannot be an empty list")) else Ok tokens.

Definition parse_network_rule_decision (raw : str) : result Decision Error :=
  if str_eqb raw (lit "deny") then Ok Forbidden else decision_parse raw.

(** [Path::components] with the root, and [Path::file_name] *)
Inductive path_component := RootDir | Component (c : component).

Definition is_cur_dir (c : component) : bool := match c with CurDir => true | _ => false end.

Definition path_components (p : str) : list path_component :=
  (if is_absolute p then [RootDir] else [])
  ++ map Component
       match components p with
       | CurDir :: cs =>
           (if is_absolute p then [] else [CurDir]) ++ List.filter (fun c => negb (is_cur_dir c)) cs
       | cs => List.filter (fun c => negb (is_cur_dir c)) cs
       end.

Definition path_file_name (p : str) : option str :=
  match last (path_components p) with Some (Component (NormalComp n)) => Some n | _ => None end.

Definition validate_host_executable_name (name : str) : result unit Error :=
  if is_nil name then Err (InvalidRule (lit "host_executable name cannot be empty"))
  else if negb (length (path_components name) =? 1)
          || negb (bool_decide (path_file_name name = Some name))
  then Err (InvalidRule (lit "host_executable name must be a bare executable name (got "
                           ++ name ++ lit ")"))
  else Ok tt.

(** [Some(raw) if raw.trim().is_empty()] *)
Definition parse_justification (justification : option str) : result (option str) Error :=
  if is_some_and (fun raw => bool_decide (trim raw = [])) justification
  then Err (InvalidRule (lit "justification cannot be empty")) else Ok justification.

Definition error_location_from_file_span (span : FileSpan) : ErrorLocation :=
  let position '(line, column) := mkPos (line + 1) (column + 1) in
  mkLoc (span_file span) (mkRange (position (span_begin span)) (position (span_end span))).

Definition attach_validation_location (error : Error) (location : option ErrorLocation) : Error :=
  match location with Some l => with_location error l | None => error end.

(** ** The builder *)

Record PendingExampleValidation := mkPending {
  pending_rules : list PrefixRule;
  pending_matches : list (list str);
  pending_not_matches : list (list str);
  pending_location : option ErrorLocation;
}.

Record PolicyBuilder := mkBuilder {
  builder_rules : gmap str (list PrefixRule);
  builder_network_rules : list NetworkRule;
  builder_host_executables : gmap str (list abs_path);
  pending_example_validations : list PendingExampleValidation;
}.

Definition builder_new : PolicyBuilder := mkBuilder ∅ [] ∅ [].

Definition add_rule (b : PolicyBuilder) (rule : PrefixRule) : PolicyBuilder :=
  mkBuilder (multimap_insert (first (pattern rule)) rule (builder_rules b)) (builder_network_rules b)
    (builder_host_executables b) (pending_example_validations b).

Definition builder_add_network_rule (b : PolicyBuilder) (rule : NetworkRule) : PolicyBuilder :=
  mkBuilder (builder_rules b) (builder_network_rules b ++ [rule]) (builder_host_executables b)
    (pending_example_validations b).

Definition add_host_executable (b : PolicyBuilder) (name : str) (paths : list abs_path) : PolicyBuilder :=
  mkBuilder (builder_rules b) (builder_network_rules b) (<[name := paths]> (builder_host_executables b))
    (pending_example_validations b).

Definition add_pending_example_validation (b : PolicyBuilder) (v : PendingExampleValidation)
    : PolicyBuilder :=
  mkBuilder (builder_rules b) (builder_network_rules b) (builder_host_executables b)
    (pending_example_validations b ++ [v]).

Definition build (b : PolicyBuilder) : Policy :=
  mkPolicy (builder_rules b) (builder_network_rules b) (builder_host_executables b).

(** The rules of one call, one per alternative of the first token. *)
Definition rules_of_pattern (tokens : list PatternToken) (decision : Decision)
    (justification : option str) : result (list PrefixRule) Error :=
  match tokens with
  | [] => Err (InvalidPattern (lit "pattern cannot be empty"))
  | first_token :: rest =>
      Ok (map (fun head => mkRule (mkPattern head rest) decision justification)
            (alternatives first_token))
  end.

Section parser.
Context {lib : StarlarkLib} (home_dir current_dir : option str).

Definition parse_string_example (raw : str) : result (list str) Error :=
  match shlex_split raw with
  | None => Err (InvalidExample (lit "example string has invalid shell syntax"))
  | Some [] => Err (InvalidExample (lit "example cannot be an empty string"))
  | Some tokens => Ok tokens
  end.

Definition parse_example (v : Value) : result (list str) Error :=
  match v with
  | VStr raw => parse_string_example raw
  | VList items => parse_list_example items
  | VOther t =>
      Err (InvalidExample (lit "example must be a string or list of strings (got " ++ t ++ lit ")"))
  end.

Definition parse_examples (examples : list Value) : result (list (list str)) Error :=
  traverse parse_example examples.

Definition parse_literal_absolute_path (raw : str) : result abs_path Error :=
  if negb (is_absolute raw)
  then Err (InvalidRule (lit "host_executable paths must be absolute (got " ++ raw ++ lit ")"))
  else match from_absolute_path home_dir current_dir raw with
       | Some path => Ok path
       | None => Err (InvalidRule (lit "invalid absolute path `" ++ raw ++ lit "`: " ++ path_error))
       end.

Definition prefix_rule (b : PolicyBuilder) (pattern : list Value) (decision : option str)
    (matches not_match : option (list Value)) (justification : option str) (site : option FileSpan)
    : result PolicyBuilder Error :=
  let? decision := match decision with Some raw => decision_parse raw | None => Ok Allow end in
  let? justification := parse_justification justification in
  let? pattern_tokens := parse_pattern pattern in
  let? matches := transpose_default parse_examples matches in
  let? not_matches := transpose_default parse_examples not_match in
  let location := option_map error_location_from_file_span site in
  let? rules := rules_of_pattern pattern_tokens decision justification in
  let b := add_pending_example_validation b (mkPending rules matches not_matches location) in
  Ok (fold_left add_rule rules b).

Definition network_rule (b : PolicyBuilder) (host protocol decision : str) (justification : option str)
    : result PolicyBuilder Error :=
  let? protocol := protocol_parse protocol in
  let? decision := parse_network_rule_decision decision in
  let? justification := parse_justification justification in
  let? host := normalize_network_rule_host host in
  Ok (builder_add_network_rule b (mkNetworkRule host protocol decision justification)).

Definition push_path (name : str) (parsed_paths : list abs_path) (value : Value)
    : result (list abs_path) Error :=
  match unpack_str value with
  | None => Err (InvalidRule (lit "host_executable paths must be strings (got " ++ get_type value ++ lit ")"))
  | Some raw =>
      let? path := parse_literal_absolute_path raw in
      let mismatch := Err (InvalidRule (lit "host_executable path `" ++ raw
                             ++ lit "` must have basename `" ++ name ++ lit "`")) in
      match executable_path_lookup_key path with
      | None => mismatch
      | Some path_name =>
          if negb (str_eqb path_name (executable_lookup_key name)) then mismatch
          else if existsb (fun existing => bool_decide (existing = path)) parsed_paths
          then Ok parsed_paths else Ok (parsed_paths ++ [path])
      end
  end.

Fixpoint parse_paths (name : str) (parsed_paths : list abs_path) (paths : list Value)
    : result (list abs_path) Error :=
  match paths with
  | [] => Ok parsed_paths
  | v :: paths => let? parsed_paths := push_path name parsed_paths v in parse_paths name parsed_paths paths
  end.

Definition host_executable (b : PolicyBuilder) (name : str) (paths : list Value)
    : result PolicyBuilder Error :=
  let? _ := validate_host_executable_name name in
  let? parsed_paths := parse_paths name [] paths in
  Ok (add_host_executable b (executable_lookup_key name) parsed_paths).

Definition call_builtin (b : PolicyBuilder) (c : Call) : result PolicyBuilder Error :=
  match builtin c with
  | PrefixRuleCall pattern decision matches not_match justification =>
      prefix_rule b pattern decision matches not_match justification (call_site c)
  | NetworkRuleCall host protocol decision justification => network_rule b host protocol decision justification
  | HostExecutableCall name paths => host_executable b name paths
  end.

(** An error of the library carries the location of its span. *)
Definition starlark_error (span : option FileSpan) : Error :=
  Starlark (option_map error_location_from_file_span span).

(** The calls run until one fails; the library wraps the error. *)
Fixpoint run_builtins (b : PolicyBuilder) (calls : list Call) : PolicyBuilder * result unit Error :=
  match calls with
  | [] => (b, Ok tt)
  | c :: calls =>
      match call_builtin b c with
      | Ok b => run_builtins b calls
      | Err _ => (b, Err (starlark_error (error_span c)))
      end
  end.

Definition pending_policy (b : PolicyBuilder) (v : PendingExampleValidation) : Policy :=
  mkPolicy (fold_left (fun m r => multimap_insert (first (pattern r)) r m) (pending_rules v) ∅) []
    (builder_host_executables b).

Definition validate_pending (b : PolicyBuilder) (v : PendingExampleValidation) : result unit Error :=
  let locate := result_map_err (fun e => attach_validation_location e (pending_location v)) in
  let? _ := locate (validate_not_match_examples home_dir current_dir debug_match shlex_join
                      (pending_policy b v) (pending_not_matches v)) in
  locate (validate_match_examples home_dir current_dir debug_rule shlex_join (pending_policy b v)
            (pending_rules v) (pending_matches v)).

Fixpoint validate_all (b : PolicyBuilder) (vs : list PendingExampleValidation) : result unit Error :=
  match vs with
  | [] => Ok tt
  | v :: vs => let? _ := validate_pending b v in validate_all b vs
  end.

Definition validate_pending_examples_from (b : PolicyBuilder) (start : nat) : result unit Error :=
  validate_all b (drop start (pending_example_validations b)).

Definition parse (b : PolicyBuilder) (policy_identifier policy_file_contents : str)
    : PolicyBuilder * result unit Error :=
  let pending_validation_count := length (pending_example_validations b) in
  match eval_module policy_identifier policy_file_contents with
  | Err span => (b, Err (starlark_error span))
  | Ok run =>
      let '(b, r) := run_builtins b (run_calls run) in
      match r, run_error run with
      | Err e, _ => (b, Err e)
      | Ok _, Some span => (b, Err (starlark_error span))
      | Ok _, None => (b, validate_pending_examples_from b pending_validation_count)
      end
  end.

(** ** Loading (core/src/exec_policy.rs) *)

Inductive ExecPolicyError :=
| ReadDir (dir : str) (source : io_error)
| ReadFile (path : str) (source : io_error)
| ParsePolicy (path : str) (source : Error).

(** The files in the order of their layers, each with the result of reading it. *)
Fixpoint parse_files (b : PolicyBuilder) (files : list (str * result str io_error))
    : result PolicyBuilder ExecPolicyError :=
  match files with
  | [] => Ok b
  | (path, contents) :: files =>
      match contents with
      | Err source => Err (ReadFile path source)
      | Ok contents =>
          match parse b path contents with
          | (_, Err source) => Err (ParsePolicy path source)
          | (b, Ok _) => parse_files b files
          end
      end
  end.

Definition load_exec_policy (files : list (str * result str io_error)) (requirements : option Policy)
    : result Policy ExecPolicyError :=
  let? b := parse_files builder_new files in
  let policy := build b in
  Ok match requirements with
     | None => policy
     | Some requirements_policy => merge_overlay policy requirements_policy
     end.

(** A policy that does not parse is replaced by the requirements alone. *)
Definition load_exec_policy_with_warning (files : list (str * result str io_error))
    (requirements : option Policy) : result (Policy * option ExecPolicyError) ExecPolicyError :=
  match load_exec_policy files requirements with
  | Ok policy => Ok (policy, None)
  | Err (ParsePolicy path source) =>
      Ok (default policy_empty requirements, Some (ParsePolicy path source))
  | Err err => Err err
  end.

End parser.

(** ** What a call means *)

(** A token of a pattern stands for a word, a list for any of its words. *)
Definition value_covers (v : Value) (w : str) : Prop :=
  v = VStr w \/ exists items, v = VList items /\ VStr w ∈ items.

(** A pattern covers the commands that start with a word for each token. *)
Definition pattern_covers (pattern : list Value) (cmd : list str) : Prop :=
  exists ws tail, cmd = ws ++ tail /\ ws <> [] /\ Forall2 value_covers pattern ws.

Definition decision_says (raw : option str) (d : Decision) : Prop :=
  match raw with Some raw => decision_parse raw = Ok d | None => d = Allow end.

(** The call decides [d] for the command. *)
Definition call_decides (c : Call) (cmd : list str) (d : Decision) : Prop :=
  match builtin c with
  | PrefixRuleCall pattern decision _ _ _ => decision_says decision d /\ pattern_covers pattern cmd
  | _ => False
  end.

(** A rule of the builder about the program of the command decides [d]. *)
Definition builder_decides (b : PolicyBuilder) (cmd : list str) (d : Decision) : Prop :=
  exists r, r ∈ program_rules (build b) cmd /\ applies r cmd /\ rule_decision r = d.

Lemma traverse_Ok {A B E} (f : A -> result B E) l ys :
  traverse f l = Ok ys <-> Forall2 (fun x y => f x = Ok y) l ys.
Proof.
  revert ys; induction l as [|x l IH]; intros ys; simpl.
  { split; [by intros [= <-]|]. by inversion 1. }
  split.
  - destruct (f x) eqn:Ef; [|done]. simpl. destruct (traverse f l); [|done]. intros [= <-].
    constructor; [done|]. by apply IH.
  - inversion 1 as [|? y ? ys' Hx Hl]; subst. rewrite Hx. simpl. apply IH in Hl. by rewrite Hl.
Qed.

Lemma parse_pattern_token_covers v t w :
  parse_pattern_token v = Ok t -> w ∈ alternatives t <-> value_covers v w.
Proof.
  unfold value_covers. destruct v as [s|items|ty]; simpl.
  - intros [= <-]. simpl. rewrite list_elem_of_singleton. naive_solver.
  - destruct (traverse pattern_alternative items) as [ws|e] eqn:E; [|done]. simpl.
    apply traverse_Ok in E. intros Ht. assert (Ha : alternatives t = ws).
    { destruct ws as [|w0 [|w1 ws]]; simplify_eq/=; done. }
    rewrite Ha. clear Ha Ht. assert (Hw : w ∈ ws <-> VStr w ∈ items); [|naive_solver].
    induction E as [|v x items ws Hv _ IH]; [by rewrite !elem_of_nil|].
    rewrite !elem_of_cons, IH. unfold pattern_alternative in Hv. destruct v; simplify_eq/=; naive_solver.
  - done.
Qed.

Lemma parse_pattern_covers pattern tokens ws :
  parse_pattern pattern = Ok tokens ->
  tokens <> [] /\ (Forall2 (fun t w => w ∈ alternatives t) tokens ws <-> Forall2 value_covers pattern ws).
Proof.
  unfold parse_pattern. destruct (traverse parse_pattern_token pattern) as [ts|e] eqn:E; [|done].
  simpl. destruct (is_nil ts) eqn:En; [done|]. intros [= ->]. apply is_nil_false in En. split; [done|].
  apply traverse_Ok in E. clear En. revert ws. induction E as [|v t pattern tokens Hv _ IH]; intros ws.
  - split; inversion 1; constructor.
  - split; inversion 1; subst; constructor; try (by apply IH); by eapply parse_pattern_token_covers.
Qed.

Lemma rules_of_pattern_applies tokens d j rules cmd :
  rules_of_pattern tokens d j = Ok rules ->
  (exists r, r ∈ rules /\ applies r cmd)
  <-> exists ws tail, cmd = ws ++ tail /\ Forall2 (fun t w => w ∈ alternatives t) tokens ws.
Proof.
  unfold rules_of_pattern. destruct tokens as [|t tokens]; [done|]. intros [= <-]. split.
  - intros (r & (h & -> & Hh)%list_elem_of_fmap & ws & tail & -> & H). simpl in *.
    exists (h :: ws), tail. split; [done|]. by constructor.
  - intros (ws & tail & -> & H). inversion H as [|? h ? ws' Hh Ht]; subst.
    exists (mkRule (mkPattern h tokens) d j). split.
    + apply list_elem_of_fmap. by exists h.
    + by exists ws', tail.
Qed.

Lemma rules_of_pattern_decision tokens d j rules :
  rules_of_pattern tokens d j = Ok rules -> Forall (fun r => rule_decision r = d) rules.
Proof.
  unfold rules_of_pattern. destruct tokens as [|t tokens]; [done|]. intros [= <-].
  apply Forall_fmap, Forall_true. done.
Qed.

(** ** The rules of the builder *)

Lemma multimap_insert_elem k r m w r' :
  r' ∈ default [] (multimap_insert k r m !! w)
  <-> r' ∈ default [] (m !! w) \/ (r' = r /\ w = k).
Proof.
  unfold multimap_insert. destruct (decide (w = k)) as [->|Hne].
  - rewrite lookup_insert_eq. simpl. rewrite elem_of_app, list_elem_of_singleton. naive_solver.
  - rewrite lookup_insert_ne by done. naive_solver.
Qed.

Lemma fold_insert_elem rules m w r' :
  r' ∈ default [] (fold_left (fun m r => multimap_insert (first (pattern r)) r m) rules m !! w)
  <-> r' ∈ default [] (m !! w) \/ (r' ∈ rules /\ w = first (pattern r')).
Proof.
  revert m; induction rules as [|r rules IH]; intros m; simpl.
  - rewrite elem_of_nil. naive_solver.
  - rewrite IH, multimap_insert_elem, elem_of_cons. naive_solver.
Qed.

Lemma fold_add_rule rules b :
  fold_left add_rule rules b
  = mkBuilder (fold_left (fun m r => multimap_insert (first (pattern r)) r m) rules (builder_rules b))
      (builder_network_rules b) (builder_host_executables b) (pending_example_validations b).
Proof. revert b; induction rules as [|r rules IH]; intros b; simpl; [by destruct b|]. by rewrite IH. Qed.

(** The rules about a program cover what a fold of insertions added. *)
Lemma fold_insert_decides rules b net hosts pend cmd d :
  builder_decides
    (mkBuilder (fold_left (fun m r => multimap_insert (first (pattern r)) r m) rules (builder_rules b))
       net hosts pend) cmd d
  <-> builder_decides b cmd d \/ exists r, r ∈ rules /\ applies r cmd /\ rule_decision r = d.
Proof.
  unfold builder_decides, program_rules. simpl. destruct cmd as [|w cmd].
  { split; [set_solver|]. intros [H|(r & _ & (ws & tail & H & _) & _)]; [set_solver|done]. }
  setoid_rewrite fold_insert_elem. split.
  - intros (r & [H|[H _]] & Ha & Hd); [left|right]; eauto.
  - intros [(r & H & Ha & Hd)|(r & H & Ha & Hd)]; exists r; [naive_solver|]. split; [|done]. right.
    destruct Ha as (ws & tail & [= -> _] & _). done.
Qed.

(** The rules of an accepted pattern apply to what the pattern covers. *)
Lemma pattern_rules_cover pattern tokens d j rules cmd :
  parse_pattern pattern = Ok tokens -> rules_of_pattern tokens d j = Ok rules ->
  (exists r, r ∈ rules /\ applies r cmd) <-> pattern_covers pattern cmd.
Proof.
  intros Hp Hr. rewrite (rules_of_pattern_applies _ _ _ _ cmd Hr). unfold pattern_covers.
  split; intros (ws & tail & -> & H); exists ws, tail; split; try done;
    destruct (parse_pattern_covers pattern tokens ws Hp) as [Hn Hiff].
  - split; [|by apply Hiff]. intros ->. by inversion H; subst.
  - by apply Hiff, H.
Qed.

Section meaning.
Context {lib : StarlarkLib} (home_dir current_dir : option str).
Notation call_builtin := (call_builtin home_dir current_dir).
Notation run_builtins := (run_builtins home_dir current_dir).
Notation parse := (parse home_dir current_dir).
Notation parse_files := (parse_files home_dir current_dir).

(** The parts of an accepted [prefix_rule] call. *)
Lemma prefix_rule_Ok b pattern decision ms nms j site b' :
  prefix_rule b pattern decision ms nms j site = Ok b' ->
  exists d tokens matches not_matches rules,
    decision_says decision d /\ parse_pattern pattern = Ok tokens
    /\ transpose_default parse_examples ms = Ok matches
    /\ transpose_default parse_examples nms = Ok not_matches
    /\ rules_of_pattern tokens d j = Ok rules
    /\ b' = fold_left add_rule rules
              (add_pending_example_validation b
                 (mkPending rules matches not_matches (option_map error_location_from_file_span site))).
Proof.
  unfold prefix_rule, parse_justification.
  destruct (match decision with Some raw => _ | None => _ end) as [d|] eqn:Ed; [|done]. simpl.
  destruct (is_some_and _ j); [done|]. simpl. destruct (parse_pattern pattern) as [tokens|]; [|done]. simpl.
  destruct (transpose_default parse_examples ms) as [matches|]; [|done]. simpl.
  destruct (transpose_default parse_examples nms) as [not_matches|]; [|done]. simpl.
  destruct (rules_of_pattern tokens d j) as [rules|] eqn:Er; [|done]. intros [= <-].
  exists d, tokens, matches, not_matches, rules. split_and!; try done.
  by destruct decision; simplify_eq/=.
Qed.

Lemma decision_says_fun raw d d' : decision_says raw d -> decision_says raw d' -> d = d'.
Proof. destruct raw; simpl; congruence. Qed.

Lemma call_builtin_decides b c b' cmd d :
  call_builtin b c = Ok b' -> builder_decides b' cmd d <-> builder_decides b cmd d \/ call_decides c cmd d.
Proof.
  unfold PolicyParser.call_builtin, call_decides. destruct c as [bi site span]. simpl.
  destruct bi as [pattern decision ms nms j|host proto decision j|name paths].
  - intros (d0 & tokens & matches & not_matches & rules & Hd & Hp & _ & _ & Hr & ->)%prefix_rule_Ok.
    rewrite fold_add_rule, fold_insert_decides. apply or_iff_compat_l.
    pose proof (rules_of_pattern_decision _ _ _ _ Hr) as Hds. rewrite Forall_forall in Hds.
    trans (d = d0 /\ exists r, r ∈ rules /\ applies r cmd); [naive_solver|].
    rewrite (pattern_rules_cover _ _ _ _ _ cmd Hp Hr). split; [by intros [-> ?]|].
    intros [Hd' Hc]. split; [by eapply decision_says_fun|done].
  - unfold network_rule. destruct (protocol_parse proto); [|done]. simpl.
    destruct (parse_network_rule_decision decision); [|done]. simpl.
    destruct (parse_justification j); [|done]. simpl. destruct (normalize_network_rule_host host); [|done].
    intros [= <-]. unfold builder_decides. simpl. naive_solver.
  - unfold host_executable. destruct (validate_host_executable_name name); [|done]. simpl.
    destruct (parse_paths _ _ name [] paths); [|done].
    intros [= <-]. unfold builder_decides. simpl. naive_solver.
Qed.

Lemma run_builtins_decides b calls b' cmd d :
  run_builtins b calls = (b', Ok tt) ->
  builder_decides b' cmd d <-> builder_decides b cmd d \/ exists c, c ∈ calls /\ call_decides c cmd d.
Proof.
  revert b; induction calls as [|c calls IH]; intros b; simpl; [intros [= <-]; set_solver|].
  destruct (call_builtin b c) as [b0|] eqn:E; [|done]. intros H. rewrite (IH b0 H).
  rewrite (call_builtin_decides _ _ _ cmd d E). setoid_rewrite elem_of_cons. naive_solver.
Qed.

Lemma parse_Ok b id contents b' :
  parse b id contents = (b', Ok tt) ->
  exists run, eval_module id contents = Ok run /\ run_builtins b (run_calls run) = (b', Ok tt)
  /\ validate_pending_examples_from home_dir current_dir b' (length (pending_example_validations b)) = Ok tt.
Proof.
  unfold PolicyParser.parse. destruct (eval_module id contents) as [run|]; [|done].
  destruct (run_builtins b (run_calls run)) as [b0 [[]|]] eqn:Er; [|done].
  destruct (run_error run); [done|]. intros [= <- H]. by exists run.
Qed.

(** The calls of the files, in order. *)
Definition file_calls (files : list (str * result str io_error)) : list Call :=
  flat_map (fun f => match snd f with
                     | Ok contents => match eval_module (fst f) contents with
                                      | Ok run => run_calls run
                                      | Err _ => []
                                      end
                     | Err _ => []
                     end) files.

Lemma parse_files_decides b files b' cmd d :
  parse_files b files = Ok b' ->
  builder_decides b' cmd d <-> builder_decides b cmd d \/ exists c, c ∈ file_calls files /\ call_decides c cmd d.
Proof.
  revert b; induction files as [|[path [contents|]] files IH]; intros b; simpl; [intros [= <-]; set_solver| |done].
  destruct (parse b path contents) as [b0 [[]|]] eqn:E; [|done]. intros H. rewrite (IH b0 H).
  apply parse_Ok in E as (run & Erun & Er & _). rewrite Erun.
  rewrite (run_builtins_decides _ _ _ cmd d Er). setoid_rewrite elem_of_app. naive_solver.
Qed.

(** What the files and the requirements say of a command. *)
Definition stated (files : list (str * result str io_error)) (requirements : option Policy)
    (cmd : list str) (d : Decision) : Prop :=
  (exists c, c ∈ file_calls files /\ call_decides c cmd d)
  \/ exists q r, requirements = Some q /\ r ∈ program_rules q cmd /\ applies r cmd /\ rule_decision r = d.

Lemma loaded_rules files requirements policy cmd d :
  load_exec_policy home_dir current_dir files requirements = Ok policy ->
  (exists r, r ∈ program_rules policy cmd /\ applies r cmd /\ rule_decision r = d)
  <-> stated files requirements cmd d.
Proof.
  unfold load_exec_policy. destruct (parse_files builder_new files) as [b|] eqn:E; [|done]. simpl.
  assert (H := parse_files_decides _ _ _ cmd d E). unfold stated. intros [= <-].
  assert (Hnew : ~ builder_decides builder_new cmd d).
  { intros (r & Hr & _). unfold program_rules in Hr. destruct cmd; simpl in Hr; [set_solver|].
    rewrite lookup_empty in Hr. set_solver. }
  destruct requirements as [q|]; [|unfold builder_decides in *; naive_solver].
  setoid_rewrite program_rules_merge. setoid_rewrite elem_of_app. unfold builder_decides in *. naive_solver.
Qed.

(** A command some rule is about gets the strictest decision stated for it. *)
Lemma loaded_decision files requirements policy cmd d0 heuristics opts :
  load_exec_policy home_dir current_dir files requirements = Ok policy ->
  stated files requirements cmd d0 ->
  exists e, check_with_options home_dir current_dir policy cmd heuristics opts = Some e
  /\ stated files requirements cmd (decision e)
  /\ forall d, stated files requirements cmd d -> decision_rank d <= decision_rank (decision e).
Proof.
  intros Hl (r & Hr & Ha & _)%(loaded_rules _ _ _ _ _ Hl).
  destruct (matches_cases home_dir current_dir policy cmd heuristics opts) as [Hne H].
  assert (Hms : matches_for_command_with_options home_dir current_dir policy cmd (Some heuristics) opts
                = exact_matches policy cmd).
  { assert (Hex := exact_nonempty _ _ _ Hr Ha). naive_solver. }
  destruct (from_matches_spec _ Hne) as (d & Hd & (m & Hm & Hmd) & Hmax).
  eexists. split; [exact Hd|]. simpl. rewrite Hms in Hm, Hmax. split.
  - apply (loaded_rules _ _ _ _ _ Hl). apply exact_matches_elem in Hm as (r' & Hr' & Hm).
    exists r'. split; [done|]. split; [apply rule_matches_applies; by exists m|].
    rewrite <- Hmd. symmetry. by eapply rule_matches_decision.
  - intros d' (r' & Hr' & Ha' & <-)%(loaded_rules _ _ _ _ _ Hl).
    destruct (exact_matches_applies _ _ _ Hr' Ha') as (m' & Hm' & <-). by apply Hmax.
Qed.

(** C33: loaded policy files mean what their calls say.  Whenever a
    [prefix_rule] call of the files, or a rule of the requirements, is about a
    command (its pattern covers the start of the command), the policy answers
    with a decision stated for the command, and the strictest one. *)
Theorem policy_files_decide files requirements policy cmd d0 heuristics opts :
  load_exec_policy home_dir current_dir files requirements = Ok policy ->
  stated files requirements cmd d0 ->
  exists e, check_with_options home_dir current_dir policy cmd heuristics opts = Some e
  /\ stated files requirements cmd (decision e)
  /\ forall d, stated files requirements cmd d -> decision_rank d <= decision_rank (decision e).
Proof. apply loaded_decision. Qed.

Lemma stated_Permutation files files' requirements cmd d :
  Permutation files files' -> stated files requirements cmd d -> stated files' requirements cmd d.
Proof.
  intros Hp [(c & Hc & Hd)|H]; [left|by right]. exists c. split; [|done].
  unfold file_calls in *. apply list_elem_of_In, in_flat_map in Hc as (f & Hf & Hc).
  apply list_elem_of_In, in_flat_map. exists f. split; [|done]. by eapply Permutation_in.
Qed.

(** The order of the files does not matter to a command that some rule is
    about: however the layers are ordered, the decision is the same, so a rule
    of a layer never overrides a stricter rule of a layer below it. *)
Theorem layer_order_is_irrelevant files files' requirements policy policy' cmd d0 heuristics opts :
  Permutation files files' ->
  load_exec_policy home_dir current_dir files requirements = Ok policy ->
  load_exec_policy home_dir current_dir files' requirements = Ok policy' ->
  stated files requirements cmd d0 ->
  exists e e', check_with_options home_dir current_dir policy cmd heuristics opts = Some e
  /\ check_with_options home_dir current_dir policy' cmd heuristics opts = Some e'
  /\ decision e = decision e'.
Proof.
  intros Hp Hl Hl' Hs. assert (Hs' := stated_Permutation _ _ _ _ _ Hp Hs).
  destruct (loaded_decision _ _ _ _ _ heuristics opts Hl Hs) as (e & He & Hse & Hmax).
  destruct (loaded_decision _ _ _ _ _ heuristics opts Hl' Hs') as (e' & He' & Hse' & Hmax').
  exists e, e'. split_and!; [done|done|].
  apply (stated_Permutation _ _ _ _ _ Hp), Hmax' in Hse. symmetry in Hp.
  apply (stated_Permutation _ _ _ _ _ Hp), Hmax in Hse'.
  destruct (decision e), (decision e'); simpl in *; (done || lia).
Qed.

(** ** Examples *)

(** The rules of a builder by their program. *)
Notation rules_at b w := (default [] (builder_rules b !! w)).

(** The examples an accepted call leaves to be checked, with the rules they are
    about. *)
Definition records_examples (c : Call) (vs : list PendingExampleValidation) : Prop :=
  match builtin c with
  | PrefixRuleCall pattern _ ms nms _ =>
      exists v, v ∈ vs
      /\ transpose_default parse_examples ms = Ok (pending_matches v)
      /\ transpose_default parse_examples nms = Ok (pending_not_matches v)
      /\ forall cmd, (exists r, r ∈ pending_rules v /\ applies r cmd) <-> pattern_covers pattern cmd
  | _ => True
  end.

(** [b'] has what [b] has, and the checks [vs] with their rules. *)
Definition grows (b b' : PolicyBuilder) (vs : list PendingExampleValidation) : Prop :=
  pending_example_validations b' = pending_example_validations b ++ vs
  /\ (forall w r, r ∈ rules_at b w -> r ∈ rules_at b' w)
  /\ forall v r, v ∈ vs -> r ∈ pending_rules v -> r ∈ rules_at b' (first (pattern r)).

Lemma grows_refl b b' :
  pending_example_validations b' = pending_example_validations b -> builder_rules b' = builder_rules b ->
  grows b b' [].
Proof. intros H1 H2. split_and!; [by rewrite app_nil_r|by rewrite H2|set_solver]. Qed.

Lemma grows_trans b b1 b2 vs1 vs2 : grows b b1 vs1 -> grows b1 b2 vs2 -> grows b b2 (vs1 ++ vs2).
Proof.
  intros (H1 & H2 & H3) (H4 & H5 & H6). split_and!; [by rewrite H4, H1, app_assoc|naive_solver|].
  intros v r [Hv|Hv]%elem_of_app Hr; naive_solver.
Qed.

Lemma call_builtin_grows b c b' :
  call_builtin b c = Ok b' -> exists vs, grows b b' vs /\ records_examples c vs.
Proof.
  unfold PolicyParser.call_builtin, records_examples. destruct c as [bi site span]. simpl.
  destruct bi as [pat decision ms nms j|host proto decision j|name paths].
  - intros (d0 & tokens & matches & not_matches & rules & _ & Hp & Hm & Hn & Hr & ->)%prefix_rule_Ok.
    rewrite fold_add_rule. eexists [_]. split.
    + split_and!; simpl; [done|..].
      * intros w r H. apply fold_insert_elem. by left.
      * intros v r ->%list_elem_of_singleton H. apply fold_insert_elem. by right.
    + eexists. split_and!; [by left|done|done|]. intros cmd. simpl. by eapply pattern_rules_cover.
  - unfold network_rule. destruct (protocol_parse proto); [|done]. simpl.
    destruct (parse_network_rule_decision decision); [|done]. simpl.
    destruct (parse_justification j); [|done]. simpl. destruct (normalize_network_rule_host host); [|done].
    intros [= <-]. exists []. split; [|done]. by apply grows_refl.
  - unfold host_executable. destruct (validate_host_executable_name name); [|done]. simpl.
    destruct (parse_paths _ _ name [] paths); [|done].
    intros [= <-]. exists []. split; [|done]. by apply grows_refl.
Qed.

Lemma records_examples_more c vs vs' :
  records_examples c vs -> (forall v, v ∈ vs -> v ∈ vs') -> records_examples c vs'.
Proof. unfold records_examples. destruct (builtin c); naive_solver. Qed.

Lemma run_builtins_grows b calls b' :
  run_builtins b calls = (b', Ok tt) ->
  exists vs, grows b b' vs /\ forall c, c ∈ calls -> records_examples c vs.
Proof.
  revert b; induction calls as [|c calls IH]; intros b; simpl.
  { intros [= <-]. exists []. split; [by apply grows_refl|set_solver]. }
  destruct (call_builtin b c) as [b0|] eqn:E; [|done]. intros H.
  apply call_builtin_grows in E as (vs0 & Hg0 & Hc). apply IH in H as (vs & Hg & Hcs).
  exists (vs0 ++ vs). split; [by eapply grows_trans|].
  intros c' [->|Hc']%elem_of_cons; eapply records_examples_more; [exact Hc| |by apply Hcs|]; set_solver.
Qed.

Lemma validate_all_Ok b vs v :
  validate_all home_dir current_dir b vs = Ok tt -> v ∈ vs -> validate_pending home_dir current_dir b v = Ok tt.
Proof.
  induction vs as [|v' vs IH]; simpl; [set_solver|].
  destruct (validate_pending home_dir current_dir b v') as [[]|] eqn:E; [|done]. simpl.
  intros H [->|Hv]%elem_of_cons; [done|by apply IH].
Qed.

Lemma validate_not_match_Ok p exs :
  validate_not_match_examples home_dir current_dir debug_match shlex_join p exs = Ok tt ->
  Forall (fun ex => matches_for_command_with_options home_dir current_dir p ex None (mkOptions true) = []) exs.
Proof.
  induction exs as [|ex exs IH]; simpl; [done|].
  destruct (matches_for_command_with_options _ _ p ex None _) eqn:E; [|done]. intros H. constructor; auto.
Qed.

Lemma validate_match_Ok p rules exs :
  validate_match_examples home_dir current_dir debug_rule shlex_join p rules exs = Ok tt ->
  Forall (fun ex => matches_for_command_with_options home_dir current_dir p ex None (mkOptions true) <> []) exs.
Proof.
  unfold validate_match_examples. destruct (map _ _) eqn:E; [|done]. intros _. apply map_eq_nil in E.
  apply Forall_forall. intros ex Hex Hnil.
  assert (Hin : In ex []); [|done]. rewrite <- E. apply filter_In. split; [by apply list_elem_of_In|].
  by rewrite Hnil.
Qed.

Lemma validate_pending_Ok b v :
  validate_pending home_dir current_dir b v = Ok tt ->
  Forall (fun ex => matches_for_command_with_options home_dir current_dir (pending_policy b v) ex None
                      (mkOptions true) = []) (pending_not_matches v)
  /\ Forall (fun ex => matches_for_command_with_options home_dir current_dir (pending_policy b v) ex None
                      (mkOptions true) <> []) (pending_matches v).
Proof.
  unfold validate_pending. destruct (validate_not_match_examples _ _ _ _ _ _) as [[]|] eqn:En; [|done]. simpl.
  destruct (validate_match_examples _ _ _ _ _ _ _) as [[]|] eqn:Em; [|done]. intros _.
  split; [by eapply validate_not_match_Ok|by eapply validate_match_Ok].
Qed.

Lemma pending_policy_rules b v w r :
  r ∈ default [] (rules_by_program (pending_policy b v) !! w)
  <-> r ∈ pending_rules v /\ w = first (pattern r).
Proof. simpl. rewrite fold_insert_elem, lookup_empty. simpl. rewrite elem_of_nil. naive_solver. Qed.

(** A command matched by the rules of a check is matched in the policy. *)
Lemma pending_matched b v ex :
  (forall r, r ∈ pending_rules v -> r ∈ rules_at b (first (pattern r))) ->
  matches_for_command_with_options home_dir current_dir (pending_policy b v) ex None (mkOptions true) <> [] ->
  matches_for_command_with_options home_dir current_dir (build b) ex None (mkOptions true) <> [].
Proof.
  intros Hin H%rules_for_nonempty. apply rules_for_nonempty. destruct H as [(r & Hr & Ha)|(r & Hr)].
  - left. exists r. split; [|done]. unfold program_rules in *. destruct ex as [|w ex]; [done|].
    apply pending_policy_rules in Hr as [Hr ->]. by apply Hin.
  - right. exists r. destruct Hr as (p & args & path & base & H1 & H2 & H3 & H4 & Hr & Ha).
    exists p, args, path, base. split_and!; try done.
    apply pending_policy_rules in Hr as [Hr ->]. by apply Hin.
Qed.

(** The examples of an accepted policy file hold.  For each [prefix_rule]
    call of the file, every [match] example is matched by a rule of the policy,
    and no [not_match] example is covered by the pattern of the call. *)
Theorem accepted_examples_hold b id contents b' run c pat decision ms nms j :
  parse b id contents = (b', Ok tt) -> eval_module id contents = Ok run -> c ∈ run_calls run ->
  builtin c = PrefixRuleCall pat decision ms nms j ->
  exists matches not_matches,
    transpose_default parse_examples ms = Ok matches /\ transpose_default parse_examples nms = Ok not_matches
  /\ Forall (fun ex => matches_for_command_with_options home_dir current_dir (build b') ex None
                        (mkOptions true) <> []) matches
  /\ Forall (fun ex => ~ pattern_covers pat ex) not_matches.
Proof.
  intros (run' & Hrun & Hr & Hv)%parse_Ok Hrun' Hc Hb. rewrite Hrun in Hrun'. injection Hrun' as <-.
  apply run_builtins_grows in Hr as (vs & (Hp & _ & Hin) & Hex). specialize (Hex c Hc).
  unfold records_examples in Hex. rewrite Hb in Hex. destruct Hex as (v & Hvs & Hm & Hn & Hcov).
  exists (pending_matches v), (pending_not_matches v). split_and!; [done|done|..].
  all: unfold validate_pending_examples_from in Hv; rewrite Hp, drop_app_length in Hv;
    apply (validate_all_Ok _ _ v) in Hv; [|done]; apply validate_pending_Ok in Hv as [Hnot Hmatch].
  - eapply Forall_impl; [exact Hmatch|]. intros ex. apply pending_matched. intros r Hr. by eapply Hin.
  - eapply Forall_impl; [exact Hnot|]. intros ex Hnil (r & Hr & Ha)%Hcov.
    assert (Hne : matches_for_command_with_options home_dir current_dir (pending_policy b' v) ex None
                    (mkOptions true) <> []); [|done].
    apply rules_for_nonempty. left. exists r. split; [|done]. destruct Ha as (ws & tail & -> & _).
    by apply pending_policy_rules.
Qed.

End meaning.

(** ** Witnesses: a base layer that prompts and a project layer that allows *)

Definition git_prompt : Call :=
  mkCall (PrefixRuleCall [VStr (lit "git"); VList [VStr (lit "push"); VStr (lit "pull")]] (Some (lit "prompt"))
            (Some [VList [VStr (lit "git"); VStr (lit "pull"); VStr (lit "-q")]])
            (Some [VList [VStr (lit "git"); VStr (lit "status")]]) None) None None.

Definition git_allow : Call := mkCall (PrefixRuleCall [VStr (lit "git")] None None None None) None None.

Definition sample_lib : StarlarkLib := {|
  eval_module id _ :=
    Ok (mkRun (if str_eqb id (lit "base.rules") then [git_prompt] else [git_allow]) None);
  shlex_split _ := None; shlex_join _ := None;
  debug_rule _ := []; debug_match _ := []; path_error := [];
|}.

Definition sample_files : list (str * result str io_error) := [(lit "base.rules", Ok []); (lit "p.rules", Ok [])].

Definition sample_loaded (files : list (str * result str io_error)) : Policy :=
  match @load_exec_policy sample_lib None None files None with Ok p => p | Err _ => policy_empty end.

Definition sample_push : list str := [lit "git"; lit "push"; lit "origin"].

Lemma sample_stated : @stated sample_lib sample_files None sample_push Prompt.
Proof.
  left. exists git_prompt. split; [by left|]. split; [reflexivity|].
  exists [lit "git"; lit "push"], [lit "origin"]. split; [done|]. split; [done|].
  constructor; [by left|]. constructor; [|constructor]. right. eexists. split; [done|by left].
Qed.

Lemma policy_files_decide_witness :
  exists e, check_with_options None None (sample_loaded sample_files) sample_push (fun _ => Allow)
              default_match_options = Some e
  /\ @stated sample_lib sample_files None sample_push (decision e)
  /\ forall d, @stated sample_lib sample_files None sample_push d -> decision_rank d <= decision_rank (decision e).
Proof.
  apply (@policy_files_decide sample_lib None None sample_files None (sample_loaded sample_files) sample_push
           Prompt (fun _ => Allow) default_match_options).
  - vm_compute. reflexivity.
  - exact sample_stated.
Defined.

Lemma layer_order_is_irrelevant_witness :
  exists e e', check_with_options None None (sample_loaded sample_files) sample_push (fun _ => Allow)
                 default_match_options = Some e
  /\ check_with_options None None (sample_loaded (rev sample_files)) sample_push (fun _ => Allow)
       default_match_options = Some e'
  /\ decision e = decision e'.
Proof.
  apply (@layer_order_is_irrelevant sample_lib None None sample_files (rev sample_files) None
           (sample_loaded sample_files) (sample_loaded (rev sample_files)) sample_push Prompt
           (fun _ => Allow) default_match_options).
  - apply Permutation_rev.
  - vm_compute. reflexivity.
  - vm_compute. reflexivity.
  - exact sample_stated.
Defined.

Lemma accepted_examples_hold_witness :
  exists matches not_matches,
    @transpose_default _ _ _ (@parse_examples sample_lib) (Some [VList [VStr (lit "git"); VStr (lit "pull"); VStr (lit "-q")]])
      = Ok matches
  /\ @transpose_default _ _ _ (@parse_examples sample_lib) (Some [VList [VStr (lit "git"); VStr (lit "status")]])
      = Ok not_matches
  /\ Forall (fun ex => matches_for_command_with_options None None
                         (build (fst (@parse sample_lib None None builder_new (lit "base.rules") []))) ex None
                         (mkOptions true) <> []) matches
  /\ Forall (fun ex => ~ pattern_covers [VStr (lit "git"); VList [VStr (lit "push"); VStr (lit "pull")]] ex)
       not_matches.
Proof.
  apply (@accepted_examples_hold sample_lib None None builder_new (lit "base.rules") [] _
           (mkRun [git_prompt] None) git_prompt _ (Some (lit "prompt")) _ _ None).
  - vm_compute. reflexivity.
  - reflexivity.
  - by left.
  - reflexivity.
Defined.
