(* ===== verification/ExecApproval.v ===== *)
(** * Approval of commands

    core/src/exec_policy.rs and exec_policy/model_policy.rs on a Unix build: what
    a command needs before it runs.  The command is split into plain commands
    (ShellCommand), checked against the policy (ExecPolicy) with a fallback for
    commands no rule mentions, and the decision is turned into an
    [ExecApprovalRequirement]; an accepted amendment is added to the policy.
    Also the first-attempt sandbox choice of core/src/tools/sandboxing.rs and
    the permission types of protocol it reads.  The [shlex] quoting of a command
    in a message is the parameter [try_join]. *)

From S2P Require Import Prelude RustStr ShellCommand AbsolutePath Permissions ExecPolicy PolicyMatching.

(** ** protocol: approval policies and permissions *)

Record GranularApprovalConfig := mkGranular {
  sandbox_approval : bool;
  rules_approval : bool;
  skill_approval : bool;
  request_permissions : bool;
  mcp_elicitations : bool;
}.

Inductive AskForApproval :=
| UnlessTrusted
| OnRequest
| Granular (config : GranularApprovalConfig)
| Never.

Inductive SandboxPermissions := UseDefault | RequireEscalated | WithAdditionalPermissions.

Definition requires_escalated_permissions (s : SandboxPermissions) : bool :=
  match s with RequireEscalated => true | _ => false end.

Definition requests_sandbox_override (s : SandboxPermissions) : bool :=
  match s with UseDefault => false | _ => true end.

Inductive ManagedFileSystemPermissions :=
| ManagedRestricted (entries : list FileSystemSandboxEntry) (max_depth : option N)
| ManagedUnrestricted.

Definition to_sandbox_policy (p : ManagedFileSystemPermissions) : FileSystemSandboxPolicy :=
  match p with
  | ManagedRestricted entries max_depth => mkFsPolicy Restricted max_depth entries
  | ManagedUnrestricted => fs_unrestricted
  end.

Inductive PermissionProfile :=
| Managed (file_system : ManagedFileSystemPermissions) (network : NetworkSandboxPolicy)
| Disabled
| External (network : NetworkSandboxPolicy).

Definition file_system_sandbox_policy (p : PermissionProfile) : FileSystemSandboxPolicy :=
  match p with
  | Managed file_system _ => to_sandbox_policy file_system
  | Disabled => fs_unrestricted
  | External _ => fs_external_sandbox
  end.

(** ** Requirements *)

Inductive ExecApprovalRequirement :=
| Skip (bypass_sandbox : bool) (proposed_execpolicy_amendment : option (list str))
| NeedsApproval (reason : option str) (proposed_execpolicy_amendment : option (list str))
| ForbiddenExec (reason : str).

Inductive AllowPrefixRules := Honor | IgnoreForCyberModel.

Definition is_policy_match (m : RuleMatch) : bool :=
  match m with PrefixRuleMatch _ _ _ _ => true | HeuristicsRuleMatch _ _ => false end.

Definition decision_is (d : Decision) (m : RuleMatch) : bool := bool_decide (rule_match_decision m = d).

Definition PROMPT_CONFLICT_REASON : str :=
  lit "approval required by policy, but AskForApproval is set to Never".
Definition REJECT_SANDBOX_APPROVAL_REASON : str :=
  lit "approval required by policy, but AskForApproval::Granular.sandbox_approval is false".
Definition REJECT_RULES_APPROVAL_REASON : str :=
  lit "approval required by policy rule, but AskForApproval::Granular.rules is false".

Definition prompt_is_rejected_by_policy (approval_policy : AskForApproval) (prompt_is_rule : bool)
    : option str :=
  match approval_policy with
  | Never => Some PROMPT_CONFLICT_REASON
  | OnRequest | UnlessTrusted => None
  | Granular granular_config =>
      if prompt_is_rule then
        if negb (rules_approval granular_config) then Some REJECT_RULES_APPROVAL_REASON else None
      else if negb (sandbox_approval granular_config) then Some REJECT_SANDBOX_APPROVAL_REASON
      else None
  end.

Definition BANNED_PREFIX_SUGGESTIONS : list (list str) :=
  [[lit "/bin/bash"]; [lit "/bin/bash"; lit "-c"]; [lit "/bin/bash"; lit "-lc"];
   [lit "/bin/sh"]; [lit "/bin/sh"; lit "-c"]; [lit "/bin/sh"; lit "-lc"];
   [lit "/bin/zsh"]; [lit "/bin/zsh"; lit "-c"]; [lit "/bin/zsh"; lit "-lc"];
   [lit "Rscript"]; [lit "bash"]; [lit "bash"; lit "-c"]; [lit "bash"; lit "-lc"];
   [lit "bun"]; [lit "bun"; lit "-e"]; [lit "bun"; lit "run"];
   [lit "cmd"]; [lit "cmd"; lit "/c"]; [lit "cmd"; lit "/k"];
   [lit "cmd.exe"]; [lit "cmd.exe"; lit "/c"]; [lit "cmd.exe"; lit "/k"];
   [lit "dash"]; [lit "dash"; lit "-c"]; [lit "deno"]; [lit "deno"; lit "eval"]; [lit "env"];
   [lit "fish"]; [lit "fish"; lit "-c"]; [lit "git"]; [lit "julia"]; [lit "julia"; lit "-e"];
   [lit "ksh"]; [lit "ksh"; lit "-c"]; [lit "lua"]; [lit "lua"; lit "-e"];
   [lit "node"]; [lit "node"; lit "-e"]; [lit "nodejs"]; [lit "nodejs"; lit "-e"];
   [lit "npm"; lit "run"]; [lit "osascript"]; [lit "perl"]; [lit "perl"; lit "-e"];
   [lit "php"]; [lit "php"; lit "-r"]; [lit "pnpm"; lit "run"];
   [lit "powershell"]; [lit "powershell"; lit "-Command"]; [lit "powershell"; lit "-EncodedCommand"];
   [lit "powershell"; lit "-File"]; [lit "powershell"; lit "-c"];
   [lit "powershell.exe"]; [lit "powershell.exe"; lit "-Command"];
   [lit "powershell.exe"; lit "-EncodedCommand"]; [lit "powershell.exe"; lit "-File"];
   [lit "powershell.exe"; lit "-c"];
   [lit "pwsh"]; [lit "pwsh"; lit "-Command"]; [lit "pwsh"; lit "-EncodedCommand"];
   [lit "pwsh"; lit "-File"]; [lit "pwsh"; lit "-c"]; [lit "pwsh"; lit "-e"];
   [lit "pwsh"; lit "-ec"]; [lit "pwsh"; lit "-f"]; [lit "py"]; [lit "py"; lit "-3"];
   [lit "pypy"]; [lit "pypy3"]; [lit "python"]; [lit "python"; lit "-"]; [lit "python"; lit "-c"];
   [lit "python3"]; [lit "python3"; lit "-"]; [lit "python3"; lit "-c"];
   [lit "pythonw"]; [lit "pyw"]; [lit "rm"]; [lit "ruby"]; [lit "ruby"; lit "-e"];
   [lit "sh"]; [lit "sh"; lit "-c"]; [lit "sh"; lit "-lc"]; [lit "sudo"]; [lit "yarn"; lit "run"];
   [lit "zsh"]; [lit "zsh"; lit "-c"]; [lit "zsh"; lit "-lc"]].

(** [Iterator::max_by_key]: the last of the largest. *)
Definition max_by_key {A} (key : A -> nat) (l : list A) : option A :=
  fold_left (fun best x =>
               match best with
               | Some b => if key b <=? key x then Some x else Some b
               | None => Some x
               end) l None.

Definition dangerous_command_rejection_reason (d : DangerousCommandMatch) : str :=
  match d with
  | ForcedRm => lit "rm -f style commands are not permitted. Use a safer approach"
  | OtherMatch => lit "blocked by policy"
  end.

Definition derive_rejected_prompt_reason (fallback_reason : str) (d : option DangerousCommandMatch)
    : str :=
  match d with
  | Some ForcedRm => dangerous_command_rejection_reason ForcedRm
  | Some OtherMatch | None => fallback_reason
  end.

(** ** Amendments *)

Definition heuristic_command (d : Decision) (m : RuleMatch) : option (list str) :=
  match m with
  | HeuristicsRuleMatch command decision => if bool_decide (decision = d) then Some command else None
  | _ => None
  end.

Definition try_derive_execpolicy_amendment_for_prompt_rules (matched : list RuleMatch)
    : option (list str) :=
  if existsb (fun m => is_policy_match m && decision_is Prompt m) matched then None
  else find_map (heuristic_command Prompt) matched.

Definition try_derive_execpolicy_amendment_for_allow_rules (matched : list RuleMatch)
    : option (list str) :=
  if existsb is_policy_match matched then None else find_map (heuristic_command Allow) matched.

(** ** The fallback for commands no rule matches *)

Record UnmatchedCommandContext := mkUnmatched {
  um_approval_policy : AskForApproval;
  um_permission_profile : PermissionProfile;
  um_sandbox_permissions : SandboxPermissions;
}.

Record ExecApprovalRequest := mkRequest {
  req_command : list str;
  req_approval_policy : AskForApproval;
  req_permission_profile : PermissionProfile;
  req_environment_policy : option Policy;
  req_sandbox_permissions : SandboxPermissions;
  req_prefix_rule : option (list str);
  req_allow_prefix_rules : AllowPrefixRules;
}.

(** [current_for_prefix_rules]: a program whose rules all go has no entry. *)
Definition without_allow (rules : list PrefixRule) : option (list PrefixRule) :=
  match List.filter (fun r => negb (bool_decide (rule_decision r = Allow))) rules with
  | [] => None
  | kept => Some kept
  end.

Definition current_for_prefix_rules (policy : Policy) (allow_prefix_rules : AllowPrefixRules) : Policy :=
  match allow_prefix_rules with
  | Honor => policy
  | IgnoreForCyberModel =>
      mkPolicy (omap without_allow (rules_by_program policy)) (network_rules policy)
        (host_executables_by_name policy)
  end.

Definition current_for_environment (policy : Policy) (environment_policy : option Policy)
    (allow_prefix_rules : AllowPrefixRules) : Policy :=
  let policy := current_for_prefix_rules policy allow_prefix_rules in
  match environment_policy with
  | Some environment_policy => merge_overlay policy environment_policy
  | None => policy
  end.

Section approval.
Context {parser : BashParser} (home_dir current_dir : option str)
        (try_join : list str -> option str).

Definition commands_for_exec_policy (command : list str) : list (list str) :=
  match parse_shell_lc_plain_commands command with
  | Some (c :: commands) => c :: commands
  | _ => [command]
  end.

Definition render_decision_for_unmatched_command (ctx : UnmatchedCommandContext) (command : list str)
    : Decision :=
  match dangerous_command_match command with
  | Some _ =>
      match um_approval_policy ctx with
      | Never => Forbidden
      | OnRequest | UnlessTrusted | Granular _ => Prompt
      end
  | None =>
      match um_approval_policy ctx with
      | Never => Allow
      | UnlessTrusted => Prompt
      | OnRequest | Granular _ =>
          match fs_kind (file_system_sandbox_policy (um_permission_profile ctx)) with
          | Unrestricted | ExternalSandbox => Allow
          | Restricted =>
              if requests_sandbox_override (um_sandbox_permissions ctx) then Prompt else Allow
          end
      end
  end.

Definition dangerous_command_match_for_heuristics (e : Evaluation) (d : Decision)
    : option DangerousCommandMatch :=
  find_map (fun m => command ← heuristic_command d m; dangerous_command_match command)
    (matched_rules e).

Definition render_shlex_command (args : list str) : str :=
  default (join [ch_space] args) (try_join args).

Definition prompt_rule (m : RuleMatch) : option (nat * option str) :=
  match m with
  | PrefixRuleMatch matched_prefix Prompt _ justification => Some (length matched_prefix, justification)
  | _ => None
  end.

Definition derive_prompt_reason (command_args : list str) (e : Evaluation) : option str :=
  let command := render_shlex_command command_args in
  match max_by_key fst (omap prompt_rule (matched_rules e)) with
  | Some (_, Some justification) =>
      Some (lit "`" ++ command ++ lit "` requires approval: " ++ justification)
  | Some (_, None) => Some (lit "`" ++ command ++ lit "` requires approval by policy")
  | None => None
  end.

Definition forbidden_rule (m : RuleMatch) : option (list str * option str) :=
  match m with
  | PrefixRuleMatch matched_prefix Forbidden _ justification => Some (matched_prefix, justification)
  | _ => None
  end.

Definition derive_forbidden_reason (command_args : list str) (e : Evaluation)
    (d : option DangerousCommandMatch) : str :=
  let command := render_shlex_command command_args in
  match max_by_key (fun r => length (fst r)) (omap forbidden_rule (matched_rules e)) with
  | Some (_, Some justification) => lit "`" ++ command ++ lit "` rejected: " ++ justification
  | Some (matched_prefix, None) =>
      lit "`" ++ command ++ lit "` rejected: policy forbids commands starting with `"
        ++ render_shlex_command matched_prefix ++ lit "`"
  | None =>
      match d with
      | Some d => lit "`" ++ command ++ lit "` rejected: " ++ dangerous_command_rejection_reason d
      | None => lit "`" ++ command ++ lit "` rejected: blocked by policy"
      end
  end.

(** [commands.iter().all(..)] over checks, which may panic. *)
Fixpoint all_allowed (p : Policy) (fallback : list str -> Decision) (options : MatchOptions)
    (commands : list (list str)) : option bool :=
  match commands with
  | [] => Some true
  | c :: commands' =>
      e ← check_with_options home_dir current_dir p c fallback options;
      if bool_decide (decision e = Allow) then all_allowed p fallback options commands'
      else Some false
  end.

Definition prefix_rule_would_approve_all_commands (p : Policy) (prefix_rule : list str)
    (commands : list (list str)) (fallback : list str -> Decision) (options : MatchOptions)
    : option bool :=
  match add_prefix_rule p prefix_rule Allow with
  | Err _ => Some false
  | Ok policy_with_prefix_rule => all_allowed policy_with_prefix_rule fallback options commands
  end.

Definition is_banned (prefix_rule : list str) : bool :=
  existsb (fun banned => bool_decide (prefix_rule = banned)) BANNED_PREFIX_SUGGESTIONS.

Definition derive_requested_execpolicy_amendment_from_prefix_rule (prefix_rule : option (list str))
    (matched : list RuleMatch) (p : Policy) (commands : list (list str))
    (fallback : list str -> Decision) (options : MatchOptions) : option (option (list str)) :=
  match prefix_rule with
  | None => Some None
  | Some prefix_rule =>
      if is_nil prefix_rule then Some None
      else if is_banned prefix_rule then Some None
      else if existsb is_policy_match matched then Some None
      else
        approved ← prefix_rule_would_approve_all_commands p prefix_rule commands fallback options;
        Some (if (approved : bool) then Some prefix_rule else None)
  end.

Definition request_fallback (req : ExecApprovalRequest) : list str -> Decision :=
  render_decision_for_unmatched_command
    (mkUnmatched (req_approval_policy req) (req_permission_profile req)
       (req_sandbox_permissions req)).

Definition request_options : MatchOptions := mkOptions true.

Definition request_policy (policy : Policy) (req : ExecApprovalRequest) : Policy :=
  current_for_environment policy (req_environment_policy req) (req_allow_prefix_rules req).

Definition auto_amendment_allowed (req : ExecApprovalRequest) : bool :=
  match req_allow_prefix_rules req with Honor => true | IgnoreForCyberModel => false end.

Definition requested_amendment (policy : Policy) (req : ExecApprovalRequest) (e : Evaluation)
    : option (option (list str)) :=
  if auto_amendment_allowed req then
    derive_requested_execpolicy_amendment_from_prefix_rule (req_prefix_rule req) (matched_rules e)
      (request_policy policy req) (commands_for_exec_policy (req_command req))
      (request_fallback req) request_options
  else Some None.

(** An explicit allow rule matches the command. *)
Definition explicitly_allowed (p : Policy) (command : list str) : bool :=
  existsb (fun m => is_policy_match m && decision_is Allow m)
    (matches_for_command_with_options home_dir current_dir p command None request_options).

Definition create_exec_approval_requirement_for_command (policy : Policy) (req : ExecApprovalRequest)
    : option ExecApprovalRequirement :=
  let commands := commands_for_exec_policy (req_command req) in
  let exec_policy := request_policy policy req in
  e ← check_multiple_with_options home_dir current_dir exec_policy commands (request_fallback req)
        request_options;
  requested ← requested_amendment policy req e;
  Some
    match decision e with
    | Forbidden =>
        ForbiddenExec (derive_forbidden_reason (req_command req) e
                         (dangerous_command_match_for_heuristics e Forbidden))
    | Prompt =>
        let prompt_is_rule :=
          existsb (fun m => is_policy_match m && decision_is Prompt m) (matched_rules e) in
        match prompt_is_rejected_by_policy (req_approval_policy req) prompt_is_rule with
        | Some reason =>
            if prompt_is_rule then ForbiddenExec reason
            else ForbiddenExec (derive_rejected_prompt_reason reason
                                  (dangerous_command_match_for_heuristics e Prompt))
        | None =>
            NeedsApproval (derive_prompt_reason (req_command req) e)
              (match requested with
               | Some amendment => Some amendment
               | None =>
                   if auto_amendment_allowed req
                   then try_derive_execpolicy_amendment_for_prompt_rules (matched_rules e)
                   else None
               end)
        end
    | Allow =>
        Skip (forallb (explicitly_allowed exec_policy) commands)
          (if auto_amendment_allowed req
           then try_derive_execpolicy_amendment_for_allow_rules (matched_rules e) else None)
    end.

(** The in-memory part of [append_amendment_and_update]. *)
Definition already_allowed (policy : Policy) (amendment : list str) : option bool :=
  e ← check_multiple_with_options home_dir current_dir policy [amendment] (fun _ => Forbidden)
        request_options;
  Some (bool_decide (decision e = Allow)
        && existsb (fun m => is_policy_match m && decision_is Allow m) (matched_rules e)).

Definition update_policy (policy : Policy) (amendment : list str) : option (result Policy Error) :=
  already ← already_allowed policy amendment;
  Some (if (already : bool) then Ok policy else add_prefix_rule policy amendment Allow).

End approval.

(** ** core/src/tools/sandboxing.rs *)

Definition needs_default_approval (policy : AskForApproval) (fs : FileSystemSandboxPolicy) : bool :=
  match policy with
  | Never => false
  | OnRequest | Granular _ => match fs_kind fs with Restricted => true | _ => false end
  | UnlessTrusted => true
  end.

Definition default_exec_approval_requirement (policy : AskForApproval) (fs : FileSystemSandboxPolicy)
    : ExecApprovalRequirement :=
  let needs_approval := needs_default_approval policy fs in
  if needs_approval
     && match policy with Granular config => negb (sandbox_approval config) | _ => false end
  then ForbiddenExec (lit "approval policy disallowed sandbox approval prompt")
  else if needs_approval then NeedsApproval None None
  else Skip false None.

Inductive SandboxOverride := NoOverride | BypassSandboxFirstAttempt.

Definition unsandboxed_execution_allowed (fs : FileSystemSandboxPolicy) : bool :=
  negb (has_denied_read_restrictions fs).

Definition sandbox_override_for_first_attempt (sandbox_permissions : SandboxPermissions)
    (requirement : ExecApprovalRequirement) (fs : FileSystemSandboxPolicy) : SandboxOverride :=
  if negb (unsandboxed_execution_allowed fs) then NoOverride
  else match requirement with
       | Skip true _ => BypassSandboxFirstAttempt
       | _ => if requires_escalated_permissions sandbox_permissions
              then BypassSandboxFirstAttempt else NoOverride
       end.

Definition sandbox_permissions_preserving_denied_reads (sandbox_permissions : SandboxPermissions)
    (fs : FileSystemSandboxPolicy) : SandboxPermissions :=
  if requires_escalated_permissions sandbox_permissions && negb (unsandboxed_execution_allowed fs)
  then UseDefault else sandbox_permissions.

(** ** Matches with and without the fallback *)

Section properties.
Context {parser : BashParser} (home_dir current_dir : option str)
        (try_join : list str -> option str).
Notation matches_with := (matches_for_command_with_options home_dir current_dir).
Notation requirement := (create_exec_approval_requirement_for_command home_dir current_dir try_join).

(** The rules that match a command. *)
Notation rules_for p c := (matches_with p c None request_options).
Notation has_rule := (has_rule home_dir current_dir).
Notation host_rule := (host_rule home_dir current_dir).

Lemma rules_for_policy_match p c opts m : m ∈ matches_with p c None opts -> is_policy_match m = true.
Proof.
  intros Hm. destruct (matches_cases home_dir current_dir p c (fun _ => Allow) opts) as [_ H].
  rewrite matches_fallback in H. destruct (matches_with p c None opts) as [|m0 ms] eqn:E.
  { by apply not_elem_of_nil in Hm. }
  assert (match m with HeuristicsRuleMatch _ _ => false | _ => true end = true); [|by destruct m].
  destruct H as [[_ H]|[[_ H]|[_ H]]].
  - rewrite H in Hm. by eapply exact_not_heuristic.
  - rewrite H in Hm. by eapply host_not_heuristic.
  - assert (E' : matches_with p c None opts = [HeuristicsRuleMatch c Allow]) by congruence.
    unfold matches_for_command_with_options in E'.
    destruct (match_exact_rules p c) as [[|x xs]|] eqn:Ex.
    2:{ assert (Hx : x ∈ exact_matches p c) by (rewrite <- match_exact_rules_eq, Ex; by left).
        apply exact_not_heuristic in Hx. by simplify_eq. }
    all: destruct (resolve_host_executables opts); [|done].
    all: destruct (match_host_executable_rules home_dir current_dir p c) as [|y ys] eqn:Ey; [done|].
    all: assert (Hy : y ∈ match_host_executable_rules home_dir current_dir p c) by (rewrite Ey; by left).
    all: apply host_not_heuristic in Hy; by simplify_eq.
Qed.

(** A rule or, failing all rules, the fallback decides [d] for the command. *)
Definition raises (p : Policy) (f : list str -> Decision) (d : Decision) (c : list str) : Prop :=
  has_rule p d c \/ (rules_for p c = [] /\ f c = d).

Lemma raises_matches p f d c :
  raises p f d c <-> exists m, m ∈ matches_with p c (Some f) request_options /\ rule_match_decision m = d.
Proof.
  unfold raises, PolicyMatching.has_rule. fold request_options. rewrite matches_fallback. destruct (rules_for p c) as [|m0 ms] eqn:E.
  - setoid_rewrite list_elem_of_singleton. split.
    + intros [(m & Hm & _)|[_ <-]]; [by apply not_elem_of_nil in Hm|]. by eexists.
    + intros (m & -> & <-). auto.
  - naive_solver.
Qed.

(** ** Checking the commands of a request *)

Lemma commands_nonempty command : commands_for_exec_policy command <> [].
Proof. unfold commands_for_exec_policy. by repeat case_match. Qed.

Lemma all_matches_elem p f commands m :
  m ∈ flat_map (fun c => matches_with p c (Some f) request_options) commands
  <-> exists c, c ∈ commands /\ m ∈ matches_with p c (Some f) request_options.
Proof. rewrite list_elem_of_In, in_flat_map. by setoid_rewrite <- list_elem_of_In. Qed.

Lemma matches_nonempty p c f : matches_with p c (Some f) request_options <> [].
Proof. apply matches_cases. Qed.

Lemma check_multiple_spec p f commands : commands <> [] ->
  exists e, check_multiple_with_options home_dir current_dir p commands f request_options = Some e
  /\ matched_rules e = flat_map (fun c => matches_with p c (Some f) request_options) commands
  /\ (exists c, c ∈ commands /\ raises p f (decision e) c)
  /\ (forall c d, c ∈ commands -> raises p f d c -> decision_rank d <= decision_rank (decision e)).
Proof.
  intros Hne. unfold check_multiple_with_options. set (all := flat_map _ commands).
  assert (Hall : all <> []).
  { destruct commands as [|c cs]; [done|]. unfold all. simpl.
    pose proof (matches_nonempty p c f). by destruct (matches_with p c (Some f) request_options). }
  destruct (from_matches_spec all Hall) as (d & -> & (m & Hm & Hd) & Hmax).
  exists (mkEvaluation d all). split_and!; [done|done|..]; simpl.
  - apply all_matches_elem in Hm as (c & Hc & Hm). exists c. split; [done|].
    apply raises_matches. eauto.
  - intros c d' Hc (m' & Hm' & <-)%raises_matches. apply Hmax, all_matches_elem. eauto.
Qed.

Lemma all_allowed_spec p f commands :
  exists b, all_allowed home_dir current_dir p f request_options commands = Some b
  /\ (b = true <-> forall c d, c ∈ commands -> raises p f d c -> d = Allow).
Proof.
  induction commands as [|c cs IH]; simpl.
  { exists true. split; [done|]. split; [|done]. intros _ c d Hc. by apply not_elem_of_nil in Hc. }
  unfold check_with_options. destruct (from_matches_spec _ (matches_nonempty p c f))
    as (d & -> & (m & Hm & Hd) & Hmax). cbn [mbind option_bind decision].
  assert (Hr : raises p f d c) by (apply raises_matches; eauto).
  case_bool_decide as E.
  - destruct IH as (b & -> & Hb). exists b. split; [done|]. rewrite Hb. split; [|set_solver].
    intros H c' d' [->|Hc]%elem_of_cons Hr'; [|by eapply H].
    apply raises_matches in Hr' as (m' & Hm' & <-). specialize (Hmax m' Hm'). rewrite E in Hmax.
    destruct (rule_match_decision m'); simpl in Hmax; (done || lia).
  - exists false. split; [done|]. split; [done|]. intros H. exfalso. apply E, (H c); [by left|done].
Qed.

Lemma requested_amendment_total policy req e :
  is_Some (requested_amendment home_dir current_dir policy req e).
Proof.
  unfold requested_amendment, derive_requested_execpolicy_amendment_from_prefix_rule,
    prefix_rule_would_approve_all_commands.
  repeat case_match; try done.
  destruct (all_allowed_spec a (request_fallback req) (commands_for_exec_policy (req_command req)))
    as (b & -> & _). done.
Qed.

(** The fallback runs a command unprompted. *)
Definition unprompted (req : ExecApprovalRequest) (c : list str) : Prop :=
  dangerous_command_match c = None /\ req_approval_policy req <> UnlessTrusted
  /\ (req_approval_policy req = Never
      \/ fs_kind (file_system_sandbox_policy (req_permission_profile req)) <> Restricted
      \/ req_sandbox_permissions req = UseDefault).

Lemma fallback_spec req c :
  (request_fallback req c = Allow <-> unprompted req c)
  /\ (request_fallback req c = Forbidden
      <-> req_approval_policy req = Never /\ dangerous_command_match c <> None).
Proof.
  unfold request_fallback, render_decision_for_unmatched_command, unprompted. simpl.
  destruct (dangerous_command_match c); destruct (req_approval_policy req); simpl;
    try (split; naive_solver).
  all: destruct (fs_kind _), (req_sandbox_permissions req); simpl; split; naive_solver.
Qed.

(** ** Requirements *)

Lemma rule_exists p f commands e d :
  matched_rules e = flat_map (fun c => matches_with p c (Some f) request_options) commands ->
  existsb (fun m => is_policy_match m && decision_is d m) (matched_rules e) = true
  <-> exists c, c ∈ commands /\ has_rule p d c.
Proof.
  intros ->. rewrite existsb_exists. setoid_rewrite <- list_elem_of_In.
  setoid_rewrite andb_true_iff. unfold decision_is, PolicyMatching.has_rule. fold request_options. setoid_rewrite bool_decide_eq_true.
  setoid_rewrite all_matches_elem. split.
  - intros (m & (c & Hc & Hm) & Hp & Hd). exists c. split; [done|]. exists m. split; [|done].
    rewrite matches_fallback in Hm. destruct (rules_for p c) eqn:E; [|done].
    apply list_elem_of_singleton in Hm as ->. done.
  - intros (c & Hc & m & Hm & Hd). pose proof (rules_for_policy_match _ _ _ _ Hm) as Hp.
    exists m. split_and!; [|done|done]. exists c. split; [done|]. rewrite matches_fallback.
    destruct (rules_for p c); [by apply not_elem_of_nil in Hm|done].
Qed.

Lemma explicitly_allowed_spec p c : explicitly_allowed home_dir current_dir p c = true <-> has_rule p Allow c.
Proof.
  unfold explicitly_allowed, PolicyMatching.has_rule. fold request_options. rewrite existsb_exists. setoid_rewrite <- list_elem_of_In.
  setoid_rewrite andb_true_iff. unfold decision_is. setoid_rewrite bool_decide_eq_true.
  split; [naive_solver|]. intros (m & Hm & Hd). pose proof (rules_for_policy_match _ _ _ _ Hm). eauto.
Qed.

(** C34: every request gets an answer, and the answer is right.  A command runs
    without approval only if no rule forbids or prompts for any command of its
    script and each command no rule mentions is not dangerous and covered by
    the approval policy; it leaves the sandbox only if every command is allowed
    by a rule.  Approval is asked for only when nothing is forbidden, something
    prompts and the approval policy lets this prompt through; anything else is
    refused, and then for a reason. *)
Theorem approval_requirement_sound policy req :
  let commands := commands_for_exec_policy (req_command req) in
  let p := request_policy policy req in
  let f := request_fallback req in
  let rejected := exists b : bool, (b = true <-> exists c, c ∈ commands /\ has_rule p Prompt c)
                    /\ prompt_is_rejected_by_policy (req_approval_policy req) b <> None in
  commands <> [] /\ exists r, requirement policy req = Some r
  /\ match r with
     | Skip bypass _ =>
         (forall c, c ∈ commands -> ~ has_rule p Forbidden c /\ ~ has_rule p Prompt c
                                    /\ (rules_for p c = [] -> unprompted req c))
         /\ (bypass = true <-> forall c, c ∈ commands -> has_rule p Allow c)
     | NeedsApproval _ _ =>
         (forall c, c ∈ commands -> ~ raises p f Forbidden c)
         /\ (exists c, c ∈ commands /\ raises p f Prompt c)
         /\ req_approval_policy req <> Never /\ ~ rejected
     | ForbiddenExec _ =>
         (exists c, c ∈ commands /\ has_rule p Forbidden c)
         \/ (req_approval_policy req = Never
             /\ exists c, c ∈ commands /\ rules_for p c = [] /\ dangerous_command_match c <> None)
         \/ ((exists c, c ∈ commands /\ raises p f Prompt c) /\ rejected)
     end.
Proof.
  intros commands p f rejected. assert (Hne : commands <> []) by apply commands_nonempty.
  split; [done|]. destruct (check_multiple_spec p f commands Hne) as (e & He & Hms & (c0 & Hc0 & Hr0) & Hmax).
  destruct (requested_amendment_total policy req e) as [a Ha].
  unfold create_exec_approval_requirement_for_command. fold commands p f. rewrite He.
  cbn [mbind option_bind]. rewrite Ha. cbn [mbind option_bind]. eexists. split; [done|].
  assert (Hrank : forall d c, c ∈ commands -> raises p f d c -> decision_rank d <= decision_rank (decision e)).
  { intros d c Hc. by apply Hmax. }
  assert (Hb := rule_exists p f commands e Prompt Hms). set (b := existsb _ _) in *.
  destruct (decision e) eqn:Ed.
  - split.
    + intros c Hc. split_and!.
      * intros H. specialize (Hrank Forbidden c Hc (or_introl H)). simpl in Hrank. lia.
      * intros H. specialize (Hrank Prompt c Hc (or_introl H)). simpl in Hrank. lia.
      * intros H. apply fallback_spec. destruct (request_fallback req c) eqn:Ef; [done|..].
        -- specialize (Hrank Prompt c Hc (or_intror (conj H Ef))). simpl in Hrank. lia.
        -- specialize (Hrank Forbidden c Hc (or_intror (conj H Ef))). simpl in Hrank. lia.
    + rewrite forallb_forall. setoid_rewrite <- list_elem_of_In.
      by setoid_rewrite explicitly_allowed_spec.
  - destruct (prompt_is_rejected_by_policy (req_approval_policy req) b) as [reason|] eqn:Er.
    + assert (rejected) by (exists b; by rewrite Er). destruct b; right; right; eauto.
    + split_and!; [|by eauto| |].
      * intros c Hc H. specialize (Hrank Forbidden c Hc H). simpl in Hrank. lia.
      * intros E. by rewrite E in Er.
      * intros (b' & Hb' & Hn). destruct Hn. rewrite <- Er. f_equal.
        destruct b, b'; try done; naive_solver.
  - destruct Hr0 as [Hr0|[Hr0 Hf]]; [left; eauto|]. right; left.
    apply fallback_spec in Hf as [??]. eauto.
Qed.

(** ** Accepted amendments *)

(** ** Policies without allow rules *)

(** [p'] has the rules of [p] but for some that allow. *)
Definition keeps_restrictions (p p' : Policy) : Prop :=
  host_executables_by_name p' = host_executables_by_name p
  /\ forall w r, (r ∈ default [] (rules_by_program p' !! w) -> r ∈ default [] (rules_by_program p !! w))
              /\ (rule_decision r <> Allow -> r ∈ default [] (rules_by_program p !! w) ->
                  r ∈ default [] (rules_by_program p' !! w)).

Lemma without_allow_elem r rules :
  r ∈ default [] (without_allow rules) <-> r ∈ rules /\ rule_decision r <> Allow.
Proof.
  trans (r ∈ List.filter (fun r => negb (bool_decide (rule_decision r = Allow))) rules).
  { unfold without_allow. by destruct (List.filter _ rules). }
  rewrite list_elem_of_In, filter_In, <- list_elem_of_In, negb_true_iff, bool_decide_eq_false. done.
Qed.

Lemma ignored_keeps_restrictions policy env :
  keeps_restrictions (current_for_environment policy env Honor)
    (current_for_environment policy env IgnoreForCyberModel).
Proof.
  assert (H : keeps_restrictions policy (current_for_prefix_rules policy IgnoreForCyberModel)).
  { split; [done|]. intros w r. simpl. rewrite lookup_omap.
    destruct (rules_by_program policy !! w) as [rules|]; [|set_solver].
    change (Some rules ≫= without_allow) with (without_allow rules). simpl. rewrite without_allow_elem.
    naive_solver. }
  destruct env as [env|]; [|done]. destruct H as [Hh Hr].
  set (p' := current_for_prefix_rules policy IgnoreForCyberModel) in *.
  change (keeps_restrictions (merge_overlay policy env) (merge_overlay p' env)).
  split; [done|]. clear Hh. clearbody p'. intros w r. simpl. rewrite !lookup_union_with.
  specialize (Hr w r). destruct (rules_by_program policy !! w), (rules_by_program p' !! w),
    (rules_by_program env !! w); set_solver.
Qed.

Lemma restrictions_exact p p' c r : keeps_restrictions p p' ->
  (r ∈ program_rules p' c -> r ∈ program_rules p c)
  /\ (rule_decision r <> Allow -> r ∈ program_rules p c -> r ∈ program_rules p' c).
Proof. intros [_ H]. destruct c as [|w c]; simpl; [done|apply H]. Qed.

Lemma restrictions_host p p' c r : keeps_restrictions p p' ->
  (host_rule p' c r -> host_rule p c r) /\ (rule_decision r <> Allow -> host_rule p c r -> host_rule p' c r).
Proof.
  intros [Hh H]. unfold host_rule. rewrite Hh.
  split; [|intros Hd]; intros (pr & ar & pa & ba & H'); exists pr, ar, pa, ba; specialize (H ba r); naive_solver.
Qed.

Lemma restrictions_raise p p' f c d : keeps_restrictions p p' -> raises p f d c ->
  exists d', raises p' f d' c /\ decision_rank d <= decision_rank d'.
Proof.
  intros H Hd. destruct (decide (d = Allow)) as [->|Hne].
  { destruct (matches_with p' c (Some f) request_options) as [|m ms] eqn:E; [by apply matches_nonempty in E|].
    exists (rule_match_decision m). split; [|simpl; lia]. apply raises_matches. exists m. rewrite E.
    split; [by left|done]. }
  exists d. split; [|done]. destruct Hd as [Hd|[Hnil Hf]].
  - left. apply has_rule_spec. apply has_rule_spec in Hd as [(r & Hr & Ha & <-)|(Hno & r & Hr & <-)].
    + left. exists r. split; [|done]. by apply (restrictions_exact p p' c r H).
    + right. split; [|exists r; split; [by apply (restrictions_host p p' c r H)|done]].
      intros (r' & Hr' & Ha). destruct Hno. exists r'. split; [|done]. by apply (restrictions_exact p p' c r' H).
  - right. split; [|done]. destruct (decide (rules_for p' c = [])) as [|Hp']; [done|exfalso].
    apply rules_for_nonempty in Hp'. assert (Hp : rules_for p c <> []); [|done]. apply rules_for_nonempty.
    destruct Hp' as [(r & Hr & Ha)|(r & Hr)].
    + left. exists r. split; [|done]. by apply (restrictions_exact p p' c r H).
    + right. exists r. by apply (restrictions_host p p' c r H).
Qed.

Lemma keeps_no_allow policy d c :
  has_rule (current_for_prefix_rules policy IgnoreForCyberModel) d c -> d <> Allow.
Proof.
  assert (H : forall w r, r ∈ default [] (rules_by_program (current_for_prefix_rules policy IgnoreForCyberModel) !! w)
                          -> rule_decision r <> Allow).
  { intros w r. simpl. rewrite lookup_omap. destruct (rules_by_program policy !! w) as [rules|]; [|set_solver].
    change (Some rules ≫= without_allow) with (without_allow rules). rewrite without_allow_elem. naive_solver. }
  intros [(r & Hr & _ & <-)|(_ & r & (pr & ar & pa & ba & _ & _ & _ & _ & Hr & _) & <-)]%has_rule_spec.
  - destruct c as [|w c]; simpl in Hr; [by apply not_elem_of_nil in Hr|by eapply H].
  - by eapply H.
Qed.

Definition ignoring_allow_rules (req : ExecApprovalRequest) : ExecApprovalRequest :=
  mkRequest (req_command req) (req_approval_policy req) (req_permission_profile req)
    (req_environment_policy req) (req_sandbox_permissions req) (req_prefix_rule req) IgnoreForCyberModel.

(** Leaving the user's allow rules out, as is done for restricted models,
    never loosens a decision: every command of the request is judged at least
    as strictly, no amendment is offered, and without an environment policy the
    request never leaves the sandbox by a rule. *)
Theorem ignoring_allow_rules_is_stricter policy req :
  req_allow_prefix_rules req = Honor ->
  let check q := check_multiple_with_options home_dir current_dir (request_policy policy q)
                   (commands_for_exec_policy (req_command req)) (request_fallback req) request_options in
  (exists e e', check req = Some e /\ check (ignoring_allow_rules req) = Some e'
     /\ decision_rank (decision e) <= decision_rank (decision e'))
  /\ exists r, requirement policy (ignoring_allow_rules req) = Some r
     /\ match r with
        | Skip bypass am => am = None /\ (req_environment_policy req = None -> bypass = false)
        | NeedsApproval _ am => am = None
        | ForbiddenExec _ => True
        end.
Proof.
  intros Hon check. assert (Hne := commands_nonempty (req_command req)). set (commands := commands_for_exec_policy _) in *.
  set (p := request_policy policy req). set (p' := request_policy policy (ignoring_allow_rules req)).
  destruct (check_multiple_spec p (request_fallback req) commands Hne) as (e & He & _ & (c & Hc & Hr) & _).
  destruct (check_multiple_spec p' (request_fallback req) commands Hne) as (e' & He' & _ & _ & Hmax).
  assert (Hk : keeps_restrictions p p').
  { unfold p, p', request_policy. rewrite Hon. apply ignored_keeps_restrictions. }
  split.
  { exists e, e'. split_and!; [done|done|]. destruct (restrictions_raise _ _ _ _ _ Hk Hr) as (d & Hd & Hle).
    specialize (Hmax c d Hc Hd). lia. }
  unfold create_exec_approval_requirement_for_command. cbn [req_command ignoring_allow_rules]. fold commands p'.
  change (request_fallback (ignoring_allow_rules req)) with (request_fallback req).
  rewrite He'. cbn [mbind option_bind requested_amendment auto_amendment_allowed].
  eexists. split; [done|]. destruct (decision e'); [split; [done|]|repeat case_match; by simplify_eq|done].
  intros Henv. apply not_true_iff_false. intros Hall. rewrite forallb_forall in Hall.
  specialize (Hall c). rewrite <- list_elem_of_In, explicitly_allowed_spec in Hall. specialize (Hall Hc).
  unfold p', request_policy, current_for_environment in Hall. simpl in Hall. rewrite Henv in Hall.
  by apply keeps_no_allow in Hall.
Qed.

(** ** Prefixes and amendments *)

Lemma applies_more r c tail : applies r c -> applies r (c ++ tail).
Proof.
  intros (ws & t & -> & H). exists ws, (t ++ tail). split; [|done]. simpl. by rewrite <- app_assoc.
Qed.

Lemma program_rules_more p c tail : c <> [] -> program_rules p (c ++ tail) = program_rules p c.
Proof. by destruct c. Qed.

(** The rule added for a prefix applies to the commands that extend it. *)
Definition amendment_rule (w : str) (ws : list str) : PrefixRule :=
  mkRule (mkPattern w (map Single ws)) Allow None.

Lemma amendment_rule_applies w ws c : applies (amendment_rule w ws) c <-> exists tail, c = (w :: ws) ++ tail.
Proof.
  unfold applies. simpl. split.
  - intros (vs & tail & -> & H). exists tail. simpl. do 2 f_equal.
    revert vs H; induction ws as [|x ws IH]; intros [|v vs] H; simpl in *; inversion H; subst; [done|].
    f_equal; [|by apply IH]. simpl in *. set_solver.
  - intros (tail & ->). exists ws, tail. split; [done|]. apply Forall2_fmap_l, Forall_Forall2_diag.
    apply Forall_forall. intros x _. set_solver.
Qed.

(** Where a match of the amended policy comes from. *)
Lemma amended_match p p' w ws c :
  add_prefix_rule p (w :: ws) Allow = Ok p' -> rules_for p c = [] -> rules_for p' c <> [] ->
  applies (amendment_rule w ws) c
  \/ exists program args path, c = program :: args
      /\ from_absolute_path home_dir current_dir program = Some path
      /\ AbsolutePath.file_name path = Some w
      /\ (forall paths, host_executables_by_name p !! w = Some paths -> path ∈ paths)
      /\ applies (amendment_rule w ws) (w :: args).
Proof.
  intros [= <-] Hnil Hne. assert (Hno : ~ (exact_rule p c \/ exists r, host_rule p c r)).
  { intros H. apply (rules_for_nonempty home_dir current_dir) in H. exact (H Hnil). }
  apply rules_for_nonempty in Hne as [(r & Hr & Ha)|(r & program & args & path & base & -> & H1 & H2 & H3 & Hr & Ha)].
  - left. destruct c as [|c0 args]; [by apply not_elem_of_nil in Hr|]. unfold program_rules in Hr. simpl in Hr.
    destruct (decide (w = c0)) as [<-|Hw].
    + unfold multimap_insert in Hr. rewrite lookup_insert_eq in Hr. simpl in Hr.
      apply elem_of_app in Hr as [Hr| ->%list_elem_of_singleton]; [|done].
      destruct Hno. left. exists r. done.
    + unfold multimap_insert in Hr. rewrite lookup_insert_ne in Hr by done.
      destruct Hno. left. exists r. done.
  - right. simpl in Hr, H3. unfold multimap_insert in Hr. destruct (decide (w = base)) as [<-|Hw].
    + rewrite lookup_insert_eq in Hr. simpl in Hr.
      apply elem_of_app in Hr as [Hr| ->%list_elem_of_singleton]; [|naive_solver].
      destruct Hno. right. exists r, program, args, path, w. done.
    + rewrite lookup_insert_ne in Hr by done. destruct Hno. right. exists r, program, args, path, base. done.
Qed.

(** When a rule already matches the prefix, a command that the prefix covers
    is matched already. *)
Lemma prefix_matched_already p w ws c : w <> lit "~" ->
  rules_for p (w :: ws) <> [] ->
  (applies (amendment_rule w ws) c
   \/ exists program args path, c = program :: args
      /\ from_absolute_path home_dir current_dir program = Some path
      /\ AbsolutePath.file_name path = Some w
      /\ (forall paths, host_executables_by_name p !! w = Some paths -> path ∈ paths)
      /\ applies (amendment_rule w ws) (w :: args)) ->
  rules_for p c <> [].
Proof.
  intros Hw Hp%rules_for_nonempty Hc. apply rules_for_nonempty. destruct Hc as [Hc|Hc].
  - apply amendment_rule_applies in Hc as (tail & ->). destruct Hp as [(r & Hr & Ha)|(r & H)].
    + left. exists r. rewrite program_rules_more by done. split; [done|by apply applies_more].
    + right. destruct H as (program & args & path & base & [= <- <-] & H1 & H2 & H3 & Hr & Ha).
      exists r, w, (ws ++ tail), path, base. split_and!; try done.
      by apply (applies_more _ (base :: ws)).
  - destruct Hc as (program & args & path & -> & H1 & H2 & H3 & (tail & E)%amendment_rule_applies).
    injection E as ->. right. assert (Hname : is_name w = true).
    { apply from_absolute_path_names in H1. unfold AbsolutePath.file_name in H2.
      apply last_Some in H2 as (l & ->). apply Forall_app in H1 as [_ H1]. by inversion H1. }
    assert (Hr : exists r, r ∈ default [] (rules_by_program p !! w) /\ applies r (w :: ws)).
    { destruct Hp as [(r & Hr & Ha)|(r & p0 & a0 & q & base & [= <- <-] & Hq & Hb & _ & Hr & Ha)].
      - by exists r.
      - rewrite (from_absolute_path_name _ _ _ _ Hname Hw Hq) in Hb. injection Hb as <-. by exists r. }
    destruct Hr as (r & Hr & Ha). exists r, program, (ws ++ tail), path, w. split_and!; try done.
    by apply (applies_more _ (w :: ws)).
Qed.

Lemma already_allowed_spec p a :
  exists b, already_allowed home_dir current_dir p a = Some b
  /\ (b = true -> rules_for p a <> []).
Proof.
  unfold already_allowed. destruct (check_multiple_spec p (fun _ => Forbidden) [a]) as (e & -> & _ & _ & Hmax);
    [done|]. cbn [mbind option_bind]. eexists. split; [done|].
  intros [He _]%andb_true_iff Hnil. apply bool_decide_eq_true in He.
  specialize (Hmax a Forbidden ltac:(by left) (or_intror (conj Hnil eq_refl))). rewrite He in Hmax.
  simpl in Hmax. lia.
Qed.

Lemma requirement_skip policy req :
  let p := request_policy policy req in
  (forall c d, c ∈ commands_for_exec_policy (req_command req) -> raises p (request_fallback req) d c -> d = Allow) ->
  exists b am, requirement policy req = Some (Skip b am).
Proof.
  intros p H. unfold create_exec_approval_requirement_for_command.
  destruct (check_multiple_spec p (request_fallback req) _ (commands_nonempty (req_command req)))
    as (e & He & _ & (c & Hc & Hr) & _). fold p. rewrite He. cbn [mbind option_bind].
  destruct (requested_amendment_total policy req e) as [am ->]. cbn [mbind option_bind].
  rewrite (H _ _ Hc Hr). eauto.
Qed.

(** C35: accepting the amendment a request asked for takes effect.  When the
    rule proposed with a command is offered to the user (it is not banned and no
    rule matches the command yet), adding it succeeds and the same request no
    longer needs approval, also when the rule was not stored because the policy
    allows the prefix already.  Programs named by a tilde are excepted; the
    environment adds no rules of its own. *)
Theorem amendment_takes_effect policy req a e :
  req_environment_policy req = None -> head a <> Some (lit "~") ->
  check_multiple_with_options home_dir current_dir (request_policy policy req)
    (commands_for_exec_policy (req_command req)) (request_fallback req) request_options = Some e ->
  requested_amendment home_dir current_dir policy req e = Some (Some a) ->
  ~ a ∈ BANNED_PREFIX_SUGGESTIONS
  /\ exists policy', update_policy home_dir current_dir policy a = Some (Ok policy')
     /\ exists b am, requirement policy' req = Some (Skip b am).
Proof.
  intros Henv Htilde He Hreq. unfold requested_amendment in Hreq.
  destruct (req_allow_prefix_rules req) eqn:Eallow; unfold auto_amendment_allowed in Hreq;
    rewrite Eallow in Hreq; [|done].
  assert (Hp : forall q, request_policy q req = q).
  { intros q. unfold request_policy, current_for_environment. by rewrite Henv, Eallow. }
  rewrite Hp in *. unfold derive_requested_execpolicy_amendment_from_prefix_rule in Hreq.
  destruct (req_prefix_rule req) as [pr|]; [|done]. destruct pr as [|w ws]; [done|]. cbn [is_nil] in Hreq.
  destruct (is_banned (w :: ws)) eqn:Eb; [done|].
  destruct (existsb is_policy_match (matched_rules e)) eqn:Em; [done|].
  unfold prefix_rule_would_approve_all_commands in Hreq. cbn [add_prefix_rule] in Hreq.
  set (p' := mkPolicy _ _ _) in Hreq. set (commands := commands_for_exec_policy (req_command req)) in *.
  destruct (all_allowed_spec p' (request_fallback req) commands) as (b & Hb & Hspec).
  rewrite Hb in Hreq. cbn [mbind option_bind] in Hreq. destruct b; [|done]. injection Hreq as <-.
  assert (Hall := proj1 Hspec eq_refl). clear Hspec Hb. split.
  { intros Hin. apply not_true_iff_false in Eb. destruct Eb. apply existsb_exists.
    eexists. split; [by apply list_elem_of_In|by apply bool_decide_eq_true]. }
  destruct (already_allowed_spec policy (w :: ws)) as (al & Hal & Hmatched).
  unfold update_policy. rewrite Hal. cbn [mbind option_bind]. destruct al.
  2:{ exists p'. split; [done|]. apply requirement_skip. rewrite Hp. exact Hall. }
  exists policy. split; [done|]. apply requirement_skip. rewrite Hp. intros c d Hc Hr.
  destruct (check_multiple_spec policy (request_fallback req) commands (commands_nonempty _))
    as (e' & He' & Hms & _). rewrite He in He'. injection He' as <-.
  assert (Hnil : rules_for policy c = []).
  { destruct (rules_for policy c) as [|m ms] eqn:E; [done|]. apply not_true_iff_false in Em. destruct Em.
    apply existsb_exists. exists m. assert (Hm : m ∈ rules_for policy c) by (rewrite E; by left).
    pose proof (rules_for_policy_match _ _ _ _ Hm) as Hpm. split; [|exact Hpm]. apply list_elem_of_In. rewrite Hms. apply all_matches_elem.
    exists c. split; [done|]. rewrite matches_fallback, E. by left. }
  apply (Hall c d Hc). destruct Hr as [(m & Hm & _)|[_ Hf]].
  { fold request_options in Hm; rewrite Hnil in Hm. by apply not_elem_of_nil in Hm. }
  right. split; [|done]. destruct (rules_for p' c) eqn:E; [done|]. exfalso.
  apply (prefix_matched_already policy w ws c); [by intros ->; apply Htilde|by apply Hmatched| |done].
  eapply amended_match; [done|done|]. fold p'. rewrite E. done.
Qed.

End properties.

(** ** Witness: [git status] under [UnlessTrusted] *)

Definition no_parser : BashParser := {| try_parse_shell := fun _ => None |}.

Definition sample_request : ExecApprovalRequest :=
  mkRequest [lit "git"; lit "status"; lit "-s"] UnlessTrusted Disabled None UseDefault
    (Some [lit "git"; lit "status"]) Honor.

Lemma amendment_takes_effect_witness :
  exists policy', update_policy None None policy_empty [lit "git"; lit "status"] = Some (Ok policy')
  /\ exists b am, @create_exec_approval_requirement_for_command no_parser None None (fun _ => None)
                    policy' sample_request = Some (Skip b am).
Proof.
  refine (proj2 (@amendment_takes_effect no_parser None None (fun _ => None) policy_empty sample_request
            _ (mkEvaluation Prompt [HeuristicsRuleMatch (req_command sample_request) Prompt])
            eq_refl _ _ _)).
  - discriminate.
  - vm_compute. reflexivity.
  - vm_compute. reflexivity.
Defined.

Lemma ignoring_allow_rules_is_stricter_witness :
  exists r, @create_exec_approval_requirement_for_command no_parser None None (fun _ => None) policy_empty
              (ignoring_allow_rules sample_request) = Some r
  /\ match r with
     | Skip bypass am => am = None /\ (req_environment_policy sample_request = None -> bypass = false)
     | NeedsApproval _ am => am = None
     | ForbiddenExec _ => True
     end.
Proof.
  exact (proj2 (@ignoring_allow_rules_is_stricter no_parser None None (fun _ => None) policy_empty
                  sample_request eq_refl)).
Defined.
