(* ===== verification/PolicyFile.v ===== *)
(** * Saved rules

    execpolicy/src/amend.rs (appending an accepted rule to the user's rules
    file), execpolicy/src/sandbox_migration.rs (the one-shot removal of rules
    that are no longer offered) and the updates of core/src/exec_policy.rs that
    write the file and the policy in memory.

    The file is its text or absent.  Every system call may fail: the faults of a
    run are a record, and a write that fails may have written a part.  The
    encoding and decoding of strings by [serde_json] are parameters. *)

From S2P Require Import Prelude RustStr FileSystem ShellCommand AbsolutePath ExecPolicy PolicyMatching PolicyParser ExecApproval.

Inductive AmendError :=
| EmptyPrefix
| InvalidNetworkRule (msg : str)
| MissingParent (path : str)
| CreatePolicyDir (dir : str) (source : io_error)
| SerializePrefix (source : str)
| SerializeNetworkRule (source : str)
| OpenPolicyFile (path : str) (source : io_error)
| WritePolicyFile (path : str) (source : io_error)
| LockPolicyFile (path : str) (source : io_error)
| SeekPolicyFile (path : str) (source : io_error)
| ReadPolicyFile (path : str) (source : io_error)
| PolicyMetadata (path : str) (source : io_error).

(** What fails while a line is appended; a failed write comes with the number
    of characters it wrote. *)
Record AppendFaults := mkFaults {
  parent_dir : option str;
  create_dir_fault : option io_error;
  open_fault : option io_error;
  lock_fault : option io_error;
  seek_fault : option io_error;
  read_fault : option io_error;
  newline_fault : option (io_error * nat);
  line_fault : option (io_error * nat);
}.

(** [write_all] on a file opened for appending *)
Definition append_text (fault : option (io_error * nat)) (contents data : str) : str * result unit io_error :=
  match fault with
  | None => (contents ++ data, Ok tt)
  | Some (e, n) => (contents ++ take n data, Err e)
  end.

Definition append_locked_line (f : AppendFaults) (policy_path : str) (file : option str) (line : str)
    : option str * result unit AmendError :=
  match open_fault f with
  | Some e => (file, Err (OpenPolicyFile policy_path e))
  | None =>
  let contents := default [] file in
  match lock_fault f, seek_fault f, read_fault f with
  | Some e, _, _ => (Some contents, Err (LockPolicyFile policy_path e))
  | None, Some e, _ => (Some contents, Err (SeekPolicyFile policy_path e))
  | None, None, Some e => (Some contents, Err (ReadPolicyFile policy_path e))
  | None, None, None =>
      if existsb (fun existing => str_eqb existing line) (lines contents) then (Some contents, Ok tt)
      else
        let '(text, r) :=
          if negb (is_nil contents) && negb (ends_with [ch_lf] contents)
          then append_text (newline_fault f) contents [ch_lf] else (contents, Ok tt) in
        match r with
        | Err e => (Some text, Err (WritePolicyFile policy_path e))
        | Ok _ =>
            let '(text, r) := append_text (line_fault f) text (line ++ [ch_lf]) in
            (Some text, result_map_err (WritePolicyFile policy_path) r)
        end
  end
  end.

Definition append_rule_line (f : AppendFaults) (policy_path : str) (file : option str) (rule : str)
    : option str * result unit AmendError :=
  match parent_dir f with
  | None => (file, Err (MissingParent policy_path))
  | Some dir =>
      match create_dir_fault f with
      | Some source =>
          if bool_decide (FileSystem.kind source = AlreadyExists) then append_locked_line f policy_path file rule
          else (file, Err (CreatePolicyDir dir source))
      | None => append_locked_line f policy_path file rule
      end
  end.

(** The Display of policy errors; only invalid rules reach it here, the
    renderings of the others use Debug formats. *)
Definition error_to_string (render_other : Error -> str) (e : Error) : str :=
  match e with
  | InvalidDecision s => lit "invalid decision: " ++ s
  | InvalidPattern s => lit "invalid pattern element: " ++ s
  | InvalidExample s => lit "invalid example: " ++ s
  | InvalidRule s => lit "invalid rule: " ++ s
  | other => render_other other
  end.

Definition quoted (s : str) : str := [ch_dquote] ++ s ++ [ch_dquote].

Definition RULE_START : str := lit "prefix_rule(pattern=".
Definition RULE_END : str := lit ", decision=" ++ quoted (lit "allow") ++ lit ")".

Section amend.
Context (to_string : str -> result str str) (render_other : Error -> str).

(** The line [blocking_append_allow_prefix_rule] writes. *)
Definition allow_rule_line (prefix : list str) : result str AmendError :=
  if is_nil prefix then Err EmptyPrefix
  else
    let? tokens := result_map_err SerializePrefix (traverse to_string prefix) in
    let pattern := lit "[" ++ join (lit ", ") tokens ++ lit "]" in
    Ok (RULE_START ++ pattern ++ RULE_END).

Definition blocking_append_allow_prefix_rule (f : AppendFaults) (policy_path : str) (file : option str)
    (prefix : list str) : option str * result unit AmendError :=
  match allow_rule_line prefix with
  | Err e => (file, Err e)
  | Ok rule => append_rule_line f policy_path file rule
  end.

Definition decision_string (d : Decision) : str :=
  match d with Allow => lit "allow" | Prompt => lit "prompt" | Forbidden => lit "deny" end.

(** The line [blocking_append_network_rule] writes. *)
Definition network_rule_line (host : str) (protocol : NetworkRuleProtocol) (d : Decision)
    (justification : option str) : result str AmendError :=
  let json s := result_map_err SerializeNetworkRule (to_string s) in
  let? host := result_map_err (fun e => InvalidNetworkRule (error_to_string render_other e))
                 (normalize_network_rule_host host) in
  if is_some_and (fun raw => is_nil (trim raw)) justification
  then Err (InvalidNetworkRule (lit "justification cannot be empty"))
  else
    let? host := json host in
    let? protocol := json (as_policy_string protocol) in
    let? decision := json (decision_string d) in
    let args := [lit "host=" ++ host; lit "protocol=" ++ protocol; lit "decision=" ++ decision] in
    let? args := match justification with
                 | Some j => let? j := json j in Ok (args ++ [lit "justification=" ++ j])
                 | None => Ok args
                 end in
    Ok (lit "network_rule(" ++ join (lit ", ") args ++ lit ")").

Definition blocking_append_network_rule (f : AppendFaults) (policy_path : str) (file : option str)
    (host : str) (protocol : NetworkRuleProtocol) (d : Decision) (justification : option str)
    : option str * result unit AmendError :=
  match network_rule_line host protocol d justification with
  | Err e => (file, Err e)
  | Ok rule => append_rule_line f policy_path file rule
  end.

(** ** Updates (core/src/exec_policy.rs) *)

Inductive ExecPolicyUpdateError :=
| AppendRule (path : str) (source : AmendError)
| JoinBlockingTask
| AddRule (source : Error).

(** Faults around the append: a closed semaphore, a lost blocking task. *)
Record UpdateFaults := mkUpdateFaults {
  semaphore_closed : bool;
  join_fault : bool;
  append_faults : AppendFaults;
}.

Definition closed_error : ExecPolicyUpdateError :=
  AddRule (InvalidRule (lit "exec policy update semaphore closed")).

(** The rules file and the policy in memory. *)
Record Saved := mkSaved { saved_file : option str; saved_policy : Policy }.

Context (home_dir current_dir : option str).

(** [None] when evaluating the policy panics. *)
Definition append_amendment_and_update (f : UpdateFaults) (policy_path : str) (s : Saved)
    (amendment : list str) : option (Saved * result unit ExecPolicyUpdateError) :=
  if semaphore_closed f then Some (s, Err closed_error)
  else
    let '(file, r) := blocking_append_allow_prefix_rule (append_faults f) policy_path (saved_file s) amendment in
    let s := mkSaved file (saved_policy s) in
    if join_fault f then Some (s, Err JoinBlockingTask)
    else match r with
         | Err source => Some (s, Err (AppendRule policy_path source))
         | Ok _ =>
             updated ← update_policy home_dir current_dir (saved_policy s) amendment;
             Some match updated with
                  | Err e => (s, Err (AddRule e))
                  | Ok policy => (mkSaved file policy, Ok tt)
                  end
         end.

Definition append_network_rule_and_update (f : UpdateFaults) (policy_path : str) (s : Saved)
    (host : str) (protocol : NetworkRuleProtocol) (d : Decision) (justification : option str)
    : Saved * result unit ExecPolicyUpdateError :=
  if semaphore_closed f then (s, Err closed_error)
  else
    let '(file, r) := blocking_append_network_rule (append_faults f) policy_path (saved_file s) host protocol d
                        justification in
    let s := mkSaved file (saved_policy s) in
    if join_fault f then (s, Err JoinBlockingTask)
    else match r with
         | Err source => (s, Err (AppendRule policy_path source))
         | Ok _ =>
             match add_network_rule (saved_policy s) host protocol d justification with
             | Err e => (s, Err (AddRule e))
             | Ok policy => (mkSaved file policy, Ok tt)
             end
         end.

End amend.

(** ** Migration *)

Section migration.
Context (from_str : str -> option (list str)).

Definition lowercase_prefix (prefix : list str) : list str := map to_ascii_lowercase prefix.

Definition should_remove_rule (banned_prefixes : list (list str)) (line : str) : bool :=
  let line := default line (strip_suffix [ch_lf] line) in
  let line := default line (strip_suffix [ch_cr] line) in
  match (rest ← strip_prefix RULE_START line; strip_suffix RULE_END rest) with
  | None => false
  | Some pattern =>
      match from_str pattern with
      | None => false
      | Some prefix => existsb (fun banned => bool_decide (banned = lowercase_prefix prefix)) banned_prefixes
      end
  end.

Definition strip_banned_allow_rules (contents : str) (banned_prefixes : list (list str)) : str :=
  let banned_prefixes := map lowercase_prefix banned_prefixes in
  concat (List.filter (fun line => negb (should_remove_rule banned_prefixes line)) (split_inclusive contents)).

(** What happens while the file is cleaned: faults, the text a failed write
    leaves, and what other processes do to the file between the two reads and
    between the second read and the write. *)
Record CleanEvents := mkClean {
  first_read_fault : option io_error;
  reopen_fault : option io_error;
  second_read_fault : option io_error;
  rewind_fault : option io_error;
  rewrite_fault : option (io_error * str);
  meanwhile : option str -> option str;
  meanwhile_rewrite : option str -> option str;
}.

Definition not_found (e : io_error) : bool := bool_decide (FileSystem.kind e = NotFound).

(** After the rewrite the file, if it still has its name, is what was kept. *)
Definition rewrite (ev : CleanEvents) (contents retained : str) : option str * result unit io_error :=
  match rewind_fault ev with
  | Some e => (meanwhile_rewrite ev (Some contents), Err e)
  | None =>
      match rewrite_fault ev with
      | Some (e, remains) => (Some remains, Err e)
      | None => (option_map (fun _ => retained) (meanwhile_rewrite ev (Some contents)), Ok tt)
      end
  end.

Definition clean_rules_file (ev : CleanEvents) (file : option str) (banned_prefixes : list (list str))
    : option str * result unit io_error :=
  match first_read_fault ev, file with
  | Some e, _ => (file, if not_found e then Ok tt else Err e)
  | None, None => (None, Ok tt)
  | None, Some contents =>
      if str_eqb (strip_banned_allow_rules contents banned_prefixes) contents then (file, Ok tt)
      else
        let file := meanwhile ev file in
        match reopen_fault ev, file with
        | Some e, _ => (file, if not_found e then Ok tt else Err e)
        | None, None => (None, Ok tt)
        | None, Some contents =>
            match second_read_fault ev with
            | Some e => (file, Err e)
            | None =>
                let retained := strip_banned_allow_rules contents banned_prefixes in
                if str_eqb retained contents then (file, Ok tt)
                else rewrite ev contents retained
            end
        end
  end.

(** Faults of the marker: the directory, the temporary file, its persistence
    under the marker's name, the blocking task. *)
Record MarkerFaults := mkMarkerFaults {
  create_home_fault : option io_error;
  temp_fault : option io_error;
  persist_fault : option io_error;
  task_fault : option io_error;
}.

(** A marker that another process wrote counts. *)
Definition write_migration_marker (f : MarkerFaults) (marker : bool) : bool * result unit io_error :=
  match create_home_fault f with
  | Some e => (marker, Err e)
  | None =>
      match task_fault f, temp_fault f, persist_fault f with
      | Some e, _, _ => (marker, Err e)
      | None, Some e, _ => (marker, Err e)
      | None, None, Some e =>
          if bool_decide (FileSystem.kind e = AlreadyExists) then (true, Ok tt) else (marker, Err e)
      | None, None, None => (true, Ok tt)
      end
  end.

Record MigrationState := mkMigration { rules_file : option str; migration_marker : bool }.

Definition prefix_rule_migration (exists_fault : option io_error) (ev : CleanEvents) (mf : MarkerFaults)
    (s : MigrationState) (banned_prefixes : list (list str)) : MigrationState * result unit io_error :=
  match exists_fault with
  | Some e => (s, Err e)
  | None =>
      if migration_marker s then (s, Ok tt)
      else
        let '(file, r) := clean_rules_file ev (rules_file s) banned_prefixes in
        match r with
        | Err e => (mkMigration file (migration_marker s), Err e)
        | Ok _ =>
            let '(marker, r) := write_migration_marker mf (migration_marker s) in
            (mkMigration file marker, r)
        end
  end.

End migration.

(** ** Appending *)

Notation text file := (default [] file).

(** The text with its last line terminated. *)
Definition closed (c : str) : str :=
  if negb (is_nil c) && negb (ends_with [ch_lf] c) then c ++ [ch_lf] else c.

Lemma closed_spec c : closed c = [] \/ exists c', closed c = c' ++ [ch_lf].
Proof.
  unfold closed. destruct c as [|x c]; [by left|]. right. simpl.
  destruct (ends_with [ch_lf] (x :: c)) eqn:E; simpl; [|by exists (x :: c)].
  apply ends_with_spec in E as (c' & ->). by exists c'.
Qed.

Lemma closed_prefix c : c `prefix_of` closed c.
Proof. unfold closed. case_match; [by eexists|done]. Qed.

Lemma split_on_snoc c s : split_on c (s ++ [c]) = split_on c s ++ [[]].
Proof.
  induction s as [|x s IH]; simpl; [by rewrite N.eqb_refl|].
  destruct (x =? c)%N; [by rewrite IH|]. rewrite IH. pose proof (split_on_nonempty c s).
  by destruct (split_on c s).
Qed.

(** A line added to terminated text is one more line. *)
Lemma lines_app c line : clean_line line -> lines (closed c ++ line ++ [ch_lf]) = lines (closed c) ++ [line].
Proof.
  intros [Hlf Hcr]. assert (Hl : split_on ch_lf (line ++ [ch_lf]) = [line; []]).
  { rewrite split_on_snoc. by rewrite split_on_no_sep. }
  destruct (closed_spec c) as [->|(c' & ->)].
  - rewrite app_nil_l. unfold lines. rewrite Hl. simpl. by rewrite strip_cr_id.
  - rewrite <- (app_assoc c'). simpl. unfold lines at 1. rewrite split_on_sep, Hl.
    rewrite rev_app_distr. simpl. rewrite rev_involutive, map_app. simpl.
    rewrite strip_cr_id by done. rewrite app_nil_r. f_equal. unfold lines.
    rewrite split_on_snoc, rev_app_distr. simpl. rewrite rev_involutive. by rewrite app_nil_r.
Qed.

Lemma existsb_line line ls : existsb (fun existing => str_eqb existing line) ls = true <-> line ∈ ls.
Proof.
  rewrite existsb_exists. setoid_rewrite str_eqb_eq. rewrite list_elem_of_In. naive_solver.
Qed.

(** Nothing that is in the file is ever lost, and a finished append adds the
    line once. *)
Lemma append_locked_line_spec f path file line :
  clean_line line ->
  let '(file', r) := append_locked_line f path file line in
  text file `prefix_of` text file'
  /\ (r = Ok tt -> line ∈ lines (text file') /\ is_Some file'
       /\ text file' = if decide (line ∈ lines (text file)) then text file
                       else closed (text file) ++ line ++ [ch_lf]).
Proof.
  intros Hc. unfold append_locked_line. destruct (open_fault f); [done|].
  destruct (lock_fault f), (seek_fault f), (read_fault f); try done.
  destruct (existsb _ _) eqn:E.
  { apply existsb_line in E. split; [done|]. intros _. by rewrite decide_True. }
  assert (Hn : line ∉ lines (text file)). { rewrite <- existsb_line. by rewrite E. }
  assert (Hdone : line ∈ lines (closed (text file) ++ line ++ [ch_lf])).
  { rewrite lines_app by done. set_solver. }
  rewrite decide_False by done. unfold closed, append_text in *.
  destruct (negb (is_nil _) && negb (ends_with _ _)).
  - destruct (newline_fault f) as [[e n]|]; [split; [by eexists|done]|].
    destruct (line_fault f) as [[e n]|]; simpl.
    + split; [rewrite <- app_assoc; by eexists|done].
    + split; [rewrite <- app_assoc; by eexists|]. done.
  - destruct (line_fault f) as [[e n]|]; simpl; (split; [by eexists|done]).
Qed.

Lemma append_rule_line_spec f path file line :
  clean_line line ->
  let '(file', r) := append_rule_line f path file line in
  text file `prefix_of` text file'
  /\ (r = Ok tt -> line ∈ lines (text file') /\ is_Some file'
       /\ text file' = if decide (line ∈ lines (text file)) then text file
                       else closed (text file) ++ line ++ [ch_lf]).
Proof.
  intros Hc. pose proof (append_locked_line_spec f path file line Hc). unfold append_rule_line.
  destruct (parent_dir f); [|done]. destruct (create_dir_fault f); [|done]. by case_bool_decide.
Qed.

(** A line that is there already leaves the file as it is, faults or not. *)
Lemma append_rule_line_again f path file line :
  is_Some file -> line ∈ lines (text file) -> fst (append_rule_line f path file line) = file.
Proof.
  intros [c ->] Hin%existsb_line. unfold append_rule_line, append_locked_line. simpl in Hin.
  destruct (parent_dir f); [|done]. destruct (create_dir_fault f); simpl; [case_bool_decide; [|done]|].
  all: destruct (open_fault f); [done|]; simpl; rewrite Hin.
  all: by destruct (lock_fault f), (seek_fault f), (read_fault f).
Qed.

(** ** Saved rules *)

Section saved.
Context (to_string : str -> result str str) (render_other : Error -> str).
(** JSON strings escape line feeds. *)
Hypothesis json_one_line : forall s t, to_string s = Ok t -> ch_lf ∉ t.

Lemma join_no_lf sep ws : ch_lf ∉ sep -> Forall (fun w => ch_lf ∉ w) ws -> ch_lf ∉ join sep ws.
Proof.
  intros Hs H. induction H as [|w ws Hw H IH]; simpl; [set_solver|].
  destruct ws; [done|]. rewrite !not_elem_of_app. done.
Qed.

Lemma traverse_no_lf ws ts : traverse to_string ws = Ok ts -> Forall (fun w => ch_lf ∉ w) ts.
Proof.
  intros H%traverse_Ok. induction H as [|w t ws ts Hw _ IH]; constructor; [by eapply json_one_line|done].
Qed.

Lemma no_lf_lit (s : str) : existsb (N.eqb ch_lf) s = false -> ch_lf ∉ s.
Proof.
  intros H Hin. apply not_true_iff_false in H. destruct H. apply existsb_exists. exists ch_lf.
  split; [by apply list_elem_of_In|apply N.eqb_refl].
Qed.

Lemma allow_rule_line_inv prefix rule :
  allow_rule_line to_string prefix = Ok rule ->
  prefix <> [] /\ exists tokens, traverse to_string prefix = Ok tokens
  /\ rule = RULE_START ++ (lit "[" ++ join (lit ", ") tokens ++ lit "]") ++ RULE_END.
Proof.
  unfold allow_rule_line. destruct (is_nil prefix) eqn:En; [done|]. apply is_nil_false in En.
  destruct (traverse to_string prefix) as [ts|]; [|done]. intros [= <-]. eauto.
Qed.

Lemma allow_rule_line_clean prefix rule : allow_rule_line to_string prefix = Ok rule -> clean_line rule.
Proof.
  intros (_ & ts & Ht & ->)%allow_rule_line_inv. split.
  - rewrite !not_elem_of_app. split_and!; try (by apply no_lf_lit).
    apply join_no_lf; [by apply no_lf_lit|]. by eapply traverse_no_lf.
  - assert (E : exists s, RULE_END = s ++ [41%N]) by (exists (removelast RULE_END); reflexivity).
    destruct E as (s & ->). by rewrite !app_assoc, last_snoc.
Qed.

Lemma network_rule_line_clean host protocol d j rule :
  network_rule_line to_string render_other host protocol d j = Ok rule -> clean_line rule.
Proof.
  unfold network_rule_line. destruct (normalize_network_rule_host host) as [h|]; [|done]. simpl.
  destruct (is_some_and _ j); [done|].
  destruct (to_string h) as [th|] eqn:Eh; [|done]. simpl.
  destruct (to_string (as_policy_string protocol)) as [tp|] eqn:Ep; [|done]. simpl.
  destruct (to_string (decision_string d)) as [td|] eqn:Ed; [|done].
  apply json_one_line in Eh, Ep, Ed. intros H.
  assert (exists args, Forall (fun w => ch_lf ∉ w) args
                       /\ rule = lit "network_rule(" ++ join (lit ", ") args ++ lit ")") as (args & Ha & ->).
  { destruct j as [j|]; cbn [result_bind] in H.
    - destruct (to_string j) as [tj|] eqn:Ej; [|done]. apply json_one_line in Ej. cbn [result_map_err result_bind] in H.
      injection H as <-. exists ([lit "host=" ++ th; lit "protocol=" ++ tp; lit "decision=" ++ td]
                               ++ [lit "justification=" ++ tj]). split; [|reflexivity].
      repeat (constructor; [apply not_elem_of_app; split; [by apply no_lf_lit|done]|]). constructor.
    - injection H as <-. exists [lit "host=" ++ th; lit "protocol=" ++ tp; lit "decision=" ++ td].
      split; [|reflexivity].
      repeat (constructor; [apply not_elem_of_app; split; [by apply no_lf_lit|done]|]). constructor. }
  split.
  - rewrite !not_elem_of_app. split_and!; try (by apply no_lf_lit).
    apply join_no_lf; [by apply no_lf_lit|done].
  - change (lit ")") with [41%N]. by rewrite !app_assoc, last_snoc.
Qed.

Context (home_dir current_dir : option str).

(** The policy after an update allows the prefix by a rule. *)
Lemma update_policy_allows policy a :
  a <> [] ->
  exists policy', update_policy home_dir current_dir policy a = Some (Ok policy')
  /\ has_rule home_dir current_dir policy' Allow a.
Proof.
  intros Ha. unfold update_policy, already_allowed.
  destruct (check_multiple_spec home_dir current_dir (fun _ => None) policy (fun _ => Forbidden) [a]) as (e & -> & Hms & _); [done|].
  cbn [mbind option_bind]. destruct (bool_decide _ && existsb _ _) eqn:E.
  - exists policy. split; [done|]. apply andb_true_iff in E as [_ E].
    apply (rule_exists home_dir current_dir _ _ _ _ _ Hms) in E as (c & Hc & H).
    by apply list_elem_of_singleton in Hc as ->.
  - destruct a as [|w ws]; [done|]. eexists. split; [done|]. apply has_rule_spec. left.
    exists (amendment_rule w ws). split_and!; [|apply (amendment_rule_applies (fun _ => None)); exists []; by rewrite app_nil_r|done].
    unfold program_rules. simpl. apply multimap_insert_elem. by right.
Qed.

Lemma blocking_append_spec f path file prefix :
  let '(file', r) := blocking_append_allow_prefix_rule to_string f path file prefix in
  text file `prefix_of` text file'
  /\ (r = Ok tt -> exists rule, allow_rule_line to_string prefix = Ok rule /\ rule ∈ lines (text file')
       /\ text file' = if decide (rule ∈ lines (text file)) then text file
                       else closed (text file) ++ rule ++ [ch_lf]).
Proof.
  unfold blocking_append_allow_prefix_rule. destruct (allow_rule_line to_string prefix) as [rule|] eqn:E; [|done].
  pose proof (append_rule_line_spec f path file rule (allow_rule_line_clean _ _ E)) as H.
  destruct (append_rule_line f path file rule) as [file' r]. destruct H as [H1 H2]. split; [done|].
  intros Hr. exists rule. split; [done|]. naive_solver.
Qed.

(** C36: accepting an amendment keeps the file and the policy in step,
    whatever fails.  No text of the rules file is ever lost; when the update
    succeeds the rule is a line of the file and the policy in memory allows the
    prefix by a rule; when it fails the policy is the one before, and it never
    fails for the rule itself once the file has it. *)
Theorem amendment_is_saved f path s a :
  exists s' r, append_amendment_and_update to_string home_dir current_dir f path s a = Some (s', r)
  /\ text (saved_file s) `prefix_of` text (saved_file s')
  /\ match r with
     | Ok _ => (exists rule, allow_rule_line to_string a = Ok rule /\ rule ∈ lines (text (saved_file s')))
               /\ has_rule home_dir current_dir (saved_policy s') Allow a
     | Err e => saved_policy s' = saved_policy s
                /\ (forall source, e = AddRule source -> semaphore_closed f = true /\ s' = s)
     end.
Proof.
  unfold append_amendment_and_update. destruct (semaphore_closed f); [by eexists _, _|].
  pose proof (blocking_append_spec (append_faults f) path (saved_file s) a) as H.
  destruct (blocking_append_allow_prefix_rule _ _ path (saved_file s) a) as [file r]. destruct H as [H1 H2].
  destruct (join_fault f); [by eexists _, _|]. destruct r as [[]|e]; [|by eexists _, _].
  destruct (H2 eq_refl) as (rule & Hrule & Hin & _). cbn [saved_policy].
  destruct (allow_rule_line_inv _ _ Hrule) as [Hne _].
  destruct (update_policy_allows (saved_policy s) a Hne) as (policy' & -> & Hallow).
  eexists _, _. split; [done|]. simpl. eauto.
Qed.

End saved.

(** ** Restart *)

(** The call that a saved rule is when the file is read again. *)
Definition saved_call (prefix : list str) (site span : option FileSpan) : Call :=
  mkCall (PrefixRuleCall (map VStr prefix) (Some (lit "allow")) None None None) site span.

Section restart.
Context {lib : StarlarkLib} (home_dir current_dir : option str).

Lemma run_builtins_app b b1 calls calls' :
  run_builtins home_dir current_dir b calls = (b1, Ok tt) ->
  run_builtins home_dir current_dir b (calls ++ calls') = run_builtins home_dir current_dir b1 calls'.
Proof.
  revert b; induction calls as [|c calls IH]; intros b; simpl; [by intros [= <-]|].
  destruct (call_builtin home_dir current_dir b c); [|done]. apply IH.
Qed.

Lemma parse_pattern_literal w ws : parse_pattern (map VStr (w :: ws)) = Ok (map Single (w :: ws)).
Proof.
  unfold parse_pattern. assert (H : traverse parse_pattern_token (map VStr (w :: ws)) = Ok (map Single (w :: ws))).
  { apply traverse_Ok. generalize (w :: ws). induction l; constructor; auto. }
  by rewrite H.
Qed.

(** The builder after a saved call: the policy of an amendment. *)
Lemma saved_call_builtin b w ws site span :
  exists b2, call_builtin home_dir current_dir b (saved_call (w :: ws) site span) = Ok b2
  /\ build b2 = mkPolicy (multimap_insert w (amendment_rule w ws) (builder_rules b)) (builder_network_rules b)
                  (builder_host_executables b)
  /\ builder_host_executables b2 = builder_host_executables b
  /\ exists v, pending_example_validations b2 = pending_example_validations b ++ [v]
     /\ pending_matches v = [] /\ pending_not_matches v = [].
Proof.
  unfold call_builtin, saved_call, prefix_rule. cbn [builtin call_site].
  change (decision_parse (lit "allow")) with (@Ok Decision Error Allow). cbn [result_bind].
  unfold parse_justification. cbn [is_some_and result_bind]. rewrite parse_pattern_literal.
  cbn [result_bind transpose_default map rules_of_pattern alternatives fold_left].
  eexists. split; [done|]. split; [done|]. split; [done|]. eexists. split; done.
Qed.

Lemma validate_all_hosts b b2 vs :
  builder_host_executables b2 = builder_host_executables b ->
  validate_all home_dir current_dir b2 vs = validate_all home_dir current_dir b vs.
Proof.
  intros H. induction vs as [|v vs IH]; simpl; [done|]. rewrite IH. unfold validate_pending, pending_policy.
  by rewrite H.
Qed.

Lemma validate_all_app b vs vs' :
  validate_all home_dir current_dir b vs = Ok tt ->
  validate_all home_dir current_dir b (vs ++ vs') = validate_all home_dir current_dir b vs'.
Proof.
  induction vs as [|v vs IH]; simpl; [done|]. destruct (validate_pending home_dir current_dir b v); simpl; auto.
  done.
Qed.

(** An accepted amendment survives a restart.  After a new rule has
    been appended, a rules file that parsed still parses, and the policy read
    from it is the policy read before with the amendment added, which is what
    the running process has in memory.  Assumed of Starlark: the appended line
    evaluates to one more call, after those of the text before it. *)
Theorem restart_keeps_amendment to_string f path file prefix rule file' b id run b1 site span :
  (forall s t, to_string s = Ok t -> ch_lf ∉ t) ->
  allow_rule_line to_string prefix = Ok rule -> rule ∉ lines (default [] file) ->
  eval_module id (default [] file) = Ok run ->
  eval_module id (closed (default [] file) ++ rule ++ [ch_lf])
    = Ok (mkRun (run_calls run ++ [saved_call prefix site span]) (run_error run)) ->
  parse home_dir current_dir b id (default [] file) = (b1, Ok tt) ->
  blocking_append_allow_prefix_rule to_string f path file prefix = (file', Ok tt) ->
  exists b2, parse home_dir current_dir b id (default [] file') = (b2, Ok tt)
  /\ add_prefix_rule (build b1) prefix Allow = Ok (build b2).
Proof.
  intros Hjson Hrule Hnew Hrun Hrun' Hparse Happ.
  pose proof (blocking_append_spec to_string Hjson f path file prefix) as H. rewrite Happ in H.
  destruct H as [_ H]. destruct (H eq_refl) as (rule' & Hrule' & _ & ->). clear H.
  rewrite Hrule in Hrule'. injection Hrule' as <-. rewrite decide_False by done.
  destruct (allow_rule_line_inv _ _ _ Hrule) as [Hne _]. destruct prefix as [|w ws]; [done|].
  assert (Hend : run_error run = None).
  { unfold parse in Hparse. rewrite Hrun in Hparse. repeat case_match; naive_solver. }
  apply parse_Ok in Hparse as (run0 & E & Hr & Hv). rewrite Hrun in E. injection E as <-.
  destruct (saved_call_builtin b1 w ws site span) as (b2 & Hcall & Hbuild & Hhosts & v & Hpend & Hm & Hnm).
  exists b2. rewrite Hbuild. split; [|done]. unfold parse. rewrite Hrun'. cbn [run_calls run_error].
  rewrite (run_builtins_app _ _ _ _ Hr). cbn [run_builtins]. rewrite Hcall, Hend. f_equal.
  unfold validate_pending_examples_from in *. rewrite Hpend.
  destruct (run_builtins_grows _ _ _ _ _ Hr) as (vs & (Hp & _) & _). rewrite Hp in *.
  rewrite <- app_assoc, drop_app_length. rewrite drop_app_length in Hv.
  rewrite (validate_all_hosts _ _ _ Hhosts), (validate_all_app _ _ _ Hv). simpl. unfold validate_pending.
  by rewrite Hm, Hnm.
Qed.

End restart.

(** ** Migration *)

(** Lines as [split_inclusive] gives them: only the last may be unterminated. *)
Fixpoint pieces (ls : list str) : Prop :=
  match ls with
  | [] => True
  | [l] => l <> [] /\ (ch_lf ∉ l \/ exists m, l = m ++ [ch_lf] /\ ch_lf ∉ m)
  | l :: ls => (exists m, l = m ++ [ch_lf] /\ ch_lf ∉ m) /\ pieces ls
  end.

Lemma pieces_cons l ls :
  (exists m, l = m ++ [ch_lf] /\ ch_lf ∉ m) -> pieces ls -> pieces (l :: ls).
Proof.
  intros (m & -> & Hm) H. destruct ls; simpl; [|eauto]. split; [by destruct m|]. eauto.
Qed.

Lemma pieces_inv l ls : pieces (l :: ls) -> pieces ls /\ (ls <> [] -> exists m, l = m ++ [ch_lf] /\ ch_lf ∉ m).
Proof. destruct ls; simpl; [done|]. intros [H1 H2]. done. Qed.

Lemma split_inclusive_pieces s : pieces (split_inclusive s) /\ concat (split_inclusive s) = s.
Proof.
  induction s as [s IH] using (well_founded_induction (well_founded_ltof _ (@length char))).
  destruct (decide (ch_lf ∈ s)) as [Hin|Hno].
  - apply list_elem_of_split_l in Hin as (l & s' & -> & Hl). rewrite split_inclusive_line by done.
    destruct (IH s') as [H1 H2]; [unfold ltof; rewrite length_app; simpl; lia|]. split.
    + apply pieces_cons; [by exists l|done].
    + simpl. rewrite H2. by rewrite <- app_assoc.
  - rewrite split_inclusive_last by done. case_bool_decide as E; [by subst|]. simpl. rewrite app_nil_r. auto.
Qed.

Lemma split_inclusive_of_pieces ls : pieces ls -> split_inclusive (concat ls) = ls.
Proof.
  induction ls as [|l ls IH]; [done|]. intros H. assert (Hl := pieces_inv _ _ H). destruct Hl as [Hls Hl].
  destruct ls as [|l' ls].
  - simpl in H |- *. rewrite app_nil_r. destruct H as [Hne [Hno|(m & -> & Hm)]].
    + rewrite split_inclusive_last by done. by rewrite bool_decide_false.
    + by rewrite split_inclusive_line.
  - destruct Hl as (m & -> & Hm); [done|]. cbn [concat]. rewrite <- app_assoc. simpl.
    rewrite split_inclusive_line by done. f_equal. apply IH. done.
Qed.

Lemma pieces_filter p ls : pieces ls -> pieces (List.filter p ls).
Proof.
  induction ls as [|l ls IH]; [done|]. intros H. destruct (pieces_inv _ _ H) as [Hls Hl].
  cbn [List.filter]. destruct (p l); [|by apply IH]. destruct ls as [|l' ls]; [done|].
  apply pieces_cons; [by apply Hl|by apply IH].
Qed.

Lemma split_inclusive_snoc ls line :
  ch_lf ∉ line -> pieces ls -> (concat ls <> [] -> last (concat ls) = Some ch_lf) ->
  split_inclusive (concat ls ++ line ++ [ch_lf]) = ls ++ [line ++ [ch_lf]].
Proof.
  intros Hl. induction ls as [|l ls IH]; intros H Hlast; simpl.
  { change (line ++ [ch_lf]) with (line ++ ch_lf :: []). by rewrite split_inclusive_line. }
  destruct (pieces_inv _ _ H) as [Hls Hm]. assert (exists m, l = m ++ [ch_lf] /\ ch_lf ∉ m) as (m & -> & Hno).
  { destruct ls as [|l' ls]; [|by apply Hm]. destruct H as [Hne [Hno|?]]; [|done]. exfalso.
    simpl in Hlast. rewrite app_nil_r in Hlast. apply Hlast, last_Some in Hne as (l0 & ->). set_solver. }
  rewrite <- !app_assoc. simpl. rewrite split_inclusive_line by done. f_equal. apply IH; [done|].
  intros Hne. simpl in Hlast. rewrite last_app in Hlast.
  destruct (last (concat ls)) eqn:E; [|by apply last_None in E]. apply Hlast. by destruct m.
Qed.

Lemma split_inclusive_app c line :
  ch_lf ∉ line -> split_inclusive (closed c ++ line ++ [ch_lf]) = split_inclusive (closed c) ++ [line ++ [ch_lf]].
Proof.
  intros Hl. destruct (split_inclusive_pieces (closed c)) as [Hp Hc]. rewrite <- Hc at 1.
  apply split_inclusive_snoc; [done|done|]. rewrite Hc.
  destruct (closed_spec c) as [->|(c' & ->)]; [done|]. intros _. by rewrite last_snoc.
Qed.

Section migrated.
Context (from_str : str -> option (list str)).

Lemma strip_pieces c banned :
  split_inclusive (strip_banned_allow_rules from_str c banned)
  = List.filter (fun l => negb (should_remove_rule from_str (map lowercase_prefix banned) l)) (split_inclusive c).
Proof. apply split_inclusive_of_pieces, pieces_filter, split_inclusive_pieces. Qed.

Lemma strip_idempotent c banned :
  strip_banned_allow_rules from_str (strip_banned_allow_rules from_str c banned) banned
  = strip_banned_allow_rules from_str c banned.
Proof.
  unfold strip_banned_allow_rules at 1. rewrite strip_pieces. unfold strip_banned_allow_rules. f_equal.
  generalize (split_inclusive c). intros ls. induction ls as [|l ls IH]; simpl; [done|].
  destruct (should_remove_rule _ _ l) eqn:E; simpl; [done|]. rewrite E. simpl. by rewrite IH.
Qed.

Lemma existsb_banned banned (p : list str) :
  existsb (fun b => bool_decide (b = lowercase_prefix p)) (map lowercase_prefix banned) = true
  <-> exists q, q ∈ banned /\ lowercase_prefix q = lowercase_prefix p.
Proof.
  rewrite existsb_exists. setoid_rewrite bool_decide_eq_true. setoid_rewrite in_map_iff.
  setoid_rewrite <- list_elem_of_In. naive_solver.
Qed.

(** The line of a saved rule is removed exactly when its prefix is banned. *)
Lemma saved_rule_removed to_string prefix rule tokens banned :
  allow_rule_line to_string prefix = Ok rule -> traverse to_string prefix = Ok tokens ->
  from_str (lit "[" ++ join (lit ", ") tokens ++ lit "]") = Some prefix ->
  should_remove_rule from_str (map lowercase_prefix banned) (rule ++ [ch_lf]) = true
  <-> exists q, q ∈ banned /\ lowercase_prefix q = lowercase_prefix prefix.
Proof.
  intros (_ & ts & Ht & ->)%allow_rule_line_inv Ht' Hjson. rewrite Ht in Ht'. injection Ht' as ->.
  unfold should_remove_rule. set (pat := lit "[" ++ _ ++ _) in *.
  rewrite (proj2 (strip_suffix_Some [ch_lf] _ (RULE_START ++ pat ++ RULE_END)) eq_refl). cbn [from_option id].
  destruct (strip_suffix [ch_cr] _) as [r|] eqn:E.
  { apply strip_suffix_Some in E. exfalso.
    assert (Hend : exists s, RULE_END = s ++ [41%N]) by (exists (removelast RULE_END); reflexivity).
    destruct Hend as (s & Hs). rewrite Hs, !app_assoc in E. apply app_inj_tail in E as [_ E]. done. }
  cbn [from_option id]. rewrite strip_prefix_app. cbn [mbind option_bind].
  rewrite (proj2 (strip_suffix_Some RULE_END _ pat) eq_refl), Hjson. apply existsb_banned.
Qed.

(** The migration undoes exactly the saved rules that are banned, up to
    ASCII case: of a file to which the rule of a prefix was appended it keeps
    what it keeps of the text before, and the new line unless the prefix is
    banned; a second pass changes nothing.  Assumed of JSON: strings are
    written on one line and a written list reads back. *)
Theorem migration_strips_exactly_banned to_string c prefix rule tokens banned :
  (forall s t, to_string s = Ok t -> ch_lf ∉ t) ->
  traverse to_string prefix = Ok tokens ->
  from_str (lit "[" ++ join (lit ", ") tokens ++ lit "]") = Some prefix ->
  allow_rule_line to_string prefix = Ok rule ->
  let strip text := strip_banned_allow_rules from_str text banned in
  strip (closed c ++ rule ++ [ch_lf])
    = strip (closed c)
      ++ (if decide (lowercase_prefix prefix ∈ map lowercase_prefix banned) then [] else rule ++ [ch_lf])
  /\ forall text, strip (strip text) = strip text.
Proof.
  intros Hjson Ht Hread Hrule strip. split; [|intros text; apply strip_idempotent].
  unfold strip, strip_banned_allow_rules.
  destruct (allow_rule_line_clean to_string Hjson _ _ Hrule) as [Hlf _].
  rewrite split_inclusive_app by done. rewrite List.filter_app, concat_app. f_equal. simpl.
  assert (H := saved_rule_removed to_string prefix rule tokens banned Hrule Ht Hread).
  destruct (should_remove_rule _ _ (rule ++ [ch_lf])) eqn:E; simpl.
  - rewrite decide_True; [done|]. apply list_elem_of_In, in_map_iff. destruct (proj1 H eq_refl) as (q & Hq & Eq).
    exists q. by rewrite <- list_elem_of_In.
  - rewrite decide_False; [by rewrite app_nil_r|]. intros (q & Eq & Hq)%list_elem_of_In%in_map_iff.
    assert (false = true); [|done]. apply H. exists q. by rewrite list_elem_of_In.
Qed.

(** The migration runs once.  When it succeeds, undisturbed, the file has
    lost its banned rules and nothing else and the marker is there; from then on
    a start leaves the file alone, whatever rules it has got.  As long as it fails
    the marker is not written, so the next start tries again. *)
Theorem migration_runs_once ev mf s banned s' r :
  migration_marker s = false ->
  (forall file, meanwhile ev file = file) -> (forall file, meanwhile_rewrite ev file = file) ->
  first_read_fault ev = None -> reopen_fault ev = None ->
  prefix_rule_migration from_str None ev mf s banned = (s', r) ->
  match r with
  | Ok _ => rules_file s' = option_map (fun c => strip_banned_allow_rules from_str c banned) (rules_file s)
            /\ migration_marker s' = true
            /\ forall ev' mf' later banned',
                 prefix_rule_migration from_str None ev' mf' (mkMigration later (migration_marker s')) banned'
                 = (mkMigration later true, Ok tt)
  | Err _ => migration_marker s' = false
  end.
Proof.
  intros Hm Hmw Hmr Hf1 Hf2. unfold prefix_rule_migration at 1. rewrite Hm.
  assert (Hclean : match snd (clean_rules_file from_str ev (rules_file s) banned) with
                   | Ok _ => fst (clean_rules_file from_str ev (rules_file s) banned)
                             = option_map (fun c => strip_banned_allow_rules from_str c banned) (rules_file s)
                   | Err _ => True
                   end).
  { unfold clean_rules_file, rewrite. rewrite Hf1, Hf2, Hmw. destruct (rules_file s) as [c|]; [|done].
    destruct (str_eqb _ c) eqn:E; [apply str_eqb_eq in E; simpl; by rewrite E|].
    destruct (second_read_fault ev); [done|]. simpl. destruct (rewind_fault ev); [done|].
    destruct (rewrite_fault ev) as [[]|]; [done|]. by rewrite Hmr. }
  destruct (clean_rules_file from_str ev (rules_file s) banned) as [file rc]. simpl in Hclean.
  destruct rc as [[]|e]; [|by intros [= <- <-]].
  assert (Hmark : match snd (write_migration_marker mf false) with
                  | Ok _ => fst (write_migration_marker mf false) = true
                  | Err _ => fst (write_migration_marker mf false) = false
                  end).
  { unfold write_migration_marker. destruct (create_home_fault mf), (task_fault mf), (temp_fault mf),
      (persist_fault mf); try done. simpl. by case_bool_decide. }
  destruct (write_migration_marker mf false) as [marker rm]. simpl in Hmark. intros [= <- <-].
  destruct rm as [[]|e]; [|done]. subst marker. split_and!; [done|done|]. intros ev' mf' later banned'. done.
Qed.

(** A rule that another process appends after the second read is lost: the
    rewrite does not take the lock that appending takes. *)
Lemma unlocked_rewrite_loses_appends ev contents banned others :
  first_read_fault ev = None -> reopen_fault ev = None -> second_read_fault ev = None ->
  rewind_fault ev = None -> rewrite_fault ev = None ->
  (forall file, meanwhile ev file = file) -> meanwhile_rewrite ev (Some contents) = Some (contents ++ others) ->
  strip_banned_allow_rules from_str contents banned <> contents ->
  clean_rules_file from_str ev (Some contents) banned
  = (Some (strip_banned_allow_rules from_str contents banned), Ok tt).
Proof.
  intros H1 H2 H3 H4 H5 Hm Ho Hne. unfold clean_rules_file, rewrite. rewrite H1, H2, H3, H4, H5, Hm, Ho.
  assert (E : str_eqb (strip_banned_allow_rules from_str contents banned) contents = false) by by apply str_eqb_neq.
  by rewrite E.
Qed.

End migrated.

(** ** Witnesses: [git], written by a quoting that refuses line feeds *)

Definition quote_line (s : str) : result str str :=
  if existsb (N.eqb ch_lf) s then Err [] else Ok (quoted s).

Lemma quote_line_one_line s t : quote_line s = Ok t -> ch_lf ∉ t.
Proof.
  unfold quote_line. destruct (existsb _ s) eqn:E; [done|]. intros [= <-]. apply no_lf_lit in E.
  unfold quoted. rewrite !not_elem_of_app. split_and!; [by apply no_lf_lit|done|by apply no_lf_lit].
Qed.

Definition no_faults : AppendFaults := mkFaults (Some (lit "rules")) None None None None None None None.

Definition git_rule : str := RULE_START ++ (lit "[" ++ quoted (lit "git") ++ lit "]") ++ RULE_END.

Definition read_git (p : str) : option (list str) :=
  if str_eqb p (lit "[" ++ quoted (lit "git") ++ lit "]") then Some [lit "git"] else None.

(** A text without lines makes no calls, any other the saved one. *)
Definition saved_lib : StarlarkLib := {|
  eval_module _ contents := Ok (mkRun (if is_nil contents then [] else [saved_call [lit "git"] None None]) None);
  shlex_split _ := None; shlex_join _ := None;
  debug_rule _ := []; debug_match _ := []; path_error := [];
|}.

Lemma amendment_is_saved_witness :
  exists s' r, append_amendment_and_update quote_line None None (mkUpdateFaults false false no_faults)
                 (lit "rules/default.rules") (mkSaved None policy_empty) [lit "git"] = Some (s', r)
  /\ [] `prefix_of` default [] (saved_file s')
  /\ match r with
     | Ok _ => (exists rule, allow_rule_line quote_line [lit "git"] = Ok rule
                             /\ rule ∈ lines (default [] (saved_file s')))
               /\ has_rule None None (saved_policy s') Allow [lit "git"]
     | Err e => saved_policy s' = policy_empty
                /\ (forall source, e = AddRule source -> false = true /\ s' = mkSaved None policy_empty)
     end.
Proof.
  exact (amendment_is_saved quote_line quote_line_one_line None None (mkUpdateFaults false false no_faults)
           (lit "rules/default.rules") (mkSaved None policy_empty) [lit "git"]).
Defined.

Lemma restart_keeps_amendment_witness :
  exists b2, @parse saved_lib None None builder_new (lit "default.rules") (git_rule ++ [ch_lf]) = (b2, Ok tt)
  /\ add_prefix_rule policy_empty [lit "git"] Allow = Ok (build b2).
Proof.
  apply (@restart_keeps_amendment saved_lib None None quote_line no_faults (lit "default.rules") None [lit "git"]
           git_rule (Some (git_rule ++ [ch_lf])) builder_new (lit "default.rules") (mkRun [] None) builder_new
           None None).
  - exact quote_line_one_line.
  - reflexivity.
  - apply not_elem_of_nil.
  - reflexivity.
  - reflexivity.
  - reflexivity.
  - vm_compute. reflexivity.
Defined.

Lemma migration_strips_exactly_banned_witness :
  let strip text := strip_banned_allow_rules read_git text [[lit "GIT"]] in
  strip (closed (lit "# rules") ++ git_rule ++ [ch_lf])
    = strip (closed (lit "# rules"))
      ++ (if decide (lowercase_prefix [lit "git"] ∈ map lowercase_prefix [[lit "GIT"]]) then []
          else git_rule ++ [ch_lf])
  /\ forall text, strip (strip text) = strip text.
Proof.
  apply (migration_strips_exactly_banned read_git quote_line (lit "# rules") [lit "git"] git_rule
           [quoted (lit "git")] [[lit "GIT"]]).
  - exact quote_line_one_line.
  - reflexivity.
  - reflexivity.
  - reflexivity.
Defined.

Definition undisturbed : CleanEvents :=
  mkClean None None None None None (fun file => file) (fun file => file).

Lemma migration_runs_once_witness :
  migration_marker (mkMigration (Some []) true) = true
  /\ forall ev' mf' later banned',
       prefix_rule_migration read_git None ev' mf' (mkMigration later true) banned'
       = (mkMigration later true, Ok tt).
Proof.
  exact (proj2 (migration_runs_once read_git undisturbed (mkMarkerFaults None None None None)
           (mkMigration (Some (git_rule ++ [ch_lf])) false) [[lit "git"]] (mkMigration (Some []) true) (Ok tt)
           eq_refl (fun _ => eq_refl) (fun _ => eq_refl) eq_refl eq_refl
           ltac:(vm_compute; reflexivity))).
Defined.
