(* ===== verification/Moa.v ===== *)
(** * moa: the Mixture-of-Agents turn

    [lib.rs] (configuration), [advisory.rs] (the advisory view of a
    conversation, prompts, guidance) and [run.rs] (reference calls and
    aggregation).  The model calls are a caller's functions: a reference call
    answers, fails or times out ([None]).  [buffer_unordered] delivers the
    results in any order: the order is a parameter of the turn.  Temperatures
    are 32-bit floats that are only passed on.  The iteration order of the
    preset map is a parameter ([first_key]). *)

From Stdlib Require Import Floats.SpecFloat.
From S2P Require Import Prelude RustStr.

Notation f32 := spec_float (only parsing).

(** ** lib.rs *)

Definition DEFAULT_MOA_PRESET_NAME : str := lit "default".
Definition MOA_PROVIDER_ID : str := lit "moa".

Record MoaModelSlot := mkSlot { slot_provider : str; slot_model : str }.

Record MoaPreset := mkPreset {
  reference_models : list MoaModelSlot;
  aggregator : MoaModelSlot;
  reference_temperature : f32;
  aggregator_temperature : f32;
  max_tokens : N;
  reference_max_tokens : option N;
  enabled : bool;
}.

Definition default_reference_models : list MoaModelSlot :=
  [mkSlot (lit "openai") (lit "gpt-5.4"); mkSlot (lit "gemini") (lit "gemini-3.7-flash")].
Definition default_aggregator : MoaModelSlot := mkSlot (lit "openai") (lit "gpt-5.1-codex").

(** The nearest 32-bit floats to 0.6 and 0.4. *)
Definition default_ref_temp : f32 := S754_finite false 10066330 (-24).
Definition default_agg_temp : f32 := S754_finite false 13421773 (-25).
Definition default_max_tokens : N := 4096%N.

Definition default_preset_value : MoaPreset :=
  mkPreset default_reference_models default_aggregator default_ref_temp default_agg_temp
    default_max_tokens None true.

Record MoaConfig := mkConfig {
  default_preset : option str;
  active_preset : option str;
  presets : gmap str MoaPreset;
}.

Record NormalizedMoaConfig := mkNormalized {
  n_default_preset : str;
  n_active_preset : str;
  n_presets : gmap str MoaPreset;
  n_reference_models : list MoaModelSlot;
  n_aggregator : MoaModelSlot;
  n_reference_temperature : f32;
  n_aggregator_temperature : f32;
  n_max_tokens : N;
  n_reference_max_tokens : option N;
  n_enabled : bool;
}.

Section config.
(** [presets.keys().next()]: some key of a non-empty map. *)
Context (first_key : gmap str MoaPreset -> option str).

Definition normalized (c : MoaConfig) : NormalizedMoaConfig :=
  let ps := if bool_decide (presets c = ∅)
            then <[DEFAULT_MOA_PRESET_NAME := default_preset_value]> (presets c)
            else presets c in
  let default_name := default DEFAULT_MOA_PRESET_NAME (default_preset c) in
  let default_name :=
    if bool_decide (is_Some (ps !! default_name)) then default_name
    else default DEFAULT_MOA_PRESET_NAME (first_key ps) in
  let act := default default_preset_value (ps !! default_name) in
  mkNormalized default_name (default [] (active_preset c)) ps (reference_models act)
    (aggregator act) (reference_temperature act) (aggregator_temperature act) (max_tokens act)
    (reference_max_tokens act) (enabled act).

Definition resolve_preset (c : MoaConfig) (name : option str) : option MoaPreset :=
  let n := normalized c in
  let key := default (n_default_preset n) name in
  n_presets n !! key.

End config.

(** ** advisory.rs *)

Definition REFERENCE_TOOL_RESULT_BUDGET : nat := 40 * 100.
Definition MAX_REFERENCE_WORKERS : nat := 8.

Definition REFERENCE_SYSTEM_PROMPT : str :=
  lit "You are a reference advisor in a Mixture of Agents (MoA) process. You are NOT the acting agent and you do NOT execute anything: you cannot call tools, run commands, browse, or access files, repositories, or URLs, and you should not try to or apologize for being unable to. A separate aggregator/orchestrator model holds those capabilities and will take the actual actions."
  ++ [ch_lf]
  ++ [ch_lf]
  ++ lit "The conversation below is the current state of a task handled by that acting agent. Your job is to give your most intelligent analysis of that state: understand the goal, reason about the problem, and advise on what to do next. Surface the best approach, concrete next steps and tool-use strategy, likely pitfalls and risks, and anything the acting agent may have missed or gotten wrong. Assume any referenced files, URLs, or systems exist and reason about them from the context given rather than asking for access."
  ++ [ch_lf]
  ++ [ch_lf]
  ++ lit "Respond with your advice directly - no preamble, no disclaimers about tools or access. Your response is private guidance handed to the aggregator, not an answer shown to the user.".

Definition ADVISORY_INSTRUCTION : str :=
  lit "[The conversation above is the current state of the task. Give your most intelligent judgement: what is going on, what should happen next, what risks or mistakes you see, and how the acting agent should proceed.]".

Definition slot_label (s : MoaModelSlot) : str :=
  trim (slot_provider s) ++ lit ":" ++ trim (slot_model s).

Record ToolCall := mkCall { call_name : str; call_arguments : str }.

Record ChatMessage := mkMessage {
  role : str;
  content : str;
  tool_calls : list ToolCall;
  is_tool_result : bool;
}.

Definition msg_user (c : str) : ChatMessage := mkMessage (lit "user") c [] false.
Definition msg_assistant (c : str) : ChatMessage := mkMessage (lit "assistant") c [] false.
Definition msg_system (c : str) : ChatMessage := mkMessage (lit "system") c [] false.
Definition msg_tool_result (c : str) : ChatMessage := mkMessage (lit "tool") c [] true.

Definition omission_line (omitted : nat) : str :=
  [ch_lf] ++ lit "[... " ++ fmt_nat omitted ++ lit " chars omitted ...]" ++ [ch_lf].

Definition truncate_tool_result (text : str) (budget : nat) : str :=
  if length text <=? budget then text
  else
    let half := budget / 2 in
    let head := take half text in
    let tail := rev (take half (rev text)) in
    let omitted := length text - 2 * half in
    head ++ omission_line omitted ++ tail.

Definition render_tool_call (tc : ToolCall) : str :=
  let name := if bool_decide (trim (call_name tc) = []) then lit "tool" else trim (call_name tc) in
  if bool_decide (trim (call_arguments tc) = []) then lit "[called tool: " ++ name ++ lit "]"
  else lit "[called tool: " ++ name ++ lit "(" ++ trim (call_arguments tc) ++ lit ")]".

Definition render_tool_calls (tcs : list ToolCall) : str := join [ch_lf] (map render_tool_call tcs).

(** The body of the loop of [build_reference_messages]. *)
Definition render_message (rendered : list ChatMessage) (msg : ChatMessage) : list ChatMessage :=
  if str_eqb (role msg) (lit "system") then rendered
  else if str_eqb (role msg) (lit "user") then rendered ++ [msg_user (content msg)]
  else if str_eqb (role msg) (lit "assistant") then
    let parts := if bool_decide (trim (content msg) = []) then [] else [trim (content msg)] in
    let calls_text := render_tool_calls (tool_calls msg) in
    let parts := if bool_decide (calls_text = []) then parts else parts ++ [calls_text] in
    match parts with
    | [] => rendered
    | _ => rendered ++ [msg_assistant (join [ch_lf] parts)]
    end
  else if is_tool_result msg || str_eqb (role msg) (lit "tool") then
    let preview := truncate_tool_result (trim (content msg)) REFERENCE_TOOL_RESULT_BUDGET in
    let block := lit "[tool result: " ++ preview ++ lit "]" in
    if is_some_and (fun m => str_eqb (role m) (lit "assistant")) (last rendered) then
      update_last (fun m => mkMessage (role m) (content m ++ [ch_lf] ++ block) (tool_calls m)
                              (is_tool_result m)) rendered
    else rendered ++ [msg_assistant block]
  else rendered.

Definition build_reference_messages (messages : list ChatMessage) : list ChatMessage :=
  let rendered := fold_left render_message messages [] in
  if is_some_and (fun m => str_eqb (role m) (lit "user")) (last rendered) then rendered
  else rendered ++ [msg_user ADVISORY_INSTRUCTION].

Definition reference_block (idx : nat) (r : MoaModelSlot * str) : str :=
  lit "Reference " ++ fmt_nat (idx + 1) ++ lit " - " ++ slot_label (fst r) ++ lit ":" ++ [ch_lf] ++ snd r.

Definition joined_references (refs : list (MoaModelSlot * str)) : str :=
  join [ch_lf; ch_lf] (imap reference_block refs).

Definition build_synthesis_prompt (user_prompt : str) (refs : list (MoaModelSlot * str))
    (agg : MoaModelSlot) : str :=
  lit "You are the aggregator in a Mixture of Agents process. Synthesize the reference responses into concise, actionable guidance for the main agent. Focus on next steps, tool-use strategy, risks, and any disagreements. Do not answer the user directly unless that is all that is needed; produce context the main agent should use in its normal loop."
  ++ [ch_lf; ch_lf] ++ lit "Original user prompt:" ++ [ch_lf] ++ user_prompt
  ++ [ch_lf; ch_lf] ++ lit "Reference responses:" ++ [ch_lf] ++ joined_references refs.

Definition build_guidance (synthesis : str) (agg : MoaModelSlot) (models : list MoaModelSlot) : str :=
  let refs := join (lit ", ") (map slot_label models) in
  let body := if bool_decide (trim synthesis = [])
              then lit "(no aggregator synthesis; see reference outputs below)"
              else trim synthesis in
  lit "[Mixture of Agents context - use this as private guidance for the normal agent loop. You may call tools, continue reasoning, or finish normally.]"
  ++ [ch_lf] ++ lit "Aggregator: " ++ slot_label agg ++ [ch_lf] ++ lit "References: " ++ refs
  ++ [ch_lf; ch_lf] ++ body.

Definition aggregator_entry (idx : nat) (r : MoaModelSlot * str) : str :=
  [ch_lf] ++ lit "--- Reference " ++ fmt_nat (idx + 1) ++ lit " (" ++ slot_provider (fst r) ++ lit ":"
  ++ slot_model (fst r) ++ lit ") ---" ++ [ch_lf] ++ snd r ++ [ch_lf].

Definition build_aggregator_prompt (user_prompt : str) (refs : list (MoaModelSlot * str)) : str :=
  lit "You are the aggregator for a Mixture-of-Agents system. Synthesize the following reference answers into a single high-quality response."
  ++ [ch_lf; ch_lf] ++ lit "Original user prompt:" ++ [ch_lf] ++ user_prompt
  ++ [ch_lf; ch_lf] ++ lit "Reference answers:" ++ [ch_lf] ++ concat (imap aggregator_entry refs)
  ++ [ch_lf] ++ lit "Provide the final aggregated answer. Be concise, accurate, and actionable. Do not reveal you are an aggregator.".

(** ** run.rs *)

(** [REFERENCE_CALL_TIMEOUT], in seconds *)
Definition REFERENCE_CALL_TIMEOUT : N := 120%N.

Record ReferenceOutput := mkOutput { out_slot : MoaModelSlot; out_text : str }.

Inductive MoaEvent :=
| EvReference (index count : nat) (label text : str)
| EvAggregating (aggregator : str) (ref_count : nat).

(** [MoaLlmCaller]: the outcome of the reference call with the given index
    ([None]: no answer within the timeout) and of the aggregator call. *)
Class MoaLlmCaller := {
  call_reference : nat -> MoaModelSlot -> str -> list ChatMessage -> f32 -> option N ->
                   option (result str str);
  call_aggregator : MoaModelSlot -> str -> f32 -> option N -> result str str;
}.

Definition failure_note (slot : MoaModelSlot) (why : str) : str :=
  lit "[failed: " ++ slot_label slot ++ lit ": " ++ why ++ lit "]".

(** A reference answer or a failure note. *)
Definition reference_text (slot : MoaModelSlot) (outcome : option (result str str)) : str :=
  match outcome with
  | Some (Ok text) =>
      if bool_decide (trim text = []) then failure_note slot (lit "(empty response)") else text
  | Some (Err err) => failure_note slot err
  | None => failure_note slot (lit "timed out after " ++ fmt_N REFERENCE_CALL_TIMEOUT ++ lit "s")
  end.

Definition or_else (a b : option N) : option N := match a with Some _ => a | None => b end.

Definition reference_event (count idx : nat) (o : ReferenceOutput) : MoaEvent :=
  EvReference (idx + 1) count (slot_label (out_slot o)) (out_text o).

Section turn.
Context `{MoaLlmCaller}.

(** The result of one reference future. *)
Definition reference_call (messages : list ChatMessage) (temperature : f32) (tokens : option N)
    (index : nat) (slot : MoaModelSlot) : nat * ReferenceOutput :=
  (index, mkOutput slot (reference_text slot
            (call_reference index slot REFERENCE_SYSTEM_PROMPT messages temperature tokens))).

(** The order in which [buffer_unordered] yields the results. *)
Context (completion : list (nat * ReferenceOutput) -> list (nat * ReferenceOutput)).

(** The guidance, the references and the events in order. *)
Definition run_moa_turn (user_prompt : str) (api_messages : list ChatMessage)
    (models : list MoaModelSlot) (agg : MoaModelSlot) (ref_temp agg_temp : f32)
    (tokens ref_tokens : option N) : str * list ReferenceOutput * list MoaEvent :=
  let ref_messages := build_reference_messages api_messages in
  let indexed := completion (imap (reference_call ref_messages ref_temp (or_else ref_tokens tokens)) models) in
  let references := map snd (sort_by_key fst indexed) in
  let events := imap (reference_event (length references)) references
                ++ [EvAggregating (slot_label agg) (length references)] in
  let pairs := map (fun o => (out_slot o, out_text o)) references in
  let synth_prompt := build_synthesis_prompt user_prompt pairs agg in
  let synthesis := match call_aggregator agg synth_prompt agg_temp tokens with
                   | Ok s => s
                   | Err _ => []
                   end in
  let synthesis := if bool_decide (trim synthesis = []) then joined_references pairs else synthesis in
  (build_guidance synthesis agg models, references, events).

End turn.

(** ** Tool results and the advisory view *)

Lemma truncate_tail n (text : str) : n <= length text ->
  rev (take n (rev text)) = drop (length text - n) text.
Proof.
  intros Hn. rewrite <- (take_drop (length text - n) text) at 1. rewrite rev_app_distr.
  rewrite take_app_length'; [apply rev_involutive|]. rewrite length_rev, length_drop. lia.
Qed.

(** A tool result within the budget is shown whole; a longer one is shown
    as its first and last halves of the budget around a line with the exact
    number of characters left out. *)
Theorem truncate_tool_result_correct text budget :
  (length text <= budget -> truncate_tool_result text budget = text)
  /\ (budget < length text -> exists head mid tail, text = head ++ mid ++ tail
        /\ length head = budget / 2 /\ length tail = budget / 2 /\ mid <> []
        /\ truncate_tool_result text budget = head ++ omission_line (length mid) ++ tail).
Proof.
  unfold truncate_tool_result. destruct (Nat.leb_spec (length text) budget) as [Hle|Hgt].
  { split; [done|lia]. }
  split; [lia|]. intros _. pose proof (Nat.div_mod budget 2 ltac:(done)) as Hb.
  set (half := budget / 2) in *. rewrite truncate_tail by lia.
  exists (take half text), (take (length text - 2 * half) (drop half text)),
    (drop (length text - half) text). split_and!.
  - replace (length text - half) with (half + (length text - 2 * half)) by lia.
    by rewrite <- drop_drop, take_drop, take_drop.
  - rewrite length_take. lia.
  - rewrite length_drop. lia.
  - intros E. apply (f_equal length) in E. rewrite length_take, length_drop in E. simpl in E. lia.
  - by rewrite length_take, length_drop, Nat.min_l by lia.
Qed.

Lemma truncate_tool_result_correct_witness :
  truncate_tool_result (lit "abcde") 8 = lit "abcde".
Proof.
  apply (proj1 (truncate_tool_result_correct (lit "abcde") 8)).
  apply Nat.leb_le. vm_compute. reflexivity.
Defined.

(** A plain text turn, as strict providers accept it. *)
Definition plain_turn (m : ChatMessage) : Prop :=
  (role m = lit "user" \/ role m = lit "assistant") /\ tool_calls m = [] /\ is_tool_result m = false.

Definition is_user (m : ChatMessage) : bool := str_eqb (role m) (lit "user").

(** The contents of the user turns. *)
Definition user_contents (ms : list ChatMessage) : list str := map content (List.filter is_user ms).

Lemma user_contents_app a b : user_contents (a ++ b) = user_contents a ++ user_contents b.
Proof. unfold user_contents. by rewrite List.filter_app, map_app. Qed.

Lemma render_message_spec rendered msg :
  Forall plain_turn rendered ->
  Forall plain_turn (render_message rendered msg)
  /\ user_contents (render_message rendered msg)
     = user_contents rendered ++ (if is_user msg then [content msg] else []).
Proof.
  intros Hr. unfold render_message. fold (is_user msg).
  assert (Ha : forall c, plain_turn (msg_assistant c)) by (intros c; repeat split; by right).
  assert (Happ : forall c, Forall plain_turn (rendered ++ [msg_assistant c])
    /\ user_contents (rendered ++ [msg_assistant c]) = user_contents rendered ++ []).
  { intros c. split; [apply Forall_app; split; [done|by apply Forall_singleton]|].
    by rewrite user_contents_app. }
  destruct (str_eqb (role msg) (lit "system")) eqn:Es.
  { apply str_eqb_eq in Es. unfold is_user. rewrite Es. split; [done|]. by rewrite app_nil_r. }
  destruct (is_user msg).
  { split; [apply Forall_app; split; [done|apply Forall_singleton; repeat split; by left]|].
    by rewrite user_contents_app. }
  destruct (str_eqb (role msg) (lit "assistant")).
  { destruct (if bool_decide _ then _ else _) as [|x l]; [by rewrite app_nil_r|apply Happ]. }
  destruct (is_tool_result msg || _); [|by rewrite app_nil_r].
  destruct (last rendered) as [m|] eqn:El; simpl; [|apply Happ].
  destruct (str_eqb (role m) (lit "assistant")) eqn:Em; [|apply Happ].
  apply last_snoc_inv in El as [l ->]. apply Forall_app in Hr as [Hl Hm].
  apply Forall_singleton in Hm as (H1 & H2 & H3). rewrite update_last_snoc, app_nil_r. split.
  - apply Forall_app. split; [done|]. apply Forall_singleton. by repeat split.
  - rewrite !user_contents_app. f_equal. unfold user_contents, is_user. simpl.
    apply str_eqb_eq in Em. by rewrite Em.
Qed.

(** The advisory view has only plain user and assistant text turns (no
    system or tool turn, no tool calls), keeps every user turn's text in
    order, and always ends on a user turn, the advisory instruction if
    needed. *)
Theorem build_reference_messages_correct messages :
  let out := build_reference_messages messages in
  Forall plain_turn out
  /\ (exists m, last out = Some m /\ role m = lit "user")
  /\ (user_contents out = user_contents messages
      \/ user_contents out = user_contents messages ++ [ADVISORY_INSTRUCTION]).
Proof.
  assert (Hfold : forall rendered, Forall plain_turn rendered ->
    Forall plain_turn (fold_left render_message messages rendered)
    /\ user_contents (fold_left render_message messages rendered)
       = user_contents rendered ++ user_contents messages).
  { induction messages as [|msg ms IH]; intros rendered Hr; cbn [fold_left].
    - split; [done|]. by rewrite app_nil_r.
    - destruct (render_message_spec rendered msg Hr) as [H1 H2].
      destruct (IH _ H1) as [H3 H4]. split; [done|]. rewrite H4, H2, <- app_assoc. f_equal.
      unfold user_contents. simpl. by destruct (is_user msg). }
  destruct (Hfold [] ltac:(by apply Forall_nil_2)) as [H1 H2]. simpl in H2.
  unfold build_reference_messages. set (r := fold_left render_message messages []) in *.
  destruct (last r) as [m|] eqn:El; simpl.
  - destruct (str_eqb (role m) (lit "user")) eqn:Em.
    + apply str_eqb_eq in Em. split_and!; [done|eauto|by left].
    + split_and!; [|eexists; by rewrite last_snoc|right; by rewrite user_contents_app, H2].
      apply Forall_app. split; [done|]. apply Forall_singleton. repeat split; by left.
  - split_and!; [|eexists; by rewrite last_snoc|right; by rewrite user_contents_app, H2].
    apply Forall_app. split; [done|]. apply Forall_singleton. repeat split; by left.
Qed.

(** ** The turn *)

Lemma imap_index_sorted {A B} (f : nat -> A -> B) k (l : list A) :
  StronglySorted (key_le fst) (imap (fun i x => (k + i, f i x)) l)
  /\ NoDup (map fst (imap (fun i x => (k + i, f i x)) l))
  /\ Forall (fun p => k <= p.1) (imap (fun i x => (k + i, f i x)) l).
Proof.
  revert k f; induction l as [|x l IH]; intros k f; simpl.
  { split_and!; [constructor|apply NoDup_nil_2|apply Forall_nil_2]. }
  destruct (IH (S k) (fun i => f (S i))) as (H1 & H2 & H3).
  assert (E : imap ((fun i y => (k + i, f i y)) ∘ S) l = imap (fun i y => (S k + i, f (S i) y)) l).
  { apply imap_ext. intros i y _. simpl. f_equal. lia. }
  rewrite E. set (l' := imap (fun i y => (S k + i, f (S i) y)) l) in *.
  rewrite Forall_forall in H3. split_and!.
  - constructor; [done|]. apply Forall_forall. intros [i b] Hi. apply H3 in Hi.
    unfold key_le. simpl in *. lia.
  - apply NoDup_cons. split; [|done]. rewrite Nat.add_0_r. intros Hin.
    apply list_elem_of_In, in_map_iff in Hin as ([i b] & Hk & Hin).
    apply list_elem_of_In, H3 in Hin. simpl in *. lia.
  - constructor; [simpl; lia|]. apply Forall_forall. intros [i b] Hi. apply H3 in Hi. simpl in *. lia.
Qed.

Lemma failure_note_visible slot why : trim (failure_note slot why) <> [].
Proof.
  rewrite trim_nil. unfold failure_note. intros H. apply Forall_app in H as [H _].
  unfold lit in H. apply Forall_cons in H as [H _]. done.
Qed.

Lemma reference_text_visible slot outcome : trim (reference_text slot outcome) <> [].
Proof.
  unfold reference_text. destruct outcome as [[text|err]|]; try apply failure_note_visible.
  case_bool_decide; [apply failure_note_visible|done].
Qed.

Lemma join_first (P : char -> Prop) sep x l : Forall P (join sep (x :: l)) -> Forall P x.
Proof. destruct l; [done|]. intros H. by apply Forall_app in H as [? _]. Qed.

Lemma joined_references_visible refs : refs <> [] -> trim (joined_references refs) <> [].
Proof.
  intros Hne. rewrite trim_nil. destruct refs as [|r refs]; [done|]. unfold joined_references.
  cbn [imap]. intros H. apply join_first in H. unfold reference_block in H.
  apply Forall_app in H as [H _]. unfold lit in H. apply Forall_cons in H as [H _]. done.
Qed.

Section turn_properties.
Context `{MoaLlmCaller}.

(** The reference outputs in the order of the slots. *)
Definition outputs_in_order (messages : list ChatMessage) (temp : f32) (tokens : option N)
    (models : list MoaModelSlot) : list ReferenceOutput :=
  imap (fun i slot => (reference_call messages temp tokens i slot).2) models.

Lemma references_in_order completion messages temp tokens models :
  (forall l, Permutation (completion l) l) ->
  map snd (sort_by_key fst (completion (imap (reference_call messages temp tokens) models)))
  = outputs_in_order messages temp tokens models.
Proof.
  intros Hperm.
  destruct (imap_index_sorted (fun i slot => (reference_call messages temp tokens i slot).2) 0 models)
    as (H1 & H2 & _).
  rewrite (sort_by_key_unique fst (imap (reference_call messages temp tokens) models));
    [|exact H1|exact H2|apply Hperm].
  unfold outputs_in_order. change (map snd) with (fmap (M:=list) (A:=nat * ReferenceOutput) snd).
  rewrite fmap_imap. done.
Qed.

Lemma length_outputs messages temp tokens models :
  length (outputs_in_order messages temp tokens models) = length models.
Proof. apply length_imap. Qed.

(** C40: a turn does not depend on the order in which the reference calls
    complete: there is one output per configured reference, in the configured
    order, an answer or a failure note that is never blank; one event per
    reference and a final one are emitted in that order. *)
Theorem run_moa_turn_order_independent completion user_prompt api models agg rt at_ tokens rtokens :
  (forall l, Permutation (completion l) l) ->
  let '(guidance, refs, events) :=
    run_moa_turn completion user_prompt api models agg rt at_ tokens rtokens in
  run_moa_turn (fun l => l) user_prompt api models agg rt at_ tokens rtokens = (guidance, refs, events)
  /\ length refs = length models
  /\ length events = length models + 1
  /\ (forall i o, refs !! i = Some o ->
        models !! i = Some (out_slot o) /\ trim (out_text o) <> []
        /\ events !! i = Some (EvReference (i + 1) (length models) (slot_label (out_slot o)) (out_text o))).
Proof.
  intros Hperm. unfold run_moa_turn. rewrite (references_in_order (fun l => l)) by done.
  rewrite references_in_order by done. set (refs := outputs_in_order _ _ _ models).
  assert (Hlen : length refs = length models) by apply length_outputs.
  split_and!; [done|done|by rewrite length_app, length_imap, Hlen|].
  intros i o Hi. pose proof Hi as Hi'. unfold refs, outputs_in_order in Hi.
  rewrite list_lookup_imap in Hi. destruct (models !! i) as [slot|] eqn:Em; simplify_eq/=.
  split_and!; [done|apply reference_text_visible|].
  rewrite lookup_app_l by (rewrite length_imap, Hlen; by eapply lookup_lt_Some).
  rewrite list_lookup_imap, Hi', Hlen. done.
Qed.

(** With at least one reference the guidance always carries advice: the
    aggregator's answer when it is not blank, and otherwise, also when the
    aggregator fails, all the reference texts joined in order. *)
Theorem run_moa_turn_guidance completion user_prompt api models agg rt at_ tokens rtokens :
  (forall l, Permutation (completion l) l) -> models <> [] ->
  let '(guidance, refs, _) :=
    run_moa_turn completion user_prompt api models agg rt at_ tokens rtokens in
  let pairs := map (fun o => (out_slot o, out_text o)) refs in
  exists synthesis, guidance = build_guidance synthesis agg models /\ trim synthesis <> []
    /\ match call_aggregator agg (build_synthesis_prompt user_prompt pairs agg) at_ tokens with
       | Ok s => if bool_decide (trim s = []) then synthesis = joined_references pairs
                 else synthesis = s
       | Err _ => synthesis = joined_references pairs
       end.
Proof.
  intros Hperm Hne. unfold run_moa_turn. rewrite references_in_order by done.
  set (refs := outputs_in_order _ _ _ models).
  set (pairs := map (fun o => (out_slot o, out_text o)) refs).
  assert (Hpairs : pairs <> []).
  { intros E. apply (f_equal length) in E. unfold pairs in E. rewrite length_map in E.
    unfold refs in E. rewrite length_outputs in E. by destruct models. }
  eexists. split; [done|].
  destruct (call_aggregator _ _ _ _) as [s|e].
  - case_bool_decide as Hs; [split; [by apply joined_references_visible|done]|done].
  - split; [by apply joined_references_visible|done].
Qed.

End turn_properties.

(** A caller whose references fail in one way or another and whose aggregator
    is down. *)
#[local] Instance sample_caller : MoaLlmCaller := {
  call_reference := fun i _ _ _ _ _ =>
    match i with 0 => Some (Ok (lit "advice")) | 1 => Some (Err (lit "no key")) | _ => None end;
  call_aggregator := fun _ _ _ _ => Err (lit "down");
}.

Definition sample_models : list MoaModelSlot :=
  [mkSlot (lit "a") (lit "m1"); mkSlot (lit "b") (lit "m2"); mkSlot (lit "c") (lit "m3")].

Lemma run_moa_turn_order_independent_witness :
  let '(guidance, refs, events) :=
    run_moa_turn (@rev _) (lit "hi") [msg_user (lit "hi")] sample_models default_aggregator
      default_ref_temp default_agg_temp None None in
  run_moa_turn (fun l => l) (lit "hi") [msg_user (lit "hi")] sample_models default_aggregator
      default_ref_temp default_agg_temp None None = (guidance, refs, events)
  /\ length refs = length sample_models
  /\ length events = length sample_models + 1
  /\ (forall i o, refs !! i = Some o ->
        sample_models !! i = Some (out_slot o) /\ trim (out_text o) <> []
        /\ events !! i = Some (EvReference (i + 1) (length sample_models) (slot_label (out_slot o)) (out_text o))).
Proof.
  apply (run_moa_turn_order_independent (@rev _) (lit "hi") [msg_user (lit "hi")] sample_models
    default_aggregator default_ref_temp default_agg_temp None None).
  intros l. symmetry. apply Permutation_rev.
Defined.

Lemma run_moa_turn_guidance_witness :
  let '(guidance, refs, _) :=
    run_moa_turn (@rev _) (lit "hi") [msg_user (lit "hi")] sample_models default_aggregator
      default_ref_temp default_agg_temp None None in
  let pairs := map (fun o => (out_slot o, out_text o)) refs in
  exists synthesis, guidance = build_guidance synthesis default_aggregator sample_models
    /\ trim synthesis <> []
    /\ match call_aggregator default_aggregator
              (build_synthesis_prompt (lit "hi") pairs default_aggregator) default_agg_temp None with
       | Ok s => if bool_decide (trim s = []) then synthesis = joined_references pairs
                 else synthesis = s
       | Err _ => synthesis = joined_references pairs
       end.
Proof.
  apply (run_moa_turn_guidance (@rev _) (lit "hi") [msg_user (lit "hi")] sample_models
    default_aggregator default_ref_temp default_agg_temp None None).
  - intros l. symmetry. apply Permutation_rev.
  - discriminate.
Defined.

(** ** Configuration *)

(** Whatever presets are configured, normalisation selects a preset that
    exists: the named default when it is there, some configured preset when
    it is not, the built-in default when there are none; the flattened fields
    are that preset's, and resolving without a name always succeeds with it. *)
Theorem normalized_selects_preset first_key c :
  (forall m k, first_key m = Some k -> is_Some (m !! k)) ->
  (forall m, first_key m = None -> m = ∅) ->
  let n := normalized first_key c in
  exists p, n_presets n !! n_default_preset n = Some p
    /\ resolve_preset first_key c None = Some p
    /\ n_reference_models n = reference_models p /\ n_aggregator n = aggregator p
    /\ n_max_tokens n = max_tokens p /\ n_enabled n = enabled p
    /\ (presets c = ∅ -> p = default_preset_value)
    /\ (forall d, default_preset c = Some d -> is_Some (presets c !! d) ->
          n_default_preset n = d /\ presets c !! d = Some p).
Proof.
  intros Hk Hn n. unfold resolve_preset. cbn [default]. fold n.
  set (ps := if bool_decide (presets c = ∅)
             then <[DEFAULT_MOA_PRESET_NAME := default_preset_value]> (presets c) else presets c).
  assert (Hps : ps <> ∅).
  { unfold ps. case_bool_decide; [apply insert_non_empty|done]. }
  assert (Hsel : is_Some (ps !! n_default_preset n)).
  { unfold n, normalized. fold ps. cbn [n_default_preset]. case_bool_decide; [done|].
    destruct (first_key ps) as [k|] eqn:E; [by apply Hk|by apply Hn in E]. }
  destruct Hsel as [p Hp]. exists p. change (n_presets n) with ps.
  assert (Hact : default default_preset_value (ps !! n_default_preset n) = p) by by rewrite Hp.
  split_and!; try done; try (rewrite <- Hact; done).
  - intros He. unfold ps in Hp. rewrite bool_decide_true, He in Hp by done.
    apply lookup_insert_Some in Hp as [[_ ?]|[_ Hp]]; [done|]. by rewrite lookup_empty in Hp.
  - intros d Hd Hsome.
    assert (Hc : ps = presets c).
    { unfold ps. rewrite bool_decide_false; [done|]. intros He. rewrite He, lookup_empty in Hsome.
      by destruct Hsome. }
    assert (Hdn : n_default_preset n = d).
    { unfold n, normalized. fold ps. cbn [n_default_preset]. rewrite Hd, Hc. simpl.
      by rewrite bool_decide_true. }
    split; [done|]. by rewrite <- Hc, <- Hdn.
Qed.

(** The keys in the order of the map's own enumeration. *)
Definition sample_first_key (m : gmap str MoaPreset) : option str := head (map fst (map_to_list m)).

Lemma sample_first_key_in m k : sample_first_key m = Some k -> is_Some (m !! k).
Proof.
  unfold sample_first_key. destruct (map_to_list m) as [|[k' v] l] eqn:E; [done|].
  intros; simplify_eq/=. exists v. apply elem_of_map_to_list. rewrite E. by left.
Qed.

Lemma sample_first_key_none m : sample_first_key m = None -> m = ∅.
Proof.
  unfold sample_first_key. destruct (map_to_list m) as [|[k v] l] eqn:E; [|done].
  intros _. by apply map_to_list_empty_iff.
Qed.

Lemma normalized_selects_preset_witness :
  let c := mkConfig (Some (lit "gone")) None {[ lit "mine" := default_preset_value ]} in
  let n := normalized sample_first_key c in
  exists p, n_presets n !! n_default_preset n = Some p
    /\ resolve_preset sample_first_key c None = Some p.
Proof.
  intros c n.
  destruct (normalized_selects_preset sample_first_key c sample_first_key_in sample_first_key_none)
    as (p & H1 & H2 & _).
  exists p. split; [exact H1|exact H2].
Defined.
