(* ===== verification/ConfigToml.v ===== *)
(** * Configuration values and the merge of layers

    config/src/key_aliases.rs, merge.rs and overrides.rs: a configuration layer
    is a TOML document; a layer is merged over the layers below it table by
    table, with legacy keys renamed, feature switches that may be a boolean or a
    table, two exclusive forms of the shell environment filters, and keys that
    are compared up to case or host spelling.

    A [toml::Map] keeps its insertion order (the crate enables
    [preserve_order]), so a table is an association list: inserting an existing
    key replaces its value in place, a new key goes to the end.  The reference
    semantics is [setting_at], the value a document gives to a dotted path;
    [merge_setting] says what a merge means for it.  The branch of the merge
    that only exists on Windows is not modelled. *)

From S2P Require Import Prelude RustStr NetworkPolicy.
From Stdlib Require Import SpecFloat.

(** ** Values *)

Inductive TomlValue :=
| TString (s : str)
| TInteger (n : Z)
| TFloat (f : spec_float)
| TBoolean (b : bool)
| TDatetime (text : str)
| TArray (items : list TomlValue)
| TTable (table : list (str * TomlValue)).

(** ** Tables: [toml::Map] *)

Section table.
Context {A : Type}.
Implicit Types (t : list (str * A)) (k : str).

Fixpoint t_get k t : option A :=
  match t with
  | [] => None
  | (k', v) :: t' => if str_eqb k k' then Some v else t_get k t'
  end.

Definition t_contains_key k t : bool := match t_get k t with Some _ => true | None => false end.

Fixpoint t_insert k (v : A) t : list (str * A) :=
  match t with
  | [] => [(k, v)]
  | (k', v') :: t' => if str_eqb k k' then (k', v) :: t' else (k', v') :: t_insert k v t'
  end.

Fixpoint t_remove k t : list (str * A) :=
  match t with
  | [] => []
  | (k', v') :: t' => if str_eqb k k' then t' else (k', v') :: t_remove k t'
  end.

(** [table.entry(key).or_insert(value)] *)
Definition t_or_insert k (v : A) t : list (str * A) :=
  match t_get k t with Some _ => t | None => t_insert k v t end.

(** [Map::from_iter] *)
Definition t_from_iter (entries : list (str * A)) : list (str * A) :=
  fold_left (fun t '(k, v) => t_insert k v t) entries [].

End table.

(** [TomlValue::as_table], [TomlValue::get] with a string, [as_bool] *)
Definition as_table (v : TomlValue) : option (list (str * TomlValue)) :=
  match v with TTable t => Some t | _ => None end.
Definition value_get (k : str) (v : TomlValue) : option TomlValue :=
  match v with TTable t => t_get k t | _ => None end.
Definition is_table (v : TomlValue) : bool := match v with TTable _ => true | _ => false end.
Definition is_bool (v : TomlValue) : bool := match v with TBoolean _ => true | _ => false end.

(** ** Key aliases *)

Record ConfigKeyAlias := mkAlias {
  table_path : list str;
  legacy_key : str;
  canonical_key : str }.

Definition CONFIG_KEY_ALIASES : list ConfigKeyAlias :=
  [ mkAlias [lit "memories"] (lit "no_memories_if_mcp_or_web_search") (lit "disable_on_external_context");
    mkAlias [lit "agents"] (lit "max_threads") (lit "max_concurrent_threads_per_session") ].

Definition normalize_key_alias {A} (path : list str) (table : list (str * A)) (alias : ConfigKeyAlias) :=
  if bool_decide (path = table_path alias) then
    match t_get (legacy_key alias) table with
    | Some value => t_or_insert (canonical_key alias) value (t_remove (legacy_key alias) table)
    | None => table
    end
  else table.

Definition normalize_key_aliases {A} (path : list str) (table : list (str * A)) : list (str * A) :=
  fold_left (normalize_key_alias path) CONFIG_KEY_ALIASES table.

Fixpoint normalized_with_key_aliases (value : TomlValue) (path : list str) : TomlValue :=
  match value with
  | TTable table =>
      TTable (normalize_key_aliases path
        (t_from_iter (map (fun entry => (fst entry,
           normalized_with_key_aliases (snd entry) (path ++ [fst entry]))) table)))
  | TArray items => TArray (map (fun item => normalized_with_key_aliases item path) items)
  | _ => value
  end.

(** ** The shell environment filters *)

Inductive ShellEnvironmentPolicyFilterRepresentation := Filters | Legacy.

Definition from_policy (policy : TomlValue) : option ShellEnvironmentPolicyFilterRepresentation :=
  match as_table policy with
  | None => None
  | Some t =>
      if t_contains_key (lit "filters") t then Some Filters
      else if t_contains_key (lit "exclude") t || t_contains_key (lit "include_only") t then Some Legacy
      else None
  end.

Definition from_path (path : list str) : option ShellEnvironmentPolicyFilterRepresentation :=
  match path with
  | policy :: field :: _ =>
      if str_eqb policy (lit "shell_environment_policy") then
        if str_eqb field (lit "filters") then Some Filters
        else if str_eqb field (lit "exclude") || str_eqb field (lit "include_only") then Some Legacy
        else None
      else None
  | _ => None
  end.

Definition from_edit (path : list str) (value : TomlValue) : option ShellEnvironmentPolicyFilterRepresentation :=
  if bool_decide (path = [lit "shell_environment_policy"]) then from_policy value else from_path path.

Definition displaced_fields (r : ShellEnvironmentPolicyFilterRepresentation) : list str :=
  match r with
  | Filters => [lit "exclude"; lit "include_only"]
  | Legacy => [lit "filters"]
  end.

Definition replace_shell_environment_policy_filter_representation
    (base overlay : TomlValue) (path : list str) : TomlValue :=
  if bool_decide (path = [lit "shell_environment_policy"]) then
    match from_policy overlay, base with
    | Some r, TTable t => TTable (fold_left (fun t field => t_remove field t) (displaced_fields r) t)
    | _, _ => base
    end
  else base.

(** ** Special paths *)

Definition is_structured_feature_path (path : list str) : bool :=
  let structured features feature :=
    str_eqb features (lit "features")
    && (str_eqb feature (lit "multi_agent_v2") || str_eqb feature (lit "network_proxy")
        || str_eqb feature (lit "sleep_tool")) in
  match path with
  | [profiles; _; features; feature] =>
      if str_eqb profiles (lit "profiles") then structured features feature else false
  | [features; feature] => structured features feature
  | _ => false
  end.

Definition is_shell_environment_filters_path (path : list str) : bool :=
  match path with
  | [policy; filters] =>
      str_eqb policy (lit "shell_environment_policy") && str_eqb filters (lit "filters")
  | _ => false
  end.

Definition is_permission_network_domains_path (path : list str) : bool :=
  match path with
  | [permissions; _; network; domains] =>
      str_eqb permissions (lit "permissions") && str_eqb network (lit "network")
      && str_eqb domains (lit "domains")
  | _ => false
  end.

(** [str::to_lowercase]: on ASCII text it is [to_ascii_lowercase]; the case
    tables of Unicode are a parameter. *)
Class UnicodeCase := { unicode_lowercase : str -> str }.

Section merge.
Context {HP : HostParsers} {UC : UnicodeCase}.

Definition to_lowercase (s : str) : str :=
  if forallb (fun c => (c <? 128)%N) s then to_ascii_lowercase s else unicode_lowercase s.

Definition rename_keys {A} (f : str -> str) (table : list (str * A)) : list (str * A) :=
  t_from_iter (map (fun entry => (f (fst entry), snd entry)) table).
Definition normalize_network_domain_keys {A} (table : list (str * A)) := rename_keys policy_normalize_host table.
Definition normalize_case_insensitive_keys {A} (table : list (str * A)) := rename_keys to_lowercase table.

(** The normalisations of both tables before their entries are merged. *)
Definition normalize_table_keys {A} (path : list str) (table : list (str * A)) : list (str * A) :=
  let table := normalize_key_aliases path table in
  let table := if is_permission_network_domains_path path then normalize_network_domain_keys table else table in
  if is_shell_environment_filters_path path then normalize_case_insensitive_keys table else table.

(** ** Merging *)

(** A feature that is a switch in one layer and a table in the other: [inl] is
    an early return, [inr] the base to go on with. *)
Definition merge_structured_feature (base overlay : TomlValue) (path : list str) : TomlValue + TomlValue :=
  if is_structured_feature_path path then
    match base, overlay with
    | TBoolean enabled, TTable _ => inr (TTable (t_from_iter [(lit "enabled", TBoolean enabled)]))
    | TTable table, TBoolean enabled => inl (TTable (t_insert (lit "enabled") (TBoolean enabled) table))
    | _, _ => inr base
    end
  else inr base.

(** The loop over the entries of the overlay, each paired with its merge. *)
Definition merge_entries (path : list str)
    (overlay_table : list (str * (TomlValue * (TomlValue -> list str -> TomlValue))))
    (base_table : list (str * TomlValue)) : list (str * TomlValue) :=
  fold_left (fun base_table '(key, (value, merge)) =>
    match t_get key base_table with
    | Some existing => t_insert key (merge existing (path ++ [key])) base_table
    | None => t_insert key (normalized_with_key_aliases value (path ++ [key])) base_table
    end) overlay_table base_table.

Fixpoint merge_toml_values_at_path (base overlay : TomlValue) (path : list str) {struct overlay} : TomlValue :=
  let base := replace_shell_environment_policy_filter_representation base overlay path in
  match merge_structured_feature base overlay path with
  | inl merged => merged
  | inr base =>
      match overlay, base with
      | TTable overlay_table, TTable base_table =>
          TTable (merge_entries path
            (normalize_table_keys path (map (fun entry =>
               (fst entry, (snd entry, fun existing p => merge_toml_values_at_path existing (snd entry) p)))
               overlay_table))
            (normalize_table_keys path base_table))
      | _, _ => normalized_with_key_aliases overlay path
      end
  end.

Definition merge_toml_values (base overlay : TomlValue) : TomlValue := merge_toml_values_at_path base overlay [].

(** A filter pattern is looked up ignoring case. *)
Definition shell_environment_filter_entry (root : TomlValue) (path : list str) : option (str * TomlValue) :=
  match path with
  | [policy; filters; pattern] =>
      if str_eqb policy (lit "shell_environment_policy") && str_eqb filters (lit "filters") then
        match (value_get policy root ≫= value_get filters) ≫= as_table with
        | Some t => List.find (fun entry => str_eqb (to_lowercase (fst entry)) (to_lowercase pattern)) t
        | None => None
        end
      else None
  | _ => None
  end.

(** A document with one setting. *)
Definition sparse_overlay (path : list str) (value : TomlValue) : TomlValue :=
  fold_left (fun value segment => TTable (t_from_iter [(segment, value)])) (rev path) value.

(** ** Command line overrides *)

Definition default_empty_table : TomlValue := TTable [].

(** The last segment of an override. *)
Definition override_last (current : TomlValue) (traversed : list str) (segment : str) (value : TomlValue) : TomlValue :=
  match current with
  | TTable table =>
      let plain := TTable (t_insert segment value table) in
      if is_structured_feature_path traversed then
        match t_get segment table with
        | Some existing =>
            match existing, value with
            | TTable feature, TBoolean enabled =>
                TTable (t_insert segment (TTable (t_insert (lit "enabled") (TBoolean enabled) feature)) table)
            | TBoolean enabled, TTable _ =>
                TTable (t_insert segment
                  (merge_toml_values (TTable (t_from_iter [(lit "enabled", TBoolean enabled)])) value) table)
            | TTable _, TTable _ => TTable (t_insert segment (merge_toml_values existing value) table)
            | _, _ => plain
            end
        | None => plain
        end
      else plain
  | _ => TTable (t_insert segment value [])
  end.

(** The walk down the segments; [traversed] are the ones before [current]. *)
Fixpoint apply_override (segments traversed : list str) (current value : TomlValue) : TomlValue :=
  match segments with
  | [] => current
  | segment :: rest =>
      let traversed := traversed ++ [segment] in
      match rest with
      | [] => override_last current traversed segment value
      | _ :: _ =>
          match current with
          | TTable table =>
              let table := t_or_insert segment (TTable []) table in
              let next := default (TTable []) (t_get segment table) in
              let next :=
                if is_structured_feature_path traversed then
                  match next with
                  | TBoolean enabled => TTable (t_from_iter [(lit "enabled", TBoolean enabled)])
                  | _ => next
                  end
                else next in
              TTable (t_insert segment (apply_override rest traversed next value) table)
          | _ => TTable (t_insert segment (apply_override rest traversed (TTable []) value) [])
          end
      end
  end.

Definition apply_toml_override (root : TomlValue) (path : str) (value : TomlValue) : TomlValue :=
  apply_override (split_on ch_dot path) [] root value.

Definition build_cli_overrides_layer (cli_overrides : list (str * TomlValue)) : TomlValue :=
  fold_left (fun root '(path, value) => apply_toml_override root path value) cli_overrides default_empty_table.

End merge.

(** ** Induction on values *)

Lemma toml_value_ind (P : TomlValue -> Prop) :
  (forall s, P (TString s)) -> (forall n, P (TInteger n)) -> (forall f, P (TFloat f)) ->
  (forall b, P (TBoolean b)) -> (forall d, P (TDatetime d)) ->
  (forall items, (forall v, v ∈ items -> P v) -> P (TArray items)) ->
  (forall t, (forall k v, (k, v) ∈ t -> P v) -> P (TTable t)) ->
  forall v, P v.
Proof.
  intros Hs Hi Hf Hb Hd Ha Ht. fix IH 1. intros [s|n|f|b|d|items|t];
    [apply Hs|apply Hi|apply Hf|apply Hb|apply Hd| |].
  - apply Ha. rewrite <- Forall_forall. induction items as [|w items IHl]; constructor; [apply IH|exact IHl].
  - apply Ht. enough (Forall (fun e => P (snd e)) t) as Hall.
    { intros k v Hv. rewrite Forall_forall in Hall. exact (Hall _ Hv). }
    induction t as [|[k' w] t IHl]; constructor; [apply IH|exact IHl].
Qed.

(** ** Lemmas on tables *)

Definition keys {A} (t : list (str * A)) : list str := map fst t.

(** Apply a function of key and value to every value. *)
Definition kv_map {A B} (g : str -> A -> B) (t : list (str * A)) : list (str * B) :=
  map (fun entry => (fst entry, g (fst entry) (snd entry))) t.

Ltac key_cases :=
  repeat (match goal with
  | |- context [str_eqb ?a ?b] => unfold str_eqb; case_bool_decide
  | H : context [str_eqb ?a ?b] |- _ => unfold str_eqb in H; case_bool_decide
  end; subst; simpl in *; try done).

Section table_lemmas.
Context {A : Type}.
Implicit Types (t : list (str * A)) (k : str).

Lemma t_get_in k v t : t_get k t = Some v -> (k, v) ∈ t.
Proof.
  induction t as [|[k' w] t IH]; simpl; [done|]. key_cases.
  - intros [= ->]. by left.
  - intros H'. right. by apply IH.
Qed.

Lemma keys_in k v t : (k, v) ∈ t -> k ∈ keys t.
Proof. intros Hin. apply list_elem_of_In, in_map_iff. exists (k, v). split; [done|by apply list_elem_of_In]. Qed.

Lemma t_get_none k t : t_get k t = None <-> k ∉ keys t.
Proof.
  induction t as [|[k' w] t IH]; simpl; [split; [intros _; apply not_elem_of_nil|done]|]. key_cases.
  - split; [done|]. intros []. by left.
  - rewrite IH, not_elem_of_cons. tauto.
Qed.

Lemma t_in_get k v t : NoDup (keys t) -> (k, v) ∈ t -> t_get k t = Some v.
Proof.
  induction t as [|[k' w] t IH]; simpl; [by intros _ ?%elem_of_nil|].
  intros [Hk Hn]%NoDup_cons [[= -> ->]|Hv]%elem_of_cons; key_cases; [|by apply IH].
  destruct Hk. by apply (keys_in k' v).
Qed.

Lemma t_get_insert_eq k v t : t_get k (t_insert k v t) = Some v.
Proof. induction t as [|[k' w] t IH]; simpl; key_cases. all: by key_cases. Qed.

Lemma t_get_insert_ne k k' v t : k <> k' -> t_get k (t_insert k' v t) = t_get k t.
Proof.
  intros Hne. induction t as [|[k1 w] t IH]; simpl.
  - by key_cases.
  - unfold str_eqb. repeat (case_bool_decide; simpl; subst; try done). all: unfold str_eqb; repeat (case_bool_decide; try done).
Qed.

Lemma t_get_insert k k' v t : t_get k (t_insert k' v t) = if str_eqb k k' then Some v else t_get k t.
Proof. unfold str_eqb. case_bool_decide as E; [subst; apply t_get_insert_eq|by apply t_get_insert_ne]. Qed.

Lemma t_get_remove k k' t : NoDup (keys t) ->
  t_get k (t_remove k' t) = if str_eqb k k' then None else t_get k t.
Proof.
  induction t as [|[k1 w] t IH]; simpl; [by key_cases|].
  intros [Hk Hn]%NoDup_cons. specialize (IH Hn).
  destruct (decide (k' = k1)) as [->|Hne].
  - replace (str_eqb k1 k1) with true by (unfold str_eqb; by case_bool_decide).
    unfold str_eqb. case_bool_decide; [subst|done]. by apply t_get_none.
  - replace (str_eqb k' k1) with false by (unfold str_eqb; by case_bool_decide). simpl. rewrite IH.
    unfold str_eqb. repeat (case_bool_decide; subst; try done).
Qed.

Lemma keys_insert_in k v t x : x ∈ keys (t_insert k v t) <-> x = k \/ x ∈ keys t.
Proof.
  induction t as [|[k' w] t IH]; simpl; [rewrite list_elem_of_singleton; set_solver|].
  unfold str_eqb. case_bool_decide; subst; simpl; rewrite !elem_of_cons; [|rewrite IH]; tauto.
Qed.

Lemma keys_insert_nodup k v t : NoDup (keys t) -> NoDup (keys (t_insert k v t)).
Proof.
  induction t as [|[k' w] t IH]; simpl; [intros _; apply NoDup_singleton|].
  intros [Hk Hn]%NoDup_cons. unfold str_eqb. case_bool_decide; subst; simpl; constructor; auto.
  rewrite keys_insert_in. by intros [->|].
Qed.

Lemma keys_remove_sub k t x : x ∈ keys (t_remove k t) -> x ∈ keys t.
Proof.
  induction t as [|[k' w] t IH]; simpl; [done|].
  unfold str_eqb. case_bool_decide; subst; simpl; rewrite !elem_of_cons; tauto.
Qed.

Lemma keys_remove_nodup k t : NoDup (keys t) -> NoDup (keys (t_remove k t)).
Proof.
  induction t as [|[k' w] t IH]; simpl; [done|]. intros [Hk Hn]%NoDup_cons.
  unfold str_eqb. case_bool_decide; subst; simpl; [done|]. constructor; auto.
  by intros ?%keys_remove_sub.
Qed.

Lemma t_insert_in k v t x w : (x, w) ∈ t_insert k v t -> (x = k /\ w = v) \/ (x, w) ∈ t.
Proof.
  induction t as [|[k' w'] t IH]; simpl; [intros [= -> ->]%list_elem_of_singleton; auto|].
  unfold str_eqb. case_bool_decide; subst; rewrite !elem_of_cons; intros [[= -> ->]|H']; auto.
  destruct (IH H'); auto.
Qed.

Lemma t_remove_in k t e : e ∈ t_remove k t -> e ∈ t.
Proof.
  induction t as [|[k' w'] t IH]; simpl; [done|].
  unfold str_eqb. case_bool_decide; subst; rewrite !elem_of_cons; intuition.
Qed.

Lemma t_insert_fresh k v t : k ∉ keys t -> t_insert k v t = t ++ [(k, v)].
Proof.
  induction t as [|[k' w] t IH]; simpl; [done|]. rewrite not_elem_of_cons. intros [Hne Hk].
  unfold str_eqb. case_bool_decide; [done|]. by rewrite IH.
Qed.

Lemma t_insert_insert k v w t : t_insert k v (t_insert k w t) = t_insert k v t.
Proof.
  induction t as [|[k' u] t IH]; simpl; [by rewrite str_eqb_refl|].
  destruct (str_eqb k k') eqn:E; simpl; rewrite E; [done|]. by rewrite IH.
Qed.

Lemma t_from_iter_app acc entries : NoDup (keys (acc ++ entries)) ->
  fold_left (fun t '(k, v) => t_insert k v t) entries acc = acc ++ entries.
Proof.
  revert acc. induction entries as [|[k v] entries IH]; intros acc Hn; simpl; [by rewrite app_nil_r|].
  rewrite t_insert_fresh.
  - rewrite IH; [by rewrite <- app_assoc|]. by rewrite <- app_assoc.
  - unfold keys in Hn. rewrite map_app in Hn. apply NoDup_app in Hn as (_ & Hd & _).
    intros Hin. apply (Hd _ Hin). simpl. by left.
Qed.

Lemma t_from_iter_id t : NoDup (keys t) -> t_from_iter t = t.
Proof. apply (t_from_iter_app []). Qed.

End table_lemmas.

Lemma keys_kv_map {A B} (g : str -> A -> B) t : keys (kv_map g t) = keys t.
Proof. unfold keys, kv_map. by rewrite map_map. Qed.

Lemma t_get_kv_map {A B} (g : str -> A -> B) k t : t_get k (kv_map g t) = g k <$> t_get k t.
Proof.
  induction t as [|[k' w] t IH]; simpl; [done|]. unfold str_eqb. case_bool_decide; subst; [done|]. apply IH.
Qed.

(** *** Renaming commutes with a map over the values *)

Section natural.
Context {A B : Type} (f : A -> B).
Notation vmap := (kv_map (fun _ => f)).

Lemma t_insert_map k v t : t_insert k (f v) (vmap t) = vmap (t_insert k v t).
Proof.
  induction t as [|[k' w] t IH]; simpl; [done|]. unfold str_eqb. case_bool_decide; subst; simpl; [done|]. by rewrite <- IH.
Qed.

Lemma t_remove_map k t : t_remove k (vmap t) = vmap (t_remove k t).
Proof.
  induction t as [|[k' w] t IH]; simpl; [done|]. unfold str_eqb. case_bool_decide; subst; simpl; [done|]. by rewrite <- IH.
Qed.

Lemma t_or_insert_map k v t : t_or_insert k (f v) (vmap t) = vmap (t_or_insert k v t).
Proof. unfold t_or_insert. rewrite t_get_kv_map. destruct (t_get k t); simpl; [done|]. apply t_insert_map. Qed.

Lemma normalize_key_aliases_map path t :
  normalize_key_aliases path (vmap t) = vmap (normalize_key_aliases path t).
Proof.
  unfold normalize_key_aliases. revert t. induction CONFIG_KEY_ALIASES as [|alias l IH]; intros t; simpl; [done|].
  rewrite <- IH. f_equal. unfold normalize_key_alias. case_bool_decide; [|done].
  rewrite t_get_kv_map. destruct (t_get (legacy_key alias) t); simpl; [|done].
  by rewrite t_remove_map, t_or_insert_map.
Qed.

Lemma t_from_iter_map t : t_from_iter (vmap t) = vmap (t_from_iter t).
Proof.
  unfold t_from_iter. change (@nil (str * B)) with (vmap []). generalize (@nil (str * A)).
  induction t as [|[k v] t IH]; intros acc; simpl; [done|]. rewrite <- IH. by rewrite t_insert_map.
Qed.

Lemma rename_keys_map g t : rename_keys g (vmap t) = vmap (rename_keys g t).
Proof.
  unfold rename_keys. rewrite <- t_from_iter_map. f_equal. unfold kv_map. by rewrite !map_map.
Qed.

Lemma normalize_table_keys_map {HP : HostParsers} {UC : UnicodeCase} path t :
  normalize_table_keys path (vmap t) = vmap (normalize_table_keys path t).
Proof.
  unfold normalize_table_keys, normalize_network_domain_keys, normalize_case_insensitive_keys.
  rewrite normalize_key_aliases_map. repeat case_match; by rewrite ?rename_keys_map.
Qed.

End natural.

(** ** What a document says

    [setting_at path v p]: the setting that the value [v], found at [path],
    gives to the relative path [p].  Tables have no value of their own; arrays
    are one setting; a switch of a structured feature is its field [enabled]. *)

Fixpoint setting_at (path : list str) (v : TomlValue) (p : list str) {struct p} : option TomlValue :=
  match v with
  | TTable t =>
      match p with
      | [] => None
      | k :: p' => match t_get k t with Some c => setting_at (path ++ [k]) c p' | None => None end
      end
  | TBoolean _ =>
      if bool_decide (p = if is_structured_feature_path path then [lit "enabled"] else []) then Some v else None
  | _ => if is_nil p then Some v else None
  end.

(** The field [k] of the shell environment policy belongs to the form of
    filters that [v] does not use. *)
Definition displaces (path : list str) (v : TomlValue) (k : str) : bool :=
  bool_decide (path = [lit "shell_environment_policy"])
  && match from_policy v with Some r => existsb (str_eqb k) (displaced_fields r) | None => false end.

(** Does a layer [v] replace what the layers below it say about [p]? *)
Fixpoint overrides (path : list str) (v : TomlValue) (p : list str) {struct p} : bool :=
  match v with
  | TTable t =>
      match p with
      | [] => true
      | k :: p' =>
          displaces path v k
          || match t_get k t with Some c => overrides (path ++ [k]) c p' | None => false end
      end
  | TBoolean _ =>
      if is_structured_feature_path path then
        match p with [] => true | k :: _ => str_eqb k (lit "enabled") end
      else true
  | _ => true
  end.

(** The meaning of a merge: the upper layer's setting, else the lower one's
    unless the upper layer replaces it. *)
Definition merge_setting (path : list str) (lower upper : TomlValue) (p : list str) : option TomlValue :=
  match setting_at path upper p with
  | Some v => Some v
  | None => if overrides path upper p then None else setting_at path lower p
  end.

(** *** Well-formed documents *)

Definition alias_for (path : list str) : option ConfigKeyAlias :=
  List.find (fun alias => bool_decide (path = table_path alias)) CONFIG_KEY_ALIASES.

Definition is_legacy_key (path : list str) (k : str) : bool :=
  match alias_for path with Some alias => str_eqb k (legacy_key alias) | None => false end.

Section documents.
Context {HP : HostParsers} {UC : UnicodeCase}.

Definition key_ok (canonical : bool) (path : list str) (k : str) : bool :=
  negb (canonical && is_legacy_key path k)
  && (negb (is_permission_network_domains_path path) || str_eqb (policy_normalize_host k) k)
  && (negb (is_shell_environment_filters_path path) || str_eqb (to_lowercase k) k).

(** Tables have distinct keys, domains and filters are spelled in their
    normal form and, in a [canonical] document, no legacy key is left. *)
Fixpoint toml_ok (canonical : bool) (path : list str) (v : TomlValue) : bool :=
  match v with
  | TTable t =>
      bool_decide (NoDup (keys t))
      && forallb (fun e => key_ok canonical path (fst e) && toml_ok canonical (path ++ [fst e]) (snd e)) t
  | TArray items => forallb (toml_ok canonical path) items
  | _ => true
  end.

Lemma toml_ok_table c path t : toml_ok c path (TTable t) = true <->
  NoDup (keys t) /\ forall k v, (k, v) ∈ t -> key_ok c path k = true /\ toml_ok c (path ++ [k]) v = true.
Proof.
  simpl. rewrite andb_true_iff, bool_decide_eq_true, forallb_forall. split; intros [Hn H]; (split; [done|]).
  - intros k v Hin. specialize (H (k, v)). rewrite <- list_elem_of_In in H. apply andb_true_iff. auto.
  - intros [k v] Hin%list_elem_of_In. apply andb_true_iff, (H k v Hin).
Qed.

Lemma toml_ok_array c path items : toml_ok c path (TArray items) = true <-> forall v, v ∈ items -> toml_ok c path v = true.
Proof. simpl. rewrite forallb_forall. setoid_rewrite list_elem_of_In. done. Qed.

(** *** The alias of a table *)

Lemma normalize_key_aliases_for {A} path (t : list (str * A)) :
  normalize_key_aliases path t =
  match alias_for path with Some alias => normalize_key_alias path t alias | None => t end.
Proof.
  unfold normalize_key_aliases, alias_for, CONFIG_KEY_ALIASES. simpl.
  unfold normalize_key_alias. simpl. repeat case_bool_decide; try done.
  all: exfalso; subst; done.
Qed.

Lemma alias_for_some path alias : alias_for path = Some alias ->
  path = table_path alias /\ alias ∈ CONFIG_KEY_ALIASES.
Proof.
  unfold alias_for. intros H. apply find_some in H as [Hin H%bool_decide_eq_true].
  split; [done|by apply list_elem_of_In].
Qed.

(** What is found in a table once its legacy key is renamed. *)
Definition alias_get {A} (path : list str) (k : str) (t : list (str * A)) : option (str * A) :=
  match alias_for path with
  | Some alias =>
      if str_eqb k (legacy_key alias) then None
      else match t_get k t with
           | Some v => Some (k, v)
           | None =>
               if str_eqb k (canonical_key alias)
               then (fun v => (legacy_key alias, v)) <$> t_get (legacy_key alias) t else None
           end
  | None => (fun v => (k, v)) <$> t_get k t
  end.

Lemma get_aliases {A} path k (t : list (str * A)) : NoDup (keys t) ->
  t_get k (normalize_key_aliases path t) = snd <$> alias_get path k t.
Proof.
  intros Hn. rewrite normalize_key_aliases_for. unfold alias_get.
  destruct (alias_for path) as [alias|] eqn:Ha; [|by destruct (t_get k t)].
  apply alias_for_some in Ha as [-> Hin].
  assert (legacy_key alias <> canonical_key alias) as Hne.
  { apply elem_of_cons in Hin as [->|[->|[]%elem_of_nil]%elem_of_cons]; done. }
  unfold normalize_key_alias. rewrite bool_decide_true by done.
  destruct (t_get (legacy_key alias) t) as [v|] eqn:Hl.
  - unfold t_or_insert. rewrite t_get_remove by done.
    rewrite (proj2 (str_eqb_neq (canonical_key alias) (legacy_key alias))) by done.
    destruct (t_get (canonical_key alias) t) as [w|] eqn:Hc.
    + rewrite t_get_remove by done. unfold str_eqb. repeat (case_bool_decide; subst; try done).
      * by rewrite Hc.
      * by destruct (t_get k t).
    + rewrite t_get_insert, t_get_remove by done. unfold str_eqb. repeat (case_bool_decide; subst; try done).
      * by rewrite Hc.
      * by destruct (t_get k t).
  - destruct (str_eqb k (legacy_key alias)) eqn:E; [by apply str_eqb_eq in E; subst|].
    destruct (t_get k t); [done|]. by destruct (str_eqb k (canonical_key alias)).
Qed.

Lemma keys_aliases_nodup {A} path (t : list (str * A)) : NoDup (keys t) -> NoDup (keys (normalize_key_aliases path t)).
Proof.
  intros Hn. rewrite normalize_key_aliases_for. destruct (alias_for path); [|done].
  unfold normalize_key_alias, t_or_insert. repeat case_match; auto using keys_insert_nodup, keys_remove_nodup.
Qed.

(** Renaming has nothing to do in a table without the legacy key. *)
Lemma aliases_id {A} path (t : list (str * A)) :
  (forall k, k ∈ keys t -> is_legacy_key path k = false) -> normalize_key_aliases path t = t.
Proof.
  intros H. rewrite normalize_key_aliases_for. unfold is_legacy_key in H.
  destruct (alias_for path) as [alias|] eqn:Ha; [|done]. unfold normalize_key_alias. case_bool_decide; [|done].
  destruct (t_get (legacy_key alias) t) eqn:E; [|done]. apply t_get_in, keys_in, H in E. by rewrite str_eqb_refl in E.
Qed.

(** *** Below the tables with aliases nothing is special *)

Definition inert (path : list str) : Prop :=
  2 <= length path /\ exists h, head path = Some h /\ (h = lit "memories" \/ h = lit "agents").

Lemma inert_snoc path k : inert path -> inert (path ++ [k]).
Proof. intros [Hl (h & Hh & Hc)]. split; [rewrite length_app; lia|]. exists h. by destruct path. Qed.

Lemma inert_alias path alias k : alias_for path = Some alias -> inert (path ++ [k]).
Proof.
  intros [-> Hin]%alias_for_some.
  apply elem_of_cons in Hin as [->|[->|[]%elem_of_nil]%elem_of_cons]; split; simpl; eauto.
Qed.

Lemma inert_plain path : inert path ->
  alias_for path = None /\ is_structured_feature_path path = false
  /\ is_shell_environment_filters_path path = false /\ is_permission_network_domains_path path = false
  /\ path <> [lit "shell_environment_policy"].
Proof.
  intros [Hl (h & Hh & Hc)]. destruct path as [|h' [|k path]]; simpl in Hl; [lia|lia|]. simplify_eq/=.
  repeat split; [..|by intros [=]].
  - unfold alias_for. simpl. by rewrite !bool_decide_false.
  - destruct path as [|? [|? [|? ?]]]; simpl; [|done|..|done]; by destruct Hc as [-> | ->].
  - destruct path; simpl; [|done]. by destruct Hc as [-> | ->].
  - destruct path as [|? [|? [|? ?]]]; simpl; [done..| |done]. by destruct Hc as [-> | ->].
Qed.

Lemma setting_at_inert p path path' v : inert path -> inert path' -> setting_at path v p = setting_at path' v p.
Proof.
  revert path path' v. induction p as [|k p IH]; intros path path' v H H'.
  all: pose proof (inert_plain _ H) as (_ & E & _); pose proof (inert_plain _ H') as (_ & E' & _).
  all: destruct v as [| | | | | |t]; simpl; rewrite ?E, ?E'; try done.
  destruct (t_get k t); [|done]. apply IH; by apply inert_snoc.
Qed.

Lemma overrides_inert p path path' v : inert path -> inert path' -> overrides path v p = overrides path' v p.
Proof.
  revert path path' v. induction p as [|k p IH]; intros path path' v H H'.
  all: pose proof (inert_plain _ H) as (_ & E & _ & _ & Hs); pose proof (inert_plain _ H') as (_ & E' & _ & _ & Hs').
  all: destruct v as [| | | | | |t]; simpl; rewrite ?E, ?E'; try done.
  unfold displaces. rewrite !(bool_decide_false (_ = [_])) by done. simpl.
  destruct (t_get k t); [|done]. apply IH; by apply inert_snoc.
Qed.

Lemma key_ok_inert c path k : inert path -> key_ok c path k = true.
Proof.
  intros (E1 & _ & E2 & E3 & _)%inert_plain. unfold key_ok, is_legacy_key. rewrite E1, E2, E3. by destruct c.
Qed.

Lemma toml_ok_inert c path path' v : inert path -> inert path' -> toml_ok c path v = true -> toml_ok c path' v = true.
Proof.
  revert path path'. induction v as [s|n|f|b|d|items IH|t IH] using toml_value_ind; intros path path' H H'; try done.
  - rewrite !toml_ok_array. intros Hok v Hv. eauto.
  - rewrite !toml_ok_table. intros [Hn Hok]. split; [done|]. intros k v Hin. split; [by apply key_ok_inert|].
    eapply IH; [done|apply (inert_snoc path k H)|by apply inert_snoc|]. by apply Hok.
Qed.

Lemma normalized_inert path v : inert path -> toml_ok false path v = true -> normalized_with_key_aliases v path = v.
Proof.
  revert path. induction v as [s|n|f|b|d|items IH|t IH] using toml_value_ind; intros path H; try done.
  - rewrite toml_ok_array. intros Hok. simpl. f_equal. rewrite <- (map_id items) at 2. apply map_ext_in.
    intros v Hv%list_elem_of_In. auto.
  - rewrite toml_ok_table. intros [Hn Hok]. simpl. f_equal.
    assert (map (fun e => (fst e, normalized_with_key_aliases (snd e) (path ++ [fst e]))) t = t) as ->.
    { rewrite <- (map_id t) at 2. apply map_ext_in. intros [k v] Hv%list_elem_of_In. simpl. f_equal.
      eapply IH; [done|by apply inert_snoc|]. by apply Hok. }
    rewrite t_from_iter_id by done. rewrite normalize_key_aliases_for.
    apply inert_plain in H as [-> _]. done.
Qed.

(** *** Normalised documents *)

Lemma normalized_table path t : NoDup (keys t) ->
  normalized_with_key_aliases (TTable t) path =
  TTable (normalize_key_aliases path (kv_map (fun k v => normalized_with_key_aliases v (path ++ [k])) t)).
Proof.
  intros Hn. simpl. f_equal. f_equal. apply t_from_iter_id.
  by rewrite (keys_kv_map (fun k v => normalized_with_key_aliases v (path ++ [k]))).
Qed.

Lemma alias_get_in {A} path k k' (v : A) t : alias_get path k t = Some (k', v) -> (k', v) ∈ t.
Proof.
  unfold alias_get. destruct (alias_for path) as [alias|].
  - destruct (str_eqb k (legacy_key alias)); [done|]. destruct (t_get k t) eqn:E.
    + intros [= <- <-]. by apply t_get_in.
    + destruct (str_eqb k (canonical_key alias)); [|done].
      destruct (t_get (legacy_key alias) t) eqn:E'; simpl; [|done]. intros [= <- <-]. by apply t_get_in.
  - destruct (t_get k t) eqn:E; simpl; [|done]. intros [= <- <-]. by apply t_get_in.
Qed.

(** The renamed key lies below an alias table. *)
Lemma alias_get_moved {A} path k k' (v : A) t : alias_get path k t = Some (k', v) ->
  k' = k \/ inert (path ++ [k]) /\ inert (path ++ [k']).
Proof.
  unfold alias_get. destruct (alias_for path) as [alias|] eqn:Ha.
  - intros _. right. eauto using inert_alias.
  - destruct (t_get k t); simpl; [|done]. intros [= <- <-]. by left.
Qed.

Lemma normalized_get path t k : toml_ok false path (TTable t) = true ->
  value_get k (normalized_with_key_aliases (TTable t) path) =
  (fun e => normalized_with_key_aliases (snd e) (path ++ [k])) <$> alias_get path k t.
Proof.
  intros Hok. pose proof Hok as [Hn Hc]%toml_ok_table. rewrite normalized_table by done. simpl.
  rewrite get_aliases by (by rewrite keys_kv_map). unfold alias_get.
  destruct (alias_for path) as [alias|] eqn:Ha; rewrite !t_get_kv_map.
  - destruct (str_eqb k (legacy_key alias)); [done|]. destruct (t_get k t) eqn:E; simpl; [done|].
    destruct (str_eqb k (canonical_key alias)); [|done].
    destruct (t_get (legacy_key alias) t) as [v|] eqn:E'; simpl; [|done]. f_equal.
    pose proof (inert_alias path alias (legacy_key alias) Ha). pose proof (inert_alias path alias k Ha).
    apply t_get_in, Hc in E' as [_ E']. rewrite normalized_inert by done.
    symmetry. apply normalized_inert; [done|]. eauto using toml_ok_inert.
  - by destruct (t_get k t).
Qed.

(** ** The merge, read back from its definition *)

Definition merge_tables (path : list str) (overlay_table base_table : list (str * TomlValue)) : list (str * TomlValue) :=
  fold_left (fun base_table '(key, value) =>
    t_insert key
      (match t_get key base_table with
       | Some existing => merge_toml_values_at_path existing value (path ++ [key])
       | None => normalized_with_key_aliases value (path ++ [key])
       end) base_table) overlay_table base_table.

Lemma merge_entries_tables path ot bt :
  merge_entries path (kv_map (fun _ v => (v, fun existing p => merge_toml_values_at_path existing v p)) ot) bt
  = merge_tables path ot bt.
Proof.
  unfold merge_entries, merge_tables. revert bt. induction ot as [|[k v] ot IH]; intros bt; simpl; [done|].
  rewrite IH. f_equal. by destruct (t_get k bt).
Qed.

Lemma merge_unfold base overlay path :
  merge_toml_values_at_path base overlay path =
  match merge_structured_feature (replace_shell_environment_policy_filter_representation base overlay path)
          overlay path with
  | inl merged => merged
  | inr base =>
      match overlay, base with
      | TTable ot, TTable bt => TTable (merge_tables path (normalize_table_keys path ot) (normalize_table_keys path bt))
      | _, _ => normalized_with_key_aliases overlay path
      end
  end.
Proof.
  destruct overlay as [| | | | | |ot]; try done. cbn -[merge_structured_feature normalized_with_key_aliases].
  destruct merge_structured_feature as [|b]; [done|]. destruct b as [| | | | | |bt]; try done.
  f_equal. rewrite <- merge_entries_tables. f_equal. apply (normalize_table_keys_map (fun v =>
    (v, fun existing p => merge_toml_values_at_path existing v p))).
Qed.

Lemma merge_tables_get path ot bt k : NoDup (keys ot) ->
  t_get k (merge_tables path ot bt) =
  match t_get k ot with
  | Some v =>
      Some match t_get k bt with
           | Some e => merge_toml_values_at_path e v (path ++ [k])
           | None => normalized_with_key_aliases v (path ++ [k])
           end
  | None => t_get k bt
  end.
Proof.
  revert bt. induction ot as [|[k1 v1] ot IH]; intros bt Hn; simpl; [done|].
  unfold keys in Hn. simpl in Hn. apply NoDup_cons in Hn as [Hk Hn].
  change (merge_tables path ((k1, v1) :: ot) bt) with
    (merge_tables path ot (t_insert k1 (match t_get k1 bt with
       | Some existing => merge_toml_values_at_path existing v1 (path ++ [k1])
       | None => normalized_with_key_aliases v1 (path ++ [k1]) end) bt)).
  rewrite IH by done. rewrite t_get_insert. destruct (str_eqb k k1) eqn:E; [|done].
  apply str_eqb_eq in E as ->. apply t_get_none in Hk. by rewrite Hk.
Qed.

(** ** Tables before they are merged *)

Lemma rename_keys_id {A} f (t : list (str * A)) : NoDup (keys t) -> (forall k, k ∈ keys t -> f k = k) -> rename_keys f t = t.
Proof.
  intros Hn H. unfold rename_keys.
  assert (map (fun e => (f (fst e), snd e)) t = t) as ->; [|by apply t_from_iter_id].
  rewrite <- (map_id t) at 2. apply map_ext_in. intros [k v] Hv%list_elem_of_In. simpl. f_equal.
  apply H. by eapply keys_in.
Qed.

Lemma special_path_alias path :
  is_permission_network_domains_path path = true \/ is_shell_environment_filters_path path = true -> alias_for path = None.
Proof.
  intros H. unfold alias_for. simpl.
  rewrite !bool_decide_false; [done|..]; intros ->; by destruct H.
Qed.

(** Only legacy keys are touched in a well-formed table. *)
Lemma table_keys_aliases c path t : toml_ok c path (TTable t) = true ->
  normalize_table_keys path t = normalize_key_aliases path t.
Proof.
  intros [Hn Hok]%toml_ok_table. unfold normalize_table_keys, normalize_network_domain_keys, normalize_case_insensitive_keys.
  assert (forall k, k ∈ keys t -> key_ok c path k = true) as Hk.
  { intros k Hin. apply list_elem_of_In, in_map_iff in Hin as ([k' v] & <- & Hin%list_elem_of_In). by eapply Hok. }
  unfold key_ok in Hk.
  destruct (is_permission_network_domains_path path) eqn:E1; destruct (is_shell_environment_filters_path path) eqn:E2; [| | |done].
  all: rewrite normalize_key_aliases_for, special_path_alias by auto.
  - by destruct path as [|? [|? [|? [|? [|? ?]]]]].
  - apply rename_keys_id; [done|]. intros k Hin. specialize (Hk k Hin).
    apply andb_true_iff in Hk as [[_ H%str_eqb_eq]%andb_true_iff _]. done.
  - apply rename_keys_id; [done|]. intros k Hin. specialize (Hk k Hin).
    apply andb_true_iff in Hk as [_ H%str_eqb_eq]. done.
Qed.

Lemma table_keys_canonical path t : toml_ok true path (TTable t) = true -> normalize_table_keys path t = t.
Proof.
  intros H. rewrite (table_keys_aliases true) by done. apply aliases_id. apply toml_ok_table in H as [_ Hok].
  intros k Hin. apply list_elem_of_In, in_map_iff in Hin as ([k' v] & <- & Hin%list_elem_of_In).
  apply Hok in Hin as [Hk _]. unfold key_ok in Hk. simpl in *. by destruct (is_legacy_key path k').
Qed.

(** The displaced fields are gone from the base. *)
Definition remove_displaced (path : list str) (overlay : TomlValue) (t : list (str * TomlValue)) : list (str * TomlValue) :=
  if bool_decide (path = [lit "shell_environment_policy"]) then
    match from_policy overlay with
    | Some r => fold_left (fun t field => t_remove field t) (displaced_fields r) t
    | None => t
    end
  else t.

Lemma replace_representation_table t overlay path :
  replace_shell_environment_policy_filter_representation (TTable t) overlay path = TTable (remove_displaced path overlay t).
Proof.
  unfold replace_shell_environment_policy_filter_representation, remove_displaced.
  case_bool_decide; [|done]. by destruct (from_policy overlay).
Qed.

Lemma replace_representation_other base overlay path : is_table base = false ->
  replace_shell_environment_policy_filter_representation base overlay path = base.
Proof.
  unfold replace_shell_environment_policy_filter_representation. case_bool_decide; [|done].
  destruct (from_policy overlay), base; done.
Qed.

Lemma fold_remove_get {A} fields (t : list (str * A)) k : NoDup (keys t) ->
  t_get k (fold_left (fun t field => t_remove field t) fields t) =
  if existsb (str_eqb k) fields then None else t_get k t.
Proof.
  revert t. induction fields as [|f fields IH]; intros t Hn; simpl; [done|].
  rewrite IH by (by apply keys_remove_nodup). rewrite t_get_remove by done.
  destruct (str_eqb k f); simpl; [by destruct existsb|done].
Qed.

Lemma remove_displaced_get path overlay t k : NoDup (keys t) ->
  t_get k (remove_displaced path overlay t) = if displaces path overlay k then None else t_get k t.
Proof.
  intros Hn. unfold remove_displaced, displaces. case_bool_decide; [|done]. simpl.
  destruct (from_policy overlay); [|done]. by apply fold_remove_get.
Qed.

Lemma fold_remove_ok c path fields t : toml_ok c path (TTable t) = true ->
  toml_ok c path (TTable (fold_left (fun t field => t_remove field t) fields t)) = true.
Proof.
  revert t. induction fields as [|f fields IH]; intros t Hok; simpl; [done|]. apply IH.
  apply toml_ok_table in Hok as [Hn Hok]. apply toml_ok_table. split; [by apply keys_remove_nodup|].
  intros k v Hin%t_remove_in. by apply Hok.
Qed.

Lemma remove_displaced_ok c path overlay t : toml_ok c path (TTable t) = true ->
  toml_ok c path (TTable (remove_displaced path overlay t)) = true.
Proof.
  intros Hok. unfold remove_displaced. case_bool_decide; [|done]. destruct (from_policy overlay); [|done].
  by apply fold_remove_ok.
Qed.

Lemma from_policy_ext v w : is_table v = true -> is_table w = true ->
  (forall k, is_Some (value_get k v) <-> is_Some (value_get k w)) -> from_policy v = from_policy w.
Proof.
  destruct v as [| | | | | |t], w as [| | | | | |t']; try done. intros _ _ H. unfold from_policy. simpl.
  assert (forall k, t_contains_key k t = t_contains_key k t') as E.
  { intros k. specialize (H k). unfold t_contains_key. simpl in H.
    destruct (t_get k t), (t_get k t'); try done; destruct H as [H1 H2];
      [by destruct H1|by destruct H2]. }
  by rewrite !E.
Qed.

Lemma displaces_normalized path t k : toml_ok false path (TTable t) = true ->
  displaces path (normalized_with_key_aliases (TTable t) path) k = displaces path (TTable t) k.
Proof.
  intros Hok. unfold displaces. case_bool_decide as E; [|done]. rewrite !andb_true_l.
  rewrite (from_policy_ext (normalized_with_key_aliases (TTable t) path) (TTable t)); [done..|].
  intros k'. rewrite normalized_get by done. subst. unfold alias_get.
  change (alias_for [lit "shell_environment_policy"]) with (@None ConfigKeyAlias).
  simpl. by destruct (t_get k' t).
Qed.

(** ** The meaning of a merge *)

Lemma setting_at_get path v k p : is_table v = true ->
  setting_at path v (k :: p) = match value_get k v with Some c => setting_at (path ++ [k]) c p | None => None end.
Proof. by destruct v. Qed.

Lemma overrides_get path v k p : is_table v = true ->
  overrides path v (k :: p) =
  displaces path v k || match value_get k v with Some c => overrides (path ++ [k]) c p | None => false end.
Proof. by destruct v. Qed.

Lemma setting_at_table_nil path v : is_table v = true -> setting_at path v [] = None.
Proof. by destruct v. Qed.

Lemma overrides_nil path v : overrides path v [] = true.
Proof. destruct v; try done. simpl. by destruct is_structured_feature_path. Qed.

Lemma merge_tables_setting path ot bt p :
  (forall k v, (k, v) ∈ ot -> forall b q r, toml_ok false q v = true -> toml_ok true q b = true ->
     setting_at q (merge_toml_values_at_path b v q) r = merge_setting q b (normalized_with_key_aliases v q) r) ->
  toml_ok false path (TTable ot) = true -> toml_ok true path (TTable bt) = true ->
  setting_at path (TTable (merge_tables path (normalize_table_keys path ot)
    (normalize_table_keys path (remove_displaced path (TTable ot) bt)))) p
  = merge_setting path (TTable bt) (normalized_with_key_aliases (TTable ot) path) p.
Proof.
  intros IH Ho Hb. rewrite (table_keys_aliases false path ot) by done.
  rewrite (table_keys_canonical path (remove_displaced _ _ _)) by (by apply remove_displaced_ok).
  pose proof Ho as [Hno Hvo]%toml_ok_table. pose proof Hb as [Hnb Hvb]%toml_ok_table.
  unfold merge_setting. destruct p as [|k p].
  { rewrite setting_at_table_nil by done. by rewrite overrides_nil. }
  rewrite !setting_at_get, overrides_get by done. rewrite normalized_get, displaces_normalized by done.
  cbn [value_get]. rewrite merge_tables_get by (by apply keys_aliases_nodup).
  rewrite get_aliases, remove_displaced_get by done.
  destruct (alias_get path k ot) as [[k' v]|] eqn:Ea; cbn [fmap option_fmap option_map snd].
  - assert (toml_ok false (path ++ [k]) v = true) as Hv.
    { pose proof (alias_get_in _ _ _ _ _ Ea) as [_ Hv]%Hvo.
      destruct (alias_get_moved _ _ _ _ _ Ea) as [->|[H1 H2]]; [done|by eapply toml_ok_inert]. }
    apply alias_get_in in Ea. destruct (displaces path (TTable ot) k); simpl.
    + by destruct setting_at.
    + destruct (t_get k bt) as [e|] eqn:Ee.
      * rewrite (IH k' v) by (try done; apply t_get_in, Hvb in Ee; tauto). done.
      * destruct setting_at; [done|]. by destruct overrides.
  - destruct (displaces path (TTable ot) k); simpl; [done|]. by destruct (t_get k bt).
Qed.

(** A switch and the table that holds it say the same. *)
Lemma feature_switch_setting path b p : is_structured_feature_path path = true ->
  setting_at path (TTable (t_from_iter [(lit "enabled", TBoolean b)])) p = setting_at path (TBoolean b) p.
Proof.
  intros H. assert (is_structured_feature_path (path ++ [lit "enabled"]) = false) as Hne.
  { destruct path as [|? [|? [|? [|? [|? ?]]]]]; try done. }
  destruct p as [|k p]; simpl; rewrite H; [done|].
  destruct (str_eqb k (lit "enabled")) eqn:E.
  - apply str_eqb_eq in E as ->. destruct p; simpl; rewrite Hne; [done|]. by rewrite bool_decide_false.
  - apply str_eqb_neq in E. rewrite bool_decide_false; [done|]. by intros [=].
Qed.

Lemma structured_path_ok path : is_structured_feature_path path = true ->
  alias_for path = None /\ is_permission_network_domains_path path = false
  /\ is_shell_environment_filters_path path = false /\ path <> [lit "shell_environment_policy"].
Proof.
  destruct path as [|a [|a' [|b [|b' [|? ?]]]]]; try done; simpl.
  - intros [->%str_eqb_eq _]%andb_true_iff. by repeat split.
  - destruct (str_eqb a (lit "profiles")) eqn:E; [|done]. apply str_eqb_eq in E as ->. by repeat split.
Qed.

Lemma feature_switch_ok c path b : is_structured_feature_path path = true ->
  toml_ok c path (TTable (t_from_iter [(lit "enabled", TBoolean b)])) = true.
Proof.
  intros (H1 & H2 & H3 & _)%structured_path_ok. simpl. unfold key_ok, is_legacy_key. rewrite H1, H2, H3.
  by destruct c.
Qed.

(** A setting found in a value that is not a table. *)
Lemma setting_at_leaf path v k p : is_table v = false -> is_bool v && is_structured_feature_path path = false ->
  setting_at path v (k :: p) = None.
Proof. destruct v; try done. simpl. intros _ ->. done. Qed.

Lemma normalized_leaf v path : is_table v = false -> is_table (normalized_with_key_aliases v path) = false.
Proof. by destruct v. Qed.

(** An overlay that is not a table replaces everything, but for the other
    fields of a structured feature. *)
Lemma leaf_merge_setting path b w p : is_table w = false -> is_bool w && is_structured_feature_path path = false ->
  setting_at path w p = merge_setting path b w p.
Proof.
  intros Hw Hs. unfold merge_setting. destruct (setting_at path w p); [done|].
  destruct w as [| | |e| | |]; try (by destruct p); try done. simpl in Hs. destruct p; simpl; by rewrite Hs.
Qed.

Lemma structured_enabled path : is_structured_feature_path path = true ->
  is_structured_feature_path (path ++ [lit "enabled"]) = false.
Proof. by destruct path as [|? [|? [|? [|? [|? ?]]]]]. Qed.

Lemma switch_merge_setting path b e p : is_structured_feature_path path = true ->
  setting_at path (match b with TTable t => TTable (t_insert (lit "enabled") (TBoolean e) t) | _ => TBoolean e end) p
  = merge_setting path b (TBoolean e) p.
Proof.
  intros Hs. pose proof (structured_enabled path Hs) as Hne. unfold merge_setting.
  destruct p as [|k p]; [by destruct b; simpl; rewrite Hs|].
  destruct (str_eqb k (lit "enabled")) eqn:E.
  - assert (overrides path (TBoolean e) (k :: p) = true) as -> by (simpl; by rewrite Hs).
    apply str_eqb_eq in E as ->. destruct b as [| | | | | |t]; try by destruct (setting_at path (TBoolean e)).
    rewrite setting_at_get by done. simpl value_get. rewrite t_get_insert_eq.
    destruct p; simpl; rewrite Hne, Hs; [done|]. by rewrite !bool_decide_false.
  - assert (overrides path (TBoolean e) (k :: p) = false) as -> by (simpl; by rewrite Hs).
    apply str_eqb_neq in E.
    assert (forall e', setting_at path (TBoolean e') (k :: p) = None) as Hn.
    { intros e'. simpl. rewrite Hs, bool_decide_false; [done|]. by intros [=]. }
    destruct b as [| | | | | |t]; rewrite ?Hn; try done.
    rewrite !setting_at_get by done. simpl value_get. by rewrite t_get_insert_ne.
Qed.

Lemma merge_leaf_setting path b o p : is_table o = false ->
  setting_at path (merge_toml_values_at_path b o path) p = merge_setting path b (normalized_with_key_aliases o path) p.
Proof.
  intros Ho. rewrite merge_unfold.
  assert (replace_shell_environment_policy_filter_representation b o path = b) as ->.
  { unfold replace_shell_environment_policy_filter_representation. case_bool_decide; [|done]. by destruct o. }
  destruct (is_bool o && is_structured_feature_path path) eqn:E.
  - destruct o as [| | |e| | |]; try done. simpl in E. cbn [normalized_with_key_aliases].
    rewrite <- switch_merge_setting by done. unfold merge_structured_feature. rewrite E. by destruct b.
  - rewrite <- leaf_merge_setting; [|by apply normalized_leaf|by destruct o].
    unfold merge_structured_feature. destruct is_structured_feature_path, b, o; done.
Qed.

Lemma leaf_base_setting path b o p : is_table b = false -> is_bool b && is_structured_feature_path path = false ->
  setting_at path o p = merge_setting path b o p.
Proof.
  intros Hb Hs. unfold merge_setting. destruct (setting_at path o p); [done|].
  destruct p as [|k p]; [by rewrite overrides_nil|]. rewrite setting_at_leaf by done. by destruct overrides.
Qed.

Lemma merge_at_setting o : forall b path p, toml_ok false path o = true -> toml_ok true path b = true ->
  setting_at path (merge_toml_values_at_path b o path) p = merge_setting path b (normalized_with_key_aliases o path) p.
Proof.
  induction o as [s|n|f|e|d|items IH|ot IH] using toml_value_ind; intros b path p Ho Hb;
    try by apply merge_leaf_setting.
  rewrite merge_unfold. destruct b as [| | |e| | |bt] eqn:Eb.
  all: try (rewrite replace_representation_other by done; unfold merge_structured_feature).
  7:{ rewrite replace_representation_table. unfold merge_structured_feature.
      destruct (is_structured_feature_path path); apply merge_tables_setting; done. }
  4: destruct (is_structured_feature_path path) eqn:Es.
  4:{ assert (t_from_iter [(lit "enabled", TBoolean e)] =
        remove_displaced path (TTable ot) (t_from_iter [(lit "enabled", TBoolean e)])) as ->.
      { unfold remove_displaced. rewrite bool_decide_false; [done|]. by apply structured_path_ok. }
      rewrite merge_tables_setting; [|done|done|by apply feature_switch_ok].
      unfold merge_setting. by rewrite feature_switch_setting. }
  all: rewrite <- leaf_base_setting; try done; by destruct (is_structured_feature_path path).
Qed.

(** ** Merging keeps documents canonical *)

Lemma toml_ok_gets c path t : NoDup (keys t) ->
  (forall k v, t_get k t = Some v -> key_ok c path k = true /\ toml_ok c (path ++ [k]) v = true) ->
  toml_ok c path (TTable t) = true.
Proof. intros Hn H. apply toml_ok_table. split; [done|]. intros k v Hin. by apply H, t_in_get. Qed.

Lemma alias_get_key_ok {A} path k k' (v : A) t : alias_get path k t = Some (k', v) ->
  key_ok false path k' = true -> key_ok true path k = true.
Proof.
  unfold alias_get, key_ok, is_legacy_key. intros Ha Hk. destruct (alias_for path) as [alias|] eqn:E.
  - assert (is_permission_network_domains_path path = false) as ->.
    { destruct is_permission_network_domains_path eqn:E'; [|done]. by rewrite special_path_alias in E by auto. }
    assert (is_shell_environment_filters_path path = false) as ->.
    { destruct is_shell_environment_filters_path eqn:E'; [|done]. by rewrite special_path_alias in E by auto. }
    by destruct (str_eqb k (legacy_key alias)).
  - destruct (t_get k t); simpl in Ha; [|done]. by injection Ha as -> ->.
Qed.

Lemma alias_get_ok path k k' v t : toml_ok false path (TTable t) = true -> alias_get path k t = Some (k', v) ->
  key_ok true path k = true /\ toml_ok false (path ++ [k]) v = true.
Proof.
  intros [_ Hok]%toml_ok_table Ha. pose proof (alias_get_in _ _ _ _ _ Ha) as [Hk Hv]%Hok.
  split; [by eapply alias_get_key_ok|].
  destruct (alias_get_moved _ _ _ _ _ Ha) as [->|[H1 H2]]; [done|by eapply toml_ok_inert].
Qed.

Lemma normalized_ok v : forall path, toml_ok false path v = true ->
  toml_ok true path (normalized_with_key_aliases v path) = true.
Proof.
  induction v as [s|n|f|b|d|items IH|t IH] using toml_value_ind; intros path Hok; try done.
  - rewrite toml_ok_array in Hok. apply toml_ok_array. intros v Hin.
    apply list_elem_of_In, in_map_iff in Hin as (w & <- & Hin%list_elem_of_In). auto.
  - pose proof Hok as [Hn Hc]%toml_ok_table. rewrite normalized_table by done. apply toml_ok_gets.
    { apply keys_aliases_nodup. by rewrite keys_kv_map. }
    intros k w Hg. pose proof (normalized_get path t k Hok) as Hng.
    rewrite normalized_table in Hng by done. simpl in Hng. rewrite Hg in Hng.
    destruct (alias_get path k t) as [[k' v]|] eqn:Ea; [|done]. injection Hng as ->. simpl.
    destruct (alias_get_ok _ _ _ _ _ Hok Ea) as [H1 H2]. split; [done|].
    eapply IH; [by eapply alias_get_in|done].
Qed.

Lemma merge_tables_nodup path ot bt : NoDup (keys bt) -> NoDup (keys (merge_tables path ot bt)).
Proof.
  unfold merge_tables. revert bt. induction ot as [|[k v] ot IH]; intros bt Hn; simpl; [done|].
  apply IH. by apply keys_insert_nodup.
Qed.

Lemma merge_tables_ok path ot bt :
  (forall k v, (k, v) ∈ ot -> forall b q, toml_ok false q v = true -> toml_ok true q b = true ->
     toml_ok true q (merge_toml_values_at_path b v q) = true) ->
  toml_ok false path (TTable ot) = true -> toml_ok true path (TTable bt) = true ->
  toml_ok true path (TTable (merge_tables path (normalize_table_keys path ot) (normalize_table_keys path bt))) = true.
Proof.
  intros IH Ho Hb. rewrite (table_keys_aliases false path ot) by done. rewrite table_keys_canonical by done.
  pose proof Ho as [Hno Hvo]%toml_ok_table. pose proof Hb as [Hnb Hvb]%toml_ok_table.
  apply toml_ok_gets; [by apply merge_tables_nodup|]. intros k w.
  rewrite merge_tables_get by (by apply keys_aliases_nodup). rewrite get_aliases by done.
  destruct (alias_get path k ot) as [[k' v]|] eqn:Ea; simpl; [|by intros ?%t_get_in%Hvb].
  destruct (alias_get_ok _ _ _ _ _ Ho Ea) as [H1 H2]. apply alias_get_in in Ea.
  intros [= <-]. split; [done|]. destruct (t_get k bt) as [e|] eqn:Ee; [|by apply normalized_ok].
  eapply IH; [done..|]. by apply t_get_in, Hvb in Ee as [_ Ee].
Qed.

Lemma merge_at_ok o : forall b path, toml_ok false path o = true -> toml_ok true path b = true ->
  toml_ok true path (merge_toml_values_at_path b o path) = true.
Proof.
  induction o as [s|n|f|e|d|items IH|ot IH] using toml_value_ind; intros b path Ho Hb; rewrite merge_unfold.
  7:{ destruct (is_table b) eqn:Eb.
    - destruct b as [| | | | | |bt]; try done. rewrite replace_representation_table. unfold merge_structured_feature.
      destruct is_structured_feature_path; apply merge_tables_ok; auto using remove_displaced_ok.
    - rewrite replace_representation_other by done. unfold merge_structured_feature.
      destruct (is_structured_feature_path path) eqn:Es, b; try done; try by apply normalized_ok.
      apply merge_tables_ok; auto using feature_switch_ok. }
  all: assert (forall o, is_table o = false -> replace_shell_environment_policy_filter_representation b o path = b) as Hr
    by (intros o' Ho'; unfold replace_shell_environment_policy_filter_representation; case_bool_decide; [by destruct o'|done]).
  all: rewrite Hr by done; unfold merge_structured_feature.
  all: destruct (is_structured_feature_path path) eqn:Es, b as [| | | | | |bt]; try done; try by apply normalized_ok.
  pose proof Hb as [Hnb Hvb]%toml_ok_table. apply toml_ok_gets; [by apply keys_insert_nodup|].
  intros k w. rewrite t_get_insert. destruct (str_eqb k (lit "enabled")); [|by intros ?%t_get_in%Hvb].
  intros [= <-]. split; [|done]. destruct (structured_path_ok _ Es) as (H1 & H2 & H3 & _).
  unfold key_ok, is_legacy_key. by rewrite H1, H2, H3.
Qed.

(** What a merged document says.  For a canonical lower layer and a
    well-formed upper one, every dotted path has in the merge the setting of
    the upper layer when it has one, and otherwise the lower layer's, unless the
    upper layer replaces it (a value above the path, a table or another value in
    its place, or the other form of the shell environment filters); the merge is
    canonical again. *)
Theorem merge_decides_settings b o : toml_ok false [] o = true -> toml_ok true [] b = true ->
  toml_ok true [] (merge_toml_values b o) = true
  /\ forall p, setting_at [] (merge_toml_values b o) p = merge_setting [] b (normalized_with_key_aliases o []) p.
Proof. intros Ho Hb. split; [by apply merge_at_ok|]. intros p. by apply merge_at_setting. Qed.

(** ** Command line overrides *)

Lemma sparse_overlay_cons k path v : sparse_overlay (k :: path) v = TTable [(k, sparse_overlay path v)].
Proof. unfold sparse_overlay. simpl. by rewrite fold_left_app. Qed.

Lemma value_get_sparse k k' path v : value_get k (sparse_overlay (k' :: path) v) =
  if str_eqb k k' then Some (sparse_overlay path v) else None.
Proof. by rewrite sparse_overlay_cons. Qed.

Lemma displaces_sparse path k segs v k' : from_path (path ++ k :: segs) = None ->
  displaces path (sparse_overlay (k :: segs) v) k' = false.
Proof.
  intros H. unfold displaces. case_bool_decide; [|done]. subst. rewrite sparse_overlay_cons.
  rewrite andb_true_l. cbn [app from_path] in H. rewrite str_eqb_refl in H.
  unfold from_policy, t_contains_key. simpl as_table. cbn [t_get].
  destruct (str_eqb k (lit "filters")) eqn:E1; [done|]. destruct (str_eqb k (lit "exclude")) eqn:E2; [done|].
  destruct (str_eqb k (lit "include_only")) eqn:E3; [done|].
  apply str_eqb_neq in E1, E2, E3. by rewrite !(proj2 (str_eqb_neq _ k)).
Qed.

(** Writing one key of a table, seen through the settings. *)
Lemma insert_merge_setting path t k c segs v p : from_path (path ++ k :: segs) = None ->
  (forall q, setting_at (path ++ [k]) c q =
     match t_get k t with
     | Some e => merge_setting (path ++ [k]) e (sparse_overlay segs v) q
     | None => setting_at (path ++ [k]) (sparse_overlay segs v) q
     end) ->
  setting_at path (TTable (t_insert k c t)) p = merge_setting path (TTable t) (sparse_overlay (k :: segs) v) p.
Proof.
  intros Hf H. unfold merge_setting. destruct p as [|k' p].
  { rewrite overrides_nil. by rewrite !setting_at_table_nil by (try done; by rewrite sparse_overlay_cons). }
  assert (is_table (sparse_overlay (k :: segs) v) = true) as Ht by (by rewrite sparse_overlay_cons).
  rewrite !setting_at_get, overrides_get, displaces_sparse, value_get_sparse by done. cbn [value_get orb].
  rewrite t_get_insert. destruct (str_eqb k' k) eqn:E; [|done]. apply str_eqb_eq in E as ->.
  rewrite H. destruct (t_get k t); [done|]. destruct setting_at; [done|]. by destruct overrides.
Qed.

Lemma empty_base_setting path v p : merge_setting path (TTable []) v p = setting_at path v p.
Proof. unfold merge_setting. destruct setting_at; [done|]. destruct overrides; [done|]. by destruct p. Qed.

Lemma override_last_setting traversed current segment v p : is_table v = false ->
  from_path (traversed ++ [segment]) = None -> is_bool current && is_structured_feature_path traversed = false ->
  setting_at traversed (override_last current (traversed ++ [segment]) segment v) p
  = merge_setting traversed current (sparse_overlay [segment] v) p.
Proof.
  intros Hv Hf Hs.
  assert (forall t, (forall q, setting_at (traversed ++ [segment]) v q = match t_get segment t with
     | Some e => merge_setting (traversed ++ [segment]) e v q
     | None => setting_at (traversed ++ [segment]) v q end) ->
     setting_at traversed (TTable (t_insert segment v t)) p
     = merge_setting traversed (TTable t) (sparse_overlay [segment] v) p) as Hplain.
  { intros t Ht. by apply insert_merge_setting. }
  destruct (is_table current) eqn:Ec.
  2:{ replace (override_last current (traversed ++ [segment]) segment v) with (TTable (t_insert segment v []))
        by (by destruct current).
      rewrite Hplain by done. rewrite empty_base_setting. by rewrite <- leaf_base_setting by done. }
  destruct current as [| | | | | |t]; try done. simpl.
  destruct (is_structured_feature_path (traversed ++ [segment])) eqn:E.
  - destruct (t_get segment t) as [e|] eqn:Eg; [|apply Hplain; by rewrite Eg].
    destruct (is_bool v) eqn:Eb.
    + destruct v as [| | |b| | |]; try done. pose proof (fun q => switch_merge_setting _ e b q E) as Hm.
      destruct e as [| | | | | |f]; try (apply Hplain; rewrite Eg; apply Hm).
      apply insert_merge_setting; [done|]. rewrite Eg. apply Hm.
    + assert (setting_at traversed (TTable (t_insert segment v t)) p
        = merge_setting traversed (TTable t) (sparse_overlay [segment] v) p) as Hp.
      { apply Hplain. intros q. rewrite Eg. apply leaf_merge_setting; [done|by rewrite Eb]. }
      by destruct e, v.
  - apply Hplain. intros q. destruct (t_get segment t); [|done].
    apply leaf_merge_setting; [done|by rewrite E, andb_false_r].
Qed.

(** The settings below a converted switch. *)
Lemma feature_base_setting path next v p :
  merge_setting path (if is_structured_feature_path path then
    match next with TBoolean b => TTable (t_from_iter [(lit "enabled", TBoolean b)]) | _ => next end else next) v p
  = merge_setting path next v p.
Proof.
  destruct (is_structured_feature_path path) eqn:E; [|done]. destruct next; try done.
  unfold merge_setting. by rewrite feature_switch_setting.
Qed.

Lemma apply_override_step k k' rest traversed current v :
  apply_override (k :: k' :: rest) traversed current v =
  match current with
  | TTable table =>
      let next := default (TTable []) (t_get k (t_or_insert k (TTable []) table)) in
      TTable (t_insert k (apply_override (k' :: rest) (traversed ++ [k])
        (if is_structured_feature_path (traversed ++ [k]) then
           match next with TBoolean b => TTable (t_from_iter [(lit "enabled", TBoolean b)]) | _ => next end
         else next) v) (t_or_insert k (TTable []) table))
  | _ => TTable (t_insert k (apply_override (k' :: rest) (traversed ++ [k]) (TTable []) v) [])
  end.
Proof. reflexivity. Qed.

Lemma apply_override_setting segments : forall traversed current v p, is_table v = false -> segments <> [] ->
  from_path (traversed ++ segments) = None -> is_bool current && is_structured_feature_path traversed = false ->
  setting_at traversed (apply_override segments traversed current v) p
  = merge_setting traversed current (sparse_overlay segments v) p.
Proof.
  induction segments as [|k rest IH]; intros traversed current v p Hv Hne Hf Hb; [done|].
  destruct rest as [|k' rest]; [by apply override_last_setting|].
  assert (forall n q, is_bool n && is_structured_feature_path (traversed ++ [k]) = false ->
     setting_at (traversed ++ [k]) (apply_override (k' :: rest) (traversed ++ [k]) n v) q
     = merge_setting (traversed ++ [k]) n (sparse_overlay (k' :: rest) v) q) as Hrec.
  { intros n q Hn. apply IH; try done. by rewrite <- app_assoc. }
  clear IH. rewrite apply_override_step. destruct (is_table current) eqn:Ec.
  2:{ rewrite <- leaf_base_setting, <- (empty_base_setting traversed (sparse_overlay _ _)) by done.
      destruct current; try done; apply insert_merge_setting; try done; intros q; rewrite Hrec by done; apply empty_base_setting. }
  destruct current as [| | | | | |t]; try done. cbv zeta.
  match goal with |- context [apply_override (k' :: rest) _ ?n v] => set (next := n) end.
  assert (forall q, setting_at (traversed ++ [k]) (apply_override (k' :: rest) (traversed ++ [k]) next v) q =
    match t_get k t with
    | Some e => merge_setting (traversed ++ [k]) e (sparse_overlay (k' :: rest) v) q
    | None => setting_at (traversed ++ [k]) (sparse_overlay (k' :: rest) v) q
    end) as Hnext.
  { intros q. unfold next, t_or_insert. destruct (t_get k t) as [e|] eqn:E.
    - rewrite E. simpl default. rewrite Hrec; [apply feature_base_setting|].
      destruct (is_structured_feature_path (traversed ++ [k])); [by destruct e|by rewrite andb_false_r].
    - rewrite t_get_insert_eq. simpl default. 
      rewrite Hrec by (by destruct (is_structured_feature_path (traversed ++ [k]))).
      destruct (is_structured_feature_path (traversed ++ [k])); apply empty_base_setting. }
  unfold t_or_insert. destruct (t_get k t) eqn:E; rewrite ?t_insert_insert.
  all: apply insert_merge_setting; [done|]; by rewrite E.
Qed.

End documents.

(** A command line override is the merge of a document with that one setting:
    it takes effect, and the other settings stay unless its path passes through
    them (a value that is no table; the shell environment filters apart). *)
Theorem cli_override_takes_effect {HP : HostParsers} {UC : UnicodeCase} root path value p :
  is_table value = false -> from_path (split_on ch_dot path) = None ->
  setting_at [] (apply_toml_override root path value) p
  = merge_setting [] root (sparse_overlay (split_on ch_dot path) value) p.
Proof.
  intros Hv Hf. apply apply_override_setting; [done|apply split_on_nonempty|done|by rewrite andb_false_r].
Qed.

(** ** An example *)

Definition plain_hosts : HostParsers := {| parse_ip := fun _ => None; parse_url_host := Some |}.
Definition ascii_case : UnicodeCase := {| unicode_lowercase := to_ascii_lowercase |}.

Definition ex_lower : TomlValue :=
  TTable [ (lit "model", TString (lit "a"));
           (lit "features", TTable [(lit "multi_agent_v2", TBoolean true)]);
           (lit "agents", TTable [(lit "max_concurrent_threads_per_session", TInteger 4)]);
           (lit "shell_environment_policy", TTable [(lit "exclude", TArray [TString (lit "A")]); (lit "inherit", TString (lit "all"))]) ].

Definition ex_upper : TomlValue :=
  TTable [ (lit "features", TTable [(lit "multi_agent_v2", TTable [(lit "hint", TString (lit "x"))])]);
           (lit "agents", TTable [(lit "max_threads", TInteger 7)]);
           (lit "shell_environment_policy", TTable [(lit "filters", TTable [(lit "b", TString (lit "include"))])]) ].

Lemma merge_decides_settings_witness :
  let merged := @merge_toml_values plain_hosts ascii_case ex_lower ex_upper in
  setting_at [] merged [lit "features"; lit "multi_agent_v2"; lit "enabled"] = Some (TBoolean true)
  /\ setting_at [] merged [lit "agents"; lit "max_concurrent_threads_per_session"] = Some (TInteger 7)
  /\ setting_at [] merged [lit "shell_environment_policy"; lit "exclude"] = None
  /\ setting_at [] merged [lit "shell_environment_policy"; lit "inherit"] = Some (TString (lit "all")).
Proof.
  destruct (@merge_decides_settings plain_hosts ascii_case ex_lower ex_upper) as [_ H]; [vm_compute; reflexivity..|].
  cbv zeta. rewrite !H. repeat split; vm_compute; reflexivity.
Defined.
