(* ===== verification/ConfigLayers.v ===== *)
(** * The stack of configuration layers

    config/src/config_layer_source.rs, state.rs, fingerprint.rs and the filter
    validation of shell_environment_policy.rs: the sources of layers with their
    precedence, layer entries, the stack that keeps them from lowest to highest
    precedence, the effective configuration and the origin of each setting.

    Parameters: the encoding of a TOML value as JSON, its text and SHA-256 (the
    version of a layer), serde's reading of the filter fields, the requirements
    that a stack carries along. *)

From S2P Require Import Prelude RustStr NetworkPolicy AbsolutePath PathUri FileSystem ConfigToml.

Definition CONFIG_TOML_FILE : str := lit "config.toml".

(** ** Sources *)

Inductive ConfigLayerSource :=
| PackagedDefaults (file : abs_path)
| Mdm (domain key : str)
| System (file : abs_path)
| EnterpriseManaged (id name : str)
| User (file : abs_path) (profile : option str)
| Project (dot_codex_folder : abs_path)
| SessionFlags
| LegacyManagedConfigTomlFromFile (file : abs_path)
| LegacyManagedConfigTomlFromMdm.

Definition precedence (s : ConfigLayerSource) : Z :=
  match s with
  | PackagedDefaults _ => -10
  | Mdm _ _ => 0
  | System _ => 10
  | EnterpriseManaged _ _ => 15
  | User _ profile => match profile with Some _ => 21 | None => 20 end
  | Project _ => 25
  | SessionFlags => 30
  | LegacyManagedConfigTomlFromFile _ => 40
  | LegacyManagedConfigTomlFromMdm => 50
  end%Z.

Definition format_config_layer_source (source : ConfigLayerSource) (config_toml_file : str) : str :=
  match source with
  | PackagedDefaults file => lit "packaged defaults (" ++ abs_text file ++ lit ")"
  | Mdm domain key => lit "MDM (" ++ domain ++ lit ":" ++ key ++ lit ")"
  | System file => lit "system (" ++ abs_text file ++ lit ")"
  | EnterpriseManaged id name => lit "enterprise-managed (" ++ name ++ lit ", " ++ id ++ lit ")"
  | User file _ => lit "user (" ++ abs_text file ++ lit ")"
  | Project dot_codex_folder => lit "project (" ++ abs_text dot_codex_folder ++ lit "/" ++ config_toml_file ++ lit ")"
  | SessionFlags => lit "session-flags"
  | LegacyManagedConfigTomlFromFile file => lit "legacy managed_config.toml (" ++ abs_text file ++ lit ")"
  | LegacyManagedConfigTomlFromMdm => lit "legacy managed_config.toml (MDM)"
  end.

Record ConfigLayerMetadata := mkMetadata { meta_name : ConfigLayerSource; meta_version : str }.

(** ** Versions *)

Inductive JsonValue :=
| JNull
| JBool (b : bool)
| JNumber (text : str)
| JString (s : str)
| JArray (items : list JsonValue)
| JObject (map : list (str * JsonValue)).

(** The order of [String]: by code points. *)
Fixpoint str_leb (a b : str) : bool :=
  match a, b with
  | [], _ => true
  | _ :: _, [] => false
  | x :: a', y :: b' => (x <? y)%N || (x =? y)%N && str_leb a' b'
  end.

Definition sort_strings (l : list str) : list str := merge_sort (fun a b => Is_true (str_leb a b)) l.

Fixpoint canonical_json (value : JsonValue) : JsonValue :=
  match value with
  | JObject m =>
      let canonical := map (fun entry => (fst entry, canonical_json (snd entry))) m in
      JObject (fold_left (fun sorted key =>
        match t_get key canonical with Some val => t_insert key val sorted | None => sorted end)
        (sort_strings (map fst m)) [])
  | JArray items => JArray (map canonical_json items)
  | other => other
  end.

(** [serde_json::to_value] of a TOML value, [serde_json::to_vec], SHA-256. *)
Class ConfigEncoding := {
  toml_to_json : TomlValue -> option JsonValue;
  json_to_vec : JsonValue -> option (list N);
  sha256 : list N -> list N }.

Definition hex_digit (d : N) : char := if (d <? 10)%N then (48 + d)%N else (87 + d)%N.
Definition hex_byte (b : N) : str := [hex_digit (N.shiftr b 4); hex_digit (N.land b 15)].

Definition version_for_toml {E : ConfigEncoding} (value : TomlValue) : str :=
  let json := default JNull (toml_to_json value) in
  let serialized := default [] (json_to_vec (canonical_json json)) in
  lit "sha256:" ++ mjoin (map hex_byte (sha256 serialized)).

(** ** Layer entries *)

Record RawTomlLayer := mkRawToml { contents : str; base_dir : abs_path }.

Record ConfigLayerEntry := mkLayer {
  layer_name : ConfigLayerSource;
  layer_config : TomlValue;
  layer_version : str;
  disabled_reason : option str;
  layer_raw_toml : option RawTomlLayer;
  hooks_config_folder_override : option abs_path }.

Record ConfigLayer := mkConfigLayer {
  cl_name : ConfigLayerSource;
  cl_version : str;
  cl_config : JsonValue;
  cl_disabled_reason : option str }.

Definition abs_parent (p : abs_path) : option abs_path := if is_nil p then None else Some (removelast p).

(** [Path::ancestors]: the path itself first. *)
Definition ancestors (p : abs_path) : list abs_path := map (fun n => take n p) (rev (seq 0 (S (length p)))).

Section entries.
Context {E : ConfigEncoding}.

Definition layer_new (name : ConfigLayerSource) (config : TomlValue) : ConfigLayerEntry :=
  mkLayer name config (version_for_toml config) None None None.

Definition new_with_raw_toml (name : ConfigLayerSource) (config : TomlValue) (raw_toml : str)
    (raw_toml_base_dir : abs_path) : ConfigLayerEntry :=
  mkLayer name config (version_for_toml config) None (Some (mkRawToml raw_toml raw_toml_base_dir)) None.

Definition new_disabled (name : ConfigLayerSource) (config : TomlValue) (reason : str) : ConfigLayerEntry :=
  mkLayer name config (version_for_toml config) (Some reason) None None.

Definition is_disabled (l : ConfigLayerEntry) : bool :=
  match disabled_reason l with Some _ => true | None => false end.

Definition raw_toml (l : ConfigLayerEntry) : option str := contents <$> layer_raw_toml l.
Definition raw_toml_base_dir (l : ConfigLayerEntry) : option abs_path := base_dir <$> layer_raw_toml l.

Definition with_hooks_config_folder_override (l : ConfigLayerEntry) (o : option abs_path) : ConfigLayerEntry :=
  mkLayer (layer_name l) (layer_config l) (layer_version l) (disabled_reason l) (layer_raw_toml l) o.

Definition metadata (l : ConfigLayerEntry) : ConfigLayerMetadata := mkMetadata (layer_name l) (layer_version l).

Definition as_layer (l : ConfigLayerEntry) : ConfigLayer :=
  mkConfigLayer (layer_name l) (layer_version l) (default JNull (toml_to_json (layer_config l))) (disabled_reason l).

Definition config_folder (l : ConfigLayerEntry) : option abs_path :=
  match layer_name l with
  | System file => abs_parent file
  | User file _ => abs_parent file
  | Project dot_codex_folder => Some dot_codex_folder
  | _ => None
  end.

Definition hooks_config_folder (l : ConfigLayerEntry) : option abs_path :=
  match hooks_config_folder_override l with Some f => Some f | None => config_folder l end.

End entries.

(** ** Origins *)

Definition insert_origin (path : list str) (meta : ConfigLayerMetadata) (origins : gmap str ConfigLayerMetadata) :=
  <[join [ch_dot] path := meta]> origins.

Definition record_scalar (value : TomlValue) (meta : ConfigLayerMetadata) (path : list str)
    (origins : gmap str ConfigLayerMetadata) : gmap str ConfigLayerMetadata :=
  if is_nil path then origins
  else if is_bool value && is_structured_feature_path path then
    let origins :=
      if is_some_and (fun feature => str_eqb feature (lit "network_proxy")) (last path)
      then insert_origin path meta origins else origins in
    insert_origin (path ++ [lit "enabled"]) meta origins
  else insert_origin path meta origins.

Fixpoint record_origins (value : TomlValue) (meta : ConfigLayerMetadata) (path : list str)
    (origins : gmap str ConfigLayerMetadata) {struct value} : gmap str ConfigLayerMetadata :=
  match value with
  | TTable table =>
      fold_left (fun origins entry => record_origins (snd entry) meta (path ++ [fst entry]) origins) table origins
  | TArray items =>
      snd (fold_left (fun '(idx, origins) item =>
        (S idx, record_origins item meta (path ++ [fmt_nat idx]) origins)) items (0, origins))
  | _ => record_scalar value meta path origins
  end.

(** ** Validation of the shell environment filters *)

Inductive ShellEnvironmentPolicyFilter := Include | Exclude.

(** serde's reading of a list of strings and of a map of filters (in key
    order); of a document that is not a table; the text of an error. *)
Class FilterDecoding := {
  de_strings : TomlValue -> result (list str) str;
  de_filters : TomlValue -> result (list (str * ShellEnvironmentPolicyFilter)) str;
  de_not_a_table : TomlValue -> result unit str;
  display_de_error : str -> str }.

Section validation.
Context {HP : HostParsers} {UC : UnicodeCase} {FD : FilterDecoding}.

(** The duplicate check over the patterns. *)
Fixpoint duplicate_pattern (patterns : list str) (seen : list str) : option str :=
  match patterns with
  | [] => None
  | pattern :: rest =>
      if existsb (str_eqb (to_lowercase pattern)) seen then Some pattern
      else duplicate_pattern rest (to_lowercase pattern :: seen)
  end.

Definition de_field {A} (de : TomlValue -> result A str) (v : option TomlValue) : result (option A) str :=
  match v with
  | None => Ok None
  | Some v => let? a := de v in Ok (Some a)
  end.

Definition deserialize_shell_environment_policy_filters (value : TomlValue) : result unit str :=
  match as_table value with
  | None => Ok tt
  | Some policy =>
      let? exclude := de_field de_strings (t_get (lit "exclude") policy) in
      let? include_only := de_field de_strings (t_get (lit "include_only") policy) in
      let? filters := de_field de_filters (t_get (lit "filters") policy) in
      match filters with
      | Some filters =>
          match exclude, include_only with
          | None, None =>
              match duplicate_pattern (map fst filters) [] with
              | Some pattern => Err (lit "duplicate shell environment filter `" ++ pattern ++ lit "` ignoring case")
              | None => Ok tt
              end
          | _, _ => Err (lit "cannot mix `filters` with legacy `exclude` or `include_only`")
          end
      | None => Ok tt
      end
  end.

Definition validate_shell_environment_policy_filter_config (value : TomlValue) : result unit str :=
  match as_table value with
  | None => de_not_a_table value
  | Some t =>
      match t_get (lit "shell_environment_policy") t with
      | Some policy => deserialize_shell_environment_policy_filters policy
      | None => Ok tt
      end
  end.

Definition invalid_data (msg : str) : io_error := mkIoError InvalidData msg.

Fixpoint validate_enabled_config_layers (layers : list ConfigLayerEntry) : result unit io_error :=
  match layers with
  | [] => Ok tt
  | layer :: rest =>
      if is_disabled layer then validate_enabled_config_layers rest
      else match validate_shell_environment_policy_filter_config (layer_config layer) with
           | Ok _ => validate_enabled_config_layers rest
           | Err error =>
               Err (invalid_data (lit "invalid shell environment policy in "
                 ++ format_config_layer_source (layer_name layer) CONFIG_TOML_FILE ++ lit ": " ++ display_de_error error))
           end
  end.

End validation.

(** ** The stack *)

(** [layers.insert] before the first layer of a higher precedence, else at the
    end. *)
Fixpoint insert_layer_by_precedence (layers : list ConfigLayerEntry) (layer : ConfigLayerEntry) : list ConfigLayerEntry :=
  match layers with
  | [] => [layer]
  | existing :: rest =>
      if (precedence (layer_name layer) <? precedence (layer_name existing))%Z then layer :: layers
      else existing :: insert_layer_by_precedence rest layer
  end.

Definition is_user_layer (l : ConfigLayerEntry) : bool := match layer_name l with User _ _ => true | _ => false end.
Definition is_project_layer (l : ConfigLayerEntry) : bool := match layer_name l with Project _ => true | _ => false end.
Definition is_user_layer_of (file : abs_path) (l : ConfigLayerEntry) : bool :=
  match layer_name l with User f _ => bool_decide (f = file) | _ => false end.

(** [layers.remove] at the first position that satisfies a test. *)
Fixpoint remove_first (f : ConfigLayerEntry -> bool) (layers : list ConfigLayerEntry) : list ConfigLayerEntry :=
  match layers with
  | [] => []
  | l :: rest => if f l then rest else l :: remove_first f rest
  end.

(** [is_sorted] compares neighbours. *)
Fixpoint is_sorted_by_precedence (names : list ConfigLayerSource) : bool :=
  match names with
  | a :: ((b :: _) as rest) => (precedence a <=? precedence b)%Z && is_sorted_by_precedence rest
  | _ => true
  end.

Definition project_order_error := lit "project layers are not ordered from root to cwd".

Fixpoint verify_project_layers (previous : option abs_path) (layers : list ConfigLayerEntry) : result unit io_error :=
  match layers with
  | [] => Ok tt
  | layer :: rest =>
      match layer_name layer with
      | Project current =>
          match previous with
          | Some previous =>
              match abs_parent previous with
              | None => Err (invalid_data (lit "project layer has no parent directory"))
              | Some parent =>
                  if bool_decide (previous = current)
                     || negb (existsb (fun ancestor => bool_decide (ancestor = parent)) (ancestors current))
                  then Err (invalid_data project_order_error)
                  else verify_project_layers (Some current) rest
              end
          | None => verify_project_layers (Some current) rest
          end
      | _ => verify_project_layers previous rest
      end
  end.

Definition verify_layer_ordering (layers : list ConfigLayerEntry) : result unit io_error :=
  if is_sorted_by_precedence (map layer_name layers) then verify_project_layers None layers
  else Err (invalid_data (lit "config layers are not in correct precedence order")).

(** [ProfileV2Name]: a plain name. *)
Definition parse_profile_v2_name (value : str) : option str :=
  if is_nil value || negb (forallb (fun c => is_ascii_alphanumeric c || (c =? 95)%N || (c =? 45)%N) value)
  then None else Some value.

Section stack.
Context {HP : HostParsers} {UC : UnicodeCase} {FD : FilterDecoding} {E : ConfigEncoding}.
Context {R RT : Type}.

Record ConfigLayerStack := mkStack {
  layers : list ConfigLayerEntry;
  requirements : R;
  requirements_toml : RT;
  ignore_user_and_project_exec_policy_rules : bool;
  startup_warnings : option (list str) }.

Definition stack_new (layers : list ConfigLayerEntry) (r : R) (rt : RT) : result ConfigLayerStack io_error :=
  let? _ := validate_enabled_config_layers layers in
  let? _ := verify_layer_ordering layers in
  Ok (mkStack layers r rt false None).

Definition with_user_and_project_exec_policy_rules_ignored (s : ConfigLayerStack) (b : bool) : ConfigLayerStack :=
  mkStack (layers s) (requirements s) (requirements_toml s) b (startup_warnings s).

Definition with_startup_warnings (s : ConfigLayerStack) (w : list str) : ConfigLayerStack :=
  mkStack (layers s) (requirements s) (requirements_toml s) (ignore_user_and_project_exec_policy_rules s) (Some w).

Definition with_layers (s : ConfigLayerStack) (l : list ConfigLayerEntry) : ConfigLayerStack :=
  mkStack l (requirements s) (requirements_toml s) (ignore_user_and_project_exec_policy_rules s) (startup_warnings s).

Definition all_layers_low_to_high (s : ConfigLayerStack) : list ConfigLayerEntry := layers s.
Definition all_layers_high_to_low (s : ConfigLayerStack) : list ConfigLayerEntry := rev (all_layers_low_to_high s).
Definition layers_low_to_high (s : ConfigLayerStack) : list ConfigLayerEntry :=
  List.filter (fun l => negb (is_disabled l)) (all_layers_low_to_high s).
Definition layers_high_to_low (s : ConfigLayerStack) : list ConfigLayerEntry := rev (layers_low_to_high s).

Definition get_active_user_layer (s : ConfigLayerStack) : option ConfigLayerEntry :=
  List.find is_user_layer (rev (layers s)).

Definition get_user_config_file (s : ConfigLayerStack) : option abs_path :=
  l ← get_active_user_layer s; match layer_name l with User file _ => Some file | _ => None end.

Definition merge_layers (ls : list ConfigLayerEntry) : TomlValue :=
  fold_left (fun merged l => merge_toml_values merged (layer_config l)) ls (TTable []).

Definition effective_user_config (s : ConfigLayerStack) : option TomlValue :=
  match List.filter is_user_layer (layers_low_to_high s) with
  | [] => None
  | user_layers => Some (merge_layers user_layers)
  end.

Definition effective_config (s : ConfigLayerStack) : TomlValue := merge_layers (layers_low_to_high s).

Definition origins (s : ConfigLayerStack) : gmap str ConfigLayerMetadata :=
  fold_left (fun origins l => record_origins (normalized_with_key_aliases (layer_config l) []) (metadata l) [] origins)
    (layers_low_to_high s) ∅.

Definition with_user_config_profile (s : ConfigLayerStack) (config_toml : abs_path) (profile : option str)
    (user_config : TomlValue) : result ConfigLayerStack io_error :=
  let user_layer := layer_new (User config_toml profile) user_config in
  let? _ := validate_enabled_config_layers [user_layer] in
  Ok (with_layers s (insert_layer_by_precedence (remove_first (is_user_layer_of config_toml) (layers s)) user_layer)).

Definition with_user_config (s : ConfigLayerStack) (config_toml : abs_path) (user_config : TomlValue)
    : result ConfigLayerStack io_error :=
  let profile := find_map (fun l =>
    match layer_name l with
    | User file profile => if bool_decide (file = config_toml) then profile ≫= parse_profile_v2_name else None
    | _ => None
    end) (layers s) in
  with_user_config_profile s config_toml profile user_config.

Definition with_user_layer_from (s other : ConfigLayerStack) : ConfigLayerStack :=
  with_layers s (fold_left insert_layer_by_precedence (List.filter is_user_layer (layers other))
    (List.filter (fun l => negb (is_user_layer l)) (layers s))).

End stack.
Arguments ConfigLayerStack : clear implicits.

(** ** The order of the layers *)

Definition layer_le (a b : ConfigLayerEntry) : Prop := (precedence (layer_name a) <= precedence (layer_name b))%Z.

Lemma is_sorted_strongly ls : is_sorted_by_precedence (map layer_name ls) = true <-> StronglySorted layer_le ls.
Proof.
  induction ls as [|a ls IH]; simpl; [split; [constructor|done]|]. destruct ls as [|b ls]; simpl.
  { split; [repeat constructor|done]. }
  simpl in IH. rewrite andb_true_iff, IH, Z.leb_le. split.
  - intros [Hab Hs]. constructor; [done|]. constructor; [done|].
    apply StronglySorted_inv in Hs as [_ Hf]. eapply Forall_impl; [done|]. unfold layer_le. intros; simpl in *; lia.
  - intros [Hs Hf]%StronglySorted_inv. by apply Forall_cons in Hf as [Hf _].
Qed.

Lemma insert_layer_perm ls l : insert_layer_by_precedence ls l ≡ₚ l :: ls.
Proof.
  induction ls as [|x ls IH]; simpl; [done|]. destruct Z.ltb; [done|]. rewrite IH. apply Permutation_swap.
Qed.

Lemma insert_layer_sorted ls l : StronglySorted layer_le ls -> StronglySorted layer_le (insert_layer_by_precedence ls l).
Proof.
  induction ls as [|x ls IH]; simpl; [repeat constructor|]. intros [Hs Hf]%StronglySorted_inv.
  destruct Z.ltb eqn:Hlt.
  - apply Z.ltb_lt in Hlt. constructor; [by constructor|]. constructor; [unfold layer_le; lia|].
    eapply Forall_impl; [done|]. unfold layer_le. intros; simpl in *; lia.
  - apply Z.ltb_ge in Hlt. constructor; [auto|]. rewrite insert_layer_perm. by constructor.
Qed.

Lemma filter_sorted f ls : StronglySorted layer_le ls -> StronglySorted layer_le (List.filter f ls).
Proof.
  induction ls as [|x ls IH]; simpl; [done|]. intros [Hs Hf]%StronglySorted_inv.
  destruct (f x); [|auto]. constructor; [auto|]. apply Forall_forall. intros y [Hy _]%list_elem_of_In%filter_In.
  rewrite Forall_forall in Hf. apply Hf. by apply list_elem_of_In.
Qed.

Lemma remove_first_in f ls x : x ∈ remove_first f ls -> x ∈ ls.
Proof. induction ls as [|y ls IH]; simpl; [done|]. destruct (f y); rewrite ?elem_of_cons; intuition. Qed.

Lemma remove_first_sorted f ls : StronglySorted layer_le ls -> StronglySorted layer_le (remove_first f ls).
Proof.
  induction ls as [|x ls IH]; simpl; [done|]. intros [Hs Hf]%StronglySorted_inv.
  destruct (f x); [done|]. constructor; [auto|]. rewrite Forall_forall in *. eauto using remove_first_in.
Qed.

(** Only project layers matter for their order. *)
Lemma verify_projects_filter ls : forall previous,
  verify_project_layers previous ls = verify_project_layers previous (List.filter is_project_layer ls).
Proof.
  induction ls as [|l ls IH]; intros previous; simpl; [done|]. unfold is_project_layer at 1.
  destruct (layer_name l) eqn:En; simpl; rewrite ?En; try apply IH.
  destruct previous as [q|]; [|apply IH]. destruct (abs_parent q); [|done]. destruct (_ || _); [done|apply IH].
Qed.

Lemma insert_layer_projects ls l : is_project_layer l = false ->
  List.filter is_project_layer (insert_layer_by_precedence ls l) = List.filter is_project_layer ls.
Proof.
  intros Hl. induction ls as [|x ls IH]; simpl; [by rewrite Hl|]. destruct Z.ltb; simpl; [by rewrite Hl|]. by rewrite IH.
Qed.

Lemma remove_user_projects file ls :
  List.filter is_project_layer (remove_first (is_user_layer_of file) ls) = List.filter is_project_layer ls.
Proof.
  induction ls as [|x ls IH]; simpl; [done|]. destruct (is_user_layer_of file x) eqn:Eu.
  - unfold is_user_layer_of, is_project_layer in *. by destruct (layer_name x).
  - simpl. by rewrite IH.
Qed.

Lemma drop_users_projects ls :
  List.filter is_project_layer (List.filter (fun l => negb (is_user_layer l)) ls) = List.filter is_project_layer ls.
Proof.
  induction ls as [|x ls IH]; simpl; [done|]. unfold is_user_layer, is_project_layer in *.
  destruct (layer_name x) eqn:En; simpl; rewrite ?En; by rewrite IH.
Qed.

Lemma insert_users_sorted us : forall ls, StronglySorted layer_le ls ->
  StronglySorted layer_le (fold_left insert_layer_by_precedence us ls).
Proof. induction us as [|u us IH]; intros ls H; simpl; [done|]. by apply IH, insert_layer_sorted. Qed.

Lemma insert_users_projects us : Forall (fun u => is_project_layer u = false) us -> forall ls,
  List.filter is_project_layer (fold_left insert_layer_by_precedence us ls) = List.filter is_project_layer ls.
Proof. induction 1 as [|u us Hu _ IH]; intros ls; simpl; [done|]. by rewrite IH, insert_layer_projects. Qed.

Lemma verify_ordering_spec ls : verify_layer_ordering ls = Ok tt <->
  StronglySorted layer_le ls /\ verify_project_layers None (List.filter is_project_layer ls) = Ok tt.
Proof.
  unfold verify_layer_ordering. rewrite <- is_sorted_strongly, <- verify_projects_filter.
  destruct is_sorted_by_precedence; [tauto|]. split; [done|by intros [? _]].
Qed.

Section stack_invariant.
Context {HP : HostParsers} {UC : UnicodeCase} {FD : FilterDecoding} {E : ConfigEncoding} {R RT : Type}.
Notation Stack := (ConfigLayerStack R RT).

Definition layer_valid (l : ConfigLayerEntry) : Prop :=
  is_disabled l = true \/ validate_shell_environment_policy_filter_config (layer_config l) = Ok tt.

Lemma validate_layers_spec ls : validate_enabled_config_layers ls = Ok tt <-> Forall layer_valid ls.
Proof.
  induction ls as [|l ls IH]; simpl; [split; [constructor|done]|]. rewrite Forall_cons. unfold layer_valid at 1.
  destruct (is_disabled l); [rewrite IH; intuition|].
  destruct validate_shell_environment_policy_filter_config as [[]|e]; [rewrite IH; intuition|].
  split; [done|by intros [[|] _]].
Qed.

(** What [ConfigLayerStack::new] checks. *)
Definition stack_ok (s : Stack) : Prop :=
  validate_enabled_config_layers (layers s) = Ok tt /\ verify_layer_ordering (layers s) = Ok tt.

Lemma stack_new_ok ls (r : R) (rt : RT) s : stack_new ls r rt = Ok s -> stack_ok s /\ layers s = ls.
Proof.
  unfold stack_new, stack_ok. destruct validate_enabled_config_layers as [[]|] eqn:Hv; simpl; [|done].
  destruct verify_layer_ordering as [[]|] eqn:Ho; simpl; [|done]. intros [= <-]. by simpl; rewrite Hv, Ho.
Qed.

Lemma with_user_config_profile_ok (s s' : Stack) file profile v :
  stack_ok s -> with_user_config_profile s file profile v = Ok s' -> stack_ok s'.
Proof.
  unfold with_user_config_profile. set (u := layer_new (User file profile) v).
  destruct (validate_enabled_config_layers [u]) as [[]|] eqn:Hu; simpl; [|done].
  intros [Hv [Hs Hp]%verify_ordering_spec] [= <-]. split; simpl.
  - apply validate_layers_spec. rewrite insert_layer_perm. apply validate_layers_spec, Forall_cons in Hu as [Hu _].
    constructor; [done|]. apply validate_layers_spec in Hv. rewrite Forall_forall in *. eauto using remove_first_in.
  - apply verify_ordering_spec. split; [by apply insert_layer_sorted, remove_first_sorted|].
    by rewrite insert_layer_projects, remove_user_projects.
Qed.

Lemma with_user_layer_from_ok (s other : Stack) : stack_ok s -> stack_ok other -> stack_ok (with_user_layer_from s other).
Proof.
  intros [Hv [Hs Hp]%verify_ordering_spec] [Hv' _]. apply validate_layers_spec in Hv, Hv'. split; simpl.
  - apply validate_layers_spec.
    assert (Forall layer_valid (List.filter (fun l => negb (is_user_layer l)) (layers s))) as Hb.
    { apply Forall_forall. intros l [Hl _]%list_elem_of_In%filter_In. rewrite Forall_forall in Hv. by apply Hv, list_elem_of_In. }
    assert (Forall layer_valid (List.filter is_user_layer (layers other))) as Hu.
    { apply Forall_forall. intros l [Hl _]%list_elem_of_In%filter_In. rewrite Forall_forall in Hv'. by apply Hv', list_elem_of_In. }
    revert Hb. generalize (List.filter (fun l => negb (is_user_layer l)) (layers s)).
    induction Hu as [|u us Hu _ IH]; intros ls Hb; simpl; [done|]. apply IH. rewrite insert_layer_perm. by constructor.
  - apply verify_ordering_spec. split; [by apply insert_users_sorted, filter_sorted|].
    rewrite insert_users_projects, drop_users_projects; [done|]. apply Forall_forall.
    intros l [_ Hl]%list_elem_of_In%filter_In. unfold is_user_layer, is_project_layer in *. by destruct (layer_name l).
Qed.

(** ** The effective configuration *)

(** The layer that decides a setting, looking from the highest layer down. *)
Fixpoint deciding_layer (high_to_low : list ConfigLayerEntry) (p : list str) : option (ConfigLayerEntry * TomlValue) :=
  match high_to_low with
  | [] => None
  | l :: lower =>
      let doc := normalized_with_key_aliases (layer_config l) [] in
      match setting_at [] doc p with
      | Some v => Some (l, v)
      | None => if overrides [] doc p then None else deciding_layer lower p
      end
  end.

Definition layer_doc_ok (l : ConfigLayerEntry) : Prop := toml_ok false [] (layer_config l) = true.

Lemma merge_layers_snoc ls l : merge_layers (ls ++ [l]) = merge_toml_values (merge_layers ls) (layer_config l).
Proof. unfold merge_layers. by rewrite fold_left_app. Qed.

Lemma merge_layers_ok ls : Forall layer_doc_ok ls -> toml_ok true [] (merge_layers ls) = true.
Proof.
  induction ls as [|l ls IH] using rev_ind; intros H; [done|].
  apply Forall_app in H as [H Hl]. apply Forall_cons in Hl as [Hl _].
  rewrite merge_layers_snoc. by apply merge_at_ok; auto.
Qed.

Lemma merge_layers_deciding ls p : Forall layer_doc_ok ls ->
  setting_at [] (merge_layers ls) p = snd <$> deciding_layer (rev ls) p.
Proof.
  induction ls as [|l ls IH] using rev_ind; intros H; [by destruct p|].
  apply Forall_app in H as [H Hl]. apply Forall_cons in Hl as [Hl _].
  rewrite merge_layers_snoc, rev_app_distr. cbn [rev app deciding_layer].
  unfold merge_toml_values. rewrite merge_at_setting by (auto using merge_layers_ok). unfold merge_setting.
  destruct (setting_at [] (normalized_with_key_aliases (layer_config l) []) p); [done|].
  destruct overrides; [done|]. by apply IH.
Qed.

(** ** Origins *)

Definition is_scalar (v : TomlValue) : bool := match v with TTable _ | TArray _ => false | _ => true end.

Definition scalar_origins (path : list str) (v : TomlValue) : list (list str) :=
  if is_nil path then []
  else if is_bool v && is_structured_feature_path path then
    (if is_some_and (fun feature => str_eqb feature (lit "network_proxy")) (last path) then [path] else [])
      ++ [path ++ [lit "enabled"]]
  else [path].

(** [records path v q]: the value [v] at [path] has an origin at [q]. *)
Inductive records : list str -> TomlValue -> list str -> Prop :=
| records_table path t k v q : (k, v) ∈ t -> records (path ++ [k]) v q -> records path (TTable t) q
| records_array path items i v q : items !! i = Some v -> records (path ++ [fmt_nat i]) v q -> records path (TArray items) q
| records_scalar path v q : is_scalar v = true -> q ∈ scalar_origins path v -> records path v q.

Lemma record_scalar_fold v meta path m :
  record_scalar v meta path m = fold_left (fun m q => insert_origin q meta m) (scalar_origins path v) m.
Proof.
  unfold record_scalar, scalar_origins. destruct (is_nil path); [done|].
  destruct (is_bool v && is_structured_feature_path path); [|done]. by destruct is_some_and.
Qed.

Lemma fold_origins_keep meta qs : forall m key, m !! key = Some meta ->
  fold_left (fun m q => insert_origin q meta m) qs m !! key = Some meta.
Proof.
  induction qs as [|q qs IH]; intros m key H; simpl; [done|]. apply IH. unfold insert_origin.
  destruct (decide (join [ch_dot] q = key)) as [->|Hn]; [apply lookup_insert_eq|by rewrite lookup_insert_ne].
Qed.

Lemma fold_origins_in meta qs q : q ∈ qs -> forall m,
  fold_left (fun m q => insert_origin q meta m) qs m !! join [ch_dot] q = Some meta.
Proof.
  induction qs as [|q' qs IH]; intros Hq m; [by apply elem_of_nil in Hq|]. simpl.
  apply elem_of_cons in Hq as [->|Hq]; [|by apply IH]. apply fold_origins_keep, lookup_insert_eq.
Qed.

Lemma fold_origins_out meta qs key : (forall q, q ∈ qs -> join [ch_dot] q <> key) -> forall m,
  fold_left (fun m q => insert_origin q meta m) qs m !! key = m !! key.
Proof.
  induction qs as [|q' qs IH]; intros Hq m; simpl; [done|]. rewrite IH by (intros q H; apply Hq; by right).
  apply lookup_insert_ne, Hq. by left.
Qed.

(** The loop over an array with its indices, as one over pairs. *)
Lemma record_items items meta path : forall idx m,
  snd (fold_left (fun '(idx, m) item => (S idx, record_origins item meta (path ++ [fmt_nat idx]) m)) items (idx, m))
  = fold_left (fun m '(i, item) => record_origins item meta (path ++ [fmt_nat i]) m) (zip (seq idx (length items)) items) m.
Proof. induction items as [|v items IH]; intros idx m; simpl; [done|]. apply IH. Qed.

Lemma zip_seq_in {A} (l : list A) i v : forall idx, (i, v) ∈ zip (seq idx (length l)) l <-> idx <= i /\ l !! (i - idx) = Some v.
Proof.
  induction l as [|x l IH]; intros idx; simpl.
  { split; [by intros ?%elem_of_nil|by intros [_ H]]. }
  rewrite elem_of_cons, IH. split.
  - intros [[= -> ->]|[Hi H]]; [split; [lia|by rewrite Nat.sub_diag]|].
    split; [lia|]. replace (i - idx) with (S (i - S idx)) by lia. done.
  - intros [Hi H]. destruct (decide (i = idx)) as [->|Hne].
    + rewrite Nat.sub_diag in H. left. by simplify_eq/=.
    + right. split; [lia|]. by replace (i - idx) with (S (i - S idx)) in H by lia.
Qed.

(** A loop that keeps an origin keeps it through all its steps. *)
Lemma fold_keep {A} (f : gmap str ConfigLayerMetadata -> A -> gmap str ConfigLayerMetadata) meta key l :
  (forall m x, x ∈ l -> m !! key = Some meta -> f m x !! key = Some meta) ->
  forall m, m !! key = Some meta -> fold_left f l m !! key = Some meta.
Proof.
  induction l as [|x l IH]; intros Hf m H; simpl; [done|].
  apply IH; [intros m' y Hy; apply Hf; by right|]. apply Hf; [by left|done].
Qed.

Lemma fold_reach {A} (f : gmap str ConfigLayerMetadata -> A -> gmap str ConfigLayerMetadata) meta key l x :
  x ∈ l -> (forall m, f m x !! key = Some meta) ->
  (forall m y, y ∈ l -> m !! key = Some meta -> f m y !! key = Some meta) ->
  forall m, fold_left f l m !! key = Some meta.
Proof.
  induction l as [|y l IH]; intros Hx Hf Hk m; [by apply elem_of_nil in Hx|]. simpl.
  apply elem_of_cons in Hx as [->|Hx].
  - apply fold_keep; [|done]. intros m' z Hz. apply Hk. by right.
  - apply IH; [done..|]. intros m' z Hz. apply Hk. by right.
Qed.

Lemma fold_skip {A} (f : gmap str ConfigLayerMetadata -> A -> gmap str ConfigLayerMetadata) key l :
  (forall m x, x ∈ l -> f m x !! key = m !! key) -> forall m, fold_left f l m !! key = m !! key.
Proof.
  induction l as [|y l IH]; intros Hf m; simpl; [done|].
  rewrite IH by (intros m' x Hx; apply Hf; by right). apply Hf. by left.
Qed.

Lemma record_origins_scalar v meta path m : is_scalar v = true -> record_origins v meta path m = record_scalar v meta path m.
Proof. by destruct v. Qed.

Lemma record_keep v meta : forall path m key, m !! key = Some meta -> record_origins v meta path m !! key = Some meta.
Proof.
  induction v as [s|n|f|b|d|items IH|t IH] using toml_value_ind; intros path m key H.
  1-5: rewrite record_origins_scalar, record_scalar_fold by done; by apply fold_origins_keep.
  - cbn [record_origins]. rewrite record_items. apply fold_keep; [|done]. intros m' [i v] Hv Hm.
    apply zip_seq_in in Hv as [_ Hv]. eapply IH; [|done]. by eapply list_elem_of_lookup_2.
  - cbn [record_origins]. apply fold_keep; [|done]. intros m' [k v] Hv Hm. by eapply IH.
Qed.

Lemma record_in path v q : records path v q -> forall meta m, record_origins v meta path m !! join [ch_dot] q = Some meta.
Proof.
  induction 1 as [path t k v q Hin _ IH|path items i v q Hin _ IH|path v q Hs Hq]; intros meta m.
  - cbn [record_origins]. eapply fold_reach; [done| |].
    + intros m'. simpl. apply IH.
    + intros m' y _ Hm. by apply record_keep.
  - cbn [record_origins]. rewrite record_items. apply (fold_reach _ _ _ _ (i, v)).
    + apply zip_seq_in. rewrite Nat.sub_0_r. split; [lia|done].
    + intros m'. apply IH.
    + intros m' [j y] _ Hm. by apply record_keep.
  - rewrite record_origins_scalar, record_scalar_fold by done. by apply fold_origins_in.
Qed.

Lemma record_out v meta key : forall path m, (forall q, records path v q -> join [ch_dot] q <> key) ->
  record_origins v meta path m !! key = m !! key.
Proof.
  induction v as [s|n|f|b|d|items IH|t IH] using toml_value_ind; intros path m H.
  1-5: rewrite record_origins_scalar, record_scalar_fold by done; apply fold_origins_out;
    intros q Hq; apply H; by constructor.
  - cbn [record_origins]. rewrite record_items. apply fold_skip. intros m' [i v] Hv.
    apply zip_seq_in in Hv as [_ Hv]. rewrite Nat.sub_0_r in Hv. eapply IH; [by eapply list_elem_of_lookup_2|].
    intros q Hq. apply H. by eapply records_array.
  - cbn [record_origins]. apply fold_skip. intros m' [k v] Hv. eapply IH; [done|].
    intros q Hq. apply H. by eapply records_table.
Qed.

Lemma scalar_origins_prefix path v q : q ∈ scalar_origins path v ->
  path <> [] /\ (q = path \/ q = path ++ [lit "enabled"] /\ is_structured_feature_path path = true /\ is_bool v = true).
Proof.
  unfold scalar_origins. destruct (is_nil path) eqn:En; [by intros ?%elem_of_nil|]. apply is_nil_false in En.
  destruct (is_bool v && is_structured_feature_path path) eqn:Es.
  - apply andb_true_iff in Es as [? ?]. destruct is_some_and; simpl; rewrite ?elem_of_cons, ?elem_of_nil; tauto.
  - rewrite list_elem_of_singleton. auto.
Qed.

Lemma records_prefix path v q : records path v q -> exists s, q = path ++ s.
Proof.
  induction 1 as [path t k v q Hin _ [s IH]|path items i v q Hin _ [s IH]|path v q Hs Hq].
  - exists (k :: s). by rewrite IH, <- app_assoc.
  - exists (fmt_nat i :: s). by rewrite IH, <- app_assoc.
  - apply scalar_origins_prefix in Hq as [_ [->|[-> _]]]; [exists []; by rewrite app_nil_r|by eexists].
Qed.

(** The origins inside a setting are origins of the document. *)
Lemma setting_records p : forall path w v r, setting_at path w p = Some v -> records (path ++ p) v r ->
  records path w r.
Proof.
  induction p as [|k p IH]; intros path w v r Hs Hr.
  - rewrite app_nil_r in *. destruct w; simpl in Hs; try (by simplify_eq). destruct bool_decide; by simplify_eq.
  - destruct w as [s|n|f|b|d|items|t]; simpl in Hs; try done.
    + destruct (is_structured_feature_path path) eqn:Es; [|done].
      case_bool_decide as Ep; [|done]. simplify_eq. apply records_scalar; [done|].
      inversion Hr as [| |? ? ? _ Hq]; subst.
      apply scalar_origins_prefix in Hq as [_ [->|[_ [Hq _]]]]; [|by rewrite structured_enabled in Hq].
      unfold scalar_origins. destruct path; [done|]. simpl is_nil. rewrite Es. cbn [is_bool andb].
      apply elem_of_app. right. by apply list_elem_of_singleton.
    + destruct (t_get k t) as [c|] eqn:Ek; [|done]. apply t_get_in in Ek.
      eapply records_table; [done|]. eapply IH; [done|]. by rewrite <- app_assoc.
Qed.

(** A layer with an origin at or below a path decides that path. *)
Lemma records_blocks p : forall path w s, toml_ok true path w = true -> records path w (path ++ p ++ s) ->
  setting_at path w p <> None \/ overrides path w p = true.
Proof.
  induction p as [|k p IH]; intros path w s Hok Hr; [right; apply overrides_nil|].
  destruct w as [x|x|x|b|x|x|t]; try by right.
  - right. simpl. destruct (is_structured_feature_path path) eqn:Es; [|done].
    inversion Hr as [| |? ? ? _ Hq]; subst. apply scalar_origins_prefix in Hq as [_ [H|[H _]]].
    + rewrite <- (app_nil_r path) in H at 2. by apply app_inv_head in H.
    + apply app_inv_head in H. by injection H as -> _.
  - inversion Hr as [? ? k' v ? Hin Hr'| |]; subst; [|done].
    pose proof Hok as [Hn Hv]%toml_ok_table.
    destruct (records_prefix _ _ _ Hr') as [s' Hs']. rewrite <- app_assoc in Hs'.
    apply app_inv_head in Hs'. injection Hs' as -> _.
    rewrite setting_at_get, overrides_get by done. simpl value_get. rewrite (t_in_get k' v t) by done.
    destruct (IH (path ++ [k']) v s) as [H|H]; [by apply Hv|by rewrite <- app_assoc|by left|].
    right. rewrite H. apply orb_true_r.
Qed.

(** *** Keys without dots *)

Fixpoint dot_free (v : TomlValue) : bool :=
  match v with
  | TTable t => forallb (fun e => negb (contains_char ch_dot (fst e)) && dot_free (snd e)) t
  | TArray items => forallb dot_free items
  | _ => true
  end.

Lemma dot_free_key k : negb (contains_char ch_dot k) = true <-> ch_dot ∉ k.
Proof.
  unfold contains_char. rewrite negb_true_iff, <- not_true_iff_false, existsb_exists.
  split; intros H Hin; apply H.
  - exists ch_dot. split; [by apply list_elem_of_In|apply N.eqb_refl].
  - destruct Hin as (c & Hc & He). apply N.eqb_eq in He as <-. by apply list_elem_of_In.
Qed.

Lemma pretty_N_go_no_dot x s : ch_dot ∉ lit s -> ch_dot ∉ lit (pretty_N_go x s).
Proof.
  revert s. induction (N.lt_wf_0 x) as [x _ IH]; intros s Hs. destruct (decide (x = 0)%N) as [->|Hx]; [done|].
  rewrite pretty_N_go_step by lia. apply IH; [apply N.div_lt; lia|].
  change (ch_dot ∉ Ascii.N_of_ascii (pretty_N_char (x mod 10)) :: lit s). apply not_elem_of_cons. split; [|done].
  assert (x mod 10 < 10)%N as H by (apply N.mod_lt; lia). revert H. generalize (x mod 10)%N. intros d H.
  unfold pretty_N_char. repeat case_match; done.
Qed.

Lemma fmt_nat_no_dot n : ch_dot ∉ fmt_nat n.
Proof.
  unfold fmt_nat, fmt_N, pretty, pretty_N. case_decide; [by apply dot_free_key|].
  apply pretty_N_go_no_dot. by apply not_elem_of_nil.
Qed.

Lemma records_dot_free path v q : records path v q -> Forall (fun k => ch_dot ∉ k) path -> dot_free v = true ->
  Forall (fun k => ch_dot ∉ k) q.
Proof.
  induction 1 as [path t k v q Hin _ IH|path items i v q Hin _ IH|path v q Hs Hq]; intros Hp Hd.
  - simpl in Hd. rewrite forallb_forall in Hd. apply list_elem_of_In, Hd in Hin.
    apply andb_true_iff in Hin as [Hk Hv]. apply IH; [|done]. apply Forall_app. split; [done|].
    constructor; [by apply dot_free_key|constructor].
  - simpl in Hd. rewrite forallb_forall in Hd. apply IH.
    + apply Forall_app. split; [done|]. constructor; [apply fmt_nat_no_dot|constructor].
    + apply Hd, list_elem_of_In. by eapply list_elem_of_lookup_2.
  - apply scalar_origins_prefix in Hq as [_ [->|[-> _]]]; [done|].
    apply Forall_app. split; [done|]. constructor; [by apply dot_free_key|constructor].
Qed.

Lemma records_nonempty path v q : records path v q -> q <> [].
Proof.
  induction 1 as [| |path v q Hs Hq]; [done..|]. apply scalar_origins_prefix in Hq as [Hn [->|[-> _]]]; [done|].
  by destruct path.
Qed.

Lemma join_dot_inj p q : p <> [] -> q <> [] -> Forall (fun k => ch_dot ∉ k) p -> Forall (fun k => ch_dot ∉ k) q ->
  join [ch_dot] p = join [ch_dot] q -> p = q.
Proof. intros Hp Hq Fp Fq H. by rewrite <- (split_on_join ch_dot p), <- (split_on_join ch_dot q), H. Qed.

Lemma dot_free_table t : dot_free (TTable t) = true <-> forall k v, (k, v) ∈ t -> ch_dot ∉ k /\ dot_free v = true.
Proof.
  simpl. rewrite forallb_forall. split.
  - intros H k v Hin%list_elem_of_In%H. apply andb_true_iff in Hin as [Hk Hv]. by apply dot_free_key in Hk.
  - intros H [k v] [Hk Hv]%list_elem_of_In%H. apply andb_true_iff. split; [by apply dot_free_key|done].
Qed.

Lemma alias_get_dot_free {A} path k k' (v : A) t : alias_get path k t = Some (k', v) -> ch_dot ∉ k' -> ch_dot ∉ k.
Proof.
  unfold alias_get. intros H Hk'. destruct (alias_for path) as [alias|] eqn:Ea; [|by destruct (t_get k t); simplify_eq/=].
  destruct (str_eqb k (legacy_key alias)); [done|]. destruct (t_get k t); [by simplify_eq|].
  destruct (str_eqb k (canonical_key alias)) eqn:Ek; [|done]. apply str_eqb_eq in Ek as ->.
  apply alias_for_some in Ea as [_ Hin]. apply dot_free_key.
  apply elem_of_cons in Hin as [->|[->|[]%elem_of_nil]%elem_of_cons]; done.
Qed.

Lemma normalized_dot_free v : forall path, toml_ok false path v = true -> dot_free v = true ->
  dot_free (normalized_with_key_aliases v path) = true.
Proof.
  induction v as [s|n|f|b|d|items IH|t IH] using toml_value_ind; intros path Hok Hd; try done.
  - rewrite toml_ok_array in Hok. simpl in *. rewrite forallb_forall in *. intros w Hw.
    apply in_map_iff in Hw as (v & <- & Hv). apply IH; [by apply list_elem_of_In|by apply Hok, list_elem_of_In|by apply Hd].
  - pose proof Hok as [Hn Hv]%toml_ok_table. rewrite dot_free_table in Hd. rewrite normalized_table by done.
    apply dot_free_table. intros k w Hin.
    apply t_in_get in Hin; [|apply keys_aliases_nodup; by rewrite keys_kv_map].
    pose proof (normalized_get path t k Hok) as Hg. rewrite normalized_table in Hg by done. simpl in Hg. rewrite Hin in Hg.
    destruct (alias_get path k t) as [[k' v]|] eqn:Ea; [|done]. injection Hg as ->. simpl.
    pose proof (alias_get_in _ _ _ _ _ Ea) as Hi. destruct (Hd _ _ Hi) as [Hk' Hv'].
    split; [by eapply alias_get_dot_free|]. eapply IH; [done| |done]. by eapply alias_get_ok.
Qed.

Lemma deciding_layer_in ls p l v : deciding_layer ls p = Some (l, v) ->
  l ∈ ls /\ setting_at [] (normalized_with_key_aliases (layer_config l) []) p = Some v.
Proof.
  induction ls as [|x ls IH]; simpl; [done|].
  destruct (setting_at [] (normalized_with_key_aliases (layer_config x) []) p) eqn:Es.
  - intros [= -> ->]. split; [by left|done].
  - destruct overrides; [done|]. intros [H1 H2]%IH. split; [by right|done].
Qed.

Definition layer_origins (m : gmap str ConfigLayerMetadata) (l : ConfigLayerEntry) : gmap str ConfigLayerMetadata :=
  record_origins (normalized_with_key_aliases (layer_config l) []) (metadata l) [] m.

Lemma deciding_layer_origin ls : Forall layer_doc_ok ls -> Forall (fun l => dot_free (layer_config l) = true) ls ->
  forall p l v r, deciding_layer (rev ls) p = Some (l, v) -> records p v r ->
  fold_left layer_origins ls ∅ !! join [ch_dot] r = Some (metadata l).
Proof.
  induction ls as [|x ls IH] using rev_ind; intros Hok Hdf p l v r Hd Hr; [done|].
  apply Forall_app in Hok as [Hok Hx]. apply Forall_cons in Hx as [Hx _].
  apply Forall_app in Hdf as [Hdf Hxd]. apply Forall_cons in Hxd as [Hxd _].
  rewrite fold_left_app. cbn [fold_left]. rewrite rev_app_distr in Hd. cbn [rev app deciding_layer] in Hd.
  unfold layer_origins at 1. set (doc := normalized_with_key_aliases (layer_config x) []) in *.
  destruct (setting_at [] doc p) as [w|] eqn:Es.
  - injection Hd as -> ->. apply record_in. by eapply (setting_records p []).
  - destruct (overrides [] doc p) eqn:Eo; [done|]. rewrite record_out; [by eapply IH|].
    intros q Hq Hj. pose proof (deciding_layer_in _ _ _ _ Hd) as [Hin Hset].
    assert (Forall (fun k => ch_dot ∉ k) r) as Fr.
    { rewrite list_elem_of_In, <- in_rev, <- list_elem_of_In in Hin. rewrite !Forall_forall in Hok, Hdf. eapply records_dot_free; [|constructor|].
      - eapply (setting_records p []); done.
      - apply normalized_dot_free; [by apply Hok|by apply Hdf]. }
    assert (q = r) as ->.
    { apply join_dot_inj; [by eapply records_nonempty..| |done|done].
      eapply records_dot_free; [done|constructor|by apply normalized_dot_free]. }
    destruct (records_prefix _ _ _ Hr) as [s ->].
    destruct (records_blocks p [] doc s) as [H|H]; [by apply normalized_ok|done|done|congruence].
Qed.

End stack_invariant.

(** C37: the effective configuration and its origins.  When the documents of
    the enabled layers are in normal form (permission domains and environment
    filters are spelled as merging spells them), the value of every dotted path
    is that of the highest layer that sets it, unless a layer above replaces the
    place where it lives; and when keys have no dots, the origin recorded for
    the path (for each element, when the value is an array) is exactly that
    layer.  Filters in another spelling can lose their origin
    ([renamed_filter_has_no_origin]). *)
Theorem effective_config_decided {HP : HostParsers} {UC : UnicodeCase} {R RT : Type} (s : ConfigLayerStack R RT) p :
  Forall layer_doc_ok (layers_low_to_high s) ->
  setting_at [] (effective_config s) p = snd <$> deciding_layer (layers_high_to_low s) p
  /\ (Forall (fun l => dot_free (layer_config l) = true) (layers_low_to_high s) ->
      forall l v r, deciding_layer (layers_high_to_low s) p = Some (l, v) -> records p v r ->
      origins s !! join [ch_dot] r = Some (metadata l)).
Proof.
  intros Hok. split; [by apply merge_layers_deciding|]. intros Hdf l v r Hd Hr.
  by eapply deciding_layer_origin.
Qed.

(** Stacks stay ordered and valid.  A stack is built only from layers in
    precedence order, project layers from root to current directory, with valid
    filters; replacing or inserting a user layer and taking over the user layers
    of another stack keep that. *)
Theorem stack_operations_keep_order {HP : HostParsers} {UC : UnicodeCase} {FD : FilterDecoding} {E : ConfigEncoding}
    {R RT : Type} (s other : ConfigLayerStack R RT) ls r rt file v :
  stack_new ls r rt = Ok s -> stack_ok other ->
  stack_ok s
  /\ stack_ok (with_user_layer_from s other)
  /\ forall s', with_user_config s file v = Ok s' ->
     stack_ok s' /\ exists profile,
       layers s' ≡ₚ layer_new (User file profile) v :: remove_first (is_user_layer_of file) (layers s).
Proof.
  intros [Hs _]%stack_new_ok Ho. split; [done|]. split; [by apply with_user_layer_from_ok|].
  intros s' Hw. unfold with_user_config in Hw. split; [apply (with_user_config_profile_ok _ _ _ _ _ Hs Hw)|]. revert Hw.
  unfold with_user_config_profile. destruct validate_enabled_config_layers; simpl; [|done].
  intros [= <-]. eexists. apply insert_layer_perm.
Qed.

(** ** Examples *)

Definition ex_encoding : ConfigEncoding :=
  {| toml_to_json := fun _ => None; json_to_vec := fun _ => Some []; sha256 := fun bytes => bytes |}.

(** Reads lists of strings and maps of actions. *)
Definition ex_strings (v : TomlValue) : result (list str) str :=
  match v with
  | TArray items =>
      if forallb (fun v => match v with TString _ => true | _ => false end) items
      then Ok (omap (fun v => match v with TString s => Some s | _ => None end) items)
      else Err (lit "expected a string")
  | _ => Err (lit "expected an array")
  end.

Definition ex_filters (v : TomlValue) : result (list (str * ShellEnvironmentPolicyFilter)) str :=
  match v with
  | TTable t => Ok (omap (fun e => match snd e with TString _ => Some (fst e, Include) | _ => None end) t)
  | _ => Err (lit "expected a table")
  end.

Definition ex_decoding : FilterDecoding :=
  {| de_strings := ex_strings; de_filters := ex_filters;
     de_not_a_table := fun _ => Err (lit "expected a table"); display_de_error := fun e => e |}.

Section examples.
#[local] Existing Instances plain_hosts ascii_case ex_encoding ex_decoding.

Definition ex_system : ConfigLayerEntry := layer_new (System [lit "etc"; lit "codex"; lit "config.toml"]) ex_lower.
Definition ex_user : ConfigLayerEntry := layer_new (User [lit "home"; lit "config.toml"] None) ex_upper.
Definition ex_stack : ConfigLayerStack unit unit := mkStack [ex_system; ex_user] tt tt false None.

Lemma effective_config_decided_witness :
  setting_at [] (effective_config ex_stack)
    [lit "agents"; lit "max_concurrent_threads_per_session"] = Some (TInteger 7)
  /\ origins ex_stack !! lit "agents.max_concurrent_threads_per_session" = Some (metadata ex_user)
  /\ origins ex_stack !! lit "shell_environment_policy.inherit" = Some (metadata ex_system).
Proof.
  assert (Forall (layer_doc_ok) (layers_low_to_high ex_stack)) as Hok.
  { repeat constructor. }
  assert (Forall (fun l => dot_free (layer_config l) = true) (layers_low_to_high ex_stack)) as Hd.
  { repeat constructor. }
  destruct (effective_config_decided ex_stack
    [lit "agents"; lit "max_concurrent_threads_per_session"] Hok) as [H1 H2].
  destruct (effective_config_decided ex_stack
    [lit "shell_environment_policy"; lit "inherit"] Hok) as [_ H3].
  split; [rewrite H1; vm_compute; reflexivity|]. split.
  - apply (H2 Hd ex_user (TInteger 7) [lit "agents"; lit "max_concurrent_threads_per_session"]);
      [vm_compute; reflexivity|]. apply records_scalar; [reflexivity|]. left.
  - apply (H3 Hd ex_system (TString (lit "all")) [lit "shell_environment_policy"; lit "inherit"]);
      [vm_compute; reflexivity|]. apply records_scalar; [reflexivity|]. left.
Defined.

Lemma stack_operations_keep_order_witness :
  exists s' : ConfigLayerStack unit unit,
    with_user_config ex_stack [lit "home"; lit "config.toml"] ex_lower = Ok s'
    /\ stack_ok s'
    /\ stack_ok (with_user_layer_from ex_stack s').
Proof.
  eexists. split; [vm_compute; reflexivity|].
  match goal with |- stack_ok ?s /\ _ => set (s' := s) end.
  assert (stack_ok s') as Ho by (split; vm_compute; reflexivity).
  destruct (stack_operations_keep_order ex_stack s'
    [ex_system; ex_user] tt tt [lit "home"; lit "config.toml"] ex_lower) as (_ & Hf & Hw);
    [vm_compute; reflexivity|exact Ho|].
  split; [|exact Hf]. apply (Hw s'). vm_compute. reflexivity.
Defined.

(** Filters are merged under lower-case names, but origins keep the spelling of
    the layer: the effective filter has no origin. *)
Definition filter_layer (source : ConfigLayerSource) (pattern : str) : ConfigLayerEntry :=
  layer_new source
    (TTable [(lit "shell_environment_policy", TTable [(lit "filters", TTable [(pattern, TString (lit "exclude"))])])]).

Definition filter_stack : ConfigLayerStack unit unit :=
  mkStack [filter_layer (System [lit "etc"]) (lit "AWS"); filter_layer (User [lit "home"] None) (lit "FOO")] tt tt false None.

Theorem renamed_filter_has_no_origin :
  setting_at [] (effective_config filter_stack)
    [lit "shell_environment_policy"; lit "filters"; lit "aws"] = Some (TString (lit "exclude"))
  /\ origins filter_stack !! lit "shell_environment_policy.filters.aws" = None
  /\ origins filter_stack !! lit "shell_environment_policy.filters.AWS" = Some (metadata (filter_layer (System [lit "etc"]) (lit "AWS"))).
Proof. repeat split; vm_compute; reflexivity. Qed.

End examples.
