(* ===== verification/ConfigProject.v ===== *)
(** * Project configuration and trust

    config/src/loader/mod.rs, the part that reads [.codex/config.toml] of the
    directories between the project root and the current directory: finding the
    root, deciding trust, removing what a repository must not set, and building
    the project layers.  The credential provider variables are those of
    network-proxy/src/credential_broker.

    Parameters (class [ProjectLib]): the TOML parser, the typed reading of a
    document with its paths resolved, the typed reading of the trust map, strict
    validation, environment variables, the wildcard matcher, and the main
    repository of a checkout; the file system is [ExecutorFileSystem], symbolic
    links and the home directory are [Host]. *)

From S2P Require Import Prelude RustStr NetworkPolicy AbsolutePath PathUri FileSystem WritableRoots ConfigToml ConfigLayers.

Definition PROJECT_LOCAL_CONFIG_DENYLIST : list str :=
  [ lit "openai_base_url"; lit "chatgpt_base_url"; lit "apps_mcp_product_sku"; lit "responses_api_metadata";
    lit "model_provider"; lit "model_providers"; lit "notify"; lit "profile"; lit "profiles";
    lit "experimental_realtime_webrtc_call_base_url"; lit "experimental_realtime_ws_base_url"; lit "otel" ].

Inductive TrustLevel := Trusted | Untrusted.
Inductive CredentialBrokerProjectState := Unconfigured | Disabled | Enabled.

#[export] Instance CredentialBrokerProjectState_eq_dec : EqDecision CredentialBrokerProjectState.
Proof. solve_decision. Defined.

(** ** Credential providers *)

Record CredentialProvider := mkProvider { context_env_vars : list str; source_env_vars : list (list str) }.

Definition credential_providers : list CredentialProvider :=
  [ mkProvider [lit "GH_HOST"]
      [[lit "GH_TOKEN"; lit "GITHUB_TOKEN"]; [lit "GH_ENTERPRISE_TOKEN"; lit "GITHUB_ENTERPRISE_TOKEN"]];
    mkProvider [lit "OPENAI_BASE_URL"] [[lit "OPENAI_API_KEY"]] ].

Definition credential_broker_provider_context_env_keys : list str :=
  mjoin (map context_env_vars credential_providers).

Definition env_key_matches (candidate expected : str) : bool := str_eqb candidate expected.

Definition is_credential_broker_provider_env_key (key : str) : bool :=
  existsb (fun provider => existsb (env_key_matches key)
    (mjoin (source_env_vars provider) ++ context_env_vars provider)) credential_providers.

Definition eq_ignore_ascii_case (a b : str) : bool := str_eqb (to_ascii_lowercase a) (to_ascii_lowercase b).

(** ** Parameters *)

Class ProjectLib := {
  (** [toml::from_str] *)
  toml_from_str : str -> result TomlValue str;
  (** reading a document as [ConfigToml] with paths resolved against a
      directory ([None]: it does not deserialise), and writing it back *)
  resolved_config : TomlValue -> abs_path -> option (result TomlValue str);
  (** [validate_config_toml_strictly] *)
  validate_strictly : abs_path -> str -> TomlValue -> abs_path -> result unit io_error;
  (** the table [projects] with its trust levels *)
  projects_config : TomlValue -> abs_path -> result (list (str * option TrustLevel)) io_error;
  env_var : str -> option str;
  (** [EnvironmentVariablePattern::new_case_insensitive(pattern).matches(name)] *)
  pattern_matches : str -> str -> bool }.

Notation table := (list (str * TomlValue)).

Definition as_str (v : TomlValue) : option str := match v with TString s => Some s | _ => None end.
Definition as_bool (v : TomlValue) : option bool := match v with TBoolean b => Some b | _ => None end.

Section project.
Context {HP : HostParsers} {UC : UnicodeCase} {E : ConfigEncoding} {lib : UrlLib} {host : Host} {PL : ProjectLib}.

(** ** What a repository must not set *)

(** [if table.remove(key).is_some() { ignored_keys.push(label) }] *)
Definition strip_key (key label : str) (st : table * list str) : table * list str :=
  match t_get key (fst st) with
  | Some _ => (t_remove key (fst st), snd st ++ [label])
  | None => st
  end.

(** [if let Some(sub) = table.get_mut(key).and_then(as_table_mut)] *)
Definition on_subtable (key : str) (f : table * list str -> table * list str) (st : table * list str) : table * list str :=
  match t_get key (fst st) with
  | Some (TTable sub) => let '(sub, ignored) := f (sub, snd st) in (t_insert key (TTable sub) (fst st), ignored)
  | _ => st
  end.

Definition sanitize_network_proxy (configured : bool) (st : table * list str) : table * list str :=
  let st := strip_key (lit "credential_broker") (lit "features.network_proxy.credential_broker") st in
  if configured then strip_key (lit "enabled") (lit "features.network_proxy.enabled") st else st.

Definition sanitize_features (broker : CredentialBrokerProjectState) (st : table * list str) : table * list str :=
  let configured := negb (bool_decide (broker = Unconfigured)) in
  let st := if bool_decide (broker = Enabled)
            then strip_key (lit "shell_snapshot") (lit "features.shell_snapshot") st else st in
  let st := strip_key (lit "respect_system_proxy") (lit "features.respect_system_proxy") st in
  if configured && is_some_and is_bool (t_get (lit "network_proxy") (fst st))
  then strip_key (lit "network_proxy") (lit "features.network_proxy") st
  else on_subtable (lit "network_proxy") (sanitize_network_proxy configured) st.

Definition is_binding_key (key : str) : bool :=
  eq_ignore_ascii_case key (lit "ZDOTDIR") || eq_ignore_ascii_case key (lit "BASH_ENV")
  || is_credential_broker_provider_env_key key
  || existsb (eq_ignore_ascii_case key) credential_broker_provider_context_env_keys.

(** [overrides.retain] with the dropped keys reported in order. *)
Definition sanitize_set (st : table * list str) : table * list str :=
  (List.filter (fun e => negb (is_binding_key (fst e))) (fst st),
   snd st ++ map (fun e => lit "shell_environment_policy.set." ++ fst e)
     (List.filter (fun e => is_binding_key (fst e)) (fst st))).

Definition include_binding_keys (items : list TomlValue) : list TomlValue :=
  fold_left (fun items key =>
    if existsb (fun pattern => is_some_and (fun p => pattern_matches p key) (as_str pattern)) items
    then items else items ++ [TString key]) credential_broker_provider_context_env_keys items.

Definition is_include (action : TomlValue) : bool := is_some_and (fun s => str_eqb s (lit "include")) (as_str action).

Definition filter_binding_keys (filters : table) : table :=
  fold_left (fun filters key =>
    if existsb (fun e => is_include (snd e) && pattern_matches (fst e) key) filters
    then filters else t_insert key (TString (lit "include")) filters)
    credential_broker_provider_context_env_keys filters.

Definition sanitize_policy (trusted_binding_env : list (str * str)) (st : table * list str) : table * list str :=
  let st := strip_key (lit "experimental_use_profile") (lit "shell_environment_policy.experimental_use_profile") st in
  let '(policy, ignored) := on_subtable (lit "set") sanitize_set st in
  let policy :=
    match t_get (lit "include_only") policy with
    | Some (TArray (item :: items)) => t_insert (lit "include_only") (TArray (include_binding_keys (item :: items))) policy
    | _ => policy
    end in
  let policy :=
    match t_get (lit "filters") policy with
    | Some (TTable filters) =>
        if existsb (fun e => is_include (snd e)) filters
        then t_insert (lit "filters") (TTable (filter_binding_keys filters)) policy else policy
    | _ => policy
    end in
  let policy :=
    if negb (is_nil trusted_binding_env)
       && existsb (fun key => t_contains_key key policy) [lit "inherit"; lit "exclude"; lit "include_only"; lit "filters"]
    then
      let policy := t_or_insert (lit "set") (TTable []) policy in
      match t_get (lit "set") policy with
      | Some (TTable overrides) =>
          t_insert (lit "set") (TTable (fold_left (fun overrides '(key, value) =>
            t_insert key (TString value) overrides) trusted_binding_env overrides)) policy
      | _ => policy
      end
    else policy in
  (policy, ignored).

Definition sanitize_chat (st : table * list str) : table * list str :=
  fold_left (fun st key => strip_key key (lit "tui.keymap.chat." ++ key) st)
    [lit "previous_permission_mode"; lit "next_permission_mode"] st.

Definition sanitize_table (broker : CredentialBrokerProjectState) (trusted_binding_env : list (str * str))
    (t : table) : table * list str :=
  let st := fold_left (fun st key => strip_key key key st) PROJECT_LOCAL_CONFIG_DENYLIST (t, []) in
  let st := on_subtable (lit "features") (sanitize_features broker) st in
  let st := if bool_decide (broker = Enabled)
            then on_subtable (lit "shell_environment_policy") (sanitize_policy trusted_binding_env) st else st in
  on_subtable (lit "tui") (on_subtable (lit "keymap") (on_subtable (lit "chat") sanitize_chat)) st.

(** The sanitised document and the ignored keys. *)
Definition sanitize_project_config (config : TomlValue) (broker : CredentialBrokerProjectState)
    (trusted_binding_env : list (str * str)) : TomlValue * list str :=
  match config with
  | TTable t => let '(t, ignored) := sanitize_table broker trusted_binding_env t in (TTable t, ignored)
  | _ => (config, [])
  end.

Definition project_ignored_config_keys_warning (dot_codex_folder : abs_path) (ignored_keys : list str) : str :=
  lit "Ignored unsupported project-local config keys in " ++ abs_text (abs_join dot_codex_folder CONFIG_TOML_FILE)
  ++ lit ": " ++ join (lit ", ") ignored_keys
  ++ lit ". If you want these settings to apply, manually set them in your user-level config.toml.".

(** ** Trust *)

Record ProjectTrustContext := mkTrustContext {
  project_root : abs_path;
  project_root_key : str;
  project_root_lookup_keys : list str;
  checkout_root : option abs_path;
  repo_root : option abs_path;
  repo_root_key : option str;
  repo_root_lookup_keys : option (list str);
  projects_trust : gmap str TrustLevel;
  user_config_file : abs_path;
  credential_broker : CredentialBrokerProjectState;
  credential_broker_binding_env : list (str * str) }.

Record ProjectTrustDecision := mkDecision { trust_level : option TrustLevel; trust_key : str }.

Definition is_trusted (d : ProjectTrustDecision) : bool := match trust_level d with Some Trusted => true | _ => false end.

(** Lowercasing happens on Windows only. *)
Definition normalize_project_trust_lookup_key (key : str) : str := key.

Definition normalized_project_trust_keys (path : abs_path) : list str :=
  let normalized_path := normalize_project_trust_lookup_key (abs_text path) in
  let normalized_canonical_path :=
    normalize_project_trust_lookup_key (abs_text (default path (canonicalize path))) in
  if str_eqb normalized_path normalized_canonical_path then [normalized_canonical_path]
  else [normalized_canonical_path; normalized_path].

Definition project_trust_key (path : abs_path) : str :=
  match normalized_project_trust_keys path with
  | key :: _ => key
  | [] => normalize_project_trust_lookup_key (abs_text path)
  end.

Definition project_trust_for_lookup_key (projects : gmap str TrustLevel) (lookup_key : str) : option (str * TrustLevel) :=
  match projects !! lookup_key with
  | Some level => Some (lookup_key, level)
  | None =>
      let matches := List.filter (fun key => str_eqb (normalize_project_trust_lookup_key key) lookup_key)
                       (map fst (map_to_list projects)) in
      match sort_strings matches with
      | key :: _ => (fun level => (key, level)) <$> projects !! key
      | [] => None
      end
  end.

Definition decision_for_dir (c : ProjectTrustContext) (dir : abs_path) : ProjectTrustDecision :=
  let keys := normalized_project_trust_keys dir ++ project_root_lookup_keys c ++ default [] (repo_root_lookup_keys c) in
  match find_map (project_trust_for_lookup_key (projects_trust c)) keys with
  | Some (key, level) => mkDecision (Some level) key
  | None => mkDecision None (default (project_root_key c) (repo_root_key c))
  end.

Definition disabled_reason_for_decision (c : ProjectTrustContext) (d : ProjectTrustDecision) : option str :=
  if is_trusted d then None
  else
    let gated_features := lit "project-local config, hooks, and exec policies" in
    match trust_level d with
    | Some Untrusted =>
        Some (trust_key d ++ lit " is marked as untrusted in the effective configuration. To load " ++ gated_features
              ++ lit ", update its trust setting. If that setting is managed by your organization, contact your administrator.")
    | _ =>
        Some (lit "To load " ++ gated_features ++ lit ", add " ++ trust_key d ++ lit " as a trusted project in "
              ++ abs_text (user_config_file c) ++ lit ".")
    end.

Definition root_checkout_hooks_folder_for_dir (c : ProjectTrustContext) (dir : abs_path) : option abs_path :=
  checkout_root ← checkout_root c;
  repo_root ← repo_root c;
  if bool_decide (checkout_root = repo_root) then None
  else relative_dir ← path_strip_prefix dir checkout_root;
       Some (abs_join (abs_join repo_root (join [ch_slash] relative_dir)) (lit ".codex")).

Definition project_layer_entry (dot_codex_folder : abs_path) (config : TomlValue) (reason hooks : _) : ConfigLayerEntry :=
  let source := Project dot_codex_folder in
  with_hooks_config_folder_override
    (match reason with Some reason => new_disabled source config reason | None => layer_new source config end) hooks.

(** ** Resolving paths *)

(** Every field of [original], with the resolved value where there is one. *)
Fixpoint copy_shape_from_original (original resolved : TomlValue) {struct original} : TomlValue :=
  match original, resolved with
  | TTable original_table, TTable resolved_table =>
      TTable (t_from_iter (map (fun entry => (fst entry,
        copy_shape_from_original (snd entry) (default (snd entry) (t_get (fst entry) resolved_table)))) original_table))
  | TArray original_array, TArray resolved_array =>
      TArray ((fix items index original_array :=
        match original_array with
        | [] => []
        | original_value :: rest =>
            copy_shape_from_original original_value (default original_value (resolved_array !! index))
            :: items (S index) rest
        end) 0 original_array)
  | _, _ => resolved
  end.

Definition resolve_relative_paths_in_config_toml (value : TomlValue) (base_dir : abs_path) : result TomlValue io_error :=
  match resolved_config value base_dir with
  | None => Ok value
  | Some (Ok resolved) => Ok (copy_shape_from_original value resolved)
  | Some (Err e) => Err (mkIoError InvalidData (lit "Failed to serialize resolved config: " ++ e))
  end.

(** ** Discovery *)

Section discovery.
Context {S : Type} {FS : ExecutorFileSystem S PathUri} (fs : S).
(** [resolve_root_git_project_for_trust] (git-utils/src/trust.rs) *)
Context (resolve_root_git_project_for_trust : abs_path -> option abs_path).

Definition path_metadata (p : abs_path) : result FileMetadata io_error := get_metadata fs (from_abs_path p) true.

(** A [.git] directory counts only with its [HEAD]. *)
Definition marker_found (dir : abs_path) (marker : str) : bool :=
  let marker_path := abs_join dir marker in
  match path_metadata marker_path with
  | Err _ => false
  | Ok m =>
      negb (str_eqb marker (lit ".git") && is_directory m
            && negb (is_ok (path_metadata (abs_join marker_path (lit "HEAD")))))
  end.

Definition find_project_root (cwd : abs_path) (project_root_markers : list str) : abs_path :=
  if is_nil project_root_markers then cwd
  else default cwd (List.find (fun ancestor => existsb (marker_found ancestor) project_root_markers) (ancestors cwd)).

Definition is_checkout (dir : abs_path) : bool :=
  let dot_git := abs_join dir (lit ".git") in
  match path_metadata dot_git with
  | Err _ => false
  | Ok m => negb (is_directory m && negb (is_ok (path_metadata (abs_join dot_git (lit "HEAD")))))
  end.

Definition find_git_checkout_root (cwd : abs_path) : option abs_path :=
  base ← match path_metadata cwd with
         | Ok m => if is_directory m then Some cwd else abs_parent cwd
         | Err _ => abs_parent cwd
         end;
  List.find is_checkout (ancestors base).

Definition trusted_binding (trusted_policy_overrides : option table) (key : str) : option (str * str) :=
  let trusted_override :=
    overrides ← trusted_policy_overrides;
    entry ← List.find (fun e => str_eqb (fst e) key) overrides;
    value ← as_str (snd entry);
    Some (fst entry, value) in
  match trusted_override with
  | Some b => Some b
  | None => (fun value => (key, value)) <$> env_var key
  end.

Definition project_trust_context (merged_config trusted_broker_config : TomlValue) (cwd : abs_path)
    (project_root_markers : list str) (config_base_dir user_config_file : abs_path)
    : result ProjectTrustContext io_error :=
  let? projects := projects_config merged_config config_base_dir in
  let project_root := find_project_root cwd project_root_markers in
  let project_root_lookup_keys := normalized_project_trust_keys project_root in
  let project_root_key := default (project_trust_key project_root) (head project_root_lookup_keys) in
  let repo_root := resolve_root_git_project_for_trust cwd in
  let repo_root_lookup_keys := normalized_project_trust_keys <$> repo_root in
  let network_proxy := (value_get (lit "features") trusted_broker_config ≫= value_get (lit "network_proxy")) ≫= as_table in
  let configured := is_some_and (fun t => is_some_and (fun v => bool_decide (as_bool v = Some true))
                      (t_get (lit "credential_broker") t)) network_proxy in
  let broker :=
    if configured then
      if default false ((network_proxy ≫= t_get (lit "enabled")) ≫= as_bool) then Enabled else Disabled
    else Unconfigured in
  let binding_env :=
    if configured then
      let overrides := (value_get (lit "shell_environment_policy") trusted_broker_config ≫= value_get (lit "set")) ≫= as_table in
      omap (trusted_binding overrides) credential_broker_provider_context_env_keys
    else [] in
  Ok (mkTrustContext project_root project_root_key project_root_lookup_keys (find_git_checkout_root cwd)
        repo_root (repo_root_lookup_keys ≫= head) repo_root_lookup_keys
        (list_to_map (omap (fun '(key, level) => (fun l => (key, l)) <$> level) projects))
        user_config_file broker binding_env).

Record DiscoveredProjectLayer := mkDiscovered {
  d_dot_codex_folder : abs_path;
  d_config : TomlValue;
  d_disabled_reason : option str;
  d_hooks_config_folder_override : option abs_path;
  d_load_root_checkout_hooks : bool }.

(** The ancestors of [cwd] up to the root, inclusive. *)
Fixpoint take_until (project_root : abs_path) (dirs : list abs_path) : list abs_path :=
  match dirs with
  | [] => []
  | a :: rest => if bool_decide (a = project_root) then [a] else a :: take_until project_root rest
  end.

Definition project_dirs (cwd project_root : abs_path) : list abs_path := rev (take_until project_root (ancestors cwd)).

(** One directory: [None] when it has no layer. *)
Definition discover_dir (c : ProjectTrustContext) (codex_home : abs_path) (strict_config : bool) (dir : abs_path)
    : result (option (DiscoveredProjectLayer * list str)) io_error :=
  let dot_codex := abs_join dir (lit ".codex") in
  if negb (match path_metadata dot_codex with Ok m => is_directory m | Err _ => false end) then Ok None
  else
    let decision := decision_for_dir c dir in
    let reason := disabled_reason_for_decision c decision in
    let hooks := root_checkout_hooks_folder_for_dir c dir in
    if bool_decide (dot_codex = codex_home)
       || bool_decide (default dot_codex (canonicalize dot_codex) = default codex_home (canonicalize codex_home))
    then Ok None
    else
      let config_file := abs_join dot_codex CONFIG_TOML_FILE in
      match read_file_text fs (from_abs_path config_file) true with
      | Ok contents =>
          match toml_from_str contents with
          | Err e =>
              if is_trusted decision
              then Err (mkIoError InvalidData (lit "Error parsing project config file " ++ abs_text config_file ++ lit ": " ++ e))
              else Ok (Some (mkDiscovered dot_codex (TTable []) reason hooks false, []))
          | Ok config =>
              let? _ :=
                if bool_decide (reason = None) && strict_config
                then validate_strictly config_file contents config dot_codex else Ok tt in
              let '(config, ignored) := sanitize_project_config config (credential_broker c) (credential_broker_binding_env c) in
              let warnings :=
                if bool_decide (reason = None) && negb (is_nil ignored)
                then [project_ignored_config_keys_warning dot_codex ignored] else [] in
              Ok (Some (mkDiscovered dot_codex config reason hooks true, warnings))
          end
      | Err err =>
          if bool_decide (kind err = NotFound)
          then Ok (Some (mkDiscovered dot_codex (TTable []) reason hooks true, []))
          else Err (mkIoError (kind err)
                 (lit "Failed to read project config file " ++ abs_text config_file ++ lit ": " ++ message err))
      end.

Fixpoint discover_dirs (c : ProjectTrustContext) (codex_home : abs_path) (strict_config : bool) (dirs : list abs_path)
    : result (list DiscoveredProjectLayer * list str) io_error :=
  match dirs with
  | [] => Ok ([], [])
  | dir :: rest =>
      let? found := discover_dir c codex_home strict_config dir in
      let? later := discover_dirs c codex_home strict_config rest in
      Ok (match found with
          | Some (layer, warnings) => (layer :: fst later, warnings ++ snd later)
          | None => later
          end)
  end.

Definition discover_project_layers (cwd : abs_path) (c : ProjectTrustContext) (project_root codex_home : abs_path)
    (strict_config : bool) : result (list DiscoveredProjectLayer * list str) io_error :=
  discover_dirs c codex_home strict_config (project_dirs cwd project_root).

Definition load_root_checkout_project_config (hooks_config_folder : abs_path) (trusted : bool) : result TomlValue io_error :=
  let hooks_config_file := abs_join hooks_config_folder CONFIG_TOML_FILE in
  match read_file_text fs (from_abs_path hooks_config_file) true with
  | Ok contents =>
      match toml_from_str contents with
      | Ok parsed => Ok parsed
      | Err e =>
          if trusted
          then Err (mkIoError InvalidData (lit "Error parsing project hooks config file " ++ abs_text hooks_config_file ++ lit ": " ++ e))
          else Ok (TTable [])
      end
  | Err err =>
      if bool_decide (kind err = NotFound) then Ok (TTable [])
      else Err (mkIoError (kind err)
             (lit "Failed to read project hooks config file " ++ abs_text hooks_config_file ++ lit ": " ++ message err))
  end.

Definition merge_root_checkout_project_hooks (config : TomlValue) (hooks : option abs_path) (trusted : bool)
    : result TomlValue io_error :=
  match hooks with
  | None => Ok config
  | Some hooks_config_folder =>
      let? root_config := load_root_checkout_project_config hooks_config_folder trusted in
      let? root_config := resolve_relative_paths_in_config_toml root_config hooks_config_folder in
      match config with
      | TTable config_table =>
          let config_table := t_remove (lit "hooks") config_table in
          Ok (TTable (match value_get (lit "hooks") root_config with
                      | Some hooks => t_insert (lit "hooks") hooks config_table
                      | None => config_table
                      end))
      | _ => Ok config
      end
  end.

Definition load_project_layer (layer : DiscoveredProjectLayer) : result ConfigLayerEntry io_error :=
  let? config := resolve_relative_paths_in_config_toml (d_config layer) (d_dot_codex_folder layer) in
  let? config :=
    if d_load_root_checkout_hooks layer
    then merge_root_checkout_project_hooks config (d_hooks_config_folder_override layer)
           (bool_decide (d_disabled_reason layer = None))
    else Ok config in
  Ok (project_layer_entry (d_dot_codex_folder layer) config (d_disabled_reason layer) (d_hooks_config_folder_override layer)).

Fixpoint load_all (discovered : list DiscoveredProjectLayer) : result (list ConfigLayerEntry) io_error :=
  match discovered with
  | [] => Ok []
  | layer :: rest =>
      let? entry := load_project_layer layer in
      let? entries := load_all rest in
      Ok (entry :: entries)
  end.

Definition load_project_layers (cwd project_root : abs_path) (c : ProjectTrustContext) (codex_home : abs_path)
    (strict_config : bool) : result (list ConfigLayerEntry * list str) io_error :=
  let? discovered := discover_project_layers cwd c project_root codex_home strict_config in
  let? entries := load_all (fst discovered) in
  Ok (entries, snd discovered).

End discovery.
End project.

(** ** Sanitised documents *)

(** The document is a table without the key. *)
Definition absent (k : str) (doc : TomlValue) : Prop :=
  match doc with TTable t => k ∉ keys t | _ => False end.

Lemma strip_key_get key label st k : NoDup (keys (fst st)) ->
  t_get k (fst (strip_key key label st)) = if str_eqb k key then None else t_get k (fst st).
Proof.
  intros Hn. unfold strip_key. destruct (t_get key (fst st)) eqn:E; simpl; [by apply t_get_remove|].
  destruct (str_eqb k key) eqn:Ek; [|done]. by apply str_eqb_eq in Ek as ->.
Qed.

Lemma strip_key_nodup key label st : NoDup (keys (fst st)) -> NoDup (keys (fst (strip_key key label st))).
Proof. intros Hn. unfold strip_key. destruct (t_get key (fst st)); [by apply keys_remove_nodup|done]. Qed.

Lemma on_subtable_get key f st k :
  t_get k (fst (on_subtable key f st)) =
  if str_eqb k key then
    match t_get key (fst st) with Some (TTable sub) => Some (TTable (fst (f (sub, snd st)))) | v => v end
  else t_get k (fst st).
Proof.
  unfold on_subtable. destruct (str_eqb k key) eqn:Ek.
  - apply str_eqb_eq in Ek as ->. destruct (t_get key (fst st)) as [[| | | | | |sub]|] eqn:E; simpl; rewrite ?E; try done.
    destruct (f (sub, snd st)) as [sub' ig]. simpl. by rewrite t_get_insert_eq.
  - destruct (t_get key (fst st)) as [[| | | | | |sub]|]; simpl; try done.
    destruct (f (sub, snd st)) as [sub' ig]. simpl. rewrite t_get_insert_ne; [done|by apply str_eqb_neq].
Qed.

Lemma on_subtable_nodup key f st : NoDup (keys (fst st)) -> NoDup (keys (fst (on_subtable key f st))).
Proof.
  intros Hn. unfold on_subtable. destruct (t_get key (fst st)) as [[| | | | | |sub]|]; try done.
  destruct (f (sub, snd st)). by apply keys_insert_nodup.
Qed.

Lemma strip_keys_get ks : forall st, NoDup (keys (fst st)) ->
  NoDup (keys (fst (fold_left (fun st key => strip_key key key st) ks st)))
  /\ forall k, t_get k (fst (fold_left (fun st key => strip_key key key st) ks st)) =
       if existsb (str_eqb k) ks then None else t_get k (fst st).
Proof.
  induction ks as [|key ks IH]; intros st Hn; simpl; [done|].
  destruct (IH (strip_key key key st)) as [H1 H2]; [by apply strip_key_nodup|]. split; [done|].
  intros k. rewrite H2, strip_key_get by done. destruct (str_eqb k key); simpl; [by destruct existsb|done].
Qed.

Section sanitized.
Context {HP : HostParsers} {UC : UnicodeCase} {PL : ProjectLib}.
Context (broker : CredentialBrokerProjectState) (env : list (str * str)).

(** Stripping reaches every listed key, whatever the rest of the document. *)
Lemma sanitize_table_get t k : NoDup (keys t) -> k ∈ PROJECT_LOCAL_CONFIG_DENYLIST ->
  k ∉ keys (fst (sanitize_table broker env t)).
Proof.
  intros Hn Hk. apply t_get_none. unfold sanitize_table.
  destruct (strip_keys_get PROJECT_LOCAL_CONFIG_DENYLIST (t, []) Hn) as [_ H].
  assert (existsb (str_eqb k) PROJECT_LOCAL_CONFIG_DENYLIST = true) as He.
  { apply existsb_exists. exists k. split; [by apply list_elem_of_In|apply str_eqb_refl]. }
  specialize (H k). rewrite He in H.
  assert (k <> lit "tui" /\ k <> lit "shell_environment_policy" /\ k <> lit "features") as (N1 & N2 & N3).
  { unfold PROJECT_LOCAL_CONFIG_DENYLIST in Hk. repeat (apply elem_of_cons in Hk as [->|Hk]; [by repeat split|]).
    by apply elem_of_nil in Hk. }
  rewrite on_subtable_get, (proj2 (str_eqb_neq _ _) N1).
  destruct (bool_decide (broker = Enabled)); rewrite ?on_subtable_get, ?(proj2 (str_eqb_neq _ _) N2), (proj2 (str_eqb_neq _ _) N3);
    done.
Qed.

Lemma sanitized_absent config k : (exists t, config = TTable t /\ NoDup (keys t)) -> k ∈ PROJECT_LOCAL_CONFIG_DENYLIST ->
  absent k (fst (sanitize_project_config config broker env)).
Proof.
  intros (t & -> & Hn) Hk. simpl. pose proof (sanitize_table_get t k Hn Hk) as H. by destruct sanitize_table.
Qed.

(** The same inside tables. *)
Lemma on_subtable_inside key f st k :
  (t_get key (fst (on_subtable key f st)) ≫= value_get k) =
  match t_get key (fst st) with Some (TTable sub) => t_get k (fst (f (sub, snd st))) | _ => None end.
Proof. rewrite on_subtable_get, str_eqb_refl. by destruct (t_get key (fst st)) as [[]|]. Qed.

Lemma sanitize_features_inside st : NoDup (keys (fst st)) ->
  (forall sub, t_get (lit "network_proxy") (fst st) = Some (TTable sub) -> NoDup (keys sub)) ->
  t_get (lit "respect_system_proxy") (fst (sanitize_features broker st)) = None
  /\ (t_get (lit "network_proxy") (fst (sanitize_features broker st)) ≫= value_get (lit "credential_broker")) = None.
Proof.
  intros Hn Hsub. unfold sanitize_features.
  set (st1 := if bool_decide (broker = Enabled) then _ else st).
  set (st2 := strip_key (lit "respect_system_proxy") _ st1).
  assert (NoDup (keys (fst st1))) as Hn1 by (unfold st1; case_bool_decide; [by apply strip_key_nodup|done]).
  assert (NoDup (keys (fst st2))) as Hn2 by (by apply strip_key_nodup).
  assert (t_get (lit "respect_system_proxy") (fst st2) = None) as Hr.
  { unfold st2. rewrite strip_key_get by done. by rewrite str_eqb_refl. }
  assert (t_get (lit "network_proxy") (fst st2) = t_get (lit "network_proxy") (fst st)) as Hp.
  { unfold st2. rewrite strip_key_get by done. rewrite (proj2 (str_eqb_neq _ _)) by done.
    unfold st1. case_bool_decide; [|done]. rewrite strip_key_get by done. by rewrite (proj2 (str_eqb_neq _ _)). }
  destruct (negb (bool_decide (broker = Unconfigured)) && _).
  - rewrite !strip_key_get by done. split; [|by rewrite str_eqb_refl].
    by rewrite (proj2 (str_eqb_neq (lit "respect_system_proxy") (lit "network_proxy"))).
  - rewrite on_subtable_inside, on_subtable_get, Hp.
    rewrite (proj2 (str_eqb_neq (lit "respect_system_proxy") (lit "network_proxy"))) by done. split; [done|].
    destruct (t_get (lit "network_proxy") (fst st)) as [[| | | | | |sub]|] eqn:En; try done.
    specialize (Hsub sub eq_refl). unfold sanitize_network_proxy. destruct (negb _).
    + rewrite strip_key_get by (by apply strip_key_nodup). destruct str_eqb; [done|].
      rewrite strip_key_get by done. by rewrite str_eqb_refl.
    + rewrite strip_key_get by done. by rewrite str_eqb_refl.
Qed.

Lemma sanitize_chat_get st k : NoDup (keys (fst st)) ->
  k = lit "previous_permission_mode" \/ k = lit "next_permission_mode" -> t_get k (fst (sanitize_chat st)) = None.
Proof.
  intros Hn Hk. unfold sanitize_chat. cbn [fold_left]. rewrite strip_key_get by (by apply strip_key_nodup).
  destruct (str_eqb k (lit "next_permission_mode")) eqn:E; [done|]. rewrite strip_key_get by done.
  destruct Hk as [->| ->]; [by rewrite str_eqb_refl|]. by rewrite str_eqb_refl in E.
Qed.

End sanitized.

(** The document of a table found below another one is well formed. *)
Lemma toml_ok_get {HP : HostParsers} {UC : UnicodeCase} c path t k v : toml_ok c path (TTable t) = true ->
  t_get k t = Some v -> toml_ok c (path ++ [k]) v = true.
Proof. intros [_ H]%toml_ok_table Hg%t_get_in. by apply H in Hg as [_ Hg]. Qed.

Lemma toml_ok_nodup {HP : HostParsers} {UC : UnicodeCase} c path t : toml_ok c path (TTable t) = true -> NoDup (keys t).
Proof. by intros [H _]%toml_ok_table. Qed.

(** A sanitised project document cannot raise permissions.  Whatever a
    repository's [config.toml] contains and whether or not credentials are
    brokered, the keys of the denylist are gone, and so are the switch of the
    system proxy, the credential broker and the terminal keys that change the
    permission mode. *)
Theorem sanitized_config_is_safe {HP : HostParsers} {UC : UnicodeCase} {PL : ProjectLib} config broker env :
  is_table config = true -> toml_ok false [] config = true ->
  let doc := fst (sanitize_project_config config broker env) in
  (forall k, k ∈ PROJECT_LOCAL_CONFIG_DENYLIST -> absent k doc)
  /\ (value_get (lit "features") doc ≫= value_get (lit "respect_system_proxy")) = None
  /\ ((value_get (lit "features") doc ≫= value_get (lit "network_proxy")) ≫= value_get (lit "credential_broker")) = None
  /\ (forall k, k = lit "previous_permission_mode" \/ k = lit "next_permission_mode" ->
      (((value_get (lit "tui") doc ≫= value_get (lit "keymap")) ≫= value_get (lit "chat")) ≫= value_get k) = None).
Proof.
  destruct config as [| | | | | |t]; try done. intros _ Hok. pose proof (toml_ok_nodup _ _ _ Hok) as Hn.
  split; [intros k Hk; apply sanitized_absent; eauto|]. unfold sanitize_project_config.
  destruct (strip_keys_get PROJECT_LOCAL_CONFIG_DENYLIST (t, []) Hn) as [Hn0 Hg0].
  unfold sanitize_table. set (st0 := fold_left _ PROJECT_LOCAL_CONFIG_DENYLIST (t, [])) in *.
  set (st1 := on_subtable (lit "features") (sanitize_features broker) st0).
  set (st2 := if bool_decide (broker = Enabled) then _ else st1).
  assert (forall k, k <> lit "shell_environment_policy" -> t_get k (fst st2) = t_get k (fst st1)) as H2.
  { intros k Hk. unfold st2. case_bool_decide; [|done]. rewrite on_subtable_get. by rewrite (proj2 (str_eqb_neq _ _) Hk). }
  destruct (on_subtable (lit "tui") _ st2) as [t3 ig3] eqn:E3.
  assert (t3 = fst (on_subtable (lit "tui") (on_subtable (lit "keymap") (on_subtable (lit "chat") sanitize_chat)) st2)) as ->
    by (by rewrite E3). clear E3. cbn [fst value_get].
  assert (forall k, t_get (lit "features") (fst (on_subtable (lit "tui")
     (on_subtable (lit "keymap") (on_subtable (lit "chat") sanitize_chat)) st2)) ≫= value_get k
     = match t_get (lit "features") t with
       | Some (TTable sub) => t_get k (fst (sanitize_features broker (sub, snd st0))) | _ => None end) as Hf.
  { intros k. rewrite on_subtable_get. rewrite (proj2 (str_eqb_neq _ _)) by done. rewrite H2 by done.
    unfold st1. rewrite on_subtable_inside. rewrite Hg0. done. }
  split; [|split].
  - rewrite Hf. destruct (t_get (lit "features") t) as [[| | | | | |sub]|] eqn:Ef; try done.
    apply sanitize_features_inside; [by eapply toml_ok_nodup, toml_ok_get|].
    intros np Hnp. simpl in Hnp. eapply toml_ok_nodup, toml_ok_get; [|done]. by eapply toml_ok_get.
  - rewrite Hf. destruct (t_get (lit "features") t) as [[| | | | | |sub]|] eqn:Ef; try done.
    apply (sanitize_features_inside broker (sub, snd st0)); [by eapply toml_ok_nodup, toml_ok_get|].
    intros np Hnp. simpl in Hnp. eapply toml_ok_nodup, toml_ok_get; [|done]. by eapply toml_ok_get.
  - intros k Hk. rewrite on_subtable_inside.
    rewrite H2 by done. unfold st1. rewrite on_subtable_get, (proj2 (str_eqb_neq _ _)) by done. rewrite Hg0. cbn [fst existsb].
    change (existsb (str_eqb (lit "tui")) PROJECT_LOCAL_CONFIG_DENYLIST) with false. cbv iota.
    destruct (t_get (lit "tui") t) as [[| | | | | |tui]|] eqn:Et; try done.
    rewrite on_subtable_inside. cbn [fst].
    destruct (t_get (lit "keymap") tui) as [[| | | | | |km]|] eqn:Ek; try done.
    rewrite on_subtable_get, str_eqb_refl. cbn [fst].
    destruct (t_get (lit "chat") km) as [[| | | | | |ch]|] eqn:Ec; try done. cbn [mbind option_bind value_get].
    apply sanitize_chat_get; [|done]. eapply toml_ok_nodup, toml_ok_get; [|done]. eapply toml_ok_get; [|done].
    by eapply toml_ok_get.
Qed.

(** ** The layers of a project *)

(** A parsed file is a table with distinct keys, and so is a configuration
    that is written back. *)
Class ProjectLaws {PL : ProjectLib} : Prop := {
  toml_from_str_table : forall c v, toml_from_str c = Ok v -> exists t, v = TTable t /\ NoDup (keys t);
  resolved_config_table : forall v base r, resolved_config v base = Some (Ok r) -> is_table r = true }.

Lemma t_get_from_iter_none {A} k (l : list (str * A)) : k ∉ keys l -> k ∉ keys (t_from_iter l).
Proof.
  unfold t_from_iter. intros Hk. assert (k ∉ keys (@nil (str * A))) as H0 by apply not_elem_of_nil.
  revert H0. generalize (@nil (str * A)). induction l as [|[k' v] l IH]; intros acc H0; simpl; [done|].
  simpl in Hk. apply not_elem_of_cons in Hk as [Hne Hk]. apply IH; [done|].
  rewrite keys_insert_in. by intros [->|].
Qed.

Lemma normalized_absent k doc : absent k doc -> absent k (normalized_with_key_aliases doc []).
Proof.
  destruct doc as [| | | | | |t]; try done. intros Hk. simpl.
  rewrite normalize_key_aliases_for. apply t_get_from_iter_none. unfold keys. by rewrite map_map.
Qed.

(** A layer without a key says nothing about it. *)
Lemma absent_silent k p doc : absent k doc -> setting_at [] doc (k :: p) = None /\ overrides [] doc (k :: p) = false.
Proof.
  destruct doc as [| | | | | |t]; try done. intros Hk%t_get_none. simpl. by rewrite Hk.
Qed.

Lemma copy_shape_absent k original resolved : absent k original -> is_table resolved = true ->
  absent k (copy_shape_from_original original resolved).
Proof.
  destruct original as [| | | | | |t], resolved as [| | | | | |r]; try done. intros Hk _. simpl.
  apply t_get_from_iter_none. unfold keys. by rewrite map_map.
Qed.

Section loading.
Context {HP : HostParsers} {UC : UnicodeCase} {E : ConfigEncoding} {lib : UrlLib} {host : Host} {PL : ProjectLib}.
Context {laws : ProjectLaws} {S : Type} {FS : ExecutorFileSystem S PathUri} (fs : S).

Lemma resolve_absent k doc base r : absent k doc -> resolve_relative_paths_in_config_toml doc base = Ok r -> absent k r.
Proof.
  unfold resolve_relative_paths_in_config_toml. intros Hk.
  destruct (resolved_config doc base) as [[v|]|] eqn:Er; intros [= <-]; [|done].
  apply copy_shape_absent; [done|]. by eapply resolved_config_table.
Qed.

Lemma merge_hooks_absent k doc hooks trusted r : k <> lit "hooks" -> absent k doc ->
  merge_root_checkout_project_hooks fs doc hooks trusted = Ok r -> absent k r.
Proof.
  intros Hne Hk. unfold merge_root_checkout_project_hooks. destruct hooks as [folder|]; [|by intros [= <-]].
  destruct load_root_checkout_project_config as [rc|]; simpl; [|done].
  destruct resolve_relative_paths_in_config_toml as [rc'|]; simpl; [|done].
  destruct doc as [| | | | | |t]; try done. intros [= <-]. simpl.
  destruct (value_get (lit "hooks") rc'); [rewrite keys_insert_in; intros [->|H]; [done|]|intros H];
    by apply keys_remove_sub in H.
Qed.

(** What is known of a layer found in a directory. *)
Definition layer_of_dir (c : ProjectTrustContext) (dir : abs_path) (l : ConfigLayerEntry) : Prop :=
  layer_name l = Project (abs_join dir (lit ".codex"))
  /\ (is_disabled l = false <-> is_trusted (decision_for_dir c dir) = true)
  /\ forall k, k ∈ PROJECT_LOCAL_CONFIG_DENYLIST -> absent k (layer_config l).

Lemma disabled_reason_trusted c d : disabled_reason_for_decision c d = None <-> is_trusted d = true.
Proof.
  unfold disabled_reason_for_decision. destruct (is_trusted d); [done|]. by destruct (trust_level d) as [[]|].
Qed.

Lemma load_project_layer_name d l : load_project_layer fs d = Ok l ->
  layer_name l = Project (d_dot_codex_folder d) /\ (is_disabled l = false <-> d_disabled_reason d = None)
  /\ forall k, k <> lit "hooks" -> absent k (d_config d) -> absent k (layer_config l).
Proof.
  unfold load_project_layer. destruct resolve_relative_paths_in_config_toml as [v|] eqn:Er; simpl; [|done].
  destruct (if d_load_root_checkout_hooks d then _ else _) as [w|] eqn:Eh; simpl; [|done]. intros [= <-].
  unfold project_layer_entry. split; [by destruct (d_disabled_reason d)|]. split.
  - unfold is_disabled. by destruct (d_disabled_reason d).
  - intros k Hne Hk. assert (absent k w) as Hw.
    { assert (absent k v) as Hv by (by eapply resolve_absent).
      destruct (d_load_root_checkout_hooks d); [by eapply merge_hooks_absent|by injection Eh as <-]. }
    by destruct (d_disabled_reason d).
Qed.

Lemma denylist_not_hooks k : k ∈ PROJECT_LOCAL_CONFIG_DENYLIST -> k <> lit "hooks".
Proof.
  intros Hk. unfold PROJECT_LOCAL_CONFIG_DENYLIST in Hk.
  repeat (apply elem_of_cons in Hk as [->|Hk]; [done|]). by apply elem_of_nil in Hk.
Qed.

Lemma discover_dir_layer c home strict dir d w l : discover_dir fs c home strict dir = Ok (Some (d, w)) ->
  load_project_layer fs d = Ok l -> layer_of_dir c dir l.
Proof.
  intros Hd Hl. apply load_project_layer_name in Hl as (H1 & H2 & H3).
  assert (d_dot_codex_folder d = abs_join dir (lit ".codex")
    /\ d_disabled_reason d = disabled_reason_for_decision c (decision_for_dir c dir)
    /\ forall k, k ∈ PROJECT_LOCAL_CONFIG_DENYLIST -> absent k (d_config d)) as (D1 & D2 & D3).
  { revert Hd. unfold discover_dir. destruct (negb _); [done|]. destruct (_ || _); [done|].
    destruct read_file_text as [contents|err].
    - destruct (toml_from_str contents) as [config|e] eqn:Ec.
      + destruct (if _ && strict then _ else _) as [[]|]; simpl; [|done].
        destruct (sanitize_project_config config (credential_broker c) (credential_broker_binding_env c)) as [doc ignored] eqn:Es.
        intros [= <- _]. simpl. split; [done|]. split; [done|]. intros k Hk.
        replace doc with (fst (sanitize_project_config config (credential_broker c) (credential_broker_binding_env c)))
          by (by rewrite Es).
        apply sanitized_absent; [by eapply toml_from_str_table|done].
      + destruct (is_trusted _); [done|]. intros [= <- _]. repeat split. intros k _. apply not_elem_of_nil.
    - case_bool_decide; [|done]. intros [= <- _]. repeat split. intros k _. apply not_elem_of_nil. }
  split; [by rewrite H1, D1|]. split.
  - by rewrite H2, D2, disabled_reason_trusted.
  - intros k Hk. apply H3; [by apply denylist_not_hooks|by apply D3].
Qed.

(** The layers come from the directories, in their order, some skipped. *)
Lemma load_dirs_layers c home strict dirs : forall ds ws ls,
  discover_dirs fs c home strict dirs = Ok (ds, ws) -> load_all fs ds = Ok ls ->
  exists chosen, chosen `sublist_of` dirs /\ Forall2 (layer_of_dir c) chosen ls.
Proof.
  induction dirs as [|dir dirs IH]; intros ds ws ls; simpl.
  { intros [= <- <-] [= <-]. exists []. split; constructor. }
  destruct (discover_dir fs c home strict dir) as [found|] eqn:Ed; simpl; [|done].
  destruct (discover_dirs fs c home strict dirs) as [[ds' ws']|] eqn:Er; simpl; [|done].
  destruct found as [[d w]|]; intros [= <- <-].
  - simpl. destruct (load_project_layer fs d) as [l|] eqn:El; simpl; [|done].
    destruct (load_all fs ds') as [ls'|] eqn:Ea; simpl; [|done]. intros [= <-].
    destruct (IH _ _ _ eq_refl Ea) as (chosen & Hc & Hf). exists (dir :: chosen).
    split; [by constructor|]. constructor; [by eapply discover_dir_layer|done].
  - intros Ha. destruct (IH _ _ _ eq_refl Ha) as (chosen & Hc & Hf). exists chosen. split; [by constructor|done].
Qed.

End loading.

(** *** From root to current directory *)

Lemma elem_of_project_ancestors a p : a ∈ ancestors p <-> a `prefix_of` p.
Proof.
  unfold ancestors. rewrite list_elem_of_In, in_map_iff. split.
  - intros (n & <- & _). apply prefix_take.
  - intros [s ->]. exists (length a). rewrite take_app_length. split; [done|].
    rewrite <- in_rev. apply in_seq. rewrite length_app. lia.
Qed.

Definition strictly_below (a b : abs_path) : Prop := a `prefix_of` b /\ a <> b.

Lemma ancestors_snoc q x : ancestors (q ++ [x]) = (q ++ [x]) :: ancestors q.
Proof.
  unfold ancestors. rewrite length_app, Nat.add_1_r, (seq_S (S (length q))), rev_app_distr. simpl rev at 1. simpl app.
  cbn [map]. rewrite take_ge by (rewrite length_app; simpl; lia). f_equal.
  apply map_ext_in. intros n Hn. rewrite <- in_rev in Hn. apply in_seq in Hn. rewrite take_app_le; [done|lia].
Qed.

Lemma ancestors_sorted p : StronglySorted (flip strictly_below) (ancestors p).
Proof.
  induction p as [|x q IH] using rev_ind; [repeat constructor|]. rewrite ancestors_snoc. constructor; [done|].
  apply Forall_forall. intros a Ha%elem_of_project_ancestors. split; [by apply prefix_app_r|].
  intros ->. apply prefix_length in Ha. rewrite length_app in Ha. simpl in Ha. lia.
Qed.

Lemma strongly_sorted_rev {A} (R : A -> A -> Prop) l : StronglySorted (flip R) l -> StronglySorted R (rev l).
Proof.
  induction 1 as [|x l Hs IH Hf]; simpl; [constructor|]. apply StronglySorted_app_2; [|done|repeat constructor].
  intros a b Ha Hb. apply list_elem_of_singleton in Hb as ->. rewrite Forall_forall in Hf. apply Hf.
  rewrite list_elem_of_In, <- in_rev in Ha. by apply list_elem_of_In.
Qed.

Lemma strongly_sorted_sublist {A} (R : A -> A -> Prop) l k : l `sublist_of` k -> StronglySorted R k -> StronglySorted R l.
Proof.
  induction 1 as [|x l k H IH|x l k H IH]; intros Hs; [done|..]; apply StronglySorted_inv in Hs as [Hs Hf]; [|auto].
  constructor; [auto|]. rewrite Forall_forall in *. intros y Hy. apply Hf. by eapply elem_of_submseteq, sublist_submseteq.
Qed.

Lemma take_until_sublist root dirs : take_until root dirs `sublist_of` dirs.
Proof. induction dirs as [|a dirs IH]; simpl; [constructor|]. case_bool_decide; constructor; [apply sublist_nil_l|done]. Qed.

Lemma project_dirs_sorted cwd root : StronglySorted strictly_below (project_dirs cwd root)
  /\ Forall (fun d => d `prefix_of` cwd) (project_dirs cwd root).
Proof.
  pose proof (take_until_sublist root (ancestors cwd)) as Hs. split.
  - apply strongly_sorted_rev. by eapply strongly_sorted_sublist, ancestors_sorted.
  - apply Forall_forall. intros d Hd. unfold project_dirs in Hd.
    rewrite list_elem_of_In, <- in_rev, <- list_elem_of_In in Hd. apply elem_of_project_ancestors.
    by eapply elem_of_submseteq, sublist_submseteq.
Qed.

(** Layers of directories that lie below each other pass the order check. *)
Lemma verify_dirs {host : Host} c dirs ls : StronglySorted strictly_below dirs -> Forall plain_path dirs ->
  Forall2 (layer_of_dir c) dirs ls -> forall previous,
  (match previous with
   | Some prev => exists d, plain_path d /\ prev = d ++ [lit ".codex"] /\ Forall (strictly_below d) dirs
   | None => True
   end) -> verify_project_layers previous ls = Ok tt.
Proof.
  intros Hs Hp Hf. revert Hs Hp. induction Hf as [|dir l dirs ls Hl Hf IH]; intros Hs Hp previous Hprev; simpl; [done|].
  apply StronglySorted_inv in Hs as [Hs Hall]. apply Forall_cons in Hp as [Hpd Hp].
  destruct Hl as [-> _].
  assert (abs_join dir (lit ".codex") = dir ++ [lit ".codex"]) as Hj.
  { apply abs_join_protected; [done|]. right. right. by left. }
  rewrite Hj. assert (verify_project_layers (Some (dir ++ [lit ".codex"])) ls = Ok tt) as Hrest.
  { apply IH; [done..|]. exists dir. by repeat split. }
  destruct previous as [prev|]; [|done]. destruct Hprev as (d & Hd & -> & Hb).
  apply Forall_cons in Hb as [[Hpre Hne] _].
  unfold abs_parent. rewrite is_nil_snoc, removelast_last.
  rewrite bool_decide_false by (intros H; apply app_inv_tail in H; done). simpl.
  replace (existsb (fun a => bool_decide (a = d)) (ancestors (dir ++ [lit ".codex"]))) with true; [done|].
  symmetry. apply existsb_exists. exists d. split; [|by apply bool_decide_eq_true].
  apply list_elem_of_In, elem_of_project_ancestors. by apply prefix_app_r.
Qed.

Lemma deciding_layer_skip {HP : HostParsers} {UC : UnicodeCase} ls p : Forall layer_doc_ok ls ->
  (forall l, l ∈ ls -> is_project_layer l = true ->
     setting_at [] (normalized_with_key_aliases (layer_config l) []) p = None
     /\ overrides [] (normalized_with_key_aliases (layer_config l) []) p = false) ->
  deciding_layer ls p = deciding_layer (List.filter (fun l => negb (is_project_layer l)) ls) p.
Proof.
  induction ls as [|l ls IH]; intros Hok H; simpl; [done|]. apply Forall_cons in Hok as [_ Hok].
  assert (deciding_layer ls p = deciding_layer (List.filter (fun l => negb (is_project_layer l)) ls) p) as IH'.
  { apply IH; [done|]. intros l' Hl'. apply H. by right. }
  destruct (is_project_layer l) eqn:Ep; simpl.
  - destruct (H l) as [-> ->]; [by left|done|]. done.
  - destruct setting_at; [done|]. by destruct overrides.
Qed.

(** C38: what a repository can and cannot configure.  The loaded project layers
    come from the directories between the project root and the current one, in
    that order (so they pass the order check of the stack); a layer is enabled
    exactly when its directory is trusted; and in every stack that has them as
    its project layers, the effective value of each denylisted key is the one
    that the other layers give it: project files can neither set nor displace
    it. *)
Theorem project_layers_confined {HP : HostParsers} {UC : UnicodeCase} {E : ConfigEncoding} {lib : UrlLib} {host : Host}
    {PL : ProjectLib} {laws : ProjectLaws} {S : Type} {FS : ExecutorFileSystem S PathUri} (fs : S) {R RT : Type}
    (s : ConfigLayerStack R RT) cwd root c home strict ls ws :
  plain_path cwd ->
  load_project_layers fs cwd root c home strict = Ok (ls, ws) ->
  List.filter is_project_layer (layers s) = ls ->
  Forall layer_doc_ok (layers_low_to_high s) ->
  verify_project_layers None ls = Ok tt
  /\ (exists dirs, dirs `sublist_of` project_dirs cwd root
      /\ Forall2 (fun dir l => layer_name l = Project (dir ++ [lit ".codex"])
           /\ (is_disabled l = false <-> is_trusted (decision_for_dir c dir) = true)) dirs ls)
  /\ forall k p, k ∈ PROJECT_LOCAL_CONFIG_DENYLIST ->
     setting_at [] (effective_config s) (k :: p) =
     setting_at [] (merge_layers (List.filter (fun l => negb (is_project_layer l)) (layers_low_to_high s))) (k :: p).
Proof.
  intros Hcwd Hload Hls Hok. unfold load_project_layers, discover_project_layers in Hload.
  destruct (discover_dirs fs c home strict (project_dirs cwd root)) as [[ds dws]|] eqn:Ed; simpl in Hload; [|done].
  destruct (load_all fs ds) as [ls'|] eqn:Ea; simpl in Hload; [|done]. injection Hload as -> ->.
  destruct (load_dirs_layers fs c home strict _ _ _ _ Ed Ea) as (dirs & Hsub & Hf).
  destruct (project_dirs_sorted cwd root) as [Hsorted Hpre].
  assert (Forall plain_path dirs) as Hplain.
  { apply Forall_forall. intros d Hd. rewrite Forall_forall in Hpre.
    destruct (Hpre d) as [x ->]; [by eapply elem_of_submseteq, sublist_submseteq|]. by apply Forall_app in Hcwd as [Hcwd _]. }
  pose proof (strongly_sorted_sublist _ _ _ Hsub Hsorted) as Hss.
  split; [by apply (verify_dirs c dirs ls Hss Hplain Hf None)|]. split.
  { exists dirs. split; [done|]. clear -Hf Hplain. induction Hf as [|d l dirs ls (H1 & H2 & _) _ IH]; constructor.
    - apply Forall_cons in Hplain as [Hd _]. rewrite H1, abs_join_protected; [done|done|]. right. right. by left.
    - apply Forall_cons in Hplain as [_ Hp]. by apply IH. }
  intros k p Hk. unfold effective_config.
  assert (forall l, l ∈ layers_low_to_high s -> is_project_layer l = true -> absent k (layer_config l)) as Habs.
  { intros l Hl Hp. assert (l ∈ ls) as Hin.
    { rewrite <- Hls. apply list_elem_of_In, filter_In. split; [|done].
      apply list_elem_of_In, filter_In in Hl as [Hl _]. done. }
    apply list_elem_of_lookup in Hin as [i Hi]. destruct (Forall2_lookup_r _ _ _ _ _ Hf Hi) as (d & _ & _ & _ & Ha). by apply Ha. }
  assert (Forall layer_doc_ok (List.filter (fun l => negb (is_project_layer l)) (layers_low_to_high s))) as Hok'.
  { apply Forall_forall. intros l [Hl _]%list_elem_of_In%filter_In. rewrite Forall_forall in Hok. by apply Hok, list_elem_of_In. }
  rewrite !merge_layers_deciding by done. rewrite <- filter_rev. f_equal. apply deciding_layer_skip.
  - apply Forall_forall. intros l Hl. rewrite Forall_forall in Hok. apply Hok.
    by rewrite list_elem_of_In, <- in_rev, <- list_elem_of_In in Hl.
  - intros l Hl Hp. apply absent_silent, normalized_absent, Habs; [|done].
    by rewrite list_elem_of_In, <- in_rev, <- list_elem_of_In in Hl.
Qed.

(** ** A repository that asks for too much *)

Section examples.
#[local] Existing Instances plain_hosts ascii_case ex_encoding Percent.percent_lib example_host.

Definition ex_repo_doc : TomlValue :=
  TTable [ (lit "model", TString (lit "repo"));
           (lit "notify", TArray [TString (lit "curl")]);
           (lit "features", TTable [(lit "respect_system_proxy", TBoolean true); (lit "apps", TBoolean true)]);
           (lit "tui", TTable [(lit "keymap", TTable [(lit "chat", TTable [(lit "next_permission_mode", TString (lit "a"))])])]) ].

Definition ex_project_lib : ProjectLib :=
  {| toml_from_str := fun c => if str_eqb c (lit "doc") then Ok ex_repo_doc else Err (lit "syntax error");
     resolved_config := fun _ _ => None;
     validate_strictly := fun _ _ _ _ => Ok tt;
     projects_config := fun _ _ => Ok [];
     env_var := fun _ => None;
     pattern_matches := str_eqb |}.
#[local] Existing Instance ex_project_lib.

Lemma ex_project_laws : ProjectLaws.
Proof.
  split; [|done]. intros c v. simpl. destruct (str_eqb c (lit "doc")); [|done]. intros [= <-].
  eexists. split; [done|]. apply (bool_decide_unpack _). vm_compute. reflexivity.
Qed.

Lemma sanitized_config_is_safe_witness :
  let doc := fst (sanitize_project_config ex_repo_doc Unconfigured []) in
  absent (lit "notify") doc
  /\ (value_get (lit "features") doc ≫= value_get (lit "respect_system_proxy")) = None
  /\ (value_get (lit "features") doc ≫= value_get (lit "apps")) = Some (TBoolean true)
  /\ (((value_get (lit "tui") doc ≫= value_get (lit "keymap")) ≫= value_get (lit "chat"))
        ≫= value_get (lit "next_permission_mode")) = None.
Proof.
  destruct (sanitized_config_is_safe ex_repo_doc Unconfigured []) as (H1 & H2 & _ & H4);
    [reflexivity|vm_compute; reflexivity|].
  split; [apply H1; do 6 right; left|]. split; [exact H2|]. split; [vm_compute; reflexivity|].
  apply H4. right. reflexivity.
Defined.

(** [/w] is a trusted project with a [.codex] folder. *)
Definition ex_fs : ExecutorFileSystem unit PathUri :=
  {| get_metadata := fun _ uri _ =>
       match to_abs_path uri with
       | Some p => if bool_decide (p = [lit "w"; lit ".codex"])
                   then Ok {| is_directory := true; is_file := false; is_symlink := false |}
                   else Err (mkIoError NotFound [])
       | None => Err (mkIoError NotFound [])
       end;
     read_file_text := fun _ uri _ =>
       match to_abs_path uri with
       | Some p => if bool_decide (p = [lit "w"; lit ".codex"; lit "config.toml"]) then Ok (lit "doc")
                   else Err (mkIoError NotFound [])
       | None => Err (mkIoError NotFound [])
       end;
     write_file := fun s _ _ _ => (s, Err (mkIoError OtherKind []));
     create_directory_recursive := fun s _ _ => (s, Err (mkIoError OtherKind []));
     remove := fun s _ _ => (s, Err (mkIoError OtherKind [])) |}.
#[local] Existing Instance ex_fs.

Definition ex_trust : ProjectTrustContext :=
  mkTrustContext [lit "w"] (lit "/w") [lit "/w"] None None None None {[lit "/w" := Trusted]}
    [lit "home"; lit "config.toml"] Unconfigured [].

Definition ex_user_layer : ConfigLayerEntry :=
  layer_new (User [lit "home"; lit "config.toml"] None)
    (TTable [(lit "notify", TString (lit "mine")); (lit "model", TString (lit "mine"))]).

Lemma project_layers_confined_witness :
  exists ls ws (s : ConfigLayerStack unit unit),
    load_project_layers tt [lit "w"; lit "sub"] [lit "w"] ex_trust [lit "home"] false = Ok (ls, ws)
    /\ layers s = ex_user_layer :: ls /\ length ls = 1
    /\ setting_at [] (effective_config s) [lit "notify"] = Some (TString (lit "mine"))
    /\ setting_at [] (effective_config s) [lit "model"] = Some (TString (lit "repo")).
Proof.
  destruct (load_project_layers tt [lit "w"; lit "sub"] [lit "w"] ex_trust [lit "home"] false) as [[ls ws]|] eqn:El;
    [|vm_compute in El; discriminate El].
  pose (s := mkStack (ex_user_layer :: ls) tt tt false None : ConfigLayerStack unit unit).
  assert (ls = [project_layer_entry [lit "w"; lit ".codex"]
      (fst (sanitize_project_config ex_repo_doc Unconfigured [])) None None]) as Hls
    by (vm_compute in El; injection El as <- _; vm_compute; reflexivity).
  exists ls, ws, s. split; [reflexivity|]. split; [reflexivity|]. split; [rewrite Hls; reflexivity|].
  destruct (@project_layers_confined _ _ _ _ _ _ ex_project_laws _ _ tt _ _ s
    [lit "w"; lit "sub"] [lit "w"] ex_trust [lit "home"] false ls ws) as (_ & _ & H).
  - repeat constructor.
  - exact El.
  - unfold s. rewrite Hls. reflexivity.
  - unfold s. rewrite Hls. repeat constructor.
  - split.
    + rewrite H; [|do 6 right; left]. unfold s. rewrite Hls. vm_compute. reflexivity.
    + unfold s. rewrite Hls. vm_compute. reflexivity.
Defined.

End examples.
