(* ===== verification/ConfigEdits.v ===== *)
(** * Writing the user configuration

    app-server/src/config_manager_service.rs: a client edits settings by key
    path; the edits are checked against managed requirements, applied to the
    user layer, validated alone and merged with the other layers, persisted, and
    the response says whether a higher layer still overrides them.

    The store [W] stands for the files; loading the layers, creating an empty
    user file and persisting edits are operations on it (class
    [ConfigService]), like the typed validation of a document and the reading of
    JSON values.  Of the requirements only the managed fields are used. *)

From S2P Require Import Prelude RustStr NetworkPolicy AbsolutePath PathUri FileSystem ConfigToml ConfigLayers.
From Stdlib Require Import SpecFloat.

(** ** Key paths *)

Definition ch_backslash : char := 92%N.

(** The loop over the characters: the finished segments, the current one and
    whether it is quoted. *)
Fixpoint parse_key_path_loop (chars : str) (segments : list str) (segment : str) (quoted : bool)
    : result (list str) str :=
  match chars with
  | [] =>
      if quoted then Err (lit "unterminated quoted keyPath segment")
      else if is_nil segment then Err (lit "keyPath segments must not be empty")
      else Ok (segments ++ [segment])
  | ch :: chars =>
      if (ch =? ch_dquote)%N && is_nil segment && negb quoted then parse_key_path_loop chars segments segment true
      else if (ch =? ch_dquote)%N && quoted then parse_key_path_loop chars segments segment false
      else if (ch =? ch_backslash)%N && quoted then
        match chars with
        | [] => Err (lit "unterminated escape in keyPath")
        | escaped :: chars => parse_key_path_loop chars segments (segment ++ [escaped]) quoted
        end
      else if (ch =? ch_dot)%N && negb quoted then
        if is_nil segment then Err (lit "keyPath segments must not be empty")
        else parse_key_path_loop chars (segments ++ [segment]) [] quoted
      else if (ch =? ch_dquote)%N then Err (lit "invalid quoted keyPath segment")
      else parse_key_path_loop chars segments (segment ++ [ch]) quoted
  end.

Definition parse_key_path (path : str) : result (list str) str :=
  if is_nil (trim path) then Err (lit "keyPath must not be empty") else parse_key_path_loop path [] [] false.

(** ** Reading documents *)

(** [segment.parse::<i64>()] *)
Definition parse_digits (s : str) : option N :=
  if is_nil s || negb (forallb is_ascii_digit s) then None
  else Some (fold_left (fun n c => (n * 10 + (c - 48))%N) s 0%N).

Definition parse_i64 (s : str) : option Z :=
  match s with
  | c :: rest =>
      if (c =? ch_minus)%N then
        n ← parse_digits rest; if (n <=? 9223372036854775808)%N then Some (- Z.of_N n)%Z else None
      else
        n ← parse_digits (if (c =? ch_plus)%N then rest else s);
        if (n <=? 9223372036854775807)%N then Some (Z.of_N n) else None
  | [] => None
  end.

Fixpoint value_at_path (current : TomlValue) (segments : list str) : option TomlValue :=
  match segments with
  | [] => Some current
  | segment :: rest =>
      match current with
      | TTable t => v ← t_get segment t; value_at_path v rest
      | TArray items =>
          idx ← parse_i64 segment;
          if (idx <? 0)%Z then None else v ← items !! Z.to_nat idx; value_at_path v rest
      | _ => None
      end
  end.

Definition structured_feature_depth (segments : list str) : option nat :=
  let depth :=
    match segments with
    | profiles :: _ :: _ :: _ :: _ => if str_eqb profiles (lit "profiles") then Some 4 else Some 2
    | _ :: _ :: _ => Some 2
    | _ => None
    end in
  d ← depth; if is_structured_feature_path (take d segments) then Some d else None.

Definition split_last {A} (l : list A) : option (A * list A) :=
  match last l with Some x => Some (x, removelast l) | None => None end.

Section reading.
Context {HP : HostParsers} {UC : UnicodeCase}.

(** The lookup of a key without regard to case exists on Windows only. *)
Definition value_at_semantic_path (root : TomlValue) (segments : list str) : option TomlValue :=
  match shell_environment_filter_entry root segments with
  | Some (_, value) => Some value
  | None =>
      match value_at_path root segments with
      | Some value => Some value
      | None =>
          '(field, parents) ← split_last segments;
          if negb (str_eqb field (lit "enabled")) then None
          else if negb (bool_decide (structured_feature_depth parents = Some (length parents))) then None
          else feature ← value_at_path root parents; if is_bool feature then Some feature else None
      end
  end.

(** ** Editing documents *)

Inductive MergeStrategy := Replace | Upsert.

Definition shell_environment_policy_representation_switch (root : TomlValue) (segments : list str) (value : TomlValue) : bool :=
  match value_get (lit "shell_environment_policy") root ≫= from_policy, from_edit segments value with
  | Some Filters, Some Legacy | Some Legacy, Some Filters => true
  | _, _ => false
  end.

(** Removes the last segment below its parents; unchanged when a parent is
    missing or no table. *)
Fixpoint clear_at (current : TomlValue) (parents : list str) (last : str) : TomlValue :=
  match parents with
  | [] => match current with TTable t => TTable (t_remove last t) | _ => current end
  | segment :: rest =>
      match current with
      | TTable t =>
          match t_get segment t with
          | Some next => TTable (t_insert segment (clear_at next rest last) t)
          | None => current
          end
      | _ => current
      end
  end.

Definition clear_path (root : TomlValue) (segments : list str) : result TomlValue str :=
  match split_last segments with
  | None => Err (lit "keyPath must not be empty")
  | Some (last, parents) => Ok (clear_at root parents last)
  end.

(** Walks to the parent table, creating tables on the way, and inserts. *)
Fixpoint set_at (current : TomlValue) (parents : list str) (last : str) (value : TomlValue) : result TomlValue str :=
  match parents with
  | [] =>
      match current with
      | TTable t => Ok (TTable (t_insert last value t))
      | _ => Err (lit "cannot set value on non-table parent")
      end
  | segment :: rest =>
      let t := match current with TTable t => t | _ => [] end in
      let t := t_or_insert segment (TTable []) t in
      let? next := set_at (default (TTable []) (t_get segment t)) rest last value in
      Ok (TTable (t_insert segment next t))
  end.

Definition preserves_structured_feature_config (root : TomlValue) (segments : list str) (value : TomlValue) : bool :=
  match structured_feature_depth segments with
  | None => false
  | Some depth =>
      match value_at_path root (take depth segments) with
      | Some (TBoolean _) => (depth <? length segments) || is_table value
      | Some (TTable _) => (length segments =? depth) && is_bool value
      | _ => false
      end
  end.

Definition apply_merge (root : TomlValue) (segments : list str) (value : option TomlValue) (strategy : MergeStrategy)
    : result TomlValue str :=
  match value with
  | None => clear_path root segments
  | Some value =>
      match split_last segments with
      | None => Err (lit "keyPath must not be empty")
      | Some (last, parents) =>
          if preserves_structured_feature_config root segments value
             || match strategy with
                | Upsert =>
                    shell_environment_policy_representation_switch root segments value
                    || (is_some_and is_table (value_at_path root segments) && is_table value)
                | Replace => false
                end
          then Ok (merge_toml_values root (sparse_overlay segments value))
          else set_at root parents last value
      end
  end.

End reading.

(** [TomlValue]'s [PartialEq]: tables regardless of order. *)
Fixpoint toml_eqb (a b : TomlValue) {struct a} : bool :=
  match a, b with
  | TString s, TString s' => str_eqb s s'
  | TInteger n, TInteger n' => (n =? n')%Z
  | TFloat f, TFloat f' => SFeqb f f'
  | TBoolean x, TBoolean x' => Bool.eqb x x'
  | TDatetime d, TDatetime d' => str_eqb d d'
  | TArray items, TArray items' =>
      (fix eq_items l l' :=
         match l, l' with
         | [], [] => true
         | x :: l, y :: l' => toml_eqb x y && eq_items l l'
         | _, _ => false
         end) items items'
  | TTable t, TTable t' =>
      (length t =? length t')
      && forallb (fun e => match t_get (fst e) t' with Some w => toml_eqb (snd e) w | None => false end) t
  | _, _ => false
  end.

Definition opt_toml_eqb (a b : option TomlValue) : bool :=
  match a, b with Some a, Some b => toml_eqb a b | None, None => true | _, _ => false end.

(** ** Managed fields *)

(** The fields of the requirements that fix a setting exactly. *)
Record ManagedFields := mkManaged {
  sqlite_home : bool; log_dir : bool; model_catalog_json : bool; check_for_update_on_startup : bool;
  allow_login_shell : bool; feedback_enabled : bool; sandbox_private_desktop : bool;
  cli_auth_credentials_store : bool; chatgpt_base_url : bool }.

Definition managed_paths (m : ManagedFields) : list (bool * list str * str) :=
  [ (sqlite_home m, [lit "sqlite_home"], lit "sqlite_home");
    (log_dir m, [lit "log_dir"], lit "log_dir");
    (model_catalog_json m, [lit "model_catalog_json"], lit "model_catalog_json");
    (check_for_update_on_startup m, [lit "check_for_update_on_startup"], lit "check_for_update_on_startup");
    (allow_login_shell m, [lit "allow_login_shell"], lit "allow_login_shell");
    (feedback_enabled m, [lit "feedback"; lit "enabled"], lit "feedback.enabled");
    (sandbox_private_desktop m, [lit "windows"; lit "sandbox_private_desktop"], lit "windows.sandbox_private_desktop");
    (cli_auth_credentials_store m, [lit "cli_auth_credentials_store"], lit "cli_auth_credentials_store");
    (chatgpt_base_url m, [lit "chatgpt_base_url"], lit "chatgpt_base_url") ].

Fixpoint config_paths_overlap (segments managed_path : list str) : bool :=
  match segments, managed_path with
  | segment :: segments, managed :: managed_path => str_eqb segment managed && config_paths_overlap segments managed_path
  | _, _ => true
  end.

Definition exact_requirement_for_config_path (m : ManagedFields) (segments : list str) : option str :=
  find_map (fun '(is_managed, path, field) =>
    if is_managed && config_paths_overlap segments path then Some field else None) (managed_paths m).

(** ** The service *)

Inductive ConfigWriteErrorCode :=
| ConfigLayerReadonly | ConfigRequirementReadonly | ConfigVersionConflict | ConfigValidationError
| ConfigPathNotFound | ConfigSchemaUnknownKey | UserLayerNotFound.

Inductive ConfigManagerError :=
| WriteError (code : ConfigWriteErrorCode) (message : str)
| IoFailure (context : str) (source : io_error)
| TomlFailure (context source : str)
| AnyhowFailure (context source : str).

Inductive WriteStatus := WriteOk | OkOverridden.

Record OverriddenMetadata := mkOverridden {
  om_message : str; overriding_layer : ConfigLayerMetadata; effective_value : JsonValue }.

Record ConfigWriteResponse := mkResponse {
  status : WriteStatus; version : str; file_path : abs_path; overridden_metadata : option OverriddenMetadata }.

(** The edits handed to the persistence layer, with the value at a path. *)
Inductive ConfigEdit :=
| SetPath (segments : list str) (value : TomlValue)
| ClearPath (segments : list str).

Definition override_message (layer : ConfigLayerSource) : str :=
  match layer with
  | PackagedDefaults file => lit "Overridden by packaged defaults: " ++ abs_text file
  | Mdm domain _ => lit "Overridden by managed policy (MDM): " ++ domain
  | System file => lit "Overridden by managed config (system): " ++ abs_text file
  | EnterpriseManaged _ name => lit "Overridden by enterprise-managed config: " ++ name
  | Project dot_codex_folder => lit "Overridden by project config: " ++ abs_text dot_codex_folder ++ lit "/" ++ CONFIG_TOML_FILE
  | SessionFlags => lit "Overridden by session flags"
  | User file _ => lit "Overridden by user config: " ++ abs_text file
  | LegacyManagedConfigTomlFromFile file => lit "Overridden by legacy managed_config.toml: " ++ abs_text file
  | LegacyManagedConfigTomlFromMdm => lit "Overridden by legacy managed configuration from MDM"
  end.

Section overrides.
Context {HP : HostParsers} {UC : UnicodeCase} {E : ConfigEncoding} {R : Type}.
Notation Stack := (ConfigLayerStack R ManagedFields).

(** The test of one layer: it has a value there, or the other form of the
    filters that the path addresses. *)
Definition layer_claims (segments : list str) (layer : ConfigLayerEntry) : bool :=
  match value_at_semantic_path (layer_config layer) segments with
  | Some _ => true
  | None =>
      match value_get (lit "shell_environment_policy") (layer_config layer) ≫= from_policy, from_path segments with
      | Some Filters, Some Legacy | Some Legacy, Some Filters => true
      | _, _ => false
      end
  end.

Definition find_effective_layer (layers : Stack) (segments : list str) : option ConfigLayerMetadata :=
  metadata <$> List.find (layer_claims segments) (layers_high_to_low layers).

Definition compute_override_metadata (layers : Stack) (effective : TomlValue) (segments : list str)
    : option OverriddenMetadata :=
  user_layer ← get_active_user_layer layers;
  let user_value := value_at_semantic_path (layer_config user_layer) segments in
  let effective_value := value_at_semantic_path effective segments in
  match user_value, effective_value with
  | None, None => None
  | _, _ =>
      if opt_toml_eqb user_value effective_value then None
      else
        overriding_layer ← find_effective_layer layers segments;
        if (precedence (meta_name overriding_layer) <=? precedence (layer_name user_layer))%Z then None
        else Some (mkOverridden (override_message (meta_name overriding_layer)) overriding_layer
                     (default JNull (effective_value ≫= toml_to_json)))
  end.

Definition first_overridden_edit (layers : Stack) (effective : TomlValue) (edits : list (list str))
    : option OverriddenMetadata :=
  find_map (compute_override_metadata layers effective) edits.

End overrides.

(** What the service calls. *)
Class ConfigService (W R : Type) := {
  user_config_path : result abs_path io_error;
  (** [AbsolutePathBuf::from_absolute_path] *)
  absolute_path : str -> result abs_path io_error;
  paths_match : abs_path -> abs_path -> bool;
  load_thread_agnostic_config : W -> result (ConfigLayerStack R ManagedFields) io_error;
  create_empty_user_layer : W -> abs_path -> W * result ConfigLayerEntry ConfigManagerError;
  json_to_toml : JsonValue -> result TomlValue str;
  (** reading a document as [ConfigToml]: whether [approval_policy] is the
      unsupported [untrusted] *)
  config_approval_untrusted : TomlValue -> result bool str;
  (** [deserialize_config_toml_with_base] and the feature requirements *)
  validate_features : TomlValue -> R -> result unit str;
  persist_edits : W -> abs_path -> list ConfigEdit -> W * result unit str }.

Section service.
Context {HP : HostParsers} {UC : UnicodeCase} {FD : FilterDecoding} {E : ConfigEncoding}.
Context {W R : Type} {SV : ConfigService W R}.
Notation Stack := (ConfigLayerStack R ManagedFields).

Definition validation_error {A} (message : str) : result A ConfigManagerError :=
  Err (WriteError ConfigValidationError message).

Definition invalid_configuration (err : str) : ConfigManagerError :=
  WriteError ConfigValidationError (lit "Invalid configuration: " ++ err).

Definition validate_config (value : TomlValue) : result unit str :=
  let? untrusted := config_approval_untrusted value in
  if untrusted then Err (lit "approval_policy = " ++ [ch_dquote] ++ lit "untrusted" ++ [ch_dquote]
                         ++ lit " is no longer supported; remove this setting")
  else Ok tt.

Definition parse_value (value : JsonValue) : result (option TomlValue) str :=
  match value with
  | JNull => Ok None
  | _ => match json_to_toml value with Ok v => Ok (Some v) | Err e => Err (lit "invalid value: " ++ e) end
  end.

Definition is_null (value : JsonValue) : bool := match value with JNull => true | _ => false end.

Definition has_broker_settings (segments : list str) (config : TomlValue) : bool :=
  match value_at_path config segments ≫= as_table with
  | Some feature => t_contains_key (lit "credential_broker") feature
  | None => false
  end.

(** The checks on the path of an edit. *)
Definition edit_path_allowed (segments : list str) (value : JsonValue) : result unit ConfigManagerError :=
  if is_null value then Ok tt
  else match segments with
       | [segment] =>
           if str_eqb segment (lit "profile") then
             validation_error (lit "`profile` is a legacy config selector and can no longer be written; use `--profile <name>` with `<name>.config.toml` instead")
           else if str_eqb segment (lit "profiles") then
             validation_error (lit "`profiles` contains legacy config profile tables and can no longer be written; use `--profile <name>` with `<name>.config.toml` instead")
           else Ok tt
       | segment :: _ =>
           if str_eqb segment (lit "profiles") then
             validation_error (lit "`profiles` contains legacy config profile tables and can no longer be written; use `--profile <name>` with `<name>.config.toml` instead")
           else Ok tt
       | [] => Ok tt
       end.

(** The segments of an edit, with a filter pattern in its stored spelling. *)
Definition edit_segments (user_config : TomlValue) (segments : list str) (value : JsonValue) (strategy : MergeStrategy)
    : list str :=
  if is_null value || match strategy with Upsert => true | Replace => false end then
    match shell_environment_filter_entry user_config segments with
    | Some (pattern, _) => <[2 := pattern]> segments
    | None => segments
    end
  else segments.

Definition is_upsert (s : MergeStrategy) : bool := match s with Upsert => true | Replace => false end.

(** One edit: the new user document, the segments to report and the edit to
    persist, if the value changed. *)
Definition apply_edit (layers : Stack) (user_layer : ConfigLayerEntry) (user_config : TomlValue)
    (edit : str * JsonValue * MergeStrategy) : result (TomlValue * list str * option ConfigEdit) ConfigManagerError :=
  let '(key_path, value, strategy) := edit in
  let? segments := match parse_key_path key_path with Ok s => Ok s | Err m => validation_error m end in
  match exact_requirement_for_config_path (requirements_toml layers) segments with
  | Some field =>
      Err (WriteError ConfigRequirementReadonly (lit "`" ++ field ++ lit "` is managed by requirements and cannot be changed"))
  | None =>
      let segments := edit_segments user_config segments value strategy in
      let? _ := edit_path_allowed segments value in
      let preserves_network_proxy_settings :=
        is_null value && is_structured_feature_path segments
        && is_some_and (fun feature => str_eqb feature (lit "network_proxy")) (last segments)
        && (has_broker_settings segments user_config
            || negb (has_broker_settings segments (layer_config user_layer))
               && has_broker_settings segments (effective_config layers)) in
      let? parsed_value :=
        if preserves_network_proxy_settings then Ok (Some (TBoolean false))
        else match parse_value value with Ok v => Ok v | Err m => validation_error m end in
      let? _ :=
        match parsed_value, segments with
        | Some value, policy :: _ =>
            if is_upsert strategy && str_eqb policy (lit "shell_environment_policy") then
              match validate_shell_environment_policy_filter_config (sparse_overlay segments value) with
              | Ok _ => Ok tt
              | Err err => Err (invalid_configuration (display_de_error err))
              end
            else Ok tt
        | _, _ => Ok tt
        end in
      let persist_segments :=
        if is_upsert strategy
           && is_some_and (shell_environment_policy_representation_switch user_config segments) parsed_value
        then [lit "shell_environment_policy"] else segments in
      let original_value := value_at_path user_config persist_segments in
      let structured_feature_toggle :=
        preserves_network_proxy_settings
        || is_structured_feature_path segments
           && is_some_and (fun value =>
                is_bool value
                || is_upsert strategy
                   && is_some_and (fun t => (length t =? 1) && t_contains_key (lit "enabled") t) (as_table value)) parsed_value in
      let? updated := match apply_merge user_config segments parsed_value strategy with
                      | Ok c => Ok c | Err m => validation_error m end in
      let updated_value := value_at_path updated persist_segments in
      let config_edit :=
        if opt_toml_eqb original_value updated_value then None
        else Some (match updated_value with
                   | Some value => SetPath persist_segments value
                   | None => ClearPath persist_segments
                   end) in
      Ok (updated, if structured_feature_toggle then segments ++ [lit "enabled"] else segments, config_edit)
  end.

Fixpoint apply_edit_list (layers : Stack) (user_layer : ConfigLayerEntry) (user_config : TomlValue)
    (edits : list (str * JsonValue * MergeStrategy))
    : result (TomlValue * list (list str) * list ConfigEdit) ConfigManagerError :=
  match edits with
  | [] => Ok (user_config, [], [])
  | edit :: rest =>
      let? step := apply_edit layers user_layer user_config edit in
      let '(user_config, segments, config_edit) := step in
      let? later := apply_edit_list layers user_layer user_config rest in
      let '(user_config, parsed, config_edits) := later in
      Ok (user_config, segments :: parsed, match config_edit with Some e => e :: config_edits | None => config_edits end)
  end.

Definition lift_io {A} (context : str) (r : result A io_error) : result A ConfigManagerError :=
  match r with Ok a => Ok a | Err e => Err (IoFailure context e) end.

(** The edits on the loaded layers, up to the point where they are persisted:
    the updated stack, the edits to persist and the reported segments. *)
Definition plan_edits (layers : Stack) (user_layer : ConfigLayerEntry) (provided_path : abs_path)
    (expected_version : option str) (edits : list (str * JsonValue * MergeStrategy))
    : result (Stack * list ConfigEdit * list (list str)) ConfigManagerError :=
  if is_some_and (fun expected => negb (str_eqb expected (layer_version user_layer))) expected_version then
    Err (WriteError ConfigVersionConflict (lit "Configuration was modified since last read. Fetch latest version and retry."))
  else
    let? applied := apply_edit_list layers user_layer (layer_config user_layer) edits in
    let '(user_config, parsed_segments, config_edits) := applied in
    let? _ := match validate_config user_config with Ok _ => Ok tt | Err e => Err (invalid_configuration e) end in
    let? _ := match validate_features user_config (requirements layers) with
              | Ok _ => Ok tt | Err e => Err (invalid_configuration e) end in
    let? updated_layers := match with_user_config layers provided_path user_config with
                           | Ok l => Ok l | Err e => Err (invalid_configuration (message e)) end in
    let? _ := match validate_config (effective_config updated_layers) with
              | Ok _ => Ok tt | Err e => Err (invalid_configuration e) end in
    Ok (updated_layers, config_edits, parsed_segments).

Definition write_response (updated_layers : Stack) (provided_path : abs_path) (parsed_segments : list (list str))
    : result ConfigWriteResponse ConfigManagerError :=
  let overridden := first_overridden_edit updated_layers (effective_config updated_layers) parsed_segments in
  match get_active_user_layer updated_layers with
  | None => Err (WriteError UserLayerNotFound (lit "user layer not found in updated layers"))
  | Some l =>
      Ok (mkResponse (match overridden with Some _ => OkOverridden | None => WriteOk end)
            (layer_version l) provided_path overridden)
  end.

Definition apply_edits (w : W) (file_path : option str) (expected_version : option str)
    (edits : list (str * JsonValue * MergeStrategy)) : W * result ConfigWriteResponse ConfigManagerError :=
  match
    (let? allowed_path := lift_io (lit "failed to resolve user config path") user_config_path in
     let? provided_path := match file_path with
                           | Some path => lift_io (lit "failed to resolve user config path") (absolute_path path)
                           | None => Ok allowed_path
                           end in
     if negb (paths_match allowed_path provided_path)
     then Err (WriteError ConfigLayerReadonly (lit "Only writes to the user config are allowed"))
     else let? layers := lift_io (lit "failed to load configuration") (load_thread_agnostic_config w) in
          Ok (allowed_path, provided_path, layers))
  with
  | Err e => (w, Err e)
  | Ok (allowed_path, provided_path, layers) =>
      let '(w, user_layer) :=
        match get_active_user_layer layers with
        | Some layer => (w, Ok layer)
        | None => create_empty_user_layer w allowed_path
        end in
      match user_layer with
      | Err e => (w, Err e)
      | Ok user_layer =>
          match plan_edits layers user_layer provided_path expected_version edits with
          | Err e => (w, Err e)
          | Ok (updated_layers, config_edits, parsed_segments) =>
              let '(w, persisted) :=
                if is_nil config_edits then (w, Ok tt) else persist_edits w provided_path config_edits in
              match persisted with
              | Err e => (w, Err (AnyhowFailure (lit "failed to persist config.toml") e))
              | Ok _ => (w, write_response updated_layers provided_path parsed_segments)
              end
          end
      end
  end.

Definition write_value (w : W) (file_path expected_version : option str) (key_path : str) (value : JsonValue)
    (strategy : MergeStrategy) : W * result ConfigWriteResponse ConfigManagerError :=
  apply_edits w file_path expected_version [(key_path, value, strategy)].

Definition batch_write (w : W) (file_path expected_version : option str) (edits : list (str * JsonValue * MergeStrategy))
    : W * result ConfigWriteResponse ConfigManagerError :=
  apply_edits w file_path expected_version edits.

End service.

(** ** Key paths are read back *)

Definition escape_char (c : char) : str :=
  if (c =? ch_dquote)%N || (c =? ch_backslash)%N then [ch_backslash; c] else [c].

(** A segment in quotes. *)
Definition quote_segment (s : str) : str := ch_dquote :: mjoin (map escape_char s) ++ [ch_dquote].

Lemma parse_quoted s : forall segments segment rest,
  parse_key_path_loop (mjoin (map escape_char s) ++ ch_dquote :: rest) segments segment true
  = parse_key_path_loop rest segments (segment ++ s) false.
Proof.
  induction s as [|c s IH]; intros segments segment rest; simpl.
  - rewrite andb_false_r. simpl. by rewrite app_nil_r.
  - unfold escape_char at 1. destruct ((c =? ch_dquote)%N || (c =? ch_backslash)%N) eqn:E; simpl.
    + rewrite IH. by rewrite <- app_assoc.
    + apply orb_false_iff in E as [E1 E2]. rewrite E1, E2. simpl. rewrite andb_false_r, IH. by rewrite <- app_assoc.
Qed.

Lemma parse_quoted_list ss : forall s segments, s <> [] -> Forall (fun s => s <> []) ss ->
  parse_key_path_loop (join [ch_dot] (map quote_segment (s :: ss))) segments [] false = Ok (segments ++ s :: ss).
Proof.
  induction ss as [|s' ss IH]; intros s segments Hs Hss.
  - cbn [map join]. unfold quote_segment. cbn [parse_key_path_loop is_nil negb andb].
    rewrite N.eqb_refl. cbn [andb]. rewrite parse_quoted. cbn [app parse_key_path_loop].
    by rewrite (proj2 (is_nil_false s) Hs).
  - apply Forall_cons in Hss as [Hs' Hss].
    change (join [ch_dot] (map quote_segment (s :: s' :: ss)))
      with (quote_segment s ++ [ch_dot] ++ join [ch_dot] (map quote_segment (s' :: ss))).
    unfold quote_segment at 1. cbn [app parse_key_path_loop is_nil negb andb]. rewrite N.eqb_refl. cbn [andb].
    rewrite <- app_assoc. cbn [app]. rewrite parse_quoted. cbn [app parse_key_path_loop].
    rewrite (proj2 (is_nil_false s) Hs). cbn [andb]. rewrite IH by done. by rewrite <- app_assoc.
Qed.

(** A key path whose segments are quoted is read back exactly. *)
Theorem quoted_key_path_round_trip segments : segments <> [] -> Forall (fun s => s <> []) segments ->
  parse_key_path (join [ch_dot] (map quote_segment segments)) = Ok segments.
Proof.
  intros Hne Hs. destruct segments as [|s ss]; [done|]. apply Forall_cons in Hs as [Hs Hss].
  unfold parse_key_path. replace (is_nil (trim _)) with false; [by apply (parse_quoted_list ss s [])|].
  symmetry. apply is_nil_false. intros H.
  assert (exists rest, join [ch_dot] (map quote_segment (s :: ss)) = ch_dquote :: rest) as [rest Hr].
  { destruct ss; simpl; eauto. }
  rewrite Hr in H. unfold trim, trim_start in H. simpl in H.
  change (is_whitespace ch_dquote) with false in H. cbv iota in H.
  unfold trim_end in H. pose proof (drop_while_end_prefix is_whitespace (ch_dquote :: rest)) as (l & Hl & Hw).
  rewrite H in Hl. simpl in Hl. subst l. apply Forall_cons in Hw as [Hw _]. done.
Qed.

(** ** Paths that an edit does not touch *)

Lemma overlap_diverge segments m : config_paths_overlap segments m = false ->
  exists c a b s t, segments = c ++ a :: s /\ m = c ++ b :: t /\ a <> b.
Proof.
  revert m. induction segments as [|x segments IH]; intros [|y m]; try done. simpl.
  destruct (str_eqb x y) eqn:Exy; simpl.
  - intros (c & a & b & s & t & -> & -> & Hne)%IH. apply str_eqb_eq in Exy as ->. by exists (y :: c), a, b, s, t.
  - intros _. exists [], x, y, segments, m. apply str_eqb_neq in Exy. done.
Qed.

(** No segment is an array index. *)
Definition no_index (m : list str) : Prop := Forall (fun k => parse_i64 k = None) m.

Lemma value_at_leaf v k p : is_table v = false -> parse_i64 k = None -> value_at_path v (k :: p) = None.
Proof. destruct v; try done. intros _ H. simpl. by rewrite H. Qed.

Lemma value_at_get v k p : is_table v = true -> value_at_path v (k :: p) = value_get k v ≫= (fun w => value_at_path w p).
Proof. by destruct v. Qed.

Lemma value_at_empty c b t : value_at_path (TTable []) (c ++ b :: t) = None.
Proof. by destruct c. Qed.

Lemma t_get_or_insert_ne {A} k k' (v : A) t : k <> k' -> t_get k (t_or_insert k' v t) = t_get k t.
Proof. intros H. unfold t_or_insert. destruct (t_get k' t); [done|by apply t_get_insert_ne]. Qed.

Lemma set_at_elsewhere parents : forall root root' last v c a b s t,
  set_at root parents last v = Ok root' -> parents ++ [last] = c ++ a :: s -> a <> b -> no_index (c ++ b :: t) ->
  value_at_path root' (c ++ b :: t) = value_at_path root (c ++ b :: t).
Proof.
  induction parents as [|p parents IH]; intros root root' last v c a b s t Hset Hp Hab Hni; simpl in Hset.
  - destruct root as [| | | | | |rt]; try done. injection Hset as <-.
    destruct c as [|x c]; [|by destruct c]. simpl in Hp. injection Hp as -> _. simpl.
    by rewrite t_get_insert_ne.
  - set (rt := match root with TTable t => t | _ => [] end) in *.
    destruct (set_at _ parents last v) as [next|] eqn:En; simpl in Hset; [|done]. injection Hset as <-.
    assert (value_at_path root (c ++ b :: t) = value_at_path (TTable rt) (c ++ b :: t)) as Hroot.
    { destruct (is_table root) eqn:Er; [by destruct root|]. assert (rt = []) as -> by (by destruct root).
      rewrite value_at_empty. unfold no_index in Hni. destruct c as [|x c]; simpl app in *;
        apply Forall_cons in Hni as [Hx _]; by apply value_at_leaf. }
    rewrite Hroot. destruct c as [|x c]; simpl in Hp; injection Hp as -> Hp; simpl app.
    + rewrite !value_at_get by done. simpl value_get. rewrite t_get_insert_ne, t_get_or_insert_ne by done. done.
    + rewrite !value_at_get by done. simpl value_get. rewrite t_get_insert_eq. cbn [mbind option_bind].
      apply Forall_cons in Hni as [_ Hni]. rewrite (IH _ _ _ _ _ _ _ _ _ En Hp Hab Hni).
      unfold t_or_insert. destruct (t_get x rt) as [e|] eqn:Ee; [by rewrite Ee|].
      rewrite t_get_insert_eq. simpl. apply value_at_empty.
Qed.

Lemma clear_at_elsewhere parents : forall root last c a b s t,
  parents ++ [last] = c ++ a :: s -> a <> b ->
  value_at_path (clear_at root parents last) (c ++ b :: t) = value_at_path root (c ++ b :: t).
Proof.
  induction parents as [|p parents IH]; intros root last c a b s t Hp Hab; simpl.
  - destruct root as [| | | | | |rt]; try done.
    destruct c as [|x c]; [|by destruct c]. simpl in Hp. injection Hp as -> _. simpl.
    assert (forall rt : list (str * TomlValue), t_get b (t_remove a rt) = t_get b rt) as ->; [|done].
    clear -Hab. induction rt as [|[k w] rt IH]; simpl; [done|]. destruct (str_eqb a k) eqn:E; simpl.
    + apply str_eqb_eq in E as ->. by rewrite (proj2 (str_eqb_neq b k)) by done.
    + by rewrite IH.
  - destruct root as [| | | | | |rt]; try done. destruct (t_get p rt) as [next|] eqn:En; [|done].
    destruct c as [|x c]; simpl in Hp; injection Hp as -> Hp; simpl app; rewrite !value_at_get by done; simpl value_get.
    + by rewrite t_get_insert_ne.
    + rewrite t_get_insert_eq, En. cbn [mbind option_bind]. by eapply IH.
Qed.

(** A path where a merge only merges. *)
Definition quiet_path (path : list str) : bool :=
  match alias_for path with Some _ => false | None => true end
  && negb (is_permission_network_domains_path path) && negb (is_shell_environment_filters_path path)
  && negb (is_structured_feature_path path) && negb (bool_decide (path = [lit "shell_environment_policy"])).

Lemma quiet_path_spec path : quiet_path path = true ->
  alias_for path = None /\ is_permission_network_domains_path path = false /\ is_shell_environment_filters_path path = false
  /\ is_structured_feature_path path = false /\ path <> [lit "shell_environment_policy"].
Proof.
  unfold quiet_path. rewrite !andb_true_iff, !negb_true_iff, bool_decide_eq_false.
  intros ((((H1 & H2) & H3) & H4) & H5). destruct (alias_for path); done.
Qed.

Section merging.
Context {HP : HostParsers} {UC : UnicodeCase}.

Lemma normalized_sparse path k segments v : quiet_path path = true ->
  normalized_with_key_aliases (sparse_overlay (k :: segments) v) path
  = TTable [(k, normalized_with_key_aliases (sparse_overlay segments v) (path ++ [k]))].
Proof.
  intros (H & _)%quiet_path_spec. rewrite sparse_overlay_cons. simpl. by rewrite normalize_key_aliases_for, H.
Qed.

Lemma merge_sparse path base k segments v : quiet_path path = true ->
  merge_toml_values_at_path base (sparse_overlay (k :: segments) v) path =
  match base with
  | TTable t =>
      TTable (t_insert k
        (match t_get k t with
         | Some e => merge_toml_values_at_path e (sparse_overlay segments v) (path ++ [k])
         | None => normalized_with_key_aliases (sparse_overlay segments v) (path ++ [k])
         end) t)
  | _ => normalized_with_key_aliases (sparse_overlay (k :: segments) v) path
  end.
Proof.
  intros (H1 & H2 & H3 & H4 & H5)%quiet_path_spec. rewrite merge_unfold.
  unfold replace_shell_environment_policy_filter_representation, merge_structured_feature.
  rewrite bool_decide_false, H4 by done. rewrite sparse_overlay_cons.
  destruct base as [| | | | | |t]; try done. unfold normalize_table_keys.
  by rewrite !normalize_key_aliases_for, H1, H2, H3.
Qed.

Lemma normalized_elsewhere c : forall path a b s t v,
  (forall c', c' `prefix_of` c -> quiet_path (path ++ c') = true) -> a <> b ->
  value_at_path (normalized_with_key_aliases (sparse_overlay (c ++ a :: s) v) path) (c ++ b :: t) = None.
Proof.
  induction c as [|x c IH]; intros path a b s t v Hq Hab; simpl app.
  - rewrite normalized_sparse by (rewrite <- (app_nil_r path); by apply Hq). simpl.
    by rewrite (proj2 (str_eqb_neq b a)) by done.
  - rewrite normalized_sparse by (rewrite <- (app_nil_r path); apply Hq, prefix_nil). simpl. rewrite str_eqb_refl. simpl.
    apply IH; [|done]. intros c' Hc'. rewrite <- app_assoc. apply Hq. by apply prefix_cons.
Qed.

Lemma merge_elsewhere c : forall path base a b s t v,
  (forall c', c' `prefix_of` c -> quiet_path (path ++ c') = true) -> a <> b -> no_index (c ++ b :: t) ->
  value_at_path (merge_toml_values_at_path base (sparse_overlay (c ++ a :: s) v) path) (c ++ b :: t)
  = value_at_path base (c ++ b :: t).
Proof.
  induction c as [|x c IH]; intros path base a b s t v Hq Hab Hni; simpl app in *.
  all: assert (quiet_path path = true) as Hqp by (rewrite <- (app_nil_r path); apply Hq, prefix_nil).
  all: rewrite merge_sparse by done; apply Forall_cons in Hni as [Hx Hni].
  all: destruct (is_table base) eqn:Eb; [|rewrite (value_at_leaf base) by done].
  - destruct base as [| | | | | |bt]; try done. simpl. by rewrite t_get_insert_ne.
  - assert (value_at_path (normalized_with_key_aliases (sparse_overlay (a :: s) v) path) (b :: t) = None) as Hn
      by (by apply (normalized_elsewhere [])).
    destruct base; try exact Hn. done.
  - destruct base as [| | | | | |bt]; try done. rewrite !value_at_get by done. simpl value_get.
    rewrite t_get_insert_eq. cbn [mbind option_bind].
    assert (forall c', c' `prefix_of` c -> quiet_path ((path ++ [x]) ++ c') = true) as Hq'.
    { intros c' Hc'. rewrite <- app_assoc. apply Hq. by apply prefix_cons. }
    destruct (t_get x bt) as [e|]; [by apply IH|]. by apply normalized_elsewhere.
  - assert (value_at_path (normalized_with_key_aliases (sparse_overlay (x :: c ++ a :: s) v) path) (x :: c ++ b :: t) = None) as Hn
      by (by apply (normalized_elsewhere (x :: c))).
    destruct base; try exact Hn. done.
Qed.

Lemma split_last_app {A} (l : list A) x p : split_last l = Some (x, p) -> l = p ++ [x].
Proof.
  unfold split_last. destruct (last l) eqn:El; [|done]. intros [= <- <-]. apply last_snoc_inv in El as [l' ->].
  by rewrite removelast_last.
Qed.

(** An edit leaves every quiet path alone that it does not overlap. *)
Lemma apply_merge_elsewhere root segments value strategy root' m :
  apply_merge root segments value strategy = Ok root' -> config_paths_overlap segments m = false ->
  no_index m -> (forall c, c `prefix_of` m -> c <> m -> quiet_path c = true) ->
  value_at_path root' m = value_at_path root m.
Proof.
  intros Ha Ho Hni Hq. apply overlap_diverge in Ho as (c & a & b & s & t & Hs & -> & Hab).
  unfold apply_merge in Ha. destruct value as [v|].
  - destruct (split_last segments) as [[l parents]|] eqn:El; [|done]. apply split_last_app in El.
    destruct (preserves_structured_feature_config root segments v || _).
    + injection Ha as <-. subst segments. rewrite Hs. apply merge_elsewhere; [|done|done].
      intros c' Hc'. simpl. apply Hq; [by apply prefix_app_r|]. intros ->. apply prefix_length in Hc'.
      rewrite length_app in Hc'. simpl in Hc'. lia.
    + eapply set_at_elsewhere; [done| |done|done]. by rewrite <- El, Hs.
  - unfold clear_path in Ha. destruct (split_last segments) as [[l parents]|] eqn:El; [|done].
    apply split_last_app in El. injection Ha as <-. eapply clear_at_elsewhere; [|done]. by rewrite <- El, Hs.
Qed.

End merging.

(** ** Managed settings stay *)

Section safety.
Context {HP : HostParsers} {UC : UnicodeCase} {FD : FilterDecoding} {E : ConfigEncoding}.
Context {W R : Type} {SV : ConfigService W R}.

(** The path of a managed field. *)
Definition is_managed_path (m : ManagedFields) (path : list str) : Prop :=
  exists field, (true, path, field) ∈ managed_paths m.

Lemma managed_path_quiet m path : is_managed_path m path ->
  no_index path /\ path <> [] /\ head path <> Some (lit "shell_environment_policy")
  /\ forall c, c `prefix_of` path -> c <> path -> quiet_path c = true.
Proof.
  intros [field Hin]. unfold managed_paths in Hin.
  assert (forall k : str, parse_i64 k = None -> k <> lit "shell_environment_policy" ->
    no_index [k] /\ [k] <> [] /\ head [k] <> Some (lit "shell_environment_policy")
    /\ forall c, c `prefix_of` [k] -> c <> [k] -> quiet_path c = true) as H1.
  { intros k Hk Hne. split; [by repeat constructor|]. split; [done|]. split; [by intros [=]|].
    intros c Hc Hcne. destruct c as [|x c]; [done|]. apply prefix_cons_inv_1 in Hc as Hx. subst.
    apply prefix_cons_inv_2, prefix_nil_inv in Hc. by subst. }
  assert (forall k k' : str, parse_i64 k = None -> parse_i64 k' = None -> k <> lit "shell_environment_policy" ->
    quiet_path [k] = true ->
    no_index [k; k'] /\ [k; k'] <> [] /\ head [k; k'] <> Some (lit "shell_environment_policy")
    /\ forall c, c `prefix_of` [k; k'] -> c <> [k; k'] -> quiet_path c = true) as H2.
  { intros k k' Hk Hk' Hne Hq. split; [by repeat constructor|]. split; [done|]. split; [by intros [=]|].
    intros c Hc Hcne. destruct c as [|x c]; [done|]. apply prefix_cons_inv_1 in Hc as Hx. subst.
    apply prefix_cons_inv_2 in Hc. destruct c as [|y c]; [done|]. apply prefix_cons_inv_1 in Hc as Hx. subst.
    apply prefix_cons_inv_2, prefix_nil_inv in Hc. by subst. }
  repeat (apply elem_of_cons in Hin as [[= _ -> _]|Hin]; [first [by apply H1|by apply H2]|]).
  by apply elem_of_nil in Hin.
Qed.

Lemma exact_requirement_none m segments path : exact_requirement_for_config_path m segments = None ->
  is_managed_path m path -> config_paths_overlap segments path = false.
Proof.
  unfold exact_requirement_for_config_path. rewrite find_map_none. intros H [field Hin].
  specialize (H _ Hin). simpl in H. by destruct (config_paths_overlap segments path).
Qed.

Lemma edit_segments_overlap u segments value strategy path : path <> [] ->
  head path <> Some (lit "shell_environment_policy") ->
  config_paths_overlap segments path = false -> config_paths_overlap (edit_segments u segments value strategy) path = false.
Proof.
  intros Hne Hh Ho. unfold edit_segments. destruct (is_null value || _); [|done].
  destruct (shell_environment_filter_entry u segments) as [[pattern ?]|] eqn:Ef; [|done].
  unfold shell_environment_filter_entry in Ef. destruct segments as [|a [|b [|c [|? ?]]]]; try done.
  destruct (str_eqb a (lit "shell_environment_policy")) eqn:Ea; [|done]. apply str_eqb_eq in Ea as ->.
  destruct path as [|h path]; [done|]. simpl in *. rewrite (proj2 (str_eqb_neq _ h)); [done|].
  intros Heq. apply Hh. by f_equal.
Qed.

Lemma apply_edit_managed layers user_layer u edit u' segs ce path :
  apply_edit layers user_layer u edit = Ok (u', segs, ce) -> is_managed_path (requirements_toml layers) path ->
  value_at_path u' path = value_at_path u path.
Proof.
  intros H Hm. destruct edit as [[key value] strategy]. unfold apply_edit in H.
  destruct (parse_key_path key) as [segments|]; simpl in H; [|done].
  destruct (exact_requirement_for_config_path _ segments) eqn:Er; [done|].
  pose proof (exact_requirement_none _ _ _ Er Hm) as Ho. destruct (managed_path_quiet _ _ Hm) as (Hni & Hne & Hh & Hq).
  apply (edit_segments_overlap u segments value strategy) in Ho; [|done|done].
  set (segments' := edit_segments u segments value strategy) in *.
  destruct (edit_path_allowed segments' value); simpl in H; [|done].
  destruct (if _ && _ then Ok (Some (TBoolean false)) else _) as [parsed|]; simpl in H; [|done].
  match type of H with result_bind ?r _ = _ => destruct r; simpl in H; [|done] end.
  destruct (apply_merge u segments' parsed strategy) as [updated|] eqn:Ea; simpl in H; [|done].
  injection H as <- _ _. by eapply apply_merge_elsewhere.
Qed.

Lemma apply_edit_list_managed layers user_layer edits path : is_managed_path (requirements_toml layers) path ->
  forall u u' segs ces, apply_edit_list layers user_layer u edits = Ok (u', segs, ces) ->
  value_at_path u' path = value_at_path u path.
Proof.
  intros Hm. induction edits as [|edit edits IH]; intros u u' segs ces H; simpl in H; [by injection H as <-|].
  destruct (apply_edit layers user_layer u edit) as [[[u1 s1] c1]|] eqn:E1; simpl in H; [|done].
  destruct (apply_edit_list layers user_layer u1 edits) as [[[u2 s2] c2]|] eqn:E2; simpl in H; [|done].
  injection H as <- _ _. rewrite (IH _ _ _ _ E2). by eapply apply_edit_managed.
Qed.

(** *** What is persisted *)

(** The same value, or none, at a path of two documents. *)
Definition same_at (u u' : TomlValue) (path : list str) : Prop :=
  opt_toml_eqb (value_at_path u path) (value_at_path u' path) = true.

Definition edit_path (e : ConfigEdit) : list str := match e with SetPath p _ | ClearPath p => p end.

(** The edit that brings a path to its value in a document. *)
Definition brings (e : ConfigEdit) (u : TomlValue) : Prop :=
  match e with
  | SetPath path value => value_at_path u path = Some value
  | ClearPath path => value_at_path u path = None
  end.

(** The path a request addresses in a document: the one it spells, or that of a filter
    in its stored spelling. *)
Definition addresses (u : TomlValue) (segments path : list str) : Prop :=
  path = segments
  \/ exists policy filters pattern stored value,
       segments = [policy; filters; pattern] /\ path = [policy; filters; stored]
       /\ shell_environment_filter_entry u segments = Some (stored, value).

(** The value a request gives: none for null, except that the proxy feature with
    credential settings is switched off instead of removed. *)
Definition gives (value : JsonValue) (path : list str) (parsed : option TomlValue) : Prop :=
  (value = JNull /\ parsed = None)
  \/ (value = JNull /\ parsed = Some (TBoolean false) /\ is_structured_feature_path path = true
      /\ last path = Some (lit "network_proxy"))
  \/ exists v, value <> JNull /\ json_to_toml value = Ok v /\ parsed = Some v.

(** One request turns [u] into [u'] and hands [ces] to the persistence layer. *)
Record edit_recorded (m : ManagedFields) (u : TomlValue) (edit : str * JsonValue * MergeStrategy) (u' : TomlValue)
    (ces : list ConfigEdit) (segments path saved : list str) (parsed : option TomlValue) : Prop := {
  er_key : parse_key_path edit.1.1 = Ok segments;
  er_unmanaged : forall managed, is_managed_path m managed ->
    config_paths_overlap segments managed = false /\ config_paths_overlap saved managed = false;
  er_addresses : addresses u segments path;
  er_value : gives edit.1.2 path parsed;
  er_merged : apply_merge u path parsed edit.2 = Ok u';
  er_written v : parsed = Some v -> edit.2 = Replace -> structured_feature_depth path = None -> value_at_path u' path = Some v;
  er_saved : saved = path
    \/ (saved = [lit "shell_environment_policy"] /\ head path = Some (lit "shell_environment_policy"));
  er_unchanged : same_at u u' saved -> ces = [];
  er_changed : ~ same_at u u' saved -> exists e, ces = [e] /\ edit_path e = saved /\ brings e u';
}.

(** The requests of a batch, one after the other. *)
Inductive edits_recorded (m : ManagedFields) : TomlValue -> list (str * JsonValue * MergeStrategy) -> TomlValue -> list ConfigEdit -> Prop :=
| recorded_nil u : edits_recorded m u [] u []
| recorded_cons u edit edits u1 u2 ces later segments path saved parsed :
    edit_recorded m u edit u1 ces segments path saved parsed -> edits_recorded m u1 edits u2 later ->
    edits_recorded m u (edit :: edits) u2 (ces ++ later).

Lemma set_at_get parents : forall root root' last v, set_at root parents last v = Ok root' ->
  value_at_path root' (parents ++ [last]) = Some v.
Proof.
  induction parents as [|p parents IH]; intros root root' last v Hs; simpl in Hs.
  - destruct root as [| | | | | |t]; try done. injection Hs as <-. simpl. by rewrite t_get_insert_eq.
  - destruct (set_at _ parents last v) as [next|] eqn:En; simpl in Hs; [|done]. injection Hs as <-.
    simpl. rewrite t_get_insert_eq. simpl. by apply IH in En.
Qed.

(** A plain replacement puts its value there. *)
Lemma apply_merge_written u path v u' : apply_merge u path (Some v) Replace = Ok u' ->
  structured_feature_depth path = None -> value_at_path u' path = Some v.
Proof.
  unfold apply_merge. destruct (split_last path) as [[l parents]|] eqn:El; [|done]. apply split_last_app in El.
  intros H Hd. unfold preserves_structured_feature_config in H. rewrite Hd in H. simpl in H.
  rewrite El. by eapply set_at_get.
Qed.

Lemma edit_segments_addresses u segments value strategy : addresses u segments (edit_segments u segments value strategy).
Proof.
  unfold edit_segments. destruct (is_null value || _); [|by left].
  destruct (shell_environment_filter_entry u segments) as [[stored v]|] eqn:Ef; [|by left].
  right. pose proof Ef as Hs. unfold shell_environment_filter_entry in Hs.
  destruct segments as [|policy [|filters [|pattern [|? ?]]]]; try done. by exists policy, filters, pattern, stored, v.
Qed.

Lemma representation_switch_head u segments v : shell_environment_policy_representation_switch u segments v = true ->
  head segments = Some (lit "shell_environment_policy").
Proof.
  unfold shell_environment_policy_representation_switch, from_edit. case_bool_decide as Eb; [by rewrite Eb|].
  destruct segments as [|a [|b rest]]; try (by destruct (value_get _ u ≫= from_policy) as [[]|]).
  simpl. destruct (str_eqb a (lit "shell_environment_policy")) eqn:Ea; [intros _; f_equal; by apply str_eqb_eq|].
  by destruct (value_get _ u ≫= from_policy) as [[]|].
Qed.

Lemma policy_unmanaged m managed : is_managed_path m managed ->
  config_paths_overlap [lit "shell_environment_policy"] managed = false.
Proof.
  intros (_ & Hne & Hh & _)%managed_path_quiet. destruct managed as [|k managed]; [done|]. simpl.
  rewrite (proj2 (str_eqb_neq _ k)); [done|]. intros <-. by destruct Hh.
Qed.

(** The edit made of a change. *)
Lemma change_recorded u u' saved :
  let ce := if opt_toml_eqb (value_at_path u saved) (value_at_path u' saved) then None
            else Some (match value_at_path u' saved with Some value => SetPath saved value | None => ClearPath saved end) in
  let ces := match ce with Some e => [e] | None => [] end in
  (same_at u u' saved -> ces = []) /\ (~ same_at u u' saved -> exists e, ces = [e] /\ edit_path e = saved /\ brings e u').
Proof.
  unfold same_at. destruct (opt_toml_eqb _ _) eqn:Es; simpl; [done|]. split; [done|]. intros _.
  destruct (value_at_path u' saved) eqn:Ev; eexists; (split; [reflexivity|]); done.
Qed.

(** What one step of the loop does. *)
Lemma apply_edit_recorded layers user_layer u edit u' segs ce :
  apply_edit layers user_layer u edit = Ok (u', segs, ce) ->
  exists segments path saved parsed,
    edit_recorded (requirements_toml layers) u edit u' (match ce with Some e => [e] | None => [] end) segments path saved parsed.
Proof.
  intros H. destruct edit as [[key value] strategy]. unfold apply_edit in H.
  destruct (parse_key_path key) as [segments|] eqn:Ek; simpl in H; [|done].
  destruct (exact_requirement_for_config_path _ segments) eqn:Er; [done|].
  set (path := edit_segments u segments value strategy) in *.
  destruct (edit_path_allowed path value); simpl in H; [|done].
  destruct (if is_null value && is_structured_feature_path path && _ && _ then Ok (Some (TBoolean false)) else _)
    as [parsed|] eqn:Ep; simpl in H; [|done].
  match type of H with result_bind ?r _ = _ => destruct r; simpl in H; [|done] end.
  destruct (apply_merge u path parsed strategy) as [updated|] eqn:Ea; simpl in H; [|done].
  set (saved := if is_upsert strategy && is_some_and (shell_environment_policy_representation_switch u path) parsed
                then [lit "shell_environment_policy"] else path) in *.
  injection H as <- _ <-. exists segments, path, saved, parsed. destruct (change_recorded u updated saved) as [Hsame Hch].
  assert (Hsaved : saved = path \/ (saved = [lit "shell_environment_policy"] /\ head path = Some (lit "shell_environment_policy"))).
  { unfold saved. destruct (is_upsert strategy); [|by left]. destruct parsed as [v|]; [|by left]. simpl.
    destruct (shell_environment_policy_representation_switch u path v) eqn:Esw; [right|by left].
    split; [done|]. by eapply representation_switch_head. }
  split; simpl; try done.
  - intros managed Hm. pose proof (exact_requirement_none _ _ _ Er Hm) as Ho. split; [done|].
    destruct Hsaved as [->|[-> _]]; [|by eapply policy_unmanaged].
    destruct (managed_path_quiet _ _ Hm) as (_ & Hne & Hh & _). by apply edit_segments_overlap.
  - apply edit_segments_addresses.
  - unfold gives. destruct (is_null value) eqn:En; simpl in Ep.
    + destruct value; try done. destruct (is_structured_feature_path path) eqn:Esf; simpl in Ep; [|injection Ep as <-; by left].
      destruct (is_some_and _ (last path)) eqn:El; simpl in Ep; [|injection Ep as <-; by left].
      destruct (_ || _); injection Ep as <-; [right; left|by left]. repeat split; try done.
      destruct (last path); [|done]. simpl in El. by apply str_eqb_eq in El as ->.
    + right. right. unfold parse_value in Ep.
      destruct value; try done; (destruct (json_to_toml _) as [v|] eqn:Ej; [|done]; injection Ep as <-; by exists v).
  - intros v -> -> Hd. by eapply apply_merge_written.
Qed.

Lemma apply_edit_list_recorded layers user_layer edits : forall u u' segs ces,
  apply_edit_list layers user_layer u edits = Ok (u', segs, ces) -> edits_recorded (requirements_toml layers) u edits u' ces.
Proof.
  induction edits as [|edit edits IH]; intros u u' segs ces H; simpl in H; [injection H as <- _ <-; constructor|].
  destruct (apply_edit layers user_layer u edit) as [[[u1 s1] c1]|] eqn:E1; simpl in H; [|done].
  destruct (apply_edit_list layers user_layer u1 edits) as [[[u2 s2] c2]|] eqn:E2; simpl in H; [|done].
  apply apply_edit_recorded in E1 as (segments & path & saved & parsed & E1).
  injection H as <- _ <-. replace (match c1 with Some e => e :: c2 | None => c2 end) with
    (match c1 with Some e => [e] | None => [] end ++ c2) by (by destruct c1).
  econstructor; [exact E1|]. by eapply IH.
Qed.

(** No persisted edit touches a managed setting. *)
Lemma recorded_unmanaged m u edits u' ces : edits_recorded m u edits u' ces ->
  forall e managed, e ∈ ces -> is_managed_path m managed -> config_paths_overlap (edit_path e) managed = false.
Proof.
  induction 1 as [u|u edit edits u1 u2 ces later segments path saved parsed H _ IH]; intros e managed He Hm;
    [by apply elem_of_nil in He|].
  apply elem_of_app in He as [He|He]; [|by apply IH]. destruct H as [_ Hun _ _ _ _ _ Hsame Hch].
  destruct (decide (opt_toml_eqb (value_at_path u saved) (value_at_path u1 saved) = true)) as [Hs|Hs].
  - rewrite (Hsame Hs) in He. by apply elem_of_nil in He.
  - destruct (Hch Hs) as (e' & -> & <- & _). apply list_elem_of_singleton in He as ->. by apply Hun.
Qed.

(** *** The response *)

Lemma insert_layer_user ls l : is_user_layer l = true ->
  exists u, List.find is_user_layer (rev (insert_layer_by_precedence ls l)) = Some u.
Proof.
  intros Hu. destruct (List.find is_user_layer (rev (insert_layer_by_precedence ls l))) eqn:Ef; [by eexists|].
  exfalso. assert (is_user_layer l = false) as Hf; [|congruence].
  eapply List.find_none; [done|]. apply (proj1 (in_rev _ _)). apply list_elem_of_In. rewrite insert_layer_perm. by left.
Qed.

Lemma with_user_config_active (s s' : ConfigLayerStack R ManagedFields) file v :
  with_user_config s file v = Ok s' -> exists u, get_active_user_layer s' = Some u.
Proof.
  unfold with_user_config, with_user_config_profile. destruct validate_enabled_config_layers; simpl; [|done].
  intros [= <-]. by apply insert_layer_user.
Qed.

(** A plan that is accepted has passed every check, and its new user document
    keeps the managed settings. *)
Lemma plan_edits_spec layers user_layer file expected edits layers' ces segs :
  plan_edits layers user_layer file expected edits = Ok (layers', ces, segs) ->
  (forall v, expected = Some v -> v = layer_version user_layer)
  /\ exists u', apply_edit_list layers user_layer (layer_config user_layer) edits = Ok (u', segs, ces)
     /\ with_user_config layers file u' = Ok layers'
     /\ validate_config u' = Ok tt /\ validate_config (effective_config layers') = Ok tt.
Proof.
  unfold plan_edits. destruct (is_some_and _ expected) eqn:Ev; [done|].
  destruct (apply_edit_list layers user_layer (layer_config user_layer) edits) as [[[u' segs'] ces']|] eqn:Ea; simpl; [|done].
  destruct (validate_config u') as [[]|] eqn:E1; simpl; [|done].
  destruct (validate_features u' (requirements layers)); simpl; [|done].
  destruct (with_user_config layers file u') as [l'|] eqn:E3; simpl; [|done].
  destruct (validate_config (effective_config l')) as [[]|] eqn:E4; simpl; [|done]. intros [= <- <- <-].
  split; [|by exists u'].
  intros v ->. simpl in Ev. apply negb_false_iff in Ev. by apply str_eqb_eq in Ev.
Qed.

End safety.

(** C39: writing the configuration is safe.  For a stack with a user layer, a
    request that fails leaves the files as they were, unless persisting itself
    failed.  A request that succeeds was for the user's file and based on the
    expected version; its edits were applied one after the other to the user
    document, each at the path it names and with the value it gives; the
    resulting document has passed the validation, alone and merged with the other
    layers.  Handed to the persistence layer are exactly the paths whose value an
    edit changed, each with its new value or to be cleared, and nothing when no
    value changed; none of them touches a setting that requirements manage, and
    all these settings keep their value. *)
Theorem config_write_safe {HP : HostParsers} {UC : UnicodeCase} {FD : FilterDecoding} {E : ConfigEncoding}
    {W R : Type} {SV : ConfigService W R} (w w' : W) file expected edits r layers user_layer :
  load_thread_agnostic_config w = Ok layers -> get_active_user_layer layers = Some user_layer ->
  apply_edits w file expected edits = (w', r) ->
  match r with
  | Err e => w' = w \/ exists m, e = AnyhowFailure (lit "failed to persist config.toml") m
  | Ok response =>
      (exists allowed, user_config_path = Ok allowed /\ paths_match allowed (file_path response) = true)
      /\ (forall v, expected = Some v -> v = layer_version user_layer)
      /\ exists u' ces layers',
           edits_recorded (requirements_toml layers) (layer_config user_layer) edits u' ces
           /\ with_user_config layers (file_path response) u' = Ok layers'
           /\ validate_config u' = Ok tt /\ validate_config (effective_config layers') = Ok tt
           /\ (if is_nil ces then w' = w else persist_edits w (file_path response) ces = (w', Ok tt))
           /\ forall path, is_managed_path (requirements_toml layers) path ->
              value_at_path u' path = value_at_path (layer_config user_layer) path
              /\ Forall (fun e => config_paths_overlap (edit_path e) path = false) ces
  end.
Proof.
  intros Hl Hu. unfold apply_edits. rewrite Hl.
  destruct user_config_path as [allowed|]; simpl; [|intros [= <- <-]; by left].
  destruct (match file with Some _ => _ | None => _ end) as [provided|]; simpl; [|intros [= <- <-]; by left].
  destruct (paths_match allowed provided) eqn:Hmatch; simpl; [|intros [= <- <-]; by left]. rewrite Hu.
  destruct (plan_edits layers user_layer provided expected edits) as [[[layers' ces] segs]|] eqn:Ep;
    [|intros [= <- <-]; by left].
  apply plan_edits_spec in Ep as (Hv & u' & Ha & Hw & V1 & V2).
  destruct (with_user_config_active _ _ _ _ Hw) as [active Hact].
  destruct (if is_nil ces then (w, Ok tt) else persist_edits w provided ces) as [w1 persisted] eqn:Es.
  destruct persisted as [[]|e]; [|intros [= <- <-]; right; by eexists].
  unfold write_response. rewrite Hact. intros [= <- <-]. cbn [file_path]. split; [by exists allowed|]. split; [done|].
  apply apply_edit_list_recorded in Ha as Hrec. exists u', ces, layers'. repeat split; try done.
  - destruct (is_nil ces); [by injection Es|done].
  - by eapply apply_edit_list_managed.
  - apply Forall_forall. intros e He. by eapply recorded_unmanaged.
Qed.

(** ** Examples *)

Section examples.
#[local] Existing Instances plain_hosts ascii_case ex_encoding ex_decoding.

Definition no_managed : ManagedFields := mkManaged false false false false false false false false false.
Definition managed_feedback : ManagedFields := mkManaged false false false false false true false false false.

Definition user_file : abs_path := [lit "home"; lit "config.toml"].
Definition user_doc : TomlValue :=
  TTable [(lit "model", TString (lit "a")); (lit "feedback", TTable [(lit "enabled", TBoolean false)])].
Definition service_stack (m : ManagedFields) : ConfigLayerStack unit ManagedFields :=
  mkStack [layer_new (User user_file None) user_doc] tt m false None.

(** A service whose store is the list of the edits persisted so far. *)
Definition ex_service : ConfigService (list ConfigEdit) unit :=
  {| user_config_path := Ok user_file;
     absolute_path := fun _ => Ok user_file;
     paths_match := fun a b => bool_decide (a = b);
     load_thread_agnostic_config := fun _ => Ok (service_stack managed_feedback);
     create_empty_user_layer := fun w _ => (w, Ok (layer_new (User user_file None) (TTable [])));
     json_to_toml := fun v => match v with JString s => Ok (TString s) | _ => Err (lit "unsupported") end;
     config_approval_untrusted := fun _ => Ok false;
     validate_features := fun _ _ => Ok tt;
     persist_edits := fun w _ edits => (w ++ edits, Ok tt) |}.
#[local] Existing Instance ex_service.

Lemma config_write_safe_witness :
  exists response,
    batch_write [] None None [(lit "model", JString (lit "b"), Replace); (lit "tui.theme", JString (lit "dark"), Upsert)]
    = ([SetPath [lit "model"] (TString (lit "b")); SetPath [lit "tui"; lit "theme"] (TString (lit "dark"))], Ok response)
    /\ status response = WriteOk
    /\ exists u', value_at_path u' [lit "feedback"; lit "enabled"] = Some (TBoolean false)
    /\ snd (batch_write [] None None [(lit "feedback.enabled", JString (lit "x"), Replace)])
       = Err (WriteError ConfigRequirementReadonly (lit "`feedback.enabled` is managed by requirements and cannot be changed")).
Proof.
  eexists. split; [vm_compute; reflexivity|]. split; [reflexivity|].
  set (edits := [(lit "model", JString (lit "b"), Replace); (lit "tui.theme", JString (lit "dark"), Upsert)]).
  destruct (apply_edits [] None None edits) as [w' r] eqn:Er.
  pose proof (config_write_safe [] w' None None edits r (service_stack managed_feedback)
    (layer_new (User user_file None) user_doc) eq_refl eq_refl Er) as H.
  destruct r as [response|e]; [|vm_compute in Er; discriminate Er].
  destruct H as (_ & _ & u' & ces & layers' & _ & _ & _ & _ & _ & Hm). exists u'. split.
  - destruct (Hm [lit "feedback"; lit "enabled"]) as [-> _]; [|reflexivity]. exists (lit "feedback.enabled"). do 5 right. left.
  - vm_compute. reflexivity.
Defined.

(** A write below a setting that a higher layer replaces by another value is
    reported as effective, although the value written has no effect. *)
Definition shadowed_stack : ConfigLayerStack unit ManagedFields :=
  mkStack
    [ layer_new (User user_file None) (TTable [(lit "desktop", TTable [(lit "a", TTable [(lit "b", TInteger 1)])])]);
      layer_new SessionFlags (TTable [(lit "desktop", TTable [(lit "a", TString (lit "x"))])]) ] tt no_managed false None.

Theorem shadowed_write_not_reported :
  value_at_path (layer_config (layer_new (User user_file None) (TTable [(lit "desktop", TTable [(lit "a", TTable [(lit "b", TInteger 1)])])])))
    [lit "desktop"; lit "a"; lit "b"] = Some (TInteger 1)
  /\ value_at_path (effective_config shadowed_stack) [lit "desktop"; lit "a"; lit "b"] = None
  /\ status <$> (match write_response shadowed_stack user_file [[lit "desktop"; lit "a"; lit "b"]] with
                 | Ok r => Some r | Err _ => None end) = Some WriteOk.
Proof. repeat split; vm_compute; reflexivity. Qed.

End examples.
