(* ===== verification/Constrained.v ===== *)
(** * Constrained settings

    config/src/constraint.rs and [RequirementSource] of
    config/src/config_requirements.rs: a value that can only be changed through a
    validator (what administrators require) and, optionally, a normaliser.  The
    validator of an approval policy or a reviewer is membership in an allowed
    list ([allowed_values]).  Debug renderings of values are a parameter. *)

From S2P Require Import Prelude RustStr AbsolutePath PathUri.

(** ** Sources of requirements *)

Inductive RequirementSource :=
| Unknown
| MdmManagedPreferences (domain key : str)
| Composite (sources : list RequirementSource)
| EnterpriseManagedSource (id name : str)
| SystemRequirementsToml (file : abs_path)
| LegacyManagedFromFile (file : abs_path)
| LegacyManagedFromMdm.

Fixpoint source_eqb (a b : RequirementSource) {struct a} : bool :=
  match a, b with
  | Unknown, Unknown => true
  | MdmManagedPreferences d k, MdmManagedPreferences d' k' => str_eqb d d' && str_eqb k k'
  | Composite l, Composite l' =>
      (fix eqb_list l l' :=
         match l, l' with
         | [], [] => true
         | x :: l, y :: l' => source_eqb x y && eqb_list l l'
         | _, _ => false
         end) l l'
  | EnterpriseManagedSource i n, EnterpriseManagedSource i' n' => str_eqb i i' && str_eqb n n'
  | SystemRequirementsToml f, SystemRequirementsToml f' => bool_decide (f = f')
  | LegacyManagedFromFile f, LegacyManagedFromFile f' => bool_decide (f = f')
  | LegacyManagedFromMdm, LegacyManagedFromMdm => true
  | _, _ => false
  end.

Fixpoint append_to_composite (source : RequirementSource) (flattened : list RequirementSource) : list RequirementSource :=
  match source with
  | Composite sources => fold_left (fun flattened source => append_to_composite source flattened) sources flattened
  | _ => if existsb (fun s => source_eqb s source) flattened then flattened else flattened ++ [source]
  end.

Definition composite (sources : list RequirementSource) : RequirementSource :=
  match fold_left (fun flattened source => append_to_composite source flattened) sources [] with
  | [] => Unknown
  | [source] => source
  | flattened => Composite flattened
  end.

Fixpoint show_source (source : RequirementSource) : str :=
  match source with
  | Unknown => lit "<unspecified>"
  | MdmManagedPreferences domain key => lit "MDM " ++ domain ++ lit ":" ++ key
  | Composite sources => lit "requirements layers: " ++ join (lit ", ") (map show_source sources)
  | EnterpriseManagedSource id name => lit "enterprise-managed requirements " ++ name ++ lit " (" ++ id ++ lit ")"
  | SystemRequirementsToml file | LegacyManagedFromFile file => abs_text file
  | LegacyManagedFromMdm => lit "MDM managed_config.toml (legacy)"
  end.

Inductive ConstraintError :=
| InvalidValue (field_name candidate allowed : str) (requirement_source : RequirementSource)
| AutoReviewRequired (model : str)
| EmptyField (field_name : str)
| ExecPolicyParse (requirement_source : RequirementSource) (reason : str)
| McpServerRequirementParse (server_name : str) (requirement_source : RequirementSource) (reason : str).

(** ** Constrained values *)

Section constrained.
Context {T : Type}.

Record Constrained := mkConstrained {
  value : T;
  validator : T -> result unit ConstraintError;
  normalizer : option (T -> T) }.

Definition new (initial_value : T) (validator : T -> result unit ConstraintError) : result Constrained ConstraintError :=
  let? _ := validator initial_value in Ok (mkConstrained initial_value validator None).

Definition normalized (initial_value : T) (normalizer : T -> T) : result Constrained ConstraintError :=
  let validator := fun _ => Ok tt in
  let normalized := normalizer initial_value in
  let? _ := validator normalized in Ok (mkConstrained normalized validator (Some normalizer)).

Definition allow_any (initial_value : T) : Constrained := mkConstrained initial_value (fun _ => Ok tt) None.

Definition can_set (c : Constrained) (candidate : T) : result unit ConstraintError := validator c candidate.

Definition combined_validator (existing more : T -> result unit ConstraintError) (candidate : T) : result unit ConstraintError :=
  let? _ := existing candidate in more candidate.

(** The constraint is unchanged when the current value does not satisfy it. *)
Definition add_validator (c : Constrained) (more : T -> result unit ConstraintError) : Constrained * result unit ConstraintError :=
  let combined := combined_validator (validator c) more in
  match combined (value c) with
  | Ok _ => (mkConstrained (value c) combined (normalizer c), Ok tt)
  | Err e => (c, Err e)
  end.

Definition set (c : Constrained) (v : T) : Constrained * result unit ConstraintError :=
  let v := match normalizer c with Some f => f v | None => v end in
  match validator c v with
  | Ok _ => (mkConstrained v (validator c) (normalizer c), Ok tt)
  | Err e => (c, Err e)
  end.

Context `{EqDecision T} (debug : T -> str) (debug_list : list T -> str).

Definition allow_only (only_value : T) : Constrained :=
  mkConstrained only_value (fun candidate =>
    if bool_decide (candidate = only_value) then Ok tt
    else Err (InvalidValue (lit "<unknown>") (debug candidate) (lit "[" ++ debug only_value ++ lit "]") Unknown)) None.

(** The constraint of a field that requirements restrict to a list
    ([approval_policy], [approvals_reviewer]): its first value is the initial
    one, an empty list is refused. *)
Definition allowed_values (field_name list_name : str) (allowed : list T) (source : RequirementSource)
    : result Constrained ConstraintError :=
  match allowed with
  | [] => Err (EmptyField list_name)
  | initial_value :: _ =>
      new initial_value (fun candidate =>
        if bool_decide (candidate ∈ allowed) then Ok tt
        else Err (InvalidValue field_name (debug candidate) (debug_list allowed) source))
  end.

(** ** Values that a program can reach *)

(** One call; its result is dropped. *)
Inductive step : Constrained -> Constrained -> Prop :=
| step_set c v : step c (fst (set c v))
| step_add c more : step c (fst (add_validator c more)).

Definition valid (c : Constrained) : Prop := validator c (value c) = Ok tt.

(** Every value the current constraint accepts was accepted before. *)
Definition tighter (c c' : Constrained) : Prop :=
  forall v, validator c' v = Ok tt -> validator c v = Ok tt.

Lemma set_cases c v :
  let v' := match normalizer c with Some f => f v | None => v end in
  (set c v = (mkConstrained v' (validator c) (normalizer c), Ok tt) /\ validator c v' = Ok tt)
  \/ exists e, set c v = (c, Err e) /\ validator c v' = Err e.
Proof. unfold set. simpl. destruct validator as [[]|e] eqn:E; [by left|right; by exists e]. Qed.

Lemma add_validator_cases c more :
  (add_validator c more = (mkConstrained (value c) (combined_validator (validator c) more) (normalizer c), Ok tt)
   /\ validator c (value c) = Ok tt /\ more (value c) = Ok tt)
  \/ exists e, add_validator c more = (c, Err e).
Proof.
  unfold add_validator, combined_validator. destruct (validator c (value c)) as [[]|e] eqn:E; simpl; [|right; by exists e].
  destruct (more (value c)) as [[]|e] eqn:Em; [by left|right; by exists e].
Qed.

Lemma step_valid c c' : step c c' -> valid c -> valid c'.
Proof.
  unfold valid. intros [c0 v|c0 more] Hv.
  - destruct (set_cases c0 v) as [[-> H]|(e & -> & _)]; done.
  - destruct (add_validator_cases c0 more) as [(-> & H1 & H2)|(e & ->)]; [|done]. simpl. unfold combined_validator.
    by rewrite H1.
Qed.

Lemma step_tighter c c' : step c c' -> tighter c c'.
Proof.
  unfold tighter. intros [c0 v|c0 more] w.
  - by destruct (set_cases c0 v) as [[-> _]|(e & -> & _)].
  - destruct (add_validator_cases c0 more) as [(-> & _)|(e & ->)]; [|done]. simpl. unfold combined_validator.
    by destruct (validator c0 w) as [[]|].
Qed.

Lemma reachable_valid c c' : rtc step c c' -> valid c -> valid c' /\ tighter c c'.
Proof.
  induction 1 as [c|c1 c2 c3 Hs _ IH]; intros Hv; [split; [done|by intros v]|].
  destruct (IH (step_valid _ _ Hs Hv)) as [H1 H2]. split; [done|]. intros v Hv3. by apply (step_tighter _ _ Hs), H2.
Qed.

End constrained.
Arguments Constrained : clear implicits.

(** Requirements hold at all times.  A setting restricted to a list of
    allowed values starts with an allowed one, and whatever sequence of
    assignments and further constraints follows, its value is allowed and
    satisfies every constraint that was accepted on the way; an assignment that
    fails changes nothing. *)
Theorem constrained_stays_allowed {T : Type} `{EqDecision T} debug debug_list field list_name (allowed : list T) source c c' :
  allowed_values debug debug_list field list_name allowed source = Ok c -> rtc step c c' ->
  value c' ∈ allowed /\ validator c' (value c') = Ok tt
  /\ forall v, (set c' v).2 = Ok tt /\ value (set c' v).1 ∈ allowed \/ (set c' v).1 = c'.
Proof.
  intros Hc Hr.
  assert (valid c /\ forall v, validator c v = Ok tt -> v ∈ allowed) as [Hv Hall].
  { revert Hc. unfold allowed_values, new. destruct allowed as [|v0 rest]; [done|].
    rewrite bool_decide_true by (by left). simpl. intros [= <-]. unfold valid. simpl.
    rewrite bool_decide_true by (by left). split; [done|]. intros v. by case_bool_decide. }
  destruct (reachable_valid _ _ Hr Hv) as [Hv' Ht]. split; [by apply Hall, Ht|]. split; [done|].
  intros v. destruct (set_cases c' v) as [[-> H]|(e & -> & _)]; [left|by right]. split; [done|]. by apply Hall, Ht.
Qed.

Lemma constrained_stays_allowed_witness :
  exists c c' : Constrained bool,
    allowed_values (fun _ => []) (fun _ => []) (lit "f") (lit "fs") [true; false] Unknown = Ok c
    /\ c' = (add_validator (set c false).1 (fun b => if b then Err (EmptyField []) else Ok tt)).1
    /\ value c' ∈ [true; false] /\ (set c' true).1 = c'.
Proof.
  destruct (allowed_values (fun _ => []) (fun _ => []) (lit "f") (lit "fs") [true; false] Unknown) as [c|] eqn:Ec;
    [|vm_compute in Ec; discriminate Ec].
  exists c, (add_validator (set c false).1 (fun b => if b then Err (EmptyField []) else Ok tt)).1.
  split; [reflexivity|]. split; [reflexivity|].
  edestruct (constrained_stays_allowed _ _ _ _ _ _ c
    (add_validator (set c false).1 (fun b => if b then Err (EmptyField []) else Ok tt)).1 Ec) as (H1 & _ & H3).
  - eapply rtc_l; [apply step_set|]. eapply rtc_l; [apply step_add|]. apply rtc_refl.
  - split; [exact H1|]. destruct (H3 true) as [[Hs _]|Hs]; [|exact Hs].
    injection Ec as <-. vm_compute in Hs. discriminate Hs.
Defined.
