(* ===== verification/WorldState.v ===== *)
(** * The world state shown to the model

    core/src/context/world_state/mod.rs: the sections of model-visible state,
    their snapshots, the RFC 7386 merge patches that are persisted between two
    snapshots, and which sections are rendered against what.  A section is the
    trait [WorldStateSection] as a record of operations, erased to the
    operations on JSON values that [WorldState] uses.

    A [serde_json::Map] compares without regard to the order of its keys; so do
    the theorems: [same] says that two values agree at every path.  A
    [BTreeMap] is an association list sorted by key. *)

From S2P Require Import Prelude RustStr NetworkPolicy ConfigToml ConfigLayers ResponseItem.

Definition jmap := list (str * JsonValue).

Definition is_null (v : JsonValue) : bool := match v with JNull => true | _ => false end.
Definition as_object (v : JsonValue) : option jmap := match v with JObject m => Some m | _ => None end.

(** [PartialEq] of [Value]. *)
Fixpoint json_eqb (a b : JsonValue) {struct a} : bool :=
  match a, b with
  | JNull, JNull => true
  | JBool x, JBool y => Bool.eqb x y
  | JNumber x, JNumber y | JString x, JString y => str_eqb x y
  | JArray xs, JArray ys =>
      (fix all xs ys :=
         match xs, ys with
         | [], [] => true
         | x :: xs, y :: ys => json_eqb x y && all xs ys
         | _, _ => false
         end) xs ys
  | JObject xs, JObject ys =>
      (length xs =? length ys)
      && forallb (fun entry => match t_get (fst entry) ys with Some w => json_eqb (snd entry) w | None => false end) xs
  | _, _ => false
  end.

(** [BTreeMap::insert] *)
Fixpoint bt_insert {A} (k : str) (v : A) (t : list (str * A)) : list (str * A) :=
  match t with
  | [] => [(k, v)]
  | (k', v') :: t' =>
      if str_eqb k k' then (k', v) :: t'
      else if str_leb k k' then (k, v) :: t else (k', v') :: bt_insert k v t'
  end.

(** ** Merge patches *)

Fixpoint remove_null_object_fields (value : JsonValue) : JsonValue :=
  match value with
  | JObject values =>
      JObject (flat_map (fun entry =>
        if is_null (snd entry) then [] else [(fst entry, remove_null_object_fields (snd entry))]) values)
  | _ => value
  end.

(** The loop over the keys that are gone, for any kind of map. *)
Definition patch_removals (previous current patch : jmap) : jmap :=
  fold_left (fun patch entry =>
    if t_contains_key (fst entry) current then patch else t_insert (fst entry) JNull patch) previous patch.

Fixpoint create_merge_patch (previous current : JsonValue) {struct current} : option JsonValue :=
  if json_eqb previous current then None
  else
    match current with
    | JObject current =>
        let previous := as_object previous in
        let patch := match previous with Some previous => patch_removals previous current [] | None => [] end in
        Some (JObject (fold_left (fun patch entry =>
          match previous ≫= t_get (fst entry) with
          | None => t_insert (fst entry) (snd entry) patch
          | Some previous_value =>
              match create_merge_patch previous_value (snd entry) with
              | Some value_patch => t_insert (fst entry) value_patch patch
              | None => patch
              end
          end) current patch))
    | _ => Some current
    end.

Fixpoint apply_merge_patch_value (target patch : JsonValue) {struct patch} : JsonValue :=
  match patch with
  | JObject patch =>
      let target := match target with JObject target => target | _ => [] end in
      JObject (fold_left (fun target entry =>
        if is_null (snd entry) then t_remove (fst entry) target
        else
          match t_get (fst entry) target with
          | Some current => t_insert (fst entry) (apply_merge_patch_value current (snd entry)) target
          | None => t_insert (fst entry) (apply_merge_patch_value JNull (snd entry)) target
          end) patch target)
  | _ => patch
  end.

(** ** Snapshots *)

Record WorldStateSnapshot := mkSnapshot { snapshot_sections : jmap }.

(** [From<&Map<String, Value>>] *)
Definition snapshot_from (state : jmap) : WorldStateSnapshot :=
  mkSnapshot (fold_left (fun t entry => bt_insert (fst entry) (snd entry) t) state []).

Definition into_object (s : WorldStateSnapshot) : jmap := t_from_iter (snapshot_sections s).

Definition merge_patch_from (self previous : WorldStateSnapshot) : option jmap :=
  let patch := patch_removals (snapshot_sections previous) (snapshot_sections self) [] in
  let patch := fold_left (fun patch entry =>
    match t_get (fst entry) (snapshot_sections previous) with
    | Some previous =>
        match create_merge_patch previous (snd entry) with
        | Some value => t_insert (fst entry) value patch
        | None => patch
        end
    | None => t_insert (fst entry) (snd entry) patch
    end) (snapshot_sections self) patch in
  if is_nil patch then None else Some patch.

Definition apply_merge_patch (self : WorldStateSnapshot) (patch : jmap) : WorldStateSnapshot :=
  mkSnapshot (fold_left (fun sections entry =>
    if is_null (snd entry) then t_remove (fst entry) sections
    else
      match t_get (fst entry) sections with
      | Some current => bt_insert (fst entry) (apply_merge_patch_value current (snd entry)) sections
      | None => bt_insert (fst entry) (apply_merge_patch_value JNull (snd entry)) sections
      end) patch (snapshot_sections self)).

(** What is persisted ([protocol/src/protocol.rs]). *)
Record WorldStateItem := mkWorldStateItem { full : bool; state : jmap }.

(** ** Sections *)

Inductive PreviousSectionState (T : Type) :=
| Absent
| UnknownState
| Known (previous : T).
Arguments Absent {T}.
Arguments UnknownState {T}.
Arguments Known {T} previous.

Section sections.
Context {json : SerdeJson} {Fragment : Type}.

(** [WorldStateSection] with its [Serialize] and [Deserialize]; a failing
    serialisation is [None]. *)
Record WorldStateSection := mkSection {
  section_id : str;
  Snapshot : Type;
  section_snapshot : option JsonValue;
  deserialize_snapshot : JsonValue -> option Snapshot;
  should_persist : bool;
  matches_current_legacy_fragment : str -> str -> bool;
  section_has_retained_fragment_matcher : bool;
  section_matches_retained_fragment : str -> str -> bool;
  section_render_diff : PreviousSectionState Snapshot -> option Fragment }.

Record ErasedWorldStateSection := mkErased {
  erased_snapshot : option JsonValue;
  matches_legacy_fragment : str -> str -> bool;
  has_retained_fragment_matcher : bool;
  matches_retained_fragment : str -> str -> bool;
  erased_render_diff : PreviousSectionState JsonValue -> option Fragment }.

Definition non_null (v : JsonValue) : option JsonValue := if is_null v then None else Some v.

Definition erase (s : WorldStateSection) : ErasedWorldStateSection := {|
  erased_snapshot :=
    if negb (should_persist s) then None
    else section_snapshot s ≫= fun snapshot => non_null (remove_null_object_fields snapshot);
  matches_legacy_fragment := matches_current_legacy_fragment s;
  has_retained_fragment_matcher := section_has_retained_fragment_matcher s;
  matches_retained_fragment := section_matches_retained_fragment s;
  erased_render_diff previous :=
    section_render_diff s
      (match previous with
       | Known previous =>
           match deserialize_snapshot s previous with
           | Some previous => Known previous
           | None => UnknownState
           end
       | Absent => Absent
       | UnknownState => UnknownState
       end) |}.

(** [WorldStateSectionContribution] of an extension: its operations are those
    of the erased section, on the raw snapshot. *)
Record WorldStateSectionContribution := mkContribution {
  contribution_id : str;
  contribution_snapshot : JsonValue;
  contribution_legacy : str -> str -> bool;
  contribution_has_retained : bool;
  contribution_retained : str -> str -> bool;
  contribution_render : PreviousSectionState JsonValue -> option Fragment }.

Definition erase_extension (c : WorldStateSectionContribution) : ErasedWorldStateSection := {|
  erased_snapshot := non_null (remove_null_object_fields (contribution_snapshot c));
  matches_legacy_fragment := contribution_legacy c;
  has_retained_fragment_matcher := contribution_has_retained c;
  matches_retained_fragment := contribution_retained c;
  erased_render_diff := contribution_render c |}.

(** The live state; [None] is the panic of a duplicate section. *)
Record WorldState := mkWorldState { sections : list (str * ErasedWorldStateSection) }.

Definition world_state_new : WorldState := mkWorldState [].

Definition add_section (s : WorldStateSection) (w : WorldState) : option WorldState :=
  if t_contains_key (section_id s) (sections w) then None
  else Some (mkWorldState (t_insert (section_id s) (erase s) (sections w))).

(** [IndexMap::get_index_of] *)
Fixpoint get_index_of {A} (k : str) (t : list (str * A)) : option nat :=
  match t with
  | [] => None
  | (k', _) :: t' => if str_eqb k k' then Some 0 else S <$> get_index_of k t'
  end.

Definition add_extension_section (c : WorldStateSectionContribution) (w : WorldState) : option WorldState :=
  let id := contribution_id c in
  let erased := erase_extension c in
  if t_contains_key id (sections w) then None
  else
    match (if str_eqb id (lit "host_skills") then get_index_of (lit "permissions") (sections w) else None) with
    | Some index => Some (mkWorldState (take index (sections w) ++ (id, erased) :: drop index (sections w)))
    | None => Some (mkWorldState (t_insert id erased (sections w)))
    end.

Definition snapshot (w : WorldState) : WorldStateSnapshot :=
  mkSnapshot (fold_left (fun t entry =>
    match erased_snapshot (snd entry) with
    | Some snapshot => bt_insert (fst entry) snapshot t
    | None => t
    end) (sections w) []).

Definition render_with (previous : str -> ErasedWorldStateSection -> PreviousSectionState JsonValue)
    (w : WorldState) : list Fragment :=
  omap (fun entry => erased_render_diff (snd entry) (previous (fst entry) (snd entry))) (sections w).

Definition render_full (w : WorldState) : list Fragment := render_with (fun _ _ => Absent) w.

Definition render_diff (w : WorldState) (previous : WorldStateSnapshot) : list Fragment :=
  render_with (fun id _ =>
    match t_get id (snapshot_sections previous) with Some previous => Known previous | None => Absent end) w.

Definition has_fragment (matches : str -> str -> bool) (items : list ResponseItem) : bool :=
  existsb (fun i =>
    match i with
    | Message _ role content _ _ =>
        existsb (fun c => match c with Content.InputText text => matches role text | _ => false end) content
    | _ => false
    end) items.

Definition has_retained_fragment (items : list ResponseItem) (s : ErasedWorldStateSection) : bool :=
  has_fragment (matches_retained_fragment s) items.

Definition has_legacy_fragment (items : list ResponseItem) (s : ErasedWorldStateSection) : bool :=
  has_fragment (matches_legacy_fragment s) items.

Definition render_history_diff (w : WorldState) (previous : option WorldStateSnapshot) (items : list ResponseItem)
    : list Fragment :=
  render_with (fun id s =>
    match previous ≫= (fun p => t_get id (snapshot_sections p)) with
    | Some previous =>
        if has_retained_fragment_matcher s && negb (has_retained_fragment items s) then Absent else Known previous
    | None => if has_legacy_fragment items s then UnknownState else Absent
    end) w.

End sections.

(** ** Values up to the order of keys *)

Lemma json_ind' (P : JsonValue -> Prop) :
  P JNull -> (forall b, P (JBool b)) -> (forall n, P (JNumber n)) -> (forall s, P (JString s)) ->
  (forall items, (forall v, v ∈ items -> P v) -> P (JArray items)) ->
  (forall m, (forall k v, (k, v) ∈ m -> P v) -> P (JObject m)) ->
  forall v, P v.
Proof.
  intros Hn Hb Hnum Hs Ha Ho. fix IH 1. intros [ |b|n|s|items|m]; [done|apply Hb|apply Hnum|apply Hs| |].
  - apply Ha. induction items as [|x items IHi]; intros v Hv; [destruct (not_elem_of_nil _ Hv)|].
    apply elem_of_cons in Hv as [->|Hv]; [apply IH|exact (IHi _ Hv)].
  - apply Ho. induction m as [|[k' x] m IHm]; intros k v Hv; [destruct (not_elem_of_nil _ Hv)|].
    apply elem_of_cons in Hv as [[= -> ->]|Hv]; [apply IH|exact (IHm _ _ Hv)].
Qed.

Inductive step := Key (k : str) | Index (i : nat).
Inductive node := NScalar (v : JsonValue) | NArray (len : nat) | NObject.

Definition node_of (v : JsonValue) : node :=
  match v with JArray items => NArray (length items) | JObject _ => NObject | _ => NScalar v end.

(** What a value has at a path. *)
Fixpoint node_at (v : JsonValue) (path : list step) : option node :=
  match path with
  | [] => Some (node_of v)
  | Key k :: path => match v with JObject m => t_get k m ≫= fun v => node_at v path | _ => None end
  | Index i :: path => match v with JArray items => items !! i ≫= fun v => node_at v path | _ => None end
  end.

(** The same value, whatever the order of keys. *)
Definition same (a b : JsonValue) : Prop := forall path, node_at a path = node_at b path.

#[export] Instance same_equivalence : Equivalence same.
Proof. split; [by intros ? ?|by intros ? ? H p|intros ? ? ? H1 H2 p; by rewrite H1]. Qed.

(** Keys are unique, as in any map. *)
Fixpoint json_ok (v : JsonValue) : bool :=
  match v with
  | JArray items => forallb json_ok items
  | JObject m => bool_decide (NoDup (keys m)) && forallb (fun entry => json_ok (snd entry)) m
  | _ => true
  end.

(** No field of an object is null: null is a deletion in a patch. *)
Fixpoint no_null_fields (v : JsonValue) : bool :=
  match v with
  | JObject m => forallb (fun entry => negb (is_null (snd entry)) && no_null_fields (snd entry)) m
  | _ => true
  end.

Lemma json_ok_object m : json_ok (JObject m) = true <-> NoDup (keys m) /\ forall k v, (k, v) ∈ m -> json_ok v = true.
Proof.
  simpl. rewrite andb_true_iff, bool_decide_eq_true, forallb_forall. setoid_rewrite <- list_elem_of_In.
  split; intros [Hn H]; split; try done; [intros k v Hv; by apply (H _ Hv)|intros [k v] Hv; by eapply H].
Qed.

Lemma no_null_object m : no_null_fields (JObject m) = true <->
  forall k v, (k, v) ∈ m -> is_null v = false /\ no_null_fields v = true.
Proof.
  simpl. rewrite forallb_forall. setoid_rewrite <- list_elem_of_In. split.
  - intros H k v Hv. apply H in Hv. simpl in Hv. apply andb_true_iff in Hv as [Hv ?].
    by apply negb_true_iff in Hv.
  - intros H [k v] Hv. apply H in Hv as [Hv ?]. simpl. by rewrite Hv.
Qed.

Lemma same_object a b : (forall k p, (t_get k a ≫= fun v => node_at v p) = (t_get k b ≫= fun v => node_at v p)) ->
  same (JObject a) (JObject b).
Proof. intros H [|[k|i] p]; simpl; [done|apply H|done]. Qed.

(** At every key the two maps have nothing, or the same value. *)
Definition same_field (a b : option JsonValue) : Prop :=
  match a, b with Some v, Some w => same v w | None, None => True | _, _ => False end.

Lemma same_object_iff a b : same (JObject a) (JObject b) <-> forall k, same_field (t_get k a) (t_get k b).
Proof.
  split.
  - intros H k. assert (forall p, node_at (JObject a) (Key k :: p) = node_at (JObject b) (Key k :: p)) as Hp
      by (intros p; apply H).
    simpl in Hp. unfold same_field. destruct (t_get k a), (t_get k b); simpl in *; first [done|specialize (Hp []); done].
  - intros H. apply same_object. intros k p. specialize (H k). unfold same_field in H.
    destruct (t_get k a), (t_get k b); simpl; try done.
Qed.

(** The values that the code finds equal are the same. *)
Lemma keys_length {A} (t : list (str * A)) : length (keys t) = length t.
Proof. apply length_map. Qed.

Lemma json_eqb_same a : forall b, json_ok a = true -> json_ok b = true -> json_eqb a b = true -> same a b.
Proof.
  induction a as [|x|x|x|items IH|m IH] using json_ind'; intros b Ha Hb He; destruct b as [|y|y|y|items'|m']; try done.
  - simpl in He. apply eqb_prop in He as ->. done.
  - simpl in He. apply str_eqb_eq in He as ->. done.
  - simpl in He. apply str_eqb_eq in He as ->. done.
  - revert items' Hb He IH Ha. induction items as [|x items IHi]; intros [|y items'] Hb He IH Ha; try done.
    simpl in Ha, Hb, He. apply andb_true_iff in Ha as [Hx Ha], Hb as [Hy Hb], He as [He1 He2].
    assert (same (JArray items) (JArray items')) as Hs.
    { apply IHi; try done. intros v Hv. apply IH. by right. }
    intros [|[k|[|i]] p]; simpl; [|done| |].
    + specialize (Hs []). simpl in Hs. congruence.
    + apply IH; [by left|done..].
    + apply (Hs (Index i :: p)).
  - apply json_ok_object in Ha as [Hna Ha], Hb as [Hnb Hb]. simpl in He. apply andb_true_iff in He as [Hl He].
    apply Nat.eqb_eq in Hl. rewrite forallb_forall in He. setoid_rewrite <- list_elem_of_In in He.
    apply same_object_iff. intros k. unfold same_field. destruct (t_get k m) as [v|] eqn:Hk.
    { apply t_get_in in Hk. specialize (He _ Hk). simpl in He. destruct (t_get k m') as [w|] eqn:Hw; [|done].
      apply t_get_in in Hw. by eapply IH; eauto. }
    destruct (t_get k m') as [w|] eqn:Hw; [|done].
    assert (keys m' ⊆ keys m) as Hsub.
    { assert (keys m ≡ₚ keys m') as HP; [|intros x; by rewrite HP].
      apply submseteq_length_Permutation; [|rewrite !keys_length; lia].
      apply NoDup_submseteq; [done|]. intros x Hx. unfold keys in Hx. apply list_elem_of_fmap in Hx as ([x' v] & -> & Hv).
      specialize (He _ Hv). simpl in *. destruct (t_get x' m') eqn:Hg; [|done]. by eapply keys_in, t_get_in. }
    apply t_get_none in Hk. destruct Hk. apply Hsub. by eapply keys_in, t_get_in.
Qed.

(** ** Sorted maps *)

Lemma str_leb_refl a : str_leb a a = true.
Proof. induction a as [|x a IH]; [done|]. simpl. by rewrite N.ltb_irrefl, N.eqb_refl. Qed.

Lemma str_leb_trans a : forall b c, str_leb a b = true -> str_leb b c = true -> str_leb a c = true.
Proof.
  induction a as [|x a IH]; intros [|y b] [|z c] H1 H2; try done. simpl in *.
  rewrite orb_true_iff, andb_true_iff, N.ltb_lt, N.eqb_eq in *.
  destruct H1 as [H1|[-> H1]], H2 as [H2|[-> H2]]; [left; lia|by left|by left|right; eauto].
Qed.

Lemma str_leb_total a : forall b, str_leb a b = false -> str_leb b a = true.
Proof.
  induction a as [|x a IH]; intros [|y b] H; try done. simpl in *.
  rewrite orb_false_iff, andb_false_iff, N.ltb_ge, N.eqb_neq in H. rewrite orb_true_iff, andb_true_iff, N.ltb_lt, N.eqb_eq.
  destruct H as [H1 [H2|H2]]; [left; lia|]. destruct (decide (x = y)) as [->|]; [right; auto|left; lia].
Qed.

Lemma str_leb_antisym a : forall b, str_leb a b = true -> str_leb b a = true -> a = b.
Proof.
  induction a as [|x a IH]; intros [|y b] H1 H2; try done. simpl in *.
  rewrite orb_true_iff, andb_true_iff, N.ltb_lt, N.eqb_eq in *.
  destruct H1 as [H1|[-> H1]], H2 as [H2|[H2' H2]]; try lia. f_equal. auto.
Qed.

(** The keys of a [BTreeMap] are strictly increasing. *)
Definition str_lt (a b : str) : Prop := str_leb a b = true /\ a <> b.
Definition bt_ok {A} (t : list (str * A)) : Prop := StronglySorted str_lt (keys t).

Lemma str_lt_trans a b c : str_lt a b -> str_lt b c -> str_lt a c.
Proof.
  intros [H1 N1] [H2 N2]. split; [by eapply str_leb_trans|]. intros ->. apply N1. by apply str_leb_antisym.
Qed.

Section btree.
Context {A : Type}.
Implicit Types (t : list (str * A)).

Lemma bt_ok_nodup t : bt_ok t -> NoDup (keys t).
Proof.
  unfold bt_ok. generalize (keys t) as l. induction l as [|k l IH]; intros H; [constructor|].
  apply StronglySorted_inv in H as [H Hk]. constructor; [|by apply IH].
  intros Hin. rewrite Forall_forall in Hk. by destruct (Hk _ Hin).
Qed.

Lemma bt_insert_get k v t x : t_get x (bt_insert k v t) = if str_eqb x k then Some v else t_get x t.
Proof.
  induction t as [|[k' v'] t IH]; simpl; [done|]. key_cases; try congruence.
  all: destruct (str_leb k k'); simpl; key_cases; try congruence; by rewrite ?IH; key_cases.
Qed.

Lemma bt_insert_keys k v t x : x ∈ keys (bt_insert k v t) -> x = k \/ x ∈ keys t.
Proof.
  induction t as [|[k' v'] t IH]; simpl; [set_solver|]. key_cases; [set_solver|].
  destruct (str_leb k k'); simpl; set_solver.
Qed.

Lemma bt_insert_ok k v t : bt_ok t -> bt_ok (bt_insert k v t).
Proof.
  unfold bt_ok. induction t as [|[k' v'] t IH]; simpl; intros H; [repeat constructor|].
  apply StronglySorted_inv in H as [H Hk]. key_cases; [by constructor|].
  destruct (str_leb k k') eqn:E; simpl.
  - constructor; [by constructor|]. constructor; [done|]. eapply Forall_impl; [done|].
    intros x Hx. by eapply str_lt_trans.
  - constructor; [by apply IH|]. rewrite Forall_forall in Hk. apply Forall_forall. intros x Hx.
    apply bt_insert_keys in Hx as [->|Hx]; [|by apply Hk]. split; [by apply str_leb_total|done].
Qed.

Lemma t_remove_ok k t : bt_ok t -> bt_ok (t_remove k t).
Proof.
  unfold bt_ok. induction t as [|[k' v'] t IH]; simpl; intros H; [done|].
  apply StronglySorted_inv in H as [H Hk]. key_cases. constructor; [by apply IH|].
  rewrite Forall_forall in *. intros x Hx. apply Hk. by eapply keys_remove_sub.
Qed.

End btree.

(** ** What a patch does to a map *)

Section patching.
Context (ins : str -> JsonValue -> jmap -> jmap) (I : jmap -> Prop).
Hypothesis I_nodup : forall t, I t -> NoDup (keys t).
Hypothesis ins_get : forall k v t x, t_get x (ins k v t) = if str_eqb x k then Some v else t_get x t.
Hypothesis ins_ok : forall k v t, I t -> I (ins k v t).
Hypothesis remove_ok : forall k t, I t -> I (t_remove k t).

Definition patch_entry (sections : jmap) (entry : str * JsonValue) : jmap :=
  if is_null (snd entry) then t_remove (fst entry) sections
  else
    match t_get (fst entry) sections with
    | Some current => ins (fst entry) (apply_merge_patch_value current (snd entry)) sections
    | None => ins (fst entry) (apply_merge_patch_value JNull (snd entry)) sections
    end.

Definition patched (old change : option JsonValue) : option JsonValue :=
  match change with
  | None => old
  | Some v => if is_null v then None else Some (apply_merge_patch_value (default JNull old) v)
  end.

Lemma patch_entry_ok t entry : I t -> I (patch_entry t entry).
Proof. unfold patch_entry. intros H. destruct (is_null _); [auto|]. destruct (t_get _ t); auto. Qed.

Lemma patch_entry_get t entry k : I t ->
  t_get k (patch_entry t entry) = if str_eqb k (fst entry) then patched (t_get k t) (Some (snd entry)) else t_get k t.
Proof.
  intros H. unfold patch_entry, patched. destruct (is_null _).
  - rewrite t_get_remove by auto. key_cases.
  - destruct (t_get (fst entry) t) eqn:E; rewrite ins_get; key_cases; by rewrite E.
Qed.

Lemma fold_patch_get patch t k : I t -> NoDup (keys patch) ->
  t_get k (fold_left patch_entry patch t) = patched (t_get k t) (t_get k patch).
Proof.
  revert t. induction patch as [|[k' v] patch IH]; intros t Ht Hn; [done|]. simpl in *.
  apply NoDup_cons in Hn as [Hk Hn]. rewrite IH by auto using patch_entry_ok.
  rewrite patch_entry_get by done. simpl. key_cases; try done.
  apply t_get_none in Hk. by rewrite Hk.
Qed.

End patching.

Definition fields (v : JsonValue) : jmap := match v with JObject m => m | _ => [] end.

Lemma fields_nodup v : json_ok v = true -> NoDup (keys (fields v)).
Proof. destruct v; intros H; try constructor. by apply json_ok_object in H as [? _]. Qed.

Lemma apply_object_get t patch k : json_ok t = true -> NoDup (keys patch) ->
  t_get k (fields (apply_merge_patch_value t (JObject patch))) = patched (t_get k (fields t)) (t_get k patch).
Proof.
  intros Ht Hp. apply (fold_patch_get t_insert (fun m => NoDup (keys m)));
    auto using t_get_insert, keys_insert_nodup, keys_remove_nodup. by apply fields_nodup.
Qed.

Lemma apply_snapshot_get s patch k : bt_ok (snapshot_sections s) -> NoDup (keys patch) ->
  t_get k (snapshot_sections (apply_merge_patch s patch)) = patched (t_get k (snapshot_sections s)) (t_get k patch).
Proof.
  intros Hs Hp. apply (fold_patch_get bt_insert bt_ok);
    eauto using bt_ok_nodup, bt_insert_get, bt_insert_ok, t_remove_ok.
Qed.

(** A patch without deletions over nothing is its own content. *)
Lemma apply_to_null v : json_ok v = true -> no_null_fields v = true -> same (apply_merge_patch_value JNull v) v.
Proof.
  induction v as [|x|x|x|items IH|m IH] using json_ind'; intros Hok Hc; try done.
  apply json_ok_object in Hok as Hok'. destruct Hok' as [Hn Hv]. rewrite no_null_object in Hc.
  change (apply_merge_patch_value JNull (JObject m)) with (JObject (fields (apply_merge_patch_value JNull (JObject m)))).
  apply same_object_iff. intros k. rewrite apply_object_get by done. unfold patched.
  destruct (t_get k m) as [v|] eqn:Hk; [|done]. apply t_get_in in Hk. destruct (Hc _ _ Hk) as [-> Hcv]. simpl.
  by eapply IH; eauto.
Qed.

(** ** What the created patch says about a key *)

Definition created (previous current : option JsonValue) : option JsonValue :=
  match current, previous with
  | Some c, Some p => create_merge_patch p c
  | Some c, None => Some c
  | None, Some _ => Some JNull
  | None, None => None
  end.

Lemma removals_get previous current patch k :
  t_get k (patch_removals previous current patch)
  = if t_contains_key k previous && negb (t_contains_key k current) then Some JNull else t_get k patch.
Proof.
  unfold patch_removals. revert patch. induction previous as [|[k' v] previous IH]; intros patch; [done|]. simpl.
  rewrite IH. unfold t_contains_key at 1 4. simpl. unfold t_contains_key.
  destruct (t_get k' current) eqn:E'; key_cases; rewrite ?E', ?t_get_insert; key_cases;
    by destruct (t_get k' previous).
Qed.

Lemma removals_nodup previous current patch : NoDup (keys patch) -> NoDup (keys (patch_removals previous current patch)).
Proof.
  unfold patch_removals. revert patch. induction previous as [|[k v] previous IH]; intros patch H; [done|].
  simpl. apply IH. destruct t_contains_key; auto using keys_insert_nodup.
Qed.

Section creating.
Context (prev : str -> option JsonValue).

Definition create_entry (patch : jmap) (entry : str * JsonValue) : jmap :=
  match prev (fst entry) with
  | None => t_insert (fst entry) (snd entry) patch
  | Some previous_value =>
      match create_merge_patch previous_value (snd entry) with
      | Some value_patch => t_insert (fst entry) value_patch patch
      | None => patch
      end
  end.

Lemma create_entry_nodup current patch : NoDup (keys patch) -> NoDup (keys (fold_left create_entry current patch)).
Proof.
  revert patch. induction current as [|e current IH]; intros patch H; [done|]. simpl. apply IH.
  unfold create_entry. destruct (prev _); [destruct create_merge_patch|]; auto using keys_insert_nodup.
Qed.

Lemma create_entry_get current patch k : NoDup (keys current) ->
  t_get k (fold_left create_entry current patch)
  = match t_get k current with
    | Some c => match created (prev k) (Some c) with Some x => Some x | None => t_get k patch end
    | None => t_get k patch
    end.
Proof.
  revert patch. induction current as [|[k' v] current IH]; intros patch Hn; [done|]. simpl in *.
  apply NoDup_cons in Hn as [Hk Hn]. rewrite IH by done. apply t_get_none in Hk. unfold create_entry, created. simpl.
  key_cases.
  - rewrite Hk. destruct (prev k'); [destruct create_merge_patch|]; by rewrite ?t_get_insert_eq.
  - destruct (t_get k current) as [c|].
    + destruct (prev k) as [p|]; [|done]. destruct (create_merge_patch p c); [done|].
      destruct (prev k'); [destruct create_merge_patch|]; by rewrite ?t_get_insert_ne.
    + destruct (prev k'); [destruct create_merge_patch|]; by rewrite ?t_get_insert_ne.
Qed.

End creating.

(** Both the patch of an object and that of a snapshot. *)
Definition created_patch (previous current : jmap) : jmap :=
  fold_left (create_entry (fun k => t_get k previous)) current (patch_removals previous current []).

Lemma created_patch_nodup previous current : NoDup (keys (created_patch previous current)).
Proof. apply create_entry_nodup, removals_nodup. constructor. Qed.

Lemma created_patch_get previous current k : NoDup (keys current) ->
  t_get k (created_patch previous current) = created (t_get k previous) (t_get k current).
Proof.
  intros Hn. unfold created_patch. rewrite create_entry_get by done. rewrite removals_get. unfold t_contains_key, created.
  destruct (t_get k current) as [c|], (t_get k previous) as [p|]; simpl; try done. by destruct create_merge_patch.
Qed.

Lemma create_object previous m : json_eqb previous (JObject m) = false ->
  create_merge_patch previous (JObject m) = Some (JObject (created_patch (fields previous) m)).
Proof. intros H. simpl. rewrite H. by destruct previous. Qed.

Lemma create_not_null p c x : is_null c = false -> create_merge_patch p c = Some x -> is_null x = false.
Proof. destruct c; intros Hc Hx; simpl in *; try done; destruct (json_eqb _ _); simplify_eq; done. Qed.

(** ** Patches round trip *)

Lemma get_ok m k v : json_ok (JObject m) = true -> t_get k m = Some v -> json_ok v = true.
Proof. intros [_ H]%json_ok_object Hv%t_get_in. by eapply H. Qed.

Lemma get_no_null m k v : no_null_fields (JObject m) = true -> t_get k m = Some v ->
  is_null v = false /\ no_null_fields v = true.
Proof. intros H Hv%t_get_in. rewrite no_null_object in H. by eapply H. Qed.

(** Applying the created change to the old field gives the new one, provided
    that it does so for the values below it. *)
Lemma patched_created old new :
  (forall p c, old = Some p -> new = Some c ->
     same (match create_merge_patch p c with Some x => apply_merge_patch_value p x | None => p end) c) ->
  (forall c, new = Some c -> json_ok c = true /\ is_null c = false /\ no_null_fields c = true) ->
  same_field (patched old (created old new)) new.
Proof.
  intros Hrec Hc. unfold patched, created. destruct new as [c|].
  - destruct (Hc c eq_refl) as (Hok & Hn & Hf). destruct old as [p|]; simpl.
    + specialize (Hrec p c eq_refl eq_refl). destruct (create_merge_patch p c) as [x|] eqn:Hx; [|done].
      by rewrite (create_not_null p c x).
    + rewrite Hn. simpl. by apply apply_to_null.
  - by destruct old.
Qed.

Lemma merge_patch_value_round_trip c : forall p, json_ok p = true -> json_ok c = true -> no_null_fields c = true ->
  same (match create_merge_patch p c with Some x => apply_merge_patch_value p x | None => p end) c.
Proof.
  induction c as [|x|x|x|items IH|m IH] using json_ind'; intros p Hp Hc Hf.
  6: destruct (json_eqb p (JObject m)) eqn:E; [simpl; rewrite E; by apply json_eqb_same|].
  6: rewrite create_object by done.
  1-5: simpl; destruct (json_eqb p _) eqn:E; [by apply json_eqb_same|done].
  change (apply_merge_patch_value p (JObject (created_patch (fields p) m)))
    with (JObject (fields (apply_merge_patch_value p (JObject (created_patch (fields p) m))))).
  apply same_object_iff. intros k. apply json_ok_object in Hc as Hc'. destruct Hc' as [Hn Hv].
  rewrite apply_object_get by auto using created_patch_nodup. rewrite created_patch_get by done.
  apply patched_created.
  - intros v w Hvk Hwk. destruct (get_no_null m k w) as [_ Hfw]; [done..|].
    eapply IH; [by eapply t_get_in| |by eapply get_ok|done].
    destruct p; simpl in Hvk; try done. by apply (get_ok _ _ _ Hp Hvk).
  - intros w Hw. split; [by eapply get_ok|by eapply get_no_null].
Qed.

(** A snapshot as the program takes it: a sorted map of values without null
    fields. *)
Definition snapshot_ok (s : WorldStateSnapshot) : Prop :=
  bt_ok (snapshot_sections s) /\ json_ok (JObject (snapshot_sections s)) = true
  /\ no_null_fields (JObject (snapshot_sections s)) = true.

Definition same_snapshot (a b : WorldStateSnapshot) : Prop :=
  same (JObject (snapshot_sections a)) (JObject (snapshot_sections b)).

Lemma merge_patch_created self previous :
  merge_patch_from self previous
  = let patch := created_patch (snapshot_sections previous) (snapshot_sections self) in
    if is_nil patch then None else Some patch.
Proof.
  unfold merge_patch_from, created_patch.
  assert (forall l patch, fold_left (fun patch entry =>
    match t_get (fst entry) (snapshot_sections previous) with
    | Some previous => match create_merge_patch previous (snd entry) with
                       | Some value => t_insert (fst entry) value patch
                       | None => patch
                       end
    | None => t_insert (fst entry) (snd entry) patch
    end) l patch = fold_left (create_entry (fun k => t_get k (snapshot_sections previous))) l patch) as H; [|by rewrite H].
  induction l as [|e l IH]; intros patch; [done|]. simpl. rewrite IH. unfold create_entry. by destruct (t_get _ _).
Qed.

Lemma snapshot_patch_fields previous self k : bt_ok (snapshot_sections previous) -> snapshot_ok self ->
  t_get k (snapshot_sections (match merge_patch_from self previous with
                              | Some patch => apply_merge_patch previous patch
                              | None => previous
                              end))
  = patched (t_get k (snapshot_sections previous))
      (created (t_get k (snapshot_sections previous)) (t_get k (snapshot_sections self))).
Proof.
  intros Hp (Hs & Hok & _). apply json_ok_object in Hok as [Hn _].
  rewrite <- (created_patch_get _ _ k Hn), merge_patch_created. simpl.
  destruct (is_nil _) eqn:E; [|by apply apply_snapshot_get; [|apply created_patch_nodup]].
  apply is_nil_true in E. by rewrite E.
Qed.

Lemma snapshot_round_trip previous self : snapshot_ok previous -> snapshot_ok self ->
  same_snapshot (match merge_patch_from self previous with
                 | Some patch => apply_merge_patch previous patch
                 | None => previous
                 end) self.
Proof.
  intros (Hb & Hok & _) Hs. apply same_object_iff. intros k. rewrite snapshot_patch_fields by done.
  destruct Hs as (_ & Hsok & Hsn). apply patched_created.
  - intros p c Hpk Hck. apply merge_patch_value_round_trip;
      [exact (get_ok _ _ _ Hok Hpk)|exact (get_ok _ _ _ Hsok Hck)|by apply (get_no_null _ _ _ Hsn Hck)].
  - intros c Hc. split; [exact (get_ok _ _ _ Hsok Hc)|by apply (get_no_null _ _ _ Hsn Hc)].
Qed.

(** ** Patched values stay maps, and patches respect sameness *)

Lemma bt_insert_in {A} k v (t : list (str * A)) x w : (x, w) ∈ bt_insert k v t -> (x = k /\ w = v) \/ (x, w) ∈ t.
Proof.
  induction t as [|[k' v'] t IH]; simpl; [set_solver|]. key_cases; [set_solver|]. destruct (str_leb k k'); set_solver.
Qed.

Definition values_ok (t : jmap) : Prop := forall k v, (k, v) ∈ t -> json_ok v = true.

Lemma fold_patch_values (ins : str -> JsonValue -> jmap -> jmap) patch :
  (forall k v t x w, (x, w) ∈ ins k v t -> (x = k /\ w = v) \/ (x, w) ∈ t) ->
  (forall k v, (k, v) ∈ patch -> forall t, json_ok t = true -> json_ok (apply_merge_patch_value t v) = true) ->
  forall t, values_ok t -> values_ok (fold_left (patch_entry ins) patch t).
Proof.
  intros Hins. induction patch as [|[k v] patch IH]; intros Hp t Ht; [done|]. simpl. apply IH.
  { intros x w Hw. by apply (Hp x w); right. }
  assert (forall cur, json_ok cur = true -> json_ok (apply_merge_patch_value cur v) = true) as Hv
    by (apply (Hp k); left).
  unfold patch_entry. simpl. destruct (is_null v).
  - intros x w Hw%t_remove_in. by eapply Ht.
  - destruct (t_get k t) as [cur|] eqn:Hk; intros x w Hw; apply Hins in Hw as [[-> ->]|Hw]; eauto.
    apply Hv. by eapply Ht, t_get_in.
Qed.

Lemma apply_value_ok p : forall t, json_ok p = true -> json_ok t = true -> json_ok (apply_merge_patch_value t p) = true.
Proof.
  induction p as [|x|x|x|items IH|m IH] using json_ind'; intros t Hp Ht; try done.
  apply json_ok_object in Hp as [Hn Hp].
  change (apply_merge_patch_value t (JObject m)) with (JObject (fold_left (patch_entry t_insert) m (fields t))).
  apply json_ok_object. split.
  - assert (forall l u, NoDup (keys u) -> NoDup (keys (fold_left (patch_entry t_insert) l u))) as H.
    { induction l as [|e l IHl]; intros u Hu; [done|]. simpl. apply IHl.
      apply (patch_entry_ok t_insert (fun m => NoDup (keys m))); auto using keys_insert_nodup, keys_remove_nodup. }
    apply H. by apply fields_nodup.
  - apply fold_patch_values; [apply t_insert_in| |].
    + intros k v Hv u Hu. by eapply IH; eauto.
    + intros k v Hv. destruct t; simpl in Hv; try (by apply not_elem_of_nil in Hv). apply json_ok_object in Ht as [_ Ht]. eauto.
Qed.

Lemma patched_same old old' change :
  same_field old old' ->
  (forall v a b, change = Some v -> old = Some a -> old' = Some b -> same a b ->
     same (apply_merge_patch_value a v) (apply_merge_patch_value b v)) ->
  same_field (patched old change) (patched old' change).
Proof.
  intros H Hv. unfold patched. destruct change as [v|]; [|done]. destruct (is_null v); [done|].
  unfold same_field in *. destruct old as [a|], old' as [b|]; simpl; try done. by apply Hv.
Qed.

Lemma fields_same a b : same a b -> forall k, same_field (t_get k (fields a)) (t_get k (fields b)).
Proof.
  intros H. assert (node_of a = node_of b) as Hn by (specialize (H []); simpl in H; congruence).
  destruct a, b; try done. by apply same_object_iff.
Qed.

Lemma apply_value_same p : forall a b, json_ok p = true -> json_ok a = true -> json_ok b = true -> same a b ->
  same (apply_merge_patch_value a p) (apply_merge_patch_value b p).
Proof.
  induction p as [|x|x|x|items IH|m IH] using json_ind'; intros a b Hp Ha Hb Hs; try done.
  apply json_ok_object in Hp as Hp'. destruct Hp' as [Hn Hv].
  change (same (JObject (fields (apply_merge_patch_value a (JObject m)))) (JObject (fields (apply_merge_patch_value b (JObject m))))).
  apply same_object_iff. intros k. rewrite !apply_object_get by done. apply patched_same; [by apply fields_same|].
  intros v x y Hk Hx Hy Hxy. apply t_get_in in Hk. eapply IH; eauto.
  - destruct a; simpl in Hx; try done. exact (get_ok _ _ _ Ha Hx).
  - destruct b; simpl in Hy; try done. exact (get_ok _ _ _ Hb Hy).
Qed.

(** ** A rollout of snapshots *)

(** What [ContextManager::update_world_state] persists for a snapshot. *)
Definition snapshot_full (s : WorldStateSnapshot) : WorldStateItem := mkWorldStateItem true (into_object s).
Definition snapshot_patch (s previous : WorldStateSnapshot) : option WorldStateItem :=
  mkWorldStateItem false <$> merge_patch_from s previous.

Definition persisted (baseline : option WorldStateSnapshot) (s : WorldStateSnapshot) : option WorldStateItem :=
  match baseline with
  | None => Some (snapshot_full s)
  | Some previous => snapshot_patch s previous
  end.

(** One record of the replay of a rollout; a patch without a full snapshot
    before it is ignored. *)
Definition restore (baseline : option WorldStateSnapshot) (i : WorldStateItem) : option WorldStateSnapshot :=
  if full i then Some (snapshot_from (state i))
  else match baseline with Some b => Some (apply_merge_patch b (state i)) | None => None end.

Fixpoint persist_all (baseline : option WorldStateSnapshot) (snapshots : list WorldStateSnapshot) : list WorldStateItem :=
  match snapshots with
  | [] => []
  | s :: snapshots => option_list (persisted baseline s) ++ persist_all (Some s) snapshots
  end.

(** The replayed snapshot stands for the live one. *)
Definition restored (live replayed : option WorldStateSnapshot) : Prop :=
  match live, replayed with
  | None, None => True
  | Some s, Some b =>
      snapshot_ok s /\ same_snapshot b s /\ bt_ok (snapshot_sections b) /\ values_ok (snapshot_sections b)
  | _, _ => False
  end.

Lemma snapshot_from_facts (l : jmap) : NoDup (keys l) -> values_ok l ->
  let t := snapshot_sections (snapshot_from l) in
  bt_ok t /\ values_ok t /\ forall k, t_get k t = t_get k l.
Proof.
  intros Hn Hv. unfold snapshot_from. simpl.
  assert (forall acc, bt_ok acc -> values_ok acc ->
    let t := fold_left (fun t entry => bt_insert (fst entry) (snd entry) t) l acc in
    bt_ok t /\ values_ok t /\ forall k, t_get k t = match t_get k l with Some v => Some v | None => t_get k acc end) as H.
  { induction l as [|[k' v'] l IH]; intros acc Hb Ha; [done|]. simpl in *. apply NoDup_cons in Hn as [Hk Hn].
    destruct (IH Hn) with (acc := bt_insert k' v' acc) as (H1 & H2 & H3).
    - intros x w Hw. eapply Hv. by right.
    - by apply bt_insert_ok.
    - intros x w [[-> ->]|Hw]%bt_insert_in; [by eapply Hv; left|by eapply Ha].
    - split_and!; [done..|]. intros k. rewrite H3, bt_insert_get. apply t_get_none in Hk.
      key_cases. by rewrite Hk. }
  destruct (H []) as (H1 & H2 & H3); [constructor|by intros ? ? ?%not_elem_of_nil|].
  split_and!; [done..|]. intros k. rewrite H3. by destruct (t_get k l).
Qed.

Lemma create_ok c : forall p x, json_ok p = true -> json_ok c = true -> create_merge_patch p c = Some x -> json_ok x = true.
Proof.
  induction c as [|b|b|b|items IH|m IH] using json_ind'; intros p x Hp Hc Hx.
  6: destruct (json_eqb p (JObject m)) eqn:E; [simpl in Hx; by rewrite E in Hx|].
  6: rewrite create_object in Hx by done.
  1-5: simpl in Hx; destruct (json_eqb p _); by simplify_eq.
  injection Hx as <-. apply json_ok_object. split; [apply created_patch_nodup|].
  intros k v Hv. apply (t_in_get _ _ _ (created_patch_nodup _ _)) in Hv.
  apply json_ok_object in Hc as Hc'. destruct Hc' as [Hn _]. rewrite created_patch_get in Hv by done.
  unfold created in Hv. destruct (t_get k m) as [c|] eqn:Hk, (t_get k (fields p)) as [q|] eqn:Hq; simplify_eq.
  - eapply IH; [by eapply t_get_in| |exact (get_ok _ _ _ Hc Hk)|done]. destruct p; simpl in Hq; try done.
    exact (get_ok _ _ _ Hp Hq).
  - exact (get_ok _ _ _ Hc Hk).
  - done.
Qed.

Lemma merge_patch_ok self previous patch : json_ok (JObject (snapshot_sections previous)) = true -> snapshot_ok self ->
  merge_patch_from self previous = Some patch -> NoDup (keys patch) /\ values_ok patch.
Proof.
  intros Hp (_ & Hs & _). rewrite merge_patch_created. simpl. destruct (is_nil _); intros [= <-].
  split; [apply created_patch_nodup|]. intros k v Hv. apply (t_in_get _ _ _ (created_patch_nodup _ _)) in Hv.
  apply json_ok_object in Hs as Hs'. destruct Hs' as [Hn _]. rewrite created_patch_get in Hv by done. unfold created in Hv.
  destruct (t_get k (snapshot_sections self)) as [c|] eqn:Hk, (t_get k (snapshot_sections previous)) as [q|] eqn:Hq; simplify_eq.
  - exact (create_ok _ _ _ (get_ok _ _ _ Hp Hq) (get_ok _ _ _ Hs Hk) Hv).
  - exact (get_ok _ _ _ Hs Hk).
  - done.
Qed.

Lemma bt_values_ok t : bt_ok t -> values_ok t -> json_ok (JObject t) = true.
Proof. intros Hb Hv. apply json_ok_object. split; [by apply bt_ok_nodup|done]. Qed.

Lemma apply_snapshot_facts b patch : bt_ok (snapshot_sections b) -> values_ok (snapshot_sections b) ->
  NoDup (keys patch) -> values_ok patch ->
  bt_ok (snapshot_sections (apply_merge_patch b patch)) /\ values_ok (snapshot_sections (apply_merge_patch b patch)).
Proof.
  intros Hb Hv Hn Hp. split.
  - change (bt_ok (fold_left (patch_entry bt_insert) patch (snapshot_sections b))). clear Hn Hp Hv.
    revert Hb. generalize (snapshot_sections b) as t. induction patch as [|e patch IH]; intros t Ht; [done|]. simpl. apply IH.
    by apply patch_entry_ok; auto using bt_insert_ok, t_remove_ok.
  - change (values_ok (fold_left (patch_entry bt_insert) patch (snapshot_sections b))).
    apply fold_patch_values; [apply bt_insert_in| |done]. intros k v Hkv t Ht. apply apply_value_ok; [by eapply Hp|done].
Qed.

Lemma restore_persisted live replayed s : restored live replayed -> snapshot_ok s ->
  restored (Some s) (match persisted live s with Some i => restore replayed i | None => replayed end).
Proof.
  intros HR Hs. destruct live as [l|]; simpl.
  - destruct replayed as [b|]; [|done]. destruct HR as (Hl & Hbl & Hb & Hv).
    pose proof (snapshot_round_trip l s Hl Hs) as Hrt. unfold snapshot_patch.
    destruct (merge_patch_from s l) as [patch|] eqn:Hp; simpl.
    + destruct (merge_patch_ok s l patch) as [Hn Hpv]; [apply Hl|done..|]. destruct Hl as (Hlb & Hlok & _).
      destruct (apply_snapshot_facts b patch) as [H1 H2]; [done..|]. split_and!; try done.
      unfold same_snapshot in *. etrans; [|exact Hrt]. apply same_object_iff. intros k.
      rewrite !apply_snapshot_get by done. apply patched_same; [by apply same_object_iff|].
      intros v x y Hk Hx Hy Hxy. apply apply_value_same; [by eapply Hpv, t_get_in| | |done].
      * exact (get_ok _ _ _ (bt_values_ok _ Hb Hv) Hx).
      * exact (get_ok _ _ _ Hlok Hy).
    + split_and!; try done. unfold same_snapshot in *. by etrans.
  - destruct replayed as [b|]; [done|]. unfold restore. simpl. unfold into_object.
    destruct Hs as (Hb & Hok & Hnn). apply json_ok_object in Hok as Hok'. destruct Hok' as [Hn Hv].
    rewrite t_from_iter_id by done. destruct (snapshot_from_facts (snapshot_sections s)) as (H1 & H2 & H3); [done..|].
    split_and!; try done. apply same_object_iff. intros k. rewrite H3. unfold same_field. by destruct (t_get _ _).
Qed.

Lemma persist_all_restored snapshots : forall live replayed, restored live replayed -> Forall snapshot_ok snapshots ->
  restored (default live (Some <$> last snapshots)) (fold_left restore (persist_all live snapshots) replayed).
Proof.
  induction snapshots as [|s snapshots IH]; intros live replayed HR Hs; [done|].
  apply Forall_cons in Hs as [Hs Hr]. simpl. rewrite fold_left_app.
  assert (fold_left restore (option_list (persisted live s)) replayed
          = match persisted live s with Some i => restore replayed i | None => replayed end) as -> by (by destruct persisted).
  specialize (IH (Some s) _ (restore_persisted _ _ _ HR Hs) Hr).
  destruct snapshots as [|s' snapshots]; [done|]. change (last (s :: s' :: snapshots)) with (last (s' :: snapshots)).
  destruct (last_is_Some (s' :: snapshots)) as [_ Hl]. destruct (Hl ltac:(done)) as [y Hy]. rewrite Hy in *. exact IH.
Qed.

(** ** Live states *)

Lemma remove_null_not_null v : is_null (remove_null_object_fields v) = is_null v.
Proof. by destruct v. Qed.

Lemma removed_in m k v : (k, v) ∈ flat_map (fun entry : str * JsonValue =>
    if is_null (snd entry) then [] else [(fst entry, remove_null_object_fields (snd entry))]) m ->
  exists w, (k, w) ∈ m /\ is_null w = false /\ v = remove_null_object_fields w.
Proof.
  rewrite list_elem_of_In, in_flat_map. intros ([k' w] & Hw & Hin). simpl in Hin.
  destruct (is_null w) eqn:Hn; simpl in Hin; [done|]. destruct Hin as [[= -> <-]|[]].
  exists w. split_and!; try done. by apply list_elem_of_In.
Qed.

Lemma remove_null_facts v : json_ok v = true ->
  json_ok (remove_null_object_fields v) = true /\ no_null_fields (remove_null_object_fields v) = true.
Proof.
  induction v as [|x|x|x|items IH|m IH] using json_ind'; intros Hok; try done.
  apply json_ok_object in Hok as [Hn Hv]. cbn [remove_null_object_fields]. split.
  - apply json_ok_object. split.
    + assert (keys (flat_map (fun entry : str * JsonValue => if is_null (snd entry) then []
        else [(fst entry, remove_null_object_fields (snd entry))]) m) `sublist_of` keys m) as Hsub.
      { clear. induction m as [|[k v] m IH]; simpl; [done|]. destruct (is_null v); simpl; by constructor. }
      by eapply sublist_NoDup.
    + intros k v (w & Hw & _ & ->)%removed_in. by apply (IH k); eauto.
  - apply no_null_object. intros k v (w & Hw & Hnw & ->)%removed_in.
    rewrite remove_null_not_null. split; [done|]. by apply (IH k); eauto.
Qed.

(** World states are built section by section from serialised values. *)
Inductive built {Fragment : Type} : @WorldState Fragment -> Prop :=
| built_new : built world_state_new
| built_section w s w' : built w -> (forall v, section_snapshot s = Some v -> json_ok v = true) ->
    add_section s w = Some w' -> built w'
| built_extension w c w' : built w -> json_ok (contribution_snapshot c) = true ->
    add_extension_section c w = Some w' -> built w'.

Section live.
Context {Fragment : Type}.
Implicit Types (w : @WorldState Fragment).

Definition field_ok (v : JsonValue) : Prop := json_ok v = true /\ is_null v = false /\ no_null_fields v = true.

Definition sections_ok w : Prop :=
  NoDup (keys (sections w))
  /\ forall id s v, (id, s) ∈ sections w -> erased_snapshot s = Some v -> field_ok v.

Lemma non_null_ok raw v : json_ok raw = true -> non_null (remove_null_object_fields raw) = Some v -> field_ok v.
Proof.
  intros Hraw. unfold non_null. destruct (is_null _) eqn:Hn; [done|]. intros [= <-].
  destruct (remove_null_facts raw Hraw). by split_and!.
Qed.

Lemma erase_ok (s : @WorldStateSection Fragment) v : (forall raw, section_snapshot s = Some raw -> json_ok raw = true) ->
  erased_snapshot (erase s) = Some v -> field_ok v.
Proof.
  intros Hs. simpl. destruct (should_persist s); simpl; [|done]. destruct (section_snapshot s) as [raw|]; [|done]. simpl.
  apply non_null_ok. auto.
Qed.

Lemma built_sections_ok w : built w -> sections_ok w.
Proof.
  induction 1 as [|w s w' _ [Hn IH] Hs Ha|w c w' _ [Hn IH] Hc Ha].
  - split; [constructor|by intros ? ? ? ?%not_elem_of_nil].
  - unfold add_section in Ha. destruct (t_contains_key _ _); simplify_eq. split; [by apply keys_insert_nodup|].
    intros id e v [[-> ->]|He]%t_insert_in Hv; [by eapply erase_ok|by eapply IH].
  - unfold add_extension_section in Ha. destruct (t_contains_key _ _) eqn:Hk; [done|].
    assert (contribution_id c ∉ keys (sections w)) as Hfresh.
    { apply t_get_none. unfold t_contains_key in Hk. by destruct t_get. }
    destruct (if str_eqb _ _ then _ else _) as [i|]; simplify_eq; split; simpl.
    + unfold keys. rewrite map_app. simpl. rewrite <- Permutation_middle, <- map_app, take_drop. by constructor.
    + intros id e v He Hv. apply elem_of_app in He as [He|He]; [by eapply IH; [eapply elem_of_sublist; [exact He|apply sublist_take]|]|].
      apply elem_of_cons in He as [[= -> ->]|He]; [by eapply non_null_ok|by eapply IH; [eapply elem_of_sublist; [exact He|apply sublist_drop]|]].
    + by apply keys_insert_nodup.
    + intros id e v [[-> ->]|He]%t_insert_in Hv; [by eapply non_null_ok|by eapply IH].
Qed.

Lemma snapshot_built_ok w : built w -> snapshot_ok (snapshot w).
Proof.
  intros [_ H]%built_sections_ok. unfold snapshot_ok, snapshot. simpl.
  assert (forall l acc, (forall id s v, (id, s) ∈ l -> erased_snapshot s = Some v -> field_ok v) ->
    bt_ok acc -> (forall k v, (k, v) ∈ acc -> field_ok v) ->
    let t := fold_left (fun t (entry : str * @ErasedWorldStateSection Fragment) => match erased_snapshot (snd entry) with
      | Some snapshot => bt_insert (fst entry) snapshot t | None => t end) l acc in
    bt_ok t /\ forall k v, (k, v) ∈ t -> field_ok v) as Hf.
  { induction l as [|[id s] l IH]; intros acc Hl Hb Ha; [done|]. simpl. apply IH.
    - intros id' s' v Hs. apply (Hl id'). by right.
    - destruct (erased_snapshot s); [by apply bt_insert_ok|done].
    - destruct (erased_snapshot s) as [v|] eqn:Hs; [|done]. intros k w' [[-> ->]|Hw]%bt_insert_in; [|by eapply Ha].
      eapply Hl; [by left|done]. }
  destruct (Hf (sections w) []) as [Hb Hv]; [done|constructor|by intros ? ? ?%not_elem_of_nil|].
  split_and!; [done| |].
  - apply bt_values_ok; [done|]. intros k v Hk. by apply (Hv k).
  - apply no_null_object. intros k v Hk. by apply (Hv k).
Qed.

(** C14: replaying what was persisted for a sequence of world states (a full
    snapshot, then merge patches) restores the last snapshot: every section has
    the same value, up to the order of JSON keys. *)
Theorem world_states_restored (first : @WorldState Fragment) (rest : list (@WorldState Fragment)) :
  Forall built (first :: rest) ->
  exists b, fold_left restore (persist_all None (map snapshot (first :: rest))) None = Some b
            /\ same_snapshot b (snapshot (default first (last rest))).
Proof.
  intros Hb. assert (Forall snapshot_ok (map snapshot (first :: rest))) as Hok.
  { apply Forall_map. eapply Forall_impl; [done|]. intros w. apply snapshot_built_ok. }
  pose proof (persist_all_restored _ None None I Hok) as HR.
  assert (last (map snapshot (first :: rest)) = Some (snapshot (default first (last rest)))) as Hl.
  { clear. revert first. induction rest as [|w rest IH]; intros first; [done|].
    specialize (IH w). rewrite last_cons. simpl in *. by destruct (last rest); simpl in *; rewrite IH. }
  rewrite Hl in HR. destruct (fold_left restore _ None) as [b|]; [|done]. exists b. split; [done|apply HR].
Qed.

End live.

Definition sample_section (v : JsonValue) : @WorldStateSection unit :=
  mkSection (lit "environment") unit (Some v) (fun _ => Some tt) true (fun _ _ => false) false (fun _ _ => false)
    (fun _ => Some tt).

Definition sample_state (v : JsonValue) : @WorldState unit :=
  mkWorldState [(lit "environment", erase (sample_section v))].

Definition sample_before : JsonValue :=
  JObject [(lit "cwd", JString (lit "/a")); (lit "shell", JNull); (lit "limits", JObject [(lit "n", JNumber (lit "1"))])].
Definition sample_after : JsonValue :=
  JObject [(lit "cwd", JString (lit "/b")); (lit "limits", JObject [(lit "m", JNumber (lit "2"))])].

Lemma world_states_restored_witness :
  Forall built [sample_state sample_before; sample_state sample_after]
  /\ (forall i, last (persist_all None [snapshot (sample_state sample_before); snapshot (sample_state sample_after)]) = Some i ->
      full i = false)
  /\ exists b, fold_left restore (persist_all None (map snapshot [sample_state sample_before; sample_state sample_after])) None
               = Some b /\ same_snapshot b (snapshot (sample_state sample_after)).
Proof.
  assert (forall v, json_ok v = true -> built (sample_state v)) as Hv.
  { intros v Hv. apply (built_section world_state_new (sample_section v)); [apply built_new|by intros ? [= <-]|reflexivity]. }
  assert (Forall built [sample_state sample_before; sample_state sample_after]) as Hb.
  { apply Forall_cons; split; [|apply Forall_cons; split; [|by apply Forall_nil]]; apply Hv; reflexivity. }
  split; [exact Hb|]. split; [intros i H; vm_compute in H; by injection H as <-|].
  apply (world_states_restored (sample_state sample_before) [sample_state sample_after]). exact Hb.
Defined.
