(* ===== verification/EventMapping.v ===== *)
(** * Turn items of a conversation

    core/src/event_mapping.rs, core/src/web_search.rs, the visible hook prompts
    of core/src/context/contextual_user_message.rs, and the user messages of
    protocol/src/items.rs and user_input.rs with the media tags of
    protocol/src/models.rs: which item of a conversation is shown as what.
    Fresh identifiers are an argument.  The variants of [TurnItem] are those that
    [parse_turn_item] makes; fields that it always leaves empty are left out. *)

From S2P Require Import Prelude RustStr Truncate OutputTruncation ResponseItem ContextFragments.

(** ** User input *)

Record TextElement := mkTextElement { range_start : N; range_end : N; element_placeholder : option str }.

Inductive UserInput :=
| UText (text : str) (text_elements : list TextElement)
| UImage (image_url : str) (detail : option ImageDetail)
| ULocalImage (path : str) (detail : option ImageDetail)
| UAudio (audio_url : str)
| ULocalAudio (path : str)
| USkill (name path : str)
| UMention (name path : str).

Record UserMessageItem := mkUserMessage {
  um_id : str;
  um_client_id : option str;
  um_content : list UserInput }.

Definition user_message_new (new_id : str) (content : list UserInput) : UserMessageItem :=
  mkUserMessage new_id None content.

Definition message (u : UserMessageItem) : str :=
  mjoin (map (fun c => match c with UText text _ => text | _ => [] end) (um_content u)).

(** ** Media tags *)

Definition is_image_open_tag_text (text : str) : bool := str_eqb text (lit "<image>").
Definition is_image_close_tag_text (text : str) : bool := str_eqb text (lit "</image>").
Definition is_audio_open_tag_text (text : str) : bool := str_eqb text (lit "<audio>").
Definition is_audio_close_tag_text (text : str) : bool := str_eqb text (lit "</audio>").

Definition is_local_image_open_tag_text (text : str) : bool :=
  is_some_and (ends_with (lit ">")) (strip_prefix (lit "<image name=") text).
Definition is_local_image_close_tag_text (text : str) : bool := is_image_close_tag_text text.
Definition is_local_audio_open_tag_text (text : str) : bool :=
  is_some_and (ends_with (lit ">")) (strip_prefix (lit "<audio name=") text).
Definition is_local_audio_close_tag_text (text : str) : bool := is_audio_close_tag_text text.

Definition is_input_image (c : ContentItem) : bool := match c with Content.InputImage _ _ => true | _ => false end.
Definition is_input_audio (c : ContentItem) : bool := match c with Content.InputAudio _ => true | _ => false end.

(** ** Turn items *)

Inductive AgentMessageContent := AgentText (text : str).

Record AgentMessageItem := mkAgentMessage {
  am_id : str;
  am_content : list AgentMessageContent;
  am_phase : option MessagePhase }.

Record HookPromptItem := mkHookPrompt { hp_id : str; hp_fragments : list (str * str) }.

Record ReasoningItem := mkReasoning { rs_id : str; rs_summary_text : list str; rs_raw_content : list str }.

Record WebSearchItem := mkWebSearch { wsi_id : str; wsi_query : str; wsi_action : WebSearchAction }.

Record ImageGenerationItem := mkImageGeneration {
  ig_id : str;
  ig_status : str;
  ig_revised_prompt : option str;
  ig_result : str }.

Inductive TurnItem :=
| UserMessage (i : UserMessageItem)
| HookPrompt (i : HookPromptItem)
| AgentMessageTurn (i : AgentMessageItem)
| ReasoningTurn (i : ReasoningItem)
| WebSearch (i : WebSearchItem)
| ImageGeneration (i : ImageGenerationItem).

(** ** Web searches *)

Definition search_action_detail (query : option str) (queries : option (list str)) : str :=
  match query with
  | Some (c :: q) => c :: q
  | _ =>
      let first := default [] (queries ≫= head) in
      if is_some_and (fun queries => 1 <? length queries) queries && negb (is_nil first)
      then first ++ lit " ..." else first
  end.

Definition quoted_pattern (pattern : str) : str := lit "'" ++ pattern ++ lit "'".

Definition web_search_action_detail (action : WebSearchAction) : str :=
  match action with
  | Search query queries => search_action_detail query queries
  | OpenPage url => default [] url
  | FindInPage url pattern =>
      match pattern, url with
      | Some pattern, Some url => quoted_pattern pattern ++ lit " in " ++ url
      | Some pattern, None => quoted_pattern pattern
      | None, Some url => url
      | None, None => []
      end
  | OtherAction => []
  end.

Section parsing.
Context {json : SerdeJson} {parsers : FragmentParsers}.

(** [parse_visible_hook_prompt_message]: the fragments, or [None] when some
    content is neither a hook prompt nor other injected context. *)
Fixpoint visible_hook_fragments (content : list ContentItem) : option (list (str * str)) :=
  match content with
  | [] => Some []
  | Content.InputText text :: rest =>
      match parse_hook_prompt_fragment text with
      | Some fragment => fragments ← visible_hook_fragments rest; Some (fragment :: fragments)
      | None => if is_standard_contextual_user_text text then visible_hook_fragments rest else None
      end
  | _ :: _ => None
  end.

Definition parse_visible_hook_prompt_message (new_id : str) (id : option str) (content : list ContentItem)
    : option HookPromptItem :=
  fragments ← visible_hook_fragments content;
  if is_nil fragments then None else Some (mkHookPrompt (default new_id id) fragments).

(** A tag beside the medium that it labels. *)
Definition is_label (is_medium : ContentItem -> bool) (opens closes : bool) (message : list ContentItem) (idx : nat) : bool :=
  (opens && is_some_and is_medium (message !! (idx + 1)))
  || ((0 <? idx) && closes && is_some_and is_medium (message !! (idx - 1))).

(** The body of the loop. *)
Definition user_input_of (message : list ContentItem) (idx : nat) (c : ContentItem) : option UserInput :=
  match c with
  | Content.InputText text =>
      let is_image_label :=
        is_label is_input_image (is_local_image_open_tag_text text || is_image_open_tag_text text)
          (is_local_image_close_tag_text text || is_image_close_tag_text text) message idx in
      let is_audio_label :=
        is_label is_input_audio (is_local_audio_open_tag_text text || is_audio_open_tag_text text)
          (is_local_audio_close_tag_text text || is_audio_close_tag_text text) message idx in
      if is_image_label || is_audio_label then None else Some (UText text [])
  | Content.InputImage image_url detail => Some (UImage image_url detail)
  | Content.InputAudio audio_url => Some (UAudio audio_url)
  | Content.OutputText _ => None
  end.

Definition parse_user_message (new_id : str) (message : list ContentItem) : option UserMessageItem :=
  if is_contextual_user_message_content message then None
  else Some (user_message_new new_id (omap (fun '(idx, c) => user_input_of message idx c)
               (zip (seq 0 (length message)) message))).

Definition parse_agent_message (new_id : str) (id : option str) (message : list ContentItem) (phase : option MessagePhase)
    : AgentMessageItem :=
  mkAgentMessage (default new_id id)
    (omap (fun c => match c with
                    | Content.InputText text | Content.OutputText text => Some (AgentText text)
                    | _ => None
                    end) message) phase.

Definition parse_turn_item (new_id : str) (i : ResponseItem) : option TurnItem :=
  match i with
  | Message id role content phase _ =>
      if str_eqb role (lit "user") then
        match parse_visible_hook_prompt_message new_id id content with
        | Some h => Some (HookPrompt h)
        | None => UserMessage <$> parse_user_message new_id content
        end
      else if str_eqb role (lit "assistant") then
        Some (AgentMessageTurn (parse_agent_message new_id id content phase))
      else None
  | Reasoning id summary content _ _ =>
      Some (ReasoningTurn (mkReasoning (default [] id)
        (map (fun s => match s with SummaryText text => text end) summary)
        (map (fun c => match c with ReasoningText text | ReasoningPlainText text => text end) (default [] content))))
  | WebSearchCall id _ action _ =>
      let '(action, query) :=
        match action with
        | Some action => (action, web_search_action_detail action)
        | None => (OtherAction, [])
        end in
      Some (WebSearch (mkWebSearch (default [] id) query action))
  | ImageGenerationCall id status revised_prompt result _ =>
      id ← id; Some (ImageGeneration (mkImageGeneration id status revised_prompt result))
  | _ => None
  end.

(** [matches!(parse_turn_item(item), Some(TurnItem::UserMessage(_)))] *)
Definition parsed_user_message (new_id : str) (i : ResponseItem) : option UserMessageItem :=
  match parse_turn_item new_id i with Some (UserMessage u) => Some u | _ => None end.

(** ** Which items are user messages *)

(** A visible hook prompt is injected context. *)
Lemma visible_hook_contextual content fragments :
  visible_hook_fragments content = Some fragments -> fragments <> [] -> is_contextual_user_message_content content = true.
Proof.
  revert fragments. induction content as [|c content IH]; intros fragments H Hne; simpl in *; [by simplify_eq|].
  destruct c as [text| | |]; try done. simpl. destruct (parse_hook_prompt_fragment text) as [f|]; [done|].
  destruct (is_standard_contextual_user_text text); [done|done].
Qed.

(** The user messages are the messages of the user that are not injected. *)
Lemma parsed_user_message_iff new_id i :
  is_Some (parsed_user_message new_id i) <->
  exists id content phase md, i = Message id (lit "user") content phase md /\ is_contextual_user_message_content content = false.
Proof.
  unfold parsed_user_message, parse_turn_item. split.
  - destruct i as [|id role content phase md| | | | | | | | | |? ? action|id| | | |]; simpl; intros [u Hu]; try done.
    + revert Hu. destruct (str_eqb role (lit "user")) eqn:E; [|by destruct (str_eqb role (lit "assistant"))].
      apply str_eqb_eq in E as ->. intros Hu. exists id, content, phase, md. split; [done|]. revert Hu.
      destruct (parse_visible_hook_prompt_message _ _ _); [done|].
      unfold parse_user_message. by destruct (is_contextual_user_message_content content).
    + by destruct action.
    + by destruct id.
  - intros (id & content & phase & md & -> & Hc). simpl. unfold parse_visible_hook_prompt_message.
    destruct (visible_hook_fragments content) as [fragments|] eqn:Hv; simpl.
    + destruct fragments as [|f fs]; simpl; [unfold parse_user_message; rewrite Hc; simpl; eauto|].
      apply visible_hook_contextual in Hv; [|done]. congruence.
    + unfold parse_user_message. rewrite Hc. simpl. eauto.
Qed.

(** The text of a message that is one text. *)
Lemma parsed_single_text new_id id text phase md u :
  parsed_user_message new_id (Message id (lit "user") [Content.InputText text] phase md) = Some u -> message u = text.
Proof.
  unfold parsed_user_message, parse_turn_item. simpl.
  destruct (parse_visible_hook_prompt_message _ _ _); [done|]. unfold parse_user_message.
  destruct (is_contextual_user_message_content _); [done|]. simpl. intros [= <-]. unfold is_label. simpl.
  rewrite !andb_false_r. simpl. unfold message. simpl. by rewrite app_nil_r.
Qed.

End parsing.
