(* ===== verification/Compaction.v ===== *)
(** * The history after a compaction

    The pure part of core/src/compact.rs: collecting the user's messages,
    building the compacted history from the most recent of them and a summary,
    and placing the initial context in it; with the rendering of contextual
    fragments (context-fragments/src/fragment.rs) and the compaction summary
    (core/src/context/compaction_summary.rs).  The request to the model is not
    modelled.  A definition returns [option] where text is truncated; the
    theorems show that it returns. *)

From S2P Require Import Prelude RustStr Truncate OutputTruncation ResponseItem ContextFragments EventMapping.

(** prompts/templates/compact/summary_prefix.md *)
Definition SUMMARY_PREFIX : str :=
  lit "Another language model started to solve this problem and produced a summary of its thinking process. You also have access to the state of the tools that were used by that language model. Use this to build on the work that has already been done and avoid duplicating work. Here is the summary produced by the other language model, use the information in this summary to assist with your own analysis:".

Definition COMPACT_USER_MESSAGE_MAX_TOKENS : N := 20000.

Definition content_items_to_text (content : list ContentItem) : option str :=
  let pieces := omap (fun c => match c with
    | Content.InputText text | Content.OutputText text => if is_nil text then None else Some text
    | Content.InputImage _ _ | Content.InputAudio _ => None
    end) content in
  if is_nil pieces then None else Some (join [ch_lf] pieces).

Definition is_summary_message (message : str) : bool := starts_with (SUMMARY_PREFIX ++ [ch_lf]) message.

(** ** Rendered fragments *)

Record RenderedFragment := mkRendered { rf_role : str; rf_content : AnnotatedContent }.

Definition render (start_marker end_marker body : str) : str :=
  if is_nil start_marker && is_nil end_marker then body else start_marker ++ body ++ end_marker.

Section compaction.
Context {json : SerdeJson} {parsers : FragmentParsers}.

Definition response_item_of_fragment (f : RenderedFragment) : ResponseItem :=
  Message None (rf_role f) [ac_content (rf_content f)] None
    (Some (with_kinds default_metadata (Some [ac_kind (rf_content f)]))).

Definition compaction_summary (summary : str) : RenderedFragment :=
  mkRendered (lit "user") (mkAnnotated (Content.InputText (render [] [] summary)) (lit "compaction.summary")).

(** ** Collecting *)

Record CompactedUserMessage := mkCompacted {
  cum_message : str;
  cum_passthrough : option InternalChatMessageMetadataPassthrough;
  cum_harness_metadata : option CodexHarnessMetadata }.

(** The identifier of a parsed item is not used: any one will do. *)
Definition compacted_user_message (i : ResponseItem) (harness_metadata : option CodexHarnessMetadata)
    : option CompactedUserMessage :=
  user ← parsed_user_message [] i;
  if is_summary_message (message user) then None
  else Some (mkCompacted (message user)
               (match i with Message _ _ _ _ md => md | _ => None end) harness_metadata).

Definition collect_annotated_user_messages (items : list ResponseItemEnvelope) : list CompactedUserMessage :=
  omap (fun e => compacted_user_message (item e) (metadata e)) items.

(** ** Building *)

(** The loop over the messages from the newest on. *)
Fixpoint select_messages (newest_first : list CompactedUserMessage) (remaining : N)
    (selected : list CompactedUserMessage) : option (list CompactedUserMessage) :=
  match newest_first with
  | [] => Some selected
  | m :: rest =>
      if (remaining =? 0)%N then Some selected
      else
        let tokens := approx_token_count (cum_message m) in
        if (tokens <=? remaining)%N then
          select_messages rest (saturating_sub remaining tokens) (selected ++ [m])
        else
          truncated ← truncate_text (cum_message m) (Tokens remaining);
          Some (selected ++ [mkCompacted truncated (cum_passthrough m) (cum_harness_metadata m)])
  end.

Definition compacted_item (m : CompactedUserMessage) : ResponseItemEnvelope :=
  let i := Message None (lit "user") [Content.InputText (cum_message m)] None (cum_passthrough m) in
  let i :=
    match cum_passthrough m ≫= md_content_item_kinds with
    | Some _ =>
        default i (set_annotated_content i [mkAnnotated (Content.InputText (cum_message m)) (lit "user.text")])
    | None => i
    end in
  mkEnvelope i (cum_harness_metadata m).

Definition summary_item (summary_text : str) : ResponseItemEnvelope :=
  envelope_new (response_item_of_fragment (compaction_summary
    (if is_nil summary_text then lit "(no summary available)" else summary_text))).

Definition build_compacted_history_with_limit (history : list ResponseItemEnvelope)
    (user_messages : list CompactedUserMessage) (summary_text : str) (max_tokens : N)
    : option (list ResponseItemEnvelope) :=
  selected ← (if (0 <? max_tokens)%N
              then selected ← select_messages (rev user_messages) max_tokens []; Some (rev selected)
              else Some []);
  Some (history ++ map compacted_item selected ++ [summary_item summary_text]).

Definition build_compacted_history (initial_context : list ResponseItemEnvelope)
    (user_messages : list CompactedUserMessage) (summary_text : str) : option (list ResponseItemEnvelope) :=
  build_compacted_history_with_limit initial_context user_messages summary_text COMPACT_USER_MESSAGE_MAX_TOKENS.

(** ** Placing the initial context *)

Definition is_task_message (i : ResponseItem) : bool :=
  match i with
  | AgentMessage _ _ _ content _ =>
      negb (match content with
            | AgentInputText text :: _ => starts_with (lit "Message Type: FINAL_ANSWER" ++ [ch_lf]) text
            | _ => false
            end)
  | _ => false
  end.

(** The reversed loop: the last user message or summary, and the last real
    message. *)
Fixpoint last_message_indices (reversed : list (nat * ResponseItemEnvelope)) (last_user_or_summary_index : option nat)
    : option nat * option nat :=
  match reversed with
  | [] => (last_user_or_summary_index, None)
  | (i, e) :: rest =>
      if is_task_message (item e) then (last_user_or_summary_index, Some i)
      else
        match parsed_user_message [] (item e) with
        | None => last_message_indices rest last_user_or_summary_index
        | Some user =>
            let last_user_or_summary_index :=
              match last_user_or_summary_index with Some j => Some j | None => Some i end in
            if negb (is_summary_message (message user)) then (last_user_or_summary_index, Some i)
            else last_message_indices rest last_user_or_summary_index
        end
  end.

Definition is_compaction_item (i : ResponseItem) : bool :=
  match i with Compaction _ _ _ | ContextCompaction _ _ _ => true | _ => false end.

Definition enumerate_rev (items : list ResponseItemEnvelope) : list (nat * ResponseItemEnvelope) :=
  rev (zip (seq 0 (length items)) items).

Definition insertion_index (compacted_history : list ResponseItemEnvelope) : option nat :=
  let '(last_user_or_summary_index, last_real_user_index) :=
    last_message_indices (enumerate_rev compacted_history) None in
  let last_compaction_index :=
    find_map (fun '(i, e) => if is_compaction_item (item e) then Some i else None) (enumerate_rev compacted_history) in
  match last_real_user_index, last_user_or_summary_index with
  | Some i, _ => Some i
  | None, Some i => Some i
  | None, None => last_compaction_index
  end.

Definition insert_initial_context_before_last_real_user_or_summary
    (compacted_history initial_context : list ResponseItemEnvelope) : list ResponseItemEnvelope :=
  match insertion_index compacted_history with
  | Some i => take i compacted_history ++ initial_context ++ drop i compacted_history
  | None => compacted_history ++ initial_context
  end.

End compaction.

Section compaction_theorems.
Context {json : SerdeJson} {parsers : FragmentParsers}.

(** ** Which messages are kept *)

Definition total_tokens (messages : list CompactedUserMessage) : N :=
  foldr (fun m n => approx_token_count (cum_message m) + n)%N 0%N messages.

Lemma total_tokens_snoc ms m : total_tokens (ms ++ [m]) = (total_tokens ms + approx_token_count (cum_message m))%N.
Proof. unfold total_tokens. induction ms as [|x ms IH]; simpl; lia. Qed.

(** [kept] are the newest messages, in order, and the next older one may be
    shortened to what is left of the budget. *)
Definition recent_messages (messages : list CompactedUserMessage) (max_tokens : N) (selected : list CompactedUserMessage) : Prop :=
  exists dropped kept,
    messages = dropped ++ kept /\ (total_tokens kept <= max_tokens)%N
    /\ let left := (max_tokens - total_tokens kept)%N in
       (selected = kept /\ (dropped = [] \/ left = 0%N)
        \/ exists older m truncated, dropped = older ++ [m] /\ (0 < left < approx_token_count (cum_message m))%N
             /\ truncate_text (cum_message m) (Tokens left) = Some truncated
             /\ selected = mkCompacted truncated (cum_passthrough m) (cum_harness_metadata m) :: kept).

Lemma select_messages_recent newest_first : forall remaining selected max,
  (total_tokens (rev selected) + remaining = max)%N ->
  exists s, select_messages newest_first remaining selected = Some s
            /\ recent_messages (rev newest_first ++ rev selected) max (rev s).
Proof.
  induction newest_first as [|m rest IH]; intros remaining selected max Hm; cbn [select_messages rev].
  - exists selected. split; [done|]. exists [], (rev selected). split_and!; [done|lia|]. left. split; [done|by left].
  - rewrite <- app_assoc. destruct (N.eqb_spec remaining 0) as [->|Hr].
    { exists selected. split; [done|]. exists (rev rest ++ [m]), (rev selected).
      split_and!; [by rewrite <- app_assoc|lia|]. left. split; [done|right; lia]. }
    destruct (N.leb_spec (approx_token_count (cum_message m)) remaining) as [Hle|Hlt].
    + destruct (IH (saturating_sub remaining (approx_token_count (cum_message m))) (selected ++ [m]) max) as (s & Hs & Hrec).
      { rewrite rev_app_distr. simpl. unfold saturating_sub, total_tokens in *. simpl. lia. }
      exists s. split; [done|]. by rewrite rev_app_distr in Hrec.
    + destruct (truncate_text_total (cum_message m) (Tokens remaining)) as [t Ht]. rewrite Ht. cbn [mbind option_bind].
      eexists. split; [done|]. exists (rev rest ++ [m]), (rev selected). rewrite rev_app_distr. simpl.
      split_and!; [by rewrite <- app_assoc|lia|]. right. exists (rev rest), m, t.
      replace (max - total_tokens (rev selected))%N with remaining by lia. split_and!; [done|lia|lia|done|done].
Qed.

Lemma build_compacted_recent history messages summary_text max_tokens :
  exists selected,
    build_compacted_history_with_limit history messages summary_text max_tokens
    = Some (history ++ map compacted_item selected ++ [summary_item summary_text])
    /\ recent_messages messages max_tokens selected.
Proof.
  unfold build_compacted_history_with_limit. destruct (N.ltb_spec 0 max_tokens) as [Hpos|Hz].
  - destruct (select_messages_recent (rev messages) max_tokens [] max_tokens) as (s & -> & Hs); [simpl; lia|].
    exists (rev s). split; [done|]. by rewrite rev_involutive, app_nil_r in Hs.
  - exists []. split; [done|]. exists messages, []. rewrite app_nil_r. split_and!; [done|simpl; lia|].
    left. split; [done|right; lia].
Qed.

(** C15: a compacted history is the given context, the user's newest messages
    that fit the budget of 20,000 tokens in their order (the next older one
    shortened to what is left), and the summary, last; it is always built. *)
Theorem compaction_keeps_recent_messages history messages summary_text :
  exists selected,
    build_compacted_history history messages summary_text
    = Some (history ++ map compacted_item selected ++ [summary_item summary_text])
    /\ recent_messages messages 20000 selected.
Proof. apply build_compacted_recent. Qed.

(** The summary of one compaction is not taken for a message of the user by the
    next one. *)
Lemma summary_not_collected items summary_suffix :
  collect_annotated_user_messages (items ++ [summary_item (SUMMARY_PREFIX ++ [ch_lf] ++ summary_suffix)])
  = collect_annotated_user_messages items.
Proof.
  unfold collect_annotated_user_messages. rewrite omap_app. simpl. unfold compacted_user_message.
  destruct (parsed_user_message _ _) as [u|] eqn:Hu; simpl; [|by rewrite app_nil_r].
  apply parsed_single_text in Hu. rewrite Hu. unfold is_summary_message.
  change (render [] [] ?t) with t.
  replace (starts_with _ _) with true; [by rewrite app_nil_r|]. symmetry. apply starts_with_spec.
  exists summary_suffix. by rewrite <- app_assoc.
Qed.

(** ** Where the initial context goes *)

Definition is_user_like (e : ResponseItemEnvelope) : bool :=
  match parsed_user_message [] (item e) with Some _ => true | None => false end.

Definition is_real_message (e : ResponseItemEnvelope) : bool :=
  is_task_message (item e)
  || match parsed_user_message [] (item e) with Some u => negb (is_summary_message (message u)) | None => false end.

Definition last_at (p : ResponseItemEnvelope -> bool) (items : list ResponseItemEnvelope) (i : nat) : Prop :=
  exists before e after, items = before ++ e :: after /\ length before = i /\ p e = true /\ Forall (fun x => p x = false) after.

Lemma enumerate_rev_snoc items e : enumerate_rev (items ++ [e]) = (length items, e) :: enumerate_rev items.
Proof.
  unfold enumerate_rev. rewrite length_app, seq_app, zip_with_app by (by rewrite length_seq).
  rewrite rev_app_distr. done.
Qed.

Lemma last_at_here p items e : p e = true -> last_at p (items ++ [e]) (length items).
Proof. intros He. exists items, e, []. by split_and!. Qed.

Lemma last_at_older p items e i : p e = false -> last_at p items i -> last_at p (items ++ [e]) i.
Proof.
  intros He (before & x & after & -> & Hl & Hx & Ha). exists before, x, (after ++ [e]). rewrite <- app_assoc.
  split_and!; try done. apply Forall_app. split; [done|]. by repeat constructor.
Qed.

Definition nowhere (p : ResponseItemEnvelope -> bool) (items : list ResponseItemEnvelope) : Prop :=
  Forall (fun x => p x = false) items.

Lemma nowhere_snoc p items e : p e = false -> nowhere p items -> nowhere p (items ++ [e]).
Proof. intros He Hn. apply Forall_app. split; [done|]. by repeat constructor. Qed.

Definition found (p : ResponseItemEnvelope -> bool) (items : list ResponseItemEnvelope) (i : option nat) : Prop :=
  match i with Some i => last_at p items i | None => nowhere p items end.

Lemma last_message_indices_spec items : forall acc,
  let '(u, r) := last_message_indices (enumerate_rev items) acc in
  found is_real_message items r
  /\ (r = None -> match acc with Some j => u = Some j | None => found is_user_like items u end).
Proof.
  induction items as [|e items IH] using rev_ind; intros acc; [by destruct acc; repeat constructor|].
  rewrite enumerate_rev_snoc. simpl. destruct (is_task_message (item e)) eqn:Ht.
  { split; [|done]. apply last_at_here. unfold is_real_message. by rewrite Ht. }
  destruct (parsed_user_message [] (item e)) as [u|] eqn:Hu.
  - destruct (is_summary_message (message u)) eqn:Hs; simpl.
    + specialize (IH (match acc with Some j => Some j | None => Some (length items) end)).
      destruct (last_message_indices _ _) as [u' r]. destruct IH as [IH1 IH2].
      assert (is_real_message e = false) as He by (unfold is_real_message; by rewrite Ht, Hu, Hs).
      split; [destruct r; [by apply last_at_older|by apply nowhere_snoc]|].
      intros Hr. specialize (IH2 Hr). destruct acc; [done|]. rewrite IH2. apply last_at_here.
      unfold is_user_like. by rewrite Hu.
    + split; [|done]. apply last_at_here. unfold is_real_message. by rewrite Ht, Hu, Hs.
  - specialize (IH acc). destruct (last_message_indices _ _) as [u' r]. destruct IH as [IH1 IH2].
    assert (is_real_message e = false) as He by (unfold is_real_message; by rewrite Ht, Hu).
    assert (is_user_like e = false) as He' by (unfold is_user_like; by rewrite Hu).
    split; [destruct r; [by apply last_at_older|by apply nowhere_snoc]|].
    intros Hr. specialize (IH2 Hr). destruct acc; [done|]. destruct u'; [by apply last_at_older|by apply nowhere_snoc].
Qed.

Lemma last_compaction_spec items :
  found (fun e => is_compaction_item (item e)) items
    (find_map (fun '(i, e) => if is_compaction_item (item e) then Some i else None) (enumerate_rev items)).
Proof.
  induction items as [|e items IH] using rev_ind; [constructor|]. rewrite enumerate_rev_snoc. simpl.
  destruct (is_compaction_item (item e)) eqn:He; [by apply last_at_here|].
  destruct (find_map _ _); [by apply last_at_older|by apply nowhere_snoc].
Qed.

(** The item before which the context belongs. *)
Definition context_anchor (items : list ResponseItemEnvelope) (i : nat) : Prop :=
  last_at is_real_message items i
  \/ nowhere is_real_message items /\ last_at is_user_like items i
  \/ nowhere is_real_message items /\ nowhere is_user_like items /\ last_at (fun e => is_compaction_item (item e)) items i.

(** The initial context goes, as one block, right before the last real user
    or agent message; without one, before the last user message or summary;
    without those, before the last compaction item; and otherwise to the end.
    The rest of the history is unchanged. *)
Theorem initial_context_placed history context :
  (exists i, context_anchor history i /\ i < length history
     /\ insert_initial_context_before_last_real_user_or_summary history context
        = take i history ++ context ++ drop i history)
  \/ (nowhere is_real_message history /\ nowhere is_user_like history
      /\ nowhere (fun e => is_compaction_item (item e)) history
      /\ insert_initial_context_before_last_real_user_or_summary history context = history ++ context).
Proof.
  unfold insert_initial_context_before_last_real_user_or_summary, insertion_index.
  pose proof (last_message_indices_spec history None) as Hm. pose proof (last_compaction_spec history) as Hc.
  destruct (last_message_indices _ _) as [u r]. destruct Hm as [Hr Hu].
  assert (forall p i, last_at p history i -> i < length history) as Hlt.
  { intros p i (before & e & after & -> & <- & _). rewrite length_app. simpl. lia. }
  destruct r as [i|]; [left; exists i; split_and!; [by left|by eapply Hlt|done]|]. specialize (Hu eq_refl).
  destruct u as [i|]; [left; exists i; split_and!; [by right; left|by eapply Hlt|done]|].
  destruct (find_map _ _) as [i|]; [left; exists i; split_and!; [by right; right|by eapply Hlt|done]|by right].
Qed.

End compaction_theorems.
