(* ===== verification/Rollout.v ===== *)
(** * Persisted rollouts

    The items of a rollout (history/src/lib.rs), inter-agent messages
    (protocol/src/protocol.rs), the positions of turns in a rollout and the
    truncations of core/src/thread_rollout_truncation.rs that go by message
    (those that go by turn id read the turns of the app server's protocol and
    are in ThreadHistory), and the bounded scan of rollout/src/model_context.rs.

    Payloads that replay never looks into are types of the class [RolloutTypes],
    as are the fields of a turn context that it reads, the JSON of an
    inter-agent message and the syntax of UUIDs. *)

From S2P Require Import Prelude RustStr Truncate OutputTruncation ResponseItem ContextFragments.
From S2P Require Import Normalize TranscriptHistory TokenUsage ContextManager EventMapping.
From S2P Require WorldState.

Record InterAgentCommunication {json : SerdeJson} := mkCommunication {
  iac_id : option str;
  iac_author : str;
  iac_recipient : str;
  iac_other_recipients : list str;
  iac_content : str;
  iac_encrypted_content : option str;
  iac_passthrough : option InternalChatMessageMetadataPassthrough;
  iac_trigger_turn : bool }.

Class RolloutTypes {json : SerdeJson} {turn : TurnTypes} := {
  TokenUsageRecord : Type;
  SecurityRiskScore : Type;
  RealtimeItem : Type;
  SessionMetaFields : Type;
  McpResourceOriginCheckpoint : Type;
  OtherEvent : Type;
  ctx_turn_id : TurnContextItem -> option str;
  ctx_model : TurnContextItem -> str;
  ctx_comp_hash : TurnContextItem -> option str;
  ctx_realtime_active : TurnContextItem -> option bool;
  parse_inter_agent_json : str -> option InterAgentCommunication;
  uuid_parse_str : str -> option N;
}.

Section rollout.
Context {json : SerdeJson} {parsers : FragmentParsers} {turn : TurnTypes} {types : RolloutTypes}.

(** ** Items *)

Definition to_model_input_item (c : InterAgentCommunication) : ResponseItem :=
  let content :=
    match iac_encrypted_content c with
    | Some encrypted_content =>
        let message_type := if iac_trigger_turn c then lit "NEW_TASK" else lit "MESSAGE" in
        [AgentInputText (lit "Message Type: " ++ message_type ++ [ch_lf] ++ lit "Task name: " ++ iac_recipient c
           ++ [ch_lf] ++ lit "Sender: " ++ iac_author c ++ [ch_lf] ++ lit "Payload:" ++ [ch_lf]);
         AgentEncryptedContent encrypted_content]
    | None => [AgentInputText (iac_content c)]
    end in
  AgentMessage (iac_id c) (iac_author c) (iac_recipient c) content (iac_passthrough c).

Definition from_message_content (content : list ContentItem) : option InterAgentCommunication :=
  match content with
  | [Content.InputText text] | [Content.OutputText text] => parse_inter_agent_json text
  | _ => None
  end.

Record CompactedItem := mkCompactedItem {
  ci_message : str;
  ci_replacement_history : option (list ResponseItemEnvelope);
  ci_mcp_resource_origins : option McpResourceOriginCheckpoint;
  ci_window_number : option N;
  ci_first_window_id : option str;
  ci_previous_window_id : option str;
  ci_window_id : option str;
  ci_compaction_response_id : option str;
  ci_latest_token_usage_record : option TokenUsageRecord }.

(** The context window of [SessionMeta] and its other fields. *)
Record SessionMetaLine := mkMetaLine { sm_context_window : option str; sm_fields : SessionMetaFields }.

(** The events that replay tells apart, with what it reads of them; of a
    completed item it is whether it is a user message. *)
Inductive EventMsg :=
| TurnStarted (turn_id : str)
| TurnComplete (turn_id : str)
| TurnAborted (turn_id : option str)
| UserMessageEvent
| ItemCompleted (turn_id : str) (is_user_message : bool)
| ThreadRolledBack (num_turns : N)
| OtherEventMsg (e : OtherEvent).

Inductive RolloutItem :=
| RSessionMeta (m : SessionMetaLine)
| RResponseItem (e : ResponseItemEnvelope)
| RInterAgentCommunication (c : InterAgentCommunication)
| RInterAgentCommunicationMetadata (trigger_turn : bool)
| RCompacted (c : CompactedItem)
| RTurnContext (c : TurnContextItem)
| RTokenUsageRecord (r : TokenUsageRecord)
| RWorldState (s : WorldState.WorldStateItem)
| RSecurityRiskScore (s : SecurityRiskScore)
| REventMsg (e : EventMsg)
| RRealtimeItem (r : RealtimeItem).

Definition turn_ids_are_compatible (active_turn_id item_turn_id : option str) : bool :=
  match active_turn_id, item_turn_id with
  | Some turn_id, Some item_turn_id => str_eqb item_turn_id turn_id
  | _, _ => true
  end.

(** ** Positions of turns *)

Definition rollout_item_is_user_turn_boundary (i : RolloutItem) : bool :=
  match i with
  | RResponseItem e => is_user_turn_boundary (item e)
  | RInterAgentCommunication _ => true
  | _ => false
  end.

Definition is_real_user_message_boundary (i : ResponseItem) : bool :=
  match parsed_user_message [] i with Some _ => true | None => false end.

Definition is_trigger_turn_boundary (i : ResponseItem) : bool :=
  match i with
  | Message _ role content _ _ =>
      str_eqb role (lit "assistant") && is_some_and iac_trigger_turn (from_message_content content)
  | _ => false
  end.

(** [Vec::truncate] of the positions. *)
Definition user_positions_step (user_positions : list nat) (entry : nat * RolloutItem) : list nat :=
  let '(idx, i) := entry in
  match i with
  | RResponseItem e =>
      match item e with
      | Message _ _ _ _ _ => if is_real_user_message_boundary (item e) then user_positions ++ [idx] else user_positions
      | _ => user_positions
      end
  | REventMsg (ThreadRolledBack num_turns) =>
      take (length user_positions - N.to_nat num_turns) user_positions
  | _ => user_positions
  end.

Definition enumerate (items : list RolloutItem) : list (nat * RolloutItem) := zip (seq 0 (length items)) items.

Definition user_message_positions_in_rollout (items : list RolloutItem) : list nat :=
  fold_left user_positions_step (enumerate items) [].

Definition is_delivery_metadata (i : RolloutItem) : bool :=
  match i with RInterAgentCommunicationMetadata _ => true | _ => false end.

Definition fork_positions_step (items : list RolloutItem) (st : list nat * list nat) (entry : nat * RolloutItem)
    : list nat * list nat :=
  let '(rollback_turn_positions, fork_turn_positions) := st in
  let '(idx, i) := entry in
  match i with
  | RResponseItem e =>
      let has_delivery_metadata :=
        (match item e with AgentMessage _ _ _ _ _ => true | _ => false end)
        && (0 <? idx) && is_some_and is_delivery_metadata (items !! (idx - 1)) in
      (if is_user_turn_boundary (item e) && negb has_delivery_metadata
       then rollback_turn_positions ++ [idx] else rollback_turn_positions,
       if is_real_user_message_boundary (item e) || is_trigger_turn_boundary (item e)
       then fork_turn_positions ++ [idx] else fork_turn_positions)
  | RInterAgentCommunication c =>
      (rollback_turn_positions ++ [idx],
       if iac_trigger_turn c then fork_turn_positions ++ [idx] else fork_turn_positions)
  | RInterAgentCommunicationMetadata trigger_turn =>
      (rollback_turn_positions ++ [idx],
       if trigger_turn then fork_turn_positions ++ [idx] else fork_turn_positions)
  | REventMsg (ThreadRolledBack num_turns) =>
      let num_turns := N.to_nat num_turns in
      if num_turns =? 0 then st
      else
        match (if num_turns <=? length rollback_turn_positions
               then rollback_turn_positions !! (length rollback_turn_positions - num_turns)
               else head rollback_turn_positions) with
        | None => st
        | Some rollback_start_idx =>
            (take (length rollback_turn_positions - num_turns) rollback_turn_positions,
             List.filter (fun position => position <? rollback_start_idx) fork_turn_positions)
        end
  | _ => st
  end.

Definition fork_turn_positions_in_rollout (items : list RolloutItem) : list nat :=
  snd (fold_left (fork_positions_step items) (enumerate items) ([], [])).

(** ** Truncations *)

Definition truncate_rollout_before_nth_user_message_from_start (items : list RolloutItem) (n_from_start : N)
    : list RolloutItem :=
  if (n_from_start =? usize_max)%N then items
  else
    match user_message_positions_in_rollout items !! N.to_nat n_from_start with
    | None => items
    | Some cut_idx => take cut_idx items
    end.

Definition truncate_rollout_to_last_n_fork_turns (items : list RolloutItem) (n_from_end : nat) : list RolloutItem :=
  if n_from_end =? 0 then []
  else
    let fork_turn_positions := fork_turn_positions_in_rollout items in
    match (if n_from_end <=? length fork_turn_positions
           then fork_turn_positions !! (length fork_turn_positions - n_from_end)
           else head fork_turn_positions) with
    | None => []
    | Some keep_idx => drop keep_idx items
    end.

(** ** The bounded scan *)

Inductive ModelContextScanProgress := Continue | Complete.

Record ActiveTurnSegment := mkTurnSegment {
  ts_turn_id : option str;
  has_user_turn : bool;
  has_turn_context : bool;
  has_full_world_state : bool;
  ts_saw_compaction : bool }.

Definition turn_segment_default : ActiveTurnSegment := mkTurnSegment None false false false false.

Record ModelContextScan := mkScan {
  items_newest_first : list RolloutItem;
  saw_compaction : bool;
  saw_completed_turn_context : bool;
  must_scan_to_start : bool;
  scan_segment : ActiveTurnSegment }.

Definition scan_default : ModelContextScan := mkScan [] false false false turn_segment_default.

Definition has_bounded_cutoff (s : ModelContextScan) : bool :=
  negb (must_scan_to_start s) && saw_compaction s && saw_completed_turn_context s.

Definition set_segment (g : ActiveTurnSegment) (s : ModelContextScan) : ModelContextScan :=
  mkScan (items_newest_first s) (saw_compaction s) (saw_completed_turn_context s) (must_scan_to_start s) g.

Definition scan_to_start (s : ModelContextScan) : ModelContextScan :=
  mkScan (items_newest_first s) (saw_compaction s) (saw_completed_turn_context s) true (scan_segment s).

Definition finalize_turn_segment (s : ModelContextScan) : ModelContextScan :=
  let g := scan_segment s in
  mkScan (items_newest_first s) (saw_compaction s)
    (saw_completed_turn_context s || has_turn_context g && (has_user_turn g || has_full_world_state g))
    (must_scan_to_start s) turn_segment_default.

(** [turn_id.get_or_insert] *)
Definition note_turn_id (id : option str) (g : ActiveTurnSegment) : ActiveTurnSegment :=
  mkTurnSegment (match ts_turn_id g with Some t => Some t | None => id end) (has_user_turn g) (has_turn_context g)
    (has_full_world_state g) (ts_saw_compaction g).

Definition note_user_turn (b : bool) (g : ActiveTurnSegment) : ActiveTurnSegment :=
  mkTurnSegment (ts_turn_id g) (has_user_turn g || b) (has_turn_context g) (has_full_world_state g) (ts_saw_compaction g).

Definition response_item_counts_as_user_turn (e : ResponseItemEnvelope) : bool :=
  match item e with
  | AgentMessage _ _ _ _ _ => true
  | Message _ role content _ _ => str_eqb role (lit "assistant") && is_inter_agent_instruction_content content
  | _ => false
  end.

(** The [match] of [observe]. *)
Definition observe_item (s : ModelContextScan) (i : RolloutItem) : ModelContextScan :=
  let g := scan_segment s in
  match i with
  | RCompacted c =>
      match ci_replacement_history c, ci_window_number c with
      | Some _, Some _ =>
          mkScan (items_newest_first s) true (saw_completed_turn_context s) (must_scan_to_start s)
            (mkTurnSegment (ts_turn_id g) (has_user_turn g) (has_turn_context g) (has_full_world_state g) true)
      | _, _ => scan_to_start s
      end
  | REventMsg (ThreadRolledBack _) => scan_to_start s
  | REventMsg (ItemCompleted turn_id is_user_message) =>
      let g := note_turn_id (Some turn_id) g in
      set_segment (if turn_ids_are_compatible (ts_turn_id g) (Some turn_id)
                   then note_user_turn is_user_message g else g) s
  | REventMsg (TurnComplete turn_id) => set_segment (note_turn_id (Some turn_id) g) s
  | REventMsg (TurnAborted turn_id) => set_segment (note_turn_id turn_id g) s
  | REventMsg (TurnStarted turn_id) =>
      if turn_ids_are_compatible (ts_turn_id g) (Some turn_id) then finalize_turn_segment s else s
  | RTurnContext c =>
      let g := note_turn_id (ctx_turn_id c) g in
      set_segment (if turn_ids_are_compatible (ts_turn_id g) (ctx_turn_id c)
                   then mkTurnSegment (ts_turn_id g) (has_user_turn g) true (has_full_world_state g) (ts_saw_compaction g)
                   else g) s
  | RResponseItem e => set_segment (note_user_turn (response_item_counts_as_user_turn e) g) s
  | RInterAgentCommunication _ => set_segment (note_user_turn true g) s
  | REventMsg UserMessageEvent => set_segment (note_user_turn true g) s
  | RWorldState w =>
      set_segment (mkTurnSegment (ts_turn_id g) (has_user_turn g) (has_turn_context g)
        (has_full_world_state g || WorldState.full w && negb (ts_saw_compaction g)) (ts_saw_compaction g)) s
  | REventMsg (OtherEventMsg _) | RSessionMeta _ | RInterAgentCommunicationMetadata _ | RRealtimeItem _
  | RSecurityRiskScore _ | RTokenUsageRecord _ => s
  end.

Definition observe (s : ModelContextScan) (i : RolloutItem) : ModelContextScan * ModelContextScanProgress :=
  if must_scan_to_start s then (s, Continue)
  else
    let s := observe_item s i in
    (s, if has_bounded_cutoff s then Complete else Continue).

Definition scan_push (s : ModelContextScan) (i : RolloutItem) : ModelContextScan * ModelContextScanProgress :=
  let '(s, progress) := observe s i in
  (mkScan (items_newest_first s ++ [i]) (saw_compaction s) (saw_completed_turn_context s) (must_scan_to_start s)
     (scan_segment s), progress).

Definition scan_finish (s : ModelContextScan) (session_meta : SessionMetaLine) : list RolloutItem :=
  let chronological := rev (items_newest_first s) in
  if has_bounded_cutoff s then RSessionMeta session_meta :: chronological else chronological.

(** A reader that feeds the items from the newest on and stops at [Complete]. *)
Fixpoint scan_items (newest_first : list RolloutItem) (s : ModelContextScan) : ModelContextScan :=
  match newest_first with
  | [] => s
  | i :: rest =>
      match scan_push s i with
      | (s, Complete) => s
      | (s, Continue) => scan_items rest s
      end
  end.

Definition bounded_items (items : list RolloutItem) (session_meta : SessionMetaLine) : list RolloutItem :=
  scan_finish (scan_items (rev items) scan_default) session_meta.

End rollout.
