(* ===== verification/RolloutReplay.v ===== *)
(** * Reconstructing a session from its rollout

    core/src/session/rollout_reconstruction.rs: the rollout is scanned from the
    newest item back, segment by segment (a segment is what lies between two
    starts of turns), until the newest surviving checkpoint and the metadata for
    resuming are known; then the items after the checkpoint are replayed forward
    into a history.

    [ReplayScan] holds the mutable variables of the function; [scan_item] is the
    body of the reverse loop, [replay_item] that of the forward loop.  The
    borrowed suffix of the rollout is the index at which it starts. *)

From S2P Require Import Prelude RustStr Truncate OutputTruncation ResponseItem ContextFragments.
From S2P Require Import Normalize TranscriptHistory TokenUsage ContextManager EventMapping Compaction Rollout.
From S2P Require WorldState.

Record PreviousTurnSettings := mkPreviousTurnSettings {
  pts_model : str;
  pts_comp_hash : option str;
  pts_realtime_active : option bool }.

Record ReconstructedWindow := mkWindow {
  window_number : N;
  window_first_id : option N;
  window_previous_id : option N;
  window_id : option N }.

Section replay.
Context {json : SerdeJson} {parsers : FragmentParsers} {enc : ReviewEncoding} {measures : ItemMeasures}.
Context {turn : TurnTypes} {types : RolloutTypes}.

Inductive TurnReferenceContextItem := NeverSet | Cleared | Latest (c : TurnContextItem).

Definition is_never_set (r : TurnReferenceContextItem) : bool := match r with NeverSet => true | _ => false end.
Definition is_cleared (r : TurnReferenceContextItem) : bool := match r with Cleared => true | _ => false end.

Record ActiveReplaySegment := mkSegment {
  seg_turn_id : option str;
  counts_as_user_turn : bool;
  seg_previous_turn_settings : option PreviousTurnSettings;
  seg_reference_context_item : TurnReferenceContextItem;
  seg_world_state_replay : list RolloutItem;
  seg_base_replacement_history : option (list ResponseItemEnvelope);
  seg_window : option ReconstructedWindow }.

Definition segment_default : ActiveReplaySegment := mkSegment None false None NeverSet [] None None.

Record ReplayScan := mkReplayScan {
  base_replacement_history : option (list ResponseItemEnvelope);
  previous_turn_settings : option PreviousTurnSettings;
  reference_context_item : TurnReferenceContextItem;
  world_state_replay : list RolloutItem;
  window : option ReconstructedWindow;
  pending_rollback_turns : N;
  suffix_start : nat;
  active_segment : option ActiveReplaySegment }.

Definition replay_scan_init : ReplayScan := mkReplayScan None None NeverSet [] None 0 0 None.

(** [Uuid::get_version_num]: the high half of the seventh byte. *)
Definition parse_uuid_v7 (value : str) : option N :=
  uuid ← uuid_parse_str value;
  if (N.land (N.shiftr uuid 76) 15 =? 7)%N then Some uuid else None.

Definition reconstructed_window_from_session_context_window (context_window : str) : option ReconstructedWindow :=
  id ← parse_uuid_v7 context_window; Some (mkWindow 0 (Some id) None (Some id)).

Definition is_compacted (i : RolloutItem) : bool := match i with RCompacted _ => true | _ => false end.
Definition is_full_world_state (i : RolloutItem) : bool :=
  match i with RWorldState w => WorldState.full w | _ => false end.

(** [iter().take_while(..).any(..)] *)
Fixpoint full_snapshot_since_compaction (newest_first : list RolloutItem) : bool :=
  match newest_first with
  | [] => false
  | i :: rest => if is_compacted i then false else is_full_world_state i || full_snapshot_since_compaction rest
  end.

Definition has_context_baseline (g : ActiveReplaySegment) : bool :=
  counts_as_user_turn g || full_snapshot_since_compaction (seg_world_state_replay g).

Definition finalize_active_segment (g : ActiveReplaySegment) (s : ReplayScan) : ReplayScan :=
  if (0 <? pending_rollback_turns s)%N then
    mkReplayScan (base_replacement_history s) (previous_turn_settings s) (reference_context_item s)
      (world_state_replay s) (window s)
      (if counts_as_user_turn g then pending_rollback_turns s - 1 else pending_rollback_turns s)%N
      (suffix_start s) (active_segment s)
  else
    mkReplayScan
      (match base_replacement_history s with Some h => Some h | None => seg_base_replacement_history g end)
      (match previous_turn_settings s with
       | Some p => Some p
       | None => if has_context_baseline g then seg_previous_turn_settings g else None
       end)
      (if is_never_set (reference_context_item s) && (has_context_baseline g || is_cleared (seg_reference_context_item g))
       then seg_reference_context_item g else reference_context_item s)
      (world_state_replay s ++ seg_world_state_replay g)
      (match window s with Some w => Some w | None => seg_window g end)
      (pending_rollback_turns s) (suffix_start s) (active_segment s).

Definition set_active (g : option ActiveReplaySegment) (s : ReplayScan) : ReplayScan :=
  mkReplayScan (base_replacement_history s) (previous_turn_settings s) (reference_context_item s)
    (world_state_replay s) (window s) (pending_rollback_turns s) (suffix_start s) g.

Definition set_suffix (n : nat) (s : ReplayScan) : ReplayScan :=
  mkReplayScan (base_replacement_history s) (previous_turn_settings s) (reference_context_item s)
    (world_state_replay s) (window s) (pending_rollback_turns s) n (active_segment s).

Definition add_pending (n : N) (s : ReplayScan) : ReplayScan :=
  mkReplayScan (base_replacement_history s) (previous_turn_settings s) (reference_context_item s)
    (world_state_replay s) (window s) (saturating_add (pending_rollback_turns s) n) (suffix_start s) (active_segment s).

Definition set_turn_id (id : option str) (g : ActiveReplaySegment) : ActiveReplaySegment :=
  mkSegment (match seg_turn_id g with Some t => Some t | None => id end) (counts_as_user_turn g)
    (seg_previous_turn_settings g) (seg_reference_context_item g) (seg_world_state_replay g)
    (seg_base_replacement_history g) (seg_window g).

Definition set_user_turn (b : bool) (g : ActiveReplaySegment) : ActiveReplaySegment :=
  mkSegment (seg_turn_id g) (counts_as_user_turn g || b) (seg_previous_turn_settings g) (seg_reference_context_item g)
    (seg_world_state_replay g) (seg_base_replacement_history g) (seg_window g).

Definition push_world_state (i : RolloutItem) (g : ActiveReplaySegment) : ActiveReplaySegment :=
  mkSegment (seg_turn_id g) (counts_as_user_turn g) (seg_previous_turn_settings g) (seg_reference_context_item g)
    (seg_world_state_replay g ++ [i]) (seg_base_replacement_history g) (seg_window g).

(** A compaction, looking backward. *)
Definition segment_compacted (c : CompactedItem) (g : ActiveReplaySegment) : ActiveReplaySegment :=
  let g := push_world_state (RCompacted c) g in
  mkSegment (seg_turn_id g) (counts_as_user_turn g) (seg_previous_turn_settings g)
    (if is_never_set (seg_reference_context_item g) then Cleared else seg_reference_context_item g)
    (seg_world_state_replay g)
    (match seg_base_replacement_history g with Some h => Some h | None => ci_replacement_history c end)
    (match seg_window g with
     | Some w => Some w
     | None =>
         match ci_window_number c with
         | Some number => Some (mkWindow number (ci_first_window_id c ≫= parse_uuid_v7)
                                  (ci_previous_window_id c ≫= parse_uuid_v7) (ci_window_id c ≫= parse_uuid_v7))
         | None => None
         end
     end).

Definition settings_of (c : TurnContextItem) : PreviousTurnSettings :=
  mkPreviousTurnSettings (ctx_model c) (ctx_comp_hash c) (ctx_realtime_active c).

Definition segment_turn_context (c : TurnContextItem) (g : ActiveReplaySegment) : ActiveReplaySegment :=
  let g := set_turn_id (ctx_turn_id c) g in
  if turn_ids_are_compatible (seg_turn_id g) (ctx_turn_id c) then
    mkSegment (seg_turn_id g) (counts_as_user_turn g) (Some (settings_of c))
      (if is_never_set (seg_reference_context_item g) then Latest c else seg_reference_context_item g)
      (seg_world_state_replay g) (seg_base_replacement_history g) (seg_window g)
  else g.

(** [active_segment.get_or_insert_with(Default::default)] *)
Definition active_or_default (s : ReplayScan) : ActiveReplaySegment := default segment_default (active_segment s).

Definition on_segment (f : ActiveReplaySegment -> ActiveReplaySegment) (s : ReplayScan) : ReplayScan :=
  set_active (Some (f (active_or_default s))) s.

Definition scan_item (index : nat) (i : RolloutItem) (s : ReplayScan) : ReplayScan :=
  match i with
  | RCompacted c =>
      let s' := on_segment (segment_compacted c) s in
      match seg_base_replacement_history (active_or_default s), ci_replacement_history c with
      | None, Some _ => set_suffix (index + 1) s'
      | _, _ => s'
      end
  | REventMsg (ThreadRolledBack num_turns) => add_pending num_turns s
  | REventMsg (TurnComplete turn_id) => on_segment (set_turn_id (Some turn_id)) s
  | REventMsg (TurnAborted turn_id) =>
      match active_segment s, turn_id with
      | Some g, _ => set_active (Some (set_turn_id turn_id g)) s
      | None, Some turn_id => set_active (Some (set_turn_id (Some turn_id) segment_default)) s
      | None, None => s
      end
  | REventMsg UserMessageEvent => on_segment (set_user_turn true) s
  | RTurnContext c => on_segment (segment_turn_context c) s
  | RWorldState _ => on_segment (push_world_state i) s
  | REventMsg (TurnStarted turn_id) =>
      match active_segment s with
      | Some g =>
          if turn_ids_are_compatible (seg_turn_id g) (Some turn_id)
          then finalize_active_segment g (set_active None s) else s
      | None => s
      end
  | RResponseItem e => on_segment (set_user_turn (is_user_turn_boundary (item e))) s
  | RInterAgentCommunication _ => on_segment (set_user_turn true) s
  | REventMsg (ItemCompleted _ _) | REventMsg (OtherEventMsg _) | RSessionMeta _ | RRealtimeItem _
  | RSecurityRiskScore _ | RTokenUsageRecord _ | RInterAgentCommunicationMetadata _ => s
  end.

(** The condition of the [break]. *)
Definition scan_done (s : ReplayScan) : bool :=
  match base_replacement_history s, previous_turn_settings s with
  | Some _, Some _ => negb (is_never_set (reference_context_item s))
  | _, _ => false
  end.

Fixpoint scan_loop (newest_first : list (nat * RolloutItem)) (s : ReplayScan) : ReplayScan :=
  match newest_first with
  | [] => s
  | (index, i) :: rest =>
      let s := scan_item index i s in
      if scan_done s then s else scan_loop rest s
  end.

(** The reverse loop and the segment it leaves open. *)
Definition finish_scan (s : ReplayScan) : ReplayScan :=
  match active_segment s with
  | Some g => finalize_active_segment g (set_active None s)
  | None => s
  end.

Definition reverse_scan (rollout_items : list RolloutItem) : ReplayScan :=
  finish_scan (scan_loop (rev (enumerate rollout_items)) replay_scan_init).

(** ** The forward replay *)

Definition legacy_compaction (c : CompactedItem) (m : ContextManager) : option ContextManager :=
  rebuilt ← build_compacted_history [] (collect_annotated_user_messages (cm_items m)) (ci_message c);
  replace_annotated rebuilt m.

Definition replay_item (policy : TruncationPolicy) (st : ContextManager * bool) (i : RolloutItem)
    : option (ContextManager * bool) :=
  let '(history, saw_legacy) := st in
  match i with
  | RResponseItem e => history ← record_annotated_items [e] policy history; Some (history, saw_legacy)
  | RInterAgentCommunication c =>
      history ← record_items [to_model_input_item c] policy history; Some (history, saw_legacy)
  | RCompacted c =>
      match ci_replacement_history c with
      | Some replacement_history => history ← replace_annotated replacement_history history; Some (history, saw_legacy)
      | None => history ← legacy_compaction c history; Some (history, true)
      end
  | REventMsg (ThreadRolledBack num_turns) =>
      history ← drop_last_n_user_turns num_turns history; Some (history, saw_legacy)
  | _ => Some st
  end.

Fixpoint replay (policy : TruncationPolicy) (items : list RolloutItem) (st : ContextManager * bool)
    : option (ContextManager * bool) :=
  match items with
  | [] => Some st
  | i :: items => st ← replay_item policy st i; replay policy items st
  end.

(** ** World state *)

(** Only compactions and world-state records are collected; others panic. *)
Definition replay_world_state (baseline : option WorldState.WorldStateSnapshot) (i : RolloutItem)
    : option (option WorldState.WorldStateSnapshot) :=
  match i with
  | RCompacted _ => Some None
  | RWorldState w => Some (WorldState.restore baseline w)
  | _ => None
  end.

Fixpoint replay_world_states (items : list RolloutItem) (baseline : option WorldState.WorldStateSnapshot)
    : option (option WorldState.WorldStateSnapshot) :=
  match items with
  | [] => Some baseline
  | i :: items => baseline ← replay_world_state baseline i; replay_world_states items baseline
  end.

(** ** The whole function *)

Record RolloutReconstruction := mkReconstruction {
  rr_history : list ResponseItemEnvelope;
  rr_previous_turn_settings : option PreviousTurnSettings;
  rr_reference_context_item : option TurnContextItem;
  rr_world_state_baseline : option WorldState.WorldStateSnapshot;
  rr_window : ReconstructedWindow }.

Definition has_legacy_compaction_without_window_number (rollout_items : list RolloutItem) : bool :=
  existsb (fun i => match i with
                    | RCompacted c => match ci_window_number c with None => true | Some _ => false end
                    | _ => false
                    end) rollout_items.

Definition initial_window (rollout_items : list RolloutItem) : option ReconstructedWindow :=
  if has_legacy_compaction_without_window_number rollout_items then None
  else find_map (fun i =>
         match i with
         | RSessionMeta m => sm_context_window m ≫= reconstructed_window_from_session_context_window
         | _ => None
         end) rollout_items.

Definition fallback_window_number (rollout_items : list RolloutItem) : N :=
  N.of_nat (length (List.filter is_compacted rollout_items)).

Definition reference_of (r : TurnReferenceContextItem) (saw_legacy : bool) : option TurnContextItem :=
  match r with
  | Latest c => if saw_legacy then None else Some c
  | NeverSet | Cleared => None
  end.

Definition window_of (rollout_items : list RolloutItem) (s : ReplayScan) : ReconstructedWindow :=
  match window s with
  | Some w => w
  | None => default (mkWindow (fallback_window_number rollout_items) None None None) (initial_window rollout_items)
  end.

Definition reconstruct_history_from_rollout (policy : TruncationPolicy) (rollout_items : list RolloutItem)
    : option RolloutReconstruction :=
  let s := reverse_scan rollout_items in
  history ← (match base_replacement_history s with
             | Some base => replace_annotated base manager_new
             | None => Some manager_new
             end);
  '(history, saw_legacy) ← replay policy (drop (suffix_start s) rollout_items) (history, false);
  world_state_baseline ← replay_world_states (rev (world_state_replay s)) None;
  Some (mkReconstruction (cm_items history) (previous_turn_settings s)
          (reference_of (reference_context_item s) saw_legacy) world_state_baseline (window_of rollout_items s)).

End replay.

(** ** Replaying depends on the items only *)

Section replay_facts.
Context {json : SerdeJson} {parsers : FragmentParsers} {enc : ReviewEncoding} {measures : ItemMeasures}.
Context {turn : TurnTypes} {types : RolloutTypes}.

(** The replayed manager keeps no review history. *)
Definition fresh (m : ContextManager) : Prop := cm_review_history m = None.

Definition of_items (items : list ResponseItemEnvelope) : ContextManager := mkContextManager items None 0 0 None None None.

Definition is_legacy (i : RolloutItem) : bool :=
  match i with
  | RCompacted c => match ci_replacement_history c with None => true | Some _ => false end
  | _ => false
  end.

(** An operation that always succeeds on such managers, with a result that is a
    function of the items. *)
Definition acts (op : ContextManager -> option ContextManager) (f : list ResponseItemEnvelope -> list ResponseItemEnvelope) : Prop :=
  forall m, fresh m -> exists m', op m = Some m' /\ fresh m' /\ cm_items m' = f (cm_items m).

Lemma replace_annotated_acts items : acts (replace_annotated items) (fun _ => items).
Proof. intros m Hm. unfold replace_annotated. rewrite Hm. simpl. by eexists. Qed.

Lemma record_item_acts policy e md : exists f, acts (fun m => record_item policy m (e, md)) f.
Proof.
  destruct (process_item_total e md policy) as (e' & He & _).
  exists (fun items => if is_api_message e then items ++ [mkEnvelope e' md] else items).
  intros m Hm. unfold record_item. destruct (is_api_message e); simpl; [|by eexists].
  rewrite He. simpl. rewrite Hm. simpl. by eexists.
Qed.

Lemma trim_cut snapshot first cut : forall r r',
  snd <$> trim_pre_turn_context_updates snapshot first cut r = snd <$> trim_pre_turn_context_updates snapshot first cut r'.
Proof.
  induction cut as [|cut IH]; intros r r'; simpl; [by destruct first|].
  destruct first; simpl; [|destruct (_ <=? _); [done|]];
    (destruct (snapshot !! cut) as [e|]; simpl; [|done]; destruct (is_context_update (item e)); [apply IH|done]).
Qed.

Lemma replace_items items m m2 : fresh m -> fresh m2 ->
  cm_items <$> replace_annotated items m = cm_items <$> replace_annotated items m2.
Proof. intros H1 H2. unfold replace_annotated. by rewrite H1, H2. Qed.

Lemma drop_turns_items n m m2 : fresh m -> fresh m2 -> cm_items m = cm_items m2 ->
  cm_items <$> drop_last_n_user_turns n m = cm_items <$> drop_last_n_user_turns n m2.
Proof.
  intros H1 H2 Hi. unfold drop_last_n_user_turns. rewrite Hi. destruct (n =? 0)%N; [simpl; by rewrite Hi|].
  destruct (user_message_positions (cm_items m2)) as [|first ps]; [by apply replace_items|].
  destruct (if _ <=? _ then _ else _) as [cut|]; simpl; [|done].
  pose proof (trim_cut (cm_items m2) first cut (cm_reference_context_item m) (cm_reference_context_item m2)) as Ht.
  destruct (trim_pre_turn_context_updates _ _ _ (cm_reference_context_item m)) as [[r c]|],
    (trim_pre_turn_context_updates _ _ _ (cm_reference_context_item m2)) as [[r2 c2]|]; simpl in *; simplify_eq; try done.
  destruct (retained_items _ _ _) as [retained|]; simpl; [|done]. by apply replace_items.
Qed.

Lemma drop_turns_acts n : exists f, acts (drop_last_n_user_turns n) f.
Proof.
  destruct (N.eqb_spec n 0) as [->|Hn]; [exists id; intros m Hm; by exists m|].
  exists (fun items => default [] (cm_items <$> drop_last_n_user_turns n (of_items items))).
  intros m Hm. rewrite <- (drop_turns_items n m) by done.
  destruct (rollback_retains n m Hn) as (retained & reference & -> & _).
  destruct (replace_annotated_acts retained (set_reference_context_item reference m) Hm) as (m1 & -> & Hf1 & Hi1).
  by exists m1.
Qed.

Lemma legacy_compaction_acts c : exists f, acts (legacy_compaction c) f.
Proof.
  exists (fun items => default [] (build_compacted_history [] (collect_annotated_user_messages items) (ci_message c))).
  intros m Hm. unfold legacy_compaction.
  destruct (build_compacted_recent [] (collect_annotated_user_messages (cm_items m)) (ci_message c)
    COMPACT_USER_MESSAGE_MAX_TOKENS) as (selected & Hb & _).
  unfold build_compacted_history. rewrite Hb. cbn [mbind option_bind default].
  exact (replace_annotated_acts _ m Hm).
Qed.

Lemma replay_item_acts policy i : exists f, forall m saw, fresh m ->
  exists m', replay_item policy (m, saw) i = Some (m', saw || is_legacy i) /\ fresh m' /\ cm_items m' = f (cm_items m).
Proof.
  destruct i as [s|[e md]|co|b|c|ctx|r|w|r|ev|r];
    try (by exists id; intros m saw Hm; exists m; rewrite orb_false_r).
  - destruct (record_item_acts policy e md) as [f Hf]. exists f. intros m saw Hm.
    destruct (Hf m Hm) as (m' & H1 & H2). exists m'. unfold replay_item, record_annotated_items.
    cbn [map record_items_with_metadata item metadata]. rewrite H1. by rewrite orb_false_r.
  - destruct (record_item_acts policy (to_model_input_item co) None) as [f Hf]. exists f. intros m saw Hm.
    destruct (Hf m Hm) as (m' & H1 & H2). exists m'. unfold replay_item, record_items.
    cbn [map record_items_with_metadata]. rewrite H1. by rewrite orb_false_r.
  - unfold replay_item, is_legacy. destruct (ci_replacement_history c) as [h|].
    + exists (fun _ => h). intros m saw Hm. destruct (replace_annotated_acts h m Hm) as (m' & -> & H). exists m'.
      by rewrite orb_false_r.
    + destruct (legacy_compaction_acts c) as [f Hf]. exists f. intros m saw Hm. destruct (Hf m Hm) as (m' & -> & H).
      exists m'. by rewrite orb_true_r.
  - destruct ev; try (by exists id; intros m saw Hm; exists m; rewrite orb_false_r).
    destruct (drop_turns_acts num_turns) as [f Hf]. exists f. intros m saw Hm. destruct (Hf m Hm) as (m' & H1 & H).
    exists m'. cbn [replay_item]. rewrite H1. by rewrite orb_false_r.
Qed.

(** The items that a replay from [items] ends with. *)
Definition replayed (policy : TruncationPolicy) (l : list RolloutItem) (items : list ResponseItemEnvelope)
    : list ResponseItemEnvelope :=
  match replay policy l (of_items items, false) with Some (m, _) => cm_items m | None => [] end.

Lemma replay_acts policy l : exists f, forall m saw, fresh m ->
  exists m', replay policy l (m, saw) = Some (m', saw || existsb is_legacy l) /\ fresh m' /\ cm_items m' = f (cm_items m).
Proof.
  induction l as [|i l [f IH]]; [exists id; intros m saw Hm; exists m; by rewrite orb_false_r|].
  destruct (replay_item_acts policy i) as [g Hg]. exists (fun items => f (g items)). intros m saw Hm.
  destruct (Hg m saw Hm) as (m1 & H1 & Hf1 & Hi1). destruct (IH m1 (saw || is_legacy i) Hf1) as (m2 & H2 & Hf2 & Hi2).
  exists m2. cbn [replay]. rewrite H1. cbn [mbind option_bind]. rewrite H2. simpl. by rewrite orb_assoc, Hi2, Hi1.
Qed.

Lemma replay_spec policy l m saw : fresh m ->
  exists m', replay policy l (m, saw) = Some (m', saw || existsb is_legacy l) /\ fresh m'
             /\ cm_items m' = replayed policy l (cm_items m).
Proof.
  intros Hm. destruct (replay_acts policy l) as [f Hf]. destruct (Hf m saw Hm) as (m' & H1 & H2 & H3).
  exists m'. split_and!; [done..|]. unfold replayed. destruct (Hf (of_items (cm_items m)) false eq_refl) as (m2 & -> & _ & Hi).
  by rewrite H3, Hi.
Qed.

Lemma replayed_app policy l1 l2 items : replayed policy (l1 ++ l2) items = replayed policy l2 (replayed policy l1 items).
Proof.
  destruct (replay_spec policy l1 (of_items items) false eq_refl) as (m1 & H1 & Hf1 & Hi1).
  destruct (replay_spec policy l2 m1 (existsb is_legacy l1) Hf1) as (m2 & H2 & Hf2 & Hi2).
  unfold replayed at 1. replace (replay policy (l1 ++ l2) (of_items items, false))
    with (st ← replay policy l1 (of_items items, false); replay policy l2 st).
  { rewrite H1. cbn [mbind option_bind orb]. rewrite H2. by rewrite Hi2, Hi1. }
  clear. generalize (of_items items, false) as st. induction l1 as [|i l1 IH]; intros st; [done|].
  simpl. destruct (replay_item policy st i); simpl; [apply IH|done].
Qed.

(** A checkpoint makes everything before it irrelevant. *)
Lemma replayed_checkpoint policy c h l items : ci_replacement_history c = Some h ->
  replayed policy (RCompacted c :: l) items = replayed policy l h.
Proof.
  intros Hc. change (RCompacted c :: l) with ([RCompacted c] ++ l). rewrite replayed_app. f_equal.
  unfold replayed. simpl. by rewrite Hc.
Qed.

End replay_facts.

(** ** What the reverse scan knows *)

Section scan_facts.
Context {json : SerdeJson} {parsers : FragmentParsers} {enc : ReviewEncoding} {measures : ItemMeasures}.
Context {turn : TurnTypes} {types : RolloutTypes}.
Implicit Types (items : list RolloutItem) (s : ReplayScan) (g : ActiveReplaySegment).

Definition checkpoint (i : RolloutItem) : option (list ResponseItemEnvelope) :=
  match i with RCompacted c => ci_replacement_history c | _ => None end.

Definition no_checkpoint (items : list RolloutItem) : Prop := Forall (fun i => checkpoint i = None) items.

Definition no_rollback (items : list RolloutItem) : Prop :=
  Forall (fun i => match i with REventMsg (ThreadRolledBack _) => False | _ => True end) items.

Definition world_state_record (i : RolloutItem) : bool :=
  match i with RCompacted _ | RWorldState _ => true | _ => false end.

(** [h] is the content of a checkpoint from index [k] on, and the suffix to
    replay starts at the latest right after it. *)
Definition backed items (k suffix : nat) (h : list ResponseItemEnvelope) : Prop :=
  exists B i, items !! B = Some i /\ checkpoint i = Some h /\ k <= B /\ 0 < suffix <= B + 1.

Definition seg_inv items k suffix g : Prop :=
  (forall h, seg_base_replacement_history g = Some h -> backed items k suffix h)
  /\ Forall (fun i => world_state_record i = true) (seg_world_state_replay g).

Definition scan_inv items k s : Prop :=
  (suffix_start s = 0 \/ k < suffix_start s /\ exists i h, items !! (suffix_start s - 1) = Some i /\ checkpoint i = Some h)
  /\ (forall h, base_replacement_history s = Some h -> backed items k (suffix_start s) h)
  /\ Forall (fun i => world_state_record i = true) (world_state_replay s)
  /\ forall g, active_segment s = Some g -> seg_inv items k (suffix_start s) g.

Lemma backed_weaken items k k' n n' h : k' <= k -> 0 < n' <= n -> backed items k n h -> backed items k' n' h.
Proof. intros Hk Hn (B & i & H1 & H2 & H3 & H4). exists B, i. split_and!; try done; lia. Qed.

Lemma scan_inv_weaken items k k' s : k' <= k -> scan_inv items k s -> scan_inv items k' s.
Proof.
  intros Hk (H1 & H2 & H3 & H4). assert (forall h, backed items k (suffix_start s) h -> backed items k' (suffix_start s) h) as Hb.
  { intros h (B & i & ? & ? & ? & ?). exists B, i. split_and!; try done; lia. }
  split_and!; [destruct H1 as [|[]]; [by left|right; split; [lia|done]]|auto|done|].
  intros g Hg. destruct (H4 g Hg) as [H5 H6]. split; auto.
Qed.

Lemma seg_inv_default items k n : seg_inv items k n segment_default.
Proof. by split. Qed.

Lemma active_inv items k s : scan_inv items k s -> seg_inv items k (suffix_start s) (active_or_default s).
Proof.
  intros (_ & _ & _ & H). unfold active_or_default. destruct (active_segment s); [by apply H|apply seg_inv_default].
Qed.

Lemma set_active_inv items k s g : scan_inv items k s -> seg_inv items k (suffix_start s) g -> scan_inv items k (set_active (Some g) s).
Proof. intros (H1 & H2 & H3 & H4) Hg. split_and!; try done. by intros ? [= <-]. Qed.

(** Updates of a segment that leave the collected records alone. *)
Definition keeps_records (f : ActiveReplaySegment -> ActiveReplaySegment) : Prop :=
  forall g, seg_base_replacement_history (f g) = seg_base_replacement_history g
            /\ seg_world_state_replay (f g) = seg_world_state_replay g.

Lemma on_segment_inv items k s f : keeps_records f -> scan_inv items k s -> scan_inv items k (on_segment f s).
Proof.
  intros Hf Hs. apply set_active_inv; [done|]. destruct (active_inv _ _ _ Hs) as [H1 H2].
  destruct (Hf (active_or_default s)) as [E1 E2]. unfold seg_inv. by rewrite E1, E2.
Qed.

Lemma segment_turn_context_keeps c : keeps_records (segment_turn_context c).
Proof. intros g. unfold segment_turn_context. by destruct (turn_ids_are_compatible _ _). Qed.

Lemma finalize_inv items k s g : scan_inv items k s -> seg_inv items k (suffix_start s) g ->
  scan_inv items k (finalize_active_segment g (set_active None s)).
Proof.
  intros (H1 & H2 & H3 & H4) [Hg1 Hg2]. unfold finalize_active_segment. simpl.
  destruct (0 <? pending_rollback_turns s)%N; split_and!; try done; simpl.
  - destruct (base_replacement_history s) eqn:E; [intros h [= <-]; auto|auto].
  - by apply Forall_app.
Qed.

Lemma scan_item_inv items k i s : items !! k = Some i -> scan_inv items (S k) s -> scan_inv items k (scan_item k i s).
Proof.
  intros Hi Hs. assert (scan_inv items k s) as Hw by (eapply scan_inv_weaken; [|done]; lia).
  destruct i as [m|e|co|b|c|ctx|r|w|r|ev|r]; try done; simpl.
  - by apply on_segment_inv.
  - by apply on_segment_inv.
  - (* a compaction *)
    pose proof (active_inv _ _ _ Hs) as [Ha1 Ha2]. destruct Hs as (H1 & H2 & H3 & H4).
    assert (forall n, 0 < n <= k + 1 -> forall h, backed items (S k) (suffix_start s) h -> backed items k n h) as Hb.
    { intros n Hn h (B & i & ? & ? & ? & ?). exists B, i. split_and!; try done; lia. }
    assert (Forall (fun i => world_state_record i = true)
              (seg_world_state_replay (segment_compacted c (active_or_default s)))) as Hr
      by (simpl; apply Forall_app; split; [done|by repeat constructor]).
    destruct (seg_base_replacement_history (active_or_default s)) as [h0|] eqn:E0.
    + apply set_active_inv; [done|]. split; [|done]. simpl. rewrite E0. intros h [= <-].
      eapply backed_weaken; [| |by apply Ha1]; [lia|]. destruct (Ha1 _ eq_refl) as (? & ? & ? & ? & ? & ?). lia.
    + destruct (ci_replacement_history c) as [h|] eqn:Ec.
      * split_and!; simpl.
        -- right. split; [lia|]. exists (RCompacted c), h. replace (k + 1 - 1) with k by lia. by split.
        -- intros h' Hh'. by apply (Hb (k + 1)); [lia|apply H2].
        -- done.
        -- intros g [= <-]. split; [|done]. simpl. rewrite E0, Ec. intros ? [= <-].
           exists k, (RCompacted c). split_and!; try done; lia.
      * apply set_active_inv; [done|]. split; [|done]. simpl. by rewrite E0, Ec.
  - apply on_segment_inv; [apply segment_turn_context_keeps|done].
  - apply set_active_inv; [done|]. destruct (active_inv _ _ _ Hw) as [H1 H2]. split; [done|]. simpl.
    apply Forall_app. split; [done|]. by repeat constructor.
  - destruct ev as [t|t|t| |t b|n|e]; try done; simpl.
    + destruct (active_segment s) as [g|] eqn:Eg; [|done]. destruct (turn_ids_are_compatible _ _); [|done].
      apply finalize_inv; [done|]. destruct Hw as (_ & _ & _ & Hw). by apply Hw.
    + by apply on_segment_inv.
    + destruct (active_segment s) as [g|] eqn:Eg.
      * apply set_active_inv; [done|]. destruct Hw as (_ & _ & _ & Hw). exact (Hw g Eg).
      * destruct t; [|done]. apply set_active_inv; [done|]. by split.
    + by apply on_segment_inv.
Qed.

Lemma enumerate_snoc items i : enumerate (items ++ [i]) = enumerate items ++ [(length items, i)].
Proof. unfold enumerate. rewrite length_app, seq_app, zip_with_app by (by rewrite length_seq). done. Qed.

Lemma scan_loop_inv items k s : k <= length items -> scan_inv items k s ->
  scan_inv items 0 (scan_loop (rev (enumerate (take k items))) s).
Proof.
  revert s. induction k as [|k IH]; intros s Hk Hs; [done|].
  destruct (lookup_lt_is_Some_2 items k) as [i Hi]; [lia|]. rewrite (take_S_r _ _ _ Hi), enumerate_snoc, rev_app_distr. simpl.
  rewrite length_take, Nat.min_l by lia. pose proof (scan_item_inv _ _ _ _ Hi Hs) as Hs'.
  destruct (scan_done _); [by eapply scan_inv_weaken; [|done]; lia|]. apply IH; [lia|done].
Qed.

Lemma reverse_scan_inv items : scan_inv items 0 (reverse_scan items) /\ active_segment (reverse_scan items) = None.
Proof.
  unfold reverse_scan, finish_scan. pose proof (scan_loop_inv items (length items) replay_scan_init) as H.
  rewrite firstn_all in H. specialize (H ltac:(lia)). assert (scan_inv items (length items) replay_scan_init) as Hi.
  { split_and!; [by left|done|constructor|done]. }
  specialize (H Hi). destruct (active_segment (scan_loop _ _)) as [g|] eqn:E; [|done].
  split; [apply finalize_inv; [done|]; destruct H as (_ & _ & _ & H); by apply H|]. unfold finalize_active_segment. simpl. by destruct (0 <? _)%N.
Qed.

End scan_facts.

(** ** The history is that of a full replay *)

Section history.
Context {json : SerdeJson} {parsers : FragmentParsers} {enc : ReviewEncoding} {measures : ItemMeasures}.
Context {turn : TurnTypes} {types : RolloutTypes}.
Implicit Types (items : list RolloutItem) (s : ReplayScan) (g : ActiveReplaySegment).

Lemma replayed_from_checkpoint policy items B i h n start : items !! B = Some i -> checkpoint i = Some h ->
  n <= B -> replayed policy (drop n items) start = replayed policy (drop (S B) items) h.
Proof.
  intros Hi Hc Hn. destruct i; try done. rewrite <- (take_drop_middle items B _ Hi) at 1.
  rewrite drop_app_le by (rewrite length_take; apply lookup_lt_Some in Hi; lia).
  rewrite replayed_app. by apply replayed_checkpoint.
Qed.

Lemma scan_history policy items s : scan_inv items 0 s -> (base_replacement_history s = None -> suffix_start s = 0) ->
  replayed policy (drop (suffix_start s) items) (default [] (base_replacement_history s)) = replayed policy items [].
Proof.
  intros (_ & Hb & _) Hn. destruct (base_replacement_history s) as [h|].
  - destruct (Hb h eq_refl) as (B & i & Hi & Hc & _ & Hs). simpl.
    change items with (drop 0 items) at 2. rewrite (replayed_from_checkpoint policy items B i h 0) by (done || lia).
    destruct (decide (suffix_start s = S B)) as [->|]; [done|].
    rewrite (replayed_from_checkpoint policy items B i h) by (done || lia). done.
  - by rewrite Hn.
Qed.

Lemma replay_world_states_total l baseline : Forall (fun i => world_state_record i = true) l ->
  is_Some (replay_world_states l baseline).
Proof.
  revert baseline. induction l as [|i l IH]; intros baseline H; [by eexists|].
  apply Forall_cons in H as [Hi H]. destruct i; try done; simpl; by apply IH.
Qed.

(** The parts of the result. *)
Lemma reconstruct_parts policy items :
  let s := reverse_scan items in
  exists baseline, replay_world_states (rev (world_state_replay s)) None = Some baseline
  /\ reconstruct_history_from_rollout policy items
     = Some (mkReconstruction (replayed policy (drop (suffix_start s) items) (default [] (base_replacement_history s)))
               (previous_turn_settings s)
               (reference_of (reference_context_item s) (existsb is_legacy (drop (suffix_start s) items)))
               baseline (window_of items s)).
Proof.
  destruct (reverse_scan_inv items) as [(H1 & H2 & H3 & H4) _]. set (s := reverse_scan items) in *.
  destruct (replay_world_states_total (rev (world_state_replay s)) None) as [b Hb]; [by apply Forall_rev|].
  exists b. split; [done|]. unfold reconstruct_history_from_rollout. fold s.
  destruct (base_replacement_history s) as [h|]; cbn [default].
  - destruct (replace_annotated_acts h manager_new eq_refl) as (m & -> & Hf & Hi). cbn [mbind option_bind].
    destruct (replay_spec policy (drop (suffix_start s) items) m false Hf) as (m' & -> & _ & Hi').
    cbn [mbind option_bind orb]. rewrite Hb. cbn [mbind option_bind]. by rewrite Hi', Hi.
  - cbn [mbind option_bind].
    destruct (replay_spec policy (drop (suffix_start s) items) manager_new false eq_refl) as (m' & -> & _ & Hi').
    cbn [mbind option_bind orb]. rewrite Hb. cbn [mbind option_bind]. by rewrite Hi'.
Qed.

(** Without rollbacks no checkpoint is passed over. *)
Definition nothing_skipped items k s : Prop :=
  pending_rollback_turns s = 0%N
  /\ (base_replacement_history s = None -> seg_base_replacement_history (active_or_default s) = None -> no_checkpoint (drop k items)).

Lemma drop_checkpoint items k i : items !! k = Some i -> checkpoint i = None -> no_checkpoint (drop (S k) items) ->
  no_checkpoint (drop k items).
Proof. intros Hi Hc H. rewrite (drop_S _ _ _ Hi). by constructor. Qed.

Lemma scan_item_nothing_skipped items k i s : items !! k = Some i ->
  (match i with REventMsg (ThreadRolledBack _) => False | _ => True end) ->
  nothing_skipped items (S k) s -> nothing_skipped items k (scan_item k i s).
Proof.
  intros Hi Hr [Hp Hn].
  assert (forall f, keeps_records f -> checkpoint i = None -> nothing_skipped items k (on_segment f s)) as Hon.
  { intros f Hf Hc. split; [done|]. simpl. intros Hb Hg. destruct (Hf (active_or_default s)) as [E _].
    unfold active_or_default in Hg. simpl in Hg. rewrite E in Hg. by eapply drop_checkpoint; eauto. }
  assert (checkpoint i = None -> nothing_skipped items k s) as Hid.
  { intros Hc. split; [done|]. intros Hb Hg. by eapply drop_checkpoint; eauto. }
  destruct i as [m|e|co|b|c|ctx|r|w|r|ev|r]; try (by apply Hid); cbn [scan_item].
  - assert (nothing_skipped items k (on_segment (segment_compacted c) s)) as Hc.
    { split; [done|]. simpl. intros Hb Hg. unfold active_or_default in Hg. simpl in Hg.
      fold (active_or_default s) in Hg.
      destruct (seg_base_replacement_history (active_or_default s)) eqn:E; [done|].
      eapply drop_checkpoint; [done|done|by apply Hn]. }
    by destruct (seg_base_replacement_history (active_or_default s)), (ci_replacement_history c).
  - apply Hon; [apply segment_turn_context_keeps|done].
  - destruct ev as [t|t|t| |t b|n|e]; try (by apply Hid); try (by apply Hon); try done; cbn [scan_item].
    + destruct (active_segment s) as [g|] eqn:Eg; [|by apply Hid]. destruct (turn_ids_are_compatible _ _); [|by apply Hid].
      unfold finalize_active_segment. simpl. rewrite Hp. simpl. split; [done|]. simpl. intros Hb _.
      eapply drop_checkpoint; [done|done|]. destruct (base_replacement_history s) eqn:Eb; [done|]. apply Hn; [done|].
      unfold active_or_default. by rewrite Eg.
    + destruct (active_segment s) as [g|] eqn:Eg; [|destruct t; [|by apply Hid]].
      all: split; [done|]; simpl; intros Hb Hg; eapply drop_checkpoint; [done|done|]; apply Hn; [done|];
        unfold active_or_default in *; rewrite Eg; done.
Qed.

Lemma scan_loop_nothing_skipped items k s : k <= length items -> no_rollback (take k items) -> nothing_skipped items k s ->
  nothing_skipped items 0 (scan_loop (rev (enumerate (take k items))) s)
  \/ base_replacement_history (scan_loop (rev (enumerate (take k items))) s) <> None.
Proof.
  revert s. induction k as [|k IH]; intros s Hk Hr Hs; [by left|].
  destruct (lookup_lt_is_Some_2 items k) as [i Hi]; [lia|]. rewrite (take_S_r _ _ _ Hi) in *.
  apply Forall_app in Hr as [Hr Hri]. apply Forall_cons in Hri as [Hri _].
  rewrite enumerate_snoc, rev_app_distr. simpl. rewrite length_take, Nat.min_l by lia.
  pose proof (scan_item_nothing_skipped _ _ _ _ Hi Hri Hs) as Hs'.
  destruct (scan_done _) eqn:Ed; [|apply IH; [lia|done..]]. right. unfold scan_done in Ed. by destruct (base_replacement_history _).
Qed.

Lemma no_rollback_checkpoint_survives items : no_rollback items ->
  base_replacement_history (reverse_scan items) = None -> no_checkpoint items.
Proof.
  intros Hr. unfold reverse_scan. destruct (scan_loop_nothing_skipped items (length items) replay_scan_init) as [H|H];
    [lia|by rewrite firstn_all|split; [done|by rewrite drop_all; constructor]| |]; rewrite firstn_all in H.
  - destruct H as [Hp H]. unfold finish_scan. intros Hb. apply H.
    + destruct (active_segment _); [|done]. unfold finalize_active_segment in Hb. simpl in Hb. rewrite Hp in Hb. simpl in Hb.
      by destruct (base_replacement_history _).
    + unfold active_or_default. destruct (active_segment _) as [g|]; [|done]. unfold finalize_active_segment in Hb. simpl in Hb.
      rewrite Hp in Hb. simpl in *. by destruct (base_replacement_history _).
  - unfold finish_scan. destruct (active_segment _) as [g|]; [|done]. unfold finalize_active_segment. simpl.
    destruct (0 <? _)%N; simpl; [done|]. by destruct (base_replacement_history _).
Qed.

(** C16: a session is reconstructed from any rollout: neither the reconstruction
    nor a forward replay of the whole rollout fails.  When there was no
    rollback, or no checkpoint, or some checkpoint survives the rollbacks, the
    history reconstructed is exactly that of the replay: the scan from the newest
    item back only saves work. *)
Theorem reconstructed_history_is_replay policy items :
  exists r m saw_legacy, reconstruct_history_from_rollout policy items = Some r
  /\ replay policy items (manager_new, false) = Some (m, saw_legacy)
  /\ (no_rollback items \/ no_checkpoint items \/ base_replacement_history (reverse_scan items) <> None ->
      rr_history r = cm_items m).
Proof.
  destruct (reconstruct_parts policy items) as (b & _ & ->).
  destruct (replay_spec policy items manager_new false eq_refl) as (m & Hm & _ & Hi).
  eexists _, m, _. split_and!; [done|done|]. intros H. simpl. rewrite Hi. destruct (reverse_scan_inv items) as [Hs _].
  apply scan_history; [done|]. intros Hb. assert (no_checkpoint items) as Hc.
  { destruct H as [H|[H|H]]; [by apply no_rollback_checkpoint_survives|done|done]. }
  destruct Hs as ([Hz|(_ & i & h & Hi' & Hh)] & _); [done|]. apply list_elem_of_lookup_2 in Hi'.
  unfold no_checkpoint in Hc. rewrite Forall_forall in Hc. apply Hc in Hi'. congruence.
Qed.

End history.

(** ** A rolled back checkpoint *)

Section rolled_back.
Context {json : SerdeJson} {parsers : FragmentParsers} {enc : ReviewEncoding} {measures : ItemMeasures}.
Context {turn : TurnTypes} {types : RolloutTypes}.
Implicit Types (items : list RolloutItem) (s : ReplayScan).

(** No base is known, and the suffix to replay starts at [n]. *)
Definition baseless (n : nat) s : Prop :=
  base_replacement_history s = None /\ seg_base_replacement_history (active_or_default s) = None /\ suffix_start s = n.

Lemma scan_item_baseless n k i s : checkpoint i = None -> baseless n s -> baseless n (scan_item k i s).
Proof.
  intros Hc (H1 & H2 & H3). assert (forall f, keeps_records f -> baseless n (on_segment f s)) as Hon.
  { intros f Hf. split_and!; [done| |done]. destruct (Hf (active_or_default s)) as [E _]. exact (eq_trans E H2). }
  destruct i as [m|e|co|b|c|ctx|r|w|r|ev|r]; try done; cbn [scan_item].
  - simpl in Hc. rewrite Hc. destruct (seg_base_replacement_history (active_or_default s)) eqn:E; [done|].
    split_and!; [done| |done]. unfold active_or_default at 1. simpl. by rewrite E, Hc.
  - apply Hon, segment_turn_context_keeps.
  - destruct ev as [t|t|t| |t b|x|e]; try done; cbn [scan_item].
    + destruct (active_segment s) as [g|] eqn:Eg; [|done]. destruct (turn_ids_are_compatible _ _); [|done].
      unfold active_or_default in H2. rewrite Eg in H2. simpl in H2.
      unfold finalize_active_segment. simpl. destruct (0 <? _)%N; simpl; [done|].
      split_and!; simpl; [by rewrite H1|done|done].
    + destruct (active_segment s) as [g|] eqn:Eg; [|by destruct t]. unfold active_or_default in H2. rewrite Eg in H2. done.
Qed.

Lemma scan_loop_baseless n l s : Forall (fun e => checkpoint (snd e) = None) l -> baseless n s -> baseless n (scan_loop l s).
Proof.
  revert s. induction l as [|[k i] l IH]; intros s Hl Hs; [done|]. apply Forall_cons in Hl as [Hi Hl]. simpl.
  pose proof (scan_item_baseless n k i s Hi Hs) as Hs'. unfold scan_done. destruct Hs' as (E & Hs').
  rewrite E. by apply IH.
Qed.

Lemma finish_baseless n s : baseless n s -> baseless n (finish_scan s).
Proof.
  intros (H1 & H2 & H3). unfold finish_scan. destruct (active_segment s) as [g|] eqn:Eg; [|done].
  unfold active_or_default in H2. rewrite Eg in H2. simpl in H2. unfold finalize_active_segment. simpl.
  destruct (0 <? _)%N; simpl; [done|]. split_and!; simpl; [by rewrite H1|done|done].
Qed.

Lemma enumerate_app items items' :
  enumerate (items ++ items') = enumerate items ++ zip (seq (length items) (length items')) items'.
Proof. unfold enumerate. rewrite length_app, seq_app, zip_with_app by (by rewrite length_seq). done. Qed.

Lemma scan_loop_snoc l k i s : scan_loop ((k, i) :: l) s = if scan_done (scan_item k i s) then scan_item k i s else scan_loop l (scan_item k i s).
Proof. done. Qed.

Definition plain_answer (e : ResponseItemEnvelope) : Prop :=
  exists id content phase md, item e = Message id (lit "assistant") content phase md
                              /\ is_inter_agent_instruction_content content = false.

(** C19: a defect: when the only checkpoint of a rollout lies in a turn that was
    rolled back, the suffix to replay still starts after that checkpoint, though
    the checkpoint is not used.  Every earlier turn is lost, and the answer of
    the turn that was rolled back is what remains of the history. *)
Theorem rolled_back_checkpoint_loses_history policy earlier t c h e :
  no_checkpoint earlier -> ci_replacement_history c = Some h -> plain_answer e ->
  exists r, reconstruct_history_from_rollout policy
    (earlier ++ [REventMsg (TurnStarted t); REventMsg UserMessageEvent; RCompacted c; RResponseItem e;
                 REventMsg (TurnComplete t); REventMsg (ThreadRolledBack 1)]) = Some r
  /\ rr_history r = [e].
Proof.
  intros Hn Hc (id & content & phase & md & He & Hic). set (turn2 := [_; _; _; _; _; _]).
  assert (baseless (length earlier + 3) (reverse_scan (earlier ++ turn2))) as (Hb & _ & Hs).
  { unfold reverse_scan. apply finish_baseless. rewrite enumerate_app, rev_app_distr. simpl.
    unfold set_user_turn, turn_ids_are_compatible; simpl. rewrite Hc, He. simpl.
    rewrite str_eqb_refl. simpl. apply scan_loop_baseless.
    - apply Forall_rev. unfold enumerate. apply Forall_forall. intros [k i] Hi. simpl.
      apply elem_of_zip_r in Hi. unfold no_checkpoint in Hn. rewrite Forall_forall in Hn. by apply Hn.
    - split_and!; [done|done|simpl; lia]. }
  destruct (reconstruct_parts policy (earlier ++ turn2)) as (b & _ & ->). eexists. split; [done|]. simpl.
  rewrite Hb, Hs, drop_app_ge by lia. replace (length earlier + 3 - length earlier) with 3 by lia. simpl.
  unfold replayed. simpl. unfold record_annotated_items. destruct e as [i m]. simpl in *. subst i. simpl.
  unfold drop_last_n_user_turns. simpl. unfold user_message_positions. simpl. by rewrite Hic.
Qed.

End rolled_back.

(** ** Samples *)

#[local] Existing Instances sample_json sample_encoding sample_parsers sample_measures sample_turn.

Definition sample_rollout : @RolloutTypes sample_json sample_turn :=
  {| TokenUsageRecord := unit; SecurityRiskScore := unit; RealtimeItem := unit; SessionMetaFields := unit;
     McpResourceOriginCheckpoint := unit; OtherEvent := unit; ctx_turn_id := fun _ => None; ctx_model := fun _ => lit "model";
     ctx_comp_hash := fun _ => None; ctx_realtime_active := fun _ => None; parse_inter_agent_json := fun _ => None;
     uuid_parse_str := fun _ => None |}.

#[local] Existing Instance sample_rollout.

Definition sample_said (role text : str) : ResponseItemEnvelope := envelope_new (sample_message role text).

Definition sample_compaction (text : str) : CompactedItem :=
  mkCompactedItem text (Some [sample_said (lit "user") text]) None (Some 1%N) None None None None None.

Definition sample_turn_items (text : str) : list RolloutItem :=
  [RTurnContext tt; REventMsg UserMessageEvent; RResponseItem (sample_said (lit "user") text)].

Lemma reconstructed_history_is_replay_witness :
  let items := RCompacted (sample_compaction (lit "summary")) :: REventMsg (TurnStarted (lit "2"))
               :: sample_turn_items (lit "go") ++ [REventMsg (ThreadRolledBack 1)] in
  exists r, reconstruct_history_from_rollout (Bytes 100) items = Some r /\ rr_history r = [sample_said (lit "user") (lit "summary")].
Proof.
  intros items.
  destruct (reconstructed_history_is_replay (Bytes 100) items) as (r & m & saw & Hr & Hm & Hh).
  exists r. split; [exact Hr|]. rewrite Hh by (right; right; intros HH; vm_compute in HH; discriminate HH).
  vm_compute in Hm. by injection Hm as <- <-.
Defined.

Lemma rolled_back_checkpoint_loses_history_witness :
  exists r, reconstruct_history_from_rollout (Bytes 100)
    (sample_turn_items (lit "earlier") ++
     [REventMsg (TurnStarted (lit "2")); REventMsg UserMessageEvent; RCompacted (sample_compaction (lit "summary"));
      RResponseItem (sample_said (lit "assistant") (lit "answer")); REventMsg (TurnComplete (lit "2")); REventMsg (ThreadRolledBack 1)])
    = Some r
  /\ rr_history r = [sample_said (lit "assistant") (lit "answer")].
Proof.
  apply (rolled_back_checkpoint_loses_history (Bytes 100) (sample_turn_items (lit "earlier")) (lit "2")
           (sample_compaction (lit "summary")) [sample_said (lit "user") (lit "summary")]).
  - repeat constructor.
  - reflexivity.
  - exists None, [Content.InputText (lit "answer")], None, None. split; reflexivity.
Defined.
