(* ===== verification/RolloutTurns.v ===== *)
(** * Rollbacks in a reconstructed session

    What core/src/session/rollout_reconstruction.rs restores of a rollout that is
    made of turns and rollback markers, against a reading from the oldest item
    on: a turn is added at its start, a marker removes the last user turns and
    everything after the first of them.  The reverse scan of the source skips
    segments instead, and stops early; [RolloutReplay] has its definitions. *)

From S2P Require Import Prelude RustStr Truncate OutputTruncation ResponseItem ContextFragments.
From S2P Require Import Normalize TranscriptHistory TokenUsage ContextManager EventMapping Compaction Rollout RolloutReplay.
From S2P Require WorldState.

Section turns.
Context {json : SerdeJson} {parsers : FragmentParsers} {enc : ReviewEncoding} {measures : ItemMeasures}.
Context {turn : TurnTypes} {types : RolloutTypes}.
Implicit Types (items body : list RolloutItem) (s : ReplayScan) (g : ActiveReplaySegment).

(** ** Turns and what they leave behind *)

(** What an item inside a turn does to the segment that is scanned. *)
Definition seg_item (i : RolloutItem) g : ActiveReplaySegment :=
  match i with
  | RCompacted c => segment_compacted c g
  | REventMsg (TurnComplete turn_id) => set_turn_id (Some turn_id) g
  | REventMsg (TurnAborted turn_id) => set_turn_id turn_id g
  | REventMsg UserMessageEvent | RInterAgentCommunication _ => set_user_turn true g
  | RTurnContext c => segment_turn_context c g
  | RWorldState _ => push_world_state i g
  | RResponseItem e => set_user_turn (is_user_turn_boundary (item e)) g
  | _ => g
  end.

Definition segment_of body : ActiveReplaySegment := fold_left (fun g i => seg_item i g) (rev body) segment_default.

Inductive block := Turn (turn_id : str) (body : list RolloutItem) | Rollback (n : N).

Definition block_items (b : block) : list RolloutItem :=
  match b with
  | Turn t body => REventMsg (TurnStarted t) :: body
  | Rollback n => [REventMsg (ThreadRolledBack n)]
  end.

(** The items of a turn: no start of another turn, no rollback, and the ids of
    the turn. *)
Definition in_turn (t : option str) (i : RolloutItem) : Prop :=
  match i with
  | REventMsg (TurnStarted _) | REventMsg (ThreadRolledBack _) => False
  | REventMsg (TurnComplete id) => t = Some id \/ t = None
  | REventMsg (TurnAborted (Some id)) => t = Some id \/ t = None
  | RTurnContext c => ctx_turn_id c = None \/ t = None \/ ctx_turn_id c = t
  | _ => True
  end.

Definition block_ok (b : block) : Prop :=
  match b with Turn t body => Forall (in_turn (Some t)) body | Rollback _ => True end.

(** ** The reading from the oldest item on *)

(** Segments from the newest on: skip up to and with the [n]-th user turn. *)
Fixpoint skip_turns (n : nat) (newest_first : list ActiveReplaySegment) : list ActiveReplaySegment :=
  match n, newest_first with
  | 0, _ => newest_first
  | S n', [] => []
  | S n', g :: rest => if counts_as_user_turn g then skip_turns n' rest else skip_turns n rest
  end.

Definition survive (newest_first : list ActiveReplaySegment) (b : block) : list ActiveReplaySegment :=
  match b with
  | Turn _ body => segment_of body :: newest_first
  | Rollback n => skip_turns (N.to_nat n) newest_first
  end.

(** The surviving segments, the newest first; the items before the first turn
    are a segment of their own. *)
Definition survivors (startup : list RolloutItem) (blocks : list block) : list ActiveReplaySegment :=
  fold_left survive blocks [segment_of startup].

Definition surviving_settings (newest_first : list ActiveReplaySegment) : option PreviousTurnSettings :=
  find_map (fun g => if has_context_baseline g then seg_previous_turn_settings g else None) newest_first.

(** The newest baseline, or the compaction that cleared it. *)
Fixpoint surviving_reference (newest_first : list ActiveReplaySegment) : TurnReferenceContextItem :=
  match newest_first with
  | [] => NeverSet
  | g :: rest =>
      if has_context_baseline g || is_cleared (seg_reference_context_item g) then
        match seg_reference_context_item g with NeverSet => surviving_reference rest | r => r end
      else surviving_reference rest
  end.

Definition surviving_base (newest_first : list ActiveReplaySegment) : option (list ResponseItemEnvelope) :=
  find_map seg_base_replacement_history newest_first.

Definition surviving_window (newest_first : list ActiveReplaySegment) : option ReconstructedWindow :=
  find_map seg_window newest_first.

Definition surviving_records (newest_first : list ActiveReplaySegment) : list RolloutItem :=
  mjoin (map seg_world_state_replay newest_first).

(** ** Skipping *)

Lemma skip_turns_nil n : skip_turns n [] = [].
Proof. by destruct n. Qed.

Lemma skip_turns_0 l : skip_turns 0 l = l.
Proof. by destruct l. Qed.

Lemma skip_turns_add n m l : skip_turns (n + m) l = skip_turns n (skip_turns m l).
Proof.
  revert m. induction l as [|g l IH]; intros m; [by rewrite !skip_turns_nil|].
  destruct m as [|m]; [by rewrite Nat.add_0_r, skip_turns_0|]. rewrite Nat.add_succ_r. cbn [skip_turns].
  destruct (counts_as_user_turn g); [apply IH|]. rewrite <- Nat.add_succ_r. apply IH.
Qed.

Lemma skip_turns_all n l : length l <= n -> skip_turns n l = [].
Proof.
  revert n. induction l as [|g l IH]; intros n Hn; [apply skip_turns_nil|]. simpl in Hn.
  destruct n as [|n]; [lia|]. cbn [skip_turns]. destruct (counts_as_user_turn g); apply IH; lia.
Qed.

Lemma skip_turns_length n l : length (skip_turns n l) <= length l.
Proof.
  revert n. induction l as [|g l IH]; intros n; [by rewrite skip_turns_nil|]. destruct n as [|n]; [done|].
  cbn [skip_turns length]. destruct (counts_as_user_turn g); [specialize (IH n)|specialize (IH (S n))]; lia.
Qed.

Lemma skip_saturating p n l : (N.of_nat (length l) <= usize_max)%N ->
  skip_turns (N.to_nat (saturating_add p n)) l = skip_turns (N.to_nat p) (skip_turns (N.to_nat n) l).
Proof.
  intros Hl. rewrite <- skip_turns_add. unfold saturating_add, usize_sat.
  destruct (decide (p + n <= usize_max)%N) as [|Hgt]; [rewrite N.min_l by lia; f_equal; lia|].
  rewrite N.min_r by lia. rewrite !skip_turns_all by lia. done.
Qed.

(** ** Blocks, newest first *)

(** The scanned state without the segment in progress and the suffix. *)
Definition core s : ReplayScan := set_suffix 0 (set_active None s).

Definition block_step s (b : block) : ReplayScan :=
  match b with
  | Turn _ body => finalize_active_segment (segment_of body) s
  | Rollback n => add_pending n s
  end.

(** The fields that the segments fill, whatever is pending. *)
Definition filled s : ReplayScan :=
  mkReplayScan (base_replacement_history s) (previous_turn_settings s) (reference_context_item s)
    (world_state_replay s) (window s) 0 0 None.

Definition absorb (newest_first : list ActiveReplaySegment) s : ReplayScan :=
  fold_left (fun s g => finalize_active_segment g s) newest_first (filled s).

Lemma filled_finalize g s : pending_rollback_turns s = 0%N ->
  filled (finalize_active_segment g s) = finalize_active_segment g (filled s).
Proof. intros Hp. unfold finalize_active_segment. rewrite Hp. done. Qed.

Lemma filled_skipped g s : (0 < pending_rollback_turns s)%N ->
  filled (finalize_active_segment g s) = filled s
  /\ pending_rollback_turns (finalize_active_segment g s)
     = if counts_as_user_turn g then (pending_rollback_turns s - 1)%N else pending_rollback_turns s.
Proof. intros Hp. unfold finalize_active_segment. apply N.ltb_lt in Hp. by rewrite Hp. Qed.

Lemma absorb_filled l s : filled (absorb l s) = absorb l s.
Proof.
  unfold absorb. assert (forall l s, pending_rollback_turns s = 0%N -> suffix_start s = 0 -> active_segment s = None ->
    filled (fold_left (fun s g => finalize_active_segment g s) l s) = fold_left (fun s g => finalize_active_segment g s) l s) as H.
  { clear. induction l as [|g l IH]; intros s H1 H2 H3; [destruct s; simpl in *; by subst|]. simpl.
    apply IH; unfold finalize_active_segment; rewrite H1; done. }
  by apply H.
Qed.

(** ** The scan without its early end *)

Lemma survivors_length startup blocks : length (survivors startup blocks) <= S (length blocks).
Proof.
  unfold survivors. assert (forall bs l, length (fold_left survive bs l) <= length l + length bs) as H.
  { induction bs as [|b bs IH]; intros l; simpl; [lia|]. specialize (IH (survive l b)).
    destruct b; simpl in *; [lia|]. pose proof (skip_turns_length (N.to_nat n) l). lia. }
  specialize (H blocks [segment_of startup]). simpl in H. lia.
Qed.

Definition scan_all (startup : list RolloutItem) (blocks : list block) s : ReplayScan :=
  finalize_active_segment (segment_of startup) (fold_left block_step (rev blocks) s).

Lemma scan_turn_absorb g l s :
  absorb (skip_turns (N.to_nat (pending_rollback_turns (finalize_active_segment g s))) l) (finalize_active_segment g s)
  = absorb (skip_turns (N.to_nat (pending_rollback_turns s)) (g :: l)) s.
Proof.
  destruct (decide (pending_rollback_turns s = 0%N)) as [Hp|Hp].
  - assert (pending_rollback_turns (finalize_active_segment g s) = 0%N) as E.
    { unfold finalize_active_segment. rewrite Hp. done. }
    rewrite E, Hp. change (N.to_nat 0) with 0. rewrite !skip_turns_0. unfold absorb. cbn [fold_left].
    by rewrite filled_finalize.
  - destruct (filled_skipped g s) as [E1 E2]; [lia|]. unfold absorb. rewrite E1, E2.
    destruct (N.to_nat (pending_rollback_turns s)) as [|p] eqn:Ep; [lia|]. cbn [skip_turns].
    destruct (counts_as_user_turn g); [by replace (N.to_nat (pending_rollback_turns s - 1)) with p by lia|by rewrite Ep].
Qed.

Lemma scan_all_spec startup blocks : (N.of_nat (S (length blocks)) <= usize_max)%N -> forall s,
  filled (scan_all startup blocks s)
  = absorb (skip_turns (N.to_nat (pending_rollback_turns s)) (survivors startup blocks)) s.
Proof.
  induction blocks as [|b blocks IH] using rev_ind; intros Hl s; unfold scan_all, survivors.
  - cbn [rev fold_left]. rewrite <- (scan_turn_absorb (segment_of startup) [] s), skip_turns_nil. done.
  - rewrite rev_app_distr. cbn [rev app fold_left]. rewrite fold_left_app. cbn [fold_left]. rewrite length_app in Hl. simpl in Hl.
    change (filled (scan_all startup blocks (block_step s b))
      = absorb (skip_turns (N.to_nat (pending_rollback_turns s)) (survive (survivors startup blocks) b)) s).
    rewrite IH by lia. destruct b as [t body|n]; cbn [block_step survive]; [apply scan_turn_absorb|].
    change (filled (add_pending n s)) with (filled s). unfold absorb. change (filled (add_pending n s)) with (filled s).
    simpl. rewrite skip_saturating; [done|]. pose proof (survivors_length startup blocks). lia.
Qed.

Lemma absorb_fields l s : absorb l s
  = mkReplayScan
      (match base_replacement_history s with Some h => Some h | None => surviving_base l end)
      (match previous_turn_settings s with Some p => Some p | None => surviving_settings l end)
      (match reference_context_item s with NeverSet => surviving_reference l | r => r end)
      (world_state_replay s ++ surviving_records l)
      (match window s with Some w => Some w | None => surviving_window l end) 0 0 None.
Proof.
  unfold absorb. revert s. induction l as [|g l IH]; intros s; simpl.
  - unfold filled, surviving_records. simpl. rewrite app_nil_r.
    destruct s as [[] [] [] ? [] ? ? ?]; done.
  - change (fold_left (fun s g => finalize_active_segment g s) l (finalize_active_segment g (filled s)))
      with (fold_left (fun s g => finalize_active_segment g s) l (filled (finalize_active_segment g (filled s)))).
    rewrite IH. unfold finalize_active_segment, surviving_records, surviving_base, surviving_settings, surviving_window.
    destruct s as [b p r w wi pe su a]. simpl. rewrite <- app_assoc. f_equal.
    + by destruct b, (seg_base_replacement_history g).
    + by destruct p, (has_context_baseline g), (seg_previous_turn_settings g).
    + destruct r; simpl; try done. by destruct (has_context_baseline g), (seg_reference_context_item g).
    + by destruct wi, (seg_window g).
Qed.

End turns.

(** ** The early end *)

Section early.
Context {json : SerdeJson} {parsers : FragmentParsers} {enc : ReviewEncoding} {measures : ItemMeasures}.
Context {turn : TurnTypes} {types : RolloutTypes}.
Implicit Types (items body : list RolloutItem) (s a b : ReplayScan) (g : ActiveReplaySegment).

Fixpoint scan_blocks (newest_first : list block) (startup : list RolloutItem) s : ReplayScan :=
  match newest_first with
  | [] => finalize_active_segment (segment_of startup) s
  | b :: rest => let s := block_step s b in if scan_done s then s else scan_blocks rest startup s
  end.

(** What is known stays. *)
Definition extends a b : Prop :=
  (base_replacement_history a <> None -> base_replacement_history b = base_replacement_history a)
  /\ (previous_turn_settings a <> None -> previous_turn_settings b = previous_turn_settings a)
  /\ (is_never_set (reference_context_item a) = false -> reference_context_item b = reference_context_item a)
  /\ (exists older, world_state_replay b = world_state_replay a ++ older)
  /\ (window a <> None -> window b = window a).

Lemma extends_filled a b : filled a = filled b -> extends a b.
Proof. intros [= H1 H2 H3 H4 H5]. split_and!; try done. exists []. by rewrite app_nil_r. Qed.

Lemma extends_refl a : extends a a.
Proof. by apply extends_filled. Qed.

Lemma extends_trans a b c : extends a b -> extends b c -> extends a c.
Proof.
  intros (A1 & A2 & A3 & (o & A4) & A5) (B1 & B2 & B3 & (o' & B4) & B5). split_and!.
  - intros H. rewrite B1; [by apply A1|by rewrite A1].
  - intros H. rewrite B2; [by apply A2|by rewrite A2].
  - intros H. rewrite B3; [by apply A3|by rewrite A3].
  - exists (o ++ o'). by rewrite B4, A4, app_assoc.
  - intros H. rewrite B5; [by apply A5|by rewrite A5].
Qed.

Lemma finalize_extends g a : extends a (finalize_active_segment g a).
Proof.
  unfold finalize_active_segment. destruct (0 <? _)%N; [by apply extends_filled|]. split_and!; simpl.
  - by destruct (base_replacement_history a).
  - by destruct (previous_turn_settings a).
  - by intros ->.
  - eauto.
  - by destruct (window a).
Qed.

Lemma block_step_extends bl a : extends a (block_step a bl).
Proof. destruct bl; [apply finalize_extends|by apply extends_filled]. Qed.

Lemma scan_all_extends startup blocks a : extends a (scan_all startup blocks a).
Proof.
  unfold scan_all. eapply extends_trans; [|apply finalize_extends]. generalize (rev blocks) as l.
  intros l. revert a. induction l as [|bl l IH]; intros a; [apply extends_refl|]. simpl.
  eapply extends_trans; [apply block_step_extends|apply IH].
Qed.

(** The scan that ends early has what the whole scan has, but for older records
    of the world state and windows. *)
Lemma scan_blocks_early startup blocks a :
  let short := scan_blocks (rev blocks) startup a in
  let whole := scan_all startup blocks a in
  short = whole \/ (scan_done short = true /\ extends short whole).
Proof.
  revert a. induction blocks as [|bl blocks IH] using rev_ind; intros a; [by left|].
  rewrite rev_app_distr. cbn [rev app scan_blocks]. unfold scan_all. rewrite rev_app_distr. cbn [rev app fold_left].
  destruct (scan_done (block_step a bl)) eqn:Ed; [right; split; [done|]; apply scan_all_extends|]. apply IH.
Qed.

(** ** Segments with a checkpoint *)

Definition numbered (i : RolloutItem) : Prop :=
  match i with RCompacted c => ci_replacement_history c <> None -> ci_window_number c <> None | _ => True end.

Definition seg_known (num : Prop) g : Prop :=
  seg_base_replacement_history g <> None ->
  existsb is_compacted (seg_world_state_replay g) = true /\ (num -> seg_window g <> None).

Lemma seg_item_known (num : Prop) i g : (num -> numbered i) -> seg_known num g -> seg_known num (seg_item i g).
Proof.
  intros Hn Hg. destruct i as [m|e|co|b|c|ctx|r|w|r|ev|r]; try done; unfold seg_known; simpl.
  - intros H. rewrite existsb_app. simpl. rewrite orb_true_r. split; [done|]. intros HN. specialize (Hn HN). simpl in Hn.
    destruct (seg_base_replacement_history g) as [h|] eqn:E; simpl in H.
    + destruct Hg as [_ Hw]; [by rewrite E|]. specialize (Hw HN). by destruct (seg_window g).
    + destruct (seg_window g); [done|]. specialize (Hn H). by destruct (ci_window_number c).
  - unfold segment_turn_context. by destruct (turn_ids_are_compatible _ _).
  - intros H. rewrite existsb_app. destruct (Hg H) as [-> Hw]. done.
  - by destruct ev.
Qed.

Lemma segment_of_known (num : Prop) body : (num -> Forall numbered body) -> seg_known num (segment_of body).
Proof.
  intros Hn. unfold segment_of. assert (num -> Forall numbered (rev body)) as Hr by (intros H; by apply Forall_rev, Hn).
  revert Hr. generalize (rev body) as l. assert (seg_known num segment_default) as Hd by done. revert Hd.
  generalize segment_default as g. clear. intros g Hd l. revert g Hd. induction l as [|i l IH]; intros g Hg Hl; [done|].
  simpl. apply IH; [|intros H; by apply Hl, Forall_cons in H as [_ ?]]. apply seg_item_known; [|done].
  intros H. by apply Hl, Forall_cons in H as [? _].
Qed.

Definition scan_known (num : Prop) a : Prop :=
  base_replacement_history a <> None ->
  existsb is_compacted (world_state_replay a) = true /\ (num -> window a <> None).

Lemma finalize_known (num : Prop) g a : seg_known num g -> scan_known num a -> scan_known num (finalize_active_segment g a).
Proof.
  intros Hg Ha. unfold finalize_active_segment. destruct (0 <? _)%N; [done|]. unfold scan_known; simpl. intros H.
  rewrite existsb_app. destruct (base_replacement_history a) as [h|] eqn:E.
  - destruct Ha as [-> Hw]; [by rewrite E|]. split; [done|]. intros HN. specialize (Hw HN). by destruct (window a).
  - destruct (Hg H) as [-> Hw]. rewrite orb_true_r. split; [done|]. intros HN. by destruct (window a); [|apply Hw].
Qed.

Lemma scan_blocks_known (num : Prop) startup (blocks : list block) a :
  (num -> Forall numbered startup) -> (num -> Forall (fun bl => Forall numbered (block_items bl)) blocks) ->
  scan_known num a -> scan_known num (scan_blocks blocks startup a).
Proof.
  intros Hs. revert a. induction blocks as [|b blocks IH]; intros a Hb Ha; simpl.
  { by apply finalize_known; [apply segment_of_known|]. }
  assert (scan_known num (block_step a b)) as H.
  { destruct b as [t body|n]; [|done]. apply finalize_known; [|done]. apply segment_of_known.
    intros H. apply Hb, Forall_cons in H as [H _]. by apply Forall_cons in H as [_ ?]. }
  destruct (scan_done _); [done|]. apply IH; [|done]. intros HN. by apply Hb, Forall_cons in HN as [_ ?].
Qed.

(** ** World-state records before a compaction do not matter *)

Lemma replay_world_states_app l l' w :
  replay_world_states (l ++ l') w = replay_world_states l w ≫= replay_world_states l'.
Proof. revert w. induction l as [|i l IH]; intros w; [done|]. simpl. destruct (replay_world_state w i); [apply IH|done]. Qed.

Lemma replay_after_compaction l w w' : existsb is_compacted l = true -> replay_world_states l w = replay_world_states l w'.
Proof.
  revert w w'. induction l as [|i l IH]; intros w w' H; [done|]. simpl in *.
  destruct i as [| | | |c| | |x| | |]; simpl; try done; simpl in H. by apply IH.
Qed.

Lemma replay_older_irrelevant w older : existsb is_compacted w = true ->
  Forall (fun i => world_state_record i = true) older ->
  replay_world_states (rev (w ++ older)) None = replay_world_states (rev w) None.
Proof.
  intros Hw Ho. rewrite rev_app_distr, replay_world_states_app.
  destruct (replay_world_states_total (rev older) None) as [b ->]; [by apply Forall_rev|]. simpl.
  apply replay_after_compaction. apply existsb_exists in Hw as (i & Hi & Hc). apply existsb_exists.
  exists i. split; [by apply in_rev in Hi|done].
Qed.

End early.

(** ** The scan of a rollout made of blocks *)

Section blocks.
Context {json : SerdeJson} {parsers : FragmentParsers} {enc : ReviewEncoding} {measures : ItemMeasures}.
Context {turn : TurnTypes} {types : RolloutTypes}.
Implicit Types (items body : list RolloutItem) (s : ReplayScan) (g : ActiveReplaySegment).

(** Only the suffix depends on the indices. *)
Definition upto s : ReplayScan := set_suffix 0 s.

Lemma finalize_upto g s : upto (finalize_active_segment g s) = finalize_active_segment g (upto s).
Proof. unfold finalize_active_segment, upto, set_suffix. simpl. by destruct (0 <? _)%N. Qed.

Lemma scan_item_upto k i s : upto (scan_item k i s) = upto (scan_item 0 i (upto s)).
Proof.
  destruct i as [m|e|co|b|c|ctx|r|w|r|ev|r]; try done; cbn [scan_item].
  - change (active_or_default (upto s)) with (active_or_default s).
    by destruct (seg_base_replacement_history _), (ci_replacement_history c).
  - destruct ev as [t|t|t| |t b|n|e]; try done; cbn [scan_item]; change (active_segment (upto s)) with (active_segment s).
    + destruct (active_segment s) as [g|]; [|done]. destruct (turn_ids_are_compatible _ _); [|done].
      by rewrite !finalize_upto.
    + destruct (active_segment s); [done|]. by destruct t.
Qed.

Definition unlabelled items : list (nat * RolloutItem) := map (pair 0) items.

Lemma scan_loop_upto l l' s s' : map snd l = map snd l' -> upto s = upto s' -> upto (scan_loop l s) = upto (scan_loop l' s').
Proof.
  revert l' s s'. induction l as [|[k i] l IH]; intros [|[k' i'] l'] s s' Hl Hs; try done. simpl in *.
  injection Hl as -> Hl. assert (upto (scan_item k i' s) = upto (scan_item k' i' s')) as E.
  { by rewrite (scan_item_upto k), (scan_item_upto k'), Hs. }
  assert (scan_done (scan_item k i' s) = scan_done (scan_item k' i' s')) as ->.
  { change (scan_done (upto (scan_item k i' s)) = scan_done (upto (scan_item k' i' s'))). by rewrite E. }
  destruct (scan_done _); [done|]. by apply IH.
Qed.

Lemma finish_core s : core (finish_scan s) = core (finish_scan (upto s)).
Proof.
  unfold finish_scan. change (active_segment (upto s)) with (active_segment s). destruct (active_segment s); [|done].
  unfold core, finalize_active_segment, set_active, set_suffix. simpl. by destruct (0 <? _)%N.
Qed.

Lemma reverse_scan_core items :
  core (reverse_scan items) = core (finish_scan (scan_loop (unlabelled (rev items)) replay_scan_init)).
Proof.
  unfold reverse_scan. rewrite finish_core, (finish_core (scan_loop (unlabelled _) _)). do 2 f_equal.
  apply scan_loop_upto; [|done]. unfold unlabelled, enumerate. rewrite map_map, map_id, map_rev. f_equal.
  generalize 0. induction items as [|i items IH]; intros n; simpl; [done|]. by rewrite IH.
Qed.

(** *** Inside a turn *)

Lemma scan_in_turn t i s : in_turn t i ->
  core (scan_item 0 i s) = core s /\ active_or_default (scan_item 0 i s) = seg_item i (active_or_default s).
Proof.
  intros Hi. destruct i as [m|e|co|b|c|ctx|r|w|r|ev|r]; try done; cbn [scan_item seg_item].
  - by destruct (seg_base_replacement_history _), (ci_replacement_history c).
  - destruct ev as [x|x|x| |x b|n|e]; try done; cbn [scan_item seg_item]. unfold active_or_default.
    destruct (active_segment s) as [g|] eqn:E; [done|]. destruct x; [done|]. by rewrite E.
Qed.

Lemma core_done s : scan_done (core s) = scan_done s.
Proof. done. Qed.

Lemma scan_body t l s rest : Forall (in_turn t) l -> scan_done s = false ->
  exists s', scan_loop (unlabelled (l ++ rest)) s = scan_loop (unlabelled rest) s' /\ core s' = core s
  /\ active_or_default s' = fold_left (fun g i => seg_item i g) l (active_or_default s).
Proof.
  revert s. induction l as [|i l IH]; intros s Hl Hd; [by exists s|]. apply Forall_cons in Hl as [Hi Hl].
  destruct (scan_in_turn t i s Hi) as [Hc Ha]. simpl.
  assert (scan_done (scan_item 0 i s) = false) as Hd' by (by rewrite <- core_done, Hc). rewrite Hd'.
  destruct (IH (scan_item 0 i s) Hl Hd') as (s' & H1 & H2 & H3). exists s'. rewrite H3, Ha, H2. by split_and!.
Qed.

Lemma seg_item_id t i g : in_turn (Some t) i -> seg_turn_id g = None \/ seg_turn_id g = Some t ->
  seg_turn_id (seg_item i g) = None \/ seg_turn_id (seg_item i g) = Some t.
Proof.
  intros Hi Hg. destruct i as [m|e|co|b|c|ctx|r|w|r|ev|r]; try done; simpl.
  - unfold segment_turn_context. simpl in Hi.
    assert (seg_turn_id (set_turn_id (ctx_turn_id ctx) g) = None \/ seg_turn_id (set_turn_id (ctx_turn_id ctx) g) = Some t) as H.
    { simpl. destruct Hg as [->| ->]; [|by right]. destruct Hi as [->|[Hi| ->]]; [by left|done|by right]. }
    by destruct (turn_ids_are_compatible _ _).
  - destruct ev as [x|x|x| |x b|n|e]; try done; simpl in *; destruct Hg as [->| ->]; try (by right); try (by left).
    + right. destruct Hi as [[= ->]|]; done.
    + destruct x as [x|]; [|by left]. right. destruct Hi as [[= ->]|]; done.
Qed.

Lemma segment_id t body : Forall (in_turn (Some t)) body ->
  turn_ids_are_compatible (seg_turn_id (segment_of body)) (Some t) = true.
Proof.
  intros H. assert (seg_turn_id (segment_of body) = None \/ seg_turn_id (segment_of body) = Some t) as Hid.
  { unfold segment_of. apply Forall_rev in H. revert H. generalize (rev body) as l.
    assert (seg_turn_id segment_default = None \/ seg_turn_id segment_default = Some t) as Hd by (by left). revert Hd.
    generalize segment_default as g. intros g Hg l. revert g Hg.
    induction l as [|i l IH]; intros g Hg Hl; [done|]. apply Forall_cons in Hl as [Hi Hl]. simpl. apply IH; [|done].
    by apply seg_item_id. }
  destruct Hid as [-> | ->]; [done|]. simpl. apply str_eqb_refl.
Qed.

Lemma finalize_default s : finalize_active_segment segment_default s = s.
Proof.
  unfold finalize_active_segment. destruct s as [[] [] [] w [] p n a]; simpl; rewrite ?app_nil_r; by destruct (0 <? p)%N.
Qed.

Lemma finalize_core g s : core (finalize_active_segment g (set_active None s)) = finalize_active_segment g (core s).
Proof. unfold finalize_active_segment, core, set_active, set_suffix. simpl. by destruct (0 <? _)%N. Qed.

Lemma finish_active s : core (finish_scan s) = finalize_active_segment (active_or_default s) (core s).
Proof.
  unfold finish_scan, active_or_default. destruct (active_segment s) as [g|]; [apply finalize_core|].
  simpl. by rewrite finalize_default.
Qed.

Lemma scan_turn_started t s : turn_ids_are_compatible (seg_turn_id (active_or_default s)) (Some t) = true ->
  core (scan_item 0 (REventMsg (TurnStarted t)) s) = finalize_active_segment (active_or_default s) (core s)
  /\ active_segment (scan_item 0 (REventMsg (TurnStarted t)) s) = None.
Proof.
  unfold active_or_default. cbn [scan_item]. destruct (active_segment s) as [g|] eqn:E; simpl; intros H.
  - rewrite H. split; [apply finalize_core|]. unfold finalize_active_segment. simpl. by destruct (0 <? _)%N.
  - by rewrite finalize_default.
Qed.

Lemma core_inactive s : active_segment s = None -> core s = upto s.
Proof. intros H. unfold core, upto, set_active, set_suffix. simpl. by rewrite H. Qed.

(** *** Block by block *)

Lemma scan_blocks_concrete startup blocks s : Forall (in_turn None) startup -> Forall block_ok blocks ->
  active_segment s = None -> scan_done s = false ->
  core (finish_scan (scan_loop (unlabelled (mjoin (map (fun b => rev (block_items b)) blocks) ++ rev startup)) s))
  = scan_blocks blocks startup (core s).
Proof.
  intros Hs. revert s. induction blocks as [|b blocks IH]; intros s Hb Ha Hd; simpl.
  - destruct (scan_body None (rev startup) s []) as (s' & H1 & H2 & H3); [by apply Forall_rev|done|].
    rewrite app_nil_r in H1. simpl in H1. rewrite H1, finish_active, H2, H3. unfold active_or_default. by rewrite Ha.
  - apply Forall_cons in Hb as [Hb Hbs]. rewrite <- app_assoc. destruct b as [t body|n]; simpl.
    + simpl in Hb. destruct (scan_body (Some t) (rev body) s ([REventMsg (TurnStarted t)]
        ++ mjoin (map (fun b => rev (block_items b)) blocks) ++ rev startup)) as (s' & H1 & H2 & H3); [by apply Forall_rev|done|].
      rewrite <- app_assoc, H1. assert (active_or_default s' = segment_of body) as Hg.
      { rewrite H3. unfold active_or_default. by rewrite Ha. }
      destruct (scan_turn_started t s') as [E1 E2]; [rewrite Hg; by apply segment_id|].
      set (s2 := scan_item 0 (REventMsg (TurnStarted t)) s') in *. rewrite Hg, H2 in E1.
      cbn [unlabelled map app scan_loop]. fold s2.
      change (scan_done s2) with (scan_done (core s2)). rewrite E1.
      destruct (scan_done (finalize_active_segment (segment_of body) (core s))) eqn:Ed.
      * unfold finish_scan. by rewrite E2.
      * fold (unlabelled (mjoin (map (fun b => rev (block_items b)) blocks) ++ rev startup)).
        rewrite IH; [by rewrite E1|done|done|]. by rewrite <- core_done, E1.
    + change (scan_done (add_pending n s)) with (scan_done s). rewrite Hd.
      change (scan_done (add_pending n (core s))) with (scan_done s). rewrite Hd.
      fold (unlabelled (mjoin (map (fun b => rev (block_items b)) blocks) ++ rev startup)).
      by rewrite IH.
Qed.

Definition rollout_of (startup : list RolloutItem) (blocks : list block) : list RolloutItem :=
  startup ++ mjoin (map block_items blocks).

Lemma rev_rollout startup blocks :
  rev (rollout_of startup blocks) = mjoin (map (fun b => rev (block_items b)) (rev blocks)) ++ rev startup.
Proof.
  unfold rollout_of. rewrite rev_app_distr. f_equal. induction blocks as [|b blocks IH]; [done|]. simpl.
  rewrite rev_app_distr, IH, map_app, join_app. simpl. by rewrite app_nil_r.
Qed.

Lemma reverse_scan_blocks startup blocks : Forall (in_turn None) startup -> Forall block_ok blocks ->
  core (reverse_scan (rollout_of startup blocks)) = scan_blocks (rev blocks) startup replay_scan_init.
Proof.
  intros Hs Hb. rewrite reverse_scan_core, rev_rollout. rewrite scan_blocks_concrete; [done|done|by apply Forall_rev|done|done].
Qed.

End blocks.

(** ** What survives *)

Section survivors.
Context {json : SerdeJson} {parsers : FragmentParsers} {enc : ReviewEncoding} {measures : ItemMeasures}.
Context {turn : TurnTypes} {types : RolloutTypes}.
Implicit Types (items : list RolloutItem) (s : ReplayScan).

Lemma scan_whole startup blocks : (N.of_nat (S (length blocks)) <= usize_max)%N ->
  let whole := scan_all startup blocks replay_scan_init in let L := survivors startup blocks in
  base_replacement_history whole = surviving_base L /\ previous_turn_settings whole = surviving_settings L
  /\ reference_context_item whole = surviving_reference L /\ world_state_replay whole = surviving_records L
  /\ window whole = surviving_window L.
Proof.
  intros Hl whole L. pose proof (scan_all_spec startup blocks Hl replay_scan_init) as H. fold whole L in H.
  change (N.to_nat (pending_rollback_turns replay_scan_init)) with 0 in H. rewrite skip_turns_0, absorb_fields in H.
  unfold filled in H. simpl in H. injection H as H1 H2 H3 H4 H5. by split_and!.
Qed.

Lemma survivors_records startup blocks : Forall (fun i => world_state_record i = true) (surviving_records (survivors startup blocks)).
Proof.
  assert (forall body, Forall (fun i => world_state_record i = true) (seg_world_state_replay (segment_of body))) as Hseg.
  { intros body. unfold segment_of. generalize (rev body) as l.
    assert (Forall (fun i => world_state_record i = true) (seg_world_state_replay segment_default)) as Hd by constructor.
    revert Hd. generalize segment_default as g. intros g Hg l. revert g Hg.
    induction l as [|i l IH]; intros g Hg; [done|]. simpl. apply IH.
    destruct i as [m|e|co|b|c|ctx|r|w|r|ev|r]; try done; simpl.
    - apply Forall_app. split; [done|]. by repeat constructor.
    - unfold segment_turn_context. by destruct (turn_ids_are_compatible _ _).
    - apply Forall_app. split; [done|]. by repeat constructor.
    - by destruct ev. }
  assert (Forall (fun g => Forall (fun i => world_state_record i = true) (seg_world_state_replay g)) (survivors startup blocks)) as H.
  { unfold survivors. assert (forall bs l, Forall (fun g => Forall (fun i => world_state_record i = true) (seg_world_state_replay g)) l ->
      Forall (fun g => Forall (fun i => world_state_record i = true) (seg_world_state_replay g)) (fold_left survive bs l)) as Hf.
    { induction bs as [|b bs IH]; intros l Hl; [done|]. simpl. apply IH. destruct b; simpl; [by constructor|].
      clear -Hl. revert Hl. generalize (N.to_nat n) as k. induction l as [|g l IHl]; intros k Hl; [by rewrite skip_turns_nil|].
      destruct k; [done|]. cbn [skip_turns]. apply Forall_cons in Hl as [_ Hl]. by destruct (counts_as_user_turn g); apply IHl. }
    apply Hf. by repeat constructor. }
  unfold surviving_records. induction (survivors startup blocks) as [|g l IH]; [constructor|].
  apply Forall_cons in H as [Hg H]. simpl. apply Forall_app. split; [done|by apply IH].
Qed.

Lemma reverse_scan_survivors startup blocks :
  Forall (in_turn None) startup -> Forall block_ok blocks -> (N.of_nat (S (length blocks)) <= usize_max)%N ->
  let items := rollout_of startup blocks in let s := reverse_scan items in let L := survivors startup blocks in
  base_replacement_history s = surviving_base L /\ previous_turn_settings s = surviving_settings L
  /\ reference_context_item s = surviving_reference L
  /\ replay_world_states (rev (world_state_replay s)) None = replay_world_states (rev (surviving_records L)) None
  /\ (Forall numbered items -> window s = surviving_window L).
Proof.
  intros Hs Hb Hl items s L. pose proof (reverse_scan_blocks startup blocks Hs Hb) as Hr. fold items s in Hr.
  destruct (scan_whole startup blocks Hl) as (W1 & W2 & W3 & W4 & W5). fold L in W1, W2, W3, W4, W5.
  assert (scan_known (Forall numbered items) (scan_blocks (rev blocks) startup replay_scan_init)) as Hk.
  { apply scan_blocks_known; [| |done].
    - unfold items, rollout_of. by intros [? _]%Forall_app.
    - intros [_ H]%Forall_app. apply Forall_rev. clear -H. induction blocks as [|b bs IH]; [constructor|].
      simpl in H. apply Forall_app in H as [H1 H2]. constructor; [done|by apply IH]. }
  pose proof (scan_blocks_early startup blocks replay_scan_init) as He. simpl in He.
  rewrite <- Hr in *. change (scan_done (core s)) with (scan_done s) in He.
  destruct He as [He|[Hd (X1 & X2 & X3 & (older & X4) & X5)]].
  - rewrite <- He in *. simpl in *. rewrite W4. by split_and!.
  - simpl in *. unfold scan_done in Hd. rewrite W1 in X1. rewrite W2 in X2. rewrite W3 in X3. rewrite W5 in X5. rewrite W4 in X4.
    unfold scan_known in Hk. simpl in Hk.
    destruct (base_replacement_history s) as [h|] eqn:E1; [|done]. destruct (previous_turn_settings s) as [p|] eqn:E2; [|done].
    apply negb_true_iff in Hd. destruct (Hk ltac:(done)) as [Hc Hw].
    split_and!; [by rewrite X1|by rewrite X2|by rewrite X3| |].
    + rewrite X4. symmetry. apply replay_older_irrelevant; [done|]. pose proof (survivors_records startup blocks) as Hrec.
      fold L in Hrec. rewrite X4 in Hrec. by apply Forall_app in Hrec as [_ ?].
    + intros HN. by rewrite X5; [|apply Hw].
Qed.

Lemma reconstruct_survivors policy startup blocks :
  Forall (in_turn None) startup -> Forall block_ok blocks -> (N.of_nat (S (length blocks)) <= usize_max)%N ->
  let items := rollout_of startup blocks in let L := survivors startup blocks in
  exists r, reconstruct_history_from_rollout policy items = Some r
  /\ rr_previous_turn_settings r = surviving_settings L
  /\ (existsb is_legacy items = false -> rr_reference_context_item r = reference_of (surviving_reference L) false)
  /\ replay_world_states (rev (surviving_records L)) None = Some (rr_world_state_baseline r)
  /\ (Forall numbered items -> forall w, surviving_window L = Some w -> rr_window r = w)
  /\ (surviving_base L <> None ->
      exists m saw_legacy, replay policy items (manager_new, false) = Some (m, saw_legacy) /\ rr_history r = cm_items m).
Proof.
  intros Hs Hb Hl items L. destruct (reverse_scan_survivors startup blocks Hs Hb Hl) as (H1 & H2 & H3 & H4 & H5).
  fold items L in H1, H2, H3, H4, H5. destruct (reconstruct_parts policy items) as (baseline & Hw & Hr).
  eexists. split; [exact Hr|]. simpl. split_and!.
  - done.
  - intros Hleg. rewrite H3. f_equal. rewrite <- (take_drop (suffix_start (reverse_scan items)) items), existsb_app in Hleg.
    by apply orb_false_iff in Hleg as [_ ?].
  - by rewrite <- H4.
  - intros HN w HW. unfold window_of. by rewrite (H5 HN), HW.
  - intros Hbase. destruct (replay_spec policy items manager_new false eq_refl) as (m & Hm & _ & Hi).
    exists m. eexists. split; [exact Hm|]. rewrite Hi. destruct (reverse_scan_inv items) as [Hinv _].
    apply scan_history; [done|]. intros E. by rewrite <- H1 in Hbase.
Qed.

(** C17: on a rollout of turns and rollback markers the session gets what a
    reading from the oldest item on leaves: a marker removes the last user turns
    and all that follows the first of them.  The settings, the reference context
    and the world state are those of the newest surviving turns that set them,
    although the scan goes backward and stops early; so is the context window,
    when checkpoints carry window numbers; and when a checkpoint survives, the
    history is that of a full replay. *)
Theorem rollbacks_restore_survivors policy startup blocks :
  Forall (in_turn None) startup -> Forall block_ok blocks -> (N.of_nat (S (length blocks)) <= usize_max)%N ->
  let items := rollout_of startup blocks in let L := survivors startup blocks in
  exists r, reconstruct_history_from_rollout policy items = Some r
  /\ rr_previous_turn_settings r = surviving_settings L
  /\ (existsb is_legacy items = false -> rr_reference_context_item r = reference_of (surviving_reference L) false)
  /\ replay_world_states (rev (surviving_records L)) None = Some (rr_world_state_baseline r)
  /\ (Forall numbered items -> forall w, surviving_window L = Some w -> rr_window r = w)
  /\ (surviving_base L <> None ->
      exists m saw_legacy, replay policy items (manager_new, false) = Some (m, saw_legacy) /\ rr_history r = cm_items m).
Proof. apply reconstruct_survivors. Qed.

End survivors.

(** ** Sample *)

#[local] Existing Instances sample_json sample_encoding sample_parsers sample_measures sample_turn sample_rollout.

Definition sample_blocks : list block :=
  [Turn (lit "1") (sample_turn_items (lit "first")); Turn (lit "2") (sample_turn_items (lit "second")); Rollback 1].

Lemma rollbacks_restore_survivors_witness :
  exists r, reconstruct_history_from_rollout (Bytes 100)
              (rollout_of [RCompacted (sample_compaction (lit "summary"))] sample_blocks) = Some r
  /\ rr_history r = [sample_said (lit "user") (lit "summary"); sample_said (lit "user") (lit "first")]
  /\ rr_previous_turn_settings r = Some (mkPreviousTurnSettings (lit "model") None None).
Proof.
  destruct (rollbacks_restore_survivors (Bytes 100) [RCompacted (sample_compaction (lit "summary"))] sample_blocks)
    as (r & Hr & Hs & _ & _ & _ & Hh).
  - repeat constructor.
  - repeat constructor.
  - vm_compute. discriminate.
  - exists r. split; [exact Hr|]. destruct Hh as (m & saw & Hm & Hi); [vm_compute; discriminate|].
    rewrite Hi, Hs. vm_compute in Hm. injection Hm as <- <-. split; reflexivity.
Defined.
