(* ===== verification/BoundedScan.v ===== *)
(** * The bounded scan loads enough

    rollout/src/model_context.rs reads a rollout from its end and stops when it
    has a checkpoint and a turn with a context; [Rollout] has its definitions.
    Here: a session reconstructed from what the scan collected is the session
    reconstructed from the whole rollout. *)

From S2P Require Import Prelude RustStr Truncate OutputTruncation ResponseItem ContextFragments.
From S2P Require Import Normalize TranscriptHistory TokenUsage ContextManager EventMapping Compaction.
From S2P Require Import Rollout RolloutReplay RolloutTurns.
From S2P Require WorldState.

#[local] Arguments turn_ids_are_compatible : simpl never.

Section bounded.
Context {json : SerdeJson} {parsers : FragmentParsers} {enc : ReviewEncoding} {measures : ItemMeasures}.
Context {turn : TurnTypes} {types : RolloutTypes}.
Implicit Types (items body l : list RolloutItem) (s : ModelContextScan).

(** ** Rollouts of current sessions *)

(** Every compaction has its replacement history and its window number. *)
Definition modern (i : RolloutItem) : Prop :=
  match i with RCompacted c => ci_replacement_history c <> None /\ ci_window_number c <> None | _ => True end.

Definition announces_user_message (i : RolloutItem) : bool :=
  match i with REventMsg (ItemCompleted _ b) => b | _ => false end.

Definition replay_user_turn (i : RolloutItem) : bool :=
  match i with
  | RResponseItem e => is_user_turn_boundary (item e)
  | RInterAgentCommunication _ | REventMsg UserMessageEvent => true
  | _ => false
  end.

(** A turn that announces a user message also records one. *)
Definition announced body : Prop := existsb announces_user_message body = true -> existsb replay_user_turn body = true.

Definition block_announced (b : block) : Prop := match b with Turn _ body => announced body | Rollback _ => True end.

(** ** The segment of the scan *)

Definition tseg_item (i : RolloutItem) (g : ActiveTurnSegment) : ActiveTurnSegment :=
  scan_segment (observe_item (mkScan [] false false false g) i).

Definition tseg_of body : ActiveTurnSegment := fold_left (fun g i => tseg_item i g) (rev body) turn_segment_default.

Definition scan_user_turn (i : RolloutItem) : bool := replay_user_turn i || announces_user_message i.

(** *** User turns *)

Lemma counted_counts e : response_item_counts_as_user_turn e = true -> is_user_turn_boundary (item e) = true.
Proof.
  unfold response_item_counts_as_user_turn, is_user_turn_boundary. destruct (item e); try done.
  intros H. rewrite H. by rewrite orb_true_r.
Qed.

Lemma tseg_user_turn l g : has_user_turn (fold_left (fun g i => tseg_item i g) l g) = true ->
  has_user_turn g = true \/ existsb scan_user_turn l = true.
Proof.
  revert g. induction l as [|i l IH]; intros g H; [by left|]. simpl in *. apply IH in H as [H|H]; [|right; by rewrite H, orb_true_r].
  assert (has_user_turn g = true \/ scan_user_turn i = true) as [Hg|Hi]; [|by left|right; by rewrite Hi].
  revert H. unfold tseg_item. destruct i as [m|e|co|b|c|ctx|r|w|r|ev|r]; simpl; try (by left); try (by right).
  - intros [H|H]%orb_true_iff; [by left|]. right. unfold scan_user_turn. simpl. by rewrite counted_counts.
  - destruct (ci_replacement_history c), (ci_window_number c); simpl; by left.
  - destruct (turn_ids_are_compatible _ _); simpl; by left.
  - destruct ev as [x|x|x| |x b|n|e]; simpl; try (by left); try (by right).
    + destruct (turn_ids_are_compatible _ _); simpl; [done|by left].
    + destruct (turn_ids_are_compatible _ _); simpl; [|by left].
      intros [H|H]%orb_true_iff; [by left|]. right. unfold scan_user_turn. simpl. by rewrite H.
Qed.

Lemma seg_user_turn l g : existsb replay_user_turn l = true \/ counts_as_user_turn g = true ->
  counts_as_user_turn (fold_left (fun g i => seg_item i g) l g) = true.
Proof.
  revert g. induction l as [|i l IH]; intros g H; simpl in *; [by destruct H|]. apply IH.
  destruct H as [[H|H]%orb_true_iff|H]; [|by left|].
  - right. destruct i as [m|e|co|b|c|ctx|r|w|r|ev|r]; try done; simpl in *; [by rewrite H, orb_true_r|by rewrite orb_true_r|].
    destruct ev; try done. simpl. by rewrite orb_true_r.
  - right. destruct i as [m|e|co|b|c|ctx|r|w|r|ev|r]; try done; simpl in *; [by rewrite H|by rewrite H| |].
    + unfold segment_turn_context. by destruct (turn_ids_are_compatible _ _).
    + destruct ev; try done; simpl; by rewrite ?H.
Qed.

Lemma existsb_rev (f : RolloutItem -> bool) l : existsb f (rev l) = existsb f l.
Proof. induction l as [|x l IH]; [done|]. simpl. rewrite existsb_app, IH. simpl. rewrite orb_false_r. apply orb_comm. Qed.

Lemma user_turn_counts body : announced body -> has_user_turn (tseg_of body) = true -> counts_as_user_turn (segment_of body) = true.
Proof.
  intros Ha H. apply tseg_user_turn in H as [H|H]; [done|]. rewrite existsb_rev in H. apply seg_user_turn. left.
  rewrite existsb_rev. unfold scan_user_turn in H. rewrite existsb_exists in H. destruct H as (i & Hi & [H|H]%orb_true_iff).
  - apply existsb_exists. by exists i.
  - apply Ha. apply existsb_exists. by exists i.
Qed.

(** *** Turn contexts *)

Lemma ctx_compatible t ctx g : in_turn (Some t) (RTurnContext ctx) -> seg_turn_id g = None \/ seg_turn_id g = Some t ->
  turn_ids_are_compatible (seg_turn_id (set_turn_id (ctx_turn_id ctx) g)) (ctx_turn_id ctx) = true.
Proof.
  simpl. unfold turn_ids_are_compatible.
  intros Hc [-> | ->]; [destruct (ctx_turn_id ctx); [apply str_eqb_refl|done]|].
  destruct Hc as [->|[?| ->]]; try done. apply str_eqb_refl.
Qed.

Definition has_context g : Prop := seg_previous_turn_settings g <> None /\ is_never_set (seg_reference_context_item g) = false.

Lemma seg_item_context i g : has_context g -> has_context (seg_item i g).
Proof.
  intros [H1 H2]. destruct i as [m|e|co|b|c|ctx|r|w|r|ev|r]; try done; simpl.
  - split; [done|]. simpl. by rewrite H2.
  - unfold segment_turn_context. destruct (turn_ids_are_compatible _ _); [|done]. split; [done|]. simpl. by rewrite H2.
  - by destruct ev.
Qed.

Lemma seg_fold_context l g : has_context g -> has_context (fold_left (fun g i => seg_item i g) l g).
Proof. revert g. induction l as [|i l IH]; intros g H; [done|]. simpl. by apply IH, seg_item_context. Qed.

Lemma tseg_context t l : Forall (in_turn (Some t)) l -> forall tg g,
  (has_turn_context tg = true -> has_context g) -> seg_turn_id g = None \/ seg_turn_id g = Some t ->
  has_turn_context (fold_left (fun g i => tseg_item i g) l tg) = true -> has_context (fold_left (fun g i => seg_item i g) l g).
Proof.
  induction l as [|i l IH]; intros Hl tg g Hg Hid H; [by apply Hg|]. simpl in *. apply Forall_cons in Hl as [Hi Hl].
  eapply (IH Hl); [| |exact H]; [|by apply seg_item_id].
  intros Ht. destruct (has_turn_context tg) eqn:E; [by apply seg_item_context, Hg|]. revert Ht. unfold tseg_item.
  destruct i as [m|e|co|b|c|ctx|r|w|r|ev|r]; simpl; try congruence.
  - destruct (ci_replacement_history c), (ci_window_number c); simpl; congruence.
  - intros _. unfold segment_turn_context. rewrite (ctx_compatible t) by done. split; [done|]. simpl.
    by destruct (seg_reference_context_item g).
  - destruct ev as [x|x|x| |x b|n|e]; simpl; try congruence; try done.
    destruct (turn_ids_are_compatible _ _); simpl; congruence.
Qed.

(** *** Full snapshots *)

Lemma full_snapshot_snoc l i : full_snapshot_since_compaction (l ++ [i])
  = full_snapshot_since_compaction l || (negb (existsb is_compacted l) && (negb (is_compacted i) && is_full_world_state i)).
Proof.
  induction l as [|x l IH]; simpl; [destruct (is_compacted i); [done|]; by destruct (is_full_world_state i)|].
  destruct (is_compacted x); simpl; [done|]. rewrite IH. by rewrite orb_assoc.
Qed.

(** The scan's view of the records agrees with the segment's. *)
Definition records_agree (tg : ActiveTurnSegment) g : Prop :=
  ts_saw_compaction tg = existsb is_compacted (seg_world_state_replay g)
  /\ has_full_world_state tg = full_snapshot_since_compaction (seg_world_state_replay g).

Lemma tseg_records i tg g : modern i -> (forall t, i <> REventMsg (TurnStarted t)) ->
  records_agree tg g -> records_agree (tseg_item i tg) (seg_item i g).
Proof.
  intros Hm Hs [H1 H2]. unfold records_agree, tseg_item. destruct i as [m|e|co|b|c|ctx|r|w|r|ev|r]; simpl; try done.
  - simpl in Hm. destruct (ci_replacement_history c), (ci_window_number c), Hm; try done. simpl.
    rewrite existsb_app, full_snapshot_snoc, H2. simpl. by rewrite orb_true_r, andb_false_r, orb_false_r.
  - unfold segment_turn_context. destruct (turn_ids_are_compatible _ _), (turn_ids_are_compatible _ _); done.
  - rewrite existsb_app, full_snapshot_snoc, H1, H2. simpl. rewrite orb_false_r. split; [done|].
    by rewrite andb_comm.
  - destruct ev as [x|x|x| |x b|n|e]; simpl; try done; [by destruct (Hs x)|].
    by destruct (turn_ids_are_compatible _ _).
Qed.

Lemma tseg_records_fold t l tg g : Forall (in_turn t) l -> Forall modern l -> records_agree tg g ->
  records_agree (fold_left (fun g i => tseg_item i g) l tg) (fold_left (fun g i => seg_item i g) l g).
Proof.
  revert tg g. induction l as [|i l IH]; intros tg g Ht Hm H; [done|]. simpl.
  apply Forall_cons in Ht as [Hi Ht], Hm as [Hmi Hm]. apply IH; [done..|]. apply tseg_records; [done| |done].
  by intros x ->.
Qed.

Definition completes (tg : ActiveTurnSegment) : bool := has_turn_context tg && (has_user_turn tg || has_full_world_state tg).

(** A turn that lets the scan stop supplies the metadata for resuming. *)
Lemma completes_context t body : Forall (in_turn (Some t)) body -> Forall modern body -> announced body ->
  completes (tseg_of body) = true -> has_context_baseline (segment_of body) = true /\ has_context (segment_of body).
Proof.
  intros Ht Hm Ha [Hc Hu]%andb_true_iff. split.
  - unfold has_context_baseline. apply orb_true_iff in Hu as [Hu|Hu]; [by rewrite user_turn_counts|].
    destruct (tseg_records_fold (Some t) (rev body) turn_segment_default segment_default) as [_ E];
      [by apply Forall_rev|by apply Forall_rev|done|].
    unfold tseg_of in Hu. rewrite E in Hu. unfold segment_of. by rewrite Hu, orb_true_r.
  - eapply (tseg_context t); [by apply Forall_rev| | |exact Hc]; [done|by left].
Qed.

(** ** Where the scan stops *)

Lemma scan_items_to_start l s : must_scan_to_start s = true ->
  has_bounded_cutoff (scan_items l s) = false /\ items_newest_first (scan_items l s) = items_newest_first s ++ l.
Proof.
  revert s. induction l as [|i l IH]; intros s Hm; simpl; [unfold has_bounded_cutoff; by rewrite Hm, app_nil_r|].
  unfold scan_push, observe. rewrite Hm. simpl.
  destruct (IH (mkScan (items_newest_first s ++ [i]) (saw_compaction s) (saw_completed_turn_context s) (must_scan_to_start s)
    (scan_segment s)) Hm) as [H1 H2]. rewrite H1, H2. simpl. by rewrite <- app_assoc.
Qed.

(** Scanning goes on: nothing forces a full read and the cutoff is not reached. *)
Definition going s : Prop := must_scan_to_start s = false /\ has_bounded_cutoff s = false.

Lemma scan_items_step i l s s' : going s -> must_scan_to_start s' = false ->
  fst (scan_push s i) = s' -> scan_items (i :: l) s = if has_bounded_cutoff s' then s' else scan_items l s'.
Proof.
  intros [Hm _] Hm' Hs. simpl. unfold scan_push, observe in *. rewrite Hm in *. simpl in *.
  set (o := observe_item s i) in *. assert (has_bounded_cutoff s' = has_bounded_cutoff o) as -> by (by rewrite <- Hs).
  rewrite Hs. by destruct (has_bounded_cutoff o).
Qed.

Lemma push_in_turn t i s : going s -> in_turn t i -> modern i ->
  fst (scan_push s i) = mkScan (items_newest_first s ++ [i]) (saw_compaction s || is_compacted i)
    (saw_completed_turn_context s) false (tseg_item i (scan_segment s)).
Proof.
  intros [Hm _] Hi Hmod. unfold scan_push, observe. rewrite Hm. unfold tseg_item.
  destruct i as [m|e|co|b|c|ctx|r|w|r|ev|r]; simpl in *; rewrite ?Hm, ?orb_false_r; try done.
  - destruct (ci_replacement_history c), (ci_window_number c), Hmod; try done. simpl. by rewrite ?Hm, orb_true_r.
  - destruct ev; try done; simpl; by rewrite ?Hm, ?orb_false_r.
Qed.

Lemma scan_body_bounded t l rest s : going s -> Forall (in_turn t) l -> Forall modern l ->
  (exists l1 l2, l = l1 ++ l2 /\ has_bounded_cutoff (scan_items (l ++ rest) s) = true
     /\ items_newest_first (scan_items (l ++ rest) s) = items_newest_first s ++ l1
     /\ saw_completed_turn_context s = true
     /\ (saw_compaction s = true \/ existsb is_compacted l1 = true))
  \/ (exists s', scan_items (l ++ rest) s = scan_items rest s' /\ going s'
     /\ items_newest_first s' = items_newest_first s ++ l
     /\ saw_completed_turn_context s' = saw_completed_turn_context s
     /\ saw_compaction s' = saw_compaction s || existsb is_compacted l
     /\ scan_segment s' = fold_left (fun g i => tseg_item i g) l (scan_segment s)).
Proof.
  revert s. induction l as [|i l IH]; intros s Hg Ht Hm.
  { right. exists s. rewrite app_nil_r, orb_false_r. by split_and!. }
  apply Forall_cons in Ht as [Hi Ht], Hm as [Hmi Hm]. pose proof (push_in_turn t i s Hg Hi Hmi) as Hp.
  set (s1 := mkScan _ _ _ _ _) in Hp. change ((i :: l) ++ rest) with (i :: (l ++ rest)).
  rewrite (scan_items_step i (l ++ rest) s s1 Hg eq_refl Hp). destruct (has_bounded_cutoff s1) eqn:Ec.
  - left. exists [i], l. split_and!; try done; unfold has_bounded_cutoff in Ec; simpl in Ec;
      apply andb_true_iff in Ec as [Ec1 Ec2]; [done|]. simpl. rewrite orb_false_r. by apply orb_true_iff in Ec1.
  - destruct (IH s1) as [(l1 & l2 & H1 & H2 & H3 & H4 & H5)|(s' & H1 & H2 & H3 & H4 & H5 & H6)]; [done|done|done| |].
    + left. exists (i :: l1), l2. simpl in *. split_and!; [by rewrite H1|done|by rewrite H3, <- app_assoc|done|].
      destruct H5 as [H5|H5]; [|right; by rewrite H5, orb_true_r]. apply orb_true_iff in H5 as [H5|H5]; [by left|].
      right. by rewrite H5.
    + right. exists s'. simpl in *. rewrite H1, H3, H4, H5, H6, <- app_assoc, orb_assoc. by split_and!.
Qed.

(** *** Turn ids *)

Definition completed_in (t : str) (i : RolloutItem) : Prop :=
  match i with REventMsg (ItemCompleted id _) => id = t | _ => True end.

Lemma tseg_item_id t i g : in_turn (Some t) i -> completed_in t i -> modern i ->
  ts_turn_id g = None \/ ts_turn_id g = Some t ->
  ts_turn_id (tseg_item i g) = None \/ ts_turn_id (tseg_item i g) = Some t.
Proof.
  intros Hi Hc Hm Hg. unfold tseg_item. destruct i as [m|e|co|b|c|ctx|r|w|r|ev|r]; try done; simpl in *.
  - by destruct (ci_replacement_history c), (ci_window_number c).
  - assert (ts_turn_id (note_turn_id (ctx_turn_id ctx) g) = None \/ ts_turn_id (note_turn_id (ctx_turn_id ctx) g) = Some t) as H.
    { simpl. destruct Hg as [->| ->]; [|by right]. destruct Hi as [->|[Hi| ->]]; [by left|done|by right]. }
    by destruct (turn_ids_are_compatible _ _).
  - destruct ev as [x|x|x| |x b|n|e]; try done; simpl in *.
    + right. destruct Hg as [->| ->], Hi as [[= ->]|]; done.
    + destruct Hg as [->| ->]; [|by right]. destruct x as [x|]; [|by left]. right. by destruct Hi as [[= ->]|].
    + subst x. right. destruct (turn_ids_are_compatible _ _); simpl; by destruct Hg as [->| ->].
Qed.

Lemma tseg_id t body : Forall (in_turn (Some t)) body -> Forall (completed_in t) body -> Forall modern body ->
  turn_ids_are_compatible (ts_turn_id (tseg_of body)) (Some t) = true.
Proof.
  intros H1 H2 H3. assert (ts_turn_id (tseg_of body) = None \/ ts_turn_id (tseg_of body) = Some t) as Hid.
  { unfold tseg_of. apply Forall_rev in H1, H2, H3. revert H1 H2 H3. generalize (rev body) as l.
    assert (ts_turn_id turn_segment_default = None \/ ts_turn_id turn_segment_default = Some t) as Hd by (by left). revert Hd.
    generalize turn_segment_default as g. intros g Hg l. revert g Hg.
    induction l as [|i l IH]; intros g Hg A B C; [done|]. apply Forall_cons in A as [Ai A], B as [Bi B], C as [Ci C].
    simpl. apply IH; [|done..]. by apply tseg_item_id. }
  unfold turn_ids_are_compatible. destruct Hid as [-> | ->]; [done|]. apply str_eqb_refl.
Qed.

(** ** Block by block *)

Definition flat (blocks : list block) : list RolloutItem := mjoin (map block_items blocks).

Lemma flat_app bs bs' : flat (bs ++ bs') = flat bs ++ flat bs'.
Proof. unfold flat. by rewrite map_app, join_app. Qed.

Definition turn_body (b : block) : list RolloutItem := match b with Turn _ body => body | Rollback _ => [] end.
Definition is_turn (b : block) : Prop := match b with Turn _ _ => True | Rollback _ => False end.
Definition turn_completes (b : block) : Prop := completes (tseg_of (turn_body b)) = true.

Definition current_block (b : block) : Prop :=
  block_ok b /\ Forall modern (block_items b) /\ block_announced b
  /\ match b with Turn t body => Forall (completed_in t) body | Rollback _ => True end.

Definition newer_segments (newer : list block) : list ActiveReplaySegment := rev (map (fun b => segment_of (turn_body b)) newer).

Lemma survivors_newer startup blocks newer : Forall is_turn newer ->
  survivors startup (blocks ++ newer) = newer_segments newer ++ survivors startup blocks.
Proof.
  unfold survivors. rewrite fold_left_app. generalize (fold_left survive blocks [segment_of startup]) as l.
  induction newer as [|b newer IH]; intros l H; [done|]. apply Forall_cons in H as [Hb H]. destruct b; [|done].
  simpl. rewrite IH by done. unfold newer_segments. simpl. by rewrite <- app_assoc.
Qed.

(** What the scan knows after the turns [newer]. *)
Definition scanned (newer : list block) s : Prop :=
  going s /\ scan_segment s = turn_segment_default /\ items_newest_first s = rev (flat newer)
  /\ Forall is_turn newer /\ Forall current_block newer
  /\ (saw_completed_turn_context s = true -> Exists turn_completes newer)
  /\ (saw_compaction s = true -> existsb is_compacted (flat newer) = true).

(** The part of a rollout that is enough: [cut] and the turns after it. *)
Definition enough startup blocks (cut : list RolloutItem) (newer : list block) : Prop :=
  exists older segments, startup ++ flat blocks = older ++ cut ++ flat newer
  /\ survivors startup blocks = newer_segments newer ++ segments
  /\ Forall is_turn newer /\ Forall current_block newer /\ Forall (in_turn None) cut /\ Forall modern cut
  /\ Exists turn_completes newer
  /\ (existsb is_compacted (flat newer) = true
      \/ existsb is_compacted cut = true /\ exists b1 rest, segments = segment_of (b1 ++ cut) :: rest).

Lemma in_turn_startup t i : in_turn t i -> in_turn None i.
Proof.
  destruct i; try done; simpl; [by right; left|]. destruct e; try done; simpl; [by right|]. destruct turn_id; [by right|done].
Qed.

(** A cut inside the segment of [body], which [older] precedes. *)
Lemma enough_cut startup blocks older body rest newer l1 l2 s :
  startup ++ flat blocks = older ++ body ++ flat newer -> survivors startup blocks = newer_segments newer ++ segment_of body :: rest ->
  scanned newer s -> Forall (in_turn None) body -> Forall modern body -> rev body = l1 ++ l2 ->
  saw_completed_turn_context s = true -> saw_compaction s = true \/ existsb is_compacted l1 = true ->
  items_newest_first s ++ l1 = rev (rev l1 ++ flat newer) /\ enough startup blocks (rev l1) newer.
Proof.
  intros Hi Hs (_ & _ & Hit & Hnt & Hnc & Hcomp & Hcp) Ht Hm H1 H4 H5.
  assert (body = rev l2 ++ rev l1) as -> by (by rewrite <- rev_app_distr, <- H1, rev_involutive).
  apply Forall_app in Ht as [_ Ht], Hm as [_ Hm]. split; [by rewrite Hit, rev_app_distr, rev_involutive|].
  exists (older ++ rev l2), (segment_of (rev l2 ++ rev l1) :: rest).
  split_and!; [by rewrite Hi, <- !app_assoc|done..|by apply Hcomp|].
  destruct H5 as [H5|H5]; [left; by apply Hcp|]. right. rewrite existsb_rev. split; [done|]. by exists (rev l2), rest.
Qed.

Lemma scanned_turn t body newer s s' : scanned newer s -> current_block (Turn t body) -> going s' ->
  items_newest_first s' = items_newest_first s ++ rev body ->
  saw_completed_turn_context s' = saw_completed_turn_context s ->
  saw_compaction s' = saw_compaction s || existsb is_compacted (rev body) ->
  scan_segment s' = fold_left (fun g i => tseg_item i g) (rev body) (scan_segment s) ->
  exists s2, (forall rest, scan_items (REventMsg (TurnStarted t) :: rest) s' = if has_bounded_cutoff s2 then s2 else scan_items rest s2)
  /\ must_scan_to_start s2 = false /\ scan_segment s2 = turn_segment_default
  /\ items_newest_first s2 = rev (flat (Turn t body :: newer))
  /\ (saw_completed_turn_context s2 = true -> Exists turn_completes (Turn t body :: newer))
  /\ (saw_compaction s2 = true -> existsb is_compacted (flat (Turn t body :: newer)) = true).
Proof.
  intros (_ & Hseg & Hit & _ & _ & Hcomp & Hcp) (Hok & Hmod & _ & Hids) H2 H3 H4 H5 H6. simpl in Hok, Hmod.
  apply Forall_cons in Hmod as [_ Hmod]. rewrite Hseg in H6. change (fold_left _ (rev body) turn_segment_default) with (tseg_of body) in H6.
  exists (mkScan (items_newest_first s' ++ [REventMsg (TurnStarted t)]) (saw_compaction s')
            (saw_completed_turn_context s' || completes (tseg_of body)) false turn_segment_default).
  change (flat (Turn t body :: newer)) with ((REventMsg (TurnStarted t) :: body) ++ flat newer). split_and!; try done.
  - intros rest. apply scan_items_step; [done|done|]. unfold scan_push, observe. destruct H2 as [Hm _]. rewrite Hm. simpl.
    rewrite H6, (tseg_id t) by done. simpl. unfold finalize_turn_segment. by rewrite H6, Hm.
  - cbn [items_newest_first]. rewrite H3, Hit, rev_app_distr. by rewrite <- app_assoc.
  - simpl. intros [H|H]%orb_true_iff; [right; apply Hcomp; by rewrite <- H4|by left].
  - simpl. rewrite H5, existsb_app, existsb_rev. intros [H|H]%orb_true_iff; [by rewrite Hcp, orb_true_r|by rewrite H].
Qed.

Lemma scan_rollback n l s : going s -> let final := scan_items (REventMsg (ThreadRolledBack n) :: l) s in
  has_bounded_cutoff final = false /\ items_newest_first final = items_newest_first s ++ REventMsg (ThreadRolledBack n) :: l.
Proof.
  intros [Hm _] final.
  assert (final = scan_items l (mkScan (items_newest_first s ++ [REventMsg (ThreadRolledBack n)]) (saw_compaction s)
    (saw_completed_turn_context s) true (scan_segment s))) as ->.
  { unfold final. simpl. unfold scan_push, observe. by rewrite Hm. }
  destruct (scan_items_to_start l (mkScan (items_newest_first s ++ [REventMsg (ThreadRolledBack n)]) (saw_compaction s)
    (saw_completed_turn_context s) true (scan_segment s))) as [-> ->]; [done|]. simpl. by rewrite <- app_assoc.
Qed.

(** How a scan ends: with everything read, or with enough. *)
Definition outcome startup blocks (final : ModelContextScan) : Prop :=
  (has_bounded_cutoff final = false /\ items_newest_first final = rev (startup ++ flat blocks))
  \/ (has_bounded_cutoff final = true /\ exists cut newer, items_newest_first final = rev (cut ++ flat newer)
      /\ enough startup blocks cut newer).

Lemma flat_turn blocks t body newer : flat (blocks ++ Turn t body :: newer)
  = (flat blocks ++ [REventMsg (TurnStarted t)]) ++ body ++ flat newer.
Proof. rewrite flat_app, <- app_assoc. done. Qed.

Lemma survivors_turn startup blocks t body newer : Forall is_turn newer ->
  survivors startup (blocks ++ Turn t body :: newer) = newer_segments newer ++ segment_of body :: survivors startup blocks.
Proof.
  intros H. replace (blocks ++ Turn t body :: newer) with ((blocks ++ [Turn t body]) ++ newer) by (by rewrite <- app_assoc).
  rewrite survivors_newer by done. f_equal. unfold survivors. by rewrite fold_left_app.
Qed.

Lemma scan_bounded startup blocks : Forall (in_turn None) startup -> Forall modern startup -> Forall current_block blocks ->
  forall newer s, scanned newer s -> outcome startup (blocks ++ newer) (scan_items (rev (startup ++ flat blocks)) s).
Proof.
  intros Hs1 Hs2. induction blocks as [|b blocks IH] using rev_ind; intros Hbs newer s Hsc; pose proof Hsc as (Hg & _ & Hit & Hnt & Hnc & _).
  - simpl. rewrite app_nil_r.
    destruct (scan_body_bounded None (rev startup) [] s) as [(l1 & l2 & H1 & H2 & H3 & H4 & H5)|(s' & H1 & H2 & H3 & _)];
      [done|by apply Forall_rev|by apply Forall_rev| |]; rewrite app_nil_r in *.
    + right. split; [done|]. exists (rev l1), newer. rewrite H3.
      apply (enough_cut startup newer [] startup [] newer l1 l2 s); try done. by apply (survivors_newer startup [] newer).
    + left. rewrite H1. split; [apply H2|]. simpl. by rewrite H3, Hit, <- rev_app_distr.
  - apply Forall_app in Hbs as [Hbs Hb]. apply Forall_cons in Hb as [Hb _]. rewrite flat_app, app_assoc, rev_app_distr, <- !app_assoc.
    change (flat [b]) with (block_items b ++ []). rewrite app_nil_r. cbn [app]. destruct b as [t body|n]; cbn [block_items rev].
    + pose proof Hb as (Hok & Hmod & _ & _). simpl in Hok, Hmod. apply Forall_cons in Hmod as [_ Hmod]. rewrite <- app_assoc.
      destruct (scan_body_bounded (Some t) (rev body) ([REventMsg (TurnStarted t)] ++ rev (startup ++ flat blocks)) s)
        as [(l1 & l2 & H1 & H2 & H3 & H4 & H5)|(s' & H1 & H2 & H3 & H4 & H5 & H6)]; [done|by apply Forall_rev|by apply Forall_rev| |].
      * right. split; [done|]. exists (rev l1), newer. rewrite H3.
        apply (enough_cut _ _ (startup ++ flat blocks ++ [REventMsg (TurnStarted t)]) body (survivors startup blocks) newer l1 l2 s);
          try done; [by rewrite flat_turn, <- !app_assoc|by apply survivors_turn|].
        eapply Forall_impl; [exact Hok|]. apply in_turn_startup.
      * destruct (scanned_turn t body newer s s') as (s2 & E & Hm2 & Hs & Hi2 & Hc2 & Hp2); [done..|]. rewrite H1.
        cbn [app]. rewrite E. assert (Forall is_turn (Turn t body :: newer)) as Hnt2 by (by constructor).
        assert (Forall current_block (Turn t body :: newer)) as Hnc2 by (by constructor).
        destruct (has_bounded_cutoff s2) eqn:Ec; [|by apply IH; [|split_and!]].
        right. split; [done|]. exists [], (Turn t body :: newer). split; [done|]. exists (startup ++ flat blocks), (survivors startup blocks).
        unfold has_bounded_cutoff in Ec. apply andb_true_iff in Ec as [[_ Ec1]%andb_true_iff Ec2].
        split_and!; [by rewrite flat_app, app_assoc|by apply survivors_newer|done|done|constructor|constructor|by apply Hc2|left; by apply Hp2].
    + left. cbn [app]. destruct (scan_rollback n (rev (startup ++ flat blocks)) s Hg) as [-> ->]. split; [done|]. rewrite Hit, flat_app.
      change (flat (Rollback n :: newer)) with ([REventMsg (ThreadRolledBack n)] ++ flat newer).
      rewrite !rev_app_distr. simpl. by rewrite <- !app_assoc.
Qed.

(** ** What is left out does not matter *)

(** A segment with a checkpoint, as current sessions write them. *)
Definition checkpointed (g : ActiveReplaySegment) : Prop :=
  seg_base_replacement_history g <> None /\ seg_window g <> None /\ existsb is_compacted (seg_world_state_replay g) = true.

(** Reading older items of the turn leaves what is known. *)
Definition grows (g g' : ActiveReplaySegment) : Prop :=
  (seg_base_replacement_history g <> None -> seg_base_replacement_history g' = seg_base_replacement_history g)
  /\ (seg_window g <> None -> seg_window g' = seg_window g)
  /\ exists older, seg_world_state_replay g' = seg_world_state_replay g ++ older.

Lemma grows_same g g' : seg_base_replacement_history g' = seg_base_replacement_history g -> seg_window g' = seg_window g ->
  seg_world_state_replay g' = seg_world_state_replay g -> grows g g'.
Proof. intros H1 H2 H3. split_and!; try done. exists []. by rewrite app_nil_r. Qed.

Lemma segment_grows_trans g g' g'' : grows g g' -> grows g' g'' -> grows g g''.
Proof.
  intros (A1 & A2 & o & A3) (B1 & B2 & o' & B3). split_and!.
  - intros H. rewrite B1; [by apply A1|by rewrite A1].
  - intros H. rewrite B2; [by apply A2|by rewrite A2].
  - exists (o ++ o'). by rewrite B3, A3, app_assoc.
Qed.

Lemma seg_item_grows i g : grows g (seg_item i g).
Proof.
  destruct i as [m|e|co|b|c|ctx|r|w|r|ev|r]; try (by apply grows_same); simpl.
  - split_and!; simpl; [by destruct (seg_base_replacement_history g)|by destruct (seg_window g)|by exists [RCompacted c]].
  - unfold segment_turn_context. destruct (turn_ids_are_compatible _ _); by apply grows_same.
  - split_and!; simpl; try done. by exists [RWorldState w].
  - destruct ev; by apply grows_same.
Qed.

Lemma seg_fold_grows l g : grows g (fold_left (fun g i => seg_item i g) l g).
Proof. revert g. induction l as [|i l IH]; intros g; [by apply grows_same|]. eapply segment_grows_trans; [apply seg_item_grows|apply IH]. Qed.

Lemma grows_checkpointed g g' : grows g g' -> checkpointed g -> checkpointed g'.
Proof. intros (A1 & A2 & o & A3) (B1 & B2 & B3). split_and!; [by rewrite A1|by rewrite A2|by rewrite A3, existsb_app, B3]. Qed.

Lemma compacted_checkpointed c g : modern (RCompacted c) -> checkpointed (segment_compacted c g).
Proof.
  intros [H1 H2]. split_and!; simpl; [by destruct (seg_base_replacement_history g)| |by rewrite existsb_app, orb_true_r].
  by destruct (seg_window g), (ci_window_number c).
Qed.

Lemma segment_checkpointed body : Forall modern body -> existsb is_compacted body = true -> checkpointed (segment_of body).
Proof.
  intros Hm He. unfold segment_of. apply Forall_rev in Hm. rewrite <- existsb_rev in He. revert Hm He. generalize segment_default as g.
  induction (rev body) as [|i l IH]; intros g Hm He; [done|]. apply Forall_cons in Hm as [Hi Hm]. simpl in *.
  apply orb_true_iff in He as [He|He]; [|by apply IH]. destruct i; try done.
  eapply grows_checkpointed; [apply seg_fold_grows|]. by apply compacted_checkpointed.
Qed.

Lemma segment_of_app older body : grows (segment_of body) (segment_of (older ++ body)).
Proof. unfold segment_of. rewrite rev_app_distr, fold_left_app. apply seg_fold_grows. Qed.

Lemma segment_of_meta m body : segment_of (RSessionMeta m :: body) = segment_of body.
Proof. unfold segment_of. simpl. by rewrite fold_left_app. Qed.

Lemma surviving_reference_app gs gs' : Exists (fun g => has_context_baseline g = true /\ has_context g) gs ->
  surviving_reference (gs ++ gs') = surviving_reference gs.
Proof.
  induction 1 as [g gs (H1 & _ & H2)|g gs _ IH]; simpl; [rewrite H1; by destruct (seg_reference_context_item g)|].
  rewrite IH. done.
Qed.

Lemma surviving_records_app gs gs' : surviving_records (gs ++ gs') = surviving_records gs ++ surviving_records gs'.
Proof. unfold surviving_records. by rewrite map_app, join_app. Qed.

Lemma records_compacted gs : Exists checkpointed gs -> existsb is_compacted (surviving_records gs) = true.
Proof.
  unfold surviving_records.
  induction 1 as [g gs (_ & _ & H)|g gs _ IH]; simpl; rewrite existsb_app; [by rewrite H|by rewrite IH, orb_true_r].
Qed.

(** Two lists of segments from which a session gets the same. *)
Definition same_session (gs gs' : list ActiveReplaySegment) : Prop :=
  surviving_settings gs = surviving_settings gs' /\ surviving_reference gs = surviving_reference gs'
  /\ replay_world_states (rev (surviving_records gs)) None = replay_world_states (rev (surviving_records gs')) None
  /\ surviving_window gs = surviving_window gs'.

#[global] Instance same_session_equivalence : Equivalence same_session.
Proof.
  split; [by intros gs|by intros gs gs' (A & B & C & D)|].
  intros gs gs' gs'' (A & B & C & D) (A' & B' & C' & D'). split_and!; etrans; eassumption.
Qed.

Definition records_only (gs : list ActiveReplaySegment) : Prop := Forall (fun i => world_state_record i = true) (surviving_records gs).

Lemma prefix_same_session gs older : Exists (fun g => has_context_baseline g = true /\ has_context g) gs -> Exists checkpointed gs ->
  records_only (gs ++ older) -> same_session (gs ++ older) gs.
Proof.
  intros Hx Hc Hr. split_and!.
  - apply find_map_app_l, find_map_exists. eapply Exists_impl; [exact Hx|]. intros g (-> & H & _). done.
  - by apply surviving_reference_app.
  - unfold records_only in Hr. rewrite surviving_records_app in *. apply Forall_app in Hr as [_ Hr].
    apply replay_older_irrelevant; [by apply records_compacted|done].
  - apply find_map_app_l, find_map_exists. eapply Exists_impl; [exact Hc|]. by intros g (_ & H & _).
Qed.

Lemma grown_same_session gs g g' : Exists (fun g => has_context_baseline g = true /\ has_context g) gs ->
  grows g g' -> checkpointed g -> records_only (gs ++ [g']) -> same_session (gs ++ [g']) (gs ++ [g]).
Proof.
  intros Hx (_ & Hw & older & Ho) (_ & Hw' & Hc) Hr.
  assert (forall f : ActiveReplaySegment -> option PreviousTurnSettings, Exists (fun g => f g <> None) gs ->
    find_map f (gs ++ [g']) = find_map f (gs ++ [g])) as Hf.
  { intros f Hf. by rewrite !find_map_app_l by (by apply find_map_exists). }
  split_and!.
  - apply Hf. eapply Exists_impl; [exact Hx|]. intros x (-> & H & _). done.
  - by rewrite !surviving_reference_app.
  - unfold records_only in Hr. rewrite !surviving_records_app in *. unfold surviving_records at 2 4. unfold surviving_records at 2 in Hr.
    simpl in *. rewrite !app_nil_r, Ho, app_assoc in *. apply Forall_app in Hr as [_ Hr].
    apply replay_older_irrelevant; [|done]. by rewrite existsb_app, Hc, orb_true_r.
  - unfold surviving_window. clear Hx Hr Hf. induction gs as [|x gs IH]; simpl; [by rewrite Hw|by rewrite IH].
Qed.

Lemma newer_exists (P : ActiveReplaySegment -> Prop) newer b :
  b ∈ newer -> P (segment_of (turn_body b)) -> Exists P (newer_segments newer).
Proof.
  intros Hb Hp. apply Exists_exists. exists (segment_of (turn_body b)). split; [|done]. unfold newer_segments.
  rewrite list_elem_of_In, <- in_rev, in_map_iff. exists b. by rewrite <- list_elem_of_In.
Qed.

Lemma newer_context newer : Forall is_turn newer -> Forall current_block newer -> Exists turn_completes newer ->
  Exists (fun g => has_context_baseline g = true /\ has_context g) (newer_segments newer).
Proof.
  intros Ht Hc (b & Hb & Hx)%Exists_exists. rewrite Forall_forall in Ht, Hc. apply (newer_exists _ _ b Hb).
  specialize (Ht b Hb). destruct b as [t body|]; [|done]. destruct (Hc _ Hb) as (H1 & H2 & H3 & _).
  apply Forall_cons in H2 as [_ H2]. by apply (completes_context t).
Qed.

Lemma newer_checkpointed newer : Forall is_turn newer -> Forall current_block newer -> existsb is_compacted (flat newer) = true ->
  Exists checkpointed (newer_segments newer).
Proof.
  intros Ht Hc Hx. assert (exists b, b ∈ newer /\ existsb is_compacted (block_items b) = true) as (b & Hb & Hi).
  { clear -Hx. induction newer as [|b newer IH]; [done|]. unfold flat in Hx. simpl in Hx. rewrite existsb_app in Hx.
    apply orb_true_iff in Hx as [Hx|Hx]; [exists b; by split; [left|]|]. destruct (IH Hx) as (b' & ? & ?). exists b'. by split; [right|]. }
  rewrite Forall_forall in Ht, Hc. apply (newer_exists _ _ b Hb). specialize (Ht b Hb). destruct b as [t body|]; [|done].
  destruct (Hc _ Hb) as (_ & H2 & _). apply Forall_cons in H2 as [_ H2]. by apply segment_checkpointed.
Qed.

Lemma checkpointed_base gs : Exists checkpointed gs -> surviving_base gs <> None.
Proof. intros H. apply find_map_exists. eapply Exists_impl; [exact H|]. by intros g [? _]. Qed.

Lemma checkpointed_window gs : Exists checkpointed gs -> exists w, surviving_window gs = Some w.
Proof.
  intros H. assert (surviving_window gs <> None) as Hw; [|destruct (surviving_window gs); [by eexists|done]].
  apply find_map_exists. eapply Exists_impl; [exact H|]. by intros g (_ & ? & _).
Qed.

(** What [enough] keeps gives the same session. *)
Lemma enough_same_session startup blocks cut newer : enough startup blocks cut newer ->
  let L := survivors startup blocks in let L' := newer_segments newer ++ [segment_of cut] in
  same_session L L' /\ Exists checkpointed L /\ Exists checkpointed L' /\ records_only L'.
Proof.
  intros (older & segments & _ & Hs & Ht & Hb & Hi & Hm & Hx & Hc) L L'. pose proof (newer_context _ Ht Hb Hx) as Hctx.
  assert (records_only L) as Hr by apply survivors_records. unfold L in *. rewrite Hs in *.
  assert (records_only L') as Hr'.
  { pose proof (survivors_records cut newer) as H. by rewrite (survivors_newer cut [] newer Ht : survivors cut newer = _) in H. }
  destruct Hc as [Hc|(Hc & b1 & rest & ->)].
  - pose proof (newer_checkpointed _ Ht Hb Hc) as Hn. split_and!; [|apply Exists_app; by left..|done].
    etrans; [by apply prefix_same_session|]. symmetry. by apply prefix_same_session.
  - pose proof (segment_checkpointed _ Hm Hc) as Hck. pose proof (segment_of_app b1 cut) as Hg.
    pose proof (grows_checkpointed _ _ Hg Hck) as Hck'.
    rewrite (app_assoc _ [segment_of (b1 ++ cut)] rest : _ ++ segment_of (b1 ++ cut) :: rest = _) in *.
    assert (Exists checkpointed (newer_segments newer ++ [segment_of (b1 ++ cut)])) as He by (apply Exists_app; right; by constructor).
    assert (records_only (newer_segments newer ++ [segment_of (b1 ++ cut)])) as Hr1.
    { unfold records_only in Hr |- *. rewrite surviving_records_app in Hr. by apply Forall_app in Hr as [? _]. }
    split_and!; [|apply Exists_app; by left| |done].
    { etrans; [apply prefix_same_session; [apply Exists_app; by left|done..]|]. by apply grown_same_session. }
    apply Exists_app. right. by constructor.
Qed.

(** A replay forgets what precedes a checkpoint. *)
Lemma replayed_compacted policy l start start' : Forall modern l -> existsb is_compacted l = true ->
  replayed policy l start = replayed policy l start'.
Proof.
  revert start start'. induction l as [|i l IH]; intros start start' Hm Hc; [done|]. apply Forall_cons in Hm as [Hi Hm].
  change (i :: l) with ([i] ++ l). rewrite !replayed_app. simpl in Hc. apply orb_true_iff in Hc as [Hc|Hc]; [|by apply IH].
  destruct i; try done. destruct Hi as [Hi _]. destruct (ci_replacement_history c) as [h|] eqn:E; [|done].
  by rewrite !(replayed_checkpoint policy c h []).
Qed.

Lemma modern_numbered l : Forall modern l -> Forall numbered l.
Proof. intros H. eapply Forall_impl; [exact H|]. intros [| | | |c| | | | | |]; simpl; tauto. Qed.

Lemma modern_not_legacy l : Forall modern l -> existsb is_legacy l = false.
Proof.
  induction 1 as [|i l Hi _ IH]; [done|]. simpl. rewrite IH, orb_false_r. destruct i; try done. simpl in *.
  by destruct (ci_replacement_history c), Hi.
Qed.

Lemma modern_flat blocks : Forall current_block blocks -> Forall modern (flat blocks).
Proof. induction 1 as [|b blocks (_ & Hb & _) _ IH]; [constructor|]. unfold flat. simpl. by apply Forall_app. Qed.

Lemma current_blocks_ok blocks : Forall current_block blocks -> Forall block_ok blocks.
Proof. intros H. eapply Forall_impl; [exact H|]. by intros b [? _]. Qed.

Lemma enough_bounds startup blocks cut newer : enough startup blocks cut newer -> length newer <= S (length blocks).
Proof.
  intros (older & segments & _ & Hs & _). pose proof (survivors_length startup blocks) as H. rewrite Hs, length_app in H.
  unfold newer_segments in H. rewrite length_rev, length_map in H. lia.
Qed.

(** Reconstruction from a rollout of a current session, in terms of its survivors. *)
Lemma reconstruct_modern policy startup blocks : Forall (in_turn None) startup -> Forall modern startup -> Forall current_block blocks ->
  (N.of_nat (S (length blocks)) <= usize_max)%N -> forall baseline w,
  let L := survivors startup blocks in
  replay_world_states (rev (surviving_records L)) None = Some baseline -> surviving_window L = Some w -> Exists checkpointed L ->
  reconstruct_history_from_rollout policy (rollout_of startup blocks)
  = Some (mkReconstruction (replayed policy (rollout_of startup blocks) []) (surviving_settings L)
            (reference_of (surviving_reference L) false) baseline w).
Proof.
  intros Hs Hm Hb Hl baseline w L Hbase Hw Hh.
  assert (Forall modern (rollout_of startup blocks)) as Hmod by (apply Forall_app; split; [done|by apply modern_flat]).
  destruct (reconstruct_survivors policy startup blocks Hs (current_blocks_ok _ Hb) Hl) as (r & -> & H1 & H2 & H3 & H4 & H5).
  specialize (H2 (modern_not_legacy _ Hmod)). specialize (H4 (modern_numbered _ Hmod) w Hw). destruct (H5 (checkpointed_base _ Hh)) as (m & saw & Hm1 & Hi).
  fold L in H1, H2, H3. rewrite Hbase in H3. destruct r; simpl in *. simplify_eq.
  destruct (replay_spec policy (rollout_of startup blocks) manager_new false eq_refl) as (m' & Hm' & _ & Hi').
  rewrite Hm1 in Hm'. simplify_eq. by rewrite Hi'.
Qed.

(** C18: when every compaction of a rollout has its replacement history and
    window number, the items of a turn carry its id, and a turn that announces a
    user message records one, the session reconstructed from what the bounded
    scan collected is the session reconstructed from the whole rollout: the
    history, the settings and context of the last turn, the world state and the
    context window, in the presence of rollbacks too. *)
Theorem bounded_scan_restores policy startup blocks session_meta :
  Forall (in_turn None) startup -> Forall modern startup -> Forall current_block blocks ->
  (N.of_nat (S (S (length blocks))) <= usize_max)%N ->
  reconstruct_history_from_rollout policy (bounded_items (rollout_of startup blocks) session_meta)
  = reconstruct_history_from_rollout policy (rollout_of startup blocks).
Proof.
  intros Hs Hm Hb Hl. unfold bounded_items, scan_finish.
  change (rollout_of startup blocks) with (startup ++ flat blocks).
  destruct (scan_bounded startup blocks Hs Hm Hb [] scan_default) as [[-> ->]|(-> & cut & newer & -> & He)];
    [by split_and!; try done; constructor|by rewrite rev_involutive, app_nil_r|]. rewrite app_nil_r in He. rewrite rev_involutive.
  destruct (enough_same_session _ _ _ _ He) as ((A1 & A2 & A3 & A4) & B & B' & Hr).
  pose proof (enough_bounds _ _ _ _ He) as Hlen. destruct He as (older & segments & Hi & _ & Ht & Hbl & Hin & Hmc & _ & Hc).
  set (L' := newer_segments newer ++ [segment_of cut]) in *.
  assert (survivors (RSessionMeta session_meta :: cut) newer = L') as HL.
  { rewrite (survivors_newer _ [] newer Ht : survivors _ newer = _). unfold survivors. simpl. by rewrite segment_of_meta. }
  destruct (replay_world_states_total (rev (surviving_records L')) None) as [baseline Hbase]; [by apply Forall_rev|].
  destruct (checkpointed_window _ B') as [w Hw].
  change (startup ++ flat blocks) with (rollout_of startup blocks).
  rewrite (reconstruct_modern policy startup blocks Hs Hm Hb ltac:(lia) baseline w) by (done || congruence).
  change (RSessionMeta session_meta :: cut ++ flat newer) with (rollout_of (RSessionMeta session_meta :: cut) newer).
  rewrite (reconstruct_modern policy (RSessionMeta session_meta :: cut) newer
    ltac:(by constructor) ltac:(by constructor) Hbl ltac:(lia) baseline w) by (by rewrite HL).
  rewrite HL, A1, A2. do 2 f_equal. change (rollout_of startup blocks) with (startup ++ flat blocks). rewrite Hi.
  change (rollout_of (RSessionMeta session_meta :: cut) newer) with ([RSessionMeta session_meta] ++ cut ++ flat newer).
  rewrite !replayed_app, <- !(replayed_app policy cut). apply replayed_compacted.
  - apply Forall_app. split; [done|by apply modern_flat].
  - rewrite existsb_app. by destruct Hc as [->|[-> _]]; rewrite ?orb_true_r.
Qed.

End bounded.

(** ** Sample *)

#[local] Existing Instances sample_json sample_encoding sample_parsers sample_measures sample_turn sample_rollout.

Definition sample_session : list block :=
  [Turn (lit "1") (sample_turn_items (lit "first")); Turn (lit "2") (sample_turn_items (lit "second"));
   Turn (lit "3") (RCompacted (sample_compaction (lit "summary")) :: sample_turn_items (lit "third"))].

Lemma bounded_scan_restores_witness :
  length (bounded_items (rollout_of [] sample_session) (mkMetaLine (types := sample_rollout) None tt)) = 6
  /\ length (rollout_of [] sample_session) = 13
  /\ reconstruct_history_from_rollout (Bytes 100) (bounded_items (rollout_of [] sample_session) (mkMetaLine (types := sample_rollout) None tt))
     = reconstruct_history_from_rollout (Bytes 100) (rollout_of [] sample_session).
Proof.
  split; [vm_compute; reflexivity|]. split; [vm_compute; reflexivity|].
  apply (bounded_scan_restores (Bytes 100) [] sample_session (mkMetaLine (types := sample_rollout) None tt)).
  - constructor.
  - constructor.
  - repeat constructor; simpl; try discriminate; left; reflexivity.
  - vm_compute. discriminate.
Defined.
