(* ===== verification/ThreadItems.v ===== *)
(** * The items of a thread as clients see them

    The items of app-server-protocol/src/protocol/v2/item.rs, the turn items and
    events of the core that become such items (protocol/src/items.rs and
    protocol.rs), and the conversions between them (v2/item.rs and
    protocol/item_builders.rs).

    Enumerations of the core whose copy in the app server has the same variants
    are one type, and the conversion between the two is the identity.  Fields of
    events that no conversion reads are left out.  Identifiers of threads are
    their text, durations are milliseconds.  Paths, JSON values, and the
    functions of other crates that render them are the class [ThreadLib]. *)

From S2P Require Import Prelude RustStr Truncate OutputTruncation ResponseItem ContextFragments EventMapping.
From S2P Require ConfigLayers.

(** ** Parts of items *)

Inductive CommandExecutionStatus := CmdInProgress | CmdCompleted | CmdFailed | CmdDeclined.
Inductive ExecCommandStatus := ExecCompleted | ExecFailed | ExecDeclined.
Inductive CommandExecutionSource := AgentSource | UserShell | UnifiedExecStartup | UnifiedExecInteraction.
Inductive CollabAgentTool :=
| SpawnAgent | SendInput | ResumeAgent | Wait | CloseAgent | SendMessage | FollowupTask | InterruptAgent | ListAgents.
Inductive CollabAgentToolCallStatus := CollabInProgress | CollabCompleted | CollabFailed | CollabInterrupted.
Inductive McpToolCallStatus := McpInProgress | McpCompleted | McpFailed.
Inductive DynamicToolCallStatus := DynInProgress | DynCompleted | DynFailed.
Inductive SubAgentActivityKind := ActivityStarted | ActivityInteracted | ActivityInterrupted | ActivityCompleted.
Inductive PatchApplyStatus := PatchInProgress | PatchCompleted | PatchFailed | PatchDeclined.
Inductive CorePatchApplyStatus := CorePatchCompleted | CorePatchFailed | CorePatchDeclined.
Inductive AgentMessageDelivery := Async.

Definition command_status_of_exec (s : ExecCommandStatus) : CommandExecutionStatus :=
  match s with ExecCompleted => CmdCompleted | ExecFailed => CmdFailed | ExecDeclined => CmdDeclined end.

Definition patch_status_of_core (s : CorePatchApplyStatus) : PatchApplyStatus :=
  match s with CorePatchCompleted => PatchCompleted | CorePatchFailed => PatchFailed | CorePatchDeclined => PatchDeclined end.

Inductive AgentStatus :=
| PendingInit | Running | AgentInterrupted | AgentCompleted (message : option str) | Errored (message : str) | Shutdown | NotFound.

Inductive CollabAgentStatus := CsPendingInit | CsRunning | CsInterrupted | CsCompleted | CsErrored | CsShutdown | CsNotFound.

Record CollabAgentState := mkAgentState { cas_status : CollabAgentStatus; cas_message : option str }.

Definition collab_agent_state (s : AgentStatus) : CollabAgentState :=
  match s with
  | PendingInit => mkAgentState CsPendingInit None
  | Running => mkAgentState CsRunning None
  | AgentInterrupted => mkAgentState CsInterrupted None
  | AgentCompleted message => mkAgentState CsCompleted message
  | Errored message => mkAgentState CsErrored (Some message)
  | Shutdown => mkAgentState CsShutdown None
  | NotFound => mkAgentState CsNotFound None
  end.

Inductive FileChange :=
| FAdd (content : str)
| FDelete (content : str)
| FUpdate (unified_diff : str) (move_path : option str).

Inductive PatchChangeKind := KAdd | KDelete | KUpdate (move_path : option str).

Record FileUpdateChange := mkFileUpdateChange { fuc_path : str; fuc_kind : PatchChangeKind; fuc_diff : str }.

Inductive ParsedCommand :=
| PRead (cmd name path : str)
| PListFiles (cmd : str) (path : option str)
| PSearch (cmd : str) (query path : option str)
| PUnknown (cmd : str).

Record MemoryCitationEntry := mkCitationEntry { mce_path : str; mce_line_start : N; mce_line_end : N; mce_note : str }.
Record CoreMemoryCitation := mkCoreCitation { cmc_entries : list MemoryCitationEntry; rollout_ids : list str }.
Record MemoryCitation := mkCitation { mc_entries : list MemoryCitationEntry; mc_thread_ids : list str }.

Definition memory_citation_of_core (c : CoreMemoryCitation) : MemoryCitation := mkCitation (cmc_entries c) (rollout_ids c).

Inductive DynamicToolCallOutputContentItem :=
| DynInputText (text : str)
| DynInputImage (image_url : str)
| DynInputAudio (audio_url : str).

(** [convert_dynamic_tool_content_items]: the two types have the same variants. *)
Definition convert_dynamic_tool_content_items (items : list DynamicToolCallOutputContentItem)
    : list DynamicToolCallOutputContentItem :=
  map (fun i => match i with
                | DynInputText text => DynInputText text
                | DynInputImage image_url => DynInputImage image_url
                | DynInputAudio audio_url => DynInputAudio audio_url
                end) items.

Record McpToolCallAppContext := mkAppContext {
  ac_connector_id : str;
  ac_link_id : option str;
  ac_resource_uri : option str;
  ac_app_name : option str;
  ac_action_name : option str }.

Definition REVIEW_FALLBACK_MESSAGE : str := lit "Reviewer failed to output a response.".

Definition i64_max : Z := 9223372036854775807.

(** [i64::try_from(duration.as_millis()).ok()] *)
Definition millis (duration : N) : option Z := if (Z.of_N duration <=? i64_max)%Z then Some (Z.of_N duration) else None.

Class ThreadLib {json : SerdeJson} := {
  PathUri : Type;
  AbsolutePathBuf : Type;
  LegacyAppPathString : Type;
  path_uri_into : PathUri -> LegacyAppPathString;
  absolute_path_into : AbsolutePathBuf -> LegacyAppPathString;
  path_uri_join : PathUri -> str -> option PathUri;
  absolute_path_join : AbsolutePathBuf -> str -> AbsolutePathBuf;
  json_null : Value;
  redact_secrets : str -> str;
  shlex_join : list str -> str;
  parse_command : list str -> list ParsedCommand;
  ReviewOutputEvent : Type;
  render_review_output_text : ReviewOutputEvent -> str;
  ReasoningEffort : Type;
  OutputBody : Type;
  ImageGenerationFailure : Type;
  ReviewTarget : Type;
}.

Section items.
Context {json : SerdeJson} {parsers : FragmentParsers} {lib : ThreadLib}.

Inductive CommandAction :=
| CRead (command name : str) (path : LegacyAppPathString)
| CListFiles (command : str) (path : option str)
| CSearch (command : str) (query path : option str)
| CUnknown (command : str).

Definition from_core_with_cwd (value : ParsedCommand) (cwd : AbsolutePathBuf) : CommandAction :=
  match value with
  | PRead cmd name path => CRead cmd name (absolute_path_into (absolute_path_join cwd path))
  | PListFiles cmd path => CListFiles cmd path
  | PSearch cmd query path => CSearch cmd query path
  | PUnknown cmd => CUnknown cmd
  end.

Record WebSearchItemV2 := mkWebSearchV2 {
  ws_id : str;
  ws_query : str;
  ws_action : option WebSearchAction;
  ws_results : option (list Value) }.

Record SleepItem := mkSleep { sleep_id : str; sleep_duration_ms : N }.

Record ImageGenerationItemV2 := mkImageGenerationV2 {
  img_id : str;
  img_status : str;
  img_revised_prompt : option str;
  img_result : str;
  img_transparent_background : option bool;
  img_failure : option ImageGenerationFailure;
  img_saved_path : option AbsolutePathBuf;
  imagegen_request_id : option str }.

Record CallToolResult := mkCallToolResult {
  ctr_content : list Value;
  ctr_structured_content : option Value;
  ctr_is_error : option bool;
  ctr_meta : option Value }.

Record McpToolCallResult := mkMcpResult {
  mr_content : list Value;
  mr_structured_content : option Value;
  mr_meta : option Value }.

Definition mcp_result_of_core (r : CallToolResult) : McpToolCallResult :=
  mkMcpResult (ctr_content r) (ctr_structured_content r) (ctr_meta r).

(** ** Items *)

Inductive ThreadItem :=
| TUserMessage (id : str) (client_id : option str) (content : list UserInput)
| THookPrompt (id : str) (fragments : list (str * str))
| TAgentMessage (id text : str) (phase : option MessagePhase) (memory_citation : option MemoryCitation)
    (delivery : option AgentMessageDelivery)
| TFunctionCallOutput (id name : str) (namespace : option str) (output : OutputBody)
| TPlan (id text : str)
| TReasoning (id : str) (summary content : list str)
| TCommandExecution (id : str) (plugin_id script_path : option str) (command : str) (cwd : LegacyAppPathString)
    (process_id : option str) (source : CommandExecutionSource) (status : CommandExecutionStatus)
    (command_actions : list CommandAction) (aggregated_output : option str) (exit_code duration_ms : option Z)
| TFileChange (id : str) (changes : list FileUpdateChange) (status : PatchApplyStatus)
| TMcpToolCall (id server tool : str) (status : McpToolCallStatus) (arguments : Value)
    (app_context : option McpToolCallAppContext) (mcp_app_resource_uri plugin_id : option str) (read_only_hint : option bool)
    (result : option McpToolCallResult) (error : option str) (duration_ms : option Z)
| TDynamicToolCall (id : str) (namespace : option str) (tool : str) (arguments : Value) (status : DynamicToolCallStatus)
    (content_items : option (list DynamicToolCallOutputContentItem)) (success : option bool) (duration_ms : option Z)
| TCollabAgentToolCall (id : str) (tool : CollabAgentTool) (status : CollabAgentToolCallStatus) (sender_thread_id : str)
    (receiver_thread_ids : list str) (prompt model : option str) (reasoning_effort : option ReasoningEffort)
    (agents_states : gmap str CollabAgentState)
| TSubAgentActivity (id : str) (kind : SubAgentActivityKind) (agent_thread_id agent_path : str)
| TWebSearch (i : WebSearchItemV2)
| TImageView (id : str) (path : LegacyAppPathString)
| TSleep (i : SleepItem)
| TImageGeneration (i : ImageGenerationItemV2)
| TEnteredReviewMode (id review : str)
| TExitedReviewMode (id review : str)
| TContextCompaction (id : str).

Definition item_id (i : ThreadItem) : str :=
  match i with
  | TUserMessage id _ _ | THookPrompt id _ | TAgentMessage id _ _ _ _ | TFunctionCallOutput id _ _ _ | TPlan id _
  | TReasoning id _ _ | TCommandExecution id _ _ _ _ _ _ _ _ _ _ _ | TFileChange id _ _
  | TMcpToolCall id _ _ _ _ _ _ _ _ _ _ _ | TDynamicToolCall id _ _ _ _ _ _ _
  | TCollabAgentToolCall id _ _ _ _ _ _ _ _ | TSubAgentActivity id _ _ _ | TImageView id _
  | TEnteredReviewMode id _ | TExitedReviewMode id _ | TContextCompaction id => id
  | TWebSearch i => ws_id i
  | TSleep i => sleep_id i
  | TImageGeneration i => img_id i
  end.

(** ** Builders *)

Definition command_actions_for_path_uri (parsed_cmd : list ParsedCommand) (cwd : PathUri) : list CommandAction :=
  omap (fun parsed =>
    match parsed with
    | PRead cmd name path =>
        match path_uri_join cwd path with
        | Some path => Some (CRead (redact_secrets cmd) name (path_uri_into path))
        | None => None
        end
    | PListFiles cmd path => Some (CListFiles (redact_secrets cmd) path)
    | PSearch cmd query path => Some (CSearch (redact_secrets cmd) (redact_secrets <$> query) path)
    | PUnknown cmd => Some (CUnknown (redact_secrets cmd))
    end) parsed_cmd.

Record CommandExecutionPresentation := mkPresentation { pr_command : str; pr_command_actions : list CommandAction }.

Definition from_raw (command : list str) (parsed_cmd : list ParsedCommand) (cwd : PathUri) : CommandExecutionPresentation :=
  mkPresentation (redact_secrets (shlex_join command)) (command_actions_for_path_uri parsed_cmd cwd).

Definition review_output_text (output : option ReviewOutputEvent) : str :=
  match output with Some output => render_review_output_text output | None => REVIEW_FALLBACK_MESSAGE end.

Definition map_patch_change_kind (change : FileChange) : PatchChangeKind :=
  match change with
  | FAdd _ => KAdd
  | FDelete _ => KDelete
  | FUpdate _ move_path => KUpdate move_path
  end.

Definition format_file_change_diff (change : FileChange) : str :=
  match change with
  | FAdd content => content
  | FDelete content => content
  | FUpdate unified_diff (Some path) => unified_diff ++ [ch_lf; ch_lf] ++ lit "Moved to: " ++ path
  | FUpdate unified_diff None => unified_diff
  end.

(** The changed paths are distinct, so the order after sorting by path is that
    of the sorted keys. *)
Definition convert_patch_changes (changes : gmap str FileChange) : list FileUpdateChange :=
  omap (fun path =>
    match changes !! path with
    | Some change => Some (mkFileUpdateChange path (map_patch_change_kind change) (format_file_change_diff change))
    | None => None
    end) (ConfigLayers.sort_strings (map_to_list changes).*1).

(** ** Events of the core *)

Record UserMessageEvent := mkUserMessageEvent {
  ue_client_id : option str;
  ue_message : str;
  ue_images : option (list str);
  ue_image_details : list (option ImageDetail);
  ue_local_images : list str;
  ue_local_image_details : list (option ImageDetail);
  ue_audio : option (list str);
  ue_local_audio : list str;
  ue_text_elements : list TextElement }.

Record ExecCommandBeginEvent := mkExecBegin {
  eb_call_id : str;
  eb_plugin_id : option str;
  eb_script_path : option str;
  eb_process_id : option str;
  eb_turn_id : str;
  eb_command : list str;
  eb_cwd : PathUri;
  eb_parsed_cmd : list ParsedCommand;
  eb_source : CommandExecutionSource }.

Record ExecCommandEndEvent := mkExecEnd {
  ee_begin : ExecCommandBeginEvent;
  ee_aggregated_output : str;
  ee_exit_code : Z;
  ee_duration : N;
  ee_status : ExecCommandStatus }.

Inductive GuardianAssessmentStatus := GaInProgress | GaApproved | GaDenied | GaTimedOut | GaAborted.

(** The actions that no item is made of carry nothing here. *)
Inductive GuardianAssessmentAction :=
| GCommand (command : str) (cwd : AbsolutePathBuf)
| GExecve (program : str) (argv : list str) (cwd : AbsolutePathBuf)
| GOther.

Record GuardianAssessmentEvent := mkAssessment {
  ga_target_item_id : option str;
  ga_plugin_id : option str;
  ga_script_path : option str;
  ga_turn_id : str;
  ga_status : GuardianAssessmentStatus;
  ga_action : GuardianAssessmentAction }.

Record DynamicToolCallRequest := mkDynRequest {
  dr_call_id : str;
  dr_turn_id : str;
  dr_namespace : option str;
  dr_tool : str;
  dr_arguments : Value }.

Record DynamicToolCallResponseEvent := mkDynResponse {
  ds_request : DynamicToolCallRequest;
  ds_content_items : list DynamicToolCallOutputContentItem;
  ds_success : bool;
  ds_duration : N }.

Record McpInvocation := mkInvocation { mi_server : str; mi_tool : str; mi_arguments : option Value }.

Record McpToolCallBeginEvent := mkMcpBegin {
  mb_call_id : str;
  mb_invocation : McpInvocation;
  mb_connector_id : option str;
  mb_mcp_app_resource_uri : option str;
  mb_link_id : option str;
  mb_app_name : option str;
  mb_action_name : option str;
  mb_plugin_id : option str;
  mb_read_only_hint : option bool }.

Record McpToolCallEndEvent := mkMcpEnd {
  me_begin : McpToolCallBeginEvent;
  me_duration : N;
  me_result : result CallToolResult str }.

Definition is_success (e : McpToolCallEndEvent) : bool :=
  match me_result e with
  | Ok result => negb (default false (ctr_is_error result))
  | Err _ => false
  end.

(** ** Items made of events *)

Definition build_file_change_item (call_id : str) (changes : gmap str FileChange) (status : PatchApplyStatus) : ThreadItem :=
  TFileChange call_id (convert_patch_changes changes) status.

Definition build_command_execution_begin_item (payload : ExecCommandBeginEvent) : ThreadItem :=
  let presentation := from_raw (eb_command payload) (eb_parsed_cmd payload) (eb_cwd payload) in
  TCommandExecution (eb_call_id payload) (eb_plugin_id payload) (eb_script_path payload) (pr_command presentation)
    (path_uri_into (eb_cwd payload)) (eb_process_id payload) (eb_source payload) CmdInProgress
    (pr_command_actions presentation) None None None.

Definition build_command_execution_end_item (payload : ExecCommandEndEvent) : ThreadItem :=
  let b := ee_begin payload in
  let aggregated_output := if is_nil (ee_aggregated_output payload) then None else Some (ee_aggregated_output payload) in
  let duration_ms := default i64_max (millis (ee_duration payload)) in
  let presentation := from_raw (eb_command b) (eb_parsed_cmd b) (eb_cwd b) in
  TCommandExecution (eb_call_id b) (eb_plugin_id b) (eb_script_path b) (pr_command presentation)
    (path_uri_into (eb_cwd b)) (eb_process_id b) (eb_source b) (command_status_of_exec (ee_status payload))
    (pr_command_actions presentation) aggregated_output (Some (ee_exit_code payload)) (Some duration_ms).

Definition build_item_from_guardian_event (assessment : GuardianAssessmentEvent) (status : CommandExecutionStatus)
    : option ThreadItem :=
  match ga_action assessment with
  | GCommand command cwd =>
      id ← ga_target_item_id assessment;
      Some (TCommandExecution id (ga_plugin_id assessment) (ga_script_path assessment) command (absolute_path_into cwd)
              None AgentSource status [CUnknown command] None None None)
  | GExecve program argv cwd =>
      id ← ga_target_item_id assessment;
      let argv := if is_nil argv then [program] else program :: drop 1 argv in
      let command := shlex_join argv in
      let parsed_cmd := parse_command argv in
      let command_actions :=
        if is_nil parsed_cmd then [CUnknown command] else map (fun parsed => from_core_with_cwd parsed cwd) parsed_cmd in
      Some (TCommandExecution id (ga_plugin_id assessment) (ga_script_path assessment) command (absolute_path_into cwd)
              None AgentSource status command_actions None None None)
  | GOther => None
  end.

Definition dynamic_tool_call_requested (payload : DynamicToolCallRequest) : ThreadItem :=
  TDynamicToolCall (dr_call_id payload) (dr_namespace payload) (dr_tool payload) (dr_arguments payload) DynInProgress
    None None None.

Definition dynamic_tool_call_answered (payload : DynamicToolCallResponseEvent) : ThreadItem :=
  let r := ds_request payload in
  TDynamicToolCall (dr_call_id r) (dr_namespace r) (dr_tool r) (dr_arguments r)
    (if ds_success payload then DynCompleted else DynFailed)
    (Some (convert_dynamic_tool_content_items (ds_content_items payload))) (Some (ds_success payload))
    (millis (ds_duration payload)).

Definition app_context_of (b : McpToolCallBeginEvent) : option McpToolCallAppContext :=
  (fun connector_id => mkAppContext connector_id (mb_link_id b) (mb_mcp_app_resource_uri b) (mb_app_name b) (mb_action_name b))
    <$> mb_connector_id b.

Definition mcp_tool_call_item (b : McpToolCallBeginEvent) (status : McpToolCallStatus) (result : option McpToolCallResult)
    (error : option str) (duration_ms : option Z) : ThreadItem :=
  TMcpToolCall (mb_call_id b) (mi_server (mb_invocation b)) (mi_tool (mb_invocation b)) status
    (default json_null (mi_arguments (mb_invocation b))) (app_context_of b) (mb_mcp_app_resource_uri b) (mb_plugin_id b)
    (mb_read_only_hint b) result error duration_ms.

Definition mcp_tool_call_begun (payload : McpToolCallBeginEvent) : ThreadItem :=
  mcp_tool_call_item payload McpInProgress None None None.

Definition mcp_tool_call_ended (payload : McpToolCallEndEvent) : ThreadItem :=
  let '(result, error) :=
    match me_result payload with
    | Ok value => (Some (mcp_result_of_core value), None)
    | Err message => (None, Some message)
    end in
  mcp_tool_call_item (me_begin payload) (if is_success payload then McpCompleted else McpFailed) result error
    (millis (me_duration payload)).

(** ** Turn items of the core *)

Record CommandExecutionItem := mkCommandExecution {
  ce_id : str;
  ce_plugin_id : option str;
  ce_script_path : option str;
  ce_process_id : option str;
  ce_command : list str;
  ce_cwd : PathUri;
  ce_parsed_cmd : list ParsedCommand;
  ce_source : CommandExecutionSource;
  ce_status : CommandExecutionStatus;
  ce_aggregated_output : option str;
  ce_exit_code : option Z;
  ce_duration : option N }.

Record McpToolCallItem := mkMcpItem {
  mcp_begin : McpToolCallBeginEvent;
  mcp_arguments : Value;
  mcp_status : McpToolCallStatus;
  mcp_result : option CallToolResult;
  mcp_error : option str;
  mcp_duration : option N }.

Inductive ExtensionItem :=
| ExtImageGeneration (i : ImageGenerationItemV2)
| ExtSleep (i : SleepItem)
| ExtWebSearch (i : WebSearchItemV2).

Inductive CoreTurnItem :=
| CoreUserMessage (i : UserMessageItem)
| CoreFunctionCallOutput (id name : str) (namespace : option str) (output : OutputBody)
| CoreHookPrompt (i : HookPromptItem)
| CoreAgentMessage (i : AgentMessageItem) (memory_citation : option CoreMemoryCitation) (delivery : option AgentMessageDelivery)
| CorePlan (id text : str)
| CoreReasoning (i : ReasoningItem)
| CoreCommandExecution (i : CommandExecutionItem)
| CoreDynamicToolCall (id : str) (namespace : option str) (tool : str) (arguments : Value) (status : DynamicToolCallStatus)
    (content_items : option (list DynamicToolCallOutputContentItem)) (success : option bool) (duration : option N)
| CoreCollabAgentToolCall (id : str) (tool : CollabAgentTool) (status : CollabAgentToolCallStatus) (sender_thread_id : str)
    (receiver_thread_ids : list str) (prompt model : option str) (reasoning_effort : option ReasoningEffort)
    (agents_states : gmap str AgentStatus)
| CoreSubAgentActivity (id : str) (kind : SubAgentActivityKind) (agent_thread_id agent_path : str)
| CoreWebSearch (id query : str) (action : WebSearchAction) (results : option (list Value))
| CoreImageView (id : str) (path : PathUri)
| CoreExtension (i : ExtensionItem)
| CoreImageGeneration (id status : str) (revised_prompt : option str) (result : str) (saved_path : option AbsolutePathBuf)
| CoreEnteredReviewMode (id : str) (target : ReviewTarget) (user_facing_hint : str)
| CoreExitedReviewMode (id : str) (review_output : option ReviewOutputEvent)
| CoreFileChange (id : str) (changes : gmap str FileChange) (status : option CorePatchApplyStatus)
| CoreMcpToolCall (i : McpToolCallItem)
| CoreContextCompaction (id : str).

Definition thread_item_of_core (value : CoreTurnItem) : ThreadItem :=
  match value with
  | CoreUserMessage user => TUserMessage (um_id user) (um_client_id user) (um_content user)
  | CoreFunctionCallOutput id name namespace output => TFunctionCallOutput id name namespace output
  | CoreHookPrompt hook_prompt => THookPrompt (hp_id hook_prompt) (hp_fragments hook_prompt)
  | CoreAgentMessage agent memory_citation delivery =>
      let text := mjoin (map (fun entry => match entry with AgentText text => text end) (am_content agent)) in
      TAgentMessage (am_id agent) text (am_phase agent) (memory_citation_of_core <$> memory_citation) delivery
  | CorePlan id text => TPlan id text
  | CoreReasoning reasoning => TReasoning (rs_id reasoning) (rs_summary_text reasoning) (rs_raw_content reasoning)
  | CoreCommandExecution command =>
      let presentation := from_raw (ce_command command) (ce_parsed_cmd command) (ce_cwd command) in
      TCommandExecution (ce_id command) (ce_plugin_id command) (ce_script_path command) (pr_command presentation)
        (path_uri_into (ce_cwd command)) (ce_process_id command) (ce_source command) (ce_status command)
        (pr_command_actions presentation)
        (output ← ce_aggregated_output command; if is_nil output then None else Some output)
        (ce_exit_code command) (ce_duration command ≫= millis)
  | CoreDynamicToolCall id namespace tool arguments status content_items success duration =>
      TDynamicToolCall id namespace tool arguments status (convert_dynamic_tool_content_items <$> content_items) success
        (duration ≫= millis)
  | CoreCollabAgentToolCall id tool status sender receivers prompt model reasoning_effort agents_states =>
      TCollabAgentToolCall id tool status sender receivers prompt model reasoning_effort
        (collab_agent_state <$> agents_states)
  | CoreSubAgentActivity id kind agent_thread_id agent_path => TSubAgentActivity id kind agent_thread_id agent_path
  | CoreWebSearch id query action results => TWebSearch (mkWebSearchV2 id query (Some action) results)
  | CoreImageView id path => TImageView id (path_uri_into path)
  | CoreExtension (ExtImageGeneration i) => TImageGeneration i
  | CoreExtension (ExtSleep i) => TSleep i
  | CoreExtension (ExtWebSearch i) => TWebSearch i
  | CoreImageGeneration id status revised_prompt result saved_path =>
      TImageGeneration (mkImageGenerationV2 id status revised_prompt result None None saved_path None)
  | CoreEnteredReviewMode id _ user_facing_hint => TEnteredReviewMode id user_facing_hint
  | CoreExitedReviewMode id review_output => TExitedReviewMode id (review_output_text review_output)
  | CoreFileChange id changes status =>
      TFileChange id (convert_patch_changes changes)
        (match status with Some status => patch_status_of_core status | None => PatchInProgress end)
  | CoreMcpToolCall mcp =>
      let b := mcp_begin mcp in
      TMcpToolCall (mb_call_id b) (mi_server (mb_invocation b)) (mi_tool (mb_invocation b)) (mcp_status mcp)
        (mcp_arguments mcp) (app_context_of b) (mb_mcp_app_resource_uri b) (mb_plugin_id b) (mb_read_only_hint b)
        (mcp_result_of_core <$> mcp_result mcp) (mcp_error mcp) (mcp_duration mcp ≫= millis)
  | CoreContextCompaction id => TContextCompaction id
  end.

End items.
