(* ===== verification/ThreadHistory.v ===== *)
(** * The turns of a thread

    app-server-protocol/src/protocol/thread_history.rs: [ThreadHistoryBuilder]
    turns the events of a rollout into the turns and items that clients see,
    and on demand reports what each event changed; and the truncations of
    core/src/thread_rollout_truncation.rs that go by turn id.

    The record [ThreadHistoryBuilder] has the fields of the source.  A handler
    takes the builder and returns it, with [None] for a panic.  The fresh
    identifier that the source draws when it opens a turn outside of a rollout is
    an argument of the handlers. *)

From S2P Require Import Prelude RustStr Truncate OutputTruncation ResponseItem ContextFragments EventMapping ThreadItems.
From S2P Require ConfigLayers.

(** ** Turns *)

Inductive TurnStatus := TurnCompleted | TurnInterrupted | TurnFailed | TurnInProgress.
#[global] Instance TurnStatus_eq_dec : EqDecision TurnStatus.
Proof. solve_decision. Defined.

Inductive NonSteerableTurnKind := ReviewTurn | CompactTurn.

Inductive CodexErrorInfo :=
| ContextWindowExceeded | SessionBudgetExceeded | UsageLimitExceeded | RateLimitExceeded | ServerOverloaded | CyberPolicy
| MisalignmentPolicyViolation | HttpConnectionFailed (http_status_code : option N)
| ResponseStreamConnectionFailed (http_status_code : option N) | InternalServerError | Unauthorized | BadRequest | SandboxError
| ResponseStreamDisconnected (http_status_code : option N) | ResponseTooManyFailedAttempts (http_status_code : option N)
| ActiveTurnNotSteerable (turn_kind : NonSteerableTurnKind) | ThreadRollbackFailed | OtherError.

Definition info_affects_turn_status (i : CodexErrorInfo) : bool :=
  match i with ThreadRollbackFailed | ActiveTurnNotSteerable _ => false | _ => true end.

Record MisalignmentErrorDetails := mkMisalignment {
  error_type : option str;
  detailed_explanation : option str;
  steer : option str }.

Record ErrorEvent := mkErrorEvent {
  err_message : str;
  err_codex_error_info : option CodexErrorInfo;
  err_misalignment : option MisalignmentErrorDetails }.

Definition affects_turn_status (e : ErrorEvent) : bool :=
  match err_codex_error_info e with None => true | Some i => info_affects_turn_status i end.

Record TurnError := mkTurnError {
  te_message : str;
  te_codex_error_info : option CodexErrorInfo;
  te_additional_details : option str;
  te_misalignment : option MisalignmentErrorDetails }.

Definition turn_error (e : ErrorEvent) : TurnError :=
  mkTurnError (err_message e) (err_codex_error_info e) None (err_misalignment e).

Definition TURN_ITEM_INDEX_THRESHOLD : nat := 32.

Section history.
Context {json : SerdeJson} {parsers : FragmentParsers} {lib : ThreadLib}.

Record TurnItemIndex := mkIndex { positions : option (gmap str nat) }.

Definition index_default : TurnItemIndex := mkIndex None.

Record PendingTurn := mkPending {
  pt_id : str;
  pt_items : list ThreadItem;
  pt_item_index : TurnItemIndex;
  pt_error : option TurnError;
  pt_status : TurnStatus;
  pt_started_at : option Z;
  pt_completed_at : option Z;
  pt_duration_ms : option Z;
  pt_opened_explicitly : bool;
  pt_saw_compaction : bool;
  pt_rollout_start_index : nat }.

(** [items_view] is always [Full]. *)
Record Turn := mkTurn {
  t_id : str;
  t_items : list ThreadItem;
  t_error : option TurnError;
  t_status : TurnStatus;
  t_started_at : option Z;
  t_completed_at : option Z;
  t_duration_ms : option Z }.

Definition turn_of (t : PendingTurn) : Turn :=
  mkTurn (pt_id t) (pt_items t) (pt_error t) (pt_status t) (pt_started_at t) (pt_completed_at t) (pt_duration_ms t).

(** ** The index of a turn *)

(** [entry(key).or_insert(value)] *)
Definition or_insert (k : str) (v : nat) (m : gmap str nat) : gmap str nat :=
  match m !! k with Some _ => m | None => <[k := v]> m end.

Definition index_push (index : TurnItemIndex) (items : list ThreadItem) (i : ThreadItem) : TurnItemIndex * list ThreadItem :=
  (mkIndex (or_insert (item_id i) (length items) <$> positions index), items ++ [i]).

(** The loop that builds the index. *)
Definition index_positions (items : list ThreadItem) : gmap str nat :=
  fold_left (fun m '(index, existing) => or_insert (item_id existing) index m) (zip (seq 0 (length items)) items) ∅.

(** [items.iter().position(..)] *)
Fixpoint position (id : str) (items : list ThreadItem) : option nat :=
  match items with
  | [] => None
  | i :: items => if str_eqb (item_id i) id then Some 0 else S <$> position id items
  end.

(** The item that the source returns a reference to is [i] itself. *)
Definition index_upsert (index : TurnItemIndex) (items : list ThreadItem) (i : ThreadItem)
    : option (TurnItemIndex * list ThreadItem) :=
  let index :=
    match positions index with
    | None => if TURN_ITEM_INDEX_THRESHOLD <=? length items then mkIndex (Some (index_positions items)) else index
    | Some _ => index
    end in
  let existing_index :=
    match positions index with
    | Some positions => positions !! item_id i
    | None => position (item_id i) items
    end in
  match existing_index with
  | Some n => if n <? length items then Some (index, <[n := i]> items) else None
  | None => Some (index_push index items i)
  end.

(** ** Changes *)

Record ThreadHistoryItemChange := mkItemChange {
  ic_turn_id : str;
  ic_item : ThreadItem;
  ic_started_at_ms : option Z;
  ic_completed_at_ms : option Z }.

Record ThreadHistoryTurnChange := mkTurnChange {
  tc_turn_id : str;
  tc_status : TurnStatus;
  tc_error : option TurnError;
  tc_started_at : option Z;
  tc_completed_at : option Z;
  tc_duration_ms : option Z }.

Record ThreadHistoryChangeSet := mkChangeSet {
  changed_items : list ThreadHistoryItemChange;
  changed_turns : list ThreadHistoryTurnChange;
  removed_turn_ids : list str }.

Definition change_set_default : ThreadHistoryChangeSet := mkChangeSet [] [] [].

Definition change_set_is_empty (c : ThreadHistoryChangeSet) : bool :=
  is_nil (changed_items c) && is_nil (changed_turns c) && is_nil (removed_turn_ids c).

Definition from_pending_turn (t : PendingTurn) : ThreadHistoryTurnChange :=
  mkTurnChange (pt_id t) (pt_status t) (pt_error t) (pt_started_at t) (pt_completed_at t) (pt_duration_ms t).

(** ** The builder *)

Record ThreadHistoryBuilder := mkBuilder {
  turns : list PendingTurn;
  current_turn : option PendingTurn;
  next_item_index : Z;
  current_rollout_index : nat;
  next_rollout_index : nat;
  active_change_set : option ThreadHistoryChangeSet }.

Definition builder_new : ThreadHistoryBuilder := mkBuilder [] None 1 0 0 None.

Definition set_turns (ts : list PendingTurn) (b : ThreadHistoryBuilder) : ThreadHistoryBuilder :=
  mkBuilder ts (current_turn b) (next_item_index b) (current_rollout_index b) (next_rollout_index b) (active_change_set b).

Definition set_current (t : option PendingTurn) (b : ThreadHistoryBuilder) : ThreadHistoryBuilder :=
  mkBuilder (turns b) t (next_item_index b) (current_rollout_index b) (next_rollout_index b) (active_change_set b).

Definition set_next_item_index (n : Z) (b : ThreadHistoryBuilder) : ThreadHistoryBuilder :=
  mkBuilder (turns b) (current_turn b) n (current_rollout_index b) (next_rollout_index b) (active_change_set b).

Definition set_change_set (c : option ThreadHistoryChangeSet) (b : ThreadHistoryBuilder) : ThreadHistoryBuilder :=
  mkBuilder (turns b) (current_turn b) (next_item_index b) (current_rollout_index b) (next_rollout_index b) c.

Definition on_change_set (f : ThreadHistoryChangeSet -> ThreadHistoryChangeSet) (b : ThreadHistoryBuilder) : ThreadHistoryBuilder :=
  set_change_set (f <$> active_change_set b) b.

Definition record_changed_item (turn_id : str) (i : ThreadItem) (b : ThreadHistoryBuilder) : ThreadHistoryBuilder :=
  on_change_set (fun c => mkChangeSet (changed_items c ++ [mkItemChange turn_id i None None]) (changed_turns c) (removed_turn_ids c)) b.

Definition record_changed_turn (t : ThreadHistoryTurnChange) (b : ThreadHistoryBuilder) : ThreadHistoryBuilder :=
  on_change_set (fun c => mkChangeSet (changed_items c) (changed_turns c ++ [t]) (removed_turn_ids c)) b.

Definition record_changed_pending_turn (t : PendingTurn) (b : ThreadHistoryBuilder) : ThreadHistoryBuilder :=
  record_changed_turn (from_pending_turn t) b.

Definition record_removed_turn_ids (ids : list str) (b : ThreadHistoryBuilder) : ThreadHistoryBuilder :=
  on_change_set (fun c => mkChangeSet (changed_items c) (changed_turns c) (removed_turn_ids c ++ ids)) b.

Definition finish_current_turn (b : ThreadHistoryBuilder) : ThreadHistoryBuilder :=
  match current_turn b with
  | Some t =>
      let b := set_current None b in
      if is_nil (pt_items t) && negb (pt_opened_explicitly t) && negb (pt_saw_compaction t) then b
      else set_turns (turns b ++ [t]) b
  | None => b
  end.

Definition builder_finish (b : ThreadHistoryBuilder) : list Turn := map turn_of (turns (finish_current_turn b)).

Definition active_turn_snapshot (b : ThreadHistoryBuilder) : option Turn :=
  match current_turn b with Some t => Some (turn_of t) | None => turn_of <$> last (turns b) end.

Definition active_turn_id (b : ThreadHistoryBuilder) : option str :=
  match current_turn b with Some t => Some (pt_id t) | None => pt_id <$> last (turns b) end.

Definition turn_snapshot (turn_id : str) (b : ThreadHistoryBuilder) : option Turn :=
  match current_turn b with
  | Some t => if str_eqb (pt_id t) turn_id then Some (turn_of t)
              else turn_of <$> List.find (fun t => str_eqb (pt_id t) turn_id) (turns b)
  | None => turn_of <$> List.find (fun t => str_eqb (pt_id t) turn_id) (turns b)
  end.

Definition active_turn_position (b : ThreadHistoryBuilder) : option nat :=
  match current_turn b with
  | Some _ => Some (length (turns b))
  | None => if is_nil (turns b) then None else Some (length (turns b) - 1)
  end.

Definition has_active_turn (b : ThreadHistoryBuilder) : bool := match current_turn b with Some _ => true | None => false end.

Definition active_turn_id_if_explicit (b : ThreadHistoryBuilder) : option str :=
  t ← current_turn b; if pt_opened_explicitly t then Some (pt_id t) else None.

Definition active_turn_start_index (b : ThreadHistoryBuilder) : option nat := pt_rollout_start_index <$> current_turn b.

Definition next_item_id (b : ThreadHistoryBuilder) : str * ThreadHistoryBuilder :=
  (lit "item-" ++ fmt_N (Z.to_N (next_item_index b)), set_next_item_index (next_item_index b + 1) b).

Definition new_turn (new_id : str) (id : option str) (b : ThreadHistoryBuilder) : PendingTurn :=
  mkPending
    (match id with
     | Some id => id
     | None => if next_rollout_index b =? 0 then new_id else lit "rollout-" ++ fmt_N (N.of_nat (current_rollout_index b))
     end) [] index_default None TurnCompleted None None None false false (current_rollout_index b).

(** The turn and the builder whose current turn it is. *)
Definition ensure_turn (new_id : str) (b : ThreadHistoryBuilder) : PendingTurn * ThreadHistoryBuilder :=
  match current_turn b with
  | Some t => (t, b)
  | None =>
      let t := new_turn new_id None b in
      (t, set_current (Some t) (record_changed_pending_turn t b))
  end.

Definition with_items (t : PendingTurn) (index : TurnItemIndex) (items : list ThreadItem) : PendingTurn :=
  mkPending (pt_id t) items index (pt_error t) (pt_status t) (pt_started_at t) (pt_completed_at t) (pt_duration_ms t)
    (pt_opened_explicitly t) (pt_saw_compaction t) (pt_rollout_start_index t).

Definition push_item_in_current_turn (new_id : str) (i : ThreadItem) (b : ThreadHistoryBuilder) : ThreadHistoryBuilder :=
  let '(t, b) := ensure_turn new_id b in
  let '(index, items) := index_push (pt_item_index t) (pt_items t) i in
  record_changed_item (pt_id t) i (set_current (Some (with_items t index items)) b).

Definition turn_upsert (t : PendingTurn) (i : ThreadItem) : option PendingTurn :=
  '(index, items) ← index_upsert (pt_item_index t) (pt_items t) i; Some (with_items t index items).

(** [iter_mut().find(..)], with [None] when no element matches; the inner
    [option] is the panic of [f]. *)
Fixpoint update_turn (turn_id : str) (f : PendingTurn -> option PendingTurn) (ts : list PendingTurn)
    : option (option (list PendingTurn * PendingTurn)) :=
  match ts with
  | [] => None
  | t :: ts =>
      if str_eqb (pt_id t) turn_id then Some (t' ← f t; Some (t' :: ts, t'))
      else match update_turn turn_id f ts with
           | Some r => Some ('(ts', t') ← r; Some (t :: ts', t'))
           | None => None
           end
  end.

Definition is_current (turn_id : str) (b : ThreadHistoryBuilder) : option PendingTurn :=
  t ← current_turn b; if str_eqb (pt_id t) turn_id then Some t else None.

Definition upsert_item_in_turn_id (turn_id : str) (i : ThreadItem) (b : ThreadHistoryBuilder) : option ThreadHistoryBuilder :=
  match is_current turn_id b with
  | Some t => t ← turn_upsert t i; Some (record_changed_item (pt_id t) i (set_current (Some t) b))
  | None =>
      match update_turn turn_id (fun t => turn_upsert t i) (turns b) with
      | Some r => '(ts, t) ← r; Some (record_changed_item (pt_id t) i (set_turns ts b))
      | None => Some b
      end
  end.

Definition upsert_item_in_current_turn (new_id : str) (i : ThreadItem) (b : ThreadHistoryBuilder) : option ThreadHistoryBuilder :=
  let '(t, b) := ensure_turn new_id b in
  t ← turn_upsert t i; Some (record_changed_item (pt_id t) i (set_current (Some t) b)).

(** ** Events *)

Record TurnAbortedEvent := mkTurnAborted {
  ab_turn_id : option str;
  ab_started_at : option Z;
  ab_completed_at : option Z;
  ab_duration_ms : option Z }.

Record TurnCompleteEvent := mkTurnComplete {
  cp_turn_id : str;
  cp_error : option ErrorEvent;
  cp_started_at : option Z;
  cp_completed_at : option Z;
  cp_duration_ms : option Z }.

(** [EventMsg]; the events that the builder ignores are [EvOther]. *)
Inductive EventMsg :=
| EvUserMessage (e : UserMessageEvent)
| EvAgentMessage (message : str) (phase : option MessagePhase) (memory_citation : option CoreMemoryCitation)
    (delivery : option AgentMessageDelivery)
| EvAgentReasoning (text : str)
| EvAgentReasoningRawContent (text : str)
| EvWebSearchBegin (call_id : str)
| EvWebSearchEnd (call_id query : str) (action : WebSearchAction) (results : option (list Value))
| EvExecCommandBegin (e : ExecCommandBeginEvent)
| EvExecCommandEnd (e : ExecCommandEndEvent)
| EvGuardianAssessment (e : GuardianAssessmentEvent)
| EvApplyPatchApprovalRequest (call_id turn_id : str) (changes : gmap str FileChange)
| EvPatchApplyBegin (call_id turn_id : str) (changes : gmap str FileChange)
| EvPatchApplyEnd (call_id turn_id : str) (changes : gmap str FileChange) (status : CorePatchApplyStatus)
| EvDynamicToolCallRequest (e : DynamicToolCallRequest)
| EvDynamicToolCallResponse (e : DynamicToolCallResponseEvent)
| EvMcpToolCallBegin (e : McpToolCallBeginEvent)
| EvMcpToolCallEnd (e : McpToolCallEndEvent)
| EvViewImageToolCall (call_id : str) (path : PathUri)
| EvImageGenerationBegin (call_id : str)
| EvImageGenerationEnd (call_id status : str) (revised_prompt : option str) (result : str) (transparent_background : option bool)
    (failure : option ImageGenerationFailure) (saved_path : option AbsolutePathBuf)
| EvCollabAgentSpawnBegin (call_id sender prompt model : str) (reasoning_effort : ReasoningEffort)
| EvCollabAgentSpawnEnd (call_id sender : str) (new_thread_id : option str) (prompt model : str)
    (reasoning_effort : ReasoningEffort) (status : AgentStatus)
| EvCollabAgentInteractionBegin (call_id sender receiver prompt : str)
| EvCollabAgentInteractionEnd (call_id sender receiver prompt : str) (status : AgentStatus)
| EvSubAgentActivity (event_id : str) (kind : SubAgentActivityKind) (agent_thread_id agent_path : str)
| EvCollabWaitingBegin (call_id sender : str) (receivers : list str)
| EvCollabWaitingEnd (call_id sender : str) (statuses : gmap str AgentStatus)
| EvCollabCloseBegin (call_id sender receiver : str)
| EvCollabCloseEnd (call_id sender receiver : str) (status : AgentStatus)
| EvCollabResumeBegin (call_id sender receiver : str)
| EvCollabResumeEnd (call_id sender receiver : str) (status : AgentStatus)
| EvContextCompacted
| EvEnteredReviewMode (user_facing_hint turn_id item_id : option str)
| EvExitedReviewMode (turn_id item_id : option str) (review_output : option ReviewOutputEvent)
| EvItemStarted (turn_id : str) (i : CoreTurnItem)
| EvItemCompleted (turn_id : str) (i : CoreTurnItem) (started_at_ms : option Z) (completed_at_ms : Z)
| EvError (e : ErrorEvent)
| EvThreadRolledBack (num_turns : N)
| EvTurnAborted (e : TurnAbortedEvent)
| EvTurnStarted (turn_id : str) (started_at : option Z)
| EvTurnComplete (e : TurnCompleteEvent)
| EvOther.

(** What the builder reads of a [RolloutItem]. *)
Inductive HistoryItem :=
| HEvent (e : EventMsg)
| HCompacted
| HResponseItem (i : ResponseItem)
| HOther.

(** ** Handlers *)

Definition parse_hook_prompt_message (new_id : str) (id : option str) (content : list ContentItem) : option HookPromptItem :=
  fragments ← mapM (fun c => match c with Content.InputText text => parse_hook_prompt_fragment text | _ => None end) content;
  if is_nil fragments then None else Some (mkHookPrompt (default new_id id) fragments).

Definition handle_response_item (new_id : str) (i : ResponseItem) (b : ThreadHistoryBuilder) : ThreadHistoryBuilder :=
  match i with
  | Message id role content _ _ =>
      if negb (str_eqb role (lit "user")) then b
      else
        match parse_hook_prompt_message new_id id content with
        | None => b
        | Some hook_prompt => push_item_in_current_turn new_id (THookPrompt (hp_id hook_prompt) (hp_fragments hook_prompt)) b
        end
  | _ => b
  end.

(** A detail past the end of the list is absent. *)
Definition detail_at (details : list (option ImageDetail)) (idx : nat) : option ImageDetail := mjoin (details !! idx).

Definition build_user_inputs (payload : UserMessageEvent) : list UserInput :=
  (if is_nil (trim (ue_message payload)) then [] else [UText (ue_message payload) (ue_text_elements payload)])
  ++ imap (fun idx image => UImage image (detail_at (ue_image_details payload) idx)) (default [] (ue_images payload))
  ++ imap (fun idx path => ULocalImage path (detail_at (ue_local_image_details payload) idx)) (ue_local_images payload)
  ++ map UAudio (default [] (ue_audio payload))
  ++ map ULocalAudio (ue_local_audio payload).

Definition handle_user_message (new_id : str) (payload : UserMessageEvent) (b : ThreadHistoryBuilder) : ThreadHistoryBuilder :=
  let b :=
    match current_turn b with
    | Some t =>
        if negb (pt_opened_explicitly t) && negb (pt_saw_compaction t && is_nil (pt_items t)) then finish_current_turn b else b
    | None => b
    end in
  let '(id, b) := next_item_id b in
  push_item_in_current_turn new_id (TUserMessage id (ue_client_id payload) (build_user_inputs payload)) b.

Definition handle_agent_message (new_id message : str) (phase : option MessagePhase) (memory_citation : option CoreMemoryCitation)
    (delivery : option AgentMessageDelivery) (b : ThreadHistoryBuilder) : ThreadHistoryBuilder :=
  if is_nil message then b
  else
    let '(id, b) := next_item_id b in
    push_item_in_current_turn new_id (TAgentMessage id message phase (memory_citation_of_core <$> memory_citation) delivery) b.

(** [last_mut] *)
Definition with_last_item (t : PendingTurn) (i : ThreadItem) : PendingTurn :=
  with_items t (pt_item_index t) (take (length (pt_items t) - 1) (pt_items t) ++ [i]).

(** The common part of [handle_agent_reasoning] and
    [handle_agent_reasoning_raw_content]. *)
Definition add_reasoning (new_id : str) (extend : list str -> list str -> list str * list str) (b : ThreadHistoryBuilder)
    : ThreadHistoryBuilder :=
  let '(t, b) := ensure_turn new_id b in
  match last (pt_items t) with
  | Some (TReasoning id summary content) =>
      let '(summary, content) := extend summary content in
      let i := TReasoning id summary content in
      record_changed_item (pt_id t) i (set_current (Some (with_last_item t i)) b)
  | _ =>
      let '(id, b) := next_item_id b in
      let '(summary, content) := extend [] [] in
      push_item_in_current_turn new_id (TReasoning id summary content) b
  end.

Definition handle_agent_reasoning (new_id text : str) (b : ThreadHistoryBuilder) : ThreadHistoryBuilder :=
  if is_nil text then b else add_reasoning new_id (fun summary content => (summary ++ [text], content)) b.

Definition handle_agent_reasoning_raw_content (new_id text : str) (b : ThreadHistoryBuilder) : ThreadHistoryBuilder :=
  if is_nil text then b else add_reasoning new_id (fun summary content => (summary, content ++ [text])) b.

(** Turn-scoped items of older streams have no turn id. *)
Definition upsert_item_in_event_turn (new_id turn_id : str) (i : ThreadItem) (b : ThreadHistoryBuilder) : option ThreadHistoryBuilder :=
  if is_nil turn_id then upsert_item_in_current_turn new_id i b else upsert_item_in_turn_id turn_id i b.

Definition upsert_review_mode_item (new_id : str) (turn_id : option str) (i : ThreadItem)
    (b : ThreadHistoryBuilder) : option ThreadHistoryBuilder :=
  match turn_id with
  | None => upsert_item_in_current_turn new_id i b
  | Some turn_id =>
      let b :=
        if negb (match is_current turn_id b with Some _ => true | None => false end)
           && negb (existsb (fun t => str_eqb (pt_id t) turn_id) (turns b))
        then
          let b := finish_current_turn b in
          let t := new_turn new_id (Some turn_id) b in
          set_current (Some t) (record_changed_pending_turn t b)
        else b in
      upsert_item_in_turn_id turn_id i b
  end.

Definition handle_materialized_item_lifecycle (new_id turn_id : str) (i : CoreTurnItem)
    (b : ThreadHistoryBuilder) : option ThreadHistoryBuilder :=
  let is_review_mode_item := match i with CoreEnteredReviewMode _ _ _ | CoreExitedReviewMode _ _ => true | _ => false end in
  let should_upsert :=
    match i with
    | CorePlan _ text => negb (is_nil text)
    | CoreHookPrompt _ | CoreFunctionCallOutput _ _ _ _ | CoreCommandExecution _ | CoreDynamicToolCall _ _ _ _ _ _ _ _
    | CoreCollabAgentToolCall _ _ _ _ _ _ _ _ _ | CoreSubAgentActivity _ _ _ _ | CoreExtension _
    | CoreEnteredReviewMode _ _ _ | CoreExitedReviewMode _ _ => true
    | CoreUserMessage _ | CoreAgentMessage _ _ _ | CoreReasoning _ | CoreWebSearch _ _ _ _ | CoreImageView _ _
    | CoreImageGeneration _ _ _ _ _ | CoreFileChange _ _ _ | CoreMcpToolCall _ | CoreContextCompaction _ => false
    end in
  if should_upsert then
    let i := thread_item_of_core i in
    if is_review_mode_item then upsert_review_mode_item new_id (Some turn_id) i b else upsert_item_in_turn_id turn_id i b
  else Some b.

Definition handle_guardian_assessment (new_id : str) (payload : GuardianAssessmentEvent)
    (b : ThreadHistoryBuilder) : option ThreadHistoryBuilder :=
  let status :=
    match ga_status payload with
    | GaInProgress => Some CmdInProgress
    | GaDenied | GaAborted => Some CmdDeclined
    | GaTimedOut => Some CmdFailed
    | GaApproved => None
    end in
  match (status ← status; build_item_from_guardian_event payload status) with
  | Some i => upsert_item_in_event_turn new_id (ga_turn_id payload) i b
  | None => Some b
  end.

Definition handle_web_search_begin (new_id : str) (call_id : str)
    (b : ThreadHistoryBuilder) : option ThreadHistoryBuilder :=
  upsert_item_in_current_turn new_id (TWebSearch (mkWebSearchV2 call_id [] None None)) b.

Definition handle_web_search_end (new_id : str) (call_id query : str) (action : WebSearchAction) (results : option (list Value))
    (b : ThreadHistoryBuilder) : option ThreadHistoryBuilder :=
  upsert_item_in_current_turn new_id (TWebSearch (mkWebSearchV2 call_id query (Some action) results)) b.

Definition handle_exec_command_begin (payload : ExecCommandBeginEvent)
    (b : ThreadHistoryBuilder) : option ThreadHistoryBuilder :=
  upsert_item_in_turn_id (eb_turn_id payload) (build_command_execution_begin_item payload) b.

Definition handle_exec_command_end (payload : ExecCommandEndEvent)
    (b : ThreadHistoryBuilder) : option ThreadHistoryBuilder :=
  upsert_item_in_turn_id (eb_turn_id (ee_begin payload)) (build_command_execution_end_item payload) b.

Definition handle_apply_patch_approval_request (new_id : str) (call_id turn_id : str) (changes : gmap str FileChange)
    (b : ThreadHistoryBuilder) : option ThreadHistoryBuilder :=
  upsert_item_in_event_turn new_id turn_id (build_file_change_item call_id changes PatchInProgress) b.

Definition handle_patch_apply_begin (new_id : str) (call_id turn_id : str) (changes : gmap str FileChange)
    (b : ThreadHistoryBuilder) : option ThreadHistoryBuilder :=
  upsert_item_in_event_turn new_id turn_id (build_file_change_item call_id changes PatchInProgress) b.

Definition handle_patch_apply_end (new_id : str) (call_id turn_id : str) (changes : gmap str FileChange) (status : CorePatchApplyStatus)
    (b : ThreadHistoryBuilder) : option ThreadHistoryBuilder :=
  upsert_item_in_event_turn new_id turn_id (build_file_change_item call_id changes (patch_status_of_core status)) b.

Definition handle_dynamic_tool_call_request (new_id : str) (payload : DynamicToolCallRequest)
    (b : ThreadHistoryBuilder) : option ThreadHistoryBuilder :=
  upsert_item_in_event_turn new_id (dr_turn_id payload) (dynamic_tool_call_requested payload) b.

Definition handle_dynamic_tool_call_response (new_id : str) (payload : DynamicToolCallResponseEvent)
    (b : ThreadHistoryBuilder) : option ThreadHistoryBuilder :=
  upsert_item_in_event_turn new_id (dr_turn_id (ds_request payload)) (dynamic_tool_call_answered payload) b.

Definition handle_mcp_tool_call_begin (new_id : str) (payload : McpToolCallBeginEvent)
    (b : ThreadHistoryBuilder) : option ThreadHistoryBuilder :=
  upsert_item_in_current_turn new_id (mcp_tool_call_begun payload) b.

Definition handle_mcp_tool_call_end (new_id : str) (payload : McpToolCallEndEvent)
    (b : ThreadHistoryBuilder) : option ThreadHistoryBuilder :=
  upsert_item_in_current_turn new_id (mcp_tool_call_ended payload) b.

Definition handle_view_image_tool_call (new_id : str) (call_id : str) (path : PathUri)
    (b : ThreadHistoryBuilder) : option ThreadHistoryBuilder :=
  upsert_item_in_current_turn new_id (TImageView call_id (path_uri_into path)) b.

Definition handle_image_generation_begin (new_id : str) (call_id : str)
    (b : ThreadHistoryBuilder) : option ThreadHistoryBuilder :=
  upsert_item_in_current_turn new_id (TImageGeneration (mkImageGenerationV2 call_id [] None [] None None None None)) b.

Definition handle_image_generation_end (new_id : str) (call_id status : str) (revised_prompt : option str) (result : str)
    (transparent : option bool) (failure : option ImageGenerationFailure) (saved_path : option AbsolutePathBuf)
    (b : ThreadHistoryBuilder) : option ThreadHistoryBuilder :=
  upsert_item_in_current_turn new_id
    (TImageGeneration (mkImageGenerationV2 call_id status revised_prompt result transparent failure saved_path None)) b.

Definition handle_sub_agent_activity (new_id : str) (event_id : str) (kind : SubAgentActivityKind) (agent_thread_id agent_path : str)
    (b : ThreadHistoryBuilder) : option ThreadHistoryBuilder :=
  upsert_item_in_current_turn new_id (TSubAgentActivity event_id kind agent_thread_id agent_path) b.

Definition is_failed_agent (s : AgentStatus) : bool := match s with Errored _ | NotFound => true | _ => false end.

Definition collab_end_status (s : AgentStatus) : CollabAgentToolCallStatus := if is_failed_agent s then CollabFailed else CollabCompleted.

Definition collab_call (call_id : str) (tool : CollabAgentTool) (status : CollabAgentToolCallStatus) (sender : str) (receivers : list str)
    (prompt : option str) (agents_states : gmap str CollabAgentState) : ThreadItem :=
  TCollabAgentToolCall call_id tool status sender receivers prompt None None agents_states.

(** The item of a begun or ended call of a collaboration tool. *)
Definition collab_item (e : EventMsg) : option ThreadItem :=
  match e with
  | EvCollabAgentSpawnBegin call_id sender prompt model effort =>
      Some (TCollabAgentToolCall call_id SpawnAgent CollabInProgress sender [] (Some prompt) (Some model) (Some effort) ∅)
  | EvCollabAgentSpawnEnd call_id sender new_thread_id prompt model effort status =>
      let call_status :=
        if is_failed_agent status then CollabFailed
        else match new_thread_id with Some _ => CollabCompleted | None => CollabFailed end in
      let '(receivers, states) :=
        match new_thread_id with
        | Some id => ([id], {[ id := collab_agent_state status ]})
        | None => ([], ∅)
        end in
      Some (TCollabAgentToolCall call_id SpawnAgent call_status sender receivers (Some prompt) (Some model) (Some effort) states)
  | EvCollabAgentInteractionBegin call_id sender receiver prompt =>
      Some (collab_call call_id SendInput CollabInProgress sender [receiver] (Some prompt) ∅)
  | EvCollabAgentInteractionEnd call_id sender receiver prompt status =>
      Some (collab_call call_id SendInput (collab_end_status status) sender [receiver] (Some prompt)
              {[ receiver := collab_agent_state status ]})
  | EvCollabWaitingBegin call_id sender receivers => Some (collab_call call_id Wait CollabInProgress sender receivers None ∅)
  | EvCollabWaitingEnd call_id sender statuses =>
      Some (collab_call call_id Wait (if existsb is_failed_agent (map_to_list statuses).*2 then CollabFailed else CollabCompleted)
              sender (ConfigLayers.sort_strings (map_to_list statuses).*1) None (collab_agent_state <$> statuses))
  | EvCollabCloseBegin call_id sender receiver => Some (collab_call call_id CloseAgent CollabInProgress sender [receiver] None ∅)
  | EvCollabCloseEnd call_id sender receiver status =>
      Some (collab_call call_id CloseAgent (collab_end_status status) sender [receiver] None {[ receiver := collab_agent_state status ]})
  | EvCollabResumeBegin call_id sender receiver => Some (collab_call call_id ResumeAgent CollabInProgress sender [receiver] None ∅)
  | EvCollabResumeEnd call_id sender receiver status =>
      Some (collab_call call_id ResumeAgent (collab_end_status status) sender [receiver] None {[ receiver := collab_agent_state status ]})
  | _ => None
  end.

Definition handle_context_compacted (new_id : str) (b : ThreadHistoryBuilder) : ThreadHistoryBuilder :=
  let '(id, b) := next_item_id b in push_item_in_current_turn new_id (TContextCompaction id) b.

(** [item_id.clone().unwrap_or_else(|| self.next_item_id())] *)
Definition given_item_id (item_id : option str) (b : ThreadHistoryBuilder) : str * ThreadHistoryBuilder :=
  match item_id with Some id => (id, b) | None => next_item_id b end.

Definition handle_entered_review_mode (new_id : str) (user_facing_hint turn_id item_id : option str)
    (b : ThreadHistoryBuilder) : option ThreadHistoryBuilder :=
  let review := default (lit "Review requested.") user_facing_hint in
  let '(id, b) := given_item_id item_id b in
  upsert_review_mode_item new_id turn_id (TEnteredReviewMode id review) b.

Definition handle_exited_review_mode (new_id : str) (turn_id item_id : option str) (review_output : option ReviewOutputEvent)
    (b : ThreadHistoryBuilder) : option ThreadHistoryBuilder :=
  let review := review_output_text review_output in
  let '(id, b) := given_item_id item_id b in
  upsert_review_mode_item new_id turn_id (TExitedReviewMode id review) b.

Definition with_status (status : TurnStatus) (error : option TurnError) (t : PendingTurn) : PendingTurn :=
  mkPending (pt_id t) (pt_items t) (pt_item_index t) error status (pt_started_at t) (pt_completed_at t) (pt_duration_ms t)
    (pt_opened_explicitly t) (pt_saw_compaction t) (pt_rollout_start_index t).

Definition with_end (completed_at duration_ms : option Z) (t : PendingTurn) : PendingTurn :=
  mkPending (pt_id t) (pt_items t) (pt_item_index t) (pt_error t) (pt_status t) (pt_started_at t) completed_at duration_ms
    (pt_opened_explicitly t) (pt_saw_compaction t) (pt_rollout_start_index t).

Definition handle_error (payload : ErrorEvent) (b : ThreadHistoryBuilder) : ThreadHistoryBuilder :=
  if negb (affects_turn_status payload) then b
  else
    match current_turn b with
    | Some t =>
        let t := with_status TurnFailed (Some (turn_error payload)) t in
        record_changed_turn (from_pending_turn t) (set_current (Some t) b)
    | None => b
    end.

Definition apply_abort (payload : TurnAbortedEvent) (t : PendingTurn) : PendingTurn :=
  with_end (ab_completed_at payload) (ab_duration_ms payload) (with_status TurnInterrupted (pt_error t) t).

Definition handle_turn_aborted (payload : TurnAbortedEvent) (b : ThreadHistoryBuilder) : ThreadHistoryBuilder :=
  let abort_current (t : PendingTurn) :=
    let t := apply_abort payload t in record_changed_turn (from_pending_turn t) (set_current (Some t) b) in
  let fallback := match current_turn b with Some t => abort_current t | None => b end in
  match ab_turn_id payload with
  | Some turn_id =>
      match is_current turn_id b with
      | Some t => abort_current t
      | None =>
          match update_turn turn_id (fun t => Some (apply_abort payload t)) (turns b) with
          | Some (Some (ts, t)) => record_changed_turn (from_pending_turn t) (set_turns ts b)
          | _ => fallback
          end
      end
  | None => fallback
  end.

Definition handle_turn_started (new_id turn_id : str) (started_at : option Z) (b : ThreadHistoryBuilder) : ThreadHistoryBuilder :=
  let b := finish_current_turn b in
  let t := new_turn new_id (Some turn_id) b in
  let t := mkPending (pt_id t) (pt_items t) (pt_item_index t) (pt_error t) TurnInProgress started_at (pt_completed_at t)
             (pt_duration_ms t) true (pt_saw_compaction t) (pt_rollout_start_index t) in
  set_current (Some t) (record_changed_pending_turn t b).

Definition apply_completion (payload : TurnCompleteEvent) (t : PendingTurn) : PendingTurn :=
  let t :=
    match turn_error <$> cp_error payload with
    | Some error => with_status TurnFailed (Some error) t
    | None =>
        match pt_status t with
        | TurnCompleted | TurnInProgress => with_status TurnCompleted (pt_error t) t
        | _ => t
        end
    end in
  with_end (cp_completed_at payload) (cp_duration_ms payload) t.

Definition handle_turn_complete (payload : TurnCompleteEvent) (b : ThreadHistoryBuilder) : ThreadHistoryBuilder :=
  let complete_current (t : PendingTurn) :=
    let t := apply_completion payload t in
    finish_current_turn (record_changed_turn (from_pending_turn t) (set_current (Some t) b)) in
  match is_current (cp_turn_id payload) b with
  | Some t => complete_current t
  | None =>
      match update_turn (cp_turn_id payload) (fun t => Some (apply_completion payload t)) (turns b) with
      | Some (Some (ts, t)) => record_changed_turn (from_pending_turn t) (set_turns ts b)
      | _ => match current_turn b with Some t => complete_current t | None => b end
      end
  end.

Definition handle_compacted (new_id : str) (b : ThreadHistoryBuilder) : ThreadHistoryBuilder :=
  let '(t, b) := ensure_turn new_id b in
  set_current (Some (mkPending (pt_id t) (pt_items t) (pt_item_index t) (pt_error t) (pt_status t) (pt_started_at t)
    (pt_completed_at t) (pt_duration_ms t) (pt_opened_explicitly t) true (pt_rollout_start_index t))) b.

Definition handle_thread_rollback (num_turns : N) (b : ThreadHistoryBuilder) : ThreadHistoryBuilder :=
  let b := finish_current_turn b in
  let n := N.to_nat num_turns in
  let len := length (turns b) in
  let removed_turn_ids :=
    if len <=? n then map pt_id (turns b)
    else if n =? 0 then []
    else map pt_id (drop (len - n) (turns b)) in
  let b := record_removed_turn_ids removed_turn_ids b in
  let b := set_turns (if len <=? n then [] else take (len - n) (turns b)) b in
  let item_count := sum_list (map (fun t => length (pt_items t)) (turns b)) in
  set_next_item_index (Z.min (Z.of_nat item_count + 1) i64_max) b.

(** ** Dispatch *)

Definition handle_event (new_id : str) (e : EventMsg) (b : ThreadHistoryBuilder) : option ThreadHistoryBuilder :=
  match e with
  | EvUserMessage payload => Some (handle_user_message new_id payload b)
  | EvAgentMessage message phase citation delivery => Some (handle_agent_message new_id message phase citation delivery b)
  | EvAgentReasoning text => Some (handle_agent_reasoning new_id text b)
  | EvAgentReasoningRawContent text => Some (handle_agent_reasoning_raw_content new_id text b)
  | EvWebSearchBegin call_id => handle_web_search_begin new_id call_id b
  | EvWebSearchEnd call_id query action results => handle_web_search_end new_id call_id query action results b
  | EvExecCommandBegin payload => handle_exec_command_begin payload b
  | EvExecCommandEnd payload => handle_exec_command_end payload b
  | EvGuardianAssessment payload => handle_guardian_assessment new_id payload b
  | EvApplyPatchApprovalRequest call_id turn_id changes => handle_apply_patch_approval_request new_id call_id turn_id changes b
  | EvPatchApplyBegin call_id turn_id changes => handle_patch_apply_begin new_id call_id turn_id changes b
  | EvPatchApplyEnd call_id turn_id changes status => handle_patch_apply_end new_id call_id turn_id changes status b
  | EvDynamicToolCallRequest payload => handle_dynamic_tool_call_request new_id payload b
  | EvDynamicToolCallResponse payload => handle_dynamic_tool_call_response new_id payload b
  | EvMcpToolCallBegin payload => handle_mcp_tool_call_begin new_id payload b
  | EvMcpToolCallEnd payload => handle_mcp_tool_call_end new_id payload b
  | EvViewImageToolCall call_id path => handle_view_image_tool_call new_id call_id path b
  | EvImageGenerationBegin call_id => handle_image_generation_begin new_id call_id b
  | EvImageGenerationEnd call_id status revised_prompt result transparent failure saved_path =>
      handle_image_generation_end new_id call_id status revised_prompt result transparent failure saved_path b
  | EvSubAgentActivity event_id kind agent_thread_id agent_path => handle_sub_agent_activity new_id event_id kind agent_thread_id agent_path b
  | EvContextCompacted => Some (handle_context_compacted new_id b)
  | EvEnteredReviewMode hint turn_id item_id => handle_entered_review_mode new_id hint turn_id item_id b
  | EvExitedReviewMode turn_id item_id output => handle_exited_review_mode new_id turn_id item_id output b
  | EvItemStarted turn_id i => handle_materialized_item_lifecycle new_id turn_id i b
  | EvItemCompleted turn_id i _ _ => handle_materialized_item_lifecycle new_id turn_id i b
  | EvError payload => Some (handle_error payload b)
  | EvThreadRolledBack num_turns => Some (handle_thread_rollback num_turns b)
  | EvTurnAborted payload => Some (handle_turn_aborted payload b)
  | EvTurnStarted turn_id started_at => Some (handle_turn_started new_id turn_id started_at b)
  | EvTurnComplete payload => Some (handle_turn_complete payload b)
  | EvOther => Some b
  | _ =>
      match collab_item e with
      | Some i => upsert_item_in_current_turn new_id i b
      | None => Some b
      end
  end.

Definition handle_rollout_item (new_id : str) (i : HistoryItem) (b : ThreadHistoryBuilder) : option ThreadHistoryBuilder :=
  let b := mkBuilder (turns b) (current_turn b) (next_item_index b) (next_rollout_index b) (S (next_rollout_index b))
             (active_change_set b) in
  match i with
  | HEvent e => handle_event new_id e b
  | HCompacted => Some (handle_compacted new_id b)
  | HResponseItem i => Some (handle_response_item new_id i b)
  | HOther => Some b
  end.

(** Each rollout item with the fresh identifier drawn for it. *)
Fixpoint handle_rollout_items (items : list (str * HistoryItem)) (b : ThreadHistoryBuilder) : option ThreadHistoryBuilder :=
  match items with
  | [] => Some b
  | (new_id, i) :: items => b ← handle_rollout_item new_id i b; handle_rollout_items items b
  end.

Definition build_turns_from_rollout_items (items : list (str * HistoryItem)) : option (list Turn) :=
  builder_finish <$> handle_rollout_items items builder_new.

(** ** Tracking changes *)

Definition collect_changes (handle : ThreadHistoryBuilder -> option ThreadHistoryBuilder) (b : ThreadHistoryBuilder)
    : option (ThreadHistoryChangeSet * ThreadHistoryBuilder) :=
  b ← handle (set_change_set (Some change_set_default) b);
  Some (default change_set_default (active_change_set b), set_change_set None b).

Definition handle_event_with_changes (new_id : str) (e : EventMsg) (b : ThreadHistoryBuilder)
    : option (ThreadHistoryChangeSet * ThreadHistoryBuilder) := collect_changes (handle_event new_id e) b.

Definition handle_rollout_item_with_changes (new_id : str) (i : HistoryItem) (b : ThreadHistoryBuilder)
    : option (ThreadHistoryChangeSet * ThreadHistoryBuilder) := collect_changes (handle_rollout_item new_id i) b.

Record ThreadHistoryChangeAccumulator := mkAccumulator {
  acc_changed_items : list (option ThreadHistoryItemChange);
  acc_item_indexes : gmap (str * str) nat;
  acc_changed_turns : list (option ThreadHistoryTurnChange);
  acc_turn_indexes : gmap str nat;
  acc_removed_turn_ids : list str;
  acc_removed_indexes : gmap str nat }.

Definition accumulator_default : ThreadHistoryChangeAccumulator := mkAccumulator [] ∅ [] ∅ [] ∅.

(** [vec[index] = value], which panics out of bounds. *)
Definition vec_set {A} (index : nat) (value : A) (l : list A) : option (list A) :=
  if index <? length l then Some (<[index := value]> l) else None.

Definition push_item_change (change : ThreadHistoryItemChange) (a : ThreadHistoryChangeAccumulator)
    : option ThreadHistoryChangeAccumulator :=
  let key := (ic_turn_id change, item_id (ic_item change)) in
  match acc_item_indexes a !! key with
  | Some index =>
      items ← vec_set index (Some change) (acc_changed_items a);
      Some (mkAccumulator items (acc_item_indexes a) (acc_changed_turns a) (acc_turn_indexes a) (acc_removed_turn_ids a)
              (acc_removed_indexes a))
  | None =>
      Some (mkAccumulator (acc_changed_items a ++ [Some change]) (<[key := length (acc_changed_items a)]> (acc_item_indexes a))
              (acc_changed_turns a) (acc_turn_indexes a) (acc_removed_turn_ids a) (acc_removed_indexes a))
  end.

Definition push_turn_change (change : ThreadHistoryTurnChange) (a : ThreadHistoryChangeAccumulator)
    : option ThreadHistoryChangeAccumulator :=
  match acc_turn_indexes a !! tc_turn_id change with
  | Some index =>
      ts ← vec_set index (Some change) (acc_changed_turns a);
      Some (mkAccumulator (acc_changed_items a) (acc_item_indexes a) ts (acc_turn_indexes a) (acc_removed_turn_ids a)
              (acc_removed_indexes a))
  | None =>
      Some (mkAccumulator (acc_changed_items a) (acc_item_indexes a) (acc_changed_turns a ++ [Some change])
              (<[tc_turn_id change := length (acc_changed_turns a)]> (acc_turn_indexes a)) (acc_removed_turn_ids a)
              (acc_removed_indexes a))
  end.

Definition remove_item_key (a : option ThreadHistoryChangeAccumulator) (key : str * str) : option ThreadHistoryChangeAccumulator :=
  a ← a;
  match acc_item_indexes a !! key with
  | Some index =>
      items ← vec_set index None (acc_changed_items a);
      Some (mkAccumulator items (delete key (acc_item_indexes a)) (acc_changed_turns a) (acc_turn_indexes a)
              (acc_removed_turn_ids a) (acc_removed_indexes a))
  | None => Some a
  end.

Definition push_removed_turn_id (turn_id : str) (a : ThreadHistoryChangeAccumulator) : option ThreadHistoryChangeAccumulator :=
  let a :=
    match acc_removed_indexes a !! turn_id with
    | Some _ => a
    | None =>
        mkAccumulator (acc_changed_items a) (acc_item_indexes a) (acc_changed_turns a) (acc_turn_indexes a)
          (acc_removed_turn_ids a ++ [turn_id]) (<[turn_id := length (acc_removed_turn_ids a)]> (acc_removed_indexes a))
    end in
  a ← (match acc_turn_indexes a !! turn_id with
       | Some index =>
           ts ← vec_set index None (acc_changed_turns a);
           Some (mkAccumulator (acc_changed_items a) (acc_item_indexes a) ts (delete turn_id (acc_turn_indexes a))
                   (acc_removed_turn_ids a) (acc_removed_indexes a))
       | None => Some a
       end);
  let removed_item_keys := List.filter (fun key => str_eqb (fst key) turn_id) (map_to_list (acc_item_indexes a)).*1 in
  fold_left remove_item_key removed_item_keys (Some a).

Definition fold_opt {A B} (f : B -> A -> option A) (l : list B) (a : A) : option A :=
  fold_left (fun a x => a ← a; f x a) l (Some a).

Definition accumulator_push (changes : ThreadHistoryChangeSet) (a : ThreadHistoryChangeAccumulator)
    : option ThreadHistoryChangeAccumulator :=
  a ← fold_opt push_removed_turn_id (removed_turn_ids changes) a;
  a ← fold_opt push_item_change (changed_items changes) a;
  fold_opt push_turn_change (changed_turns changes) a.

Definition accumulator_finish (a : ThreadHistoryChangeAccumulator) : ThreadHistoryChangeSet :=
  mkChangeSet (omap id (acc_changed_items a)) (omap id (acc_changed_turns a)) (acc_removed_turn_ids a).

Fixpoint accumulate_changes (items : list (str * HistoryItem)) (a : ThreadHistoryChangeAccumulator) (b : ThreadHistoryBuilder)
    : option (ThreadHistoryChangeAccumulator * ThreadHistoryBuilder) :=
  match items with
  | [] => Some (a, b)
  | (new_id, i) :: items =>
      '(changes, b) ← handle_rollout_item_with_changes new_id i b;
      a ← accumulator_push changes a;
      accumulate_changes items a b
  end.

Definition handle_rollout_items_with_changes (items : list (str * HistoryItem)) (b : ThreadHistoryBuilder)
    : option (ThreadHistoryChangeSet * ThreadHistoryBuilder) :=
  '(a, b) ← accumulate_changes items accumulator_default b;
  Some (accumulator_finish a, b).

(** ** Truncation by turn id *)

Definition is_turn_started (turn_id : str) (i : HistoryItem) : bool :=
  match i with HEvent (EvTurnStarted id _) => str_eqb id turn_id | _ => false end.

Definition is_any_turn_started (i : HistoryItem) : bool := match i with HEvent (EvTurnStarted _ _) => true | _ => false end.

Definition is_rollback (i : HistoryItem) : bool := match i with HEvent (EvThreadRolledBack _) => true | _ => false end.

(** [iter().position(..)] *)
Fixpoint find_position {A} (f : A -> bool) (l : list A) : option nat :=
  match l with
  | [] => None
  | x :: l => if f x then Some 0 else S <$> find_position f l
  end.

Definition not_found (argument turn_id : str) : str :=
  argument ++ lit " '" ++ turn_id ++ lit "' was not found in the source thread".
Definition not_canonical (argument turn_id : str) : str :=
  argument ++ lit " '" ++ turn_id ++ lit "' is not a persisted canonical turn in the source thread".

Definition truncate_rollout_after_turn_id (items : list (str * HistoryItem)) (last_turn_id : str)
    : option (result (list (str * HistoryItem)) str) :=
  turns ← build_turns_from_rollout_items items;
  Some (
    match List.find (fun t => str_eqb (t_id t) last_turn_id) turns with
    | None => Err (not_found (lit "lastTurnId") last_turn_id)
    | Some turn =>
        match find_position (fun i => is_turn_started last_turn_id (snd i)) items with
        | None => Err (not_canonical (lit "lastTurnId") last_turn_id)
        | Some target_start_index =>
            if bool_decide (t_status turn = TurnInProgress)
            then Err (lit "lastTurnId '" ++ last_turn_id ++ lit "' identifies an in-progress turn")
            else
              let cut_index :=
                match find_position (fun i => is_any_turn_started (snd i)) (drop (S target_start_index) items) with
                | Some index => S target_start_index + index
                | None => length items
                end in
              Ok (take cut_index items)
        end
    end).

Definition truncate_rollout_before_turn_id (items : list (str * HistoryItem)) (before_turn_id : str)
    : option (result (list (str * HistoryItem)) str) :=
  turns ← build_turns_from_rollout_items items;
  let listed := existsb (fun t => str_eqb (t_id t) before_turn_id) turns in
  Some (
    match find_position (fun i => is_turn_started before_turn_id (snd i)) items with
    | None =>
        if listed then Err (not_canonical (lit "beforeTurnId") before_turn_id)
        else Err (not_found (lit "beforeTurnId") before_turn_id)
    | Some cut_index =>
        if existsb (fun i => is_rollback (snd i)) (drop (S cut_index) items) && negb listed
        then Err (not_found (lit "beforeTurnId") before_turn_id)
        else Ok (take cut_index items)
    end).

End history.
