(* ===== verification/ThreadTurns.v ===== *)
(** * Correctness of the thread history builder

    The index of a turn answers as a search of its items does; every handler
    of [ThreadHistoryBuilder] is a sequence of a few moves, whose changes it
    reports whether or not somebody listens; and no handler panics. *)

From S2P Require Import Prelude RustStr Truncate OutputTruncation ResponseItem ContextFragments EventMapping ThreadItems ThreadHistory.

Section turns.
Context {json : SerdeJson} {parsers : FragmentParsers} {lib : ThreadLib}.
Implicit Types (i : ThreadItem) (items : list ThreadItem) (t : PendingTurn) (b : ThreadHistoryBuilder).

(** ** The index of a turn *)

(** What the index stands for: the first item with the id is replaced. *)
Definition linear_upsert i items : list ThreadItem :=
  match position (item_id i) items with Some n => <[n := i]> items | None => items ++ [i] end.

Definition index_ok (index : TurnItemIndex) items : Prop :=
  forall m, positions index = Some m -> forall id, m !! id = position id items.

Inductive ItemOp := PushItem (i : ThreadItem) | UpsertItem (i : ThreadItem).

Fixpoint run_indexed (ops : list ItemOp) (s : TurnItemIndex * list ThreadItem) : option (TurnItemIndex * list ThreadItem) :=
  match ops with
  | [] => Some s
  | PushItem i :: ops => run_indexed ops (index_push (fst s) (snd s) i)
  | UpsertItem i :: ops => s ← index_upsert (fst s) (snd s) i; run_indexed ops s
  end.

Fixpoint run_linear (ops : list ItemOp) items : list ThreadItem :=
  match ops with
  | [] => items
  | PushItem i :: ops => run_linear ops (items ++ [i])
  | UpsertItem i :: ops => run_linear ops (linear_upsert i items)
  end.

Lemma or_insert_lookup (k : str) (v : nat) (m : gmap str nat) (id : str) :
  or_insert k v m !! id = match m !! id with Some x => Some x | None => if str_eqb k id then Some v else None end.
Proof.
  unfold or_insert. destruct (str_eqb k id) eqn:E.
  - apply str_eqb_eq in E as ->. destruct (m !! id) eqn:F; [by rewrite F | by rewrite lookup_insert_eq].
  - apply str_eqb_neq in E. destruct (m !! k); [by destruct (m !! id) |].
    rewrite lookup_insert_ne by done. by destruct (m !! id).
Qed.

Lemma index_positions_from (k : nat) items (m : gmap str nat) (id : str) :
  fold_left (fun m '(index, existing) => or_insert (item_id existing) index m) (zip (seq k (length items)) items) m !! id
  = match m !! id with Some x => Some x | None => (fun n => k + n) <$> position id items end.
Proof.
  revert k m. induction items as [|i items IH]; intros k m; simpl; [by destruct (m !! id) |].
  rewrite IH, or_insert_lookup. destruct (m !! id); [done|].
  destruct (str_eqb (item_id i) id); simpl; [f_equal; lia |].
  destruct (position id items); simpl; [f_equal; lia | done].
Qed.

Lemma index_positions_lookup items (id : str) : index_positions items !! id = position id items.
Proof. unfold index_positions. rewrite index_positions_from, lookup_empty. by destruct (position id items). Qed.

Lemma position_snoc id items i :
  position id (items ++ [i])
  = match position id items with Some n => Some n | None => if str_eqb (item_id i) id then Some (length items) else None end.
Proof.
  induction items as [|x items IH]; simpl; [by destruct (str_eqb _ _) |].
  destruct (str_eqb (item_id x) id); [done|]. rewrite IH.
  destruct (position id items); [done|]. by destruct (str_eqb (item_id i) id).
Qed.

Lemma position_lookup id items n : position id items = Some n -> exists i, items !! n = Some i /\ item_id i = id.
Proof.
  revert n. induction items as [|x items IH]; intros n H; simplify_eq/=.
  destruct (str_eqb (item_id x) id) eqn:E; simplify_eq; [apply str_eqb_eq in E; eauto |].
  destruct (position id items) as [m|]; simplify_eq/=. by destruct (IH m eq_refl) as (i & ? & ?); exists i.
Qed.

Lemma position_none id items : position id items = None <-> id ∉ map item_id items.
Proof.
  induction items as [|x items IH]; simpl; [set_solver|].
  destruct (str_eqb (item_id x) id) eqn:E; [apply str_eqb_eq in E; set_solver |].
  apply str_eqb_neq in E. rewrite not_elem_of_cons, <- IH. destruct (position id items); naive_solver.
Qed.

Lemma position_insert id items n old i :
  items !! n = Some old -> item_id i = item_id old -> position id (<[n := i]> items) = position id items.
Proof.
  revert n. induction items as [|x items IH]; intros [|n] H E; simplify_eq/=; [by rewrite E |].
  by rewrite IH.
Qed.

Lemma index_push_ok index items i : index_ok index items -> index_ok (fst (index_push index items i)) (items ++ [i]).
Proof.
  intros Ok m H id. unfold index_push in H; simpl in H.
  destruct (positions index) as [p|] eqn:E; simplify_eq/=.
  by rewrite or_insert_lookup, (Ok p E), position_snoc.
Qed.

Lemma index_upsert_ok index items i :
  index_ok index items ->
  exists index', index_upsert index items i = Some (index', linear_upsert i items) /\ index_ok index' (linear_upsert i items).
Proof.
  intros Ok. unfold index_upsert, linear_upsert.
  set (index0 := match positions index with None => _ | Some _ => _ end).
  assert (Ok0 : index_ok index0 items).
  { unfold index0. destruct (positions index) eqn:E; [done|]. case_match; [|done].
    intros m Hm id; simplify_eq/=. apply index_positions_lookup. }
  assert (E : match positions index0 with Some p => p !! item_id i | None => position (item_id i) items end
              = position (item_id i) items).
  { destruct (positions index0) eqn:E; [by apply Ok0 | done]. }
  rewrite E. destruct (position (item_id i) items) as [n|] eqn:P.
  - destruct (position_lookup _ _ _ P) as (old & L & I). apply lookup_lt_Some in L as Lt.
    destruct (Nat.ltb_spec n (length items)); [|lia].
    exists index0; split; [done|]. intros m Hm id. rewrite (position_insert _ _ _ old) by done. by apply Ok0.
  - eexists; split; [unfold index_push; reflexivity |]. by apply (index_push_ok index0 items i Ok0).
Qed.

Lemma index_default_ok items : index_ok index_default items.
Proof. intros m H; discriminate H. Qed.

Lemma run_indexed_ok ops index items :
  index_ok index items -> exists index', run_indexed ops (index, items) = Some (index', run_linear ops items).
Proof.
  revert index items. induction ops as [|[i|i] ops IH]; intros index items Ok; simpl; [by eexists | |].
  - apply IH. by apply (index_push_ok index items i).
  - destruct (index_upsert_ok index items i Ok) as (index' & -> & Ok'). simpl. by apply IH.
Qed.

(** C22: any sequence of pushes and upserts on the items of a turn through its
    lazily built index gives the items that searching the list from its start
    would give (an upsert replaces the first item with that id, in its place,
    or appends), also for repeated ids and across the threshold at which the
    index is built, and never indexes out of bounds. *)
Theorem indexed_items_are_searched ops :
  exists index, run_indexed ops (index_default, []) = Some (index, run_linear ops []).
Proof. apply run_indexed_ok, index_default_ok. Qed.

(** ** Moves *)

(** What a handler reports about the turns. *)
Inductive Emission := EmitTurn (change : ThreadHistoryTurnChange) | EmitItem (turn_id : str) (i : ThreadItem).

Definition emit (e : Emission) (c : ThreadHistoryChangeSet) : ThreadHistoryChangeSet :=
  match e with
  | EmitTurn change => mkChangeSet (changed_items c) (changed_turns c ++ [change]) (removed_turn_ids c)
  | EmitItem id i => mkChangeSet (changed_items c ++ [mkItemChange id i None None]) (changed_turns c) (removed_turn_ids c)
  end.

Definition emitted (es : list Emission) (c : ThreadHistoryChangeSet) : ThreadHistoryChangeSet :=
  fold_left (fun c e => emit e c) es c.

(** A handler reports a turn before its items, and few of them. *)
Definition well_ordered (es : list Emission) : Prop :=
  match es with [] | [EmitTurn _] | [EmitItem _ _] | [EmitTurn _; EmitItem _ _] => True | _ => False end.

Definition all_turns b : list PendingTurn := turns b ++ option_list (current_turn b).

(** The condition of [finish_current_turn]. *)
Definition keep t : bool := negb (is_nil (pt_items t) && negb (pt_opened_explicitly t) && negb (pt_saw_compaction t)).
Definition kept b : Prop := match current_turn b with Some t => keep t = true | None => True end.
Definition indexed t : Prop := index_ok (pt_item_index t) (pt_items t).

Definition builder_ok b : Prop := Forall indexed (all_turns b) /\ kept b.

Definition same_content t t' : Prop :=
  pt_id t' = pt_id t /\ pt_items t' = pt_items t /\ pt_item_index t' = pt_item_index t.

(** The steps of the handlers on all turns, the current one last. *)
Inductive moves : list PendingTurn -> list Emission -> list PendingTurn -> Prop :=
| moves_none l : moves l [] l
| moves_open l t :
    pt_items t = [] -> pt_item_index t = index_default -> moves l [EmitTurn (from_pending_turn t)] (l ++ [t])
| moves_push l1 t l2 i :
    moves (l1 ++ t :: l2) [EmitItem (pt_id t) i]
      (l1 ++ with_items t (fst (index_push (pt_item_index t) (pt_items t) i)) (pt_items t ++ [i]) :: l2)
| moves_upsert l1 t t' l2 i :
    turn_upsert t i = Some t' -> moves (l1 ++ t :: l2) [EmitItem (pt_id t) i] (l1 ++ t' :: l2)
| moves_extend l1 t l2 old i :
    last (pt_items t) = Some old -> item_id i = item_id old ->
    moves (l1 ++ t :: l2) [EmitItem (pt_id t) i] (l1 ++ with_last_item t i :: l2)
| moves_status l1 t t' l2 :
    same_content t t' -> moves (l1 ++ t :: l2) [EmitTurn (from_pending_turn t')] (l1 ++ t' :: l2)
| moves_mark l1 t t' l2 :
    same_content t t' -> turn_of t' = turn_of t -> moves (l1 ++ t :: l2) [] (l1 ++ t' :: l2)
| moves_trans l l' l'' es es' : moves l es l' -> moves l' es' l'' -> moves l (es ++ es') l''.

(** A handler that can run on [b] makes some moves and leaves a builder in
    order; tracking adds what they emit, and has no other effect. *)
Definition reports (f : ThreadHistoryBuilder -> option ThreadHistoryBuilder) b : Prop :=
  exists es b', moves (all_turns b) es (all_turns b') /\ well_ordered es /\ kept b' /\
  forall c, f (set_change_set c b) = Some (set_change_set (emitted es <$> c) b').

Lemma last_split {A} (l : list A) x : last l = Some x -> l = take (length l - 1) l ++ [x].
Proof.
  induction l as [|y l _] using rev_ind; [done|]. rewrite last_snoc, length_app. intros; simplify_eq/=.
  replace (length l + 1 - 1) with (length l) by lia. by rewrite take_app_length.
Qed.

Lemma extended_items t old i :
  last (pt_items t) = Some old -> pt_items (with_last_item t i) = <[length (pt_items t) - 1 := i]> (pt_items t).
Proof.
  intros H. apply last_split in H. unfold with_last_item; simpl.
  set (n := length (pt_items t) - 1) in *. rewrite H at 2.
  assert (L : length (take n (pt_items t)) = n) by (rewrite length_take; subst n; lia).
  rewrite <- L at 2. by rewrite insert_app_r_alt, Nat.sub_diag by lia.
Qed.

Lemma with_last_item_indexed t old i :
  last (pt_items t) = Some old -> item_id i = item_id old -> indexed t -> indexed (with_last_item t i).
Proof.
  intros H I Ok m Hm id. rewrite (extended_items t old i H).
  rewrite (position_insert _ _ _ old); [by apply Ok | | done].
  rewrite <- H. rewrite last_lookup. f_equal. lia.
Qed.

Lemma turn_upsert_linear t i :
  indexed t -> exists index, turn_upsert t i = Some (with_items t index (linear_upsert i (pt_items t)))
                             /\ index_ok index (linear_upsert i (pt_items t)).
Proof.
  intros Ok. destruct (index_upsert_ok _ _ i Ok) as (index & E & Ok').
  exists index. split; [|done]. unfold turn_upsert. by rewrite E.
Qed.

Lemma moves_indexed l es l' : moves l es l' -> Forall indexed l -> Forall indexed l'.
Proof.
  induction 1 as [| l t I X | | l1 t t' l2 i U | l1 t l2 old i L I | l1 t t' l2 S | l1 t t' l2 S |]; intros F; auto;
    rewrite ?Forall_app, ?Forall_cons in *; destruct_and?; split_and?; auto.
  - unfold indexed. rewrite X. apply index_default_ok.
  - by apply (index_push_ok _ _ i).
  - destruct (turn_upsert_linear t i ltac:(done)) as (index & E & Ok). by simplify_eq.
  - by apply (with_last_item_indexed t old i).
  - destruct S as (_ & E1 & E2). unfold indexed. by rewrite E1, E2.
  - destruct S as (_ & E1 & E2). unfold indexed. by rewrite E1, E2.
Qed.

(** ** Handlers as moves *)

Lemma emitted_app es es' c : emitted (es ++ es') c = emitted es' (emitted es c).
Proof. apply fold_left_app. Qed.

Lemma emitted_nil (c : option ThreadHistoryChangeSet) : emitted [] <$> c = c.
Proof. by destruct c. Qed.

Lemma emitted_fmap es es' (c : option ThreadHistoryChangeSet) : emitted es' <$> (emitted es <$> c) = emitted (es ++ es') <$> c.
Proof. destruct c; simpl; [by rewrite emitted_app | done]. Qed.

Lemma all_turns_current b t : current_turn b = Some t -> all_turns b = turns b ++ [t].
Proof. intros H. unfold all_turns. by rewrite H. Qed.

Lemma keep_nonempty t : pt_items t <> [] -> keep t = true.
Proof. intros H. unfold keep. by destruct (pt_items t). Qed.

Lemma all_turns_finish b : kept b -> all_turns (finish_current_turn b) = all_turns b.
Proof.
  unfold kept, all_turns, finish_current_turn, keep. destruct (current_turn b) as [t|] eqn:E; simpl; [|by rewrite E].
  intros K. apply negb_true_iff in K. rewrite K. simpl. by rewrite app_nil_r.
Qed.

Lemma finish_tracked c b : finish_current_turn (set_change_set c b) = set_change_set c (finish_current_turn b).
Proof. unfold finish_current_turn. destruct b as [ts [t|] n k m a]; simpl; [by case_match | done]. Qed.

Lemma finish_current b : current_turn (finish_current_turn b) = None.
Proof. unfold finish_current_turn. destruct b as [ts [t|] n k m a]; simpl; [by case_match | done]. Qed.

Lemma kept_finish b : kept (finish_current_turn b).
Proof. unfold kept. by rewrite finish_current. Qed.

(** Handlers may prepare the builder without touching the turns. *)
Lemma reports_after (g : ThreadHistoryBuilder -> ThreadHistoryBuilder) f b :
  (forall c, g (set_change_set c b) = set_change_set c (g b)) -> all_turns (g b) = all_turns b ->
  reports f (g b) -> reports (fun b => f (g b)) b.
Proof.
  intros G E (es & b' & M & W & K & F). exists es, b'. rewrite <- E. split_and!; [done..|].
  intros c. by rewrite G.
Qed.

Lemma reports_ext f g b : (forall c, f (set_change_set c b) = g (set_change_set c b)) -> reports g b -> reports f b.
Proof. intros E (es & b' & M & W & K & F). exists es, b'. split_and!; [done..|]. intros c. by rewrite E. Qed.

Lemma reports_idle b : kept b -> reports Some b.
Proof.
  intros K. exists [], b. split_and!; [apply moves_none | done | done |]. intros c. by rewrite emitted_nil.
Qed.

Lemma ensure_turn_moves new_id b :
  exists t b1 es, moves (all_turns b) es (all_turns b1) /\ current_turn b1 = Some t /\ turns b1 = turns b /\
    (es = [] \/ exists change, es = [EmitTurn change]) /\
    forall c, ensure_turn new_id (set_change_set c b) = (t, set_change_set (emitted es <$> c) b1).
Proof.
  destruct (current_turn b) as [t|] eqn:E.
  - exists t, b, []. split_and!; [apply moves_none | done | done | by left |].
    intros c. unfold ensure_turn. simpl. rewrite E, emitted_nil. done.
  - set (t := new_turn new_id None b). exists t, (set_current (Some t) b), [EmitTurn (from_pending_turn t)].
    split_and!; [| done | done | by eauto |].
    + rewrite (all_turns_current (set_current (Some t) b) t) by done. unfold all_turns. rewrite E. simpl. rewrite app_nil_r.
      by apply moves_open.
    + intros c. unfold ensure_turn. simpl. rewrite E. by destruct c.
Qed.

Lemma record_item_tracked id i c b :
  record_changed_item id i (set_change_set c b) = set_change_set (emitted [EmitItem id i] <$> c) b.
Proof. by destruct c. Qed.

Lemma record_turn_tracked change c b :
  record_changed_turn change (set_change_set c b) = set_change_set (emitted [EmitTurn change] <$> c) b.
Proof. by destruct c. Qed.

Lemma set_current_tracked (o : option PendingTurn) c b : set_current o (set_change_set c b) = set_change_set c (set_current o b).
Proof. done. Qed.

Lemma set_turns_tracked ts c b : set_turns ts (set_change_set c b) = set_change_set c (set_turns ts b).
Proof. done. Qed.

(** After [ensure_turn], one item of the current turn changes. *)
Lemma reports_item new_id (put : PendingTurn -> option PendingTurn) i b :
  (forall t, indexed t -> exists t', put t = Some t' /\ pt_items t' <> [] /\ pt_id t' = pt_id t /\
     forall l, moves (l ++ [t]) [EmitItem (pt_id t) i] (l ++ [t'])) ->
  Forall indexed (all_turns b) ->
  reports (fun b => let '(t, b) := ensure_turn new_id b in
             t' ← put t; Some (record_changed_item (pt_id t') i (set_current (Some t') b))) b.
Proof.
  intros P Ok. destruct (ensure_turn_moves new_id b) as (t & b1 & es & M & C & T & S & F).
  pose proof (moves_indexed _ _ _ M Ok) as Ok1. rewrite (all_turns_current b1 t C) in Ok1.
  apply Forall_app in Ok1 as [_ [It _]%Forall_cons].
  destruct (P t It) as (t' & E & N & Id & M'). exists (es ++ [EmitItem (pt_id t) i]), (set_current (Some t') b1).
  split_and!.
  - eapply moves_trans; [exact M|]. rewrite (all_turns_current b1 t C), (all_turns_current (set_current (Some t') b1) t') by done. apply M'.
  - by destruct S as [-> | [? ->]].
  - by apply keep_nonempty.
  - intros c. rewrite F, E. simpl. rewrite set_current_tracked, record_item_tracked, emitted_fmap. by rewrite Id.
Qed.

Lemma reports_push new_id i b :
  Forall indexed (all_turns b) -> reports (fun b => Some (push_item_in_current_turn new_id i b)) b.
Proof.
  intros Ok. eapply reports_ext; [|apply (reports_item new_id
    (fun t => Some (with_items t (fst (index_push (pt_item_index t) (pt_items t) i)) (pt_items t ++ [i]))) i b); [|done]].
  - intros c. unfold push_item_in_current_turn. by destruct (ensure_turn _ _) as [t b1].
  - intros t _. eexists; split; [done|]. split_and!; [|done|].
    + simpl. by destruct (pt_items t).
    + intros l. apply moves_push.
Qed.

Lemma linear_upsert_nonempty i items : linear_upsert i items <> [].
Proof.
  unfold linear_upsert. case_match; [|by destruct items].
  intros E. apply (f_equal length) in E. rewrite length_insert in E. destruct items; simplify_eq/=.
Qed.

Lemma reports_upsert_current new_id i b :
  Forall indexed (all_turns b) -> reports (upsert_item_in_current_turn new_id i) b.
Proof.
  intros Ok. apply (reports_item new_id (fun t => turn_upsert t i) i b); [|done].
  intros t It. destruct (turn_upsert_linear t i It) as (index & E & _).
  eexists; split; [done|]. split_and!; [apply linear_upsert_nonempty | done |].
  intros l. by apply moves_upsert.
Qed.

Lemma update_turn_cases id f ts :
  (update_turn id f ts = None /\ Forall (fun t => pt_id t <> id) ts) \/
  exists l1 t l2, ts = l1 ++ t :: l2 /\ pt_id t = id /\ update_turn id f ts = Some (t' ← f t; Some (l1 ++ t' :: l2, t')).
Proof.
  induction ts as [|t ts IH]; simpl; [by left |].
  destruct (str_eqb (pt_id t) id) eqn:E.
  - apply str_eqb_eq in E. right. by exists [], t, ts.
  - apply str_eqb_neq in E. destruct IH as [[-> F] | (l1 & u & l2 & -> & I & ->)].
    + left. split; [done|]. by constructor.
    + right. exists (t :: l1), u, l2. split_and!; [done..|]. by destruct (f u).
Qed.

Lemma is_current_some id b t : is_current id b = Some t -> current_turn b = Some t /\ pt_id t = id.
Proof.
  unfold is_current. destruct (current_turn b) as [u|]; simpl; [|done]. case_match eqn:E; [|done].
  intros; simplify_eq. by apply str_eqb_eq in E.
Qed.

Lemma all_turns_set_turns ts b : all_turns (set_turns ts b) = ts ++ option_list (current_turn b).
Proof. done. Qed.

Lemma moves_cons_app l1 t t' l2 l3 es :
  (forall l l', moves (l ++ t :: l') es (l ++ t' :: l')) -> moves ((l1 ++ t :: l2) ++ l3) es ((l1 ++ t' :: l2) ++ l3).
Proof. intros M. rewrite <- !app_assoc. apply M. Qed.

Lemma reports_upsert_turn turn_id i b : builder_ok b -> reports (upsert_item_in_turn_id turn_id i) b.
Proof.
  intros [Ok K]. destruct (is_current turn_id b) as [t|] eqn:C.
  - apply is_current_some in C as C'. destruct C' as [Ct Id].
    assert (It : indexed t) by (rewrite (all_turns_current b t Ct) in Ok; by apply Forall_app in Ok as [_ [? _]%Forall_cons]).
    destruct (turn_upsert_linear t i It) as (index & E & _).
    eexists [EmitItem (pt_id t) i], (set_current (Some (with_items t index _)) b). split_and!; [| done | |].
    + rewrite (all_turns_current b t Ct). by apply moves_upsert.
    + apply keep_nonempty, linear_upsert_nonempty.
    + intros c. unfold upsert_item_in_turn_id.
      change (is_current turn_id (set_change_set c b)) with (is_current turn_id b). rewrite C, E. simpl.
      by rewrite set_current_tracked, record_item_tracked.
  - assert (N : forall c, is_current turn_id (set_change_set c b) = None) by done.
    destruct (update_turn_cases turn_id (fun t => turn_upsert t i) (turns b)) as [[U _] | (l1 & t & l2 & T & Id & U)].
    + eapply reports_ext; [|by apply reports_idle]. intros c. unfold upsert_item_in_turn_id. rewrite N. simpl. by rewrite U.
    + assert (It : indexed t).
      { unfold all_turns in Ok. rewrite T in Ok. rewrite !Forall_app, Forall_cons in Ok. tauto. }
      destruct (turn_upsert_linear t i It) as (index & E & _). rewrite E in U. simpl in U.
      eexists [EmitItem (pt_id t) i], (set_turns (l1 ++ with_items t index _ :: l2) b). split_and!; [| done | done |].
      * rewrite all_turns_set_turns. unfold all_turns. rewrite T. apply moves_cons_app. intros. by apply moves_upsert.
      * intros c. unfold upsert_item_in_turn_id. rewrite N. simpl. rewrite U. simpl.
        by rewrite set_turns_tracked, record_item_tracked.
Qed.

Lemma reports_event_turn new_id turn_id i b : builder_ok b -> reports (upsert_item_in_event_turn new_id turn_id i) b.
Proof.
  intros Ok. unfold upsert_item_in_event_turn. destruct (is_nil turn_id).
  - by apply reports_upsert_current, Ok.
  - by apply reports_upsert_turn.
Qed.

Lemma all_turns_next_item_id b : all_turns (snd (next_item_id b)) = all_turns b.
Proof. done. Qed.

(** A new item under a drawn id, after the builder is prepared by [g]. *)
Lemma reports_fresh_item (g : ThreadHistoryBuilder -> ThreadHistoryBuilder) new_id (item : str -> ThreadItem) b :
  (forall c, g (set_change_set c b) = set_change_set c (g b)) -> all_turns (g b) = all_turns b -> Forall indexed (all_turns b) ->
  reports (fun b => let '(id, b) := next_item_id (g b) in Some (push_item_in_current_turn new_id (item id) b)) b.
Proof.
  intros G E Ok. eapply reports_ext; [|apply (reports_after (fun b => snd (next_item_id (g b)))
    (fun b' => Some (push_item_in_current_turn new_id (item (fst (next_item_id (g b)))) b')))].
  - intros c. simpl. by rewrite G.
  - intros c. simpl. by rewrite G.
  - rewrite all_turns_next_item_id. done.
  - apply reports_push. by rewrite all_turns_next_item_id, E.
Qed.

Lemma reports_user_message new_id payload b :
  builder_ok b -> reports (fun b => Some (handle_user_message new_id payload b)) b.
Proof.
  intros [Ok K]. set (g := fun b => match current_turn b with
    | Some t => if negb (pt_opened_explicitly t) && negb (pt_saw_compaction t && is_nil (pt_items t))
                then finish_current_turn b else b
    | None => b end).
  apply (reports_fresh_item g new_id (fun id => TUserMessage id (ue_client_id payload) (build_user_inputs payload))); [| |done].
  - intros c. unfold g. simpl. destruct (current_turn b); [|done]. case_match; [apply finish_tracked | done].
  - unfold g. destruct (current_turn b); [|done]. case_match; [by apply all_turns_finish | done].
Qed.

Lemma reports_agent_message new_id message phase citation delivery b :
  builder_ok b -> reports (fun b => Some (handle_agent_message new_id message phase citation delivery b)) b.
Proof.
  intros [Ok K]. unfold handle_agent_message. destruct (is_nil message); [by apply reports_idle |].
  by apply (reports_fresh_item (fun b => b) new_id
    (fun id => TAgentMessage id message phase (memory_citation_of_core <$> citation) delivery)).
Qed.

Lemma reports_context_compacted new_id b :
  builder_ok b -> reports (fun b => Some (handle_context_compacted new_id b)) b.
Proof. intros [Ok K]. by apply (reports_fresh_item (fun b => b) new_id TContextCompaction). Qed.

Lemma reports_response_item new_id (i : ResponseItem) b : builder_ok b -> reports (fun b => Some (handle_response_item new_id i b)) b.
Proof.
  intros [Ok K]. unfold handle_response_item. destruct i; try by apply reports_idle.
  case_match; [by apply reports_idle |]. case_match; [by apply reports_push | by apply reports_idle].
Qed.

Lemma ensure_turn_again new_id b t : current_turn b = Some t -> ensure_turn new_id b = (t, b).
Proof. intros H. unfold ensure_turn. by rewrite H. Qed.

Lemma extended_nonempty t i : pt_items (with_last_item t i) <> [].
Proof. simpl. by destruct (take _ _). Qed.

Lemma reports_reasoning new_id extend b : builder_ok b -> reports (fun b => Some (add_reasoning new_id extend b)) b.
Proof.
  intros [Ok _]. destruct (ensure_turn_moves new_id b) as (t & b1 & es & M & C & T & S & F).
  pose proof (moves_indexed _ _ _ M Ok) as Ok1.
  destruct (match last (pt_items t) with Some (TReasoning _ _ _) => true | _ => false end) eqn:R.
  - destruct (last (pt_items t)) as [old|] eqn:L; [|done]. destruct old as [| | | | | id summary content | | | | | | | | | | | | |];
      try discriminate R.
    destruct (extend summary content) as [summary' content'] eqn:X. set (i := TReasoning id summary' content').
    exists (es ++ [EmitItem (pt_id t) i]), (set_current (Some (with_last_item t i)) b1). split_and!.
    + eapply moves_trans; [exact M|]. rewrite (all_turns_current b1 t C). by eapply moves_extend.
    + by destruct S as [-> | [? ->]].
    + apply keep_nonempty, extended_nonempty.
    + intros c. unfold add_reasoning. rewrite F, L, X. fold i. simpl.
      by rewrite set_current_tracked, record_item_tracked, emitted_fmap.
  - destruct (extend [] []) as [summary content] eqn:X.
    set (i := TReasoning (fst (next_item_id b1)) summary content).
    exists (es ++ [EmitItem (pt_id t) i]),
      (set_current (Some (with_items t (fst (index_push (pt_item_index t) (pt_items t) i)) (pt_items t ++ [i])))
         (snd (next_item_id b1))).
    split_and!.
    + eapply moves_trans; [exact M|]. rewrite (all_turns_current b1 t C). apply moves_push.
    + by destruct S as [-> | [? ->]].
    + unfold kept, keep; simpl. by destruct (pt_items t).
    + intros c. unfold add_reasoning. rewrite F. simpl. rewrite X.
      assert (A : forall c, push_item_in_current_turn new_id i (set_change_set c (snd (next_item_id b1)))
        = set_change_set (emitted [EmitItem (pt_id t) i] <$> c)
            (set_current (Some (with_items t (fst (index_push (pt_item_index t) (pt_items t) i)) (pt_items t ++ [i])))
               (snd (next_item_id b1)))).
      { intros c'. unfold push_item_in_current_turn. rewrite (ensure_turn_again new_id _ t) by done.
        simpl. by rewrite set_current_tracked, record_item_tracked. }
      rewrite <- emitted_fmap, <- A. by destruct (last (pt_items t)) as [[]|].
Qed.

(** A new turn after the current one is finished. *)
Lemma reports_open (fresh : ThreadHistoryBuilder -> PendingTurn) b :
  (forall c b, fresh (set_change_set c b) = fresh b) ->
  (forall b, pt_items (fresh b) = [] /\ pt_item_index (fresh b) = index_default) -> builder_ok b ->
  exists change b', moves (all_turns b) [EmitTurn change] (all_turns b') /\ current_turn b' = Some (fresh (finish_current_turn b)) /\
    forall c, (let b := finish_current_turn (set_change_set c b) in
               set_current (Some (fresh b)) (record_changed_pending_turn (fresh b) b))
              = set_change_set (emitted [EmitTurn change] <$> c) b'.
Proof.
  intros Fc Fi [_ K]. set (b1 := finish_current_turn b). destruct (Fi b1) as [Ei Ex].
  exists (from_pending_turn (fresh b1)), (set_current (Some (fresh b1)) b1). split_and!; [| done |].
  - rewrite <- (all_turns_finish b K). fold b1. rewrite (all_turns_current (set_current _ _) (fresh b1)) by done.
    unfold all_turns. subst b1. rewrite finish_current. simpl. rewrite app_nil_r. by apply moves_open.
  - intros c. simpl. rewrite finish_tracked. fold b1. rewrite Fc. unfold record_changed_pending_turn.
    by rewrite record_turn_tracked.
Qed.

Lemma reports_turn_started new_id turn_id started_at b :
  builder_ok b -> reports (fun b => Some (handle_turn_started new_id turn_id started_at b)) b.
Proof.
  intros Ok. set (fresh := fun b => let t := new_turn new_id (Some turn_id) b in
    mkPending (pt_id t) (pt_items t) (pt_item_index t) (pt_error t) TurnInProgress started_at (pt_completed_at t)
             (pt_duration_ms t) true (pt_saw_compaction t) (pt_rollout_start_index t)).
  destruct (reports_open fresh b) as (change & b' & M & C & F); [done..|].
  exists [EmitTurn change], b'. split_and!; [done | done | |].
  - unfold kept. by rewrite C.
  - intros c. f_equal. apply F.
Qed.

Lemma upsert_opened turn_id i b t :
  current_turn b = Some t -> pt_id t = turn_id -> indexed t ->
  exists t', pt_items t' <> [] /\ moves (turns b ++ [t]) [EmitItem turn_id i] (turns b ++ [t']) /\
    forall c, upsert_item_in_turn_id turn_id i (set_change_set c b)
              = Some (set_change_set (emitted [EmitItem turn_id i] <$> c) (set_current (Some t') b)).
Proof.
  intros C Id It. destruct (turn_upsert_linear t i It) as (index & E & _).
  eexists; split_and!; [| subst turn_id; apply moves_upsert, E |].
  - apply linear_upsert_nonempty.
  - intros c. unfold upsert_item_in_turn_id, is_current. simpl. rewrite C. simpl. rewrite Id, str_eqb_refl, E. simpl.
    by rewrite set_current_tracked, record_item_tracked, Id.
Qed.

Lemma reports_review_item new_id turn_id i b : builder_ok b -> reports (upsert_review_mode_item new_id turn_id i) b.
Proof.
  intros Ok. destruct turn_id as [id|]; [|by apply reports_upsert_current, Ok].
  destruct (negb (match is_current id b with Some _ => true | None => false end)
            && negb (existsb (fun t => str_eqb (pt_id t) id) (turns b))) eqn:N.
  - destruct (reports_open (fun b => new_turn new_id (Some id) b) b) as (change & b1 & M & C & F); [done..|].
    pose proof (moves_indexed _ _ _ M (proj1 Ok)) as Ok1. rewrite (all_turns_current b1 _ C) in Ok1.
    apply Forall_app in Ok1 as [_ [It _]%Forall_cons].
    destruct (upsert_opened id i b1 _ C eq_refl It) as (t' & Ne & M' & F').
    exists [EmitTurn change; EmitItem id i], (set_current (Some t') b1). split_and!; [| done | by apply keep_nonempty |].
    + apply (moves_trans _ (all_turns b1) _ [EmitTurn change] [EmitItem id i]); [done|].
      by rewrite (all_turns_current b1 _ C).
    + intros c. unfold upsert_review_mode_item.
      change (is_current id (set_change_set c b)) with (is_current id b). change (turns (set_change_set c b)) with (turns b).
      rewrite N. cbv zeta in F |- *. rewrite F, F', emitted_fmap. done.
  - eapply reports_ext; [|by apply (reports_upsert_turn id i)]. intros c. unfold upsert_review_mode_item.
    change (is_current id (set_change_set c b)) with (is_current id b). change (turns (set_change_set c b)) with (turns b).
    by rewrite N.
Qed.

Lemma reports_given_id (item_id : option str) (item : str -> ThreadItem) new_id turn_id b :
  builder_ok b ->
  reports (fun b => let '(id, b) := given_item_id item_id b in upsert_review_mode_item new_id turn_id (item id) b) b.
Proof.
  intros Ok. destruct item_id as [id|]; [by apply reports_review_item |].
  apply (reports_after (fun b => snd (next_item_id b))
    (upsert_review_mode_item new_id turn_id (item (fst (next_item_id b)))) b); [done..|].
  by apply reports_review_item.
Qed.

Lemma reports_materialized new_id turn_id (i : CoreTurnItem) b : builder_ok b -> reports (handle_materialized_item_lifecycle new_id turn_id i) b.
Proof.
  intros Ok. unfold handle_materialized_item_lifecycle.
  set (should := match i with CorePlan _ _ => _ | _ => _ end). set (review := match i with CoreEnteredReviewMode _ _ _ => _ | _ => _ end).
  destruct should; [|by apply reports_idle, Ok].
  destruct review; [by apply reports_review_item | by apply reports_upsert_turn].
Qed.

Lemma reports_guardian new_id payload b : builder_ok b -> reports (handle_guardian_assessment new_id payload) b.
Proof.
  intros Ok. unfold handle_guardian_assessment. case_match; [by apply reports_event_turn | by apply reports_idle, Ok].
Qed.

(** A change of a turn's metadata. *)
Definition restatus (f : PendingTurn -> PendingTurn) : Prop := forall t, same_content t (f t) /\ keep (f t) = keep t.

Lemma reports_status_current f b t :
  restatus f -> builder_ok b -> current_turn b = Some t ->
  reports (fun b => Some (record_changed_turn (from_pending_turn (f t)) (set_current (Some (f t)) b))) b.
Proof.
  intros S [_ K] C. exists [EmitTurn (from_pending_turn (f t))], (set_current (Some (f t)) b). split_and!; [| done | |].
  - rewrite (all_turns_current b t C). apply moves_status, S.
  - unfold kept in *. simpl. rewrite C in K. by rewrite (proj2 (S t)).
  - intros c. by rewrite set_current_tracked, record_turn_tracked.
Qed.

Lemma reports_finish f b :
  reports (fun b => Some (f b)) b -> reports (fun b => Some (finish_current_turn (f b))) b.
Proof.
  intros (es & b' & M & W & K & F). exists es, (finish_current_turn b'). split_and!; [| done | apply kept_finish |].
  - by rewrite all_turns_finish.
  - intros c. specialize (F c). simplify_eq. by rewrite F, finish_tracked.
Qed.

Lemma reports_status_turn f id b ts t :
  restatus f -> builder_ok b -> update_turn id (fun t => Some (f t)) (turns b) = Some (Some (ts, t)) ->
  reports (fun b => Some (record_changed_turn (from_pending_turn t) (set_turns ts b))) b.
Proof.
  intros S [_ K] U. destruct (update_turn_cases id (fun t => Some (f t)) (turns b)) as [[U' _] | (l1 & u & l2 & T & Id & U')];
    rewrite U' in U; simplify_eq/=.
  eexists [EmitTurn _], (set_turns (l1 ++ f u :: l2) b). split_and!; [| done | done |].
  - rewrite all_turns_set_turns. unfold all_turns. rewrite T. apply moves_cons_app. intros. apply moves_status, S.
  - intros c. by rewrite set_turns_tracked, record_turn_tracked.
Qed.

Lemma restatus_abort payload : restatus (apply_abort payload).
Proof. done. Qed.

Lemma restatus_completion payload : restatus (apply_completion payload).
Proof. intros t. unfold apply_completion. repeat case_match; done. Qed.

Lemma reports_error payload b : builder_ok b -> reports (fun b => Some (handle_error payload b)) b.
Proof.
  intros Ok. unfold handle_error. destruct (negb _); [apply reports_idle, Ok |].
  destruct (current_turn b) as [t|] eqn:C.
  - eapply reports_ext; [|by apply (reports_status_current (with_status TurnFailed (Some (turn_error payload))) b t)].
    intros c. simpl. by rewrite C.
  - eapply reports_ext; [|apply reports_idle, Ok]. intros c. simpl. by rewrite C.
Qed.

(** The fallback to the active turn. *)
Lemma reports_active (fin : ThreadHistoryBuilder -> ThreadHistoryBuilder) f b :
  restatus f -> builder_ok b -> fin = finish_current_turn \/ (forall b, fin b = b) ->
  reports (fun b => Some (match current_turn b with
    | Some t => fin (record_changed_turn (from_pending_turn (f t)) (set_current (Some (f t)) b))
    | None => b end)) b.
Proof.
  intros S Ok Fin. destruct (current_turn b) as [t|] eqn:C.
  - pose proof (reports_status_current f b t S Ok C) as R.
    destruct Fin as [-> | Fin].
    + eapply reports_ext; [|apply reports_finish, R]. intros c. simpl. by rewrite C.
    + eapply reports_ext; [|exact R]. intros c. simpl. by rewrite C, Fin.
  - eapply reports_ext; [|apply reports_idle, Ok]. intros c. simpl. by rewrite C.
Qed.

(** The exact match, first the current turn, then the others. *)
Lemma reports_matched (fin : ThreadHistoryBuilder -> ThreadHistoryBuilder) f id b :
  restatus f -> builder_ok b -> fin = finish_current_turn \/ (forall b, fin b = b) ->
  reports (fun b => Some (
    let active t := fin (record_changed_turn (from_pending_turn (f t)) (set_current (Some (f t)) b)) in
    match is_current id b with
    | Some t => active t
    | None =>
        match update_turn id (fun t => Some (f t)) (turns b) with
        | Some (Some (ts, t)) => record_changed_turn (from_pending_turn t) (set_turns ts b)
        | _ => match current_turn b with Some t => active t | None => b end
        end
    end)) b.
Proof.
  intros S Ok Fin. pose proof (reports_active fin f b S Ok Fin) as A.
  assert (Ic : forall c, is_current id (set_change_set c b) = is_current id b) by done.
  destruct (is_current id b) as [t|] eqn:I.
  - apply is_current_some in I as [C _]. eapply reports_ext; [|exact A]. intros c. cbv zeta. rewrite Ic. simpl. by rewrite C.
  - destruct (update_turn id (fun t => Some (f t)) (turns b)) as [[[ts t]|]|] eqn:U.
    + eapply reports_ext; [|by apply (reports_status_turn f id b ts t)]. intros c. cbv zeta. rewrite Ic. simpl. by rewrite U.
    + eapply reports_ext; [|exact A]. intros c. cbv zeta. rewrite Ic. simpl. by rewrite U.
    + eapply reports_ext; [|exact A]. intros c. cbv zeta. rewrite Ic. simpl. by rewrite U.
Qed.

Lemma reports_aborted payload b : builder_ok b -> reports (fun b => Some (handle_turn_aborted payload b)) b.
Proof.
  intros Ok. unfold handle_turn_aborted. destruct (ab_turn_id payload) as [id|].
  - apply (reports_matched (fun b => b) (apply_abort payload) id b); auto. apply restatus_abort.
  - apply (reports_active (fun b => b) (apply_abort payload) b); auto. apply restatus_abort.
Qed.

Lemma reports_complete payload b : builder_ok b -> reports (fun b => Some (handle_turn_complete payload b)) b.
Proof. intros Ok. apply (reports_matched finish_current_turn (apply_completion payload) _ b); auto. apply restatus_completion. Qed.

Lemma reports_compacted new_id b : builder_ok b -> reports (fun b => Some (handle_compacted new_id b)) b.
Proof.
  intros [Ok _]. destruct (ensure_turn_moves new_id b) as (t & b1 & es & M & C & T & S & F).
  exists es, (set_current (Some (mkPending (pt_id t) (pt_items t) (pt_item_index t) (pt_error t) (pt_status t) (pt_started_at t)
    (pt_completed_at t) (pt_duration_ms t) (pt_opened_explicitly t) true (pt_rollout_start_index t))) b1).
  split_and!; [| by destruct S as [-> | [? ->]] | |].
  - rewrite <- (app_nil_r es). eapply moves_trans; [exact M|]. rewrite (all_turns_current b1 t C).
    by eapply moves_mark.
  - unfold kept, keep; simpl. by rewrite andb_false_r.
  - intros c. unfold handle_compacted. rewrite F. by rewrite set_current_tracked.
Qed.

Lemma reports_collab new_id e b :
  builder_ok b -> reports (fun b => match collab_item e with Some i => upsert_item_in_current_turn new_id i b | None => Some b end) b.
Proof. intros Ok. destruct (collab_item e); [by apply reports_upsert_current, Ok | apply reports_idle, Ok]. Qed.

Definition is_rollback_event (e : EventMsg) : bool := match e with EvThreadRolledBack _ => true | _ => false end.

Lemma reports_event new_id e b : is_rollback_event e = false -> builder_ok b -> reports (handle_event new_id e) b.
Proof.
  intros N Ok. pose proof (proj1 Ok) as Ix. destruct e; try discriminate N; unfold handle_event,
    handle_web_search_begin, handle_web_search_end, handle_exec_command_begin, handle_exec_command_end,
    handle_apply_patch_approval_request, handle_patch_apply_begin,
    handle_patch_apply_end, handle_dynamic_tool_call_request, handle_dynamic_tool_call_response, handle_mcp_tool_call_begin, handle_mcp_tool_call_end,
    handle_view_image_tool_call, handle_image_generation_begin, handle_image_generation_end, handle_sub_agent_activity;
    solve [ by apply reports_user_message | by apply reports_agent_message
          | by apply reports_upsert_current | by apply reports_upsert_turn | by apply reports_event_turn
          | by apply reports_guardian | by apply reports_context_compacted | by apply reports_materialized
          | by apply (reports_given_id item_id (fun id => TEnteredReviewMode id _))
          | by apply (reports_given_id item_id (fun id => TExitedReviewMode id _))
          | by apply reports_error | by apply reports_aborted | by apply reports_turn_started | by apply reports_complete
          | apply reports_idle, Ok
          | unfold handle_agent_reasoning, handle_agent_reasoning_raw_content; destruct (is_nil text);
            [apply reports_idle, Ok | by apply reports_reasoning]
          | by apply reports_collab ].
Qed.

Definition is_rollback_item (i : HistoryItem) : bool := match i with HEvent e => is_rollback_event e | _ => false end.

Lemma reports_rollout_item new_id (i : HistoryItem) b :
  is_rollback_item i = false -> builder_ok b -> reports (handle_rollout_item new_id i) b.
Proof.
  intros N Ok. set (g := fun b => mkBuilder (turns b) (current_turn b) (next_item_index b) (next_rollout_index b)
    (S (next_rollout_index b)) (active_change_set b)).
  assert (Ok' : builder_ok (g b)) by done.
  apply (reports_after g (fun b => match i with
    | HEvent e => handle_event new_id e b | HCompacted => Some (handle_compacted new_id b)
    | HResponseItem i => Some (handle_response_item new_id i b) | HOther => Some b end) b); [done..|].
  destruct i as [e | | i |].
  - by apply reports_event.
  - by apply reports_compacted.
  - by apply reports_response_item.
  - apply reports_idle, Ok'.
Qed.

Lemma all_turns_finished b : kept b -> turns (finish_current_turn b) = all_turns b.
Proof. intros K. rewrite <- (all_turns_finish b K). unfold all_turns. rewrite finish_current. simpl. by rewrite app_nil_r. Qed.

Lemma rollback_rollout_item new_id n b :
  kept b ->
  exists b', all_turns b' = take (length (all_turns b) - N.to_nat n) (all_turns b) /\ kept b' /\
    forall c, handle_rollout_item new_id (HEvent (EvThreadRolledBack n)) (set_change_set c b)
      = Some (set_change_set ((fun c => mkChangeSet (changed_items c) (changed_turns c)
          (removed_turn_ids c ++ map pt_id (drop (length (all_turns b) - N.to_nat n) (all_turns b)))) <$> c) b').
Proof.
  intros K. set (b0 := mkBuilder (turns b) (current_turn b) (next_item_index b) (next_rollout_index b)
    (S (next_rollout_index b)) (active_change_set b)).
  assert (T : turns (finish_current_turn b0) = all_turns b) by (by apply (all_turns_finished b0)).
  exists (handle_thread_rollback n (set_change_set None b0)). split_and!.
  - unfold handle_thread_rollback. rewrite finish_tracked. unfold all_turns at 1. simpl. rewrite finish_current, T. simpl.
    rewrite app_nil_r. case_match eqn:L; [|done]. apply Nat.leb_le in L.
    by replace (length (all_turns b) - N.to_nat n) with 0 by lia.
  - unfold kept, handle_thread_rollback. rewrite finish_tracked. simpl. by rewrite finish_current.
  - intros c. unfold handle_rollout_item. simpl. f_equal.
    change (mkBuilder _ _ _ _ _ c) with (set_change_set c b0). unfold handle_thread_rollback. rewrite !finish_tracked.
    unfold record_removed_turn_ids, on_change_set, set_change_set, set_turns, set_next_item_index. simpl. rewrite T.
    f_equal. destruct c; [|done]. simpl. do 3 f_equal. case_match eqn:L; [|case_match eqn:Z; [|done]].
    + apply Nat.leb_le in L. by replace (length (all_turns b) - N.to_nat n) with 0 by lia.
    + apply Nat.eqb_eq in Z. rewrite Z, Nat.sub_0_r. by rewrite drop_all.
Qed.

(** ** The builder never panics *)

Lemma set_change_set_same b : set_change_set (active_change_set b) b = b.
Proof. by destruct b. Qed.

Lemma reports_ok f b : builder_ok b -> reports f b -> exists b', f b = Some b' /\ builder_ok b'.
Proof.
  intros [Ok K] (es & b' & M & _ & K' & F). specialize (F (active_change_set b)). rewrite set_change_set_same in F.
  eexists; split; [exact F|]. split; [|done]. by apply (moves_indexed _ _ _ M).
Qed.

Lemma handle_rollout_item_ok new_id (i : HistoryItem) b :
  builder_ok b -> exists b', handle_rollout_item new_id i b = Some b' /\ builder_ok b'.
Proof.
  intros Ok. destruct (is_rollback_item i) eqn:R.
  - destruct i as [[]| | |]; try discriminate R. destruct Ok as [Ok K].
    destruct (rollback_rollout_item new_id num_turns b K) as (b' & T & K' & F).
    specialize (F (active_change_set b)). rewrite set_change_set_same in F. eexists; split; [exact F|].
    split; [|done]. change (all_turns (set_change_set _ b')) with (all_turns b'). rewrite T. by apply Forall_take.
  - by apply reports_ok, reports_rollout_item.
Qed.

Lemma handle_rollout_items_ok (items : list (str * HistoryItem)) b :
  builder_ok b -> exists b', handle_rollout_items items b = Some b' /\ builder_ok b'.
Proof.
  revert b. induction items as [|[new_id i] items IH]; intros b Ok; simpl; [by eexists |].
  destruct (handle_rollout_item_ok new_id i b Ok) as (b' & -> & Ok'). by apply IH.
Qed.

Lemma handle_rollout_items_app (items items' : list (str * HistoryItem)) b :
  handle_rollout_items (items ++ items') b = (handle_rollout_items items b ≫= handle_rollout_items items').
Proof.
  revert b. induction items as [|[new_id i] items IH]; intros b; simpl; [done|].
  destruct (handle_rollout_item new_id i b); simpl; [apply IH | done].
Qed.

Lemma builder_new_ok : builder_ok builder_new.
Proof. done. Qed.

Lemma builder_finish_all b : kept b -> builder_finish b = map turn_of (all_turns b).
Proof. intros K. unfold builder_finish. by rewrite all_turns_finished. Qed.

(** C21: the turns of a rollout can always be rebuilt (no handler indexes out
    of bounds, whatever the events and their order), and a rollback recorded
    after it leaves exactly the first [len - n] of them, an open turn counted
    as one; a rollback of more turns than there are leaves none. *)
Theorem thread_rollback_drops_turns (items : list (str * HistoryItem)) :
  exists ts, build_turns_from_rollout_items items = Some ts /\
  forall new_id n, build_turns_from_rollout_items (items ++ [(new_id, HEvent (EvThreadRolledBack n))])
                   = Some (take (length ts - N.to_nat n) ts).
Proof.
  destruct (handle_rollout_items_ok items builder_new builder_new_ok) as (b & E & Ok & K).
  exists (builder_finish b). unfold build_turns_from_rollout_items. rewrite E. split; [done|].
  intros new_id n. rewrite handle_rollout_items_app, E.
  destruct (rollback_rollout_item new_id n b K) as (b' & T & K' & F).
  specialize (F (active_change_set b)). rewrite set_change_set_same in F. cbn [mbind option_bind handle_rollout_items]. rewrite F.
  simpl. f_equal. rewrite builder_finish_all by done. rewrite builder_finish_all by done.
  change (all_turns (set_change_set _ b')) with (all_turns b'). by rewrite T, length_map, firstn_map.
Qed.

End turns.
