(* ===== verification/ThreadChanges.v ===== *)
(** * The changes of a thread history

    What a client does with a [ThreadHistoryChangeSet], that the accumulator of
    thread_history.rs coalesces change sets without changing what they do, and
    that applying the reported changes to the turns a client has gives the
    turns that the builder has. *)

From S2P Require Import Prelude RustStr Truncate OutputTruncation ResponseItem ContextFragments EventMapping ThreadItems ThreadHistory.
From S2P Require Import ThreadTurns.
From S2P Require ContextManager.

(** ** Lists with keys *)

Section keyed.
Context {A K : Type} `{EqDecision K} (key : A -> K).
Implicit Types (x y : A) (l : list A).

Definition replace_by x l : list A := map (fun y => if decide (key y = key x) then x else y) l.

(** [x] takes the place of the element with its key, or goes last. *)
Definition put_by x l : list A := if decide (key x ∈ map key l) then replace_by x l else l ++ [x].

Lemma replace_by_keys x l : map key (replace_by x l) = map key l.
Proof. unfold replace_by. rewrite map_map. apply map_ext. intros y. by case_decide. Qed.

Lemma replace_by_absent x l : key x ∉ map key l -> replace_by x l = l.
Proof.
  induction l as [|y l IH]; intros H; [done|]. simpl in *. apply not_elem_of_cons in H as [N H]. f_equal; [|by apply IH].
  by case_decide.
Qed.

Lemma put_by_keys x l k : k ∈ map key (put_by x l) <-> k ∈ map key l \/ k = key x.
Proof.
  unfold put_by. case_decide as D.
  - rewrite replace_by_keys. naive_solver.
  - rewrite map_app, elem_of_app. simpl. rewrite list_elem_of_singleton. done.
Qed.

Lemma put_by_NoDup x l : NoDup (map key l) -> NoDup (map key (put_by x l)).
Proof.
  intros H. unfold put_by. case_decide as D; [by rewrite replace_by_keys |].
  rewrite map_app. apply NoDup_app. split_and!; [done | set_solver | apply NoDup_singleton].
Qed.

Lemma put_by_same x y l : key x = key y -> put_by x (put_by y l) = put_by x l.
Proof.
  intros E. unfold put_by at 1. destruct (decide (key x ∈ map key (put_by y l))) as [_|N];
    [|rewrite put_by_keys in N; naive_solver].
  unfold put_by. rewrite <- E. case_decide as D.
  - unfold replace_by. rewrite map_map. apply map_ext. intros z. rewrite <- E. by repeat case_decide.
  - unfold replace_by at 1. rewrite map_app. fold (replace_by x l). rewrite (replace_by_absent x l D). simpl.
    by rewrite decide_True by done.
Qed.

Lemma put_by_present x l : key x ∈ map key l -> put_by x l = replace_by x l.
Proof. intros H. unfold put_by. by rewrite decide_True by done. Qed.

Lemma put_by_absent x l : key x ∉ map key l -> put_by x l = l ++ [x].
Proof. intros H. unfold put_by. by rewrite decide_False by done. Qed.

Lemma put_by_commute x y l : key x <> key y -> key x ∈ map key l -> put_by x (put_by y l) = put_by y (put_by x l).
Proof.
  intros N P. rewrite (put_by_present x (put_by y l)) by (apply put_by_keys; by left).
  rewrite (put_by_present x l P). destruct (decide (key y ∈ map key l)) as [D|D].
  - rewrite !put_by_present by (by rewrite ?replace_by_keys).
    unfold replace_by. rewrite !map_map. apply map_ext. intros z. repeat case_decide; congruence.
  - rewrite !put_by_absent by (by rewrite ?replace_by_keys). unfold replace_by. rewrite map_app. simpl.
    by rewrite decide_False by done.
Qed.

(** Replaying a coalesced list of changes. *)
Section replay.
Context {V : Type} (act : A -> V -> V) (present : K -> V -> Prop).
Hypothesis act_same : forall x y v, key x = key y -> act x (act y v) = act x v.
Hypothesis act_present : forall x v, present (key x) (act x v).
Hypothesis act_keeps : forall x k v, present k v -> present k (act x v).
Hypothesis act_commute : forall x y v, key x <> key y -> present (key x) v -> act x (act y v) = act y (act x v).

Definition replay l (v : V) : V := fold_left (fun v x => act x v) l v.

Lemma replay_past x l v : key x ∉ map key l -> present (key x) v -> act x (replay l v) = replay l (act x v).
Proof.
  revert v. induction l as [|y l IH]; intros v H P; [done|]. simpl in *. apply not_elem_of_cons in H as [N H].
  rewrite IH by auto. by rewrite act_commute.
Qed.

Lemma replay_put x l v : NoDup (map key l) -> replay (put_by x l) v = act x (replay l v).
Proof.
  intros Nd. unfold put_by. case_decide as D.
  - revert v. induction l as [|y l IH]; intros v; simpl in *; [set_solver|].
    apply NoDup_cons in Nd as [Ny Nd]. case_decide as E.
    + fold (replace_by x l). rewrite (replace_by_absent x l) by congruence.
      rewrite replay_past by (try congruence; rewrite <- E; apply act_present).
      f_equal. by rewrite act_same.
    + apply IH; [done|]. apply elem_of_cons in D as [D|D]; congruence.
  - unfold replay. by rewrite fold_left_app.
Qed.

End replay.

(** ** Slots *)

(** A vector of slots with an index of the occupied ones. *)
Context {countable : Countable K}.
Definition slots_ok (slots : list (option A)) (index : gmap K nat) : Prop :=
  forall k n, index !! k = Some n <-> exists x, slots !! n = Some (Some x) /\ key x = k.

Definition occupied (slots : list (option A)) : list A := omap id slots.

Lemma occupied_app (s s' : list (option A)) : occupied (s ++ s') = occupied s ++ occupied s'.
Proof. apply omap_app. Qed.

Lemma elem_of_occupied slots x : x ∈ occupied slots <-> exists n, slots !! n = Some (Some x).
Proof.
  unfold occupied. rewrite list_elem_of_omap. split.
  - intros (o & I & E). unfold id in E. subst o. by apply list_elem_of_lookup in I.
  - intros [n E]. exists (Some x). split; [|done]. by eapply list_elem_of_lookup_2.
Qed.

Lemma slots_key slots index k : slots_ok slots index -> k ∈ map key (occupied slots) <-> is_Some (index !! k).
Proof.
  intros Ok. rewrite list_elem_of_fmap. split.
  - intros (x & -> & (n & E)%elem_of_occupied). exists n. apply Ok. eauto.
  - intros [n E]. apply Ok in E as (x & E & <-). exists x. split; [done|]. apply elem_of_occupied. eauto.
Qed.

Lemma slots_push slots index x :
  slots_ok slots index -> index !! key x = None ->
  slots_ok (slots ++ [Some x]) (<[key x := length slots]> index) /\ occupied (slots ++ [Some x]) = put_by x (occupied slots).
Proof.
  intros Ok N. split.
  - intros k n. destruct (decide (k = key x)) as [->|Nk].
    + rewrite lookup_insert_eq. split.
      * intros; simplify_eq. exists x. split; [|done]. by apply list_lookup_middle.
      * intros (y & E & Ey). destruct (decide (n < length slots)) as [L|L].
        -- rewrite lookup_app_l in E by done. assert (index !! key x = Some n) by (apply Ok; eauto). congruence.
        -- apply lookup_lt_Some in E. rewrite length_app in E. simpl in E. f_equal. lia.
    + rewrite lookup_insert_ne by done. rewrite (Ok k n). split; intros (y & E & Ey); exists y; split; try done.
      * by apply lookup_app_l_Some.
      * apply lookup_app_Some in E as [E | [L E]]; [done|].
        destruct (n - length slots); simpl in E; [|by rewrite lookup_nil in E]. simplify_eq.
  - rewrite occupied_app. unfold put_by. rewrite decide_False; [done|]. rewrite (slots_key slots index) by done.
    rewrite N. by intros [? ?].
Qed.

Lemma slots_unique slots index n m x y :
  slots_ok slots index -> slots !! n = Some (Some x) -> slots !! m = Some (Some y) -> key x = key y -> n = m.
Proof.
  intros Ok Ex Ey E. assert (index !! key x = Some n) by (apply Ok; eauto).
  assert (index !! key x = Some m) by (apply Ok; eauto). congruence.
Qed.

(** The occupied slots around the one with the key [k]. *)
Lemma slots_split slots index k n :
  slots_ok slots index -> index !! k = Some n ->
  exists s1 x s2, slots = s1 ++ Some x :: s2 /\ length s1 = n /\ key x = k /\
    k ∉ map key (occupied s1) /\ k ∉ map key (occupied s2).
Proof.
  intros Ok E. pose proof E as (x & L & Kx)%Ok. exists (take n slots), x, (drop (S n) slots).
  pose proof (lookup_lt_Some _ _ _ L). split_and!; [by rewrite take_drop_middle | rewrite length_take; lia | done | |].
  - rewrite list_elem_of_fmap. intros (y & -> & (m & Ey)%elem_of_occupied).
    pose proof (lookup_lt_Some _ _ _ Ey) as Lt. rewrite length_take in Lt. rewrite lookup_take_lt in Ey by lia.
    assert (n = m) by (by eapply slots_unique). lia.
  - rewrite list_elem_of_fmap. intros (y & -> & (m & Ey)%elem_of_occupied). rewrite lookup_drop in Ey.
    assert (n = S n + m) by (by eapply slots_unique). lia.
Qed.

Lemma slots_replace slots index x n :
  slots_ok slots index -> index !! key x = Some n ->
  n < length slots /\ slots_ok (<[n := Some x]> slots) index /\ occupied (<[n := Some x]> slots) = put_by x (occupied slots).
Proof.
  intros Ok E. pose proof E as (old & L & Ko)%Ok. pose proof (lookup_lt_Some _ _ _ L) as Lt. split_and!; [done| |].
  - intros k m. rewrite (Ok k m). destruct (decide (m = n)) as [->|Nm].
    + rewrite list_lookup_insert_eq by done. split; intros (y & Ey & Ky); simplify_eq; eauto.
    + by rewrite list_lookup_insert_ne by done.
  - destruct (slots_split slots index _ n Ok E) as (s1 & y & s2 & -> & <- & Ky & N1 & N2).
    rewrite insert_app_r_alt, Nat.sub_diag by lia. simpl.
    rewrite put_by_present by (rewrite (slots_key _ index) by done; eauto).
    rewrite !occupied_app. unfold replace_by. rewrite map_app. f_equal.
    + by rewrite <- (replace_by_absent x (occupied s1)) at 1.
    + simpl. rewrite decide_True by done. f_equal. by rewrite <- (replace_by_absent x (occupied s2)) at 1.
Qed.

Lemma filter_absent k l : k ∉ map key l -> List.filter (fun x => bool_decide (key x <> k)) l = l.
Proof.
  induction l as [|y l IH]; intros N; [done|]. simpl in *. apply not_elem_of_cons in N as [N N'].
  rewrite bool_decide_true by done. f_equal. by apply IH.
Qed.

Lemma slots_remove slots index k n :
  slots_ok slots index -> index !! k = Some n ->
  n < length slots /\ slots_ok (<[n := None]> slots) (delete k index) /\
  occupied (<[n := None]> slots) = List.filter (fun x => bool_decide (key x <> k)) (occupied slots).
Proof.
  intros Ok E. pose proof E as (old & L & Ko)%Ok. pose proof (lookup_lt_Some _ _ _ L) as Lt. split_and!; [done| |].
  - intros k' m. rewrite lookup_delete_Some, (Ok k' m). split.
    + intros (Nk & y & Ey & Ky). exists y. rewrite list_lookup_insert_ne; [done|]. intros ->. congruence.
    + intros (y & Ey & Ky). destruct (decide (m = n)) as [->|Nm].
      * by rewrite list_lookup_insert_eq in Ey by done.
      * rewrite list_lookup_insert_ne in Ey by done. split; [|by eauto]. intros ->.
        destruct Nm. eapply (slots_unique slots index m n y old); [done..|congruence].
  - destruct (slots_split slots index _ n Ok E) as (s1 & y & s2 & -> & <- & Ky & N1 & N2).
    rewrite insert_app_r_alt, Nat.sub_diag by lia. simpl. rewrite !occupied_app, List.filter_app.
    rewrite (filter_absent k (occupied s1)) by done. f_equal. simpl. rewrite bool_decide_false by naive_solver.
    by rewrite (filter_absent k (occupied s2)).
Qed.

Lemma filter_NoDup f l : NoDup (map key l) -> NoDup (map key (List.filter f l)).
Proof.
  induction l as [|y l IH]; intros N; [done|]. simpl in *. apply NoDup_cons in N as [N Nd]. case_match; [|by apply IH].
  simpl. apply NoDup_cons. split; [|by apply IH]. intros I. apply N. rewrite list_elem_of_fmap in I |- *.
  destruct I as (z & Ez & I). exists z. split; [done|]. apply list_elem_of_In, List.filter_In in I as [I _]. by apply list_elem_of_In.
Qed.

End keyed.

(** ** The accumulator *)

Section changes.
Context {json : SerdeJson} {parsers : FragmentParsers} {lib : ThreadLib}.
Implicit Types (c : ThreadHistoryChangeSet) (a : ThreadHistoryChangeAccumulator) (ts : list Turn).

Definition item_key (change : ThreadHistoryItemChange) : str * str := (ic_turn_id change, item_id (ic_item change)).

(** What the accumulator does to the changes it holds. *)
Definition add_item_change (change : ThreadHistoryItemChange) c : ThreadHistoryChangeSet :=
  mkChangeSet (put_by item_key change (changed_items c)) (changed_turns c) (removed_turn_ids c).

Definition add_turn_change (change : ThreadHistoryTurnChange) c : ThreadHistoryChangeSet :=
  mkChangeSet (changed_items c) (put_by tc_turn_id change (changed_turns c)) (removed_turn_ids c).

Definition add_removed_turn (id : str) c : ThreadHistoryChangeSet :=
  mkChangeSet (List.filter (fun x => bool_decide (ic_turn_id x <> id)) (changed_items c))
    (List.filter (fun x => bool_decide (tc_turn_id x <> id)) (changed_turns c))
    (if decide (id ∈ removed_turn_ids c) then removed_turn_ids c else removed_turn_ids c ++ [id]).

Definition coalesce c c0 : ThreadHistoryChangeSet :=
  let c0 := fold_left (fun c0 id => add_removed_turn id c0) (removed_turn_ids c) c0 in
  let c0 := fold_left (fun c0 x => add_item_change x c0) (changed_items c) c0 in
  fold_left (fun c0 x => add_turn_change x c0) (changed_turns c) c0.

Definition distinct_changes c : Prop := NoDup (map item_key (changed_items c)) /\ NoDup (map tc_turn_id (changed_turns c)).

Record acc_ok a : Prop := {
  acc_items_ok : slots_ok item_key (acc_changed_items a) (acc_item_indexes a);
  acc_turns_ok : slots_ok tc_turn_id (acc_changed_turns a) (acc_turn_indexes a);
  acc_removed_ok : forall id, is_Some (acc_removed_indexes a !! id) <-> id ∈ acc_removed_turn_ids a;
  acc_distinct : distinct_changes (accumulator_finish a) }.

Lemma vec_set_some {A} n (x : A) l : n < length l -> vec_set n x l = Some (<[n := x]> l).
Proof. intros H. unfold vec_set. by rewrite (proj2 (Nat.ltb_lt _ _) H). Qed.

Lemma push_item_change_ok change a :
  acc_ok a -> exists a', push_item_change change a = Some a' /\ acc_ok a' /\
    accumulator_finish a' = add_item_change change (accumulator_finish a).
Proof.
  intros [I T R [Di Dt]]. unfold push_item_change. fold (item_key change).
  destruct (acc_item_indexes a !! item_key change) as [n|] eqn:E.
  - destruct (slots_replace item_key _ _ change n I E) as (L & S & O). rewrite vec_set_some by done. simpl.
    eexists; split; [done|]. assert (F : omap id (<[n:=Some change]> (acc_changed_items a))
      = put_by item_key change (omap id (acc_changed_items a))) by exact O.
    split; [|unfold accumulator_finish, add_item_change; simpl; by rewrite F].
    split; try done. split; [|done]. simpl. rewrite F. by apply put_by_NoDup.
  - destruct (slots_push item_key _ _ change I E) as (S & O).
    eexists; split; [done|]. assert (F : omap id (acc_changed_items a ++ [Some change])
      = put_by item_key change (omap id (acc_changed_items a))) by exact O.
    split; [|unfold accumulator_finish, add_item_change; simpl; by rewrite F].
    split; try done. split; [|done]. simpl. rewrite F. by apply put_by_NoDup.
Qed.

Lemma push_turn_change_ok change a :
  acc_ok a -> exists a', push_turn_change change a = Some a' /\ acc_ok a' /\
    accumulator_finish a' = add_turn_change change (accumulator_finish a).
Proof.
  intros [I T R [Di Dt]]. unfold push_turn_change.
  destruct (acc_turn_indexes a !! tc_turn_id change) as [n|] eqn:E.
  - destruct (slots_replace tc_turn_id _ _ change n T E) as (L & S & O). rewrite vec_set_some by done. simpl.
    eexists; split; [done|]. assert (F : omap id (<[n:=Some change]> (acc_changed_turns a))
      = put_by tc_turn_id change (omap id (acc_changed_turns a))) by exact O.
    split; [|unfold accumulator_finish, add_turn_change; simpl; by rewrite F].
    split; try done. split; [done|]. simpl. rewrite F. by apply put_by_NoDup.
  - destruct (slots_push tc_turn_id _ _ change T E) as (S & O).
    eexists; split; [done|]. assert (F : omap id (acc_changed_turns a ++ [Some change])
      = put_by tc_turn_id change (omap id (acc_changed_turns a))) by exact O.
    split; [|unfold accumulator_finish, add_turn_change; simpl; by rewrite F].
    split; try done. split; [done|]. simpl. rewrite F. by apply put_by_NoDup.
Qed.

Lemma filter_filter {A} (f g : A -> bool) l : List.filter f (List.filter g l) = List.filter (fun x => g x && f x) l.
Proof.
  induction l as [|x l IH]; [done|]. simpl. destruct (g x); simpl; [destruct (f x); by rewrite IH | done].
Qed.

Lemma remove_item_key_ok key a :
  acc_ok a -> exists a', remove_item_key (Some a) key = Some a' /\ acc_ok a' /\
    accumulator_finish a' = mkChangeSet (List.filter (fun x => bool_decide (item_key x <> key)) (changed_items (accumulator_finish a)))
      (changed_turns (accumulator_finish a)) (removed_turn_ids (accumulator_finish a)).
Proof.
  intros Ok. pose proof Ok as [I T R [Di Dt]]. unfold remove_item_key. simpl.
  destruct (acc_item_indexes a !! key) as [n|] eqn:E.
  - destruct (slots_remove item_key _ _ key n I E) as (L & S & O). rewrite vec_set_some by done. simpl.
    eexists; split; [done|]. assert (F : omap id (<[n:=None]> (acc_changed_items a))
      = List.filter (fun x => bool_decide (item_key x <> key)) (omap id (acc_changed_items a))) by exact O.
    split; [|unfold accumulator_finish; simpl; by rewrite F].
    split; try done. split; [|done]. simpl. rewrite F. by apply filter_NoDup.
  - eexists; split; [done|]. split; [done|]. simpl. rewrite (filter_absent item_key); [done|].
    change (omap id (acc_changed_items a)) with (occupied (acc_changed_items a)).
    rewrite (slots_key item_key _ _ key I), E. by intros [? ?].
Qed.

Lemma remove_item_keys_ok keys a :
  acc_ok a -> exists a', fold_left remove_item_key keys (Some a) = Some a' /\ acc_ok a' /\
    accumulator_finish a' = mkChangeSet (List.filter (fun x => bool_decide (item_key x ∉ keys)) (changed_items (accumulator_finish a)))
      (changed_turns (accumulator_finish a)) (removed_turn_ids (accumulator_finish a)).
Proof.
  revert a. induction keys as [|key keys IH]; intros a Ok.
  - eexists; split; [done|]. split; [done|]. destruct (accumulator_finish a) as [xs ts rs]. simpl. f_equal.
    induction xs as [|x xs IHi]; simpl; [done|]. by f_equal.
  - destruct (remove_item_key_ok key a Ok) as (a1 & E1 & Ok1 & F1). cbn [fold_left]. rewrite E1.
    destruct (IH a1 Ok1) as (a2 & E2 & Ok2 & F2). exists a2. split_and!; [done..|]. rewrite F2, F1. simpl. f_equal.
    rewrite filter_filter. apply List.filter_ext. intros x.
    rewrite <- bool_decide_and. apply bool_decide_ext. rewrite not_elem_of_cons. done.
Qed.

Lemma note_removed_ok id a :
  acc_ok a ->
  let a1 := match acc_removed_indexes a !! id with
            | Some _ => a
            | None =>
                mkAccumulator (acc_changed_items a) (acc_item_indexes a) (acc_changed_turns a) (acc_turn_indexes a)
                  (acc_removed_turn_ids a ++ [id]) (<[id := length (acc_removed_turn_ids a)]> (acc_removed_indexes a))
            end in
  acc_ok a1 /\ accumulator_finish a1
               = mkChangeSet (changed_items (accumulator_finish a)) (changed_turns (accumulator_finish a))
                   (removed_turn_ids (add_removed_turn id (accumulator_finish a))).
Proof.
  intros [I T R D]. pose proof (R id) as Ri. simpl. destruct (acc_removed_indexes a !! id) eqn:E.
  - rewrite decide_True by (apply Ri; eauto). done.
  - rewrite decide_False by (rewrite <- Ri; by intros [? ?]). split; [|done]. split; try done. intros id'. simpl.
    rewrite elem_of_app, list_elem_of_singleton, <- R. destruct (decide (id' = id)) as [->|N].
    + rewrite lookup_insert_eq. split; [by right | by eauto].
    + rewrite lookup_insert_ne by done. naive_solver.
Qed.

Lemma remove_turn_key_ok id a :
  acc_ok a ->
  exists a', (match acc_turn_indexes a !! id with
              | Some index =>
                  ts ← vec_set index None (acc_changed_turns a);
                  Some (mkAccumulator (acc_changed_items a) (acc_item_indexes a) ts (delete id (acc_turn_indexes a))
                          (acc_removed_turn_ids a) (acc_removed_indexes a))
              | None => Some a
              end) = Some a' /\ acc_ok a' /\
    accumulator_finish a' = mkChangeSet (changed_items (accumulator_finish a))
      (List.filter (fun x => bool_decide (tc_turn_id x <> id)) (changed_turns (accumulator_finish a)))
      (removed_turn_ids (accumulator_finish a)).
Proof.
  intros Ok. pose proof Ok as [I T R [Di Dt]]. destruct (acc_turn_indexes a !! id) as [n|] eqn:E.
  - destruct (slots_remove tc_turn_id _ _ id n T E) as (L & S & O). rewrite vec_set_some by done. simpl.
    eexists; split; [done|]. assert (F : omap Datatypes.id (<[n:=None]> (acc_changed_turns a))
      = List.filter (fun x => bool_decide (tc_turn_id x <> id)) (omap Datatypes.id (acc_changed_turns a))) by exact O.
    split; [|unfold accumulator_finish; simpl; by rewrite F].
    split; try done. split; [done|]. simpl. rewrite F. by apply filter_NoDup.
  - exists a. split; [done|]. split; [done|]. simpl. rewrite (filter_absent tc_turn_id); [done|].
    change (omap Datatypes.id (acc_changed_turns a)) with (occupied (acc_changed_turns a)).
    rewrite (slots_key tc_turn_id _ _ id T), E. by intros [? ?].
Qed.

Lemma push_removed_turn_id_ok id a :
  acc_ok a -> exists a', push_removed_turn_id id a = Some a' /\ acc_ok a' /\
    accumulator_finish a' = add_removed_turn id (accumulator_finish a).
Proof.
  intros Ok. unfold push_removed_turn_id. destruct (note_removed_ok id a Ok) as [Ok1 F1].
  set (a1 := match acc_removed_indexes a !! id with Some _ => _ | None => _ end) in *. clearbody a1.
  destruct (remove_turn_key_ok id a1 Ok1) as (a' & E' & Ok' & F'). rewrite E'. cbn [mbind option_bind]. rewrite F1 in F'.
  set (keys := List.filter _ _). destruct (remove_item_keys_ok keys a' Ok') as (a3 & E3 & Ok3 & F3).
  exists a3. split_and!; [done..|]. rewrite F3, F'. unfold add_removed_turn. cbn [changed_items changed_turns removed_turn_ids]. f_equal.
  apply List.filter_ext_in. intros x Ix. apply bool_decide_ext. apply list_elem_of_In in Ix.
  assert (Kx : item_key x ∈ keys <-> ic_turn_id x = id); [|by rewrite Kx].
  unfold keys. rewrite list_elem_of_In, List.filter_In, <- list_elem_of_In, str_eqb_eq. simpl.
  split; [by intros [_ ?] |]. intros <-. split; [|done]. rewrite list_elem_of_fmap.
  assert (is_Some (acc_item_indexes a' !! item_key x)) as [n En].
  { apply (slots_key item_key _ _ _ (acc_items_ok _ Ok')). apply list_elem_of_fmap. exists x. split; [done|].
    change (x ∈ changed_items (accumulator_finish a')). by rewrite F'. }
  exists (item_key x, n). split; [done|]. by apply elem_of_map_to_list.
Qed.

(** A loop of the accumulator is the loop on what it holds. *)
Lemma fold_opt_ok {X} (push : X -> ThreadHistoryChangeAccumulator -> option ThreadHistoryChangeAccumulator)
    (add : X -> ThreadHistoryChangeSet -> ThreadHistoryChangeSet) xs a :
  (forall x a, acc_ok a -> exists a', push x a = Some a' /\ acc_ok a' /\ accumulator_finish a' = add x (accumulator_finish a)) ->
  acc_ok a -> exists a', fold_opt push xs a = Some a' /\ acc_ok a' /\
    accumulator_finish a' = fold_left (fun c x => add x c) xs (accumulator_finish a).
Proof.
  intros P. unfold fold_opt. revert a. induction xs as [|x xs IH]; intros a Ok; [by eexists |].
  destruct (P x a Ok) as (a1 & E1 & Ok1 & F1). simpl. rewrite E1. rewrite <- F1. by apply IH.
Qed.

Lemma accumulator_push_ok c a :
  acc_ok a -> exists a', accumulator_push c a = Some a' /\ acc_ok a' /\ accumulator_finish a' = coalesce c (accumulator_finish a).
Proof.
  intros Ok. unfold accumulator_push, coalesce.
  destruct (fold_opt_ok push_removed_turn_id add_removed_turn (removed_turn_ids c) a push_removed_turn_id_ok Ok) as (a1 & -> & Ok1 & F1).
  destruct (fold_opt_ok push_item_change add_item_change (changed_items c) a1 push_item_change_ok Ok1) as (a2 & E2 & Ok2 & F2).
  destruct (fold_opt_ok push_turn_change add_turn_change (changed_turns c) a2 push_turn_change_ok Ok2) as (a3 & E3 & Ok3 & F3).
  exists a3. simpl. rewrite E2. simpl. rewrite E3. split_and!; [done..|]. by rewrite F3, F2, F1.
Qed.

Lemma accumulator_default_ok : acc_ok accumulator_default.
Proof.
  split; [| | |split; apply NoDup_nil_2].
  - intros k n. simpl. rewrite lookup_empty. split; [done|]. by intros (x & E & _).
  - intros k n. simpl. rewrite lookup_empty. split; [done|]. by intros (x & E & _).
  - intros id. simpl. rewrite lookup_empty. split; [by intros [? ?] | by intros ?%not_elem_of_nil].
Qed.

(** ** Applying changes *)

Definition turn_with_items (t : Turn) (items : list ThreadItem) : Turn :=
  mkTurn (t_id t) items (t_error t) (t_status t) (t_started_at t) (t_completed_at t) (t_duration_ms t).

Definition turn_of_change (x : ThreadHistoryTurnChange) (items : list ThreadItem) : Turn :=
  mkTurn (tc_turn_id x) items (tc_error x) (tc_status x) (tc_started_at x) (tc_completed_at x) (tc_duration_ms x).

(** The metadata of a known turn, or a new turn at the end. *)
Definition apply_turn_change (x : ThreadHistoryTurnChange) ts : list Turn :=
  if decide (tc_turn_id x ∈ map t_id ts)
  then map (fun t => if decide (t_id t = tc_turn_id x) then turn_of_change x (t_items t) else t) ts
  else ts ++ [turn_of_change x []].

(** The item of that id in that turn, or a new item at its end. *)
Definition apply_item_change (x : ThreadHistoryItemChange) ts : list Turn :=
  map (fun t => if decide (t_id t = ic_turn_id x) then turn_with_items t (put_by item_id (ic_item x) (t_items t)) else t) ts.

Definition remove_turns (ids : list str) ts : list Turn := List.filter (fun t => bool_decide (t_id t ∉ ids)) ts.

(** What a client does to the turns that it has. *)
Definition apply_changes c ts : list Turn :=
  replay apply_item_change (changed_items c) (replay apply_turn_change (changed_turns c) (remove_turns (removed_turn_ids c) ts)).

Lemma apply_turn_ids x ts id : id ∈ map t_id (apply_turn_change x ts) <-> id ∈ map t_id ts \/ id = tc_turn_id x.
Proof.
  unfold apply_turn_change. case_decide as D.
  - replace (map t_id (map _ ts)) with (map t_id ts); [naive_solver|]. rewrite map_map. apply map_ext. intros t. by case_decide.
  - rewrite map_app, elem_of_app. simpl. by rewrite list_elem_of_singleton.
Qed.

Lemma apply_item_ids x ts : map t_id (apply_item_change x ts) = map t_id ts.
Proof. unfold apply_item_change. rewrite map_map. apply map_ext. intros t. by case_decide. Qed.

Lemma replay_items_ids xs ts : map t_id (replay apply_item_change xs ts) = map t_id ts.
Proof. revert ts. induction xs as [|x xs IH]; intros ts; [done|]. etransitivity; [apply (IH (apply_item_change x ts)) | apply apply_item_ids]. Qed.

Lemma map_other id (f : Turn -> Turn) ts :
  id ∉ map t_id ts -> map (fun t => if decide (t_id t = id) then f t else t) ts = ts.
Proof.
  induction ts as [|t ts IH]; intros N; [done|]. simpl in *. apply not_elem_of_cons in N as [N N'].
  rewrite decide_False by done. f_equal. by apply IH.
Qed.

Lemma apply_turn_same x y ts :
  tc_turn_id x = tc_turn_id y -> apply_turn_change x (apply_turn_change y ts) = apply_turn_change x ts.
Proof.
  intros E. unfold apply_turn_change at 1. rewrite decide_True by (apply apply_turn_ids; by right).
  unfold apply_turn_change. rewrite <- E. case_decide as D.
  - rewrite map_map. apply map_ext. intros t. repeat case_decide; simpl in *; congruence.
  - rewrite map_app, (map_other _ (fun t => turn_of_change x (t_items t))) by done. simpl. by rewrite decide_True by done.
Qed.

Lemma apply_turn_present x ts :
  tc_turn_id x ∈ map t_id ts ->
  apply_turn_change x ts = map (fun t => if decide (t_id t = tc_turn_id x) then turn_of_change x (t_items t) else t) ts.
Proof. intros H. unfold apply_turn_change. by rewrite decide_True by done. Qed.

Lemma apply_turn_commute x y ts :
  tc_turn_id x <> tc_turn_id y -> tc_turn_id x ∈ map t_id ts ->
  apply_turn_change x (apply_turn_change y ts) = apply_turn_change y (apply_turn_change x ts).
Proof.
  intros N P. rewrite (apply_turn_present x (apply_turn_change y ts)) by (apply apply_turn_ids; by left).
  unfold apply_turn_change at 2. rewrite (apply_turn_present x ts P).
  assert (E : map t_id (map (fun t => if decide (t_id t = tc_turn_id x) then turn_of_change x (t_items t) else t) ts) = map t_id ts).
  { rewrite map_map. apply map_ext. intros t. by case_decide. }
  rewrite E. unfold apply_turn_change. case_decide as D.
  - rewrite !map_map. apply map_ext. intros t. repeat case_decide; simpl in *; congruence.
  - rewrite map_app. simpl. by rewrite decide_False by done.
Qed.

Lemma replay_add_turn x xs ts :
  NoDup (map tc_turn_id xs) -> replay apply_turn_change (put_by tc_turn_id x xs) ts = apply_turn_change x (replay apply_turn_change xs ts).
Proof.
  apply (replay_put tc_turn_id apply_turn_change (fun id ts => id ∈ map t_id ts)).
  - intros. by apply apply_turn_same.
  - intros. apply apply_turn_ids. by right.
  - intros. apply apply_turn_ids. by left.
  - intros. by apply apply_turn_commute.
Qed.

Definition item_present (key : str * str) ts : Prop :=
  forall t, t ∈ ts -> t_id t = fst key -> snd key ∈ map item_id (t_items t).

Lemma elem_of_apply_item x ts t :
  t ∈ apply_item_change x ts <->
  exists u, u ∈ ts /\ t = if decide (t_id u = ic_turn_id x) then turn_with_items u (put_by item_id (ic_item x) (t_items u)) else u.
Proof. unfold apply_item_change. rewrite list_elem_of_fmap. naive_solver. Qed.

Lemma replay_add_item x xs ts :
  NoDup (map item_key xs) -> replay apply_item_change (put_by item_key x xs) ts = apply_item_change x (replay apply_item_change xs ts).
Proof.
  apply (replay_put item_key apply_item_change item_present).
  - intros x' y v E. unfold apply_item_change. rewrite map_map. apply map_ext. intros t.
    injection E as Et Ei. rewrite <- Et. destruct (decide (t_id t = ic_turn_id x')); simpl; [|by rewrite decide_False by done].
    rewrite decide_True by done. unfold turn_with_items. simpl. by rewrite put_by_same.
  - intros x' v t (u & _ & ->)%elem_of_apply_item. case_decide; simpl; [|done]. intros _. apply put_by_keys. by right.
  - intros x' k v P t (u & I & ->)%elem_of_apply_item. case_decide; simpl; [|by apply P].
    intros E. apply put_by_keys. left. by apply P.
  - intros x' y v N P. unfold apply_item_change. rewrite !map_map. apply map_ext_in. intros t I%list_elem_of_In.
    destruct (decide (t_id t = ic_turn_id y)) as [Ey|Ny], (decide (t_id t = ic_turn_id x')) as [Ex|Nx]; simpl;
      repeat (first [rewrite decide_True by done | rewrite decide_False by done]); try done.
    unfold turn_with_items; simpl. f_equal. apply put_by_commute; [|by apply (P t)].
    intros E. apply N. unfold item_key. congruence.
Qed.

(** ** Coalescing *)

Definition delete_turn (id : str) ts : list Turn := List.filter (fun t => bool_decide (t_id t <> id)) ts.

Lemma delete_turn_map id (f : Turn -> Turn) ts :
  (forall t, t_id (f t) = t_id t) -> delete_turn id (map f ts) = map f (delete_turn id ts).
Proof.
  intros H. induction ts as [|t ts IH]; [done|]. simpl. rewrite H. case_match; simpl; by rewrite IH.
Qed.

Lemma elem_of_delete_turn id ts k : k ∈ map t_id (delete_turn id ts) <-> k ∈ map t_id ts /\ k <> id.
Proof.
  unfold delete_turn. induction ts as [|t ts IH]; simpl; [set_solver|]. rewrite elem_of_cons.
  case_bool_decide as D; simpl; rewrite ?elem_of_cons, IH; naive_solver.
Qed.

Lemma delete_other id (f : Turn -> Turn) ts :
  (forall t, t_id t <> id -> f t = t) -> map f (delete_turn id ts) = delete_turn id ts.
Proof.
  intros H. rewrite <- (map_id (delete_turn id ts)) at 2. apply map_ext_in. intros t I.
  apply List.filter_In in I as [_ D%bool_decide_eq_true]. by apply H.
Qed.

Lemma delete_apply_turn id x ts :
  delete_turn id (apply_turn_change x ts)
  = if bool_decide (tc_turn_id x <> id) then apply_turn_change x (delete_turn id ts) else delete_turn id ts.
Proof.
  unfold apply_turn_change. case_bool_decide as D.
  - destruct (decide (tc_turn_id x ∈ map t_id ts)) as [P|P].
    + rewrite decide_True by (by apply elem_of_delete_turn). apply delete_turn_map. intros t. by case_decide.
    + rewrite decide_False by (rewrite elem_of_delete_turn; tauto). unfold delete_turn. rewrite List.filter_app. simpl.
      by rewrite bool_decide_true by done.
  - destruct (decide (tc_turn_id x ∈ map t_id ts)) as [P|P].
    + rewrite delete_turn_map by (intros t; by case_decide). apply delete_other. intros t N. by rewrite decide_False by congruence.
    + unfold delete_turn. rewrite List.filter_app. simpl. rewrite bool_decide_false by naive_solver. by rewrite app_nil_r.
Qed.

Lemma delete_apply_item id x ts :
  delete_turn id (apply_item_change x ts)
  = if bool_decide (ic_turn_id x <> id) then apply_item_change x (delete_turn id ts) else delete_turn id ts.
Proof.
  unfold apply_item_change. rewrite delete_turn_map by (intros t; by case_decide).
  case_bool_decide as D; [done|]. apply delete_other. intros t N. by rewrite decide_False by congruence.
Qed.

(** Deleting a turn after its changes is not making them. *)
Lemma delete_replay {X} (act : X -> list Turn -> list Turn) (kept_change : X -> bool) id xs ts :
  (forall x ts, delete_turn id (act x ts) = if kept_change x then act x (delete_turn id ts) else delete_turn id ts) ->
  delete_turn id (replay act xs ts) = replay act (List.filter kept_change xs) (delete_turn id ts).
Proof.
  intros H. revert ts. induction xs as [|x xs IH]; intros ts; [done|]. change (replay act (x :: xs) ts) with (replay act xs (act x ts)).
  rewrite IH, H. simpl. by case_match.
Qed.

Lemma delete_remove_turns id ids ts :
  delete_turn id (remove_turns ids ts) = remove_turns (if decide (id ∈ ids) then ids else ids ++ [id]) ts.
Proof.
  unfold delete_turn, remove_turns. rewrite filter_filter. apply List.filter_ext. intros t.
  rewrite <- bool_decide_and. apply bool_decide_ext. case_decide; set_solver.
Qed.

Lemma apply_add_removed id c ts : apply_changes (add_removed_turn id c) ts = delete_turn id (apply_changes c ts).
Proof.
  unfold apply_changes. simpl. rewrite <- delete_remove_turns.
  rewrite (delete_replay apply_item_change (fun x => bool_decide (ic_turn_id x <> id))) by (intros; apply delete_apply_item).
  by rewrite (delete_replay apply_turn_change (fun x => bool_decide (tc_turn_id x <> id))) by (intros; apply delete_apply_turn).
Qed.

(** The items of changes are of turns that are there. *)
Definition covered c ts : Prop := Forall (fun x => ic_turn_id x ∈ map t_id ts) (changed_items c).

Lemma apply_turn_past_item x y ts :
  ic_turn_id y ∈ map t_id ts -> apply_turn_change x (apply_item_change y ts) = apply_item_change y (apply_turn_change x ts).
Proof.
  intros P. unfold apply_turn_change. rewrite apply_item_ids. unfold apply_item_change. case_decide as D.
  - rewrite !map_map. apply map_ext. intros t.
    destruct (decide (t_id t = ic_turn_id y)) as [E|N], (decide (t_id t = tc_turn_id x)) as [E'|N']; simpl;
      repeat (first [rewrite decide_True by congruence | rewrite decide_False by congruence]); done.
  - rewrite map_app. simpl. rewrite decide_False; [done|]. intros E. simpl in E. congruence.
Qed.

Lemma apply_turn_past_items x ys ts :
  Forall (fun y => ic_turn_id y ∈ map t_id ts) ys ->
  apply_turn_change x (replay apply_item_change ys ts) = replay apply_item_change ys (apply_turn_change x ts).
Proof.
  revert ts. induction ys as [|y ys IH]; intros ts F; [done|]. apply Forall_cons in F as [Fy F].
  change (replay apply_item_change (y :: ys) ts) with (replay apply_item_change ys (apply_item_change y ts)).
  rewrite IH by (by rewrite apply_item_ids). by rewrite apply_turn_past_item.
Qed.

Lemma apply_add_turn x c ts :
  distinct_changes c -> covered c (apply_changes c ts) -> apply_changes (add_turn_change x c) ts = apply_turn_change x (apply_changes c ts).
Proof.
  intros [_ D] C. unfold apply_changes. simpl. rewrite replay_add_turn by done. rewrite apply_turn_past_items; [done|].
  unfold covered, apply_changes in C. by rewrite replay_items_ids in C.
Qed.

Lemma apply_add_item x c ts :
  distinct_changes c -> apply_changes (add_item_change x c) ts = apply_item_change x (apply_changes c ts).
Proof. intros [D _]. unfold apply_changes. simpl. by rewrite replay_add_item. Qed.

(** [c] takes [ts] to [ts']. *)
Definition stands c ts ts' : Prop := distinct_changes c /\ covered c ts' /\ apply_changes c ts = ts'.

Lemma stands_removed id c ts ts' : stands c ts ts' -> stands (add_removed_turn id c) ts (delete_turn id ts').
Proof.
  intros ((Di & Dt) & C & <-). split_and!.
  - split; simpl; by apply filter_NoDup.
  - unfold covered in *. simpl. apply Forall_forall. intros x I%list_elem_of_In.
    apply List.filter_In in I as [I%list_elem_of_In N%bool_decide_eq_true].
    apply elem_of_delete_turn. split; [|done]. by apply (proj1 (Forall_forall _ _) C).
  - apply apply_add_removed.
Qed.

Lemma stands_turn x c ts ts' : stands c ts ts' -> stands (add_turn_change x c) ts (apply_turn_change x ts').
Proof.
  intros (D & C & <-). split_and!.
  - destruct D. split; simpl; [done|]. by apply put_by_NoDup.
  - eapply Forall_impl; [exact C|]. intros y I. apply apply_turn_ids. by left.
  - by apply apply_add_turn.
Qed.

Lemma stands_item x c ts ts' :
  ic_turn_id x ∈ map t_id ts' -> stands c ts ts' -> stands (add_item_change x c) ts (apply_item_change x ts').
Proof.
  intros I (D & C & <-). split_and!.
  - destruct D. split; simpl; [|done]. by apply put_by_NoDup.
  - unfold covered in *. rewrite apply_item_ids. simpl. unfold put_by. case_decide; [|by apply Forall_app; split; [|constructor]].
    unfold replace_by. apply Forall_forall. intros y (z & -> & Iz)%list_elem_of_fmap. case_decide; [done|].
    by apply (proj1 (Forall_forall _ _) C).
  - by apply apply_add_item.
Qed.

Lemma remove_turns_fold ids ts : fold_left (fun ts id => delete_turn id ts) ids ts = remove_turns ids ts.
Proof.
  revert ts. induction ids as [|id ids IH]; intros ts; simpl.
  - induction ts as [|t ts IHt]; simpl; [done|]. by f_equal.
  - rewrite IH. unfold remove_turns, delete_turn. rewrite filter_filter. apply List.filter_ext. intros t.
    rewrite <- bool_decide_and. apply bool_decide_ext. set_solver.
Qed.

Lemma add_item_turn x y c : add_turn_change y (add_item_change x c) = add_item_change x (add_turn_change y c).
Proof. done. Qed.

Lemma add_items_turns xs ys c :
  fold_left (fun c y => add_turn_change y c) ys (fold_left (fun c x => add_item_change x c) xs c)
  = fold_left (fun c x => add_item_change x c) xs (fold_left (fun c y => add_turn_change y c) ys c).
Proof.
  revert c. induction xs as [|x xs IH]; intros c; [done|]. simpl. rewrite IH. f_equal. clear IH.
  revert c. induction ys as [|y ys IH]; intros c; [done|]. simpl. by rewrite add_item_turn, IH.
Qed.

Lemma coalesce_stands c c0 ts ts' :
  stands c0 ts ts' -> covered c (apply_changes c ts') -> stands (coalesce c c0) ts (apply_changes c ts').
Proof.
  intros S C. unfold coalesce. cbv zeta. rewrite add_items_turns.
  assert (S1 : stands (fold_left (fun c0 id => add_removed_turn id c0) (removed_turn_ids c) c0) ts (remove_turns (removed_turn_ids c) ts')).
  { rewrite <- remove_turns_fold. clear C. revert c0 ts' S. induction (removed_turn_ids c) as [|id ids IH]; intros c0 ts' S; [done|].
    simpl. by apply IH, stands_removed. }
  assert (S2 : stands (fold_left (fun c0 x => add_turn_change x c0) (changed_turns c)
      (fold_left (fun c0 id => add_removed_turn id c0) (removed_turn_ids c) c0)) ts
      (replay apply_turn_change (changed_turns c) (remove_turns (removed_turn_ids c) ts'))).
  { revert S1. generalize (fold_left (fun c0 id => add_removed_turn id c0) (removed_turn_ids c) c0).
    generalize (remove_turns (removed_turn_ids c) ts'). clear.
    induction (changed_turns c) as [|x xs IH]; intros v c0 S; [done|]. by apply (IH (apply_turn_change x v)), stands_turn. }
  clear S1. unfold covered, apply_changes in C |- *. rewrite replay_items_ids in C.
  revert S2 C. unfold apply_changes. generalize (replay apply_turn_change (changed_turns c) (remove_turns (removed_turn_ids c) ts')).
  match goal with |- forall v, stands ?x _ _ -> _ => generalize x end. clear.
  induction (changed_items c) as [|x xs IH]; intros c0 v S F; [done|]. apply Forall_cons in F as [Fx F].
  apply (IH (add_item_change x c0) (apply_item_change x v)); [by apply stands_item | by rewrite apply_item_ids].
Qed.

Lemma default_stands ts : stands change_set_default ts ts.
Proof.
  split_and!; [split; apply NoDup_nil_2 | constructor |]. unfold apply_changes. simpl.
  induction ts as [|t ts IH]; simpl; [done|]. by f_equal.
Qed.

(** ** The changes of moves *)

Definition apply_emission (e : Emission) ts : list Turn :=
  match e with
  | EmitTurn x => apply_turn_change x ts
  | EmitItem id i => apply_item_change (mkItemChange id i None None) ts
  end.

Lemma remove_no_turns ts : remove_turns [] ts = ts.
Proof. by rewrite <- remove_turns_fold. Qed.

Lemma apply_emitted es ts :
  well_ordered es -> apply_changes (emitted es change_set_default) ts = fold_left (fun ts e => apply_emission e ts) es ts.
Proof.
  unfold apply_changes. destruct es as [|[x|id i] [|[x'|id' i'] [|? ?]]]; simpl; try done; intros _; by rewrite remove_no_turns.
Qed.

(** No two turns, and no two items of a turn, have the same id. *)
Definition distinct_ids ts : Prop := NoDup (map t_id ts) /\ Forall (fun t => NoDup (map item_id (t_items t))) ts.

Lemma put_at i old n (items : list ThreadItem) :
  items !! n = Some old -> item_id old = item_id i -> NoDup (map item_id items) -> <[n := i]> items = put_by item_id i items.
Proof.
  intros L E N. rewrite put_by_present by (rewrite <- E; apply list_elem_of_fmap; exists old; split; [done|]; by eapply list_elem_of_lookup_2).
  revert n L N. induction items as [|x items IH]; intros [|n] L N; simplify_eq/=.
  - rewrite decide_True by done. f_equal. apply NoDup_cons in N as [N _]. symmetry. apply replace_by_absent. by rewrite <- E.
  - apply NoDup_cons in N as [N Nd]. rewrite decide_False; [f_equal; by apply IH |].
    intros X. apply N. rewrite X, <- E. apply list_elem_of_fmap. exists old. split; [done|]. by eapply list_elem_of_lookup_2.
Qed.

Lemma linear_upsert_put i (items : list ThreadItem) : NoDup (map item_id items) -> linear_upsert i items = put_by item_id i items.
Proof.
  intros N. unfold linear_upsert. destruct (position (item_id i) items) as [n|] eqn:P.
  - destruct (position_lookup _ _ _ P) as (old & L & E). by apply (put_at i old).
  - apply position_none in P. by rewrite put_by_absent.
Qed.

Lemma linear_upsert_distinct i (items : list ThreadItem) : NoDup (map item_id (linear_upsert i items)) -> NoDup (map item_id items).
Proof.
  unfold linear_upsert. destruct (position (item_id i) items) as [n|] eqn:P.
  - destruct (position_lookup _ _ _ P) as (old & L & E). change (map item_id) with (fmap (M := list) item_id).
    rewrite list_fmap_insert. rewrite list_insert_id; [done|]. rewrite list_lookup_fmap, L. simpl. by rewrite E.
  - rewrite map_app. by intros [? _]%NoDup_app.
Qed.

Lemma insert_distinct i old n (items : list ThreadItem) :
  items !! n = Some old -> item_id i = item_id old -> map item_id (<[n := i]> items) = map item_id items.
Proof.
  intros L E. change (map item_id) with (fmap (M := list) item_id). rewrite list_fmap_insert. apply list_insert_id.
  rewrite list_lookup_fmap, L. simpl. by rewrite E.
Qed.

Lemma distinct_middle (l1 l2 : list Turn) t t' :
  t_id t' = t_id t -> (NoDup (map item_id (t_items t')) -> NoDup (map item_id (t_items t))) ->
  distinct_ids (l1 ++ t' :: l2) -> distinct_ids (l1 ++ t :: l2) /\ NoDup (map item_id (t_items t')).
Proof.
  unfold distinct_ids. rewrite !map_app, !Forall_app, !Forall_cons. simpl. intros -> H (N & F1 & F & F2). split_and!; auto.
Qed.

Lemma not_in_middle (l1 l2 : list Turn) t :
  NoDup (map t_id (l1 ++ t :: l2)) -> t_id t ∉ map t_id l1 /\ t_id t ∉ map t_id l2.
Proof.
  rewrite map_app. simpl. intros (N1 & D & N2)%NoDup_app. apply NoDup_cons in N2 as [N2 _]. split; [|done].
  intros I. apply (D _ I). by left.
Qed.

Lemma map_middle (l1 l2 : list Turn) t (f : Turn -> Turn) :
  NoDup (map t_id (l1 ++ t :: l2)) ->
  map (fun u => if decide (t_id u = t_id t) then f u else u) (l1 ++ t :: l2) = l1 ++ f t :: l2.
Proof.
  intros [N1 N2]%not_in_middle. rewrite map_app. simpl. rewrite decide_True by done. by rewrite !map_other.
Qed.

Lemma apply_item_middle (l1 l2 : list Turn) t i :
  NoDup (map t_id (l1 ++ t :: l2)) ->
  apply_emission (EmitItem (t_id t) i) (l1 ++ t :: l2) = l1 ++ turn_with_items t (put_by item_id i (t_items t)) :: l2.
Proof. intros N. by apply (map_middle l1 l2 t (fun u => turn_with_items u (put_by item_id i (t_items u)))). Qed.

Lemma apply_turn_middle (l1 l2 : list Turn) t x :
  NoDup (map t_id (l1 ++ t :: l2)) -> tc_turn_id x = t_id t ->
  apply_turn_change x (l1 ++ t :: l2) = l1 ++ turn_of_change x (t_items t) :: l2.
Proof.
  intros N E. rewrite apply_turn_present by (rewrite E, map_app; set_solver). rewrite E.
  apply (map_middle l1 l2 t (fun u => turn_of_change x (t_items u)) N).
Qed.

(** A move that changes the items of one turn. *)
Lemma item_move_applied l1 l2 t t' i :
  turn_of t' = turn_with_items (turn_of t) (pt_items t') ->
  (NoDup (map item_id (pt_items t')) -> NoDup (map item_id (pt_items t)) /\ pt_items t' = put_by item_id i (pt_items t)) ->
  distinct_ids (map turn_of (l1 ++ t' :: l2)) ->
  distinct_ids (map turn_of (l1 ++ t :: l2)) /\
  apply_emission (EmitItem (pt_id t) i) (map turn_of (l1 ++ t :: l2)) = map turn_of (l1 ++ t' :: l2).
Proof.
  intros E P D. rewrite !map_app in *. simpl in *.
  assert (Id : t_id (turn_of t') = t_id (turn_of t)) by (by rewrite E).
  destruct (distinct_middle _ _ (turn_of t) (turn_of t') Id (fun N => proj1 (P N)) D) as [D' N].
  split; [done|]. etransitivity; [apply (apply_item_middle _ _ (turn_of t) i), D' |].
  do 2 f_equal. rewrite E. f_equal. symmetry. apply (proj2 (P N)).
Qed.

Lemma moves_applied l es l' :
  moves l es l' -> Forall indexed l -> distinct_ids (map turn_of l') ->
  distinct_ids (map turn_of l) /\ fold_left (fun ts e => apply_emission e ts) es (map turn_of l) = map turn_of l'.
Proof.
  induction 1 as [| l t I X | l1 t l2 i | l1 t t' l2 i U | l1 t l2 old i L I | l1 t t' l2 S | l1 t t' l2 S E | l l1 l' es es' M IH M' IH'];
    intros F D; simpl.
  - done.
  - unfold distinct_ids in D. rewrite !map_app, Forall_app in D. destruct D as [(N1 & Dj & _)%NoDup_app [F1 _]].
    split; [done|]. unfold apply_turn_change. rewrite decide_False.
    + rewrite map_app. simpl. do 2 f_equal. unfold turn_of, turn_of_change. simpl. by rewrite I.
    + intros In. apply (Dj _ In). simpl. by left.
  - apply item_move_applied; [done | | done]. simpl. rewrite map_app. intros (N & Dj & _)%NoDup_app. split; [done|].
    rewrite put_by_absent; [done|]. intros In. apply (Dj _ In). by left.
  - apply Forall_app in F as [_ [It _]%Forall_cons]. destruct (turn_upsert_linear t i It) as (index & E & _).
    rewrite E in U. simplify_eq. apply item_move_applied; [done | | done]. simpl. intros N%linear_upsert_distinct.
    split; [done|]. by apply linear_upsert_put.
  - apply item_move_applied; [done | | done]. rewrite (extended_items t old i L).
    assert (Lo : pt_items t !! (length (pt_items t) - 1) = Some old) by (rewrite <- L, last_lookup; f_equal; lia).
    rewrite (insert_distinct i old) by done. intros N. split; [done|]. by apply (put_at i old).
  - destruct S as (Ei & Et & _). rewrite !map_app in *. simpl in *.
    destruct (distinct_middle (map turn_of l1) (map turn_of l2) (turn_of t) (turn_of t')) as [D' _]; [done | simpl; by rewrite Et | done |].
    split; [done|]. rewrite (apply_turn_middle _ _ (turn_of t)) by (done || apply D'). do 2 f_equal.
    unfold turn_of_change, turn_of. simpl. by rewrite Et.
  - rewrite !map_app in *. simpl in *. by rewrite <- E.
  - destruct (IH' (moves_indexed _ _ _ M F) D) as [D' E']. destruct (IH F D') as [D'' E''].
    split; [done|]. by rewrite fold_left_app, E''.
Qed.

(** The turns of the reported items are there. *)
Lemma moves_ids l es l' :
  moves l es l' -> Forall indexed l ->
  map pt_id l ⊆ map pt_id l' /\ Forall (fun e => match e with EmitItem id _ => id ∈ map pt_id l' | EmitTurn _ => True end) es.
Proof.
  assert (Mid : forall l1 l2 t t', pt_id t' = pt_id t -> map pt_id (l1 ++ t' :: l2) = map pt_id (l1 ++ t :: l2)).
  { intros l1 l2 t t' E. rewrite !map_app. simpl. by rewrite E. }
  assert (In : forall l1 l2 t, pt_id t ∈ map pt_id (l1 ++ t :: l2)) by (intros; rewrite map_app; set_solver).
  induction 1 as [| l t I X | l1 t l2 i | l1 t t' l2 i U | l1 t l2 old i L I | l1 t t' l2 S | l1 t t' l2 S E | l l1 l' es es' M IH M' IH'];
    intros F.
  - done.
  - split; [rewrite map_app; set_solver | by repeat constructor].
  - rewrite (Mid l1 l2 t (with_items t _ _)) by done. split; [done|]. repeat constructor. apply In.
  - apply Forall_app in F as [_ [It _]%Forall_cons]. destruct (turn_upsert_linear t i It) as (index & E & _).
    rewrite E in U. simplify_eq. rewrite (Mid l1 l2 t (with_items t _ _)) by done. split; [done|]. repeat constructor. apply In.
  - rewrite (Mid l1 l2 t (with_last_item t i)) by done. split; [done|]. repeat constructor. apply In.
  - rewrite (Mid l1 l2 t t') by apply S. split; [done|]. by repeat constructor.
  - rewrite (Mid l1 l2 t t') by apply S. split; [done|]. constructor.
  - destruct (IH F) as [S1 F1]. destruct (IH' (moves_indexed _ _ _ M F)) as [S2 F2]. split; [by etransitivity |].
    apply Forall_app. split; [|done]. eapply Forall_impl; [exact F1|]. intros [x|id i]; [done|]. apply S2.
Qed.

(** ** The changes of rollout items *)

#[global] Instance distinct_ids_dec ts : Decision (distinct_ids ts).
Proof. unfold distinct_ids. apply _. Defined.

(** The ids are distinct before and after every item. *)
Fixpoint stays_distinct (items : list (str * HistoryItem)) (b : ThreadHistoryBuilder) : bool :=
  bool_decide (distinct_ids (builder_finish b)) &&
  match items with
  | [] => true
  | (new_id, i) :: items => match handle_rollout_item new_id i b with Some b' => stays_distinct items b' | None => false end
  end.

Definition idle (b : ThreadHistoryBuilder) : Prop := builder_ok b /\ active_change_set b = None.

Lemma map_turn_id l : map t_id (map turn_of l) = map pt_id l.
Proof. by rewrite map_map. Qed.

Lemma remove_last_turns k ts : NoDup (map t_id ts) -> remove_turns (map t_id (drop k ts)) ts = take k ts.
Proof.
  intros N. rewrite <- (take_drop k ts) at 2. rewrite <- (take_drop k ts), map_app in N. apply NoDup_app in N as (_ & D & _).
  unfold remove_turns. rewrite List.filter_app.
  assert (E1 : forall l, l ⊆ take k ts -> List.filter (fun t => bool_decide (t_id t ∉ map t_id (drop k ts))) l = l).
  { induction l as [|t l IH]; intros S; [done|]. cbn [List.filter].
    rewrite bool_decide_true by (apply D, list_elem_of_fmap; exists t; split; [done|]; apply S; by left).
    f_equal. apply IH. set_solver. }
  assert (E2 : forall l, l ⊆ drop k ts -> List.filter (fun t => bool_decide (t_id t ∉ map t_id (drop k ts))) l = []).
  { induction l as [|t l IH]; intros S; [done|]. cbn [List.filter].
    rewrite bool_decide_false; [apply IH; set_solver|]. intros X. apply X, list_elem_of_fmap. exists t. split; [done|]. apply S. by left. }
  rewrite E1, E2 by done. by rewrite app_nil_r.
Qed.

Lemma emitted_items es c :
  map ic_turn_id (changed_items (emitted es c))
  = map ic_turn_id (changed_items c) ++ omap (fun e => match e with EmitItem id _ => Some id | EmitTurn _ => None end) es.
Proof.
  revert c. induction es as [|[x|id i] es IH]; intros c; simpl; [by rewrite app_nil_r | |].
  - change (emitted (EmitTurn x :: es) c) with (emitted es (emit (EmitTurn x) c)). by rewrite IH.
  - change (emitted (EmitItem id i :: es) c) with (emitted es (emit (EmitItem id i) c)). rewrite IH. simpl.
    by rewrite map_app, <- app_assoc.
Qed.

(** The steps of a handler on the turns a client has. *)
Lemma reported_changes (f : ThreadHistoryBuilder -> option ThreadHistoryBuilder) b :
  idle b -> reports f b ->
  exists c b', collect_changes f b = Some (c, b') /\ f b = Some b' /\ idle b' /\
    (distinct_ids (builder_finish b') -> covered c (builder_finish b') /\ apply_changes c (builder_finish b) = builder_finish b').
Proof.
  intros [[Ok K] U] (es & b' & M & W & K' & F). exists (emitted es change_set_default), (set_change_set None b'). split_and!.
  - unfold collect_changes. by rewrite F.
  - rewrite <- (set_change_set_same b), U, F. done.
  - split; [|done]. split; [|done]. by apply (moves_indexed _ _ _ M).
  - rewrite (builder_finish_all (set_change_set None b')), (builder_finish_all b) by done.
    change (all_turns (set_change_set None b')) with (all_turns b'). intros D.
    destruct (moves_applied _ _ _ M Ok D) as [_ E]. split; [|by rewrite apply_emitted].
    unfold covered. apply Forall_forall. intros x I. rewrite map_turn_id. destruct (moves_ids _ _ _ M Ok) as [_ G].
    assert (Ix : ic_turn_id x ∈ map ic_turn_id (changed_items (emitted es change_set_default))) by (apply list_elem_of_fmap; eauto).
    rewrite emitted_items in Ix. simpl in Ix. apply list_elem_of_omap in Ix as (e & Ie & Ee).
    apply (proj1 (Forall_forall _ _) G) in Ie. destruct e; simplify_eq. done.
Qed.

Lemma item_changes new_id (i : HistoryItem) b :
  idle b ->
  exists c b', handle_rollout_item_with_changes new_id i b = Some (c, b') /\ handle_rollout_item new_id i b = Some b' /\ idle b' /\
    (distinct_ids (builder_finish b) -> distinct_ids (builder_finish b') ->
     covered c (builder_finish b') /\ apply_changes c (builder_finish b) = builder_finish b').
Proof.
  intros Id. destruct (is_rollback_item i) eqn:R.
  2: { destruct (reported_changes (handle_rollout_item new_id i) b Id) as (c & b' & H1 & H2 & H3 & H4).
       { by apply reports_rollout_item, Id. }
       exists c, b'. by split_and!; [.. | intros _]. }
  destruct i as [[]| | |]; try discriminate R. destruct Id as [[Ok K] U].
  destruct (rollback_rollout_item new_id num_turns b K) as (b' & T & K' & F).
  set (k := length (all_turns b) - N.to_nat num_turns) in *.
  exists (mkChangeSet [] [] (map pt_id (drop k (all_turns b)))), (set_change_set None b'). split_and!.
  - unfold handle_rollout_item_with_changes, collect_changes. by rewrite F.
  - rewrite <- (set_change_set_same b), U, F. done.
  - split; [|done]. split; [|done]. change (all_turns (set_change_set None b')) with (all_turns b'). rewrite T. by apply Forall_take.
  - intros D _. split; [by constructor |]. rewrite (builder_finish_all b K) in D |- *.
    rewrite (builder_finish_all (set_change_set None b')) by done. change (all_turns (set_change_set None b')) with (all_turns b').
    rewrite T. unfold apply_changes. simpl. rewrite <- map_turn_id, <- skipn_map, <- firstn_map. apply remove_last_turns, D.
Qed.

Lemma accumulated_changes (items : list (str * HistoryItem)) a b ts :
  idle b -> stays_distinct items b = true -> acc_ok a -> stands (accumulator_finish a) ts (builder_finish b) ->
  exists a' b', accumulate_changes items a b = Some (a', b') /\ handle_rollout_items items b = Some b' /\
    stands (accumulator_finish a') ts (builder_finish b').
Proof.
  revert a b. induction items as [|[new_id i] items IH]; intros a b Id Dt Ok S; [by exists a, b |].
  simpl in Dt. apply andb_true_iff in Dt as [D%bool_decide_eq_true Dt].
  destruct (item_changes new_id i b Id) as (c & b1 & E & E1 & Id1 & A). rewrite E1 in Dt.
  assert (D1 : distinct_ids (builder_finish b1)).
  { destruct items as [|[? ?] items]; simpl in Dt; apply andb_true_iff in Dt as [D1 _]; by apply bool_decide_eq_true in D1. }
  destruct (A D D1) as [C A1]. destruct (accumulator_push_ok c a Ok) as (a1 & P & Ok1 & F1).
  destruct (IH a1 b1 Id1 Dt Ok1) as (a' & b' & H1 & H2 & H3).
  { rewrite F1, <- A1. apply coalesce_stands; [done|]. by rewrite A1. }
  exists a', b'. simpl. rewrite E. simpl. rewrite P, E1. simpl. done.
Qed.

Lemma handle_rollout_items_idle (items : list (str * HistoryItem)) b b' :
  idle b -> handle_rollout_items items b = Some b' -> idle b'.
Proof.
  revert b. induction items as [|[new_id i] items IH]; intros b Id E; simplify_eq/=; [done|].
  destruct (item_changes new_id i b Id) as (c & b1 & _ & E1 & Id1 & _). rewrite E1 in E. by eapply IH.
Qed.

(** C20: a client that has the turns of a rollout and applies the coalesced
    changes that the builder reports for further rollout items has exactly the
    turns that rebuilding from the longer rollout gives, with every item and
    every turn reported at most once, as long as no two turns and no two items
    of a turn share an id. *)
Theorem changes_rebuild_history (before items : list (str * HistoryItem)) b :
  handle_rollout_items before builder_new = Some b -> stays_distinct items b = true ->
  exists c b', handle_rollout_items_with_changes items b = Some (c, b') /\ distinct_changes c /\
    build_turns_from_rollout_items (before ++ items) = Some (apply_changes c (builder_finish b)) /\
    apply_changes c (builder_finish b) = builder_finish b'.
Proof.
  intros B D. assert (Id : idle b) by (by apply (handle_rollout_items_idle before builder_new)).
  destruct (accumulated_changes items accumulator_default b (builder_finish b) Id D accumulator_default_ok (default_stands _))
    as (a' & b' & A & H & (Dc & _ & E)).
  exists (accumulator_finish a'), b'. split_and!; [| done | | done].
  - unfold handle_rollout_items_with_changes. by rewrite A.
  - unfold build_turns_from_rollout_items. rewrite handle_rollout_items_app, B. simpl. by rewrite H, E.
Qed.

End changes.

(** ** Truncation by turn id *)

Section truncation.
Context {json : SerdeJson} {parsers : FragmentParsers} {lib : ThreadLib}.
Implicit Types (items : list (str * HistoryItem)).

(** The truncation that always looks the turn up in the rebuilt history. *)
Definition cut_before items (turns : list Turn) (id : str) : result (list (str * HistoryItem)) str :=
  let listed := existsb (fun t => str_eqb (t_id t) id) turns in
  match find_position (fun i => is_turn_started id (snd i)) items with
  | Some n => if listed then Ok (take n items) else Err (not_found (lit "beforeTurnId") id)
  | None => if listed then Err (not_canonical (lit "beforeTurnId") id) else Err (not_found (lit "beforeTurnId") id)
  end.

Lemma find_position_some {A} (f : A -> bool) l n :
  find_position f l = Some n ->
  exists x, l = take n l ++ x :: drop (S n) l /\ f x = true /\ Forall (fun y => f y = false) (take n l).
Proof.
  revert n. induction l as [|x l IH]; intros n H; simplify_eq/=. destruct (f x) eqn:E; simplify_eq; [by exists x |].
  destruct (find_position f l) as [m|]; simplify_eq/=. destruct (IH m eq_refl) as (y & L & Fy & F).
  exists y. split_and!; [by rewrite <- L | done | by constructor].
Qed.

Lemma find_position_none {A} (f : A -> bool) l : find_position f l = None -> Forall (fun y => f y = false) l.
Proof.
  induction l as [|x l IH]; intros H; [done|]. simpl in H. destruct (f x) eqn:E; [done|].
  destruct (find_position f l); [done|]. constructor; [done|]. by apply IH.
Qed.

Lemma handled_ids new_id (i : HistoryItem) b b' :
  builder_ok b -> is_rollback_item i = false -> handle_rollout_item new_id i b = Some b' ->
  builder_ok b' /\ map pt_id (all_turns b) ⊆ map pt_id (all_turns b').
Proof.
  intros Ok R E. destruct (reports_rollout_item new_id i b R Ok) as (es & b1 & M & _ & K & F).
  specialize (F (active_change_set b)). rewrite set_change_set_same, E in F. simplify_eq.
  split; [split; [|done]; by apply (moves_indexed _ _ _ M), Ok | by apply (moves_ids _ _ _ M), Ok].
Qed.

Lemma handled_items_ids items b b' :
  builder_ok b -> Forall (fun i => is_rollback_item (snd i) = false) items -> handle_rollout_items items b = Some b' ->
  map pt_id (all_turns b) ⊆ map pt_id (all_turns b').
Proof.
  revert b. induction items as [|[new_id i] items IH]; intros b Ok R E; simplify_eq/=; [done|].
  apply Forall_cons in R as [Ri R]. destruct (handle_rollout_item new_id i b) as [b1|] eqn:E1; [|done].
  destruct (handled_ids _ _ _ _ Ok Ri E1) as [Ok1 S]. etransitivity; [exact S | by apply IH].
Qed.

Lemma started_turn_present new_id id started_at b b' :
  handle_rollout_item new_id (HEvent (EvTurnStarted id started_at)) b = Some b' -> id ∈ map pt_id (all_turns b').
Proof.
  intros E. unfold handle_rollout_item in E. simpl in E. unfold handle_turn_started in E. simplify_eq.
  unfold all_turns. simpl. rewrite map_app. simpl. set_solver.
Qed.

(** A persisted turn boundary proves that the turn exists unless a later
    rollback removes it. *)
Lemma boundary_lists_turn items id n b :
  find_position (fun i => is_turn_started id (snd i)) items = Some n ->
  existsb (fun i => is_rollback (snd i)) (drop (S n) items) = false ->
  handle_rollout_items items builder_new = Some b ->
  existsb (fun t => str_eqb (t_id t) id) (builder_finish b) = true.
Proof.
  intros P R H. destruct (find_position_some _ _ _ P) as ([new_id i] & L & Si & _). simpl in Si.
  rewrite L, handle_rollout_items_app in H.
  destruct (handle_rollout_items_ok (take n items) builder_new builder_new_ok) as (b1 & E1 & Ok1). rewrite E1 in H. simpl in H.
  destruct (handle_rollout_item_ok new_id i b1 Ok1) as (b2 & E2 & Ok2). rewrite E2 in H. simpl in H.
  destruct i as [e| | |]; try discriminate Si. destruct e; try discriminate Si. apply str_eqb_eq in Si as ->.
  apply started_turn_present in E2 as I. destruct (handle_rollout_items_ok (drop (S n) items) b2 Ok2) as (b3 & E3 & Ok3).
  rewrite E3 in H. simplify_eq. assert (I' : id ∈ map pt_id (all_turns b)).
  { eapply handled_items_ids; [exact Ok2 | | exact E3 | exact I]. apply Forall_forall. intros x Ix.
    destruct (is_rollback_item (snd x)) eqn:Rx; [|done]. exfalso. rewrite <- not_true_iff_false in R. apply R.
    apply existsb_exists. exists x. split; [by apply list_elem_of_In |]. by destruct (snd x) as [[]| | |]. }
  rewrite builder_finish_all by apply Ok3. apply existsb_exists. apply list_elem_of_fmap in I' as (t & -> & It).
  exists (turn_of t). split; [by apply in_map, list_elem_of_In | apply str_eqb_refl].
Qed.

(** C23: cutting a rollout before a turn is the cut that looks the turn up in
    the rebuilt history every time: the code rebuilds only when a rollback
    follows the turn's boundary or there is no boundary, and that is enough. *)
Theorem truncate_before_turn_looks_up items id :
  exists turns, build_turns_from_rollout_items items = Some turns /\
    truncate_rollout_before_turn_id items id = Some (cut_before items turns id).
Proof.
  destruct (handle_rollout_items_ok items builder_new builder_new_ok) as (b & E & Ok).
  exists (builder_finish b). unfold truncate_rollout_before_turn_id, build_turns_from_rollout_items. rewrite E. simpl.
  split; [done|]. f_equal. unfold cut_before.
  destruct (find_position (fun i => is_turn_started id (snd i)) items) as [n|] eqn:P; [|done].
  destruct (existsb (fun i => is_rollback (snd i)) (drop (S n) items)) eqn:R; simpl.
  - by destruct (existsb _ (builder_finish b)).
  - by rewrite (boundary_lists_turn items id n b P R E).
Qed.

(** When cutting a rollout after a turn succeeds, the turn is listed and
    not in progress, and what remains is the rollout up to the turn's first
    boundary, the boundary, and everything up to the next boundary of any
    turn, or to the end. *)
Theorem truncate_after_turn_boundaries items id kept_items :
  truncate_rollout_after_turn_id items id = Some (Ok kept_items) ->
  exists before boundary during after turns turn,
    items = before ++ boundary :: during ++ after /\ kept_items = before ++ boundary :: during /\
    is_turn_started id (snd boundary) = true /\
    Forall (fun i => is_turn_started id (snd i) = false) before /\
    Forall (fun i => is_any_turn_started (snd i) = false) during /\
    match after with [] => True | i :: _ => is_any_turn_started (snd i) = true end /\
    build_turns_from_rollout_items items = Some turns /\ turn ∈ turns /\ t_id turn = id /\ t_status turn <> TurnInProgress.
Proof.
  unfold truncate_rollout_after_turn_id. destruct (build_turns_from_rollout_items items) as [turns|] eqn:B; [|done]. simpl.
  destruct (List.find _ turns) as [turn|] eqn:F; [|done]. apply List.find_some in F as [It Et%str_eqb_eq].
  destruct (find_position (fun i => is_turn_started id (snd i)) items) as [n|] eqn:P; [|done]. case_bool_decide as St; [done|].
  destruct (find_position_some _ _ _ P) as (x & L & Sx & Fp).
  intros H. injection H as H. set (rest := drop (S n) items) in *.
  destruct (find_position (fun i => is_any_turn_started (snd i)) rest) as [m|] eqn:Q.
  - destruct (find_position_some _ _ _ Q) as (y & Ly & Sy & Fq).
    exists (take n items), x, (take m rest), (y :: drop (S m) rest), turns, turn.
    split_and!; auto; [by rewrite <- Ly | | by apply list_elem_of_In].
    rewrite <- H. rewrite L at 1. assert (Ln : length (take n items) = n).
    { apply (f_equal length) in L. rewrite length_app in L. simpl in L. rewrite length_take in *. lia. }
    rewrite take_app_ge by lia. rewrite Ln. by replace (S (n + m) - n) with (S m) by lia.
  - exists (take n items), x, rest, [], turns, turn. split_and!; auto.
    + by rewrite app_nil_r.
    + rewrite <- H. by rewrite firstn_all.
    + by apply find_position_none.
    + by apply list_elem_of_In.
Qed.

End truncation.

(** ** Examples *)

#[local] Existing Instances sample_json ContextManager.sample_parsers.

Definition sample_thread_lib : ThreadLib := {|
  PathUri := str; AbsolutePathBuf := str; LegacyAppPathString := str;
  path_uri_into := fun path => path; absolute_path_into := fun path => path;
  path_uri_join := fun base path => Some (base ++ path); absolute_path_join := fun base path => base ++ path; json_null := tt;
  redact_secrets := fun text => text; shlex_join := @List.concat _; parse_command := fun _ => [];
  ReviewOutputEvent := str; render_review_output_text := fun text => text;
  ReasoningEffort := unit; OutputBody := unit; ImageGenerationFailure := unit; ReviewTarget := unit |}.

#[local] Existing Instance sample_thread_lib.

Definition sample_event (e : EventMsg) : str * HistoryItem := ([], HEvent e).
Definition sample_user (text : str) : str * HistoryItem :=
  sample_event (EvUserMessage (mkUserMessageEvent None text None [] [] [] None [] [])).
Definition sample_agent (text : str) : str * HistoryItem := sample_event (EvAgentMessage text None None None).
Definition sample_started (id : str) : str * HistoryItem := sample_event (EvTurnStarted id (Some 1%Z)).
Definition sample_completed (id : str) : str * HistoryItem := sample_event (EvTurnComplete (mkTurnComplete id None None (Some 2%Z) None)).

Definition sample_before : list (str * HistoryItem) :=
  [sample_started (lit "a"); sample_user (lit "hello"); sample_agent (lit "hi")].

(** A turn goes on and ends, a second one is rolled back and a third one
    takes its id. *)
Definition sample_after : list (str * HistoryItem) :=
  [sample_event (EvAgentReasoning (lit "one")); sample_event (EvAgentReasoning (lit "two"));
   sample_event (EvWebSearchBegin (lit "search")); sample_agent (lit "wait");
   sample_event (EvImageGenerationBegin (lit "search")); sample_completed (lit "a");
   sample_started (lit "b"); sample_user (lit "again"); sample_event (EvThreadRolledBack 1);
   sample_started (lit "b"); sample_agent (lit "better")].

Definition sample_builder : ThreadHistoryBuilder := default builder_new (handle_rollout_items sample_before builder_new).

Lemma changes_rebuild_history_witness :
  exists c b', handle_rollout_items_with_changes sample_after sample_builder = Some (c, b') /\ distinct_changes c /\
    build_turns_from_rollout_items (sample_before ++ sample_after) = Some (apply_changes c (builder_finish sample_builder)) /\
    apply_changes c (builder_finish sample_builder) = builder_finish b'.
Proof. apply (changes_rebuild_history sample_before sample_after sample_builder); vm_compute; reflexivity. Defined.

Lemma truncate_after_turn_boundaries_witness :
  exists before boundary during after turns turn,
    sample_before ++ sample_after = before ++ boundary :: during ++ after /\ take 9 (sample_before ++ sample_after) = before ++ boundary :: during /\
    is_turn_started (lit "a") (snd boundary) = true /\
    Forall (fun i => is_turn_started (lit "a") (snd i) = false) before /\
    Forall (fun i => is_any_turn_started (snd i) = false) during /\
    match after with [] => True | i :: _ => is_any_turn_started (snd i) = true end /\
    build_turns_from_rollout_items (sample_before ++ sample_after) = Some turns /\ turn ∈ turns /\ t_id turn = lit "a" /\
    t_status turn <> TurnInProgress.
Proof. apply (truncate_after_turn_boundaries (sample_before ++ sample_after) (lit "a")); vm_compute; reflexivity. Defined.
