(* ===== verification/HistoryProjection.v ===== *)
(** * Materialising a thread's history

    A paginated thread keeps its history twice: as lines of JSON appended to a
    rollout file, and as rows of turns and items in a database that reads use.
    app-server-protocol/src/protocol/thread_history_projection.rs says which
    changes one line stands for;
    thread-store/src/local/thread_history_materialization.rs reads the lines that
    were appended since the last time; thread-store/src/local/thread_history.rs
    applies them in a transaction together with the new byte offset and ordinal.

    The tables are those of one thread, maps from their primary keys to rows,
    and an SQL statement is the function on them that it denotes.  A transaction
    that fails leaves no trace, so an error carries no store.  JSON, the decoding of
    lines and the syntax of timestamps are the class [ProjectionLib]; the JSON
    of an item in a row is the item.  Numbers of the file are 64 bits wide. *)

From S2P Require Import Prelude RustStr Truncate OutputTruncation ResponseItem ContextFragments EventMapping ThreadItems ThreadHistory.

Definition u64_max : N := 18446744073709551615.

(** [u64::checked_add] *)
Definition checked_add (a b : N) : option N := if (a + b <=? u64_max)%N then Some (a + b)%N else None.

Section projection.
Context {json : SerdeJson} {parsers : FragmentParsers} {lib : ThreadLib}.

(** [RolloutItem], apart from what the builder reads a realtime item. *)
Inductive LineItem (RealtimeItem : Type) := LineHistory (i : HistoryItem) | LineRealtime (i : RealtimeItem).
#[global] Arguments LineHistory {_} _.
#[global] Arguments LineRealtime {_} _.

Record RolloutLine (RealtimeItem : Type) := mkLine {
  rl_timestamp : str;
  rl_ordinal : option N;
  rl_item : LineItem RealtimeItem }.
#[global] Arguments mkLine {_} _ _ _.
#[global] Arguments rl_timestamp {_} _.
#[global] Arguments rl_ordinal {_} _.
#[global] Arguments rl_item {_} _.

Class ProjectionLib := {
  RealtimeItem : Type;
  realtime_item_id : RealtimeItem -> str;
  from_slice : list N -> option Value;
  get_ordinal : Value -> option N;
  decode_rollout_line : Value -> option (RolloutLine RealtimeItem);
  parse_from_rfc3339 : str -> option Z;
}.
Context {projection_lib : ProjectionLib}.

(** ** Which changes a line stands for *)

Definition one_turn (change : ThreadHistoryTurnChange) : ThreadHistoryChangeSet := mkChangeSet [] [change] [].

Definition project_rollout_line (line : RolloutLine RealtimeItem) : ThreadHistoryChangeSet :=
  match rl_item line with
  | LineHistory (HEvent (EvTurnStarted turn_id started_at)) =>
      one_turn (mkTurnChange turn_id TurnInProgress None started_at None None)
  | LineHistory (HEvent (EvTurnComplete event)) =>
      one_turn (mkTurnChange (cp_turn_id event) (match cp_error event with Some _ => TurnFailed | None => TurnCompleted end)
                  (turn_error <$> cp_error event) (cp_started_at event) (cp_completed_at event) (cp_duration_ms event))
  | LineHistory (HEvent (EvTurnAborted event)) =>
      match ab_turn_id event with
      | None => change_set_default
      | Some turn_id =>
          one_turn (mkTurnChange turn_id TurnInterrupted None (ab_started_at event) (ab_completed_at event) (ab_duration_ms event))
      end
  | LineHistory (HEvent (EvItemCompleted turn_id i started_at_ms completed_at_ms)) =>
      mkChangeSet [mkItemChange turn_id (thread_item_of_core i) started_at_ms
                     (if (completed_at_ms =? 0)%Z then None else Some completed_at_ms)] [] []
  | _ => change_set_default
  end.

(** ** Reading the appended lines *)

Record ProjectedRolloutLine := mkProjected {
  pl_ordinal : N;
  pl_start_byte_offset : N;
  pl_end_byte_offset : N;
  pl_fallback_created_at_ms : option Z;
  pl_changes : ThreadHistoryChangeSet;
  pl_realtime_item : option RealtimeItem }.

Inductive RolloutProjectionStep :=
| StepLine (line : ProjectedRolloutLine)
| SkippedOrdinalRange (start_ordinal end_ordinal_exclusive : N).

Definition newline : N := 10.

(** [u8::is_ascii_whitespace] *)
Definition is_whitespace_byte (b : N) : bool :=
  (b =? 32)%N || (b =? 9)%N || (b =? 10)%N || (b =? 12)%N || (b =? 13)%N.

(** [iter().rposition(..)] *)
Fixpoint rposition (f : N -> bool) (bytes : list N) : option nat :=
  match bytes with
  | [] => None
  | b :: bytes => match rposition f bytes with Some n => Some (S n) | None => if f b then Some 0 else None end
  end.

(** [split_inclusive(|byte| byte == newline)], with the line read so far. *)
Fixpoint split_inclusive (line bytes : list N) : list (list N) :=
  match bytes with
  | [] => if is_nil line then [] else [line]
  | b :: bytes => if (b =? newline)%N then (line ++ [b]) :: split_inclusive [] bytes else split_inclusive (line ++ [b]) bytes
  end.

Definition complete_byte_count (bytes : list N) : nat :=
  match rposition (fun b => (b =? newline)%N) bytes with Some index => S index | None => 0 end.

(** The variables of the loop. *)
Record ReadState := mkRead {
  projections : list RolloutProjectionStep;
  next_ordinal : N;
  next_offset : N;
  pending_rejected_line_count : N;
  line_start_offset : N }.

Definition reject_line (line_end_offset : N) (s : ReadState) : ReadState :=
  mkRead (projections s) (next_ordinal s) (next_offset s) (pending_rejected_line_count s + 1) line_end_offset.

Definition is_realtime (line : RolloutLine RealtimeItem) : option RealtimeItem :=
  match rl_item line with LineRealtime i => Some i | LineHistory _ => None end.

Definition unexpected_ordinal (thread_id : str) (expected got : N) : str :=
  lit "thread history projection for " ++ thread_id ++ lit " expected ordinal " ++ fmt_N expected ++ lit ", got " ++ fmt_N got.

(** A decoded line with its ordinal: [None] rejects it. *)
Definition project_line (subagent_history_start_ordinal : option N) (ordinal line_end_offset : N) (line : RolloutLine RealtimeItem)
    (s : ReadState) : option ProjectedRolloutLine :=
  let is_inherited_subagent_history :=
    match subagent_history_start_ordinal with Some start => (ordinal <? start)%N | None => false end in
  let changes := if is_inherited_subagent_history then change_set_default else project_rollout_line line in
  let realtime_item := if is_inherited_subagent_history then None else is_realtime line in
  fallback ←
    (if existsb (fun i => match ic_started_at_ms i with None => true | Some _ => false end) (changed_items changes)
        || (match realtime_item with Some _ => true | None => false end)
     then Some <$> parse_from_rfc3339 (rl_timestamp line)
     else Some None);
  Some (mkProjected ordinal (line_start_offset s) line_end_offset fallback changes realtime_item).

(** The body of the loop. *)
Definition read_line (thread_id : str) (subagent_history_start_ordinal : option N) (line_bytes : list N) (s : ReadState)
    : result ReadState str :=
  match checked_add (line_start_offset s) (N.of_nat (length line_bytes)) with
  | None => Err (lit "durable rollout byte offset overflow")
  | Some line_end_offset =>
      if forallb is_whitespace_byte line_bytes then
        Ok (mkRead (projections s) (next_ordinal s)
              (if (pending_rejected_line_count s =? 0)%N then line_end_offset else next_offset s)
              (pending_rejected_line_count s) line_end_offset)
      else
        match from_slice line_bytes with
        | None => Ok (reject_line line_end_offset s)
        | Some value =>
            let value_ordinal := get_ordinal value in
            let line := decode_rollout_line value in
            match (match (line ← line; rl_ordinal line) with Some ordinal => Some ordinal | None => value_ordinal end), line with
            | None, None => Ok (reject_line line_end_offset s)
            | None, Some _ => Err (lit "paginated rollout line for " ++ thread_id ++ lit " is missing an ordinal")
            | Some ordinal, _ =>
                if (ordinal <? next_ordinal s)%N then Err (unexpected_ordinal thread_id (next_ordinal s) ordinal)
                else
                  match line with
                  | None => Ok (reject_line line_end_offset s)
                  | Some line =>
                      let skipped_ordinal_count := (ordinal - next_ordinal s)%N in
                      if (pending_rejected_line_count s <? skipped_ordinal_count)%N
                      then Err (unexpected_ordinal thread_id (next_ordinal s) ordinal ++ lit "; "
                                ++ fmt_N (pending_rejected_line_count s) ++ lit " rejected rollout lines cannot cover that gap")
                      else
                        match project_line subagent_history_start_ordinal ordinal line_end_offset line s with
                        | None => Ok (reject_line line_end_offset s)
                        | Some projected =>
                            match checked_add ordinal 1 with
                            | None => Err (lit "rollout ordinal exceeds SQLite integer range")
                            | Some next_line_ordinal =>
                                Ok (mkRead (projections s
                                            ++ (if (0 <? skipped_ordinal_count)%N then [SkippedOrdinalRange (next_ordinal s) ordinal] else [])
                                            ++ [StepLine projected])
                                      next_line_ordinal line_end_offset 0 line_end_offset)
                            end
                        end
                  end
            end
        end
  end.

Fixpoint read_lines (thread_id : str) (subagent_history_start_ordinal : option N) (lines : list (list N)) (s : ReadState)
    : result ReadState str :=
  match lines with
  | [] => Ok s
  | line :: lines => let? s := read_line thread_id subagent_history_start_ordinal line s in
                     read_lines thread_id subagent_history_start_ordinal lines s
  end.

(** The file is absent or has these bytes; [io_error] is the text of the
    error for an absent one. *)
Definition read_projection_steps (file : option (list N)) (io_error : str) (start_offset expected_ordinal : N) (thread_id : str)
    (subagent_history_start_ordinal : option N) : result (list RolloutProjectionStep * N) str :=
  match file with
  | None => if (start_offset =? 0)%N then Ok ([], 0%N) else Err io_error
  | Some file =>
      if (N.of_nat (length file) <? start_offset)%N then Err (lit "durable rollout shrank before projection")
      else
        let bytes := drop (N.to_nat start_offset) file in
        let lines := split_inclusive [] (take (complete_byte_count bytes) bytes) in
        let? s := read_lines thread_id subagent_history_start_ordinal lines
                    (mkRead [] expected_ordinal start_offset 0 start_offset) in
        Ok (projections s, next_offset s)
  end.

(** ** The tables *)

(** A row of [thread_turns]. *)
Record TurnRow := mkTurnRow {
  tr_rollout_ordinal : Z;
  tr_rollout_byte_offset : Z;
  tr_rollout_end_ordinal : option Z;
  tr_rollout_end_byte_offset : option Z;
  tr_status : TurnStatus;
  tr_error : option TurnError;
  tr_started_at : option Z;
  tr_completed_at : option Z;
  tr_duration_ms : option Z;
  tr_first_user_item_id : option str;
  tr_final_agent_item_id : option str }.

(** A row of [thread_items]. *)
Record ItemRow := mkItemRow {
  ir_rollout_ordinal : Z;
  ir_updated_at_ordinal : Z;
  ir_created_at_ms : Z;
  ir_item : ThreadItem }.

(** A row of [thread_realtime_items]. *)
Record RealtimeRow := mkRealtimeRow {
  rr_rollout_ordinal : Z;
  rr_created_at_ms : Z;
  rr_item : RealtimeItem }.

Record HistoryRows := mkRows {
  turn_rows : gmap str TurnRow;
  item_rows : gmap (str * str) ItemRow;
  realtime_rows : gmap str RealtimeRow }.

(** The rows and the row of [thread_history_projection_state]. *)
Record HistoryStore := mkStore { rows : HistoryRows; projection_row : option (Z * Z) }.

Definition empty_rows : HistoryRows := mkRows ∅ ∅ ∅.
Definition empty_store : HistoryStore := mkStore empty_rows None.

Definition set_turn_rows (ts : gmap str TurnRow) (r : HistoryRows) : HistoryRows := mkRows ts (item_rows r) (realtime_rows r).

Definition is_terminal (s : TurnStatus) : bool := match s with TurnInProgress => false | _ => true end.

(** The condition of the updates: the turn is still open. *)
Definition is_open (row : TurnRow) : bool :=
  match tr_rollout_end_ordinal row with None => bool_decide (tr_status row = TurnInProgress) | Some _ => false end.

Definition with_summary (first final : option str) (row : TurnRow) : TurnRow :=
  mkTurnRow (tr_rollout_ordinal row) (tr_rollout_byte_offset row) (tr_rollout_end_ordinal row) (tr_rollout_end_byte_offset row)
    (tr_status row) (tr_error row) (tr_started_at row) (tr_completed_at row) (tr_duration_ms row) first final.

Definition coalesce_sql {A} (a b : option A) : option A := match a with Some _ => a | None => b end.

(** [INSERT INTO thread_turns .. ON CONFLICT .. DO UPDATE .. WHERE ..] *)
Definition upsert_turn (rollout_ordinal rollout_byte_offset rollout_end_byte_offset : Z) (turn : ThreadHistoryTurnChange) (r : HistoryRows)
    : HistoryRows :=
  let '(terminal_ordinal, terminal_byte_offset) :=
    if is_terminal (tc_status turn) then (Some rollout_ordinal, Some rollout_end_byte_offset) else (None, None) in
  match turn_rows r !! tc_turn_id turn with
  | None =>
      set_turn_rows (<[tc_turn_id turn := mkTurnRow rollout_ordinal rollout_byte_offset terminal_ordinal terminal_byte_offset
        (tc_status turn) (tc_error turn) (tc_started_at turn) (tc_completed_at turn) (tc_duration_ms turn) None None]> (turn_rows r)) r
  | Some row =>
      if is_open row then
        set_turn_rows (<[tc_turn_id turn := mkTurnRow (tr_rollout_ordinal row) (tr_rollout_byte_offset row) terminal_ordinal
          terminal_byte_offset (tc_status turn) (tc_error turn) (tc_started_at turn) (tc_completed_at turn) (tc_duration_ms turn)
          (tr_first_user_item_id row) (tr_final_agent_item_id row)]> (turn_rows r)) r
      else r
  end.

(** [SELECT item_id .. ORDER BY rollout_ordinal LIMIT 1], where [before] is the
    order of the ordinals. *)
Definition select_item (before : Z -> Z -> bool) (wanted : ThreadItem -> bool) (turn_id : str) (r : HistoryRows) : option str :=
  snd <$> fold_left (fun best '(key, row) =>
    if str_eqb (fst key) turn_id && wanted (ir_item row) then
      match best with
      | Some (ordinal, _) => if before (ir_rollout_ordinal row) ordinal then Some (ir_rollout_ordinal row, snd key) else best
      | None => Some (ir_rollout_ordinal row, snd key)
      end
    else best) (map_to_list (item_rows r)) None.

Definition is_user_message (i : ThreadItem) : bool := match i with TUserMessage _ _ _ => true | _ => false end.
Definition is_final_answer (i : ThreadItem) : bool := match i with TAgentMessage _ _ (Some FinalAnswer) _ _ => true | _ => false end.
Definition is_plain_answer (i : ThreadItem) : bool := match i with TAgentMessage _ _ None _ _ => true | _ => false end.

(** [UPDATE thread_turns SET first_user_item_id = .., final_agent_item_id = ..] *)
Definition fill_summary (rollout_ordinal : Z) (turn_id : str) (r : HistoryRows) : HistoryRows :=
  match turn_rows r !! turn_id with
  | None => r
  | Some row =>
      if bool_decide (tr_rollout_end_ordinal row = Some rollout_ordinal) || bool_decide (tr_status row = TurnInProgress) then
        let first := coalesce_sql (tr_first_user_item_id row) (select_item Z.ltb is_user_message turn_id r) in
        let final :=
          coalesce_sql (select_item Z.gtb is_final_answer turn_id r)
            (coalesce_sql (if is_terminal (tr_status row) then select_item Z.gtb is_plain_answer turn_id r else None)
               (tr_final_agent_item_id row)) in
        set_turn_rows (<[turn_id := with_summary first final row]> (turn_rows r)) r
      else r
  end.

Definition apply_turn (rollout_ordinal rollout_byte_offset rollout_end_byte_offset : Z) (r : HistoryRows) (turn : ThreadHistoryTurnChange)
    : HistoryRows :=
  fill_summary rollout_ordinal (tc_turn_id turn)
    (upsert_turn rollout_ordinal rollout_byte_offset rollout_end_byte_offset turn r).

(** [INSERT INTO thread_items .. ON CONFLICT .. DO UPDATE ..] *)
Definition upsert_item (rollout_ordinal created_at_ms : Z) (change : ThreadHistoryItemChange) (r : HistoryRows) : HistoryRows :=
  let key := (ic_turn_id change, item_id (ic_item change)) in
  let row :=
    match item_rows r !! key with
    | None => mkItemRow rollout_ordinal rollout_ordinal created_at_ms (ic_item change)
    | Some row => mkItemRow (ir_rollout_ordinal row) rollout_ordinal (ir_created_at_ms row) (ic_item change)
    end in
  mkRows (turn_rows r) (<[key := row]> (item_rows r)) (realtime_rows r).

(** The summary ids on the row of an open turn. *)
Definition summarize_item (change : ThreadHistoryItemChange) (r : HistoryRows) : HistoryRows :=
  let id := item_id (ic_item change) in
  match turn_rows r !! ic_turn_id change with
  | Some row =>
      if is_open row then
        if is_user_message (ic_item change) then
          set_turn_rows (<[ic_turn_id change := with_summary (coalesce_sql (tr_first_user_item_id row) (Some id))
            (tr_final_agent_item_id row) row]> (turn_rows r)) r
        else if is_final_answer (ic_item change) then
          set_turn_rows (<[ic_turn_id change := with_summary (tr_first_user_item_id row) (Some id) row]> (turn_rows r)) r
        else r
      else r
  | None => r
  end.

Definition apply_item (thread_id : str) (rollout_ordinal : Z) (fallback_created_at_ms : option Z) (change : ThreadHistoryItemChange)
    (r : HistoryRows) : result HistoryRows str :=
  match coalesce_sql (ic_started_at_ms change) fallback_created_at_ms with
  | None => Err (lit "thread history projection for " ++ thread_id ++ lit " is missing an item creation timestamp")
  | Some created_at_ms => Ok (summarize_item change (upsert_item rollout_ordinal created_at_ms change r))
  end.

Fixpoint apply_items (thread_id : str) (rollout_ordinal : Z) (fallback_created_at_ms : option Z) (changes : list ThreadHistoryItemChange)
    (r : HistoryRows) : result HistoryRows str :=
  match changes with
  | [] => Ok r
  | change :: changes =>
      let? r := apply_item thread_id rollout_ordinal fallback_created_at_ms change r in
      apply_items thread_id rollout_ordinal fallback_created_at_ms changes r
  end.

Definition apply_change_set (thread_id : str) (rollout_ordinal rollout_byte_offset rollout_end_byte_offset : Z)
    (fallback_created_at_ms : option Z) (changes : ThreadHistoryChangeSet) (r : HistoryRows) : result HistoryRows str :=
  apply_items thread_id rollout_ordinal fallback_created_at_ms (changed_items changes)
    (fold_left (apply_turn rollout_ordinal rollout_byte_offset rollout_end_byte_offset) (changed_turns changes) r).

(** [INSERT INTO thread_realtime_items .. ON CONFLICT .. DO NOTHING] *)
Definition insert_realtime_item (ordinal : Z) (fallback_created_at_ms : option Z) (i : RealtimeItem) (r : HistoryRows)
    : result HistoryRows str :=
  match fallback_created_at_ms with
  | None => Err (lit "realtime rollout item is missing its timestamp")
  | Some created_at_ms =>
      Ok (mkRows (turn_rows r) (item_rows r)
            (match realtime_rows r !! realtime_item_id i with
             | Some _ => realtime_rows r
             | None => <[realtime_item_id i := mkRealtimeRow ordinal created_at_ms i]> (realtime_rows r)
             end))
  end.

Definition sqlite_integer (value : N) (field : str) : result Z str :=
  if (Z.of_N value <=? i64_max)%Z then Ok (Z.of_N value) else Err (field ++ lit " exceeds SQLite integer range").

(** The errors print what the database holds, which may be negative. *)
Definition fmt_integer (z : Z) : str := if (z <? 0)%Z then lit "-" ++ fmt_N (Z.to_N (- z)) else fmt_N (Z.to_N z).

Definition expected_integer (thread_id : str) (expected got : Z) : str :=
  lit "thread history projection for " ++ thread_id ++ lit " expected ordinal " ++ fmt_integer expected ++ lit ", got " ++ fmt_integer got.

(** The body of the loop of [apply_projection]. *)
Definition apply_step (thread_id : str) (step : RolloutProjectionStep) (s : HistoryRows * Z) : result (HistoryRows * Z) str :=
  let '(r, next_ordinal) := s in
  match step with
  | StepLine projection =>
      let? ordinal := sqlite_integer (pl_ordinal projection) (lit "rollout ordinal") in
      if negb (ordinal =? next_ordinal)%Z then Err (expected_integer thread_id next_ordinal ordinal)
      else
        let? start_offset := sqlite_integer (pl_start_byte_offset projection) (lit "rollout byte offset") in
        let? end_offset := sqlite_integer (pl_end_byte_offset projection) (lit "rollout byte offset") in
        let? r := apply_change_set thread_id ordinal start_offset end_offset (pl_fallback_created_at_ms projection)
                    (pl_changes projection) r in
        let? r := match pl_realtime_item projection with
                  | Some i => insert_realtime_item ordinal (pl_fallback_created_at_ms projection) i r
                  | None => Ok r
                  end in
        if (next_ordinal + 1 <=? i64_max)%Z then Ok (r, (next_ordinal + 1)%Z)
        else Err (lit "rollout ordinal exceeds SQLite integer range")
  | SkippedOrdinalRange start_ordinal end_ordinal_exclusive =>
      let? start_ordinal := sqlite_integer start_ordinal (lit "rollout ordinal") in
      if negb (start_ordinal =? next_ordinal)%Z then Err (expected_integer thread_id next_ordinal start_ordinal)
      else
        let? end_ordinal := sqlite_integer end_ordinal_exclusive (lit "rollout ordinal") in
        if (end_ordinal <=? start_ordinal)%Z
        then Err (lit "thread history projection for " ++ thread_id ++ lit " has an empty skipped ordinal range")
        else Ok (r, end_ordinal)
  end.

Fixpoint apply_steps (thread_id : str) (steps : list RolloutProjectionStep) (s : HistoryRows * Z) : result (HistoryRows * Z) str :=
  match steps with
  | [] => Ok s
  | step :: steps => let? s := apply_step thread_id step s in apply_steps thread_id steps s
  end.

Definition apply_projection (store : HistoryStore) (thread_id : str) (start_offset next_offset initial_ordinal : N)
    (steps : list RolloutProjectionStep) : result HistoryStore str :=
  let? initial_ordinal := sqlite_integer initial_ordinal (lit "rollout ordinal") in
  let '(expected_offset, next_ordinal) := default (0%Z, initial_ordinal) (projection_row store) in
  let? start_offset := sqlite_integer start_offset (lit "rollout byte offset") in
  if negb (expected_offset =? start_offset)%Z
  then Err (lit "thread history projection for " ++ thread_id ++ lit " is behind durable rollout")
  else
    let? s := apply_steps thread_id steps (rows store, next_ordinal) in
    let? next_offset := sqlite_integer next_offset (lit "rollout byte offset") in
    Ok (mkStore (fst s) (Some (next_offset, snd s))).

(** [projection_state]: [None] when there is no row yet. *)
Definition projection_state (store : HistoryStore) (thread_id : str) : result (option (N * N)) str :=
  match projection_row store with
  | None => Ok None
  | Some (offset, ordinal) =>
      if (offset <? 0)%Z then Err (lit "thread history projection for " ++ thread_id ++ lit " has a negative byte offset")
      else if (ordinal <? 0)%Z then Err (lit "thread history projection for " ++ thread_id ++ lit " has a negative ordinal")
      else Ok (Some (Z.to_N offset, Z.to_N ordinal))
  end.

(** What is read of the first line of the rollout. *)
Record SessionMeta := mkMeta { history_base_end_ordinal_exclusive : option N; subagent_history_start_ordinal : option N }.

(** With a database and a session line [meta]; the result is the new store. *)
Definition materialize_to_sqlite (thread_id : str) (meta : result SessionMeta str) (file : option (list N)) (io_error : str)
    (store : HistoryStore) : result HistoryStore str :=
  let? state := projection_state store thread_id in
  let start_offset := match state with Some (offset, _) => offset | None => 0%N end in
  match state, file with
  | None, None => Ok store
  | _, _ =>
      let? meta := meta in
      let initial_ordinal := default 0%N (history_base_end_ordinal_exclusive meta) in
      let expected_ordinal := match state with Some (_, ordinal) => ordinal | None => initial_ordinal end in
      let? read := read_projection_steps file io_error start_offset expected_ordinal thread_id (subagent_history_start_ordinal meta) in
      let '(steps, next_offset) := read in
      if is_nil steps && (start_offset =? next_offset)%N then Ok store
      else apply_projection store thread_id start_offset next_offset initial_ordinal steps
  end.

End projection.
