(* ===== verification/ProjectionPasses.v ===== *)
(** * Correctness of materialising a thread's history

    Reading a growing rollout in several passes is reading it once: the
    checkpoint that a pass leaves is a state of the reader, also when lines were
    rejected or a line was only partly written.  The row of a finished turn
    never changes again. *)

From S2P Require Import Prelude RustStr Truncate OutputTruncation ResponseItem ContextFragments EventMapping ThreadItems ThreadHistory.
From S2P Require Import HistoryProjection.
From S2P Require ContextManager.

(** ** Lines *)

Section lines.
Implicit Types (line bytes : list N) (lines : list (list N)).

(** The lines that are complete. *)
Fixpoint complete_lines line bytes : list (list N) :=
  match bytes with
  | [] => []
  | b :: bytes => if (b =? newline)%N then (line ++ [b]) :: complete_lines [] bytes else complete_lines (line ++ [b]) bytes
  end.

Fixpoint partial_line line bytes : list N :=
  match bytes with
  | [] => line
  | b :: bytes => if (b =? newline)%N then partial_line [] bytes else partial_line (line ++ [b]) bytes
  end.

Definition no_newline line : Prop := Forall (fun b => (b =? newline)%N = false) line.
Definition full_line line : Prop := exists body, line = body ++ [newline] /\ no_newline body.

Lemma no_complete_lines line bytes : rposition (fun b => (b =? newline)%N) bytes = None -> complete_lines line bytes = [].
Proof.
  revert line. induction bytes as [|b bytes IH]; intros line H; simpl in *; [done|].
  destruct (rposition _ bytes); [done|]. destruct (b =? newline)%N; [done|]. by apply IH.
Qed.

Lemma split_inclusive_complete n line bytes :
  rposition (fun b => (b =? newline)%N) bytes = Some n -> split_inclusive line (take (S n) bytes) = complete_lines line bytes.
Proof.
  revert n line. induction bytes as [|b bytes IH]; intros n line H; simpl in *; [done|].
  destruct (rposition _ bytes) as [m|] eqn:R; simplify_eq/=.
  - destruct (b =? newline)%N; [f_equal|]; by apply IH.
  - destruct (b =? newline)%N eqn:E; simplify_eq. rewrite take_0. simpl. by rewrite no_complete_lines.
Qed.

Lemma split_complete bytes : split_inclusive [] (take (complete_byte_count bytes) bytes) = complete_lines [] bytes.
Proof.
  unfold complete_byte_count. destruct (rposition _ bytes) as [n|] eqn:R; [by apply split_inclusive_complete |].
  by rewrite take_0, no_complete_lines.
Qed.

Lemma complete_lines_concat line bytes : line ++ bytes = concat (complete_lines line bytes) ++ partial_line line bytes.
Proof.
  revert line. induction bytes as [|b bytes IH]; intros line; simpl; [by rewrite app_nil_r |].
  destruct (b =? newline)%N; simpl.
  - rewrite <- app_assoc, <- (IH []). by rewrite <- app_assoc.
  - rewrite <- IH. by rewrite <- app_assoc.
Qed.

Lemma complete_lines_full line bytes : no_newline line -> Forall full_line (complete_lines line bytes).
Proof.
  revert line. induction bytes as [|b bytes IH]; intros line H; simpl; [done|].
  destruct (b =? newline)%N eqn:E.
  - constructor; [|apply IH; constructor]. exists line. apply N.eqb_eq in E as ->. done.
  - apply IH. apply Forall_app. split; [done|]. by repeat constructor.
Qed.

Lemma complete_lines_body line body bytes :
  no_newline body -> complete_lines line (body ++ newline :: bytes) = (line ++ body ++ [newline]) :: complete_lines [] bytes.
Proof.
  revert line. induction body as [|b body IH]; intros line H; simpl; [done|].
  apply Forall_cons in H as [Hb H]. rewrite Hb, IH by done. by rewrite <- app_assoc.
Qed.

Lemma complete_lines_app lines bytes :
  Forall full_line lines -> complete_lines [] (concat lines ++ bytes) = lines ++ complete_lines [] bytes.
Proof.
  induction 1 as [|l ls (body & -> & H) _ IH]; [done|]. simpl. rewrite <- !app_assoc. simpl.
  by rewrite complete_lines_body, IH.
Qed.

(** What follows the lines of a prefix, in the file and in a longer one. *)
Lemma complete_lines_after lines lines' bytes extra :
  complete_lines [] bytes = lines ++ lines' ->
  length (concat lines) <= length bytes /\
  complete_lines [] (bytes ++ extra) = lines ++ complete_lines [] (drop (length (concat lines)) (bytes ++ extra)).
Proof.
  intros E. pose proof (complete_lines_concat [] bytes) as C. rewrite E in C. simpl in C.
  rewrite concat_app, <- app_assoc in C. rewrite C. split; [rewrite length_app; lia |].
  rewrite <- !app_assoc, drop_app_length. apply complete_lines_app.
  pose proof (complete_lines_full [] bytes (List.Forall_nil _)) as F. rewrite E in F. by apply Forall_app in F as [F _].
Qed.

End lines.

(** ** The reader *)

Section passes.
Context {json : SerdeJson} {parsers : FragmentParsers} {lib : ThreadLib} {projection_lib : ProjectionLib}.
Context (thread_id : str) (start : option N).
Implicit Types (s : ReadState) (steps : list RolloutProjectionStep) (lines : list (list N)) (line : list N).

Definition fresh_read (ordinal offset : N) : ReadState := mkRead [] ordinal offset 0 offset.

(** The state that the checkpoint of [s] stands for. *)
Definition checkpoint s : ReadState := mkRead (projections s) (next_ordinal s) (next_offset s) 0 (next_offset s).

Definition add_steps steps s : ReadState :=
  mkRead (steps ++ projections s) (next_ordinal s) (next_offset s) (pending_rejected_line_count s) (line_start_offset s).

Lemma read_line_cases line s s1 :
  read_line thread_id start line s = Ok s1 ->
  line_start_offset s1 = (line_start_offset s + N.of_nat (length line))%N /\ (s1 = checkpoint s1 \/ checkpoint s1 = checkpoint s).
Proof.
  unfold read_line, checked_add, reject_line, checkpoint.
  repeat (case_match; simplify_eq/=; try done); intros H'; simplify_eq/=; split; auto;
    repeat match goal with E : (_ =? _)%N = true |- _ => apply N.eqb_eq in E; rewrite E end; auto.
Qed.

Lemma read_line_add steps line s :
  read_line thread_id start line (add_steps steps s)
  = match read_line thread_id start line s with Ok s1 => Ok (add_steps steps s1) | Err e => Err e end.
Proof.
  unfold read_line, project_line, reject_line, add_steps. simpl.
  repeat (case_match; simplify_eq/=; try done); by rewrite <- ?app_assoc.
Qed.

Lemma read_lines_app lines lines' s :
  read_lines thread_id start (lines ++ lines') s
  = match read_lines thread_id start lines s with Ok s1 => read_lines thread_id start lines' s1 | Err e => Err e end.
Proof.
  revert s. induction lines as [|l ls IH]; intros s; simpl; [done|].
  destruct (read_line thread_id start l s); simpl; [apply IH | done].
Qed.

Lemma read_lines_add steps lines s :
  read_lines thread_id start lines (add_steps steps s)
  = match read_lines thread_id start lines s with Ok s1 => Ok (add_steps steps s1) | Err e => Err e end.
Proof.
  revert s. induction lines as [|l ls IH]; intros s; simpl; [done|]. rewrite read_line_add.
  destruct (read_line thread_id start l s); simpl; [apply IH | done].
Qed.

(** A checkpoint is the state after some of the lines. *)
Lemma read_lines_checkpoint lines ordinal offset s1 :
  read_lines thread_id start lines (fresh_read ordinal offset) = Ok s1 ->
  line_start_offset s1 = (offset + N.of_nat (length (concat lines)))%N /\
  exists lines1 lines2, lines = lines1 ++ lines2 /\
    read_lines thread_id start lines1 (fresh_read ordinal offset) = Ok (checkpoint s1) /\
    next_offset s1 = (offset + N.of_nat (length (concat lines1)))%N.
Proof.
  revert s1. induction lines as [|l ls IH] using rev_ind; intros s1 H.
  - simplify_eq/=. split; [lia|]. exists [], []. simpl. split_and!; [done | done | lia].
  - rewrite read_lines_app in H. destruct (read_lines thread_id start ls _) as [s|] eqn:E; [|done]. simpl in H.
    destruct (IH s eq_refl) as (L & l1 & l2 & -> & E1 & N1).
    destruct (read_line thread_id start l s) as [s'|] eqn:R; [|done]. simplify_eq/=.
    destruct (read_line_cases _ _ _ R) as [L' C]. split.
    + rewrite L', L, !concat_app, !length_app. simpl. rewrite app_nil_r. lia.
    + destruct C as [C | C].
      * exists ((l1 ++ l2) ++ [l]), []. rewrite app_nil_r. split_and!; [done | |].
        -- rewrite read_lines_app, E. simpl. rewrite R. simpl. by rewrite <- C.
        -- rewrite C in L'. simpl in L'. rewrite L', L, !concat_app, !length_app. simpl. rewrite app_nil_r. lia.
      * exists l1, (l2 ++ [l]). rewrite C. split_and!; [by rewrite app_assoc | done |].
        assert (X : next_offset s1 = next_offset s) by exact (f_equal next_offset C). by rewrite X.
Qed.

(** ** Ordinals *)

Definition step_end (step : RolloutProjectionStep) : N :=
  match step with StepLine l => pl_ordinal l + 1 | SkippedOrdinalRange _ e => e end.

Definition steps_end (ordinal : N) steps : N := fold_left (fun _ step => step_end step) steps ordinal.

Lemma project_line_ordinal sub ordinal line_end (l : RolloutLine RealtimeItem) s projected :
  project_line sub ordinal line_end l s = Some projected -> pl_ordinal projected = ordinal.
Proof. unfold project_line. intros H. by apply bind_Some in H as (fallback & _ & [= <-]). Qed.

Lemma read_line_ordinal ordinal line s s1 :
  next_ordinal s = steps_end ordinal (projections s) -> read_line thread_id start line s = Ok s1 ->
  next_ordinal s1 = steps_end ordinal (projections s1).
Proof.
  intros I. unfold read_line, checked_add, reject_line, steps_end.
  repeat (case_match; simplify_eq/=; try done); intros H'; simplify_eq/=; try done;
    rewrite !fold_left_app; simpl;
    match goal with E : project_line _ _ _ _ _ = Some _ |- _ => by rewrite (project_line_ordinal _ _ _ _ _ _ E) end.
Qed.

Lemma read_lines_ordinal lines ordinal offset s1 :
  read_lines thread_id start lines (fresh_read ordinal offset) = Ok s1 -> next_ordinal s1 = steps_end ordinal (projections s1).
Proof.
  assert (I : next_ordinal (fresh_read ordinal offset) = steps_end ordinal (projections (fresh_read ordinal offset))) by done.
  revert I. generalize (fresh_read ordinal offset). induction lines as [|l ls IH]; intros s I H; simplify_eq/=; [done|].
  destruct (read_line thread_id start l s) as [s'|] eqn:R; simplify_eq/=. eapply IH; [|exact H]. by eapply read_line_ordinal.
Qed.

Lemma sqlite_integer_ok n field z : sqlite_integer n field = Ok z -> z = Z.of_N n.
Proof. unfold sqlite_integer. by case_match; intros; simplify_eq. Qed.

Lemma apply_step_ordinal step r z r' z' : apply_step thread_id step (r, z) = Ok (r', z') -> z' = Z.of_N (step_end step).
Proof.
  unfold apply_step, result_bind. destruct step as [l|a e]; repeat (case_match; simplify_eq/=; try done); intros; simplify_eq/=;
    repeat match goal with
    | E : sqlite_integer _ _ = Ok _ |- _ => apply sqlite_integer_ok in E; subst
    | E : negb _ = false |- _ => apply negb_false_iff, Z.eqb_eq in E; subst
    end; try done; lia.
Qed.

Lemma apply_steps_app steps steps' x :
  apply_steps thread_id (steps ++ steps') x
  = match apply_steps thread_id steps x with Ok y => apply_steps thread_id steps' y | Err e => Err e end.
Proof.
  revert x. induction steps as [|step steps IH]; intros x; simpl; [done|].
  destruct (apply_step thread_id step x); simpl; [apply IH | done].
Qed.

Lemma apply_steps_ordinal steps r ordinal r' z' :
  apply_steps thread_id steps (r, Z.of_N ordinal) = Ok (r', z') -> z' = Z.of_N (steps_end ordinal steps).
Proof.
  revert r ordinal. induction steps as [|step steps IH]; intros r ordinal H; cbn [apply_steps] in H; [by simplify_eq|].
  destruct (apply_step thread_id step (r, Z.of_N ordinal)) as [[r1 z1]|] eqn:E; [|done]. simpl in H.
  apply apply_step_ordinal in E as ->. by apply IH in H.
Qed.

(** ** Passes *)

Definition read_result (o : result ReadState str) : result (list RolloutProjectionStep * N) str :=
  match o with Ok s => Ok (projections s, next_offset s) | Err e => Err e end.

Lemma read_projection_steps_lines file io_error offset ordinal :
  (offset <= N.of_nat (length file))%N ->
  read_projection_steps (Some file) io_error offset ordinal thread_id start
  = read_result (read_lines thread_id start (complete_lines [] (drop (N.to_nat offset) file)) (fresh_read ordinal offset)).
Proof.
  intros L. unfold read_projection_steps. apply N.ltb_ge in L. rewrite L. cbv zeta. rewrite split_complete.
  by destruct (read_lines _ _ _ _).
Qed.

(** Reading a longer file from the checkpoint of a pass. *)
Lemma read_longer file extra io_error offset ordinal steps1 offset1 :
  read_projection_steps (Some file) io_error offset ordinal thread_id start = Ok (steps1, offset1) ->
  (offset <= offset1)%N /\
  read_projection_steps (Some (file ++ extra)) io_error offset ordinal thread_id start
  = match read_projection_steps (Some (file ++ extra)) io_error offset1 (steps_end ordinal steps1) thread_id start with
    | Ok (steps2, offset2) => Ok (steps1 ++ steps2, offset2)
    | Err e => Err e
    end.
Proof.
  intros H. destruct (N.lt_ge_cases (N.of_nat (length file)) offset) as [Lt|L].
  { unfold read_projection_steps in H. apply N.ltb_lt in Lt. by rewrite Lt in H. }
  rewrite read_projection_steps_lines in H by done.
  destruct (read_lines thread_id start _ _) as [s1|] eqn:R; [|done]. injection H as <- <-.
  destruct (read_lines_checkpoint _ _ _ _ R) as (_ & l1 & l2 & E & R1 & N1).
  destruct (complete_lines_after l1 l2 _ extra E) as [Le C].
  rewrite length_drop in Le. split; [lia|].
  assert (D : drop (N.to_nat offset) (file ++ extra) = drop (N.to_nat offset) file ++ extra) by (apply drop_app_le; lia).
  rewrite !read_projection_steps_lines by (rewrite length_app; lia). rewrite D, C, read_lines_app, R1.
  replace (drop (N.to_nat (next_offset s1)) (file ++ extra))
    with (drop (length (concat l1)) (drop (N.to_nat offset) file ++ extra))
    by (rewrite <- D, drop_drop; f_equal; rewrite N1; lia).
  replace (checkpoint s1) with (add_steps (projections s1) (fresh_read (steps_end ordinal (projections s1)) (next_offset s1))).
  - rewrite read_lines_add. clear R R1. by destruct (read_lines thread_id start _ _).
  - unfold add_steps, fresh_read, checkpoint. simpl. rewrite app_nil_r. by rewrite (read_lines_ordinal _ _ _ _ R).
Qed.

End passes.

Section materialize.
Context {json : SerdeJson} {parsers : FragmentParsers} {lib : ThreadLib} {projection_lib : ProjectionLib}.
Implicit Types (store : HistoryStore).

(** Where the next pass starts. *)
Definition read_from (initial_ordinal : N) store : N * N :=
  match projection_row store with Some (offset, ordinal) => (Z.to_N offset, Z.to_N ordinal) | None => (0%N, initial_ordinal) end.

Definition valid_row store : Prop :=
  match projection_row store with Some (offset, ordinal) => (0 <= offset)%Z /\ (0 <= ordinal)%Z | None => True end.

Lemma projection_state_valid store thread_id :
  valid_row store -> projection_state store thread_id = Ok (match projection_row store with
    | Some (offset, ordinal) => Some (Z.to_N offset, Z.to_N ordinal) | None => None end).
Proof.
  unfold valid_row, projection_state. destruct (projection_row store) as [[offset ordinal]|]; [|done]. intros [H1 H2].
  destruct (Z.ltb_spec offset 0); [lia|]. destruct (Z.ltb_spec ordinal 0); [lia|]. done.
Qed.

Lemma materialize_unfold thread_id meta file io_error store :
  valid_row store ->
  materialize_to_sqlite thread_id (Ok meta) (Some file) io_error store =
  let initial := default 0%N (history_base_end_ordinal_exclusive meta) in
  let '(offset, ordinal) := read_from initial store in
  match read_projection_steps (Some file) io_error offset ordinal thread_id (subagent_history_start_ordinal meta) with
  | Ok (steps, next) =>
      if is_nil steps && (offset =? next)%N then Ok store else apply_projection store thread_id offset next initial steps
  | Err e => Err e
  end.
Proof.
  intros V. unfold materialize_to_sqlite, read_from. rewrite projection_state_valid by done. cbn [result_bind].
  destruct (projection_row store) as [[offset ordinal]|]; cbn zeta; cbn [result_bind];
    destruct (read_projection_steps _ _ _ _ _ _) as [[steps next]|]; done.
Qed.

Lemma read_from_ordinal initial store :
  valid_row store -> snd (default (0%Z, Z.of_N initial) (projection_row store)) = Z.of_N (snd (read_from initial store)) /\
  fst (default (0%Z, Z.of_N initial) (projection_row store)) = Z.of_N (fst (read_from initial store)).
Proof.
  unfold valid_row, read_from. destruct (projection_row store) as [[offset ordinal]|]; simpl; [|done].
  intros [H1 H2]. rewrite !Z2N.id by done. done.
Qed.

(** What a successful transaction does. *)
Lemma apply_projection_ok thread_id initial steps next store store' :
  valid_row store -> apply_projection store thread_id (fst (read_from initial store)) next initial steps = Ok store' ->
  exists r, apply_steps thread_id steps (rows store, Z.of_N (snd (read_from initial store)))
              = Ok (r, Z.of_N (steps_end (snd (read_from initial store)) steps)) /\
    store' = mkStore r (Some (Z.of_N next, Z.of_N (steps_end (snd (read_from initial store)) steps))) /\
    sqlite_integer initial (lit "rollout ordinal") = Ok (Z.of_N initial) /\
    sqlite_integer (fst (read_from initial store)) (lit "rollout byte offset") = Ok (Z.of_N (fst (read_from initial store))) /\
    sqlite_integer next (lit "rollout byte offset") = Ok (Z.of_N next).
Proof.
  intros V. destruct (read_from_ordinal initial store V) as [Eo Ef]. unfold apply_projection.
  destruct (sqlite_integer initial _) as [i|] eqn:E1; [|done]. apply sqlite_integer_ok in E1 as X; subst i. cbn [result_bind].
  destruct (default _ _) as [offset ordinal]. simpl in Eo, Ef. subst offset ordinal.
  destruct (sqlite_integer (fst _) _) as [i|] eqn:E2; [|done]. apply sqlite_integer_ok in E2 as X; subst i. cbn [result_bind].
  rewrite Z.eqb_refl. cbn [negb].
  destruct (apply_steps _ _ _) as [[r z]|] eqn:A; [|done]. cbn [result_bind]. apply apply_steps_ordinal in A as X; subst z.
  destruct (sqlite_integer next _) as [i|] eqn:E3; [|done]. apply sqlite_integer_ok in E3 as X; subst i. cbn [result_bind].
  intros H; simplify_eq. exists r. by split_and!.
Qed.

Lemma apply_projection_compute thread_id initial steps offset next store i o :
  valid_row store -> offset = fst (read_from initial store) ->
  sqlite_integer initial (lit "rollout ordinal") = Ok i -> sqlite_integer offset (lit "rollout byte offset") = Ok o ->
  apply_projection store thread_id offset next initial steps =
  match apply_steps thread_id steps (rows store, Z.of_N (snd (read_from initial store))) with
  | Ok (r, z) => match sqlite_integer next (lit "rollout byte offset") with Ok n => Ok (mkStore r (Some (n, z))) | Err e => Err e end
  | Err e => Err e
  end.
Proof.
  intros V -> E1 E2. unfold apply_projection. rewrite E1. apply sqlite_integer_ok in E1 as X; subst i. cbn [result_bind].
  destruct (read_from_ordinal initial store V) as [Eo Ef].
  destruct (default _ _) as [offset ordinal]. simpl in Eo, Ef. subst offset ordinal. rewrite E2.
  apply sqlite_integer_ok in E2 as X; subst o. cbn [result_bind]. rewrite Z.eqb_refl. cbn [negb].
  destruct (apply_steps _ _ _) as [[r z]|]; [|done]. cbn [result_bind]. by destruct (sqlite_integer next _).
Qed.

Lemma materialize_valid thread_id meta file io_error store store1 :
  materialize_to_sqlite thread_id meta (Some file) io_error store = Ok store1 -> valid_row store /\ exists m, meta = Ok m.
Proof.
  unfold materialize_to_sqlite, projection_state, valid_row. destruct (projection_row store) as [[offset ordinal]|].
  - destruct (Z.ltb_spec offset 0); [done|]. destruct (Z.ltb_spec ordinal 0); [done|]. cbn [result_bind].
    destruct meta; [|done]. eauto.
  - cbn [result_bind]. destruct meta; [|done]. eauto.
Qed.

(** C24: materialising a rollout pass by pass as it grows is materialising it at
    once: after a successful pass over a prefix of the file, cut at any byte, a
    pass over the longer file gives the result, error or new tables and
    checkpoint, that one pass over it from the earlier store gives.  Blank and
    rejected lines and lines that were half written at the first pass are
    neither lost nor read twice. *)
Theorem materialized_in_passes thread_id meta file extra io_error store store1 :
  materialize_to_sqlite thread_id meta (Some file) io_error store = Ok store1 ->
  materialize_to_sqlite thread_id meta (Some (file ++ extra)) io_error store1
  = materialize_to_sqlite thread_id meta (Some (file ++ extra)) io_error store.
Proof.
  intros H. destruct (materialize_valid _ _ _ _ _ _ H) as [V [m ->]].
  rewrite materialize_unfold in H by done. rewrite (materialize_unfold _ _ _ _ store) by done. cbv zeta in H |- *.
  set (initial := default 0%N (history_base_end_ordinal_exclusive m)) in *.
  destruct (read_from initial store) as [offset ordinal] eqn:F.
  destruct (read_projection_steps (Some file) io_error offset ordinal _ _) as [[steps1 offset1]|] eqn:R; [|done].
  destruct (read_longer _ _ _ extra _ _ _ _ _ R) as [Le L].
  destruct (is_nil steps1 && (offset =? offset1)%N) eqn:Em.
  { simplify_eq. rewrite materialize_unfold by done. cbv zeta. fold initial. by rewrite F. }
  pose proof (apply_projection_ok thread_id initial steps1 offset1 store store1 V) as A. rewrite F in A.
  destruct (A H) as (r & St & -> & E1 & E2 & E3). clear A H.
  rewrite materialize_unfold by (unfold valid_row; simpl; lia). cbv zeta. unfold read_from at 1. cbn [projection_row].
  rewrite !N2Z.id, L. fold initial. cbn [fst snd] in St, E2 |- *.
  destruct (read_projection_steps _ _ offset1 _ _ _) as [[steps2 offset2]|] eqn:R2; [|done].
  destruct (read_longer _ _ _ [] _ _ _ _ _ R2) as [Le2 _].
  rewrite (apply_projection_compute thread_id initial (steps1 ++ steps2) offset offset2 store _ _ V ltac:(by rewrite F) E1 E2), apply_steps_app.
  rewrite F. cbn [snd]. rewrite St.
  assert (B : is_nil (steps1 ++ steps2) && (offset =? offset2)%N = false).
  { destruct steps1; [|done]. simpl in Em |- *. apply N.eqb_neq in Em. destruct (is_nil steps2); [|done]. simpl. apply N.eqb_neq. lia. }
  rewrite B. destruct (is_nil steps2 && (offset1 =? offset2)%N) eqn:Em2.
  - apply andb_true_iff in Em2 as [N%is_nil_true <-%N.eqb_eq]. subst steps2. simpl. by rewrite E3.
  - rewrite (apply_projection_compute _ _ steps2 offset1 _ _ (Z.of_N initial) (Z.of_N offset1)).
    + unfold read_from. simpl. by rewrite N2Z.id.
    + unfold valid_row. simpl. lia.
    + unfold read_from. simpl. by rewrite N2Z.id.
    + done.
    + done.
Qed.

(** ** Finished turns *)

Implicit Types (r : HistoryRows) (row : TurnRow).

(** A row has an end exactly when its turn has ended, at most at [z]. *)
Definition rows_wf (z : Z) r : Prop :=
  forall id row, turn_rows r !! id = Some row ->
  match tr_rollout_end_ordinal row with
  | Some e => (e <= z)%Z /\ is_terminal (tr_status row) = true
  | None => tr_status row = TurnInProgress
  end.

(** The rows of turns that ended before [z] stay. *)
Definition keeps (z : Z) r r' : Prop :=
  forall id row e, turn_rows r !! id = Some row -> tr_rollout_end_ordinal row = Some e -> (e < z)%Z -> turn_rows r' !! id = Some row.

(** An operation at the ordinal [z]. *)
Definition sound_at (z : Z) r r' : Prop := rows_wf z r -> rows_wf z r' /\ keeps z r r'.

Lemma sound_same z r r' : turn_rows r' = turn_rows r -> sound_at z r r'.
Proof. intros E W. unfold rows_wf, keeps. rewrite E. eauto. Qed.

Lemma sound_trans z r1 r2 r3 : sound_at z r1 r2 -> sound_at z r2 r3 -> sound_at z r1 r3.
Proof. intros S1 S2 W. destruct (S1 W) as [W2 K1]. destruct (S2 W2) as [W3 K2]. split; [done|]. intros id row e L E Lt. eauto. Qed.

(** Writing one row that is new, or that has not ended before [z]. *)
Lemma sound_insert z r id row :
  (match tr_rollout_end_ordinal row with
   | Some e => (e <= z)%Z /\ is_terminal (tr_status row) = true
   | None => tr_status row = TurnInProgress
   end) ->
  (forall old e, turn_rows r !! id = Some old -> tr_rollout_end_ordinal old = Some e -> (e < z)%Z -> False) ->
  sound_at z r (set_turn_rows (<[id := row]> (turn_rows r)) r).
Proof.
  intros Wr N W. split.
  - intros id' row' L. simpl in L. destruct (decide (id' = id)) as [->|Ne].
    + rewrite lookup_insert_eq in L. by simplify_eq.
    + rewrite lookup_insert_ne in L by done. by apply (W id').
  - intros id' row' e L E Lt. simpl. destruct (decide (id' = id)) as [->|Ne]; [by destruct (N row' e) |].
    by rewrite lookup_insert_ne by done.
Qed.

Lemma is_open_end row : is_open row = true -> tr_rollout_end_ordinal row = None.
Proof. unfold is_open. by destruct (tr_rollout_end_ordinal row). Qed.

Lemma upsert_turn_sound z start end_offset turn r : sound_at z r (upsert_turn z start end_offset turn r).
Proof.
  unfold upsert_turn. destruct (is_terminal (tc_status turn)) eqn:T; destruct (turn_rows r !! tc_turn_id turn) as [row|] eqn:L;
    try (destruct (is_open row) eqn:O; [apply is_open_end in O|by apply sound_same]);
    (apply sound_insert; [simpl; first [by destruct (tc_status turn) | split; [lia | done]] | intros old e L' E' _; congruence]).
Qed.

Lemma fill_summary_sound z id r : sound_at z r (fill_summary z id r).
Proof.
  unfold fill_summary. destruct (turn_rows r !! id) as [row|] eqn:L; [|by apply sound_same].
  destruct (bool_decide _ || bool_decide _) eqn:C; [|by apply sound_same].
  intros W. pose proof (W id row L) as Wr. revert W. apply sound_insert; [done|].
  intros old e L' E' Lt. simplify_eq. rewrite E' in Wr. apply orb_true_iff in C as [C|C]; apply bool_decide_eq_true in C.
  - simplify_eq. lia.
  - rewrite C in Wr. by destruct Wr.
Qed.

Lemma summarize_item_sound z change r : sound_at z r (summarize_item change r).
Proof.
  unfold summarize_item. destruct (turn_rows r !! ic_turn_id change) as [row|] eqn:L; [|by apply sound_same].
  destruct (is_open row) eqn:O; [apply is_open_end in O|by apply sound_same].
  intros W. pose proof (W _ row L) as Wr. revert W.
  destruct (is_user_message (ic_item change)); [|destruct (is_final_answer (ic_item change)); [|by apply sound_same]];
    (apply sound_insert; [done | intros old e L' E' _; congruence]).
Qed.

Lemma apply_items_sound thread_id z fallback changes r r' :
  apply_items thread_id z fallback changes r = Ok r' -> sound_at z r r'.
Proof.
  revert r. induction changes as [|x xs IH]; intros r H; simpl in H; [simplify_eq; by apply sound_same |].
  unfold apply_item in H. destruct (coalesce_sql _ _) as [created|]; [|done]. simpl in H.
  eapply sound_trans; [|by apply IH]. eapply sound_trans; [|apply summarize_item_sound]. by apply sound_same.
Qed.

Lemma apply_change_set_sound thread_id z start end_offset fallback changes r r' :
  apply_change_set thread_id z start end_offset fallback changes r = Ok r' -> sound_at z r r'.
Proof.
  unfold apply_change_set. intros H. eapply sound_trans; [|by eapply apply_items_sound]. clear H.
  revert r. induction (changed_turns changes) as [|x xs IH]; intros r; [by apply sound_same |]. simpl.
  eapply sound_trans; [|apply IH]. eapply sound_trans; [apply upsert_turn_sound | apply fill_summary_sound].
Qed.

Lemma rows_wf_mono z z' r : (z <= z')%Z -> rows_wf z r -> rows_wf z' r.
Proof. intros Le W id row L. specialize (W id row L). destruct (tr_rollout_end_ordinal row); [|done]. destruct W. split; [lia|done]. Qed.

(** Before the step at [z], the turns ended before [z]. *)
Lemma apply_step_sound thread_id step r z r' z' :
  apply_step thread_id step (r, z) = Ok (r', z') -> rows_wf (z - 1) r -> (z <= z')%Z /\ rows_wf (z' - 1) r' /\ keeps z r r'.
Proof.
  intros H W. destruct step as [l|a e]; unfold apply_step in H.
  - destruct (sqlite_integer (pl_ordinal l) _) as [ordinal|]; [|done]. cbn [result_bind] in H.
    destruct (negb _) eqn:N; [done|]. apply negb_false_iff, Z.eqb_eq in N as ->.
    destruct (sqlite_integer (pl_start_byte_offset l) _) as [so|]; [|done]. cbn [result_bind] in H.
    destruct (sqlite_integer (pl_end_byte_offset l) _) as [eo|]; [|done]. cbn [result_bind] in H.
    destruct (apply_change_set _ _ _ _ _ _ _) as [r1|] eqn:A; [|done]. cbn [result_bind] in H.
    apply apply_change_set_sound in A. destruct (A (rows_wf_mono (z - 1) z r ltac:(lia) W)) as [W1 K1].
    destruct (match pl_realtime_item l with Some _ => _ | None => _ end) as [r2|] eqn:Rt; [|done]. cbn [result_bind] in H.
    assert (T : turn_rows r2 = turn_rows r1).
    { destruct (pl_realtime_item l) as [i|]; [|by simplify_eq]. unfold insert_realtime_item in Rt. destruct (pl_fallback_created_at_ms l); [|done]. by injection Rt as <-. }
    case_match; [|done]. simplify_eq. split; [lia|]. destruct (sound_same z r1 r' T W1) as [W2 K2].
    split; [by replace (z + 1 - 1)%Z with z by lia |]. intros id row e L E Lt. eauto.
  - destruct (sqlite_integer a _) as [s|]; [|done]. cbn [result_bind] in H. destruct (negb _) eqn:N; [done|].
    apply negb_false_iff, Z.eqb_eq in N as ->. destruct (sqlite_integer e _) as [x|]; [|done]. cbn [result_bind] in H.
    destruct (Z.leb_spec x z); [done|]. simplify_eq. split_and!; [lia | | by intros ? ? ? ? _ _].
    by apply (rows_wf_mono (z - 1)); [lia|].
Qed.

Lemma apply_steps_sound thread_id steps r z r' z' :
  apply_steps thread_id steps (r, z) = Ok (r', z') -> rows_wf (z - 1) r -> (z <= z')%Z /\ rows_wf (z' - 1) r' /\ keeps z r r'.
Proof.
  revert r z. induction steps as [|step steps IH]; intros r z H W; cbn [apply_steps] in H.
  - simplify_eq. split_and!; [lia | done | by intros ? ? ? ? _ _].
  - destruct (apply_step thread_id step (r, z)) as [[r1 z1]|] eqn:E; [|done]. cbn [result_bind] in H.
    destruct (apply_step_sound _ _ _ _ _ _ E W) as (Le1 & W1 & K1). destruct (IH r1 z1 H W1) as (Le2 & W2 & K2).
    split_and!; [lia | done |]. intros id row e L Ee Lt. eapply K2; [by eapply K1 | done | lia].
Qed.

(** The stores that passes leave. *)
Definition store_ok store : Prop :=
  match projection_row store with Some (_, ordinal) => rows_wf (ordinal - 1) (rows store) | None => turn_rows (rows store) = ∅ end.

Lemma store_ok_wf store ordinal : store_ok store -> rows_wf (snd (default (0%Z, ordinal) (projection_row store)) - 1) (rows store).
Proof.
  unfold store_ok. destruct (projection_row store) as [[o n]|]; [done|]. intros E id row L. by rewrite E, lookup_empty in L.
Qed.

(** C25: once the row of a turn has an end, no later pass changes it: the first
    completion, failure or interruption of a turn is final, whatever lines
    follow.  In the store of every pass a turn's row has an end exactly when its
    status is terminal, before the next ordinal. *)
Theorem finished_turns_stay thread_id meta file io_error store store' :
  store_ok store -> materialize_to_sqlite thread_id meta (Some file) io_error store = Ok store' ->
  store_ok store' /\
  forall id row e, turn_rows (rows store) !! id = Some row -> tr_rollout_end_ordinal row = Some e ->
                   turn_rows (rows store') !! id = Some row.
Proof.
  intros S H. destruct (materialize_valid _ _ _ _ _ _ H) as [V [m ->]]. rewrite materialize_unfold in H by done. cbv zeta in H.
  set (initial := default 0%N (history_base_end_ordinal_exclusive m)) in *.
  destruct (read_from initial store) as [offset ordinal] eqn:F.
  destruct (read_projection_steps _ _ _ _ _ _) as [[steps next]|]; [|done].
  destruct (is_nil steps && _); [simplify_eq; eauto |].
  pose proof (apply_projection_ok thread_id initial steps next store store' V) as A. rewrite F in A.
  destruct (A H) as (r & St & -> & _). cbn [snd] in St.
  pose proof (store_ok_wf store (Z.of_N initial) S) as W. destruct (read_from_ordinal initial store V) as [Eo _].
  rewrite Eo, F in W. cbn [snd] in W. destruct (apply_steps_sound _ _ _ _ _ _ St W) as (_ & W' & K). split; [done|].
  intros id row e L E. apply (K id row e L E). pose proof (W id row L) as X. rewrite E in X. lia.
Qed.

End materialize.

(** ** Examples *)

(** A line is a letter for its event and a digit for its ordinal. *)
Definition line_json : SerdeJson := {| Value := list N; Number := unit |}.
#[local] Existing Instances line_json ContextManager.sample_parsers.

Definition line_thread_lib : ThreadLib := {|
  PathUri := str; AbsolutePathBuf := str; LegacyAppPathString := str;
  path_uri_into := fun path => path; absolute_path_into := fun path => path;
  path_uri_join := fun base path => Some (base ++ path); absolute_path_join := fun base path => base ++ path; json_null := [];
  redact_secrets := fun text => text; shlex_join := @List.concat _; parse_command := fun _ => [];
  ReviewOutputEvent := str; render_review_output_text := fun text => text;
  ReasoningEffort := unit; OutputBody := unit; ImageGenerationFailure := unit; ReviewTarget := unit |}.
#[local] Existing Instance line_thread_lib.

Definition line_projection : ProjectionLib := {|
  RealtimeItem := str;
  realtime_item_id := fun id => id;
  from_slice := fun bytes => if str_eqb (take 1 bytes) (lit "!") then None else Some bytes;
  get_ordinal := fun value => (fun digit => digit - 48)%N <$> value !! 1;
  decode_rollout_line := fun value =>
    let event e := Some (mkLine (lit "now") None (LineHistory (HEvent e))) in
    if str_eqb (take 1 value) (lit "s") then event (EvTurnStarted (lit "turn") (Some 1%Z))
    else if str_eqb (take 1 value) (lit "p") then event (EvItemCompleted (lit "turn") (CorePlan (lit "plan") (lit "do")) None 5)
    else if str_eqb (take 1 value) (lit "c") then event (EvTurnComplete (mkTurnComplete (lit "turn") None None (Some 2%Z) None))
    else if str_eqb (take 1 value) (lit "r") then Some (mkLine (lit "now") None (LineRealtime (lit "sound")))
    else None;
  parse_from_rfc3339 := fun _ => Some 7%Z |}.
#[local] Existing Instance line_projection.

Definition sample_meta : SessionMeta := mkMeta None None.

(** Two lines and a rejected one, cut in the middle of the fourth. *)
Definition sample_file : list N := lit "s0" ++ [newline] ++ lit "p1" ++ [newline] ++ lit "!" ++ [newline] ++ lit "r".
Definition sample_extra : list N := lit "3" ++ [newline; newline] ++ lit "c4" ++ [newline] ++ lit "s5" ++ [newline].

Definition sample_store (file : list N) : HistoryStore :=
  match materialize_to_sqlite (lit "thread") (Ok sample_meta) (Some file) [] empty_store with Ok store => store | Err _ => empty_store end.

Lemma materialized_in_passes_witness :
  projection_row (sample_store sample_file) = Some (6, 2)%Z /\
  materialize_to_sqlite (lit "thread") (Ok sample_meta) (Some (sample_file ++ sample_extra)) [] (sample_store sample_file)
  = materialize_to_sqlite (lit "thread") (Ok sample_meta) (Some (sample_file ++ sample_extra)) [] empty_store.
Proof.
  split; [vm_compute; reflexivity |].
  apply (materialized_in_passes (lit "thread") (Ok sample_meta) sample_file sample_extra [] empty_store (sample_store sample_file)).
  vm_compute. reflexivity.
Defined.

(** The turn is complete after five lines; a later start of it is ignored. *)
Definition sample_finished : list N := sample_file ++ take 6 sample_extra.

Lemma finished_turns_stay_witness :
  is_Some (turn_rows (rows (sample_store sample_finished)) !! lit "turn" ≫= tr_rollout_end_ordinal) /\
  store_ok (sample_store (sample_file ++ sample_extra)) /\
  forall id row e, turn_rows (rows (sample_store sample_finished)) !! id = Some row -> tr_rollout_end_ordinal row = Some e ->
                   turn_rows (rows (sample_store (sample_file ++ sample_extra))) !! id = Some row.
Proof.
  split; [vm_compute; eauto |].
  apply (finished_turns_stay (lit "thread") (Ok sample_meta) (sample_file ++ sample_extra) [] (sample_store sample_finished)).
  - apply (finished_turns_stay (lit "thread") (Ok sample_meta) sample_finished [] empty_store); [done|]. vm_compute. reflexivity.
  - vm_compute. reflexivity.
Defined.
